(* ===== verification/_CoqProject ===== *)
-Q . S2P
Prelude.v
Errors.v
Paths.v
Store.v
Tree.v
Dialect.v
Lifecycle.v
LoadPaths.v
Composites.v
View.v
Session.v
Namespace.v
Coherence.v
Simulation.v
Moves.v
Copies.v
Journal.v
Invariant.v
Mutate.v
Handlers.v
SqlFs.v
Ingest.v
IngestRows.v
IngestSim.v
IngestSound.v
Scopes.v
Machine.v
Guarantees.v
Isolation.v
IngestOutcome.v
Base64.v
Manifest.v
ManifestSound.v
Contents.v
Resolve.v
Divergences.v
Exec.v
ExecSound.v
Readers.v
ApiErrors.v
Breaker.v
DistLock.v
LockRuns.v
SessionLock.v
Batch.v
Executions.v
Text.v
Replace.v
Edits.v
Auth.v
Routes.v
Writes.v
RoutesSound.v
FileRead.v
McpTools.v
ExportSound.v
Sandboxes.v
WorkerProtocol.v
WorkerSafety.v
HttpClient.v
PathLock.v
RwLock.v
Catalog.v
CatalogSafety.v
Admission.v
AdmissionSafety.v
WorkerSlots.v
Runtime.v
RateLimit.v
Ingress.v
Mutex.v
BlobCache.v
