(* ===== verification/Prelude.v ===== *)
(** * sql-fs: a verification development

    sql-fs gives shell scripts a POSIX-like filesystem stored in PostgreSQL. A
    sandbox is a tree of inodes and directory entries; a session (one process,
    one sandbox) keeps the whole tree in memory, answers reads from it, and sends
    every change to the database under an epoch that fences off stale writers.
    Around the sessions the server authenticates requests, keeps the sessions of
    a process, in it or in worker threads, and runs locks, admission control and
    rate limits, in one process and, through Redis, across replicas. A client
    library sends the requests and decides which to send again.

    ** How the parts fit together

    A script calls the facade [SqlFs]. A mutating call normalises its path,
    checks its arguments against the coherent view, and builds a mutation: the
    dialect calls to make, and the path and content changes to publish.
    Outside a script scope the persistence object runs the dialect calls at once
    in a transaction; inside a scope it records them in a journal with
    provisional inode ids, and replays the journal in one transaction when the
    scope ends. Either way the changes are then published to the view. A
    transaction starts with the fence: it expects the epoch the view was loaded
    at and is refused when another writer has moved on. Before a script runs the
    request has passed the authentication, the rate limiter, fair admission and a
    worker slot, holds the Redis lock across replicas, has found or opened the
    session in the catalogue and holds its readers-writer lock, has claimed the
    generation and refreshed the view, and has been compared with the session's
    owner; for Python and JavaScript it holds a runtime slot. What goes wrong
    becomes an error with a code, a status and a word on whether a retry is safe.

    ** The files

    Foundations:
    - [Prelude] (this file): results, the state-and-error monad, the JavaScript
      [Map] as an insertion-ordered association list ([jget], [jset], [jdel]),
      strings, sorting, tactics and hint databases.
    - [Errors]: src/src/sql-fs/errors.ts.
    - [Paths]: src/src/sql-fs/state/paths.ts.

    The database:
    - [Store]: the tables and every statement of the Postgres dialect
      (src/src/sql-fs/dialects/postgres/sandbox.ts, namespace.ts, blobs.ts) as
      computations over an open transaction [tx].
    - [Tree]: the tree a database holds, well-formedness [wf_db], the elementary
      changes of a tree.
    - [Dialect]: what each statement does to the tree, and the fence.
    - [Lifecycle]: creating, deleting, re-creating a sandbox; the blob collector.
    - [LoadPaths]: the recursive query that loads a sandbox.
    - [Composites]: each composite statement against its fallback sequence.

    The session:
    - [View]: src/src/sql-fs/state/coherent-view.ts, file-contents.ts.
    - [Session]: src/src/sql-fs/state/script-persistence.ts and
      src/src/sql-fs/script-tx-buffer.ts; [Sys] is all a session can see.
    - [Namespace]: src/src/sql-fs/state/namespace/directory-tree.ts,
      links-moves.ts, file-writes.ts and state/namespace-operations.ts.
    - [SqlFs]: the facade src/src/sql-fs/sql-fs.ts, and the function
      [fs_resolve] of migration 0008.
    - [Ingest]: bulk ingest, from the facade through
      src/src/sql-fs/state/namespace/ingest.ts to the batched statements of
      src/src/sql-fs/dialects/postgres/ingest.ts.

    What the session guarantees:
    - [Coherence]: a view is coherent with a database: the abstract
      specification of the cache (a path is in the view exactly when it is in
      the tree, with the inode's fields).
    - [Simulation], [Moves], [Copies]: the replay of each operation simulates
      the changes it publishes.
    - [Journal]: the journal of a scope and its flush, with provisional ids.
    - [Invariant], [Mutate], [Handlers], [Scopes]: the session invariant, and
      that every operation and every end of a scope keeps it.
    - [IngestRows], [IngestSim], [IngestSound]: the batched statements of a
      bulk ingest against one write per entry, the directories depth by depth,
      and the session invariant through the whole batch.
    - [Machine]: the session as a step relation, with other writers.
    - [Guarantees], [Isolation], [Contents], [Resolve], [IngestOutcome]: the
      theorems about reachable states, about what an operation cannot touch,
      about contents, about symlinks and about the outcome of a bulk ingest.
    - [Base64], [Manifest], [ManifestSound]: the manifests that bulk ingest is
      called with: src/src/api/ingest-validation.ts, ingest-manifest.ts.
    - [Divergences]: concrete runs that differ from what comments promise.

    Requests:
    - [Exec], [ExecSound]: scripts and the entries of a request:
      src/src/sql-fs/script-scope.ts, src/src/api/lib/script-tx.ts,
      src/src/api/session-runtime/engine.ts, the entry wrappers of
      src/src/api/session-manager.ts.
    - [Readers]: read requests that share a session.
    - [Text], [Replace], [Edits]: src/src/api/lib/file-ops.ts: JavaScript text
      and its encoding, the replacement loop, edits and whole-file writes.
    - [SessionLock]: what the distributed lock around a request makes of its
      outcome ([withExecLockExclusive], [withExecLockShared] of
      src/src/api/session-manager.ts), ELOCKLOST_APPLIED included.
    - [Batch], [Executions]: src/src/api/lib/batch-exec.ts, as loops over abstract
      executions and as executions of scripts on a session;
      [execWithRuntimeThrottle] of src/src/api/session-manager.ts.
    - [ApiErrors]: src/src/api/errors.ts, mcp/worker-errors.ts.
    - [Auth]: src/src/api/auth.ts, tenants.ts, routes/auth.ts, lib/jwt.ts.
    - [Routes], [Writes], [RoutesSound]: src/src/api/routes/files.ts, exec.ts
      (awaited, streamed and batch executions), ingest.ts, ownership.ts; what a
      series of writes leaves in the view; what a request may have changed.
    - [FileRead], [McpTools], [ExportSound]: the tools of
      src/src/api/mcp/tools.ts with tool-errors.ts: the paged read, the others,
      and what an export contains.
    - [Sandboxes]: the rows and sessions of all sandboxes on all replicas:
      src/src/api/routes/sandboxes.ts, the sandbox tools, the metadata
      statements of src/src/sql-fs/dialects/postgres/sandbox.ts.
    - [WorkerProtocol], [WorkerSafety]: sessions in worker threads:
      src/src/api/worker-owner/protocol.ts, request-outcome.ts, runtime.ts and
      the requests of pool.ts.
    - [HttpClient]: src/clients/typescript/src/http.ts.

    Concurrency and admission, each a state machine of its own:
    - [PathLock]: the ordering of overlapping mutations of one session
      (state/namespace-operations.ts, [#withNamespaceMutation]).
    - [RwLock]: src/src/api/rw-lock.ts.
    - [Catalog], [CatalogSafety]: the resident sessions of a process
      (src/src/api/session-manager/session-catalog.ts), against the interface
      [RwLocks] with its laws, which [RwLock] discharges.
    - [DistLock], [LockRuns], [Mutex]: src/src/api/distributed-rw-lock.ts,
      distributed-lock.ts and exec-lock-config.ts; the mutex of the second file
      refines the lock of the first.
    - [Breaker]: src/src/redis/circuit-breaker.ts.
    - [Admission], [AdmissionSafety]: src/src/api/worker-owner/admission.ts,
      against the interface [Reserver] with its laws [ReserverLaws].
    - [WorkerSlots]: the slots of src/src/api/worker-owner/pool.ts, which
      discharge that interface.
    - [Runtime]: src/src/api/session-manager/runtime-admission.ts.
    - [RateLimit]: src/src/api/rate-limit.ts.
    - [Ingress]: src/src/api/ingress-admission.ts, the charges of request
      bodies.
    - [BlobCache]: src/src/sql-fs/redis-blob-cache.ts and the reads and writes
      of dialects/postgres/blobs.ts that go through it, with the breaker of
      [Breaker].

    ** What the theorems show

    - Refinement: the committed tree at the end of a scope is the tree the
      script saw ([committed_is_what_the_script_saw]), modification times apart,
      which the database sets itself but for utimes; a scope commits as a
      whole or not at all ([endScriptScope_atomic]); nothing leaks before
      ([scope_ops_leave_the_tree]).
    - Invariants of every reachable state: the tables are well-formed with exact
      link counts and what a root reaches is a tree (rows that nothing reaches
      are not excluded), a current view is the tree, the size estimate is exact.
    - Two calls are outside all of this, [Machine.op_safe]: a symlink in the place
      of "/" and a recursive copy of "/". The code accepts them, and afterwards
      the view and the tree differ ([Divergences]); the theorems that speak of the
      tree are about runs without them ([reachable_by op_safe], [safe_script]).
    - The database: the fence refuses stale and old-incarnation writers, the
      recursive load is exact, composites equal their fallbacks, deletion and
      collection remove exactly what they should.
    - Bulk ingest: a batch puts every entry in place or changes nothing, it
      throws only for a conflict, and its rows are those of single writes. A
      manifest is accepted exactly when nothing is wrong with it, its entries
      land apart, and what is read is what was announced.
    - Requests: a script commits as a whole or not at all, whatever it does and
      however its request ends; read requests on one session leave the tree
      alone and do not disturb each other; an edit changes only what it matched;
      every script of a batch gets its result. No request passes without a
      principal, only who created a sandbox is served, told of it or able to
      change it, on any replica and after any history, and an answer that is an
      error means that nothing changed, with the exceptions named there: the
      error ELOCKLOST_APPLIED of a lock that was lost after the work, a timeout,
      the path that is a directory; DELETE, mkdir and batches that may write are
      several steps and not covered. A
      reader that follows the pages of a file gets all it asked for, and an
      export is the tree below its path.
    - Retries: an error that invites a retry means that nothing was applied,
      whenever a worker stops; the client sends an execution again only then.
    - The catalogue: one live session per sandbox, requests exclude each other by
      mode, and nothing is disconnected while it is used.
    - Lookups: the cache's symlink walk agrees with the database's; what is
      written is read back; the shared Redis cache is transparent, keeps tenants
      apart, and stays within its budget.
    - Locks: mutual exclusion, no overtaking of a writer, progress, recovery
      from crashed holders, in one process and across replicas; across replicas
      up to the skew of their clocks, since readers are reaped by them
      ([fast_clock_admits_both] shows that the margin is needed).
    - Admission: shares and bounds, full accounting, no admissible waiter is
      left behind, tenants take turns; the runtime semaphores neither leak nor
      deadlock; the rate limiter admits exactly the first [max] hits; the bytes
      of request bodies are charged exactly, within limits, and never leak.

    ** Integers, fuel and bounds

    Numbers of the source are JavaScript numbers used as integers below 2^53, or
    [bigint] columns; they are [Z]. Inode ids and versions are database bigints;
    provisional ids are negative. Fuel is always enough: [tree_fuel] is two more
    than the number of inodes, and a path of a tree cannot be longer ([LoadPaths]); symlink walks stop after 40 hops, as
    the source does; [drain] gets one round more than there are waiters, each
    round but the last admitting one; the ancestor walk of [mutation_root] gets
    the number of components; the batch loops of a manifest return [None] when
    fuel runs out, and one round per entry is shown to suffice; the search loops
    of an edit get one round more than the text has code units; the reader of a
    stream gets one round per character of its buffer; a reader of pages makes
    one call more than there are bytes, a page is shortened once per byte; the
    batches of an export get one round per path. Clocks are arguments of
    the operations that read them.

    ** What other code is assumed to do

    The content cache ([lru-cache]) is the class [Lru] with [LruLaws]; the hash
    is a parameter with injectivity as a hypothesis where contents are compared.
    The base64 decoder is the class [Base64Decoder] with the round trip as its
    law; the host's [stat] and file reads are parameters, a read returning at
    most what was asked for. Tokens and digests are the class [Crypto] with
    [CryptoLaws]: a token verifies exactly when it was signed with the secret and
    has not expired. The shell is any [Script] of filesystem calls; what happens
    to a message between threads, and what the network does to a request, is an
    argument, and so are the redaction of error messages and the parsers of
    request bodies.
    Redis commands have their documented meaning and a script runs atomically; a
    replica's clock is ahead of the server's by at most [skew], a parameter of
    [DistLock.d_step]. PostgreSQL runs a
    transaction atomically and in isolation under the sandbox's writer lock.

    ** Not modelled

    - The legacy script transaction (SCRIPT_TX_BUFFERED set to false), which
      holds one database transaction open for the whole script, and the races of
      a driver fault with it.
    - The prewarming of the content cache, and the queue that shares concurrent
      freshness checks of one view. The session reads contents from the database;
      that the Redis cache in between makes no difference is [BlobCache]'s theorem.
    - The MCP transport, the OpenAPI document and the CLI.
    - The start and the end of worker threads, their memory limits and the size
      measure of their messages; the shell engine itself, third-party code.
    - Timers, jitter, metrics, logging and the parsing of the environment. *)

From Stdlib Require Export Ascii String.
From stdpp Require Export gmap strings list fin_maps sorting.

#[global] Open Scope Z_scope.
#[global] Arguments String.append !_ _ / : simpl nomatch.

(** ** Results and the state-and-error monad *)

(** The value of a call that may throw. *)
Inductive res (E A : Type) : Type :=
| Ok (a : A)
| Err (e : E).
Arguments Ok {E A} a.
Arguments Err {E A} e.

(** A computation over a state [S] that may throw an error [E]. The state
    survives a throw: what was mutated before the throw stays mutated, as in
    the source. *)
Definition M (S E A : Type) : Type := S → res E A * S.

Definition retM {S E A} (a : A) : M S E A := λ s, (Ok a, s).

Definition bindM {S E A B} (m : M S E A) (f : A → M S E B) : M S E B := λ s,
  match m s with
  | (Ok a, s') => f a s'
  | (Err e, s') => (Err e, s')
  end.

Declare Scope sm_scope.
Delimit Scope sm_scope with sm.
Notation "'let*' x := m 'in' k" := (bindM m (λ x, k))
  (at level 200, x name, m at level 100, k at level 200, right associativity) : sm_scope.
Notation "m ;;; k" := (bindM m (λ _, k))
  (at level 100, k at level 200, right associativity) : sm_scope.
#[global] Open Scope sm_scope.

(** A computation given by its transition function. *)
Definition liftS {S E A} (f : S → res E A * S) : M S E A := f.

Definition throw {S E A} (e : E) : M S E A := λ s, (Err e, s).
Definition getS {S E} : M S E S := λ s, (Ok s, s).
Definition putS {S E} (s : S) : M S E unit := λ _, (Ok tt, s).
Definition modifyS {S E} (f : S → S) : M S E unit := λ s, (Ok tt, f s).
Definition gets {S E A} (f : S → A) : M S E A := λ s, (Ok (f s), s).

(** [if (c) throw e;] *)
Definition throw_if {S E} (c : bool) (e : E) : M S E unit :=
  if c then throw e else retM tt.

Definition lift_res {S E A} (r : res E A) : M S E A := λ s, (r, s).

(** [try m catch (e) h(e)] *)
Definition catch {S E A} (m : M S E A) (h : E → M S E A) : M S E A := λ s,
  match m s with
  | (Ok a, s') => (Ok a, s')
  | (Err e, s') => h e s'
  end.

(** A [for (const x of l)] loop whose body may throw. *)
Fixpoint forM {S E A} (l : list A) (f : A → M S E unit) : M S E unit :=
  match l with
  | [] => retM tt
  | x :: l' => f x ;;; forM l' f
  end.

(** ** Tactics of the development *)

(** Destruct the scrutinee of the innermost match of a hypothesis or goal. *)
Ltac case_in H :=
  match type of H with
  | context [ match ?x with _ => _ end ] => destruct x eqn:?
  end.

(** Prove a closed decidable proposition by evaluating its decision. *)
Ltac compute_decide := refine (bool_decide_unpack _ _); vm_compute; exact I.

(** ** Running computations step by step *)

Lemma bindM_Ok {S E A B} (m : M S E A) (f : A → M S E B) s a s' :
  m s = (Ok a, s') → bindM m f s = f a s'.
Proof. intros H. unfold bindM. by rewrite H. Qed.

Lemma bindM_Err {S E A B} (m : M S E A) (f : A → M S E B) s e s' :
  m s = (Err e, s') → bindM m f s = (Err e, s').
Proof. intros H. unfold bindM. by rewrite H. Qed.

Lemma bindM_assoc {S E A B C} (m : M S E A) (f : A → M S E B) (g : B → M S E C) s :
  bindM (bindM m f) g s = bindM m (λ a, bindM (f a) g) s.
Proof. unfold bindM. by destruct (m s) as [[a|e] s']. Qed.

Lemma bindM_ret {S E A B} (a : A) (f : A → M S E B) s : bindM (retM a) f s = f a s.
Proof. done. Qed.

Lemma bindM_gets {S E A B} (h : S → A) (f : A → M S E B) s : bindM (gets h) f s = f (h s) s.
Proof. done. Qed.

Lemma bindM_modify {S E B} (h : S → S) (f : unit → M S E B) s : bindM (modifyS h) f s = f tt (h s).
Proof. done. Qed.

Lemma bindM_throw {S E A B} (e : E) (f : A → M S E B) s : bindM (throw e) f s = (Err e, s).
Proof. done. Qed.

#[export] Hint Rewrite @bindM_assoc @bindM_ret @bindM_gets @bindM_modify @bindM_throw : sm.

(** Normalise a run; [mrun H] also uses the run [H] of its next step. *)
Ltac mnorm := autorewrite with sm; cbv beta iota; autorewrite with sm; cbv beta iota.
Tactic Notation "mrun" constr(H) := mnorm; rewrite (bindM_Ok _ _ _ _ _ H); mnorm.

Lemma bindM_inv {S E A B} (m : M S E A) (f : A → M S E B) s b s' :
  bindM m f s = (Ok b, s') → ∃ a s1, m s = (Ok a, s1) ∧ f a s1 = (Ok b, s').
Proof. unfold bindM. destruct (m s) as [[a|e] s1]; [by eauto | done]. Qed.

(** ** Strings as the source uses them *)

Definition slash : ascii := "/"%char.

Abbreviation str_nil := EmptyString.

(** [s.split("/")] *)
Fixpoint split_slash (s : string) : list string :=
  match s with
  | EmptyString => [EmptyString]
  | String c s' =>
      if decide (c = slash) then EmptyString :: split_slash s'
      else match split_slash s' with
           | [] => [String c EmptyString]
           | h :: t => String c h :: t
           end
  end.

(** [l.join("/")] *)
Fixpoint join_slash (l : list string) : string :=
  match l with
  | [] => EmptyString
  | x :: t => match t with
              | [] => x
              | _ => x +:+ String slash (join_slash t)
              end
  end.

(** [s.includes(c)] *)
Fixpoint str_includes (c : ascii) (s : string) : bool :=
  match s with
  | EmptyString => false
  | String d s' => bool_decide (d = c) || str_includes c s'
  end.

(** [t.startsWith(s)] *)
Definition starts_with (t s : string) : bool := String.prefix s t.

(** [s.trim()], for code units below 256: the white space characters, then both
    ends. *)
Definition is_space (c : ascii) : bool := let n := N_of_ascii c in ((9 <=? n) && (n <=? 13) || (n =? 32) || (n =? 160))%N.

Fixpoint trim_start (s : string) : string :=
  match s with String c rest => if is_space c then trim_start rest else s | EmptyString => EmptyString end.

Fixpoint trim_end (s : string) : string :=
  match s with
  | EmptyString => EmptyString
  | String c rest => match trim_end rest with
                     | EmptyString => if is_space c then EmptyString else String c EmptyString
                     | r => String c r
                     end
  end.

Definition trim (s : string) : string := trim_end (trim_start s).

(** [s.lastIndexOf("/")], -1 when there is none *)
Fixpoint last_index_of_slash (s : string) : Z :=
  match s with
  | EmptyString => -1
  | String c s' =>
      let r := last_index_of_slash s' in
      if decide (0 ≤ r) then r + 1
      else if decide (c = slash) then 0 else -1
  end.

Fixpoint str_take (n : nat) (s : string) : string :=
  match n, s with
  | S n', String c s' => String c (str_take n' s')
  | _, _ => EmptyString
  end.

Fixpoint str_drop (n : nat) (s : string) : string :=
  match n, s with
  | S n', String c s' => str_drop n' s'
  | O, s => s
  | _, EmptyString => EmptyString
  end.

Definition str_len (s : string) : Z := Z.of_nat (String.length s).

(** The index arithmetic of [slice]: a negative index counts from the end. *)
Definition slice_index (len i : Z) : Z :=
  if decide (i < 0) then Z.max (len + i) 0 else Z.min i len.

(** [s.slice(0, b)] *)
Definition slice_to (s : string) (b : Z) : string :=
  str_take (Z.to_nat (slice_index (str_len s) b)) s.

(** [s.slice(a)] *)
Definition slice_from (s : string) (a : Z) : string :=
  str_drop (Z.to_nat (slice_index (str_len s) a)) s.

(** ** [Array.prototype.sort] with a comparator [key(a) - key(b)]: stable *)

Section sort_on.
Context {A : Type} (key : A → Z).

Fixpoint insert_on (x : A) (l : list A) : list A :=
  match l with
  | [] => [x]
  | y :: l' => if decide (key x ≤ key y) then x :: y :: l' else y :: insert_on x l'
  end.

Definition sort_on (l : list A) : list A := fold_right insert_on [] l.
End sort_on.

(** ** JavaScript's [Map]: insertion-ordered, one binding per key *)

Section JsMap.
Context {K V : Type} `{EqDecision K}.

Fixpoint jget (k : K) (m : list (K * V)) : option V :=
  match m with
  | [] => None
  | (k', v) :: m' => if decide (k = k') then Some v else jget k m'
  end.

Definition jhas (k : K) (m : list (K * V)) : bool :=
  match jget k m with Some _ => true | None => false end.

(** [m.set(k, v)]: an existing key keeps its position. *)
Fixpoint jset (k : K) (v : V) (m : list (K * V)) : list (K * V) :=
  match m with
  | [] => [(k, v)]
  | (k', v') :: m' => if decide (k = k') then (k', v) :: m' else (k', v') :: jset k v m'
  end.

(** [m.delete(k)] *)
Fixpoint jdel (k : K) (m : list (K * V)) : list (K * V) :=
  match m with
  | [] => []
  | (k', v') :: m' => if decide (k = k') then m' else (k', v') :: jdel k m'
  end.

Definition jkeys (m : list (K * V)) : list K := m.*1.

(** One binding per key. *)
Definition jwf (m : list (K * V)) : Prop := NoDup m.*1.

(** Two maps that agree on every key, whatever their order. *)
Definition jequiv (m1 m2 : list (K * V)) : Prop := ∀ k, jget k m1 = jget k m2.
End JsMap.

Arguments jget {K V _} k m.
Arguments jset {K V _} k v m.
Arguments jdel {K V _} k m.

(** ** Lemmas on strings *)

Create HintDb strs.

Definition no_slash (s : string) : Prop := str_includes slash s = false.

#[export] Instance no_slash_dec s : Decision (no_slash s).
Proof. unfold no_slash. apply _. Defined.

Lemma str_app_nil_r s : s +:+ EmptyString = s.
Proof. induction s as [|c s IH]; simpl; [done | by rewrite IH]. Qed.

Lemma str_concat_cons c l : String.concat EmptyString (c :: l) = c +:+ String.concat EmptyString l.
Proof. destruct l; simpl; [by rewrite str_app_nil_r|done]. Qed.

Lemma str_app_assoc a b c : (a +:+ b) +:+ c = a +:+ (b +:+ c).
Proof. induction a as [|x a IH]; simpl; [done | by rewrite IH]. Qed.

Lemma str_len_app a b : str_len (a +:+ b) = str_len a + str_len b.
Proof. unfold str_len. induction a as [|x a IH]; simpl; [done|]. rewrite !Nat2Z.inj_succ. lia. Qed.

Lemma str_len_nonneg s : 0 ≤ str_len s.
Proof. unfold str_len. lia. Qed.

Lemma str_len_zero s : str_len s = 0 → s = EmptyString.
Proof. unfold str_len. destruct s; simpl; [done | lia]. Qed.

Lemma str_app_inj_l a b c : a +:+ b = a +:+ c → b = c.
Proof. induction a as [|x a IH]; simpl; [done | intros [=]; auto]. Qed.

Lemma starts_with_spec t s : starts_with t s = true ↔ ∃ u, t = s +:+ u.
Proof.
  unfold starts_with. revert t. induction s as [|c s IH]; intros t; simpl.
  - split; [intros _; by exists t | by destruct t].
  - destruct t as [|d t]; simpl.
    + split; [done | intros [u Hu]; done].
    + destruct (ascii_dec c d) as [->|Hne].
      * rewrite IH. split; intros [u Hu]; exists u; [by rewrite Hu | by inv Hu].
      * split; [done | intros [u Hu]; inv Hu; done].
Qed.

Lemma starts_with_app s u : starts_with (s +:+ u) s = true.
Proof. apply starts_with_spec. by exists u. Qed.

Lemma str_take_app a b : str_take (String.length a) (a +:+ b) = a.
Proof. induction a as [|x a IH]; simpl; [by destruct b | by rewrite IH]. Qed.

Lemma str_drop_app a b : str_drop (String.length a) (a +:+ b) = b.
Proof. induction a as [|x a IH]; simpl; [by destruct b | done]. Qed.

Lemma slice_to_app a b : slice_to (a +:+ b) (str_len a) = a.
Proof.
  unfold slice_to, slice_index. pose proof (str_len_nonneg a). pose proof (str_len_nonneg b).
  rewrite decide_False by lia. rewrite str_len_app, Z.min_l by lia.
  unfold str_len. rewrite Nat2Z.id. apply str_take_app.
Qed.

Lemma slice_from_app a b : slice_from (a +:+ b) (str_len a) = b.
Proof.
  unfold slice_from, slice_index. pose proof (str_len_nonneg a). pose proof (str_len_nonneg b).
  rewrite decide_False by lia. rewrite str_len_app, Z.min_l by lia.
  unfold str_len. rewrite Nat2Z.id. apply str_drop_app.
Qed.

Lemma str_includes_app c a b : str_includes c (a +:+ b) = str_includes c a || str_includes c b.
Proof. induction a as [|x a IH]; simpl; [done | rewrite IH; by rewrite orb_assoc]. Qed.

Lemma no_slash_app a b : no_slash (a +:+ b) ↔ no_slash a ∧ no_slash b.
Proof. unfold no_slash. rewrite str_includes_app, orb_false_iff. done. Qed.

Lemma no_slash_cons c s : no_slash (String c s) ↔ c ≠ slash ∧ no_slash s.
Proof.
  unfold no_slash. simpl. rewrite orb_false_iff, bool_decide_eq_false. done.
Qed.

Lemma last_index_none s : no_slash s → last_index_of_slash s = -1.
Proof.
  induction s as [|c s IH]; simpl; [done|]. intros [Hc Hs]%no_slash_cons.
  rewrite IH by done. rewrite decide_False by lia. by rewrite decide_False.
Qed.

Lemma last_index_app a b :
  no_slash b → last_index_of_slash (a +:+ String slash b) = str_len a.
Proof.
  intros Hb. induction a as [|c a IH]; simpl.
  - by rewrite last_index_none by done.
  - rewrite IH. rewrite decide_True by apply str_len_nonneg.
    unfold str_len. simpl. lia.
Qed.

Lemma split_slash_nonempty s : split_slash s ≠ [].
Proof. destruct s as [|c s]; simpl; [done|]. case_decide; [done|]. by destruct (split_slash s). Qed.

Lemma split_slash_no_slash s : Forall no_slash (split_slash s).
Proof.
  induction s as [|c s IH]; simpl; [by repeat constructor|].
  case_decide as Hc; [constructor; done|].
  destruct (split_slash s) as [|h t]; [by repeat constructor; apply no_slash_cons|].
  inv IH. constructor; [by apply no_slash_cons | done].
Qed.

Lemma join_split s : join_slash (split_slash s) = s.
Proof.
  induction s as [|c s IH]; [done|]. simpl.
  pose proof (split_slash_nonempty s) as Hne.
  case_decide as Hc.
  - subst c. destruct (split_slash s) as [|h t] eqn:E; [done|]. simpl in *. by rewrite IH.
  - destruct (split_slash s) as [|h t] eqn:E; [done|]. destruct t as [|h' t]; simpl in *; by rewrite IH.
Qed.

Lemma split_no_slash s : no_slash s → split_slash s = [s].
Proof.
  induction s as [|c s IH]; simpl; [done|]. intros [Hc Hs]%no_slash_cons.
  rewrite decide_False by done. by rewrite IH.
Qed.

Lemma split_app_slash a b :
  no_slash a → split_slash (a +:+ String slash b) = a :: split_slash b.
Proof.
  induction a as [|c a IH]; simpl.
  - done.
  - intros [Hc Hs]%no_slash_cons. rewrite decide_False by done. by rewrite IH.
Qed.

Lemma split_join l : l ≠ [] → Forall no_slash l → split_slash (join_slash l) = l.
Proof.
  induction l as [|x l IH]; [done|]. intros _ Hl. inv Hl. destruct l as [|y l].
  - by apply split_no_slash.
  - change (join_slash (x :: y :: l)) with (x +:+ String slash (join_slash (y :: l))).
    rewrite split_app_slash by done. by rewrite IH.
Qed.

Lemma join_snoc l x : l ≠ [] → join_slash (l ++ [x]) = join_slash l +:+ String slash x.
Proof.
  induction l as [|y l IH]; [done|]. intros _. destruct l as [|z l]; [done|].
  change (join_slash ((y :: z :: l) ++ [x])) with (y +:+ String slash (join_slash ((z :: l) ++ [x]))).
  rewrite IH by done.
  change (join_slash (y :: z :: l)) with (y +:+ String slash (join_slash (z :: l))).
  by rewrite str_app_assoc.
Qed.

Lemma join_app l1 l2 : l1 ≠ [] → l2 ≠ [] →
  join_slash (l1 ++ l2) = join_slash l1 +:+ String slash (join_slash l2).
Proof.
  intros H1 H2. revert l1 H1. induction l2 as [|x l2 IH]; [done|]. intros l1 H1.
  destruct l2 as [|y l2]; [by apply join_snoc|].
  replace (l1 ++ x :: y :: l2) with ((l1 ++ [x]) ++ y :: l2) by by rewrite <- app_assoc.
  rewrite IH by (done || by destruct l1). rewrite join_snoc by done.
  change (join_slash (x :: y :: l2)) with (x +:+ String slash (join_slash (y :: l2))).
  by rewrite str_app_assoc.
Qed.

(** ** Lemmas on lists *)

Section sort_on_lemmas.
Context {A : Type} (key : A → Z).

Lemma insert_on_perm x l : insert_on key x l ≡ₚ x :: l.
Proof. induction l as [|y l IH]; simpl; [done|]. case_decide; [done|]. rewrite IH. apply Permutation_swap. Qed.

Lemma sort_on_perm l : sort_on key l ≡ₚ l.
Proof. induction l as [|x l IH]; [done|]. simpl. by rewrite insert_on_perm, IH. Qed.

Lemma insert_on_sorted x l :
  StronglySorted (λ a b, key a ≤ key b) l → StronglySorted (λ a b, key a ≤ key b) (insert_on key x l).
Proof.
  induction l as [|y l IH]; simpl; intros Hs; [repeat constructor|].
  inversion Hs as [|? ? Hs' Hf]; subst. case_decide as Hk.
  - constructor; [done|]. constructor; [done|]. eapply Forall_impl; [done|]. simpl. lia.
  - constructor; [by apply IH|]. rewrite Forall_forall in Hf |- *. intros z. rewrite insert_on_perm, elem_of_cons.
    intros [->|Hz]; [lia | by apply Hf].
Qed.

Lemma sort_on_sorted l : StronglySorted (λ a b, key a ≤ key b) (sort_on key l).
Proof. induction l as [|x l IH]; [constructor|]. simpl. by apply insert_on_sorted. Qed.
End sort_on_lemmas.

Lemma NoDup_omap_key {A B C} (f : A → option B) (g : B → C) (l : list A) :
  (∀ x1 x2 y1 y2, x1 ∈ l → x2 ∈ l → f x1 = Some y1 → f x2 = Some y2 → g y1 = g y2 → x1 = x2) →
  NoDup l → NoDup (g <$> omap f l).
Proof.
  intros Hinj. induction 1 as [|x l Hx Hnd IH]; [constructor|]. simpl.
  assert (Hl : NoDup (g <$> omap f l)).
  { apply IH. intros x1 x2 y1 y2 H1 H2. apply Hinj; by apply list_elem_of_further. }
  destruct (f x) as [y|] eqn:E; [|done]. simpl. apply NoDup_cons. split; [|done].
  intros (y' & Hy & (x' & Hx' & Hf)%list_elem_of_omap)%list_elem_of_fmap.
  assert (x = x') as <-; [|done]. eapply Hinj; [apply list_elem_of_here | by apply list_elem_of_further | done..].
Qed.

(** Dropping an element by its identity drops exactly it. *)
Lemma drop_by_id {A} (f : A → nat) (x : A) (l : list A) : NoDup (map f l) → x ∈ l →
  l ≡ₚ x :: List.filter (λ y, negb (bool_decide (f y = f x))) l.
Proof.
  induction l as [|y l IH]; intros Hnd Hin; [by apply elem_of_nil in Hin|].
  simpl in Hnd. apply NoDup_cons in Hnd as [Hy Hnd]. simpl.
  apply elem_of_cons in Hin as [<-|Hin].
  - rewrite bool_decide_true by done. simpl. f_equiv. clear IH Hnd.
    induction l as [|z l IH]; [done|]. simpl in *. apply not_elem_of_cons in Hy as [Hz Hy].
    rewrite bool_decide_false by done. simpl. f_equiv. by apply IH.
  - rewrite bool_decide_false.
    + simpl. rewrite (IH Hnd Hin) at 1. apply Permutation_swap.
    + intros E. apply Hy. rewrite E. apply list_elem_of_In, in_map, list_elem_of_In. done.
Qed.

Lemma filter_perm {A} (f : A → bool) (l k : list A) : l ≡ₚ k → List.filter f l ≡ₚ List.filter f k.
Proof.
  induction 1 as [|x l l' ? IH|x y l|l l' l'' ? IH1 ? IH2]; simpl; [done| | |by etrans].
  - destruct (f x); by rewrite IH.
  - destruct (f x), (f y); try done. apply Permutation_swap.
Qed.

(** ** Lemmas on insertion-ordered maps *)

Section JsMapLemmas.
Context {K V : Type} `{EqDecision K}.
Implicit Types (m : list (K * V)) (k : K) (v : V).

Lemma jget_jset_eq k v m : jget k (jset k v m) = Some v.
Proof.
  induction m as [|[k' v'] m IH]; simpl; [by rewrite decide_True|].
  case_decide; simpl; [by rewrite decide_True | by rewrite decide_False].
Qed.

Lemma jget_jset_ne k k' v m : k ≠ k' → jget k' (jset k v m) = jget k' m.
Proof.
  intros Hne. induction m as [|[k0 v0] m IH]; simpl; [by rewrite decide_False by congruence|].
  case_decide as Hk; simpl; [subst k0; by rewrite !decide_False by congruence | by rewrite IH].
Qed.

Lemma jget_jset k k' v m :
  jget k' (jset k v m) = if decide (k = k') then Some v else jget k' m.
Proof. case_decide; [subst; apply jget_jset_eq | by apply jget_jset_ne]. Qed.

Lemma jget_None k m : jget k m = None ↔ k ∉ m.*1.
Proof.
  induction m as [|[k' v'] m IH]; simpl; [split; [intros _; apply not_elem_of_nil | done]|].
  rewrite not_elem_of_cons. case_decide as Hk; [split; [done | by intros [? _]] | rewrite IH; split; [done | by intros [_ ?]]].
Qed.

Lemma jget_elem k v m : jget k m = Some v → (k, v) ∈ m.
Proof.
  induction m as [|[k' v'] m IH]; simpl; [done|]. case_decide as Hk.
  - intros [= ->]. subst. apply list_elem_of_here.
  - intros H. apply list_elem_of_further. by apply IH.
Qed.

Lemma jget_key k v m : jget k m = Some v → k ∈ m.*1.
Proof. intros H%jget_elem. apply list_elem_of_fmap. by exists (k, v). Qed.

Lemma jget_Some k v m : jwf m → jget k m = Some v ↔ (k, v) ∈ m.
Proof.
  intros Hwf. split; [apply jget_elem|].
  induction m as [|[k' v'] m IH]; simpl; [by intros ?%not_elem_of_nil|].
  unfold jwf in Hwf. simpl in Hwf. apply NoDup_cons in Hwf as [Hnin Hnd].
  intros [[= -> ->]|Hin]%elem_of_cons; [by rewrite decide_True|].
  rewrite decide_False; [by apply IH|]. intros ->. apply Hnin.
  apply list_elem_of_fmap. by exists (k', v).
Qed.

Lemma jset_keys k x v m : x ∈ (jset k v m).*1 ↔ x = k ∨ x ∈ m.*1.
Proof.
  induction m as [|[k' v'] m IH]; simpl; [set_solver|].
  case_decide as Hk; simpl; set_solver.
Qed.

Lemma jset_wf k v m : jwf m → jwf (jset k v m).
Proof.
  unfold jwf. induction m as [|[k' v'] m IH]; simpl; [intros _; apply NoDup_singleton|].
  intros [Hnin Hnd]%NoDup_cons. case_decide as Hk; simpl; apply NoDup_cons; split; try done.
  - rewrite jset_keys. intros [->|?]; done.
  - by apply IH.
Qed.

Lemma jdel_keys_sub k x m : x ∈ (jdel k m).*1 → x ∈ m.*1.
Proof.
  induction m as [|[k' v'] m IH]; simpl; [done|].
  case_decide; simpl; set_solver.
Qed.

Lemma jdel_wf k m : jwf m → jwf (jdel k m).
Proof.
  unfold jwf. induction m as [|[k' v'] m IH]; simpl; [done|].
  intros [Hnin Hnd]%NoDup_cons. case_decide; simpl; [done|].
  apply NoDup_cons. split; [|by apply IH]. intros ?%jdel_keys_sub. done.
Qed.

Lemma jget_jdel_ne k k' m : k ≠ k' → jget k' (jdel k m) = jget k' m.
Proof.
  intros Hne. induction m as [|[k0 v0] m IH]; simpl; [done|].
  case_decide as Hk; simpl; [subst k0; by rewrite decide_False by congruence | by rewrite IH].
Qed.

Lemma jget_jdel_eq k m : jwf m → jget k (jdel k m) = None.
Proof.
  unfold jwf. induction m as [|[k' v'] m IH]; simpl; [done|].
  intros [Hnin Hnd]%NoDup_cons. case_decide as Hk; simpl.
  - subst. by apply jget_None.
  - rewrite decide_False by done. by apply IH.
Qed.

Lemma jget_jdel k k' m :
  jwf m → jget k' (jdel k m) = if decide (k = k') then None else jget k' m.
Proof. intros. case_decide; [subst; by apply jget_jdel_eq | by apply jget_jdel_ne]. Qed.

Lemma jhas_true k m : jhas k m = true ↔ is_Some (jget k m).
Proof. unfold jhas. destruct (jget k m); split; try done; by intros []. Qed.

Lemma jhas_false k m : jhas k m = false ↔ jget k m = None.
Proof. unfold jhas. by destruct (jget k m). Qed.

#[export] Instance jequiv_equiv : Equivalence (jequiv (K := K) (V := V)).
Proof. unfold jequiv. split; [done | by intros m1 m2 H k | intros m1 m2 m3 H1 H2 k; by rewrite H1]. Qed.

#[export] Instance jget_proper k : Proper (jequiv ==> eq) (jget (V := V) k).
Proof. intros m1 m2 H. apply H. Qed.

#[export] Instance jset_proper k v : Proper (jequiv ==> jequiv) (jset (V := V) k v).
Proof. intros m1 m2 H k'. rewrite !jget_jset. by rewrite H. Qed.
End JsMapLemmas.

(** ** Counting in a finite map *)

Section gcount.
Context {V : Type} (f : V → bool).

(** How many entries satisfy [f]. *)
Definition gcount (m : gmap nat V) : Z := Z.of_nat (size (filter (λ kv, f kv.2 = true) m)).

Lemma gcount_insert m k v : m !! k = None → gcount (<[k := v]> m) = Z.b2z (f v) + gcount m.
Proof.
  intros Hn. unfold gcount. destruct (f v) eqn:E.
  - rewrite map_filter_insert_True by done. rewrite map_size_insert_None; [simpl; lia|].
    by apply map_lookup_filter_None_2; left.
  - rewrite map_filter_insert_False by (simpl; congruence). by rewrite delete_id.
Qed.

Lemma gcount_delete m k v : m !! k = Some v → gcount m = Z.b2z (f v) + gcount (delete k m).
Proof.
  intros Hv. rewrite <- (gcount_insert (delete k m) k) by apply lookup_delete_eq.
  by rewrite insert_delete_eq, insert_id.
Qed.

Lemma gcount_update m k v v' : m !! k = Some v → gcount (<[k := v']> m) = gcount m + Z.b2z (f v') - Z.b2z (f v).
Proof.
  intros Hv. rewrite <- insert_delete_eq, gcount_insert by apply lookup_delete_eq.
  rewrite (gcount_delete _ _ _ Hv). lia.
Qed.

Lemma gcount_zero m : gcount m = 0 ↔ ∀ k v, m !! k = Some v → f v = false.
Proof.
  unfold gcount. change 0 with (Z.of_nat 0). rewrite Nat2Z.inj_iff, map_size_empty_iff, map_empty.
  split.
  - intros Hm k v Hv. specialize (Hm k). rewrite map_lookup_filter_None in Hm.
    destruct (f v) eqn:E; [|done]. destruct Hm as [Hm|Hm]; [congruence|]. by apply (Hm v) in Hv.
  - intros Hm k. apply map_lookup_filter_None. right. intros v Hv. simpl. by rewrite (Hm k v Hv).
Qed.

Lemma gcount_nonneg m : 0 ≤ gcount m.
Proof. unfold gcount. lia. Qed.

Lemma gcount_pos m k v : m !! k = Some v → f v = true → 0 < gcount m.
Proof. intros Hv Hf. rewrite (gcount_delete _ _ _ Hv), Hf. pose proof (gcount_nonneg (delete k m)). simpl. lia. Qed.
End gcount.
