(* ===== verification/Errors.v ===== *)
(** Errors of the filesystem (src/src/sql-fs/errors.ts).

    Each constructor is one error constructor of the source and carries the
    arguments the source stores on the error object or in its message; [SqlState],
    [Coded] and [PlainError] are the errors of others that pass through. *)

From S2P Require Import Prelude.

Inductive fs_error : Type :=
| ENOENT (path : string)
| EEXIST (path : string)
| EISDIR (path : string)
| ENOTDIR (path : string)
| ENOTEMPTY (path : string)
| ELOOP (path : string)
| EPERM (path op : string)
| EINVAL (path : string)
| EREADONLY (path op : string)
| ESTALE (sandboxId : string)
| ESANDBOXGONE (sandboxId : string)
| EDRIVERFAULT
| EFBIG (path : string) (attempted limit : Z) (op : string)
| ESCRIPTBUFFER (ops bytes maxOps maxBytes : Z)
| ECOHERENCE (detail : string)
| ENOTSUP (detail : string)
| EBUSY (detail : string)
| ELOCKLOST (detail : string)
| EEXECINPUT (source : string) (consumed bytes limit : Z)
| SqlState (state : string)      (* a raw driver error, by its SQLSTATE *)
| Coded (code : string)          (* an error of the API with a code of its own *)
| PlainError (message : string). (* new Error(message), no code *)

#[export] Instance fs_error_eq_dec : EqDecision fs_error.
Proof. solve_decision. Defined.

(** The [code] property of the error object, when it has one. *)
Definition error_code (e : fs_error) : option string :=
  match e with
  | ENOENT _ => Some "ENOENT"
  | EEXIST _ => Some "EEXIST"
  | EISDIR _ => Some "EISDIR"
  | ENOTDIR _ => Some "ENOTDIR"
  | ENOTEMPTY _ => Some "ENOTEMPTY"
  | ELOOP _ => Some "ELOOP"
  | EPERM _ _ => Some "EPERM"
  | EINVAL _ => Some "EINVAL"
  | EREADONLY _ _ => Some "EREADONLY"
  | ESTALE _ => Some "ESTALE"
  | ESANDBOXGONE _ => Some "ESANDBOXGONE"
  | EDRIVERFAULT => Some "EDRIVERFAULT"
  | EFBIG _ _ _ _ => Some "EFBIG"
  | ESCRIPTBUFFER _ _ _ _ => Some "ESCRIPTBUFFER"
  | ECOHERENCE _ => Some "ECOHERENCE"
  | ENOTSUP _ => Some "ENOTSUP"
  | EBUSY _ => Some "EBUSY"
  | ELOCKLOST _ => Some "ELOCKLOST"
  | EEXECINPUT _ _ _ _ => Some "EEXEC_INPUT_LIMIT"
  | SqlState s => Some s
  | Coded code => Some code
  | PlainError _ => None
  end.

(** [translateSqlError]: the SQLSTATEs the dialect raises become filesystem
    errors on [path]; any other error is returned (its message redacted, which
    does not change the error's class). *)
Definition translateSqlError (err : fs_error) (path : string) : fs_error :=
  match err with
  | SqlState s =>
      if decide (s = "23505") then EEXIST path
      else if decide (s = "FS001") then ELOOP path
      else if decide (s = "FS002") then ENOENT path
      else if decide (s = "FS003") then ENOTDIR path
      else err
  | _ => err
  end.
