(* ===== verification/Paths.v ===== *)
(** Path arithmetic (src/src/sql-fs/state/paths.ts).

    Paths are JavaScript strings; here they are [string]s of 8-bit characters.
    A canonical path is [path_of cs], a slash followed by the components [cs]
    joined with slashes, each component a [valid_name]. *)

From S2P Require Import Prelude Errors.

Definition DEV_NULL : string := "/dev/null".

Definition nul : ascii := Ascii.zero.

(** The segments [normalizeFsPath] keeps: non-empty and not a dot. *)
Definition keep_segment (seg : string) : bool :=
  negb (bool_decide (seg = EmptyString)) && negb (bool_decide (seg = ".")).

(** The loop body: [".."] pops, anything else is pushed. *)
Definition push_segment (stack : list string) (part : string) : list string :=
  if decide (part = "..") then removelast stack else stack ++ [part].

Definition normalizeFsPath (p : string) : string :=
  if decide (p = EmptyString ∨ p = "/") then "/"
  else
    let s := if starts_with p "/" then p else "/" +:+ p in
    let parts := List.filter keep_segment (split_slash s) in
    "/" +:+ join_slash (fold_left push_segment parts []).

Definition validatePath (p : string) : res fs_error string :=
  if str_includes nul p then Err (EINVAL p)
  else
    let path := normalizeFsPath p in
    if starts_with path (DEV_NULL +:+ "/") then Err (ENOTDIR DEV_NULL)
    else Ok path.

Definition parentOf (path : string) : string :=
  let idx := last_index_of_slash path in
  if decide (idx = 0) then "/" else slice_to path idx.

Definition nameOf (path : string) : string :=
  slice_from path (last_index_of_slash path + 1).

Definition resolvePath (base path : string) : string :=
  if starts_with path "/" then normalizeFsPath path
  else
    let combined := if decide (base = "/") then "/" +:+ path else base +:+ "/" +:+ path in
    normalizeFsPath combined.

Definition assertStoredPath (path operation : string) : res fs_error unit :=
  if decide (path = DEV_NULL) then Err (EPERM path operation) else Ok tt.

(** ** Canonical paths *)

(** A component a canonical path can have. *)
Definition valid_name (n : string) : Prop :=
  n ≠ EmptyString ∧ n ≠ "." ∧ n ≠ ".." ∧ no_slash n.

#[export] Instance valid_name_dec n : Decision (valid_name n).
Proof. unfold valid_name. apply _. Defined.

Definition valid_comps (cs : list string) : Prop := Forall valid_name cs.

#[export] Instance valid_comps_dec cs : Decision (valid_comps cs).
Proof. unfold valid_comps. apply _. Defined.

Definition path_of (cs : list string) : string := String slash (join_slash cs).

(** What the normalising loop computes, on components. *)
Definition norm_comps (base parts : list string) : list string :=
  fold_left push_segment (List.filter keep_segment parts) base.

(** The prefix of the paths below a directory, as [pathsUnder] and
    [childPaths] compute it. *)
Definition dir_prefix (dirPath : string) : string :=
  if decide (dirPath = "/") then "/" else dirPath +:+ "/".

(** ** Lemmas *)

Lemma valid_comps_snoc cs n : valid_comps (cs ++ [n]) ↔ valid_comps cs ∧ valid_name n.
Proof. unfold valid_comps. rewrite Forall_app, Forall_singleton. done. Qed.

Lemma valid_comps_app cs ds : valid_comps (cs ++ ds) ↔ valid_comps cs ∧ valid_comps ds.
Proof. unfold valid_comps. by rewrite Forall_app. Qed.

Lemma valid_comps_no_slash cs : valid_comps cs → Forall no_slash cs.
Proof. intros H. eapply Forall_impl; [done|]. by intros n (_ & _ & _ & ?). Qed.

#[export] Hint Resolve valid_comps_no_slash : strs.

Lemma push_segment_valid st part :
  valid_comps st → part ≠ EmptyString → part ≠ "." → no_slash part →
  valid_comps (push_segment st part).
Proof.
  intros Hst H1 H2 H3. unfold push_segment. case_decide as Hd.
  - destruct st as [|n st _] using rev_ind; [done|].
    rewrite removelast_last. by apply valid_comps_snoc in Hst as [? _].
  - apply valid_comps_snoc. done.
Qed.

Lemma norm_comps_valid base parts :
  valid_comps base → Forall no_slash parts → valid_comps (norm_comps base parts).
Proof.
  unfold norm_comps. revert base. induction parts as [|x parts IH]; intros base Hb Hp; [done|].
  apply Forall_cons in Hp as [Hx Hp]. simpl.
  destruct (keep_segment x) eqn:Hk; simpl; [|by apply IH].
  apply IH; [|done]. unfold keep_segment in Hk.
  apply andb_true_iff in Hk as [Hk1%negb_true_iff%bool_decide_eq_false Hk2%negb_true_iff%bool_decide_eq_false].
  by apply push_segment_valid.
Qed.

Lemma keep_valid n : valid_name n → keep_segment n = true.
Proof.
  intros (H1 & H2 & _ & _). unfold keep_segment.
  by rewrite !bool_decide_eq_false_2.
Qed.

Lemma filter_keep_valid cs : valid_comps cs → List.filter keep_segment cs = cs.
Proof.
  induction cs as [|n cs IH]; [done|]. intros [Hn Hv]%Forall_cons. simpl.
  rewrite keep_valid by done. by rewrite IH.
Qed.

Lemma push_valid st n : valid_name n → push_segment st n = st ++ [n].
Proof. intros (_ & _ & H & _). unfold push_segment. by rewrite decide_False. Qed.

Lemma fold_push_valid base cs : valid_comps cs → fold_left push_segment cs base = base ++ cs.
Proof.
  revert base. induction cs as [|n cs IH]; intros base Hv; [by rewrite app_nil_r|].
  apply Forall_cons in Hv as [Hn Hv]. simpl. rewrite push_valid by done. rewrite IH by done. by rewrite <- app_assoc.
Qed.

Lemma norm_comps_id base cs : valid_comps cs → norm_comps base cs = base ++ cs.
Proof. intros Hv. unfold norm_comps. rewrite filter_keep_valid by done. by apply fold_push_valid. Qed.

Lemma norm_comps_app base p q : norm_comps base (p ++ q) = norm_comps (norm_comps base p) q.
Proof. unfold norm_comps. by rewrite List.filter_app, fold_left_app. Qed.

Lemma norm_comps_nil base q : norm_comps base (EmptyString :: q) = norm_comps base q.
Proof. reflexivity. Qed.

(** [normalizeFsPath] is the component loop started at the root. *)
Lemma normalize_comps p : normalizeFsPath p = path_of (norm_comps [] (split_slash p)).
Proof.
  unfold normalizeFsPath. case_decide as Hp.
  - by destruct Hp as [-> | ->].
  - unfold starts_with. destruct p as [|c p]; [naive_solver|].
    change (String.prefix "/" (String c p)) with
      (if ascii_dec slash c then String.prefix EmptyString p else false).
    destruct (ascii_dec slash c) as [<-|Hne]; [by destruct p|].
    change ("/" +:+ String c p) with (EmptyString +:+ String slash (String c p)).
    rewrite split_app_slash by done. by rewrite <- norm_comps_nil.
Qed.

Lemma normalize_valid p : ∃ cs, valid_comps cs ∧ normalizeFsPath p = path_of cs.
Proof.
  exists (norm_comps [] (split_slash p)). split; [|apply normalize_comps].
  apply norm_comps_valid; [constructor | apply split_slash_no_slash].
Qed.

Lemma split_path_of cs : valid_comps cs → cs ≠ [] → split_slash (path_of cs) = EmptyString :: cs.
Proof.
  intros Hv Hne. unfold path_of.
  change (String slash (join_slash cs)) with (EmptyString +:+ String slash (join_slash cs)).
  rewrite split_app_slash by done. rewrite split_join; auto with strs.
Qed.

(** [path.split("/").filter(Boolean)] *)
Lemma validatePath_canonical p q : validatePath p = Ok q → ∃ cs, valid_comps cs ∧ q = path_of cs.
Proof.
  unfold validatePath. destruct (str_includes nul p); [done|]. destruct (starts_with _ _); [done|]. intros [= <-].
  destruct (normalize_valid p) as (cs & Hv & ->). by exists cs.
Qed.

Lemma path_segments cs : valid_comps cs →
  List.filter (λ p, negb (bool_decide (p = EmptyString))) (split_slash (path_of cs)) = cs.
Proof.
  intros Hv. destruct (decide (cs = [])) as [->|Hne]; [done|]. rewrite split_path_of by done. simpl.
  induction Hv as [|n cs' (Hn & _) _ IH]; [done|]. simpl. rewrite bool_decide_eq_false_2 by done. simpl. f_equal.
  destruct (decide (cs' = [])) as [->|]; [done | by apply IH].
Qed.

Lemma path_of_normal cs : valid_comps cs → normalizeFsPath (path_of cs) = path_of cs.
Proof.
  intros Hv. rewrite normalize_comps. destruct cs as [|n cs]; [done|].
  rewrite split_path_of by done. rewrite norm_comps_nil. by rewrite norm_comps_id.
Qed.

Lemma join_empty cs : valid_comps cs → join_slash cs = EmptyString → cs = [].
Proof.
  destruct cs as [|n [|m cs]]; [done| |]; intros [Hn _]%Forall_cons; simpl; intros Hj.
  - by destruct Hn as [? _].
  - by destruct n.
Qed.

Lemma path_of_inj cs ds : valid_comps cs → valid_comps ds → path_of cs = path_of ds → cs = ds.
Proof.
  intros Hc Hd [= Hj]. destruct (decide (cs = [])) as [->|Hcn].
  - symmetry. apply join_empty; [done|]. by rewrite <- Hj.
  - destruct (decide (ds = [])) as [->|Hdn]; [by apply join_empty|].
    rewrite <- (split_join cs), <- (split_join ds), Hj; auto with strs.
Qed.

Lemma path_of_root cs : valid_comps cs → path_of cs = "/" → cs = [].
Proof. intros Hv Hp. apply (path_of_inj cs []); [done | constructor | done]. Qed.

Lemma parentOf_snoc cs n : valid_comps (cs ++ [n]) → parentOf (path_of (cs ++ [n])) = path_of cs.
Proof.
  intros [Hcs Hn]%valid_comps_snoc. destruct Hn as (_ & _ & _ & Hn).
  unfold parentOf, path_of. destruct cs as [|x cs].
  - rewrite app_nil_l.
    change (String slash (join_slash [n])) with (EmptyString +:+ String slash n).
    by rewrite last_index_app.
  - rewrite join_snoc by done.
    change (String slash (join_slash (x :: cs) +:+ String slash n)) with
      (path_of (x :: cs) +:+ String slash n).
    rewrite last_index_app by done. rewrite decide_False; [by rewrite slice_to_app|].
    unfold path_of, str_len. simpl. lia.
Qed.

Lemma nameOf_snoc cs n : valid_comps (cs ++ [n]) → nameOf (path_of (cs ++ [n])) = n.
Proof.
  intros [Hcs Hn]%valid_comps_snoc. destruct Hn as (_ & _ & _ & Hn).
  unfold nameOf, path_of. destruct cs as [|x cs].
  - rewrite app_nil_l.
    change (String slash (join_slash [n])) with (EmptyString +:+ String slash n) at 2.
    rewrite last_index_app by done.
    change (String slash (join_slash [n])) with ("/" +:+ n). apply slice_from_app.
  - rewrite join_snoc by done.
    change (String slash (join_slash (x :: cs) +:+ String slash n)) with
      (path_of (x :: cs) +:+ String slash n).
    rewrite last_index_app by done.
    change (String slash n) with ("/" +:+ n). rewrite <- str_app_assoc.
    replace (str_len (path_of (x :: cs)) + 1) with (str_len (path_of (x :: cs) +:+ "/"))
      by by rewrite str_len_app.
    apply slice_from_app.
Qed.

(** A path one level below [cs], as the tree code builds it. *)
Lemma path_of_snoc cs n :
  path_of (cs ++ [n]) = if decide (cs = []) then "/" +:+ n else path_of cs +:+ "/" +:+ n.
Proof.
  case_decide as Hc; [by subst|]. unfold path_of. rewrite join_snoc by done. done.
Qed.

Lemma dir_prefix_root : dir_prefix "/" = "/".
Proof. done. Qed.

Lemma dir_prefix_of cs : valid_comps cs → cs ≠ [] → dir_prefix (path_of cs) = path_of cs +:+ "/".
Proof.
  intros Hv Hne. unfold dir_prefix. rewrite decide_False; [done|].
  intros ?%path_of_root; done.
Qed.

Lemma path_of_app cs ds : cs ≠ [] → ds ≠ [] →
  path_of (cs ++ ds) = path_of cs +:+ "/" +:+ join_slash ds.
Proof. intros Hc Hd. unfold path_of. rewrite join_app by done. done. Qed.

Lemma path_under_inv cs ds u :
  valid_comps cs → valid_comps ds → cs ≠ [] →
  path_of ds = path_of cs +:+ "/" +:+ u → ds = cs ++ split_slash u.
Proof.
  intros Hc Hd Hne Heq.
  assert (Hj : join_slash ds = join_slash (cs ++ split_slash u)).
  { rewrite join_app by (done || apply split_slash_nonempty). rewrite join_split.
    by injection Heq. }
  destruct (decide (ds = [])) as [->|Hdn].
  { rewrite join_app in Hj by (done || apply split_slash_nonempty). simpl in Hj.
    by destruct (join_slash cs). }
  rewrite <- (split_join ds), Hj; auto with strs. apply split_join; [by destruct cs|].
  apply Forall_app. split; [auto with strs | apply split_slash_no_slash].
Qed.

(** [key !== dir && key.startsWith(prefix)] holds exactly of the proper
    descendants of a directory. *)
Lemma starts_with_dir_prefix cs ds :
  valid_comps cs → valid_comps ds →
  (path_of ds ≠ path_of cs ∧ starts_with (path_of ds) (dir_prefix (path_of cs)) = true)
  ↔ ∃ rest, rest ≠ [] ∧ ds = cs ++ rest.
Proof.
  intros Hc Hd. destruct (decide (cs = [])) as [->|Hcn].
  { change (path_of []) with "/". rewrite dir_prefix_root. split.
    - intros [Hne _]. exists ds. split; [by intros -> | done].
    - intros (rest & Hr & ->). simpl in *. split; [by intros ?%path_of_root|].
      apply starts_with_spec. by exists (join_slash rest). }
  rewrite dir_prefix_of by done. rewrite starts_with_spec. split.
  - intros [_ [u Hu]]. rewrite str_app_assoc in Hu.
    exists (split_slash u). split; [apply split_slash_nonempty|].
    by apply path_under_inv.
  - intros (rest & Hr & ->). split.
    + intros Hp%path_of_inj; try done. by rewrite <- (app_nil_r cs) in Hp at 2; apply app_inv_head in Hp.
    + exists (join_slash rest). rewrite path_of_app by done. by rewrite str_app_assoc.
Qed.

(** The remainder [childPaths] looks at is free of slashes exactly for the
    direct children. *)
Lemma child_rest cs rest :
  valid_comps (cs ++ rest) → rest ≠ [] →
  str_includes slash (slice_from (path_of (cs ++ rest)) (str_len (dir_prefix (path_of cs)))) = false
  ↔ ∃ n, rest = [n].
Proof.
  intros [Hc Hr]%valid_comps_app Hne.
  assert (Hs : slice_from (path_of (cs ++ rest)) (str_len (dir_prefix (path_of cs))) = join_slash rest).
  { destruct (decide (cs = [])) as [->|Hcn].
    - change (dir_prefix (path_of [])) with "/". simpl.
      change (path_of rest) with ("/" +:+ join_slash rest). apply slice_from_app.
    - rewrite dir_prefix_of, path_of_app by done. rewrite <- str_app_assoc. apply slice_from_app. }
  rewrite Hs. destruct rest as [|n [|m rest]]; [done| |].
  - split; [by exists n|]. intros _. simpl. apply Forall_cons in Hr as [(_ & _ & _ & ?) _]. done.
  - split; [|by intros [? [=]]]. intros Hn. exfalso.
    change (join_slash (n :: m :: rest)) with (n +:+ String slash (join_slash (m :: rest))) in Hn.
    rewrite str_includes_app in Hn. simpl in Hn. by rewrite orb_true_r in Hn.
Qed.

(** [dest + path.slice(src.length)] relocates a path of the subtree [src]. *)
Definition relocate (src dest path : string) : string :=
  dest +:+ slice_from path (str_len src).

Lemma relocate_under src dest rest :
  src ≠ [] → dest ≠ [] →
  relocate (path_of src) (path_of dest) (path_of (src ++ rest)) = path_of (dest ++ rest).
Proof.
  intros Hs Hd. unfold relocate. destruct (decide (rest = [])) as [->|Hr].
  - rewrite !app_nil_r. rewrite <- (str_app_nil_r (path_of src)) at 1.
    rewrite slice_from_app. apply str_app_nil_r.
  - rewrite path_of_app by done. rewrite slice_from_app. by rewrite path_of_app.
Qed.

(** [path.split("/").length], the key [rm -r] and [cp -r] sort by. *)
Definition depth_key (p : string) : Z := Z.of_nat (length (split_slash p)).

Lemma depth_key_path_of cs : valid_comps cs →
  depth_key (path_of cs) = if decide (cs = []) then 2 else 1 + Z.of_nat (length cs).
Proof.
  intros Hv. unfold depth_key. case_decide as Hc; [by subst|].
  rewrite split_path_of by done. simpl. lia.
Qed.

(** [resolvePath] is the component loop started at the base, or at the root for
    an absolute path. *)
Lemma resolvePath_comps base p :
  valid_comps base →
  resolvePath (path_of base) p =
  path_of (norm_comps (if starts_with p "/" then [] else base) (split_slash p)).
Proof.
  intros Hb. unfold resolvePath. destruct (starts_with p "/") eqn:Hs; [apply normalize_comps|].
  rewrite normalize_comps. case_decide as Hr.
  - apply path_of_root in Hr; [subst | done]. done.
  - assert (Hne : base ≠ []) by (intros ->; by destruct Hr).
    f_equal. unfold path_of.
    change (String slash (join_slash base) +:+ "/" +:+ p)
      with (EmptyString +:+ String slash (join_slash base +:+ String slash p)).
    rewrite split_app_slash by done. rewrite norm_comps_nil.
    assert (Hsp : ∀ l, l ≠ [] → Forall no_slash l →
              split_slash (join_slash l +:+ String slash p) = l ++ split_slash p).
    { intros l. induction l as [|x l IH]; [done|]. intros _ [Hx Hl]%Forall_cons. destruct l as [|y l].
      - by apply split_app_slash.
      - change (join_slash (x :: y :: l)) with (x +:+ String slash (join_slash (y :: l))).
        rewrite str_app_assoc.
        change (String slash (join_slash (y :: l)) +:+ String slash p)
          with (String slash (join_slash (y :: l) +:+ String slash p)).
        rewrite split_app_slash by done. by rewrite IH. }
    rewrite Hsp by auto with strs. rewrite norm_comps_app. by rewrite (norm_comps_id [] base).
Qed.

(** ** Properties *)

(** [normalizeFsPath] always returns a canonical absolute path (a slash and
    non-empty components other than dot and dot-dot, separated by single
    slashes), and is idempotent. *)
Theorem normalizeFsPath_canonical p :
  (∃ cs, valid_comps cs ∧ normalizeFsPath p = path_of cs) ∧
  normalizeFsPath (normalizeFsPath p) = normalizeFsPath p.
Proof.
  destruct (normalize_valid p) as (cs & Hv & Hp). split; [by exists cs|].
  rewrite Hp. by apply path_of_normal.
Qed.

(** [parentOf] and [nameOf] take a canonical path other than the root apart
    into a canonical parent and a valid component, and [resolvePath] puts the
    two together again. *)
Theorem parent_name_roundtrip p q :
  normalizeFsPath p = q → q ≠ "/" →
  normalizeFsPath (parentOf q) = parentOf q ∧
  valid_name (nameOf q) ∧
  resolvePath (parentOf q) (nameOf q) = q.
Proof.
  intros Hp Hne. destruct (normalize_valid p) as (cs & Hv & Hc). rewrite Hp in Hc. subst q.
  destruct cs as [|n cs _] using rev_ind; [done|].
  pose proof Hv as [Hvc Hn]%valid_comps_snoc.
  rewrite Hc, parentOf_snoc, nameOf_snoc by done. split_and!; [by apply path_of_normal | done |].
  rewrite resolvePath_comps by done. destruct (starts_with n "/") eqn:Hs.
  - apply starts_with_spec in Hs as [u ->]. destruct Hn as (_ & _ & _ & Hn). by rewrite no_slash_app in Hn; destruct Hn.
  - rewrite split_no_slash by apply Hn. by rewrite norm_comps_id by by apply Forall_singleton.
Qed.

Lemma parent_name_roundtrip_witness :
  normalizeFsPath (parentOf "/a/b") = parentOf "/a/b" ∧
  valid_name (nameOf "/a/b") ∧
  resolvePath (parentOf "/a/b") (nameOf "/a/b") = "/a/b".
Proof. apply (parent_name_roundtrip "a//./x/../b"); [vm_compute; reflexivity | discriminate]. Defined.

(** [resolvePath] from a canonical base is the component loop: the
    components of an absolute path are taken from the root, those of a relative
    one from the base; dot and empty segments are skipped and dot-dot pops. *)
Theorem resolvePath_lexical base p :
  valid_comps base →
  resolvePath (path_of base) p =
    path_of (norm_comps (if starts_with p "/" then [] else base) (split_slash p)) ∧
  valid_comps (norm_comps (if starts_with p "/" then [] else base) (split_slash p)).
Proof.
  intros Hb. split; [by apply resolvePath_comps|].
  apply norm_comps_valid; [destruct (starts_with p "/"); [constructor | done] | apply split_slash_no_slash].
Qed.

Lemma resolvePath_lexical_witness :
  resolvePath (path_of ["a"; "b"]) "../c" = path_of ["a"; "c"] ∧ valid_comps ["a"; "c"].
Proof. apply (resolvePath_lexical ["a"; "b"] "../c"). compute_decide. Defined.
