(* ===== verification/Store.v ===== *)
(** The database and the Postgres dialect
    (src/src/sql-fs/dialects/postgres/{sandbox,namespace,blobs}.ts and the
    schema of src/src/sql-fs/migrations/postgres).

    [db] is the committed database: one finite map per table. [tx] is an open
    transaction: its working copy of the database and the two transaction-local
    settings [app.sandbox_id] (the row-level-security context) and
    [app.sandbox_epoch] (the fencing token). Each dialect method is a
    computation over [tx]; [transaction] commits the working copy when the
    callback returns and discards it when it throws. A data-modifying [WITH]
    statement is one step: its branches read the snapshot of the statement and
    their effects are applied together, referential cascades last.

    The advisory lock ([takeWriterLock], [pg_advisory_xact_lock]) is not a
    state change: it makes the transactions of one sandbox run one after the
    other, which is how [transaction] runs them here. *)

From S2P Require Import Prelude Errors Paths.

(** ** Rows (src/src/sql-fs/types.ts and migrations/postgres) *)

Inductive InodeKind : Type := FILE | DIRECTORY | SYMLINK.

#[export] Instance InodeKind_eq_dec : EqDecision InodeKind.
Proof. solve_decision. Defined.

Record InodeRow := mkInode {
  i_sandboxId : string;
  i_kind : InodeKind;
  i_mode : Z;
  i_size : Z;
  i_mtime : Z;
  i_nlink : Z;
  i_contentSha256 : option string;
  i_symlinkTarget : option string
}.

(** A row of [dirents] under its primary key (parent_inode_id, name). *)
Record DirentRow := mkDirent { d_inodeId : Z; d_sandboxId : string }.

Record SandboxRow := mkSandbox {
  s_root : option Z;
  s_owner : option string;
  s_name : option string;
  s_python : bool;
  s_javascript : bool;
  s_network : bool;
  s_createdAt : Z;
  s_version : Z
}.

Record BlobRow := mkBlob { b_data : string; b_size : Z; b_lastReferencedAt : option Z }.

Record db := mkDb {
  sandboxes : gmap string SandboxRow;
  inodes : gmap Z InodeRow;
  dirents : gmap (Z * string) DirentRow;
  blobs : gmap string BlobRow;
  sandbox_epochs : gmap string Z;
  next_id : Z;     (* the BIGSERIAL sequence of inodes.id *)
  clock : Z        (* NOW() *)
}.

Record tx := mkTx { t_db : db; t_sandbox : option string; t_epoch : option Z }.

Abbreviation txM := (M tx fs_error).

(** ** Updates of one table *)

Definition set_sandboxes f (d : db) : db :=
  mkDb (f (sandboxes d)) (inodes d) (dirents d) (blobs d) (sandbox_epochs d) (next_id d) (clock d).
Definition set_inodes f (d : db) : db :=
  mkDb (sandboxes d) (f (inodes d)) (dirents d) (blobs d) (sandbox_epochs d) (next_id d) (clock d).
Definition set_dirents f (d : db) : db :=
  mkDb (sandboxes d) (inodes d) (f (dirents d)) (blobs d) (sandbox_epochs d) (next_id d) (clock d).
Definition set_blobs f (d : db) : db :=
  mkDb (sandboxes d) (inodes d) (dirents d) (f (blobs d)) (sandbox_epochs d) (next_id d) (clock d).
Definition set_epochs f (d : db) : db :=
  mkDb (sandboxes d) (inodes d) (dirents d) (blobs d) (f (sandbox_epochs d)) (next_id d) (clock d).

Definition on_db (f : db → db) (t : tx) : tx := mkTx (f (t_db t)) (t_sandbox t) (t_epoch t).

Definition set_version (v : Z) (s : SandboxRow) : SandboxRow :=
  mkSandbox (s_root s) (s_owner s) (s_name s) (s_python s) (s_javascript s) (s_network s) (s_createdAt s) v.
Definition set_root (r : option Z) (s : SandboxRow) : SandboxRow :=
  mkSandbox r (s_owner s) (s_name s) (s_python s) (s_javascript s) (s_network s) (s_createdAt s) (s_version s).
Definition set_nlink (n : Z) (i : InodeRow) : InodeRow :=
  mkInode (i_sandboxId i) (i_kind i) (i_mode i) (i_size i) (i_mtime i) n (i_contentSha256 i) (i_symlinkTarget i).

(** ** Row-level security (migration 0005): a row of sandbox [sb] is visible
    when no context is set, when it is the empty string, or when it is [sb]. *)
Definition visible (t : tx) (sb : string) : bool :=
  match t_sandbox t with
  | None => true
  | Some s => bool_decide (s = EmptyString) || bool_decide (s = sb)
  end.

Definition sel_inode (t : tx) (id : Z) : option InodeRow :=
  match inodes (t_db t) !! id with
  | Some r => if visible t (i_sandboxId r) then Some r else None
  | None => None
  end.

Definition sel_dirent (t : tx) (k : Z * string) : option DirentRow :=
  match dirents (t_db t) !! k with
  | Some r => if visible t (d_sandboxId r) then Some r else None
  | None => None
  end.

Definition sel_sandbox (t : tx) (sb : string) : option SandboxRow :=
  match sandboxes (t_db t) !! sb with
  | Some r => if visible t sb then Some r else None
  | None => None
  end.

(** ** Transactions *)

(** [dialect.transaction(fn)]: commit on return, roll back on a throw. *)
Definition transaction {A} (fn : txM A) (d : db) : res fs_error A * db :=
  match fn (mkTx d None None) with
  | (Ok a, t) => (Ok a, t_db t)
  | (Err e, _) => (Err e, d)
  end.

(** ** Fencing *)

(** The [WHERE] clause of the [ctx] CTE: the row's version is the expected
    epoch (or the transaction's, or unconstrained when there is neither), or
    this transaction itself has moved the version past the expected epoch. *)
Definition fence_pass (app_epoch : option Z) (version : Z) (expected : option Z) : bool :=
  let coalesced := match expected with
                   | Some e => e
                   | None => match app_epoch with Some a => a | None => version end
                   end in
  bool_decide (version = coalesced)
  || match expected with
     | Some e => bool_decide (e < version) && bool_decide (app_epoch = Some version)
     | None => false
     end.

(** [fenceCtes]: the [ctx], [advanced] and [epoch] CTEs; [true] when the fence
    accepted ([count of epoch] is 1). The composite form also sets the
    sandbox context. *)
Definition fenceCtes (sandboxId : string) (expected : option Z) (composite : bool) : txM bool := λ t,
  match sel_sandbox t sandboxId with
  | Some s =>
      if fence_pass (t_epoch t) (s_version s) expected then
        let v := s_version s + 1 in
        (Ok true,
         mkTx (set_sandboxes (<[sandboxId := set_version v s]>) (t_db t))
              (if composite then Some sandboxId else t_sandbox t) (Some v))
      else (Ok false, t)
  | None => (Ok false, t)
  end.

Definition fenceAndAdvance (sandboxId : string) (expected : option Z) : txM bool :=
  fenceCtes sandboxId expected false.
Definition compositeFenceAndAdvance (sandboxId : string) (expected : option Z) : txM bool :=
  fenceCtes sandboxId expected true.

(** ** Primitive row changes the statements are built from *)

(** [INSERT INTO inodes ... RETURNING id]: the sequence gives the id. *)
Definition insert_inode (r : InodeRow) : txM Z := λ t,
  let d := t_db t in
  let id := next_id d in
  (Ok id, on_db (λ d, mkDb (sandboxes d) (<[id := r]> (inodes d)) (dirents d) (blobs d)
                           (sandbox_epochs d) (id + 1) (clock d)) t).

(** [DELETE FROM inodes WHERE id = ...], with ON DELETE CASCADE on both
    foreign keys of [dirents]. *)
Definition delete_cascade (id : Z) (d : db) : db :=
  set_dirents (filter (λ kv, kv.1.1 ≠ id ∧ d_inodeId kv.2 ≠ id))
    (set_inodes (delete id) d).

(** [INSERT INTO dirents]: the primary key and the two foreign keys. *)
Definition insert_dirent_row (pid : Z) (name : string) (r : DirentRow) : txM unit := λ t,
  let d := t_db t in
  if decide (is_Some (dirents d !! (pid, name))) then (Err (SqlState "23505"), t)
  else if decide (is_Some (inodes d !! pid) ∧ is_Some (inodes d !! d_inodeId r)) then
    (Ok tt, on_db (set_dirents (<[(pid, name) := r]>)) t)
  else (Err (SqlState "23503"), t).

(** The [deleted_inode]/[decremented] pair of CTEs: by the snapshot's nlink
    the inode is either deleted or decremented, never both. *)
Definition drop_link (id : Z) (t : tx) : tx :=
  match sel_inode t id with
  | Some r =>
      if decide (i_nlink r ≤ 1) then on_db (delete_cascade id) t
      else on_db (set_inodes (<[id := set_nlink (i_nlink r - 1) r]>)) t
  | None => t
  end.

(** ** Sandbox context and epochs (sandbox.ts) *)

Definition setSandboxContext (sandboxId : string) : txM unit := λ t,
  (Ok tt, mkTx (t_db t) (Some sandboxId) (t_epoch t)).

Definition setSandboxContextWithLock (sandboxId : string) : txM unit := λ t,
  match sel_sandbox t sandboxId with
  | Some s => (Ok tt, mkTx (t_db t) (Some sandboxId) (Some (s_version s)))
  | None => (Err (ENOENT sandboxId), t)
  end.

Definition getSandboxEpoch (sandboxId : string) : txM Z := λ t,
  match sel_sandbox t sandboxId with
  | Some s => (Ok (s_version s), t)
  | None => (Err (ENOENT sandboxId), t)
  end.

Record SandboxGeneration := mkGeneration { priorEpoch : Z; g_epoch : Z }.

Definition retireSandboxGeneration (sandboxId : string) (assertOwnerLease : res fs_error unit)
    : txM SandboxGeneration :=
  setSandboxContextWithLock sandboxId ;;;
  lift_res assertOwnerLease ;;;
  let* row := gets (λ t, sel_sandbox t sandboxId) in
  match row with
  | Some s =>
      let v := s_version s + 1 in
      modifyS (on_db (set_sandboxes (<[sandboxId := set_version v s]>))) ;;;
      retM (mkGeneration (v - 1) v)
  | None => throw (ENOENT sandboxId)
  end.

(** ** Composite writes (namespace.ts) *)

Definition new_inode (sandboxId : string) (kind : InodeKind) (mode size now : Z)
    (sha target : option string) : InodeRow :=
  mkInode sandboxId kind mode size now 1 sha target.

Definition mkdirComposite (sandboxId : string) (parentId : Z) (name : string) (mode : Z)
    (expected : option Z) : txM Z :=
  let* fenced := compositeFenceAndAdvance sandboxId expected in
  if fenced then
    let* now := gets (λ t, clock (t_db t)) in
    let* id := insert_inode (new_inode sandboxId DIRECTORY mode 0 now None None) in
    insert_dirent_row parentId name (mkDirent id sandboxId) ;;;
    retM id
  else
    let* row := gets (λ t, sel_sandbox t sandboxId) in
    match row with
    | Some _ => throw (ESTALE sandboxId)
    | None => throw (PlainError "mkdirComposite: INSERT returned no rows")
    end.

Definition rmComposite (sandboxId : string) (parentId : Z) (name : string)
    (expected : option Z) : txM Z :=
  let* fenced := compositeFenceAndAdvance sandboxId expected in
  if fenced then
    let* removed := gets (λ t, sel_dirent t (parentId, name)) in
    match removed with
    | Some de =>
        modifyS (on_db (set_dirents (delete (parentId, name)))) ;;;
        modifyS (drop_link (d_inodeId de)) ;;;
        retM (d_inodeId de)
    | None => throw (ENOENT name)
    end
  else
    let* row := gets (λ t, sel_sandbox t sandboxId) in
    match row with
    | Some _ => throw (ESTALE sandboxId)
    | None => throw (ENOENT name)
    end.

(** [INSERT INTO dirents ... ON CONFLICT (parent_inode_id, name) DO UPDATE SET
    inode_id]: a conflicting row the policy hides is a policy violation. *)
Definition upsert_dirent_row (pid : Z) (name : string) (r : DirentRow) : txM unit := λ t,
  let d := t_db t in
  if decide (is_Some (inodes d !! pid) ∧ is_Some (inodes d !! d_inodeId r)) then
    match dirents d !! (pid, name) with
    | Some old =>
        if visible t (d_sandboxId old) then
          (Ok tt, on_db (set_dirents (<[(pid, name) := mkDirent (d_inodeId r) (d_sandboxId old)]>)) t)
        else (Err (SqlState "42501"), t)
    | None => (Ok tt, on_db (set_dirents (<[(pid, name) := r]>)) t)
    end
  else (Err (SqlState "23503"), t).

Definition writeFileComposite (sandboxId : string) (parentId : Z) (name : string)
    (mode size : Z) (sha256 : string) (expected : option Z) : txM Z :=
  let* fenced := compositeFenceAndAdvance sandboxId expected in
  if fenced then
    let* now := gets (λ t, clock (t_db t)) in
    let* old_dirent := gets (λ t, sel_dirent t (parentId, name)) in
    let* id := insert_inode (new_inode sandboxId FILE mode size now (Some sha256) None) in
    upsert_dirent_row parentId name (mkDirent id sandboxId) ;;;
    match old_dirent with
    | Some de => modifyS (drop_link (d_inodeId de))
    | None => retM tt
    end ;;;
    retM id
  else
    let* row := gets (λ t, sel_sandbox t sandboxId) in
    match row with
    | Some _ => throw (ESTALE sandboxId)
    | None => throw (PlainError "writeFileComposite: INSERT returned no rows")
    end.

(** [UPDATE dirents SET parent_inode_id, name WHERE old key RETURNING inode_id] *)
Definition rename_dirent_row (oldPid : Z) (oldName : string) (newPid : Z) (newName : string)
    : txM (option Z) := λ t,
  let d := t_db t in
  match sel_dirent t (oldPid, oldName) with
  | None => (Ok None, t)
  | Some de =>
      if decide ((oldPid, oldName) ≠ (newPid, newName) ∧ is_Some (dirents d !! (newPid, newName))) then
        (Err (SqlState "23505"), t)
      else if decide (is_Some (inodes d !! newPid)) then
        (Ok (Some (d_inodeId de)),
         on_db (set_dirents (λ m, <[(newPid, newName) := de]> (delete (oldPid, oldName) m))) t)
      else (Err (SqlState "23503"), t)
  end.

Definition mvComposite (sandboxId : string) (oldParentId : Z) (oldName : string)
    (newParentId : Z) (newName : string) (expected : option Z) : txM unit :=
  let* fenced := compositeFenceAndAdvance sandboxId expected in
  (if fenced then
     let* old_dest := gets (λ t, sel_dirent t (newParentId, newName)) in
     match old_dest with
     | Some de =>
         modifyS (on_db (set_dirents (delete (newParentId, newName)))) ;;;
         modifyS (drop_link (d_inodeId de))
     | None => retM tt
     end
   else
     let* row := gets (λ t, sel_sandbox t sandboxId) in
     match row with
     | Some _ => throw (ESTALE sandboxId)
     | None => throw (ENOENT oldName)
     end) ;;;
  let* fenced2 := compositeFenceAndAdvance sandboxId expected in
  if fenced2 then
    let* moved := rename_dirent_row oldParentId oldName newParentId newName in
    match moved with
    | Some _ => retM tt
    | None => throw (ENOENT oldName)
    end
  else
    let* row := gets (λ t, sel_sandbox t sandboxId) in
    match row with
    | Some _ => throw (ESTALE sandboxId)
    | None => throw (ENOENT oldName)
    end.

(** ** Single-row operations (namespace.ts) *)

Record CreateInodeOpts := mkCreate {
  co_sandboxId : string;
  co_kind : InodeKind;
  co_mode : Z;
  co_size : Z;
  co_contentSha256 : option string;
  co_symlinkTarget : option string
}.

(** The fields [updateInode] may patch; an absent field is left alone. *)
Record UpdateInodeOpts := mkUpdate {
  uo_mode : option Z;
  uo_size : option Z;
  uo_mtime : option Z;
  uo_contentSha256 : option (option string)
}.

Definition createInode (opts : CreateInodeOpts) (expected : option Z) : txM Z :=
  let* fenced := fenceAndAdvance (co_sandboxId opts) expected in
  if fenced then
    let* now := gets (λ t, clock (t_db t)) in
    insert_inode (new_inode (co_sandboxId opts) (co_kind opts) (co_mode opts) (co_size opts) now
                            (co_contentSha256 opts) (co_symlinkTarget opts))
  else throw (ESTALE (co_sandboxId opts)).

Definition getInode (inodeId : Z) : txM (option InodeRow) := gets (λ t, sel_inode t inodeId).

Definition patch_inode (u : UpdateInodeOpts) (r : InodeRow) : InodeRow :=
  mkInode (i_sandboxId r) (i_kind r)
    (default (i_mode r) (uo_mode u)) (default (i_size r) (uo_size u))
    (default (i_mtime r) (uo_mtime u)) (i_nlink r)
    (default (i_contentSha256 r) (uo_contentSha256 u)) (i_symlinkTarget r).

Definition no_patch (u : UpdateInodeOpts) : bool :=
  match uo_mode u, uo_size u, uo_mtime u, uo_contentSha256 u with
  | None, None, None, None => true
  | _, _, _, _ => false
  end.

Definition updateInode (inodeId : Z) (updates : UpdateInodeOpts) (sandboxId : string)
    (expected : option Z) : txM unit :=
  if no_patch updates then retM tt
  else
    let* fenced := fenceAndAdvance sandboxId expected in
    if fenced then
      let* row := gets (λ t, sel_inode t inodeId) in
      match row with
      | Some r => modifyS (on_db (set_inodes (<[inodeId := patch_inode updates r]>)))
      | None => retM tt
      end
    else throw (ESTALE sandboxId).

Definition deleteInode (inodeId : Z) : txM unit :=
  let* row := gets (λ t, sel_inode t inodeId) in
  match row with
  | Some _ => modifyS (on_db (delete_cascade inodeId))
  | None => retM tt
  end.

Definition incrementNlink (inodeId : Z) (sandboxId : string) (expected : option Z) : txM unit :=
  let* fenced := fenceAndAdvance sandboxId expected in
  if fenced then
    let* row := gets (λ t, sel_inode t inodeId) in
    match row with
    | Some r => modifyS (on_db (set_inodes (<[inodeId := set_nlink (i_nlink r + 1) r]>)))
    | None => retM tt
    end
  else throw (ESTALE sandboxId).

Definition decrementNlink (inodeId : Z) : txM Z :=
  let* row := gets (λ t, sel_inode t inodeId) in
  match row with
  | Some r =>
      modifyS (on_db (set_inodes (<[inodeId := set_nlink (i_nlink r - 1) r]>))) ;;;
      retM (i_nlink r - 1)
  | None => throw (PlainError "decrementNlink: inode not found")
  end.

(** [INSERT ... SELECT ... FROM inodes WHERE id = parentId]: no row is inserted,
    and nothing is raised, when the parent is not there. *)
Definition insertDirent (parentId : Z) (name : string) (inodeId : Z) : txM unit :=
  let* parent := gets (λ t, sel_inode t parentId) in
  match parent with
  | Some p => insert_dirent_row parentId name (mkDirent inodeId (i_sandboxId p))
  | None => retM tt
  end.

Definition upsertDirent (parentId : Z) (name : string) (inodeId : Z) : txM (option Z) :=
  let* existing := gets (λ t, sel_dirent t (parentId, name)) in
  let* parent := gets (λ t, sel_inode t parentId) in
  match parent with
  | Some p =>
      upsert_dirent_row parentId name (mkDirent inodeId (i_sandboxId p)) ;;;
      retM (d_inodeId <$> existing)
  | None => throw (PlainError "upsertDirent: INSERT returned no rows")
  end.

Definition deleteDirent (parentId : Z) (name : string) (sandboxId : string)
    (expected : option Z) : txM Z :=
  let* fenced := fenceAndAdvance sandboxId expected in
  if fenced then
    let* removed := gets (λ t, sel_dirent t (parentId, name)) in
    match removed with
    | Some de =>
        modifyS (on_db (set_dirents (delete (parentId, name)))) ;;;
        retM (d_inodeId de)
    | None => throw (ENOENT name)
    end
  else throw (ESTALE sandboxId).

Definition moveDirent (oldParentId : Z) (oldName : string) (newParentId : Z) (newName : string)
    (sandboxId : string) (expected : option Z) : txM unit :=
  let* fenced := fenceAndAdvance sandboxId expected in
  if fenced then
    let* cleared := gets (λ t, sel_dirent t (newParentId, newName)) in
    (if cleared is Some _ then modifyS (on_db (set_dirents (delete (newParentId, newName))))
     else retM tt) ;;;
    let* moved := rename_dirent_row oldParentId oldName newParentId newName in
    match moved with
    | Some _ => retM tt
    | None => throw (ENOENT oldName)
    end
  else throw (ESTALE sandboxId).

(** ** The recursive tree queries (namespace.ts) *)

(** The path column of the recursive branch. *)
Definition row_path (parent name : string) : string :=
  if decide (parent = "/") then "/" +:+ name else parent +:+ "/" +:+ name.

(** [tree t JOIN dirents d ON d.parent_inode_id = t.inode_id JOIN inodes i ON
    i.id = d.inode_id], for one row of the working table. *)
Definition tree_children (t : tx) (row : Z * string) : list (Z * string) :=
  omap (λ kv : (Z * string) * DirentRow,
    let '((pid, name), de) := kv in
    if decide (pid = row.1) then
      if visible t (d_sandboxId de) then
        match sel_inode t (d_inodeId de) with
        | Some _ => Some (d_inodeId de, row_path row.2 name)
        | None => None
        end
      else None
    else None) (map_to_list (dirents (t_db t))).

(** [WITH RECURSIVE]: iterate the recursive branch on the rows of the previous
    round until it gives none, at most [fuel] rounds. *)
Fixpoint tree_rows (fuel : nat) (t : tx) (work : list (Z * string)) : list (Z * string) :=
  match fuel with
  | O => []
  | S fuel' =>
      match work with
      | [] => []
      | _ => work ++ tree_rows fuel' t (work ≫= tree_children t)
      end
  end.

(** One round per level of the tree, and one for the empty level. *)
Definition tree_fuel (d : db) : nat := S (S (size (inodes d))).

Record PathCacheEntry := mkEntry {
  inodeId : Z;
  kind : InodeKind;
  mode : Z;
  e_size : Z;
  mtime : Z;
  contentSha256 : option string;
  symlinkTarget : option string
}.

Definition entry_of (id : Z) (r : InodeRow) : PathCacheEntry :=
  mkEntry id (i_kind r) (i_mode r) (i_size r) (i_mtime r) (i_contentSha256 r) (i_symlinkTarget r).

Definition loadAllPaths : txM (list (string * PathCacheEntry)) := liftS (λ t,
  match t_sandbox t with
  | None => (Err (SqlState "42704"), t)
  | Some sb =>
      match sel_sandbox t sb ≫= s_root with
      | None => (Ok [], t)
      | Some root =>
          match sel_inode t root with
          | None => (Ok [], t)
          | Some _ =>
              (Ok (omap (λ row : Z * string,
                     r ← sel_inode t row.1; Some (row.2, entry_of row.1 r))
                   (tree_rows (tree_fuel (t_db t)) t [(root, "/")])), t)
          end
      end
  end).

(** ** Blobs (blobs.ts, without the optional Redis cache) *)

Definition blob_row_upsert (sha256 data : string) (d : db) : db :=
  set_blobs (λ m,
    match m !! sha256 with
    | Some b => <[sha256 := mkBlob (b_data b) (b_size b) (Some (clock d))]> m
    | None => <[sha256 := mkBlob data (str_len data) (Some (clock d))]> m
    end) d.

Definition upsertBlob (sha256 data : string) : txM unit :=
  modifyS (on_db (blob_row_upsert sha256 data)).

(** Its own statement on its own connection: it commits at once. *)
Definition commitBlob (sha256 data : string) (d : db) : db := blob_row_upsert sha256 data d.

Definition commitBatch (rows : list (string * string)) (d : db) : db :=
  fold_left (λ d row, blob_row_upsert row.1 row.2 d) rows d.

Definition getBlob (sha256 : string) : txM (option string) :=
  gets (λ t, b_data <$> blobs (t_db t) !! sha256).

Definition getBlobNoTx (sha256 : string) (d : db) : option string := b_data <$> blobs d !! sha256.

(** A blob is garbage when no inode with a positive link count refers to it
    and it was last referenced before the grace window (or never). *)
Definition orphan (t : tx) (minAgeMs : Z) (sha : string) (b : BlobRow) : bool :=
  bool_decide (map_Forall (λ (_ : Z) i,
    ¬ (visible t (i_sandboxId i) = true ∧ i_contentSha256 i = Some sha ∧ 0 < i_nlink i)) (inodes (t_db t)))
  && match b_lastReferencedAt b with
     | None => true
     | Some at_ => bool_decide (at_ < clock (t_db t) - minAgeMs)
     end.

Definition gcOrphanBlobs (minAgeMs : Z) : txM (list string) := liftS (λ t,
  let doomed := filter (λ kv, orphan t minAgeMs kv.1 kv.2 = true) (blobs (t_db t)) in
  (Ok (map_to_list doomed).*1,
   on_db (set_blobs (filter (λ kv, orphan t minAgeMs kv.1 kv.2 = false))) t)).

(** ** Sandbox lifecycle (sandbox.ts) *)

Definition createDirInode (sandboxId : string) (parentInodeId : Z) (name : string) : txM Z :=
  let* now := gets (λ t, clock (t_db t)) in
  let* id := insert_inode (new_inode sandboxId DIRECTORY 493 0 now None None) in
  insert_dirent_row parentInodeId name (mkDirent id sandboxId) ;;;
  retM id.

Record CreatedSandbox := mkCreated { rootInodeId : Z; createdAt : Z; c_epoch : Z }.

Definition createSandbox (sandboxId owner : string) : txM CreatedSandbox :=
  let* prior := gets (λ t, sandbox_epochs (t_db t) !! sandboxId) in
  let epoch := match prior with Some e => e + 1 | None => 0 end in
  modifyS (on_db (set_epochs (<[sandboxId := epoch]>))) ;;;
  let* exists_ := gets (λ t, sandboxes (t_db t) !! sandboxId) in
  match exists_ with
  | Some _ => throw (SqlState "23505")
  | None =>
      let* now := gets (λ t, clock (t_db t)) in
      modifyS (on_db (set_sandboxes
        (<[sandboxId := mkSandbox None (Some owner) None false false false now epoch]>))) ;;;
      let* root := insert_inode (new_inode sandboxId DIRECTORY 493 0 now None None) in
      modifyS (on_db (set_sandboxes (alter (set_root (Some root)) sandboxId))) ;;;
      let* home := createDirInode sandboxId root "home" in
      createDirInode sandboxId root "tmp" ;;;
      createDirInode sandboxId root "bin" ;;;
      createDirInode sandboxId home "user" ;;;
      retM (mkCreated root now epoch)
  end.

(** The cascades of [DELETE FROM sandboxes]. *)
Definition delete_sandbox_cascade (sandboxId : string) (d : db) : db :=
  let doomed (id : Z) := match inodes d !! id with
                         | Some r => bool_decide (i_sandboxId r = sandboxId)
                         | None => false
                         end in
  set_dirents (filter (λ kv, d_sandboxId kv.2 ≠ sandboxId
                             ∧ doomed kv.1.1 = false ∧ doomed (d_inodeId kv.2) = false))
    (set_inodes (filter (λ kv, i_sandboxId kv.2 ≠ sandboxId))
      (set_sandboxes (delete sandboxId) d)).

Definition deleteSandbox (sandboxId : string) : txM Z :=
  let* row := gets (λ t, sel_sandbox t sandboxId) in
  let* tomb := gets (λ t, sandbox_epochs (t_db t) !! sandboxId) in
  match row with
  | Some s =>
      let epoch := match tomb with
                   | Some e => Z.max e (s_version s + 1)
                   | None => s_version s + 1
                   end in
      modifyS (on_db (delete_sandbox_cascade sandboxId)) ;;;
      modifyS (on_db (set_epochs (<[sandboxId := epoch]>))) ;;;
      retM epoch
  | None => retM (default 0 tomb)
  end.
