(* ===== verification/Tree.v ===== *)
(** The directory tree a database holds.

    [walk] follows directory entries from an inode down a list of names;
    [links] counts the entries that point at an inode; [wf_db] is the
    well-formedness every committed database satisfies: the foreign keys and
    the sandbox column agree, parents are directories, names are valid path
    components, a directory has one entry, a root has none, and every link
    count is exact. The file proves how the elementary changes of the tree
    (add an entry, remove one, rename one) act on [walk] and on [wf_db]. *)

From S2P Require Import Prelude Errors Paths Store.

#[export] Instance InodeRow_eq_dec : EqDecision InodeRow.
Proof. solve_decision. Defined.
#[export] Instance DirentRow_eq_dec : EqDecision DirentRow.
Proof. solve_decision. Defined.

Abbreviation dirmap := (gmap (Z * string) DirentRow).

Fixpoint walk (D : dirmap) (id : Z) (cs : list string) : option Z :=
  match cs with
  | [] => Some id
  | n :: cs' => de ← D !! (id, n); walk D (d_inodeId de) cs'
  end.

Definition links (D : dirmap) (id : Z) : nat := size (filter (λ kv, d_inodeId kv.2 = id) D).

(** A root holds one link that is no directory entry. *)
Definition root_link (d : db) (id : Z) (r : InodeRow) : Z :=
  if decide ((sandboxes d !! i_sandboxId r) ≫= s_root = Some id) then 1 else 0.

Record wf_db (d : db) : Prop := {
  wf_parent p n de : dirents d !! (p, n) = Some de →
    ∃ r, inodes d !! p = Some r ∧ i_kind r = DIRECTORY ∧ i_sandboxId r = d_sandboxId de;
  wf_child k de : dirents d !! k = Some de →
    ∃ r, inodes d !! d_inodeId de = Some r ∧ i_sandboxId r = d_sandboxId de;
  wf_name p n de : dirents d !! (p, n) = Some de → valid_name n;
  wf_dir k1 k2 de1 de2 r : dirents d !! k1 = Some de1 → dirents d !! k2 = Some de2 →
    d_inodeId de1 = d_inodeId de2 → inodes d !! d_inodeId de1 = Some r → i_kind r = DIRECTORY →
    k1 = k2;
  wf_root sb s root : sandboxes d !! sb = Some s → s_root s = Some root →
    ∃ r, inodes d !! root = Some r ∧ i_kind r = DIRECTORY ∧ i_sandboxId r = sb;
  wf_top sb s root k de : sandboxes d !! sb = Some s → s_root s = Some root →
    dirents d !! k = Some de → d_inodeId de ≠ root;
  wf_nlink id r : inodes d !! id = Some r →
    i_nlink r = Z.of_nat (links (dirents d) id) + root_link d id r;
  wf_fresh id : is_Some (inodes d !! id) → 0 < id < next_id d;
  wf_next : 0 < next_id d
}.

(** ** Counting links *)

Lemma links_insert D k de id : D !! k = None →
  links (<[k := de]> D) id = (links D id + if decide (d_inodeId de = id) then 1 else 0)%nat.
Proof.
  intros Hk. unfold links. case_decide as Hd.
  - rewrite map_filter_insert_True by done.
    rewrite map_size_insert_None; [lia|]. apply map_lookup_filter_None. by left.
  - rewrite map_filter_insert_False by done. rewrite delete_id by done. lia.
Qed.

Lemma links_delete D k de id : D !! k = Some de →
  links D id = (links (delete k D) id + if decide (d_inodeId de = id) then 1 else 0)%nat.
Proof.
  intros Hk. rewrite <- (insert_id D k de) at 1 by done.
  rewrite <- (insert_delete_eq D). apply links_insert. apply lookup_delete_eq.
Qed.

Lemma links_zero D id : links D id = 0%nat ↔ ∀ k de, D !! k = Some de → d_inodeId de ≠ id.
Proof.
  unfold links. rewrite map_size_empty_iff. split.
  - intros He k de Hk Hd. assert (Hl : filter (λ kv, d_inodeId kv.2 = id) D !! k = Some de)
      by (apply map_lookup_filter_Some; done). by rewrite He in Hl.
  - intros Hall. apply map_empty. intros k. apply map_lookup_filter_None. right.
    intros de Hk Hd. by apply (Hall k de).
Qed.

Lemma links_pos D k de : D !! k = Some de → (0 < links D (d_inodeId de))%nat.
Proof.
  intros Hk. destruct (links D (d_inodeId de)) eqn:E; [|lia].
  rewrite links_zero in E. by destruct (E k de).
Qed.

(** With one link, the entry that gives it is the only one. *)
Lemma links_one D k1 k2 de1 de2 :
  links D (d_inodeId de1) = 1%nat → D !! k1 = Some de1 → D !! k2 = Some de2 →
  d_inodeId de2 = d_inodeId de1 → k1 = k2.
Proof.
  intros Hl H1 H2 Heq. rewrite (links_delete D k1 de1) in Hl by done.
  rewrite decide_True in Hl by done.
  destruct (decide (k1 = k2)) as [|Hne]; [done|].
  assert (Hz : links (delete k1 D) (d_inodeId de1) = 0%nat) by lia.
  rewrite links_zero in Hz. destruct (Hz k2 de2); [by rewrite lookup_delete_ne | done].
Qed.

(** ** Walks *)

Lemma walk_app D id cs ds : walk D id (cs ++ ds) = x ← walk D id cs; walk D x ds.
Proof.
  revert id. induction cs as [|n cs IH]; intros id; simpl; [done|].
  destruct (D !! (id, n)); simpl; [apply IH | done].
Qed.

Lemma walk_snoc D id cs n :
  walk D id (cs ++ [n]) = x ← walk D id cs; d_inodeId <$> D !! (x, n).
Proof.
  rewrite walk_app. destruct (walk D id cs) as [x|]; simpl; [|done].
  by destruct (D !! (x, n)).
Qed.

(** A change of the entry map that only touches keys whose paths satisfy [Q]
    leaves every walk to a path outside [Q] as it was. *)
Lemma walk_frame_gen D D' r (Q : list string → Prop) :
  (∀ cs n, Q cs → Q (cs ++ [n])) →
  (∀ cs p n, walk D r cs = Some p → D' !! (p, n) ≠ D !! (p, n) → Q (cs ++ [n])) →
  ∀ cs, ¬ Q cs → walk D' r cs = walk D r cs.
Proof.
  intros Hext Hq cs. induction cs as [|n cs IH] using rev_ind; [done|].
  intros Hp. rewrite !walk_snoc. rewrite IH by (intros Hc; by apply Hp, Hext).
  destruct (walk D r cs) as [x|] eqn:E; simpl; [|done].
  destruct (decide (D' !! (x, n) = D !! (x, n))) as [->|Hne]; [done|].
  destruct Hp. by eapply Hq.
Qed.

Lemma walk_frame D D' r q :
  (∀ cs p n, walk D r cs = Some p → D' !! (p, n) ≠ D !! (p, n) → q `prefix_of` cs ++ [n]) →
  ∀ cs, ¬ q `prefix_of` cs → walk D' r cs = walk D r cs.
Proof. intros Hq. apply walk_frame_gen; [|done]. intros cs n ?. by apply prefix_app_r. Qed.

Lemma snoc_not_prefix (ps : list string) n : ¬ (ps ++ [n]) `prefix_of` ps.
Proof. intros Hpre%prefix_length. rewrite length_app in Hpre. simpl in Hpre. lia. Qed.

(** The root of [sb]. *)
Definition root_of (d : db) (sb : string) : option Z := sandboxes d !! sb ≫= s_root.

Lemma root_of_Some d sb root :
  root_of d sb = Some root ↔ ∃ s, sandboxes d !! sb = Some s ∧ s_root s = Some root.
Proof.
  unfold root_of. destruct (sandboxes d !! sb) as [s|]; simpl; [|naive_solver].
  split; [by exists s | by intros (? & [= ->] & ?)].
Qed.

Section wf.
Context (d : db) (Hwf : wf_db d).

Lemma wf_key_dir p n de r :
  dirents d !! (p, n) = Some de → inodes d !! p = Some r → i_kind r = DIRECTORY.
Proof. intros Hk Hr. destruct (wf_parent d Hwf p n de Hk) as (r' & Hr' & ? & _). congruence. Qed.

(** A node that is no directory has no entries below it. *)
Lemma wf_leaf id r n : inodes d !! id = Some r → i_kind r ≠ DIRECTORY → dirents d !! (id, n) = None.
Proof.
  intros Hr Hk. destruct (dirents d !! (id, n)) as [de|] eqn:E; [|done].
  destruct Hk. by eapply wf_key_dir.
Qed.

Lemma wf_fresh_key n id : next_id d ≤ id → dirents d !! (id, n) = None.
Proof.
  intros Hid. destruct (dirents d !! (id, n)) as [de|] eqn:E; [|done].
  destruct (wf_parent d Hwf id n de E) as (r & Hr & _).
  destruct (wf_fresh d Hwf id); [by eexists | lia].
Qed.

Lemma wf_fresh_inode id : next_id d ≤ id → inodes d !! id = None.
Proof.
  intros Hid. destruct (inodes d !! id) as [r|] eqn:E; [|done].
  destruct (wf_fresh d Hwf id); [by eexists | lia].
Qed.

Lemma walk_inode sb root cs id :
  root_of d sb = Some root → walk (dirents d) root cs = Some id →
  ∃ r, inodes d !! id = Some r ∧ i_sandboxId r = sb.
Proof.
  intros (s & Hs & Hroot)%root_of_Some. revert id.
  induction cs as [|n cs IH] using rev_ind; intros id.
  - simpl. intros [= <-]. destruct (wf_root d Hwf sb s root Hs Hroot) as (r & ? & _ & ?). by exists r.
  - rewrite walk_snoc. destruct (walk (dirents d) root cs) as [x|]; simpl; [|done].
    destruct (dirents d !! (x, n)) as [de|] eqn:E; simpl; [|done]. intros [= <-].
    destruct (wf_child d Hwf _ _ E) as (r & Hr & Hsb).
    destruct (wf_parent d Hwf _ _ _ E) as (pr & Hpr & _ & Hpsb).
    destruct (IH x) as (pr' & Hpr' & Hx); [done|]. exists r. split; [done|]. congruence.
Qed.

(** A directory is reached by one path only. *)
Lemma walk_dir_unique sb root cs1 cs2 id r :
  root_of d sb = Some root →
  walk (dirents d) root cs1 = Some id → walk (dirents d) root cs2 = Some id →
  inodes d !! id = Some r → i_kind r = DIRECTORY → cs1 = cs2.
Proof.
  intros Hroot. revert cs2 id r. pose proof Hroot as (s & Hs & Hr)%root_of_Some.
  induction cs1 as [|n1 cs1 IH] using rev_ind; intros cs2 id r.
  - simpl. intros [= <-]. destruct cs2 as [|n2 cs2 _] using rev_ind; [done|].
    rewrite walk_snoc. destruct (walk _ _ cs2) as [x|]; simpl; [|done].
    destruct (dirents d !! (x, n2)) as [de|] eqn:E; simpl; [|done]. intros [= Hid].
    by destruct (wf_top d Hwf sb s root _ _ Hs Hr E).
  - rewrite walk_snoc. destruct (walk _ _ cs1) as [x1|] eqn:E1; simpl; [|done].
    destruct (dirents d !! (x1, n1)) as [de1|] eqn:D1; simpl; [|done]. intros [= Hid1].
    destruct cs2 as [|n2 cs2 _] using rev_ind.
    + simpl. intros [= <-]. by destruct (wf_top d Hwf sb s root _ _ Hs Hr D1).
    + rewrite walk_snoc. destruct (walk _ _ cs2) as [x2|] eqn:E2; simpl; [|done].
      destruct (dirents d !! (x2, n2)) as [de2|] eqn:D2; simpl; [|done]. intros [= Hid2] Hrow Hk.
      assert ((x1, n1) = (x2, n2)) as [= <- <-].
      { eapply (wf_dir d Hwf); [done | done | congruence | by rewrite Hid1 | done]. }
      destruct (wf_parent d Hwf _ _ _ D1) as (pr & Hpr & Hpk & _).
      by rewrite (IH cs2 x1 pr).
Qed.

Lemma walk_valid sb root cs id :
  root_of d sb = Some root → walk (dirents d) root cs = Some id → valid_comps cs.
Proof.
  intros Hroot. revert id. induction cs as [|n cs IH] using rev_ind; intros id; [constructor|].
  rewrite walk_snoc. destruct (walk _ _ cs) as [x|]; simpl; [|done].
  destruct (dirents d !! (x, n)) as [de|] eqn:E; simpl; [|done]. intros _.
  apply valid_comps_snoc. split; [by eapply IH | by eapply (wf_name d Hwf)].
Qed.
End wf.

(** ** The elementary changes of the tree *)

(** A new inode under (p, n). *)
Definition add_node (p : Z) (n : string) (r : InodeRow) (d : db) : db :=
  mkDb (sandboxes d) (<[next_id d := r]> (inodes d))
       (<[(p, n) := mkDirent (next_id d) (i_sandboxId r)]> (dirents d))
       (blobs d) (sandbox_epochs d) (next_id d + 1) (clock d).

(** One link of [id] is gone: the row goes with the last one. *)
Definition drop_row (id : Z) (d : db) : db :=
  match inodes d !! id with
  | Some r => if decide (i_nlink r ≤ 1) then set_inodes (delete id) d
              else set_inodes (<[id := set_nlink (i_nlink r - 1) r]>) d
  | None => d
  end.

Definition remove_entry (k : Z * string) (d : db) : db :=
  match dirents d !! k with
  | Some de => drop_row (d_inodeId de) (set_dirents (delete k) d)
  | None => d
  end.

Definition rename_entry (k1 k2 : Z * string) (d : db) : db :=
  match dirents d !! k1 with
  | Some de => set_dirents (λ m, <[k2 := de]> (delete k1 m)) d
  | None => d
  end.

(** One more entry for an inode that exists. *)
Definition add_link (p : Z) (n : string) (id : Z) (r : InodeRow) (d : db) : db :=
  set_dirents (<[(p, n) := mkDirent id (i_sandboxId r)]>)
    (set_inodes (<[id := set_nlink (i_nlink r + 1) r]>) d).

(** [id] can lose its entry: it has no entries below it. *)
Definition childless (d : db) (id : Z) : Prop := ∀ n, dirents d !! (id, n) = None.

Lemma root_link_insert d id r' id' r :
  root_link (set_inodes (<[id' := r']>) d) id r = root_link d id r.
Proof. done. Qed.

Section add_node.
Context (d : db) (p : Z) (n : string) (r pr : InodeRow).
Context (Hwf : wf_db d) (Hp : inodes d !! p = Some pr) (Hpk : i_kind pr = DIRECTORY).
Context (Hsb : i_sandboxId r = i_sandboxId pr) (Hn : valid_name n) (Hnl : i_nlink r = 1).
Context (Hfree : dirents d !! (p, n) = None).

Local Lemma add_fresh_inode : inodes d !! next_id d = None.
Proof. apply wf_fresh_inode; [done | lia]. Qed.

Local Lemma add_p_ne : p ≠ next_id d.
Proof. intros ->. by rewrite add_fresh_inode in Hp. Qed.

Local Lemma add_no_entry k de : dirents d !! k = Some de → d_inodeId de ≠ next_id d.
Proof.
  intros Hk Heq. destruct (wf_child d Hwf k de Hk) as (r' & Hr' & _).
  by rewrite Heq, add_fresh_inode in Hr'.
Qed.

Local Lemma add_not_root : root_link d (next_id d) r = 0.
Proof.
  unfold root_link. rewrite decide_False; [done|]. intros (s & Hs & Hr)%root_of_Some.
  destruct (wf_root d Hwf _ _ _ Hs Hr) as (r' & Hr' & _). by rewrite add_fresh_inode in Hr'.
Qed.

Lemma wf_add_node : wf_db (add_node p n r d).
Proof.
  pose proof add_fresh_inode as Hfr. pose proof add_p_ne as Hpne.
  assert (Hlook : ∀ id x, inodes d !! id = Some x → <[next_id d := r]> (inodes d) !! id = Some x).
  { intros id x Hx. simpl. rewrite lookup_insert_ne; [done|]. intros <-. congruence. }
  split; simpl.
  - intros p' n' de. rewrite lookup_insert. case_decide as Hd.
    + intros [= <-]. injection Hd as <- <-. exists pr. by rewrite lookup_insert_ne.
    + intros Hk. destruct (wf_parent d Hwf _ _ _ Hk) as (r' & Hr' & ? & ?). exists r'. by rewrite (Hlook _ _ Hr').
  - intros k de. rewrite lookup_insert. case_decide as Hd.
    + intros [= <-]. exists r. simpl. by rewrite lookup_insert_eq.
    + intros Hk. destruct (wf_child d Hwf _ _ Hk) as (r' & Hr' & ?). exists r'. by rewrite (Hlook _ _ Hr').
  - intros p' n' de. rewrite lookup_insert. case_decide as Hd; [by injection Hd as <- <- | apply (wf_name d Hwf)].
  - intros k1 k2 de1 de2 r'. rewrite !lookup_insert. do 2 case_decide; subst; simpl; try done.
    + intros [= <-] Hk2 Heq. simpl in Heq. by destruct (add_no_entry _ _ Hk2).
    + intros Hk1 [= <-] Heq. simpl in Heq. by destruct (add_no_entry _ _ Hk1).
    + intros Hk1 Hk2 Heq. case_decide; [by destruct (add_no_entry _ _ Hk1)|]. by eapply (wf_dir d Hwf).
  - intros sb s root Hs Hr. destruct (wf_root d Hwf _ _ _ Hs Hr) as (r' & Hr' & ?). exists r'. by rewrite (Hlook _ _ Hr').
  - intros sb s root k de Hs Hr. rewrite lookup_insert. case_decide as Hd; [|by eapply (wf_top d Hwf)].
    intros [= <-]. simpl. destruct (wf_root d Hwf _ _ _ Hs Hr) as (r' & Hr' & _). congruence.
  - intros id r'. rewrite links_insert by done. simpl.
    change (root_link (add_node p n r d) id r') with (root_link d id r').
    rewrite lookup_insert. case_decide as Hd.
    + intros [= <-]. subst id. rewrite add_not_root.
      rewrite (proj2 (links_zero _ _)); [lia | apply add_no_entry].
    + intros Hr'. rewrite (wf_nlink d Hwf id r' Hr'). lia.
  - intros id. rewrite lookup_insert. case_decide as Hd; [pose proof (wf_next d Hwf); lia|].
    intros H. pose proof (wf_fresh d Hwf id H). lia.
  - pose proof (wf_next d Hwf). lia.
Qed.

Lemma walk_add_node sb root ps cs :
  root_of d sb = Some root → walk (dirents d) root ps = Some p →
  walk (dirents (add_node p n r d)) root cs =
  if decide (cs = ps ++ [n]) then Some (next_id d) else walk (dirents d) root cs.
Proof.
  intros Hroot Hps. simpl. set (D' := <[(p, n) := _]> (dirents d)).
  assert (Hfr : ∀ cs, ¬ (ps ++ [n]) `prefix_of` cs → walk D' root cs = walk (dirents d) root cs).
  { apply walk_frame. intros cs' p' n' Hw Hne. unfold D' in Hne.
    destruct (decide ((p, n) = (p', n'))) as [[= <- <-]|Hk].
    - rewrite (walk_dir_unique d Hwf sb root cs' ps p pr); done.
    - by rewrite lookup_insert_ne in Hne. }
  assert (Hat : walk D' root (ps ++ [n]) = Some (next_id d)).
  { rewrite walk_snoc. rewrite Hfr.
    - rewrite Hps. simpl. unfold D'. by rewrite lookup_insert_eq.
    - apply snoc_not_prefix. }
  case_decide as Hcs; [by subst|].
  destruct (decide ((ps ++ [n]) `prefix_of` cs)) as [[ds ->]|Hpre]; [|by apply Hfr].
  destruct ds as [|m ds]; [by rewrite app_nil_r in Hcs|].
  rewrite (walk_app D' _ (ps ++ [n])), Hat. rewrite (walk_app _ _ (ps ++ [n])), walk_snoc, Hps.
  simpl. rewrite Hfree. simpl.
  pose proof add_p_ne as Hpne. unfold D'. rewrite lookup_insert_ne by congruence.
  rewrite wf_fresh_key; [done | done | lia].
Qed.
End add_node.

Lemma inodes_drop_row id x d :
  inodes (drop_row id d) !! x =
  match inodes d !! id with
  | Some r => if decide (x = id) then
                if decide (i_nlink r ≤ 1) then None else Some (set_nlink (i_nlink r - 1) r)
              else inodes d !! x
  | None => inodes d !! x
  end.
Proof.
  unfold drop_row. destruct (inodes d !! id) as [r|] eqn:E; [|done].
  destruct (decide (i_nlink r ≤ 1)), (decide (x = id)) as [->|Hne]; simpl.
  - by rewrite lookup_delete_eq.
  - by rewrite lookup_delete_ne.
  - by rewrite lookup_insert_eq.
  - by rewrite lookup_insert_ne.
Qed.

Lemma dirents_drop_row id d : dirents (drop_row id d) = dirents d.
Proof. unfold drop_row. destruct (inodes d !! id); [|done]. by case_decide. Qed.

Lemma sandboxes_drop_row id d : sandboxes (drop_row id d) = sandboxes d.
Proof. unfold drop_row. destruct (inodes d !! id); [|done]. by case_decide. Qed.

Lemma next_id_drop_row id d : next_id (drop_row id d) = next_id d.
Proof. unfold drop_row. destruct (inodes d !! id); [|done]. by case_decide. Qed.

Lemma sandboxes_remove k d : sandboxes (remove_entry k d) = sandboxes d.
Proof. unfold remove_entry. destruct (dirents d !! k); [by rewrite sandboxes_drop_row | done]. Qed.

Lemma next_id_remove k d : next_id (remove_entry k d) = next_id d.
Proof. unfold remove_entry. destruct (dirents d !! k); [by rewrite next_id_drop_row | done]. Qed.

Section remove_entry.
Context (d : db) (p : Z) (n : string) (de : DirentRow).
Context (Hwf : wf_db d) (Hk : dirents d !! (p, n) = Some de).
Context (Hleaf : childless d (d_inodeId de)).

Lemma remove_entry_eq :
  remove_entry (p, n) d = drop_row (d_inodeId de) (set_dirents (delete (p, n)) d).
Proof. unfold remove_entry. by rewrite Hk. Qed.

Lemma dirents_remove_entry : dirents (remove_entry (p, n) d) = delete (p, n) (dirents d).
Proof. by rewrite remove_entry_eq, dirents_drop_row. Qed.

(** Every inode but the unlinked one keeps its row. *)
Lemma inodes_remove_entry_ne x :
  x ≠ d_inodeId de → inodes (remove_entry (p, n) d) !! x = inodes d !! x.
Proof.
  intros Hx. rewrite remove_entry_eq, inodes_drop_row. simpl.
  destruct (inodes d !! d_inodeId de); [by rewrite decide_False | done].
Qed.

(** The unlinked inode's row: gone with its last link, one link fewer else. *)
Lemma inodes_remove_entry_eq r :
  inodes d !! d_inodeId de = Some r →
  inodes (remove_entry (p, n) d) !! d_inodeId de =
    if decide (i_nlink r ≤ 1) then None else Some (set_nlink (i_nlink r - 1) r).
Proof.
  intros Hr. rewrite remove_entry_eq, inodes_drop_row. simpl. rewrite Hr. by rewrite decide_True.
Qed.

Lemma remove_entry_back id r' :
  inodes (remove_entry (p, n) d) !! id = Some r' →
  ∃ r, inodes d !! id = Some r ∧ i_kind r' = i_kind r ∧ i_sandboxId r' = i_sandboxId r.
Proof.
  destruct (decide (id = d_inodeId de)) as [->|Hne].
  - destruct (wf_child d Hwf _ _ Hk) as (r & Hr & _). rewrite (inodes_remove_entry_eq r Hr).
    case_decide; [done|]. intros [= <-]. by exists r.
  - rewrite inodes_remove_entry_ne by done. intros H. by exists r'.
Qed.

(** An inode some other entry still refers to survives. *)
Lemma remove_entry_keeps k' de' r :
  k' ≠ (p, n) → dirents d !! k' = Some de' → inodes d !! d_inodeId de' = Some r →
  ∃ r', inodes (remove_entry (p, n) d) !! d_inodeId de' = Some r' ∧
        i_kind r' = i_kind r ∧ i_sandboxId r' = i_sandboxId r.
Proof.
  intros Hne Hk' Hr. destruct (decide (d_inodeId de' = d_inodeId de)) as [Heq|Hd].
  - rewrite Heq in *. rewrite (inodes_remove_entry_eq r Hr). case_decide as Hl; [|by eexists].
    exfalso. apply Hne. symmetry. eapply (links_one (dirents d) (p, n) k' de de'); try done.
    pose proof (wf_nlink d Hwf _ _ Hr) as Hn. pose proof (links_pos _ _ _ Hk).
    unfold root_link in Hn. case_decide; lia.
  - exists r. by rewrite inodes_remove_entry_ne.
Qed.

Lemma remove_entry_keeps_parent p' n' de' r :
  dirents d !! (p', n') = Some de' → inodes d !! p' = Some r →
  inodes (remove_entry (p, n) d) !! p' = Some r.
Proof.
  intros Hk' Hr. rewrite inodes_remove_entry_ne; [done|]. intros ->.
  by rewrite Hleaf in Hk'.
Qed.

Lemma wf_remove_entry : wf_db (remove_entry (p, n) d).
Proof.
  assert (Hdel : ∀ k' x, delete (p, n) (dirents d) !! k' = Some x → k' ≠ (p, n) ∧ dirents d !! k' = Some x)
    by (intros k' x [? ?]%lookup_delete_Some; split; congruence).
  split; rewrite ?dirents_remove_entry, ?sandboxes_remove, ?next_id_remove.
  - intros p' n' x [Hne Hx]%Hdel. destruct (wf_parent d Hwf _ _ _ Hx) as (r & Hr & ? & ?).
    exists r. split; [by eapply remove_entry_keeps_parent | done].
  - intros k' x [Hne Hx]%Hdel. destruct (wf_child d Hwf _ _ Hx) as (r & Hr & Hs).
    destruct (remove_entry_keeps _ _ _ Hne Hx Hr) as (r' & ? & _ & ?). exists r'. split; congruence.
  - intros p' n' x [_ Hx]%Hdel. by eapply (wf_name d Hwf).
  - intros k1 k2 x1 x2 r [_ H1]%Hdel [_ H2]%Hdel Heq Hr Hkr.
    destruct (remove_entry_back _ _ Hr) as (r0 & Hr0 & Hk0 & _).
    eapply (wf_dir d Hwf); [done | done | done | done | congruence].
  - intros sb s root Hs Hr. destruct (wf_root d Hwf _ _ _ Hs Hr) as (r & Hrow & ? & ?).
    exists r. rewrite inodes_remove_entry_ne; [done|]. intros ->. by eapply (wf_top d Hwf).
  - intros sb s root k' x Hs Hr [_ Hx]%Hdel. by eapply (wf_top d Hwf).
  - intros id r'. destruct (wf_child d Hwf _ _ Hk) as (rc & Hrc & _).
    pose proof (links_delete (dirents d) (p, n) de id Hk) as Hl.
    unfold root_link. rewrite sandboxes_remove. fold (root_link d id r').
    destruct (decide (id = d_inodeId de)) as [->|Hne].
    + rewrite (inodes_remove_entry_eq rc Hrc). destruct (decide (i_nlink rc ≤ 1)); [done|]. intros [= <-]. simpl.
      rewrite decide_True in Hl by done. pose proof (wf_nlink d Hwf _ _ Hrc) as Hn.
      unfold root_link in *. simpl. lia.
    + rewrite inodes_remove_entry_ne by done. rewrite decide_False in Hl by congruence.
      intros Hr'. rewrite (wf_nlink d Hwf _ _ Hr'). lia.
  - intros id [r' Hr']. destruct (remove_entry_back _ _ Hr') as (r & Hr & _). apply (wf_fresh d Hwf). by exists r.
  - apply (wf_next d Hwf).
Qed.

Lemma walk_remove_entry sb root ps cs :
  root_of d sb = Some root → walk (dirents d) root ps = Some p →
  walk (dirents (remove_entry (p, n) d)) root cs =
  if decide ((ps ++ [n]) `prefix_of` cs) then None else walk (dirents d) root cs.
Proof.
  intros Hroot Hps. rewrite dirents_remove_entry.
  assert (Hfr : ∀ cs, ¬ (ps ++ [n]) `prefix_of` cs →
    walk (delete (p, n) (dirents d)) root cs = walk (dirents d) root cs).
  { apply walk_frame. intros cs' p' n' Hw Hne.
    destruct (decide ((p, n) = (p', n'))) as [[= <- <-]|Hkk].
    - destruct (wf_parent d Hwf _ _ _ Hk) as (pr & Hpr & Hpk & _).
      rewrite (walk_dir_unique d Hwf sb root cs' ps p pr); done.
    - by rewrite lookup_delete_ne in Hne. }
  case_decide as Hpre; [|by apply Hfr]. destruct Hpre as [ds ->].
  rewrite walk_app, walk_snoc, Hfr.
  - rewrite Hps. simpl. by rewrite lookup_delete_eq.
  - apply snoc_not_prefix.
Qed.
End remove_entry.

Section rename_entry.
Context (d : db) (p1 p2 : Z) (n1 n2 : string) (de : DirentRow) (pr : InodeRow).
Context (Hwf : wf_db d) (Hk : dirents d !! (p1, n1) = Some de).
Context (Hp2 : inodes d !! p2 = Some pr) (Hp2k : i_kind pr = DIRECTORY).
Context (Hp2s : i_sandboxId pr = d_sandboxId de) (Hn2 : valid_name n2).
Context (Hfree : dirents d !! (p2, n2) = None).

Lemma dirents_rename_entry :
  dirents (rename_entry (p1, n1) (p2, n2) d) = <[(p2, n2) := de]> (delete (p1, n1) (dirents d)).
Proof. unfold rename_entry. by rewrite Hk. Qed.

Lemma rename_entry_rest :
  sandboxes (rename_entry (p1, n1) (p2, n2) d) = sandboxes d ∧
  inodes (rename_entry (p1, n1) (p2, n2) d) = inodes d ∧
  next_id (rename_entry (p1, n1) (p2, n2) d) = next_id d.
Proof. unfold rename_entry. by rewrite Hk. Qed.

(** Where an entry after the rename was before. *)
Lemma rename_entry_back k x :
  dirents (rename_entry (p1, n1) (p2, n2) d) !! k = Some x →
  (k = (p2, n2) ∧ x = de) ∨ (k ≠ (p1, n1) ∧ k ≠ (p2, n2) ∧ dirents d !! k = Some x).
Proof.
  rewrite dirents_rename_entry, lookup_insert. case_decide as Hc.
  - intros [= <-]. by left.
  - intros [? ?]%lookup_delete_Some. right. split; [congruence|]. split; congruence.
Qed.

Lemma wf_rename_entry : wf_db (rename_entry (p1, n1) (p2, n2) d).
Proof.
  destruct rename_entry_rest as (Hsb & Hin & Hnx).
  split; rewrite ?Hsb, ?Hin, ?Hnx.
  - intros p n x [[[= -> ->] ->]|(_ & _ & Hx)]%rename_entry_back; [by exists pr | by eapply (wf_parent d Hwf)].
  - intros k x [[-> ->]|(_ & _ & Hx)]%rename_entry_back; by eapply (wf_child d Hwf).
  - intros p n x [[[= -> ->] ->]|(_ & _ & Hx)]%rename_entry_back; [done | by eapply (wf_name d Hwf)].
  - intros k1 k2 x1 x2 r [[-> ->]|(Hn1' & _ & Hx1)]%rename_entry_back
      [[-> ->]|(Hn2' & _ & Hx2)]%rename_entry_back Heq Hr Hkr; try done.
    + destruct Hn2'. symmetry. by eapply (wf_dir d Hwf).
    + destruct Hn1'. by eapply (wf_dir d Hwf).
    + by eapply (wf_dir d Hwf).
  - apply (wf_root d Hwf).
  - intros sb s root k x Hs Hr [[-> ->]|(_ & _ & Hx)]%rename_entry_back; by eapply (wf_top d Hwf).
  - intros id r Hr. unfold root_link. rewrite Hsb. fold (root_link d id r).
    rewrite dirents_rename_entry. rewrite links_insert.
    + rewrite (wf_nlink d Hwf _ _ Hr). rewrite (links_delete (dirents d) (p1, n1) de id Hk). lia.
    + apply lookup_delete_None. by right.
  - apply (wf_fresh d Hwf).
  - apply (wf_next d Hwf).
Qed.

Section walks.
Context (sb : string) (root : Z) (ps1 ps2 : list string).
Context (Hroot : root_of d sb = Some root).
Context (Hps1 : walk (dirents d) root ps1 = Some p1) (Hps2 : walk (dirents d) root ps2 = Some p2).
Context (Hnot : ¬ (ps1 ++ [n1]) `prefix_of` (ps2 ++ [n2])).

Local Lemma rename_free_path rest : walk (dirents d) root ((ps2 ++ [n2]) ++ rest) = None.
Proof. rewrite walk_app, walk_snoc, Hps2. simpl. by rewrite Hfree. Qed.

Local Lemma rename_p1_unique cs : walk (dirents d) root cs = Some p1 → cs = ps1.
Proof.
  intros Hw. destruct (wf_parent d Hwf _ _ _ Hk) as (r & Hr & Hrk & _).
  by apply (walk_dir_unique d Hwf sb root cs ps1 p1 r).
Qed.

Local Lemma rename_p2_unique cs : walk (dirents d) root cs = Some p2 → cs = ps2.
Proof. intros Hw. by apply (walk_dir_unique d Hwf sb root cs ps2 p2 pr). Qed.

Local Lemma rename_frame cs :
  ¬ (ps1 ++ [n1]) `prefix_of` cs → ¬ (ps2 ++ [n2]) `prefix_of` cs →
  walk (dirents (rename_entry (p1, n1) (p2, n2) d)) root cs = walk (dirents d) root cs.
Proof.
  intros H1 H2. rewrite dirents_rename_entry.
  apply (walk_frame_gen _ _ _ (λ cs, (ps1 ++ [n1]) `prefix_of` cs ∨ (ps2 ++ [n2]) `prefix_of` cs));
    [| |naive_solver].
  - intros cs' n [?|?]; [left | right]; by apply prefix_app_r.
  - intros cs' p n Hw Hne. rewrite lookup_insert in Hne. case_decide as Hc.
    + injection Hc as <- <-. right. by rewrite (rename_p2_unique cs').
    + rewrite lookup_delete in Hne. case_decide as Hc'; [|done]. injection Hc' as <- <-.
      left. by rewrite (rename_p1_unique cs').
Qed.

Lemma walk_rename_dest rest :
  walk (dirents (rename_entry (p1, n1) (p2, n2) d)) root ((ps2 ++ [n2]) ++ rest)
  = walk (dirents d) root ((ps1 ++ [n1]) ++ rest).
Proof.
  induction rest as [|m rest IH] using rev_ind.
  - rewrite !app_nil_r, !walk_snoc. rewrite rename_frame, Hps1, Hps2.
    + simpl. rewrite dirents_rename_entry, lookup_insert_eq. by rewrite Hk.
    + intros Hpre. apply Hnot. by apply prefix_app_r.
    + apply snoc_not_prefix.
  - rewrite !app_assoc, !walk_snoc, IH.
    destruct (walk (dirents d) root ((ps1 ++ [n1]) ++ rest)) as [y|] eqn:E; simpl; [|done].
    rewrite dirents_rename_entry, lookup_insert_ne, lookup_delete_ne; [done| |].
    + intros [= <- <-]. apply rename_p1_unique in E. rewrite <- E, <- app_assoc in *.
      apply (f_equal length) in E. rewrite !length_app in E. simpl in E. lia.
    + intros [= <- <-]. apply rename_p2_unique in E. apply Hnot. rewrite <- E.
      exists (rest ++ [n2]). by rewrite <- !app_assoc.
Qed.

Lemma walk_rename_src rest :
  walk (dirents (rename_entry (p1, n1) (p2, n2) d)) root ((ps1 ++ [n1]) ++ rest) = None.
Proof.
  rewrite walk_app, walk_snoc, rename_frame, Hps1.
  - simpl. rewrite dirents_rename_entry, lookup_insert_ne by congruence. by rewrite lookup_delete_eq.
  - apply snoc_not_prefix.
  - intros [ds Hds]. rewrite Hds in Hps1. by rewrite rename_free_path in Hps1.
Qed.

Lemma walk_rename_other cs :
  ¬ (ps1 ++ [n1]) `prefix_of` cs → ¬ (ps2 ++ [n2]) `prefix_of` cs →
  walk (dirents (rename_entry (p1, n1) (p2, n2) d)) root cs = walk (dirents d) root cs.
Proof. apply rename_frame. Qed.
End walks.
End rename_entry.

(** ** Changes that leave the shape of the tree alone *)

(** What [wf_db] reads of an inode row. *)
Definition inode_shape (r : InodeRow) : InodeKind * string * Z := (i_kind r, i_sandboxId r, i_nlink r).

Definition same_shape (d d' : db) : Prop :=
  dirents d' = dirents d ∧ next_id d' = next_id d ∧
  (∀ id, inode_shape <$> inodes d' !! id = inode_shape <$> inodes d !! id) ∧
  (∀ sb, s_root <$> sandboxes d' !! sb = s_root <$> sandboxes d !! sb).

#[export] Instance same_shape_equiv : Equivalence same_shape.
Proof.
  split.
  - done.
  - intros d1 d2 (? & ? & H3 & H4). split_and!; try done.
  - intros d1 d2 d3 (? & ? & H3 & H4) (? & ? & H3' & H4'). split_and!; congruence.
Qed.

Lemma same_shape_root_of d d' sb : same_shape d d' → root_of d' sb = root_of d sb.
Proof.
  intros (_ & _ & _ & Hs). specialize (Hs sb). unfold root_of.
  destruct (sandboxes d' !! sb), (sandboxes d !! sb); simpl in *; congruence.
Qed.

Lemma same_shape_inode d d' id r' : same_shape d d' → inodes d' !! id = Some r' →
  ∃ r, inodes d !! id = Some r ∧ inode_shape r' = inode_shape r.
Proof.
  intros (_ & _ & Hi & _) Hr. specialize (Hi id). rewrite Hr in Hi.
  destruct (inodes d !! id) as [r|]; simpl in Hi; [|done]. exists r. split; congruence.
Qed.

Lemma wf_same_shape d d' : same_shape d d' → wf_db d → wf_db d'.
Proof.
  intros Hs Hwf. pose proof (symmetry Hs) as Hs'.
  assert (Hd : dirents d' = dirents d) by apply Hs. assert (Hn : next_id d' = next_id d) by apply Hs.
  assert (Hroot : ∀ sb s root, sandboxes d' !! sb = Some s → s_root s = Some root →
                  ∃ s0, sandboxes d !! sb = Some s0 ∧ s_root s0 = Some root).
  { intros sb s root H1 H2. apply root_of_Some. rewrite <- (same_shape_root_of d d') by done.
    apply root_of_Some. by exists s. }
  split; rewrite ?Hd, ?Hn.
  - intros p n de Hk. destruct (wf_parent d Hwf _ _ _ Hk) as (r & Hr & Hk1 & Hk2).
    destruct (same_shape_inode _ _ _ _ Hs' Hr) as (r' & Hr' & [= ? ? ?]). exists r'. split_and!; congruence.
  - intros k de Hk. destruct (wf_child d Hwf _ _ Hk) as (r & Hr & Hk1).
    destruct (same_shape_inode _ _ _ _ Hs' Hr) as (r' & Hr' & [= ? ? ?]). exists r'. split; congruence.
  - apply (wf_name d Hwf).
  - intros k1 k2 de1 de2 r H1 H2 Heq Hr Hk.
    destruct (same_shape_inode _ _ _ _ Hs Hr) as (r' & Hr' & [= ? ? ?]).
    eapply (wf_dir d Hwf); [done | done | done | done | congruence].
  - intros sb s root H1 H2. destruct (Hroot _ _ _ H1 H2) as (s0 & H1' & H2').
    destruct (wf_root d Hwf _ _ _ H1' H2') as (r & Hr & ? & ?).
    destruct (same_shape_inode _ _ _ _ Hs' Hr) as (r' & Hr' & [= ? ? ?]). exists r'. split_and!; congruence.
  - intros sb s root k de H1 H2 Hk. destruct (Hroot _ _ _ H1 H2) as (s0 & H1' & H2'). by eapply (wf_top d Hwf).
  - intros id r' Hr'. destruct (same_shape_inode _ _ _ _ Hs Hr') as (r & Hr & [= ? Hsb ?]).
    pose proof (wf_nlink d Hwf _ _ Hr) as Hl. unfold root_link in *. rewrite Hsb.
    fold (root_of d' (i_sandboxId r)) (root_of d (i_sandboxId r)) in *.
    rewrite (same_shape_root_of d d') by done. congruence.
  - intros id [r' Hr']. destruct (same_shape_inode _ _ _ _ Hs Hr') as (r & Hr & _).
    apply (wf_fresh d Hwf). by exists r.
  - apply (wf_next d Hwf).
Qed.

Lemma same_shape_version d sb s v :
  sandboxes d !! sb = Some s → same_shape d (set_sandboxes (<[sb := set_version v s]>) d).
Proof.
  intros Hs. split_and!; try done. intros sb'. simpl. rewrite lookup_insert.
  case_decide; [subst; by rewrite Hs | done].
Qed.

Lemma same_shape_inode_update d id r r' :
  inodes d !! id = Some r → inode_shape r' = inode_shape r →
  same_shape d (set_inodes (<[id := r']>) d).
Proof.
  intros Hr Hsh. split_and!; try done. intros id'. simpl. rewrite lookup_insert.
  case_decide; [subst; rewrite Hr; simpl; by rewrite Hsh | done].
Qed.

Lemma same_shape_blobs d f : same_shape d (set_blobs f d).
Proof. done. Qed.

Section add_link.
Context (d : db) (p : Z) (n : string) (id : Z) (r pr : InodeRow).
Context (Hwf : wf_db d) (Hp : inodes d !! p = Some pr) (Hpk : i_kind pr = DIRECTORY).
Context (Hr : inodes d !! id = Some r) (Hrk : i_kind r ≠ DIRECTORY).
Context (Hsb : i_sandboxId r = i_sandboxId pr) (Hn : valid_name n).
Context (Hfree : dirents d !! (p, n) = None).

Local Lemma add_link_inode x :
  inodes (add_link p n id r d) !! x
  = if decide (id = x) then Some (set_nlink (i_nlink r + 1) r) else inodes d !! x.
Proof. simpl. by rewrite lookup_insert. Qed.

Local Lemma add_link_keeps x y : inodes d !! x = Some y →
  ∃ y', inodes (add_link p n id r d) !! x = Some y' ∧ i_kind y' = i_kind y ∧ i_sandboxId y' = i_sandboxId y.
Proof.
  intros Hx. rewrite add_link_inode. case_decide as Hc; [|by exists y].
  subst x. eexists. split; [done|]. simpl. split; congruence.
Qed.

Local Lemma add_link_back k de :
  dirents (add_link p n id r d) !! k = Some de →
  (k = (p, n) ∧ de = mkDirent id (i_sandboxId r)) ∨ (k ≠ (p, n) ∧ dirents d !! k = Some de).
Proof. simpl. rewrite lookup_insert. case_decide; [intros [= <-]; by left | right; split; congruence]. Qed.

Lemma wf_add_link : wf_db (add_link p n id r d).
Proof.
  split.
  - intros p' n' de [[[= -> ->] ->]|(_ & Hk)]%add_link_back.
    + destruct (add_link_keeps _ _ Hp) as (y & Hy & ? & ?). exists y. simpl in *. split_and!; congruence.
    + destruct (wf_parent d Hwf _ _ _ Hk) as (x & Hx & ? & ?).
      destruct (add_link_keeps _ _ Hx) as (y & Hy & ? & ?). exists y. split_and!; congruence.
  - intros k de [[-> ->]|(_ & Hk)]%add_link_back.
    + destruct (add_link_keeps _ _ Hr) as (y & Hy & ? & ?). exists y. split; done.
    + destruct (wf_child d Hwf _ _ Hk) as (x & Hx & ?).
      destruct (add_link_keeps _ _ Hx) as (y & Hy & ? & ?). exists y. split; congruence.
  - intros p' n' de [[[= -> ->] ->]|(_ & Hk)]%add_link_back; [done | by eapply (wf_name d Hwf)].
  - intros k1 k2 de1 de2 y H1 H2 Heq Hy Hky. rewrite add_link_inode in Hy.
    case_decide as Hc; [injection Hy as <-; by simpl in Hky|].
    apply add_link_back in H1 as [[-> ->]|(_ & H1)]; [done|].
    apply add_link_back in H2 as [[-> ->]|(_ & H2)]; [by rewrite Heq in Hc|].
    by eapply (wf_dir d Hwf).
  - intros sb s root H1 H2. destruct (wf_root d Hwf _ _ _ H1 H2) as (x & Hx & ? & ?).
    destruct (add_link_keeps _ _ Hx) as (y & Hy & ? & ?). exists y. split_and!; congruence.
  - intros sb s root k de H1 H2 [[-> ->]|(_ & Hk)]%add_link_back; [|by eapply (wf_top d Hwf)].
    simpl. intros ->. destruct (wf_root d Hwf _ _ _ H1 H2) as (x & Hx & ? & ?). congruence.
  - intros x y. rewrite add_link_inode. simpl. rewrite links_insert by done. simpl.
    case_decide as Hc.
    + intros [= <-]. subst x. simpl. pose proof (wf_nlink d Hwf _ _ Hr) as Hl.
      unfold root_link in *. simpl. lia.
    + intros Hy. pose proof (wf_nlink d Hwf _ _ Hy) as Hl. unfold root_link in *. simpl. lia.
  - intros x [y Hy]. rewrite add_link_inode in Hy. simpl. apply (wf_fresh d Hwf).
    case_decide; [subst; by exists r | by exists y].
  - apply (wf_next d Hwf).
Qed.

Lemma walk_add_link sb root ps cs :
  root_of d sb = Some root → walk (dirents d) root ps = Some p →
  walk (dirents (add_link p n id r d)) root cs =
  if decide (cs = ps ++ [n]) then Some id else walk (dirents d) root cs.
Proof.
  intros Hroot Hps. simpl. set (D' := <[(p, n) := _]> (dirents d)).
  assert (Hfr : ∀ cs, ¬ (ps ++ [n]) `prefix_of` cs → walk D' root cs = walk (dirents d) root cs).
  { apply walk_frame. intros cs' p' n' Hw Hne. unfold D' in Hne.
    destruct (decide ((p, n) = (p', n'))) as [[= <- <-]|Hk].
    - rewrite (walk_dir_unique d Hwf sb root cs' ps p pr); done.
    - by rewrite lookup_insert_ne in Hne. }
  assert (Hat : walk D' root (ps ++ [n]) = Some id).
  { rewrite walk_snoc, Hfr by apply snoc_not_prefix. rewrite Hps. simpl. unfold D'. by rewrite lookup_insert_eq. }
  case_decide as Hcs; [by subst|].
  destruct (decide ((ps ++ [n]) `prefix_of` cs)) as [[ds ->]|Hpre]; [|by apply Hfr].
  destruct ds as [|m ds]; [by rewrite app_nil_r in Hcs|].
  rewrite (walk_app D' _ (ps ++ [n])), Hat. rewrite (walk_app _ _ (ps ++ [n])), walk_snoc, Hps.
  simpl. rewrite Hfree. simpl. unfold D'.
  assert (p ≠ id) by congruence. rewrite lookup_insert_ne by congruence.
  rewrite (wf_leaf d Hwf id r m); done.
Qed.
End add_link.
