(* ===== verification/Dialect.v ===== *)
(** What the Postgres dialect's statements do to the tree.

    Inside a transaction that has taken the sandbox context at the expected
    epoch ([in_tx]), every fenced statement passes its fence, and each write is
    one of the elementary changes of [Tree] on top of a bump of the version. The
    composite statements and the statement-by-statement fallbacks the namespace
    operations choose between are proved equal. *)

From S2P Require Import Prelude Errors Paths Store Tree.

(** The transaction holds the context of [sb] and has itself moved the version
    from [e] to where it is. *)
Definition in_tx (t : tx) (sb : string) (e : Z) : Prop :=
  t_sandbox t = Some sb ∧
  ∃ s, sandboxes (t_db t) !! sb = Some s ∧ t_epoch t = Some (s_version s) ∧ e ≤ s_version s.

(** What a passed fence does to the transaction. *)
Definition bump (sb : string) (t : tx) : tx :=
  match sandboxes (t_db t) !! sb with
  | Some s => mkTx (set_sandboxes (<[sb := set_version (s_version s + 1) s]>) (t_db t))
                   (Some sb) (Some (s_version s + 1))
  | None => t
  end.

(** The fence as the source's comments promise it: a statement is accepted
    exactly when the row is at the expected epoch, or the transaction itself
    moved it there. *)
Lemma fence_pass_iff app v e :
  fence_pass app v (Some e) = true ↔ v = e ∨ (e < v ∧ app = Some v).
Proof.
  unfold fence_pass. rewrite orb_true_iff, andb_true_iff, !bool_decide_eq_true. done.
Qed.

Lemma visible_self t sb : t_sandbox t = Some sb → visible t sb = true.
Proof. intros H. unfold visible. rewrite H. rewrite bool_decide_eq_true_2 with (P := sb = sb) by done. by rewrite orb_true_r. Qed.

Lemma in_tx_visible t sb e : in_tx t sb e → visible t sb = true.
Proof. intros [H _]. by apply visible_self. Qed.

Lemma in_tx_sel_sandbox t sb e :
  in_tx t sb e → ∃ s, sel_sandbox t sb = Some s ∧ sandboxes (t_db t) !! sb = Some s ∧
                      t_epoch t = Some (s_version s) ∧ e ≤ s_version s.
Proof.
  intros [Hc (s & Hs & ?)]. exists s. unfold sel_sandbox. rewrite Hs, visible_self by done. done.
Qed.

Lemma fence_in_tx t sb e c :
  in_tx t sb e → fenceCtes sb (Some e) c t = (Ok true, bump sb t).
Proof.
  intros Hin. pose proof (proj1 Hin) as Hc.
  destruct (in_tx_sel_sandbox t sb e Hin) as (s & Hsel & Hs & Hep & Hle).
  unfold fenceCtes, bump. rewrite Hsel, Hs, Hep. rewrite (proj2 (fence_pass_iff _ _ _)).
  - rewrite Hc. by destruct c.
  - destruct (decide (s_version s = e)); [by left | right; split; [lia | done]].
Qed.

Lemma bump_in_tx t sb e : in_tx t sb e → in_tx (bump sb t) sb e.
Proof.
  intros [Hc (s & Hs & Hep & Hle)]. unfold bump. rewrite Hs. split; [done|]. simpl.
  exists (set_version (s_version s + 1) s). rewrite lookup_insert_eq. simpl. split_and!; [done|done|lia].
Qed.

Lemma bump_shape sb t : same_shape (t_db t) (t_db (bump sb t)).
Proof.
  unfold bump. destruct (sandboxes (t_db t) !! sb) as [s|] eqn:E; [|done]. by apply same_shape_version.
Qed.

Lemma bump_inodes sb t : inodes (t_db (bump sb t)) = inodes (t_db t).
Proof. unfold bump. by destruct (sandboxes (t_db t) !! sb). Qed.

Lemma bump_dirents sb t : dirents (t_db (bump sb t)) = dirents (t_db t).
Proof. unfold bump. by destruct (sandboxes (t_db t) !! sb). Qed.

Lemma bump_next_id sb t : next_id (t_db (bump sb t)) = next_id (t_db t).
Proof. unfold bump. by destruct (sandboxes (t_db t) !! sb). Qed.

Lemma bump_blobs sb t : blobs (t_db (bump sb t)) = blobs (t_db t).
Proof. unfold bump. by destruct (sandboxes (t_db t) !! sb). Qed.

Lemma bump_clock sb t : clock (t_db (bump sb t)) = clock (t_db t).
Proof. unfold bump. by destruct (sandboxes (t_db t) !! sb). Qed.

#[export] Hint Rewrite bump_inodes bump_dirents bump_next_id bump_blobs bump_clock : bump.

(** A change that keeps the sandboxes table keeps [in_tx]. *)
Lemma in_tx_on_db t sb e f :
  in_tx t sb e → sandboxes (f (t_db t)) = sandboxes (t_db t) → in_tx (on_db f t) sb e.
Proof. intros [Hc Hs] Hf. split; [done|]. simpl. by rewrite Hf. Qed.

Lemma in_tx_sel_inode t sb e id r :
  in_tx t sb e → inodes (t_db t) !! id = Some r → i_sandboxId r = sb → sel_inode t id = Some r.
Proof. intros Hin Hr Hsb. unfold sel_inode. rewrite Hr, Hsb. by rewrite (in_tx_visible t sb e). Qed.

Lemma in_tx_sel_dirent t sb e k de :
  in_tx t sb e → dirents (t_db t) !! k = Some de → d_sandboxId de = sb → sel_dirent t k = Some de.
Proof. intros Hin Hr Hsb. unfold sel_dirent. rewrite Hr, Hsb. by rewrite (in_tx_visible t sb e). Qed.

Lemma sel_dirent_None t k : dirents (t_db t) !! k = None → sel_dirent t k = None.
Proof. intros H. unfold sel_dirent. by rewrite H. Qed.

(** ** Removing a row nothing refers to cascades to nothing *)

Definition unreferenced (d : db) (id : Z) : Prop :=
  childless d id ∧ ∀ k de, dirents d !! k = Some de → d_inodeId de ≠ id.

Lemma delete_cascade_unreferenced id d :
  unreferenced d id → delete_cascade id d = set_inodes (delete id) d.
Proof.
  intros [Hc Hr]. unfold delete_cascade. unfold set_dirents. simpl.
  rewrite map_filter_id; [done|]. intros [p n] de Hk. simpl. split; [|by eapply Hr].
  intros ->. by rewrite Hc in Hk.
Qed.

Lemma drop_link_row t sb e id r :
  in_tx t sb e → inodes (t_db t) !! id = Some r → i_sandboxId r = sb →
  (i_nlink r ≤ 1 → unreferenced (t_db t) id) →
  drop_link id t = on_db (drop_row id) t.
Proof.
  intros Hin Hr Hsb Hu. unfold drop_link, drop_row, on_db.
  rewrite (in_tx_sel_inode t sb e id r), Hr by done.
  case_decide; [|done]. by rewrite delete_cascade_unreferenced by auto.
Qed.

(** After its entry is gone, an inode with one link is referenced by nothing. *)
Lemma unlinked_unreferenced d p n de r :
  wf_db d → dirents d !! (p, n) = Some de → childless d (d_inodeId de) →
  inodes d !! d_inodeId de = Some r → i_nlink r ≤ 1 →
  unreferenced (set_dirents (delete (p, n)) d) (d_inodeId de).
Proof.
  intros Hwf Hk Hc Hr Hl. split.
  - intros m. simpl. apply lookup_delete_None. right. apply Hc.
  - intros k' de'. simpl. intros [Hne Hk']%lookup_delete_Some Heq. apply Hne.
    eapply (links_one (dirents d) (p, n) k' de de'); try done.
    pose proof (wf_nlink d Hwf _ _ Hr) as Hn. pose proof (links_pos _ _ _ Hk).
    unfold root_link in Hn. case_decide; lia.
Qed.

(** [const n = await dialect.decrementNlink(tx, id); if (n === 0) await
    dialect.deleteInode(tx, id);], the tail of every unlinking replay. *)
Definition unlink_row (id : Z) : txM unit :=
  let* newNlink := decrementNlink id in
  if decide (newNlink = 0) then deleteInode id else retM tt.

(** The entry (p, n) redirected to the fresh row [r]. *)
Definition redirect (p : Z) (n : string) (r : InodeRow) (d : db) : db :=
  mkDb (sandboxes d) (<[next_id d := r]> (inodes d))
       (<[(p, n) := mkDirent (next_id d) (i_sandboxId r)]> (dirents d))
       (blobs d) (sandbox_epochs d) (next_id d + 1) (clock d).

(** Overwriting a file is removing its entry and adding a node. *)
Definition replace_node (p : Z) (n : string) (r : InodeRow) (d : db) : db :=
  add_node p n r (remove_entry (p, n) d).

Lemma redirect_drop d p n r de :
  wf_db d → dirents d !! (p, n) = Some de →
  drop_row (d_inodeId de) (redirect p n r d) = replace_node p n r d.
Proof.
  intros Hwf Hk. destruct (wf_child d Hwf _ _ Hk) as (ro & Hro & _).
  assert (Hne : d_inodeId de ≠ next_id d).
  { intros Heq. rewrite Heq, wf_fresh_inode in Hro; [done | done | lia]. }
  unfold replace_node, remove_entry. rewrite Hk. unfold drop_row, redirect, add_node. simpl.
  rewrite lookup_insert_ne, Hro by done. case_decide; simpl.
  - rewrite insert_delete_eq. unfold set_inodes. simpl. by rewrite delete_insert_ne by done.
  - rewrite insert_delete_eq. unfold set_inodes. simpl. by rewrite insert_insert_ne by done.
Qed.

Lemma redirect_unreferenced d p n r de ro :
  wf_db d → dirents d !! (p, n) = Some de → childless d (d_inodeId de) →
  inodes d !! d_inodeId de = Some ro → i_nlink ro ≤ 1 →
  unreferenced (redirect p n r d) (d_inodeId de).
Proof.
  intros Hwf Hk Hc Hro Hl. destruct (unlinked_unreferenced d p n de ro) as [Hc' Hr']; try done.
  split.
  - intros m. simpl. rewrite lookup_insert_ne; [apply Hc|]. intros [= -> ->]. by rewrite Hc in Hk.
  - intros k' de'. simpl. rewrite lookup_insert. case_decide as Hd.
    + intros [= <-]. simpl. intros Heq. rewrite <- Heq, wf_fresh_inode in Hro; [done | done | lia].
    + intros Hk'. apply (Hr' k'). simpl. by rewrite lookup_delete_ne.
Qed.

(** A fresh row and its entry under a parent that exists. *)
Lemma insert_fresh_ok sb p n r (t : tx) :
  is_Some (inodes (t_db t) !! p) → dirents (t_db t) !! (p, n) = None → i_sandboxId r = sb →
  (let* id := insert_inode r in
   insert_dirent_row p n (mkDirent id sb) ;;; retM id) t
  = (Ok (next_id (t_db t)), on_db (add_node p n r) t).
Proof.
  intros [pr Hp] Hfree Hr. unfold bindM, insert_inode, insert_dirent_row. simpl.
  rewrite decide_False by (rewrite Hfree; by intros []).
  rewrite decide_True.
  - unfold on_db, add_node. simpl. by rewrite Hr.
  - rewrite lookup_insert_eq. split; [|done].
    rewrite lookup_insert. case_decide; [done | by rewrite Hp].
Qed.

(** ** Each write, as an elementary change *)

Section writes.
Context (t : tx) (sb : string) (e : Z).
Context (Hin : in_tx t sb e) (Hwf : wf_db (t_db t)).

(** A directory of the sandbox. *)
Definition is_dir (d : db) (sb' : string) (p : Z) : Prop :=
  ∃ r, inodes d !! p = Some r ∧ i_kind r = DIRECTORY ∧ i_sandboxId r = sb'.

Lemma mkdirComposite_spec p n mode :
  is_dir (t_db t) sb p → dirents (t_db t) !! (p, n) = None →
  mkdirComposite sb p n mode (Some e) t
  = (Ok (next_id (t_db t)),
     on_db (add_node p n (new_inode sb DIRECTORY mode 0 (clock (t_db t)) None None)) (bump sb t)).
Proof.
  intros Hd Hfree. unfold mkdirComposite. mrun (fence_in_tx t sb e true Hin).
  pose proof (bump_in_tx t sb e Hin) as Hb.
  destruct Hd as (pr & Hp & _). rewrite insert_fresh_ok; autorewrite with bump; done.
Qed.

(** The row [createInode] leaves for a parent that already exists. *)
Lemma createInode_spec opts :
  co_sandboxId opts = sb →
  createInode opts (Some e) t =
  insert_inode (new_inode sb (co_kind opts) (co_mode opts) (co_size opts) (clock (t_db t))
                          (co_contentSha256 opts) (co_symlinkTarget opts)) (bump sb t).
Proof.
  intros Hs. unfold createInode. rewrite Hs. mrun (fence_in_tx t sb e false Hin).
  by autorewrite with bump.
Qed.

Lemma createInode_insertDirent_spec p n k mode size sha target :
  is_dir (t_db t) sb p → dirents (t_db t) !! (p, n) = None →
  (let* id := createInode (mkCreate sb k mode size sha target) (Some e) in
   insertDirent p n id ;;; retM id) t
  = (Ok (next_id (t_db t)),
     on_db (add_node p n (new_inode sb k mode size (clock (t_db t)) sha target)) (bump sb t)).
Proof.
  intros Hd Hfree. pose proof Hd as (pr & Hp & Hpk & Hps).
  rewrite <- (bump_next_id sb t) at 1. rewrite <- insert_fresh_ok with (sb := sb) (n := n) (p := p) (t := bump sb t) (r := new_inode sb k mode size (clock (t_db t)) sha target).
  2: by rewrite bump_inodes, Hp. 2: by autorewrite with bump. 2: done.
  unfold bindM at 1 3. rewrite createInode_spec by done. unfold insert_inode. simpl.
  unfold insertDirent. mnorm. erewrite in_tx_sel_inode.
  - rewrite Hps. reflexivity.
  - apply (in_tx_on_db _ sb e); [by apply bump_in_tx | done].
  - simpl. autorewrite with bump. rewrite lookup_insert_ne; [done|].
    intros <-. rewrite wf_fresh_inode in Hp; [done | done | lia].
  - done.
Qed.

Lemma wf_bump : wf_db (t_db (bump sb t)).
Proof. eapply wf_same_shape, Hwf; apply bump_shape. Qed.

Lemma unlink_row_spec (t' : tx) id r :
  in_tx t' sb e → inodes (t_db t') !! id = Some r → i_sandboxId r = sb → 1 ≤ i_nlink r →
  (i_nlink r = 1 → unreferenced (t_db t') id) →
  unlink_row id t' = (Ok tt, on_db (drop_row id) t').
Proof.
  intros Hin' Hr Hs Hl Hu. unfold unlink_row, decrementNlink. mnorm.
  rewrite (in_tx_sel_inode t' sb e id r) by done. mnorm. unfold on_db at 2, drop_row. rewrite Hr.
  case_decide as Hz.
  - rewrite decide_True by lia. unfold deleteInode. mnorm.
    erewrite in_tx_sel_inode; [| by apply (in_tx_on_db _ sb e) | simpl; by rewrite lookup_insert_eq | done].
    unfold modifyS, on_db. simpl. rewrite delete_cascade_unreferenced.
    + unfold set_inodes. simpl. by rewrite delete_insert_eq.
    + apply Hu. lia.
  - rewrite decide_False by lia. done.
Qed.

(** The links of an inode an entry points at. *)
Lemma entry_nlink d k de r :
  wf_db d → dirents d !! k = Some de → inodes d !! d_inodeId de = Some r → 1 ≤ i_nlink r.
Proof.
  intros Hw Hk Hr. rewrite (wf_nlink d Hw _ _ Hr). pose proof (links_pos _ _ _ Hk).
  unfold root_link. case_decide; lia.
Qed.

Lemma rmComposite_spec p n de :
  dirents (t_db t) !! (p, n) = Some de → d_sandboxId de = sb → childless (t_db t) (d_inodeId de) →
  rmComposite sb p n (Some e) t = (Ok (d_inodeId de), on_db (remove_entry (p, n)) (bump sb t)).
Proof.
  intros Hk Hs Hc. unfold rmComposite. mrun (fence_in_tx t sb e true Hin).
  pose proof (bump_in_tx t sb e Hin) as Hb. destruct (wf_child _ Hwf _ _ Hk) as (r & Hr & Hrs).
  rewrite (in_tx_sel_dirent _ sb e _ de) by (done || by rewrite bump_dirents). mnorm.
  rewrite (drop_link_row _ sb e _ r).
  - unfold retM, on_db. simpl. unfold remove_entry. by rewrite bump_dirents, Hk.
  - by apply in_tx_on_db.
  - simpl. by rewrite bump_inodes.
  - congruence.
  - intros Hl. eapply unlinked_unreferenced with (r := r); autorewrite with bump; try done.
    + apply wf_bump.
    + intros m. rewrite bump_dirents. apply Hc.
Qed.

Lemma deleteDirent_spec p n de :
  dirents (t_db t) !! (p, n) = Some de → d_sandboxId de = sb →
  deleteDirent p n sb (Some e) t
  = (Ok (d_inodeId de), on_db (set_dirents (delete (p, n))) (bump sb t)).
Proof.
  intros Hk Hs. unfold deleteDirent. mrun (fence_in_tx t sb e false Hin).
  by rewrite (in_tx_sel_dirent _ sb e _ de) by (by apply bump_in_tx || by rewrite ?bump_dirents).
Qed.

Lemma rm_fallback_spec p n de :
  dirents (t_db t) !! (p, n) = Some de → d_sandboxId de = sb → childless (t_db t) (d_inodeId de) →
  (let* removed := deleteDirent p n sb (Some e) in unlink_row removed) t
  = (Ok tt, on_db (remove_entry (p, n)) (bump sb t)).
Proof.
  intros Hk Hs Hc. mrun (deleteDirent_spec p n de Hk Hs).
  pose proof (bump_in_tx t sb e Hin) as Hb. destruct (wf_child _ Hwf _ _ Hk) as (r & Hr & Hrs).
  rewrite (unlink_row_spec _ _ r).
  - unfold on_db. simpl. unfold remove_entry. by rewrite bump_dirents, Hk.
  - by apply in_tx_on_db.
  - simpl. by rewrite bump_inodes.
  - congruence.
  - by eapply entry_nlink.
  - intros Hl. eapply unlinked_unreferenced with (r := r); autorewrite with bump; try done.
    + apply wf_bump.
    + intros m. rewrite bump_dirents. apply Hc.
    + lia.
Qed.

(** An entry that may be overwritten: absent, or one that holds no children. *)
Definition replaceable (d : db) (sb' : string) (p : Z) (n : string) : Prop :=
  ∀ de, dirents d !! (p, n) = Some de → d_sandboxId de = sb' ∧ childless d (d_inodeId de).

(** The insert and the upsert of an overwrite, up to the old inode. *)
Lemma insert_upsert_ok p n r (t' : tx) :
  in_tx t' sb e → wf_db (t_db t') → is_dir (t_db t') sb p → replaceable (t_db t') sb p n →
  i_sandboxId r = sb →
  (let* id := insert_inode r in
   upsert_dirent_row p n (mkDirent id sb) ;;; retM id) t'
  = (Ok (next_id (t_db t')), on_db (redirect p n r) t').
Proof.
  intros Hin' Hwf' (pr & Hp & _ & Hps) Hrep Hr. unfold bindM, insert_inode, upsert_dirent_row. simpl.
  rewrite decide_True.
  - destruct (dirents (t_db t') !! (p, n)) as [de|] eqn:E.
    + destruct (Hrep de E) as [Hs _]. rewrite Hs.
      change (visible (on_db _ t') sb) with (visible t' sb). rewrite (in_tx_visible t' sb e) by done.
      unfold on_db, redirect. simpl. by rewrite Hr.
    + unfold on_db, redirect. simpl. by rewrite Hr.
  - rewrite lookup_insert_eq. split; [|done]. rewrite lookup_insert. case_decide; [done | by rewrite Hp].
Qed.

Lemma redirect_inode d p n r id ro :
  wf_db d → inodes d !! id = Some ro → inodes (redirect p n r d) !! id = Some ro.
Proof.
  intros Hw Hro. simpl. rewrite lookup_insert_ne; [done|]. intros <-.
  rewrite wf_fresh_inode in Hro; [done | done | lia].
Qed.

Lemma writeFileComposite_spec p n mode size sha :
  is_dir (t_db t) sb p → replaceable (t_db t) sb p n →
  writeFileComposite sb p n mode size sha (Some e) t
  = (Ok (next_id (t_db t)),
     on_db (replace_node p n (new_inode sb FILE mode size (clock (t_db t)) (Some sha) None)) (bump sb t)).
Proof.
  intros Hd Hrep. unfold writeFileComposite. mrun (fence_in_tx t sb e true Hin).
  pose proof (bump_in_tx t sb e Hin) as Hb. autorewrite with bump.
  set (r := new_inode _ _ _ _ _ _ _).
  assert (Hiu := insert_upsert_ok p n r (bump sb t) Hb wf_bump).
  unfold is_dir, replaceable, childless in Hiu. autorewrite with bump in Hiu.
  specialize (Hiu Hd Hrep eq_refl).
  unfold bindM at 1. unfold bindM at 1 in Hiu. destruct (insert_inode r (bump sb t)) as [[id|] t1]; [|done].
  unfold bindM at 1 in Hiu. unfold bindM at 1.
  destruct (upsert_dirent_row p n (mkDirent id sb) t1) as [[[]|] t2]; [|done].
  unfold retM in Hiu. injection Hiu as -> ->.
  destruct (dirents (t_db t) !! (p, n)) as [de|] eqn:E.
  - rewrite (in_tx_sel_dirent _ sb e _ de); [| done | by rewrite bump_dirents | by apply Hrep]. mnorm.
    destruct (wf_child _ Hwf _ _ E) as (ro & Hro & Hros). destruct (Hrep de E) as [Hs Hc].
    rewrite (drop_link_row _ sb e _ ro).
    + unfold retM, on_db. simpl. rewrite redirect_drop by (apply wf_bump || by rewrite bump_dirents). done.
    + by apply in_tx_on_db.
    + simpl t_db. apply redirect_inode; [apply wf_bump | by rewrite bump_inodes].
    + congruence.
    + intros Hl. eapply redirect_unreferenced with (ro := ro); autorewrite with bump; try done.
      * apply wf_bump.
      * intros m. rewrite bump_dirents. apply Hc.
  - rewrite sel_dirent_None by by rewrite bump_dirents. mnorm. unfold retM, on_db, replace_node, remove_entry.
    by rewrite bump_dirents, E.
Qed.

Lemma replace_fallback_spec p n opts :
  co_sandboxId opts = sb → is_dir (t_db t) sb p → replaceable (t_db t) sb p n →
  (let* id := createInode opts (Some e) in
   let* old := upsertDirent p n id in
   match old with Some o => unlink_row o | None => retM tt end ;;;
   retM id) t
  = (Ok (next_id (t_db t)),
     on_db (replace_node p n (new_inode sb (co_kind opts) (co_mode opts) (co_size opts) (clock (t_db t))
                                        (co_contentSha256 opts) (co_symlinkTarget opts))) (bump sb t)).
Proof.
  intros Hos Hd Hrep. unfold bindM at 1. rewrite createInode_spec by done.
  set (r := new_inode _ _ _ _ _ _ _). pose proof (bump_in_tx t sb e Hin) as Hb.
  assert (Hiu := insert_upsert_ok p n r (bump sb t) Hb wf_bump).
  unfold is_dir, replaceable, childless in Hiu. autorewrite with bump in Hiu.
  specialize (Hiu Hd Hrep eq_refl). unfold bindM at 1 in Hiu.
  destruct (insert_inode r (bump sb t)) as [[id|] t1] eqn:Ei; [|done].
  assert (Ht1 : in_tx t1 sb e ∧ dirents (t_db t1) = dirents (t_db t) ∧
                ∀ x y, inodes (t_db t) !! x = Some y → inodes (t_db t1) !! x = Some y).
  { unfold insert_inode in Ei. injection Ei as _ <-. split; [by apply in_tx_on_db|]. simpl.
    autorewrite with bump. split; [done|]. intros x y Hx. rewrite lookup_insert_ne; [done|].
    intros <-. rewrite wf_fresh_inode in Hx; [done | done | lia]. }
  destruct Ht1 as (Hin1 & Hde1 & Hi1). destruct Hd as (pr & Hp & _ & Hps).
  unfold upsertDirent. mnorm. rewrite (in_tx_sel_inode t1 sb e p pr) by auto. mnorm. rewrite Hps.
  unfold bindM at 1 in Hiu. unfold bindM at 1.
  destruct (upsert_dirent_row p n (mkDirent id sb) t1) as [[[]|] t2]; [|done].
  unfold retM in Hiu. injection Hiu as -> ->. mnorm.
  destruct (dirents (t_db t) !! (p, n)) as [de|] eqn:E.
  - destruct (wf_child _ Hwf _ _ E) as (ro & Hro & Hros). destruct (Hrep de E) as [Hs Hc].
    rewrite (in_tx_sel_dirent t1 sb e _ de) by (congruence || done). simpl.
    erewrite bindM_Ok; [|apply (unlink_row_spec _ _ ro)].
    + unfold retM, on_db. simpl. rewrite redirect_drop by (apply wf_bump || by rewrite bump_dirents). done.
    + by apply in_tx_on_db.
    + simpl t_db. apply redirect_inode; [apply wf_bump | by rewrite bump_inodes].
    + congruence.
    + by eapply entry_nlink.
    + intros Hl. eapply redirect_unreferenced with (ro := ro); autorewrite with bump; try done.
      * apply wf_bump.
      * intros m. rewrite bump_dirents. apply Hc.
      * lia.
  - rewrite sel_dirent_None by by rewrite Hde1. simpl. mnorm. unfold retM, on_db, replace_node, remove_entry.
    by rewrite bump_dirents, E.
Qed.

Lemma updateInode_spec id r u :
  no_patch u = false → inodes (t_db t) !! id = Some r → i_sandboxId r = sb →
  updateInode id u sb (Some e) t
  = (Ok tt, on_db (set_inodes (<[id := patch_inode u r]>)) (bump sb t)).
Proof.
  intros Hu Hr Hs. unfold updateInode. rewrite Hu. mrun (fence_in_tx t sb e false Hin).
  by rewrite (in_tx_sel_inode _ sb e id r) by (by apply bump_in_tx || by rewrite ?bump_inodes).
Qed.

Lemma link_spec p n id r :
  is_dir (t_db t) sb p → inodes (t_db t) !! id = Some r → i_sandboxId r = sb → i_kind r ≠ DIRECTORY →
  dirents (t_db t) !! (p, n) = None →
  (incrementNlink id sb (Some e) ;;; insertDirent p n id) t
  = (Ok tt, on_db (add_link p n id r) (bump sb t)).
Proof.
  intros (pr & Hp & Hpk & Hps) Hr Hrs Hk Hfree. unfold incrementNlink. mrun (fence_in_tx t sb e false Hin).
  pose proof (bump_in_tx t sb e Hin) as Hb.
  rewrite (in_tx_sel_inode _ sb e id r) by (done || by rewrite bump_inodes). mnorm.
  unfold insertDirent. mnorm. rewrite (in_tx_sel_inode _ sb e p pr).
  - unfold insert_dirent_row. simpl. autorewrite with bump.
    rewrite decide_False by (rewrite Hfree; by intros []). rewrite decide_True.
    + unfold on_db, add_link. simpl. by rewrite Hps, Hrs.
    + rewrite lookup_insert_eq, lookup_insert. split; [case_decide; [done | by rewrite Hp] | done].
  - by apply in_tx_on_db.
  - simpl. rewrite bump_inodes, lookup_insert_ne; [done | congruence].
  - done.
Qed.

Lemma rename_dirent_row_spec (t' : tx) p1 n1 p2 n2 de :
  in_tx t' sb e → dirents (t_db t') !! (p1, n1) = Some de → d_sandboxId de = sb →
  is_Some (inodes (t_db t') !! p2) → dirents (t_db t') !! (p2, n2) = None →
  rename_dirent_row p1 n1 p2 n2 t'
  = (Ok (Some (d_inodeId de)), on_db (rename_entry (p1, n1) (p2, n2)) t').
Proof.
  intros Hin' Hk Hs Hp2 Hfree. unfold rename_dirent_row.
  rewrite (in_tx_sel_dirent t' sb e _ de) by done.
  rewrite decide_False by (rewrite Hfree; intros [_ []]; done). rewrite decide_True by done.
  unfold on_db, rename_entry. by rewrite Hk.
Qed.

(** A rename into a slot that was just cleared. *)
Lemma rename_cleared d k1 k2 de1 :
  dirents d !! k1 = Some de1 → k1 ≠ k2 →
  rename_entry k1 k2 (set_dirents (delete k2) d)
  = set_dirents (λ m, <[k2 := de1]> (delete k1 (delete k2 m))) d.
Proof.
  intros H1 Hne. unfold rename_entry. simpl. by rewrite lookup_delete_ne, H1 by congruence.
Qed.

Lemma rename_drop_commute d k1 k2 de1 de2 :
  dirents d !! k1 = Some de1 → dirents d !! k2 = Some de2 → k1 ≠ k2 →
  drop_row (d_inodeId de2) (rename_entry k1 k2 (set_dirents (delete k2) d))
  = rename_entry k1 k2 (remove_entry k2 d).
Proof.
  intros H1 H2 Hne. rewrite (rename_cleared d k1 k2 de1) by done.
  unfold remove_entry. rewrite H2. unfold rename_entry. rewrite dirents_drop_row. simpl.
  rewrite lookup_delete_ne, H1 by congruence. unfold drop_row. simpl.
  destruct (inodes d !! d_inodeId de2); [by case_decide | done].
Qed.

Section mv.
Context (p1 p2 : Z) (n1 n2 : string) (de : DirentRow).
Context (Hk1 : dirents (t_db t) !! (p1, n1) = Some de) (Hs1 : d_sandboxId de = sb).
Context (Hd2 : is_dir (t_db t) sb p2) (Hne : (p1, n1) ≠ (p2, n2)).
Context (Hrep : replaceable (t_db t) sb p2 n2).

(** The destination slot after it is cleared. *)
Lemma mv_cleared d :
  wf_db d → dirents d = dirents (t_db t) → inodes d = inodes (t_db t) →
  wf_db (remove_entry (p2, n2) d) ∧
  dirents (remove_entry (p2, n2) d) !! (p1, n1) = Some de ∧
  dirents (remove_entry (p2, n2) d) !! (p2, n2) = None ∧
  is_dir (remove_entry (p2, n2) d) sb p2.
Proof.
  intros Hw Hd Hi. destruct Hd2 as (r2 & Hr2 & Hr2k & Hr2s).
  destruct (dirents d !! (p2, n2)) as [de2|] eqn:E.
  - assert (E' := E). rewrite Hd in E'. destruct (Hrep de2 E') as [Hs2 Hc2].
    assert (Hc : childless d (d_inodeId de2)) by (intros m; rewrite Hd; apply Hc2).
    split; [by eapply wf_remove_entry|]. rewrite (dirents_remove_entry d p2 n2 de2 E).
    rewrite lookup_delete_eq, lookup_delete_ne by congruence. split; [by rewrite Hd|].
    split; [done|]. exists r2. split; [|done].
    eapply (remove_entry_keeps_parent d p2 n2 de2 E Hc p2 n2 de2); [done | by rewrite Hi].
  - unfold remove_entry. rewrite E. split_and!; [done | by rewrite Hd | done|].
    exists r2. by rewrite Hi.
Qed.

Lemma mvComposite_spec :
  mvComposite sb p1 n1 p2 n2 (Some e) t
  = (Ok tt, on_db (rename_entry (p1, n1) (p2, n2)) (bump sb (on_db (remove_entry (p2, n2)) (bump sb t)))).
Proof.
  unfold mvComposite. mrun (fence_in_tx t sb e true Hin).
  pose proof (bump_in_tx t sb e Hin) as Hb.
  destruct (mv_cleared (t_db (bump sb t))) as (Hwc & Hc1 & Hc2 & Hcd); [apply wf_bump | by autorewrite with bump .. |].
  assert (Hin2 : in_tx (on_db (remove_entry (p2, n2)) (bump sb t)) sb e).
  { apply in_tx_on_db; [done | apply sandboxes_remove]. }
  assert (Hclear : (match sel_dirent (bump sb t) (p2, n2) with
     | Some de0 => modifyS (on_db (set_dirents (delete (p2, n2)))) ;;; modifyS (drop_link (d_inodeId de0))
     | None => retM tt end : txM unit) (bump sb t) = (Ok tt, on_db (remove_entry (p2, n2)) (bump sb t))).
  { destruct (dirents (t_db t) !! (p2, n2)) as [de2|] eqn:E.
    - destruct (Hrep de2 E) as [Hs2 Hcl]. destruct (wf_child _ Hwf _ _ E) as (r & Hr & Hrs).
      rewrite (in_tx_sel_dirent _ sb e _ de2) by (done || by rewrite bump_dirents). mnorm. unfold modifyS.
      rewrite (drop_link_row _ sb e _ r).
      + unfold on_db, remove_entry. simpl. by rewrite bump_dirents, E.
      + by apply in_tx_on_db.
      + simpl. by rewrite bump_inodes.
      + congruence.
      + intros Hl. eapply unlinked_unreferenced with (r := r); autorewrite with bump; try done.
        * apply wf_bump.
        * intros m. rewrite bump_dirents. apply Hcl.
    - rewrite sel_dirent_None by by rewrite bump_dirents. unfold retM, on_db, remove_entry.
      rewrite bump_dirents, E. by destruct (bump sb t). }
  mrun Hclear. mrun (fence_in_tx _ sb e true Hin2).
  assert (Hren := rename_dirent_row_spec (bump sb (on_db (remove_entry (p2, n2)) (bump sb t))) p1 n1 p2 n2 de).
  autorewrite with bump in Hren. destruct Hcd as (r2 & Hr2 & _).
  rewrite (bindM_Ok _ _ _ _ _ (Hren (bump_in_tx _ _ _ Hin2) Hc1 Hs1 (ex_intro _ r2 Hr2) Hc2)). done.
Qed.

Lemma mv_fallback_spec :
  (moveDirent p1 n1 p2 n2 sb (Some e) ;;;
   match d_inodeId <$> dirents (t_db t) !! (p2, n2) with
   | Some id => unlink_row id
   | None => retM tt
   end) t
  = (Ok tt, on_db (λ d, rename_entry (p1, n1) (p2, n2) (remove_entry (p2, n2) d)) (bump sb t)).
Proof.
  unfold moveDirent. mrun (fence_in_tx t sb e false Hin).
  pose proof (bump_in_tx t sb e Hin) as Hb. destruct Hd2 as (r2 & Hr2 & Hr2k & Hr2s).
  destruct (dirents (t_db t) !! (p2, n2)) as [de2|] eqn:E; simpl.
  - destruct (Hrep de2 E) as [Hs2 Hcl]. destruct (wf_child _ Hwf _ _ E) as (r & Hr & Hrs).
    rewrite (in_tx_sel_dirent _ sb e _ de2) by (done || by rewrite bump_dirents). mnorm.
    set (t1 := on_db _ (bump sb t)).
    assert (Hin1 : in_tx t1 sb e) by by apply in_tx_on_db.
    assert (Hd1 : dirents (t_db t1) = delete (p2, n2) (dirents (t_db t))) by (simpl; by rewrite bump_dirents).
    assert (Hi1 : inodes (t_db t1) = inodes (t_db t)) by (simpl; by rewrite bump_inodes).
    erewrite bindM_Ok; [|apply rename_dirent_row_spec with (de := de); rewrite ?Hd1, ?Hi1; try done].
    2: by rewrite lookup_delete_ne by congruence. 2: apply lookup_delete_eq. mnorm.
    assert (Hk1' : dirents (t_db (bump sb t)) !! (p1, n1) = Some de) by by rewrite bump_dirents.
    rewrite (unlink_row_spec _ _ r).
    + unfold t1, on_db. simpl. by rewrite (rename_drop_commute _ _ _ de de2) by (done || by rewrite bump_dirents).
    + apply in_tx_on_db; [done|]. unfold t1, on_db. simpl. by rewrite (rename_cleared _ _ _ de).
    + unfold t1, on_db. simpl. rewrite (rename_cleared _ _ _ de) by done. simpl. by rewrite bump_inodes.
    + congruence.
    + by eapply entry_nlink.
    + intros Hl. destruct (unlinked_unreferenced (t_db t) p2 n2 de2 r) as [Hu1 Hu2]; try done; [lia|].
      unfold t1, on_db. simpl. rewrite (rename_cleared _ _ _ de) by done.
      assert (Hde : d_inodeId de ≠ d_inodeId de2).
      { intros Heq. apply (Hu2 (p1, n1) de); [|done]. simpl. by rewrite lookup_delete_ne by congruence. }
      assert (Hp2ne : p2 ≠ d_inodeId de2) by (intros Heq; rewrite Heq in E; by rewrite Hcl in E).
      split.
      * intros m. simpl. rewrite bump_dirents, lookup_insert_ne by congruence.
        apply lookup_delete_None. right. apply (Hu1 m).
      * intros k' de'. simpl. rewrite bump_dirents, lookup_insert. case_decide; [congruence|].
        intros [_ Hk']%lookup_delete_Some. by apply (Hu2 k').
  - rewrite sel_dirent_None by by rewrite bump_dirents. mnorm.
    erewrite bindM_Ok; [|apply rename_dirent_row_spec with (de := de); autorewrite with bump; try done].
    mnorm. unfold retM, on_db, remove_entry. by rewrite bump_dirents, E.
Qed.
End mv.
End writes.

(** ** Properties *)

Lemma rename_entry_version k1 k2 f d :
  rename_entry k1 k2 (set_sandboxes f d) = set_sandboxes f (rename_entry k1 k2 d).
Proof. unfold rename_entry. simpl. by destruct (dirents d !! k1). Qed.

Lemma bump_rename sb k1 k2 t :
  on_db (rename_entry k1 k2) (bump sb t) = bump sb (on_db (rename_entry k1 k2) t).
Proof.
  assert (Hs : sandboxes (rename_entry k1 k2 (t_db t)) = sandboxes (t_db t)).
  { unfold rename_entry. by destruct (dirents (t_db t) !! k1). }
  unfold bump. simpl. rewrite Hs. destruct (sandboxes (t_db t) !! sb); [|done].
  unfold on_db. simpl. by rewrite rename_entry_version.
Qed.

(** A statement whose fence does not pass leaves the transaction as it was. *)
Lemma fence_refused t sb s e c :
  sel_sandbox t sb = Some s → s_version s ≠ e → (s_version s < e ∨ t_epoch t ≠ Some (s_version s)) →
  fenceCtes sb (Some e) c t = (Ok false, t).
Proof.
  intros Hs Hne Hor. unfold fenceCtes. rewrite Hs. destruct (fence_pass _ _ _) eqn:E; [|done].
  apply fence_pass_iff in E. naive_solver lia.
Qed.

(** Fencing. A write that expects epoch [e] while the sandbox is at another
    version that this transaction did not itself produce is refused with ESTALE,
    and leaves every table unchanged. This holds of every fenced statement. *)
Theorem stale_write_refused t sb s e :
  sel_sandbox t sb = Some s → s_version s ≠ e →
  (s_version s < e ∨ t_epoch t ≠ Some (s_version s)) →
  (∀ p n mode, mkdirComposite sb p n mode (Some e) t = (Err (ESTALE sb), t)) ∧
  (∀ p n, rmComposite sb p n (Some e) t = (Err (ESTALE sb), t)) ∧
  (∀ p n mode size sha, writeFileComposite sb p n mode size sha (Some e) t = (Err (ESTALE sb), t)) ∧
  (∀ p n p' n', mvComposite sb p n p' n' (Some e) t = (Err (ESTALE sb), t)) ∧
  (∀ opts, co_sandboxId opts = sb → createInode opts (Some e) t = (Err (ESTALE sb), t)) ∧
  (∀ id u, no_patch u = false → updateInode id u sb (Some e) t = (Err (ESTALE sb), t)) ∧
  (∀ id, incrementNlink id sb (Some e) t = (Err (ESTALE sb), t)) ∧
  (∀ p n, deleteDirent p n sb (Some e) t = (Err (ESTALE sb), t)) ∧
  (∀ p n p' n', moveDirent p n p' n' sb (Some e) t = (Err (ESTALE sb), t)).
Proof.
  intros Hs Hne Hor. pose proof (λ c, fence_refused t sb s e c Hs Hne Hor) as Hf.
  unfold mkdirComposite, rmComposite, writeFileComposite, mvComposite, createInode, updateInode,
    incrementNlink, deleteDirent, moveDirent, compositeFenceAndAdvance, fenceAndAdvance.
  split_and!; intros; subst; try match goal with H : no_patch _ = false |- _ => rewrite H end;
    mnorm; rewrite (bindM_Ok _ _ _ _ _ (Hf _)); mnorm; by rewrite ?Hs.
Qed.

(** The transaction of the examples: one sandbox at version 7, its root, and a
    file of two links below it. *)
Definition example_db : db :=
  mkDb {["s" := mkSandbox (Some 1) None None false false false 0 7]}
       (<[1 := mkInode "s" DIRECTORY 493 0 0 1 None None]>
        {[2 := mkInode "s" FILE 420 3 0 2 (Some "h") None]})
       (<[(1, "a") := mkDirent 2 "s"]> {[(1, "b") := mkDirent 2 "s"]})
       ∅ {["s" := 0]} 3 0.

Definition example_tx : tx := mkTx example_db (Some "s") (Some 7).

Lemma stale_write_refused_witness :
  rmComposite "s" 1 "a" (Some 6) (mkTx example_db (Some "s") None)
  = (Err (ESTALE "s"), mkTx example_db (Some "s") None).
Proof.
  destruct (stale_write_refused (mkTx example_db (Some "s") None) "s"
    (mkSandbox (Some 1) None None false false false 0 7) 6) as (_ & H & _);
    [reflexivity | discriminate | right; discriminate |].
  apply H.
Defined.
