(* ===== verification/Lifecycle.v ===== *)
(** Sandbox lifecycle, epochs and garbage collection
    (src/src/sql-fs/dialects/postgres/sandbox.ts and blobs.ts).

    Creating a sandbox builds the initial tree and keeps the database
    well-formed; deleting one removes exactly its rows; the epoch of a sandbox
    id only grows across deletions and recreations, so that a writer of an old
    incarnation is always fenced off; the collector only takes blobs nothing
    refers to. *)

From S2P Require Import Prelude Errors Paths Store Tree Dialect.

(** ** Creation *)

(** The root row and the sandbox row that points at it. *)
Definition add_root (sb : string) (s : SandboxRow) (r : InodeRow) (d : db) : db :=
  mkDb (<[sb := set_root (Some (next_id d)) s]> (sandboxes d)) (<[next_id d := r]> (inodes d))
       (dirents d) (blobs d) (sandbox_epochs d) (next_id d + 1) (clock d).

Lemma wf_add_root sb s r d :
  wf_db d → sandboxes d !! sb = None → i_kind r = DIRECTORY → i_sandboxId r = sb → i_nlink r = 1 →
  wf_db (add_root sb s r d).
Proof.
  intros Hwf Hsb Hk Hs Hn. pose proof (wf_fresh_inode d Hwf (next_id d) ltac:(lia)) as Hfr.
  assert (Hlook : ∀ id x, inodes d !! id = Some x → <[next_id d := r]> (inodes d) !! id = Some x).
  { intros id x Hx. rewrite lookup_insert_ne; [done|]. intros <-. congruence. }
  split; simpl.
  - intros p n de Hde. destruct (wf_parent d Hwf p n de Hde) as (x & Hx & ?). exists x. by split; [apply Hlook|].
  - intros k de Hde. destruct (wf_child d Hwf k de Hde) as (x & Hx & ?). exists x. by split; [apply Hlook|].
  - apply (wf_name d Hwf).
  - intros k1 k2 de1 de2 x H1 H2 Heq Hx Hd. destruct (wf_child d Hwf k1 de1 H1) as (y & Hy & _).
    apply Hlook in Hy as Hy'. rewrite Hy' in Hx. injection Hx as <-. by eapply (wf_dir d Hwf).
  - intros sb' s' root. rewrite lookup_insert. case_decide as Hd.
    + intros [= <-]. simpl. intros [= <-]. exists r. by rewrite lookup_insert_eq; subst.
    + intros H1 H2. destruct (wf_root d Hwf _ _ _ H1 H2) as (x & Hx & ?). exists x. by split; [apply Hlook|].
  - intros sb' s' root k de. rewrite lookup_insert. case_decide as Hd.
    + intros [= <-]. simpl. intros [= <-] Hde Heq. destruct (wf_child d Hwf k de Hde) as (x & Hx & _). congruence.
    + by apply (wf_top d Hwf).
  - intros id x. rewrite lookup_insert. unfold root_link. simpl. case_decide as Hd.
    + intros [= <-]. subst id. rewrite Hs, lookup_insert_eq. simpl. rewrite decide_True by done.
      assert (links (dirents d) (next_id d) = 0%nat) as ->; [|lia]. apply links_zero. intros k de Hde Heq.
      destruct (wf_child d Hwf k de Hde) as (y & Hy & _). congruence.
    + intros Hx. rewrite (wf_nlink d Hwf id x Hx). unfold root_link. f_equal.
      destruct (decide (sb = i_sandboxId x)) as [Hsx|Hne]; [|by rewrite lookup_insert_ne].
      rewrite <- Hsx, lookup_insert_eq, Hsb. simpl. by rewrite !decide_False by congruence.
  - intros id [x Hx]. revert Hx. rewrite lookup_insert. pose proof (wf_next d Hwf). case_decide; [lia|].
    intros Hx. pose proof (wf_fresh d Hwf id (mk_is_Some _ _ Hx)). lia.
  - pose proof (wf_next d Hwf). lia.
Qed.

Lemma createDirInode_spec sb p n (t : tx) :
  is_Some (inodes (t_db t) !! p) → dirents (t_db t) !! (p, n) = None →
  createDirInode sb p n t
  = (Ok (next_id (t_db t)), on_db (add_node p n (new_inode sb DIRECTORY 493 0 (clock (t_db t)) None None)) t).
Proof. intros Hp Hf. unfold createDirInode. mnorm. by rewrite insert_fresh_ok. Qed.

(** The database after creation: the root, and four directories below it. *)
Definition seeded (sb owner : string) (epoch : Z) (d : db) : db :=
  let root := next_id d in
  let dir := new_inode sb DIRECTORY 493 0 (clock d) None None in
  add_node (root + 1) "user" dir
   (add_node root "bin" dir
    (add_node root "tmp" dir
     (add_node root "home" dir
      (add_root sb (mkSandbox None (Some owner) None false false false (clock d) epoch) dir
       (set_epochs (<[sb := epoch]>) d))))).

Definition next_epoch (d : db) (sb : string) : Z :=
  match sandbox_epochs d !! sb with Some e => e + 1 | None => 0 end.

Lemma createSandbox_spec sb owner d :
  wf_db d → sandboxes d !! sb = None →
  transaction (createSandbox sb owner) d
  = (Ok (mkCreated (next_id d) (clock d) (next_epoch d sb)), seeded sb owner (next_epoch d sb) d).
Proof.
  intros Hwf Hsb. pose proof (wf_fresh_key d Hwf) as Hk.
  unfold transaction, createSandbox. mnorm. simpl. fold (next_epoch d sb). rewrite Hsb. mnorm.
  unfold insert_inode at 1. unfold bindM at 1. simpl. mnorm.
  erewrite bindM_Ok; [|apply createDirInode_spec; simpl; [by rewrite lookup_insert_eq | apply Hk; lia]]. simpl.
  erewrite bindM_Ok; [|apply createDirInode_spec; simpl;
    [rewrite lookup_insert_ne, lookup_insert_eq by lia; done | rewrite lookup_insert_ne by congruence; apply Hk; lia]]. simpl.
  erewrite bindM_Ok; [|apply createDirInode_spec; simpl;
    [rewrite !lookup_insert_ne, lookup_insert_eq by lia; done | rewrite !lookup_insert_ne by congruence; apply Hk; lia]]. simpl.
  erewrite bindM_Ok; [|apply createDirInode_spec; simpl;
    [rewrite !lookup_insert_ne, lookup_insert_eq by lia; done | rewrite !lookup_insert_ne by (intros [=]; lia); apply Hk; lia]]. simpl.
  unfold seeded, add_node, add_root, on_db, set_epochs, set_sandboxes. simpl.
  by rewrite alter_insert_eq.
Qed.

Lemma same_shape_epochs f d : same_shape d (set_epochs f d).
Proof. done. Qed.

(** One more directory below an existing one. *)
Lemma wf_add_dir sb d p n now :
  wf_db d → is_dir d sb p → valid_name n → dirents d !! (p, n) = None →
  wf_db (add_node p n (new_inode sb DIRECTORY 493 0 now None None) d) ∧
  is_dir (add_node p n (new_inode sb DIRECTORY 493 0 now None None) d) sb p ∧
  is_dir (add_node p n (new_inode sb DIRECTORY 493 0 now None None) d) sb (next_id d) ∧
  (∀ q, is_dir d sb q → is_dir (add_node p n (new_inode sb DIRECTORY 493 0 now None None) d) sb q).
Proof.
  intros Hwf Hp Hn Hfree.
  assert (Hkeep : ∀ q, is_dir d sb q → is_dir (add_node p n (new_inode sb DIRECTORY 493 0 now None None) d) sb q).
  { intros q (r & Hr & ? & ?). exists r. simpl. rewrite lookup_insert_ne; [done|].
    intros <-. rewrite wf_fresh_inode in Hr; [done | done | lia]. }
  split_and!; [|by apply Hkeep| |done].
  - destruct Hp as (pr & Hp & Hk & Hs). by eapply wf_add_node.
  - eexists. simpl. by rewrite lookup_insert_eq.
Qed.

Definition seed_paths : list (list string) := [[]; ["home"]; ["tmp"]; ["bin"]; ["home"; "user"]].

Lemma seeded_spec sb owner epoch d :
  wf_db d → sandboxes d !! sb = None →
  wf_db (seeded sb owner epoch d) ∧ root_of (seeded sb owner epoch d) sb = Some (next_id d) ∧
  ∀ cs, is_Some (walk (dirents (seeded sb owner epoch d)) (next_id d) cs) ↔ cs ∈ seed_paths.
Proof.
  intros Hwf Hsb. pose proof (wf_fresh_key d Hwf) as Hk. unfold seeded.
  set (d0 := add_root sb _ _ _). set (dir := new_inode _ _ _ _ _ _ _).
  assert (Hw0 : wf_db d0) by by apply wf_add_root; [eapply wf_same_shape, Hwf; apply same_shape_epochs|..].
  assert (Hr0 : is_dir d0 sb (next_id d)) by (exists dir; simpl; by rewrite lookup_insert_eq).
  assert (Hroot : root_of d0 sb = Some (next_id d)) by (unfold root_of; simpl; by rewrite lookup_insert_eq).
  assert (Hwalk : ∀ cs, walk (dirents d0) (next_id d) cs = if decide (cs = []) then Some (next_id d) else None).
  { intros [|n cs]; simpl; [done|]. by rewrite Hk by lia. }
  destruct (wf_add_dir sb d0 (next_id d) "home" (clock d)) as (Hw1 & Hr1 & Hh1 & _);
    [done | done | compute_decide | simpl; apply Hk; lia |].
  destruct (wf_add_dir sb (add_node (next_id d) "home" dir d0) (next_id d) "tmp" (clock d)) as (Hw2 & Hr2 & _ & Hq2);
    [done | done | compute_decide | simpl; rewrite !lookup_insert_ne by congruence; apply Hk; lia |].
  destruct (wf_add_dir sb (add_node (next_id d) "tmp" dir (add_node (next_id d) "home" dir d0)) (next_id d) "bin" (clock d))
    as (Hw3 & Hr3 & _ & Hq3);
    [done | done | compute_decide | simpl; rewrite !lookup_insert_ne by congruence; apply Hk; lia |].
  set (d3 := add_node (next_id d) "bin" dir _) in *.
  assert (Hfree : dirents d3 !! (next_id d + 1, "user") = None).
  { simpl. rewrite !lookup_insert_ne by (intros [=]; lia). apply Hk. lia. }
  destruct (wf_add_dir sb d3 (next_id d + 1) "user" (clock d)) as (Hw4 & _);
    [done | by apply Hq3, Hq2 | compute_decide | done |].
  split_and!; [done | done |]. intros cs.
  destruct Hr0 as (r0 & ? & ? & _), Hr1 as (r1 & ? & ? & _), Hr2 as (r2 & ? & ? & _).
  destruct (Hq3 _ (Hq2 _ Hh1)) as (r3 & ? & ? & _).
  assert (W3 : ∀ cs, walk (dirents d3) (next_id d) cs =
    if decide (cs = ["bin"]) then Some (next_id d + 3) else
    if decide (cs = ["tmp"]) then Some (next_id d + 2) else
    if decide (cs = ["home"]) then Some (next_id d + 1) else
    if decide (cs = []) then Some (next_id d) else None).
  { intros cs'. unfold d3.
    rewrite (walk_add_node _ _ _ _ r2) with (sb := sb) (ps := []); try done;
      [|simpl; rewrite !lookup_insert_ne by congruence; apply Hk; lia].
    rewrite (walk_add_node _ _ _ _ r1) with (sb := sb) (ps := []); try done;
      [|simpl; rewrite !lookup_insert_ne by congruence; apply Hk; lia].
    rewrite (walk_add_node _ _ _ _ r0) with (sb := sb) (ps := []); try done;
      [|simpl; apply Hk; lia].
    rewrite Hwalk. simpl. repeat case_decide; try done; f_equal; lia. }
  rewrite (walk_add_node d3 _ "user" _ r3) with (sb := sb) (ps := ["home"]); try done.
  rewrite W3. unfold seed_paths. rewrite !elem_of_cons, elem_of_nil.
  repeat case_decide; subst; split; try naive_solver; by intros [].
Qed.

(** ** Deletion *)

(** In a well-formed database the cascade takes an entry exactly when the entry
    is of the sandbox. *)
Lemma cascade_dirents sb d k :
  wf_db d →
  dirents (delete_sandbox_cascade sb d) !! k =
  match dirents d !! k with
  | Some de => if decide (d_sandboxId de = sb) then None else Some de
  | None => None
  end.
Proof.
  intros Hwf. destruct k as [p n]. simpl. destruct (dirents d !! (p, n)) as [de|] eqn:E; simpl.
  - destruct (wf_parent d Hwf p n de E) as (pr & Hpr & _ & Hps).
    destruct (wf_child d Hwf _ de E) as (cr & Hcr & Hcs). case_decide as Hd.
    + apply map_lookup_filter_None. right. intros de' Hde'. rewrite E in Hde'. injection Hde' as <-. naive_solver.
    + apply map_lookup_filter_Some. simpl. rewrite Hpr, Hcr, Hps, Hcs. by rewrite bool_decide_eq_false_2.
  - apply map_lookup_filter_None. by left.
Qed.

Lemma cascade_inodes sb d id :
  inodes (delete_sandbox_cascade sb d) !! id =
  match inodes d !! id with
  | Some r => if decide (i_sandboxId r = sb) then None else Some r
  | None => None
  end.
Proof.
  simpl. rewrite map_lookup_filter. destruct (inodes d !! id) as [r|]; simpl; [|done].
  case_decide; case_guard; naive_solver.
Qed.

Lemma cascade_links sb d id r :
  wf_db d → inodes d !! id = Some r → i_sandboxId r ≠ sb →
  links (dirents (delete_sandbox_cascade sb d)) id = links (dirents d) id.
Proof.
  intros Hwf Hr Hs. unfold links. f_equal. apply map_eq. intros k. rewrite !map_lookup_filter, (cascade_dirents sb d k Hwf).
  destruct (dirents d !! k) as [de|] eqn:E; simpl; [|done]. case_decide as Hd; simpl; [|done].
  case_guard as Hg; [|done]. destruct (wf_child d Hwf k de E) as (cr & Hcr & Hcs). simpl in Hg. congruence.
Qed.

Lemma wf_cascade sb d : wf_db d → wf_db (delete_sandbox_cascade sb d).
Proof.
  intros Hwf.
  assert (HD : ∀ k de, dirents (delete_sandbox_cascade sb d) !! k = Some de →
                 dirents d !! k = Some de ∧ d_sandboxId de ≠ sb).
  { intros k de. rewrite (cascade_dirents sb d k Hwf). destruct (dirents d !! k); [|done]. case_decide; naive_solver. }
  assert (HI : ∀ id r, inodes (delete_sandbox_cascade sb d) !! id = Some r ↔ inodes d !! id = Some r ∧ i_sandboxId r ≠ sb).
  { intros id r. rewrite cascade_inodes. destruct (inodes d !! id); [|naive_solver]. case_decide; naive_solver. }
  assert (HS : ∀ sb' s, sandboxes (delete_sandbox_cascade sb d) !! sb' = Some s → sb' ≠ sb ∧ sandboxes d !! sb' = Some s).
  { intros sb' s. simpl. rewrite lookup_delete_Some. naive_solver. }
  split.
  - intros p n de [Hde Hs]%HD. destruct (wf_parent d Hwf p n de Hde) as (r & Hr & ? & ?). exists r. rewrite HI. split_and!; congruence.
  - intros k de [Hde Hs]%HD. destruct (wf_child d Hwf k de Hde) as (r & Hr & ?). exists r. rewrite HI. split_and!; congruence.
  - intros p n de [Hde _]%HD. by eapply (wf_name d Hwf).
  - intros k1 k2 de1 de2 r [H1 _]%HD [H2 _]%HD Heq [Hr _]%HI Hk. by eapply (wf_dir d Hwf).
  - intros sb' s root [Hne Hs]%HS Hroot. destruct (wf_root d Hwf sb' s root Hs Hroot) as (r & Hr & ? & ?).
    exists r. rewrite HI. split_and!; congruence.
  - intros sb' s root k de [Hne Hs]%HS Hroot [Hde _]%HD. by eapply (wf_top d Hwf).
  - intros id r [Hr Hne]%HI. rewrite (cascade_links sb d id r) by done. rewrite (wf_nlink d Hwf id r Hr).
    unfold root_link. simpl. by rewrite lookup_delete_ne by congruence.
  - intros id [r [Hr _]%HI]. by apply (wf_fresh d Hwf).
  - apply (wf_next d Hwf).
Qed.

Lemma deleteSandbox_spec sb s d :
  sandboxes d !! sb = Some s →
  transaction (deleteSandbox sb) d =
  (let epoch := match sandbox_epochs d !! sb with
                | Some e => Z.max e (s_version s + 1)
                | None => s_version s + 1
                end in
   (Ok epoch, set_epochs (<[sb := epoch]>) (delete_sandbox_cascade sb d))).
Proof.
  intros Hs. unfold transaction, deleteSandbox. mnorm. unfold sel_sandbox. simpl. by rewrite Hs.
Qed.

Lemma orphan_false t minAgeMs sha b :
  t_sandbox t = None →
  orphan t minAgeMs sha b = false ↔
  (∃ id i, inodes (t_db t) !! id = Some i ∧ i_contentSha256 i = Some sha ∧ 0 < i_nlink i) ∨
  (∃ at_, b_lastReferencedAt b = Some at_ ∧ clock (t_db t) - minAgeMs ≤ at_).
Proof.
  intros Hctx. unfold orphan, visible. rewrite Hctx, andb_false_iff, bool_decide_eq_false.
  split; (intros [H|H]; [left|right]).
  - apply map_not_Forall in H as (id & i & Hi & Hp); [|apply _]. exists id, i.
    apply dec_stable in Hp. naive_solver.
  - destruct (b_lastReferencedAt b) as [at_|]; [|done]. apply bool_decide_eq_false in H.
    exists at_. split; [done | lia].
  - destruct H as (id & i & Hi & Hc & Hn). intros Hall. by apply (Hall id i Hi).
  - destruct H as (at_ & -> & Hle). apply bool_decide_eq_false. lia.
Qed.

(** ** An example *)

Definition empty_db : db := mkDb ∅ ∅ ∅ ∅ ∅ 1 0.

Lemma wf_empty_db : wf_db empty_db.
Proof. split; simpl; intros; by simplify_map_eq. Qed.

(** A database with one freshly created sandbox. *)
Definition demo_db : db := (transaction (createSandbox "s" "alice") empty_db).2.

Lemma demo_db_seeded : demo_db = seeded "s" "alice" 0 empty_db.
Proof. unfold demo_db. rewrite createSandbox_spec; [done | apply wf_empty_db | done]. Qed.

Lemma wf_demo_db : wf_db demo_db.
Proof. rewrite demo_db_seeded. by apply seeded_spec; [apply wf_empty_db|]. Qed.

(** ** Properties *)

(** creating a sandbox that does not exist succeeds, leaves a well-formed
    database, and the new tree is exactly the root, /home, /tmp, /bin and
    /home/user. *)
Theorem createSandbox_tree sb owner d :
  wf_db d → sandboxes d !! sb = None →
  ∃ c d', transaction (createSandbox sb owner) d = (Ok c, d') ∧ wf_db d' ∧
    root_of d' sb = Some (rootInodeId c) ∧
    ∀ cs, is_Some (walk (dirents d') (rootInodeId c) cs) ↔ cs ∈ seed_paths.
Proof.
  intros Hwf Hsb. eexists _, _. split; [by apply createSandbox_spec|]. by apply seeded_spec.
Qed.

Lemma createSandbox_tree_witness :
  ∃ c d', transaction (createSandbox "s" "alice") empty_db = (Ok c, d') ∧ wf_db d' ∧
    root_of d' "s" = Some (rootInodeId c) ∧
    ∀ cs, is_Some (walk (dirents d') (rootInodeId c) cs) ↔ cs ∈ seed_paths.
Proof. apply (createSandbox_tree "s" "alice" empty_db); [exact wf_empty_db | reflexivity]. Defined.

(** deleting a sandbox removes exactly its rows: the sandbox, every inode
    and every entry of it, and nothing of any other sandbox. The database stays
    well-formed and the returned tombstone epoch is above the version the
    sandbox had. *)
Theorem deleteSandbox_exact sb s d :
  wf_db d → sandboxes d !! sb = Some s →
  ∃ e d', transaction (deleteSandbox sb) d = (Ok e, d') ∧ wf_db d' ∧ s_version s < e ∧
    sandboxes d' = delete sb (sandboxes d) ∧ sandbox_epochs d' = <[sb := e]> (sandbox_epochs d) ∧
    (∀ id r, inodes d' !! id = Some r ↔ inodes d !! id = Some r ∧ i_sandboxId r ≠ sb) ∧
    (∀ k de, dirents d' !! k = Some de ↔ dirents d !! k = Some de ∧ d_sandboxId de ≠ sb).
Proof.
  intros Hwf Hs. eexists _, _. split; [by apply deleteSandbox_spec|]. split_and!.
  - eapply wf_same_shape; [apply same_shape_epochs | by apply wf_cascade].
  - destruct (sandbox_epochs d !! sb); lia.
  - done.
  - done.
  - intros id r. pose proof (cascade_inodes sb d id) as Hc. simpl in Hc |- *. rewrite Hc.
    destruct (inodes d !! id); [|naive_solver]. case_decide; naive_solver.
  - intros k de. pose proof (cascade_dirents sb d k Hwf) as Hc. simpl in Hc |- *. rewrite Hc.
    destruct (dirents d !! k); [|naive_solver]. case_decide; naive_solver.
Qed.

Lemma deleteSandbox_exact_witness :
  ∃ s e d', transaction (deleteSandbox "s") demo_db = (Ok e, d') ∧ s_version s < e.
Proof.
  destruct (deleteSandbox_exact "s" (set_root (Some 1) (mkSandbox None (Some "alice") None false false false 0 0)) demo_db)
    as (e & d' & H & _ & Hlt & _); [exact wf_demo_db | rewrite demo_db_seeded; reflexivity |].
  exists (set_root (Some 1) (mkSandbox None (Some "alice") None false false false 0 0)), e, d'. by split.
Defined.

(** After a sandbox is deleted and created again, a write that still
    expects any epoch of the old incarnation is refused with ESTALE and changes
    nothing, whichever composite it uses. *)
Theorem recreated_sandbox_fences_old_writers sb owner s d e d1 e0 :
  wf_db d → sandboxes d !! sb = Some s → e0 ≤ s_version s →
  transaction (deleteSandbox sb) d = (Ok e, d1) →
  ∃ c d2, transaction (createSandbox sb owner) d1 = (Ok c, d2) ∧ s_version s < e ∧ e < c_epoch c ∧
    ∀ p n p' n' mode size sha,
      transaction (mkdirComposite sb p n mode (Some e0)) d2 = (Err (ESTALE sb), d2) ∧
      transaction (rmComposite sb p n (Some e0)) d2 = (Err (ESTALE sb), d2) ∧
      transaction (writeFileComposite sb p n mode size sha (Some e0)) d2 = (Err (ESTALE sb), d2) ∧
      transaction (mvComposite sb p n p' n' (Some e0)) d2 = (Err (ESTALE sb), d2).
Proof.
  intros Hwf Hs He0 Hdel. rewrite (deleteSandbox_spec sb s d Hs) in Hdel. injection Hdel as He Hd1. subst d1.
  assert (Hlt : s_version s < e) by (destruct (sandbox_epochs d !! sb); lia). rewrite He.
  set (d1 := set_epochs _ _).
  assert (Hc : transaction (createSandbox sb owner) d1 = (Ok (mkCreated (next_id d1) (clock d1) (e + 1)), seeded sb owner (e + 1) d1)).
  { rewrite createSandbox_spec.
    - unfold next_epoch. simpl. by rewrite lookup_insert_eq.
    - eapply wf_same_shape; [apply same_shape_epochs | by apply wf_cascade].
    - apply lookup_delete_eq. }
  eexists _, _. split; [done|]. simpl. split_and!; [done | lia |].
  assert (Hsel : ∀ expected c, e0 = expected → fenceCtes sb (Some expected) c (mkTx (seeded sb owner (e + 1) d1) None None)
                 = (Ok false, mkTx (seeded sb owner (e + 1) d1) None None)).
  { intros expected c <-. unfold fenceCtes, sel_sandbox, visible, fence_pass. simpl. rewrite lookup_insert_eq. simpl.
    rewrite bool_decide_eq_false_2 by lia. by rewrite andb_false_r. }
  assert (Hrow : sel_sandbox (mkTx (seeded sb owner (e + 1) d1) None None) sb
     = Some (set_root (Some (next_id d1)) (mkSandbox None (Some owner) None false false false (clock d1) (e + 1)))).
  { unfold sel_sandbox, visible. simpl. by rewrite lookup_insert_eq. }
  intros p n p' n' mode size sha. unfold transaction, mkdirComposite, rmComposite, writeFileComposite, mvComposite.
  split_and!; mnorm; (erewrite bindM_Ok; [|by apply Hsel]); mnorm; rewrite Hrow; done.
Qed.

Lemma recreated_sandbox_fences_old_writers_witness :
  ∃ e d1 c d2, transaction (deleteSandbox "s") demo_db = (Ok e, d1) ∧
    transaction (createSandbox "s" "bob") d1 = (Ok c, d2) ∧
    transaction (mkdirComposite "s" (rootInodeId c) "x" 493 (Some 0)) d2 = (Err (ESTALE "s"), d2).
Proof.
  destruct (recreated_sandbox_fences_old_writers "s" "bob"
    (set_root (Some 1) (mkSandbox None (Some "alice") None false false false 0 0)) demo_db 1
    (transaction (deleteSandbox "s") demo_db).2 0) as (c & d2 & Hc & _ & _ & Hall).
  - exact wf_demo_db.
  - rewrite demo_db_seeded. reflexivity.
  - vm_compute. discriminate.
  - rewrite demo_db_seeded. reflexivity.
  - exists 1, (transaction (deleteSandbox "s") demo_db).2, c, d2. split_and!.
    + rewrite demo_db_seeded. reflexivity.
    + exact Hc.
    + exact (proj1 (Hall (rootInodeId c) "x" 0 "y" 493 0 "h")).
Defined.

(** the garbage collector, run without a sandbox context, deletes exactly
    the blobs that no linked inode refers to and whose last reference is older
    than the grace window; in particular the content of every file of every
    sandbox's tree survives it. *)
Theorem gcOrphanBlobs_exact t minAgeMs :
  t_sandbox t = None → wf_db (t_db t) →
  ∃ shas t', gcOrphanBlobs minAgeMs t = (Ok shas, t') ∧
    inodes (t_db t') = inodes (t_db t) ∧ dirents (t_db t') = dirents (t_db t) ∧
    (∀ sha b, blobs (t_db t) !! sha = Some b →
       blobs (t_db t') !! sha = Some b ↔
       (∃ id i, inodes (t_db t) !! id = Some i ∧ i_contentSha256 i = Some sha ∧ 0 < i_nlink i) ∨
       (∃ at_, b_lastReferencedAt b = Some at_ ∧ clock (t_db t) - minAgeMs ≤ at_)) ∧
    (∀ sb root cs id r sha b, root_of (t_db t) sb = Some root →
       walk (dirents (t_db t)) root cs = Some id → inodes (t_db t) !! id = Some r →
       i_contentSha256 r = Some sha → blobs (t_db t) !! sha = Some b → blobs (t_db t') !! sha = Some b).
Proof.
  intros Hctx Hwf. eexists _, _. split; [done|]. simpl.
  assert (Hiff : ∀ sha b, blobs (t_db t) !! sha = Some b →
    filter (λ kv, orphan t minAgeMs kv.1 kv.2 = false) (blobs (t_db t)) !! sha = Some b ↔
    orphan t minAgeMs sha b = false).
  { intros sha b Hb. rewrite map_lookup_filter_Some. naive_solver. }
  split_and!; [done | done | |].
  - intros sha b Hb. by rewrite (Hiff sha b Hb), orphan_false.
  - intros sb root cs id r sha b Hroot Hw Hr Hc Hb. rewrite (Hiff sha b Hb), orphan_false by done.
    left. exists id, r. split_and!; [done | done |]. rewrite (wf_nlink _ Hwf _ _ Hr).
    destruct cs as [|n cs _] using rev_ind.
    + injection Hw as <-. unfold root_link.
      destruct (proj1 (root_of_Some _ _ _) Hroot) as (s & Hs & Hsr).
      destruct (wf_root _ Hwf _ _ _ Hs Hsr) as (r' & Hr' & _ & Hsb'). rewrite Hr in Hr'. injection Hr' as <-.
      rewrite Hsb', Hs. simpl. rewrite decide_True by done. lia.
    + rewrite walk_snoc in Hw. destruct (walk _ _ cs) as [x|]; [|done]. simpl in Hw.
      destruct (dirents (t_db t) !! (x, n)) as [de|] eqn:Ede; [|done]. simpl in Hw. injection Hw as <-.
      pose proof (links_pos _ _ _ Ede). unfold root_link. case_decide; lia.
Qed.

Lemma gcOrphanBlobs_exact_witness :
  ∃ shas t', gcOrphanBlobs 1000 (mkTx demo_db None None) = (Ok shas, t') ∧ inodes (t_db t') = inodes demo_db.
Proof.
  destruct (gcOrphanBlobs_exact (mkTx demo_db None None) 1000) as (shas & t' & H & Hi & _);
    [reflexivity | exact wf_demo_db |].
  exists shas, t'. split; [exact H | exact Hi].
Defined.
