(* ===== verification/LoadPaths.v ===== *)
(** [loadAllPaths] (src/src/sql-fs/dialects/postgres/namespace.ts): the recursive
    query that loads a sandbox lists exactly the tree.

    The query iterates level by level. The rows of level [k] are the nodes at
    depth [k]; a tree with [n] inodes has fewer than [n] levels below its root,
    because the directories on one path are distinct inodes, so the fuel of
    [tree_rows], two more than the number of inodes, is never used up. *)

From S2P Require Import Prelude Errors Paths Store Tree Dialect Lifecycle.

(** The rows of one round of the recursion. *)
Fixpoint level (t : tx) (root : Z) (k : nat) : list (Z * string) :=
  match k with
  | O => [(root, "/")]
  | S k' => level t root k' ≫= tree_children t
  end.

Lemma tree_rows_levels t root k fuel :
  (∃ m, m < k + fuel ∧ k ≤ m ∧ level t root m = [])%nat →
  ∀ row, row ∈ tree_rows fuel t (level t root k) ↔
         ∃ m, (k ≤ m < k + fuel)%nat ∧ row ∈ level t root m.
Proof.
  assert (Hnil : ∀ j m, level t root j = [] → (j ≤ m)%nat → level t root m = []).
  { intros j m Hj. induction 1 as [|m _ IH]; [done|]. simpl. by rewrite IH. }
  revert k. induction fuel as [|fuel IH]; intros k (m & Hm & Hkm & He) row; [lia|].
  simpl. destruct (level t root k) as [|w ws] eqn:Ek.
  - split; [by intros ?%not_elem_of_nil|]. intros (j & Hj & Hin).
    rewrite (Hnil k j) in Hin by (done || lia). by apply not_elem_of_nil in Hin.
  - assert (m ≠ k) by congruence. rewrite <- Ek. rewrite elem_of_app.
    change (level t root k ≫= tree_children t) with (level t root (S k)).
    rewrite IH by (exists m; split_and!; [lia..|done]). split.
    + intros [Hin|(j & Hj & Hin)]; [exists k | exists j]; (split; [lia | done]).
    + intros (j & Hj & Hin). destruct (decide (j = k)) as [->|]; [by left|].
      right. exists j. split; [lia | done].
Qed.

Section load.
Context (t : tx) (sb : string) (root : Z).
Context (Hwf : wf_db (t_db t)) (Hctx : t_sandbox t = Some sb).
Context (Hroot : root_of (t_db t) sb = Some root).

Abbreviation D := (dirents (t_db t)).

(** In the context of [sb], every row of its tree is visible. *)
Lemma load_sel_inode cs id :
  walk D root cs = Some id → ∃ r, inodes (t_db t) !! id = Some r ∧ sel_inode t id = Some r.
Proof.
  intros Hw. destruct (walk_inode (t_db t) Hwf sb root cs id) as (r & Hr & Hs); [done..|].
  exists r. split; [done|]. unfold sel_inode. by rewrite Hr, Hs, visible_self.
Qed.

Lemma row_path_of cs n : valid_comps cs → row_path (path_of cs) n = path_of (cs ++ [n]).
Proof.
  intros Hv. rewrite path_of_snoc. unfold row_path. destruct (decide (cs = [])) as [->|Hne]; [done|].
  rewrite decide_False; [done|]. intros ?%path_of_root; done.
Qed.

Lemma tree_children_spec cs id row :
  walk D root cs = Some id →
  row ∈ tree_children t (id, path_of cs) ↔
  ∃ n de, D !! (id, n) = Some de ∧ row = (d_inodeId de, path_of (cs ++ [n])).
Proof.
  intros Hw. pose proof (walk_valid _ Hwf _ _ _ _ Hroot Hw) as Hv. unfold tree_children.
  rewrite list_elem_of_omap. split.
  - intros ([[p n] de] & Hin%elem_of_map_to_list & Hf). simpl in Hf. case_decide as Hp; [subst p | done].
    destruct (visible t (d_sandboxId de)); [|done]. destruct (sel_inode t (d_inodeId de)); [|done].
    injection Hf as <-. exists n, de. by rewrite row_path_of.
  - intros (n & de & Hde & ->). exists ((id, n), de). split; [by apply elem_of_map_to_list|]. simpl.
    rewrite decide_True by done.
    assert (Hc : walk D root (cs ++ [n]) = Some (d_inodeId de)) by (rewrite walk_snoc, Hw; simpl; by rewrite Hde).
    destruct (load_sel_inode _ _ Hc) as (r & Hr & ->).
    destruct (walk_inode _ Hwf sb root cs id Hroot Hw) as (pr & Hpr & Hps).
    destruct (wf_parent _ Hwf _ _ _ Hde) as (pr' & Hpr' & _ & Hps').
    assert (d_sandboxId de = sb) as -> by congruence.
    rewrite visible_self by done. by rewrite row_path_of.
Qed.

(** Level [k] is the nodes at depth [k], each once. *)
Lemma level_spec k row :
  row ∈ level t root k ↔
  ∃ cs, length cs = k ∧ walk D root cs = Some row.1 ∧ row.2 = path_of cs.
Proof.
  revert row. induction k as [|k IH]; intros [id p]; simpl.
  - rewrite list_elem_of_singleton. split.
    + intros [= -> ->]. by exists [].
    + intros (cs & Hl%nil_length_inv & Hw & ->). subst cs. by injection Hw as ->.
  - rewrite list_elem_of_bind. split.
    + intros ([pid pp] & Hrow & (cs & <- & Hw & Hp)%IH). simpl in *. subst pp.
      apply (tree_children_spec cs pid) in Hrow as (n & de & Hde & [= -> ->]); [|done].
      exists (cs ++ [n]). rewrite length_app, walk_snoc, Hw. simpl. rewrite Hde. split; [lia | done].
    + intros (cs & Hl & Hw & ->). destruct cs as [|n cs _] using rev_ind; [done|].
      rewrite length_app in Hl. simpl in Hl. rewrite walk_snoc in Hw.
      destruct (walk D root cs) as [pid|] eqn:Ep; [|done]. simpl in Hw.
      destruct (D !! (pid, n)) as [de|] eqn:Ede; [|done]. injection Hw as <-.
      exists (pid, path_of cs). split.
      * apply (tree_children_spec cs pid); [done|]. by exists n, de.
      * apply IH. exists cs. split; [lia | done].
Qed.

Lemma level_path_inj k1 k2 r1 r2 :
  r1 ∈ level t root k1 → r2 ∈ level t root k2 → r1.2 = r2.2 → r1 = r2 ∧ k1 = k2.
Proof.
  intros (c1 & <- & Hw1 & Hp1)%level_spec (c2 & <- & Hw2 & Hp2)%level_spec Heq.
  assert (c1 = c2) as <-.
  { apply path_of_inj; [by eapply walk_valid | by eapply walk_valid | congruence]. }
  destruct r1, r2; simpl in *. split; congruence.
Qed.

Lemma tree_children_NoDup row k : row ∈ level t root k → NoDup (tree_children t row).
Proof.
  intros (cs & Hl & Hw & Hp)%level_spec. destruct row as [id p]. simpl in *. subst p.
  pose proof (walk_valid _ Hwf _ _ _ _ Hroot Hw) as Hv.
  unfold tree_children. rewrite <- (list_fmap_id (omap _ _)). apply NoDup_omap_key; [|apply NoDup_map_to_list].
  intros [[p1 n1] d1] [[p2 n2] d2] y1 y2 H1%elem_of_map_to_list H2%elem_of_map_to_list. simpl.
  case_decide; [|done]. case_decide; [|done]. subst p1 p2.
  destruct (visible t (d_sandboxId d1)), (visible t (d_sandboxId d2)); [|done..].
  destruct (sel_inode t (d_inodeId d1)), (sel_inode t (d_inodeId d2)); [|done..].
  intros [= <-] [= <-] [= Hid Hpath]. rewrite !row_path_of in Hpath by done.
  apply path_of_inj in Hpath.
  - apply app_inj_tail in Hpath as [_ ->]. congruence.
  - apply valid_comps_snoc. split; [done | by eapply (wf_name _ Hwf)].
  - apply valid_comps_snoc. split; [done | by eapply (wf_name _ Hwf)].
Qed.

Lemma level_NoDup k : NoDup (level t root k).
Proof.
  induction k as [|k IH]; simpl; [apply NoDup_singleton|]. apply NoDup_bind; [| |done].
  - intros [i1 p1] [i2 p2] y H1 H2 Hy1 Hy2.
    pose proof H1 as (c1 & Hl1 & Hw1 & Hp1)%level_spec. pose proof H2 as (c2 & Hl2 & Hw2 & Hp2)%level_spec.
    simpl in *. subst p1 p2.
    apply (tree_children_spec c1 i1) in Hy1 as (n1 & d1 & Hd1 & ->); [|done].
    apply (tree_children_spec c2 i2) in Hy2 as (n2 & d2 & Hd2 & Hp); [|done].
    apply (f_equal snd) in Hp. cbn [snd] in Hp. apply path_of_inj in Hp.
    + apply app_inj_tail in Hp as [-> _]. congruence.
    + apply valid_comps_snoc. split; [by eapply walk_valid | by eapply (wf_name _ Hwf)].
    + apply valid_comps_snoc. split; [by eapply walk_valid | by eapply (wf_name _ Hwf)].
  - intros row. apply tree_children_NoDup.
Qed.

(** The proper prefixes of a path lead to distinct inodes. *)
Lemma walk_depth cs id : walk D root cs = Some id → (length cs ≤ size (inodes (t_db t)))%nat.
Proof.
  intros Hw. set (f := λ k, default 0 (walk D root (take k cs))).
  assert (Hf : ∀ k, (k < length cs)%nat → ∃ r, walk D root (take k cs) = Some (f k) ∧
                     inodes (t_db t) !! f k = Some r ∧ i_kind r = DIRECTORY).
  { intros k Hk. destruct (lookup_lt_is_Some_2 cs k Hk) as [n Hn].
    rewrite <- (take_drop_middle cs k n Hn), walk_app in Hw. unfold f.
    destruct (walk D root (take k cs)) as [x|] eqn:Ex; [|done]. simpl in Hw |- *.
    destruct (D !! (x, n)) as [de|] eqn:Ede; [|done].
    destruct (wf_parent _ Hwf _ _ _ Ede) as (r & Hr & Hk' & _). by exists r. }
  assert (Hnd : NoDup (f <$> seq 0 (length cs))).
  { apply NoDup_fmap_2_strong; [|apply NoDup_seq].
    intros i j Hi%elem_of_seq Hj%elem_of_seq Heq.
    destruct (Hf i) as (r & Hwi & Hr & Hk); [lia|]. destruct (Hf j) as (r' & Hwj & _); [lia|].
    rewrite Heq in Hwi, Hr.
    pose proof (walk_dir_unique _ Hwf _ _ _ _ _ _ Hroot Hwi Hwj Hr Hk) as Hpre.
    apply (f_equal length) in Hpre. rewrite !length_take in Hpre. lia. }
  rewrite <- (size_dom (D := gset Z)). 
  assert (Hsub : list_to_set (f <$> seq 0 (length cs)) ⊆ dom (inodes (t_db t))).
  { intros x (k & -> & Hk%elem_of_seq)%elem_of_list_to_set%list_elem_of_fmap.
    destruct (Hf k) as (r & _ & Hr & _); [lia|]. by apply elem_of_dom_2 in Hr. }
  apply subseteq_size in Hsub. rewrite size_list_to_set in Hsub by done.
  by rewrite length_fmap, length_seq in Hsub.
Qed.
End load.

Section rows.
Context (t : tx) (sb : string) (root : Z).
Context (Hwf : wf_db (t_db t)) (Hctx : t_sandbox t = Some sb).
Context (Hroot : root_of (t_db t) sb = Some root).

Lemma level_last : ∃ m, (m < tree_fuel (t_db t))%nat ∧ level t root m = [].
Proof.
  exists (S (size (inodes (t_db t)))). split; [unfold tree_fuel; lia|].
  destruct (level t root _) as [|row l] eqn:E; [done|].
  assert (Hin : row ∈ level t root (S (size (inodes (t_db t))))) by (rewrite E; apply list_elem_of_here).
  apply (level_spec t sb root Hwf Hctx Hroot) in Hin as (cs & Hl & Hw & _).
  pose proof (walk_depth t sb root Hwf Hroot cs _ Hw). lia.
Qed.

Lemma tree_rows_spec id p :
  (id, p) ∈ tree_rows (tree_fuel (t_db t)) t [(root, "/")] ↔
  ∃ cs, walk (dirents (t_db t)) root cs = Some id ∧ p = path_of cs.
Proof.
  destruct level_last as (m & Hm & He).
  change [(root, "/")] with (level t root 0). rewrite (tree_rows_levels t root 0 _) by (exists m; split_and!; [lia..|done]).
  split.
  - intros (k & _ & (cs & _ & Hw & Hp)%(level_spec t sb root Hwf Hctx Hroot)). by exists cs.
  - intros (cs & Hw & ->). exists (length cs). split.
    + pose proof (walk_depth t sb root Hwf Hroot cs _ Hw). unfold tree_fuel. lia.
    + apply (level_spec t sb root Hwf Hctx Hroot). by exists cs.
Qed.

Lemma tree_rows_NoDup k fuel : NoDup (tree_rows fuel t (level t root k)).
Proof.
  assert (Hsub : ∀ fuel k row, row ∈ tree_rows fuel t (level t root k) →
            ∃ m, (k ≤ m)%nat ∧ row ∈ level t root m).
  { clear k fuel. intros fuel. induction fuel as [|fuel IH]; intros k row; simpl; [by intros ?%not_elem_of_nil|].
    destruct (level t root k) as [|w ws] eqn:E; [by intros ?%not_elem_of_nil|]. rewrite <- E.
    intros [Hin|Hin]%elem_of_app; [by exists k|].
    destruct (IH (S k) row Hin) as (m & Hm & ?). exists m. split; [lia | done]. }
  revert k. induction fuel as [|fuel IH]; intros k; simpl; [constructor|].
  destruct (level t root k) as [|w ws] eqn:E; [constructor|]. rewrite <- E.
  apply NoDup_app. split_and!; [by eapply level_NoDup| |apply (IH (S k))].
  intros row H1 H2. destruct (Hsub fuel (S k) row H2) as (m & Hm & H3).
  destruct (level_path_inj t sb root Hwf Hctx Hroot _ _ _ _ H1 H3); [done | lia].
Qed.

(** The rows of [loadAllPaths] are the nodes of the tree. *)
Lemma load_rows :
  ∃ rows, loadAllPaths t = (Ok rows, t) ∧ jwf rows ∧
    ∀ p en, (p, en) ∈ rows ↔
      ∃ cs id r, walk (dirents (t_db t)) root cs = Some id ∧ inodes (t_db t) !! id = Some r ∧
                 p = path_of cs ∧ en = entry_of id r.
Proof.
  unfold loadAllPaths, liftS. rewrite Hctx.
  destruct (proj1 (root_of_Some _ _ _) Hroot) as (s & Hs & Hsr).
  unfold sel_sandbox. rewrite Hs, visible_self by done.
  change (Some s ≫= s_root) with (s_root s). rewrite Hsr.
  destruct (load_sel_inode t sb root Hwf Hctx Hroot [] root eq_refl) as (rr & _ & ->).
  eexists. split; [done|]. split.
  - apply NoDup_omap_key; [|apply (tree_rows_NoDup 0)].
    intros [i1 p1] [i2 p2] y1 y2 (c1 & Hw1 & ->)%tree_rows_spec (c2 & Hw2 & ->)%tree_rows_spec. cbn [fst snd].
    destruct (sel_inode t i1); [|done]. destruct (sel_inode t i2); [|done].
    simpl. intros [= <-] [= <-] Hp. cbn [fst] in Hp.
    apply path_of_inj in Hp; [congruence | by eapply walk_valid | by eapply walk_valid].
  - intros p en. rewrite list_elem_of_omap. split.
    + intros ([id q] & (cs & Hw & ->)%tree_rows_spec & Hf). cbn [fst snd] in Hf.
      destruct (load_sel_inode t sb root Hwf Hctx Hroot _ _ Hw) as (r & Hr & Hsel).
      rewrite Hsel in Hf. simpl in Hf. injection Hf as <- <-. by exists cs, id, r.
    + intros (cs & id & r & Hw & Hr & -> & ->). exists (id, path_of cs). split.
      * apply tree_rows_spec. by exists cs.
      * destruct (load_sel_inode t sb root Hwf Hctx Hroot _ _ Hw) as (r' & Hr' & Hsel). cbn [fst snd].
        rewrite Hsel. simpl. congruence.
Qed.
End rows.

(** C31: in the context of a sandbox, [loadAllPaths] returns one row per node of
    the sandbox's tree and no other row: the pair (path, entry) is returned
    exactly when the path names a chain of directory entries from the root to an
    inode, and the entry carries that inode's columns. The recursion never runs
    out of rounds. *)
Theorem loadAllPaths_exact t sb root :
  wf_db (t_db t) → t_sandbox t = Some sb → root_of (t_db t) sb = Some root →
  ∃ rows, loadAllPaths t = (Ok rows, t) ∧ NoDup rows.*1 ∧
    ∀ p en, (p, en) ∈ rows ↔
      ∃ cs id r, walk (dirents (t_db t)) root cs = Some id ∧ inodes (t_db t) !! id = Some r ∧
                 p = path_of cs ∧ en = entry_of id r.
Proof. apply load_rows. Qed.

Lemma loadAllPaths_exact_witness :
  ∃ rows, loadAllPaths (mkTx demo_db (Some "s") None) = (Ok rows, mkTx demo_db (Some "s") None) ∧
    ("/home/user", mkEntry 5 DIRECTORY 493 0 0 None None) ∈ rows.
Proof.
  destruct (loadAllPaths_exact (mkTx demo_db (Some "s") None) "s" 1) as (rows & H & _ & Hiff);
    [exact wf_demo_db | reflexivity | vm_compute; reflexivity |].
  exists rows. split; [exact H|]. apply Hiff.
  exists ["home"; "user"], 5, (new_inode "s" DIRECTORY 493 0 0 None None).
  split_and!; vm_compute; reflexivity.
Defined.
