(* ===== verification/Composites.v ===== *)
(** The composite statements and their fallbacks
    (src/src/sql-fs/dialects/postgres/namespace.ts, and the two branches of the
    namespace operations in src/src/sql-fs/state/namespace).

    Each namespace operation runs one composite statement when the dialect has
    it and a sequence of single-row statements otherwise. On a well-formed
    database the two do the same. *)

From S2P Require Import Prelude Errors Paths Store Tree Dialect Lifecycle.

(** The statement-by-statement branches, as the operations write them. *)
Definition mkdir_fallback (sb : string) (p : Z) (n : string) (mode : Z) (e : option Z) : txM Z :=
  let* id := createInode (mkCreate sb DIRECTORY mode 0 None None) e in
  insertDirent p n id ;;;
  retM id.

Definition rm_fallback (sb : string) (p : Z) (n : string) (e : option Z) : txM unit :=
  let* removed := deleteDirent p n sb e in
  unlink_row removed.

Definition replace_fallback (opts : CreateInodeOpts) (p : Z) (n : string) (e : option Z) : txM Z :=
  let* id := createInode opts e in
  let* old := upsertDirent p n id in
  match old with Some o => unlink_row o | None => retM tt end ;;;
  retM id.

Definition mv_fallback (sb : string) (p1 : Z) (n1 : string) (p2 : Z) (n2 : string)
    (destId : option Z) (e : option Z) : txM unit :=
  moveDirent p1 n1 p2 n2 sb e ;;;
  match destId with Some id => unlink_row id | None => retM tt end.

(** The transaction an operation runs in, on the example database. *)
Definition demo_tx : tx := mkTx demo_db (Some "s") (Some 0).

Lemma demo_in_tx : in_tx demo_tx "s" 0.
Proof.
  split; [done|]. exists (set_root (Some 1) (mkSandbox None (Some "alice") None false false false 0 0)).
  unfold demo_tx. simpl. rewrite demo_db_seeded. done.
Qed.

Lemma demo_dir id n : inodes demo_db !! id = Some (new_inode "s" DIRECTORY 493 0 n None None) → is_dir demo_db "s" id.
Proof. intros H. by eexists. Qed.

(** [mkdirComposite] and the createInode/insertDirent pair, both run in a
    transaction that holds the sandbox at the expected epoch, create the same
    directory: same id, same database, same transaction state. *)
Theorem mkdir_composite_fallback t sb e p n mode :
  in_tx t sb e → wf_db (t_db t) → is_dir (t_db t) sb p → dirents (t_db t) !! (p, n) = None →
  mkdirComposite sb p n mode (Some e) t = mkdir_fallback sb p n mode (Some e) t ∧
  (mkdirComposite sb p n mode (Some e) t).1 = Ok (next_id (t_db t)).
Proof.
  intros Hin Hwf Hd Hf. unfold mkdir_fallback.
  rewrite (mkdirComposite_spec t sb e Hin), (createInode_insertDirent_spec t sb e Hin Hwf) by done. done.
Qed.

Lemma mkdir_composite_fallback_witness :
  mkdirComposite "s" 1 "src" 493 (Some 0) demo_tx = mkdir_fallback "s" 1 "src" 493 (Some 0) demo_tx ∧
  (mkdirComposite "s" 1 "src" 493 (Some 0) demo_tx).1 = Ok (next_id (t_db demo_tx)).
Proof.
  apply (mkdir_composite_fallback demo_tx "s" 0 1 "src" 493);
    [exact demo_in_tx | exact wf_demo_db | apply (demo_dir 1 0); vm_compute; reflexivity | vm_compute; reflexivity].
Defined.

(** [rmComposite] and the deleteDirent/decrementNlink/deleteInode sequence
    remove the same entry, and the inode with it exactly when this was its last
    link. *)
Theorem rm_composite_fallback t sb e p n de :
  in_tx t sb e → wf_db (t_db t) → dirents (t_db t) !! (p, n) = Some de → d_sandboxId de = sb →
  childless (t_db t) (d_inodeId de) →
  (rmComposite sb p n (Some e) t).2 = (rm_fallback sb p n (Some e) t).2 ∧
  (rmComposite sb p n (Some e) t).1 = Ok (d_inodeId de) ∧ (rm_fallback sb p n (Some e) t).1 = Ok tt ∧
  t_db (rmComposite sb p n (Some e) t).2 = remove_entry (p, n) (t_db (bump sb t)).
Proof.
  intros Hin Hwf Hk Hs Hc. unfold rm_fallback.
  rewrite (rmComposite_spec t sb e Hin Hwf p n de), (rm_fallback_spec t sb e Hin Hwf p n de) by done. done.
Qed.

Lemma rm_composite_fallback_witness :
  (rmComposite "s" 1 "tmp" (Some 0) demo_tx).2 = (rm_fallback "s" 1 "tmp" (Some 0) demo_tx).2 ∧
  (rmComposite "s" 1 "tmp" (Some 0) demo_tx).1 = Ok 3 ∧ (rm_fallback "s" 1 "tmp" (Some 0) demo_tx).1 = Ok tt ∧
  t_db (rmComposite "s" 1 "tmp" (Some 0) demo_tx).2 = remove_entry (1, "tmp") (t_db (bump "s" demo_tx)).
Proof.
  apply (rm_composite_fallback demo_tx "s" 0 1 "tmp" (mkDirent 3 "s"));
    [exact demo_in_tx | exact wf_demo_db | vm_compute; reflexivity | reflexivity |].
  intros m. unfold demo_tx. simpl t_db. rewrite demo_db_seeded. simpl.
  rewrite !lookup_insert_ne by (intros [=]; lia). reflexivity.
Defined.

(** [writeFileComposite] and the createInode/upsertDirent/unlink sequence
    put the same file in place, over nothing, a file, a symlink or an empty
    directory. *)
Theorem write_composite_fallback t sb e p n mode size sha :
  in_tx t sb e → wf_db (t_db t) → is_dir (t_db t) sb p → replaceable (t_db t) sb p n →
  writeFileComposite sb p n mode size sha (Some e) t
  = replace_fallback (mkCreate sb FILE mode size (Some sha) None) p n (Some e) t ∧
  (writeFileComposite sb p n mode size sha (Some e) t).1 = Ok (next_id (t_db t)).
Proof.
  intros Hin Hwf Hd Hr. unfold replace_fallback.
  rewrite (writeFileComposite_spec t sb e Hin Hwf), (replace_fallback_spec t sb e Hin Hwf) by done. done.
Qed.

Lemma write_composite_fallback_witness :
  writeFileComposite "s" 1 "f" 420 3 "h" (Some 0) demo_tx
  = replace_fallback (mkCreate "s" FILE 420 3 (Some "h") None) 1 "f" (Some 0) demo_tx ∧
  (writeFileComposite "s" 1 "f" 420 3 "h" (Some 0) demo_tx).1 = Ok (next_id (t_db demo_tx)).
Proof.
  apply (write_composite_fallback demo_tx "s" 0 1 "f" 420 3 "h");
    [exact demo_in_tx | exact wf_demo_db | apply (demo_dir 1 0); vm_compute; reflexivity |].
  intros de Hde. vm_compute in Hde. discriminate.
Defined.

(** [mvComposite] (two fenced statements) and the moveDirent/unlink sequence
    (one fenced statement) leave the same tables; the composite has moved the
    version once more. *)
Theorem mv_composite_fallback t sb e p1 n1 p2 n2 de :
  in_tx t sb e → wf_db (t_db t) → dirents (t_db t) !! (p1, n1) = Some de → d_sandboxId de = sb →
  is_dir (t_db t) sb p2 → (p1, n1) ≠ (p2, n2) → replaceable (t_db t) sb p2 n2 →
  ∃ t', mv_fallback sb p1 n1 p2 n2 (d_inodeId <$> dirents (t_db t) !! (p2, n2)) (Some e) t = (Ok tt, t') ∧
        mvComposite sb p1 n1 p2 n2 (Some e) t = (Ok tt, bump sb t') ∧
        inodes (t_db (bump sb t')) = inodes (t_db t') ∧ dirents (t_db (bump sb t')) = dirents (t_db t').
Proof.
  intros Hin Hwf Hk Hs Hd Hne Hr. unfold mv_fallback. eexists.
  split; [by apply (mv_fallback_spec t sb e Hin Hwf p1 p2 n1 n2 de)|].
  split; [|by autorewrite with bump].
  rewrite (mvComposite_spec t sb e Hin Hwf p1 p2 n1 n2 de) by done. by rewrite bump_rename.
Qed.

Lemma mv_composite_fallback_witness :
  ∃ t', mv_fallback "s" 1 "tmp" 1 "bin" (Some 4) (Some 0) demo_tx = (Ok tt, t') ∧
        mvComposite "s" 1 "tmp" 1 "bin" (Some 0) demo_tx = (Ok tt, bump "s" t').
Proof.
  destruct (mv_composite_fallback demo_tx "s" 0 1 "tmp" 1 "bin" (mkDirent 3 "s")) as (t' & H1 & H2 & _).
  - exact demo_in_tx.
  - exact wf_demo_db.
  - vm_compute. reflexivity.
  - reflexivity.
  - apply (demo_dir 1 0). vm_compute. reflexivity.
  - discriminate.
  - intros de Hde. unfold demo_tx in *. simpl t_db in *. rewrite demo_db_seeded in *. vm_compute in Hde.
    injection Hde as <-. split; [reflexivity|]. intros m. simpl.
    rewrite !lookup_insert_ne by (intros [=]; lia). reflexivity.
  - exists t'. split; [exact H1 | exact H2].
Defined.
