(* ===== verification/View.v ===== *)
(** The coherent view (src/src/sql-fs/state/coherent-view.ts and
    src/src/sql-fs/state/file-contents.ts).

    A session keeps the sandbox's whole tree in memory: a map from absolute path
    to entry, the epoch of the database it was loaded at, a running estimate of
    its size in bytes, and a content cache keyed by inode id. This file models
    that state and every operation on it that does not touch the database:
    lookups, subtree and child listings, symlink resolution inside the cache,
    and the publication of a mutation or of a committed script scope.

    The content cache is an [lru-cache] object. Its eviction policy is not part
    of the repository: [Lru] gives the [set] operation, [LruLaws] what is relied
    on (what is found after a [set] is what was set or what was there before). *)

From S2P Require Import Prelude Errors Paths Store.

(** ** The content cache (file-contents.ts) *)

Class Lru := lru_set : Z → string → list (Z * string) → list (Z * string).

Class LruLaws `{Lru} := {
  lru_set_get k v c k' b :
    jget k' (lru_set k v c) = Some b → (k' = k ∧ b = v) ∨ (k' ≠ k ∧ jget k' c = Some b);
  lru_set_wf k v c : jwf c → jwf (lru_set k v c)
}.

(** A cache that never evicts. *)
Definition lru_unbounded : Lru := λ k v c, jset k v c.

Lemma lru_unbounded_laws : @LruLaws lru_unbounded.
Proof.
  split; unfold lru_set, lru_unbounded; intros; [|by apply jset_wf].
  rewrite jget_jset in H. case_decide; naive_solver.
Qed.

Record FileContents := mkContents {
  contentGeneration : Z;
  contentCache : list (Z * string)
}.

Section contents.
Context `{Lru}.

Definition evict (id : Z) (c : FileContents) : FileContents :=
  mkContents (contentGeneration c) (jdel id (contentCache c)).

Definition put (id : Z) (bytes : string) (c : FileContents) : FileContents :=
  mkContents (contentGeneration c) (lru_set id bytes (contentCache c)).

(** A new view drops every cached byte. *)
Definition installView (c : FileContents) : FileContents :=
  mkContents (contentGeneration c + 1) [].

Definition remap_one (c : FileContents) (pr : Z * Z) : FileContents :=
  let '(provisional, real) := pr in
  let bytes := jget provisional (contentCache c) in
  let c' := evict provisional c in
  match bytes with Some b => put real b c' | None => c' end.

Definition remap (ids : list (Z * Z)) (c : FileContents) : FileContents := fold_left remap_one ids c.
End contents.

(** ** The view *)

Record View := mkView {
  v_epoch : Z;
  v_entries : list (string * PathCacheEntry);
  v_dirty : bool;
  v_poisoned : bool;
  v_bytes : Z;
  v_contents : FileContents
}.

Definition initial_view : View := mkView 0 [] false false 0 (mkContents 0 []).

Definition view_get (path : string) (v : View) : option PathCacheEntry := jget path (v_entries v).
Definition view_has (path : string) (v : View) : bool := jhas path (v_entries v).
Definition view_paths (v : View) : list string := jkeys (v_entries v).

Definition childPaths (dirPath : string) (v : View) : list string :=
  let prefix := dir_prefix dirPath in
  List.filter (λ key,
    negb (bool_decide (key = dirPath)) && starts_with key prefix
    && negb (str_includes slash (slice_from key (str_len prefix)))) (view_paths v).

Definition pathsUnder (dirPath : string) (v : View) : list string :=
  dirPath :: List.filter (λ key,
    negb (bool_decide (key = dirPath)) && starts_with key (dir_prefix dirPath)) (view_paths v).

(** What an entry is charged for. *)
Definition target_len (e : PathCacheEntry) : Z :=
  match symlinkTarget e with Some t => str_len t | None => 0 end.

Definition set_entries (es : list (string * PathCacheEntry)) (bytes : Z) (v : View) : View :=
  mkView (v_epoch v) es (v_dirty v) (v_poisoned v) bytes (v_contents v).
Definition set_epoch (e : Z) (v : View) : View :=
  mkView e (v_entries v) (v_dirty v) (v_poisoned v) (v_bytes v) (v_contents v).
Definition set_dirty (b : bool) (v : View) : View :=
  mkView (v_epoch v) (v_entries v) b (v_poisoned v) (v_bytes v) (v_contents v).
Definition set_poisoned (b : bool) (v : View) : View :=
  mkView (v_epoch v) (v_entries v) (v_dirty v) b (v_bytes v) (v_contents v).
Definition set_contents (c : FileContents) (v : View) : View :=
  mkView (v_epoch v) (v_entries v) (v_dirty v) (v_poisoned v) (v_bytes v) c.

Definition cacheSet (key : string) (entry : PathCacheEntry) (v : View) : View :=
  let b1 := v_bytes v + match view_get key v with
                        | None => str_len key + 100
                        | Some prior => - target_len prior * 2
                        end in
  let b2 := b1 + target_len entry * 2 in
  set_entries (jset key entry (v_entries v)) b2 v.

Definition cacheDelete (key : string) (v : View) : View :=
  match view_get key v with
  | Some prior =>
      set_entries (jdel key (v_entries v)) (v_bytes v - (str_len key + 100 + target_len prior * 2)) v
  | None => v
  end.

(** [Partial<Omit<PathCacheEntry, "inodeId">>] *)
Record Patch := mkPatch {
  pt_kind : option InodeKind;
  pt_mode : option Z;
  pt_size : option Z;
  pt_mtime : option Z;
  pt_contentSha256 : option (option string);
  pt_symlinkTarget : option (option string)
}.

(** [{ ...e, ...patch }] *)
Definition apply_patch (pt : Patch) (e : PathCacheEntry) : PathCacheEntry :=
  mkEntry (inodeId e) (default (kind e) (pt_kind pt)) (default (mode e) (pt_mode pt))
    (default (e_size e) (pt_size pt)) (default (mtime e) (pt_mtime pt))
    (default (contentSha256 e) (pt_contentSha256 pt)) (default (symlinkTarget e) (pt_symlinkTarget pt)).

Definition with_inode (id : Z) (e : PathCacheEntry) : PathCacheEntry :=
  mkEntry id (kind e) (mode e) (e_size e) (mtime e) (contentSha256 e) (symlinkTarget e).

Definition with_mtime (t : Z) (e : PathCacheEntry) : PathCacheEntry :=
  mkEntry (inodeId e) (kind e) (mode e) (e_size e) t (contentSha256 e) (symlinkTarget e).

(** [for (const [p, e] of pathCache) { ...; cacheSet(p, e') }]: the loop visits
    every key once, with the entry it had. *)
Definition rewriteEntries (f : PathCacheEntry → option PathCacheEntry) (v : View) : View :=
  fold_left (λ v pe, match f pe.2 with Some e' => cacheSet pe.1 e' v | None => v end) (v_entries v) v.

Definition updateCacheByInode (id : Z) (pt : Patch) (v : View) : View :=
  rewriteEntries (λ e, if decide (inodeId e = id) then Some (apply_patch pt e) else None) v.

(** ** Publishing *)

Inductive PathChange : Type :=
| ChSet (path : string) (entry : PathCacheEntry)
| ChDelete (path : string)
| ChPatchInode (id : Z) (pt : Patch).

Inductive ContentChange : Type :=
| CoEvict (id : Z)
| CoPut (id : Z) (bytes : string).

Inductive Publication : Type :=
| Recorded
| Committed (epoch : Z).

Definition apply_change (v : View) (c : PathChange) : View :=
  match c with
  | ChSet path entry => cacheSet path entry v
  | ChDelete path => cacheDelete path v
  | ChPatchInode id pt => updateCacheByInode id pt v
  end.

Section publish.
Context `{Lru}.

Definition apply_content (v : View) (c : ContentChange) : View :=
  set_contents (match c with
                | CoEvict id => evict id (v_contents v)
                | CoPut id bytes => put id bytes (v_contents v)
                end) v.

Definition publishMutation (publication : Publication) (paths : list PathChange)
    (contents : list ContentChange) (complete : bool) (v : View) : View :=
  let v1 := fold_left apply_change paths v in
  let v2 := fold_left apply_content contents v1 in
  let v3 := match publication with Committed e => set_epoch e v2 | Recorded => v2 end in
  if complete then set_dirty true v3 else v3.

(** The rebinding loop of [publishScope]. *)
Definition rebind (ids : list (Z * Z)) (v : View) : View :=
  rewriteEntries (λ e, match jget (inodeId e) ids with
                       | Some real => Some (with_inode real e)
                       | None => None
                       end) v.

Definition unbound (v : View) : list string :=
  (List.filter (λ pe, bool_decide (inodeId pe.2 < 0)) (v_entries v)).*1.

Definition publishScope (epoch : Z) (inodeRemap : option (list (Z * Z))) : M View fs_error unit := λ v,
  match inodeRemap with
  | Some ids =>
      let v1 := rebind ids v in
      let v2 := set_contents (remap ids (v_contents v1)) v1 in
      if decide (unbound v2 = []) then (Ok tt, set_epoch epoch v2)
      else (Err (ECOHERENCE "script-tx flush left paths on provisional inode ids"), v2)
  | None => (Ok tt, set_epoch epoch v)
  end.
End publish.

Definition publishGeneration (certificate : SandboxGeneration) (v : View) : bool * View :=
  if negb (v_poisoned v) && bool_decide (priorEpoch certificate = v_epoch v) then
    (true, set_epoch (g_epoch certificate) v)
  else (false, v).

(** The part of [loadCommittedView] that installs the rows it loaded. *)
Definition entries_bytes (es : list (string * PathCacheEntry)) : Z :=
  fold_right (λ pe n, n + (str_len pe.1 + 100 + target_len pe.2 * 2)) 0 es.

Definition install (epoch : Z) (es : list (string * PathCacheEntry)) (v : View) : View :=
  mkView epoch es false false (entries_bytes es) (installView (v_contents v)).

(** ** Lookups that may fail *)

Definition requireParent (path : string) (v : View) : res fs_error (string * string * PathCacheEntry) :=
  let parentPath := parentOf path in
  let name := nameOf path in
  match view_get parentPath v with
  | None => Err (ENOENT parentPath)
  | Some parentEntry =>
      if decide (kind parentEntry = DIRECTORY) then Ok (parentPath, name, parentEntry)
      else Err (ENOTDIR parentPath)
  end.

(** ** Symlink resolution in the cache *)

Inductive WalkResult : Type :=
| WDone (path : string) (entry : option PathCacheEntry)
| WFail (e : fs_error)
| WLink (current : string) (link : option string) (rest : list string).

(** The loop over the components of one target, up to the first symlink. *)
Fixpoint walk_parts (v : View) (path current : string) (entry : PathCacheEntry)
    (parts : list string) : WalkResult :=
  match parts with
  | [] => WDone current (Some entry)
  | part :: rest =>
      if decide (kind entry = DIRECTORY) then
        let candidate := if decide (current = "/") then "/" +:+ part else current +:+ "/" +:+ part in
        match view_get candidate v with
        | None => WFail (ENOENT path)
        | Some next =>
            if decide (kind next = SYMLINK) then WLink current (symlinkTarget next) rest
            else walk_parts v path candidate next rest
        end
      else WFail (ENOTDIR current)
  end.

(** [walk]: [hops] symlinks may still be followed. *)
Fixpoint resolve_walk (hops : nat) (v : View) (path target : string)
    : res fs_error (string * option PathCacheEntry) :=
  if decide (target = DEV_NULL) then Ok (target, None)
  else if starts_with target (DEV_NULL +:+ "/") then Err (ENOTDIR DEV_NULL)
  else match view_get "/" v with
  | None => Err (ENOENT path)
  | Some root =>
      let parts := List.filter (λ p, negb (bool_decide (p = EmptyString))) (split_slash target) in
      match walk_parts v path "/" root parts with
      | WDone p en => Ok (p, en)
      | WFail e => Err e
      | WLink current link rest =>
          match hops with
          | O => Err (ELOOP path)
          | S hops' =>
              match link with
              | None => Err (ENOENT path)
              | Some l =>
                  let resolved := resolvePath current l in
                  let suffix := join_slash rest in
                  resolve_walk hops' v path
                    (if decide (suffix = EmptyString) then resolved else resolvePath resolved suffix)
              end
          end
      end
  end.

Definition resolveCached (path : string) (v : View) : res fs_error (string * option PathCacheEntry) :=
  resolve_walk 40 v path path.

(** ** What the operations do to a lookup *)

(** One entry per path, and the size estimate is exact. *)
Definition view_ok (v : View) : Prop :=
  jwf (v_entries v) ∧ v_bytes v = entries_bytes (v_entries v).

Lemma entries_bytes_cons k e es :
  entries_bytes ((k, e) :: es) = entries_bytes es + (str_len k + 100 + target_len e * 2).
Proof. done. Qed.

Lemma entries_bytes_jset k e es :
  entries_bytes (jset k e es) =
  entries_bytes es + match jget k es with
                     | None => str_len k + 100
                     | Some prior => - target_len prior * 2
                     end + target_len e * 2.
Proof.
  induction es as [|[k' e'] es IH]; [unfold entries_bytes; simpl; lia|]. simpl jset. simpl jget.
  case_decide as Hk; rewrite !entries_bytes_cons; [subst; lia|]. rewrite IH. lia.
Qed.

Lemma entries_bytes_jdel k e es :
  jget k es = Some e → entries_bytes (jdel k es) = entries_bytes es - (str_len k + 100 + target_len e * 2).
Proof.
  induction es as [|[k' e'] es IH]; [done|]. simpl jget. simpl jdel. case_decide as Hk.
  - intros [= ->]. subst. rewrite entries_bytes_cons. lia.
  - intros He. rewrite !entries_bytes_cons, IH by done. lia.
Qed.

Lemma cacheSet_ok k e v : view_ok v → view_ok (cacheSet k e v).
Proof.
  intros [Hwf Hb]. split; simpl; [by apply jset_wf|]. rewrite entries_bytes_jset, Hb. unfold view_get. done.
Qed.

Lemma cacheDelete_ok k v : view_ok v → view_ok (cacheDelete k v).
Proof.
  intros [Hwf Hb]. unfold cacheDelete, view_get. destruct (jget k (v_entries v)) as [e|] eqn:E; [|done].
  split; simpl; [by apply jdel_wf|]. by rewrite (entries_bytes_jdel k e), Hb by done.
Qed.

Lemma rewriteEntries_gen (f : PathCacheEntry → option PathCacheEntry) (l : list (string * PathCacheEntry)) v : view_ok v →
  view_ok (fold_left (λ v pe, match f pe.2 with Some e' => cacheSet pe.1 e' v | None => v end) l v).
Proof.
  revert v. induction l as [|[k e] l IH]; intros v Hv; [done|]. simpl. apply IH.
  destruct (f e); [by apply cacheSet_ok | done].
Qed.

Lemma rewriteEntries_ok f v : view_ok v → view_ok (rewriteEntries f v).
Proof. apply rewriteEntries_gen. Qed.

Lemma jset_app_new {V} (k : string) (v : V) (l1 l2 : list (string * V)) : k ∉ l1.*1 → jset k v (l1 ++ l2) = l1 ++ jset k v l2.
Proof.
  induction l1 as [|[k' v'] l1 IH]; [done|]. simpl. rewrite not_elem_of_cons. intros [Hne Hn].
  rewrite decide_False by congruence. by rewrite IH.
Qed.

Lemma rewriteEntries_list f v :
  jwf (v_entries v) →
  v_entries (rewriteEntries f v) = (λ pe, (pe.1, default pe.2 (f pe.2))) <$> v_entries v.
Proof.
  intros Hwf. unfold rewriteEntries.
  assert (Hgen : ∀ l1 l2 v, jwf (l1 ++ l2) → v_entries v = l1 ++ l2 →
    v_entries (fold_left (λ v pe, match f pe.2 with Some e' => cacheSet pe.1 e' v | None => v end) l2 v)
    = l1 ++ ((λ pe, (pe.1, default pe.2 (f pe.2))) <$> l2)).
  { intros l1 l2. revert l1. induction l2 as [|[k e] l2 IH]; intros l1 v' Hw Hv; [done|].
    simpl. rewrite (IH (l1 ++ [(k, default e (f e))])).
    - by rewrite <- app_assoc.
    - unfold jwf in *. rewrite <- app_assoc, fmap_app in *. done.
    - rewrite <- app_assoc. simpl. destruct (f e) as [e'|]; simpl; [|done].
      rewrite Hv. rewrite jset_app_new; [simpl; by rewrite decide_True|].
      unfold jwf in Hw. rewrite fmap_app in Hw. apply NoDup_app in Hw as (_ & Hd & _).
      intros Hin. apply (Hd k Hin). apply list_elem_of_here. }
  apply (Hgen []); done.
Qed.

Lemma get_cacheSet k e v k' :
  view_get k' (cacheSet k e v) = if decide (k = k') then Some e else view_get k' v.
Proof. apply jget_jset. Qed.

Lemma get_cacheDelete k v k' :
  jwf (v_entries v) → view_get k' (cacheDelete k v) = if decide (k = k') then None else view_get k' v.
Proof.
  intros Hwf. unfold cacheDelete. destruct (view_get k v) eqn:E; [by apply jget_jdel|].
  case_decide; [by subst | done].
Qed.

Lemma jget_fmap {V W} (g : V → W) k (l : list (string * V)) :
  jget k ((λ pe, (pe.1, g pe.2)) <$> l) = g <$> jget k l.
Proof. induction l as [|[k' v'] l IH]; [done|]. simpl. by case_decide. Qed.

Lemma get_rewriteEntries f v k :
  jwf (v_entries v) → view_get k (rewriteEntries f v) = (λ e, default e (f e)) <$> view_get k v.
Proof. intros Hwf. unfold view_get. rewrite rewriteEntries_list by done. apply (jget_fmap (λ e, default e (f e))). Qed.

(** Every key of the cache is a canonical path. *)
Definition canonical (v : View) : Prop :=
  ∀ k, is_Some (view_get k v) → ∃ cs, valid_comps cs ∧ k = path_of cs.

Lemma view_paths_spec v k : k ∈ view_paths v ↔ is_Some (view_get k v).
Proof.
  unfold view_paths, jkeys, view_get. destruct (jget k (v_entries v)) as [e|] eqn:E.
  - split; [done|]. intros _. by eapply jget_key.
  - apply jget_None in E. split; [done | by intros []].
Qed.

Lemma elem_filter {A} (f : A → bool) x l : x ∈ List.filter f l ↔ x ∈ l ∧ f x = true.
Proof. rewrite !list_elem_of_In. apply filter_In. Qed.

Lemma pathsUnder_spec cs v p :
  valid_comps cs → canonical v →
  p ∈ pathsUnder (path_of cs) v ↔
  p = path_of cs ∨ ∃ rest, rest ≠ [] ∧ valid_comps (cs ++ rest) ∧ p = path_of (cs ++ rest) ∧ is_Some (view_get p v).
Proof.
  intros Hv Hc. unfold pathsUnder. rewrite elem_of_cons, elem_filter, view_paths_spec.
  split; (intros [->|H]; [by left|right]).
  - destruct H as [Hg Hf]. destruct (Hc p Hg) as (ds & Hds & ->).
    apply andb_true_iff in Hf as [Hne%negb_true_iff%bool_decide_eq_false Hs].
    destruct (proj1 (starts_with_dir_prefix cs ds Hv Hds) (conj Hne Hs)) as (rest & Hr & ->). by exists rest.
  - destruct H as (rest & Hr & Hvr & -> & Hg). split; [done|].
    destruct (proj2 (starts_with_dir_prefix cs (cs ++ rest) Hv Hvr)) as [Hne Hs]; [by exists rest|].
    rewrite Hs, andb_true_r. by apply negb_true_iff, bool_decide_eq_false.
Qed.

Lemma childPaths_spec cs v p :
  valid_comps cs → canonical v →
  p ∈ childPaths (path_of cs) v ↔ ∃ n, valid_comps (cs ++ [n]) ∧ p = path_of (cs ++ [n]) ∧ is_Some (view_get p v).
Proof.
  intros Hv Hc. unfold childPaths. rewrite elem_filter, view_paths_spec. split.
  - intros [Hg Hf]. destruct (Hc p Hg) as (ds & Hds & ->).
    apply andb_true_iff in Hf as [[Hne%negb_true_iff%bool_decide_eq_false Hs]%andb_true_iff Hi%negb_true_iff].
    destruct (proj1 (starts_with_dir_prefix cs ds Hv Hds) (conj Hne Hs)) as (rest & Hr & ->).
    apply child_rest in Hi as [n ->]; [|done..]. by exists n.
  - intros (n & Hvn & -> & Hg). split; [done|].
    destruct (proj2 (starts_with_dir_prefix cs (cs ++ [n]) Hv Hvn)) as [Hne Hs]; [by exists [n]|].
    rewrite Hs, andb_true_r. apply andb_true_iff. split; [by apply negb_true_iff, bool_decide_eq_false|].
    apply negb_true_iff. apply child_rest; [done | done | by exists n].
Qed.

Lemma pathsUnder_NoDup p v : jwf (v_entries v) → NoDup (pathsUnder p v).
Proof.
  intros Hwf. unfold pathsUnder. apply NoDup_cons. split.
  - rewrite elem_filter. intros [_ Hf]. by rewrite bool_decide_eq_true_2 in Hf.
  - apply NoDup_ListNoDup, List.NoDup_filter, NoDup_ListNoDup, Hwf.
Qed.

(** ** Publication keeps the view well-formed *)

Lemma apply_change_ok v c : view_ok v → view_ok (apply_change v c).
Proof. intros Hv. destruct c; simpl; [by apply cacheSet_ok | by apply cacheDelete_ok | by apply rewriteEntries_ok]. Qed.

Lemma apply_changes_ok cs v : view_ok v → view_ok (fold_left apply_change cs v).
Proof. revert v. induction cs as [|c cs IH]; intros v Hv; [done|]. simpl. by apply IH, apply_change_ok. Qed.

(** The path changes leave the epoch, the poison mark and the contents alone. *)
Definition same_meta (v v' : View) : Prop :=
  v_epoch v' = v_epoch v ∧ v_poisoned v' = v_poisoned v ∧ v_contents v' = v_contents v.

Lemma rewriteEntries_meta f v : same_meta v (rewriteEntries f v).
Proof.
  unfold rewriteEntries. generalize (v_entries v) as l. intros l. revert v.
  induction l as [|[k e] l IHl]; intros v; [done|]. simpl.
  unfold same_meta. destruct (IHl match f e with Some e' => cacheSet k e' v | None => v end) as (-> & -> & ->). by destruct (f e).
Qed.

Lemma apply_changes_meta cs v : same_meta v (fold_left apply_change cs v).
Proof.
  revert v. induction cs as [|c cs IH]; intros v; [done|]. simpl.
  assert (same_meta v (apply_change v c)) as (H1 & H2 & H3).
  { destruct c; simpl; [done| |apply rewriteEntries_meta]. unfold cacheDelete. by destruct (view_get path v). }
  unfold same_meta. destruct (IH (apply_change v c)) as (-> & -> & ->). done.
Qed.

Section publish_lemmas.
Context `{Lru}.

Lemma apply_contents_entries cs v :
  v_entries (fold_left apply_content cs v) = v_entries v ∧ v_bytes (fold_left apply_content cs v) = v_bytes v.
Proof. revert v. induction cs as [|c cs IH]; intros v; [done|]. simpl. by destruct (IH (apply_content v c)) as [-> ->]. Qed.

Lemma publish_entries pub paths contents complete v :
  v_entries (publishMutation pub paths contents complete v) = v_entries (fold_left apply_change paths v) ∧
  v_bytes (publishMutation pub paths contents complete v) = v_bytes (fold_left apply_change paths v).
Proof.
  unfold publishMutation. destruct (apply_contents_entries contents (fold_left apply_change paths v)).
  by destruct pub, complete.
Qed.

Lemma publish_epoch pub paths contents complete v :
  v_epoch (publishMutation pub paths contents complete v) =
  match pub with Committed e => e | Recorded => v_epoch v end.
Proof.
  unfold publishMutation.
  assert (H2 : ∀ v, v_epoch (fold_left apply_content contents v) = v_epoch v).
  { induction contents as [|c cs IH]; intros w; [done|]. simpl. by rewrite IH. }
  destruct pub, complete; simpl; rewrite ?H2; by rewrite ?(proj1 (apply_changes_meta paths v)).
Qed.

Lemma publish_poisoned pub paths contents complete v :
  v_poisoned (publishMutation pub paths contents complete v) = v_poisoned v.
Proof.
  unfold publishMutation.
  assert (H2 : ∀ v, v_poisoned (fold_left apply_content contents v) = v_poisoned v).
  { induction contents as [|c cs IH]; intros w; [done|]. simpl. by rewrite IH. }
  destruct pub, complete; simpl; rewrite ?H2; apply (apply_changes_meta paths v).
Qed.
End publish_lemmas.
