(* ===== verification/Session.v ===== *)
(** A filesystem session and its persistence
    (src/src/sql-fs/state/script-persistence.ts, src/src/sql-fs/state/types.ts,
    src/src/sql-fs/script-tx-buffer.ts, and the loading half of
    src/src/sql-fs/state/coherent-view.ts).

    [Sys] is everything a session can see: the committed database, its coherent
    view, the persistence object with the journal of the running script, the
    read-only depth and the exec context. A method is a computation over [Sys];
    the callback of a transaction is a computation over [Sys * tx].

    The journal is the buffered shape (SCRIPT_TX_BUFFERED, on by default):
    inside a script scope every mutation is recorded with provisional negative
    inode ids, and [finish] replays the journal in one transaction. The legacy
    shape, one transaction held open for the whole script, is not modelled, nor
    are driver faults ([raceDriverFault]): [guarded] is the identity here.

    The owner lease is an oracle: [s_lease n] is the answer to the [n]-th check,
    so a lease may be lost between any two steps of a flush. *)

From S2P Require Import Prelude Errors Paths Store View.

(** ** Configuration *)

Class Config := mkConfig {
  sandboxId : string;
  maxOps : Z;
  maxBytes : Z;
  allowSymlinks : bool;
  hasComposites : bool;   (* the dialect has the composite statements *)
  hasCommitBlob : bool;   (* the dialect has commitBlob *)
  hasRetire : bool;       (* the dialect has retireSandboxGeneration *)
  sha256 : string → string
}.

(** ** Mutations (state/types.ts, script-tx-buffer.ts) *)

Record ReplayContext := mkReplay {
  expectedEpoch : Z;
  resolveInodeId : Z → res fs_error Z
}.

(** [supersedes] is the string of the parent id, a colon and the name; an id
    prints without a colon, so it is the pair. *)
Record MutationSpec := mkSpec {
  m_kind : string;
  m_composite : bool;
  m_mints : nat;
  m_bytes : option Z;
  m_supersedes : option (Z * string);
  m_run : ReplayContext → txM (list (option Z))
}.

Record BufferedMutation := mkBuffered {
  b_kind : string;
  b_minted : list Z;
  b_bytes : Z;
  b_supersedes : option (Z * string);
  b_run : ReplayContext → txM (list (option Z))
}.

Definition PER_MUTATION_BASE_BYTES : Z := 200.

Inductive ScopeSettlement : Type :=
| Unchanged
| SCommitted (epoch : Z) (inodeRemap : option (list (Z * Z)))
| SFailed (error : fs_error) (reloadRequired : bool).

Record ScopeStamp := mkStamp { st_generation : Z; st_active : bool }.

(** ** State *)

Record Pers := mkPers {
  scriptScope : bool;
  scriptScopeGeneration : Z;
  scriptEpoch : option Z;
  scriptTxLost : option fs_error;
  mutations : list BufferedMutation;
  mutationBytes : Z;
  idRemap : list (Z * Z);
  nextProvisionalId : Z
}.

Definition initial_pers : Pers := mkPers false 0 None None [] 0 [] (-1).

(** The per-call context of a script's own calls (api/exec-context.ts). *)
Record ExecContext := mkExec {
  maxFileBytes : option Z;
  inputLimitBytes : option Z;
  inputBytes : Z;
  exceeded : option fs_error
}.

Record Sys := mkSys {
  s_db : db;
  s_view : View;
  s_pers : Pers;
  s_readOnlyDepth : Z;
  s_violated : option bool;   (* the read-only context of the caller, if any *)
  s_exec : option ExecContext;
  s_lease : nat → option fs_error;
  s_tick : nat;
  s_now : Z
}.

Abbreviation sysM := (M Sys fs_error).

Definition set_db (d : db) (s : Sys) : Sys :=
  mkSys d (s_view s) (s_pers s) (s_readOnlyDepth s) (s_violated s) (s_exec s) (s_lease s) (s_tick s) (s_now s).
Definition on_view (f : View → View) (s : Sys) : Sys :=
  mkSys (s_db s) (f (s_view s)) (s_pers s) (s_readOnlyDepth s) (s_violated s) (s_exec s) (s_lease s) (s_tick s) (s_now s).
Definition on_pers (f : Pers → Pers) (s : Sys) : Sys :=
  mkSys (s_db s) (s_view s) (f (s_pers s)) (s_readOnlyDepth s) (s_violated s) (s_exec s) (s_lease s) (s_tick s) (s_now s).
Definition set_exec (c : option ExecContext) (s : Sys) : Sys :=
  mkSys (s_db s) (s_view s) (s_pers s) (s_readOnlyDepth s) (s_violated s) c (s_lease s) (s_tick s) (s_now s).
Definition set_depth (n : Z) (s : Sys) : Sys :=
  mkSys (s_db s) (s_view s) (s_pers s) n (s_violated s) (s_exec s) (s_lease s) (s_tick s) (s_now s).
Definition set_violated (b : option bool) (s : Sys) : Sys :=
  mkSys (s_db s) (s_view s) (s_pers s) (s_readOnlyDepth s) b (s_exec s) (s_lease s) (s_tick s) (s_now s).
Definition tick (s : Sys) : Sys :=
  mkSys (s_db s) (s_view s) (s_pers s) (s_readOnlyDepth s) (s_violated s) (s_exec s) (s_lease s) (S (s_tick s)) (s_now s).

Definition set_scope (b : bool) (p : Pers) : Pers :=
  mkPers b (scriptScopeGeneration p) (scriptEpoch p) (scriptTxLost p) (mutations p) (mutationBytes p) (idRemap p) (nextProvisionalId p).
Definition set_scriptEpoch (e : option Z) (p : Pers) : Pers :=
  mkPers (scriptScope p) (scriptScopeGeneration p) e (scriptTxLost p) (mutations p) (mutationBytes p) (idRemap p) (nextProvisionalId p).
Definition set_lost (e : option fs_error) (p : Pers) : Pers :=
  mkPers (scriptScope p) (scriptScopeGeneration p) (scriptEpoch p) e (mutations p) (mutationBytes p) (idRemap p) (nextProvisionalId p).
Definition set_journal (ms : list BufferedMutation) (bytes : Z) (p : Pers) : Pers :=
  mkPers (scriptScope p) (scriptScopeGeneration p) (scriptEpoch p) (scriptTxLost p) ms bytes (idRemap p) (nextProvisionalId p).
Definition set_remap (ids : list (Z * Z)) (p : Pers) : Pers :=
  mkPers (scriptScope p) (scriptScopeGeneration p) (scriptEpoch p) (scriptTxLost p) (mutations p) (mutationBytes p) ids (nextProvisionalId p).
Definition set_nextId (n : Z) (p : Pers) : Pers :=
  mkPers (scriptScope p) (scriptScopeGeneration p) (scriptEpoch p) (scriptTxLost p) (mutations p) (mutationBytes p) (idRemap p) n.

(** ** Transactions of a session *)

Abbreviation stM := (M (Sys * tx) fs_error).

(** [dialect.transaction(fn)]: the database changes only when the callback
    returns; what the callback did to the session's own objects stays. *)
Definition inTx {A} (fn : stM A) : sysM A := λ s,
  match fn (s, mkTx (s_db s) None None) with
  | (Ok a, (s', t)) => (Ok a, set_db (t_db t) s')
  | (Err e, (s', _)) => (Err e, s')
  end.

Definition onTx {A} (m : txM A) : stM A := λ st,
  let '(r, t') := m st.2 in (r, (st.1, t')).

Definition onSys {A} (m : sysM A) : stM A := λ st,
  let '(r, s') := m st.1 in (r, (s', st.2)).

(** ** Checks *)

Definition assertLease : sysM unit := λ s,
  match s_lease s (s_tick s) with
  | Some e => (Err e, tick s)
  | None => (Ok tt, tick s)
  end.

Definition assertAlive : sysM unit := λ s,
  match scriptScope (s_pers s), scriptTxLost (s_pers s) with
  | true, Some e => (Err e, s)
  | _, _ => (Ok tt, s)
  end.

Section session.
Context `{Config}.

Definition lost_or_stale (p : Pers) : fs_error :=
  match scriptTxLost p with Some e => e | None => ESTALE sandboxId end.

Definition assertGeneration (generation : option Z) : sysM unit :=
  let* p := gets s_pers in
  throw_if (bool_decide (generation = None) && scriptScope p) (ESTALE sandboxId) ;;;
  match generation with
  | Some g => throw_if (negb (scriptScope p) || negb (bool_decide (g = scriptScopeGeneration p))) (lost_or_stale p)
  | None => retM tt
  end ;;;
  assertAlive.

Definition captureGeneration : sysM (option Z) :=
  gets (λ s, if scriptScope (s_pers s) then Some (scriptScopeGeneration (s_pers s)) else None).

Definition captureReservation : sysM ScopeStamp :=
  gets (λ s, mkStamp (scriptScopeGeneration (s_pers s)) (scriptScope (s_pers s))).

Definition assertReservation (stamp : ScopeStamp) : sysM unit :=
  let* p := gets s_pers in
  throw_if (negb (Bool.eqb (st_active stamp) (scriptScope p))
            || negb (bool_decide (st_generation stamp = scriptScopeGeneration p))) (lost_or_stale p) ;;;
  assertGeneration (if st_active stamp then Some (st_generation stamp) else None).

Definition buffering (s : Sys) : bool := scriptScope (s_pers s).

(** ** The journal *)

Definition realId (ids : list (Z * Z)) (id : Z) : res fs_error Z :=
  if decide (0 ≤ id) then Ok id
  else match jget id ids with
       | Some real => Ok real
       | None => Err (ECOHERENCE "script-tx flush: provisional inode id was never bound")
       end.

Definition replay (s : Sys) : ReplayContext :=
  mkReplay (default (v_epoch (s_view s)) (scriptEpoch (s_pers s))) (realId (idRemap (s_pers s))).

(** [op.run(tx, replay)], the context read when it runs. *)
Definition runOp (run : ReplayContext → txM (list (option Z))) : stM (list (option Z)) := λ st,
  onTx (run (replay st.1)) st.

Definition mintInodeId : sysM Z :=
  let* id := gets (λ s, nextProvisionalId (s_pers s)) in
  modifyS (on_pers (set_nextId (id - 1))) ;;;
  retM id.

Fixpoint mintInodeIds (n : nat) : sysM (list Z) :=
  match n with
  | O => retM []
  | S n' => let* id := mintInodeId in let* ids := mintInodeIds n' in retM (id :: ids)
  end.

Definition superseding (m : BufferedMutation) (ms : list BufferedMutation) : option BufferedMutation :=
  match b_supersedes m, last ms with
  | Some k, Some l => if decide (b_supersedes l = Some k) then Some l else None
  | _, _ => None
  end.

Definition recordMutation (m : BufferedMutation) : sysM unit :=
  let* p := gets s_pers in
  let sup := superseding m (mutations p) in
  let ops := Z.of_nat (length (mutations p)) + match sup with Some _ => 0 | None => 1 end in
  let bytes := mutationBytes p + b_bytes m - match sup with Some l => b_bytes l | None => 0 end in
  if decide (maxOps < ops ∨ maxBytes < bytes) then
    let err := ESCRIPTBUFFER ops bytes maxOps maxBytes in
    modifyS (on_pers (λ p, set_lost (match scriptTxLost p with Some e => Some e | None => Some err end) p)) ;;;
    throw err
  else
    let ms := match sup with
              | Some _ => removelast (mutations p) ++ [m]
              | None => mutations p ++ [m]
              end in
    modifyS (on_pers (set_journal ms bytes)).

Definition discardMutations (p : Pers) : Pers := set_remap [] (set_journal [] 0 p).

(** ** Eager writes *)

Definition checkEpoch : stM unit :=
  let* epoch := onTx (getSandboxEpoch sandboxId) in
  let* authority := gets (λ st, v_epoch (s_view st.1)) in
  throw_if (negb (bool_decide (epoch = authority))) (ESTALE sandboxId).

Definition assertDurableWriteEpoch : stM unit :=
  onSys assertLease ;;;
  onSys assertAlive ;;;
  if hasRetire then checkEpoch else retM tt.

Definition withBareTx {A} (fn : stM A) : sysM (Publication * A) :=
  let* r := inTx (
    (if hasRetire then onTx (setSandboxContextWithLock sandboxId) ;;; assertDurableWriteEpoch else retM tt) ;;;
    let* value := fn in
    let* observed := onTx (getSandboxEpoch sandboxId) in
    onSys assertLease ;;;
    retM (observed, value)) in
  retM (Committed r.1, r.2).

Definition withWriteTx {A} (fn : stM A) : sysM (Publication * A) :=
  let* r := inTx (
    onTx (setSandboxContextWithLock sandboxId) ;;;
    checkEpoch ;;;
    let* value := fn in
    let* observed := onTx (getSandboxEpoch sandboxId) in
    onSys assertLease ;;;
    retM (observed, value)) in
  retM (Committed r.1, r.2).

(** The produced ids, as the [readonly bigint[]] they are cast to. *)
Definition mutate (op : MutationSpec) : sysM (Publication * list (option Z)) :=
  let* generation := captureGeneration in
  let* b := gets buffering in
  if b then
    assertAlive ;;;
    let* minted := mintInodeIds (m_mints op) in
    recordMutation (mkBuffered (m_kind op) minted (default PER_MUTATION_BASE_BYTES (m_bytes op))
                               (m_supersedes op) (m_run op)) ;;;
    retM (Recorded, Some <$> minted)
  else
    let* receipt := if m_composite op then withBareTx (runOp (m_run op)) else withWriteTx (runOp (m_run op)) in
    match generation with Some g => assertGeneration (Some g) | None => retM tt end ;;;
    retM receipt.

Definition with_mints (n : nat) (op : MutationSpec) : MutationSpec :=
  mkSpec (m_kind op) (m_composite op) n (m_bytes op) (m_supersedes op) (m_run op).

(** The value of the receipt; [receipt.value[0]] may be [undefined]. *)
Definition mutateOne (op : MutationSpec) : sysM (Publication * option Z) :=
  let* generation := captureGeneration in
  let* receipt := mutate (with_mints 1 op) in
  match generation with Some g => assertGeneration (Some g) | None => retM tt end ;;;
  retM (receipt.1, head receipt.2 ≫= id).

Definition write {A} (run : ReplayContext → stM A) : sysM (Publication * A) :=
  withWriteTx (λ st, run (replay st.1) st).

(** ** Reads *)

Definition read {A} (fn : txM A) : sysM A :=
  assertAlive ;;;
  inTx (onTx (setSandboxContext sandboxId) ;;; onTx fn).

Definition readSnapshot {A} (fn : stM A) : sysM A :=
  inTx (onTx (setSandboxContext sandboxId) ;;; fn).

(** Outside a scope the read runs in a writer transaction. *)
Definition readForAppend {A} (fn : txM A) : sysM A :=
  let* b := gets buffering in
  if b then read fn
  else inTx (onTx (setSandboxContextWithLock sandboxId) ;;; onTx fn).

Definition claimGeneration : sysM (option SandboxGeneration) :=
  assertLease ;;;
  assertAlive ;;;
  if hasRetire then
    let* b := gets (λ s, scriptScope (s_pers s)) in
    throw_if b (ESTALE sandboxId) ;;;
    let* certificate := inTx (
      let* lease := gets (λ st : Sys * tx, s_lease st.1 (s_tick st.1)) in
      modifyS (λ st : Sys * tx, (tick st.1, st.2)) ;;;
      let* result := onTx (retireSandboxGeneration sandboxId (match lease with Some e => Err e | None => Ok tt end)) in
      onSys assertLease ;;;
      retM result) in
    assertAlive ;;;
    retM (Some certificate)
  else retM None.

(** ** Script scopes *)

Definition begin : sysM unit :=
  assertAlive ;;;
  let* p := gets s_pers in
  throw_if (scriptScope p) (PlainError "beginScriptScope: a script scope is already active") ;;;
  modifyS (on_pers (λ p, mkPers true (scriptScopeGeneration p + 1) (scriptEpoch p) None [] 0 [] (nextProvisionalId p))).

(** Binding the ids an op produced to those it minted. *)
Fixpoint bindIds (minted : list Z) (produced : list (option Z)) (ids : list (Z * Z)) : list (Z * Z) :=
  match minted with
  | [] => ids
  | m :: minted' =>
      let ids' := match head produced ≫= id with Some real => jset m real ids | None => ids end in
      bindIds minted' (tail produced) ids'
  end.

Definition flushOp (op : BufferedMutation) : stM unit :=
  onSys assertLease ;;;
  let* produced := runOp (b_run op) in
  modifyS (λ st : Sys * tx, (on_pers (λ p, set_remap (bindIds (b_minted op) produced (idRemap p)) p) st.1, st.2)).

Definition flushMutations : sysM (option Z) :=
  let* ops := gets (λ s, mutations (s_pers s)) in
  match ops with
  | [] => retM None
  | _ =>
      let* finalEpoch := inTx (
        onTx (setSandboxContextWithLock sandboxId) ;;;
        onSys assertAlive ;;;
        let* epoch := onTx (getSandboxEpoch sandboxId) in
        let* authority := gets (λ st : Sys * tx, v_epoch (s_view st.1)) in
        throw_if (negb (bool_decide (epoch = authority))) (ESTALE sandboxId) ;;;
        modifyS (λ st : Sys * tx, (on_pers (set_scriptEpoch (Some epoch)) st.1, st.2)) ;;;
        forM ops flushOp ;;;
        let* result := onTx (getSandboxEpoch sandboxId) in
        onSys assertLease ;;;
        retM result) in
      modifyS (on_pers (set_scriptEpoch (Some finalEpoch))) ;;;
      retM (Some finalEpoch)
  end.

Definition clearTransaction (p : Pers) : Pers := set_scriptEpoch None p.

Definition abort : sysM bool :=
  let* p := gets s_pers in
  if scriptScope p then
    let hadTx := negb (bool_decide (length (mutations p) = 0%nat)) in
    modifyS (on_pers (λ p, clearTransaction (discardMutations (set_scope false p)))) ;;;
    retM hadTx
  else retM false.

Definition finish : sysM ScopeSettlement := λ s,
  if scriptScope (s_pers s) then
    match scriptTxLost (s_pers s) with
    | Some lost =>
        match abort s with
        | (Ok reload, s') => (Ok (SFailed lost reload), s')
        | (Err e, s') => (Err e, s')
        end
    | None =>
        let s0 := on_pers (set_scope false) s in
        let hadTx := negb (bool_decide (length (mutations (s_pers s0)) = 0%nat)) in
        let cleanup := on_pers (λ p, discardMutations (clearTransaction p)) in
        match flushMutations s0 with
        | (Ok flushedEpoch, s1) =>
            let settlement := match scriptEpoch (s_pers s1) with
                              | None => Unchanged
                              | Some e => SCommitted e (match flushedEpoch with
                                                        | None => None
                                                        | Some _ => Some (idRemap (s_pers s1))
                                                        end)
                              end in
            (Ok settlement, cleanup s1)
        | (Err error, s1) => (Ok (SFailed error hadTx), cleanup s1)
        end
    end
  else (Ok Unchanged, s).

(** ** Loading the view (coherent-view.ts) *)

Fixpoint map_of_rows (rows : list (string * PathCacheEntry)) (m : list (string * PathCacheEntry))
    : list (string * PathCacheEntry) :=
  match rows with
  | [] => m
  | (p, e) :: rows' => map_of_rows rows' (jset p e m)
  end.

(** Every loaded path must be a path the session could have stored. *)
Fixpoint check_loaded (paths : list string) : sysM unit :=
  match paths with
  | [] => retM tt
  | p :: ps =>
      let* path := lift_res (validatePath p) in
      lift_res (assertStoredPath path "load reserved virtual device") ;;;
      check_loaded ps
  end.

Definition loadCommittedView (force : bool) : sysM bool :=
  let* view := readSnapshot (
    let* epoch := onTx (getSandboxEpoch sandboxId) in
    let* v := gets (λ st : Sys * tx, s_view st.1) in
    if negb force && negb (v_poisoned v) && negb (bool_decide (length (v_entries v) = 0%nat))
       && bool_decide (epoch = v_epoch v)
    then retM None
    else
      let* rows := onTx loadAllPaths in
      throw_if (bool_decide (length rows = 0%nat)) (ESANDBOXGONE sandboxId) ;;;
      retM (Some (epoch, map_of_rows rows []))) in
  assertAlive ;;;
  match view with
  | None => retM false
  | Some (epoch, entries) =>
      check_loaded (jkeys entries) ;;;
      modifyS (on_view (install epoch entries)) ;;;
      retM true
  end.

Definition ensureFresh : sysM bool :=
  assertAlive ;;;
  let* b := gets (λ s, scriptScope (s_pers s)) in
  throw_if b (EBUSY "Freshness admission during a script scope") ;;;
  loadCommittedView false.

Definition ready : sysM unit :=
  assertAlive ;;;
  let* _ := loadCommittedView true in
  retM tt.

Definition reload : sysM unit :=
  assertAlive ;;;
  let* b := gets (λ s, scriptScope (s_pers s)) in
  if b then retM tt
  else let* _ := loadCommittedView true in retM tt.
End session.
