(* ===== verification/Namespace.v ===== *)
(** The namespace operations
    (src/src/sql-fs/state/namespace/directory-tree.ts, links-moves.ts and
    file-writes.ts, src/src/sql-fs/state/namespace-operations.ts) and the policy
    hooks SqlFs gives them (src/src/sql-fs/sql-fs.ts).

    Each operation checks its arguments against the view, builds a mutation
    whose [run] issues the dialect calls, has the persistence run or record it,
    and publishes the resulting path and content changes to the view. *)

From S2P Require Import Prelude Errors Paths Store View Session.

Section namespace.
Context `{Config} `{Lru}.

(** ** Policy (sql-fs.ts) *)

Definition assertWritable (path op : string) : sysM unit :=
  assertAlive ;;;
  let* depth := gets s_readOnlyDepth in
  if decide (0 < depth) then
    modifyS (λ s, set_violated (match s_violated s with Some _ => Some true | None => None end) s) ;;;
    throw (EREADONLY path op)
  else retM tt.

Definition record_exceeded (e : fs_error) (c : ExecContext) : ExecContext :=
  mkExec (maxFileBytes c) (inputLimitBytes c) (inputBytes c)
         (match exceeded c with Some old => Some old | None => Some e end).

Definition assertExecFileSize (path : string) (bytes : Z) (op : string) : sysM unit :=
  let* ctx := gets s_exec in
  match ctx with
  | None => retM tt
  | Some c =>
      match maxFileBytes c with
      | None => retM tt
      | Some limit =>
          if decide (bytes ≤ limit) then retM tt
          else
            let err := EFBIG path bytes limit op in
            modifyS (set_exec (Some (record_exceeded err c))) ;;;
            throw err
      end
  end.

(** [consumeExecInput] (api/exec-context.ts) *)
Definition consumeExecInput (bytes : Z) (source : string) : sysM unit :=
  let* ctx := gets s_exec in
  match ctx with
  | None => retM tt
  | Some c =>
      match inputLimitBytes c with
      | None => retM tt
      | Some limit =>
          match exceeded c with
          | Some e => throw e
          | None =>
              let consumed := inputBytes c in
              if decide (limit - consumed < bytes) then
                let error := EEXECINPUT source consumed bytes limit in
                modifyS (set_exec (Some (mkExec (maxFileBytes c) (Some limit) consumed (Some error)))) ;;;
                throw error
              else
                modifyS (set_exec (Some (mkExec (maxFileBytes c) (Some limit) (consumed + bytes) None)))
          end
      end
  end.

Definition assertSymlink (target path : string) : sysM unit :=
  throw_if (str_includes nul target) (EINVAL target) ;;;
  throw_if (negb allowSymlinks) (EPERM path "symlink").

(** ** Shared pieces *)

Definition viewGet (path : string) : sysM (option PathCacheEntry) := gets (λ s, view_get path (s_view s)).
Definition viewHas (path : string) : sysM bool := gets (λ s, view_has path (s_view s)).
Definition viewParent (path : string) : sysM (string * string * PathCacheEntry) := λ s,
  (requireParent path (s_view s), s).

Definition publish (pub : Publication) (paths : list PathChange) (contents : list ContentChange)
    (complete : bool) : sysM unit :=
  modifyS (on_view (publishMutation pub paths contents complete)).

Definition newDate : sysM Z := gets s_now.

(** [receipt.value as bigint]: every run below returns the id it minted. *)
Definition the_id (o : option Z) : Z := default 0 o.

Definition is_kind (k : InodeKind) (e : option PathCacheEntry) : bool :=
  match e with Some en => bool_decide (kind en = k) | None => false end.

(** The dialect calls of the replays, their arguments resolved in order. *)
Definition createNode (rc : ReplayContext) (opts : CreateInodeOpts) : txM Z :=
  createInode opts (Some (expectedEpoch rc)).

(** [const n = await decrementNlink(id); if (n === 0) await deleteInode(id);] *)
Definition unlinkInode (id : Z) : txM unit :=
  let* newNlink := decrementNlink id in
  if decide (newNlink = 0) then deleteInode id else retM tt.

(** createInode, then insertDirent under the resolved parent *)
Definition createAndInsert (opts : CreateInodeOpts) (parentId : Z) (name : string)
    (rc : ReplayContext) : txM (list (option Z)) :=
  let* id := createNode rc opts in
  let* pid := lift_res (resolveInodeId rc parentId) in
  insertDirent pid name id ;;;
  retM [Some id].

(** createInode, then upsertDirent, then the old inode loses a link *)
Definition createAndReplace (opts : CreateInodeOpts) (parentId : Z) (name : string)
    (rc : ReplayContext) : txM (list (option Z)) :=
  let* id := createNode rc opts in
  let* pid := lift_res (resolveInodeId rc parentId) in
  let* oldInodeId := upsertDirent pid name id in
  match oldInodeId with Some o => unlinkInode o | None => retM tt end ;;;
  retM [Some id].

(** ** mkdir (directory-tree.ts) *)

Definition dir_opts (mode : Z) : CreateInodeOpts := mkCreate sandboxId DIRECTORY mode 0 None None.

Definition mkdir_spec (kind_ : string) (composite : bool) (parentId : Z) (name : string) (mode : Z) : MutationSpec :=
  if composite then
    mkSpec kind_ true 1 None None (λ rc,
      let* pid := lift_res (resolveInodeId rc parentId) in
      let* id := mkdirComposite sandboxId pid name mode (Some (expectedEpoch rc)) in
      retM [Some id])
  else
    mkSpec kind_ false 1 None None (createAndInsert (dir_opts mode) parentId name).

Definition dir_entry (id mode mtime : Z) : PathCacheEntry := mkEntry id DIRECTORY mode 0 mtime None None.

(** The loop of [mkdir -p]; the result says whether anything was created. *)
Fixpoint mkdir_segments (segments : list string) (current : string) (created : bool) (mode mtime : Z)
    : sysM bool :=
  match segments with
  | [] => retM created
  | seg :: rest =>
      let next := if decide (current = "/") then "/" +:+ seg else current +:+ "/" +:+ seg in
      let* present := viewHas next in
      if present then mkdir_segments rest next created mode mtime
      else
        let* parentEntry := viewGet current in
        match parentEntry with
        | None => throw (ENOENT current)
        | Some pe =>
            if decide (kind pe = DIRECTORY) then
              let* receipt := mutateOne (mkdir_spec "mkdir -p" false (inodeId pe) seg mode) in
              publish receipt.1 [ChSet next (dir_entry (the_id receipt.2) mode mtime)] [] false ;;;
              mkdir_segments rest next true mode mtime
            else throw (ENOTDIR current)
        end
  end.

Definition markDirty : sysM unit := modifyS (on_view (set_dirty true)).

Definition mkdirAt (path : string) (recursive : bool) (mode : Z) : sysM unit :=
  assertWritable path "mkdir" ;;;
  let* mtime := newDate in
  if recursive then
    let segments := List.filter (λ p, negb (bool_decide (p = EmptyString))) (split_slash path) in
    let* created := mkdir_segments segments "/" false mode mtime in
    if created then markDirty else retM tt
  else
    let* exists_ := viewHas path in
    throw_if exists_ (EEXIST path) ;;;
    let* parent := viewParent path in
    let '(_, name, parentEntry) := parent in
    let* receipt := mutateOne (mkdir_spec "mkdir" hasComposites (inodeId parentEntry) name mode) in
    publish receipt.1 [ChSet path (dir_entry (the_id receipt.2) mode mtime)] [] true.

(** ** rm (directory-tree.ts) *)

Record RmStep := mkRmStep { rs_inodeId : Z; rs_parentInodeId : option Z; rs_name : string }.

Fixpoint rm_steps (plan : list RmStep) (rc : ReplayContext) : txM unit :=
  match plan with
  | [] => retM tt
  | step :: rest =>
      match rs_parentInodeId step with
      | Some p =>
          let* pid := lift_res (resolveInodeId rc p) in
          let* _ := deleteDirent pid (rs_name step) sandboxId (Some (expectedEpoch rc)) in
          retM tt
      | None => retM tt
      end ;;;
      let* id := lift_res (resolveInodeId rc (rs_inodeId step)) in
      unlinkInode id ;;;
      rm_steps rest rc
  end.

Definition rmr_run (parentId : option Z) (name : string) (plan : list RmStep) (rc : ReplayContext)
    : txM (list (option Z)) :=
  match parentId with
  | Some p =>
      let* pid := lift_res (resolveInodeId rc p) in
      let* _ := deleteDirent pid name sandboxId (Some (expectedEpoch rc)) in
      retM tt
  | None => retM tt
  end ;;;
  rm_steps plan rc ;;;
  retM [].

(** Deepest paths first. *)
Definition rm_order (paths : list string) : list string := sort_on (λ p, - depth_key p) paths.

(** The plan; [view.get(p)!] of a path of [pathsUnder] is there. *)
Definition rm_plan (v : View) (path : string) (paths : list string) : list RmStep :=
  omap (λ p, e ← view_get p v;
    Some (mkRmStep (inodeId e)
            (if decide (p = path) then None else inodeId <$> view_get (parentOf p) v) (nameOf p))) paths.

Definition rm_spec (parentId : Z) (name : string) : MutationSpec :=
  if hasComposites then
    mkSpec "rm" true 0 None None (λ rc,
      let* pid := lift_res (resolveInodeId rc parentId) in
      let* _ := rmComposite sandboxId pid name (Some (expectedEpoch rc)) in
      retM [])
  else
    mkSpec "rm" false 0 None None (λ rc,
      let* pid := lift_res (resolveInodeId rc parentId) in
      let* removed := deleteDirent pid name sandboxId (Some (expectedEpoch rc)) in
      unlinkInode removed ;;;
      retM []).

Definition rmAt (path : string) (recursive force : bool) : sysM unit :=
  assertWritable path "rm" ;;;
  let* entry := viewGet path in
  match entry with
  | None => if force then retM tt else throw (ENOENT path)
  | Some en =>
      let name := nameOf path in
      let* parentEntry := viewGet (parentOf path) in
      let* v := gets s_view in
      if recursive && bool_decide (kind en = DIRECTORY) then
        let subtree := rm_order (pathsUnder path v) in
        let plan := rm_plan v path subtree in
        let* receipt := mutate (mkSpec "rm -r" false 0
          (Some (PER_MUTATION_BASE_BYTES + Z.of_nat (length plan) * 80)) None
          (rmr_run (inodeId <$> parentEntry) name plan)) in
        let* v' := gets s_view in
        publish receipt.1 (ChDelete <$> subtree)
          (omap (λ p, e ← view_get p v'; Some (CoEvict (inodeId e))) subtree) true
      else
        throw_if (bool_decide (kind en = DIRECTORY) && negb (bool_decide (childPaths path v = []))) (ENOTEMPTY path) ;;;
        match parentEntry with
        | None => throw (PlainError "TypeError")
        | Some pe =>
            let* receipt := mutate (rm_spec (inodeId pe) name) in
            publish receipt.1 [ChDelete path] [CoEvict (inodeId en)] true
        end
  end.

(** ** File writes (file-writes.ts) *)

Definition NEW_FILE_MODE : Z := 420.

Definition blobArgFor (buffering_ : bool) (bytes : string) : option string :=
  if bool_decide (bytes = EmptyString) && hasComposites && hasCommitBlob then None
  else if buffering_ && hasCommitBlob then None
  else Some bytes.

Definition file_opts (mode size : Z) (sha : string) : CreateInodeOpts :=
  mkCreate sandboxId FILE mode size (Some sha) None.

(** The mutation of a whole-file write; [blobBytes] only matters to a dialect
    without [commitBlob]. *)
Definition putFileOp (kind_ : string) (parentId : Z) (name : string) (mode size : Z) (sha : string)
    (blobBytes : option string) : MutationSpec :=
  if hasComposites then
    mkSpec kind_ true 1 None (Some (parentId, name)) (λ rc,
      let* pid := lift_res (resolveInodeId rc parentId) in
      let* id := writeFileComposite sandboxId pid name mode size sha (Some (expectedEpoch rc)) in
      retM [Some id])
  else
    mkSpec kind_ false 1 (Some (PER_MUTATION_BASE_BYTES + match blobBytes with Some b => str_len b | None => 0 end))
      (Some (parentId, name)) (λ rc,
      (if hasCommitBlob then retM tt else upsertBlob sha (default EmptyString blobBytes)) ;;;
      createAndReplace (file_opts mode size sha) parentId name rc).

Definition file_entry (id mode size mtime : Z) (sha : string) : PathCacheEntry :=
  mkEntry id FILE mode size mtime (Some sha) None.

(** The blob of a non-empty file is committed on its own connection first. *)
Definition storeBlob (stamp : ScopeStamp) (sha bytes : string) : sysM unit :=
  assertReservation stamp ;;;
  (if hasCommitBlob && bool_decide (0 < str_len bytes)
   then modifyS (λ s, set_db (commitBlob sha bytes (s_db s)) s) else retM tt) ;;;
  assertReservation stamp.

Definition writeFileAt (path bytes : string) (createMode : option Z) : sysM unit :=
  let* stamp := captureReservation in
  assertWritable path "writeFile" ;;;
  let* at_path := viewGet path in
  throw_if (is_kind DIRECTORY at_path) (EISDIR path) ;;;
  let* parent := viewParent path in
  let '(_, name, parentEntry) := parent in
  assertExecFileSize path (str_len bytes) "write" ;;;
  let sha := sha256 bytes in
  let* mtime := newDate in
  storeBlob stamp sha bytes ;;;
  let* prior := viewGet path in
  let mode_ := match createMode with
               | Some m => m
               | None => if is_kind FILE prior then from_option mode NEW_FILE_MODE prior else NEW_FILE_MODE
               end in
  let* b := gets buffering in
  let* receipt := mutateOne (putFileOp "writeFile" (inodeId parentEntry) name mode_ (str_len bytes) sha
                               (blobArgFor b bytes)) in
  let id := the_id receipt.2 in
  let* displaced := viewGet path in
  let evicted := match displaced with
                 | Some d => if decide (inodeId d = id) then [] else [CoEvict (inodeId d)]
                 | None => []
                 end in
  publish receipt.1 [ChSet path (file_entry id mode_ (str_len bytes) mtime sha)]
    (evicted ++ if decide (0 < str_len bytes) then [CoPut id bytes] else []) true.

Definition appendFileAt (path bytes : string) : sysM unit :=
  let* stamp := captureReservation in
  assertWritable path "appendFile" ;;;
  let* existing := viewGet path in
  throw_if (is_kind DIRECTORY existing) (EISDIR path) ;;;
  let* mtime := newDate in
  if bool_decide (str_len bytes = 0) && is_kind FILE existing then retM tt
  else
    let base_size := if is_kind FILE existing then from_option e_size 0 existing else 0 in
    assertExecFileSize path (base_size + str_len bytes) "write" ;;;
    let* fullBytes :=
      match existing with
      | Some en =>
          match kind en, contentSha256 en with
          | FILE, Some sha =>
              consumeExecInput (e_size en) path ;;;
              let* old := readForAppend (getBlob sha) in
              retM (default EmptyString old +:+ bytes)
          | _, _ => retM bytes
          end
      | None => retM bytes
      end in
    let sha := sha256 fullBytes in
    let* parent := viewParent path in
    let '(_, name, parentEntry) := parent in
    storeBlob stamp sha fullBytes ;;;
    let mode_ := if is_kind FILE existing then from_option mode NEW_FILE_MODE existing else NEW_FILE_MODE in
    let* b := gets buffering in
    let* receipt := mutateOne (putFileOp "appendFile" (inodeId parentEntry) name mode_ (str_len fullBytes) sha
                                 (blobArgFor b fullBytes)) in
    let id := the_id receipt.2 in
    publish receipt.1 [ChSet path (file_entry id mode_ (str_len fullBytes) mtime sha)]
      (match existing with Some en => [CoEvict (inodeId en)] | None => [] end
       ++ if decide (0 < str_len fullBytes) then [CoPut id fullBytes] else []) true.

(** ** cp (directory-tree.ts) *)

Definition DEV_NULL_MODE : Z := 438.

Record CpStep := mkCpStep {
  cs_destPath : string;
  cs_name : string;
  cs_parentPath : string;
  cs_existingParentId : option Z;
  cs_entry : PathCacheEntry
}.

Definition copy_opts (e : PathCacheEntry) : CreateInodeOpts :=
  mkCreate sandboxId (kind e) (mode e) (e_size e) (contentSha256 e) (symlinkTarget e).

(** The plan of [cp -r]; the checks of a step precede the next step's. *)
Fixpoint cp_plan (v : View) (src dest : string) (paths : list string) : res fs_error (list CpStep) :=
  match paths with
  | [] => Ok []
  | srcPath :: rest =>
      match view_get srcPath v with
      | None => Err (PlainError "TypeError")
      | Some entry =>
          let destPath := relocate src dest srcPath in
          match validatePath destPath, assertStoredPath destPath "cp" with
          | Err e, _ => Err e
          | _, Err e => Err e
          | Ok _, Ok _ =>
              let parentPath := parentOf destPath in
              match cp_plan v src dest rest with
              | Err e => Err e
              | Ok plan => Ok (mkCpStep destPath (nameOf destPath) parentPath
                                 (inodeId <$> view_get parentPath v) entry :: plan)
              end
          end
      end
  end.

Fixpoint cp_steps (plan : list CpStep) (created : list (string * Z)) (rc : ReplayContext)
    : txM (list (option Z)) :=
  match plan with
  | [] => retM []
  | step :: rest =>
      let* parentInodeId :=
        match jget (cs_parentPath step) created, cs_existingParentId step with
        | Some p, _ => retM p
        | None, Some p => lift_res (resolveInodeId rc p)
        | None, None => throw (ENOENT (cs_parentPath step))
        end in
      let* newId := createNode rc (copy_opts (cs_entry step)) in
      insertDirent parentInodeId (cs_name step) newId ;;;
      let* ids := cp_steps rest (jset (cs_destPath step) newId created) rc in
      retM (Some newId :: ids)
  end.

Definition cp_order (paths : list string) : list string := sort_on depth_key paths.

(** [newInodeIds]: destination path to the id of its copy. *)
Fixpoint cp_ids (plan : list CpStep) (ids : list (option Z)) (m : list (string * Z)) : list (string * Z) :=
  match plan with
  | [] => m
  | step :: rest => cp_ids rest (tail ids) (jset (cs_destPath step) (the_id (head ids ≫= id)) m)
  end.

(** [src + destPath.slice(dest.length)] is the source again. *)
Definition cp_changes (v : View) (src dest : string) (mtime : Z) (newIds : list (string * Z)) : list PathChange :=
  omap (λ pi : string * Z,
    e ← view_get (relocate dest src pi.1) v;
    Some (ChSet pi.1 (with_mtime mtime (with_inode pi.2 e)))) newIds.

Definition cpAt (src dest : string) (recursive : bool) : sysM unit :=
  if decide (src = DEV_NULL) then
    if decide (dest = DEV_NULL) then retM tt
    else writeFileAt dest EmptyString (Some DEV_NULL_MODE)
  else
    let* srcEntry := viewGet src in
    if decide (dest = DEV_NULL) then
      match srcEntry with
      | None => throw (ENOENT src)
      | Some se => throw_if (bool_decide (kind se = DIRECTORY)) (ENOTDIR dest)
      end
    else
      assertWritable dest "cp" ;;;
      throw_if (bool_decide (nameOf dest = EmptyString)) (EISDIR dest) ;;;
      match srcEntry with
      | None => throw (ENOENT src)
      | Some se =>
          if decide (kind se = DIRECTORY) then
            throw_if (negb recursive) (EISDIR src) ;;;
            let* v := gets s_view in
            let srcPaths := cp_order (pathsUnder src v) in
            let* _ := viewParent dest in
            let* mtime := newDate in
            let* plan := lift_res (cp_plan v src dest srcPaths) in
            let* receipt := mutate (mkSpec "cp -r" false (length plan)
              (Some (PER_MUTATION_BASE_BYTES
                     + fold_right (λ step n, n + (str_len (cs_destPath step) * 2 + 120)) 0 plan)) None
              (cp_steps plan [])) in
            let* v' := gets s_view in
            publish receipt.1 (cp_changes v' src dest mtime (cp_ids plan receipt.2 [])) [] true
          else
            let* at_dest := viewGet dest in
            throw_if (is_kind DIRECTORY at_dest) (EISDIR dest) ;;;
            let* parent := viewParent dest in
            let '(_, destName, destParentEntry) := parent in
            let* mtime := newDate in
            let* receipt := mutateOne (mkSpec "cp" false 1 None None
              (createAndReplace (copy_opts se) (inodeId destParentEntry) destName)) in
            publish receipt.1 [ChSet dest (with_mtime mtime (with_inode (the_id receipt.2) se))] [] true
      end.

(** ** chmod, utimes, mv, symlink, link (links-moves.ts) *)

Definition update_spec (kind_ : string) (id : Z) (u : UpdateInodeOpts) : MutationSpec :=
  mkSpec kind_ false 0 None None (λ rc,
    let* rid := lift_res (resolveInodeId rc id) in
    updateInode rid u sandboxId (Some (expectedEpoch rc)) ;;;
    retM []).

Definition patch_mode (m : Z) : Patch := mkPatch None (Some m) None None None None.
Definition patch_mtime (m : Z) : Patch := mkPatch None None None (Some m) None None.

Definition chmodAt (path : string) (mode_ : Z) : sysM unit :=
  assertWritable path "chmod" ;;;
  let* entry := viewGet path in
  match entry with
  | None => throw (ENOENT path)
  | Some en =>
      let* receipt := mutate (update_spec "chmod" (inodeId en) (mkUpdate (Some mode_) None None None)) in
      publish receipt.1 [ChPatchInode (inodeId en) (patch_mode mode_)] [] true
  end.

Definition utimesAt (path : string) (mtime_ : Z) : sysM unit :=
  assertWritable path "utimes" ;;;
  let* entry := viewGet path in
  match entry with
  | None => throw (ENOENT path)
  | Some en =>
      let* receipt := mutate (update_spec "utimes" (inodeId en) (mkUpdate None None (Some mtime_) None)) in
      publish receipt.1 [ChPatchInode (inodeId en) (patch_mtime mtime_)] [] true
  end.

Definition mv_spec (srcParentId : Z) (srcName : string) (destParentId : Z) (destName : string)
    (destEntry : option PathCacheEntry) : MutationSpec :=
  if hasComposites then
    mkSpec "mv" true 0 None None (λ rc,
      let* p1 := lift_res (resolveInodeId rc srcParentId) in
      let* p2 := lift_res (resolveInodeId rc destParentId) in
      mvComposite sandboxId p1 srcName p2 destName (Some (expectedEpoch rc)) ;;;
      retM [])
  else
    mkSpec "mv" false 0 None None (λ rc,
      let* p1 := lift_res (resolveInodeId rc srcParentId) in
      let* p2 := lift_res (resolveInodeId rc destParentId) in
      moveDirent p1 srcName p2 destName sandboxId (Some (expectedEpoch rc)) ;;;
      match destEntry with
      | Some de =>
          let* destId := lift_res (resolveInodeId rc (inodeId de)) in
          unlinkInode destId
      | None => retM tt
      end ;;;
      retM []).

(** The reserved device must not be reached by any path of the moved subtree. *)
Fixpoint mv_check (src dest : string) (paths : list string) : sysM unit :=
  match paths with
  | [] => retM tt
  | p :: rest =>
      let* destPath := lift_res (validatePath (relocate src dest p)) in
      lift_res (assertStoredPath destPath "mv") ;;;
      mv_check src dest rest
  end.

(** Drop the source subtree and the destination, then set the moved entries. *)
Definition mv_changes (v : View) (src dest : string) : list PathChange :=
  let srcPaths := pathsUnder src v in
  (ChDelete <$> srcPaths)
  ++ (ChDelete <$> List.filter (λ key, bool_decide (key = dest) || starts_with key (dir_prefix dest)) (view_paths v))
  ++ omap (λ p, e ← view_get p v; Some (ChSet (relocate src dest p) e)) srcPaths.

Definition mvAt (src dest : string) : sysM unit :=
  assertWritable dest "mv" ;;;
  let* srcEntry := viewGet src in
  match srcEntry with
  | None => throw (ENOENT src)
  | Some se =>
      let* v := gets s_view in
      mv_check src dest (pathsUnder src v) ;;;
      let srcParentPath := parentOf src in
      let destParentPath := parentOf dest in
      match view_get srcParentPath v with
      | None => throw (ENOENT srcParentPath)
      | Some srcParentEntry =>
          match view_get destParentPath v with
          | None => throw (ENOENT destParentPath)
          | Some destParentEntry =>
              throw_if (negb (bool_decide (kind destParentEntry = DIRECTORY))) (ENOTDIR destParentPath) ;;;
              throw_if (bool_decide (kind se = DIRECTORY)
                        && (starts_with dest (dir_prefix src) || bool_decide (dest = src))) (EINVAL src) ;;;
              let destEntry := view_get dest v in
              throw_if (bool_decide (nameOf dest = EmptyString)) (EISDIR dest) ;;;
              if decide (inodeId <$> destEntry = Some (inodeId se)) then retM tt
              else
                throw_if (is_kind DIRECTORY destEntry && negb (bool_decide (childPaths dest v = []))) (ENOTEMPTY dest) ;;;
                throw_if (is_kind DIRECTORY destEntry && negb (bool_decide (kind se = DIRECTORY))) (EISDIR dest) ;;;
                throw_if (match destEntry with
                          | Some de => negb (bool_decide (kind de = DIRECTORY)) && bool_decide (kind se = DIRECTORY)
                          | None => false
                          end) (ENOTDIR dest) ;;;
                let* receipt := mutate (mv_spec (inodeId srcParentEntry) (nameOf src)
                                          (inodeId destParentEntry) (nameOf dest) destEntry) in
                let* v' := gets s_view in
                publish receipt.1 (mv_changes v' src dest) [] true
          end
      end
  end.

Definition symlink_opts (target : string) : CreateInodeOpts :=
  mkCreate sandboxId SYMLINK 511 (str_len target) None (Some target).

Definition symlink_entry (id mtime : Z) (target : string) : PathCacheEntry :=
  mkEntry id SYMLINK 511 (str_len target) mtime None (Some target).

Definition symlinkAt (target linkPath : string) : sysM unit :=
  assertWritable linkPath "symlink" ;;;
  assertSymlink target linkPath ;;;
  let* parent := viewParent linkPath in
  let '(_, name, parentEntry) := parent in
  let* mtime := newDate in
  let* receipt := mutateOne (mkSpec "symlink" false 1 (Some (PER_MUTATION_BASE_BYTES + str_len target)) None
                               (createAndInsert (symlink_opts target) (inodeId parentEntry) name)) in
  publish receipt.1 [ChSet linkPath (symlink_entry (the_id receipt.2) mtime target)] [] true.

Definition link_op (targetId destParentId : Z) (destName : string) : MutationSpec :=
  mkSpec "link" false 0 None None (λ rc,
    let* targetInodeId := lift_res (resolveInodeId rc targetId) in
    incrementNlink targetInodeId sandboxId (Some (expectedEpoch rc)) ;;;
    let* pid := lift_res (resolveInodeId rc destParentId) in
    insertDirent pid destName targetInodeId ;;;
    retM []).

Definition linkAt (existingPath newPath : string) : sysM unit :=
  assertWritable newPath "link" ;;;
  let* srcEntry := viewGet existingPath in
  match srcEntry with
  | None => throw (ENOENT existingPath)
  | Some se =>
      throw_if (bool_decide (kind se = DIRECTORY)) (EPERM existingPath "link") ;;;
      let* exists_ := viewHas newPath in
      throw_if exists_ (EEXIST newPath) ;;;
      let* parent := viewParent newPath in
      let '(_, destName, destParentEntry) := parent in
      let* receipt := mutate (link_op (inodeId se) (inodeId destParentEntry) destName) in
      publish receipt.1 [ChSet newPath se] [] true
  end.

(** ** The operations as NamespaceOperations exposes them
    (namespace-operations.ts): each holds its paths for as long as it runs. *)

(** With no other mutation of the same paths running, the reservation is the
    check that the scope has not changed. *)
Definition withNamespaceMutation {A} (run : sysM A) : sysM A :=
  let* stamp := captureReservation in
  assertReservation stamp ;;;
  run.

Definition createExclusive (path : string) (directory : bool) (mode_ : Z) : sysM unit :=
  throw_if (bool_decide (path = DEV_NULL)) (EEXIST path) ;;;
  withNamespaceMutation (
    assertWritable path "createExclusive" ;;;
    let* exists_ := viewHas path in
    throw_if exists_ (EEXIST path) ;;;
    let* _ := viewParent path in
    if directory then mkdirAt path false mode_ else writeFileAt path EmptyString (Some mode_)).

Definition ns_mkdir (path : string) (recursive : bool) : sysM unit :=
  if decide (path = DEV_NULL) then (if recursive then throw (ENOTDIR path) else throw (EEXIST path))
  else withNamespaceMutation (mkdirAt path recursive 493).

Definition ns_writeFile (path bytes : string) (createMode : option Z) : sysM unit :=
  withNamespaceMutation (writeFileAt path bytes createMode).
Definition ns_appendFile (path bytes : string) : sysM unit := withNamespaceMutation (appendFileAt path bytes).
Definition ns_rm (path : string) (recursive force : bool) : sysM unit := withNamespaceMutation (rmAt path recursive force).
Definition ns_cp (src dest : string) (recursive : bool) : sysM unit := withNamespaceMutation (cpAt src dest recursive).
Definition ns_chmod (path : string) (mode_ : Z) : sysM unit := withNamespaceMutation (chmodAt path mode_).
Definition ns_utimes (path : string) (mtime_ : Z) : sysM unit := withNamespaceMutation (utimesAt path mtime_).
Definition ns_mv (src dest : string) : sysM unit := withNamespaceMutation (mvAt src dest).
Definition ns_symlink (target linkPath : string) : sysM unit := withNamespaceMutation (symlinkAt target linkPath).
Definition ns_link (existingPath newPath : string) : sysM unit := withNamespaceMutation (linkAt existingPath newPath).
End namespace.
