(* ===== verification/Coherence.v ===== *)
(** Coherence of a view with a database.

    A view is coherent with a database when it has an entry at exactly the paths
    of the sandbox's tree, each with the kind, mode, size, content hash and link
    target of the inode the path leads to. Modification times are not compared:
    the view stamps the session's clock and the database its own. Inside a
    script scope the view names new inodes by provisional ids; [ρ], the
    [resolveInodeId] of the replay, gives the real ones. *)

From S2P Require Import Prelude Errors Paths Store Tree Dialect View.

Definition entry_matches (en : PathCacheEntry) (r : InodeRow) : Prop :=
  kind en = i_kind r ∧ mode en = i_mode r ∧ e_size en = i_size r ∧
  contentSha256 en = i_contentSha256 r ∧ symlinkTarget en = i_symlinkTarget r.

Record coh (sb : string) (ρ : Z → res fs_error Z) (v : View) (d : db) : Prop := {
  coh_ok : view_ok v;
  coh_canonical : canonical v;
  coh_root : ∃ root, root_of d sb = Some root;
  coh_some root cs en : root_of d sb = Some root → valid_comps cs → view_get (path_of cs) v = Some en →
    ∃ rid r, ρ (inodeId en) = Ok rid ∧ walk (dirents d) root cs = Some rid ∧
             inodes d !! rid = Some r ∧ entry_matches en r;
  coh_none root cs : root_of d sb = Some root → valid_comps cs → view_get (path_of cs) v = None →
    walk (dirents d) root cs = None;
  coh_inj k1 k2 e1 e2 rid : view_get k1 v = Some e1 → view_get k2 v = Some e2 →
    ρ (inodeId e1) = Ok rid → ρ (inodeId e2) = Ok rid → inodeId e1 = inodeId e2
}.

(** [ρ'] extends [ρ] on the ids a view uses. *)
Definition agrees (v : View) (ρ ρ' : Z → res fs_error Z) : Prop :=
  ∀ k en, view_get k v = Some en → ρ' (inodeId en) = ρ (inodeId en).

Lemma agrees_refl v ρ : agrees v ρ ρ.
Proof. by intros k en. Qed.

Section coherence.
Context (sb : string).

(** Coherence only looks at lookups. *)
Lemma coh_ext ρ v v' d :
  (∀ k, view_get k v' = view_get k v) → view_ok v' → coh sb ρ v d → coh sb ρ v' d.
Proof.
  intros Hg Hok [H1 H2 H3 H4 H5 H6]. split; [done| | |intros *; rewrite ?Hg..|intros *; rewrite !Hg]; eauto.
  intros k. rewrite Hg. apply H2.
Qed.

Lemma coh_agrees ρ ρ' v d : agrees v ρ ρ' → coh sb ρ v d → coh sb ρ' v d.
Proof.
  intros Ha [H1 H2 H3 H4 H5 H6]. split; [done..| |done|].
  - intros root cs en Hr Hv Hg. rewrite (Ha _ _ Hg). by eapply H4.
  - intros k1 k2 e1 e2 rid Hg1 Hg2. rewrite (Ha _ _ Hg1), (Ha _ _ Hg2). by eapply H6.
Qed.

(** Coherence only looks at the tree. *)
Lemma coh_frame ρ v d d' :
  dirents d' = dirents d → inodes d' = inodes d → root_of d' sb = root_of d sb →
  coh sb ρ v d → coh sb ρ v d'.
Proof.
  intros Hd Hi Hr [H1 H2 H3 H4 H5 H6]. split; rewrite ?Hd, ?Hi, ?Hr; done.
Qed.

Lemma root_of_bump t : root_of (t_db (bump sb t)) sb = root_of (t_db t) sb.
Proof.
  unfold root_of, bump. destruct (sandboxes (t_db t) !! sb) as [s|] eqn:E; simpl; [|by rewrite E].
  by rewrite lookup_insert_eq.
Qed.

Lemma coh_bump ρ v t : coh sb ρ v (t_db t) → coh sb ρ v (t_db (bump sb t)).
Proof. apply coh_frame; [apply bump_dirents | apply bump_inodes | apply root_of_bump]. Qed.

(** What a lookup at a canonical path says of the tree. *)
Lemma coh_lookup ρ v d cs en :
  wf_db d → coh sb ρ v d → valid_comps cs → view_get (path_of cs) v = Some en →
  ∃ root rid r, root_of d sb = Some root ∧ ρ (inodeId en) = Ok rid ∧
    walk (dirents d) root cs = Some rid ∧ inodes d !! rid = Some r ∧ i_sandboxId r = sb ∧ entry_matches en r.
Proof.
  intros Hwf Hc Hv Hg. destruct (coh_root _ _ _ _ Hc) as (root & Hr).
  destruct (coh_some _ _ _ _ Hc root cs en Hr Hv Hg) as (rid & r & H1 & H2 & H3 & H4).
  destruct (walk_inode d Hwf sb root cs rid Hr H2) as (r' & Hr' & Hs).
  exists root, rid, r. split_and!; try done. congruence.
Qed.

(** The view has an entry wherever the tree has a node. *)
Lemma coh_walk ρ v d root cs rid :
  coh sb ρ v d → root_of d sb = Some root → valid_comps cs → walk (dirents d) root cs = Some rid →
  ∃ en, view_get (path_of cs) v = Some en ∧ ρ (inodeId en) = Ok rid.
Proof.
  intros Hc Hr Hv Hw. destruct (view_get (path_of cs) v) as [en|] eqn:E.
  - exists en. destruct (coh_some _ _ _ _ Hc root cs en Hr Hv E) as (rid' & r & H1 & H2 & _). split; [done | congruence].
  - by rewrite (coh_none _ _ _ _ Hc root cs Hr Hv E) in Hw.
Qed.

Lemma coh_fresh ρ v d k en rid :
  wf_db d → coh sb ρ v d → view_get k v = Some en → ρ (inodeId en) = Ok rid → rid < next_id d.
Proof.
  intros Hwf Hc Hg Hρ. destruct (coh_canonical _ _ _ _ Hc k (mk_is_Some _ _ Hg)) as (cs & Hv & ->).
  destruct (coh_lookup ρ v d cs en Hwf Hc Hv Hg) as (root & rid' & r & _ & H1 & _ & H2 & _).
  assert (rid' = rid) as -> by congruence. apply (wf_fresh d Hwf rid (mk_is_Some _ _ H2)).
Qed.

(** ** One lemma per elementary change *)

Lemma root_of_add_node d p n r : root_of (add_node p n r d) sb = root_of d sb.
Proof. done. Qed.

Lemma canonical_set v cs en : canonical v → valid_comps cs → canonical (cacheSet (path_of cs) en v).
Proof.
  intros Hc Hv k. rewrite get_cacheSet. case_decide; [intros _; by exists cs | apply Hc].
Qed.

Section add.
Context (ρ ρ' : Z → res fs_error Z) (v : View) (d : db) (ps : list string) (n : string) (root p : Z) (r pr : InodeRow).
Context (Hwf : wf_db d) (Hc : coh sb ρ v d) (Hr : root_of d sb = Some root).
Context (Hps : walk (dirents d) root ps = Some p) (Hp : inodes d !! p = Some pr) (Hpk : i_kind pr = DIRECTORY).
Context (Hv : valid_comps (ps ++ [n])) (Hfree : dirents d !! (p, n) = None).

(** A new node. *)
Lemma coh_add_node en :
  agrees v ρ ρ' → ρ' (inodeId en) = Ok (next_id d) → entry_matches en r →
  coh sb ρ' (cacheSet (path_of (ps ++ [n])) en v) (add_node p n r d).
Proof.
  intros Ha Hid Hm. split.
  - apply cacheSet_ok, Hc.
  - apply canonical_set; [apply Hc | done].
  - by exists root.
  - intros root' cs e Hr' Hcs. rewrite root_of_add_node, Hr in Hr'. injection Hr' as <-.
    rewrite (walk_add_node d p n r pr Hwf Hp Hpk Hfree sb root ps cs Hr Hps). rewrite get_cacheSet.
    case_decide as Hd.
    + intros [= <-]. apply path_of_inj in Hd; [|done..]. subst cs. rewrite decide_True by done.
      exists (next_id d), r. simpl. rewrite lookup_insert_eq. done.
    + rewrite decide_False by congruence. intros Hg.
      destruct (coh_some _ _ _ _ Hc root cs e Hr Hcs Hg) as (rid & x & H1 & H2 & H3 & H4).
      exists rid, x. rewrite (Ha _ _ Hg). split_and!; try done. simpl. rewrite lookup_insert_ne; [done|].
      intros <-. rewrite wf_fresh_inode in H3; [done | done | lia].
  - intros root' cs Hr' Hcs. rewrite root_of_add_node, Hr in Hr'. injection Hr' as <-.
    rewrite (walk_add_node d p n r pr Hwf Hp Hpk Hfree sb root ps cs Hr Hps). rewrite get_cacheSet.
    case_decide as Hd; [done|]. rewrite decide_False by congruence. by apply (coh_none _ _ _ _ Hc).
  - assert (Hold : ∀ k e rid, view_get k v = Some e → ρ' (inodeId e) = Ok rid → rid < next_id d).
    { intros k e rid Hg. rewrite (Ha _ _ Hg). by apply (coh_fresh ρ v d k e rid). }
    intros k1 k2 e1 e2 rid. rewrite !get_cacheSet. do 2 case_decide.
    + by intros [= <-] [= <-].
    + intros [= <-] Hg H1 H2. pose proof (Hold _ _ _ Hg H2). rewrite Hid in H1. injection H1 as <-. lia.
    + intros Hg [= <-] H1 H2. pose proof (Hold _ _ _ Hg H1). rewrite Hid in H2. injection H2 as <-. lia.
    + intros Hg1 Hg2. rewrite (Ha _ _ Hg1), (Ha _ _ Hg2). by eapply (coh_inj _ _ _ _ Hc).
Qed.

(** One more entry for an inode of the view. *)
Lemma coh_add_link k en id x :
  view_get k v = Some en → ρ (inodeId en) = Ok id → inodes d !! id = Some x → i_kind x ≠ DIRECTORY →
  coh sb ρ (cacheSet (path_of (ps ++ [n])) en v) (add_link p n id x d).
Proof.
  intros Hk Hid Hx Hxk.
  assert (Hi : ∀ j y, inodes d !! j = Some y →
            ∃ y', inodes (add_link p n id x d) !! j = Some y' ∧ ∀ e, entry_matches e y → entry_matches e y').
  { intros j y Hj. simpl. rewrite lookup_insert. case_decide; [|by exists y]. subst j. eexists. split; [done|].
    assert (y = x) as -> by congruence. done. }
  split.
  - apply cacheSet_ok, Hc.
  - apply canonical_set; [apply Hc | done].
  - by exists root.
  - intros root' cs e Hr' Hcs. change (root_of d sb = Some root') in Hr'. assert (root' = root) as -> by congruence.
    rewrite (walk_add_link d p n id x pr Hwf Hp Hpk Hx Hxk Hfree sb root ps cs Hr Hps). rewrite get_cacheSet.
    case_decide as Hd.
    + intros [= <-]. apply path_of_inj in Hd; [|done..]. subst cs. rewrite decide_True by done.
      destruct (coh_canonical _ _ _ _ Hc k (mk_is_Some _ _ Hk)) as (ks & Hks & ->).
      destruct (coh_some _ _ _ _ Hc root ks en Hr Hks Hk) as (rid & y & H1 & H2 & H3 & H4).
      assert (rid = id) as -> by congruence. destruct (Hi _ _ H3) as (y' & Hy' & Hm).
      exists id, y'. split_and!; auto.
    + rewrite decide_False by congruence. intros Hg.
      destruct (coh_some _ _ _ _ Hc root cs e Hr Hcs Hg) as (rid & y & H1 & H2 & H3 & H4).
      destruct (Hi _ _ H3) as (y' & Hy' & Hm). exists rid, y'. split_and!; auto.
  - intros root' cs Hr' Hcs. change (root_of d sb = Some root') in Hr'. assert (root' = root) as -> by congruence.
    rewrite (walk_add_link d p n id x pr Hwf Hp Hpk Hx Hxk Hfree sb root ps cs Hr Hps). rewrite get_cacheSet.
    case_decide as Hd; [done|]. rewrite decide_False by congruence. by apply (coh_none _ _ _ _ Hc).
  - intros k1 k2 e1 e2 rid. rewrite !get_cacheSet. do 2 case_decide.
    + by intros [= <-] [= <-].
    + intros [= <-]. by apply (coh_inj _ _ _ _ Hc k k2).
    + intros Hg [= <-]. by apply (coh_inj _ _ _ _ Hc k1 k).
    + by eapply (coh_inj _ _ _ _ Hc).
Qed.
End add.

(** An entry is removed. *)
Section remove.
Context (ρ : Z → res fs_error Z) (v : View) (d : db) (ps : list string) (n : string) (root p : Z) (de : DirentRow).
Context (Hwf : wf_db d) (Hc : coh sb ρ v d) (Hr : root_of d sb = Some root).
Context (Hps : walk (dirents d) root ps = Some p) (Hk : dirents d !! (p, n) = Some de).
Context (Hleaf : childless d (d_inodeId de)) (Hv : valid_comps (ps ++ [n])).

Local Lemma below_none rest : rest ≠ [] → walk (dirents d) root ((ps ++ [n]) ++ rest) = None.
Proof.
  intros Hne. rewrite walk_app, walk_snoc, Hps. simpl. rewrite Hk. simpl.
  destruct rest as [|m rest]; [done|]. simpl. by rewrite Hleaf.
Qed.

Lemma coh_remove_entry : coh sb ρ (cacheDelete (path_of (ps ++ [n])) v) (remove_entry (p, n) d).
Proof.
  pose proof (coh_ok _ _ _ _ Hc) as [Hjwf _].
  assert (Hroot : root_of (remove_entry (p, n) d) sb = root_of d sb) by (unfold root_of; by rewrite sandboxes_remove).
  assert (Hget : ∀ cs, valid_comps cs → (ps ++ [n]) `prefix_of` cs →
                 view_get (path_of cs) (cacheDelete (path_of (ps ++ [n])) v) = None).
  { intros cs Hcs [rest ->]. rewrite get_cacheDelete by done. case_decide as Hd; [done|].
    destruct (view_get (path_of ((ps ++ [n]) ++ rest)) v) as [en|] eqn:E; [|done].
    destruct (coh_some _ _ _ _ Hc root _ en Hr Hcs E) as (rid & x & _ & Hw & _).
    rewrite below_none in Hw; [done|]. intros ->. by rewrite app_nil_r in Hd. }
  assert (Hsub : ∀ k e, view_get k (cacheDelete (path_of (ps ++ [n])) v) = Some e → view_get k v = Some e).
  { intros k e. rewrite get_cacheDelete by done. by case_decide. }
  split.
  - apply cacheDelete_ok, Hc.
  - intros k [e He%Hsub]. apply (coh_canonical _ _ _ _ Hc). by eexists.
  - exists root. by rewrite Hroot.
  - intros root' cs e Hr' Hcs Hg. rewrite Hroot, Hr in Hr'. injection Hr' as <-.
    rewrite (walk_remove_entry d p n de Hwf Hk sb root ps cs Hr Hps).
    destruct (decide ((ps ++ [n]) `prefix_of` cs)) as [Hpre|Hpre]; [by rewrite Hget in Hg|].
    destruct (coh_some _ _ _ _ Hc root cs e Hr Hcs (Hsub _ _ Hg)) as (rid & x & H1 & H2 & H3 & H4).
    destruct (decide (rid = d_inodeId de)) as [->|Hne].
    + exists (d_inodeId de), (set_nlink (i_nlink x - 1) x).
      rewrite (inodes_remove_entry_eq d p n de Hk x H3). rewrite decide_False; [done|].
      destruct cs as [|m cs _] using rev_ind.
      { injection H2 as Hroot'. destruct (proj1 (root_of_Some _ _ _) Hr) as (s & Hs & Hsr).
        by destruct (wf_top d Hwf sb s root (p, n) de Hs Hsr Hk). }
      rewrite walk_snoc in H2. destruct (walk (dirents d) root cs) as [q|] eqn:Eq; [|done]. simpl in H2.
      destruct (dirents d !! (q, m)) as [de'|] eqn:Ede; [|done]. simpl in H2. injection H2 as Heq.
      intros Hl. assert (Hkk : (p, n) = (q, m)).
      { apply (links_one (dirents d) (p, n) (q, m) de de'); try done.
        pose proof (wf_nlink d Hwf _ _ H3) as Hn. pose proof (links_pos _ _ _ Hk). unfold root_link in Hn.
        case_decide; lia. }
      injection Hkk as <- <-. apply Hpre.
      destruct (walk_inode d Hwf sb root ps p Hr Hps) as (pr & Hpr & _).
      pose proof (wf_key_dir d Hwf p n de pr Hk Hpr) as Hpk.
      by rewrite (walk_dir_unique d Hwf sb root ps cs p pr Hr Hps Eq Hpr Hpk).
    + exists rid, x. rewrite (inodes_remove_entry_ne d p n de Hk) by done. done.
  - intros root' cs Hr' Hcs Hg. rewrite Hroot, Hr in Hr'. injection Hr' as <-.
    rewrite (walk_remove_entry d p n de Hwf Hk sb root ps cs Hr Hps). case_decide as Hpre; [done|].
    rewrite get_cacheDelete in Hg by done. case_decide as Hd.
    + apply path_of_inj in Hd; [|done..]. subst cs. by destruct Hpre.
    + by apply (coh_none _ _ _ _ Hc).
  - intros k1 k2 e1 e2 rid H1%Hsub H2%Hsub. by eapply (coh_inj _ _ _ _ Hc).
Qed.
End remove.

(** A row is rewritten in place. *)
Lemma coh_patch ρ v d k0 en0 rid r r' pt :
  wf_db d → coh sb ρ v d → view_get k0 v = Some en0 → ρ (inodeId en0) = Ok rid → inodes d !! rid = Some r →
  (∀ e, entry_matches e r → entry_matches (apply_patch pt e) r') →
  coh sb ρ (updateCacheByInode (inodeId en0) pt v) (set_inodes (<[rid := r']>) d).
Proof.
  intros Hwf Hc Hk0 Hid Hr Hm. pose proof (coh_ok _ _ _ _ Hc) as [Hjwf _].
  assert (Hg : ∀ k, view_get k (updateCacheByInode (inodeId en0) pt v) =
     (λ e, if decide (inodeId e = inodeId en0) then apply_patch pt e else e) <$> view_get k v).
  { intros k. unfold updateCacheByInode. rewrite get_rewriteEntries by done.
    destruct (view_get k v); simpl; [|done]. by case_decide. }
  assert (Hback : ∀ k e', view_get k (updateCacheByInode (inodeId en0) pt v) = Some e' →
     ∃ e, view_get k v = Some e ∧ inodeId e' = inodeId e).
  { intros k e'. rewrite Hg. destruct (view_get k v) as [e|]; simpl; [|done]. intros [= <-].
    exists e. split; [done|]. by case_decide. }
  split.
  - apply rewriteEntries_ok, Hc.
  - intros k [e' (e & He & _)%Hback]. apply (coh_canonical _ _ _ _ Hc). by eexists.
  - apply Hc.
  - intros root cs e' Hroot Hcs. rewrite Hg. destruct (view_get (path_of cs) v) as [e|] eqn:E; simpl; [|done].
    intros [= <-]. destruct (coh_some _ _ _ _ Hc root cs e Hroot Hcs E) as (rid' & x & H1 & H2 & H3 & H4).
    case_decide as Hd.
    + assert (rid' = rid) as -> by congruence. assert (x = r) as -> by congruence.
      exists rid, r'. simpl. rewrite lookup_insert_eq. split_and!; try done. by apply Hm.
    + exists rid', x. simpl. rewrite lookup_insert_ne; [done|]. intros ->. apply Hd.
      by eapply (coh_inj _ _ _ _ Hc (path_of cs) k0).
  - intros root cs Hroot Hcs. rewrite Hg. destruct (view_get (path_of cs) v) as [e|] eqn:E; simpl; [done|].
    intros _. by apply (coh_none _ _ _ _ Hc).
  - intros k1 k2 e1 e2 x (e1' & H1 & ->)%Hback (e2' & H2 & ->)%Hback. by eapply (coh_inj _ _ _ _ Hc).
Qed.

(** A subtree is renamed into a free slot. *)
Section rename.
Context (ρ : Z → res fs_error Z) (v v' : View) (d : db) (ps1 ps2 : list string) (n1 n2 : string) (root p1 p2 : Z).
Context (de : DirentRow) (pr : InodeRow).
Context (Hwf : wf_db d) (Hc : coh sb ρ v d) (Hr : root_of d sb = Some root).
Context (Hps1 : walk (dirents d) root ps1 = Some p1) (Hk : dirents d !! (p1, n1) = Some de).
Context (Hps2 : walk (dirents d) root ps2 = Some p2) (Hp2 : inodes d !! p2 = Some pr) (Hpk : i_kind pr = DIRECTORY).
Context (Hfree : dirents d !! (p2, n2) = None).
Context (Hv1 : valid_comps (ps1 ++ [n1])) (Hv2 : valid_comps (ps2 ++ [n2])).
Context (Hnot : ¬ (ps1 ++ [n1]) `prefix_of` (ps2 ++ [n2])).

(** The view after: the source subtree is at the destination, nothing else moved. *)
Context (Hok' : view_ok v') (Hcan' : canonical v').
Context (Hdest : ∀ rest, valid_comps rest →
  view_get (path_of ((ps2 ++ [n2]) ++ rest)) v' = view_get (path_of ((ps1 ++ [n1]) ++ rest)) v).
Context (Hother : ∀ cs, valid_comps cs → ¬ (ps2 ++ [n2]) `prefix_of` cs →
  view_get (path_of cs) v' = if decide ((ps1 ++ [n1]) `prefix_of` cs) then None else view_get (path_of cs) v).

(** Where a lookup after the rename comes from. *)
Local Lemma rename_get cs : valid_comps cs →
  (∃ cs', valid_comps cs' ∧ view_get (path_of cs) v' = view_get (path_of cs') v ∧
     walk (dirents (rename_entry (p1, n1) (p2, n2) d)) root cs = walk (dirents d) root cs') ∨
  (view_get (path_of cs) v' = None ∧ walk (dirents (rename_entry (p1, n1) (p2, n2) d)) root cs = None).
Proof.
  intros Hcs. destruct (decide ((ps2 ++ [n2]) `prefix_of` cs)) as [[rest ->]|Hpre2].
  - left. exists ((ps1 ++ [n1]) ++ rest). apply valid_comps_app in Hcs as [_ Hrest].
    split_and!; [by apply valid_comps_app | by apply Hdest |].
    by eapply (walk_rename_dest d p1 p2 n1 n2 de pr).
  - rewrite (Hother cs Hcs Hpre2). case_decide as Hpre1.
    + right. destruct Hpre1 as [rest ->]. split; [done|].
      by eapply (walk_rename_src d p1 p2 n1 n2 de pr).
    + left. exists cs. split_and!; try done. by eapply (walk_rename_other d p1 p2 n1 n2 de pr).
Qed.

Lemma coh_rename_entry : coh sb ρ v' (rename_entry (p1, n1) (p2, n2) d).
Proof.
  destruct (rename_entry_rest d p1 p2 n1 n2 de Hk) as (Hsbx & Hin & _).
  assert (Hroot : root_of (rename_entry (p1, n1) (p2, n2) d) sb = Some root) by (unfold root_of; by rewrite Hsbx).
  assert (Hback : ∀ k e, view_get k v' = Some e → ∃ k', view_get k' v = Some e).
  { intros k e He. destruct (Hcan' k (mk_is_Some _ _ He)) as (cs & Hcs & ->).
    destruct (rename_get cs Hcs) as [(cs' & _ & Hg & _)|[Hg _]]; rewrite Hg in He; [|done]. by eexists. }
  split; [done | done | by exists root | | |].
  - intros root' cs e Hr' Hcs Hg. assert (root' = root) as -> by congruence.
    destruct (rename_get cs Hcs) as [(cs' & Hcs' & Hg' & Hw)|[Hg' _]]; rewrite Hg' in Hg; [|done].
    rewrite Hw, Hin. by apply (coh_some _ _ _ _ Hc).
  - intros root' cs Hr' Hcs Hg. assert (root' = root) as -> by congruence.
    destruct (rename_get cs Hcs) as [(cs' & Hcs' & Hg' & Hw)|[_ Hw]]; rewrite Hw; [|done].
    rewrite Hg' in Hg. by apply (coh_none _ _ _ _ Hc).
  - intros k1 k2 e1 e2 rid (k1' & H1)%Hback (k2' & H2)%Hback. by eapply (coh_inj _ _ _ _ Hc).
Qed.
End rename.
End coherence.
