(* ===== verification/Simulation.v ===== *)
(** The replays simulate the view.

    For each namespace operation: when the view is coherent with the database a
    transaction works on, the operation's replay run in that transaction keeps
    the database well-formed and leaves it coherent with the view after the
    operation's path changes. The lemmas hold for any [ρ], so they serve both
    the eager writes ([ρ] is the identity) and the replay of a script's journal
    ([ρ] binds the provisional ids). *)

From S2P Require Import Prelude Errors Paths Store Tree Dialect View Session Namespace Coherence.

Section simulation.
Context `{Config}.

(** [next nids] is the view after the operation, with the ids [nids] for the
    inodes it creates. [may_fail] says when the replay may throw. *)
Definition simulates (v : View) (spec : MutationSpec) (next : list Z → View) (may_fail : Prop) : Prop :=
  ∀ rc t, coh sandboxId (resolveInodeId rc) v (t_db t) → in_tx t sandboxId (expectedEpoch rc) → wf_db (t_db t) →
  match m_run spec rc t with
  | (Err _, _) => may_fail
  | (Ok ids, t') =>
      in_tx t' sandboxId (expectedEpoch rc) ∧ wf_db (t_db t') ∧
      ∃ rids, ids = Some <$> rids ∧ length rids = m_mints spec ∧ Forall (λ r, 0 < r) rids ∧
        ∀ ρ' nids, agrees v (resolveInodeId rc) ρ' → Forall2 (λ n r, ρ' n = Ok r) nids rids →
          coh sandboxId ρ' (next nids) (t_db t')
  end.

(** ** From guards on the view to facts about the database *)

Section slot.
Context (ρ : Z → res fs_error Z) (v : View) (d : db) (ps : list string) (n : string) (pe : PathCacheEntry).
Context (Hwf : wf_db d) (Hc : coh sandboxId ρ v d) (Hv : valid_comps (ps ++ [n])).
Context (Hpe : view_get (path_of ps) v = Some pe) (Hpk : kind pe = DIRECTORY).

Lemma slot_parent :
  ∃ root p pr, root_of d sandboxId = Some root ∧ ρ (inodeId pe) = Ok p ∧ walk (dirents d) root ps = Some p ∧
    inodes d !! p = Some pr ∧ i_kind pr = DIRECTORY ∧ i_sandboxId pr = sandboxId ∧ is_dir d sandboxId p.
Proof.
  apply valid_comps_snoc in Hv as [Hps _].
  destruct (coh_lookup _ ρ v d ps pe Hwf Hc Hps Hpe) as (root & p & pr & Hr & Hρ & Hw & Hi & Hs & Hm).
  destruct Hm as (Hk & _). exists root, p, pr. split_and!; try done; [congruence|].
  exists pr. split_and!; [done | congruence | done].
Qed.

Context (root p : Z) (Hroot : root_of d sandboxId = Some root) (Hwp : walk (dirents d) root ps = Some p).

Lemma slot_free : view_get (path_of (ps ++ [n])) v = None → dirents d !! (p, n) = None.
Proof.
  intros Hg. pose proof (coh_none _ _ _ _ Hc root _ Hroot Hv Hg) as Hw. rewrite walk_snoc, Hwp in Hw. simpl in Hw.
  by destruct (dirents d !! (p, n)).
Qed.

Lemma slot_used en : view_get (path_of (ps ++ [n])) v = Some en →
  ∃ de r, dirents d !! (p, n) = Some de ∧ ρ (inodeId en) = Ok (d_inodeId de) ∧ d_sandboxId de = sandboxId ∧
    inodes d !! d_inodeId de = Some r ∧ i_sandboxId r = sandboxId ∧ entry_matches en r.
Proof.
  intros Hg. destruct (coh_lookup _ ρ v d _ en Hwf Hc Hv Hg) as (root' & rid & r & Hr' & Hρ & Hw & Hi & Hs & Hm).
  assert (root' = root) as -> by congruence. rewrite walk_snoc, Hwp in Hw. simpl in Hw.
  destruct (dirents d !! (p, n)) as [de|] eqn:E; [|done]. simpl in Hw. injection Hw as <-.
  destruct (wf_child d Hwf _ _ E) as (r' & Hr2 & Hs2).
  exists de, r. split_and!; try done. congruence.
Qed.
End slot.

(** No child paths in the view, no entries below in the database. *)
Lemma coh_childless ρ v d cs en rid :
  wf_db d → coh sandboxId ρ v d → valid_comps cs → view_get (path_of cs) v = Some en → ρ (inodeId en) = Ok rid →
  (kind en ≠ DIRECTORY ∨ childPaths (path_of cs) v = []) → childless d rid.
Proof.
  intros Hwf Hc Hv Hg Hρ Hor m.
  destruct (coh_lookup _ ρ v d cs en Hwf Hc Hv Hg) as (root & rid' & r & Hr & Hρ' & Hw & Hi & Hs & Hm).
  assert (rid' = rid) as -> by congruence. destruct Hor as [Hk|Hch].
  - apply (wf_leaf d Hwf rid r); [done|]. destruct Hm as [<- _]. done.
  - destruct (dirents d !! (rid, m)) as [de|] eqn:E; [|done]. exfalso.
    assert (Hvm : valid_comps (cs ++ [m])) by (apply valid_comps_snoc; split; [done | by eapply (wf_name d Hwf)]).
    assert (Hwm : walk (dirents d) root (cs ++ [m]) = Some (d_inodeId de)) by (rewrite walk_snoc, Hw; simpl; by rewrite E).
    destruct (coh_walk _ ρ v d root _ _ Hc Hr Hvm Hwm) as (en' & Hg' & _).
    assert (Hin : path_of (cs ++ [m]) ∈ childPaths (path_of cs) v).
    { apply childPaths_spec; [done | apply Hc | exists m; split_and!; try done; by eexists]. }
    rewrite Hch in Hin. by apply not_elem_of_nil in Hin.
Qed.

(** A destination that may be overwritten. *)
Lemma coh_replaceable ρ v d ps n pe root p :
  wf_db d → coh sandboxId ρ v d → valid_comps (ps ++ [n]) → view_get (path_of ps) v = Some pe → kind pe = DIRECTORY →
  root_of d sandboxId = Some root → walk (dirents d) root ps = Some p →
  (∀ en, view_get (path_of (ps ++ [n])) v = Some en →
     kind en ≠ DIRECTORY ∨ childPaths (path_of (ps ++ [n])) v = []) →
  replaceable d sandboxId p n.
Proof.
  intros Hwf Hc Hv Hpe Hpk Hr Hw Hor de Hde.
  destruct (view_get (path_of (ps ++ [n])) v) as [en|] eqn:E.
  - destruct (slot_used ρ v d ps n Hwf Hc Hv root p Hr Hw en E) as (de' & r & Hde' & Hρ & Hs & _).
    assert (de' = de) as -> by congruence. split; [done|].
    by eapply (coh_childless ρ v d (ps ++ [n]) en); eauto.
  - pose proof (slot_free ρ v d ps n Hc Hv root p Hr Hw E). congruence.
Qed.

(** ** Single-node operations *)

Section ops.
Context (v : View) (ps : list string) (n : string) (pe : PathCacheEntry).
Context (Hv : valid_comps (ps ++ [n])).
Context (Hpe : view_get (path_of ps) v = Some pe) (Hpk : kind pe = DIRECTORY).

Abbreviation path := (path_of (ps ++ [n])).

(** The view and the database after one new node. *)
Lemma added_coherent rc t root p pr r mk :
  coh sandboxId (resolveInodeId rc) v (t_db t) → wf_db (t_db t) →
  root_of (t_db t) sandboxId = Some root → walk (dirents (t_db t)) root ps = Some p →
  inodes (t_db t) !! p = Some pr → i_kind pr = DIRECTORY → dirents (t_db t) !! (p, n) = None →
  (∀ nid, inodeId (mk nid) = nid ∧ entry_matches (mk nid) r) →
  ∀ ρ' nids, agrees v (resolveInodeId rc) ρ' → Forall2 (λ n r, ρ' n = Ok r) nids [next_id (t_db t)] →
    coh sandboxId ρ' (cacheSet path (mk (hd 0 nids)) v) (add_node p n r (t_db (bump sandboxId t))).
Proof.
  intros Hc Hwf Hr Hw Hp Hk Hf Hmk ρ' nids Ha Hn. inversion Hn as [|nid ? nids' ? Hid Hnil]; subst.
  inversion Hnil; subst. simpl. destruct (Hmk nid) as [Hmi Hmm].
  eapply (coh_add_node _ (resolveInodeId rc) ρ' v _ ps n root p r pr); autorewrite with bump; try done.
  - eapply wf_same_shape, Hwf. apply bump_shape.
  - by apply coh_bump.
  - by rewrite root_of_bump.
  - by rewrite Hmi.
Qed.

Lemma wf_added t p pr r :
  wf_db (t_db t) → inodes (t_db t) !! p = Some pr → i_kind pr = DIRECTORY → i_sandboxId pr = i_sandboxId r →
  i_nlink r = 1 → dirents (t_db t) !! (p, n) = None →
  wf_db (add_node p n r (t_db (bump sandboxId t))).
Proof.
  intros Hwf Hp Hk Hs Hn Hf. eapply wf_add_node with (pr := pr); autorewrite with bump; try done.
  - eapply wf_same_shape, Hwf. apply bump_shape.
  - by apply valid_comps_snoc in Hv as [_ ?].
Qed.

(** [createAndInsert] into a free slot, and into a used one. *)
Lemma createAndInsert_free rc t opts p :
  in_tx t sandboxId (expectedEpoch rc) → wf_db (t_db t) → is_dir (t_db t) sandboxId p →
  resolveInodeId rc (inodeId pe) = Ok p → co_sandboxId opts = sandboxId → dirents (t_db t) !! (p, n) = None →
  createAndInsert opts (inodeId pe) n rc t =
  (Ok [Some (next_id (t_db t))],
   on_db (add_node p n (new_inode sandboxId (co_kind opts) (co_mode opts) (co_size opts) (clock (t_db t))
                          (co_contentSha256 opts) (co_symlinkTarget opts))) (bump sandboxId t)).
Proof.
  intros Hin Hwf Hd Hρ Ho Hf. unfold createAndInsert, createNode.
  destruct opts as [os ok om osz osha otgt]. simpl in *. subst os.
  pose proof (createInode_insertDirent_spec t _ _ Hin Hwf p n ok om osz osha otgt Hd Hf) as Hci.
  unfold bindM in Hci |- *. destruct (createInode _ _ t) as [[id|] t1]; [|done]. unfold lift_res. rewrite Hρ.
  destruct (insertDirent p n id t1) as [[] t2]; [|done]. unfold retM in *. by injection Hci as -> ->.
Qed.

Lemma createAndInsert_used rc t opts p de :
  in_tx t sandboxId (expectedEpoch rc) → wf_db (t_db t) → is_dir (t_db t) sandboxId p →
  resolveInodeId rc (inodeId pe) = Ok p → co_sandboxId opts = sandboxId → dirents (t_db t) !! (p, n) = Some de →
  ∃ t', createAndInsert opts (inodeId pe) n rc t = (Err (SqlState "23505"), t').
Proof.
  intros Hin Hwf (pr & Hp & Hk & Hs) Hρ Ho Hde. unfold createAndInsert, createNode.
  unfold bindM at 1. rewrite (createInode_spec t _ _ Hin opts Ho). unfold insert_inode. simpl.
  unfold lift_res, bindM at 1. rewrite Hρ. unfold insertDirent. mnorm.
  erewrite in_tx_sel_inode with (r := pr).
  - unfold insert_dirent_row, bindM. simpl. rewrite bump_dirents. rewrite decide_True by by rewrite Hde. by eexists.
  - apply (in_tx_on_db _ sandboxId (expectedEpoch rc)); [by apply bump_in_tx | done].
  - simpl. autorewrite with bump. rewrite lookup_insert_ne; [done|].
    intros <-. rewrite wf_fresh_inode in Hp; [done | done | lia].
  - done.
Qed.

(** Everything a successful creation in a free slot gives. *)
Lemma sim_created rc t root p pr opts mk :
  coh sandboxId (resolveInodeId rc) v (t_db t) → in_tx t sandboxId (expectedEpoch rc) → wf_db (t_db t) →
  root_of (t_db t) sandboxId = Some root → walk (dirents (t_db t)) root ps = Some p →
  inodes (t_db t) !! p = Some pr → i_kind pr = DIRECTORY → i_sandboxId pr = sandboxId →
  dirents (t_db t) !! (p, n) = None →
  let row := new_inode sandboxId (co_kind opts) (co_mode opts) (co_size opts) (clock (t_db t))
               (co_contentSha256 opts) (co_symlinkTarget opts) in
  (∀ nid, inodeId (mk nid) = nid ∧ entry_matches (mk nid) row) →
  let t' := on_db (add_node p n row) (bump sandboxId t) in
  in_tx t' sandboxId (expectedEpoch rc) ∧ wf_db (t_db t') ∧
  ∃ rids, [Some (next_id (t_db t))] = Some <$> rids ∧ length rids = 1%nat ∧ Forall (λ r, 0 < r) rids ∧
    ∀ ρ' nids, agrees v (resolveInodeId rc) ρ' → Forall2 (λ n r, ρ' n = Ok r) nids rids →
      coh sandboxId ρ' (cacheSet path (mk (hd 0 nids)) v) (t_db t').
Proof.
  intros Hc Hin Hwf Hr Hw Hp Hk Hs Hf row Hmk t'.
  split; [apply in_tx_on_db; [by apply bump_in_tx | done]|].
  split; [by apply (wf_added t p pr)|].
  exists [next_id (t_db t)]. split_and!; [done | done | |].
  - apply Forall_singleton. apply (wf_next _ Hwf).
  - intros ρ' nids Ha Hn. by eapply (added_coherent rc t root p pr row mk).
Qed.

Lemma sim_mkdir k comp mode_ mtime_ :
  view_get path v = None →
  simulates v (mkdir_spec k comp (inodeId pe) n mode_)
    (λ nids, cacheSet path (dir_entry (hd 0 nids) mode_ mtime_) v) False.
Proof.
  intros Hnone rc t Hc Hin Hwf.
  destruct (slot_parent _ v _ ps n pe Hwf Hc Hv Hpe Hpk) as (root & p & pr & Hr & Hρ & Hw & Hp & Hk & Hs & Hd).
  pose proof (slot_free _ v _ ps n Hc Hv root p Hr Hw Hnone) as Hf.
  assert (Hrun : m_run (mkdir_spec k comp (inodeId pe) n mode_) rc t =
    (Ok [Some (next_id (t_db t))],
     on_db (add_node p n (new_inode sandboxId DIRECTORY mode_ 0 (clock (t_db t)) None None)) (bump sandboxId t))).
  { unfold mkdir_spec. destruct comp; cbn [m_run].
    - unfold lift_res, bindM at 1. rewrite Hρ.
      by rewrite (bindM_Ok _ _ _ _ _ (mkdirComposite_spec t _ _ Hin p n mode_ Hd Hf)).
    - by rewrite (createAndInsert_free rc t (dir_opts mode_) p) by done. }
  rewrite Hrun. assert (m_mints (mkdir_spec k comp (inodeId pe) n mode_) = 1%nat) as -> by by destruct comp.
  by apply (sim_created rc t root p pr (dir_opts mode_) (λ i, dir_entry i mode_ mtime_)).
Qed.

Lemma sim_symlink target bytes mtime_ :
  simulates v (mkSpec "symlink" false 1 bytes None (createAndInsert (symlink_opts target) (inodeId pe) n))
    (λ nids, cacheSet path (symlink_entry (hd 0 nids) mtime_ target) v) (is_Some (view_get path v)).
Proof.
  intros rc t Hc Hin Hwf. cbn [m_run m_mints].
  destruct (slot_parent _ v _ ps n pe Hwf Hc Hv Hpe Hpk) as (root & p & pr & Hr & Hρ & Hw & Hp & Hk & Hs & Hd).
  destruct (view_get path v) as [en|] eqn:E.
  - destruct (slot_used _ v _ ps n Hwf Hc Hv root p Hr Hw en E) as (de & _ & Hde & _).
    destruct (createAndInsert_used rc t (symlink_opts target) p de) as [t' ->]; try done.
  - pose proof (slot_free _ v _ ps n Hc Hv root p Hr Hw E) as Hf.
    rewrite (createAndInsert_free rc t (symlink_opts target) p) by done.
    by apply (sim_created rc t root p pr (symlink_opts target) (λ i, symlink_entry i mtime_ target)).
Qed.

(** Removing the entry of the slot, when there is one. *)
Lemma coh_cleared ρ d root p :
  wf_db d → coh sandboxId ρ v d → root_of d sandboxId = Some root → walk (dirents d) root ps = Some p →
  replaceable d sandboxId p n →
  coh sandboxId ρ (cacheDelete path v) (remove_entry (p, n) d) ∧ wf_db (remove_entry (p, n) d) ∧
  dirents (remove_entry (p, n) d) !! (p, n) = None ∧ root_of (remove_entry (p, n) d) sandboxId = Some root ∧
  walk (dirents (remove_entry (p, n) d)) root ps = Some p ∧
  (∀ q pr, inodes d !! q = Some pr → i_kind pr = DIRECTORY → (∃ cs, walk (dirents d) root cs = Some q ∧ cs ≠ ps ++ [n]) →
     inodes (remove_entry (p, n) d) !! q = Some pr).
Proof.
  intros Hwf Hc Hr Hw Hrep. destruct (dirents d !! (p, n)) as [de|] eqn:E.
  - destruct (Hrep de E) as [_ Hcl]. split_and!.
    + by eapply coh_remove_entry.
    + by eapply wf_remove_entry.
    + rewrite (dirents_remove_entry d p n de E). apply lookup_delete_eq.
    + unfold root_of. by rewrite sandboxes_remove.
    + rewrite (walk_remove_entry d p n de Hwf E sandboxId root ps ps Hr Hw).
      rewrite decide_False; [done|]. apply snoc_not_prefix.
    + intros q pr Hq Hqk (cs & Hcs & Hne). rewrite (inodes_remove_entry_ne d p n de E); [done|].
      intros ->. apply Hne. eapply (walk_dir_unique d Hwf sandboxId root); eauto.
      rewrite walk_snoc, Hw. simpl. by rewrite E.
  - unfold remove_entry. rewrite E. split_and!; try done.
    destruct (view_get path v) as [en|] eqn:Eg.
    + destruct (slot_used ρ v d ps n Hwf Hc Hv root p Hr Hw en Eg) as (de & _ & Hde & _). congruence.
    + unfold cacheDelete. by rewrite Eg.
Qed.

(** Everything an overwrite gives. *)
Lemma sim_replaced rc t root p pr opts mk :
  coh sandboxId (resolveInodeId rc) v (t_db t) → in_tx t sandboxId (expectedEpoch rc) → wf_db (t_db t) →
  root_of (t_db t) sandboxId = Some root → walk (dirents (t_db t)) root ps = Some p →
  inodes (t_db t) !! p = Some pr → i_kind pr = DIRECTORY → i_sandboxId pr = sandboxId →
  replaceable (t_db t) sandboxId p n →
  let row := new_inode sandboxId (co_kind opts) (co_mode opts) (co_size opts) (clock (t_db t))
               (co_contentSha256 opts) (co_symlinkTarget opts) in
  (∀ nid, inodeId (mk nid) = nid ∧ entry_matches (mk nid) row) →
  let t' := on_db (replace_node p n row) (bump sandboxId t) in
  in_tx t' sandboxId (expectedEpoch rc) ∧ wf_db (t_db t') ∧
  ∃ rids, [Some (next_id (t_db t))] = Some <$> rids ∧ length rids = 1%nat ∧ Forall (λ r, 0 < r) rids ∧
    ∀ ρ' nids, agrees v (resolveInodeId rc) ρ' → Forall2 (λ n r, ρ' n = Ok r) nids rids →
      coh sandboxId ρ' (cacheSet path (mk (hd 0 nids)) v) (t_db t').
Proof.
  intros Hc Hin Hwf Hr Hw Hp Hk Hs Hrep row Hmk t'.
  assert (Hwb : wf_db (t_db (bump sandboxId t))) by (eapply wf_same_shape, Hwf; apply bump_shape).
  destruct (coh_cleared (resolveInodeId rc) (t_db (bump sandboxId t)) root p)
    as (Hc1 & Hw1 & Hf1 & Hr1 & Hwk1 & Hi1); rewrite ?root_of_bump; autorewrite with bump; try done.
  { by apply coh_bump. }
  { intros de. rewrite bump_dirents. intros Hde. destruct (Hrep de Hde) as [? Hcl]. split; [done|].
    intros m. rewrite bump_dirents. apply Hcl. }
  assert (Hp1 : inodes (remove_entry (p, n) (t_db (bump sandboxId t))) !! p = Some pr).
  { apply Hi1; autorewrite with bump; [done | done|]. exists ps. split; [done|].
    intros Heq%(f_equal length). rewrite length_app in Heq. simpl in Heq. lia. }
  split; [apply in_tx_on_db; [by apply bump_in_tx | simpl; by rewrite sandboxes_remove]|].
  split. { simpl. eapply wf_add_node with (pr := pr); try done. by apply valid_comps_snoc in Hv as [_ ?]. }
  exists [next_id (t_db t)]. split_and!; [done | done | |].
  - apply Forall_singleton. apply (wf_next _ Hwf).
  - intros ρ' nids Ha Hn. inversion Hn as [|nid ? nids' ? Hid Hnil]; subst. inversion Hnil; subst. simpl.
    destruct (Hmk nid) as [Hmi Hmm]. pose proof (coh_ok _ _ _ _ Hc) as Hvok.
    apply (coh_ext _ _ (cacheSet path (mk nid) (cacheDelete path v))).
    + intros k. rewrite !get_cacheSet. case_decide; [done|]. rewrite get_cacheDelete by apply Hvok.
      by rewrite decide_False.
    + by apply cacheSet_ok.
    + eapply (coh_add_node _ (resolveInodeId rc) ρ' _ _ ps n root p row pr); try done.
      * intros k en. rewrite get_cacheDelete by apply Hvok. case_decide; [done|]. apply Ha.
      * rewrite Hmi, Hid, next_id_remove. by autorewrite with bump.
Qed.

(** [createAndReplace] over anything replaceable. *)
Lemma createAndReplace_run rc t opts p :
  in_tx t sandboxId (expectedEpoch rc) → wf_db (t_db t) → is_dir (t_db t) sandboxId p →
  resolveInodeId rc (inodeId pe) = Ok p → co_sandboxId opts = sandboxId → replaceable (t_db t) sandboxId p n →
  createAndReplace opts (inodeId pe) n rc t =
  (Ok [Some (next_id (t_db t))],
   on_db (replace_node p n (new_inode sandboxId (co_kind opts) (co_mode opts) (co_size opts) (clock (t_db t))
                          (co_contentSha256 opts) (co_symlinkTarget opts))) (bump sandboxId t)).
Proof.
  intros Hin Hwf Hd Hρ Ho Hrep. unfold createAndReplace, createNode.
  pose proof (replace_fallback_spec t _ _ Hin Hwf p n opts Ho Hd Hrep) as Hci.
  unfold bindM at 1 in Hci. unfold bindM at 1. destruct (createInode _ _ t) as [[id|] t1]; [|done].
  unfold lift_res, bindM at 1. rewrite Hρ. unfold bindM at 1 in Hci. unfold bindM at 1.
  destruct (upsertDirent p n id t1) as [[o|] t2]; [|done].
  change (λ id, unlinkInode id) with unlink_row. unfold bindM at 1 in Hci. unfold bindM at 1.
  change unlinkInode with unlink_row.
  destruct (match o with Some o => unlink_row o | None => retM tt end t2) as [[]t3]; [|done].
  unfold retM in *. by injection Hci as -> ->.
Qed.

Context (Hrepl : ∀ en, view_get path v = Some en → kind en ≠ DIRECTORY ∨ childPaths path v = []).

Lemma sim_putFile k mode_ size_ sha blob mtime_ :
  simulates v (putFileOp k (inodeId pe) n mode_ size_ sha blob)
    (λ nids, cacheSet path (file_entry (hd 0 nids) mode_ size_ mtime_ sha) v) False.
Proof.
  intros rc t Hc Hin Hwf.
  destruct (slot_parent _ v _ ps n pe Hwf Hc Hv Hpe Hpk) as (root & p & pr & Hr & Hρ & Hw & Hp & Hk & Hs & Hd).
  pose proof (coh_replaceable _ v _ ps n pe root p Hwf Hc Hv Hpe Hpk Hr Hw Hrepl) as Hrep.
  assert (m_mints (putFileOp k (inodeId pe) n mode_ size_ sha blob) = 1%nat) as Hm by (unfold putFileOp; by destruct hasComposites).
  rewrite Hm. unfold putFileOp. destruct hasComposites; cbn [m_run].
  - unfold lift_res, bindM at 1. rewrite Hρ.
    rewrite (bindM_Ok _ _ _ _ _ (writeFileComposite_spec t _ _ Hin Hwf p n mode_ size_ sha Hd Hrep)).
    by apply (sim_replaced rc t root p pr (file_opts mode_ size_ sha) (λ i, file_entry i mode_ size_ mtime_ sha)).
  - set (t0 := if hasCommitBlob then t else on_db (blob_row_upsert sha (default EmptyString blob)) t).
    assert (Hst : (if hasCommitBlob then retM tt else upsertBlob sha (default EmptyString blob)) t = (Ok tt, t0))
      by (unfold t0; by destruct hasCommitBlob).
    rewrite (bindM_Ok _ _ _ _ _ Hst).
    assert (Hfr : dirents (t_db t0) = dirents (t_db t) ∧ inodes (t_db t0) = inodes (t_db t) ∧
                  sandboxes (t_db t0) = sandboxes (t_db t) ∧ same_shape (t_db t) (t_db t0) ∧
                  in_tx t0 sandboxId (expectedEpoch rc)).
    { unfold t0. destruct hasCommitBlob; [done|]. split_and!; done. }
    destruct Hfr as (Hfd & Hfi & Hfs & Hsh & Hin0).
    assert (Hr0 : root_of (t_db t0) sandboxId = Some root) by (unfold root_of; by rewrite Hfs).
    assert (Hwf0 : wf_db (t_db t0)) by by eapply wf_same_shape.
    assert (Hc0 : coh sandboxId (resolveInodeId rc) v (t_db t0)) by (eapply coh_frame; [done | done | congruence | done]).
    assert (Hd0 : is_dir (t_db t0) sandboxId p) by (unfold is_dir; by rewrite Hfi).
    assert (Hrep0 : replaceable (t_db t0) sandboxId p n) by (unfold replaceable, childless; by rewrite Hfd).
    rewrite (createAndReplace_run rc t0 (file_opts mode_ size_ sha) p) by done.
    apply (sim_replaced rc t0 root p pr (file_opts mode_ size_ sha) (λ i, file_entry i mode_ size_ mtime_ sha));
      rewrite ?Hfd, ?Hfi; done.
Qed.

Lemma sim_copy (se : PathCacheEntry) mtime_ :
  simulates v (mkSpec "cp" false 1 None None (createAndReplace (copy_opts se) (inodeId pe) n))
    (λ nids, cacheSet path (with_mtime mtime_ (with_inode (hd 0 nids) se)) v) False.
Proof.
  intros rc t Hc Hin Hwf. cbn [m_run m_mints].
  destruct (slot_parent _ v _ ps n pe Hwf Hc Hv Hpe Hpk) as (root & p & pr & Hr & Hρ & Hw & Hp & Hk & Hs & Hd).
  pose proof (coh_replaceable _ v _ ps n pe root p Hwf Hc Hv Hpe Hpk Hr Hw Hrepl) as Hrep.
  rewrite (createAndReplace_run rc t (copy_opts se) p) by done.
  by apply (sim_replaced rc t root p pr (copy_opts se) (λ i, with_mtime mtime_ (with_inode i se))).
Qed.

(** ** Removing one entry *)

Lemma sim_rm en :
  view_get path v = Some en →
  simulates v (rm_spec (inodeId pe) n) (λ _, cacheDelete path v) False.
Proof.
  intros Hen rc t Hc Hin Hwf.
  destruct (slot_parent _ v _ ps n pe Hwf Hc Hv Hpe Hpk) as (root & p & pr & Hr & Hρ & Hw & Hp & Hk & Hs & Hd).
  destruct (slot_used _ v _ ps n Hwf Hc Hv root p Hr Hw en Hen) as (de & r & Hde & Hρe & Hds & Hi & His & Hm).
  assert (Hcl : childless (t_db t) (d_inodeId de)) by by eapply (coh_childless _ v _ (ps ++ [n]) en); eauto.
  set (t' := on_db (remove_entry (p, n)) (bump sandboxId t)).
  assert (Hrun : m_run (rm_spec (inodeId pe) n) rc t = (Ok [], t')).
  { unfold rm_spec. destruct hasComposites; cbn [m_run]; unfold lift_res, bindM at 1; rewrite Hρ.
    - by rewrite (bindM_Ok _ _ _ _ _ (rmComposite_spec t _ _ Hin Hwf p n de Hde Hds Hcl)).
    - rewrite <- bindM_assoc. change unlinkInode with unlink_row.
      by rewrite (bindM_Ok _ _ _ _ _ (rm_fallback_spec t _ _ Hin Hwf p n de Hde Hds Hcl)). }
  rewrite Hrun. assert (Hwb : wf_db (t_db (bump sandboxId t))) by (eapply wf_same_shape, Hwf; apply bump_shape).
  destruct (coh_cleared (resolveInodeId rc) (t_db (bump sandboxId t)) root p) as (Hc1 & Hw1 & _);
    rewrite ?root_of_bump; autorewrite with bump; try done.
  { by apply coh_bump. }
  { intros de'. rewrite bump_dirents, Hde. intros [= <-]. split; [done|]. intros m. rewrite bump_dirents. apply Hcl. }
  split; [apply in_tx_on_db; [by apply bump_in_tx | apply sandboxes_remove]|]. split; [done|].
  exists []. split_and!; [done | unfold rm_spec; by destruct hasComposites | constructor |].
  intros ρ' nids Ha _. eapply coh_agrees, Hc1. intros k e. rewrite get_cacheDelete by apply Hc.
  case_decide; [done|]. apply Ha.
Qed.

(** ** A second link *)

Lemma sim_link ks se :
  valid_comps ks → view_get (path_of ks) v = Some se → kind se ≠ DIRECTORY → view_get path v = None →
  simulates v (link_op (inodeId se) (inodeId pe) n) (λ _, cacheSet path se v) False.
Proof.
  intros Hks Hse Hsk Hnone rc t Hc Hin Hwf. cbn [m_run m_mints link_op].
  destruct (slot_parent _ v _ ps n pe Hwf Hc Hv Hpe Hpk) as (root & p & pr & Hr & Hρ & Hw & Hp & Hk & Hs & Hd).
  pose proof (slot_free _ v _ ps n Hc Hv root p Hr Hw Hnone) as Hf.
  destruct (coh_lookup _ _ v _ ks se Hwf Hc Hks Hse) as (root' & id & r & Hr' & Hρs & Hws & Hi & His & Hm).
  assert (Hrk : i_kind r ≠ DIRECTORY) by (destruct Hm as [<- _]; done).
  pose proof (link_spec t _ _ Hin p n id r Hd Hi His Hrk Hf) as Hl.
  unfold lift_res, bindM at 1. rewrite Hρs. unfold bindM at 1. unfold bindM at 1 in Hl.
  destruct (incrementNlink id sandboxId (Some (expectedEpoch rc)) t) as [[[]|] t1]; [|done].
  unfold bindM at 1. rewrite Hρ. rewrite (bindM_Ok _ _ _ _ _ Hl). unfold retM.
  assert (Hwb : wf_db (t_db (bump sandboxId t))) by (eapply wf_same_shape, Hwf; apply bump_shape).
  split; [apply in_tx_on_db; [by apply bump_in_tx | done]|].
  split. { simpl. eapply wf_add_link with (pr := pr); autorewrite with bump; try done; [congruence|].
           by apply valid_comps_snoc in Hv as [_ ?]. }
  exists []. split_and!; [done | done | constructor |]. intros ρ' nids Ha _.
  assert (Hag : agrees (cacheSet path se v) (resolveInodeId rc) ρ').
  { intros k e. rewrite get_cacheSet. case_decide; [intros [= <-]; by eapply Ha | apply Ha]. }
  eapply coh_agrees; [done|]. simpl.
  eapply (coh_add_link _ (resolveInodeId rc) v _ ps n root p pr) with (k := path_of ks);
    autorewrite with bump; try done; [by apply coh_bump | by rewrite root_of_bump].
Qed.
End ops.

(** ** Rewriting an inode's metadata *)

Lemma sim_update v cs en k u pt :
  valid_comps cs → view_get (path_of cs) v = Some en → no_patch u = false →
  (∀ e r, entry_matches e r → entry_matches (apply_patch pt e) (patch_inode u r)) →
  simulates v (update_spec k (inodeId en) u) (λ _, updateCacheByInode (inodeId en) pt v) False.
Proof.
  intros Hcs Hen Hu Hpt rc t Hc Hin Hwf. cbn [m_run m_mints update_spec].
  destruct (coh_lookup _ _ v _ cs en Hwf Hc Hcs Hen) as (root & id & r & Hr & Hρ & Hw & Hi & His & Hm).
  unfold lift_res, bindM at 1. rewrite Hρ.
  rewrite (bindM_Ok _ _ _ _ _ (updateInode_spec t _ _ Hin id r u Hu Hi His)). unfold retM.
  assert (Hsh : same_shape (t_db (bump sandboxId t)) (set_inodes (<[id := patch_inode u r]>) (t_db (bump sandboxId t)))).
  { eapply same_shape_inode_update; [by rewrite bump_inodes | done]. }
  split; [apply in_tx_on_db; [by apply bump_in_tx | done]|].
  split. { simpl. eapply wf_same_shape; [done|]. eapply wf_same_shape, Hwf. apply bump_shape. }
  exists []. split_and!; [done | done | constructor |]. intros ρ' nids Ha _. simpl.
  eapply coh_agrees; [|eapply (coh_patch _ (resolveInodeId rc)) with (r := r)]; try done.
  - intros k' e'. unfold updateCacheByInode. rewrite get_rewriteEntries by apply Hc.
    destruct (view_get k' v) as [e|] eqn:E; simpl; [|done]. intros [= <-].
    case_decide; simpl; by eapply Ha.
  - eapply wf_same_shape, Hwf. apply bump_shape.
  - by apply coh_bump.
  - by rewrite bump_inodes.
  - intros e. apply Hpt.
Qed.
End simulation.
