(* ===== verification/Moves.v ===== *)
(** Operations on whole subtrees: the replays of [mv], [rm -r] and [cp -r]
    (src/src/sql-fs/state/namespace/links-moves.ts and directory-tree.ts)
    simulate the changes they publish to the view. *)

From S2P Require Import Prelude Errors Paths Store Tree Dialect View Session Namespace Coherence Simulation.

(** ** What lists of changes do to a lookup *)

Lemma fold_deletes L v k :
  jwf (v_entries v) →
  view_get k (fold_left apply_change (ChDelete <$> L) v) = (if decide (k ∈ L) then None else view_get k v) ∧
  jwf (v_entries (fold_left apply_change (ChDelete <$> L) v)).
Proof.
  revert v. induction L as [|x L IH]; intros v Hwf; [done|]. cbn [fmap list_fmap fold_left apply_change].
  assert (Hwf' : jwf (v_entries (cacheDelete x v))).
  { unfold cacheDelete. destruct (view_get x v); [by apply jdel_wf | done]. }
  destruct (IH (cacheDelete x v) Hwf') as [-> ?]. split; [|done].
  rewrite get_cacheDelete by done. destruct (decide (k ∈ L)) as [Hin|Hin].
  - rewrite decide_True; [done|]. by apply list_elem_of_further.
  - destruct (decide (x = k)) as [->|Hne].
    + rewrite decide_True; [done|]. apply list_elem_of_here.
    + rewrite decide_False; [done|]. rewrite elem_of_cons. naive_solver.
Qed.

Definition set_changes (l : list (string * PathCacheEntry)) : list PathChange :=
  (λ pe, ChSet pe.1 pe.2) <$> l.

Lemma fold_sets l v k :
  jwf l →
  view_get k (fold_left apply_change (set_changes l) v) =
  match jget k l with Some e => Some e | None => view_get k v end.
Proof.
  revert v. induction l as [|[x e] l IH]; intros v Hwf; [done|].
  unfold jwf in Hwf. simpl in Hwf. apply NoDup_cons in Hwf as [Hx Hwf].
  cbn [set_changes fmap list_fmap fold_left apply_change fst snd jget].
  rewrite IH by done. rewrite get_cacheSet. case_decide as Hk.
  - subst k. rewrite decide_True by done. by rewrite (proj2 (jget_None x l) Hx).
  - by rewrite decide_False by done.
Qed.

(** ** mv *)

Section mv_view.
Context (v : View) (ss ds : list string).
Context (Hok : view_ok v) (Hcan : canonical v) (Hs : valid_comps ss) (Hd : valid_comps ds).
Context (Hsne : ss ≠ []) (Hdne : ds ≠ []) (Hnot : ¬ ss `prefix_of` ds).
Context (Hbelow : ∀ rest, rest ≠ [] → valid_comps rest → view_get (path_of (ds ++ rest)) v = None).

Abbreviation v' := (fold_left apply_change (mv_changes v (path_of ss) (path_of ds)) v).

(** The entries [mv] sets, as a map. *)
Definition moved : list (string * PathCacheEntry) :=
  omap (λ p, e ← view_get p v; Some (relocate (path_of ss) (path_of ds) p, e)) (pathsUnder (path_of ss) v).

Lemma under_src p : p ∈ pathsUnder (path_of ss) v → ∃ rest, valid_comps rest ∧ p = path_of (ss ++ rest).
Proof.
  intros [->|(rest & _ & Hv & -> & _)]%pathsUnder_spec; [exists []; rewrite app_nil_r; by split; [constructor|]| |done|done].
  exists rest. by apply valid_comps_app in Hv as [_ ?].
Qed.

Lemma moved_wf : jwf moved.
Proof.
  apply NoDup_omap_key; [|by apply pathsUnder_NoDup, Hok].
  intros p1 p2 y1 y2 (r1 & Hr1 & ->)%under_src (r2 & Hr2 & ->)%under_src.
  destruct (view_get (path_of (ss ++ r1)) v) as [e1|]; [|done].
  destruct (view_get (path_of (ss ++ r2)) v) as [e2|]; [|done].
  intros [= <-] [= <-]. cbn [fst]. rewrite !relocate_under by done. intros Hp.
  apply path_of_inj in Hp; [|by apply valid_comps_app..]. by apply app_inv_head in Hp as ->.
Qed.

Lemma moved_get rest : valid_comps rest →
  jget (path_of (ds ++ rest)) moved = view_get (path_of (ss ++ rest)) v.
Proof.
  intros Hr. destruct (view_get (path_of (ss ++ rest)) v) as [e|] eqn:E.
  - apply (jget_Some _ _ _ moved_wf). apply list_elem_of_omap. exists (path_of (ss ++ rest)). split.
    + apply pathsUnder_spec; [done..|]. destruct (decide (rest = [])) as [->|Hne].
      * left. by rewrite app_nil_r.
      * right. exists rest. split_and!; [done | by apply valid_comps_app | done | by eexists].
    + rewrite E. simpl. by rewrite relocate_under.
  - apply jget_None. intros (y & Hy & (p & Hp & Hf)%list_elem_of_omap)%list_elem_of_fmap.
    destruct (under_src p Hp) as (r & Hvr & ->). destruct (view_get (path_of (ss ++ r)) v) as [e|] eqn:E2; [|done].
    injection Hf as <-. cbn [fst] in Hy. rewrite relocate_under in Hy by done.
    apply path_of_inj in Hy; [|by apply valid_comps_app..]. apply app_inv_head in Hy as ->. congruence.
Qed.

Lemma moved_other k : (∀ rest, valid_comps rest → k ≠ path_of (ds ++ rest)) → jget k moved = None.
Proof.
  intros Hk. apply jget_None. intros (y & -> & (p & Hp & Hf)%list_elem_of_omap)%list_elem_of_fmap.
  destruct (under_src p Hp) as (r & Hvr & ->). destruct (view_get (path_of (ss ++ r)) v) as [e|]; [|done].
  injection Hf as <-. cbn [fst] in Hk. rewrite relocate_under in Hk by done. by apply (Hk r).
Qed.

Lemma mv_get k :
  view_get k v' = match jget k moved with
                  | Some e => Some e
                  | None => if decide (k ∈ pathsUnder (path_of ss) v) then None
                            else if decide (k = path_of ds) then None else view_get k v
                  end.
Proof.
  unfold mv_changes. rewrite !fold_left_app.
  set (v1 := fold_left apply_change (ChDelete <$> pathsUnder (path_of ss) v) v).
  set (L := List.filter _ (view_paths v)). set (v2 := fold_left apply_change (ChDelete <$> L) v1).
  destruct (fold_deletes (pathsUnder (path_of ss) v) v k (proj1 Hok)) as [Hg1 Hw1].
  destruct (fold_deletes L v1 k Hw1) as [Hg2 Hw2].
  assert (Hsets : omap (λ p, e ← view_get p v; Some (ChSet (relocate (path_of ss) (path_of ds) p) e)) (pathsUnder (path_of ss) v)
                  = set_changes moved).
  { unfold set_changes, moved. generalize (pathsUnder (path_of ss) v). intros l.
    induction l as [|p l IH]; [done|]. simpl. destruct (view_get p v); simpl; [f_equal; exact IH | exact IH]. }
  rewrite Hsets, fold_sets by apply moved_wf. destruct (jget k moved); [done|].
  fold v2. unfold v2. rewrite Hg2. unfold v1. rewrite Hg1.
  assert (HL : k ∈ L ↔ is_Some (view_get k v) ∧ k = path_of ds).
  { unfold L. rewrite elem_filter, view_paths_spec. split.
    - intros [Hsome Hf]. split; [done|]. destruct (Hcan k Hsome) as (cs & Hcs & ->).
      destruct (decide (path_of cs = path_of ds)) as [|Hne]; [done|].
      rewrite bool_decide_eq_false_2 in Hf by done. simpl in Hf.
      destruct (proj1 (starts_with_dir_prefix ds cs Hd Hcs) (conj Hne Hf)) as (rest & Hr & ->).
      apply valid_comps_app in Hcs as [_ Hvr]. rewrite Hbelow in Hsome by done. by destruct Hsome.
    - intros [Hsome ->]. split; [done|]. by rewrite bool_decide_eq_true_2. }
  destruct (decide (k ∈ L)) as [Hin|Hin].
  - apply HL in Hin as [_ ->]. rewrite (decide_True (P := path_of ds = path_of ds)) by done. by case_decide.
  - case_decide; [done|]. destruct (decide (k = path_of ds)) as [->|]; [|done].
    destruct (view_get (path_of ds) v) eqn:E; [|done]. destruct Hin. apply HL. split; [by eexists | done].
Qed.

Lemma mv_get_dest rest : valid_comps rest →
  view_get (path_of (ds ++ rest)) v' = view_get (path_of (ss ++ rest)) v.
Proof.
  intros Hr. rewrite mv_get, moved_get by done. destruct (view_get (path_of (ss ++ rest)) v) as [e|]; [done|].
  destruct (decide (rest = [])) as [->|Hne].
  - rewrite app_nil_r. rewrite (decide_True (P := path_of ds = path_of ds)) by done. by case_decide.
  - rewrite Hbelow by done. by repeat case_decide.
Qed.

Lemma mv_get_other cs : valid_comps cs → ¬ ds `prefix_of` cs →
  view_get (path_of cs) v' = if decide (ss `prefix_of` cs) then None else view_get (path_of cs) v.
Proof.
  intros Hcs Hpre. rewrite mv_get, moved_other.
  - assert (path_of cs ≠ path_of ds) by (intros ?%path_of_inj; [by subst; destruct Hpre|done|done]).
    rewrite (decide_False (P := path_of cs = path_of ds)) by done.
    destruct (decide (ss `prefix_of` cs)) as [[rest ->]|Hns].
    + case_decide as Hin; [done|]. destruct (view_get (path_of (ss ++ rest)) v) as [e|] eqn:E; [|done].
      destruct Hin. apply pathsUnder_spec; [done..|]. destruct (decide (rest = [])) as [->|Hne].
      * left. by rewrite app_nil_r.
      * right. exists rest. split_and!; [done | done | done | by rewrite E].
    + rewrite decide_False; [done|]. intros (rest & Hvr & Heq)%under_src.
      apply path_of_inj in Heq; [|done|by apply valid_comps_app]. subst. apply Hns. by exists rest.
  - intros rest Hvr Heq. apply path_of_inj in Heq; [|done|by apply valid_comps_app]. subst. apply Hpre. by exists rest.
Qed.

Lemma mv_canonical : canonical v'.
Proof.
  intros k. rewrite mv_get. destruct (jget k moved) as [e|] eqn:E.
  - intros _. apply jget_elem, list_elem_of_omap in E as (p & Hp & Hf).
    destruct (under_src p Hp) as (r & Hvr & ->). destruct (view_get (path_of (ss ++ r)) v); [|done].
    injection Hf as <- _. rewrite relocate_under by done. exists (ds ++ r). split; [by apply valid_comps_app | done].
  - repeat case_decide; [by intros []..|apply Hcan].
Qed.
End mv_view.

Section mv_sim.
Context `{Config}.
Context (v : View) (ps1 ps2 : list string) (n1 n2 : string) (pe1 pe2 se : PathCacheEntry).
Abbreviation ss := (ps1 ++ [n1]).
Abbreviation ds := (ps2 ++ [n2]).
Context (Hv1 : valid_comps ss) (Hv2 : valid_comps ds).
Context (Hpe1 : view_get (path_of ps1) v = Some pe1).
Context (Hpe2 : view_get (path_of ps2) v = Some pe2) (Hpk2 : kind pe2 = DIRECTORY).
Context (Hse : view_get (path_of ss) v = Some se).
Context (Hdir : kind se = DIRECTORY → ¬ ss `prefix_of` ds).
Context (Hid : inodeId <$> view_get (path_of ds) v ≠ Some (inodeId se)).
Context (Hrepl : ∀ de, view_get (path_of ds) v = Some de → kind de ≠ DIRECTORY ∨ childPaths (path_of ds) v = []).

Section facts.
Context (ρ : Z → res fs_error Z) (d : db) (root p1 p2 : Z) (de1 : DirentRow).
Context (Hwf : wf_db d) (Hc : coh sandboxId ρ v d) (Hr : root_of d sandboxId = Some root).
Context (Hw1 : walk (dirents d) root ps1 = Some p1) (Hk1 : dirents d !! (p1, n1) = Some de1).
Context (Hw2 : walk (dirents d) root ps2 = Some p2).

Lemma mv_not_prefix : ¬ ss `prefix_of` ds.
Proof.
  destruct (decide (kind se = DIRECTORY)) as [Hk|Hk]; [by apply Hdir|]. intros [rest Heq].
  destruct rest as [|m rest _] using rev_ind.
  - rewrite app_nil_r in Heq. rewrite Heq, Hse in Hid. by destruct Hid.
  - rewrite app_assoc in Heq. apply app_inj_tail in Heq as [Heq _].
    destruct (coh_lookup _ ρ v d ss se Hwf Hc Hv1 Hse) as (root' & rid & r & Hr' & _ & Hws & Hi & _ & Hm).
    assert (root' = root) as -> by congruence. rewrite Heq, walk_app, Hws in Hw2. simpl in Hw2.
    destruct rest as [|m' rest].
    + rewrite app_nil_r in Heq. rewrite Heq, Hse in Hpe2. by injection Hpe2 as <-.
    + simpl in Hw2. rewrite (wf_leaf d Hwf rid r) in Hw2; [done | done |]. destruct Hm as [<- _]. done.
Qed.

Lemma mv_keys_ne : (p1, n1) ≠ (p2, n2).
Proof.
  intros Heq. destruct (coh_lookup _ ρ v d ss se Hwf Hc Hv1 Hse) as (root' & rid & r & Hr' & Hρ & Hws & _).
  assert (root' = root) as -> by congruence. rewrite walk_snoc, Hw1 in Hws. simpl in Hws.
  assert (Hwd : walk (dirents d) root ds = Some rid).
  { rewrite walk_snoc, Hw2. simpl. by rewrite <- Heq. }
  destruct (coh_walk _ ρ v d root ds rid Hc Hr Hv2 Hwd) as (en & Hen & Hρn).
  apply Hid. rewrite Hen. simpl. f_equal. by eapply (coh_inj _ _ _ _ Hc).
Qed.

Lemma mv_dest_not_above : replaceable d sandboxId p2 n2 → ¬ ds `prefix_of` ps1.
Proof.
  intros Hrep [rest Heq]. rewrite Heq, walk_app, walk_snoc, Hw2 in Hw1. simpl in Hw1.
  destruct (dirents d !! (p2, n2)) as [de2|] eqn:E; [|done]. simpl in Hw1.
  destruct (Hrep de2 E) as [_ Hcl]. destruct rest as [|m rest].
  - simpl in Hw1. injection Hw1 as <-. by rewrite Hcl in Hk1.
  - simpl in Hw1. by rewrite Hcl in Hw1.
Qed.

(** No view entry lies strictly below the destination. *)
Lemma mv_below rest : rest ≠ [] → valid_comps rest → replaceable d sandboxId p2 n2 →
  view_get (path_of (ds ++ rest)) v = None.
Proof.
  intros Hne Hvr Hrep. destruct (view_get (path_of (ds ++ rest)) v) as [en|] eqn:E; [|done].
  destruct (coh_some _ _ _ _ Hc root (ds ++ rest) en Hr) as (rid & r & _ & Hw & _); [by apply valid_comps_app | done|].
  rewrite walk_app, walk_snoc, Hw2 in Hw. simpl in Hw. destruct (dirents d !! (p2, n2)) as [de2|] eqn:E2; [|done].
  destruct (Hrep de2 E2) as [_ Hcl]. simpl in Hw. destruct rest as [|m rest]; [done|]. simpl in Hw. by rewrite Hcl in Hw.
Qed.
End facts.

(** The rename on the cleared database, whatever the version. *)
Lemma mv_renamed ρ d d1 root p1 p2 de1 :
  wf_db d → coh sandboxId ρ v d → root_of d sandboxId = Some root →
  walk (dirents d) root ps1 = Some p1 → dirents d !! (p1, n1) = Some de1 → d_sandboxId de1 = sandboxId →
  walk (dirents d) root ps2 = Some p2 → is_dir d sandboxId p2 → replaceable d sandboxId p2 n2 →
  dirents d1 = dirents (remove_entry (p2, n2) d) → inodes d1 = inodes (remove_entry (p2, n2) d) →
  root_of d1 sandboxId = Some root → wf_db d1 →
  wf_db (rename_entry (p1, n1) (p2, n2) d1) ∧
  coh sandboxId ρ (fold_left apply_change (mv_changes v (path_of ss) (path_of ds)) v)
    (rename_entry (p1, n1) (p2, n2) d1).
Proof.
  intros Hwf Hc Hr Hw1 Hk1 Hs1 Hw2 Hd2 Hrep Hdd Hdi Hr1 Hwf1.
  pose proof (mv_not_prefix ρ d root p2 Hwf Hc Hr Hw2) as Hnp.
  pose proof (mv_keys_ne ρ d root p1 p2 Hwf Hc Hr Hw1 Hw2) as Hne.
  pose proof (mv_dest_not_above d root p1 p2 de1 Hw1 Hk1 Hw2 Hrep) as Hna.
  destruct (coh_cleared v ps2 n2 Hv2 ρ d root p2 Hwf Hc Hr Hw2 Hrep) as (Hc1 & _ & Hf1 & _ & Hwk2 & Hi1).
  assert (Hwk1 : walk (dirents (remove_entry (p2, n2) d)) root ps1 = Some p1).
  { destruct (dirents d !! (p2, n2)) as [de2|] eqn:E.
    - rewrite (walk_remove_entry d p2 n2 de2 Hwf E sandboxId root ps2 ps1 Hr Hw2). by rewrite decide_False.
    - unfold remove_entry. by rewrite E. }
  assert (Hkk : dirents (remove_entry (p2, n2) d) !! (p1, n1) = Some de1).
  { destruct (dirents d !! (p2, n2)) as [de2|] eqn:E.
    - rewrite (dirents_remove_entry d p2 n2 de2 E). by rewrite lookup_delete_ne by congruence.
    - unfold remove_entry. by rewrite E. }
  destruct Hd2 as (pr & Hpr & Hprk & Hprs).
  assert (Hpr1 : inodes (remove_entry (p2, n2) d) !! p2 = Some pr).
  { apply Hi1; [done | done|]. exists ps2. split; [done|].
    intros Heq%(f_equal length). rewrite length_app in Heq. simpl in Heq. lia. }
  assert (Hcd1 : coh sandboxId ρ (cacheDelete (path_of ds) v) d1).
  { eapply coh_frame; [done | done | | done]. rewrite Hr1. unfold root_of. by rewrite sandboxes_remove. }
  pose proof (coh_ok _ _ _ _ Hc) as Hok. pose proof (coh_canonical _ _ _ _ Hc) as Hcan.
  assert (Hbel : ∀ rest, rest ≠ [] → valid_comps rest → view_get (path_of (ds ++ rest)) v = None).
  { intros rest Hrne Hrv. by eapply (mv_below ρ d root p2). }
  rewrite <- Hdd in *. rewrite <- Hdi in *. split.
  - eapply (wf_rename_entry d1 p1 p2 n1 n2 de1 pr); try done; [congruence|]. by apply valid_comps_snoc in Hv2 as [_ ?].
  - eapply (coh_rename_entry sandboxId ρ (cacheDelete (path_of ds) v) _ d1 ps1 ps2 n1 n2 root p1 p2 de1 pr); try done.
    + by apply apply_changes_ok.
    + apply mv_canonical; try done; by destruct ps1, ps2.
    + intros rest Hrest. rewrite mv_get_dest; try done; [|by destruct ps1|by destruct ps2].
      rewrite get_cacheDelete by apply Hok. rewrite decide_False; [done|].
      intros Heq%path_of_inj; [|done|by apply valid_comps_app]. apply Hnp. rewrite Heq. by exists rest.
    + intros cs Hcs Hpre. rewrite mv_get_other; try done; [|by destruct ps1|by destruct ps2].
      case_decide; [done|]. rewrite get_cacheDelete by apply Hok. rewrite decide_False; [done|].
      intros Heq%path_of_inj; [|done|done]. apply Hpre. by rewrite Heq.
Qed.

(** The replay of a move: the destination is cleared, the entry renamed. *)
Lemma mv_run rc t root p1 p2 de1 :
  coh sandboxId (resolveInodeId rc) v (t_db t) → in_tx t sandboxId (expectedEpoch rc) → wf_db (t_db t) →
  root_of (t_db t) sandboxId = Some root → walk (dirents (t_db t)) root ps2 = Some p2 →
  resolveInodeId rc (inodeId pe1) = Ok p1 → resolveInodeId rc (inodeId pe2) = Ok p2 →
  dirents (t_db t) !! (p1, n1) = Some de1 → d_sandboxId de1 = sandboxId → is_dir (t_db t) sandboxId p2 →
  (p1, n1) ≠ (p2, n2) → replaceable (t_db t) sandboxId p2 n2 →
  ∃ t1, (t1 = on_db (remove_entry (p2, n2)) (bump sandboxId t)
         ∨ t1 = bump sandboxId (on_db (remove_entry (p2, n2)) (bump sandboxId t))) ∧
    m_run (mv_spec (inodeId pe1) n1 (inodeId pe2) n2 (view_get (path_of ds) v)) rc t
    = (Ok [], on_db (rename_entry (p1, n1) (p2, n2)) t1).
Proof.
  intros Hc Hin Hwf Hr Hw2 Hρ1 Hρ2 Hk1 Hs1 Hd2 Hne Hrep.
  unfold mv_spec. destruct hasComposites; cbn [m_run]; unfold lift_res, bindM at 1; rewrite Hρ1; unfold bindM at 1; rewrite Hρ2.
  - eexists. split; [by right|].
    by rewrite (bindM_Ok _ _ _ _ _ (mvComposite_spec t _ _ Hin Hwf p1 p2 n1 n2 de1 Hk1 Hs1 Hd2 Hne Hrep)).
  - eexists. split; [by left|].
    pose proof (mv_fallback_spec t _ _ Hin Hwf p1 p2 n1 n2 de1 Hk1 Hs1 Hd2 Hne Hrep) as Hf.
    unfold bindM at 1 in Hf. unfold bindM at 1.
    destruct (moveDirent _ _ _ _ _ _ t) as [[[]|] t1]; [|done].
    change unlinkInode with unlink_row. destruct (view_get (path_of ds) v) as [den|] eqn:Ed.
    + destruct (slot_used _ v _ ps2 n2 Hwf Hc Hv2 root p2 Hr Hw2 den Ed) as (de2 & _ & Hde2 & Hρd & _).
      rewrite Hde2 in Hf. simpl in Hf. rewrite bindM_assoc. unfold bindM at 1. rewrite Hρd.
      by rewrite (bindM_Ok _ _ _ _ _ Hf).
    + rewrite (slot_free _ v _ ps2 n2 Hc Hv2 root p2 Hr Hw2 Ed) in Hf. simpl in Hf.
      by rewrite (bindM_Ok _ _ _ _ _ Hf).
Qed.

(** The transaction between the two, with or without a second bump. *)
Lemma mv_cleared_tx rc t t1 root p2 :
  in_tx t sandboxId (expectedEpoch rc) → root_of (t_db t) sandboxId = Some root →
  wf_db (remove_entry (p2, n2) (t_db (bump sandboxId t))) →
  (t1 = on_db (remove_entry (p2, n2)) (bump sandboxId t)
   ∨ t1 = bump sandboxId (on_db (remove_entry (p2, n2)) (bump sandboxId t))) →
  in_tx t1 sandboxId (expectedEpoch rc) ∧ wf_db (t_db t1) ∧ root_of (t_db t1) sandboxId = Some root ∧
  dirents (t_db t1) = dirents (remove_entry (p2, n2) (t_db (bump sandboxId t))) ∧
  inodes (t_db t1) = inodes (remove_entry (p2, n2) (t_db (bump sandboxId t))).
Proof.
  intros Hin Hr Hwc Ht1.
  assert (Hin2 : in_tx (on_db (remove_entry (p2, n2)) (bump sandboxId t)) sandboxId (expectedEpoch rc))
    by (apply in_tx_on_db; [by apply bump_in_tx | apply sandboxes_remove]).
  assert (Hrr : root_of (remove_entry (p2, n2) (t_db (bump sandboxId t))) sandboxId = Some root).
  { unfold root_of. rewrite sandboxes_remove. fold (root_of (t_db (bump sandboxId t)) sandboxId). by rewrite root_of_bump. }
  destruct Ht1 as [->| ->]; [done|].
  split_and!; [by apply bump_in_tx | | by rewrite root_of_bump | by rewrite bump_dirents | by rewrite bump_inodes].
  by eapply wf_same_shape; [apply bump_shape|].
Qed.

(** The entries of the moved view are entries of the old one. *)
Lemma mv_agrees ρ ρ' d root p2 :
  wf_db d → coh sandboxId ρ v d → root_of d sandboxId = Some root → walk (dirents d) root ps2 = Some p2 →
  replaceable d sandboxId p2 n2 → agrees v ρ ρ' →
  agrees (fold_left apply_change (mv_changes v (path_of ss) (path_of ds)) v) ρ ρ'.
Proof.
  intros Hwf Hc Hr Hw2 Hrep Ha k e He.
  assert (Hbelow : ∀ rest, rest ≠ [] → valid_comps rest → view_get (path_of (ds ++ rest)) v = None)
    by (intros rest Hrne Hrv; by eapply (mv_below ρ d root p2)).
  destruct (mv_canonical v ss ds (coh_ok _ _ _ _ Hc) (coh_canonical _ _ _ _ Hc) Hv1 Hv2) with (k := k) as (cs & Hcs & ->);
    [by destruct ps1 | by destruct ps2 | done | by eexists |].
  destruct (decide (ds `prefix_of` cs)) as [[rest ->]|Hpre].
  - apply valid_comps_app in Hcs as [_ Hrest]. rewrite mv_get_dest in He; try done;
      [by eapply Ha | apply Hc | apply Hc | by destruct ps1 | by destruct ps2].
  - rewrite mv_get_other in He; try done; [case_decide; [done | by eapply Ha] | apply Hc | apply Hc | by destruct ps1 | by destruct ps2].
Qed.

Lemma sim_mv :
  simulates v (mv_spec (inodeId pe1) n1 (inodeId pe2) n2 (view_get (path_of ds) v))
    (λ _, fold_left apply_change (mv_changes v (path_of ss) (path_of ds)) v) False.
Proof.
  intros rc t Hc Hin Hwf.
  destruct (slot_parent _ v _ ps2 n2 pe2 Hwf Hc Hv2 Hpe2 Hpk2) as (root & p2 & pr2 & Hr & Hρ2 & Hw2 & Hp2 & Hk2 & Hs2 & Hd2).
  destruct (coh_lookup _ _ v _ ss se Hwf Hc Hv1 Hse) as (root' & rid & r & Hr' & Hρs & Hws & Hi & His & Hm).
  assert (root' = root) as -> by congruence.
  pose proof Hv1 as [Hps1 _]%valid_comps_snoc.
  destruct (coh_some _ _ _ _ Hc root ps1 pe1 Hr Hps1 Hpe1) as (p1 & pr1 & Hρ1 & Hw1 & Hi1 & _).
  rewrite walk_snoc, Hw1 in Hws. simpl in Hws. destruct (dirents (t_db t) !! (p1, n1)) as [de1|] eqn:Hk1; [|done].
  assert (Hs1 : d_sandboxId de1 = sandboxId) by (destruct (wf_child _ Hwf _ _ Hk1) as (? & ? & ?); simplify_eq/=; congruence).
  pose proof (coh_replaceable _ v _ ps2 n2 pe2 root p2 Hwf Hc Hv2 Hpe2 Hpk2 Hr Hw2 Hrepl) as Hrep.
  pose proof (mv_keys_ne _ _ root p1 p2 Hwf Hc Hr Hw1 Hw2) as Hne.
  assert (Hwb : wf_db (t_db (bump sandboxId t))) by (eapply wf_same_shape, Hwf; apply bump_shape).
  destruct (mv_cleared t sandboxId p1 p2 n1 n2 de1 Hk1 Hd2 Hne Hrep _ Hwb) as (Hwc & _ & _ & _);
    [apply bump_dirents | apply bump_inodes|].
  destruct (mv_run rc t root p1 p2 de1) as (t1 & Ht1 & ->); try done.
  destruct (mv_cleared_tx rc t t1 root p2 Hin Hr Hwc Ht1) as (Hin1 & Hwf1 & Hr1 & Hdd & Hdi).
  destruct (mv_renamed (resolveInodeId rc) (t_db (bump sandboxId t)) (t_db t1) root p1 p2 de1)
    as [Hwfin Hcfin]; autorewrite with bump; try done.
  - by apply coh_bump.
  - by rewrite root_of_bump.
  - unfold is_dir. by rewrite bump_inodes.
  - unfold replaceable, childless. by rewrite bump_dirents.
  - split. { apply in_tx_on_db; [done|]. unfold rename_entry. by destruct (dirents (t_db t1) !! (p1, n1)). }
    split; [done|]. exists []. split_and!; [done | unfold mv_spec; by destruct hasComposites | constructor |].
    intros ρ' nids Ha _. eapply coh_agrees, Hcfin. by eapply (mv_agrees _ _ (t_db t) root p2).
Qed.
End mv_sim.

(** ** rm -r *)

Lemma bump_set_dirents sb f t :
  bump sb (on_db (set_dirents f) t) = on_db (set_dirents f) (bump sb t).
Proof. unfold bump. simpl. by destruct (sandboxes (t_db t) !! sb). Qed.

Lemma drop_row_set_dirents id f d : drop_row id (set_dirents f d) = set_dirents f (drop_row id d).
Proof. unfold drop_row. simpl. destruct (inodes d !! id); [by case_decide | done]. Qed.

Section rmr.
Context `{Config}.
Context (rc : ReplayContext) (k0 : Z * string).

(** The replay deletes the entry of the subtree's root first. Seen from a
    transaction [T] in which that entry is still there, each later step removes
    one entry. *)
Abbreviation hidden := (on_db (set_dirents (delete k0))).

Lemma rm_step_spec T p n de r :
  in_tx T sandboxId (expectedEpoch rc) → wf_db (t_db T) → dirents (t_db T) !! (p, n) = Some de → (p, n) ≠ k0 →
  d_sandboxId de = sandboxId → inodes (t_db T) !! d_inodeId de = Some r → childless (t_db T) (d_inodeId de) →
  (let* _ := deleteDirent p n sandboxId (Some (expectedEpoch rc)) in unlink_row (d_inodeId de)) (hidden T)
  = (Ok tt, hidden (on_db (remove_entry (p, n)) (bump sandboxId T))).
Proof.
  intros Hin Hwf Hk Hne Hs Hr Hcl.
  assert (Hinh : in_tx (hidden T) sandboxId (expectedEpoch rc)) by by apply in_tx_on_db.
  assert (Hkh : dirents (t_db (hidden T)) !! (p, n) = Some de) by (simpl; by rewrite lookup_delete_ne by congruence).
  rewrite (bindM_Ok _ _ _ _ _ (deleteDirent_spec (hidden T) _ _ Hinh p n de Hkh Hs)).
  destruct (wf_child _ Hwf _ _ Hk) as (r' & Hr' & Hrs). assert (r' = r) as -> by congruence.
  rewrite bump_set_dirents. rewrite (unlink_row_spec sandboxId (expectedEpoch rc) _ _ r).
  - unfold on_db. simpl. rewrite drop_row_set_dirents. unfold remove_entry. rewrite bump_dirents, Hk.
    f_equal. f_equal. rewrite !drop_row_set_dirents. unfold set_dirents. simpl.
    by rewrite delete_delete.
  - apply in_tx_on_db; [|done]. apply in_tx_on_db; [by apply bump_in_tx | done].
  - simpl. by rewrite bump_inodes.
  - congruence.
  - by eapply entry_nlink.
  - intros Hl. destruct (unlinked_unreferenced (t_db T) p n de r) as [Hu1 Hu2]; try done; [lia|].
    split.
    + intros m. simpl. rewrite bump_dirents. apply lookup_delete_None. right.
      apply lookup_delete_None. right. apply Hcl.
    + intros k' de'. simpl. rewrite bump_dirents. intros [Hk1 [_ Hk2]%lookup_delete_Some]%lookup_delete_Some.
      apply (Hu2 k'). simpl. by rewrite lookup_delete_ne.
Qed.

Context (v : View) (ps : list string) (n : string).
Abbreviation ss := (ps ++ [n]).
Context (Hss : valid_comps ss).

(** The paths still to remove, deepest first, in a view [w] that has lost the
    others. *)
Record pending (L : list string) (w : View) : Prop := {
  pd_sub q e : view_get q w = Some e → view_get q v = Some e;
  pd_all p : p ∈ L ↔ ∃ rest, valid_comps rest ∧ p = path_of (ss ++ rest) ∧ is_Some (view_get p w);
  pd_nodup : NoDup L;
  pd_sorted : StronglySorted (λ a b, - depth_key a ≤ - depth_key b) L;
  pd_top : path_of ss ∈ L
}.

Lemma depth_ss rest : valid_comps rest → depth_key (path_of (ss ++ rest)) = 1 + Z.of_nat (length (ss ++ rest)).
Proof.
  intros Hr. rewrite depth_key_path_of by by apply valid_comps_app. rewrite decide_False; [done|]. by destruct ps.
Qed.

(** The deepest pending path has nothing below it. *)
Lemma pending_childless p L w d root cs rid :
  wf_db d → coh sandboxId (resolveInodeId rc) w d → root_of d sandboxId = Some root → pending (p :: L) w →
  valid_comps cs → p = path_of (ss ++ cs) → walk (dirents d) root (ss ++ cs) = Some rid → childless d rid.
Proof.
  intros Hwf Hc Hr Hp Hcs -> Hw m. destruct (dirents d !! (rid, m)) as [de|] eqn:E; [|done]. exfalso.
  assert (Hvm : valid_comps (cs ++ [m])).
  { apply valid_comps_snoc. split; [done | by eapply (wf_name d Hwf)]. }
  assert (Hwm : walk (dirents d) root (ss ++ cs ++ [m]) = Some (d_inodeId de)).
  { rewrite app_assoc, walk_snoc, Hw. simpl. by rewrite E. }
  destruct (coh_walk _ _ w d root (ss ++ cs ++ [m]) (d_inodeId de) Hc Hr) as (en & Hen & _); [by apply valid_comps_app | done |].
  assert (Hin : path_of (ss ++ cs ++ [m]) ∈ path_of (ss ++ cs) :: L).
  { apply (pd_all _ _ Hp). exists (cs ++ [m]). split_and!; [done | done | by eexists]. }
  apply elem_of_cons in Hin as [Heq|Hin].
  - apply path_of_inj in Heq; [|by apply valid_comps_app..]. apply app_inv_head in Heq.
    apply (f_equal length) in Heq. rewrite length_app in Heq. simpl in Heq. lia.
  - pose proof (pd_sorted _ _ Hp) as Hso. inversion Hso as [|? ? _ Hf]; subst.
    pose proof (proj1 (Forall_forall _ _) Hf _ Hin) as Hle. simpl in Hle. rewrite !depth_ss in Hle by done.
    rewrite !length_app in Hle. simpl in Hle. lia.
Qed.

Lemma pending_last L w : pending (path_of ss :: L) w → L = [].
Proof.
  intros Hp. destruct L as [|q L]; [done|]. exfalso.
  destruct (proj1 (pd_all _ _ Hp q)) as (rest & Hr & -> & _); [apply list_elem_of_further, list_elem_of_here|].
  pose proof (pd_nodup _ _ Hp) as [Hni _]%NoDup_cons. pose proof (pd_sorted _ _ Hp) as Hso.
  inversion Hso as [|? ? _ Hf]; subst. apply Forall_cons in Hf as [Hle _].
  rewrite depth_ss in Hle by done. replace ss with (ss ++ []) in Hle at 1 by apply app_nil_r.
  rewrite depth_ss in Hle by constructor. rewrite !length_app in Hle. simpl in Hle.
  apply Hni. assert (rest = []) as -> by (apply length_zero_iff_nil; lia). rewrite app_nil_r. apply list_elem_of_here.
Qed.

Lemma pending_next p L w :
  jwf (v_entries w) → pending (p :: L) w → p ≠ path_of ss → pending L (cacheDelete p w).
Proof.
  intros Hwf [H1 H2 H3 H4 H5] Hne. apply NoDup_cons in H3 as [Hni H3]. split.
  - intros q e. rewrite get_cacheDelete by done. case_decide; [done | apply H1].
  - intros q. split.
    + intros Hq. destruct (proj1 (H2 q)) as (rest & Hr & -> & Hs); [by apply list_elem_of_further|].
      exists rest. split_and!; [done | done |]. rewrite get_cacheDelete by done. by rewrite decide_False by congruence.
    + intros (rest & Hr & -> & Hs). rewrite get_cacheDelete in Hs by done. case_decide as Hd; [by destruct Hs|].
      assert (Hin : path_of (ss ++ rest) ∈ p :: L) by (apply H2; by exists rest).
      apply elem_of_cons in Hin as [?|?]; congruence.
  - done.
  - by inversion H4.
  - apply elem_of_cons in H5 as [?|?]; congruence.
Qed.

Context (root p0 : Z) (de0 : DirentRow) (Hk0 : k0 = (p0, n)).

(** The last step drops the inode of the hidden entry. *)
Lemma rm_last_spec T de r :
  in_tx T sandboxId (expectedEpoch rc) → wf_db (t_db T) → dirents (t_db T) !! k0 = Some de →
  inodes (t_db T) !! d_inodeId de = Some r → i_sandboxId r = sandboxId → childless (t_db T) (d_inodeId de) →
  unlink_row (d_inodeId de) (hidden T) = (Ok tt, on_db (remove_entry k0) T).
Proof.
  intros Hin Hwf Hk Hi His Hcl. rewrite (unlink_row_spec sandboxId (expectedEpoch rc) _ _ r); try done.
  - unfold on_db, remove_entry. by rewrite Hk.
  - by eapply entry_nlink.
  - intros Hl. subst k0. eapply unlinked_unreferenced; try done. lia.
Qed.

(** A transaction that still shows the root's entry, with a coherent view. *)
Record rm_at (w : View) (T : tx) : Prop := {
  ra_tx : in_tx T sandboxId (expectedEpoch rc);
  ra_wf : wf_db (t_db T);
  ra_coh : coh sandboxId (resolveInodeId rc) w (t_db T);
  ra_root : root_of (t_db T) sandboxId = Some root;
  ra_walk : walk (dirents (t_db T)) root ps = Some p0;
  ra_entry : dirents (t_db T) !! k0 = Some de0;
}.

(** An entry below the root of the subtree is not the root's own. *)
Lemma rm_key_ne w T rest pid m de :
  rm_at w T → walk (dirents (t_db T)) root (ss ++ rest) = Some pid → dirents (t_db T) !! (pid, m) = Some de → (pid, m) ≠ k0.
Proof.
  intros [_ Hwf _ Hr Hw _] Ew Ede. subst k0. intros [= -> ->]. destruct (walk_inode _ Hwf _ _ _ _ Hr Hw) as (pr & Hpr & _).
  pose proof (wf_key_dir _ Hwf _ _ _ _ Ede Hpr) as Hkd.
  pose proof (walk_dir_unique _ Hwf _ _ _ _ _ _ Hr Hw Ew Hpr Hkd) as Heq.
  apply (f_equal length) in Heq. rewrite !length_app in Heq. simpl in Heq. lia.
Qed.

(** Removing a childless entry below the root leads to such a transaction. *)
Lemma rm_at_next w T rest pid m de :
  rm_at w T → valid_comps ((ss ++ rest) ++ [m]) → walk (dirents (t_db T)) root (ss ++ rest) = Some pid →
  dirents (t_db T) !! (pid, m) = Some de → childless (t_db T) (d_inodeId de) →
  rm_at (cacheDelete (path_of ((ss ++ rest) ++ [m])) w) (on_db (remove_entry (pid, m)) (bump sandboxId T)).
Proof.
  intros Ha Hvr Ew Ede Hcl. pose proof (rm_key_ne w T rest pid m de Ha Ew Ede) as Hkne. destruct Ha as [Hin Hwf Hc Hr Hw Hk].
  assert (Hwb : wf_db (t_db (bump sandboxId T))) by (eapply wf_same_shape, Hwf; apply bump_shape).
  assert (Hedb : dirents (t_db (bump sandboxId T)) !! (pid, m) = Some de) by by rewrite bump_dirents.
  assert (Hclb : childless (t_db (bump sandboxId T)) (d_inodeId de)) by (intros x'; rewrite bump_dirents; apply Hcl).
  split.
  - apply in_tx_on_db; [by apply bump_in_tx | apply sandboxes_remove].
  - by eapply wf_remove_entry.
  - eapply coh_remove_entry with (root := root) (p := pid); try done;
      [by apply coh_bump | by rewrite root_of_bump | by rewrite bump_dirents].
  - unfold root_of. simpl. rewrite sandboxes_remove. fold (root_of (t_db (bump sandboxId T)) sandboxId). by rewrite root_of_bump.
  - simpl. rewrite (walk_remove_entry _ pid m de Hwb Hedb sandboxId root (ss ++ rest) ps);
      rewrite ?root_of_bump, ?bump_dirents; try done.
    rewrite decide_False; [done|]. intros Hpre%prefix_length. rewrite !length_app in Hpre. simpl in Hpre. lia.
  - simpl. rewrite (dirents_remove_entry _ pid m de Hedb), bump_dirents. by rewrite lookup_delete_ne.
Qed.

(** The rest of the replay, once the root's entry is hidden. *)
Lemma rm_steps_spec L : ∀ w T, rm_at w T → pending L w →
  ∃ t', rm_steps (rm_plan v (path_of ss) L) rc (hidden T) = (Ok tt, t') ∧
    in_tx t' sandboxId (expectedEpoch rc) ∧ wf_db (t_db t') ∧
    coh sandboxId (resolveInodeId rc) (fold_left apply_change (ChDelete <$> L) w) (t_db t').
Proof.
  induction L as [|p L IH]; intros w T Hat Hp.
  { pose proof (pd_top _ _ Hp) as []%not_elem_of_nil. }
  pose proof Hat as [Hin Hwf Hc Hr Hw Hk].
  destruct (proj1 (pd_all _ _ Hp p)) as (rest & Hrest & Hpe & [e He]); [apply list_elem_of_here|].
  assert (Hvr : valid_comps (ss ++ rest)) by by apply valid_comps_app.
  rewrite Hpe in He. destruct (coh_lookup _ _ w _ _ e Hwf Hc Hvr He) as (root' & rid & r & Hr' & Hρ & Hwr & Hi & His & Hm).
  assert (root' = root) as -> by congruence.
  assert (Hcl : childless (t_db T) rid) by by apply (pending_childless p L w _ root rest).
  pose proof (pd_sub _ _ Hp _ _ He) as Hev. unfold rm_plan. cbn [omap list_omap]. rewrite Hpe, Hev. simpl.
  destruct rest as [|m rest _] using rev_ind.
  - rewrite app_nil_r in *. subst p. rewrite decide_True by done.
    assert (L = []) as -> by by eapply pending_last. simpl.
    rewrite walk_snoc, Hw in Hwr. simpl in Hwr. rewrite <- Hk0, Hk in Hwr. simpl in Hwr. injection Hwr as <-.
    unfold lift_res. mnorm. unfold bindM at 1. rewrite Hρ. change unlinkInode with unlink_row.
    rewrite (bindM_Ok _ _ _ _ _ (rm_last_spec T de0 r Hin Hwf Hk Hi His Hcl)). eexists. split; [done|].
    split; [apply in_tx_on_db; [done | apply sandboxes_remove]|]. clear Hat IH. subst k0. simpl.
    split; [by eapply wf_remove_entry | by eapply coh_remove_entry].
  - rewrite app_assoc in *.
    assert (Hne : path_of ((ss ++ rest) ++ [m]) ≠ path_of ss).
    { intros Heq. apply path_of_inj in Heq; [|done|done]. apply (f_equal length) in Heq. rewrite !length_app in Heq. simpl in Heq. lia. }
    rewrite decide_False by done. rewrite parentOf_snoc, nameOf_snoc by done.
    rewrite walk_snoc in Hwr. destruct (walk (dirents (t_db T)) root (ss ++ rest)) as [pid|] eqn:Ew; [|done]. simpl in Hwr.
    destruct (dirents (t_db T) !! (pid, m)) as [de|] eqn:Ede; [|done]. simpl in Hwr. injection Hwr as <-.
    pose proof Hvr as [Hvp _]%valid_comps_snoc.
    destruct (coh_walk _ _ w _ root _ _ Hc Hr Hvp Ew) as (en & Hen & Hρp).
    rewrite (pd_sub _ _ Hp _ _ Hen). simpl. unfold lift_res. mnorm. unfold bindM at 1. rewrite Hρp. mnorm.
    assert (Hds : d_sandboxId de = sandboxId) by (destruct (wf_child _ Hwf _ _ Ede) as (? & ? & ?); congruence).
    pose proof (rm_step_spec T pid m de r Hin Hwf Ede (rm_key_ne w T rest pid m de Hat Ew Ede) Hds Hi Hcl) as Hst.
    unfold bindM at 1 in Hst. unfold bindM at 1.
    destruct (deleteDirent pid m sandboxId _ (hidden T)) as [[x|] t1]; [|done]. mnorm.
    unfold bindM at 1. rewrite Hρ. change unlinkInode with unlink_row. rewrite (bindM_Ok _ _ _ _ _ Hst).
    cbn [fmap list_fmap fold_left apply_change]. apply IH; [by eapply rm_at_next|].
    apply pending_next; [apply Hc | by rewrite <- Hpe | done].
Qed.
End rmr.

(** The parent of an existing node is a directory. *)
Lemma coh_parent_dir sb ρ v d ps n pe en :
  wf_db d → coh sb ρ v d → valid_comps (ps ++ [n]) → view_get (path_of ps) v = Some pe →
  view_get (path_of (ps ++ [n])) v = Some en → kind pe = DIRECTORY.
Proof.
  intros Hwf Hc Hv Hpe Hen. pose proof Hv as [Hps _]%valid_comps_snoc.
  destruct (coh_root _ _ _ _ Hc) as (root & Hr).
  destruct (coh_some _ _ _ _ Hc root ps pe Hr Hps Hpe) as (p & pr & _ & Hw & Hi & Hm & _).
  destruct (coh_some _ _ _ _ Hc root _ en Hr Hv Hen) as (id & r & _ & Hw' & _).
  rewrite walk_snoc, Hw in Hw'. simpl in Hw'. destruct (dirents d !! (p, n)) as [de|] eqn:E; [|done].
  rewrite Hm. by eapply (wf_key_dir d Hwf).
Qed.

Lemma fold_deletes_agrees L v ρ ρ' :
  jwf (v_entries v) → agrees v ρ ρ' → agrees (fold_left apply_change (ChDelete <$> L) v) ρ ρ'.
Proof.
  intros Hwf Ha k e. destruct (fold_deletes L v k Hwf) as [-> _]. case_decide; [done | apply Ha].
Qed.

Section rmr_sim.
Context `{Config}.
Context (v : View) (ps : list string) (n : string) (pe en : PathCacheEntry).
Abbreviation ss := (ps ++ [n]).
Context (Hss : valid_comps ss).
Context (Hpe : view_get (path_of ps) v = Some pe) (Hen : view_get (path_of ss) v = Some en).

Lemma pending_start : view_ok v → canonical v → pending v ps n (rm_order (pathsUnder (path_of ss) v)) v.
Proof.
  intros Hok Hcan. unfold rm_order. split.
  - done.
  - intros p. rewrite sort_on_perm, pathsUnder_spec by done. split.
    + intros [->|(rest & _ & Hv & -> & Hs)].
      * exists []. rewrite app_nil_r. split_and!; [constructor | done | by eexists].
      * exists rest. by apply valid_comps_app in Hv as [_ ?].
    + intros (rest & Hr & -> & Hs). destruct (decide (rest = [])) as [->|Hne]; [left; by rewrite app_nil_r|].
      right. exists rest. split_and!; try done. by apply valid_comps_app.
  - rewrite sort_on_perm. apply pathsUnder_NoDup, Hok.
  - apply sort_on_sorted.
  - rewrite sort_on_perm. apply pathsUnder_spec; [done..|by left].
Qed.

Lemma sim_rmr bytes :
  simulates v (mkSpec "rm -r" false 0 bytes None
      (rmr_run (Some (inodeId pe)) n (rm_plan v (path_of ss) (rm_order (pathsUnder (path_of ss) v)))))
    (λ _, fold_left apply_change (ChDelete <$> rm_order (pathsUnder (path_of ss) v)) v) False.
Proof.
  intros rc t Hc Hin Hwf. cbn [m_run m_mints]. unfold rmr_run.
  pose proof (coh_parent_dir _ _ v _ ps n pe en Hwf Hc Hss Hpe Hen) as Hpk.
  destruct (slot_parent _ v _ ps n pe Hwf Hc Hss Hpe Hpk) as (root & p & pr & Hr & Hρ & Hw & Hp & Hk & Hs & Hd).
  destruct (slot_used _ v _ ps n Hwf Hc Hss root p Hr Hw en Hen) as (de & r & Hde & Hρe & Hds & _).
  unfold lift_res. mnorm. unfold bindM at 1. rewrite Hρ. mnorm.
  rewrite (bindM_Ok _ _ _ _ _ (deleteDirent_spec t _ _ Hin p n de Hde Hds)). mnorm.
  destruct (rm_steps_spec rc (p, n) v ps n Hss root p de eq_refl (rm_order (pathsUnder (path_of ss) v)) v (bump sandboxId t))
    as (t' & Hrun & Hin' & Hwf' & Hc').
  - split; autorewrite with bump; try done; [by apply bump_in_tx | eapply wf_same_shape, Hwf; apply bump_shape | by apply coh_bump | by rewrite root_of_bump].
  - apply pending_start; apply Hc.
  - rewrite (bindM_Ok _ _ _ _ _ Hrun). unfold retM. split_and!; [done | done |].
    exists []. split_and!; [done | done | constructor |]. intros ρ' nids Ha _.
    eapply coh_agrees, Hc'. by apply fold_deletes_agrees; [apply Hc|].
Qed.
End rmr_sim.

(** The root has no entry of its own, so removing it always fails. *)
Section rm_root.
Context `{Config} (v : View) (pe : PathCacheEntry) (Hpe : view_get "/" v = Some pe).

Lemma root_no_entry rc t :
  coh sandboxId (resolveInodeId rc) v (t_db t) → wf_db (t_db t) →
  ∃ p, resolveInodeId rc (inodeId pe) = Ok p ∧ dirents (t_db t) !! (p, EmptyString) = None.
Proof.
  intros Hc Hwf.
  destruct (coh_lookup _ _ v _ [] pe Hwf Hc) as (root & p & pr & Hr & Hρ & Hw & Hi & His & Hm); [constructor | done|].
  exists p. split; [done|]. destruct (dirents (t_db t) !! (p, EmptyString)) as [de|] eqn:E; [|done].
  by destruct (wf_name _ Hwf _ _ _ E) as [? _].
Qed.

Lemma deleteDirent_absent t e p n :
  in_tx t sandboxId e → dirents (t_db t) !! (p, n) = None →
  ∃ er t', deleteDirent p n sandboxId (Some e) t = (Err er, t').
Proof.
  intros Hin Hd. unfold deleteDirent. rewrite (bindM_Ok _ _ _ _ _ (fence_in_tx t _ _ false Hin)). mnorm.
  rewrite sel_dirent_None by by rewrite bump_dirents. by do 2 eexists.
Qed.

Lemma rmComposite_absent t e p n :
  in_tx t sandboxId e → dirents (t_db t) !! (p, n) = None →
  ∃ er t', rmComposite sandboxId p n (Some e) t = (Err er, t').
Proof.
  intros Hin Hd. unfold rmComposite. rewrite (bindM_Ok _ _ _ _ _ (fence_in_tx t _ _ true Hin)). mnorm.
  rewrite sel_dirent_None by by rewrite bump_dirents. by do 2 eexists.
Qed.

Lemma sim_rmr_root bytes plan next :
  simulates v (mkSpec "rm -r" false 0 bytes None (rmr_run (Some (inodeId pe)) EmptyString plan)) next True.
Proof.
  intros rc t Hc Hin Hwf. cbn [m_run m_mints]. unfold rmr_run.
  destruct (root_no_entry rc t Hc Hwf) as (p & Hρ & Hd).
  destruct (deleteDirent_absent t _ p EmptyString Hin Hd) as (er & t' & Hrun).
  unfold lift_res. mnorm. unfold bindM at 1. rewrite Hρ. mnorm. by rewrite (bindM_Err _ _ _ _ _ Hrun).
Qed.

Lemma sim_rm_root next : simulates v (rm_spec (inodeId pe) EmptyString) next True.
Proof.
  intros rc t Hc Hin Hwf. destruct (root_no_entry rc t Hc Hwf) as (p & Hρ & Hd).
  unfold rm_spec. destruct hasComposites; cbn [m_run m_mints]; unfold lift_res; unfold bindM at 1; rewrite Hρ.
  - destruct (rmComposite_absent t _ p EmptyString Hin Hd) as (er & t' & Hrun). by rewrite (bindM_Err _ _ _ _ _ Hrun).
  - destruct (deleteDirent_absent t _ p EmptyString Hin Hd) as (er & t' & Hrun). by rewrite (bindM_Err _ _ _ _ _ Hrun).
Qed.
End rm_root.
