(* ===== verification/Copies.v ===== *)
(** [cp -r] (src/src/sql-fs/state/namespace/directory-tree.ts): the replay of a
    recursive copy simulates the entries it publishes.

    The copied paths are handled parents first; every path below the copy's root
    finds its parent among the inodes the same replay created. *)

From S2P Require Import Prelude Errors Paths Store Tree Dialect View Session Namespace Coherence Simulation Moves.

Lemma fresh_id v : ∃ i, ∀ k e, view_get k v = Some e → inodeId e ≠ i.
Proof.
  exists (fresh (list_to_set ((λ pe, inodeId pe.2) <$> v_entries v) : gset Z)). intros k e Hg Heq.
  apply (is_fresh (list_to_set ((λ pe, inodeId pe.2) <$> v_entries v) : gset Z)). rewrite <- Heq.
  apply elem_of_list_to_set, list_elem_of_fmap. exists (k, e). split; [done|]. by apply jget_elem.
Qed.

(** A run that succeeds for whichever id the view gives to a new inode has one
    outcome for all of them. *)
Lemma any_id (w : View) (ρ : Z → res fs_error Z) (x : Z) (run : res fs_error (list (option Z)) * tx)
    (A : list Z → tx → Prop) (B : (Z → res fs_error Z) → Z → list Z → tx → Prop) :
  (∀ ρ' nid, agrees w ρ ρ' → ρ' nid = Ok x →
     ∃ rids t', run = (Ok (Some <$> rids), t') ∧ A rids t' ∧ B ρ' nid rids t') →
  ∃ rids t', run = (Ok (Some <$> rids), t') ∧ A rids t' ∧
    ∀ ρ' nid, agrees w ρ ρ' → ρ' nid = Ok x → B ρ' nid rids t'.
Proof.
  intros Hgo. destruct (fresh_id w) as (i & Hi).
  destruct (Hgo (λ j, if decide (j = i) then Ok x else ρ j) i) as (rids & t' & Hrun & HA & _).
  { intros k e Hg. by rewrite decide_False by by eapply Hi. }
  { by rewrite decide_True. }
  exists rids, t'. split_and!; [done | done |]. intros ρ' nid Ha Hid.
  destruct (Hgo ρ' nid Ha Hid) as (rids' & t'' & Hrun' & _ & HB).
  rewrite Hrun in Hrun'. injection Hrun' as Heq <-. by apply (inj (fmap Some)) in Heq as <-.
Qed.

Section cp.
Context `{Config}.
Context (v : View) (ss ds : list string) (mtime_ : Z).
Context (Hss : valid_comps ss) (Hds : valid_comps ds) (Hsne : ss ≠ []) (Hdne : ds ≠ []).

Abbreviation src_entry := (λ rest, view_get (path_of (ss ++ rest)) v).

(** The entry published for a copy. *)
Definition copied (nid : Z) (e : PathCacheEntry) : PathCacheEntry := with_mtime mtime_ (with_inode nid e).

(** The view after the copies of [L]. *)
Fixpoint cp_next (w : View) (L : list (list string)) (nids : list Z) : View :=
  match L, nids with
  | rest :: L', nid :: nids' =>
      cp_next (match src_entry rest with
               | Some e => cacheSet (path_of (ds ++ rest)) (copied nid e) w
               | None => w
               end) L' nids'
  | _, _ => w
  end.

(** A step of the plan for the path [rest] below the source. *)
Definition step_for (rest : list string) (step : CpStep) : Prop :=
  src_entry rest = Some (cs_entry step) ∧ cs_destPath step = path_of (ds ++ rest) ∧
  cs_name step = nameOf (path_of (ds ++ rest)) ∧ cs_parentPath step = parentOf (path_of (ds ++ rest)) ∧
  cs_existingParentId step = inodeId <$> view_get (parentOf (path_of (ds ++ rest))) v.

Lemma cp_plan_steps L plan :
  cp_plan v (path_of ss) (path_of ds) ((λ rest, path_of (ss ++ rest)) <$> L) = Ok plan → Forall2 step_for L plan.
Proof.
  revert plan. induction L as [|rest L IH]; intros plan; simpl; [intros [= <-]; constructor|].
  destruct (view_get (path_of (ss ++ rest)) v) as [e|] eqn:E; [|done].
  rewrite relocate_under by done. destruct (validatePath _); [|done]. destruct (assertStoredPath _ _); [|done].
  destruct (cp_plan _ _ _ _) as [plan'|] eqn:Ep; [|done]. intros [= <-]. constructor; [|by apply IH].
  unfold step_for. simpl. done.
Qed.

(** What is still to copy: paths in order of depth, none copied yet, each with
    its parent copied or still to come. *)
Record to_copy (L : list (list string)) (w : View) : Prop := {
  tc_valid : Forall valid_comps L;
  tc_below : [] ∉ L;
  tc_src rest : rest ∈ L → is_Some (src_entry rest);
  tc_nodup : NoDup L;
  tc_sorted : StronglySorted (λ a b, (length a ≤ length b)%nat) L;
  tc_free rest : rest ∈ L → view_get (path_of (ds ++ rest)) w = None;
  tc_parent init m : init ++ [m] ∈ L →
    (init ∈ L ∨ ∃ e, view_get (path_of (ds ++ init)) w = Some e ∧ kind e = DIRECTORY);
  tc_dir init m e : init ++ [m] ∈ L → src_entry init = Some e → kind e = DIRECTORY
}.

(** The ids the replay has created, as the view knows them. *)
Definition created_ok (ρ : Z → res fs_error Z) (created : list (string * Z)) (w : View) : Prop :=
  ∀ rest e, valid_comps rest → view_get (path_of (ds ++ rest)) w = Some e →
    ∃ rid, jget (path_of (ds ++ rest)) created = Some rid ∧ ρ (inodeId e) = Ok rid.

Lemma to_copy_next init m L w e nid :
  to_copy ((init ++ [m]) :: L) w → src_entry (init ++ [m]) = Some e →
  to_copy L (cacheSet (path_of (ds ++ init ++ [m])) (copied nid e) w).
Proof.
  intros [H1 H2 H3 H4 H5 H6 H7 H8] He. apply NoDup_cons in H4 as [Hni H4]. apply Forall_cons in H1 as [Hvh H1].
  split; try done.
  - rewrite not_elem_of_cons in H2. by destruct H2.
  - intros rest Hr. apply H3. by apply list_elem_of_further.
  - by inversion H5.
  - intros rest Hr. rewrite get_cacheSet, decide_False; [apply H6; by apply list_elem_of_further|].
    intros Heq. pose proof (proj1 (Forall_forall _ _) H1 _ Hr) as Hvr.
    apply path_of_inj in Heq; [|by apply valid_comps_app..]. apply app_inv_head in Heq. by subst.
  - intros i x Hin. destruct (H7 i x) as [Hi|(e' & He' & Hk')]; [by apply list_elem_of_further| |].
    + apply elem_of_cons in Hi as [->|Hi]; [|by left]. right. exists (copied nid e).
      rewrite get_cacheSet, decide_True by done. split; [done|]. simpl.
      eapply (H8 (init ++ [m]) x); [by apply list_elem_of_further | done].
    + right. exists e'. rewrite get_cacheSet, decide_False; [done|]. intros Heq.
      rewrite <- Heq in He'. rewrite H6 in He'; [done|]. apply list_elem_of_here.
  - intros i x e' Hin. by apply (H8 i x), list_elem_of_further.
Qed.

Section steps.
Context (rc : ReplayContext) (root : Z).

(** One step: the copy of [init ++ [m]] under the copy of [init]. *)
Lemma cp_step_spec step init m L w ρ T created :
  in_tx T sandboxId (expectedEpoch rc) → wf_db (t_db T) → coh sandboxId ρ w (t_db T) →
  root_of (t_db T) sandboxId = Some root → to_copy ((init ++ [m]) :: L) w → created_ok ρ created w →
  step_for (init ++ [m]) step →
  ∃ p pr row, walk (dirents (t_db T)) root (ds ++ init) = Some p ∧ inodes (t_db T) !! p = Some pr ∧
    i_kind pr = DIRECTORY ∧ i_sandboxId pr = sandboxId ∧ dirents (t_db T) !! (p, m) = None ∧
    jget (cs_parentPath step) created = Some p ∧ cs_name step = m ∧
    row = new_inode sandboxId (kind (cs_entry step)) (mode (cs_entry step)) (e_size (cs_entry step)) (clock (t_db T))
            (contentSha256 (cs_entry step)) (symlinkTarget (cs_entry step)) ∧
    (let* newId := createNode rc (copy_opts (cs_entry step)) in insertDirent p m newId ;;; retM newId) T
    = (Ok (next_id (t_db T)), on_db (add_node p m row) (bump sandboxId T)).
Proof.
  intros Hin Hwf Hc Hr Htc Hcr (He & Hdp & Hn & Hpp & _).
  pose proof (tc_valid _ _ Htc) as [Hv _]%Forall_cons.
  assert (Hvd : valid_comps ((ds ++ init) ++ [m])) by (rewrite <- app_assoc; by apply valid_comps_app).
  pose proof Hvd as [Hvi _]%valid_comps_snoc. pose proof Hv as [Hvin _]%valid_comps_snoc.
  assert (Hpar : ∃ e, view_get (path_of (ds ++ init)) w = Some e ∧ kind e = DIRECTORY).
  { destruct (tc_parent _ _ Htc init m) as [Hi|?]; [apply list_elem_of_here | | done]. exfalso.
    pose proof (tc_sorted _ _ Htc) as Hso. inversion Hso as [|? ? _ Hf]; subst.
    apply elem_of_cons in Hi as [Heq|Hi].
    - apply (f_equal length) in Heq. rewrite length_app in Heq. simpl in Heq. lia.
    - pose proof (proj1 (Forall_forall _ _) Hf _ Hi) as Hle. simpl in Hle. rewrite length_app in Hle. simpl in Hle. lia. }
  destruct Hpar as (pe & Hpe & Hpk).
  destruct (slot_parent ρ w _ (ds ++ init) m pe Hwf Hc Hvd Hpe Hpk) as (root' & p & pr & Hr' & Hρ & Hw & Hp & Hk & Hs & Hd).
  assert (root' = root) as -> by congruence.
  assert (Hf : dirents (t_db T) !! (p, m) = None).
  { eapply (slot_free ρ w _ (ds ++ init) m Hc Hvd root p Hr Hw). rewrite <- app_assoc.
    apply (tc_free _ _ Htc). apply list_elem_of_here. }
  destruct (Hcr init pe Hvin Hpe) as (rid & Hj & Hρ'). assert (rid = p) as -> by congruence.
  exists p, pr. eexists. rewrite Hpp, Hn, app_assoc, parentOf_snoc, nameOf_snoc by done.
  split_and!; try done.
  pose proof (createInode_insertDirent_spec T _ _ Hin Hwf p m (kind (cs_entry step)) (mode (cs_entry step))
    (e_size (cs_entry step)) (contentSha256 (cs_entry step)) (symlinkTarget (cs_entry step)) Hd Hf) as Hci. exact Hci.
Qed.

(** Where the replay stands: a transaction, a view coherent with it, and the
    inodes created so far. *)
Record cp_at (ρ : Z → res fs_error Z) (w : View) (T : tx) (created : list (string * Z)) : Prop := {
  ca_tx : in_tx T sandboxId (expectedEpoch rc);
  ca_wf : wf_db (t_db T);
  ca_coh : coh sandboxId ρ w (t_db T);
  ca_root : root_of (t_db T) sandboxId = Some root;
  ca_created : created_ok ρ created w;
}.

(** The copy of one entry leads on, whichever id the view gives to it. *)
Lemma cp_at_next ρ w T created init m e p pr row ρ' nid :
  cp_at ρ w T created → valid_comps (init ++ [m]) → walk (dirents (t_db T)) root (ds ++ init) = Some p →
  inodes (t_db T) !! p = Some pr → i_kind pr = DIRECTORY → i_sandboxId pr = sandboxId → dirents (t_db T) !! (p, m) = None →
  row = new_inode sandboxId (kind e) (mode e) (e_size e) (clock (t_db T)) (contentSha256 e) (symlinkTarget e) →
  agrees w ρ ρ' → ρ' nid = Ok (next_id (t_db T)) →
  cp_at ρ' (cacheSet (path_of (ds ++ init ++ [m])) (copied nid e) w) (on_db (add_node p m row) (bump sandboxId T))
    (jset (path_of (ds ++ init ++ [m])) (next_id (t_db T)) created).
Proof.
  intros [Hin Hwf Hc Hr Hcr] Hv Hw Hp Hk Hs Hf Hrow Ha Hid.
  assert (Hwb : wf_db (t_db (bump sandboxId T))) by (eapply wf_same_shape, Hwf; apply bump_shape).
  assert (Hvd : valid_comps ((ds ++ init) ++ [m])) by (rewrite <- app_assoc; by apply valid_comps_app).
  split.
  - apply in_tx_on_db; [by apply bump_in_tx | done].
  - simpl. eapply wf_add_node with (pr := pr); autorewrite with bump; subst row; try done. by apply valid_comps_snoc in Hv as [_ ?].
  - rewrite app_assoc. eapply (coh_add_node _ ρ ρ' w _ (ds ++ init) m root p row pr); autorewrite with bump; try done;
      [by apply coh_bump | by rewrite root_of_bump | by subst row].
  - change (root_of (t_db (bump sandboxId T)) sandboxId = Some root). by rewrite root_of_bump.
  - intros rest e' Hvr. rewrite get_cacheSet, jget_jset. case_decide as Hd.
    + intros [= <-]. exists (next_id (t_db T)). simpl. done.
    + intros Hg. destruct (Hcr rest e' Hvr Hg) as (rid & ? & ?). exists rid. by rewrite (Ha _ _ Hg).
Qed.

(** The outcome of the rest of the replay. *)
Definition cp_finished (ρ : Z → res fs_error Z) (w : View) (L : list (list string)) (run : res fs_error (list (option Z)) * tx) : Prop :=
  ∃ rids t', run = (Ok (Some <$> rids), t') ∧
    (in_tx t' sandboxId (expectedEpoch rc) ∧ wf_db (t_db t') ∧ length rids = length L ∧ Forall (λ r, 0 < r) rids) ∧
    ∀ ρ' nids, agrees w ρ ρ' → Forall2 (λ n r, ρ' n = Ok r) nids rids → coh sandboxId ρ' (cp_next w L nids) (t_db t').

(** When the rest ends well for every id of a new entry [e] at [path], the run
    has one outcome for all ids. *)
Lemma cp_finished_any w ρ x L path e run :
  (∀ ρ' nid, agrees w ρ ρ' → ρ' nid = Ok x → cp_finished ρ' (cacheSet path (copied nid e) w) L run) →
  ∃ rids t', run = (Ok (Some <$> rids), t') ∧
    (in_tx t' sandboxId (expectedEpoch rc) ∧ wf_db (t_db t') ∧ length rids = length L ∧ Forall (λ r, 0 < r) rids) ∧
    ∀ ρ' nid, agrees w ρ ρ' → ρ' nid = Ok x → ∀ nids, Forall2 (λ n r, ρ' n = Ok r) nids rids →
      coh sandboxId ρ' (cp_next (cacheSet path (copied nid e) w) L nids) (t_db t').
Proof.
  intros Hgo. apply (any_id w ρ x run
    (λ rids t', in_tx t' sandboxId (expectedEpoch rc) ∧ wf_db (t_db t') ∧ length rids = length L ∧ Forall (λ r, 0 < r) rids)
    (λ ρ' nid rids t', ∀ nids, Forall2 (λ n r, ρ' n = Ok r) nids rids →
       coh sandboxId ρ' (cp_next (cacheSet path (copied nid e) w) L nids) (t_db t'))).
  intros ρ' nid Ha Hid. destruct (Hgo ρ' nid Ha Hid) as (rids & t' & Hrun & HA & HB).
  exists rids, t'. split_and!; try done; try apply HA. intros nids. apply HB, agrees_refl.
Qed.

(** The rest of the replay, once the root of the copy is there. *)
Lemma cp_steps_spec L : ∀ plan w ρ T created,
  Forall2 step_for L plan → cp_at ρ w T created → to_copy L w → cp_finished ρ w L (cp_steps plan created rc T).
Proof.
  induction L as [|rest L IH]; intros plan w ρ T created Hpl Hat Htc.
  { inversion Hpl; subst. exists [], T. split_and!; [done | apply Hat | apply Hat | done | constructor |].
    intros ρ' nids Ha Hn. inversion Hn; subst. eapply coh_agrees, (ca_coh _ _ _ _ Hat). done. }
  inversion Hpl as [|? step ? plan' Hst Hpl']; subst.
  destruct rest as [|m init _] using rev_ind.
  { destruct (tc_below _ _ Htc). apply list_elem_of_here. }
  destruct (cp_step_spec step init m L w ρ T created) as
    (p & pr & row & Hw & Hp & Hk & Hs & Hf & Hj & Hn & Hrow & Hrun); try done; try apply Hat.
  destruct Hst as (He & Hdp & _ & Hpp & _). pose proof (tc_valid _ _ Htc) as [Hv _]%Forall_cons.
  set (T1 := on_db (add_node p m row) (bump sandboxId T)) in *.
  destruct (cp_finished_any w ρ (next_id (t_db T)) L (path_of (ds ++ init ++ [m])) (cs_entry step)
    (cp_steps plan' (jset (cs_destPath step) (next_id (t_db T)) created) rc T1)) as (rids & t' & Hrest & (Hin' & Hwf' & Hlen & Hpos) & Hfin).
  { intros ρ' nid Ha Hid. apply IH; [done| |by apply (to_copy_next init m L w (cs_entry step))].
    rewrite Hdp. by eapply cp_at_next. }
  exists (next_id (t_db T) :: rids), t'. split_and!; try done.
  - simpl. rewrite Hj. mnorm. rewrite <- Hn in Hrun. unfold bindM at 1 in Hrun. unfold bindM at 1.
    destruct (createNode rc _ T) as [[newId|] T0]; [|done]. unfold bindM at 1 in Hrun. unfold bindM at 1.
    destruct (insertDirent p (cs_name step) newId T0) as [[[]|] T0']; [|done].
    unfold retM in Hrun. injection Hrun as -> ->. by rewrite (bindM_Ok _ _ _ _ _ Hrest).
  - simpl. lia.
  - constructor; [apply (wf_next _ (ca_wf _ _ _ _ Hat)) | done].
  - intros ρ' nids Ha Hnn. inversion Hnn as [|nid ? nids' ? Hid Hnn']; subst.
    simpl. rewrite He. by apply Hfin.
Qed.
End steps.

(** ** The plan of a whole copy *)

Lemma src_paths_mem p :
  view_ok v → canonical v → is_Some (src_entry []) →
  p ∈ cp_order (pathsUnder (path_of ss) v) ↔ ∃ rest, valid_comps rest ∧ p = path_of (ss ++ rest) ∧ is_Some (view_get p v).
Proof.
  intros Hok Hcan Hs. unfold cp_order. rewrite sort_on_perm, pathsUnder_spec by done. split.
  - intros [->|(rest & _ & Hv & -> & ?)].
    + exists []. cbv beta in Hs. rewrite app_nil_r in *. split_and!; [constructor | done | done].
    + exists rest. by apply valid_comps_app in Hv as [_ ?].
  - intros (rest & Hr & -> & ?). destruct (decide (rest = [])) as [->|]; [left; by rewrite app_nil_r|].
    right. exists rest. split_and!; try done. by apply valid_comps_app.
Qed.

(** Paths below the source in order of depth, as their remainders. *)
Lemma sorted_rests S :
  Forall (λ p, ∃ rest, valid_comps rest ∧ p = path_of (ss ++ rest)) S → NoDup S →
  StronglySorted (λ a b, depth_key a ≤ depth_key b) S →
  ∃ L, S = (λ rest, path_of (ss ++ rest)) <$> L ∧ Forall valid_comps L ∧ NoDup L ∧
       StronglySorted (λ a b, (length a ≤ length b)%nat) L.
Proof.
  assert (Hdep : ∀ rest, valid_comps rest → depth_key (path_of (ss ++ rest)) = 1 + Z.of_nat (length (ss ++ rest))).
  { intros rest Hr. rewrite depth_key_path_of by by apply valid_comps_app. rewrite decide_False; [done|]. by destruct ss. }
  intros Hall. induction Hall as [|p S' (rest & Hr & ->) _ IH]; intros Hnd Hso.
  - exists []. split_and!; by repeat constructor.
  - apply NoDup_cons in Hnd as [Hni Hnd]. inversion Hso as [|? ? Hso' Hf]; subst.
    destruct (IH Hnd Hso') as (L & -> & HvL & HnL & HsL). exists (rest :: L).
    split_and!; [done | by constructor | |].
    + apply NoDup_cons. split; [|done]. intros Hin. apply Hni. apply list_elem_of_fmap. by exists rest.
    + constructor; [done|]. apply Forall_forall. intros b Hb.
      assert (Hin : path_of (ss ++ b) ∈ (λ rest, path_of (ss ++ rest)) <$> L) by (apply list_elem_of_fmap; by exists b).
      pose proof (proj1 (Forall_forall _ _) Hf _ Hin) as Hle. rewrite !Hdep in Hle; [|by eapply (proj1 (Forall_forall _ _))|done].
      rewrite !length_app in Hle. lia.
Qed.

Lemma src_paths_rests :
  view_ok v → canonical v → is_Some (src_entry []) →
  ∃ L, cp_order (pathsUnder (path_of ss) v) = (λ rest, path_of (ss ++ rest)) <$> ([] :: L) ∧
    Forall valid_comps L ∧ [] ∉ L ∧ NoDup L ∧ StronglySorted (λ a b, (length a ≤ length b)%nat) L ∧
    ∀ rest, rest ∈ L ↔ rest ≠ [] ∧ valid_comps rest ∧ is_Some (src_entry rest).
Proof.
  intros Hok Hcan Hs. pose proof (λ p, src_paths_mem p Hok Hcan Hs) as Hmem.
  destruct (sorted_rests (cp_order (pathsUnder (path_of ss) v))) as (L & HS & HvL & HnL & HsL).
  { apply Forall_forall. intros p (rest & ? & ? & _)%Hmem. by exists rest. }
  { unfold cp_order. rewrite sort_on_perm. apply pathsUnder_NoDup, Hok. }
  { apply sort_on_sorted. }
  assert (Hiff : ∀ rest, rest ∈ L ↔ valid_comps rest ∧ is_Some (src_entry rest)).
  { intros rest. split.
    - intros Hin. pose proof (proj1 (Forall_forall _ _) HvL _ Hin) as Hvr. split; [done|].
      assert (Hp : path_of (ss ++ rest) ∈ cp_order (pathsUnder (path_of ss) v)) by (rewrite HS; apply list_elem_of_fmap; by exists rest).
      by apply Hmem in Hp as (r' & Hr' & Heq & Hsome).
    - intros [Hvr Hsome]. assert (Hin : path_of (ss ++ rest) ∈ cp_order (pathsUnder (path_of ss) v)) by (apply Hmem; by exists rest).
      rewrite HS in Hin. apply list_elem_of_fmap in Hin as (r' & Heq & Hin).
      pose proof (proj1 (Forall_forall _ _) HvL _ Hin).
      apply path_of_inj in Heq; [|by apply valid_comps_app..]. apply app_inv_head in Heq. by subst. }
  rewrite HS. assert (H0 : [] ∈ L) by (apply Hiff; split; [constructor | done]).
  destruct L as [|r0 L]; [by apply elem_of_nil in H0|].
  apply NoDup_cons in HnL as [Hni HnL]. inversion HsL as [|? ? HsL' Hf]; subst. apply Forall_cons in HvL as [Hv0 HvL].
  assert (r0 = []) as ->.
  { apply elem_of_cons in H0 as [?|Hin]; [done|]. pose proof (proj1 (Forall_forall _ _) Hf _ Hin) as Hle. simpl in Hle. by destruct r0; simpl in Hle; [|lia]. }
  exists L. split_and!; try done. intros rest. split.
  - intros Hin. destruct (proj1 (Hiff rest)) as [? ?]; [by apply list_elem_of_further|]. split_and!; try done. by intros ->.
  - intros (Hne & Hvr & Hsome). assert (rest ∈ [] :: L) as Hin by by apply Hiff.
    apply elem_of_cons in Hin as [?|?]; done.
Qed.

(** The copies below the root are ready once the root's copy is in the view. *)
Lemma to_copy_start ρ d se L nid :
  wf_db d → coh sandboxId ρ v d → src_entry [] = Some se → kind se = DIRECTORY → view_get (path_of ds) v = None →
  Forall valid_comps L → [] ∉ L → NoDup L → StronglySorted (λ a b, (length a ≤ length b)%nat) L →
  (∀ rest, rest ∈ L ↔ rest ≠ [] ∧ valid_comps rest ∧ is_Some (src_entry rest)) →
  to_copy L (cacheSet (path_of ds) (copied nid se) v).
Proof.
  intros Hwf Hc Hse Hk Hnone H1 H2 H4 H5 Hiff.
  assert (Hbelow : ∀ rest, valid_comps rest → view_get (path_of (ds ++ rest)) v = None).
  { intros rest Hr. destruct (coh_root _ _ _ _ Hc) as (root & Hroot).
    destruct (view_get (path_of (ds ++ rest)) v) as [e|] eqn:E; [|done].
    destruct (coh_some _ _ _ _ Hc root (ds ++ rest) e Hroot) as (rid & r & _ & Hw & _); [by apply valid_comps_app | done|].
    rewrite walk_app, (coh_none _ _ _ _ Hc root ds Hroot Hds Hnone) in Hw. done. }
  assert (Hpar : ∀ init m, init ++ [m] ∈ L → ∃ e, src_entry init = Some e ∧ kind e = DIRECTORY).
  { intros init m (_ & Hv & [em Hem])%Hiff. pose proof Hv as [Hvi _]%valid_comps_snoc.
    destruct (coh_root _ _ _ _ Hc) as (root & Hroot).
    assert (Hvs : valid_comps ((ss ++ init) ++ [m])) by (rewrite <- app_assoc; by apply valid_comps_app).
    pose proof Hvs as [Hvsi _]%valid_comps_snoc. cbv beta in Hem. rewrite app_assoc in Hem.
    destruct (coh_some _ _ _ _ Hc root _ em Hroot Hvs Hem) as (rid & r & _ & Hw & _). rewrite walk_snoc in Hw.
    destruct (walk (dirents d) root (ss ++ init)) as [p|] eqn:Ep; [|done].
    destruct (coh_walk _ ρ v d root _ p Hc Hroot Hvsi Ep) as (e & He & _). exists e. split; [done|].
    by eapply (coh_parent_dir _ ρ v d (ss ++ init) m). }
  split; try done.
  - intros rest (_ & _ & ?)%Hiff. done.
  - intros rest Hr. pose proof Hr as (Hne & Hv & _)%Hiff. rewrite get_cacheSet, decide_False; [by apply Hbelow|].
    intros Heq. apply path_of_inj in Heq; [|done|by apply valid_comps_app].
    apply (f_equal length) in Heq. rewrite length_app in Heq. destruct rest; [done|]. simpl in Heq. lia.
  - intros init m Hin. destruct (Hpar init m Hin) as (e & He & Hke). destruct (decide (init = [])) as [->|Hne].
    + right. exists (copied nid se). rewrite app_nil_r, get_cacheSet, decide_True by done. done.
    + left. apply Hiff. pose proof Hin as (_ & Hv & _)%Hiff. apply valid_comps_snoc in Hv as [? _].
      split_and!; [done | done | by eexists].
  - intros init m e Hin He. destruct (Hpar init m Hin) as (e' & He' & ?). cbv beta in *. congruence.
Qed.

(** The changes the handler publishes are the copies. *)
Lemma cp_ids_zip plan nids m :
  NoDup (m.*1 ++ (cs_destPath <$> plan)) → length nids = length plan →
  cp_ids plan (Some <$> nids) m = m ++ zip (cs_destPath <$> plan) nids.
Proof.
  revert nids m. induction plan as [|st plan IH]; intros nids m Hnd Hl; simpl.
  { by rewrite app_nil_r. }
  destruct nids as [|nid nids]; [done|]. simpl. rewrite IH; [| |by injection Hl].
  - rewrite <- (app_nil_r m) at 1. rewrite jset_app_new; [by rewrite <- app_assoc|].
    apply NoDup_app in Hnd as (_ & Hd & _). intros Hin. apply (Hd _ Hin). apply list_elem_of_here.
  - rewrite <- (app_nil_r m) at 1. rewrite jset_app_new.
    + simpl. rewrite fmap_app, <- app_assoc. done.
    + apply NoDup_app in Hnd as (_ & Hd & _). intros Hin. apply (Hd _ Hin). apply list_elem_of_here.
Qed.

Lemma cp_changes_next L plan nids w :
  Forall2 step_for L plan → length nids = length plan →
  fold_left apply_change (cp_changes v (path_of ss) (path_of ds) mtime_ (zip (cs_destPath <$> plan) nids)) w
  = cp_next w L nids.
Proof.
  intros Hpl. revert nids w. induction Hpl as [|rest st L plan (He & Hdp & _) _ IH]; intros nids w Hl.
  { by destruct nids. }
  destruct nids as [|nid nids]; [done|]. unfold cp_changes. simpl. rewrite Hdp, relocate_under by done.
  cbv beta in He. rewrite He. simpl. apply IH. by injection Hl.
Qed.

Lemma dest_paths_NoDup L plan :
  Forall2 step_for L plan → Forall valid_comps L → NoDup L → NoDup (cs_destPath <$> plan).
Proof.
  intros Hpl Hv Hnd.
  assert (Heq : cs_destPath <$> plan = (λ rest, path_of (ds ++ rest)) <$> L).
  { clear Hv Hnd. induction Hpl as [|rest st L plan (_ & Hdp & _) _ IH]; [done|]. simpl. rewrite Hdp. f_equal. exact IH. }
  rewrite Heq. apply NoDup_fmap_2_strong; [|done]. intros a b Ha Hb Hp.
  pose proof (proj1 (Forall_forall _ _) Hv _ Ha). pose proof (proj1 (Forall_forall _ _) Hv _ Hb).
  apply path_of_inj in Hp; [|by apply valid_comps_app..]. by apply app_inv_head in Hp.
Qed.
End cp.

Section cp_sim.
Context `{Config}.
Context (v : View) (ss ps2 : list string) (n2 : string) (mtime_ : Z) (se pe2 : PathCacheEntry) (plan : list CpStep).
Abbreviation ds := (ps2 ++ [n2]).
Context (Hss : valid_comps ss) (Hds : valid_comps ds) (Hsne : ss ≠ []).
Context (Hse : view_get (path_of ss) v = Some se) (Hsk : kind se = DIRECTORY).
Context (Hpe : view_get (path_of ps2) v = Some pe2) (Hpk : kind pe2 = DIRECTORY).
Context (Hplan : cp_plan v (path_of ss) (path_of ds) (cp_order (pathsUnder (path_of ss) v)) = Ok plan).

(** The inode of the copy's root. *)
Abbreviation top_row t := (new_inode sandboxId (kind se) (mode se) (e_size se) (clock (t_db t)) (contentSha256 se) (symlinkTarget se)).
Abbreviation top_tx t p := (on_db (add_node p n2 (top_row t)) (bump sandboxId t)).

(** The first step creates the root of the copy, or fails on an entry there. *)
Lemma cp_top_run rc t root p step plan' :
  coh sandboxId (resolveInodeId rc) v (t_db t) → in_tx t sandboxId (expectedEpoch rc) → wf_db (t_db t) →
  root_of (t_db t) sandboxId = Some root → walk (dirents (t_db t)) root ps2 = Some p → is_dir (t_db t) sandboxId p →
  resolveInodeId rc (inodeId pe2) = Ok p →
  cs_existingParentId step = Some (inodeId pe2) → cs_name step = n2 → cs_entry step = se →
  match view_get (path_of ds) v with
  | Some _ => ∃ e t', cp_steps (step :: plan') [] rc t = (Err e, t')
  | None => ∀ rids t', cp_steps plan' (jset (cs_destPath step) (next_id (t_db t)) []) rc (top_tx t p) = (Ok rids, t') →
      cp_steps (step :: plan') [] rc t = (Ok (Some (next_id (t_db t)) :: rids), t')
  end.
Proof.
  intros Hc Hin Hwf Hr Hw Hd Hρ Hex Hn Hse'.
  cbn [cp_steps jget]. rewrite Hex. unfold lift_res. unfold bindM at 1 5. rewrite Hρ.
  pose proof (createAndInsert_used n2 pe2 rc t (copy_opts se) p) as Hused.
  pose proof (createAndInsert_free n2 pe2 rc t (copy_opts se) p Hin Hwf Hd Hρ eq_refl) as Hfree.
  unfold createAndInsert, lift_res in Hused, Hfree. unfold bindM at 1 in Hused. unfold bindM at 1 in Hfree. rewrite Hn, Hse'.
  destruct (view_get (path_of ds) v) as [en|] eqn:E.
  - destruct (slot_used _ v _ ps2 n2 Hwf Hc Hds root p Hr Hw en E) as (de & _ & Hde & _).
    destruct (Hused de) as [t'' Hu]; try done. unfold bindM at 1.
    destruct (createNode rc (copy_opts se) t) as [[newId|] t1]; [|by do 2 eexists].
    unfold bindM at 1 in Hu. rewrite Hρ in Hu. unfold bindM at 1 in Hu. unfold bindM at 1.
    destruct (insertDirent p n2 newId t1) as [[[]|e] t2]; [done | by do 2 eexists].
  - intros rids t' Hrest. specialize (Hfree (slot_free _ v _ ps2 n2 Hc Hds root p Hr Hw E)). unfold bindM at 1.
    destruct (createNode rc (copy_opts se) t) as [[newId|] t1]; [|done].
    unfold bindM at 1 in Hfree. rewrite Hρ in Hfree. unfold bindM at 1 in Hfree. unfold bindM at 1.
    destruct (insertDirent p n2 newId t1) as [[[]|e] t2]; [|done]. unfold retM in Hfree. injection Hfree as -> ->.
    by rewrite (bindM_Ok _ _ _ _ _ Hrest).
Qed.

(** From there the rest of the replay starts. *)
Lemma cp_top_at rc t root p pr ρ' nid :
  coh sandboxId (resolveInodeId rc) v (t_db t) → in_tx t sandboxId (expectedEpoch rc) → wf_db (t_db t) →
  root_of (t_db t) sandboxId = Some root → walk (dirents (t_db t)) root ps2 = Some p →
  inodes (t_db t) !! p = Some pr → i_kind pr = DIRECTORY → i_sandboxId pr = sandboxId →
  view_get (path_of ds) v = None → agrees v (resolveInodeId rc) ρ' → ρ' nid = Ok (next_id (t_db t)) →
  cp_at ds rc root ρ' (cacheSet (path_of ds) (copied mtime_ nid se) v) (top_tx t p) (jset (path_of ds) (next_id (t_db t)) []).
Proof.
  intros Hc Hin Hwf Hr Hw Hp Hk Hs E Ha Hid.
  pose proof (slot_free _ v _ ps2 n2 Hc Hds root p Hr Hw E) as Hf.
  destruct (sim_created v ps2 n2 Hds rc t root p pr (copy_opts se) (λ i, copied mtime_ i se)) as (Hin1 & Hwf1 & rr & Hrr & _ & _ & Hc1); try done.
  destruct rr as [|x []]; try done. injection Hrr as <-. split; try done.
  - apply (Hc1 ρ' [nid] Ha). by repeat constructor.
  - change (root_of (t_db (bump sandboxId t)) sandboxId = Some root). by rewrite root_of_bump.
  - intros rest e Hvr. rewrite get_cacheSet. case_decide as Hdd.
    + intros [= <-]. exists (next_id (t_db t)). simpl. rewrite <- Hdd. by rewrite decide_True.
    + intros Hg. destruct (coh_some _ _ _ _ Hc root (ds ++ rest) e Hr) as (rid & r & _ & Hwx & _);
        [by apply valid_comps_app | done |]. by rewrite walk_app, (coh_none _ _ _ _ Hc root ds Hr Hds E) in Hwx.
Qed.

Lemma sim_cpr bytes :
  simulates v (mkSpec "cp -r" false (length plan) bytes None (cp_steps plan []))
    (λ nids, fold_left apply_change
       (cp_changes v (path_of ss) (path_of ds) mtime_ (cp_ids plan (Some <$> nids) [])) v)
    (is_Some (view_get (path_of ds) v)).
Proof.
  intros rc t Hc Hin Hwf. cbn [m_run m_mints].
  assert (Hdne : ds ≠ []) by by destruct ps2.
  destruct (src_paths_rests v ss Hss Hsne) as (L & HS & HvL & HnL & HdL & HsL & Hiff);
    [apply Hc | apply Hc | rewrite app_nil_r; by eexists |].
  rewrite HS in Hplan. pose proof (cp_plan_steps v ss ds Hsne Hdne ([] :: L) plan Hplan) as Hpl.
  pose proof (dest_paths_NoDup v ss ds Hds ([] :: L) plan Hpl) as Hnd.
  inversion Hpl as [|? step ? plan' Hst Hpl']; subst.
  destruct Hst as (He & Hdp & Hn & Hpp & Hex). cbv beta in He. rewrite app_nil_r in He, Hdp, Hn, Hpp, Hex.
  rewrite parentOf_snoc in Hpp, Hex by done. rewrite nameOf_snoc in Hn by done. rewrite Hpe in Hex. simpl in Hex.
  rewrite Hse in He. injection He as Hse'.
  destruct (slot_parent _ v _ ps2 n2 pe2 Hwf Hc Hds Hpe Hpk) as (root & p & pr & Hr & Hρ & Hw & Hp & Hk & Hs & Hd).
  pose proof (cp_top_run rc t root p step plan' Hc Hin Hwf Hr Hw Hd Hρ Hex Hn (eq_sym Hse')) as Hrun.
  destruct (view_get (path_of ds) v) as [en|] eqn:E; [destruct Hrun as (e & t' & ->); by eexists|].
  destruct (cp_finished_any v ss ds mtime_ rc v (resolveInodeId rc) (next_id (t_db t)) L (path_of ds) se
    (cp_steps plan' (jset (cs_destPath step) (next_id (t_db t)) []) rc (top_tx t p))) as (rids & t' & Hrest & (Hin' & Hwf' & Hlen & Hpos) & Hfin).
  { intros ρ' nid Ha Hid. apply (cp_steps_spec v ss ds mtime_ Hds rc root); [done | rewrite Hdp; by eapply cp_top_at |].
    apply (to_copy_start v ss ds mtime_ Hss Hds (resolveInodeId rc) (t_db t) se L nid); try done. by rewrite app_nil_r. }
  rewrite (Hrun _ _ Hrest). split_and!; [done | done |].
  exists (next_id (t_db t) :: rids). split_and!; [done | simpl; rewrite Hlen; f_equal; by eapply Forall2_length | |].
  { constructor; [apply (wf_next _ Hwf) | done]. }
  intros ρ' nids Ha Hnn. pose proof (Forall2_length _ _ _ Hnn) as Hln. simpl in Hln.
  assert (Hlp : length nids = length (step :: plan')).
  { rewrite Hln, Hlen. simpl. f_equal. by eapply Forall2_length. }
  rewrite cp_ids_zip; [|apply Hnd; constructor; (done || constructor)|done].
  rewrite app_nil_l, (cp_changes_next v ss ds mtime_ Hsne Hdne ([] :: L)) by done.
  inversion Hnn as [|nid ? nids' ? Hid Hnn']; subst. simpl. rewrite app_nil_r, Hse. rewrite app_nil_r. by apply Hfin.
Qed.
End cp_sim.
