(* ===== verification/Journal.v ===== *)
(** The journal of a script scope and its flush.

    Inside a script scope the view runs ahead of the database: every mutation is
    recorded with the provisional ids it minted and published to the view at
    once. [journal v0 ms v nid] says that the mutations [ms] lead from the view
    [v0] the scope started with to the view [v]: replayed in order on a database
    coherent with [v0] they either fail or leave it coherent with [v], where the
    provisional ids stand for the inodes the replay created. The flush lemmas
    turn the relation into a statement about [flushMutations]. *)

From S2P Require Import Prelude Errors Paths Store Tree Dialect View Session Namespace Coherence Simulation.

Section journal.
Context `{Config}.

(** Every inode id of the view is above [n]. *)
Definition ids_above (n : Z) (v : View) : Prop := ∀ k e, view_get k v = Some e → n < inodeId e.

(** The recorded mutation takes the view [v] to the view [v']. *)
Definition step_sim (v : View) (m : BufferedMutation) (v' : View) : Prop :=
  ∀ rc t, coh sandboxId (resolveInodeId rc) v (t_db t) → in_tx t sandboxId (expectedEpoch rc) → wf_db (t_db t) →
  match b_run m rc t with
  | (Err _, _) => True
  | (Ok ids, t') =>
      in_tx t' sandboxId (expectedEpoch rc) ∧ wf_db (t_db t') ∧
      ∃ rids, ids = Some <$> rids ∧ length rids = length (b_minted m) ∧ Forall (λ r, 0 < r) rids ∧
        ∀ ρ', agrees v (resolveInodeId rc) ρ' → Forall2 (λ n r, ρ' n = Ok r) (b_minted m) rids →
          coh sandboxId ρ' v' (t_db t')
  end.

(** A mutation that a later one may supersede is a whole-file write. *)
Definition whole_file (v : View) (m : BufferedMutation) (v' : View) : Prop :=
  ∀ pid name, b_supersedes m = Some (pid, name) →
  ∃ ps pe e, valid_comps (ps ++ [name]) ∧ view_get (path_of ps) v = Some pe ∧ kind pe = DIRECTORY ∧
    inodeId pe = pid ∧ kind e = FILE ∧
    (∀ en, view_get (path_of (ps ++ [name])) v = Some en → kind en ≠ DIRECTORY) ∧
    (∀ ρ d, wf_db d → coh sandboxId ρ v d →
       ∀ k, view_get k v' = view_get k (cacheSet (path_of (ps ++ [name])) e v)).

Inductive journal (v0 : View) : list BufferedMutation → View → Z → Prop :=
| journal_nil v nid :
    (∀ k, view_get k v = view_get k v0) → view_ok v → ids_above nid v → nid < 0 → journal v0 [] v nid
| journal_snoc ms v nid m v' nid' :
    journal v0 ms v nid → nid' ≤ nid → Forall (λ i, nid' < i ≤ nid) (b_minted m) → NoDup (b_minted m) →
    view_ok v' → ids_above nid' v' → step_sim v m v' → whole_file v m v' → journal v0 (ms ++ [m]) v' nid'.

Lemma journal_facts v0 ms v nid : journal v0 ms v nid → view_ok v ∧ ids_above nid v ∧ nid < 0.
Proof. induction 1 as [|ms v nid m v' nid' _ (_ & _ & ?)]; [done|]. split_and!; [done..|lia]. Qed.

Lemma journal_weaken v0 ms v nid nid' : nid' ≤ nid → journal v0 ms v nid → journal v0 ms v nid'.
Proof.
  intros Hle Hj. destruct Hj as [v nid Hg Hok Ha Hn|ms v nid m v' nid1 Hj Hle1 Hmint Hnd Hok Ha Hs Hw].
  - constructor; [done..| |lia]. intros k e Hk. specialize (Ha k e Hk). lia.
  - econstructor; [done| |eapply Forall_impl; [done|]| | | | |]; try done; [lia|simpl; lia|].
    intros k e Hk. specialize (Ha k e Hk). lia.
Qed.

Lemma journal_nil_inv v0 v nid : journal v0 [] v nid → ∀ k, view_get k v = view_get k v0.
Proof. intros Hj. inversion Hj; [done|]. by destruct ms. Qed.

(** The relation only looks at lookups. *)
Lemma journal_ext v0 ms v v' nid :
  (∀ k, view_get k v' = view_get k v) → view_ok v' → journal v0 ms v nid → journal v0 ms v' nid.
Proof.
  intros Hg Hok Hj. destruct Hj as [v nid Hg0 Hok0 Ha Hn|ms v nid m v1 nid1 Hj Hle1 Hmint Hnd Hok1 Ha Hs Hw].
  - constructor; [|done| |done]; [intros k; by rewrite Hg | intros k e; rewrite Hg; apply Ha].
  - econstructor; [done|done|done|done|done| | |].
    + intros k e. rewrite Hg. apply Ha.
    + intros rc t Hc Hin Hwf. specialize (Hs rc t Hc Hin Hwf). destruct (b_run m rc t) as [[ids|e] t']; [|done].
      destruct Hs as (? & ? & rids & ? & ? & ? & Hfin). split_and!; [done..|]. exists rids. split_and!; [done..|].
      intros ρ' Hag Hn. eapply coh_ext; [exact Hg | done | by apply Hfin].
    + intros pid name Hsup. destruct (Hw pid name Hsup) as (ps & pe & e & ? & ? & ? & ? & ? & ? & Heq).
      exists ps, pe, e. split_and!; [done..|]. intros ρ d Hwf Hc k. rewrite Hg. by eapply Heq.
Qed.

(** ** Superseding a write *)

(** In a coherent view two directories with one id are one directory. *)
Lemma coh_dir_unique ρ v d ps1 ps2 e1 e2 :
  wf_db d → coh sandboxId ρ v d → valid_comps ps1 → valid_comps ps2 →
  view_get (path_of ps1) v = Some e1 → view_get (path_of ps2) v = Some e2 →
  kind e1 = DIRECTORY → inodeId e1 = inodeId e2 → ps1 = ps2.
Proof.
  intros Hwf Hc Hv1 Hv2 Hg1 Hg2 Hk Hid.
  destruct (coh_lookup _ ρ v d ps1 e1 Hwf Hc Hv1 Hg1) as (root & r1 & i1 & Hr & Hρ1 & Hw1 & Hi1 & _ & Hm & _).
  destruct (coh_lookup _ ρ v d ps2 e2 Hwf Hc Hv2 Hg2) as (root' & r2 & i2 & Hr' & Hρ2 & Hw2 & _).
  assert (root' = root) as -> by congruence. assert (r2 = r1) as -> by congruence.
  eapply (walk_dir_unique d Hwf sandboxId root ps1 ps2 r1 i1); try done. congruence.
Qed.

(** What a whole-file write at [ps ++ [n]] needs of the view. *)
Definition put_slot (v : View) (ps : list string) (n : string) (pe : PathCacheEntry) : Prop :=
  valid_comps (ps ++ [n]) ∧ view_get (path_of ps) v = Some pe ∧ kind pe = DIRECTORY ∧
  (∀ en, view_get (path_of (ps ++ [n])) v = Some en → kind en ≠ DIRECTORY).

(** A second write of a file, with the first dropped from the journal, does to
    the view before both what it did to the view after the first. *)
Section supersede.
Context (v v1 v2 : View) (l m : BufferedMutation) (ps : list string) (n : string) (pe : PathCacheEntry).
Context (k : string) (mode_ size_ mtime_ i : Z) (sha : string) (blob : option string).
Abbreviation path := (path_of (ps ++ [n])).
Context (Hl : whole_file v l v1) (Hls : b_supersedes l = Some (inodeId pe, n)).
Context (Hslot : put_slot v1 ps n pe).
Context (Hm : b_run m = m_run (putFileOp k (inodeId pe) n mode_ size_ sha blob)).
Context (Hmi : b_minted m = [i]) (Hms : b_supersedes m = Some (inodeId pe, n)).
Context (Hv2 : ∀ key, view_get key v2 = view_get key (cacheSet path (file_entry i mode_ size_ mtime_ sha) v1)).
Context (Hok2 : view_ok v2).

(** The slot was already there before the first write. *)
Lemma supersede_slot ρ d : wf_db d → coh sandboxId ρ v d →
  put_slot v ps n pe ∧
  ∀ key, view_get key v2 = view_get key (cacheSet path (file_entry i mode_ size_ mtime_ sha) v).
Proof.
  intros Hwf Hc. destruct (Hl _ _ Hls) as (ps1 & pe1 & e1 & Hv1 & Hg1 & Hk1 & Hid & Hke & Hnd & Heq).
  specialize (Heq ρ d Hwf Hc). destruct Hslot as (Hv & Hg & Hk & _). rewrite Heq, get_cacheSet in Hg.
  case_decide as Hp; [injection Hg as ->; congruence|].
  assert (ps1 = ps) as ->.
  { pose proof Hv1 as [? _]%valid_comps_snoc. pose proof Hv as [? _]%valid_comps_snoc.
    by eapply (coh_dir_unique ρ v d ps1 ps pe1 pe). }
  split; [done|]. intros key. rewrite Hv2, !get_cacheSet. case_decide; [done|]. rewrite Heq, get_cacheSet. by rewrite decide_False.
Qed.

Lemma supersede_sim : step_sim v m v2.
Proof.
  intros rc t Hc Hin Hwf. destruct (supersede_slot _ _ Hwf Hc) as ((Hv & Hg & Hk & Hnd) & Heq).
  pose proof (sim_putFile v ps n pe Hv Hg Hk (λ en Hen, or_introl (Hnd en Hen)) k mode_ size_ sha blob mtime_ rc t Hc Hin Hwf) as Hs.
  rewrite Hm, Hmi. destruct (m_run (putFileOp k (inodeId pe) n mode_ size_ sha blob) rc t) as [[ids|e] t']; [|done].
  destruct Hs as (Hin' & Hwf' & rids & -> & Hlen & Hpos & Hfin). split_and!; [done..|]. exists rids.
  split_and!; [done| |done|].
  - rewrite Hlen. unfold putFileOp. by destruct hasComposites.
  - intros ρ' Ha Hn. eapply coh_ext; [exact Heq | done |]. by apply (Hfin ρ' [i]).
Qed.

Lemma supersede_whole : whole_file v m v2.
Proof.
  intros pid name. rewrite Hms. intros [= <- <-].
  destruct (Hl _ _ Hls) as (ps1 & pe1 & e1 & Hv1 & Hg1 & Hk1 & Hid & Hke & Hnd & Heq1).
  exists ps1, pe1, (file_entry i mode_ size_ mtime_ sha). split_and!; try done.
  intros ρ d Hwf Hc. destruct (supersede_slot ρ d Hwf Hc) as ((Hv & Hg & Hk & _) & Heq).
  assert (ps1 = ps) as ->; [|done].
  pose proof Hv1 as [? _]%valid_comps_snoc. pose proof Hv as [? _]%valid_comps_snoc.
  by eapply (coh_dir_unique ρ v d ps1 ps pe1 pe).
Qed.
End supersede.

(** ** Binding the produced ids *)

Lemma bindIds_other minted produced ids i : i ∉ minted → jget i (bindIds minted produced ids) = jget i ids.
Proof.
  revert produced ids. induction minted as [|m minted IH]; intros produced ids; [done|].
  rewrite not_elem_of_cons. intros [Hne Hni]. simpl. rewrite IH by done.
  destruct (head produced ≫= id); [|done]. rewrite jget_jset, decide_False by done. done.
Qed.

Lemma bindIds_minted minted rids ids :
  NoDup minted → length rids = length minted →
  Forall2 (λ n r, jget n (bindIds minted (Some <$> rids) ids) = Some r) minted rids.
Proof.
  revert rids ids. induction minted as [|m minted IH]; intros rids ids Hnd Hl; [by destruct rids|].
  destruct rids as [|r rids]; [done|]. apply NoDup_cons in Hnd as [Hni Hnd]. injection Hl as Hl.
  simpl. constructor; [|by apply IH]. rewrite bindIds_other by done. by rewrite jget_jset, decide_True.
Qed.

Lemma bindIds_keys (P : Z → Z → Prop) minted rids ids :
  (∀ k r, jget k ids = Some r → P k r) → (∀ k r, k ∈ minted → r ∈ rids → P k r) →
  ∀ k r, jget k (bindIds minted (Some <$> rids) ids) = Some r → P k r.
Proof.
  revert rids ids. induction minted as [|m minted IH]; intros rids ids Hids Hm; [done|].
  destruct rids as [|r0 rids]; simpl.
  - apply (IH []); [done|]. intros k r Hk. by intros ?%not_elem_of_nil.
  - apply IH.
    + intros k r. rewrite jget_jset. case_decide; [intros [= <-]; subst; apply Hm; apply list_elem_of_here | apply Hids].
    + intros k r Hk Hr. apply Hm; by apply list_elem_of_further.
Qed.

(** The bindings of a replay: provisional ids to real ones. *)
Definition bindings (ids : list (Z * Z)) : Prop := ∀ k r, jget k ids = Some r → k < 0 < r.

Lemma realId_pos ids i : 0 ≤ i → realId ids i = Ok i.
Proof. intros. unfold realId. by rewrite decide_True. Qed.

Lemma realId_neg ids i r : i < 0 → jget i ids = Some r → realId ids i = Ok r.
Proof. intros ? Hj. unfold realId. rewrite decide_False by lia. by rewrite Hj. Qed.

Lemma bindIds_real minted rids ids :
  NoDup minted → length rids = length minted → Forall (λ i, i < 0) minted →
  Forall2 (λ n r, realId (bindIds minted (Some <$> rids) ids) n = Ok r) minted rids.
Proof.
  intros Hnd Hl Hneg. pose proof (bindIds_minted minted rids ids Hnd Hl) as Hb.
  apply Forall2_same_length_lookup. rewrite Forall2_same_length_lookup in Hb. destruct Hb as [_ Hb].
  split; [done|]. intros i n r Hn Hr. apply realId_neg; [by eapply (Forall_lookup_1 _ _ _ _ Hneg) | by eapply Hb].
Qed.

Lemma agrees_bind v nid minted produced ids :
  ids_above nid v → Forall (λ i, i ≤ nid) minted → agrees v (realId ids) (realId (bindIds minted produced ids)).
Proof.
  intros Ha Hm k e Hk. specialize (Ha k e Hk). unfold realId. case_decide; [done|].
  rewrite bindIds_other; [done|]. intros Hin. pose proof (proj1 (Forall_forall _ _) Hm _ Hin). simpl in *. lia.
Qed.

(** ** The flush *)

Definition same_core (s s' : Sys) : Prop := s_db s' = s_db s ∧ s_view s' = s_view s ∧ s_pers s' = s_pers s.

(** [s'] is [s] with the bindings [ids]. *)
Definition rebound (ids : list (Z * Z)) (s s' : Sys) : Prop :=
  s_db s' = s_db s ∧ s_view s' = s_view s ∧ s_pers s' = set_remap ids (s_pers s).

Lemma assertLease_inv s r s' : assertLease s = (r, s') → s' = tick s.
Proof. unfold assertLease. by destruct (s_lease s (s_tick s)); intros [= _ <-]. Qed.

Lemma forM_app {S E A} (l1 l2 : list A) (f : A → M S E unit) s :
  forM (l1 ++ l2) f s = bindM (forM l1 f) (λ _, forM l2 f) s.
Proof.
  revert s. induction l1 as [|x l1 IH]; intros s; [done|]. simpl. rewrite bindM_assoc.
  destruct (f x s) as [[[]|e] s'] eqn:Ex.
  - rewrite !(bindM_Ok _ _ _ _ _ Ex). apply IH.
  - by rewrite !(bindM_Err _ _ _ _ _ Ex).
Qed.

(** One step of the flush. *)
Lemma flushOp_spec op v v' nid s t ids e :
  scriptEpoch (s_pers s) = Some e → idRemap (s_pers s) = ids → bindings ids →
  coh sandboxId (realId ids) v (t_db t) → in_tx t sandboxId e → wf_db (t_db t) →
  ids_above nid v → Forall (λ i, i ≤ nid) (b_minted op) → NoDup (b_minted op) → nid < 0 → step_sim v op v' →
  match flushOp op (s, t) with
  | (Err _, (s', _)) => same_core s s'
  | (Ok _, (s', t')) =>
      ∃ ids', rebound ids' s s' ∧ bindings ids' ∧ in_tx t' sandboxId e ∧ wf_db (t_db t') ∧
              coh sandboxId (realId ids') v' (t_db t')
  end.
Proof.
  intros He Hids Hb Hc Hin Hwf Ha Hm Hnd Hn Hs. unfold flushOp, onSys. unfold bindM at 1. simpl.
  destruct (assertLease s) as [[[]|er] s1] eqn:EL; apply assertLease_inv in EL as ->; [|done].
  unfold bindM at 1, runOp, onTx. simpl.
  assert (Hrc : replay (tick s) = mkReplay e (realId ids)) by (unfold replay; simpl; by rewrite He, Hids).
  rewrite Hrc. specialize (Hs (mkReplay e (realId ids)) t Hc Hin Hwf).
  destruct (b_run op (mkReplay e (realId ids)) t) as [[produced|er] t']; [|done].
  destruct Hs as (Hin' & Hwf' & rids & -> & Hlen & Hpos & Hfin). simpl in *.
  exists (bindIds (b_minted op) (Some <$> rids) ids). split; [split_and!; simpl; by rewrite ?Hids|].
  assert (Hneg : ∀ k, k ∈ b_minted op → k < 0).
  { intros k Hk. pose proof (proj1 (Forall_forall _ _) Hm _ Hk). simpl in *. lia. }
  split; [|split_and!; [done | done|]].
  - unfold bindings. apply (bindIds_keys (λ k r, k < 0 < r)); [done|]. intros k r Hk Hr. split; [by apply Hneg|]. by apply (proj1 (Forall_forall _ _) Hpos).
  - apply Hfin; [by eapply agrees_bind|]. apply bindIds_real; [done..|]. by apply Forall_forall.
Qed.

(** The whole journal, replayed on a database coherent with the scope's first
    view. *)
Lemma flush_journal v0 ms v nid s t e :
  journal v0 ms v nid → scriptEpoch (s_pers s) = Some e → idRemap (s_pers s) = [] →
  coh sandboxId (realId []) v0 (t_db t) → in_tx t sandboxId e → wf_db (t_db t) →
  match forM ms flushOp (s, t) with
  | (Err _, (s', _)) => ∃ ids, rebound ids s s'
  | (Ok _, (s', t')) =>
      ∃ ids, rebound ids s s' ∧ bindings ids ∧ in_tx t' sandboxId e ∧ wf_db (t_db t') ∧
             coh sandboxId (realId ids) v (t_db t')
  end.
Proof.
  intros Hj He Hids Hc Hin Hwf. induction Hj as [v nid Hg Hok Ha Hn|ms v nid m v' nid' Hj IH Hle Hmint Hnd Hok Ha Hs Hw].
  - simpl. exists []. split_and!; [| |done..|by eapply coh_ext].
    + split_and!; [done..|]. unfold set_remap. rewrite <- Hids. by destruct (s_pers s).
    + by intros k r.
  - destruct (journal_facts _ _ _ _ Hj) as (_ & Ha1 & Hn1).
    rewrite forM_app. unfold bindM. destruct (forM ms flushOp (s, t)) as [[[]|er] [s1 t1]]; [|done].
    destruct IH as (ids & (Hd1 & Hv1 & Hp1) & Hb & Hin1 & Hwf1 & Hc1).
    pose proof (flushOp_spec m v v' nid s1 t1 ids e) as Hop.
    rewrite Hp1 in Hop. specialize (Hop He eq_refl Hb Hc1 Hin1 Hwf1 Ha1).
    assert (Hm' : Forall (λ i, i ≤ nid) (b_minted m)) by (eapply Forall_impl; [done|simpl; lia]).
    specialize (Hop Hm' Hnd Hn1 Hs). simpl. unfold bindM. destruct (flushOp m (s1, t1)) as [[[]|er] [s2 t2]].
    + destruct Hop as (ids' & (Hd2 & Hv2 & Hp2) & Hrest). exists ids'. split; [|done].
      unfold rebound. rewrite Hd2, Hv2, Hp2, Hp1, Hd1, Hv1. by destruct (s_pers s).
    + destruct Hop as (Hd2 & Hv2 & Hp2). exists ids. unfold rebound. by rewrite Hd2, Hv2, Hp2.
Qed.

(** A recorded chmod or utimes. *)
Definition is_update (op : BufferedMutation) (id : Z) (u : UpdateInodeOpts) : Prop :=
  b_minted op = [] ∧ no_patch u = false ∧ ∃ k, b_run op = m_run (update_spec k id u).

(** If the last recorded mutation rewrites the metadata of an inode, the row of
    that inode has what it wrote. *)
Definition last_update_applied (ops : list BufferedMutation) (ids : list (Z * Z)) (d : db) : Prop :=
  ∀ ms op id u rid r, ops = ms ++ [op] → is_update op id u → realId ids id = Ok rid →
    inodes d !! rid = Some r → i_sandboxId r = sandboxId → ∃ r0, r = patch_inode u r0.

Lemma updateInode_applied t e rid u t' a r :
  in_tx t sandboxId e → no_patch u = false → updateInode rid u sandboxId (Some e) t = (Ok a, t') →
  inodes (t_db t') !! rid = Some r → i_sandboxId r = sandboxId → ∃ r0, r = patch_inode u r0.
Proof.
  intros Hin Hu Hrun Hr Hs. unfold updateInode in Hrun. rewrite Hu in Hrun. unfold bindM at 1, fenceAndAdvance in Hrun.
  rewrite (fence_in_tx t sandboxId e false Hin), bindM_gets in Hrun.
  destruct (sel_inode (bump sandboxId t) rid) as [r1|] eqn:E1; injection Hrun as _ <-.
  - simpl in Hr. rewrite lookup_insert_eq in Hr. injection Hr as <-. by exists r1.
  - by rewrite (in_tx_sel_inode _ sandboxId e rid r (bump_in_tx _ _ _ Hin) Hr Hs) in E1.
Qed.

Lemma flush_last v0 ms v nid s t e s' t' :
  journal v0 ms v nid → scriptEpoch (s_pers s) = Some e → idRemap (s_pers s) = [] →
  coh sandboxId (realId []) v0 (t_db t) → in_tx t sandboxId e → wf_db (t_db t) →
  forM ms flushOp (s, t) = (Ok tt, (s', t')) → last_update_applied ms (idRemap (s_pers s')) (t_db t').
Proof.
  intros Hj He Hids Hc Hin Hwf Hrun ms1 op id u rid r Hms (Hmint & Hu & k & Hop) Hrid Hr Hs.
  destruct Hj as [|ms0 v1 nid1 m v2 nid2 Hj Hle _ _ _ _ _ _]; [by destruct ms1|]. apply app_inj_tail in Hms as [<- <-].
  pose proof (flush_journal v0 ms0 v1 nid1 s t e Hj He Hids Hc Hin Hwf) as Hpre. rewrite forM_app in Hrun. unfold bindM at 1 in Hrun.
  destruct (forM ms0 flushOp (s, t)) as [[[]|er] [s1 t1]]; [|done]. destruct Hpre as (ids & (_ & _ & Hp1) & _ & Hin1 & _ & _).
  simpl in Hrun. unfold flushOp, onSys in Hrun. unfold bindM at 1 2 in Hrun. simpl in Hrun.
  destruct (assertLease s1) as [[[]|er] s2] eqn:EL; apply assertLease_inv in EL as ->; [|done].
  unfold bindM at 1, runOp, onTx in Hrun. simpl in Hrun. rewrite Hop, Hmint in Hrun. simpl in Hrun. unfold bindM at 1, lift_res in Hrun.
  destruct (realId (idRemap (s_pers s1)) id) as [rid'|er] eqn:Er; [|done].
  unfold bindM at 1 in Hrun. rewrite Hp1 in Hrun. simpl in Hrun. rewrite He in Hrun. simpl in Hrun.
  destruct (updateInode rid' u sandboxId (Some e) t1) as [[a|er] t2] eqn:Eu; [|done]. injection Hrun as <- <-.
  simpl in Hrid. rewrite Er in Hrid. injection Hrid as ->. by eapply updateInode_applied.
Qed.

(** ** Publishing a flushed scope *)

Lemma get_rebind ids v k :
  jwf (v_entries v) →
  view_get k (rebind ids v) = (λ e, match jget (inodeId e) ids with Some r => with_inode r e | None => e end) <$> view_get k v.
Proof.
  intros Hwf. unfold rebind. rewrite get_rewriteEntries by done. destruct (view_get k v) as [e|]; [|done]. simpl.
  by destruct (jget (inodeId e) ids).
Qed.

(** Rebinding gives every entry the id the replay resolved it to. *)
Lemma rebind_id ids v d k e :
  bindings ids → coh sandboxId (realId ids) v d → view_get k (rebind ids v) = Some e →
  ∃ e0, view_get k v = Some e0 ∧ e = with_inode (inodeId e) e0 ∧ realId ids (inodeId e0) = Ok (inodeId e) ∧ 0 ≤ inodeId e.
Proof.
  intros Hb Hc. rewrite get_rebind by apply Hc. destruct (view_get k v) as [e0|] eqn:E; [|done]. simpl. intros [= <-].
  destruct (coh_canonical _ _ _ _ Hc k) as (cs & Hv & ->); [by eexists|]. destruct (coh_root _ _ _ _ Hc) as (root & Hr).
  destruct (coh_some _ _ _ _ Hc root cs e0 Hr Hv E) as (rid & _ & Hρ & _). exists e0. split; [done|].
  unfold realId in *. case_decide as Hp.
  - destruct (jget (inodeId e0) ids) as [r|] eqn:Ej; [pose proof (Hb _ _ Ej); lia|]. by destruct e0.
  - destruct (jget (inodeId e0) ids) as [r|] eqn:Ej; [|done]. simpl. split_and!; [done | done |]. pose proof (Hb _ _ Ej). lia.
Qed.

Lemma rebind_coh ids v d :
  bindings ids → coh sandboxId (realId ids) v d → coh sandboxId (realId []) (rebind ids v) d.
Proof.
  intros Hb Hc. split.
  - apply rewriteEntries_ok, Hc.
  - intros k [e Hk]. destruct (rebind_id _ _ _ _ _ Hb Hc Hk) as (e0 & He & _). apply (coh_canonical _ _ _ _ Hc). by eexists.
  - apply Hc.
  - intros root cs en Hr Hv Hg. destruct (rebind_id _ _ _ _ _ Hb Hc Hg) as (e0 & He & Heq & Hid & Hpos).
    destruct (coh_some _ _ _ _ Hc root cs e0 Hr Hv He) as (rid & r & Hρ & Hw & Hi & Hm).
    exists rid, r. rewrite realId_pos by done. split_and!; [congruence | done | done |]. by rewrite Heq.
  - intros root cs Hr Hv. rewrite get_rebind by apply Hc. destruct (view_get (path_of cs) v) eqn:E; [done|].
    intros _. by apply (coh_none _ _ _ _ Hc).
  - intros k1 k2 e1 e2 rid Hg1 Hg2.
    destruct (rebind_id _ _ _ _ _ Hb Hc Hg1) as (_ & _ & _ & _ & Hp1). destruct (rebind_id _ _ _ _ _ Hb Hc Hg2) as (_ & _ & _ & _ & Hp2).
    rewrite !realId_pos by done. congruence.
Qed.

Context `{Lru}.

(** The publication of a flushed scope does not fail, and the view it leaves is
    coherent with the committed database under its real ids. *)
Lemma publishScope_spec ids v d e :
  bindings ids → coh sandboxId (realId ids) v d →
  ∃ v', publishScope e (Some ids) v = (Ok tt, v') ∧ coh sandboxId (realId []) v' d ∧ ids_above (-1) v' ∧
        v_epoch v' = e ∧ v_poisoned v' = v_poisoned v.
Proof.
  intros Hb Hc. unfold publishScope.
  assert (Hpos : ∀ k e, view_get k (rebind ids v) = Some e → 0 ≤ inodeId e).
  { intros k en Hk. by destruct (rebind_id _ _ _ _ _ Hb Hc Hk) as (_ & _ & _ & _ & ?). }
  pose proof (rebind_coh _ _ _ Hb Hc) as Hc'.
  rewrite decide_True.
  - eexists. split; [done|]. split_and!; [|intros k en Hk; specialize (Hpos k en Hk); lia|done|apply rewriteEntries_meta].
    eapply coh_ext; [|by apply Hc'|done]. done.
  - unfold unbound. cbn [v_entries set_contents].
    destruct (List.filter _ _) as [|[k en] l] eqn:E; [done|]. exfalso.
    assert (Hin : (k, en) ∈ List.filter (λ pe : string * PathCacheEntry, bool_decide (inodeId pe.2 < 0)) (v_entries (rebind ids v)))
      by (rewrite E; apply list_elem_of_here).
    apply elem_filter in Hin as [Hin Hneg%bool_decide_eq_true]. simpl in Hneg.
    specialize (Hpos k en). unfold view_get in Hpos. rewrite (proj2 (jget_Some _ _ _ (proj1 (coh_ok _ _ _ _ Hc'))) Hin) in Hpos.
    specialize (Hpos eq_refl). lia.
Qed.
End journal.
