(* ===== verification/Invariant.v ===== *)
(** The session invariant and the rules to prove that a method keeps it.

    [Inv s]: the database is well-formed, and (unless the view is poisoned) the
    view the running scope started from is settled on the database and the
    journal leads from it to the present view. Outside a scope the journal is
    empty, so the present view itself is settled: its epoch is at most the
    sandbox's, and when the two are equal the view is coherent with the tree. *)

From S2P Require Import Prelude Errors Paths Store Tree Dialect View Session Namespace Coherence Simulation Journal.

Section invariant.
Context `{Config}.

Definition settled (v : View) (d : db) : Prop :=
  ids_above (-1) v ∧
  (∀ row, sandboxes d !! sandboxId = Some row →
     v_epoch v ≤ s_version row ∧ (v_epoch v = s_version row → coh sandboxId (realId []) v d)) ∧
  (sandboxes d !! sandboxId = None → ∃ e, sandbox_epochs d !! sandboxId = Some e ∧ v_epoch v ≤ e).

Record at_rest (p : Pers) : Prop := {
  rest_epoch : scriptEpoch p = None;
  rest_remap : idRemap p = [];
  rest_next : nextProvisionalId p < 0;
  rest_idle : scriptScope p = false → mutations p = []
}.

Record inv (d : db) (v : View) (p : Pers) : Prop := {
  inv_wf : wf_db d;
  inv_rest : at_rest p;
  inv_poisoned : v_poisoned v = true → mutations p = [];
  inv_journal : v_poisoned v = false →
    ∃ v0, v_epoch v0 = v_epoch v ∧ settled v0 d ∧ journal v0 (mutations p) v (nextProvisionalId p)
}.

Definition Inv (s : Sys) : Prop := inv (s_db s) (s_view s) (s_pers s).

Lemma Inv_core s s' : same_core s s' → Inv s → Inv s'.
Proof. unfold Inv. by intros (-> & -> & ->). Qed.

Lemma settled_ext v v' d :
  (∀ k, view_get k v' = view_get k v) → view_ok v' → v_epoch v' = v_epoch v → settled v d → settled v' d.
Proof.
  intros Hg Hok He (Ha & Hs & Hgone). split; [intros k e; rewrite Hg; apply Ha|]. rewrite <- He in Hgone. split; [|done].
  intros row Hr. rewrite He. destruct (Hs row Hr) as [Hle Hc]. split; [done|]. intros. eapply coh_ext; eauto.
Qed.

(** Outside a scope the present view is settled. *)
Lemma Inv_settled s :
  Inv s → v_poisoned (s_view s) = false → scriptScope (s_pers s) = false →
  settled (s_view s) (s_db s) ∧ view_ok (s_view s).
Proof.
  intros HI Hp Hs. destruct (inv_journal _ _ _ HI Hp) as (v0 & He & Hset & Hj).
  destruct (journal_facts _ _ _ _ Hj) as (Hok & _).
  rewrite (rest_idle _ (inv_rest _ _ _ HI) Hs) in Hj. split; [|done].
  eapply settled_ext; [by eapply journal_nil_inv | done | done | done].
Qed.

(** Back from a settled view. *)
Lemma settled_Inv d v p :
  wf_db d → at_rest p → mutations p = [] → view_ok v → settled v d → inv d v p.
Proof.
  intros Hwf Hr Hm Hok Hset. split; [done..|]. intros _. exists v. split_and!; [done|done|]. rewrite Hm. constructor; [done..| |apply Hr].
  intros k e Hk. pose proof (proj1 Hset k e Hk). pose proof (rest_next _ Hr). lia.
Qed.

(** ** Postconditions *)

(** [Q] holds of the result, and the invariant of the state of a throw. *)
Definition post {A} (m : sysM A) (s : Sys) (Q : A → Sys → Prop) : Prop :=
  match m s with
  | (Ok a, s') => Q a s'
  | (Err _, s') => Inv s'
  end.

Definition keeps {A} (m : sysM A) : Prop := ∀ s, Inv s → v_poisoned (s_view s) = false → Inv (m s).2.

Lemma post_bind {A B} (m : sysM A) (f : A → sysM B) s Q :
  post m s (λ a s', post (f a) s' Q) → post (bindM m f) s Q.
Proof. unfold post, bindM. by destruct (m s) as [[a|e] s']. Qed.

Lemma post_ret {A} (a : A) s (Q : A → Sys → Prop) : Q a s → post (retM a) s Q.
Proof. done. Qed.

Lemma post_throw {A} e s (Q : A → Sys → Prop) : Inv s → post (throw e) s Q.
Proof. done. Qed.

Lemma post_throw_if c e s (Q : unit → Sys → Prop) : Inv s → (c = false → Q tt s) → post (throw_if c e) s Q.
Proof. intros HI HQ. unfold throw_if. destruct c; [done | by apply HQ]. Qed.

Lemma post_lift {A} (r : res fs_error A) s (Q : A → Sys → Prop) :
  Inv s → (∀ a, r = Ok a → Q a s) → post (lift_res r) s Q.
Proof. intros HI HQ. unfold post, lift_res. destruct r; [by apply HQ | done]. Qed.

Lemma post_weaken {A} (m : sysM A) s (Q Q' : A → Sys → Prop) :
  (∀ a s', Q a s' → Q' a s') → post m s Q → post m s Q'.
Proof. intros HQ. unfold post. destruct (m s) as [[a|e] s']; [apply HQ | done]. Qed.

Lemma post_keeps {A} (m : sysM A) :
  (∀ s, Inv s → v_poisoned (s_view s) = false → post m s (λ _ s', Inv s')) → keeps m.
Proof. intros Hm s HI Hp. specialize (Hm s HI Hp). unfold post in Hm. by destruct (m s) as [[a|e] s']. Qed.

Lemma keeps_post {A} (m : sysM A) s : keeps m → Inv s → v_poisoned (s_view s) = false → post m s (λ _ s', Inv s').
Proof. intros Hm HI Hp. specialize (Hm s HI Hp). unfold post. by destruct (m s) as [[a|e] s']. Qed.

(** A method that touches neither the database, the view nor the journal. *)
Definition quiet {A} (m : sysM A) : Prop := ∀ s, same_core s (m s).2.

Lemma post_quiet {A} (m : sysM A) s (Q : A → Sys → Prop) :
  quiet m → Inv s → (∀ a s', m s = (Ok a, s') → same_core s s' → Q a s') → post m s Q.
Proof.
  intros Hq HI HQ. specialize (Hq s). unfold post. destruct (m s) as [[a|e] s']; [by apply HQ | by eapply Inv_core].
Qed.

Lemma quiet_bind {A B} (m : sysM A) (f : A → sysM B) : quiet m → (∀ a, quiet (f a)) → quiet (bindM m f).
Proof.
  intros Hm Hf s. specialize (Hm s). unfold bindM. destruct (m s) as [[a|e] s']; [|done].
  destruct Hm as (H1 & H2 & H3), (Hf a s') as (H4 & H5 & H6). unfold same_core in *. simpl in *. by rewrite H4, H5, H6.
Qed.

Lemma quiet_ret {A} (a : A) : quiet (retM a).
Proof. done. Qed.
Lemma quiet_throw {A} e : quiet (throw e : sysM A).
Proof. done. Qed.
Lemma quiet_gets {A} (f : Sys → A) : quiet (gets f).
Proof. done. Qed.
Lemma quiet_throw_if c e : quiet (throw_if c e).
Proof. intros s. by destruct c. Qed.
Lemma quiet_lift {A} (r : res fs_error A) : quiet (lift_res r).
Proof. done. Qed.
Lemma quiet_assertLease : quiet assertLease.
Proof. intros s. unfold assertLease. by destruct (s_lease s (s_tick s)). Qed.
Lemma quiet_assertAlive : quiet assertAlive.
Proof. intros s. unfold assertAlive. by destruct (scriptScope (s_pers s)), (scriptTxLost (s_pers s)). Qed.
End invariant.

Create HintDb quiet.
#[export] Hint Resolve quiet_bind quiet_ret quiet_throw quiet_gets quiet_throw_if quiet_lift
  quiet_assertLease quiet_assertAlive : quiet.

Section checks.
Context `{Config} `{Lru}.

Lemma quiet_assertGeneration g : quiet (assertGeneration g).
Proof. unfold assertGeneration. destruct g; auto 10 with quiet. Qed.

Lemma quiet_assertReservation st : quiet (assertReservation st).
Proof. unfold assertReservation. pose proof quiet_assertGeneration. auto 10 with quiet. Qed.

Lemma quiet_assertWritable p op : quiet (assertWritable p op).
Proof.
  unfold assertWritable. apply quiet_bind; [apply quiet_assertAlive|]. intros _. apply quiet_bind; [done|]. intros depth.
  by case_decide.
Qed.

Lemma quiet_assertExecFileSize p b op : quiet (assertExecFileSize p b op).
Proof.
  unfold assertExecFileSize. apply quiet_bind; [done|]. intros [c|]; [|done]. destruct (maxFileBytes c); [|done]. by case_decide.
Qed.

Lemma quiet_consumeExecInput b src : quiet (consumeExecInput b src).
Proof.
  unfold consumeExecInput. apply quiet_bind; [done|]. intros [c|]; [|done]. destruct (inputLimitBytes c); [|done].
  destruct (exceeded c); [done|]. by case_decide.
Qed.

Lemma quiet_assertSymlink t p : quiet (assertSymlink t p).
Proof. unfold assertSymlink. auto with quiet. Qed.
End checks.
#[export] Hint Resolve quiet_assertGeneration quiet_assertReservation quiet_assertWritable
  quiet_assertExecFileSize quiet_consumeExecInput quiet_assertSymlink : quiet.
