(* ===== verification/Mutate.v ===== *)
(** [mutate] and the publication that follows it keep the invariant, eager or
    recorded. *)

From S2P Require Import Prelude Errors Paths Store Tree Dialect View Session Namespace Coherence Simulation Journal Invariant.

Section mutate.
Context `{Config} (Hretire : hasRetire = true).

(** The inode ids of [v'] are those of [v] and [nids]. *)
Definition ids_from (v : View) (nids : list Z) (v' : View) : Prop :=
  ∀ k e, view_get k v' = Some e → inodeId e ∈ nids ∨ ∃ k' e', view_get k' v = Some e' ∧ inodeId e' = inodeId e.

(** Publishing a view that looks like [next] completes the mutation. *)
Definition completes (s : Sys) (pub : Publication) (nids : list Z) (next : View) : Prop :=
  ∀ v', (∀ k, view_get k v' = view_get k next) → view_ok v' → ids_from (s_view s) nids v' →
    v_epoch v' = match pub with Committed e => e | Recorded => v_epoch (s_view s) end →
    v_poisoned v' = false → Inv (on_view (λ _, v') s).

(** Either the mutation supersedes nothing, or it is a whole-file write. *)
Definition put_form (v : View) (spec : MutationSpec) (next : list Z → View) : Prop :=
  m_supersedes spec = None ∨
  ∃ ps n pe k mode_ size_ mtime_ sha blob,
    put_slot v ps n pe ∧ spec = putFileOp k (inodeId pe) n mode_ size_ sha blob ∧
    ∀ nids, next nids = cacheSet (path_of (ps ++ [n])) (file_entry (hd 0 nids) mode_ size_ mtime_ sha) v.

(** ** Eager writes *)

(** The transaction around an eager write: what is known when the callback
    starts, and what its success means. *)
Lemma checkEpoch_spec s t row :
  t_sandbox t = Some sandboxId → sandboxes (t_db t) !! sandboxId = Some row →
  checkEpoch (s, t) = if decide (s_version row = v_epoch (s_view s)) then (Ok tt, (s, t)) else (Err (ESTALE sandboxId), (s, t)).
Proof.
  intros Hs Hr. unfold checkEpoch, onTx, getSandboxEpoch. unfold bindM at 1. simpl.
  assert (Hv : visible t sandboxId = true).
  { unfold visible. rewrite Hs. by rewrite (bool_decide_eq_true_2 (sandboxId = sandboxId)), orb_true_r. }
  unfold sel_sandbox. rewrite Hr, Hv. mnorm. unfold throw_if. simpl. case_decide as Hd.
  - by rewrite bool_decide_eq_true_2.
  - by rewrite bool_decide_eq_false_2.
Qed.

Lemma lock_spec d s r st :
  onTx (setSandboxContextWithLock sandboxId) (s, mkTx d None None) = (r, st) →
  match sandboxes d !! sandboxId with
  | Some row => r = Ok tt ∧ st = (s, mkTx d (Some sandboxId) (Some (s_version row)))
  | None => (∃ e, r = Err e) ∧ st.1 = s
  end.
Proof.
  unfold onTx, setSandboxContextWithLock, sel_sandbox. simpl. destruct (sandboxes d !! sandboxId) as [row|]; simpl; intros [= <- <-]; [done|].
  split; [by eexists | done].
Qed.

Lemma observe_spec s t e : in_tx t sandboxId e →
  ∃ row, sandboxes (t_db t) !! sandboxId = Some row ∧ onTx (getSandboxEpoch sandboxId) (s, t) = (Ok (s_version row), (s, t)).
Proof.
  intros Hin. destruct (in_tx_sel_sandbox t _ _ Hin) as (row & Hsel & Hr & _). exists row. split; [done|].
  unfold onTx, getSandboxEpoch. simpl. by rewrite Hsel.
Qed.

(** The body of both eager transactions. *)
Definition eager_body (run : ReplayContext → txM (list (option Z))) : stM (Z * list (option Z)) :=
  let* value := runOp run in
  let* observed := onTx (getSandboxEpoch sandboxId) in
  onSys assertLease ;;;
  retM (observed, value).

Lemma eager_body_spec spec next mf s t :
  scriptEpoch (s_pers s) = None → idRemap (s_pers s) = [] →
  simulates (s_view s) spec next mf → coh sandboxId (realId []) (s_view s) (t_db t) →
  in_tx t sandboxId (v_epoch (s_view s)) → wf_db (t_db t) →
  match eager_body (m_run spec) (s, t) with
  | (Err _, (s', _)) => same_core s s'
  | (Ok (observed, ids), (s', t')) =>
      same_core s s' ∧ wf_db (t_db t') ∧
      (∃ row, sandboxes (t_db t') !! sandboxId = Some row ∧ s_version row = observed) ∧
      ∃ rids, ids = Some <$> rids ∧ length rids = m_mints spec ∧ Forall (λ r, 0 < r) rids ∧
              coh sandboxId (realId []) (next rids) (t_db t')
  end.
Proof.
  intros He Hids Hs Hc Hin Hwf. unfold eager_body, runOp, onTx at 1. unfold bindM at 1. simpl.
  assert (replay s = mkReplay (v_epoch (s_view s)) (realId [])) as -> by (unfold replay; by rewrite He, Hids).
  specialize (Hs (mkReplay (v_epoch (s_view s)) (realId [])) t Hc Hin Hwf).
  destruct (m_run spec _ t) as [[ids|e] t']; [|done].
  destruct Hs as (Hin' & Hwf' & rids & -> & Hlen & Hpos & Hfin). simpl in *.
  destruct (observe_spec s t' _ Hin') as (row & Hrow & Hobs). rewrite (bindM_Ok _ _ _ _ _ Hobs).
  unfold onSys, bindM. simpl. destruct (assertLease s) as [[[]|e] s1] eqn:EL; apply assertLease_inv in EL as ->; [|done].
  split_and!; [done | done | by exists row|]. exists rids. split_and!; try done.
  apply Hfin; [apply agrees_refl|]. clear -Hpos. induction Hpos; constructor; [by rewrite realId_pos by lia | done].
Qed.

Lemma bindM_run {S E A B} (m m' : M S E A) (f : A → M S E B) s : m s = m' s → bindM m f s = bindM m' f s.
Proof. unfold bindM. by intros ->. Qed.

Lemma inTx_run {A} (f g : stM A) s : (∀ st, f st = g st) → inTx f s = inTx g s.
Proof. intros Hfg. unfold inTx. by rewrite Hfg. Qed.

Lemma withWriteTx_body run s :
  withWriteTx (runOp run) s = bindM (inTx ((onTx (setSandboxContextWithLock sandboxId) ;;; checkEpoch) ;;; eager_body run))
    (λ r, retM (Committed r.1, r.2)) s.
Proof. unfold withWriteTx. apply bindM_run, inTx_run. intros st. by rewrite bindM_assoc. Qed.

Lemma withBareTx_body run s :
  withBareTx (runOp run) s = bindM (inTx ((onTx (setSandboxContextWithLock sandboxId) ;;; onSys assertLease ;;; onSys assertAlive ;;; checkEpoch) ;;; eager_body run))
    (λ r, retM (Committed r.1, r.2)) s.
Proof. unfold withBareTx, assertDurableWriteEpoch. by rewrite Hretire. Qed.

(** What the guard of an eager transaction establishes. *)
Definition admits (pre : stM unit) : Prop := ∀ s,
  match pre (s, mkTx (s_db s) None None) with
  | (Err _, (s', _)) => same_core s s'
  | (Ok _, (s', t)) =>
      same_core s s' ∧ ∃ row, sandboxes (s_db s) !! sandboxId = Some row ∧ s_version row = v_epoch (s_view s) ∧
        t = mkTx (s_db s) (Some sandboxId) (Some (s_version row))
  end.

Lemma admits_write : admits (onTx (setSandboxContextWithLock sandboxId) ;;; checkEpoch).
Proof.
  intros s. unfold bindM at 1. destruct (onTx _ _) as [r st] eqn:E. apply lock_spec in E.
  destruct (sandboxes (s_db s) !! sandboxId) as [row|] eqn:Er.
  - destruct E as [-> ->]. rewrite (checkEpoch_spec _ _ row) by done. case_decide as Hd; [|done].
    split; [done|]. by exists row.
  - destruct E as [[e ->] <-]. by destruct st.
Qed.

Lemma admits_bare :
  admits (onTx (setSandboxContextWithLock sandboxId) ;;; onSys assertLease ;;; onSys assertAlive ;;; checkEpoch).
Proof.
  intros s. unfold bindM at 1. destruct (onTx _ _) as [r st] eqn:E. apply lock_spec in E.
  destruct (sandboxes (s_db s) !! sandboxId) as [row|] eqn:Er.
  - destruct E as [-> ->]. unfold onSys at 1. unfold bindM at 1. simpl.
    destruct (assertLease s) as [[[]|e] s1] eqn:EL; apply assertLease_inv in EL as ->; [|done].
    unfold onSys, assertAlive. unfold bindM. simpl.
    destruct (scriptScope (s_pers s)), (scriptTxLost (s_pers s)); try done;
      rewrite (checkEpoch_spec _ _ row) by done; simpl; case_decide as Hd; try done; (split; [done|]; by exists row).
  - destruct E as [[e ->] <-]. by destruct st.
Qed.

Lemma same_core_trans s1 s2 s3 : same_core s1 s2 → same_core s2 s3 → same_core s1 s3.
Proof. unfold same_core. intuition congruence. Qed.

(** An eager write: on failure nothing changes; on success the database is
    coherent with the view the operation is about to publish. *)
Lemma eager_spec spec next mf s :
  Inv s → v_poisoned (s_view s) = false → scriptScope (s_pers s) = false → simulates (s_view s) spec next mf →
  match (if m_composite spec then withBareTx (runOp (m_run spec)) else withWriteTx (runOp (m_run spec))) s with
  | (Err _, s') => same_core s s'
  | (Ok (pub, ids), s') =>
      s_view s' = s_view s ∧ s_pers s' = s_pers s ∧ wf_db (s_db s') ∧
      ∃ row rids, sandboxes (s_db s') !! sandboxId = Some row ∧ pub = Committed (s_version row) ∧
        ids = Some <$> rids ∧ length rids = m_mints spec ∧ Forall (λ r, 0 < r) rids ∧
        coh sandboxId (realId []) (next rids) (s_db s')
  end.
Proof.
  intros HI Hp Hsc Hsim. destruct (Inv_settled s HI Hp Hsc) as [(_ & Hset & _) _]. pose proof (inv_rest _ _ _ HI) as Hrest.
  assert (Hgen : ∀ pre, admits pre →
    match bindM (inTx (pre ;;; eager_body (m_run spec))) (λ r, retM (Committed r.1, r.2)) s with
    | (Err _, s') => same_core s s'
    | (Ok (pub, ids), s') =>
        s_view s' = s_view s ∧ s_pers s' = s_pers s ∧ wf_db (s_db s') ∧
        ∃ row rids, sandboxes (s_db s') !! sandboxId = Some row ∧ pub = Committed (s_version row) ∧
          ids = Some <$> rids ∧ length rids = m_mints spec ∧ Forall (λ r, 0 < r) rids ∧
          coh sandboxId (realId []) (next rids) (s_db s')
    end).
  { intros pre Hpre. specialize (Hpre s). unfold bindM at 1, inTx. unfold bindM at 1.
    destruct (pre (s, mkTx (s_db s) None None)) as [[[]|e] [s1 t]]; [|done].
    destruct Hpre as ((Hd1 & Hv1 & Hp1) & row & Hrow & Hver & ->).
    destruct (Hset row Hrow) as [_ Hc].
    assert (Hin : in_tx (mkTx (s_db s) (Some sandboxId) (Some (s_version row))) sandboxId (v_epoch (s_view s))).
    { split; [done|]. exists row. simpl. split_and!; [done..|lia]. }
    pose proof (eager_body_spec spec next mf s1 (mkTx (s_db s) (Some sandboxId) (Some (s_version row)))) as Hb.
    rewrite Hv1, Hp1 in Hb. specialize (Hb (rest_epoch _ Hrest) (rest_remap _ Hrest) Hsim (Hc (eq_sym Hver)) Hin (inv_wf _ _ _ HI)).
    destruct (eager_body (m_run spec) _) as [[[observed ids]|e] [s2 t2]].
    - destruct Hb as ((Hd2 & Hv2 & Hp2) & Hwf & (row' & Hrow' & <-) & rids & -> & Hlen & Hpos & Hcoh).
      simpl. split_and!; [congruence | congruence | done|]. by exists row', rids.
    - eapply same_core_trans; [by split_and! | done]. }
  destruct (m_composite spec).
  - rewrite withBareTx_body. apply Hgen, admits_bare.
  - rewrite withWriteTx_body. apply Hgen, admits_write.
Qed.

(** ** Recorded writes *)

Lemma mintInodeIds_spec n s :
  ∃ ids s', mintInodeIds n s = (Ok ids, s') ∧ length ids = n ∧ NoDup ids ∧
    Forall (λ i, nextProvisionalId (s_pers s) - Z.of_nat n < i ≤ nextProvisionalId (s_pers s)) ids ∧
    s' = on_pers (set_nextId (nextProvisionalId (s_pers s) - Z.of_nat n)) s.
Proof.
  revert s. induction n as [|n IH]; intros s.
  - exists [], s. split_and!; [done|done|constructor|constructor|]. destruct s as [d v [] ? ? ? ? ? ?]. unfold on_pers, set_nextId. simpl.
    by rewrite Z.sub_0_r.
  - set (s1 := on_pers (set_nextId (nextProvisionalId (s_pers s) - 1)) s).
    destruct (IH s1) as (ids & s' & Hrun & Hlen & Hnd & Hall & ->). simpl in Hall.
    exists (nextProvisionalId (s_pers s) :: ids), (on_pers (set_nextId (nextProvisionalId (s_pers s1) - Z.of_nat n)) s1).
    split_and!.
    + simpl. unfold mintInodeId. mnorm. by rewrite (bindM_Ok _ _ _ _ _ Hrun).
    + by simpl; rewrite Hlen.
    + apply NoDup_cons. split; [|done]. intros Hin. pose proof (proj1 (Forall_forall _ _) Hall _ Hin). simpl in *. lia.
    + constructor; [lia|]. eapply Forall_impl; [done|]. simpl. lia.
    + unfold s1. destruct s as [d v [] ? ? ? ? ? ?]. unfold on_pers, set_nextId. simpl. do 2 f_equal. lia.
Qed.

(** A recorded mutation is journalled: appended, or in the place of the write it
    supersedes. *)
Lemma journal_record v0 ms v nid spec next mf minted v' b :
  journal v0 ms v nid → simulates v spec next mf → put_form v spec next →
  length minted = m_mints spec → NoDup minted → Forall (λ i, nid - Z.of_nat (m_mints spec) < i ≤ nid) minted →
  (∀ k, view_get k v' = view_get k (next minted)) → view_ok v' → ids_from v minted v' →
  let m := mkBuffered (m_kind spec) minted b (m_supersedes spec) (m_run spec) in
  journal v0 (match superseding m ms with Some _ => removelast ms ++ [m] | None => ms ++ [m] end) v'
    (nid - Z.of_nat (m_mints spec)).
Proof.
  intros Hj Hsim Hput Hlen Hnd Hmint Hg Hok Hfrom m. set (nid' := nid - _) in *.
  destruct (journal_facts _ _ _ _ Hj) as (_ & Ha & Hn).
  assert (Ha' : ids_above nid' v').
  { intros k e Hk. destruct (Hfrom k e Hk) as [Hin|(k' & e' & Hk' & <-)].
    - by pose proof (proj1 (Forall_forall _ _) Hmint _ Hin) as [? _].
    - specialize (Ha k' e' Hk'). subst nid'. lia. }
  assert (Hstep : step_sim v m v').
  { intros rc t Hc Hin Hwf. specialize (Hsim rc t Hc Hin Hwf). simpl. destruct (m_run spec rc t) as [[ids|e] t']; [|done].
    destruct Hsim as (Hin' & Hwf' & rids & -> & Hl & Hpos & Hfin). split_and!; [done..|]. exists rids.
    split_and!; [done|congruence|done|]. intros ρ' Hag Hn'. eapply coh_ext; [exact Hg | done | by apply Hfin]. }
  assert (Hwhole : whole_file v m v').
  { destruct Hput as [Hnone|(ps & n & pe & k & mode_ & size_ & mtime_ & sha & blob & (Hv & Hpe & Hk & Hnd') & -> & Hnext)].
    - intros pid name. simpl. by rewrite Hnone.
    - intros pid name. simpl. replace (m_supersedes _) with (Some (inodeId pe, n)) by (unfold putFileOp; by destruct hasComposites).
      intros [= <- <-]. exists ps, pe, (file_entry (hd 0 minted) mode_ size_ mtime_ sha). split_and!; try done.
      intros _ _ _ _ key. by rewrite Hg, Hnext. }
  destruct (superseding m ms) as [l|] eqn:Esup; [|by econstructor; eauto; subst nid'; lia].
  unfold superseding in Esup. simpl in Esup. destruct (m_supersedes spec) as [key|] eqn:Ekey; [|done].
  destruct (last ms) as [l'|] eqn:El; [|done]. case_decide as Hkey; [|done]. injection Esup as ->.
  destruct Hput as [|(ps & n & pe & k & mode_ & size_ & mtime_ & sha & blob & Hslot & -> & Hnext)]; [congruence|].
  inversion Hj as [|ms0 v1 nid1 l0 v2 nid2 Hj0 Hle Hmint0 _ _ _ _ Hw0 Heq]; subst; [done|].
  rewrite last_snoc in El. injection El as ->. rewrite removelast_last.
  assert (key = (inodeId pe, n)) as -> by (unfold putFileOp in Ekey; destruct hasComposites; simpl in Ekey; congruence).
  assert (m_mints (putFileOp k (inodeId pe) n mode_ size_ sha blob) = 1%nat) as Hm1 by (unfold putFileOp; by destruct hasComposites).
  rewrite Hm1 in Hlen. destruct minted as [|i []]; try done.
  assert (Hg' : ∀ key, view_get key v' = view_get key (cacheSet (path_of (ps ++ [n])) (file_entry i mode_ size_ mtime_ sha) v))
    by (intros key; by rewrite Hg, Hnext).
  econstructor; [done| | |done|done|done| |].
  - subst nid'. lia.
  - eapply Forall_impl; [done|]. simpl. lia.
  - by eapply (supersede_sim v1 v v' l m ps n pe k mode_ size_ mtime_ i sha blob); simpl; rewrite ?Ekey.
  - by eapply (supersede_whole v1 v v' l m ps n pe mode_ size_ mtime_ i sha); simpl; rewrite ?Ekey.
Qed.

(** ** The rule for [mutate] *)

Lemma inv_lost d v p e : inv d v p → inv d v (set_lost e p).
Proof. intros [H1 [] H3 H4]. by split. Qed.

Lemma inv_mint d v p n : 0 ≤ n → inv d v p → inv d v (set_nextId (nextProvisionalId p - n) p).
Proof.
  intros Hn [H1 [] H3 H4]. split; [done|split; simpl; try done; lia|done|]. intros Hp.
  destruct (H4 Hp) as (v0 & He & Hs & Hj). exists v0. split_and!; [done..|]. simpl. eapply journal_weaken; [|done]. lia.
Qed.

Lemma buffered_spec spec next mf s :
  Inv s → v_poisoned (s_view s) = false → scriptScope (s_pers s) = true →
  simulates (s_view s) spec next mf → put_form (s_view s) spec next →
  post (mutate spec) s (λ r s', ∃ nids, r = (Recorded, Some <$> nids) ∧ s_view s' = s_view s ∧
    length nids = m_mints spec ∧ scriptScope (s_pers s') = true ∧
    scriptScopeGeneration (s_pers s') = scriptScopeGeneration (s_pers s) ∧ scriptTxLost (s_pers s') = None ∧
    completes s' Recorded nids (next nids)).
Proof.
  intros HI Hp Hsc Hsim Hput. unfold post, mutate, captureGeneration, buffering. mnorm. rewrite Hsc.
  destruct (scriptTxLost (s_pers s)) as [lost|] eqn:Elost.
  { rewrite (bindM_Err _ _ _ lost s); [done|]. unfold assertAlive. by rewrite Hsc, Elost. }
  rewrite (bindM_Ok _ _ _ tt s) by (unfold assertAlive; by rewrite Hsc, Elost).
  destruct (mintInodeIds_spec (m_mints spec) s) as (minted & s1 & Hmint & Hlen & Hnd & Hall & ->).
  rewrite (bindM_Ok _ _ _ _ _ Hmint). set (m := mkBuffered _ _ _ _ _). unfold recordMutation. mnorm. simpl.
  case_decide as Hcap.
  { unfold bindM, throw. simpl. unfold Inv. simpl. apply inv_lost, inv_mint; [lia | done]. }
  unfold bindM, modifyS, retM. exists minted. split_and!; try done.
  intros v' Hg Hok Hfrom Hep Hpo. destruct HI as [H1 [R1 R2 R3 R4] H3 H4]. destruct (H4 Hp) as (v0 & He0 & Hset & Hj).
  split; simpl in *.
  - done.
  - split; simpl; try done; [lia | congruence].
  - congruence.
  - intros _. exists v0. split_and!; [congruence | done|]. by eapply (journal_record v0 (mutations (s_pers s)) (s_view s)).
Qed.

(** A transaction has committed and left the database coherent with [next]. *)
Lemma committed_completes s row next nids :
  at_rest (s_pers s) → scriptScope (s_pers s) = false → wf_db (s_db s) → sandboxes (s_db s) !! sandboxId = Some row →
  coh sandboxId (realId []) next (s_db s) → completes s (Committed (s_version row)) nids next.
Proof.
  intros Hrest Hsc Hwf Hrow Hcoh v' Hg Hok Hfrom Hep Hpo. unfold Inv. simpl.
  assert (Hc' : coh sandboxId (realId []) v' (s_db s)) by by eapply coh_ext.
  apply settled_Inv; [done | done | by apply (rest_idle _ Hrest) | done |].
  split.
  - intros k e Hk. destruct (coh_canonical _ _ _ _ Hc' k) as (cs & Hcs & ->); [by eexists|].
    destruct (coh_root _ _ _ _ Hc') as (root & Hr). destruct (coh_some _ _ _ _ Hc' root cs e Hr Hcs Hk) as (rid & _ & Hρ & _).
    unfold realId in Hρ. by case_decide; [lia|].
  - split; [|congruence]. intros row' Hrow'. assert (row' = row) as -> by congruence. rewrite Hep. split; [lia | done].
Qed.

Lemma eager_completes spec next mf s :
  Inv s → v_poisoned (s_view s) = false → scriptScope (s_pers s) = false → simulates (s_view s) spec next mf →
  post (mutate spec) s (λ r s', ∃ nids pub, r = (pub, Some <$> nids) ∧ s_view s' = s_view s ∧
    length nids = m_mints spec ∧ s_pers s' = s_pers s ∧ completes s' pub nids (next nids)).
Proof.
  intros HI Hp Hsc Hsim. unfold post, mutate, captureGeneration, buffering. mnorm. rewrite Hsc.
  pose proof (eager_spec spec next mf s HI Hp Hsc Hsim) as He. unfold bindM.
  set (w := if m_composite spec then withBareTx (runOp (m_run spec)) else withWriteTx (runOp (m_run spec))) in *.
  destruct (w s) as [[[pub ids]|e] s'];
    [|by eapply Inv_core]. destruct He as (Hv & Hpe & Hwf & row & rids & Hrow & -> & -> & Hlen & Hpos & Hcoh).
  simpl. exists rids, (Committed (s_version row)). split_and!; try done.
  apply committed_completes; rewrite ?Hpe; try done. apply HI.
Qed.

(** The rule: after a mutation that simulates the view, publishing its changes
    restores the invariant; a throw leaves it intact. *)
Lemma post_mutate spec next mf s Q :
  Inv s → v_poisoned (s_view s) = false → simulates (s_view s) spec next mf → put_form (s_view s) spec next →
  (∀ pub nids s', s_view s' = s_view s → length nids = m_mints spec → completes s' pub nids (next nids) →
     Q (pub, Some <$> nids) s') →
  post (mutate spec) s Q.
Proof.
  intros HI Hp Hsim Hput HQ. destruct (scriptScope (s_pers s)) eqn:Hsc.
  - eapply post_weaken; [|by eapply buffered_spec]. intros r s' (nids & -> & Hv & Hl & _ & _ & _ & Hc). by apply HQ.
  - eapply post_weaken; [|by eapply eager_completes]. intros r s' (nids & pub & -> & Hv & Hl & _ & Hc). by apply HQ.
Qed.

Lemma post_mutateOne spec next mf s Q :
  m_mints spec = 1%nat →
  Inv s → v_poisoned (s_view s) = false → simulates (s_view s) spec next mf → put_form (s_view s) spec next →
  (∀ pub nid s', s_view s' = s_view s → completes s' pub [nid] (next [nid]) → Q (pub, Some nid) s') →
  post (mutateOne spec) s Q.
Proof.
  intros H1 HI Hp Hsim Hput HQ.
  assert (Hw : with_mints 1 spec = spec) by (destruct spec; simpl in *; by subst). unfold mutateOne. rewrite Hw.
  unfold captureGeneration. unfold post. rewrite bindM_gets. destruct (scriptScope (s_pers s)) eqn:Hsc.
  - pose proof (buffered_spec spec next mf s HI Hp Hsc Hsim Hput) as Hb. unfold post in Hb. unfold bindM at 1.
    destruct (mutate spec s) as [[r|e] s']; [|done]. destruct Hb as (nids & -> & Hv & Hl & Hsc' & Hgen & Hlost & Hc).
    rewrite H1 in Hl. destruct nids as [|nid []]; try done.
    assert (Hg : assertGeneration (Some (scriptScopeGeneration (s_pers s))) s' = (Ok tt, s')).
    { unfold assertGeneration. mnorm. rewrite Hsc', Hgen. simpl. rewrite bool_decide_eq_true_2 by done. simpl.
      mnorm. unfold assertAlive, bindM. simpl. by rewrite Hsc', Hlost. }
    rewrite (bindM_Ok _ _ _ _ _ Hg). by apply HQ.
  - pose proof (eager_completes spec next mf s HI Hp Hsc Hsim) as Hb. unfold post in Hb. unfold bindM at 1.
    destruct (mutate spec s) as [[r|e] s']; [|done]. destruct Hb as (nids & pub & -> & Hv & Hl & Hpe & Hc).
    rewrite H1 in Hl. destruct nids as [|nid []]; try done. by apply HQ.
Qed.

(** ** The rule for the publication *)

(** Where the ids of the entries a change sets come from. *)
Definition change_from (v : View) (nids : list Z) (c : PathChange) : Prop :=
  match c with
  | ChSet _ e => inodeId e ∈ nids ∨ ∃ k' e', view_get k' v = Some e' ∧ inodeId e' = inodeId e
  | _ => True
  end.

Lemma ids_from_refl v nids : ids_from v nids v.
Proof. intros k e Hk. right. by exists k, e. Qed.

Lemma changes_from v nids cs v1 :
  Forall (change_from v nids) cs → view_ok v1 → ids_from v nids v1 → ids_from v nids (fold_left apply_change cs v1).
Proof.
  revert v1. induction cs as [|c cs IH]; intros v1 Hall Hok Hv1; [done|]. apply Forall_cons in Hall as [Hc Hall].
  simpl. apply IH; [done | by apply apply_change_ok |]. destruct c as [p e|p|id pt]; simpl.
  - intros k e'. rewrite get_cacheSet. case_decide; [intros [= <-]; done | apply Hv1].
  - intros k e'. rewrite get_cacheDelete by apply Hok. case_decide; [done | apply Hv1].
  - intros k e'. unfold updateCacheByInode. rewrite get_rewriteEntries by apply Hok.
    destruct (view_get k v1) as [e0|] eqn:E; [|done]. simpl. intros [= <-].
    destruct (Hv1 k e0 E) as [?|?]; case_decide; auto.
Qed.

Context `{Lru}.

Lemma post_publish s pub nids next paths contents complete_ :
  completes s pub nids next → view_ok (s_view s) → v_poisoned (s_view s) = false →
  (∀ k, view_get k (fold_left apply_change paths (s_view s)) = view_get k next) →
  Forall (change_from (s_view s) nids) paths →
  Inv (on_view (publishMutation pub paths contents complete_) s).
Proof.
  intros Hc Hok Hp Hg Hall. set (v' := publishMutation pub paths contents complete_ (s_view s)).
  destruct (publish_entries pub paths contents complete_ (s_view s)) as [Hes Hby].
  change (Inv (on_view (λ _, v') s)). apply Hc.
  - intros k. unfold view_get at 1, v'. rewrite Hes. apply Hg.
  - unfold view_ok, v'. rewrite Hes, Hby. by apply apply_changes_ok.
  - intros k e. unfold view_get, v'. rewrite Hes. by apply changes_from, ids_from_refl.
  - apply publish_epoch.
  - unfold v'. by rewrite publish_poisoned.
Qed.
End mutate.
