(* ===== verification/Handlers.v ===== *)
(** Every namespace operation keeps the session invariant. *)

From S2P Require Import Prelude Errors Paths Store Tree Dialect View Session Namespace Coherence Simulation Moves Copies Journal Invariant Mutate.

Section rules.
Context `{Config} (Hretire : hasRetire = true) `{Lru}.

(** The invariant, with the view named. *)
Record at_view (v : View) (s : Sys) : Prop := {
  av_inv : Inv s;
  av_view : s_view s = v;
  av_clean : v_poisoned v = false;
  av_ok : view_ok v
}.

Lemma at_view_intro s : Inv s → v_poisoned (s_view s) = false → at_view (s_view s) s.
Proof.
  intros HI Hp. split; [done..|]. destruct (inv_journal _ _ _ HI Hp) as (v0 & _ & _ & Hj). by apply journal_facts in Hj as [? _].
Qed.

Lemma bind_quiet {A B} v (m : sysM A) (f : A → sysM B) s Q :
  quiet m → at_view v s → (∀ a s', m s = (Ok a, s') → at_view v s' → post (f a) s' Q) → post (bindM m f) s Q.
Proof.
  intros Hq [HI Hv Hp Hok] Hf. apply post_bind, post_quiet; [done|done|]. intros a s' Hrun Hc. apply Hf; [done|].
  split; [by eapply Inv_core | | done | done]. destruct Hc as (_ & -> & _). done.
Qed.

Lemma bind_gets {A B} (g : Sys → A) (f : A → sysM B) s Q : post (f (g s)) s Q → post (bindM (gets g) f) s Q.
Proof. done. Qed.

Lemma bind_any {A B} (g : Sys → A) (f : A → sysM B) s Q : (∀ a, post (f a) s Q) → post (bindM (gets g) f) s Q.
Proof. intros Hf. apply Hf. Qed.

Lemma bind_viewGet {B} v p (f : _ → sysM B) s Q :
  at_view v s → post (f (view_get p v)) s Q → post (bindM (viewGet p) f) s Q.
Proof. intros [_ <- _ _]. done. Qed.

Lemma bind_viewHas {B} v p (f : _ → sysM B) s Q :
  at_view v s → post (f (view_has p v)) s Q → post (bindM (viewHas p) f) s Q.
Proof. intros [_ <- _ _]. done. Qed.

Lemma bind_throw_if {B} v c e (f : unit → sysM B) s Q :
  at_view v s → (c = false → post (f tt) s Q) → post (bindM (throw_if c e) f) s Q.
Proof. intros Ha Hf. apply post_bind, post_throw_if; [apply Ha | done]. Qed.

Lemma bind_lift {A B} v (r : res fs_error A) (f : A → sysM B) s Q :
  at_view v s → (∀ a, r = Ok a → post (f a) s Q) → post (bindM (lift_res r) f) s Q.
Proof. intros Ha Hf. apply post_bind, post_lift; [apply Ha | done]. Qed.

(** What [requireParent] says of a canonical path. *)
Definition parent_slot (v : View) (cs : list string) (n : string) (pe : PathCacheEntry) : Prop :=
  kind pe = DIRECTORY ∧
  ((cs = [] ∧ n = EmptyString ∧ view_get "/" v = Some pe) ∨
   ∃ ps, cs = ps ++ [n] ∧ view_get (path_of ps) v = Some pe).

Lemma bind_viewParent {B} v cs (f : _ → sysM B) s Q :
  valid_comps cs → at_view v s →
  (∀ n pe, parent_slot v cs n pe → post (f (parentOf (path_of cs), n, pe)) s Q) →
  post (bindM (viewParent (path_of cs)) f) s Q.
Proof.
  intros Hcs [HI <- _ _] Hf. unfold post, bindM, viewParent, requireParent.
  destruct (view_get (parentOf (path_of cs)) (s_view s)) as [pe|] eqn:E; [|done]. case_decide as Hk; [|done].
  apply Hf. split; [done|]. destruct cs as [|n ps] using rev_ind.
  - left. by vm_compute in E.
  - right. rewrite parentOf_snoc in E by done. rewrite nameOf_snoc by done. by exists ps.
Qed.

Lemma bind_mutate {B} v spec next mf (f : _ → sysM B) s Q :
  at_view v s → simulates v spec next mf → put_form v spec next →
  (∀ pub nids s', s_view s' = v → length nids = m_mints spec → completes s' pub nids (next nids) →
     post (f (pub, Some <$> nids)) s' Q) →
  post (bindM (mutate spec) f) s Q.
Proof. intros [HI <- Hp Hok] Hs Hput Hf. apply post_bind. eapply post_mutate; eauto. Qed.

Lemma bind_mutateOne {B} v spec next mf (f : _ → sysM B) s Q :
  m_mints spec = 1%nat → at_view v s → simulates v spec next mf → put_form v spec next →
  (∀ pub nid s', s_view s' = v → completes s' pub [nid] (next [nid]) → post (f (pub, Some nid)) s' Q) →
  post (bindM (mutateOne spec) f) s Q.
Proof. intros H1 [HI <- Hp Hok] Hs Hput Hf. apply post_bind. eapply post_mutateOne; eauto. Qed.

Lemma publish_last v s pub nids next paths contents complete_ :
  completes s pub nids next → s_view s = v → view_ok v → v_poisoned v = false →
  (∀ k, view_get k (fold_left apply_change paths v) = view_get k next) → Forall (change_from v nids) paths →
  post (publish pub paths contents complete_) s (λ _ s', at_view (s_view s') s').
Proof.
  intros Hc <- Hok Hp Hg Hall. unfold post, publish, modifyS. apply at_view_intro; [by eapply post_publish|].
  simpl. by rewrite publish_poisoned.
Qed.

(** The one-path publications. *)
Lemma publish_set v s pub nid p (mk : Z → PathCacheEntry) contents complete_ :
  completes s pub [nid] (cacheSet p (mk nid) v) → s_view s = v → view_ok v → v_poisoned v = false →
  inodeId (mk nid) = nid →
  post (publish pub [ChSet p (mk nid)] contents complete_) s (λ _ s', at_view (s_view s') s').
Proof.
  intros Hc Hv Hok Hp Hid. eapply publish_last; [done..|]. constructor; [|done]. left. rewrite Hid. apply list_elem_of_here.
Qed.

Definition sound {A} (m : sysM A) : Prop := ∀ v s, at_view v s → post m s (λ _ s', at_view (s_view s') s').

Lemma sound_keeps {A} (m : sysM A) : sound m → keeps m.
Proof.
  intros Hm. apply post_keeps. intros s HI Hp. eapply post_weaken; [|by eapply Hm, at_view_intro]. by intros _ s' [? _ _ _].
Qed.

Lemma at_self v s : at_view v s → at_view (s_view s) s.
Proof. intros [? <- ? ?]. by split. Qed.
End rules.

(** Step over a check; [Ha] is the [at_view] of the state. *)
Ltac quietly Ha := eapply bind_quiet; [solve [auto with quiet]|exact Ha|clear Ha; intros ? ?s _ Ha].
Tactic Notation "guarded" hyp(Ha) simple_intropattern(p) := eapply bind_throw_if; [exact Ha|intros p].

Section handlers.
Context `{Config} (Hretire : hasRetire = true) `{Lru}.

(** ** mkdir *)

Lemma put_none v spec next : m_supersedes spec = None → put_form v spec next.
Proof. by left. Qed.

Lemma mkdir_spec_form k comp p n m : m_mints (mkdir_spec k comp p n m) = 1%nat ∧ m_supersedes (mkdir_spec k comp p n m) = None.
Proof. unfold mkdir_spec. by destruct comp. Qed.

Lemma mkdir_segments_sound segs cur created m mt :
  valid_comps (cur ++ segs) → sound (mkdir_segments segs (path_of cur) created m mt).
Proof.
  revert cur created. induction segs as [|seg segs IH]; intros cur created Hv v s Ha; [by apply at_self in Ha|].
  rewrite (cons_middle seg cur segs) in Hv. rewrite app_assoc in Hv.
  pose proof Hv as [Hcs _]%valid_comps_app. pose proof Hcs as [Hcur _]%valid_comps_snoc.
  cbn [mkdir_segments]. assert ((if decide (path_of cur = "/") then "/" +:+ seg else path_of cur +:+ "/" +:+ seg) = path_of (cur ++ [seg])) as ->.
  { rewrite path_of_snoc. destruct (decide (cur = [])) as [->|Hne]; [done|]. rewrite decide_False; [done|]. by intros ?%path_of_root. }
  eapply bind_viewHas; [done|]. unfold view_has, jhas. fold (view_get (path_of (cur ++ [seg])) v).
  destruct (view_get (path_of (cur ++ [seg])) v) as [en|] eqn:E; [by eapply IH|].
  eapply bind_viewGet; [done|]. destruct (view_get (path_of cur) v) as [pe|] eqn:Ep; [|by apply post_throw, Ha].
  case_decide as Hk; [|by apply post_throw, Ha].
  destruct (mkdir_spec_form "mkdir -p" false (inodeId pe) seg m) as [Hm Hs].
  eapply bind_mutateOne; [done..|by eapply (sim_mkdir v cur seg pe Hcs Ep Hk)|by apply put_none|].
  intros pub nid s' Hv' Hc. apply post_bind. eapply post_weaken; [|eapply (publish_set v _ _ nid _ (λ i, dir_entry i m mt))]; try done; try apply Ha.
  intros ? s'' Ha''. cbv beta in *. exact (IH _ _ Hv _ _ Ha'').
Qed.

Lemma sound_markDirty : sound markDirty.
Proof.
  intros v s [HI <- Hp Hok]. unfold post, markDirty, modifyS. apply at_view_intro; [|done].
  destruct HI as [H1 H2 H3 H4]. split; [done..|]. simpl. intros _. destruct (H4 Hp) as (v0 & He & Hset & Hj). exists v0.
  split_and!; [done..|]. eapply journal_ext; [|exact Hok|exact Hj]. done.
Qed.

Lemma mkdirAt_sound cs recursive m : valid_comps cs → sound (mkdirAt (path_of cs) recursive m).
Proof.
  intros Hcs v s Ha. unfold mkdirAt. quietly Ha. apply bind_gets. destruct recursive.
  - assert (List.filter (λ p, negb (bool_decide (p = EmptyString))) (split_slash (path_of cs)) = cs) as ->.
    { apply path_segments, Hcs. }
    apply post_bind. eapply post_weaken; [|by eapply (mkdir_segments_sound cs []), Ha].
    intros [] s2 Ha'; [by eapply sound_markDirty | by apply post_ret].
  - eapply bind_viewHas; [done|]. guarded Ha Hex. eapply bind_viewParent; [done..|]. intros n pe [Hk [(-> & _ & Hroot)|(ps & -> & Hpe)]].
    { unfold view_has, jhas in Hex. fold (view_get (path_of []) v) in Hex. change (path_of []) with "/" in Hex. by rewrite Hroot in Hex. }
    destruct (mkdir_spec_form "mkdir" hasComposites (inodeId pe) n m) as [Hm Hs].
    eapply bind_mutateOne; [done..| |by apply put_none|].
    + eapply (sim_mkdir v ps n pe Hcs Hpe Hk). unfold view_has, jhas in Hex. unfold view_get. by destruct (jget _ (v_entries v)).
    + intros pub nid s2 Hv' Hc. eapply (publish_set v _ _ nid _ (λ i, dir_entry i m _)); try done; apply Ha.
Qed.

(** ** rm *)

(** Nothing needs proving of a replay that no database admits. *)
Lemma sim_absurd v spec next mf :
  (∀ ρ d, wf_db d → coh sandboxId ρ v d → False) → simulates v spec next mf.
Proof. intros Hno rc t Hc _ Hwf. exfalso. by eapply Hno. Qed.

Lemma coh_parent_some ρ v d ps n en :
  wf_db d → coh sandboxId ρ v d → valid_comps (ps ++ [n]) → view_get (path_of (ps ++ [n])) v = Some en →
  view_get (path_of ps) v ≠ None.
Proof.
  intros Hwf Hc Hv Hen Hnone. destruct (coh_lookup _ ρ v d _ en Hwf Hc Hv Hen) as (root & rid & _ & Hr & _ & Hw & _).
  pose proof Hv as [Hps _]%valid_comps_snoc. by rewrite walk_snoc, (coh_none _ _ _ _ Hc root ps Hr Hps Hnone) in Hw.
Qed.

Lemma change_deletes v nids l : Forall (change_from v nids) (ChDelete <$> l).
Proof. induction l; simpl; by constructor. Qed.

Lemma rmAt_sound cs recursive force : valid_comps cs → sound (rmAt (path_of cs) recursive force).
Proof.
  intros Hcs v s Ha. unfold rmAt. quietly Ha. eapply bind_viewGet; [done|].
  destruct (view_get (path_of cs) v) as [en|] eqn:Een; [|destruct force; [by eapply at_self | by apply post_throw, Ha]].
  eapply bind_viewGet; [done|]. apply bind_gets. rewrite (av_view _ _ Ha).
  destruct (recursive && bool_decide (kind en = DIRECTORY)).
  - eapply (bind_mutate Hretire v _ (λ _, fold_left apply_change (ChDelete <$> rm_order (pathsUnder (path_of cs) v)) v) True);
      [done| |by apply put_none|].
    + destruct cs as [|n ps _] using rev_ind.
      { change (parentOf (path_of [])) with "/". change (path_of []) with "/" in Een. rewrite Een. by apply sim_rmr_root. }
      rewrite parentOf_snoc, nameOf_snoc by done. destruct (view_get (path_of ps) v) as [pe|] eqn:Epe.
      * intros rc t Hc Hin Hwf. pose proof (sim_rmr v ps n pe en Hcs Epe Een (Some (PER_MUTATION_BASE_BYTES
          + Z.of_nat (length (rm_plan v (path_of (ps ++ [n])) (rm_order (pathsUnder (path_of (ps ++ [n])) v)))) * 80)) rc t Hc Hin Hwf) as Hs.
        simpl in *. destruct (rmr_run _ _ _ rc t) as [[]?]; done.
      * apply sim_absurd. intros ρ d Hwf Hc. by eapply coh_parent_some.
    + intros pub nids s2 Hv2 _ Hc. apply bind_gets. rewrite Hv2. eapply publish_last; [done|done|apply Ha|apply Ha|done|apply change_deletes].
  - guarded Ha Hg. destruct (view_get (parentOf (path_of cs)) v) as [pe|] eqn:Epe; [|by apply post_throw, Ha].
    eapply (bind_mutate Hretire v _ (λ _, cacheDelete (path_of cs) v) True); [done| |by apply put_none; unfold rm_spec; destruct hasComposites|].
    + destruct cs as [|n ps _] using rev_ind; [by apply sim_rm_root|].
      rewrite parentOf_snoc in Epe by done. rewrite nameOf_snoc by done. intros rc t Hc Hin Hwf.
      pose proof (coh_parent_dir _ _ v _ ps n pe en Hwf Hc Hcs Epe Een) as Hk.
      assert (Hrepl : ∀ e, view_get (path_of (ps ++ [n])) v = Some e → kind e ≠ DIRECTORY ∨ childPaths (path_of (ps ++ [n])) v = []).
      { intros e. rewrite Een. intros [= <-]. apply andb_false_iff in Hg as [Hg%bool_decide_eq_false|Hg%negb_false_iff%bool_decide_eq_true]; auto. }
      pose proof (sim_rm v ps n pe Hcs Epe Hk Hrepl en Een rc t Hc Hin Hwf) as Hs.
      destruct (m_run _ rc t) as [[]?]; done.
    + intros pub nids s2 Hv2 _ Hc. eapply publish_last; [done|done|apply Ha|apply Ha|done|by repeat constructor].
Qed.

(** ** writeFile and appendFile *)

Lemma Inv_blob s sha bytes : Inv s → Inv (set_db (commitBlob sha bytes (s_db s)) s).
Proof.
  intros [H1 H2 H3 H4]. split; simpl; [eapply wf_same_shape; [|exact H1]; unfold same_shape; by split_and!|done|done|]. intros Hp.
  destruct (H4 Hp) as (v0 & He & (Ha & Hset & Hgone) & Hj). exists v0. split_and!; [done|split_and!; [done| |done]|done].
  intros row Hrow. destruct (Hset row Hrow) as [Hle Hc]. split; [done|]. intros Heq. by eapply coh_frame, Hc.
Qed.

Lemma storeBlob_sound {B} v st sha bytes (f : unit → sysM B) s Q :
  at_view v s → (∀ s', at_view v s' → post (f tt) s' Q) → post (bindM (storeBlob st sha bytes) f) s Q.
Proof.
  intros Ha Hf. unfold storeBlob. unfold post. rewrite bindM_assoc. quietly Ha. unfold post. rewrite bindM_assoc.
  destruct (hasCommitBlob && bool_decide (0 < str_len bytes)).
  - rewrite bindM_modify. eapply (bind_quiet v); [auto with quiet| |intros [] ? _ ?; by apply Hf].
    destruct Ha as [HI <- Hp Hok]. by split; [apply Inv_blob|..].
  - rewrite bindM_ret. eapply (bind_quiet v); [auto with quiet|done|intros [] ? _ ?; by apply Hf].
Qed.

Lemma putFileOp_mints k p n m sz sha blob : m_mints (putFileOp k p n m sz sha blob) = 1%nat.
Proof. unfold putFileOp. by destruct hasComposites. Qed.

(** The write itself: the mutation and its publication. *)
Lemma put_sound {B} v ps n pe k m sz mt sha blob (f : _ → sysM B) s Q :
  at_view v s → put_slot v ps n pe →
  (∀ pub nid s', s_view s' = v →
     completes s' pub [nid] (cacheSet (path_of (ps ++ [n])) (file_entry nid m sz mt sha) v) → post (f (pub, Some nid)) s' Q) →
  post (bindM (mutateOne (putFileOp k (inodeId pe) n m sz sha blob)) f) s Q.
Proof.
  intros Ha Hslot Hf. pose proof Hslot as (Hv & Hpe & Hk & Hnd).
  eapply bind_mutateOne; [done|apply putFileOp_mints|done| | |].
  - by apply (sim_putFile v ps n pe Hv Hpe Hk (λ en Hen, or_introl (Hnd en Hen)) k m sz sha blob mt).
  - right. by exists ps, n, pe, k, m, sz, mt, sha, blob.
  - intros pub nid s' Hv' Hc. by apply Hf.
Qed.

(** The slot, from the guards of both writes. *)
Lemma guards_slot v cs n pe :
  valid_comps cs → is_kind DIRECTORY (view_get (path_of cs) v) = false → parent_slot v cs n pe →
  ∃ ps, cs = ps ++ [n] ∧ put_slot v ps n pe.
Proof.
  intros Hcs Hg [Hk [(-> & _ & Hroot)|(ps & -> & Hpe)]].
  - change (path_of []) with "/" in Hg. rewrite Hroot in Hg. simpl in Hg. by rewrite bool_decide_eq_true_2 in Hg.
  - exists ps. split; [done|]. split_and!; try done. intros en Hen. rewrite Hen in Hg. simpl in Hg. by apply bool_decide_eq_false in Hg.
Qed.

Lemma writeFileAt_sound cs bytes createMode : valid_comps cs → sound (writeFileAt (path_of cs) bytes createMode).
Proof.
  intros Hcs v s Ha. unfold writeFileAt. apply bind_any. intros stamp. quietly Ha. eapply bind_viewGet; [done|]. guarded Ha Hg.
  eapply bind_viewParent; [done..|]. intros n pe Hps. quietly Ha. apply bind_any. intros now.
  destruct (guards_slot v cs n pe Hcs Hg Hps) as (ps & -> & Hslot).
  eapply storeBlob_sound; [done|]. clear - Hretire Hslot. intros s Ha. eapply bind_viewGet; [done|]. apply bind_any. intros b.
  eapply put_sound; [done..|]. intros pub nid s' Hv' Hc. unfold viewGet. apply bind_gets.
  eapply (publish_set v _ _ nid _ (λ i, file_entry i _ _ _ _)); try done; apply Ha.
Qed.

(** A read transaction leaves the session as it was. *)
Lemma quiet_read_tx (pre : txM unit) (sha : string) :
  (∀ t, t_db (pre t).2 = t_db t) → quiet (inTx (onTx pre ;;; onTx (getBlob sha))).
Proof.
  intros Hpre s. unfold inTx, onTx, bindM. simpl. specialize (Hpre (mkTx (s_db s) None None)).
  destruct (pre (mkTx (s_db s) None None)) as [[[]|e] t]; simpl in *; [|done]. unfold same_core. simpl. by rewrite Hpre.
Qed.

Lemma quiet_readForAppend sha : quiet (readForAppend (getBlob sha)).
Proof.
  unfold readForAppend. apply quiet_bind; [done|]. intros []; [apply quiet_bind; [auto with quiet|]; intros _|];
    apply quiet_read_tx; intros t; [done|].
  unfold setSandboxContextWithLock. by destruct (sel_sandbox t sandboxId).
Qed.
Hint Resolve quiet_readForAppend : quiet.

Lemma appendFileAt_sound cs bytes : valid_comps cs → sound (appendFileAt (path_of cs) bytes).
Proof.
  intros Hcs v s Ha. unfold appendFileAt. apply bind_any. intros stamp. quietly Ha. eapply bind_viewGet; [done|]. guarded Ha Hg.
  apply bind_any. intros now. destruct (bool_decide (str_len bytes = 0) && _); [by eapply at_self|]. quietly Ha.
  eapply bind_quiet; [|exact Ha|clear Ha; intros full ? _ Ha].
  { destruct (view_get (path_of cs) v) as [en|]; [|done]. destruct (kind en), (contentSha256 en); auto 10 with quiet. }
  eapply bind_viewParent; [done..|]. intros n pe Hps. destruct (guards_slot v cs n pe Hcs Hg Hps) as (ps & -> & Hslot).
  eapply storeBlob_sound; [done|]. clear - Hretire Hslot. intros s Ha. apply bind_any. intros b.
  eapply put_sound; [done..|]. intros pub nid s' Hv' Hc.
  eapply (publish_set v _ _ nid _ (λ i, file_entry i _ _ _ _)); try done; apply Ha.
Qed.

(** ** cp *)

Lemma cp_changes_from v src dest mt nids plan w :
  (∀ p i, (p, i) ∈ cp_ids plan (Some <$> nids) w → i ∈ nids) →
  Forall (change_from v nids) (cp_changes v src dest mt (cp_ids plan (Some <$> nids) w)).
Proof.
  intros Hall. apply Forall_forall. intros c Hc. unfold cp_changes in Hc. apply list_elem_of_omap in Hc as ([p i] & Hin & Hc).
  simpl in Hc. destruct (view_get _ v) as [e|]; [|done]. simpl in Hc. injection Hc as <-. left. by eapply Hall.
Qed.

Lemma elem_jset {K V} `{EqDecision K} (k : K) (x : V) m q y : (q, y) ∈ jset k x m → (q, y) ∈ m ∨ y = x.
Proof.
  induction m as [|[k' x'] m IH]; simpl.
  - intros [= -> ->]%list_elem_of_singleton. by right.
  - case_decide; rewrite !elem_of_cons; [intros [[= -> ->]|?]; auto|]. intros [?|Hin]; [auto|]. destruct (IH Hin); auto.
Qed.

Lemma cp_ids_range plan nids m p i :
  length nids = length plan → (p, i) ∈ cp_ids plan (Some <$> nids) m → (p, i) ∈ m ∨ i ∈ nids.
Proof.
  revert nids m. induction plan as [|st plan IH]; intros nids m Hl; [by left|]. destruct nids as [|n nids]; [done|].
  injection Hl as Hl. simpl. intros Hin. destruct (IH nids _ Hl Hin) as [Hj|?]; [|right; by apply list_elem_of_further].
  apply elem_jset in Hj as [?| ->]; [by left | right; apply list_elem_of_here].
Qed.

Lemma cpAt_sound ss ds recursive :
  valid_comps ss → valid_comps ds → (recursive = true → ss ≠ []) → sound (cpAt (path_of ss) (path_of ds) recursive).
Proof.
  intros Hss Hds Hroot v s Ha. unfold cpAt. case_decide; [case_decide; [by eapply at_self | by eapply writeFileAt_sound]|].
  eapply bind_viewGet; [done|]. case_decide.
  { destruct (view_get (path_of ss) v) as [se|]; [|by apply post_throw, Ha]. apply post_throw_if; [apply Ha|]. intros _. by eapply at_self. }
  quietly Ha. guarded Ha Hname. apply bool_decide_eq_false in Hname.
  destruct ds as [|n ps _] using rev_ind; [by destruct Hname|]. clear Hname.
  destruct (view_get (path_of ss) v) as [se|] eqn:Ese; [|by apply post_throw, Ha]. case_decide as Hk.
  - guarded Ha Hrec. apply bind_gets. rewrite (av_view _ _ Ha). eapply bind_viewParent; [done..|]. intros n' pe [Hpk [(Hnil & _)|(ps' & Heq & Hpe)]].
    { by destruct ps. }
    apply app_inj_tail in Heq as [<- <-]. apply bind_any. intros now. eapply bind_lift; [done|]. intros plan Hplan.
    eapply bind_mutate; [done|done|eapply (sim_cpr v ss ps n now se pe plan)|by apply put_none|]; try done.
    { apply Hroot. by destruct recursive. }
    intros pub nids s' Hv' Hl Hc. apply bind_gets. rewrite Hv'. simpl in Hl. eapply publish_last; [done|done|apply Ha|apply Ha|done|].
    apply cp_changes_from. intros p i Hin. apply cp_ids_range in Hin as [Hin|?]; [by apply not_elem_of_nil in Hin|done|done].
  - eapply bind_viewGet; [done|]. guarded Ha Hg. eapply bind_viewParent; [done..|]. intros n' pe Hps.
    destruct (guards_slot v _ n' pe Hds Hg Hps) as (ps' & Heq & Hv & Hpe & Hpk & Hnd). apply app_inj_tail in Heq as [<- <-].
    apply bind_any. intros now. eapply bind_mutateOne; [done|done|done| |by apply put_none|].
    + by apply (sim_copy v ps n pe Hv Hpe Hpk (λ en Hen, or_introl (Hnd en Hen)) se now).
    + intros pub nid s' Hv' Hc. eapply (publish_set v _ _ nid _ (λ i, with_mtime now (with_inode i se))); try done; apply Ha.
Qed.

(** ** chmod and utimes *)

Lemma update_sound cs k u pt (op : string) :
  valid_comps cs → no_patch u = false →
  (∀ e r, entry_matches e r → entry_matches (apply_patch pt e) (patch_inode u r)) →
  sound (assertWritable (path_of cs) op ;;;
    let* entry := viewGet (path_of cs) in
    match entry with
    | None => throw (ENOENT (path_of cs))
    | Some en =>
        let* receipt := mutate (update_spec k (inodeId en) u) in
        publish receipt.1 [ChPatchInode (inodeId en) pt] [] true
    end).
Proof.
  intros Hcs Hu Hpt v s Ha. quietly Ha. eapply bind_viewGet; [done|].
  destruct (view_get (path_of cs) v) as [en|] eqn:Een; [|by apply post_throw, Ha].
  eapply bind_mutate; [done|done|by eapply (sim_update v cs en k u pt)|by apply put_none|].
  intros pub nids s' Hv' _ Hc. eapply publish_last; [done|done|apply Ha|apply Ha|done|by repeat constructor].
Qed.

Lemma chmodAt_sound cs m : valid_comps cs → sound (chmodAt (path_of cs) m).
Proof. intros Hcs. apply update_sound; [done|done|]. intros e r (? & ? & ? & ? & ?). by split_and!. Qed.

Lemma utimesAt_sound cs m : valid_comps cs → sound (utimesAt (path_of cs) m).
Proof. intros Hcs. apply update_sound; [done|done|]. intros e r (? & ? & ? & ? & ?). by split_and!. Qed.

(** ** mv *)

Lemma quiet_mv_check src dest l : quiet (mv_check src dest l).
Proof. induction l as [|p l IH]; [done|]. simpl. auto 10 with quiet. Qed.

Lemma coh_root_dir ρ v d e : wf_db d → coh sandboxId ρ v d → view_get "/" v = Some e → kind e = DIRECTORY.
Proof.
  intros Hwf Hc He. destruct (coh_lookup _ ρ v d [] e Hwf Hc) as (root & rid & r & Hr & _ & Hw & Hi & _ & Hm & _); [constructor|done|].
  simpl in Hw. injection Hw as <-. apply root_of_Some in Hr as (sr & Hs & Hroot).
  destruct (wf_root _ Hwf _ _ _ Hs Hroot) as (r' & Hr' & Hk & _). congruence.
Qed.

Lemma mv_changes_from v nids src dest : Forall (change_from v nids) (mv_changes v src dest).
Proof.
  unfold mv_changes. apply Forall_app. split; [apply change_deletes|]. apply Forall_app. split; [apply change_deletes|].
  apply Forall_forall. intros c Hc. apply list_elem_of_omap in Hc as (p & _ & Hc).
  destruct (view_get p v) as [e|] eqn:E; [|done]. simpl in Hc. injection Hc as <-. right. by exists p, e.
Qed.

(** The guard against moving a directory into itself. *)
Lemma mv_guard_prefix ss ds se :
  valid_comps ss → valid_comps ds →
  bool_decide (kind se = DIRECTORY) && (starts_with (path_of ds) (dir_prefix (path_of ss)) || bool_decide (path_of ds = path_of ss)) = false →
  kind se = DIRECTORY → ¬ ss `prefix_of` ds.
Proof.
  intros Hss Hds Hg Hk [rest Hrest]. rewrite bool_decide_eq_true_2, andb_true_l in Hg by done.
  apply orb_false_iff in Hg as [Hs Hne%bool_decide_eq_false]. destruct (decide (rest = [])) as [->|Hr].
  { rewrite app_nil_r in Hrest. congruence. }
  destruct (proj2 (starts_with_dir_prefix ss ds Hss Hds)) as [_ Hst]; [by exists rest|]. congruence.
Qed.

Lemma mvAt_sound ss ds : valid_comps ss → valid_comps ds → sound (mvAt (path_of ss) (path_of ds)).
Proof.
  intros Hss Hds v s Ha. unfold mvAt. quietly Ha. eapply bind_viewGet; [done|].
  destruct (view_get (path_of ss) v) as [se|] eqn:Ese; [|by apply post_throw, Ha].
  apply bind_gets. rewrite (av_view _ _ Ha).
  eapply bind_quiet; [apply quiet_mv_check|exact Ha|clear Ha; intros ? ?s _ Ha].
  destruct (view_get (parentOf (path_of ss)) v) as [pe1|] eqn:Epe1; [|by apply post_throw, Ha].
  destruct (view_get (parentOf (path_of ds)) v) as [pe2|] eqn:Epe2; [|by apply post_throw, Ha].
  guarded Ha Hpk%negb_false_iff%bool_decide_eq_true. guarded Ha Hin. guarded Ha Hname%bool_decide_eq_false.
  destruct (decide (inodeId <$> view_get (path_of ds) v = Some (inodeId se))) as [_|Hid]; [by eapply at_self|]. guarded Ha Hne. guarded Ha Hd1. guarded Ha Hd2.
  pose proof (mv_guard_prefix ss ds se Hss Hds Hin) as Hdir.
  destruct ds as [|n2 ps2 _] using rev_ind; [by destruct Hname|]. rewrite parentOf_snoc in Epe2 by done. rewrite !nameOf_snoc by done.
  eapply (bind_mutate Hretire v _ (λ _, fold_left apply_change (mv_changes v (path_of ss) (path_of (ps2 ++ [n2]))) v) False);
    [done| |apply put_none; unfold mv_spec; by destruct hasComposites|].
  - destruct ss as [|n1 ps1 _] using rev_ind.
    + apply sim_absurd. intros ρ d Hwf Hc. apply Hdir; [by eapply coh_root_dir | apply prefix_nil].
    + rewrite parentOf_snoc in Epe1 by done. rewrite nameOf_snoc by done. apply (sim_mv v ps1 ps2 n1 n2 pe1 pe2 se); try done.
      intros de Hde. rewrite Hde in Hne. simpl in Hne. apply andb_false_iff in Hne as [?%bool_decide_eq_false|?%negb_false_iff%bool_decide_eq_true]; auto.
  - intros pub nids s' Hv' _ Hc. apply bind_gets. rewrite Hv'. eapply publish_last; [done|done|apply Ha|apply Ha|done|apply mv_changes_from].
Qed.

(** ** symlink and link *)

Lemma symlinkAt_sound target cs : valid_comps cs → cs ≠ [] → sound (symlinkAt target (path_of cs)).
Proof.
  intros Hcs Hne v s Ha. unfold symlinkAt. quietly Ha. quietly Ha. eapply bind_viewParent; [done..|].
  intros n pe [Hk [(-> & _)|(ps & -> & Hpe)]]; [done|]. apply bind_any. intros now.
  eapply bind_mutateOne; [done|done|done|by apply (sim_symlink v ps n pe Hcs Hpe Hk target _ now)|by apply put_none|].
  intros pub nid s' Hv' Hc. eapply (publish_set v _ _ nid _ (λ i, symlink_entry i now target)); try done; apply Ha.
Qed.

Lemma linkAt_sound ks cs : valid_comps ks → valid_comps cs → sound (linkAt (path_of ks) (path_of cs)).
Proof.
  intros Hks Hcs v s Ha. unfold linkAt. quietly Ha. eapply bind_viewGet; [done|].
  destruct (view_get (path_of ks) v) as [se|] eqn:Ese; [|by apply post_throw, Ha].
  guarded Ha Hk%bool_decide_eq_false. eapply bind_viewHas; [done|]. guarded Ha Hex.
  eapply bind_viewParent; [done..|]. intros n pe [Hpk [(-> & _ & Hroot)|(ps & -> & Hpe)]].
  { unfold view_has, jhas in Hex. fold (view_get (path_of []) v) in Hex. change (path_of []) with "/" in Hex. by rewrite Hroot in Hex. }
  eapply bind_mutate; [done|done|eapply (sim_link v ps n pe Hcs Hpe Hpk ks se)|by apply put_none|]; try done.
  { unfold view_has, jhas in Hex. unfold view_get. by destruct (jget _ (v_entries v)). }
  intros pub nids s' Hv' _ Hc. eapply publish_last; [done|done|apply Ha|apply Ha|done|]. constructor; [|done]. right. by exists (path_of ks), se.
Qed.

(** ** Reservations and exclusive creation *)

Lemma withNamespaceMutation_sound {A} (m : sysM A) : sound m → sound (withNamespaceMutation m).
Proof. intros Hm v s Ha. unfold withNamespaceMutation. apply bind_any. intros stamp. quietly Ha. by eapply Hm. Qed.

Lemma createExclusive_sound cs directory m : valid_comps cs → sound (createExclusive (path_of cs) directory m).
Proof.
  intros Hcs v s Ha. unfold createExclusive. guarded Ha Hdev. eapply withNamespaceMutation_sound; [|exact Ha].
  clear v s Ha Hdev. intros v s Ha. quietly Ha. eapply bind_viewHas; [done|]. guarded Ha Hex.
  eapply bind_viewParent; [done..|]. intros n pe _. destruct directory; [by eapply mkdirAt_sound | by eapply writeFileAt_sound].
Qed.
End handlers.
