(* ===== verification/SqlFs.v ===== *)
(** The filesystem a sandbox sees (src/src/sql-fs/sql-fs.ts), with the path
    resolution of the database (migration 0008, [fs_resolve]) and the read half
    of src/src/sql-fs/state/coherent-view.ts and file-contents.ts.

    Every method first normalises its path; the mutating ones then go through
    the namespace operations, the reading ones look in the view. *)

From S2P Require Import Prelude Errors Paths Store View Session Namespace.

(** ** [fs_resolve] *)

Inductive ResolveStep : Type :=
| RDone (current : Z)
| RFail (state : string)
| RLink (stack : list Z) (target : option string) (rest : list string).

(** The loop over the components, up to the first symlink it follows. [stack]
    holds the inodes of the path walked so far, the innermost first; the current
    inode is its head. A component that is the last one is followed too when
    [followLast]. *)
Fixpoint resolve_comps (t : tx) (followLast : bool) (stack : list Z) (comps : list string) : ResolveStep :=
  match comps with
  | [] => match stack with current :: _ => RDone current | [] => RFail "FS002" end
  | c :: rest =>
      if decide (c = ".") then resolve_comps t followLast stack rest
      else if decide (c = "..") then
        resolve_comps t followLast (match stack with _ :: (parent :: up) => parent :: up | _ => stack end) rest
      else
        match stack with
        | [] => RFail "FS002"
        | current :: _ =>
            (* an inode that is not there leaves [v_kind] NULL, and NULL <> 2 is not true *)
            if match sel_inode t current with Some r => negb (bool_decide (i_kind r = DIRECTORY)) | None => false end
            then RFail "FS003"
            else match sel_dirent t (current, c) with
            | None => RFail "FS002"
            | Some de =>
                let next := d_inodeId de in
                match sel_inode t next with
                | Some r =>
                    if bool_decide (i_kind r = SYMLINK) && (negb (bool_decide (rest = [])) || followLast)
                    then RLink stack (i_symlinkTarget r) rest
                    else resolve_comps t followLast (next :: stack) rest
                | None => resolve_comps t followLast (next :: stack) rest
                end
            end
        end
  end.

(** [string_to_array(p, '/')] without its empty segments *)
Definition segments (p : string) : list string :=
  List.filter (λ s, negb (bool_decide (s = EmptyString))) (split_slash p).

(** [fs_resolve_internal]; [hops] symlinks may still be followed. A NULL target
    has no components. *)
Fixpoint resolve_loop (hops : nat) (t : tx) (followLast : bool) (root : Z) (stack : list Z) (comps : list string)
    : res fs_error Z :=
  match resolve_comps t followLast stack comps with
  | RDone current => Ok current
  | RFail state => Err (SqlState state)
  | RLink stack' target rest =>
      match hops with
      | O => Err (SqlState "FS001")
      | S hops' =>
          let target := default EmptyString target in
          let stack'' := if starts_with target "/" then [root] else stack' in
          resolve_loop hops' t followLast root stack'' (segments target ++ rest)
      end
  end.

Definition fs_resolve (path : string) (followLast : bool) : txM Z := λ t,
  match t_sandbox t with
  | None => (Err (SqlState "42704"), t)
  | Some sb =>
      match sel_sandbox t sb ≫= s_root with
      | None => (Err (SqlState "FS002"), t)
      | Some root => (resolve_loop 40 t followLast root [root] (segments path), t)
      end
  end.

(** [PostgresDialect.resolvePath] *)
Definition dialect_resolvePath (path : string) (followLast : bool) : txM Z := λ t,
  match fs_resolve path followLast t with
  | (Ok id, t') => (Ok id, t')
  | (Err e, t') => (Err (translateSqlError e path), t')
  end.

(** ** Stat *)

Record FsStat := mkStat {
  isFile : bool;
  isDirectory : bool;
  isSymbolicLink : bool;
  st_mode : Z;
  st_size : Z;
  st_mtime : Z;
  st_identity : option Z   (* the inode the identity string is made from *)
}.

Definition DEV_NULL_STAT : FsStat := mkStat true false false 438 0 0 None.

Definition stat_of (followed : bool) (e : PathCacheEntry) : FsStat :=
  mkStat (bool_decide (kind e = FILE)) (bool_decide (kind e = DIRECTORY))
    (if followed then false else bool_decide (kind e = SYMLINK)) (mode e) (e_size e) (mtime e) (Some (inodeId e)).

Section sqlfs.
Context `{Config} `{Lru}.

(** ** Mutations *)

Definition fs_writeFile (inputPath bytes : string) : sysM unit :=
  let* path := lift_res (validatePath inputPath) in
  if decide (path = DEV_NULL) then retM tt else ns_writeFile path bytes None.

Definition fs_appendFile (inputPath bytes : string) : sysM unit :=
  let* path := lift_res (validatePath inputPath) in
  if decide (path = DEV_NULL) then retM tt else ns_appendFile path bytes.

Definition fs_rm (inputPath : string) (recursive force : bool) : sysM unit :=
  let* path := lift_res (validatePath inputPath) in
  lift_res (assertStoredPath path "rm") ;;;
  ns_rm path recursive force.

Definition fs_chmod (inputPath : string) (mode_ : Z) : sysM unit :=
  let* path := lift_res (validatePath inputPath) in
  lift_res (assertStoredPath path "chmod") ;;;
  ns_chmod path mode_.

Definition fs_utimes (inputPath : string) (mtime_ : Z) : sysM unit :=
  let* path := lift_res (validatePath inputPath) in
  lift_res (assertStoredPath path "utimes") ;;;
  ns_utimes path mtime_.

Definition fs_cp (inputSrc inputDest : string) (recursive : bool) : sysM unit :=
  let* src := lift_res (validatePath inputSrc) in
  let* dest := lift_res (validatePath inputDest) in
  ns_cp src dest recursive.

Definition fs_mv (inputSrc inputDest : string) : sysM unit :=
  let* src := lift_res (validatePath inputSrc) in
  let* dest := lift_res (validatePath inputDest) in
  lift_res (assertStoredPath src "mv") ;;;
  lift_res (assertStoredPath dest "mv") ;;;
  ns_mv src dest.

Definition fs_symlink (target inputLinkPath : string) : sysM unit :=
  let* linkPath := lift_res (validatePath inputLinkPath) in
  throw_if (bool_decide (linkPath = DEV_NULL)) (EEXIST linkPath) ;;;
  ns_symlink target linkPath.

Definition fs_link (inputExistingPath inputNewPath : string) : sysM unit :=
  let* existingPath := lift_res (validatePath inputExistingPath) in
  let* newPath := lift_res (validatePath inputNewPath) in
  lift_res (assertStoredPath existingPath "link") ;;;
  throw_if (bool_decide (newPath = DEV_NULL)) (EEXIST newPath) ;;;
  ns_link existingPath newPath.

Definition fs_createExclusive (inputPath : string) (directory : bool) (mode_ : Z) : sysM unit :=
  let* path := lift_res (validatePath inputPath) in
  createExclusive path directory mode_.

Definition fs_mkdir (inputPath : string) (recursive : bool) : sysM unit :=
  let* path := lift_res (validatePath inputPath) in
  ns_mkdir path recursive.

(** ** Reads *)

(** [for (const [, e] of pathCache) if (e.inodeId === id) return ...] *)
Definition find_inode (id : Z) (v : View) : option (string * PathCacheEntry) :=
  List.find (λ pe, bool_decide (inodeId pe.2 = id)) (v_entries v).

Definition is_enoent (e : fs_error) : bool := bool_decide (error_code e = Some "ENOENT").

Definition resolve_in_db (path : string) : sysM (string * PathCacheEntry) :=
  let* resolvedId := read (dialect_resolvePath path true) in
  let* v := gets s_view in
  match find_inode resolvedId v with
  | Some pe => retM pe
  | None => throw (ENOENT path)
  end.

(** [None] is the virtual device. *)
Definition resolveReadEntry (path : string) : sysM (option PathCacheEntry) :=
  let* v := gets s_view in
  let* buffered := gets buffering in
  let entry := view_get path v in
  match entry with
  | Some e =>
      if decide (kind e = SYMLINK) then
        match resolveCached path v with
        | Ok (_, None) => retM None
        | Ok (_, Some e') => if buffered then retM (Some e') else let* pe := resolve_in_db path in retM (Some pe.2)
        | Err err => if buffered || negb (is_enoent err) then throw err else let* pe := resolve_in_db path in retM (Some pe.2)
        end
      else retM (Some e)
  | None =>
      match resolveCached path v with
      | Ok (_, None) => retM None
      | Ok (_, Some e') => if buffered then retM (Some e') else let* pe := resolve_in_db path in retM (Some pe.2)
      | Err err => throw err
      end
  end.

Definition fs_exists (inputPath : string) : sysM bool :=
  assertAlive ;;;
  let* path := lift_res (validatePath inputPath) in
  let* has := viewHas path in
  retM (bool_decide (path = DEV_NULL) || has).

Definition fs_stat (inputPath : string) : sysM FsStat :=
  assertAlive ;;;
  let* path := lift_res (validatePath inputPath) in
  if decide (path = DEV_NULL) then retM DEV_NULL_STAT
  else
    let* entry := resolveReadEntry path in
    retM (match entry with None => DEV_NULL_STAT | Some e => stat_of true e end).

Definition fs_lstat (inputPath : string) : sysM FsStat :=
  assertAlive ;;;
  let* path := lift_res (validatePath inputPath) in
  if decide (path = DEV_NULL) then retM DEV_NULL_STAT
  else
    let* entry := viewGet path in
    match entry with
    | None => throw (ENOENT path)
    | Some e => retM (stat_of false e)
    end.

Definition fs_readdir (inputPath : string) : sysM (list string) :=
  assertAlive ;;;
  let* path := lift_res (validatePath inputPath) in
  throw_if (bool_decide (path = DEV_NULL)) (ENOTDIR path) ;;;
  let* entry := viewGet path in
  match entry with
  | None => throw (ENOENT path)
  | Some e =>
      throw_if (negb (bool_decide (kind e = DIRECTORY))) (ENOTDIR path) ;;;
      gets (λ s, nameOf <$> childPaths path (s_view s))
  end.

Definition fs_readlink (inputPath : string) : sysM (option string) :=
  let* path := lift_res (validatePath inputPath) in
  throw_if (bool_decide (path = DEV_NULL)) (EINVAL path) ;;;
  let* entry := viewGet path in
  match entry with
  | None => throw (ENOENT path)
  | Some e =>
      throw_if (negb (bool_decide (kind e = SYMLINK))) (EINVAL path) ;;;
      retM (symlinkTarget e)
  end.

(** [FileContents.read] and [CoherentView.readBytes]: the cached bytes, or the
    blob's, which are cached when there are any. No prewarm is in flight. *)
Definition readContent (entry : PathCacheEntry) : sysM string :=
  let* v := gets s_view in
  match jget (inodeId entry) (contentCache (v_contents v)) with
  | Some cached => assertAlive ;;; retM cached
  | None =>
      let* data := gets (λ s, contentSha256 entry ≫= λ sha, getBlobNoTx sha (s_db s)) in
      let bytes := default EmptyString data in
      (if decide (0 < str_len bytes)
       then modifyS (on_view (λ v, set_contents (put (inodeId entry) bytes (v_contents v)) v)) else retM tt) ;;;
      assertAlive ;;;
      retM bytes
  end.

Definition readBytes (inputPath : string) : sysM string :=
  let* path := lift_res (validatePath inputPath) in
  if decide (path = DEV_NULL) then retM EmptyString
  else
    let* entry := resolveReadEntry path in
    match entry with
    | None => retM EmptyString
    | Some e =>
        throw_if (bool_decide (kind e = DIRECTORY)) (EISDIR path) ;;;
        assertExecFileSize path (e_size e) "read" ;;;
        consumeExecInput (e_size e) path ;;;
        readContent e
    end.

Definition fs_readFileBuffer (inputPath : string) : sysM string :=
  assertAlive ;;;
  readBytes inputPath.

Definition fs_realpath (inputPath : string) : sysM string :=
  assertAlive ;;;
  let* path := lift_res (validatePath inputPath) in
  if decide (path = DEV_NULL) then retM path
  else
    let* buffered := gets buffering in
    let* v := gets s_view in
    match resolveCached path v with
    | Ok (p, None) => retM p
    | Ok (p, Some _) => if buffered then retM p else let* pe := resolve_in_db path in retM pe.1
    | Err err => if buffered || negb (is_enoent err) then throw err else let* pe := resolve_in_db path in retM pe.1
    end.

(** ** Scopes *)

Definition clearDirty : sysM unit := modifyS (on_view (set_dirty false)).
Definition poison : sysM unit := modifyS (on_view (set_poisoned true)).

Definition beginScriptScope : sysM unit := begin.

(** [#recoverCommittedView], and the recovery of [abortScriptScope] *)
Definition recoverCommittedView : sysM unit :=
  catch (reload ;;; clearDirty) (λ _, poison).

Definition abortScriptScope : sysM unit :=
  let* reloadRequired := abort in
  if reloadRequired then recoverCommittedView else retM tt.

(** [publishScope] on the session's view. *)
Definition publishSettlement (epoch : Z) (inodeRemap : option (list (Z * Z))) : sysM unit := λ s,
  let '(r, v') := publishScope epoch inodeRemap (s_view s) in (r, on_view (λ _, v') s).

(** [ownerLost] is what [ownerLeaseLost()] answers. *)
Definition endScriptScope (ownerLost : bool) : sysM unit :=
  let* active := gets (λ s, scriptScope (s_pers s)) in
  if negb active then retM tt
  else if ownerLost then
    abortScriptScope ;;; throw (ELOCKLOST "worker owner before flush")
  else
    let* lost := gets (λ s, scriptTxLost (s_pers s)) in
    match lost with
    | Some e => abortScriptScope ;;; throw e
    | None =>
        let* settlement := finish in
        match settlement with
        | SFailed error reloadRequired =>
            (if reloadRequired then recoverCommittedView else retM tt) ;;;
            throw error
        | SCommitted epoch remap_ =>
            catch (publishSettlement epoch remap_) (λ error, recoverCommittedView ;;; throw error)
        | Unchanged => retM tt
        end
    end.

(** [claimGeneration]: [true] when the view had to be loaded again. *)
Definition fs_claimGeneration : sysM bool :=
  let* certificate := claimGeneration in
  match certificate with
  | None => retM false
  | Some c =>
      let* v := gets s_view in
      let '(published, v') := publishGeneration c v in
      modifyS (on_view (λ _, v')) ;;;
      if published then retM false else reload ;;; retM true
  end.

Definition beginReadOnlyScope : sysM unit := modifyS (λ s, set_depth (s_readOnlyDepth s + 1) s).

Definition endReadOnlyScope : sysM unit :=
  let* depth := gets s_readOnlyDepth in
  throw_if (bool_decide (depth = 0)) (PlainError "endReadOnlyScope: no active read-only scope") ;;;
  modifyS (λ s, set_depth (s_readOnlyDepth s - 1) s).
End sqlfs.
