(* ===== verification/Ingest.v ===== *)
(** Bulk ingest (src/src/sql-fs/dialects/postgres/ingest.ts,
    src/src/sql-fs/state/namespace/ingest.ts, [bulkIngest] of
    src/src/sql-fs/state/namespace-operations.ts and src/src/sql-fs/sql-fs.ts).

    A batch of files is written in one transaction, with every missing ancestor
    directory: the directories level by level, then all file rows in one
    statement, the entries that exist redirected, the displaced inodes
    unlinked, the other entries inserted. The blobs are committed from inside
    the callback on a connection of their own, so they stay when the transaction
    rolls back, and the transaction sees them (READ COMMITTED).

    A [SELECT] that joins a list of values returns its rows in no particular
    order; here they come in the order of the list. The order only decides which
    of several conflicting paths an error names. *)

From S2P Require Import Prelude Errors Paths Store View Session Namespace.

Record BulkIngestFile := mkIngestFile { bf_path : string; bf_content : string; bf_mode : Z }.

(** ** The paths of a batch *)

(** The first loop: [posix.resolve("/", path)] must name a stored file. *)
Fixpoint check_ingest_paths (files : list BulkIngestFile) : res fs_error unit :=
  match files with
  | [] => Ok tt
  | f :: files' =>
      let path := resolvePath "/" (bf_path f) in
      if decide (path = "/") then Err (EISDIR (bf_path f))
      else if decide (path = DEV_NULL) then Err (EPERM (bf_path f) "bulkIngest")
      else if starts_with path (DEV_NULL +:+ "/") then Err (ENOTDIR DEV_NULL)
      else check_ingest_paths files'
  end.

(** [path.split("/").filter(Boolean)] *)
Definition path_parts (path : string) : list string :=
  List.filter (λ s, negb (bool_decide (s = EmptyString))) (split_slash path).

(** [`/${parts.join("/")}`] *)
Definition parts_path (parts : list string) : string := "/" +:+ join_slash parts.

Definition parts_name (parts : list string) : string := default EmptyString (last parts).

Definition parts_parent (parts : list string) : string :=
  if decide (length parts = 1%nat) then "/" else parts_path (removelast parts).

(** [set.add(x)] *)
Definition set_add (x : string) (l : list string) : list string := if decide (x ∈ l) then l else l ++ [x].

(** The proper ancestors of a file, into the set of their depth. *)
Definition add_ancestors (byDepth : list (nat * list string)) (f : BulkIngestFile) : list (nat * list string) :=
  let parts := path_parts (bf_path f) in
  fold_left (λ m i, jset i (set_add (parts_path (take i parts)) (default [] (jget i m))) m)
    (seq 1 (length parts - 1)) byDepth.

Definition dirsByDepth (files : list BulkIngestFile) : list (nat * list string) := fold_left add_ancestors files [].

Definition sortedDepths (byDepth : list (nat * list string)) : list nat := sort_on Z.of_nat (jkeys byDepth).

(** ** Statements over lists of rows *)

(** [SELECT ... FROM dirents d JOIN inodes i ... JOIN (VALUES ...)]: the key,
    the inode and its kind. *)
Definition existing_row (t : tx) (k : Z * string) : option ((Z * string) * (Z * InodeKind)) :=
  de ← sel_dirent t k; r ← sel_inode t (d_inodeId de); Some (k, (d_inodeId de, i_kind r)).

Definition existing_rows (ks : list (Z * string)) (t : tx) : list ((Z * string) * (Z * InodeKind)) :=
  omap (existing_row t) ks.

(** [INSERT INTO inodes ... RETURNING id] *)
Fixpoint insert_inodes (rows : list InodeRow) : txM (list Z) :=
  match rows with
  | [] => retM []
  | r :: rows' => let* id := insert_inode r in let* ids := insert_inodes rows' in retM (id :: ids)
  end.

(** [INSERT INTO dirents] *)
Definition insert_dirents (sandboxId : string) (rows : list ((Z * string) * Z)) : txM unit :=
  forM rows (λ row, insert_dirent_row row.1.1 row.1.2 (mkDirent row.2 sandboxId)).

(** [UPDATE dirents SET inode_id FROM (VALUES ...)] *)
Definition update_dirents (rows : list ((Z * string) * Z)) : txM unit :=
  modifyS (λ t, fold_left (λ t row,
    match sel_dirent t row.1 with
    | Some de => on_db (set_dirents (<[row.1 := mkDirent row.2 (d_sandboxId de)]>)) t
    | None => t
    end) rows t).

(** [UPDATE inodes SET nlink = nlink - cnt FROM (VALUES ...)] *)
Definition decrement_inodes (counts : list (Z * Z)) : txM unit :=
  modifyS (λ t, fold_left (λ t c,
    match sel_inode t c.1 with
    | Some r => on_db (set_inodes (<[c.1 := set_nlink (i_nlink r - c.2) r]>)) t
    | None => t
    end) counts t).

(** [DELETE FROM inodes WHERE id IN (...) AND nlink <= 0] *)
Definition delete_unlinked (ids : list Z) : txM unit :=
  modifyS (λ t, fold_left (λ t id,
    match sel_inode t id with
    | Some r => if decide (i_nlink r ≤ 0) then on_db (delete_cascade id) t else t
    | None => t
    end) ids t).

(** ** Ancestor directories *)

Record DirCandidate := mkCandidate { dc_path : string; dc_name : string; dc_parent : Z }.

Definition dc_key (c : DirCandidate) : Z * string := (dc_parent c, dc_name c).

Fixpoint dir_candidates (dirMap : list (string * Z)) (dirs : list string) : res fs_error (list DirCandidate) :=
  match dirs with
  | [] => Ok []
  | dirPath :: dirs' =>
      if jhas dirPath dirMap then dir_candidates dirMap dirs'
      else
        let parts := path_parts dirPath in
        match jget (parts_parent parts) dirMap with
        | None => Err (PlainError "bulkIngest: parent dir not found")
        | Some parentInodeId =>
            match dir_candidates dirMap dirs' with
            | Ok cs => Ok (mkCandidate dirPath (parts_name parts) parentInodeId :: cs)
            | Err e => Err e
            end
        end
  end.

(** The loop over [existingRows]. *)
Fixpoint match_dirs (byKey : list ((Z * string) * DirCandidate)) (rows : list ((Z * string) * (Z * InodeKind)))
    (dirMap : list (string * Z)) : res fs_error (list (string * Z)) :=
  match rows with
  | [] => Ok dirMap
  | (key, (id, k)) :: rows' =>
      let found := jget key byKey in
      if decide (k = DIRECTORY) then
        match_dirs byKey rows' (match found with Some c => jset (dc_path c) id dirMap | None => dirMap end)
      else Err (ENOTDIR (match found with Some c => dc_path c | None => key.2 end))
  end.

Definition dir_entry_at (id now : Z) : PathCacheEntry := mkEntry id DIRECTORY 493 0 now None None.

(** The body of the loop over the depths. *)
Definition ingest_depth (sandboxId : string) (dirs : list string)
    (st : list (string * Z) * list (string * PathCacheEntry)) : txM (list (string * Z) * list (string * PathCacheEntry)) :=
  let* candidates := lift_res (dir_candidates st.1 dirs) in
  if decide (length candidates = 0%nat) then retM st
  else
    let* rows := gets (existing_rows (dc_key <$> candidates)) in
    let byKey := fold_left (λ m c, jset (dc_key c) c m) candidates [] in
    let* dirMap := lift_res (match_dirs byKey rows st.1) in
    let toCreate := List.filter (λ c, negb (jhas (dc_path c) dirMap)) candidates in
    if decide (length toCreate = 0%nat) then retM (dirMap, st.2)
    else
      let* now := gets (λ t, clock (t_db t)) in
      let* ids := insert_inodes ((λ _, new_inode sandboxId DIRECTORY 493 0 now None None) <$> toCreate) in
      insert_dirents sandboxId (zip (dc_key <$> toCreate) ids) ;;;
      retM (fold_left (λ m ci, jset (dc_path ci.1) ci.2 m) (zip toCreate ids) dirMap,
            fold_left (λ m ci, jset (dc_path ci.1) (dir_entry_at ci.2 now) m) (zip toCreate ids) st.2).

Fixpoint ingest_dirs (sandboxId : string) (byDepth : list (nat * list string)) (depths : list nat)
    (st : list (string * Z) * list (string * PathCacheEntry)) : txM (list (string * Z) * list (string * PathCacheEntry)) :=
  match depths with
  | [] => retM st
  | depth :: depths' =>
      let* st' := ingest_depth sandboxId (default [] (jget depth byDepth)) st in
      ingest_dirs sandboxId byDepth depths' st'
  end.

(** ** Files *)

Record HashedFile := mkHashed {
  hf_path : string;
  hf_content : string;
  hf_mode : Z;
  hf_sha256 : string;
  hf_name : string;
  hf_parent : Z
}.

Definition hf_key (f : HashedFile) : Z * string := (hf_parent f, hf_name f).

Section ingest.
Context `{Config}.

(** [filesWithHash]: a parent that is [undefined] reaches the database as the
    text "undefined", which is no bigint. *)
Fixpoint hash_files (dirMap : list (string * Z)) (files : list BulkIngestFile) : res fs_error (list HashedFile) :=
  match files with
  | [] => Ok []
  | f :: files' =>
      let parts := path_parts (bf_path f) in
      match jget (parts_parent parts) dirMap, hash_files dirMap files' with
      | Some pid, Ok fs =>
          Ok (mkHashed (bf_path f) (bf_content f) (bf_mode f) (sha256 (bf_content f)) (parts_name parts) pid :: fs)
      | None, _ => Err (SqlState "22P02")
      | _, Err e => Err e
      end
  end.

(** The loop over [existingFileDirents]. *)
Fixpoint existing_files (files : list HashedFile) (rows : list ((Z * string) * (Z * InodeKind)))
    (m : list ((Z * string) * Z)) : res fs_error (list ((Z * string) * Z)) :=
  match rows with
  | [] => Ok m
  | (key, (id, k)) :: rows' =>
      if decide (k = DIRECTORY) then
        Err (EISDIR (match List.find (λ f, bool_decide (hf_key f = key)) files with
                     | Some f => hf_path f
                     | None => key.2
                     end))
      else existing_files files rows' (jset key id m)
  end.

(** One row per hash, the first content given. *)
Definition uniqueBlobs (files : list HashedFile) : list (string * string) :=
  fold_left (λ m f, if jhas (hf_sha256 f) m then m else jset (hf_sha256 f) (hf_content f) m) files [].

Definition file_row (now : Z) (f : HashedFile) : InodeRow :=
  new_inode sandboxId FILE (hf_mode f) (str_len (hf_content f)) now (Some (hf_sha256 f)) None.

Definition file_entry_at (now : Z) (f : HashedFile) (id : Z) : PathCacheEntry :=
  mkEntry id FILE (hf_mode f) (str_len (hf_content f)) now (Some (hf_sha256 f)) None.

(** [toUpdate], [oldInodeIds] and [toInsert]. *)
Definition to_update (old : list ((Z * string) * Z)) (files : list (HashedFile * Z)) : list ((Z * string) * Z) :=
  omap (λ fi, if jhas (hf_key fi.1) old then Some (hf_key fi.1, fi.2) else None) files.
Definition old_ids (old : list ((Z * string) * Z)) (files : list (HashedFile * Z)) : list Z :=
  omap (λ fi, jget (hf_key fi.1) old) files.
Definition to_insert (old : list ((Z * string) * Z)) (files : list (HashedFile * Z)) : list ((Z * string) * Z) :=
  omap (λ fi, if jhas (hf_key fi.1) old then None else Some (hf_key fi.1, fi.2)) files.

Definition nlinkDecrements (ids : list Z) : list (Z * Z) :=
  fold_left (λ m id, jset id (default 0 (jget id m) + 1) m) ids [].

(** The statements from the inode rows on. *)
Definition ingest_files (old : list ((Z * string) * Z)) (files : list HashedFile) : txM (list (string * PathCacheEntry)) :=
  let* now := gets (λ t, clock (t_db t)) in
  let* ids := insert_inodes (file_row now <$> files) in
  let rows := zip files ids in
  let decrements := nlinkDecrements (old_ids old rows) in
  (if decide (length (to_update old rows) = 0%nat) then retM tt
   else update_dirents (to_update old rows) ;;; decrement_inodes decrements ;;; delete_unlinked decrements.*1) ;;;
  (if decide (length (to_insert old rows) = 0%nat) then retM tt
   else insert_dirents sandboxId (to_insert old rows)) ;;;
  retM ((λ fi, (hf_path fi.1, file_entry_at now fi.1 fi.2)) <$> rows).

(** The context query: the sandbox's root and the fence in one statement. *)
Definition ingest_context (expected : option Z) : txM Z :=
  let* row := gets (λ t, sel_sandbox t sandboxId) in
  let* fenced := fenceAndAdvance sandboxId expected in
  match row with
  | Some s =>
      throw_if (negb fenced) (ESTALE sandboxId) ;;;
      match s_root s with
      | Some root => retM root
      | None => throw (PlainError "bulkIngest: sandbox not found or has no root inode")
      end
  | None => throw (PlainError "bulkIngest: sandbox not found or has no root inode")
  end.

(** [blobs.commitBatch(rows)], seen by the running transaction too. *)
Definition commit_blobs (rows : list (string * string)) : stM unit :=
  modifyS (λ st : Sys * tx, (set_db (commitBatch rows (s_db st.1)) st.1, on_db (commitBatch rows) st.2)).

(** The tree half of the statements before the blobs. *)
Definition ingest_plan (files : list BulkIngestFile) (expected : option Z)
    : txM (list (string * PathCacheEntry) * list HashedFile * list ((Z * string) * Z)) :=
  lift_res (check_ingest_paths files) ;;;
  let* root := ingest_context expected in
  let byDepth := dirsByDepth files in
  let* st := ingest_dirs sandboxId byDepth (sortedDepths byDepth) ([("/", root)], []) in
  let* hashed := lift_res (hash_files st.1 files) in
  let* rows := gets (existing_rows (hf_key <$> hashed)) in
  let* old := lift_res (existing_files hashed rows []) in
  retM (st.2, hashed, old).

(** [dialect.bulkIngest] *)
Definition bulkIngest (files : list BulkIngestFile) (expected : option Z) : stM (list (string * PathCacheEntry)) :=
  if decide (length files = 0%nat) then retM []
  else
    let* plan := onTx (ingest_plan files expected) in
    let '(result, hashed, old) := plan in
    (if decide (length (uniqueBlobs hashed) = 0%nat) then retM tt else commit_blobs (uniqueBlobs hashed)) ;;;
    let* entries := onTx (ingest_files old hashed) in
    retM (fold_left (λ m pe, jset pe.1 pe.2 m) entries result).

(** ** The namespace operation *)

Context `{Lru}.

Definition ingest_contents (v : View) (bytesByPath : list (string * string)) (pe : string * PathCacheEntry) : list ContentChange :=
  match view_get pe.1 v with
  | Some old => if decide (inodeId old = inodeId pe.2) then [] else [CoEvict (inodeId old)]
  | None => []
  end ++
  match jget pe.1 bytesByPath with
  | Some bytes => if decide (0 < str_len bytes) then [CoPut (inodeId pe.2) bytes] else []
  | None => []
  end.

Definition bulkIngestAt (normalized : list BulkIngestFile) : sysM unit :=
  assertWritable "/" "bulkIngest" ;;;
  let* b := gets buffering in
  throw_if b (ENOTSUP "bulkIngest: not supported inside a buffered script scope") ;;;
  let bytesByPath := fold_left (λ m f, jset (bf_path f) (bf_content f) m) normalized [] in
  let* receipt := write (λ rc, bulkIngest normalized (Some (expectedEpoch rc))) in
  let* v := gets s_view in
  publish receipt.1 ((λ pe, ChSet pe.1 pe.2) <$> receipt.2)
    (mjoin (ingest_contents v bytesByPath <$> receipt.2)) true.

Definition ns_bulkIngest (files : list BulkIngestFile) : sysM unit := withNamespaceMutation (bulkIngestAt files).

(** [seen] grows with every file; a path given twice is refused. *)
Fixpoint normalize_ingest (seen : list string) (files : list BulkIngestFile) : res fs_error (list BulkIngestFile) :=
  match files with
  | [] => Ok []
  | f :: files' =>
      match validatePath (bf_path f) with
      | Err e => Err e
      | Ok path =>
          match assertStoredPath path "bulkIngest" with
          | Err e => Err e
          | Ok _ =>
              if decide (path ∈ seen) then Err (EEXIST path)
              else match normalize_ingest (path :: seen) files' with
                   | Ok fs => Ok (mkIngestFile path (bf_content f) (bf_mode f) :: fs)
                   | Err e => Err e
                   end
          end
      end
  end.

Definition fs_bulkIngest (files : list BulkIngestFile) : sysM unit :=
  if decide (length files = 0%nat) then retM tt
  else
    let* normalized := lift_res (normalize_ingest [] files) in
    ns_bulkIngest normalized.
End ingest.
