(* ===== verification/IngestRows.v ===== *)
(** The row statements of a bulk ingest against a reference: one write per
    entry.

    [put_nodes] overwrites or creates the entries one after the other, each as
    [writeFile] would. The batch inserts all inodes first, redirects the entries
    that exist, unlinks the displaced inodes by their number of occurrences and
    inserts the other entries; both end in the same database. The proof gives
    the tables of both row by row. *)

From S2P Require Import Prelude Errors Paths Store Tree Dialect View Session Namespace Ingest.

(** A slot to fill and the row to fill it with. *)
Abbreviation node := ((Z * string) * InodeRow)%type.

(** The reference. *)
Definition put_node (d : db) (x : node) : db := replace_node x.1.1 x.1.2 x.2 d.
Definition put_nodes (l : list node) (d : db) : db := fold_left put_node l d.

(** The ids a run of inserts gets. *)
Definition serials (n : Z) (len : nat) : list Z := seqZ n (Z.of_nat len).

Lemma serials_S n len : serials n (S len) = n :: serials (n + 1) len.
Proof. unfold serials. rewrite seqZ_cons by lia. do 2 f_equal; lia. Qed.

Lemma serials_length n len : length (serials n len) = len.
Proof. unfold serials. rewrite length_seqZ. lia. Qed.

Lemma elem_serials n len x : x ∈ serials n len ↔ n ≤ x < n + Z.of_nat len.
Proof. unfold serials. apply elem_of_seqZ. Qed.

(** ** [List.filter] *)

Lemma elem_lfilter {A} (f : A → bool) l x : x ∈ List.filter f l ↔ x ∈ l ∧ f x = true.
Proof. by rewrite !list_elem_of_In, filter_In. Qed.

Lemma NoDup_lfilter {A B} (g : A → B) (f : A → bool) l : NoDup (g <$> l) → NoDup (g <$> List.filter f l).
Proof.
  intros Hnd. induction l as [|x l IH]; [constructor|]. rewrite fmap_cons in Hnd. apply NoDup_cons in Hnd as [Hn Hnd]. simpl.
  destruct (f x); [|by apply IH]. rewrite fmap_cons. constructor; [|by apply IH]. intros (y & Hy & Hin)%list_elem_of_fmap. apply Hn.
  apply list_elem_of_fmap. exists y. split; [done|]. by apply elem_lfilter in Hin as [? _].
Qed.

(** ** Lists of pairs as maps *)

Section pairs.
Context {K V : Type} `{EqDecision K}.

Lemma jget_zip_None (ks : list K) (vs : list V) k : k ∉ ks → jget k (zip ks vs) = None.
Proof.
  intros Hk. apply jget_None. intros Hin. apply Hk. revert vs Hin. clear Hk.
  induction ks as [|k' ks IH]; intros [|v vs]; simpl; try (by intros ?%elem_of_nil).
  rewrite elem_of_cons. intros [->|Hin]; [apply list_elem_of_here | by eapply list_elem_of_further, IH].
Qed.

Lemma jget_zip_elem (ks : list K) (vs : list V) k v : jget k (zip ks vs) = Some v → k ∈ ks ∧ v ∈ vs.
Proof.
  intros Hin%jget_elem. revert vs Hin. induction ks as [|k' ks IH]; intros [|v' vs]; simpl; try (by intros ?%elem_of_nil).
  rewrite !elem_of_cons. intros [[= -> ->]|Hin]; [by auto|]. destruct (IH _ Hin). auto.
Qed.

Lemma jget_zip_Some (ks : list K) (vs : list V) k : (length ks ≤ length vs)%nat → k ∈ ks → is_Some (jget k (zip ks vs)).
Proof.
  revert vs. induction ks as [|k' ks IH]; intros [|v vs]; simpl; intros Hl; try (by intros ?%elem_of_nil); try lia.
  rewrite elem_of_cons. case_decide; [done|]. intros [?|Hin]; [done|]. apply IH; [lia|done].
Qed.
End pairs.

(** ** How often an inode is displaced *)

Definition displaced (D : dirmap) (ks : list (Z * string)) : list Z := omap (λ k, d_inodeId <$> D !! k) ks.
#[global] Arguments displaced : simpl never.

Lemma displaced_cons D k ks :
  displaced D (k :: ks) = match D !! k with Some de => d_inodeId de :: displaced D ks | None => displaced D ks end.
Proof. unfold displaced. simpl. by destruct (D !! k). Qed.

Definition occurrences (x : Z) (l : list Z) : Z := Z.of_nat (length (List.filter (λ y, bool_decide (y = x)) l)).

Lemma occurrences_cons x y l : occurrences x (y :: l) = (if decide (y = x) then 1 else 0) + occurrences x l.
Proof. unfold occurrences. simpl. case_decide; case_bool_decide; try done. simpl. lia. Qed.

Lemma occurrences_nonneg x l : 0 ≤ occurrences x l.
Proof. unfold occurrences. lia. Qed.

Lemma occurrences_zero x l : x ∉ l ↔ occurrences x l = 0.
Proof.
  induction l as [|y l IH]; [by split; [|intros _; apply not_elem_of_nil]|]. rewrite occurrences_cons, not_elem_of_cons, IH.
  pose proof (occurrences_nonneg x l). case_decide; split; intros; lia.
Qed.

(** The row of an inode that lost [c] links. *)
Definition unlinked (c : Z) (r : InodeRow) : option InodeRow :=
  if decide (c = 0) then Some r
  else if decide (i_nlink r - c ≤ 0) then None else Some (set_nlink (i_nlink r - c) r).

Lemma unlinked_step c r : 0 ≤ c →
  (if decide (i_nlink r ≤ 1) then None else Some (set_nlink (i_nlink r - 1) r)) ≫= unlinked c = unlinked (1 + c) r.
Proof.
  intros Hc. unfold unlinked. rewrite (decide_False (P := 1 + c = 0)) by lia.
  destruct (decide (i_nlink r ≤ 1)); simpl; [by rewrite decide_True by lia|].
  destruct (decide (c = 0)) as [->|]; [by rewrite decide_False by lia|].
  repeat case_decide; try done; try lia. simpl. unfold set_nlink. simpl. do 2 f_equal. lia.
Qed.

(** ** The tables after [put_nodes] *)

Lemma dirents_replace p n r d k :
  dirents (replace_node p n r d) !! k = if decide (k = (p, n)) then Some (mkDirent (next_id d) (i_sandboxId r)) else dirents d !! k.
Proof.
  unfold replace_node, remove_entry. destruct (dirents d !! (p, n)) as [de|] eqn:E; simpl; rewrite lookup_insert.
  - rewrite dirents_drop_row, next_id_drop_row. simpl. repeat case_decide; try congruence. by rewrite lookup_delete_ne by congruence.
  - repeat case_decide; congruence.
Qed.

Lemma inodes_replace p n r d x :
  inodes (replace_node p n r d) !! x =
  if decide (x = next_id d) then Some r
  else inodes d !! x ≫= unlinked (occurrences x (displaced (dirents d) [(p, n)])).
Proof.
  unfold replace_node, remove_entry, displaced. destruct (dirents d !! (p, n)) as [de|] eqn:E; simpl; rewrite E; simpl; rewrite lookup_insert.
  - rewrite next_id_drop_row. simpl. repeat case_decide; try congruence. rewrite inodes_drop_row. simpl.
    rewrite occurrences_cons. unfold occurrences. simpl. rewrite Z.add_0_r. unfold unlinked.
    destruct (inodes d !! d_inodeId de) as [ro|] eqn:Er; repeat case_decide; subst; simpl; try congruence; rewrite ?Er; simpl;
      try done; try (by destruct (inodes d !! x)); repeat case_decide; try done; lia.
  - unfold occurrences. simpl. repeat case_decide; try congruence. by destruct (inodes d !! x).
Qed.

Lemma replace_rest p n r d :
  sandboxes (replace_node p n r d) = sandboxes d ∧ blobs (replace_node p n r d) = blobs d ∧
  sandbox_epochs (replace_node p n r d) = sandbox_epochs d ∧ clock (replace_node p n r d) = clock d ∧
  next_id (replace_node p n r d) = next_id d + 1.
Proof.
  unfold replace_node, remove_entry, drop_row. destruct (dirents d !! (p, n)) as [de|]; [|done]. simpl.
  destruct (inodes d !! d_inodeId de); [|done]. by case_decide.
Qed.

Lemma put_nodes_rest l d :
  sandboxes (put_nodes l d) = sandboxes d ∧ blobs (put_nodes l d) = blobs d ∧
  sandbox_epochs (put_nodes l d) = sandbox_epochs d ∧ clock (put_nodes l d) = clock d ∧
  next_id (put_nodes l d) = next_id d + Z.of_nat (length l).
Proof.
  revert d. induction l as [|[[p n] r] l IH]; intros d; [split_and!; try done; simpl; lia|].
  destruct (IH (put_node d ((p, n), r))) as (H1 & H2 & H3 & H4 & H5), (replace_rest p n r d) as (R1 & R2 & R3 & R4 & R5).
  unfold put_nodes in *. simpl. unfold put_node in *. simpl in *. rewrite H1, H2, H3, H4, H5, R5. split_and!; try done. lia.
Qed.

(** No entry points at an id not yet given. *)
Definition ids_given (d : db) : Prop := ∀ k de, dirents d !! k = Some de → d_inodeId de < next_id d.

Lemma wf_ids_given d : wf_db d → ids_given d.
Proof. intros Hwf k de Hk. destruct (wf_child d Hwf _ _ Hk) as (r & Hr & _). apply (wf_fresh d Hwf). by exists r. Qed.

Lemma ids_given_replace p n r d : ids_given d → ids_given (replace_node p n r d).
Proof.
  intros Hg k de. destruct (replace_rest p n r d) as (_ & _ & _ & _ & ->). rewrite dirents_replace.
  case_decide; [intros [= <-]; simpl; lia|]. intros Hk%Hg. lia.
Qed.

Lemma displaced_ext (D D' : dirmap) ks : (∀ k, k ∈ ks → D' !! k = D !! k) → displaced D' ks = displaced D ks.
Proof.
  intros He. unfold displaced. induction ks as [|k ks IH]; [done|]. cbn. rewrite (He k) by apply list_elem_of_here.
  specialize (IH (λ k' Hk', He k' (list_elem_of_further _ _ _ Hk'))). cbn in IH. by rewrite IH.
Qed.

Lemma displaced_replace p n r d ks : (p, n) ∉ ks → displaced (dirents (replace_node p n r d)) ks = displaced (dirents d) ks.
Proof.
  intros Hn. apply displaced_ext. intros k Hk. rewrite dirents_replace, decide_False; [done|]. intros ->. done.
Qed.

Section tables.
Context (sb : string).

Lemma put_nodes_dirents l d k :
  NoDup l.*1 → Forall (λ x : node, i_sandboxId x.2 = sb) l →
  dirents (put_nodes l d) !! k =
  match jget k (zip l.*1 (serials (next_id d) (length l))) with
  | Some id => Some (mkDirent id sb)
  | None => dirents d !! k
  end.
Proof.
  revert d. induction l as [|[[p n] r] l IH]; intros d Hnd Hall; [done|]. apply NoDup_cons in Hnd as [Hn Hnd'].
  apply Forall_cons in Hall as [Hr Hall']. simpl in Hr. cbn [length fmap list_fmap fst]. rewrite serials_S. cbn [zip zip_with jget].
  change (put_nodes _ d) with (put_nodes l (replace_node p n r d)). rewrite IH by done.
  destruct (replace_rest p n r d) as (_ & _ & _ & _ & ->). rewrite dirents_replace, Hr. simpl.
  destruct (decide (k = (p, n))) as [->|]; [|done]. by rewrite jget_zip_None.
Qed.

Lemma put_nodes_inodes l d x :
  NoDup l.*1 → ids_given d →
  inodes (put_nodes l d) !! x =
  match jget x (zip (serials (next_id d) (length l)) l.*2) with
  | Some r => Some r
  | None => inodes d !! x ≫= unlinked (occurrences x (displaced (dirents d) l.*1))
  end.
Proof.
  revert d. induction l as [|[[p n] r] l IH]; intros d Hnd Hg; [simpl; by destruct (inodes d !! x)|].
  apply NoDup_cons in Hnd as [Hn Hnd'].
  cbn [length fmap list_fmap fst snd]. rewrite serials_S. cbn [zip zip_with jget].
  change (put_nodes _ d) with (put_nodes l (replace_node p n r d)). rewrite IH by (try done; by apply ids_given_replace).
  destruct (replace_rest p n r d) as (_ & _ & _ & _ & ->). rewrite displaced_replace, inodes_replace by done.
  assert (Hocc : occurrences x (displaced (dirents d) ((p, n) :: l.*1)) =
    occurrences x (displaced (dirents d) [(p, n)]) + occurrences x (displaced (dirents d) l.*1)).
  { rewrite !displaced_cons. destruct (dirents d !! (p, n)) as [de|]; [|done]. rewrite !occurrences_cons.
    change (occurrences x (displaced (dirents d) [])) with 0. lia. }
  destruct (decide (x = next_id d)) as [->|Hx].
  - rewrite jget_zip_None by (rewrite elem_serials; lia). simpl. unfold unlinked. rewrite decide_True; [done|].
    apply occurrences_zero. unfold displaced. rewrite list_elem_of_omap. intros (k & _ & Hk).
    destruct (dirents d !! k) as [de|] eqn:E; [|done]. injection Hk as Hk. pose proof (Hg k de E). lia.
  - destruct (jget x (zip _ l.*2)); [done|]. rewrite Hocc. clear Hocc. pose proof (occurrences_nonneg x (displaced (dirents d) l.*1)).
    destruct (inodes d !! x) as [ro|]; [|done]. cbn [mbind option_bind]. rewrite !displaced_cons.
    destruct (dirents d !! (p, n)) as [de|]; [|done]. rewrite !occurrences_cons. change (occurrences x (displaced (dirents d) [])) with 0.
    destruct (decide (d_inodeId de = x)); [|done]. change (1 + 0) with 1. rewrite <- unlinked_step by done.
    f_equal. unfold unlinked. rewrite (decide_False (P := 1 = 0)) by lia. repeat case_decide; done || lia.
Qed.
End tables.

(** ** Slots that may be filled *)

(** A directory of the sandbox, a name, and no directory under it. *)
Definition fillable (d : db) (sb : string) (k : Z * string) : Prop :=
  is_dir d sb k.1 ∧ valid_name k.2 ∧
  ∀ de r, dirents d !! k = Some de → inodes d !! d_inodeId de = Some r → i_kind r ≠ DIRECTORY.

Section fill.
Context (d : db) (sb : string) (p : Z) (n : string) (r : InodeRow).
Context (Hwf : wf_db d) (Hfill : fillable d sb (p, n)).

Lemma fill_keeps_dir x rx : inodes d !! x = Some rx → i_kind rx = DIRECTORY → inodes (replace_node p n r d) !! x = Some rx.
Proof.
  intros Hx Hk. rewrite inodes_replace. case_decide as Hn; [rewrite Hn, wf_fresh_inode in Hx by (done || lia); done|].
  rewrite Hx. simpl. unfold unlinked. rewrite decide_True; [done|]. apply occurrences_zero. rewrite displaced_cons.
  destruct (dirents d !! (p, n)) as [de|] eqn:E; [|apply not_elem_of_nil]. intros [->|Hin]%elem_of_cons; [|by apply elem_of_nil in Hin].
  by apply (proj2 (proj2 Hfill) de rx).
Qed.

Lemma fill_is_dir sb' q : is_dir d sb' q → is_dir (replace_node p n r d) sb' q.
Proof. intros (rq & Hq & Hk & Hs). exists rq. split; [by apply fill_keeps_dir | done]. Qed.

Lemma fill_back x r' : inodes (replace_node p n r d) !! x = Some r' →
  x = next_id d ∨ ∃ r0, inodes d !! x = Some r0 ∧ i_kind r' = i_kind r0.
Proof.
  rewrite inodes_replace. case_decide; [by left|]. destruct (inodes d !! x) as [r0|]; [|done]. simpl. unfold unlinked.
  repeat case_decide; intros; simplify_eq; right; by eexists.
Qed.

Lemma fillable_replace k : fillable d sb k → k ≠ (p, n) → fillable (replace_node p n r d) sb k.
Proof.
  intros (Hd & Hn & Hk) Hne. split_and!; [by apply fill_is_dir | done|]. intros de r'.
  rewrite dirents_replace, decide_False by done. intros Hde Hr'. destruct (fill_back _ _ Hr') as [Hx|(r0 & Hr0 & ->)].
  - pose proof (wf_ids_given d Hwf k de Hde). lia.
  - by apply (Hk de r0).
Qed.

(** The slot before the write: nothing, or an entry without children. *)
Lemma fill_replaceable : replaceable d sb p n.
Proof.
  intros de Hde. destruct (wf_parent d Hwf _ _ _ Hde) as (pr & Hp & _ & Hs). destruct Hfill as ((pr' & Hp' & _ & Hs') & _ & Hk).
  split; [simpl in Hp'; congruence|]. destruct (wf_child d Hwf _ _ Hde) as (rc & Hrc & _). intros m. eapply (wf_leaf d Hwf); [done|]. by eapply Hk.
Qed.

Lemma wf_replace : i_sandboxId r = sb → i_nlink r = 1 → wf_db (replace_node p n r d).
Proof.
  intros Hs Hl. destruct Hfill as ((pr & Hp & Hpk & Hps) & Hn & Hk). simpl in *. unfold replace_node.
  destruct (dirents d !! (p, n)) as [de|] eqn:E.
  - destruct (fill_replaceable de E) as [_ Hcl]. destruct (wf_child d Hwf _ _ E) as (rc & Hrc & _).
    eapply (wf_add_node _ p n r pr); try done; [by eapply wf_remove_entry| |congruence|].
    + rewrite (inodes_remove_entry_ne d p n de E); [done|]. intros ->. apply (Hk de pr); done.
    + rewrite (dirents_remove_entry d p n de E). apply lookup_delete_eq.
  - unfold remove_entry. rewrite E. eapply (wf_add_node _ p n r pr); try done. congruence.
Qed.
End fill.

Definition nodes_ok (sb : string) (l : list node) : Prop :=
  NoDup l.*1 ∧ Forall (λ x : node, i_sandboxId x.2 = sb ∧ i_nlink x.2 = 1) l.

Lemma nodes_ok_cons sb k r l :
  nodes_ok sb ((k, r) :: l) → k ∉ l.*1 ∧ i_sandboxId r = sb ∧ i_nlink r = 1 ∧ nodes_ok sb l.
Proof. intros [Hnd Hall]. apply NoDup_cons in Hnd as [? ?]. apply Forall_cons in Hall as [[? ?] ?]. by split_and!. Qed.

(** The slots of the rest stay fillable. *)
Lemma fill_rest d sb k r l :
  wf_db d → Forall (fillable d sb) (k :: l.*1) → k ∉ l.*1 → Forall (fillable (replace_node k.1 k.2 r d) sb) (l : list node).*1.
Proof.
  intros Hwf Hf Hn. apply Forall_cons in Hf as [Hk Hf]. apply Forall_forall. intros k' Hin. destruct k as [p n].
  apply fillable_replace; [done|done| |by intros ->]. by eapply (proj1 (Forall_forall _ _) Hf).
Qed.

Lemma wf_put_nodes sb l d : wf_db d → nodes_ok sb l → Forall (fillable d sb) l.*1 → wf_db (put_nodes l d).
Proof.
  revert d. induction l as [|[[p n] r] l IH]; intros d Hwf Hok Hf; [done|]. destruct (nodes_ok_cons _ _ _ _ Hok) as (Hn & Hs & Hl & Hok').
  simpl. apply IH; [|done|by apply (fill_rest d sb (p, n))]. apply Forall_cons in Hf as [Hf _]. by eapply wf_replace.
Qed.

(** ** The statements of the batch, table by table *)

Definition with_dirents (D : dirmap) (t : tx) : tx := on_db (set_dirents (λ _, D)) t.
Definition with_inodes (I : gmap Z InodeRow) (t : tx) : tx := on_db (set_inodes (λ _, I)) t.

Definition insert_row (d : db) (r : InodeRow) : db :=
  mkDb (sandboxes d) (<[next_id d := r]> (inodes d)) (dirents d) (blobs d) (sandbox_epochs d) (next_id d + 1) (clock d).
Definition insert_rows (rows : list InodeRow) (d : db) : db := fold_left insert_row rows d.

Lemma insert_inodes_run rows t :
  insert_inodes rows t = (Ok (serials (next_id (t_db t)) (length rows)), on_db (insert_rows rows) t).
Proof.
  revert t. induction rows as [|r rows IH]; intros t; [by destruct t|]. cbn [insert_inodes length]. rewrite serials_S.
  unfold bindM at 1, insert_inode. unfold bindM. rewrite IH. done.
Qed.

Lemma insert_rows_spec rows d :
  dirents (insert_rows rows d) = dirents d ∧ sandboxes (insert_rows rows d) = sandboxes d ∧
  blobs (insert_rows rows d) = blobs d ∧ sandbox_epochs (insert_rows rows d) = sandbox_epochs d ∧
  clock (insert_rows rows d) = clock d ∧ next_id (insert_rows rows d) = next_id d + Z.of_nat (length rows) ∧
  ∀ x, inodes (insert_rows rows d) !! x =
    match jget x (zip (serials (next_id d) (length rows)) rows) with Some r => Some r | None => inodes d !! x end.
Proof.
  revert d. induction rows as [|r rows IH]; intros d; [split_and!; try done; simpl; lia|].
  destruct (IH (insert_row d r)) as (H1 & H2 & H3 & H4 & H5 & H6 & H7). unfold insert_rows in *. cbn [fold_left length].
  rewrite H1, H2, H3, H4, H5, H6. split_and!; try done; [simpl; lia|]. intros x. rewrite H7, serials_S. simpl.
  rewrite lookup_insert. destruct (decide (next_id d = x)) as [<-|]; [|by rewrite decide_False by congruence].
  rewrite decide_True by done. by rewrite jget_zip_None by (rewrite elem_serials; lia).
Qed.

Section statements.
Context (sb : string).

Lemma update_dirents_run rows t :
  t_sandbox t = Some sb → NoDup rows.*1 →
  (∀ k, k ∈ rows.*1 → ∃ de, dirents (t_db t) !! k = Some de ∧ d_sandboxId de = sb) →
  ∃ D, update_dirents rows t = (Ok tt, with_dirents D t) ∧
    ∀ k, D !! k = match jget k rows with Some id => Some (mkDirent id sb) | None => dirents (t_db t) !! k end.
Proof.
  unfold update_dirents, modifyS. revert t. induction rows as [|[k id] rows IH]; intros t Ht Hnd Hk.
  - exists (dirents (t_db t)). split; [by destruct t as [[]]|done].
  - apply NoDup_cons in Hnd as [Hn Hnd]. destruct (Hk k (list_elem_of_here _ _)) as (de & Hde & Hs). simpl.
    assert (Hsel : sel_dirent t k = Some de) by (unfold sel_dirent; by rewrite Hde, Hs, visible_self).
    rewrite Hsel, Hs. set (t1 := on_db _ t).
    destruct (IH t1) as (D & Hrun & HD); [done|done| |].
    + intros k' Hin. destruct (Hk k' (list_elem_of_further _ _ _ Hin)) as (de' & Hde' & ?). exists de'. split; [|done].
      unfold t1. simpl. rewrite lookup_insert_ne; [done|]. by intros ->.
    + exists D. split; [by rewrite Hrun|]. intros k'. rewrite HD. unfold t1. simpl. rewrite lookup_insert.
      destruct (decide (k = k')) as [<-|]; [|by rewrite decide_False by congruence].
      rewrite decide_True by done. by rewrite (proj2 (jget_None k rows) Hn).
Qed.

Lemma decrement_inodes_run counts t :
  t_sandbox t = Some sb → NoDup counts.*1 →
  (∀ x, x ∈ counts.*1 → ∃ r, inodes (t_db t) !! x = Some r ∧ i_sandboxId r = sb) →
  ∃ I, decrement_inodes counts t = (Ok tt, with_inodes I t) ∧
    ∀ x, I !! x = match jget x counts with
                  | Some c => (λ r, set_nlink (i_nlink r - c) r) <$> inodes (t_db t) !! x
                  | None => inodes (t_db t) !! x
                  end.
Proof.
  unfold decrement_inodes, modifyS. revert t. induction counts as [|[x c] counts IH]; intros t Ht Hnd Hk.
  - exists (inodes (t_db t)). split; [by destruct t as [[]]|done].
  - apply NoDup_cons in Hnd as [Hn Hnd]. destruct (Hk x (list_elem_of_here _ _)) as (r & Hr & Hs). simpl.
    assert (Hsel : sel_inode t x = Some r) by (unfold sel_inode; by rewrite Hr, Hs, visible_self).
    rewrite Hsel. set (t1 := on_db _ t).
    destruct (IH t1) as (I & Hrun & HI); [done|done| |].
    + intros y Hin. destruct (Hk y (list_elem_of_further _ _ _ Hin)) as (r' & Hr' & ?). exists r'. split; [|done].
      unfold t1. simpl. rewrite lookup_insert_ne; [done|]. by intros ->.
    + exists I. split; [by rewrite Hrun|]. intros y. rewrite HI. unfold t1. simpl. rewrite lookup_insert.
      destruct (decide (x = y)) as [<-|]; [|by rewrite decide_False by congruence].
      rewrite decide_True by done. rewrite (proj2 (jget_None x counts) Hn). by rewrite Hr.
Qed.

Lemma delete_unlinked_run ids t :
  t_sandbox t = Some sb →
  (∀ x r, x ∈ ids → inodes (t_db t) !! x = Some r → i_sandboxId r = sb ∧ (i_nlink r ≤ 0 → unreferenced (t_db t) x)) →
  ∃ I, delete_unlinked ids t = (Ok tt, with_inodes I t) ∧
    ∀ x, I !! x = r ← inodes (t_db t) !! x; if decide (x ∈ ids ∧ i_nlink r ≤ 0) then None else Some r.
Proof.
  unfold delete_unlinked, modifyS. revert t. induction ids as [|y ids IH]; intros t Ht Hk.
  - exists (inodes (t_db t)). split; [by destruct t as [[]]|]. intros x. destruct (inodes (t_db t) !! x); [|done]. cbn [mbind option_bind].
    rewrite decide_False; [done|]. intros [?%elem_of_nil ?]. done.
  - simpl. set (t1 := match sel_inode t y with Some r => _ | None => t end).
    assert (Ht1 : ∃ I, t1 = with_inodes I t ∧
      ∀ x, I !! x = r ← inodes (t_db t) !! x; if decide (x = y ∧ i_nlink r ≤ 0) then None else Some r).
    { unfold t1, sel_inode. destruct (inodes (t_db t) !! y) as [r|] eqn:E.
      - destruct (Hk y r (list_elem_of_here _ _) E) as [Hs Hu]. rewrite Hs, visible_self by done. case_decide as Hl.
        + exists (delete y (inodes (t_db t))). split; [unfold with_inodes, on_db; by rewrite delete_cascade_unreferenced by auto|].
          intros x. destruct (decide (y = x)) as [->|].
          * rewrite lookup_delete_eq, E. cbn [mbind option_bind]. by rewrite decide_True.
          * rewrite lookup_delete_ne by done. destruct (inodes (t_db t) !! x); [|done]. cbn [mbind option_bind]. rewrite decide_False; [done|]. by intros [-> _].
        + exists (inodes (t_db t)). split; [by destruct t as [[]]|]. intros x. destruct (inodes (t_db t) !! x) as [r'|] eqn:E'; [|done]. cbn [mbind option_bind].
          rewrite decide_False; [done|]. intros [-> ?]. assert (r' = r) as -> by congruence. done.
      - exists (inodes (t_db t)). split; [by destruct t as [[]]|]. intros x. destruct (inodes (t_db t) !! x) as [r'|] eqn:E'; [|done]. cbn [mbind option_bind].
        rewrite decide_False; [done|]. intros [-> ?]. congruence. }
    destruct Ht1 as (I1 & -> & HI1). destruct (IH (with_inodes I1 t)) as (I & Hrun & HI); [done| |].
    + intros x r Hin. simpl. rewrite HI1. destruct (inodes (t_db t) !! x) as [r0|] eqn:E; [|done]. cbn [mbind option_bind]. case_decide; [done|].
      intros [= ->]. by apply (Hk x r (list_elem_of_further _ _ _ Hin)).
    + exists I. split; [by rewrite Hrun|]. intros x. rewrite HI. simpl. rewrite HI1.
      destruct (inodes (t_db t) !! x) as [r0|]; [|done]. cbn [mbind option_bind]. destruct (decide (x = y ∧ i_nlink r0 ≤ 0)) as [[-> ?]|Hx]; cbn [mbind option_bind].
      * rewrite decide_True; [done|]. split; [apply list_elem_of_here|done].
      * destruct (decide (x ∈ ids ∧ _)) as [[? ?]|], (decide (x ∈ y :: ids ∧ _)) as [[Hin ?]|Hn]; try done.
        -- destruct Hn. split; [by apply list_elem_of_further|done].
        -- apply elem_of_cons in Hin as [?|?]; [by destruct Hx|]. by destruct n.
Qed.

Lemma insert_dirents_run rows t :
  NoDup rows.*1 →
  (∀ k id, (k, id) ∈ rows → dirents (t_db t) !! k = None ∧ is_Some (inodes (t_db t) !! k.1) ∧ is_Some (inodes (t_db t) !! id)) →
  ∃ D, insert_dirents sb rows t = (Ok tt, with_dirents D t) ∧
    ∀ k, D !! k = match jget k rows with Some id => Some (mkDirent id sb) | None => dirents (t_db t) !! k end.
Proof.
  unfold insert_dirents. revert t. induction rows as [|[k id] rows IH]; intros t Hnd Hk.
  - exists (dirents (t_db t)). split; [by destruct t as [[]]|done].
  - apply NoDup_cons in Hnd as [Hn Hnd]. destruct (Hk k id (list_elem_of_here _ _)) as (Hf & Hp & Hi). cbn [forM fst snd].
    set (t1 := on_db (set_dirents (<[k := mkDirent id sb]>)) t).
    assert (Hrow : insert_dirent_row k.1 k.2 (mkDirent id sb) t = (Ok tt, t1)).
    { destruct k as [p n]. unfold insert_dirent_row. simpl in *. rewrite decide_False by (rewrite Hf; by intros []). by rewrite decide_True. }
    rewrite (bindM_Ok _ _ _ _ _ Hrow). destruct (IH t1) as (D & Hrun & HD); [done| |].
    + intros k' id' Hin. destruct (Hk k' id' (list_elem_of_further _ _ _ Hin)) as (Hf' & ? & ?). split_and!; try done.
      unfold t1. simpl. rewrite lookup_insert_ne; [done|]. intros ->. apply Hn. apply list_elem_of_fmap. by exists (k', id').
    + exists D. split; [by rewrite Hrun|]. intros k'. rewrite HD. unfold t1. simpl. rewrite lookup_insert.
      destruct (decide (k = k')) as [<-|]; [|by rewrite decide_False by congruence].
      rewrite decide_True by done. by rewrite (proj2 (jget_None k rows) Hn).
Qed.
End statements.

(** ** The lists the batch is made of *)

Lemma nlinkDecrements_gen ids m x :
  jget x (fold_left (λ m id, jset id (default 0 (jget id m) + 1) m) ids m) =
  if decide (occurrences x ids = 0) then jget x m else Some (default 0 (jget x m) + occurrences x ids).
Proof.
  revert m. induction ids as [|y ids IH]; intros m; [done|]. simpl. rewrite IH, !jget_jset, occurrences_cons.
  pose proof (occurrences_nonneg x ids). destruct (decide (y = x)) as [->|]; [|by rewrite Z.add_0_l].
  rewrite (decide_False (P := 1 + _ = 0)) by lia. simpl. case_decide; f_equal; lia.
Qed.

Lemma nlinkDecrements_get ids x :
  jget x (nlinkDecrements ids) = if decide (occurrences x ids = 0) then None else Some (occurrences x ids).
Proof. unfold nlinkDecrements. rewrite nlinkDecrements_gen. simpl. by rewrite Z.add_0_l. Qed.

Lemma nlinkDecrements_wf ids : jwf (nlinkDecrements ids).
Proof.
  unfold nlinkDecrements. assert (Hm : jwf ([] : list (Z * Z))) by constructor. revert Hm. generalize ([] : list (Z * Z)).
  induction ids as [|y ids IH]; intros m Hm; [done|]. simpl. by apply IH, jset_wf.
Qed.

Lemma nlinkDecrements_key ids x : x ∈ (nlinkDecrements ids).*1 ↔ x ∈ ids.
Proof.
  destruct (jget x (nlinkDecrements ids)) as [c|] eqn:E.
  - split; [|intros _; by eapply jget_key]. intros _. rewrite nlinkDecrements_get in E. case_decide as Hc; [done|].
    destruct (decide (x ∈ ids)) as [|Hn]; [done|]. by apply occurrences_zero in Hn.
  - pose proof (proj1 (jget_None _ _) E). rewrite nlinkDecrements_get in E. case_decide as Hc; [|done].
    apply occurrences_zero in Hc. done.
Qed.

Section lists.
Context `{Config} (old : list ((Z * string) * Z)).

Lemma to_update_get files ids k :
  jget k (to_update old (zip files ids)) = if jhas k old then jget k (zip (hf_key <$> files) ids) else None.
Proof.
  revert ids. induction files as [|f files IH]; intros [|i ids]; try (simpl; by destruct (jhas k old)).
  unfold to_update in *. simpl. destruct (jhas (hf_key f) old) eqn:E; simpl; rewrite IH; case_decide; subst; rewrite ?E; done.
Qed.

Lemma to_insert_get files ids k :
  jget k (to_insert old (zip files ids)) = if jhas k old then None else jget k (zip (hf_key <$> files) ids).
Proof.
  revert ids. induction files as [|f files IH]; intros [|i ids]; try (simpl; by destruct (jhas k old)).
  unfold to_insert in *. simpl. destruct (jhas (hf_key f) old) eqn:E; simpl; rewrite IH; case_decide; subst; rewrite ?E; done.
Qed.

Lemma to_update_keys files ids k : k ∈ (to_update old (zip files ids)).*1 → k ∈ hf_key <$> files ∧ jhas k old = true.
Proof.
  intros Hk. destruct (jget k (to_update old (zip files ids))) as [i|] eqn:E; [|by apply jget_None in E].
  rewrite to_update_get in E. destruct (jhas k old); [|done]. by apply jget_zip_elem in E as [? _].
Qed.

Lemma to_update_NoDup files ids : NoDup (hf_key <$> files) → NoDup (to_update old (zip files ids)).*1.
Proof.
  revert ids. induction files as [|f files IH]; intros [|i ids] Hnd; try constructor. apply NoDup_cons in Hnd as [Hn Hnd].
  specialize (IH ids Hnd). pose proof (to_update_keys files ids (hf_key f)) as Hk. unfold to_update in *. simpl.
  destruct (jhas (hf_key f) old); [|done]. simpl. constructor; [|done]. intros Hin. by apply Hk in Hin as [? _].
Qed.

Lemma to_insert_keys files ids k i : (k, i) ∈ to_insert old (zip files ids) → k ∈ hf_key <$> files ∧ i ∈ ids ∧ jhas k old = false.
Proof.
  unfold to_insert. rewrite list_elem_of_omap. intros ([f j] & Hin & Heq). simpl in Heq. destruct (jhas (hf_key f) old) eqn:E; [done|].
  injection Heq as <- <-. apply elem_of_zip_l in Hin as Hf. apply elem_of_zip_r in Hin. split_and!; try done.
  apply list_elem_of_fmap. by exists f.
Qed.

Lemma to_insert_NoDup files ids : NoDup (hf_key <$> files) → NoDup (to_insert old (zip files ids)).*1.
Proof.
  revert ids. induction files as [|f files IH]; intros [|i ids] Hnd; try constructor. apply NoDup_cons in Hnd as [Hn Hnd].
  specialize (IH ids Hnd). assert (Hk : ∀ k, k ∈ (to_insert old (zip files ids)).*1 → k ∈ hf_key <$> files).
  { intros k ([k' j] & -> & Hin)%list_elem_of_fmap. by apply to_insert_keys in Hin as [? _]. }
  unfold to_insert in *. simpl. destruct (jhas (hf_key f) old); [done|]. simpl. constructor; [|done]. intros Hin. by apply Hk in Hin.
Qed.

Lemma old_ids_displaced (D : dirmap) files ids :
  length ids = length files → (∀ k, k ∈ hf_key <$> files → jget k old = d_inodeId <$> D !! k) →
  old_ids old (zip files ids) = displaced D (hf_key <$> files).
Proof.
  revert ids. induction files as [|f files IH]; intros [|i ids] Hl Hold; try done. injection Hl as Hl. rewrite fmap_cons in *.
  rewrite displaced_cons, <- (IH ids Hl) by (intros k Hk; apply Hold; by apply list_elem_of_further).
  unfold old_ids. simpl. rewrite (Hold (hf_key f)) by apply list_elem_of_here. by destruct (D !! hf_key f).
Qed.

(** Nothing to update, nothing to unlink. *)
Lemma to_update_nil files ids : length (to_update old (zip files ids)) = length (old_ids old (zip files ids)).
Proof.
  revert ids. induction files as [|f files IH]; intros [|i ids]; try done. unfold to_update, old_ids, jhas in *. simpl.
  destruct (jget (hf_key f) old); simpl; by rewrite IH.
Qed.
End lists.

(** ** The batch is the reference *)

Section batch.
Context `{Config} (t : tx) (old : list ((Z * string) * Z)) (files : list HashedFile).
Context (Ht : t_sandbox t = Some sandboxId) (Hwf : wf_db (t_db t)).
Abbreviation d := (t_db t).
Abbreviation keys := (hf_key <$> files).
Context (Hnd : NoDup keys) (Hfill : Forall (fillable d sandboxId) keys).
Context (Hold : ∀ k, k ∈ keys → jget k old = d_inodeId <$> dirents d !! k).

Abbreviation rows := (file_row (clock d) <$> files).
Abbreviation nodes := (zip keys rows).
Abbreviation ids := (serials (next_id d) (length files)).
Abbreviation gone := (displaced (dirents d) keys).

Local Lemma nodes_keys : nodes.*1 = keys.
Proof. apply fst_zip. by rewrite !length_fmap. Qed.

Local Lemma nodes_rows : nodes.*2 = rows.
Proof. apply snd_zip. by rewrite !length_fmap. Qed.

Local Lemma nodes_length : length nodes = length files.
Proof. rewrite <- (length_fmap fst), nodes_keys. apply length_fmap. Qed.

Lemma ingest_nodes_ok : nodes_ok sandboxId nodes.
Proof.
  split; [by rewrite nodes_keys|]. apply Forall_forall. intros [k r] Hin. apply elem_of_zip_r in Hin.
  apply list_elem_of_fmap in Hin as (f & -> & _). done.
Qed.

Lemma wf_ingested : wf_db (put_nodes nodes d).
Proof. eapply wf_put_nodes; [done|apply ingest_nodes_ok|by rewrite nodes_keys]. Qed.

(** A displaced inode: a row of the sandbox that is no directory. *)
Local Lemma gone_inode x : x ∈ gone →
  x < next_id d ∧ ∃ r, inodes d !! x = Some r ∧ i_sandboxId r = sandboxId ∧ i_kind r ≠ DIRECTORY.
Proof.
  unfold displaced. rewrite list_elem_of_omap. intros (k & Hk & Hx). destruct (dirents d !! k) as [de|] eqn:E; [|done]. injection Hx as <-.
  split; [by eapply wf_ids_given|]. destruct (wf_child d Hwf _ _ E) as (r & Hr & Hs). exists r. split; [done|].
  pose proof (proj1 (Forall_forall _ _) Hfill k Hk) as (Hd & _ & Hnd'). split; [|by eapply Hnd'].
  destruct k as [p n]. destruct (wf_parent d Hwf _ _ _ E) as (pr & Hp & _ & Hps), Hd as (pr' & Hp' & _ & Hps'). simpl in *. congruence.
Qed.

(** What the reference says of a displaced inode with no link left. *)
Local Lemma gone_deleted x r : inodes d !! x = Some r → x ∈ gone → i_nlink r - occurrences x gone ≤ 0 →
  inodes (put_nodes nodes d) !! x = None.
Proof.
  intros Hr Hx Hl. rewrite put_nodes_inodes; [|by rewrite nodes_keys|by apply wf_ids_given].
  rewrite jget_zip_None by (rewrite elem_serials; destruct (gone_inode x Hx); lia). rewrite nodes_keys, Hr. simpl. unfold unlinked.
  rewrite decide_False; [by rewrite decide_True|]. intros H0%occurrences_zero. done.
Qed.

(** After the redirection nothing refers to such an inode. *)
Local Lemma gone_unreferenced D (db' : db) x r :
  (∀ k, D !! k = match jget k (to_update old (zip files ids)) with Some id => Some (mkDirent id sandboxId) | None => dirents d !! k end) →
  dirents db' = D → inodes d !! x = Some r → x ∈ gone → i_nlink r - occurrences x gone ≤ 0 → unreferenced db' x.
Proof.
  intros HD Hdb Hr Hx Hl. destruct (gone_inode x Hx) as (Hlt & r' & Hr' & _ & Hnk). assert (r' = r) as -> by congruence.
  pose proof (gone_deleted x r Hr Hx Hl) as Hdel. pose proof wf_ingested as Hwf'.
  assert (Hup : ∀ k i, jget k (to_update old (zip files ids)) = Some i → is_Some (dirents d !! k) ∧ i ≠ x).
  { intros k i. rewrite to_update_get. destruct (jhas k old) eqn:Eo; [|done]. intros [Hk Hi]%jget_zip_elem. split.
    - apply jhas_true in Eo. rewrite (Hold k Hk) in Eo. by apply fmap_is_Some in Eo.
    - apply elem_serials in Hi. lia. }
  split.
  - intros m. rewrite Hdb. assert (Hno : dirents d !! (x, m) = None) by (by eapply (wf_leaf d Hwf)).
    rewrite HD. destruct (jget _ _) as [i|] eqn:E; [|done]. destruct (Hup _ _ E) as [[? ?] _]. congruence.
  - intros k de. rewrite Hdb, HD. destruct (jget k _) as [i|] eqn:E; [intros [= <-]; by apply (Hup k i E)|]. intros Hde Heq.
    assert (Hnot : k ∉ keys).
    { intros Hk. rewrite to_update_get in E. assert (Ho : jhas k old = true) by (apply jhas_true; rewrite (Hold k Hk), Hde; by eexists).
      rewrite Ho in E. destruct (jget_zip_Some keys ids k) as [? Hs]; [rewrite serials_length, length_fmap; lia|done|congruence]. }
    assert (Hde' : dirents (put_nodes nodes d) !! k = Some de).
    { rewrite (put_nodes_dirents sandboxId); [|by rewrite nodes_keys|eapply Forall_impl; [apply ingest_nodes_ok|by intros ? []]].
      by rewrite nodes_keys, jget_zip_None. }
    destruct (wf_child _ Hwf' _ _ Hde') as (rc & Hrc & _). congruence.
Qed.

(** The state after the file rows are inserted. *)
Abbreviation t1 := (on_db (insert_rows rows) t).

Local Lemma inserted_inode x : x ∉ ids → inodes (t_db t1) !! x = inodes d !! x.
Proof.
  intros Hx. simpl. destruct (insert_rows_spec rows d) as (_ & _ & _ & _ & _ & _ & ->). by rewrite length_fmap, jget_zip_None.
Qed.

Local Lemma inserted_dirents : dirents (t_db t1) = dirents d.
Proof. simpl. by destruct (insert_rows_spec rows d) as (-> & _). Qed.

Local Lemma gone_inserted x : x ∈ gone → ∃ r, inodes (t_db t1) !! x = Some r ∧ inodes d !! x = Some r ∧ i_sandboxId r = sandboxId.
Proof.
  intros Hx. destruct (gone_inode x Hx) as (Hlt & r & Hr & Hs & _). exists r. rewrite inserted_inode; [done|]. rewrite elem_serials. lia.
Qed.

(** The inode rows once the displaced links are taken off: those of the reference. *)
Local Lemma unlinked_inodes x :
  (r ← match jget x (nlinkDecrements gone) with
       | Some c => (λ r, set_nlink (i_nlink r - c) r) <$> inodes (t_db t1) !! x
       | None => inodes (t_db t1) !! x
       end;
   if decide (x ∈ (nlinkDecrements gone).*1 ∧ i_nlink r ≤ 0) then None else Some r) = inodes (put_nodes nodes d) !! x.
Proof.
  rewrite put_nodes_inodes; [|by rewrite nodes_keys|by apply wf_ids_given]. rewrite nodes_keys, nodes_rows, nodes_length, nlinkDecrements_get.
  simpl. destruct (insert_rows_spec rows d) as (_ & _ & _ & _ & _ & _ & ->). rewrite length_fmap.
  destruct (decide (occurrences x gone = 0)) as [H0|H0].
  - assert (Hx : x ∉ (nlinkDecrements gone).*1) by (rewrite nlinkDecrements_key; by apply occurrences_zero).
    destruct (jget x (zip ids rows)) as [r|]; [|destruct (inodes d !! x) as [r|]; [|done]]; cbn [mbind option_bind];
      (rewrite decide_False; [|by intros [? _]]); [done|]. unfold unlinked. by rewrite decide_True.
  - assert (Hx : x ∈ gone) by (destruct (decide (x ∈ gone)) as [|Hn]; [done|by apply occurrences_zero in Hn]).
    rewrite jget_zip_None by (rewrite elem_serials; destruct (gone_inode x Hx); lia).
    destruct (inodes d !! x) as [r|]; [|done]. cbn [mbind option_bind fmap option_fmap option_map]. unfold unlinked. rewrite (decide_False (P := _ = 0)) by done.
    apply nlinkDecrements_key in Hx. simpl. repeat case_decide; tauto || done.
Qed.

(** Redirecting the entries that exist and unlinking what they pointed at. *)
Local Lemma redirect_run :
  ∃ D, (update_dirents (to_update old (zip files ids)) ;;; decrement_inodes (nlinkDecrements gone) ;;;
        delete_unlinked (nlinkDecrements gone).*1) t1
       = (Ok tt, with_inodes (inodes (put_nodes nodes d)) (with_dirents D t1)) ∧
    ∀ k, D !! k = match jget k (to_update old (zip files ids)) with Some id => Some (mkDirent id sandboxId) | None => dirents d !! k end.
Proof.
  destruct (update_dirents_run sandboxId (to_update old (zip files ids)) t1) as (D1 & Hupd & HD1); [done|by apply to_update_NoDup| |].
  { intros k [Hk Ho]%to_update_keys. rewrite inserted_dirents. apply jhas_true in Ho. rewrite (Hold k Hk) in Ho.
    apply fmap_is_Some in Ho as [de Hde]. exists de. split; [done|].
    pose proof (proj1 (Forall_forall _ _) Hfill _ Hk) as Hf. destruct k as [p n]. by destruct (fill_replaceable d sandboxId p n Hwf Hf de Hde). }
  rewrite inserted_dirents in HD1. set (decs := nlinkDecrements gone).
  destruct (decrement_inodes_run sandboxId decs (with_dirents D1 t1)) as (I2 & Hdec & HI2); [done|apply nlinkDecrements_wf| |].
  { intros x Hx. destruct (gone_inserted x) as (r & Hr & _ & Hs); [by apply (proj1 (nlinkDecrements_key gone x))|by exists r]. }
  change (inodes (t_db (with_dirents D1 t1))) with (inodes (t_db t1)) in HI2.
  destruct (delete_unlinked_run sandboxId decs.*1 (with_inodes I2 (with_dirents D1 t1))) as (I3 & Hdel & HI3); [done| |].
  { intros x r Hx. apply (proj1 (nlinkDecrements_key gone x)) in Hx. cbn [t_db with_inodes on_db set_inodes inodes]. rewrite HI2. unfold decs. rewrite nlinkDecrements_get.
    case_decide as Hc; [by destruct (proj2 (occurrences_zero _ _) Hc)|]. destruct (gone_inserted x Hx) as (r0 & -> & Hr0 & Hs).
    intros [= <-]. split; [done|]. simpl. intros Hl. by apply (gone_unreferenced D1 _ x r0). }
  exists D1. split; [|done]. rewrite (bindM_Ok _ _ _ _ _ Hupd), (bindM_Ok _ _ _ _ _ Hdec), Hdel.
  change (inodes (t_db (with_inodes I2 (with_dirents D1 t1)))) with I2 in HI3. f_equal.
  assert (I3 = inodes (put_nodes nodes d)) as -> by (apply map_eq; intros x; rewrite HI3, HI2; apply unlinked_inodes). done.
Qed.

(** A statement that is skipped when its list is empty would do nothing. *)
Local Lemma skip_redirect :
  (if decide (length (to_update old (zip files ids)) = 0%nat) then retM tt
   else update_dirents (to_update old (zip files ids)) ;;; decrement_inodes (nlinkDecrements gone) ;;;
        delete_unlinked (nlinkDecrements gone).*1) t1
  = (update_dirents (to_update old (zip files ids)) ;;; decrement_inodes (nlinkDecrements gone) ;;;
     delete_unlinked (nlinkDecrements gone).*1) t1.
Proof.
  case_decide as H0; [|done]. pose proof (to_update_nil old files ids) as Hl. rewrite H0 in Hl. symmetry in Hl.
  rewrite (old_ids_displaced old (dirents d) files ids) in Hl by (apply serials_length || done).
  apply nil_length_inv in H0, Hl. by rewrite H0, Hl.
Qed.

Lemma ingest_files_run :
  ingest_files old files t =
  (Ok ((λ fi, (hf_path fi.1, file_entry_at (clock d) fi.1 fi.2)) <$> zip files ids), on_db (put_nodes nodes) t).
Proof.
  unfold ingest_files. rewrite bindM_gets. rewrite (bindM_Ok _ _ _ _ _ (insert_inodes_run rows t)). rewrite length_fmap.
  rewrite (old_ids_displaced old (dirents d) files ids) by (apply serials_length || done).
  destruct redirect_run as (D1 & Hred & HD1). rewrite <- skip_redirect in Hred. rewrite (bindM_Ok _ _ _ _ _ Hred). clear Hred.
  set (t4 := with_inodes _ _).
  destruct (insert_dirents_run sandboxId (to_insert old (zip files ids)) t4) as (D4 & Hins & HD4); [by apply to_insert_NoDup| |].
  { intros k i (Hk & Hi & Ho)%to_insert_keys. pose proof (proj1 (Forall_forall _ _) Hfill _ Hk) as Hf.
    change (D1 !! k = None ∧ is_Some (inodes (put_nodes nodes d) !! k.1) ∧ is_Some (inodes (put_nodes nodes d) !! i)). split_and!.
    - rewrite HD1, to_update_get, Ho. apply jhas_false in Ho. rewrite (Hold k Hk) in Ho. by apply fmap_None in Ho.
    - destruct Hf as ((pr & Hp & Hpk & _) & _). rewrite put_nodes_inodes, nodes_keys, nodes_rows; [|by rewrite nodes_keys|by apply wf_ids_given].
      destruct (jget _ _); [done|]. rewrite Hp. simpl. unfold unlinked. rewrite decide_True; [done|]. apply occurrences_zero. intros Hx.
      destruct (gone_inode _ Hx) as (_ & r & Hr & _ & Hnk). congruence.
    - rewrite put_nodes_inodes, nodes_keys, nodes_rows, nodes_length; [|by rewrite nodes_keys|by apply wf_ids_given].
      destruct (jget_zip_Some ids rows i) as [r ->]; [rewrite serials_length, length_fmap; lia|done|done]. }
  assert (Hskip : (if decide (length (to_insert old (zip files ids)) = 0%nat) then retM tt
                   else insert_dirents sandboxId (to_insert old (zip files ids))) t4 = (Ok tt, with_dirents D4 t4)).
  { case_decide as H0; [|done]. apply nil_length_inv in H0. rewrite H0 in Hins. done. }
  rewrite (bindM_Ok _ _ _ _ _ Hskip). unfold retM. f_equal. unfold t4, with_dirents, with_inodes, on_db. cbn [t_db t_sandbox t_epoch].
  f_equal. destruct (insert_rows_spec rows d) as (R1 & R2 & R3 & R4 & R5 & R6 & _), (put_nodes_rest nodes d) as (P1 & P2 & P3 & P4 & P5).
  rewrite nodes_length in P5. rewrite length_fmap in R6.
  destruct (put_nodes nodes d) as [ps pi pd pb pe pn pc] eqn:E. unfold set_dirents, set_inodes. simpl in *. f_equal; try congruence.
  apply map_eq. intros k. rewrite HD4, to_insert_get. change (dirents (t_db t4)) with D1. rewrite HD1, to_update_get.
  pose proof (put_nodes_dirents sandboxId nodes d k) as HP. rewrite E, nodes_keys, nodes_length in HP. simpl in HP. rewrite HP.
  - by destruct (jhas k old), (jget k (zip keys ids)).
  - done.
  - eapply Forall_impl; [apply ingest_nodes_ok|by intros ? []].
Qed.
End batch.

(** ** New directories: the same without displaced entries *)

Lemma displaced_free (D : dirmap) ks : Forall (λ k, D !! k = None) ks → displaced D ks = [].
Proof. induction 1 as [|k ks Hk _ IH]; [done|]. by rewrite displaced_cons, Hk. Qed.

Lemma insert_nodes_run sb keys rows t :
  wf_db (t_db t) → length keys = length rows → NoDup keys →
  Forall (λ r, i_sandboxId r = sb) rows →
  Forall (λ k, dirents (t_db t) !! k = None ∧ is_Some (inodes (t_db t) !! k.1)) keys →
  (let* ids := insert_inodes rows in insert_dirents sb (zip keys ids) ;;; retM ids) t =
  (Ok (serials (next_id (t_db t)) (length rows)), on_db (put_nodes (zip keys rows)) t).
Proof.
  intros Hwf Hlen Hnd Hsb Hk. set (d := t_db t) in *. set (ids := serials (next_id d) (length rows)).
  rewrite (bindM_Ok _ _ _ _ _ (insert_inodes_run rows t)). fold d ids.
  assert (Hk1 : (zip keys rows).*1 = keys) by (apply fst_zip; lia). assert (Hk2 : (zip keys rows).*2 = rows) by (apply snd_zip; lia).
  assert (Hl : length (zip keys rows) = length rows) by (rewrite <- (length_fmap snd), Hk2; done).
  assert (Hlid : length ids = length rows) by apply serials_length.
  destruct (insert_rows_spec rows d) as (R1 & R2 & R3 & R4 & R5 & R6 & R7). fold ids in R7.
  destruct (insert_dirents_run sb (zip keys ids) (on_db (insert_rows rows) t)) as (D & Hrun & HD).
  - by rewrite fst_zip by lia.
  - intros k i Hin. cbn [t_db on_db]. fold d. pose proof (elem_of_zip_l _ _ _ _ Hin) as Hkin. apply elem_of_zip_r in Hin as Hi.
    destruct (proj1 (Forall_forall _ _) Hk k Hkin) as [Hf [pr Hp]]. rewrite R1, !R7. split_and!; [done|by destruct (jget _ _)|].
    destruct (jget_zip_Some ids rows i) as [r ->]; [lia|done|done].
  - rewrite (bindM_Ok _ _ _ _ _ Hrun). unfold retM. f_equal. unfold with_dirents, on_db. cbn [t_db t_sandbox t_epoch]. fold d. f_equal.
    destruct (put_nodes_rest (zip keys rows) d) as (P1 & P2 & P3 & P4 & P5). rewrite Hl in P5.
    assert (HPd : ∀ k, dirents (put_nodes (zip keys rows) d) !! k = match jget k (zip keys ids) with Some id => Some (mkDirent id sb) | None => dirents d !! k end).
    { intros k. rewrite (put_nodes_dirents sb); [by rewrite Hk1, Hl|by rewrite Hk1|].
      apply Forall_forall. intros [k' r] Hin. apply elem_of_zip_r in Hin. by apply (proj1 (Forall_forall _ _) Hsb). }
    assert (HPi : inodes (put_nodes (zip keys rows) d) = inodes (insert_rows rows d)).
    { apply map_eq. intros x. rewrite put_nodes_inodes; [|by rewrite Hk1|by apply wf_ids_given]. rewrite R7, Hk1, Hk2, Hl. fold ids.
      destruct (jget x _); [done|]. rewrite displaced_free by (eapply Forall_impl; [exact Hk|by intros ? []]). unfold unlinked. simpl. by destruct (inodes d !! x). }
    destruct (put_nodes (zip keys rows) d) as [ps pi pd pb pe pn pc]. unfold set_dirents. simpl in *. f_equal; try congruence.
    apply map_eq. intros k. rewrite HPd, HD. cbn [t_db on_db]. fold d. by rewrite R1.
Qed.
