(* ===== verification/IngestSim.v ===== *)
(** A bulk ingest keeps view and tree coherent: the entries it returns are the
    nodes it made, and publishing them restores the session invariant. *)

From S2P Require Import Prelude Errors Paths Store Tree Dialect View Session Namespace Coherence Simulation Journal Invariant Mutate Handlers Ingest IngestRows.

Section nodes.
Context (sb : string) (root : Z).
Abbreviation ρ0 := (realId []).

(** A directory of the sandbox at a path. *)
Definition dir_at (d : db) (cs : list string) (x : Z) : Prop :=
  walk (dirents d) root cs = Some x ∧ is_dir d sb x.

Lemma dir_at_unique d cs cs' x : wf_db d → root_of d sb = Some root → dir_at d cs x → dir_at d cs' x → cs = cs'.
Proof. intros Hwf Hr [Hw (r & Hx & Hk & _)] [Hw' _]. by eapply (walk_dir_unique d Hwf sb root). Qed.

Section one.
Context (d : db) (ps : list string) (n : string) (p : Z) (r : InodeRow).
Context (Hwf : wf_db d) (Hroot : root_of d sb = Some root).
Context (Hps : dir_at d ps p) (Hfill : fillable d sb (p, n)).
Context (Hrs : i_sandboxId r = sb) (Hrl : i_nlink r = 1).

Lemma root_of_replace : root_of (replace_node p n r d) sb = Some root.
Proof. unfold root_of. destruct (replace_rest p n r d) as (-> & _). done. Qed.

(** Before the new node goes in. *)
Local Lemma cleared : wf_db (remove_entry (p, n) d) ∧ dirents (remove_entry (p, n) d) !! (p, n) = None ∧
  root_of (remove_entry (p, n) d) sb = Some root ∧
  ∀ cs x, dir_at d cs x → dir_at (remove_entry (p, n) d) cs x.
Proof.
  destruct (dirents d !! (p, n)) as [de|] eqn:E.
  - destruct (fill_replaceable d sb p n Hwf Hfill de E) as [_ Hcl]. destruct (wf_child d Hwf _ _ E) as (rc & Hrc & _).
    pose proof (proj2 (proj2 Hfill) de rc E Hrc) as Hnk. split_and!.
    + by eapply wf_remove_entry.
    + rewrite (dirents_remove_entry d p n de E). apply lookup_delete_eq.
    + unfold root_of. by rewrite sandboxes_remove.
    + intros cs x [Hw (rx & Hx & Hk & Hs)]. split.
      * rewrite (walk_remove_entry d p n de Hwf E sb root ps cs Hroot (proj1 Hps)), decide_False; [done|]. intros [rest ->].
        rewrite <- app_assoc, walk_app, (proj1 Hps) in Hw. simpl in Hw. rewrite E in Hw. simpl in Hw.
        destruct rest as [|m rest]; [simpl in Hw; congruence|]. simpl in Hw. by rewrite Hcl in Hw.
      * exists rx. split; [|done]. rewrite (inodes_remove_entry_ne d p n de E); [done|]. intros ->. congruence.
  - unfold remove_entry. by rewrite E.
Qed.

Lemma dir_at_replace cs x : dir_at d cs x → dir_at (replace_node p n r d) cs x.
Proof.
  intros Hx. split; [|by apply (fill_is_dir d sb p n r Hwf Hfill), Hx]. destruct cleared as (Hwf' & Hf & Hr' & Hkeep).
  destruct (Hkeep _ _ Hps) as [Hps' (pr & Hp & Hpk & _)]. destruct (Hkeep _ _ Hx) as [Hw _]. unfold replace_node.
  rewrite (walk_add_node _ p n r pr Hwf' Hp Hpk Hf sb root ps cs Hr' Hps'), decide_False; [done|]. intros ->.
  by rewrite walk_snoc, Hps' in Hw; simpl in Hw; rewrite Hf in Hw.
Qed.

Lemma dir_at_new : i_kind r = DIRECTORY → dir_at (replace_node p n r d) (ps ++ [n]) (next_id d).
Proof.
  intros Hk. split.
  - destruct (dir_at_replace _ _ Hps) as [Hw _]. rewrite walk_snoc, Hw. cbn [mbind option_bind]. by rewrite dirents_replace, decide_True.
  - exists r. by rewrite inodes_replace, decide_True.
Qed.

Lemma put_node_coh v :
  coh sb ρ0 v d → valid_comps (ps ++ [n]) →
  coh sb ρ0 (cacheSet (path_of (ps ++ [n])) (entry_of (next_id d) r) v) (replace_node p n r d).
Proof.
  intros Hc Hv. pose proof (coh_ok _ _ _ _ Hc) as Hok. destruct cleared as (Hwf' & Hf & Hr' & Hkeep).
  destruct (Hkeep _ _ Hps) as [Hps' (pr & Hp & Hpk & _)].
  assert (Hdel : coh sb ρ0 (cacheDelete (path_of (ps ++ [n])) v) (remove_entry (p, n) d)).
  { destruct (dirents d !! (p, n)) as [de|] eqn:E.
    - destruct (fill_replaceable d sb p n Hwf Hfill de E) as [_ Hcl]. destruct Hps as [Hw _]. by eapply coh_remove_entry.
    - unfold remove_entry. rewrite E. unfold cacheDelete. destruct (view_get _ v) as [en|] eqn:Eg; [|done].
      destruct (coh_some _ _ _ _ Hc root _ en Hroot Hv Eg) as (rid & _ & _ & Hw & _). rewrite walk_snoc, (proj1 Hps) in Hw. simpl in Hw. by rewrite E in Hw. }
  apply (coh_ext _ _ (cacheSet (path_of (ps ++ [n])) (entry_of (next_id d) r) (cacheDelete (path_of (ps ++ [n])) v))).
  - intros k. rewrite !get_cacheSet. case_decide; [done|]. rewrite get_cacheDelete by apply Hok. by rewrite decide_False.
  - by apply cacheSet_ok.
  - eapply (coh_add_node sb ρ0 ρ0 _ _ ps n root p r pr); try done. simpl. rewrite next_id_remove.
    pose proof (wf_next d Hwf). unfold realId. by rewrite decide_True by lia.
Qed.
End one.

(** The paths of a list of nodes. *)
Definition at_path (d : db) (cs : list string) (x : node) : Prop :=
  ∃ ps, cs = ps ++ [x.1.2] ∧ valid_comps cs ∧ dir_at d ps x.1.1.

(** A lookup after the entries [l] were set, one after the other. *)
Definition overlay {V} (l : list (string * V)) (get : string → option V) (k : string) : option V :=
  match jget k l with Some e => Some e | None => get k end.

Abbreviation new_entries paths ids l := (zip paths (zip_with entry_of ids (l : list node).*2)).

Lemma put_nodes_coh l css d v :
  wf_db d → root_of d sb = Some root → coh sb ρ0 v d → nodes_ok sb l → Forall (fillable d sb) l.*1 →
  Forall2 (at_path d) css l → NoDup css →
  (∃ w, coh sb ρ0 w (put_nodes l d) ∧
     ∀ k, view_get k w = overlay (new_entries (path_of <$> css) (serials (next_id d) (length l)) l) (λ k, view_get k v) k) ∧
  (∀ cs x, dir_at d cs x → dir_at (put_nodes l d) cs x) ∧
  (Forall (λ x : node, i_kind x.2 = DIRECTORY) l →
     ∀ cs id, (cs, id) ∈ zip css (serials (next_id d) (length l)) → dir_at (put_nodes l d) cs id).
Proof.
  revert css d v. induction l as [|[[p n] r] l IH]; intros css d v Hwf Hroot Hc Hok Hfill Hat Hnd.
  - inversion Hat; subst. split_and!; [by exists v|done|]. intros _ cs id ?%elem_of_nil. done.
  - inversion Hat as [|cs ? css' ? (ps & -> & Hv & Hps) Hat']; subst. simpl in Hps, Hv. apply NoDup_cons in Hnd as [Hn Hnd].
    destruct (nodes_ok_cons _ _ _ _ Hok) as (Hnk & Hs & Hl & Hok'). pose proof (fill_rest d sb (p, n) r l Hwf Hfill Hnk) as Hfill'.
    apply Forall_cons in Hfill as [Hf _]. set (d' := replace_node p n r d).
    assert (Hat1 : Forall2 (at_path d') css' l).
    { eapply Forall2_impl; [exact Hat'|]. intros cs x (qs & -> & Hvq & Hq). exists qs. split_and!; [done|done|]. by eapply dir_at_replace. }
    destruct (IH css' d' (cacheSet (path_of (ps ++ [n])) (entry_of (next_id d) r) v)) as ((w & Hw & Hg) & Hkeep & Hnew); try done.
    { by eapply wf_replace. } { by apply root_of_replace. } { by apply put_node_coh. }
    assert (Hnx : next_id d' = next_id d + 1) by (unfold d'; by destruct (replace_rest p n r d) as (_ & _ & _ & _ & ->)). rewrite Hnx in *.
    change (put_nodes (((p, n), r) :: l) d) with (put_nodes l d'). cbn [length]. rewrite serials_S. split_and!.
    + exists w. split; [done|]. intros k. rewrite Hg. unfold overlay. cbn [fmap list_fmap zip_with zip jget fst snd]. rewrite get_cacheSet.
      assert (Hvs : Forall valid_comps css') by (clear -Hat'; induction Hat' as [|? ? ? ? (? & _ & ? & _)]; by constructor).
      destruct (decide (path_of (ps ++ [n]) = k)) as [<-|]; [|by rewrite (decide_False (P := k = _)) by congruence].
      rewrite (decide_True (P := path_of _ = _)) by done. rewrite jget_zip_None; [done|]. intros (cs & Heq & Hin)%list_elem_of_fmap.
      apply path_of_inj in Heq; [by subst|done|]. by apply (proj1 (Forall_forall _ _) Hvs).
    + intros cs x Hx. apply Hkeep. by eapply dir_at_replace.
    + intros Hall cs id. apply Forall_cons in Hall as [Hk Hall]. cbn [zip zip_with]. rewrite elem_of_cons. intros [[= -> ->]|Hin]; [|by apply Hnew].
      apply Hkeep. by apply (dir_at_new d ps n p r).
Qed.
End nodes.

(** ** Paths as the dialect takes them apart *)

Lemma path_parts_of cs : valid_comps cs → path_parts (path_of cs) = cs.
Proof. apply path_segments. Qed.

Lemma parts_parent_snoc ps n : parts_parent (ps ++ [n]) = path_of ps.
Proof.
  unfold parts_parent. rewrite length_app. simpl. case_decide as Hl.
  - assert (ps = []) as -> by (apply nil_length_inv; lia). done.
  - by rewrite removelast_last.
Qed.

Lemma parts_name_snoc ps n : parts_name (ps ++ [n]) = n.
Proof. unfold parts_name. by rewrite last_snoc. Qed.

Lemma jget_fold_jset {A K V} `{EqDecision K} (f : A → K) (g : A → V) l m k :
  NoDup (f <$> l) →
  jget k (fold_left (λ m a, jset (f a) (g a) m) l m) =
  match jget k ((λ a, (f a, g a)) <$> l) with Some v => Some v | None => jget k m end.
Proof.
  revert m. induction l as [|a l IH]; intros m Hnd; [done|]. apply NoDup_cons in Hnd as [Hn Hnd]. cbn [fold_left fmap list_fmap jget].
  rewrite IH, jget_jset by done. destruct (decide (f a = k)) as [<-|]; [|by rewrite (decide_False (P := k = _)) by congruence].
  rewrite decide_True by done. rewrite (proj2 (jget_None _ _)); [done|]. rewrite <- list_fmap_compose. done.
Qed.

(** ** Ancestor directories *)

Section dirs.
Context `{Config} (root e : Z) (v0 : View).
Abbreviation dir_at := (dir_at sandboxId root).
Abbreviation coh0 := (coh sandboxId (realId [])).

(** A directory to look up or make: its parent is known. *)
Definition wanted (dm : list (string * Z)) (q : string) : Prop :=
  ∃ ps n, valid_comps (ps ++ [n]) ∧ q = path_of (ps ++ [n]) ∧ is_Some (jget (path_of ps) dm).

Definition candidate (dm : list (string * Z)) (c : DirCandidate) : Prop :=
  ∃ ps, valid_comps (ps ++ [dc_name c]) ∧ dc_path c = path_of (ps ++ [dc_name c]) ∧ jget (path_of ps) dm = Some (dc_parent c).

Lemma dir_candidates_spec dm dirs : Forall (wanted dm) dirs →
  ∃ cands, dir_candidates dm dirs = Ok cands ∧ Forall (candidate dm) cands ∧
    dc_path <$> cands = List.filter (λ q, negb (jhas q dm)) dirs.
Proof.
  induction 1 as [|q dirs (ps & n & Hv & -> & [pid Hpid]) _ (cands & Hrun & Hall & Hpaths)]; [by exists []|]. simpl.
  destruct (jhas (path_of (ps ++ [n])) dm); simpl; [by exists cands|].
  rewrite path_parts_of, parts_parent_snoc, parts_name_snoc, Hpid, Hrun by done.
  eexists. split_and!; [done| |by rewrite fmap_cons, Hpaths]. constructor; [|done]. by exists ps.
Qed.

Lemma existing_row_spec t p n :
  in_tx t sandboxId e → wf_db (t_db t) → is_dir (t_db t) sandboxId p →
  match dirents (t_db t) !! (p, n) with
  | None => existing_row t (p, n) = None
  | Some de => ∃ r, inodes (t_db t) !! d_inodeId de = Some r ∧ existing_row t (p, n) = Some ((p, n), (d_inodeId de, i_kind r))
  end.
Proof.
  intros Hin Hwf (pr & Hp & _ & Hps). unfold existing_row. destruct (dirents (t_db t) !! (p, n)) as [de|] eqn:E; [|by rewrite sel_dirent_None].
  destruct (wf_parent _ Hwf _ _ _ E) as (pr' & Hp' & _ & Hs). destruct (wf_child _ Hwf _ _ E) as (r & Hr & Hrs).
  exists r. split; [done|]. assert (Hsd : d_sandboxId de = sandboxId) by congruence.
  rewrite (in_tx_sel_dirent t sandboxId e _ de) by done. simpl. rewrite (in_tx_sel_inode t sandboxId e _ r) by (done || congruence). done.
Qed.

Lemma match_dirs_spec t byKey cands dm :
  (∀ c, c ∈ cands → jget (dc_key c) byKey = Some c) →
  match match_dirs byKey (existing_rows (dc_key <$> cands) t) dm with
  | Ok dm' =>
      (∀ q x, jget q dm' = Some x → jget q dm = Some x ∨
         ∃ c, c ∈ cands ∧ dc_path c = q ∧ existing_row t (dc_key c) = Some (dc_key c, (x, DIRECTORY))) ∧
      (∀ q, is_Some (jget q dm) → is_Some (jget q dm')) ∧
      (∀ c, c ∈ cands → is_Some (existing_row t (dc_key c)) → is_Some (jget (dc_path c) dm'))
  | Err err => ∃ c x k, c ∈ cands ∧ err = ENOTDIR (dc_path c) ∧ existing_row t (dc_key c) = Some (dc_key c, (x, k)) ∧ k ≠ DIRECTORY
  end.
Proof.
  unfold existing_rows. revert dm. induction cands as [|c cands IH]; intros dm Hby.
  { simpl. split_and!; [by left|done|]. intros c ?%elem_of_nil. done. }
  assert (Hby' : ∀ c', c' ∈ cands → jget (dc_key c') byKey = Some c') by (intros c' Hc'; apply Hby; by apply list_elem_of_further).
  cbn [fmap list_fmap omap list_omap]. destruct (existing_row t (dc_key c)) as [[key [x k]]|] eqn:E.
  - assert (key = dc_key c) as ->.
    { unfold existing_row in E. destruct (sel_dirent t (dc_key c)); [|done]. simpl in E. by destruct (sel_inode _ _); simplify_eq/=. }
    cbn [match_dirs]. rewrite (Hby c) by apply list_elem_of_here. case_decide as Hk.
    + subst k. specialize (IH (jset (dc_path c) x dm) Hby'). cbn [omap fmap] in IH. destruct (match_dirs byKey _ _) as [dm'|err].
      * destruct IH as (I1 & I2 & I3). split_and!.
        -- intros q y Hq. destruct (I1 q y Hq) as [Hj|(c' & Hc' & ? & ?)]; [|right; exists c'; split_and!; try done; by apply list_elem_of_further].
           rewrite jget_jset in Hj. case_decide as Hq'; [|by left]. injection Hj as <-. right. exists c. split_and!; [apply list_elem_of_here|done|done].
        -- intros q [y Hq]. apply I2. rewrite jget_jset. by case_decide.
        -- intros c' Hc' He. apply elem_of_cons in Hc' as [->|Hc']; [|by apply I3]. apply I2. rewrite jget_jset_eq. done.
      * destruct IH as (c' & y & k' & Hc' & ? & ? & ?). exists c', y, k'. split_and!; try done. by apply list_elem_of_further.
    + exists c, x, k. split_and!; try done. apply list_elem_of_here.
  - specialize (IH dm Hby'). cbn [omap fmap] in IH. destruct (match_dirs byKey _ _) as [dm'|err].
    + destruct IH as (I1 & I2 & I3). split_and!; [|done|].
      * intros q y Hq. destruct (I1 q y Hq) as [Hj|(c' & Hc' & ? & ?)]; [by left|right; exists c'; split_and!; try done; by apply list_elem_of_further].
      * intros c' Hc' He. apply elem_of_cons in Hc' as [->|Hc']; [by destruct He; congruence|by apply I3].
    + destruct IH as (c' & y & k' & Hc' & ? & ? & ?). exists c', y, k'. split_and!; try done. by apply list_elem_of_further.
Qed.

(** The state between two depths: the rows made so far, laid over the view, are
    the tree; the directories known are where they should be. *)
Record ing (dm : list (string * Z)) (res : list (string * PathCacheEntry)) (t : tx) : Prop := {
  ing_tx : in_tx t sandboxId e;
  ing_wf : wf_db (t_db t);
  ing_root : root_of (t_db t) sandboxId = Some root;
  ing_coh : ∃ w, coh0 w (t_db t) ∧ ∀ k, view_get k w = overlay res (λ k, view_get k v0) k;
  ing_map q x : jget q dm = Some x → ∃ cs, valid_comps cs ∧ q = path_of cs ∧ dir_at (t_db t) cs x;
  ing_new q en : jget q res = Some en → kind en = DIRECTORY ∧ view_get q v0 = None;
  ing_keys : jwf res
}.

(** What a walk finds, the view shows: a row made so far or an entry of [v0]. *)
Lemma ing_entry dm res t cs x r :
  ing dm res t → valid_comps cs → walk (dirents (t_db t)) root cs = Some x → inodes (t_db t) !! x = Some r →
  ∃ en, overlay res (λ k, view_get k v0) (path_of cs) = Some en ∧ kind en = i_kind r ∧ (i_kind r ≠ DIRECTORY → view_get (path_of cs) v0 = Some en).
Proof.
  intros Hi Hv Hw Hr. destruct (ing_coh _ _ _ Hi) as (w & Hc & Hg). destruct (coh_walk _ _ _ _ root cs x Hc (ing_root _ _ _ Hi) Hv Hw) as (en & Hen & Hid).
  destruct (coh_some _ _ _ _ Hc root cs en (ing_root _ _ _ Hi) Hv Hen) as (x' & r' & _ & Hw' & Hr' & (Hk & _)).
  assert (r' = r) as -> by congruence. rewrite Hg in Hen. exists en. split_and!; [done|done|]. intros Hnk. unfold overlay in Hen.
  destruct (jget (path_of cs) res) as [en'|] eqn:E; [|done]. injection Hen as ->. destruct (ing_new _ _ _ Hi _ _ E) as [Hd _]. congruence.
Qed.

Lemma ing_absent dm res t cs : ing dm res t → valid_comps cs → walk (dirents (t_db t)) root cs = None → view_get (path_of cs) v0 = None ∧ jget (path_of cs) res = None.
Proof.
  intros Hi Hv Hw. destruct (ing_coh _ _ _ Hi) as (w & Hc & Hg). specialize (Hg (path_of cs)).
  destruct (view_get (path_of cs) w) as [en|] eqn:E.
  - destruct (coh_some _ _ _ _ Hc root cs en (ing_root _ _ _ Hi) Hv E) as (? & ? & _ & Hw' & _). congruence.
  - unfold overlay in Hg. by destruct (jget (path_of cs) res).
Qed.

(** The key of a candidate determines it. *)
Lemma candidate_key_inj dm res t c c' : ing dm res t → candidate dm c → candidate dm c' → dc_key c = dc_key c' → dc_path c = dc_path c'.
Proof.
  intros Hi (ps & Hv & -> & Hp) (ps' & Hv' & -> & Hp') [= Hpp Hn]. rewrite Hpp in Hp. rewrite Hn in *.
  apply valid_comps_snoc in Hv as [Hv _], Hv' as [Hv' _].
  destruct (ing_map _ _ _ Hi _ _ Hp) as (cs & Hcs & E & Hd), (ing_map _ _ _ Hi _ _ Hp') as (cs' & Hcs' & E' & Hd').
  apply path_of_inj in E, E'; try done. subst. by rewrite (dir_at_unique sandboxId root _ cs cs' _ (ing_wf _ _ _ Hi) (ing_root _ _ _ Hi) Hd Hd').
Qed.

Lemma byKey_get cands m c :
  NoDup (dc_key <$> cands) → c ∈ cands → jget (dc_key c) (fold_left (λ m c, jset (dc_key c) c m) cands m) = Some c.
Proof.
  intros Hnd Hc. rewrite (jget_fold_jset dc_key (λ c, c)) by done.
  assert (Hwf : jwf ((λ c, (dc_key c, c)) <$> cands)) by (unfold jwf; by rewrite <- list_fmap_compose).
  rewrite (proj2 (jget_Some (dc_key c) c _ Hwf)); [done|]. apply list_elem_of_fmap. by exists c.
Qed.

(** Candidates with distinct paths have distinct keys. *)
Lemma candidates_NoDup dm res t cands : ing dm res t → Forall (candidate dm) cands → NoDup (dc_path <$> cands) → NoDup (dc_key <$> cands).
Proof.
  intros Hi Hall Hnd. induction cands as [|c cands IH]; [constructor|]. rewrite fmap_cons in *. apply NoDup_cons in Hnd as [Hn Hnd].
  apply Forall_cons in Hall as [Hc Hall]. constructor; [|by apply IH]. intros (c' & Hk & Hin)%list_elem_of_fmap. apply Hn.
  apply list_elem_of_fmap. exists c'. split; [|done]. eapply candidate_key_inj; try done. by apply (proj1 (Forall_forall _ _) Hall).
Qed.

(** The row of a known key stays a directory, so a match is a directory of the tree. *)
Lemma matched_dirs dm res t cands dm' :
  ing dm res t → Forall (candidate dm) cands →
  (∀ q x, jget q dm' = Some x → jget q dm = Some x ∨
     ∃ c, c ∈ cands ∧ dc_path c = q ∧ existing_row t (dc_key c) = Some (dc_key c, (x, DIRECTORY))) →
  ing dm' res t.
Proof.
  intros Hi Hall Hm. split; try apply Hi. intros q x Hq. destruct (Hm q x Hq) as [Hj|(c & Hc & <- & Hrow)]; [by apply (ing_map _ _ _ Hi)|].
  destruct (proj1 (Forall_forall _ _) Hall c Hc) as (ps & Hv & -> & Hp). destruct (ing_map _ _ _ Hi _ _ Hp) as (cs & Hcs & E & Hd).
  apply valid_comps_snoc in Hv as Hv'. apply path_of_inj in E; [|by destruct Hv'|done]. subst cs. exists (ps ++ [dc_name c]). split_and!; [done|done|].
  pose proof (existing_row_spec t (dc_parent c) (dc_name c) (ing_tx _ _ _ Hi) (ing_wf _ _ _ Hi) (proj2 Hd)) as Hs. unfold dc_key in Hrow.
  destruct (dirents (t_db t) !! (dc_parent c, dc_name c)) as [de|] eqn:Ede; [|congruence]. destruct Hs as (r & Hr & Hs). rewrite Hs in Hrow.
  injection Hrow as <- Hk. split; [by rewrite walk_snoc, (proj1 Hd); simpl; rewrite Ede|]. exists r. split_and!; [done|done|].
  destruct (wf_parent _ (ing_wf _ _ _ Hi) _ _ _ Ede) as (pr & Hpr & _ & Hps), (wf_child _ (ing_wf _ _ _ Hi) _ _ Ede) as (r' & Hr' & Hrs).
  destruct (proj2 Hd) as (pr' & Hpr' & _ & Hps'). congruence.
Qed.

(** A candidate in the tree: its parent is where the path says. *)
Lemma candidate_slot dm res t c : ing dm res t → candidate dm c →
  ∃ ps, path_parts (dc_path c) = ps ++ [dc_name c] ∧ dc_path c = path_of (ps ++ [dc_name c]) ∧ valid_comps (ps ++ [dc_name c]) ∧
        dir_at (t_db t) ps (dc_parent c).
Proof.
  intros Hi (ps & Hv & E & Hp). exists ps. rewrite E, path_parts_of by done. split_and!; try done.
  destruct (ing_map _ _ _ Hi _ _ Hp) as (cs & Hcs & E' & Hd). apply valid_comps_snoc in Hv as [Hv _]. apply path_of_inj in E'; [by subst|done|done].
Qed.

Lemma candidate_free dm res t c : ing dm res t → candidate dm c → existing_row t (dc_key c) = None →
  dirents (t_db t) !! dc_key c = None ∧ fillable (t_db t) sandboxId (dc_key c).
Proof.
  intros Hi Hc Hrow. destruct (candidate_slot dm res t c Hi Hc) as (ps & _ & _ & Hv & Hd). unfold dc_key in *.
  pose proof (existing_row_spec t (dc_parent c) (dc_name c) (ing_tx _ _ _ Hi) (ing_wf _ _ _ Hi) (proj2 Hd)) as Hs.
  destruct (dirents (t_db t) !! (dc_parent c, dc_name c)) as [de|] eqn:Ede; [destruct Hs as (? & _ & ?); congruence|].
  split; [done|]. split_and!; [apply Hd|by apply valid_comps_snoc in Hv as [_ ?]|]. intros de r Hde. simpl in Hde. congruence.
Qed.

Section create.
Context (dm dm' : list (string * Z)) (res : list (string * PathCacheEntry)) (t : tx) (cs : list DirCandidate).
Context (Hi : ing dm res t) (Hi' : ing dm' res t) (Hall : Forall (candidate dm) cs) (Hnd : NoDup (dc_path <$> cs)).
Context (Hfree : Forall (λ c, existing_row t (dc_key c) = None) cs).
Abbreviation row := (new_inode sandboxId DIRECTORY 493 0 (clock (t_db t)) None None).
Abbreviation rows := ((λ _, row) <$> cs).
Abbreviation nodes := (zip (dc_key <$> cs) rows).
Abbreviation ids := (serials (next_id (t_db t)) (length cs)).
Abbreviation comps := ((λ c, path_parts (dc_path c)) <$> cs).

Local Lemma create_keys : nodes.*1 = dc_key <$> cs.
Proof. apply fst_zip. by rewrite !length_fmap. Qed.
Local Lemma create_rows : nodes.*2 = rows.
Proof. apply snd_zip. by rewrite !length_fmap. Qed.
Local Lemma create_length : length nodes = length cs.
Proof. rewrite <- (length_fmap fst), create_keys. apply length_fmap. Qed.
Local Lemma create_NoDup : NoDup (dc_key <$> cs).
Proof. eapply candidates_NoDup; [exact Hi|exact Hall|exact Hnd]. Qed.

Local Lemma create_each c : c ∈ cs → candidate dm c ∧ existing_row t (dc_key c) = None.
Proof. intros Hc. split; [by apply (proj1 (Forall_forall _ _) Hall)|by apply (proj1 (Forall_forall _ _) Hfree)]. Qed.

Local Lemma create_fillable : Forall (fillable (t_db t) sandboxId) nodes.*1.
Proof.
  rewrite create_keys. apply Forall_forall. intros k (c & -> & Hc)%list_elem_of_fmap. destruct (create_each c Hc) as [H1 H2].
  by destruct (candidate_free dm res t c Hi H1 H2).
Qed.

Local Lemma create_paths : path_of <$> comps = dc_path <$> cs.
Proof.
  rewrite <- list_fmap_compose. apply list_fmap_ext. intros i c Hc%list_elem_of_lookup_2. destruct (create_each c Hc) as [H1 _].
  destruct (candidate_slot dm res t c Hi H1) as (ps & Hp & E & _). simpl. by rewrite Hp.
Qed.

Local Lemma create_at : Forall2 (at_path sandboxId root (t_db t)) comps nodes.
Proof.
  clear Hnd. revert Hall Hfree. induction cs as [|c l IH]; intros Ha Hf; [constructor|]. apply Forall_cons in Ha as [Hc Ha]. apply Forall_cons in Hf as [_ Hf].
  constructor; [|by apply IH]. destruct (candidate_slot dm res t c Hi Hc) as (ps & Hp & E & Hv & Hd). exists ps. rewrite Hp. by split_and!.
Qed.

Local Lemma create_nodes_ok : nodes_ok sandboxId nodes.
Proof.
  split; [rewrite create_keys; apply create_NoDup|]. apply Forall_forall. intros [k r] Hin. apply elem_of_zip_r in Hin.
  by apply list_elem_of_fmap in Hin as (c & -> & _).
Qed.

Lemma create_run :
  (let* ids' := insert_inodes rows in insert_dirents sandboxId (zip (dc_key <$> cs) ids') ;;; retM ids') t =
  (Ok ids, on_db (put_nodes nodes) t).
Proof.
  rewrite (insert_nodes_run sandboxId); [by rewrite length_fmap|apply Hi|by rewrite !length_fmap|apply create_NoDup| |].
  - apply Forall_forall. by intros r (c & -> & _)%list_elem_of_fmap.
  - apply Forall_forall. intros k (c & -> & Hc)%list_elem_of_fmap. destruct (create_each c Hc) as [H1 H2].
    destruct (candidate_free dm res t c Hi H1 H2) as [Hf ((pr & Hp & _) & _)]. simpl in Hp. split; [done|]. by exists pr.
Qed.

Local Lemma create_entries : (λ ci : DirCandidate * Z, (dc_path ci.1, dir_entry_at ci.2 (clock (t_db t)))) <$> zip cs ids =
  zip (dc_path <$> cs) (zip_with entry_of ids rows).
Proof.
  generalize (next_id (t_db t)). clear. induction cs as [|c l IH]; intros n; [done|]. cbn [length]. rewrite serials_S. cbn. f_equal. apply IH.
Qed.

Local Lemma zip_paths : NoDup ((λ ci : DirCandidate * Z, dc_path ci.1) <$> zip cs ids).
Proof.
  assert (((λ ci : DirCandidate * Z, dc_path ci.1) <$> zip cs ids) = dc_path <$> cs) as ->; [|done].
  change (λ ci : DirCandidate * Z, dc_path ci.1) with (dc_path ∘ (fst : DirCandidate * Z → _)).
  rewrite list_fmap_compose. by rewrite fst_zip by (rewrite serials_length; lia).
Qed.

Lemma create_ing :
  ing (fold_left (λ m ci, jset (dc_path ci.1) ci.2 m) (zip cs ids) dm')
      (fold_left (λ m ci, jset (dc_path ci.1) (dir_entry_at ci.2 (clock (t_db t))) m) (zip cs ids) res)
      (on_db (put_nodes nodes) t).
Proof.
  destruct (ing_coh _ _ _ Hi) as (w & Hw & Hgw).
  destruct (put_nodes_coh sandboxId root nodes comps (t_db t) w) as ((w' & Hw' & Hg') & Hkeep & Hnew);
    [apply Hi|apply Hi|done|apply create_nodes_ok|apply create_fillable|apply create_at| |].
  { eapply (NoDup_fmap_1 path_of). by rewrite create_paths. }
  destruct (put_nodes_rest nodes (t_db t)) as (P1 & _). pose proof zip_paths as Hz. split.
  - apply in_tx_on_db; [apply Hi|done].
  - eapply wf_put_nodes; [apply Hi|apply create_nodes_ok|apply create_fillable].
  - simpl. unfold root_of. rewrite P1. apply Hi.
  - exists w'. split; [done|]. intros k. rewrite Hg', create_paths, create_rows, create_length. unfold overlay. rewrite <- create_entries.
    rewrite (jget_fold_jset (λ ci : DirCandidate * Z, dc_path ci.1) (λ ci, dir_entry_at ci.2 _)) by done.
    destruct (jget k _) as [en|]; [done|]. apply Hgw.
  - intros q x. rewrite (jget_fold_jset (λ ci : DirCandidate * Z, dc_path ci.1) (λ ci, ci.2)) by done.
    destruct (jget q ((λ ci, (dc_path ci.1, ci.2)) <$> zip cs ids)) as [y|] eqn:E.
    + intros [= ->]. apply jget_elem, list_elem_of_fmap in E as ([c i] & [= -> ->] & Hin). exists (path_parts (dc_path c)).
      pose proof (elem_of_zip_l _ _ _ _ Hin) as Hc. destruct (create_each c Hc) as [H1 _].
      destruct (candidate_slot dm res t c Hi H1) as (ps & Hp & Ep & Hv & _). rewrite Hp. split_and!; [done|done|]. rewrite <- Hp.
      apply Hnew; [|rewrite create_length].
      * apply Forall_forall. intros [k r] Hkr. apply elem_of_zip_r in Hkr. by apply list_elem_of_fmap in Hkr as (? & -> & _).
      * apply list_elem_of_lookup in Hin as [j Hj]. apply lookup_zip_Some in Hj as [Hj1 Hj2]. apply list_elem_of_lookup. exists j.
        apply lookup_zip_Some. split; [|done]. rewrite list_lookup_fmap. simpl. by rewrite Hj1.
    + intros Hq. destruct (ing_map _ _ _ Hi' _ _ Hq) as (qs & ? & ? & Hd). exists qs. split_and!; [done|done|]. by apply Hkeep.
  - intros q en. rewrite (jget_fold_jset (λ ci : DirCandidate * Z, dc_path ci.1) (λ ci, dir_entry_at ci.2 _)) by done.
    destruct (jget q ((λ ci, (dc_path ci.1, _)) <$> zip cs ids)) as [y|] eqn:E; [|apply (ing_new _ _ _ Hi)].
    intros [= ->]. apply jget_elem, list_elem_of_fmap in E as ([c i] & [= -> ->] & Hin). split; [done|].
    apply elem_of_zip_l in Hin. destruct (create_each c Hin) as [H1 H2]. destruct (candidate_slot dm res t c Hi H1) as (ps & Hp & -> & Hv & Hd).
    refine (proj1 (ing_absent dm res t _ Hi Hv _)). rewrite walk_snoc, (proj1 Hd).
    pose proof (proj1 (candidate_free dm res t c Hi H1 H2)) as Hf. unfold dc_key in Hf. simpl. by rewrite Hf.
  - assert (jwf res) as Hr by apply Hi. clear -Hr. revert res Hr. induction (zip cs ids) as [|ci l IH]; intros m Hm; [done|]. simpl. by apply IH, jset_wf.
Qed.

Lemma create_step :
  (let* now := gets (λ t, clock (t_db t)) in
   let* ids' := insert_inodes ((λ _, new_inode sandboxId DIRECTORY 493 0 now None None) <$> cs) in
   insert_dirents sandboxId (zip (dc_key <$> cs) ids') ;;;
   retM (fold_left (λ m ci, jset (dc_path ci.1) ci.2 m) (zip cs ids') dm',
         fold_left (λ m ci, jset (dc_path ci.1) (dir_entry_at ci.2 now) m) (zip cs ids') res)) t =
  (Ok (fold_left (λ m ci, jset (dc_path ci.1) ci.2 m) (zip cs ids) dm',
       fold_left (λ m ci, jset (dc_path ci.1) (dir_entry_at ci.2 (clock (t_db t))) m) (zip cs ids) res),
   on_db (put_nodes nodes) t).
Proof.
  rewrite bindM_gets. pose proof create_run as Hrun. unfold bindM in *. destruct (insert_inodes _ t) as [[ids'|err] t1]; [|done].
  destruct (insert_dirents _ _ t1) as [[[]|err] t2]; [|done]. by injection Hrun as -> ->.
Qed.

(** The keys the folds add. *)
Lemma create_has {V} (g : DirCandidate * Z → V) m q :
  is_Some (jget q (fold_left (λ m ci, jset (dc_path ci.1) (g ci) m) (zip cs ids) m)) ↔ is_Some (jget q m) ∨ q ∈ dc_path <$> cs.
Proof.
  rewrite (jget_fold_jset (λ ci : DirCandidate * Z, dc_path ci.1) g) by apply zip_paths.
  assert (Hk : q ∈ dc_path <$> cs ↔ q ∈ ((λ ci : DirCandidate * Z, (dc_path ci.1, g ci)) <$> zip cs ids).*1).
  { rewrite <- list_fmap_compose. change (fst ∘ _) with (λ ci : DirCandidate * Z, (dc_path ∘ fst) ci). rewrite list_fmap_compose.
    by rewrite fst_zip by (rewrite serials_length; lia). }
  rewrite Hk. destruct (jget q ((λ ci, _) <$> _)) as [y|] eqn:E.
  - split; [|done]. intros _. right. by eapply jget_key.
  - apply jget_None in E. tauto.
Qed.
End create.

(** A path of the batch the tree has as something else than a directory. *)
Definition blocked (q : string) : Prop := ∃ en, view_get q v0 = Some en ∧ kind en ≠ DIRECTORY.

Lemma candidate_blocked dm res t c x k : ing dm res t → candidate dm c →
  existing_row t (dc_key c) = Some (dc_key c, (x, k)) → k ≠ DIRECTORY → blocked (dc_path c).
Proof.
  intros Hi Hc Hrow Hk. destruct (candidate_slot dm res t c Hi Hc) as (ps & _ & -> & Hv & Hd). unfold dc_key in Hrow.
  pose proof (existing_row_spec t (dc_parent c) (dc_name c) (ing_tx _ _ _ Hi) (ing_wf _ _ _ Hi) (proj2 Hd)) as Hs.
  destruct (dirents (t_db t) !! (dc_parent c, dc_name c)) as [de|] eqn:Ede; [|congruence]. destruct Hs as (r & Hr & Hs). rewrite Hs in Hrow. injection Hrow as <- <-.
  destruct (ing_entry dm res t (ps ++ [dc_name c]) (d_inodeId de) r Hi Hv) as (en & _ & Hken & Hen); [by rewrite walk_snoc, (proj1 Hd); simpl; rewrite Ede|done|].
  exists en. split; [by apply Hen|congruence].
Qed.

Lemma ingest_depth_spec dm res t dirs :
  ing dm res t → Forall (wanted dm) dirs → NoDup dirs →
  match ingest_depth sandboxId dirs (dm, res) t with
  | (Ok (dm', res'), t') =>
      ing dm' res' t' ∧ (∀ q, is_Some (jget q dm) → is_Some (jget q dm')) ∧ Forall (λ q, is_Some (jget q dm')) dirs ∧
      (∀ q, is_Some (jget q res') → is_Some (jget q res) ∨ q ∈ dirs)
  | (Err err, _) => ∃ q, q ∈ dirs ∧ err = ENOTDIR q ∧ blocked q
  end.
Proof.
  intros Hi Hw Hnd. destruct (dir_candidates_spec dm dirs Hw) as (cands & Hrun & Hall & Hpaths).
  unfold ingest_depth. unfold lift_res at 1. unfold bindM at 1. cbn [fst snd]. rewrite Hrun.
  assert (Hndp : NoDup (dc_path <$> cands)) by (rewrite Hpaths, <- list_fmap_id; apply NoDup_lfilter; by rewrite list_fmap_id).
  assert (Hdone : ∀ q, q ∈ dirs → is_Some (jget q dm) ∨ q ∈ dc_path <$> cands).
  { intros q Hq. rewrite Hpaths. destruct (jhas q dm) eqn:E; [left; by apply jhas_true|]. right. apply elem_lfilter. by rewrite E. }
  assert (Hsub : ∀ c, c ∈ cands → dc_path c ∈ dirs).
  { intros c Hc. assert (Hq : dc_path c ∈ dc_path <$> cands) by (apply list_elem_of_fmap; by exists c). rewrite Hpaths in Hq.
    by apply elem_lfilter in Hq as [? _]. }
  case_decide as Hnil.
  { apply nil_length_inv in Hnil as ->. split_and!; [done|done| |by left]. apply Forall_forall. intros q Hq.
    destruct (Hdone q Hq) as [|?%elem_of_nil]; done. }
  rewrite bindM_gets. set (byKey := fold_left _ cands []).
  assert (Hby : ∀ c, c ∈ cands → jget (dc_key c) byKey = Some c) by (intros c Hc; apply byKey_get; [by eapply candidates_NoDup|done]).
  pose proof (match_dirs_spec t byKey cands dm Hby) as Hm. unfold lift_res. unfold bindM at 1.
  destruct (match_dirs byKey _ dm) as [dm1|err].
  2:{ destruct Hm as (c & x & k & Hc & -> & Hrow & Hk). exists (dc_path c). split_and!; [by apply Hsub|done|].
      eapply candidate_blocked; try done. by apply (proj1 (Forall_forall _ _) Hall). }
  destruct Hm as (M1 & M2 & M3). pose proof (matched_dirs dm res t cands dm1 Hi Hall M1) as Hi1.
  set (cs := List.filter _ cands).
  assert (Hcs : ∀ c, c ∈ cs ↔ c ∈ cands ∧ jget (dc_path c) dm1 = None).
  { intros c. unfold cs. rewrite elem_lfilter, negb_true_iff, jhas_false. done. }
  case_decide as Hcnil.
  { apply nil_length_inv in Hcnil. split_and!; [done|done| |by left]. apply Forall_forall. intros q Hq.
    destruct (Hdone q Hq) as [|(c & -> & Hc)%list_elem_of_fmap]; [by apply M2|]. destruct (jget (dc_path c) dm1) eqn:E; [done|].
    assert (Hin : c ∈ cs) by (by apply Hcs). rewrite Hcnil in Hin. by apply elem_of_nil in Hin. }
  assert (Hall' : Forall (candidate dm) cs) by (apply Forall_forall; intros c [Hc _]%Hcs; by apply (proj1 (Forall_forall _ _) Hall)).
  assert (Hnd' : NoDup (dc_path <$> cs)) by (by apply NoDup_lfilter).
  assert (Hfree : Forall (λ c, existing_row t (dc_key c) = None) cs).
  { apply Forall_forall. intros c [Hc Hn]%Hcs. destruct (existing_row t (dc_key c)) eqn:E; [|done].
    destruct (M3 c Hc) as [? ?]; [by rewrite E|congruence]. }
  rewrite (create_step dm dm1 res t cs Hi Hall' Hnd' Hfree). split_and!.
  - by apply create_ing with dm.
  - intros q Hq. apply (create_has t cs Hnd' (λ ci, ci.2)). left. by apply M2.
  - apply Forall_forall. intros q Hq. apply (create_has t cs Hnd' (λ ci, ci.2)).
    destruct (Hdone q Hq) as [|(c & -> & Hc)%list_elem_of_fmap]; [left; by apply M2|]. destruct (jget (dc_path c) dm1) eqn:E; [by left|].
    right. apply list_elem_of_fmap. exists c. split; [done|]. by apply Hcs.
  - intros q Hq. apply (create_has t cs Hnd' (λ ci, dir_entry_at ci.2 _)) in Hq as [?|(c & -> & Hc)%list_elem_of_fmap]; [by left|].
    right. apply Hsub. by apply Hcs.
Qed.
End dirs.
