(* ===== verification/IngestSound.v ===== *)
(** Bulk ingest as a session operation: the loop over the depths makes every
    ancestor, the files land on the paths they name, and the session invariant
    is kept whatever happens. *)

From S2P Require Import Prelude Errors Paths Store Tree Dialect View Session Namespace Coherence Simulation Journal Invariant Mutate Handlers Ingest IngestRows IngestSim.

(** ** The ancestors of a batch *)

(** A file the facade hands on: a canonical path below the root. *)
Definition ingestible (f : BulkIngestFile) (cs : list string) : Prop :=
  valid_comps cs ∧ cs ≠ [] ∧ bf_path f = path_of cs.

(** [q] is the proper ancestor of some file at depth [i]. *)
Definition ancestor (files : list BulkIngestFile) (i : nat) (q : string) : Prop :=
  ∃ f, f ∈ files ∧ (1 ≤ i < length (path_parts (bf_path f)))%nat ∧ q = parts_path (take i (path_parts (bf_path f))).

Abbreviation level m i := (default [] (jget i m)).

Lemma elem_set_add x y l : x ∈ set_add y l ↔ x ∈ l ∨ x = y.
Proof. unfold set_add. case_decide; [naive_solver|]. rewrite elem_of_app, list_elem_of_singleton. done. Qed.

Lemma set_add_NoDup x l : NoDup l → NoDup (set_add x l).
Proof.
  intros Hl. unfold set_add. case_decide as Hx; [done|]. apply NoDup_app. split_and!; [done| |apply NoDup_singleton].
  intros y Hy ->%list_elem_of_singleton. done.
Qed.

(** The inner loop, over any list of depths. *)
Lemma ancestors_fold parts js (m : list (nat * list string)) :
  let m' := fold_left (λ m i, jset i (set_add (parts_path (take i parts)) (level m i)) m) js m in
  (∀ i q, q ∈ level m' i ↔ q ∈ level m i ∨ (i ∈ js ∧ q = parts_path (take i parts))) ∧
  ((∀ i, NoDup (level m i)) → ∀ i, NoDup (level m' i)) ∧ (jwf m → jwf m').
Proof.
  revert m. induction js as [|j js IH]; intros m; simpl.
  { split_and!; try done. intros i q. split; [by left|]. intros [?|[?%elem_of_nil _]]; done. }
  destruct (IH (jset j (set_add (parts_path (take j parts)) (level m j)) m)) as (I1 & I2 & I3). split_and!.
  - intros i q. rewrite I1, jget_jset, elem_of_cons. destruct (decide (j = i)) as [->|]; simpl; [rewrite elem_set_add|]; naive_solver.
  - intros Hnd. apply I2. intros i. rewrite jget_jset. case_decide; [simpl; subst; apply set_add_NoDup, Hnd|apply Hnd].
  - intros Hm. by apply I3, jset_wf.
Qed.

Lemma dirsByDepth_spec files :
  (∀ i q, q ∈ level (dirsByDepth files) i ↔ ancestor files i q) ∧
  (∀ i, NoDup (level (dirsByDepth files) i)) ∧ jwf (dirsByDepth files).
Proof.
  unfold dirsByDepth, ancestor.
  assert (Hgen : ∀ m, (∀ i, NoDup (level m i)) → jwf m →
    let m' := fold_left add_ancestors files m in
    (∀ i q, q ∈ level m' i ↔ q ∈ level m i ∨ ancestor files i q) ∧ (∀ i, NoDup (level m' i)) ∧ jwf m').
  { induction files as [|f files IH]; intros m Hnd Hm; simpl.
    - split_and!; try done. intros i q. split; [by left|]. intros [?|(f & ?%elem_of_nil & _)]; done.
    - destruct (ancestors_fold (path_parts (bf_path f)) (seq 1 (length (path_parts (bf_path f)) - 1)) m) as (A1 & A2 & A3).
      destruct (IH (add_ancestors m f)) as (I1 & I2 & I3); [by apply A2|by apply A3|]. split_and!; try done.
      intros i q. rewrite I1. unfold add_ancestors at 1. rewrite A1, elem_of_seq. unfold ancestor. split.
      + intros [[?|[Hi ->]]|(f' & Hf' & ?)]; [by left| |].
        * right. exists f. split_and!; [apply list_elem_of_here|lia|lia|done].
        * right. exists f'. split; [by apply list_elem_of_further|done].
      + intros [?|(f' & [->|Hf']%elem_of_cons & Hi & ->)]; [by auto| |].
        * left. right. split; [lia|done].
        * right. by exists f'. }
  destruct (Hgen []) as (G1 & G2 & G3); [intros; constructor|constructor|]. split_and!; try done. intros i q. rewrite G1. split.
  - intros [?%elem_of_nil|?]; done.
  - by right.
Qed.

Lemma strongly_sorted_depths (m : list (nat * list string)) : jwf m → StronglySorted lt (sortedDepths m).
Proof.
  intros Hm. unfold sortedDepths. pose proof (sort_on_sorted Z.of_nat (jkeys m)) as Hs.
  assert (Hnd : NoDup (sort_on Z.of_nat (jkeys m))) by (rewrite sort_on_perm; exact Hm).
  revert Hnd. induction Hs as [|i l Hs IH Hall]; intros Hnd; [constructor|]. apply NoDup_cons in Hnd as [Hn Hnd]. constructor; [by apply IH|].
  apply Forall_forall. intros j Hj. pose proof (proj1 (Forall_forall _ _) Hall j Hj) as Hle. cbv beta in Hle. assert (i ≠ j) by (by intros ->). lia.
Qed.

Lemma sortedDepths_elem (m : list (nat * list string)) i q : q ∈ level m i → i ∈ sortedDepths m.
Proof.
  intros Hq. unfold sortedDepths. rewrite sort_on_perm. destruct (jget i m) as [l|] eqn:E; [by eapply jget_key|by apply elem_of_nil in Hq].
Qed.

Section sound.
Context `{Config} (root e : Z) (v0 : View).
Abbreviation ing := (ing root e v0).
Abbreviation blocked := (blocked v0).

(** The ancestors of canonical files: their parents come first. *)
Lemma ancestor_wanted files css i q dm :
  Forall2 ingestible files css → ancestor files i q → is_Some (jget "/" dm) →
  (∀ j p, (j < i)%nat → ancestor files j p → is_Some (jget p dm)) → wanted dm q.
Proof.
  intros Hf (f & Hin & Hi & ->) Hroot Hprev. apply list_elem_of_lookup in Hin as [k Hk].
  destruct (Forall2_lookup_l _ _ _ _ _ Hf Hk) as (cs & _ & Hv & _ & Hp). rewrite Hp, path_parts_of in Hi |- * by done.
  destruct i as [|i]; [lia|]. destruct (lookup_lt_is_Some_2 cs i) as [n Hn]; [lia|]. exists (take i cs), n.
  rewrite <- (take_S_r cs i n Hn). split_and!; [by apply Forall_take|done|].
  destruct i as [|i]; [done|]. apply (Hprev (S i)); [lia|]. exists f. rewrite Hp, path_parts_of by done. split_and!; [|lia|lia|done].
  apply list_elem_of_lookup. by exists k.
Qed.

(** The loop over the depths. *)
Lemma ingest_dirs_spec files css depths dm res t :
  Forall2 ingestible files css → ing dm res t → is_Some (jget "/" dm) → StronglySorted lt depths →
  (∀ i q, ancestor files i q → i ∈ depths ∨ is_Some (jget q dm)) →
  match ingest_dirs sandboxId (dirsByDepth files) depths (dm, res) t with
  | (Ok (dm', res'), t') =>
      ing dm' res' t' ∧ is_Some (jget "/" dm') ∧ (∀ i q, ancestor files i q → is_Some (jget q dm')) ∧
      (∀ q, is_Some (jget q res') → is_Some (jget q res) ∨ ∃ i, ancestor files i q)
  | (Err err, _) => ∃ i q, ancestor files i q ∧ err = ENOTDIR q ∧ blocked q
  end.
Proof.
  intros Hf. destruct (dirsByDepth_spec files) as (Hlev & Hnd & _). revert dm res t.
  induction depths as [|i depths IH]; intros dm res t Hi Hroot Hs Hpend; cbn [ingest_dirs].
  { split_and!; [done|done| |by left]. intros j q Hq. destruct (Hpend j q Hq) as [?%elem_of_nil|]; done. }
  inversion Hs as [|? ? Hs' Hlt]; subst.
  assert (Hwant : Forall (wanted dm) (level (dirsByDepth files) i)).
  { apply Forall_forall. intros q Hq%Hlev. apply (ancestor_wanted files css i q dm Hf Hq Hroot). intros j p Hj Hp.
    destruct (Hpend j p Hp) as [[->|Hin]%elem_of_cons|]; [lia| |done]. pose proof (proj1 (Forall_forall _ _) Hlt j Hin). lia. }
  pose proof (ingest_depth_spec root e v0 dm res t _ Hi Hwant (Hnd i)) as Hd. unfold bindM.
  destruct (ingest_depth sandboxId _ (dm, res) t) as [[[dm1 res1]|err] t1].
  - destruct Hd as (Hi1 & Hgrow & Hdone & Hnew). specialize (IH dm1 res1 t1 Hi1 (Hgrow _ Hroot) Hs').
    assert (Hpend1 : ∀ j q, ancestor files j q → j ∈ depths ∨ is_Some (jget q dm1)).
    { intros j q Hq. destruct (Hpend j q Hq) as [[->|Hin]%elem_of_cons|Hs1]; [|by left|right; by apply Hgrow].
      right. apply (proj1 (Forall_forall _ _) Hdone). by apply Hlev. }
    specialize (IH Hpend1). destruct (ingest_dirs _ _ _ _ t1) as [[[dm2 res2]|err] t2]; [|done]. destruct IH as (J1 & J2 & J3 & J4).
    split_and!; try done. intros q Hq. destruct (J4 q Hq) as [Hq1|]; [|by right]. destruct (Hnew q Hq1) as [|Hq2%Hlev]; [by left|right; by exists i].
  - destruct Hd as (q & Hq%Hlev & -> & Hb). by exists i, q.
Qed.

(** ** The files *)

(** A file with its hash, in the directory its path says. *)
Definition hashes (t : tx) (f : BulkIngestFile) (h : HashedFile) : Prop :=
  hf_path h = bf_path f ∧ hf_content h = bf_content f ∧ hf_mode h = bf_mode f ∧ hf_sha256 h = sha256 (bf_content f).

Definition hashed_at (t : tx) (cs : list string) (h : HashedFile) : Prop :=
  ∃ ps, cs = ps ++ [hf_name h] ∧ valid_comps cs ∧ hf_path h = path_of cs ∧ dir_at sandboxId root (t_db t) ps (hf_parent h).

Lemma hash_files_spec files css dm res t :
  Forall2 ingestible files css → ing dm res t → is_Some (jget "/" dm) → (∀ i q, ancestor files i q → is_Some (jget q dm)) →
  ∃ hs, hash_files dm files = Ok hs ∧ Forall2 (hashes t) files hs ∧ Forall2 (hashed_at t) css hs.
Proof.
  intros Hf Hi Hroot. revert css Hf. induction files as [|f files IH]; intros css Hf Hanc; inversion Hf as [|? cs ? css' (Hv & Hne & Hp) Hf']; subst.
  { by exists []. }
  destruct (IH css' Hf') as (hs & Hrun & H1 & H2).
  { intros i q (f' & Hin & ?). apply (Hanc i). exists f'. split; [by apply list_elem_of_further|done]. }
  destruct cs as [|n ps _] using rev_ind; [done|]. cbn [hash_files]. rewrite Hp, path_parts_of, parts_parent_snoc, parts_name_snoc, Hrun by done.
  assert (Hpar : is_Some (jget (path_of ps) dm)).
  { destruct (decide (ps = [])) as [->|Hps]; [done|]. apply (Hanc (length ps)). exists f. rewrite Hp, path_parts_of by done.
    assert (length ps ≠ 0%nat) by (by destruct ps). rewrite length_app, take_app_length. split_and!; [apply list_elem_of_here|lia|simpl; lia|done]. }
  destruct Hpar as [pid Hpid]. rewrite Hpid. eexists. split; [done|]. split; constructor; try done.
  exists ps. simpl. split_and!; try done. destruct (ing_map _ _ _ _ _ _ Hi _ _ Hpid) as (cs & Hcs & E & Hd).
  apply valid_comps_snoc in Hv as [Hv _]. by apply path_of_inj in E as <-.
Qed.

Lemma hashed_NoDup css hs dm res t : ing dm res t → Forall2 (hashed_at t) css hs → NoDup css → NoDup (hf_key <$> hs).
Proof.
  intros Hi. induction 1 as [|cs h css hs (ps & -> & Hv & Hp & Hd) Hat IH]; intros Hnd; [constructor|]. apply NoDup_cons in Hnd as [Hn Hnd].
  rewrite fmap_cons. constructor; [|by apply IH]. intros (h' & Hk & Hin)%list_elem_of_fmap. apply Hn.
  apply list_elem_of_lookup in Hin as [j Hj]. destruct (Forall2_lookup_r _ _ _ _ _ Hat Hj) as (cs' & Hcs' & ps' & -> & Hv' & _ & Hd').
  injection Hk as Hpp Hnn. rewrite Hpp in Hd. rewrite (dir_at_unique sandboxId root _ ps ps' _ (ing_wf _ _ _ _ _ _ Hi) (ing_root _ _ _ _ _ _ Hi) Hd Hd'), Hnn.
  apply list_elem_of_lookup. by exists j.
Qed.

(** The loop over the entries that exist. *)
Lemma existing_row_key t k row : existing_row t k = Some row → row.1 = k.
Proof. unfold existing_row. destruct (sel_dirent t k); [|done]. simpl. by destruct (sel_inode _ _); intros; simplify_eq/=. Qed.

Lemma existing_files_spec t hs ks m :
  match existing_files hs (existing_rows ks t) m with
  | Ok m' =>
      (∀ k, k ∈ ks → jget k m' = match existing_row t k with Some row => Some row.2.1 | None => jget k m end) ∧
      (∀ k, k ∉ ks → jget k m' = jget k m) ∧ (∀ k x, k ∈ ks → existing_row t k ≠ Some (k, (x, DIRECTORY)))
  | Err err => ∃ k x, k ∈ ks ∧ existing_row t k = Some (k, (x, DIRECTORY)) ∧
      err = EISDIR (match List.find (λ f, bool_decide (hf_key f = k)) hs with Some f => hf_path f | None => k.2 end)
  end.
Proof.
  unfold existing_rows. revert m. induction ks as [|k0 ks IH]; intros m.
  { simpl. split_and!; try done; by intros ? ?%elem_of_nil || by intros ? ? ?%elem_of_nil. }
  cbn [omap list_omap]. destruct (existing_row t k0) as [[key [x kd]]|] eqn:E.
  - pose proof (existing_row_key _ _ _ E) as Hkey. simpl in Hkey. subst key. cbn [existing_files]. case_decide as Hk.
    { subst kd. exists k0, x. split_and!; [apply list_elem_of_here|done|done]. }
    specialize (IH (jset k0 x m)). cbn [omap] in IH. destruct (existing_files hs _ _) as [m'|err].
    + destruct IH as (I1 & I2 & I3). split_and!.
      * intros k Hin. destruct (decide (k ∈ ks)) as [Hks|Hks].
        -- rewrite (I1 k Hks), jget_jset. destruct (existing_row t k) as [row|] eqn:Er; [done|]. case_decide as Hkk; [|done]. subst. congruence.
        -- apply elem_of_cons in Hin as [->|]; [|done]. by rewrite (I2 k0 Hks), jget_jset_eq, E.
      * intros k [Hne Hn]%not_elem_of_cons. by rewrite (I2 k Hn), jget_jset_ne by congruence.
      * intros k y [->|Hin]%elem_of_cons; [congruence|by apply I3].
    + destruct IH as (k & y & Hin & ? & ?). exists k, y. split_and!; try done. by apply list_elem_of_further.
  - specialize (IH m). cbn [omap] in IH. destruct (existing_files hs _ _) as [m'|err].
    + destruct IH as (I1 & I2 & I3). split_and!.
      * intros k Hin. destruct (decide (k ∈ ks)) as [Hks|Hks]; [by apply I1|]. apply elem_of_cons in Hin as [->|]; [|done]. by rewrite (I2 k0 Hks), E.
      * intros k [Hne Hn]%not_elem_of_cons. by apply I2.
      * intros k y [->|Hin]%elem_of_cons; [congruence|by apply I3].
    + destruct IH as (k & y & Hin & ? & ?). exists k, y. split_and!; try done. by apply list_elem_of_further.
Qed.

(** What stands in the way of a batch, and the error that says so. *)
Inductive conflict (files : list BulkIngestFile) : fs_error → Prop :=
| conflict_notdir i q : ancestor files i q → blocked q → conflict files (ENOTDIR q)
| conflict_isdir f : f ∈ files →
    (∃ en, view_get (bf_path f) v0 = Some en ∧ kind en = DIRECTORY) ∨ (∃ i, ancestor files i (bf_path f)) →
    conflict files (EISDIR (bf_path f)).

Lemma find_hashed hs h : NoDup (hf_key <$> hs) → h ∈ hs → List.find (λ f, bool_decide (hf_key f = hf_key h)) hs = Some h.
Proof.
  induction hs as [|h' hs IH]; intros Hnd Hin; [by apply elem_of_nil in Hin|]. rewrite fmap_cons in Hnd. apply NoDup_cons in Hnd as [Hn Hnd]. simpl.
  apply elem_of_cons in Hin as [->|Hin]; [by rewrite bool_decide_eq_true_2|]. rewrite bool_decide_eq_false_2; [by apply IH|].
  intros Heq. apply Hn. rewrite Heq. apply list_elem_of_fmap. by exists h.
Qed.

(** The slot of a hashed file. *)
Lemma hashed_slot dm res t cs h : ing dm res t → hashed_at t cs h →
  match dirents (t_db t) !! hf_key h with
  | None => existing_row t (hf_key h) = None
  | Some de => ∃ r, inodes (t_db t) !! d_inodeId de = Some r ∧ existing_row t (hf_key h) = Some (hf_key h, (d_inodeId de, i_kind r)) ∧
      walk (dirents (t_db t)) root cs = Some (d_inodeId de)
  end.
Proof.
  intros Hi (ps & -> & Hv & Hp & Hd). unfold hf_key.
  pose proof (existing_row_spec e t (hf_parent h) (hf_name h) (ing_tx _ _ _ _ _ _ Hi) (ing_wf _ _ _ _ _ _ Hi) (proj2 Hd)) as Hs.
  destruct (dirents (t_db t) !! (hf_parent h, hf_name h)) as [de|] eqn:Ede; [|done]. destruct Hs as (r & Hr & Hs). exists r. split_and!; try done.
  rewrite walk_snoc, (proj1 Hd). simpl. by rewrite Ede.
Qed.

Lemma existing_conflict files css hs dm res t err :
  ing dm res t → Forall2 (hashes t) files hs → Forall2 (hashed_at t) css hs → NoDup css →
  (∀ q, is_Some (jget q res) → ∃ i, ancestor files i q) →
  existing_files hs (existing_rows (hf_key <$> hs) t) [] = Err err → conflict files err.
Proof.
  intros Hi Hh Hat Hnd Hres Herr. pose proof (existing_files_spec t hs (hf_key <$> hs) []) as Hs. rewrite Herr in Hs.
  destruct Hs as (k & x & (h & -> & Hin)%list_elem_of_fmap & Hrow & ->). rewrite (find_hashed hs h) by (done || by eapply hashed_NoDup).
  apply list_elem_of_lookup in Hin as [j Hj]. destruct (Forall2_lookup_r _ _ _ _ _ Hh Hj) as (f & Hf & Hp & _).
  destruct (Forall2_lookup_r _ _ _ _ _ Hat Hj) as (cs & _ & Hat'). pose proof (hashed_slot dm res t cs h Hi Hat') as Hsl.
  destruct (dirents (t_db t) !! hf_key h) as [de|]; [|congruence]. destruct Hsl as (r & Hr & Hrow' & Hw). rewrite Hrow in Hrow'. injection Hrow' as -> Hk.
  destruct Hat' as (ps & _ & Hv & Hpath & _). destruct (ing_entry root e v0 dm res t cs _ r Hi Hv Hw Hr) as (en & Hov & Hken & _).
  rewrite Hp. constructor; [apply list_elem_of_lookup; by exists j|]. rewrite <- Hp, Hpath. unfold overlay in Hov.
  destruct (jget (path_of cs) res) eqn:E; [right; apply Hres; by rewrite E|]. left. exists en. split; [done|congruence].
Qed.

Lemma existing_ready css hs dm res t old :
  ing dm res t → Forall2 (hashed_at t) css hs → existing_files hs (existing_rows (hf_key <$> hs) t) [] = Ok old →
  (∀ k, k ∈ hf_key <$> hs → jget k old = d_inodeId <$> dirents (t_db t) !! k) ∧ Forall (fillable (t_db t) sandboxId) (hf_key <$> hs).
Proof.
  intros Hi Hat Hok. pose proof (existing_files_spec t hs (hf_key <$> hs) []) as Hs. rewrite Hok in Hs. destruct Hs as (Hget & _ & Hnd).
  assert (Hslot : ∀ h, h ∈ hs → ∃ cs, hashed_at t cs h).
  { intros h [j Hj]%list_elem_of_lookup. destruct (Forall2_lookup_r _ _ _ _ _ Hat Hj) as (cs & _ & ?). by exists cs. }
  split.
  - intros k Hk. rewrite (Hget k Hk). apply list_elem_of_fmap in Hk as (h & -> & Hin). destruct (Hslot h Hin) as (cs & Hcs).
    pose proof (hashed_slot dm res t cs h Hi Hcs) as Hsl. destruct (dirents (t_db t) !! hf_key h) as [de|]; [|by rewrite Hsl].
    by destruct Hsl as (r & _ & -> & _).
  - apply Forall_forall. intros k Hk. specialize (λ x, Hnd k x Hk). apply list_elem_of_fmap in Hk as (h & -> & Hin). destruct (Hslot h Hin) as (cs & Hcs).
    pose proof (hashed_slot dm res t cs h Hi Hcs) as Hsl. destruct Hcs as (ps & -> & Hv & _ & Hd). split_and!; [apply Hd|by apply valid_comps_snoc in Hv as [_ ?]|].
    intros de r Hde Hr. rewrite Hde in Hsl. destruct Hsl as (r' & Hr' & Hrow & _). assert (r' = r) as -> by congruence. intros Hk. rewrite Hk in Hrow. by apply Hnd in Hrow.
Qed.

(** A file may replace what is at its path: it is no directory. *)
Lemma fillable_free files css hs dm res t f en :
  ing dm res t → Forall2 (hashes t) files hs → Forall2 (hashed_at t) css hs → Forall (fillable (t_db t) sandboxId) (hf_key <$> hs) →
  f ∈ files → view_get (bf_path f) v0 = Some en → kind en ≠ DIRECTORY.
Proof.
  intros Hi Hh Hat Hfill [j Hj]%list_elem_of_lookup Hen. destruct (Forall2_lookup_l _ _ _ _ _ Hh Hj) as (h & Hhj & Hp & _).
  destruct (Forall2_lookup_r _ _ _ _ _ Hat Hhj) as (cs & _ & Hcs). pose proof (hashed_slot dm res t cs h Hi Hcs) as Hsl.
  destruct Hcs as (ps & -> & Hv & Hpath & Hd). rewrite <- Hp, Hpath in Hen.
  destruct (ing_coh _ _ _ _ _ _ Hi) as (w & Hw & Hg). specialize (Hg (path_of (ps ++ [hf_name h]))). unfold overlay in Hg.
  destruct (jget _ res) as [en'|] eqn:E; [destruct (ing_new _ _ _ _ _ _ Hi _ _ E); congruence|]. rewrite Hen in Hg.
  destruct (coh_some _ _ _ _ Hw root _ en (ing_root _ _ _ _ _ _ Hi) Hv Hg) as (x & r & _ & Hwk & Hr & (Hk & _)).
  destruct (dirents (t_db t) !! hf_key h) as [de|] eqn:Ede.
  - destruct Hsl as (r' & Hr' & _ & Hwk'). assert (Hin : hf_key h ∈ hf_key <$> hs) by (apply list_elem_of_fmap; exists h; split; [done|by eapply list_elem_of_lookup_2]).
    destruct (proj1 (Forall_forall _ _) Hfill _ Hin) as (_ & _ & Hnk). rewrite Hk. apply (Hnk de); [done|]. congruence.
  - rewrite walk_snoc, (proj1 Hd) in Hwk. unfold hf_key in Ede. simpl in Hwk. by rewrite Ede in Hwk.
Qed.

Section write_files.
Context (css : list (list string)) (hs : list HashedFile) (dm : list (string * Z)) (res : list (string * PathCacheEntry)) (t : tx).
Context (old : list ((Z * string) * Z)).
Context (Hi : ing dm res t) (Hat : Forall2 (hashed_at t) css hs) (Hnd : NoDup css).
Context (Hold : ∀ k, k ∈ hf_key <$> hs → jget k old = d_inodeId <$> dirents (t_db t) !! k).
Context (Hfill : Forall (fillable (t_db t) sandboxId) (hf_key <$> hs)).
Abbreviation now := (clock (t_db t)).
Abbreviation ids := (serials (next_id (t_db t)) (length hs)).
Abbreviation entries := ((λ fi : HashedFile * Z, (hf_path fi.1, file_entry_at now fi.1 fi.2)) <$> zip hs ids).

Local Lemma files_paths : path_of <$> css = hf_path <$> hs.
Proof. clear Hold Hfill Hnd. induction Hat as [|cs h css' hs' (ps & _ & _ & Hp & _) Hr IH]; [done|]. by rewrite !fmap_cons, (IH Hr), Hp. Qed.

Local Lemma entries_paths : entries.*1 = hf_path <$> hs.
Proof.
  rewrite <- list_fmap_compose. change (fst ∘ _) with (hf_path ∘ (fst : HashedFile * Z → _)). rewrite list_fmap_compose.
  by rewrite fst_zip by (rewrite serials_length; lia).
Qed.

Local Lemma files_valid : Forall valid_comps css.
Proof. clear Hold Hfill Hnd. induction Hat as [|cs h css' hs' (ps & _ & ? & _) Hr IH]; constructor; auto. Qed.

Local Lemma paths_NoDup : NoDup (hf_path <$> hs).
Proof.
  rewrite <- files_paths. apply NoDup_fmap_2_strong; [|done]. intros x y Hx Hy. pose proof files_valid as Hv.
  apply path_of_inj; by apply (proj1 (Forall_forall _ _) Hv).
Qed.

Local Lemma entries_rows : entries = zip (hf_path <$> hs) (zip_with entry_of ids (file_row now <$> hs)).
Proof.
  generalize (next_id (t_db t)). clear. induction hs as [|h l IH]; intros n; [done|]. cbn [length]. rewrite serials_S. cbn. f_equal. apply IH.
Qed.

Lemma write_files_spec :
  ∃ t', ingest_files old hs t = (Ok entries, t') ∧ in_tx t' sandboxId e ∧ wf_db (t_db t') ∧
    root_of (t_db t') sandboxId = Some root ∧ (∀ cs x, dir_at sandboxId root (t_db t) cs x → dir_at sandboxId root (t_db t') cs x) ∧
    ∃ w, coh sandboxId (realId []) w (t_db t') ∧
      ∀ k, view_get k w = overlay (fold_left (λ m pe, jset pe.1 pe.2 m) entries res) (λ k, view_get k v0) k.
Proof.
  pose proof (hashed_NoDup css hs dm res t Hi Hat Hnd) as Hndk. destruct (ing_tx _ _ _ _ _ _ Hi) as [Ht _].
  pose proof (ingest_files_run t old hs Ht (ing_wf _ _ _ _ _ _ Hi) Hndk Hfill Hold) as Hrun. set (nodes := zip (hf_key <$> hs) _) in Hrun.
  assert (Hk1 : nodes.*1 = hf_key <$> hs) by (apply fst_zip; by rewrite !length_fmap).
  assert (Hk2 : nodes.*2 = file_row now <$> hs) by (apply snd_zip; by rewrite !length_fmap).
  assert (Hkl : length nodes = length hs) by (rewrite <- (length_fmap fst), Hk1; apply length_fmap).
  assert (Hok : nodes_ok sandboxId nodes) by (by apply ingest_nodes_ok).
  assert (Hap : Forall2 (at_path sandboxId root (t_db t)) css nodes).
  { unfold nodes. clear -Hat. induction Hat as [|cs h css' hs' (ps & -> & Hv & _ & Hd) Hr IH]; [constructor|]. constructor; [|by apply IH]. exists ps. by split_and!. }
  destruct (ing_coh _ _ _ _ _ _ Hi) as (w & Hw & Hgw).
  destruct (put_nodes_coh sandboxId root nodes css (t_db t) w) as ((w' & Hw' & Hg') & Hkeep & _); try done; [apply Hi|apply Hi|by rewrite Hk1|].
  exists (on_db (put_nodes nodes) t). split_and!.
  - done.
  - apply in_tx_on_db; [apply Hi|]. by destruct (put_nodes_rest nodes (t_db t)) as (-> & _).
  - eapply wf_put_nodes; [apply Hi|done|by rewrite Hk1].
  - simpl. unfold root_of. destruct (put_nodes_rest nodes (t_db t)) as (-> & _). apply Hi.
  - exact Hkeep.
  - exists w'. split; [done|]. intros k. rewrite Hg', files_paths, Hk2, Hkl, <- entries_rows. unfold overlay.
    rewrite (jget_fold_jset fst snd) by (rewrite entries_paths; apply paths_NoDup).
    replace ((λ a : string * PathCacheEntry, (a.1, a.2)) <$> entries) with entries
      by (rewrite <- (list_fmap_id entries) at 1; apply list_fmap_ext; by intros ? [] ?).
    destruct (jget k entries); [done|]. apply Hgw.
Qed.
End write_files.

(** ** The dialect's call *)

Definition storable (f : BulkIngestFile) : Prop := bf_path f ≠ DEV_NULL ∧ starts_with (bf_path f) (DEV_NULL +:+ "/") = false.

(** What the facade has made of a file: a canonical path. *)
Definition canonical_file (f : BulkIngestFile) (cs : list string) : Prop := valid_comps cs ∧ bf_path f = path_of cs.

(** The check of the paths refuses the root and nothing else the facade lets through. *)
Lemma check_paths_spec files css : Forall2 canonical_file files css → Forall storable files →
  (check_ingest_paths files = Ok tt ∧ Forall2 ingestible files css) ∨
  ∃ f, f ∈ files ∧ bf_path f = "/" ∧ check_ingest_paths files = Err (EISDIR "/").
Proof.
  induction 1 as [|f cs files css (Hv & Hp) _ IH]; intros Hs; [left; by split|]. apply Forall_cons in Hs as [[Hd Hn] Hs]. cbn [check_ingest_paths].
  assert (resolvePath "/" (bf_path f) = bf_path f) as ->.
  { rewrite Hp. unfold resolvePath. change (starts_with (path_of cs) "/") with (starts_with ("/" +:+ join_slash cs) "/").
    rewrite starts_with_app. by apply path_of_normal. }
  case_decide as Hroot; [right; exists f; rewrite Hroot; split_and!; [apply list_elem_of_here|done|done]|].
  rewrite decide_False, Hn by done. destruct (IH Hs) as [[-> Hf]|(f' & Hin & ? & ->)].
  - left. split; [done|]. constructor; [|done]. split_and!; try done. intros ->. by apply Hroot.
  - right. exists f'. split_and!; [by apply list_elem_of_further|done|done].
Qed.

Lemma ingest_context_run t :
  in_tx t sandboxId e → root_of (t_db t) sandboxId = Some root → ingest_context (Some e) t = (Ok root, bump sandboxId t).
Proof.
  intros Hin Hr. unfold ingest_context, fenceAndAdvance. rewrite bindM_gets, (bindM_Ok _ _ _ _ _ (fence_in_tx t sandboxId e false Hin)).
  destruct (in_tx_sel_sandbox t _ _ Hin) as (row & -> & Hrow & _). unfold root_of in Hr. rewrite Hrow in Hr. simpl in Hr. by rewrite Hr.
Qed.

Lemma ing_start t :
  in_tx t sandboxId e → wf_db (t_db t) → root_of (t_db t) sandboxId = Some root → coh sandboxId (realId []) v0 (t_db t) →
  ing [("/", root)] [] (bump sandboxId t).
Proof.
  intros Hin Hwf Hr Hc. pose proof (wf_same_shape _ _ (bump_shape sandboxId t) Hwf) as Hwf'. split; [by apply bump_in_tx|done|by rewrite root_of_bump| | |done|constructor].
  - exists v0. split; [by apply coh_bump|done].
  - intros q x. simpl. case_decide as Hq; [|done]. intros [= <-]. exists []. split_and!; [constructor|done|]. split; [done|].
    rewrite <- (root_of_bump sandboxId) in Hr. apply root_of_Some in Hr as (row & Hrow & Hroot). destruct (wf_root _ Hwf' _ _ _ Hrow Hroot) as (r & ? & ? & ?). by exists r.
Qed.

Lemma coh_root_entry v d : wf_db d → root_of d sandboxId = Some root → coh sandboxId (realId []) v d →
  ∃ en, view_get "/" v = Some en ∧ kind en = DIRECTORY.
Proof.
  intros Hwf Hr Hc. destruct (coh_walk _ _ _ _ root [] root Hc Hr) as (en & Hen & _); [constructor|done|]. exists en. split; [done|].
  by eapply (coh_root_dir _ v d).
Qed.

(** The tree half before the blobs. *)
Lemma ingest_plan_spec files css t :
  in_tx t sandboxId e → wf_db (t_db t) → root_of (t_db t) sandboxId = Some root → coh sandboxId (realId []) v0 (t_db t) →
  Forall2 canonical_file files css → NoDup css → Forall storable files →
  match ingest_plan files (Some e) t with
  | (Ok (res, hs, old), t') =>
      ∃ dm, ing dm res t' ∧ Forall2 (hashes t') files hs ∧ Forall2 (hashed_at t') css hs ∧
        (∀ k, k ∈ hf_key <$> hs → jget k old = d_inodeId <$> dirents (t_db t') !! k) ∧ Forall (fillable (t_db t') sandboxId) (hf_key <$> hs) ∧
        (∀ q, is_Some (jget q res) → ∃ i, ancestor files i q) ∧ (∀ i q, ancestor files i q → is_Some (jget q dm))
  | (Err err, _) => conflict files err
  end.
Proof.
  intros Hin Hwf Hr Hc Hf0 Hnd Hst. unfold ingest_plan, lift_res at 1. unfold bindM at 1.
  destruct (check_paths_spec files css Hf0 Hst) as [[-> Hf]|(f & Hfin & Hfp & ->)].
  2:{ rewrite <- Hfp. constructor; [done|]. left. rewrite Hfp. by eapply (coh_root_entry v0). }
  rewrite (bindM_Ok _ _ _ _ _ (ingest_context_run t Hin Hr)). destruct (dirsByDepth_spec files) as (Hlev & _ & Hjwf).
  pose proof (ingest_dirs_spec files css (sortedDepths (dirsByDepth files)) _ _ _ Hf (ing_start t Hin Hwf Hr Hc)) as Hd.
  unfold bindM at 1. destruct (ingest_dirs _ _ _ _ _) as [[[dm res]|err] t1].
  2:{ destruct Hd as (i & q & Ha & -> & Hb); [done|by apply strongly_sorted_depths| |by econstructor].
      intros i q Hq. left. eapply sortedDepths_elem. by apply Hlev. }
  destruct Hd as (Hi & Hroot & Hanc & Hres); [done|by apply strongly_sorted_depths|intros i q Hq; left; eapply sortedDepths_elem; by apply Hlev|].
  assert (Hres' : ∀ q, is_Some (jget q res) → ∃ i, ancestor files i q) by (intros q Hq; destruct (Hres q Hq) as [[? ?]|]; done).
  destruct (hash_files_spec files css dm res t1 Hf Hi Hroot Hanc) as (hs & Hrun & Hh & Hat). unfold lift_res at 1, bindM at 1. cbn [fst snd]. rewrite Hrun, bindM_gets.
  unfold lift_res, bindM. destruct (existing_files hs _ []) as [old|err] eqn:E.
  - destruct (existing_ready css hs dm res t1 old Hi Hat E) as [Ho Hfl]. exists dm. by split_and!.
  - by eapply existing_conflict.
Qed.

(** ** Blobs change nothing else *)

Lemma commitBatch_blobs rows d : ∃ B, commitBatch rows d = set_blobs (λ _, B) d.
Proof.
  unfold commitBatch. revert d. induction rows as [|r rows IH]; intros d; [exists (blobs d); by destruct d|].
  destruct (IH (blob_row_upsert r.1 r.2 d)) as [B HB]. exists B. simpl. rewrite HB. done.
Qed.

Lemma ing_blobs dm res t B : ing dm res t → ing dm res (on_db (set_blobs (λ _, B)) t).
Proof.
  intros [H1 H2 H3 H4 H5 H6 H7]. split; try done.
  - eapply wf_same_shape; [apply same_shape_blobs|done].
  - destruct H4 as (w & Hw & Hg). exists w. split; [|done]. by apply (coh_frame _ _ _ (t_db t)).
Qed.

(** What a batch that succeeds returns. *)
Record ingested (files : list BulkIngestFile) (result : list (string * PathCacheEntry)) : Prop := {
  ind_keys : jwf result;
  ind_files f : f ∈ files → ∃ id now,
    jget (bf_path f) result = Some (mkEntry id FILE (bf_mode f) (str_len (bf_content f)) now (Some (sha256 (bf_content f))) None);
  ind_dirs i q : ancestor files i q → ∃ en, overlay result (λ k, view_get k v0) q = Some en ∧ kind en = DIRECTORY;
  ind_free f en : f ∈ files → view_get (bf_path f) v0 = Some en → kind en ≠ DIRECTORY;
  ind_only q en : jget q result = Some en →
    (∃ f, f ∈ files ∧ bf_path f = q) ∨ (kind en = DIRECTORY ∧ view_get q v0 = None ∧ ∃ i, ancestor files i q)
}.

Section result.
Context (files : list BulkIngestFile) (css : list (list string)) (hs : list HashedFile) (res : list (string * PathCacheEntry)) (ids : list Z) (now : Z) (t : tx).
Context (Hh : Forall2 (hashes t) files hs) (Hids : length ids = length hs) (Hnd : NoDup (hf_path <$> hs)).
Abbreviation entries := ((λ fi : HashedFile * Z, (hf_path fi.1, file_entry_at now fi.1 fi.2)) <$> zip hs ids).
Abbreviation result := (fold_left (λ m pe, jset pe.1 pe.2 m) entries res).

Local Lemma result_get k : jget k result = match jget k entries with Some en => Some en | None => jget k res end.
Proof.
  assert (Hp : entries.*1 = hf_path <$> hs).
  { rewrite <- list_fmap_compose. change (fst ∘ _) with (hf_path ∘ (fst : HashedFile * Z → _)). rewrite list_fmap_compose. by rewrite fst_zip by lia. }
  rewrite (jget_fold_jset fst snd) by (by rewrite Hp).
  replace ((λ a : string * PathCacheEntry, (a.1, a.2)) <$> entries) with entries; [done|].
  rewrite <- (list_fmap_id entries) at 1. apply list_fmap_ext. by intros ? [] ?.
Qed.

Lemma result_file f : f ∈ files → ∃ id,
  jget (bf_path f) result = Some (mkEntry id FILE (bf_mode f) (str_len (bf_content f)) now (Some (sha256 (bf_content f))) None).
Proof.
  intros [j Hj]%list_elem_of_lookup. destruct (Forall2_lookup_l _ _ _ _ _ Hh Hj) as (h & Hhj & E1 & E2 & E3 & E4).
  destruct (lookup_lt_is_Some_2 ids j) as [id Hid]; [rewrite Hids; by eapply lookup_lt_Some|]. exists id. rewrite result_get.
  assert (Hin : (hf_path h, file_entry_at now h id) ∈ entries).
  { apply list_elem_of_fmap. exists (h, id). split; [done|]. apply list_elem_of_lookup. exists j. by apply lookup_zip_Some. }
  assert (Hwf : jwf entries).
  { unfold jwf. rewrite <- list_fmap_compose. change (fst ∘ _) with (hf_path ∘ (fst : HashedFile * Z → _)). rewrite list_fmap_compose. by rewrite fst_zip by lia. }
  apply (jget_Some _ _ _ Hwf) in Hin. rewrite E1 in Hin. rewrite Hin. unfold file_entry_at. by rewrite E2, E3, E4.
Qed.

Lemma result_other q en : jget q result = Some en → (∃ f, f ∈ files ∧ bf_path f = q) ∨ jget q res = Some en.
Proof.
  rewrite result_get. destruct (jget q entries) as [en'|] eqn:E; [|by right]. intros _. left.
  apply jget_elem, list_elem_of_fmap in E as ([h id] & [= -> _] & Hin). apply elem_of_zip_l, list_elem_of_lookup in Hin as [j Hj].
  destruct (Forall2_lookup_r _ _ _ _ _ Hh Hj) as (f & Hf & E1 & _). exists f. split; [apply list_elem_of_lookup; by exists j|done].
Qed.
End result.

(** The whole call: it throws what stands in the way, having changed nothing but
    this transaction, or returns entries that are the new tree. *)
Lemma bulkIngest_spec files css s t :
  in_tx t sandboxId e → wf_db (t_db t) → root_of (t_db t) sandboxId = Some root → coh sandboxId (realId []) v0 (t_db t) →
  files ≠ [] → Forall2 canonical_file files css → NoDup css → Forall storable files →
  match bulkIngest files (Some e) (s, t) with
  | (Ok result, (s', t')) =>
      (s' = s ∨ ∃ rows, s' = set_db (commitBatch rows (s_db s)) s) ∧ in_tx t' sandboxId e ∧ wf_db (t_db t') ∧
      ingested files result ∧
      ∃ w, coh sandboxId (realId []) w (t_db t') ∧ ∀ k, view_get k w = overlay result (λ k, view_get k v0) k
  | (Err err, (s', _)) => conflict files err ∧ s' = s
  end.
Proof.
  intros Hin Hwf Hr Hc Hne Hf Hnd Hst. unfold bulkIngest. rewrite decide_False by (by destruct files).
  pose proof (ingest_plan_spec files css t Hin Hwf Hr Hc Hf Hnd Hst) as Hp. unfold onTx at 1. unfold bindM at 1. cbn [fst snd].
  destruct (ingest_plan files (Some e) t) as [[[[res hs] old]|err] t1]; [|done].
  destruct Hp as (dm & Hi & Hh & Hat & Hold & Hfill & Hres & Hanc).
  set (blobs_step := if decide _ then retM tt else _).
  assert (Hb : ∃ s1 B, blobs_step (s, t1) = (Ok tt, (s1, on_db (set_blobs (λ _, B)) t1)) ∧ (s1 = s ∨ ∃ rows, s1 = set_db (commitBatch rows (s_db s)) s)).
  { unfold blobs_step. case_decide.
    - exists s, (blobs (t_db t1)). split; [by destruct t1 as [[]]|by left].
    - destruct (commitBatch_blobs (uniqueBlobs hs) (t_db t1)) as [B HB]. eexists _, B. split; [|right; by eexists].
      unfold commit_blobs, modifyS. simpl. unfold on_db. by rewrite HB. }
  destruct Hb as (s1 & B & Hb & Hs1). rewrite (bindM_Ok _ _ _ _ _ Hb). set (t2 := on_db _ t1) in *.
  destruct (write_files_spec css hs dm res t2 old) as (t3 & Hrun & Hin3 & Hwf3 & Hr3 & Hkeep & w & Hw & Hg); try done.
  { by apply ing_blobs. }
  unfold onTx, bindM. cbn [fst snd]. rewrite Hrun. cbn [retM]. unfold retM. split_and!; try done; [|by exists w].
  pose proof (paths_NoDup css hs t2 Hat Hnd) as Hndp. split.
  - pose proof (ing_keys _ _ _ _ _ _ Hi) as Hk. clear -Hk. revert res Hk. induction (_ <$> zip hs _) as [|pe l IH]; intros m Hm; [done|]. simpl. by apply IH, jset_wf.
  - intros f Hfin. destruct (result_file files hs res (serials (next_id (t_db t2)) (length hs)) (clock (t_db t2)) t1 Hh (serials_length _ _) Hndp f Hfin) as [id Hid]. by eexists _, _.
  - intros i q Hq. destruct (Hanc i q Hq) as [x Hx]. destruct (ing_map _ _ _ _ _ _ Hi _ _ Hx) as (cs & Hv & -> & Hd). destruct (Hkeep cs x Hd) as [Hw3 (r & Hxr & Hk & _)].
    destruct (coh_walk _ _ _ _ root cs x Hw Hr3 Hv Hw3) as (en & Hen & _). destruct (coh_some _ _ _ _ Hw root cs en Hr3 Hv Hen) as (x' & r' & _ & Hw' & Hr' & (Hkk & _)).
    exists en. rewrite <- Hg. split; [done|congruence].
  - intros f en Hfin Hen. by eapply (fillable_free files css hs).
  - intros q en Hq. destruct (result_other files hs res (serials (next_id (t_db t2)) (length hs)) (clock (t_db t2)) t1 Hh (serials_length _ _) Hndp q en Hq) as [|Hq']; [by left|].
    right. destruct (ing_new _ _ _ _ _ _ Hi _ _ Hq') as [? ?]. split_and!; try done. apply Hres. by eexists.
Qed.
End sound.

(** ** The session operation *)

(** Publishing the entries of a batch. *)
Abbreviation sets result := ((λ pe : string * PathCacheEntry, ChSet pe.1 pe.2) <$> result).

Section session.
Context `{Config} `{Lru}.

(** The batch as the namespace operation gets it. *)
Definition normal_batch (files : list BulkIngestFile) (css : list (list string)) : Prop :=
  files ≠ [] ∧ Forall2 canonical_file files css ∧ NoDup css ∧ Forall storable files.

Lemma Inv_batch rows s : Inv s → Inv (set_db (commitBatch rows (s_db s)) s).
Proof.
  unfold commitBatch. revert s. induction rows as [|r rows IH]; intros s HI; [by destruct s|].
  change (Inv (set_db (fold_left (λ d row, blob_row_upsert row.1 row.2 d) rows (s_db (set_db (commitBlob r.1 r.2 (s_db s)) s)))
    (set_db (commitBlob r.1 r.2 (s_db s)) s))).
  by apply IH, Inv_blob.
Qed.

(** The committed state changed by blobs alone. *)
Definition blobs_only (s s' : Sys) : Prop :=
  s_view s' = s_view s ∧ s_pers s' = s_pers s ∧ ∃ B, s_db s' = set_blobs (λ _, B) (s_db s).

Lemma same_core_blobs s s' : same_core s s' → blobs_only s s'.
Proof. intros (Hd & Hv & Hp). split_and!; try done. exists (blobs (s_db s)). rewrite Hd. by destruct (s_db s). Qed.

Lemma batch_blobs rows s : blobs_only s (set_db (commitBatch rows (s_db s)) s).
Proof. split_and!; try done. apply commitBatch_blobs. Qed.

Lemma Inv_blobs_only s s' : blobs_only s s' → Inv s → Inv s'.
Proof.
  intros (Hv & Hp & B & Hd) [H1 H2 H3 H4]. split; rewrite ?Hv, ?Hp, ?Hd; try done.
  - eapply wf_same_shape; [apply same_shape_blobs|done].
  - intros Hpo. destruct (H4 Hpo) as (v0 & He & (Ha & Hset & Hgone) & Hj). exists v0. split_and!; [done|split_and!; [done| |done]|done].
    intros row Hrow. destruct (Hset row Hrow) as [Hle Hc]. split; [done|]. intros Heq. by apply (coh_frame _ _ _ (s_db s)), Hc.
Qed.

(** The transaction of a batch. *)
Lemma bulk_write_spec v s files css :
  at_view v s → scriptScope (s_pers s) = false → normal_batch files css →
  match write (λ rc, bulkIngest files (Some (expectedEpoch rc))) s with
  | (Ok (pub, result), s') =>
      s_view s' = v ∧ s_pers s' = s_pers s ∧ ingested v files result ∧
      ∃ row w, sandboxes (s_db s') !! sandboxId = Some row ∧ pub = Committed (s_version row) ∧ wf_db (s_db s') ∧
        coh sandboxId (realId []) w (s_db s') ∧ ∀ k, view_get k w = overlay result (λ k, view_get k v) k
  | (Err err, s') =>
      blobs_only s s' ∧
      ((∀ n, s_lease s n = None) → (∃ row, sandboxes (s_db s) !! sandboxId = Some row ∧ s_version row = v_epoch v) → conflict v files err)
  end.
Proof.
  intros Ha Hsc (Hne & Hf & Hnd & Hst). pose proof Ha as [HI Hv Hp Hok]. rewrite <- Hv in Hp.
  destruct (Inv_settled s HI Hp Hsc) as [(_ & Hset & _) _]. pose proof (inv_rest _ _ _ HI) as Hrest.
  unfold write, withWriteTx. unfold bindM at 1, inTx. pose proof (admits_write s) as Hpre.
  rewrite <- bindM_assoc. unfold bindM at 1. destruct ((onTx (setSandboxContextWithLock sandboxId) ;;; checkEpoch) (s, mkTx (s_db s) None None)) as [[[]|err] [s1 t]] eqn:Epre.
  2:{ split; [by apply same_core_blobs|]. intros _ (row & Hrow & Hver). unfold bindM in Epre. destruct (onTx _ _) as [r st] eqn:EL. apply lock_spec in EL.
      rewrite Hrow in EL. destruct EL as [-> ->]. rewrite (checkEpoch_spec _ _ row), Hv, Hver, decide_True in Epre by done. done. }
  destruct Hpre as ((Hd1 & Hv1 & Hp1) & row & Hrow & Hver & ->).
  assert (Hl1 : s_lease s1 = s_lease s).
  { unfold bindM in Epre. destruct (onTx _ _) as [r st] eqn:EL. apply lock_spec in EL. rewrite Hrow in EL. destruct EL as [-> ->].
    rewrite (checkEpoch_spec _ _ row) in Epre by done. case_decide; [|done]. by injection Epre as <-. }
  assert (Hrep : expectedEpoch (replay s1) = v_epoch v) by (unfold replay; simpl; by rewrite Hp1, (rest_epoch _ Hrest), Hv1, Hv).
  set (t0 := mkTx (s_db s) (Some sandboxId) (Some (s_version row))).
  assert (Hc : coh sandboxId (realId []) v (s_db s)) by (rewrite <- Hv; by apply (Hset row Hrow)).
  destruct (coh_root _ _ _ _ Hc) as (root & Hroot).
  assert (Hin : in_tx t0 sandboxId (v_epoch v)) by (split; [done|]; exists row; simpl; split_and!; [done..|rewrite <- Hv; lia]).
  pose proof (bulkIngest_spec root (v_epoch v) v files css s1 t0 Hin (inv_wf _ _ _ HI) Hroot Hc Hne Hf Hnd Hst) as Hb.
  rewrite <- Hrep in Hb. unfold bindM at 1. cbn [fst snd]. destruct (bulkIngest files _ (s1, t0)) as [[result|err] [s2 t2]].
  2:{ destruct Hb as [Hcf ->]. split; [by apply same_core_blobs|done]. }
  destruct Hb as (Hs2 & Hin2 & Hwf2 & Hing & w & Hw & Hg). destruct (observe_spec s2 t2 _ Hin2) as (row2 & Hrow2 & Hobs).
  rewrite (bindM_Ok _ _ _ _ _ Hobs). unfold onSys, bindM. cbn [fst snd].
  assert (Hb12 : blobs_only s s2).
  { destruct Hs2 as [->|[rows ->]]; [by apply same_core_blobs|]. destruct (batch_blobs rows s1) as (E1 & E2 & B & E3).
    split_and!; [simpl; congruence|simpl; congruence|]. exists B. by rewrite E3, Hd1. }
  destruct (assertLease s2) as [[[]|err] s3] eqn:EL; pose proof EL as EL'; apply assertLease_inv in EL as ->.
  2:{ split; [exact Hb12|]. intros Hl. assert (Hl2 : s_lease s2 = s_lease s) by (destruct Hs2 as [->|[rows ->]]; exact Hl1).
      unfold assertLease in EL'. by rewrite Hl2, Hl in EL'. }
  destruct Hb12 as (E1 & E2 & _). cbn. split_and!; [congruence|done|done|]. exists row2, w. by split_and!.
Qed.

Lemma get_sets result v k : jwf result → view_get k (fold_left apply_change (sets result) v) = overlay result (λ k, view_get k v) k.
Proof.
  revert v. induction result as [|[q en] l IH]; intros v Hwf; [done|]. apply NoDup_cons in Hwf as [Hn Hwf]. rewrite fmap_cons. cbn [fold_left apply_change fst snd].
  rewrite IH by done. unfold overlay. cbn [jget]. rewrite get_cacheSet. destruct (decide (q = k)) as [<-|]; [|by rewrite (decide_False (P := k = q)) by congruence].
  rewrite decide_True by done. by rewrite (proj2 (jget_None q l) Hn).
Qed.

Lemma sets_from v result : Forall (change_from v (inodeId <$> result.*2)) (sets result).
Proof.
  apply Forall_forall. intros c ([q en] & -> & Hin)%list_elem_of_fmap. left. apply list_elem_of_fmap. exists en. split; [done|].
  apply list_elem_of_fmap. by exists (q, en).
Qed.

Lemma ingested_publish v s pub files result contents :
  s_view s = v → view_ok v → v_poisoned v = false → at_rest (s_pers s) → scriptScope (s_pers s) = false → ingested v files result →
  (∃ row w, sandboxes (s_db s) !! sandboxId = Some row ∧ pub = Committed (s_version row) ∧ wf_db (s_db s) ∧
     coh sandboxId (realId []) w (s_db s) ∧ ∀ k, view_get k w = overlay result (λ k, view_get k v) k) →
  post (publish pub (sets result) contents true) s (λ _ s', at_view (s_view s') s').
Proof.
  intros Hv Hok Hp Hrest Hsc Hing (row & w & Hrow & -> & Hwf & Hw & Hg).
  eapply (publish_last v s _ (inodeId <$> result.*2) w); [by apply committed_completes|done|done|done| |apply sets_from].
  intros k. rewrite Hg. apply get_sets, Hing.
Qed.

Lemma bulkIngestAt_sound files css : normal_batch files css → sound (bulkIngestAt files).
Proof.
  intros Hn v s Ha. unfold bulkIngestAt. quietly Ha. apply bind_gets. guarded Ha Hb. apply post_bind.
  match goal with |- post _ ?s1 _ => rename s1 into s2 end.
  pose proof (bulk_write_spec v s2 files css Ha Hb Hn) as Hw. unfold post.
  destruct (write _ s2) as [[[pub result]|err] s3]; [|eapply Inv_blobs_only; [exact (proj1 Hw)|apply Ha]].
  destruct Hw as (Hv & Hp & Hing & Hcom). apply bind_gets.
  pose proof (inv_rest _ _ _ (av_inv _ _ Ha)) as Hrest. eapply (ingested_publish v); rewrite ?Hp; try done; apply Ha.
Qed.

Lemma normalize_ingest_spec seen files fs' :
  normalize_ingest seen files = Ok fs' →
  ∃ css, Forall2 canonical_file fs' css ∧ NoDup css ∧ Forall storable fs' ∧ Forall (λ f, bf_path f ∉ seen) fs' ∧ length fs' = length files.
Proof.
  revert seen fs'. induction files as [|f files IH]; intros seen fs'; [intros [= <-]; exists []; by split_and!; try constructor|]. cbn [normalize_ingest].
  destruct (validatePath (bf_path f)) as [q|] eqn:Eq; [|done]. destruct (assertStoredPath q "bulkIngest") eqn:Es; [|done].
  case_decide as Hseen; [done|]. destruct (normalize_ingest (q :: seen) files) as [fs|] eqn:E; [|done]. intros [= <-].
  destruct (IH _ _ E) as (css & Hf & Hnd & Hst & Hs & Hl). destruct (validatePath_canonical _ _ Eq) as (cs & Hv & ->).
  exists (cs :: css). split_and!.
  - by constructor.
  - constructor; [|done]. intros [j Hj]%list_elem_of_lookup. destruct (Forall2_lookup_r _ _ _ _ _ Hf Hj) as (f' & Hf' & _ & Hp).
    pose proof (proj1 (Forall_forall _ _) Hs f' (list_elem_of_lookup_2 _ _ _ Hf')) as Hn. cbv beta in Hn. rewrite Hp in Hn. apply Hn, list_elem_of_here.
  - constructor; [|done]. unfold storable. cbn [bf_path]. unfold assertStoredPath in Es. unfold validatePath in Eq. repeat case_match; simplify_eq; split; congruence.
  - constructor; [done|]. eapply Forall_impl; [exact Hs|]. intros f' Hn Hin. apply Hn. by apply list_elem_of_further.
  - simpl. by rewrite Hl.
Qed.

Lemma normalize_batch files fs' : files ≠ [] → normalize_ingest [] files = Ok fs' → ∃ css, normal_batch fs' css.
Proof.
  intros Hne E. destruct (normalize_ingest_spec [] files fs' E) as (css & ? & ? & ? & _ & Hl). exists css. split_and!; try done.
  intros ->. by destruct files.
Qed.

Lemma fs_bulkIngest_sound files : sound (fs_bulkIngest files).
Proof.
  intros v s Ha. unfold fs_bulkIngest. case_decide as Hl; [by eapply at_self|]. eapply bind_lift; [done|]. intros fs' Hfs.
  destruct (normalize_batch files fs') as [css Hn]; [by intros ->|done|]. unfold ns_bulkIngest.
  eapply withNamespaceMutation_sound; [|done]. by eapply bulkIngestAt_sound.
Qed.
End session.
