(* ===== verification/Scopes.v ===== *)
(** Loading the committed view, and what the end of a script scope does.

    [loadCommittedView] installs a view coherent with the database at the epoch
    it read. [finish] either commits the whole journal, in which case
    [publishScope] leaves a view coherent with the committed tree under real
    ids, or changes nothing in the database. *)

From S2P Require Import Prelude Errors Paths Store Tree Dialect Lifecycle LoadPaths View Session Namespace Coherence Simulation Journal Invariant Mutate Handlers SqlFs.

Section load.
Context `{Config}.

(** [new Map(rows)] of rows with distinct paths is the rows. *)
Lemma map_of_rows_app rows m : NoDup (m.*1 ++ rows.*1) → map_of_rows rows m = m ++ rows.
Proof.
  revert m. induction rows as [|[p e] rows IH]; intros m Hnd; [by rewrite app_nil_r|]. simpl.
  assert (Hn : p ∉ m.*1).
  { apply NoDup_app in Hnd as (_ & Hd & _). intros Hin. apply (Hd _ Hin). apply list_elem_of_here. }
  assert (Hj : jset p e m = m ++ [(p, e)]) by (rewrite <- (app_nil_r m) at 1; by rewrite jset_app_new).
  rewrite Hj, IH; [by rewrite <- app_assoc|]. rewrite fmap_app, <- app_assoc. done.
Qed.

(** A view with the loaded rows is coherent with the database they came from. *)
Lemma loaded_coherent t root rows v epoch :
  wf_db (t_db t) → t_sandbox t = Some sandboxId → root_of (t_db t) sandboxId = Some root →
  loadAllPaths t = (Ok rows, t) →
  coh sandboxId (realId []) (install epoch (map_of_rows rows []) v) (t_db t) ∧
  ids_above (-1) (install epoch (map_of_rows rows []) v).
Proof.
  intros Hwf Hctx Hroot Hrows. destruct (load_rows t sandboxId root Hwf Hctx Hroot) as (rows' & Hrows' & Hjwf & Hiff).
  assert (rows' = rows) as -> by congruence. rewrite map_of_rows_app, app_nil_l by done.
  assert (Hget : ∀ p en, view_get p (install epoch rows v) = Some en ↔
    ∃ cs id r, walk (dirents (t_db t)) root cs = Some id ∧ inodes (t_db t) !! id = Some r ∧ p = path_of cs ∧ en = entry_of id r).
  { intros p en. unfold view_get. simpl. rewrite jget_Some by done. apply Hiff. }
  assert (Hat : ∀ cs en, valid_comps cs → view_get (path_of cs) (install epoch rows v) = Some en →
    ∃ id r, walk (dirents (t_db t)) root cs = Some id ∧ inodes (t_db t) !! id = Some r ∧ en = entry_of id r ∧ 0 ≤ id).
  { intros cs en Hv (cs' & id & r & Hw & Hi & Hp & ->)%Hget. exists id, r.
    apply path_of_inj in Hp as ->; [|done|by eapply (walk_valid (t_db t) Hwf)]. split_and!; try done.
    pose proof (wf_fresh _ Hwf id (mk_is_Some _ _ Hi)). lia. }
  split.
  - split.
    + split; [done | done].
    + intros p [en (cs & id & r & Hw & _ & -> & _)%Hget]. exists cs. split; [by eapply (walk_valid (t_db t) Hwf) | done].
    + by exists root.
    + intros root' cs en Hr' Hv Hg. assert (root' = root) as -> by congruence.
      destruct (Hat cs en Hv Hg) as (id & r & Hw & Hi & -> & Hpos). exists id, r. rewrite realId_pos by done. by split_and!.
    + intros root' cs Hr' Hv Hg. assert (root' = root) as -> by congruence.
      destruct (walk (dirents (t_db t)) root cs) as [id|] eqn:E; [|done].
      destruct (walk_inode (t_db t) Hwf sandboxId root cs id Hroot E) as (r & Hr & _).
      assert (view_get (path_of cs) (install epoch rows v) = Some (entry_of id r)) as Hs by (apply Hget; by exists cs, id, r). congruence.
    + intros k1 k2 e1 e2 rid (cs1 & i1 & r1 & _ & Hi1 & _ & ->)%Hget (cs2 & i2 & r2 & _ & Hi2 & _ & ->)%Hget. simpl.
      pose proof (wf_fresh _ Hwf i1 (mk_is_Some _ _ Hi1)). pose proof (wf_fresh _ Hwf i2 (mk_is_Some _ _ Hi2)).
      rewrite !realId_pos by lia. congruence.
  - intros p en (cs & id & r & _ & Hi & _ & ->)%Hget. simpl. pose proof (wf_fresh _ Hwf id (mk_is_Some _ _ Hi)). lia.
Qed.

Lemma quiet_check_loaded l : quiet (check_loaded l).
Proof. induction l as [|p l IH]; [done|]. simpl. auto 10 with quiet. Qed.

(** The view is coherent with the database at the present epoch. *)
Definition current (v : View) (d : db) : Prop :=
  v_poisoned v = false ∧ ids_above (-1) v ∧ coh sandboxId (realId []) v d ∧
  ∃ row, sandboxes d !! sandboxId = Some row ∧ v_epoch v = s_version row.

Lemma current_settled v d : current v d → settled v d.
Proof. intros (_ & Ha & Hc & row & Hr & He). split; [done|]. split; [|congruence]. intros row' Hr'. assert (row' = row) as -> by congruence. split; [lia | done]. Qed.

(** The load: it fails and nothing changes, or it leaves the view current. *)
Lemma load_spec force s :
  wf_db (s_db s) → scriptScope (s_pers s) = false → (force = false → Inv s) →
  match loadCommittedView force s with
  | (Err _, s') => same_core s s'
  | (Ok _, s') => s_db s' = s_db s ∧ s_pers s' = s_pers s ∧ current (s_view s') (s_db s') ∧ view_ok (s_view s')
  end.
Proof.
  intros Hwf Hsc HI. unfold loadCommittedView, readSnapshot, inTx.
  set (t := mkTx (s_db s) (Some sandboxId) None).
  assert (Hvis : ∀ sb, sb = sandboxId → visible t sb = true).
  { intros sb ->. unfold visible. simpl. by rewrite (bool_decide_eq_true_2 (sandboxId = sandboxId)), orb_true_r. }
  unfold onTx at 1, setSandboxContext. unfold bindM at 1. unfold bindM at 1. cbv beta iota. cbn [fst snd t_db t_epoch].
  fold t. unfold onTx at 1, getSandboxEpoch. unfold bindM at 1. cbn [fst snd]. unfold sel_sandbox. cbn [t_db t].
  destruct (sandboxes (s_db s) !! sandboxId) as [row|] eqn:Erow; [|done]. rewrite Hvis by done. mnorm. cbn [fst snd].
  destruct (_ && bool_decide (s_version row = v_epoch (s_view s))) eqn:Efresh.
  { unfold retM, bindM, assertAlive. cbn. rewrite Hsc. apply andb_true_iff in Efresh as [[[Hf%negb_true_iff Hnp%negb_true_iff]%andb_true_iff _]%andb_true_iff He%bool_decide_eq_true].
    destruct (Inv_settled s (HI Hf) Hnp Hsc) as [(Ha & Hset & _) Hok]. destruct (Hset row Erow) as [_ Hc].
    split_and!; try done. split_and!; [done|done|by apply Hc|by exists row]. }
  unfold onTx. unfold bindM at 1. cbn [fst snd].
  destruct (root_of (s_db s) sandboxId) as [root|] eqn:Eroot.
  - destruct (load_rows t sandboxId root Hwf eq_refl Eroot) as (rows & Hrows & _). rewrite Hrows.
    unfold throw_if. destruct (bool_decide (length rows = 0%nat)); [done|]. unfold retM, bindM at 1. cbn [fst snd].
    unfold assertAlive. unfold bindM at 1. cbn [s_pers set_db]. rewrite Hsc.
    set (s1 := set_db _ s). pose proof (quiet_check_loaded (jkeys (map_of_rows rows [])) s1) as Hq. unfold bindM at 1.
    destruct (check_loaded _ s1) as [[[]|e] s2]; [|by destruct Hq as (? & ? & ?)].
    destruct Hq as (Hd2 & Hv2 & Hp2). unfold bindM, modifyS, retM. simpl in *.
    destruct (loaded_coherent t root rows (s_view s2) (s_version row) Hwf eq_refl Eroot Hrows) as [Hc Ha].
    split_and!; [done|done| |apply Hc]. rewrite Hd2. split_and!; [done|done|done|by exists row].
  - assert (loadAllPaths t = (Ok [], t)) as ->.
    { unfold loadAllPaths, liftS. simpl. unfold sel_sandbox. simpl. rewrite Erow, Hvis by done. simpl.
      unfold root_of in Eroot. rewrite Erow in Eroot. simpl in Eroot. by rewrite Eroot. }
    done.
Qed.
End load.

Section scopes.
Context `{Config} `{Lru}.

(** Between the end of a scope and the recovery of its view. *)
Record resting (s : Sys) : Prop := {
  rg_wf : wf_db (s_db s);
  rg_rest : at_rest (s_pers s);
  rg_scope : scriptScope (s_pers s) = false;
  rg_journal : mutations (s_pers s) = []
}.

Lemma Inv_resting s : Inv s → scriptScope (s_pers s) = false → resting s.
Proof. intros [H1 H2 H3 H4] Hsc. split; [done..|]. by apply H2. Qed.

Lemma current_Inv s : resting s → current (s_view s) (s_db s) → view_ok (s_view s) → Inv s.
Proof. intros [] Hc Hok. apply settled_Inv; [done..|]. by apply current_settled. Qed.

Lemma poisoned_Inv s : resting s → v_poisoned (s_view s) = true → Inv s.
Proof. intros [] Hp. split; [done..|]. congruence. Qed.

Lemma resting_core s s' : s_db s' = s_db s → s_pers s' = s_pers s → resting s → resting s'.
Proof. intros Hd Hp []. split; rewrite ?Hd, ?Hp; done. Qed.

Lemma current_set_dirty v d b : current v d → current (set_dirty b v) d.
Proof. intros (H1 & H2 & H3 & H4). split_and!; [done|done| |done]. eapply coh_ext; [| |exact H3]; [done|apply H3]. Qed.

Lemma recover_run s :
  scriptScope (s_pers s) = false →
  recoverCommittedView s = match loadCommittedView true s with
                           | (Ok _, s1) => (Ok tt, on_view (set_dirty false) s1)
                           | (Err _, s1) => (Ok tt, on_view (set_poisoned true) s1)
                           end.
Proof.
  intros Hsc. unfold recoverCommittedView, catch, reload.
  assert (Hal : assertAlive s = (Ok tt, s)) by (unfold assertAlive; by rewrite Hsc).
  rewrite bindM_assoc, (bindM_Ok _ _ _ _ _ Hal), bindM_assoc, bindM_gets, Hsc, bindM_assoc. unfold bindM at 1.
  by destruct (loadCommittedView true s) as [[b|e] s1].
Qed.

(** The recovery: the view is current again, or it is poisoned. *)
Lemma recover_spec s :
  resting s →
  let s' := (recoverCommittedView s).2 in
  Inv s' ∧ s_db s' = s_db s ∧ s_pers s' = s_pers s ∧ (current (s_view s') (s_db s') ∨ v_poisoned (s_view s') = true).
Proof.
  intros Hr. rewrite recover_run by apply Hr.
  pose proof (load_spec true s (rg_wf _ Hr) (rg_scope _ Hr)) as Hl. specialize (Hl ltac:(done)).
  destruct (loadCommittedView true s) as [[b|e] s1].
  - destruct Hl as (Hd & Hp & Hc & Hok). simpl.
    assert (Hc' : current (set_dirty false (s_view s1)) (s_db s1)) by by apply current_set_dirty.
    split_and!; [|done|done|by left]. apply (current_Inv (on_view (set_dirty false) s1)); [|done|done]. by eapply resting_core.
  - destruct Hl as (Hd & Hv & Hp). simpl. split_and!; [|done|done|by right].
    apply poisoned_Inv; [|done]. by eapply resting_core.
Qed.

Lemma recover_ok s : (recoverCommittedView s).1 = Ok tt.
Proof. unfold recoverCommittedView, catch. by destruct ((reload ;;; clearDirty) s) as [[[]|e] s']. Qed.

(** ** Beginning and aborting *)

Lemma begin_keeps s : Inv s → Inv (begin s).2.
Proof.
  intros HI. unfold begin. unfold bindM at 1. pose proof (quiet_assertAlive s) as Hq.
  destruct (assertAlive s) as [[[]|e] s1]; [|by eapply Inv_core]. assert (HI1 : Inv s1) by by eapply Inv_core.
  clear HI Hq. rewrite bindM_gets. unfold throw_if. destruct (scriptScope (s_pers s1)) eqn:Hsc; [done|].
  destruct HI1 as [H1 H2 H3 H4]. pose proof (rest_idle _ H2 Hsc) as Hm. destruct H2. split; simpl; [done|by split|done|].
  intros Hp. destruct (H4 Hp) as (v0 & He & Hset & Hj). rewrite Hm in Hj. by exists v0.
Qed.

(** Closing a scope that recorded nothing. *)
Lemma close_empty d v p :
  mutations p = [] → inv d v p → inv d v (discardMutations (clearTransaction (set_scope false p))).
Proof.
  intros Hm [H1 [] H3 H4]. split; simpl; [done|by split|done|]. intros Hp. destruct (H4 Hp) as (v0 & He & Hset & Hj).
  rewrite Hm in Hj. by exists v0.
Qed.

Lemma abortScriptScope_keeps s : Inv s → Inv (abortScriptScope s).2 ∧ s_db (abortScriptScope s).2 = s_db s ∧
  (scriptScope (s_pers s) = true → scriptScope (s_pers (abortScriptScope s).2) = false).
Proof.
  intros HI. unfold abortScriptScope, abort. rewrite bindM_assoc, bindM_gets.
  destruct (scriptScope (s_pers s)) eqn:Hsc; [|by rewrite bindM_ret].
  rewrite bindM_assoc, bindM_modify, bindM_ret. case_bool_decide as Hlen; simpl.
  - apply nil_length_inv in Hlen. split_and!; [|done|done]. apply (close_empty _ _ _ Hlen HI).
  - set (s1 := on_pers _ s). destruct (recover_spec s1) as (Hi & Hd & Hp & _); [|split_and!; [done|done|]].
    + destruct HI as [H1 [] H3 H4]. by split.
    + intros _. by rewrite Hp.
Qed.

Lemma abort_outcome e s r s' :
  Inv s → scriptScope (s_pers s) = true → (abortScriptScope ;;; (throw e : sysM unit)) s = (r, s') →
  scriptScope (s_pers s') = false ∧ (∃ e', r = Err e') ∧ s_db s' = s_db s ∧
  (mutations (s_pers s) = [] ∨ current (s_view s') (s_db s') ∨ v_poisoned (s_view s') = true).
Proof.
  intros HI Hsc. unfold abortScriptScope, abort. rewrite !bindM_assoc, bindM_gets, Hsc.
  rewrite !bindM_assoc, bindM_modify, bindM_ret. case_bool_decide as Hlen; simpl.
  - apply nil_length_inv in Hlen. intros [= <- <-]. split_and!; [done|by eexists|done|by left].
  - set (s1 := on_pers _ s). unfold bindM. destruct (recover_spec s1) as (_ & Hd & Hp & Hor).
    { destruct HI as [H1 [] H3 H4]. by split. }
    pose proof (recover_ok s1) as Hok. destruct (recoverCommittedView s1) as [r1 s2]. simpl in *. subst r1.
    intros [= <- <-]. split_and!; [by rewrite Hp|by eexists|done|by right].
Qed.

(** ** The flush *)

(** The transaction of [flushMutations] on a non-empty journal. *)
Definition flush_body (ops : list BufferedMutation) : stM Z :=
  onTx (setSandboxContextWithLock sandboxId) ;;;
  onSys assertAlive ;;;
  let* epoch := onTx (getSandboxEpoch sandboxId) in
  let* authority := gets (λ st : Sys * tx, v_epoch (s_view st.1)) in
  throw_if (negb (bool_decide (epoch = authority))) (ESTALE sandboxId) ;;;
  modifyS (λ st : Sys * tx, (on_pers (set_scriptEpoch (Some epoch)) st.1, st.2)) ;;;
  forM ops flushOp ;;;
  let* result := onTx (getSandboxEpoch sandboxId) in
  onSys assertLease ;;;
  retM result.

(** [p'] is [p] but for the bindings and the epoch of the flush. *)
Definition flushed (p p' : Pers) : Prop :=
  ∃ e ids, p' = set_remap ids (set_scriptEpoch e p).

Lemma flush_body_spec v0 s :
  scriptScope (s_pers s) = false → wf_db (s_db s) → v_epoch v0 = v_epoch (s_view s) → settled v0 (s_db s) →
  idRemap (s_pers s) = [] → journal v0 (mutations (s_pers s)) (s_view s) (nextProvisionalId (s_pers s)) →
  match flush_body (mutations (s_pers s)) (s, mkTx (s_db s) None None) with
  | (Err _, (s', _)) => s_db s' = s_db s ∧ s_view s' = s_view s ∧ flushed (s_pers s) (s_pers s')
  | (Ok e, (s', t')) =>
      s_view s' = s_view s ∧ wf_db (t_db t') ∧
      (∃ row, sandboxes (t_db t') !! sandboxId = Some row ∧ s_version row = e) ∧
      ∃ e0 ids, s_pers s' = set_remap ids (set_scriptEpoch e0 (s_pers s)) ∧ bindings ids ∧
        coh sandboxId (realId ids) (s_view s) (t_db t') ∧ last_update_applied (mutations (s_pers s)) ids (t_db t')
  end.
Proof.
  intros Hsc Hwf He0 (_ & Hset & _) Hrm Hj. unfold flush_body. unfold bindM at 1.
  assert (Hid : flushed (s_pers s) (s_pers s)) by (exists (scriptEpoch (s_pers s)), (idRemap (s_pers s)); by destruct (s_pers s)).
  destruct (onTx _ _) as [r st] eqn:E. apply lock_spec in E.
  destruct (sandboxes (s_db s) !! sandboxId) as [row|] eqn:Erow; [|by destruct E as [[e ->] <-], st].
  destruct E as [-> ->]. set (t := mkTx _ _ _).
  assert (Hal : onSys assertAlive (s, t) = (Ok tt, (s, t))) by (unfold onSys, assertAlive; simpl; by rewrite Hsc).
  rewrite (bindM_Ok _ _ _ _ _ Hal).
  assert (Hin : in_tx t sandboxId (s_version row)) by (split; [done|]; exists row; by split_and!).
  destruct (observe_spec s t _ Hin) as (row' & Hrow' & Hobs). assert (row' = row) as -> by (simpl in Hrow'; congruence).
  rewrite (bindM_Ok _ _ _ _ _ Hobs), bindM_gets. unfold throw_if at 1. cbn [fst].
  case_bool_decide as Hep; cbn [negb]; [|done]. rewrite bindM_ret, bindM_modify. cbn [fst snd].
  destruct (Hset row eq_refl) as [_ Hcoh]. specialize (Hcoh (eq_trans He0 (eq_sym Hep))).
  set (s1 := on_pers (set_scriptEpoch (Some (s_version row))) s).
  pose proof (flush_journal v0 (mutations (s_pers s)) (s_view s) _ s1 t (s_version row) Hj eq_refl Hrm Hcoh Hin Hwf) as Hfl.
  pose proof (λ s2 t2, flush_last v0 (mutations (s_pers s)) (s_view s) _ s1 t (s_version row) s2 t2 Hj eq_refl Hrm Hcoh Hin Hwf) as Hlast.
  unfold bindM at 1. destruct (forM (mutations (s_pers s)) flushOp (s1, t)) as [[[]|e] [s2 t2]].
  - destruct Hfl as (ids & (Hd2 & Hv2 & Hp2) & Hb & Hin2 & Hwf2 & Hc2). specialize (Hlast s2 t2 eq_refl). rewrite Hp2 in Hlast.
    destruct (observe_spec s2 t2 _ Hin2) as (row2 & Hrow2 & Hobs2). rewrite (bindM_Ok _ _ _ _ _ Hobs2).
    unfold onSys, bindM. simpl. destruct (assertLease s2) as [[[]|e] s3] eqn:EL; apply assertLease_inv in EL as ->; simpl.
    + split_and!; [done|done|by exists row2|]. by exists (Some (s_version row)), ids.
    + split_and!; [done|done|]. by exists (Some (s_version row)), ids.
  - destruct Hfl as (ids & Hd2 & Hv2 & Hp2). split_and!; [done|done|]. by exists (Some (s_version row)), ids.
Qed.

Lemma flushMutations_run s :
  flushMutations s = match mutations (s_pers s) with
                     | [] => (Ok None, s)
                     | ops => match flush_body ops (s, mkTx (s_db s) None None) with
                              | (Ok e, (s', t')) => (Ok (Some e), on_pers (set_scriptEpoch (Some e)) (set_db (t_db t') s'))
                              | (Err er, (s', _)) => (Err er, s')
                              end
                     end.
Proof.
  unfold flushMutations. rewrite bindM_gets. destruct (mutations (s_pers s)) as [|m ms]; [done|].
  fold (flush_body (m :: ms)). unfold inTx, bindM at 1. by destruct (flush_body (m :: ms) (s, mkTx (s_db s) None None)) as [[e|er] [s' t']].
Qed.

(** The end of a scope: every outcome of [finish]. *)
Lemma finish_spec s :
  Inv s → scriptScope (s_pers s) = true → scriptTxLost (s_pers s) = None →
  match finish s with
  | (Ok Unchanged, s') => mutations (s_pers s) = [] ∧ s_db s' = s_db s ∧ s_view s' = s_view s ∧ Inv s' ∧ resting s'
  | (Ok (SFailed _ reloadRequired), s') =>
      reloadRequired = true ∧ s_db s' = s_db s ∧ s_view s' = s_view s ∧ resting s'
  | (Ok (SCommitted e remap_), s') =>
      mutations (s_pers s) ≠ [] ∧ s_view s' = s_view s ∧ v_poisoned (s_view s) = false ∧ resting s' ∧
      (∃ row, sandboxes (s_db s') !! sandboxId = Some row ∧ s_version row = e) ∧
      ∃ ids, remap_ = Some ids ∧ bindings ids ∧ coh sandboxId (realId ids) (s_view s') (s_db s') ∧
        last_update_applied (mutations (s_pers s)) ids (s_db s')
  | (Err _, _) => False
  end.
Proof.
  intros HI Hsc Hlost. unfold finish. rewrite Hsc, Hlost. pose proof HI as [Hwf Hrest Hpo Hj].
  set (s0 := on_pers (set_scope false) s). rewrite flushMutations_run.
  destruct (mutations (s_pers s0)) as [|m ms] eqn:Em.
  { simpl. rewrite (rest_epoch _ Hrest). simpl.
    pose proof (close_empty (s_db s) (s_view s) (s_pers s) Em HI) as HI'. split_and!; [done|done|done|exact HI'|]. by apply Inv_resting. }
  destruct (v_poisoned (s_view s)) eqn:Ep; [by specialize (Hpo eq_refl); simpl in Em; rewrite Hpo in Em|].
  destruct (Hj eq_refl) as (v0 & He0 & Hset & Hjo).
  pose proof (flush_body_spec v0 s0 eq_refl Hwf He0 Hset (rest_remap _ Hrest) Hjo) as Hb. rewrite Em in Hb.
  destruct (flush_body (m :: ms) (s0, mkTx (s_db s0) None None)) as [[e|er] [s' t']].
  - destruct Hb as (Hv & Hwf' & Hrow & e0 & ids & Hp & Hbi & Hc & Hla). simpl. rewrite Hp. simpl.
    split_and!; [by simpl in Em; rewrite Em|done|done| |done|]; [|exists ids; split_and!; [done|done|by rewrite Hv|by simpl in Em; rewrite Em]].
    destruct Hrest. split; simpl; rewrite ?Hp; first [done | by split].
  - destruct Hb as (Hd & Hv & e0 & ids & Hp). simpl. split_and!; [done|done|done|].
    destruct Hrest. split; simpl; rewrite ?Hd, ?Hp; first [done | by split].
Qed.

(** ** The end of a scope keeps the invariant *)

Lemma endScriptScope_keeps b s : Inv s → Inv (endScriptScope b s).2.
Proof.
  intros HI. unfold endScriptScope. rewrite bindM_gets. destruct (scriptScope (s_pers s)) eqn:Hsc; [simpl|done].
  assert (Hab : ∀ e : fs_error, Inv ((abortScriptScope ;;; (throw e : sysM unit)) s).2).
  { intros e. unfold bindM. destruct (abortScriptScope_keeps s HI) as [HI' _]. by destruct (abortScriptScope s) as [[]?]. }
  destruct b; [apply Hab|]. rewrite bindM_gets. destruct (scriptTxLost (s_pers s)) as [lost|] eqn:Hlost; [apply Hab|].
  pose proof (finish_spec s HI Hsc Hlost) as Hf. unfold bindM at 1.
  destruct (finish s) as [[[|e rm|er rl]|?] s1]; [by apply Hf| | |done].
  - destruct Hf as (_ & Hv & Hp & Hr & (row & Hrow & He) & ids & -> & Hb & Hc & _).
    destruct (publishScope_spec ids (s_view s1) (s_db s1) e Hb Hc) as (v' & Hpub & Hc' & Ha & He' & Hp').
    unfold catch, publishSettlement. rewrite Hpub. simpl.
    apply (current_Inv (on_view (λ _, v') s1)); [by eapply (resting_core s1)| |apply Hc'].
    split_and!; [simpl; congruence|done|done|]. exists row. split; [done|simpl; congruence].
  - destruct Hf as (-> & Hd & Hv & Hr). unfold bindM. destruct (recover_spec s1 Hr) as (HI' & _).
    by destruct (recoverCommittedView s1) as [[[]|?] ?].
Qed.
End scopes.
