(* ===== verification/Machine.v ===== *)
(** The session as a state machine.

    A step is an operation of the filesystem, the beginning, end or abort of a
    script scope, a load of the committed view, a claim of a generation, a
    transaction of another writer, or a change of nothing the session's state
    depends on. [reachable_by allowed s]: some run that starts with a successful
    [ready] and makes only calls that [allowed] allows leads to [s]. *)

From S2P Require Import Prelude Errors Paths Store Tree Dialect Lifecycle LoadPaths View Session Namespace Coherence Simulation Journal Invariant Mutate Handlers SqlFs Ingest IngestRows IngestSim IngestSound Scopes.

(** ** Operations *)

Inductive FsOp : Type :=
| OpWriteFile (path bytes : string)
| OpAppendFile (path bytes : string)
| OpMkdir (path : string) (recursive : bool)
| OpRm (path : string) (recursive force : bool)
| OpCp (src dest : string) (recursive : bool)
| OpMv (src dest : string)
| OpSymlink (target linkPath : string)
| OpLink (existingPath newPath : string)
| OpChmod (path : string) (mode_ : Z)
| OpUtimes (path : string) (mtime_ : Z)
| OpCreateExclusive (path : string) (directory : bool) (mode_ : Z)
| OpBulkIngest (files : list BulkIngestFile)
| OpReadFile (path : string).

Section machine.
Context `{Config} `{Lru}.

Definition run_op (o : FsOp) : sysM unit :=
  match o with
  | OpWriteFile p b => fs_writeFile p b
  | OpAppendFile p b => fs_appendFile p b
  | OpMkdir p r => fs_mkdir p r
  | OpRm p r f => fs_rm p r f
  | OpCp s d r => fs_cp s d r
  | OpMv s d => fs_mv s d
  | OpSymlink t p => fs_symlink t p
  | OpLink e p => fs_link e p
  | OpChmod p m => fs_chmod p m
  | OpUtimes p m => fs_utimes p m
  | OpCreateExclusive p d m => fs_createExclusive p d m
  | OpBulkIngest fs => fs_bulkIngest fs
  | OpReadFile p => let* _ := fs_readFileBuffer p in retM tt
  end.

(** The two calls the invariant does not survive: a symlink in the place of the
    root (see [symlink_root_persists]), and a recursive copy of the root, whose
    destination paths are wrong (see [cp_root_misplaces]). *)
Definition op_safe (o : FsOp) : Prop :=
  match o with
  | OpSymlink _ p => validatePath p ≠ Ok "/"
  | OpCp s _ true => validatePath s ≠ Ok "/"
  | _ => True
  end.

(** ** Other writers *)

(** The sandbox's own rows are the same. *)
Definition same_tree (d d' : db) : Prop :=
  root_of d' sandboxId = root_of d sandboxId ∧
  (∀ k de, d_sandboxId de = sandboxId → dirents d' !! k = Some de ↔ dirents d !! k = Some de) ∧
  (∀ id r, i_sandboxId r = sandboxId → inodes d' !! id = Some r ↔ inodes d !! id = Some r).

(** What a committed transaction of somebody else may have done: a change of
    this sandbox's tree comes with a larger epoch, a deletion leaves the epoch
    behind, a creation takes a larger one. *)
Definition others (d d' : db) : Prop :=
  wf_db d' ∧
  match sandboxes d !! sandboxId, sandboxes d' !! sandboxId with
  | Some row, Some row' =>
      s_version row < s_version row' ∨ (s_version row' = s_version row ∧ same_tree d d')
  | Some row, None => ∃ e, sandbox_epochs d' !! sandboxId = Some e ∧ s_version row ≤ e
  | None, Some row' => ∀ e, sandbox_epochs d !! sandboxId = Some e → e < s_version row'
  | None, None => sandbox_epochs d' !! sandboxId = sandbox_epochs d !! sandboxId
  end.

(** ** Steps *)

(** [allowed]: the calls the run may contain. *)
Inductive step (allowed : FsOp → Prop) : Sys → Sys → Prop :=
| step_op o r s s' :
    v_poisoned (s_view s) = false → allowed o → run_op o s = (r, s') → step allowed s s'
| step_begin r s s' : beginScriptScope s = (r, s') → step allowed s s'
| step_end b r s s' : endScriptScope b s = (r, s') → step allowed s s'
| step_abort r s s' : abortScriptScope s = (r, s') → step allowed s s'
| step_fresh r s s' : ensureFresh s = (r, s') → step allowed s s'
| step_reload r s s' : reload s = (r, s') → step allowed s s'
| step_claim r s s' : fs_claimGeneration s = (r, s') → step allowed s s'
| step_others d' s : others (s_db s) d' → step allowed s (set_db d' s)
| step_outside s s' : same_core s s' → step allowed s s'.

(** A new session: the database is well-formed, nothing is buffered. *)
Definition fresh_session (s : Sys) : Prop :=
  wf_db (s_db s) ∧ s_view s = initial_view ∧ s_pers s = initial_pers.

Inductive reachable_by (allowed : FsOp → Prop) : Sys → Prop :=
| reach_ready s s' : fresh_session s → ready s = (Ok tt, s') → reachable_by allowed s'
| reach_step s s' : reachable_by allowed s → step allowed s s' → reachable_by allowed s'.

(** ** Preservation *)

Lemma walk_same_tree d d' root cs x :
  wf_db d → root_of d sandboxId = Some root →
  (∀ k de, d_sandboxId de = sandboxId → dirents d !! k = Some de → dirents d' !! k = Some de) →
  walk (dirents d) root cs = Some x → walk (dirents d') root cs = Some x.
Proof.
  intros Hwf Hr Hd. revert x. induction cs as [|n cs IH] using rev_ind; intros x; [done|].
  rewrite !walk_snoc. destruct (walk (dirents d) root cs) as [y|] eqn:E; [|done]. rewrite (IH y eq_refl). simpl.
  destruct (dirents d !! (y, n)) as [de|] eqn:Ede; [|done]. rewrite (Hd _ de); [done| |done].
  destruct (walk_inode d Hwf sandboxId root cs y Hr E) as (r & Hy & Hs).
  destruct (wf_parent d Hwf y n de Ede) as (r' & Hy' & _ & Hs'). congruence.
Qed.

Lemma coh_same_tree ρ v d d' :
  wf_db d → wf_db d' → same_tree d d' → coh sandboxId ρ v d → coh sandboxId ρ v d'.
Proof.
  intros Hwf Hwf' (Hroot & Hd & Hi) [H1 H2 H3 H4 H5 H6].
  assert (Hw : ∀ root cs, root_of d sandboxId = Some root → walk (dirents d') root cs = walk (dirents d) root cs).
  { intros root cs Hr. destruct (walk (dirents d) root cs) as [x|] eqn:E.
    - eapply (walk_same_tree d d'); try done. intros k de Hs ?. by apply Hd.
    - destruct (walk (dirents d') root cs) as [x|] eqn:E'; [|done].
      erewrite (walk_same_tree d' d) in E; try done; [congruence|]. intros k de Hs ?. by apply Hd. }
  split; [done|done|by rewrite Hroot| | |done].
  - intros root cs en Hr Hv Hg. rewrite Hroot in Hr. destruct (H4 root cs en Hr Hv Hg) as (rid & r & Hρ & Hwk & Hin & Hm).
    exists rid, r. rewrite Hw by done. split_and!; try done. apply Hi; [|done].
    destruct (walk_inode d Hwf sandboxId root cs rid Hr Hwk) as (r' & ? & ?). congruence.
  - intros root cs Hr Hv Hg. rewrite Hroot in Hr. rewrite Hw by done. by eapply H5.
Qed.

Lemma others_settled v d d' : wf_db d → others d d' → settled v d → settled v d'.
Proof.
  intros Hwf [Hwf' Ho] (Ha & Hs & Hgone). split; [done|].
  destruct (sandboxes d !! sandboxId) as [row|] eqn:E, (sandboxes d' !! sandboxId) as [row'|] eqn:E'.
  - split; [|done]. intros ? [= <-]. destruct (Hs row eq_refl) as [Hle Hc]. destruct Ho as [Hlt|[Heq Hst]]; [split; [lia|lia]|].
    rewrite Heq. split; [done|]. intros Hep. apply (coh_same_tree _ v d d' Hwf Hwf' Hst). by apply Hc.
  - split; [done|]. intros _. destruct Ho as (e & He & Hle). exists e. destruct (Hs row eq_refl). split; [done|lia].
  - split; [|done]. intros ? [= <-]. destruct (Hgone eq_refl) as (e & He & Hle). specialize (Ho e He). split; lia.
  - split; [done|]. intros _. rewrite Ho. by apply Hgone.
Qed.

Lemma others_keeps s d' : Inv s → others (s_db s) d' → Inv (set_db d' s).
Proof.
  intros [H1 H2 H3 H4] Ho. split; simpl; [apply Ho|done|done|]. intros Hp. destruct (H4 Hp) as (v0 & He & Hset & Hj).
  exists v0. split_and!; [done|by eapply others_settled|done].
Qed.

Lemma at_view_set_contents v s f :
  at_view v s → at_view (set_contents (f v) v) (on_view (λ v, set_contents (f v) v) s).
Proof.
  intros [[H1 H2 H3 H4] <- Hp Hok]. split; [|done|done|done]. split; [done|done|done|]. simpl. intros _.
  destruct (H4 Hp) as (v0 & He & Hset & Hj). exists v0. split_and!; [done|done|]. eapply journal_ext; [|exact Hok|exact Hj]. done.
Qed.

(** ** The operations *)

Lemma bind_validate {B} v p (f : string → sysM B) s Q :
  at_view v s → (∀ cs, valid_comps cs → validatePath p = Ok (path_of cs) → post (f (path_of cs)) s Q) →
  post (bindM (lift_res (validatePath p)) f) s Q.
Proof.
  intros Ha Hf. eapply bind_lift; [done|]. intros q Hq. destruct (validatePath_canonical p q Hq) as (cs & Hv & ->). by apply Hf.
Qed.

Lemma quiet_read {A} (fn : txM A) : (∀ t, t_db (fn t).2 = t_db t) → quiet (read fn).
Proof.
  intros Hfn. unfold read. apply quiet_bind; [auto with quiet|]. intros _ s. unfold inTx, onTx, bindM. simpl.
  specialize (Hfn (mkTx (s_db s) (Some sandboxId) None)). destruct (fn _) as [[a|e] t]; simpl in *; [|done].
  unfold same_core. simpl. by rewrite Hfn.
Qed.

Lemma resolve_tx_db p f t : t_db (dialect_resolvePath p f t).2 = t_db t.
Proof.
  unfold dialect_resolvePath, fs_resolve. destruct (t_sandbox t) as [sb|]; [|done].
  destruct (sel_sandbox t sb ≫= s_root) as [root|]; [|done]. by destruct (resolve_loop _ _ _ _ _ _).
Qed.

Lemma quiet_resolve_in_db p : quiet (resolve_in_db p).
Proof.
  unfold resolve_in_db. apply quiet_bind; [apply quiet_read; intros; apply resolve_tx_db|]. intros id.
  apply quiet_bind; [done|]. intros v. by destruct (find_inode id v).
Qed.

Lemma quiet_resolveReadEntry p : quiet (resolveReadEntry p).
Proof.
  pose proof quiet_resolve_in_db as Hdb. unfold resolveReadEntry. apply quiet_bind; [done|]. intros v. apply quiet_bind; [done|]. intros b.
  assert (Hd : quiet (let* pe := resolve_in_db p in retM (Some pe.2))) by auto with quiet.
  destruct (view_get p v) as [e|]; [case_decide; [|done]|]; destruct (resolveCached p v) as [[q [e'|]]|err]; try done;
    try (destruct b; done); destruct (b || negb (is_enoent err)); done.
Qed.

Lemma readContent_sound e : sound (readContent e).
Proof.
  intros v s Ha. unfold readContent. apply bind_gets. rewrite (av_view _ _ Ha).
  destruct (jget (inodeId e) (contentCache (v_contents v))) as [c|].
  - quietly Ha. by eapply at_self.
  - apply bind_any. intros data. case_decide.
    + unfold post. rewrite bindM_modify.
      pose proof (at_view_set_contents v s (λ w, put (inodeId e) (default EmptyString data) (v_contents w)) Ha) as Ha'.
      quietly Ha'. by eapply at_self.
    + unfold post. rewrite bindM_ret. quietly Ha. by eapply at_self.
Qed.

Lemma readBytes_sound p : sound (readBytes p).
Proof.
  intros v s Ha. unfold readBytes. eapply bind_validate; [done|]. intros cs Hcs _. case_decide; [by eapply at_self|].
  eapply bind_quiet; [apply quiet_resolveReadEntry|exact Ha|clear Ha; intros entry ?s _ Ha].
  destruct entry as [e|]; [|by eapply at_self]. guarded Ha Hk. quietly Ha. quietly Ha. by eapply readContent_sound.
Qed.

Context (Hretire : hasRetire = true).

Lemma run_op_sound o : op_safe o → sound (run_op o).
Proof.
  intros Hsafe v s Ha. destruct o; simpl in *.
  - unfold fs_writeFile. eapply bind_validate; [done|]. intros cs Hcs _. case_decide; [by eapply at_self|].
    eapply withNamespaceMutation_sound; [|done]. by apply writeFileAt_sound.
  - unfold fs_appendFile. eapply bind_validate; [done|]. intros cs Hcs _. case_decide; [by eapply at_self|].
    eapply withNamespaceMutation_sound; [|done]. by apply appendFileAt_sound.
  - unfold fs_mkdir. eapply bind_validate; [done|]. intros cs Hcs _. unfold ns_mkdir. case_decide; [destruct recursive; apply post_throw, Ha|].
    eapply withNamespaceMutation_sound; [|done]. by apply mkdirAt_sound.
  - unfold fs_rm. eapply bind_validate; [done|]. intros cs Hcs _. quietly Ha.
    eapply withNamespaceMutation_sound; [|done]. by apply rmAt_sound.
  - unfold fs_cp. eapply bind_validate; [done|]. intros ss Hss Hv1. eapply bind_validate; [done|]. intros ds Hds _.
    eapply withNamespaceMutation_sound; [|done]. apply cpAt_sound; [done..|]. intros -> ->. by apply Hsafe.
  - unfold fs_mv. eapply bind_validate; [done|]. intros ss Hss _. eapply bind_validate; [done|]. intros ds Hds _.
    quietly Ha. quietly Ha. eapply withNamespaceMutation_sound; [|done]. by apply mvAt_sound.
  - unfold fs_symlink. eapply bind_validate; [done|]. intros cs Hcs Hv. quietly Ha.
    eapply withNamespaceMutation_sound; [|done]. apply symlinkAt_sound; [done..|]. intros ->. by apply Hsafe.
  - unfold fs_link. eapply bind_validate; [done|]. intros ks Hks _. eapply bind_validate; [done|]. intros cs Hcs _.
    quietly Ha. quietly Ha. eapply withNamespaceMutation_sound; [|done]. by apply linkAt_sound.
  - unfold fs_chmod. eapply bind_validate; [done|]. intros cs Hcs _. quietly Ha.
    eapply withNamespaceMutation_sound; [|done]. by apply chmodAt_sound.
  - unfold fs_utimes. eapply bind_validate; [done|]. intros cs Hcs _. quietly Ha.
    eapply withNamespaceMutation_sound; [|done]. by apply utimesAt_sound.
  - unfold fs_createExclusive. eapply bind_validate; [done|]. intros cs Hcs _. by eapply createExclusive_sound.
  - by eapply fs_bulkIngest_sound.
  - unfold fs_readFileBuffer. apply post_bind. eapply post_weaken; [|eapply bind_quiet; [auto with quiet|exact Ha|]].
    + intros ? s' Ha'. apply post_ret. exact Ha'.
    + intros ? s' _ Ha'. cbv beta. eapply post_weaken; [|by eapply readBytes_sound]. done.
Qed.

(** ** Loads and claims *)

Lemma load_keeps force s : Inv s → scriptScope (s_pers s) = false → Inv (loadCommittedView force s).2.
Proof.
  intros HI Hsc. pose proof (load_spec force s (inv_wf _ _ _ HI) Hsc (λ _, HI)) as Hl.
  destruct (loadCommittedView force s) as [[b|e] s']; [|by eapply Inv_core].
  destruct Hl as (Hd & Hp & Hc & Hok). simpl. apply current_Inv; [|done|done].
  by eapply resting_core, Inv_resting.
Qed.

Lemma reload_keeps s : Inv s → Inv (reload s).2.
Proof.
  intros HI. unfold reload. unfold bindM at 1. pose proof (quiet_assertAlive s) as Hq.
  destruct (assertAlive s) as [[[]|e] s1]; [|by eapply Inv_core]. assert (HI1 : Inv s1) by by eapply Inv_core.
  rewrite bindM_gets. destruct (scriptScope (s_pers s1)) eqn:Hsc; [done|]. pose proof (load_keeps true s1 HI1 Hsc) as Hl.
  unfold bindM. by destruct (loadCommittedView true s1) as [[]?].
Qed.

Lemma ensureFresh_keeps s : Inv s → Inv (ensureFresh s).2.
Proof.
  intros HI. unfold ensureFresh. unfold bindM at 1. pose proof (quiet_assertAlive s) as Hq.
  destruct (assertAlive s) as [[[]|e] s1]; [|by eapply Inv_core]. assert (HI1 : Inv s1) by by eapply Inv_core.
  rewrite bindM_gets. unfold throw_if. destruct (scriptScope (s_pers s1)) eqn:Hsc; [done|]. by apply load_keeps.
Qed.

(** Retiring a generation moves the epoch and nothing else. *)
Definition retired (d d' : db) (c : SandboxGeneration) : Prop :=
  ∃ row, sandboxes d !! sandboxId = Some row ∧ priorEpoch c = s_version row ∧ g_epoch c = s_version row + 1 ∧
    d' = set_sandboxes (<[sandboxId := set_version (s_version row + 1) row]>) d.

Lemma claimGeneration_spec s :
  match claimGeneration s with
  | (Err _, s') => s_view s' = s_view s ∧ s_pers s' = s_pers s ∧ (s_db s' = s_db s ∨ ∃ c, retired (s_db s) (s_db s') c)
  | (Ok None, _) => False
  | (Ok (Some c), s') => s_view s' = s_view s ∧ s_pers s' = s_pers s ∧ scriptScope (s_pers s) = false ∧ retired (s_db s) (s_db s') c
  end.
Proof.
  unfold claimGeneration. unfold bindM at 1. destruct (assertLease s) as [[[]|e] s1] eqn:EL; apply assertLease_inv in EL as ->; [|split_and!; [done|done|by left]].
  unfold bindM at 1. assert (Hal : ∀ s0, s_pers s0 = s_pers s → (assertAlive s0).2 = s0) by (intros s0 _; unfold assertAlive; by destruct (scriptScope (s_pers s0)), (scriptTxLost (s_pers s0))).
  destruct (assertAlive (tick s)) as [[[]|e] s2] eqn:EA; pose proof (Hal (tick s) eq_refl) as Hs2; rewrite EA in Hs2; simpl in Hs2; subst s2; [|split_and!; [done|done|by left]].
  rewrite Hretire, bindM_gets. cbn [s_pers tick]. unfold throw_if. destruct (scriptScope (s_pers s)) eqn:Hsc; [split_and!; [done|done|by left]|].
  rewrite bindM_ret. unfold inTx, bindM at 1. rewrite bindM_gets, bindM_modify. cbn [fst snd].
  unfold onTx, retireSandboxGeneration, setSandboxContextWithLock, lift_res, sel_sandbox. unfold bindM at 1. simpl.
  unfold bindM at 1. simpl. destruct (sandboxes (s_db s) !! sandboxId) as [row|] eqn:Er; simpl; [|split_and!; [done|done|by left]].
  unfold bindM at 1. destruct (s_lease s (S (s_tick s))); simpl; [split_and!; [done|done|by left]|].
  rewrite bindM_gets. cbn. rewrite Er. unfold visible. simpl. rewrite (bool_decide_eq_true_2 (sandboxId = sandboxId)), orb_true_r by done.
  unfold bindM at 1. simpl. unfold onSys, bindM. simpl.
  unfold assertLease. simpl. destruct (s_lease s (S (S (s_tick s)))); simpl; [split_and!; [done|done|by left]|].
  unfold assertAlive. simpl. rewrite Hsc. simpl. split_and!; [done..|]. exists row. split_and!; try done. simpl. lia.
Qed.

Lemma retired_others v d d' c : wf_db d → retired d d' c → settled v d →
  wf_db d' ∧ settled v d' ∧ (priorEpoch c = v_epoch v → coh sandboxId (realId []) v d').
Proof.
  intros Hwf (row & Hrow & Hpr & Hep & ->) (Ha & Hs & _). destruct (Hs row Hrow) as [Hle Hc].
  assert (Hr : root_of (set_sandboxes <[sandboxId := set_version (s_version row + 1) row]> d) sandboxId = root_of d sandboxId).
  { unfold root_of. simpl. by rewrite lookup_insert_eq, Hrow. }
  split_and!.
  - eapply wf_same_shape; [|done]. by apply same_shape_version.
  - split_and!; [done| |simpl; by rewrite lookup_insert_eq]. intros row'. simpl. rewrite lookup_insert_eq. intros [= <-]. simpl. split; lia.
  - intros Heq. apply (coh_frame _ _ v d); [done|done|exact Hr|]. apply Hc. congruence.
Qed.

Lemma claim_keeps s : Inv s → Inv (fs_claimGeneration s).2.
Proof.
  intros HI. unfold fs_claimGeneration. unfold bindM at 1. pose proof (claimGeneration_spec s) as Hcl.
  assert (Hret : ∀ s1 c, s_view s1 = s_view s → s_pers s1 = s_pers s → retired (s_db s) (s_db s1) c → Inv s1).
  { intros s1 c Hv Hp Hr. destruct HI as [H1 H2 H3 H4]. split; rewrite ?Hv, ?Hp; try done.
    - destruct Hr as (row & Hrow & _ & _ & ->). eapply wf_same_shape; [|done]. by apply same_shape_version.
    - intros Hpo. destruct (H4 Hpo) as (v0 & He & Hset & Hj). exists v0. split_and!; [done| |done].
      by destruct (retired_others v0 _ _ c H1 Hr Hset) as (_ & ? & _). }
  destruct (claimGeneration s) as [[[c|]|e] s1]; [|done|].
  - destruct Hcl as (Hv & Hp & Hsc & Hr). specialize (Hret s1 c Hv Hp Hr). rewrite bindM_gets. unfold publishGeneration.
    destruct (negb (v_poisoned (s_view s1)) && bool_decide (priorEpoch c = v_epoch (s_view s1))) eqn:E.
    + apply andb_true_iff in E as [Hpo%negb_true_iff He%bool_decide_eq_true]. rewrite bindM_modify. simpl.
      destruct (Inv_settled s HI ltac:(congruence) Hsc) as [Hset Hok]. rewrite Hv in He, Hpo.
      destruct (retired_others _ _ _ c (inv_wf _ _ _ HI) Hr Hset) as (Hwf & _ & Hc). specialize (Hc He).
      apply (current_Inv (on_view (λ _, set_epoch (g_epoch c) (s_view s1)) s1)).
      * eapply (resting_core s1); [done|done|]. apply Inv_resting; [done|]. by rewrite Hp.
      * rewrite <- Hv in *. split_and!; [done|apply Hset| |].
        -- eapply coh_ext; [| |exact Hc]; [done|exact Hok].
        -- destruct Hr as (row & Hrow & _ & Hep & Hd). exists (set_version (s_version row + 1) row). simpl. rewrite Hd. simpl.
           by rewrite lookup_insert_eq.
      * simpl. rewrite Hv. exact Hok.
    + rewrite bindM_modify. assert (HI1 : Inv (on_view (λ _, s_view s1) s1)) by done.
      unfold bindM. pose proof (reload_keeps _ HI1) as Hrl. by destruct (reload (on_view (λ _, s_view s1) s1)) as [[]?].
  - destruct Hcl as (Hv & Hp & [Hd|[c Hr]]); [by eapply Inv_core | by eapply Hret].
Qed.

(** ** Every step keeps the invariant *)

Lemma step_keeps s s' : step op_safe s s' → Inv s → Inv s'.
Proof.
  intros [o r s1 s1' Hp Hsafe Hrun|r s1 s1' Hrun|b r s1 s1' Hrun|r s1 s1' Hrun|r s1 s1' Hrun|r s1 s1' Hrun|r s1 s1' Hrun|d' s1 Ho|s1 s1' Hc] HI.
  - pose proof (sound_keeps _ (run_op_sound o Hsafe) s1 HI Hp) as Hk. by rewrite Hrun in Hk.
  - pose proof (begin_keeps s1 HI) as Hk. unfold beginScriptScope in Hrun. by rewrite Hrun in Hk.
  - pose proof (endScriptScope_keeps b s1 HI) as Hk. by rewrite Hrun in Hk.
  - destruct (abortScriptScope_keeps s1 HI) as [Hk _]. by rewrite Hrun in Hk.
  - pose proof (ensureFresh_keeps s1 HI) as Hk. by rewrite Hrun in Hk.
  - pose proof (reload_keeps s1 HI) as Hk. by rewrite Hrun in Hk.
  - pose proof (claim_keeps s1 HI) as Hk. by rewrite Hrun in Hk.
  - by apply others_keeps.
  - by eapply Inv_core.
Qed.

Lemma ready_Inv s s' : fresh_session s → ready s = (Ok tt, s') → Inv s' ∧ current (s_view s') (s_db s').
Proof.
  intros (Hwf & Hv & Hp) Hrun. unfold ready in Hrun.
  assert (Hal : assertAlive s = (Ok tt, s)) by (unfold assertAlive; by rewrite Hp). rewrite (bindM_Ok _ _ _ _ _ Hal) in Hrun.
  pose proof (load_spec true s Hwf) as Hl. rewrite Hp in Hl. specialize (Hl eq_refl ltac:(done)). unfold bindM in Hrun.
  destruct (loadCommittedView true s) as [[b|e] s1]; [|done]. injection Hrun as <-. destruct Hl as (Hd & Hp' & Hc & Hok).
  split; [|done]. apply current_Inv; [|done|done]. split; rewrite ?Hd, ?Hp'; [done|by split|done|done].
Qed.

Lemma reachable_Inv s : reachable_by op_safe s → Inv s.
Proof. induction 1 as [s s' Hf Hr|s s' _ IH Hs]; [by eapply ready_Inv | by eapply step_keeps]. Qed.
End machine.

(** The runs most theorems are about: neither of the two calls is made. *)
Abbreviation reachable := (reachable_by op_safe).
