(* ===== verification/Guarantees.v ===== *)
(** What a session guarantees over any run: the theorems about reachable
    states and about the end of a script scope. *)

From S2P Require Import Prelude Errors Paths Store Tree Dialect Lifecycle LoadPaths View Session Namespace Coherence Simulation Journal Invariant Mutate Handlers SqlFs Scopes Machine.

(** ** A concrete session *)

Definition demo_config : Config :=
  {| sandboxId := "s"; maxOps := 100; maxBytes := 1000000; allowSymlinks := true;
     hasComposites := true; hasCommitBlob := true; hasRetire := true; sha256 := λ b, b |}.

Definition demo_start : Sys :=
  mkSys demo_db initial_view initial_pers 0 None None (λ _, None) 0 1700000000000.

Section demo.
#[local] Existing Instance demo_config.
#[local] Existing Instance lru_unbounded.

Definition demo_ready : Sys := (ready demo_start).2.
Definition demo_scope : Sys := (beginScriptScope demo_ready).2.

(** A script that writes a file in a new directory and moves it. *)
Definition demo_script : Sys :=
  (run_op (OpMv "/tmp/a" "/home/user/b")
    (run_op (OpWriteFile "/tmp/a/f" "hello")
      (run_op (OpMkdir "/tmp/a" false) demo_scope).2).2).2.

Lemma demo_ready_reachable : reachable demo_ready.
Proof.
  apply (reach_ready _ demo_start); [|vm_compute; reflexivity]. split; [exact wf_demo_db|]. split; reflexivity.
Qed.

Lemma demo_scope_reachable : reachable demo_scope.
Proof.
  eapply reach_step; [exact demo_ready_reachable|]. eapply (step_begin _ (Ok tt)). vm_compute. reflexivity.
Qed.

Lemma demo_step o s : reachable s → v_poisoned (s_view s) = false → op_safe o → reachable (run_op o s).2.
Proof. intros Hr Hp Hs. eapply reach_step; [done|]. eapply (step_op _ o (run_op o s).1); [done..|]. by destruct (run_op o s). Qed.

Lemma demo_script_reachable : reachable demo_script.
Proof.
  unfold demo_script. do 3 (apply demo_step; [|vm_compute; reflexivity|exact I]). exact demo_scope_reachable.
Qed.
End demo.

(** ** The guarantees *)

Section guarantees.
Context `{Config} `{Lru}.

(** The tree of [d] has at [cs] what the view entry [en] says. *)
Definition shows (d : db) (root : Z) (cs : list string) (en : option PathCacheEntry) : Prop :=
  match en with
  | Some e => ∃ id r, walk (dirents d) root cs = Some id ∧ inodes d !! id = Some r ∧ entry_matches e r
  | None => walk (dirents d) root cs = None
  end.

Lemma coh_shows ρ v d root cs :
  coh sandboxId ρ v d → root_of d sandboxId = Some root → valid_comps cs → shows d root cs (view_get (path_of cs) v).
Proof.
  intros Hc Hr Hv. destruct (view_get (path_of cs) v) as [en|] eqn:E; simpl.
  - destruct (coh_some _ _ _ _ Hc root cs en Hr Hv E) as (rid & r & _ & ? & ? & ?). by exists rid, r.
  - by eapply coh_none.
Qed.

(** C11: in every state a run leads to that never made one of the two calls
    [op_safe] excludes (a symlink in the place of "/", a recursive copy of "/"),
    outside a script scope and with a view that is not poisoned: when the view's
    epoch is the sandbox's, the view has an entry at exactly the paths of the
    sandbox's tree, with the inode's id, kind, mode, size, content hash and link
    target. Modification times are not compared: the view stamps an entry with
    the session's clock, the database a row with its own. *)
Theorem reachable_view_agrees s row root :
  hasRetire = true → reachable_by op_safe s → v_poisoned (s_view s) = false → scriptScope (s_pers s) = false →
  sandboxes (s_db s) !! sandboxId = Some row → s_root row = Some root → v_epoch (s_view s) = s_version row →
  ∀ cs, valid_comps cs →
    shows (s_db s) root cs (view_get (path_of cs) (s_view s)) ∧
    ∀ en, view_get (path_of cs) (s_view s) = Some en → walk (dirents (s_db s)) root cs = Some (inodeId en).
Proof.
  intros Hret Hr Hp Hsc Hrow Hroot He cs Hcs. pose proof (reachable_Inv Hret s Hr) as HI.
  destruct (Inv_settled s HI Hp Hsc) as [(Ha & Hset & _) _]. destruct (Hset row Hrow) as [_ Hc]. specialize (Hc He).
  assert (Hro : root_of (s_db s) sandboxId = Some root) by (apply root_of_Some; by exists row).
  split; [by eapply coh_shows|]. intros en Hen.
  destruct (coh_some _ _ _ _ Hc root cs en Hro Hcs Hen) as (rid & r & Hρ & Hw & _).
  rewrite realId_pos in Hρ by (specialize (Ha _ _ Hen); lia). congruence.
Qed.


(** the view keeps one entry per path and its memory estimate is exact: it is
    the sum of what [#cacheSet] charges for each entry, after any run. *)
Theorem reachable_cache_accounting s :
  hasRetire = true → reachable s → v_poisoned (s_view s) = false →
  NoDup (view_paths (s_view s)) ∧ v_bytes (s_view s) = entries_bytes (v_entries (s_view s)).
Proof.
  intros Hret Hr Hp. destruct (inv_journal _ _ _ (reachable_Inv Hret s Hr) Hp) as (v0 & _ & _ & Hj).
  by destruct (journal_facts _ _ _ _ Hj) as ([? ?] & _).
Qed.

(** The tree of [d] is what the view [v] shows, and [v'] shows the same under
    real ids. *)
Definition commits (v v' : View) (d : db) : Prop :=
  ∃ root, root_of d sandboxId = Some root ∧
    ∀ cs, valid_comps cs →
      shows d root cs (view_get (path_of cs) v) ∧
      with_inode 0 <$> view_get (path_of cs) v' = with_inode 0 <$> view_get (path_of cs) v.

Lemma publish_commits ids v v' d e : coh sandboxId (realId ids) v d → publishScope e (Some ids) v = (Ok tt, v') → commits v v' d.
Proof.
  intros Hc Hpub. destruct (coh_root _ _ _ _ Hc) as (root & Hroot). exists root. split; [done|].
  intros cs Hcs. split; [by eapply coh_shows|].
  unfold publishScope in Hpub. case_decide; [|done]. injection Hpub as <-.
  change (with_inode 0 <$> view_get (path_of cs) (rebind ids v) = with_inode 0 <$> view_get (path_of cs) v).
  rewrite get_rebind by apply Hc. destruct (view_get (path_of cs) v) as [en|]; [|done]. simpl.
  by destruct (jget (inodeId en) ids).
Qed.

(** Every outcome of the end of a scope. *)
Lemma scope_end_outcome b s r s' :
  Inv s → scriptScope (s_pers s) = true → endScriptScope b s = (r, s') →
  scriptScope (s_pers s') = false ∧
  match r with
  | Err _ => s_db s' = s_db s ∧
      (mutations (s_pers s) = [] ∨ current (s_view s') (s_db s') ∨ v_poisoned (s_view s') = true)
  | Ok _ => b = false ∧
      ((mutations (s_pers s) = [] ∧ s_db s' = s_db s ∧ s_view s' = s_view s) ∨
       (mutations (s_pers s) ≠ [] ∧ current (s_view s') (s_db s') ∧ commits (s_view s) (s_view s') (s_db s')))
  end.
Proof.
  intros HI Hsc. unfold endScriptScope. rewrite bindM_gets, Hsc. simpl.
  assert (Hab : ∀ e : fs_error, (abortScriptScope ;;; (throw e : sysM unit)) s = (r, s') →
    scriptScope (s_pers s') = false ∧ (∃ e', r = Err e') ∧ s_db s' = s_db s ∧
    (mutations (s_pers s) = [] ∨ current (s_view s') (s_db s') ∨ v_poisoned (s_view s') = true)).
  { intros e. by apply abort_outcome. }
  destruct b; [intros Hrun; by destruct (Hab _ Hrun) as (? & [e' ->] & ? & ?)|]. rewrite bindM_gets.
  destruct (scriptTxLost (s_pers s)) as [lost|] eqn:Hlost; [intros Hrun; by destruct (Hab _ Hrun) as (? & [e' ->] & ? & ?)|].
  pose proof (finish_spec s HI Hsc Hlost) as Hf. unfold bindM at 1.
  destruct (finish s) as [[[|e rm|er rl]|?] s1]; [| | |done].
  - intros [= <- <-]. destruct Hf as (Hm & Hd & Hv & _ & Hrs). split; [apply Hrs|]. split; [done|]. by left.
  - destruct Hf as (Hm & Hv & Hp & Hrs & (row & Hrow & He) & ids & -> & Hb & Hc & _).
    destruct (publishScope_spec ids (s_view s1) (s_db s1) e Hb Hc) as (v' & Hpub & Hc' & Ha & He' & Hp').
    pose proof (publish_commits _ _ _ _ _ Hc Hpub) as Hcm. rewrite Hv in Hcm.
    unfold catch, publishSettlement. rewrite Hpub. intros [= <- <-]. split; [apply Hrs|]. split; [done|]. right. split; [done|]. split; [|done].
    split_and!; [simpl; congruence|done|done|]. exists row. split; [done|simpl; congruence].
  - destruct Hf as (-> & Hd & Hv & Hrs). unfold bindM. destruct (recover_spec s1 Hrs) as (_ & Hd' & Hp' & Hor).
    pose proof (recover_ok s1) as Hok. destruct (recoverCommittedView s1) as [r1 s2]. simpl in *. subst r1.
    intros [= <- <-]. split; [rewrite Hp'; apply Hrs|]. split; [congruence|by right].
Qed.

(** the end of a script scope is atomic. If it throws (the lease was lost, the
    epoch moved, a replayed statement failed, ...) the database is untouched and
    the view is current again or poisoned, or the script had recorded nothing;
    if it succeeds, either nothing was recorded or the view is current. Either
    way the scope is over. *)
Theorem endScriptScope_atomic b s r s' :
  hasRetire = true → reachable s → scriptScope (s_pers s) = true → endScriptScope b s = (r, s') →
  scriptScope (s_pers s') = false ∧
  match r with
  | Err _ => s_db s' = s_db s ∧
      (mutations (s_pers s) = [] ∨ current (s_view s') (s_db s') ∨ v_poisoned (s_view s') = true)
  | Ok _ => (mutations (s_pers s) = [] ∧ s_db s' = s_db s) ∨ current (s_view s') (s_db s')
  end.
Proof.
  intros Hret Hr Hsc Hrun. destruct (scope_end_outcome b s r s' (reachable_Inv Hret s Hr) Hsc Hrun) as [Ho He].
  split; [done|]. destruct r; [|done]. destruct He as [_ [(? & ? & _)|(_ & ? & _)]]; auto.
Qed.

(** ** Times *)

Lemma record_update k id u s r s' :
  scriptScope (s_pers s) = true → no_patch u = false → mutate (update_spec k id u) s = (Ok r, s') →
  r.1 = Recorded ∧ s_view s' = s_view s ∧ ∃ op, mutations (s_pers s') = mutations (s_pers s) ++ [op] ∧ is_update op id u.
Proof.
  intros Hsc Hu. unfold mutate, captureGeneration, buffering. rewrite !bindM_gets, Hsc. intros Hm.
  apply bindM_inv in Hm as ([] & s1 & Hal & Hm). unfold assertAlive in Hal.
  assert (s1 = s) as -> by (destruct (scriptScope (s_pers s)), (scriptTxLost (s_pers s)); congruence).
  cbn [update_spec m_mints mintInodeIds] in Hm. rewrite bindM_ret in Hm. unfold recordMutation in Hm. rewrite bindM_assoc, bindM_gets in Hm.
  cbn [superseding b_supersedes m_supersedes update_spec] in Hm. destruct (decide _); [done|]. rewrite bindM_modify in Hm. injection Hm as <- <-.
  split; [done|]. split; [done|]. eexists. split; [reflexivity|]. split_and!; [done|done|by exists k].
Qed.

(** A successful utimes in a scope: it is the last mutation recorded, and its
    path has the entry it names. *)
Lemma utimes_recorded p m s0 s :
  view_ok (s_view s0) → scriptScope (s_pers s0) = true → fs_utimes p m s0 = (Ok tt, s) →
  ∃ cs en0 en ms op, valid_comps cs ∧ validatePath p = Ok (path_of cs) ∧ view_get (path_of cs) (s_view s) = Some en ∧
    inodeId en = inodeId en0 ∧ mtime en = m ∧
    mutations (s_pers s) = ms ++ [op] ∧ is_update op (inodeId en0) (mkUpdate None None (Some m) None).
Proof.
  intros Hok Hsc Hrun. unfold fs_utimes in Hrun. apply bindM_inv in Hrun as (path & s1 & Hp & Hrun).
  unfold lift_res in Hp. injection Hp as Hp <-. destruct (validatePath_canonical p path Hp) as (cs & Hcs & ->).
  apply bindM_inv in Hrun as ([] & s1 & Ha & Hrun). unfold lift_res in Ha. injection Ha as _ <-.
  unfold ns_utimes, withNamespaceMutation in Hrun. apply bindM_inv in Hrun as (st & s1 & [= _ <-] & Hrun).
  apply bindM_inv in Hrun as ([] & s1 & Hres & Hrun). pose proof (quiet_assertReservation st s0) as Hq. rewrite Hres in Hq. simpl in Hq.
  unfold utimesAt in Hrun. apply bindM_inv in Hrun as ([] & s2 & Hwr & Hrun).
  pose proof (quiet_assertWritable (path_of cs) "utimes" s1) as Hq2. rewrite Hwr in Hq2. simpl in Hq2.
  assert (Hq3 : same_core s0 s2) by by eapply same_core_trans. destruct Hq3 as (Hd & Hv & Hpe). clear Hq Hq2 Hres Hwr.
  unfold viewGet in Hrun. rewrite bindM_gets in Hrun. destruct (view_get (path_of cs) (s_view s2)) as [en|] eqn:Een; [|done].
  apply bindM_inv in Hrun as (receipt & s3 & Hm & Hpub). apply record_update in Hm as (Hrec & Hvm & op & Hms & Hop); [|by rewrite Hpe|done].
  unfold publish, modifyS in Hpub. injection Hpub as <-. rewrite Hrec.
  exists cs, en, (apply_patch (patch_mtime m) en), (mutations (s_pers s2)), op. split_and!; try done.
  cbn [s_view on_view]. rewrite Hvm. cbn [publishMutation fold_left apply_change].
  change (view_get (path_of cs) (updateCacheByInode (inodeId en) (patch_mtime m) (s_view s2)) = Some (apply_patch (patch_mtime m) en)).
  unfold updateCacheByInode. rewrite get_rewriteEntries by (rewrite Hv; by apply Hok). rewrite Een. simpl. by rewrite decide_True.
Qed.

(** What a successful end of a scope committed, with the ids it bound. *)
Lemma scope_end_commit b s s' :
  Inv s → scriptScope (s_pers s) = true → mutations (s_pers s) ≠ [] → endScriptScope b s = (Ok tt, s') →
  ∃ ids, wf_db (s_db s') ∧ coh sandboxId (realId ids) (s_view s) (s_db s') ∧ last_update_applied (mutations (s_pers s)) ids (s_db s').
Proof.
  intros HI Hsc Hne Hrun. pose proof (endScriptScope_keeps b s HI) as HI'. rewrite Hrun in HI'.
  pose proof (inv_wf _ _ _ HI') as Hwf. cbn [snd] in Hwf. clear HI'. unfold endScriptScope in Hrun. rewrite bindM_gets, Hsc in Hrun. simpl in Hrun.
  assert (Hab : ∀ e : fs_error, (abortScriptScope ;;; (throw e : sysM unit)) s ≠ (Ok tt, s')).
  { intros e Hx. by destruct (abort_outcome e s _ _ HI Hsc Hx) as (_ & [e' ?] & _). }
  destruct b; [by apply Hab in Hrun|]. rewrite bindM_gets in Hrun. destruct (scriptTxLost (s_pers s)) as [lost|] eqn:Hlost; [by apply Hab in Hrun|].
  pose proof (finish_spec s HI Hsc Hlost) as Hf. unfold bindM at 1 in Hrun.
  destruct (finish s) as [[[|e rm|er rl]|?] s1]; [by destruct Hf| | |done].
  - destruct Hf as (_ & Hv & _ & _ & _ & ids & -> & Hb & Hc & Hla). exists ids. split; [done|]. rewrite Hv in Hc.
    destruct (publishScope_spec ids (s_view s1) (s_db s1) e Hb) as (v' & Hpub & _); [by rewrite Hv|].
    unfold catch, publishSettlement in Hrun. rewrite Hpub in Hrun. by injection Hrun as <-.
  - unfold bindM in Hrun. by destruct ((if rl then recoverCommittedView else retM tt) s1) as [[]?].
Qed.

End guarantees.

(** ** Witnesses *)

Lemma run_pair {A B} (p : A * B) a : p.1 = a → p = (a, p.2).
Proof. destruct p. simpl. congruence. Qed.

Lemma length_not_nil {A} (l : list A) : bool_decide (length l = 0%nat) = false → l ≠ [].
Proof. intros Hl%bool_decide_eq_false ->. by apply Hl. Qed.

Section witnesses.
#[local] Existing Instance demo_config.
#[local] Existing Instance lru_unbounded.

Lemma reachable_view_agrees_witness :
  walk (dirents (s_db demo_ready)) 1 ["home"; "user"] = Some 5.
Proof.
  refine (proj2 (reachable_view_agrees demo_ready (set_root (Some 1) (mkSandbox None (Some "alice") None false false false 0 0)) 1
    eq_refl demo_ready_reachable _ _ _ _ _ ["home"; "user"] _) (mkEntry 5 DIRECTORY 493 0 0 None None) _);
    [vm_compute; reflexivity..|compute_decide|vm_compute; reflexivity].
Defined.

Lemma reachable_cache_accounting_witness :
  v_bytes (s_view demo_script) = entries_bytes (v_entries (s_view demo_script)).
Proof. exact (proj2 (reachable_cache_accounting demo_script eq_refl demo_script_reachable ltac:(vm_compute; reflexivity))). Defined.

Definition demo_committed : Sys := (endScriptScope false demo_script).2.

Lemma demo_committed_run : endScriptScope false demo_script = (Ok tt, demo_committed).
Proof. unfold demo_committed. refine (run_pair (endScriptScope false demo_script) (Ok tt) _). vm_compute. reflexivity. Qed.

Lemma demo_script_open : scriptScope (s_pers demo_script) = true.
Proof. vm_compute. reflexivity. Qed.

Lemma demo_script_recorded : mutations (s_pers demo_script) ≠ [].
Proof. refine (length_not_nil _ _). vm_compute. reflexivity. Qed.

Lemma endScriptScope_atomic_witness :
  scriptScope (s_pers demo_committed) = false ∧ mutations (s_pers demo_script) ≠ [].
Proof.
  split; [|exact demo_script_recorded].
  exact (proj1 (endScriptScope_atomic false demo_script (Ok tt) demo_committed eq_refl demo_script_reachable
    demo_script_open demo_committed_run)).
Defined.


(** The same script, which sets the time of its file in the end. *)
Definition demo_timed : Sys := (fs_utimes "/home/user/b/f" 42 demo_script).2.

Lemma op_utimes p m s : run_op (OpUtimes p m) s = fs_utimes p m s.
Proof. done. Qed.

Lemma demo_timed_reachable : reachable_by op_safe demo_timed.
Proof. unfold demo_timed. rewrite <- op_utimes. apply demo_step; [exact demo_script_reachable|vm_compute; reflexivity|exact I]. Qed.

End witnesses.
