(* ===== verification/Isolation.v ===== *)
(** What an operation cannot touch: inside a script scope the database's tree,
    in a read-only scope anything at all; and the limits of the script buffer. *)

From S2P Require Import Prelude Errors Paths Store Tree Dialect Lifecycle LoadPaths View Session Namespace Coherence Simulation Journal Invariant Mutate Handlers SqlFs Ingest Scopes Machine Guarantees.

(** ** Inside a script scope *)

Section isolation.
Context `{Config} `{Lru}.

(** Only the blob table may differ. *)
Definition same_rows (d d' : db) : Prop :=
  sandboxes d' = sandboxes d ∧ inodes d' = inodes d ∧ dirents d' = dirents d ∧
  sandbox_epochs d' = sandbox_epochs d ∧ next_id d' = next_id d.

(** Run in a scope, [m] stays in it, leaves every row but the blobs and does not
    poison the view. *)
Definition contained {A} (m : sysM A) : Prop := ∀ s,
  scriptScope (s_pers s) = true →
  (scriptScope (s_pers (m s).2) = true ∧ same_rows (s_db s) (s_db (m s).2)) ∧
  v_poisoned (s_view (m s).2) = v_poisoned (s_view s).

Lemma contained_bind {A B} (m : sysM A) (f : A → sysM B) : contained m → (∀ a, contained (f a)) → contained (bindM m f).
Proof.
  intros Hm Hf s Hsc. specialize (Hm s Hsc). unfold bindM. destruct (m s) as [[a|e] s']; [|done].
  destruct Hm as ((Hsc' & H1 & H2 & H3 & H4 & H5) & Hpo). destruct (Hf a s' Hsc') as ((? & ? & ? & ? & ? & ?) & ?). simpl in *.
  unfold same_rows. split_and!; congruence.
Qed.

Lemma contained_quiet {A} (m : sysM A) : quiet m → contained m.
Proof. intros Hq s Hsc. destruct (Hq s) as (Hd & Hv & Hp). unfold same_rows. by rewrite Hd, Hv, Hp. Qed.

Lemma contained_view f : (∀ v, v_poisoned (f v) = v_poisoned v) → contained (modifyS (on_view f)).
Proof. intros Hf s Hsc. by split; [|apply Hf]. Qed.

Lemma contained_mutate spec : contained (mutate spec).
Proof.
  intros s Hsc. unfold mutate, captureGeneration, buffering. mnorm. rewrite Hsc.
  destruct (scriptTxLost (s_pers s)) as [lost|] eqn:Elost.
  { rewrite (bindM_Err _ _ _ lost s); [done|]. unfold assertAlive. by rewrite Hsc, Elost. }
  rewrite (bindM_Ok _ _ _ tt s) by (unfold assertAlive; by rewrite Hsc, Elost).
  destruct (mintInodeIds_spec (m_mints spec) s) as (ids & s1 & Hm & _ & _ & _ & ->).
  rewrite (bindM_Ok _ _ _ _ _ Hm). unfold recordMutation. mnorm. simpl. by destruct (decide _).
Qed.

Lemma contained_mutateOne spec : contained (mutateOne spec).
Proof.
  unfold mutateOne. apply contained_bind; [by apply contained_quiet|]. intros g.
  apply contained_bind; [apply contained_mutate|]. intros r. apply contained_bind; [|done].
  destruct g; apply contained_quiet; auto with quiet.
Qed.

Lemma contained_storeBlob st sha b : contained (storeBlob st sha b).
Proof.
  unfold storeBlob. apply contained_bind; [apply contained_quiet; auto with quiet|]. intros _.
  apply contained_bind; [|intros _; apply contained_quiet; auto with quiet]. by destruct (_ && _).
Qed.

Lemma contained_gets {A} (f : Sys → A) : contained (gets f).
Proof. done. Qed.
End isolation.

Create HintDb contained.
#[export] Hint Extern 2 (contained (modifyS (on_view _))) => (by apply contained_view) : contained.
#[export] Hint Resolve contained_mutate contained_mutateOne contained_storeBlob contained_gets : contained.

(** Walk through a method, closing each call with the database. *)
Ltac contain :=
  repeat first
    [ solve [auto with contained]
    | solve [apply contained_quiet; auto with quiet]
    | apply contained_bind; [|intros ?]
    | match goal with |- contained (match ?x with _ => _ end) => destruct x end
    | match goal with |- contained (if ?x then _ else _) => destruct x end ].

Section contained_ops.
Context `{Config} `{Lru}.

Lemma contained_publish pub ps cs c : contained (publish pub ps cs c).
Proof. apply contained_view. intros v. apply publish_poisoned. Qed.
Lemma contained_viewGet p : contained (viewGet p).
Proof. done. Qed.
Lemma contained_viewHas p : contained (viewHas p).
Proof. done. Qed.
Lemma contained_captureReservation : contained captureReservation.
Proof. done. Qed.
Lemma contained_viewParent p : contained (viewParent p).
Proof. by apply contained_quiet. Qed.
Hint Resolve contained_captureReservation contained_publish contained_viewGet contained_viewHas contained_viewParent quiet_mv_check quiet_readForAppend quiet_resolveReadEntry : contained quiet.

Lemma contained_mkdir_segments segs cur created m mt : contained (mkdir_segments segs cur created m mt).
Proof. revert cur created. induction segs; intros cur created; cbn [mkdir_segments]; contain. Qed.
Hint Resolve contained_mkdir_segments : contained.

Lemma contained_mkdirAt p r m : contained (mkdirAt p r m).
Proof. unfold mkdirAt, markDirty, newDate. contain. Qed.
Lemma contained_rmAt p r f : contained (rmAt p r f).
Proof. unfold rmAt. contain. Qed.
Lemma contained_writeFileAt p b m : contained (writeFileAt p b m).
Proof. unfold writeFileAt, captureReservation, newDate. contain. Qed.
Lemma contained_appendFileAt p b : contained (appendFileAt p b).
Proof. unfold appendFileAt, captureReservation, newDate. contain. Qed.
Hint Resolve contained_mkdirAt contained_rmAt contained_writeFileAt contained_appendFileAt : contained.
Lemma contained_cpAt s d r : contained (cpAt s d r).
Proof. unfold cpAt, newDate. contain. Qed.
Lemma contained_mvAt s d : contained (mvAt s d).
Proof. unfold mvAt. contain. Qed.
Lemma contained_symlinkAt t p : contained (symlinkAt t p).
Proof. unfold symlinkAt, newDate. contain. Qed.
Lemma contained_linkAt e p : contained (linkAt e p).
Proof. unfold linkAt. contain. Qed.
Lemma contained_chmodAt p m : contained (chmodAt p m).
Proof. unfold chmodAt. contain. Qed.
Lemma contained_utimesAt p m : contained (utimesAt p m).
Proof. unfold utimesAt. contain. Qed.
Hint Resolve contained_cpAt contained_mvAt contained_symlinkAt contained_linkAt contained_chmodAt contained_utimesAt : contained.

Lemma contained_reserved {A} (m : sysM A) : contained m → contained (withNamespaceMutation m).
Proof. intros Hm. unfold withNamespaceMutation, captureReservation. contain. Qed.

Lemma contained_readContent e : contained (readContent e).
Proof. unfold readContent. contain. Qed.
Hint Resolve contained_readContent : contained.

(** A batch is refused in a script scope before its transaction. *)
Lemma contained_bulkIngestAt files : contained (bulkIngestAt files).
Proof.
  intros s Hsc. pose proof (quiet_assertWritable "/" "bulkIngest" s) as (Hd & Hv & Hp).
  assert (∃ r, bulkIngestAt files s = (r, (assertWritable "/" "bulkIngest" s).2)) as [r ->].
  { unfold bulkIngestAt. unfold bindM at 1. destruct (assertWritable "/" "bulkIngest" s) as [[[]|err] s1]; [|by eexists].
    cbn [snd] in Hp. rewrite bindM_gets. unfold buffering, throw_if. rewrite Hp, Hsc. by eexists. }
  cbn [snd]. unfold same_rows. by rewrite Hd, Hv, Hp.
Qed.
Hint Resolve contained_bulkIngestAt : contained.

Lemma contained_run_op o : contained (run_op o).
Proof.
  destruct o; simpl;
    unfold fs_writeFile, fs_appendFile, fs_mkdir, fs_rm, fs_cp, fs_mv, fs_symlink, fs_link, fs_chmod, fs_utimes,
      fs_createExclusive, fs_readFileBuffer, readBytes, createExclusive, fs_bulkIngest, ns_bulkIngest,
      ns_writeFile, ns_appendFile, ns_mkdir, ns_rm, ns_cp, ns_mv, ns_symlink, ns_link, ns_chmod, ns_utimes;
    repeat first [apply contained_reserved | progress contain].
Qed.

(** Inside a script scope no operation writes the tree: whatever it is and
    however it ends, every sandbox, inode, directory entry and epoch of the
    database is unchanged (only content blobs may be added), and the scope is
    still open. *)
Theorem scope_ops_leave_the_tree o s :
  scriptScope (s_pers s) = true →
  scriptScope (s_pers (run_op o s).2) = true ∧ same_rows (s_db s) (s_db (run_op o s).2).
Proof. intros Hsc. apply (contained_run_op o s Hsc). Qed.
End contained_ops.

(** ** Read-only scopes *)

Section readonly.
Context `{Config} `{Lru}.

(** In a read-only scope [m] changes nothing and stays in it. *)
Definition inert {A} (m : sysM A) : Prop := ∀ s,
  0 < s_readOnlyDepth s → same_core s (m s).2 ∧ s_readOnlyDepth (m s).2 = s_readOnlyDepth s.

Lemma inert_bind {A B} (m : sysM A) (f : A → sysM B) : inert m → (∀ a, inert (f a)) → inert (bindM m f).
Proof.
  intros Hm Hf s Hd. destruct (Hm s Hd) as [Hc He]. unfold bindM. destruct (m s) as [[a|e] s']; [|done].
  simpl in *. destruct (Hf a s') as [Hc' He']; [lia|]. split; [by eapply same_core_trans | congruence].
Qed.

(** Everything after [assertWritable] is out of reach. *)
Lemma inert_writable {A} p op (f : unit → sysM A) : inert (bindM (assertWritable p op) f).
Proof.
  intros s Hd.
  assert (∃ e s', assertWritable p op s = (Err e, s') ∧ same_core s s' ∧ s_readOnlyDepth s' = s_readOnlyDepth s) as (e & s' & Hrun & Hc & He).
  { unfold assertWritable. unfold bindM at 1. unfold assertAlive.
    destruct (scriptScope (s_pers s)), (scriptTxLost (s_pers s)); try (by do 2 eexists);
      (rewrite bindM_gets, decide_True by done; by do 2 eexists). }
  by rewrite (bindM_Err _ _ _ _ _ Hrun).
Qed.

Lemma inert_gets {A} (f : Sys → A) : inert (gets f).
Proof. done. Qed.
Lemma inert_lift {A} (r : res fs_error A) : inert (lift_res r).
Proof. done. Qed.
Lemma inert_throw_if c e : inert (throw_if c e).
Proof. intros s. by destruct c. Qed.
Lemma inert_assertReservation st : inert (assertReservation st).
Proof.
  assert (Hal : inert assertAlive) by (intros s; unfold assertAlive; by destruct (scriptScope (s_pers s)), (scriptTxLost (s_pers s))).
  unfold assertReservation, assertGeneration.
  repeat first [apply inert_throw_if | apply inert_gets | exact Hal | apply inert_bind; [|intros ?] | destruct (st_active st)]; done.
Qed.
End readonly.

Ltac inertly :=
  repeat first
    [ apply inert_writable | apply inert_throw_if | apply inert_gets | apply inert_lift | apply inert_assertReservation
    | solve [intros ? ?; done]
    | apply inert_bind; [|intros ?]
    | match goal with |- inert (match ?x with _ => _ end) => destruct x end ].

Section readonly_ops.
Context `{Config} `{Lru}.

Lemma inert_reserved {A} (m : sysM A) : inert m → inert (withNamespaceMutation m).
Proof. intros Hm. unfold withNamespaceMutation, captureReservation. inertly. exact Hm. Qed.

Definition mutating (o : FsOp) : bool := match o with OpReadFile _ => false | _ => true end.

Lemma inert_run_op o : mutating o = true → inert (run_op o).
Proof.
  intros Ho. destruct o; try done; simpl;
    unfold fs_writeFile, fs_appendFile, fs_mkdir, fs_rm, fs_cp, fs_mv, fs_symlink, fs_link, fs_chmod, fs_utimes,
      fs_createExclusive, createExclusive, ns_writeFile, ns_appendFile, ns_mkdir, ns_rm, ns_cp, ns_mv, ns_symlink, ns_link, ns_chmod, ns_utimes,
      fs_bulkIngest, ns_bulkIngest, bulkIngestAt, writeFileAt, appendFileAt, mkdirAt, rmAt, cpAt, writeFileAt, mvAt, symlinkAt, linkAt, chmodAt, utimesAt;
    repeat first [apply inert_reserved | progress inertly].
Qed.

(** in a read-only scope every mutating operation, whatever its arguments and
    however deep the scope, leaves the database, the view and the journal exactly
    as they were. *)
Theorem readonly_scope_protects o s :
  mutating o = true → 0 < s_readOnlyDepth s → same_core s (run_op o s).2.
Proof. intros Ho Hd. by apply (inert_run_op o Ho s Hd). Qed.
End readonly_ops.

(** ** The limits of the script buffer *)

Section limits.
Context `{Config}.

Definition total_bytes (ms : list BufferedMutation) : Z := fold_right (λ m n, b_bytes m + n) 0 ms.

(** The journal is within its limits and its byte count is exact. *)
Definition within_limits (p : Pers) : Prop :=
  Z.of_nat (length (mutations p)) ≤ maxOps ∧ mutationBytes p ≤ maxBytes ∧ mutationBytes p = total_bytes (mutations p).

Lemma total_bytes_app l1 l2 : total_bytes (l1 ++ l2) = total_bytes l1 + total_bytes l2.
Proof. induction l1 as [|m l1 IH]; simpl; [done|]. rewrite IH. lia. Qed.

(** recording keeps the journal within maxOps and maxBytes with an exact byte
    count. A mutation that would exceed either limit is refused with
    ESCRIPTBUFFER: the journal is unchanged and the scope is marked lost, so that
    nothing of it can commit. Otherwise it becomes the last mutation of the
    journal, in the place of the write it supersedes if there is one. *)
Theorem recordMutation_within_limits m s :
  within_limits (s_pers s) → scriptTxLost (s_pers s) = None →
  let '(r, s') := recordMutation m s in
  within_limits (s_pers s') ∧
  match r with
  | Err e => mutations (s_pers s') = mutations (s_pers s) ∧ scriptTxLost (s_pers s') = Some e ∧ error_code e = Some "ESCRIPTBUFFER"
  | Ok _ => last (mutations (s_pers s')) = Some m ∧ scriptTxLost (s_pers s') = None ∧
      length (mutations (s_pers s')) =
        match superseding m (mutations (s_pers s)) with Some _ => length (mutations (s_pers s)) | None => S (length (mutations (s_pers s))) end
  end.
Proof.
  intros (Ho & Hb & Hs) Hlost. unfold recordMutation. rewrite bindM_gets. destruct (decide _) as [Hcap|Hcap].
  - unfold bindM, modifyS, throw. simpl. by rewrite Hlost.
  - unfold modifyS, within_limits. simpl. apply Decidable.not_or in Hcap as [H1 H2].
    destruct (superseding m (mutations (s_pers s))) as [l|] eqn:Esup.
    + unfold superseding in Esup. destruct (b_supersedes m); [|done]. destruct (last (mutations (s_pers s))) as [l'|] eqn:El; [|done].
      case_decide; [|done]. injection Esup as ->. apply last_Some in El as [l0 Hl0]. rewrite Hl0 in *. rewrite removelast_last.
      rewrite !length_app, total_bytes_app, last_snoc in *. simpl in *.
      split_and!; [lia|lia|lia|done|done|lia].
    + rewrite !length_app, total_bytes_app, last_snoc. simpl. split_and!; [lia|lia|lia|done|done|lia].
Qed.
End limits.

(** ** Witnesses *)

Section witnesses.
#[local] Existing Instance demo_config.
#[local] Existing Instance lru_unbounded.

Lemma scope_ops_leave_the_tree_witness :
  dirents (s_db (run_op (OpRm "/home" true false) demo_script).2) = dirents (s_db demo_script).
Proof. exact (proj1 (proj2 (proj2 (proj2 (scope_ops_leave_the_tree (OpRm "/home" true false) demo_script demo_script_open))))). Defined.

Lemma readonly_scope_protects_witness :
  s_db (run_op (OpWriteFile "/tmp/a" "x") (beginReadOnlyScope demo_ready).2).2 = demo_db.
Proof.
  exact (eq_trans (proj1 (readonly_scope_protects (OpWriteFile "/tmp/a" "x") (beginReadOnlyScope demo_ready).2 eq_refl
    ltac:(vm_compute; reflexivity))) ltac:(vm_compute; reflexivity)).
Defined.

Lemma recordMutation_within_limits_witness :
  within_limits (s_pers (recordMutation (mkBuffered "mkdir" [-1] 200 None (λ _, retM [])) demo_scope).2).
Proof.
  pose proof (recordMutation_within_limits (mkBuffered "mkdir" [-1] 200 None (λ _, retM [])) demo_scope) as Hw.
  destruct (recordMutation _ demo_scope) as [r s'] eqn:E. apply Hw; [|vm_compute; reflexivity].
  split_and!; vm_compute; [discriminate | discriminate | reflexivity].
Defined.
End witnesses.
