(* ===== verification/IngestOutcome.v ===== *)
(** What a bulk ingest promises: all of the batch or nothing, exactly the files
    and the missing ancestors, an error only for a conflict, and the same rows as
    one write per file. *)

From S2P Require Import Prelude Errors Paths Store Tree Dialect Lifecycle LoadPaths Composites View Session Namespace Coherence Simulation Journal Invariant Mutate Handlers SqlFs Ingest IngestRows IngestSim IngestSound Scopes Machine Guarantees Isolation.

Section outcome.
Context `{Config} `{Lru}.

(** The view after a batch: the files, their ancestors, and the rest as it was. *)
Record batch_view (files : list BulkIngestFile) (v v' : View) : Prop := {
  bv_files f : f ∈ files → ∃ en, view_get (bf_path f) v' = Some en ∧ kind en = FILE ∧ mode en = bf_mode f ∧
    e_size en = str_len (bf_content f) ∧ contentSha256 en = Some (sha256 (bf_content f));
  bv_dirs i q : ancestor files i q → ∃ en, view_get q v' = Some en ∧ kind en = DIRECTORY;
  bv_rest q : (∀ f, f ∈ files → bf_path f ≠ q) → (∀ i, ¬ ancestor files i q) ∨ view_get q v ≠ None → view_get q v' = view_get q v
}.

Lemma ingested_batch_view files v v' result :
  ingested v files result → (∀ k, view_get k v' = overlay result (λ k, view_get k v) k) → batch_view files v v'.
Proof.
  intros Hing Hg. split.
  - intros f Hf. destruct (ind_files _ _ _ Hing f Hf) as (id & now & Hj). eexists. rewrite Hg. unfold overlay. rewrite Hj. by split_and!.
  - intros i q Hq. destruct (ind_dirs _ _ _ Hing i q Hq) as (en & Hen & Hk). exists en. by rewrite Hg.
  - intros q Hnf Hq. rewrite Hg. unfold overlay. destruct (jget q result) as [en|] eqn:E; [|done].
    destruct (ind_only _ _ _ Hing q en E) as [(f & Hf & ?)|(_ & Hnone & i & Hi)]; [by destruct (Hnf f)|]. destruct Hq as [Hq|Hq]; [by destruct (Hq i)|done].
Qed.

(** The namespace operation out of a scope: refused when read-only, else its
    transaction and the publication. *)
Abbreviation bytes_of files := (fold_left (λ m f, jset (bf_path f) (bf_content f) m) files []).

Lemma bulkIngestAt_run files s : scriptScope (s_pers s) = false →
  if decide (0 < s_readOnlyDepth s) then ∃ err s', bulkIngestAt files s = (Err err, s') ∧ same_core s s'
  else bulkIngestAt files s =
    match write (λ rc, bulkIngest files (Some (expectedEpoch rc))) s with
    | (Ok (pub, result), s1) => (Ok tt, on_view (publishMutation pub (sets result) (mjoin (ingest_contents (s_view s1) (bytes_of files) <$> result)) true) s1)
    | (Err err, s1) => (Err err, s1)
    end.
Proof.
  intros Hsc. assert (Halive : assertAlive s = (Ok tt, s)) by (unfold assertAlive; by rewrite Hsc).
  case_decide as Hdep.
  - assert (Hw : assertWritable "/" "bulkIngest" s = (Err (EREADONLY "/" "bulkIngest"), set_violated (match s_violated s with Some _ => Some true | None => None end) s)).
    { unfold assertWritable. rewrite (bindM_Ok _ _ _ _ _ Halive), bindM_gets, decide_True by done. done. }
    eexists _, _. split; [unfold bulkIngestAt; exact (bindM_Err _ _ _ _ _ Hw)|done].
  - assert (Hw : assertWritable "/" "bulkIngest" s = (Ok tt, s)).
    { unfold assertWritable. rewrite (bindM_Ok _ _ _ _ _ Halive), bindM_gets, decide_False by done. done. }
    unfold bulkIngestAt. rewrite (bindM_Ok _ _ _ _ _ Hw), bindM_gets. unfold buffering, throw_if. rewrite Hsc. rewrite bindM_ret.
    unfold bindM at 1. by destruct (write _ s) as [[[pub result]|err] s1].
Qed.

(** A run of the namespace operation. *)
Lemma bulkIngestAt_outcome v s files css :
  at_view v s → scriptScope (s_pers s) = false → normal_batch files css →
  match bulkIngestAt files s with
  | (Ok _, s') => Inv s' ∧ v_poisoned (s_view s') = false ∧ scriptScope (s_pers s') = false ∧ batch_view files v (s_view s') ∧
      (∀ f en, f ∈ files → view_get (bf_path f) v = Some en → kind en ≠ DIRECTORY) ∧
      ∃ row, sandboxes (s_db s') !! sandboxId = Some row ∧ v_epoch (s_view s') = s_version row
  | (Err err, s') => s_view s' = v ∧ same_rows (s_db s) (s_db s') ∧
      (s_readOnlyDepth s = 0 → (∀ n, s_lease s n = None) →
       (∃ row, sandboxes (s_db s) !! sandboxId = Some row ∧ s_version row = v_epoch v) → conflict v files err)
  end.
Proof.
  intros Ha Hsc Hn. pose proof (bulkIngestAt_sound files css Hn v s Ha) as Hsound. unfold post in Hsound.
  pose proof (bulkIngestAt_run files s Hsc) as Hrun. case_decide as Hdep.
  { destruct Hrun as (err & s' & -> & Hd & Hv & _). rewrite Hv, Hd. split_and!; [apply Ha|done|]. intros. lia. }
  rewrite Hrun in *. pose proof (bulk_write_spec v s files css Ha Hsc Hn) as Hw. destruct (write _ s) as [[[pub result]|err] s1].
  - destruct Hw as (Hv & Hp & Hing & row & w & Hrow & -> & Hwf & Hcw & Hg). destruct Hsound as [HI _ Hpo _].
    split_and!; [done|done|simpl; by rewrite Hp| |apply Hing|exists row; split; [done|apply publish_epoch]].
    eapply ingested_batch_view; [done|]. intros k. cbn [s_view on_view]. unfold view_get at 1.
    destruct (publish_entries (Committed (s_version row)) (sets result) (mjoin (ingest_contents (s_view s1) (bytes_of files) <$> result)) true (s_view s1)) as [-> _].
    rewrite Hv. by apply get_sets, Hing.
  - destruct Hw as [(Hv & _ & B & Hd) Hcf]. rewrite Hv. split_and!; [apply Ha| |by intros _]. by rewrite Hd.
Qed.

(** The facade. *)
Lemma fs_bulkIngest_run files fs' s : files ≠ [] → normalize_ingest [] files = Ok fs' → scriptScope (s_pers s) = false →
  fs_bulkIngest files s = bulkIngestAt fs' s.
Proof.
  intros Hne Hn Hsc. unfold fs_bulkIngest. rewrite decide_False by (by destruct files). unfold lift_res, bindM at 1. rewrite Hn.
  unfold ns_bulkIngest, withNamespaceMutation, captureReservation. mnorm. unfold assertReservation, assertGeneration, assertAlive, throw_if. mnorm. simpl.
  rewrite Hsc. rewrite bool_decide_eq_true_2 by done. simpl. mnorm. rewrite Hsc. simpl. mnorm. unfold bindM. simpl. by rewrite Hsc.
Qed.

(** C15: A bulk ingest is all or nothing. Whatever run led to the session, outside
    a script scope a batch either throws, and then the view and every row of the
    tree are as before, or it returns, and then every file is at its path with
    its mode, size and content hash, every ancestor is a directory, every path
    that is neither is as before, and the view is the committed tree. *)
Theorem bulk_ingest_all_or_nothing files fs' s :
  hasRetire = true → reachable s → v_poisoned (s_view s) = false → scriptScope (s_pers s) = false →
  files ≠ [] → normalize_ingest [] files = Ok fs' →
  match fs_bulkIngest files s with
  | (Ok _, s') => batch_view fs' (s_view s) (s_view s') ∧
      ∃ row root, sandboxes (s_db s') !! sandboxId = Some row ∧ s_root row = Some root ∧ v_epoch (s_view s') = s_version row ∧
        ∀ cs, valid_comps cs → shows (s_db s') root cs (view_get (path_of cs) (s_view s'))
  | (Err _, s') => s_view s' = s_view s ∧ same_rows (s_db s) (s_db s')
  end.
Proof.
  intros Hret Hr Hp Hsc Hne Hn. destruct (normalize_batch files fs' Hne Hn) as [css Hb]. rewrite (fs_bulkIngest_run files fs') by done.
  pose proof (bulkIngestAt_outcome (s_view s) s fs' css (at_view_intro s (reachable_Inv Hret s Hr) Hp) Hsc Hb) as Ho.
  destruct (bulkIngestAt fs' s) as [[[]|err] s']; [|by destruct Ho as (? & ? & _)].
  destruct Ho as (HI & Hpo & Hsc' & Hbv & _ & row & Hrow & Hep). split; [done|].
  destruct (Inv_settled s' HI Hpo Hsc') as [(_ & Hset & _) _]. destruct (Hset row Hrow) as [_ Hc]. specialize (Hc Hep).
  destruct (coh_root _ _ _ _ Hc) as (root & Hroot). pose proof Hroot as Hroot'. unfold root_of in Hroot'. rewrite Hrow in Hroot'. simpl in Hroot'.
  exists row, root. split_and!; try done. intros cs Hcs. by eapply coh_shows.
Qed.

(** A bulk ingest fails only for a conflict. In a current session that may
    write and keeps its lease, a batch returns exactly when none of its files is
    a directory or an ancestor of another file and none of their ancestors is
    there as something else; the error names such a path. *)
Theorem bulk_ingest_total files fs' s row :
  hasRetire = true → reachable s → v_poisoned (s_view s) = false → scriptScope (s_pers s) = false →
  files ≠ [] → normalize_ingest [] files = Ok fs' →
  s_readOnlyDepth s = 0 → (∀ n, s_lease s n = None) → sandboxes (s_db s) !! sandboxId = Some row → s_version row = v_epoch (s_view s) →
  match (fs_bulkIngest files s).1 with
  | Ok _ => ∀ err, ¬ conflict (s_view s) fs' err
  | Err err => conflict (s_view s) fs' err
  end.
Proof.
  intros Hret Hr Hp Hsc Hne Hn Hdep Hl Hrow Hver. destruct (normalize_batch files fs' Hne Hn) as [css Hb]. rewrite (fs_bulkIngest_run files fs') by done.
  pose proof (bulkIngestAt_outcome (s_view s) s fs' css (at_view_intro s (reachable_Inv Hret s Hr) Hp) Hsc Hb) as Ho.
  destruct (bulkIngestAt fs' s) as [[[]|err] s']; simpl; [|destruct Ho as (_ & _ & Hc); apply Hc; try done; by exists row].
  destruct Ho as (_ & _ & _ & Hbv & Hfree & _). intros err [i q Hq (en & Hen & Hk)|f Hf [(en & Hen & Hk)|(i & Hq)]].
  - destruct (bv_dirs _ _ _ Hbv i q Hq) as (en' & Hen' & Hk'). destruct (decide (Exists (λ f, bf_path f = q) fs')) as [(f & Hf & <-)%Exists_exists|Hnf].
    + destruct (bv_files _ _ _ Hbv f Hf) as (en2 & Hen2 & Hk2 & _). congruence.
    + rewrite (bv_rest _ _ _ Hbv q) in Hen'; [congruence| |right; congruence]. intros f Hf Heq. apply Hnf, Exists_exists. by exists f.
  - by apply (Hfree f en).
  - destruct (bv_dirs _ _ _ Hbv i _ Hq) as (en' & Hen' & Hk'). destruct (bv_files _ _ _ Hbv f Hf) as (en2 & Hen2 & Hk2 & _). congruence.
Qed.
End outcome.

(** ** The same rows as one write per file *)

(** Two databases that differ in the sandboxes table at most. *)
Definition same_tables (d d' : db) : Prop :=
  inodes d' = inodes d ∧ dirents d' = dirents d ∧ blobs d' = blobs d ∧ sandbox_epochs d' = sandbox_epochs d ∧
  next_id d' = next_id d ∧ clock d' = clock d.

#[export] Instance same_tables_equiv : Equivalence same_tables.
Proof. split; [by intros d|intros d d' (?&?&?&?&?&?); unfold same_tables; by split_and!|]. intros d1 d2 d3 (?&?&?&?&?&?) (?&?&?&?&?&?). unfold same_tables. split_and!; congruence. Qed.

#[export] Instance put_nodes_proper l : Proper (same_tables ==> same_tables) (put_nodes l).
Proof.
  assert (Hone : ∀ x d d', same_tables d d' → same_tables (put_node d x) (put_node d' x)).
  { intros [[p n] r] [] [] (Hi & Hd & Hb & He & Hn & Hc). simpl in *. subst. unfold put_node, replace_node, remove_entry, drop_row. simpl.
    repeat (case_match; simpl); done. }
  induction l as [|x l IH]; intros d d' Hs; [done|]. simpl. by apply IH, Hone.
Qed.

Lemma bump_tables sb t : same_tables (t_db t) (t_db (bump sb t)).
Proof. unfold bump, same_tables. by destruct (sandboxes (t_db t) !! sb). Qed.

Lemma fillable_tables d d' sb k : same_tables d d' → fillable d sb k → fillable d' sb k.
Proof. intros (Hi & Hd & _). unfold fillable, is_dir. by rewrite Hi, Hd. Qed.

Section writes.
Context `{Config}.

(** [writeFileComposite] for one file after the other. *)
Fixpoint write_each (files : list HashedFile) (expected : option Z) : txM (list Z) :=
  match files with
  | [] => retM []
  | f :: files' =>
      let* id := writeFileComposite sandboxId (hf_parent f) (hf_name f) (hf_mode f) (str_len (hf_content f)) (hf_sha256 f) expected in
      let* ids := write_each files' expected in
      retM (id :: ids)
  end.

Lemma write_each_run files t e :
  in_tx t sandboxId e → wf_db (t_db t) → NoDup (hf_key <$> files) → Forall (fillable (t_db t) sandboxId) (hf_key <$> files) →
  ∃ t', write_each files (Some e) t = (Ok (serials (next_id (t_db t)) (length files)), t') ∧
    same_tables (put_nodes (zip (hf_key <$> files) (file_row (clock (t_db t)) <$> files)) (t_db t)) (t_db t').
Proof.
  revert t. induction files as [|f files IH]; intros t Hin Hwf Hnd Hfill; [by exists t|]. rewrite !fmap_cons in *. apply NoDup_cons in Hnd as [Hn Hnd].
  pose proof (fill_rest (t_db (bump sandboxId t)) sandboxId (hf_key f) (file_row (clock (t_db t)) f) (zip (hf_key <$> files) (file_row (clock (t_db t)) <$> files))) as Hrest.
  rewrite fst_zip in Hrest by (by rewrite !length_fmap).
  assert (Hwfb : wf_db (t_db (bump sandboxId t))) by (eapply wf_same_shape, Hwf; apply bump_shape).
  assert (Hfillb : Forall (fillable (t_db (bump sandboxId t)) sandboxId) (hf_key f :: (hf_key <$> files))).
  { eapply Forall_impl; [exact Hfill|]. intros k. apply fillable_tables, bump_tables. }
  specialize (Hrest Hwfb Hfillb Hn). apply Forall_cons in Hfill as [Hf _]. apply Forall_cons in Hfillb as [Hfb _].
  set (row := file_row (clock (t_db t)) f). set (t1 := on_db (replace_node (hf_parent f) (hf_name f) row) (bump sandboxId t)).
  assert (Hw : writeFileComposite sandboxId (hf_parent f) (hf_name f) (hf_mode f) (str_len (hf_content f)) (hf_sha256 f) (Some e) t = (Ok (next_id (t_db t)), t1)).
  { apply (writeFileComposite_spec t sandboxId e Hin Hwf); [apply Hf|by apply fill_replaceable]. }
  destruct (replace_rest (hf_parent f) (hf_name f) row (t_db (bump sandboxId t))) as (R1 & _ & _ & R4 & R5). autorewrite with bump in R4, R5.
  destruct (IH t1) as (t' & Hrun & Hs).
  - apply in_tx_on_db; [by apply bump_in_tx|done].
  - by apply (wf_replace _ sandboxId).
  - done.
  - exact Hrest.
  - exists t'. cbn [write_each length]. rewrite (bindM_Ok _ _ _ _ _ Hw), (bindM_Ok _ _ _ _ _ Hrun). unfold t1 in *. cbn [t_db on_db] in Hs |- *.
    rewrite R5, serials_S. split; [done|]. rewrite R4 in Hs. etransitivity; [|exact Hs].
    change (put_nodes (zip (hf_key f :: _) (row :: _)) (t_db t)) with
      (put_nodes (zip (hf_key <$> files) (file_row (clock (t_db t)) <$> files)) (put_nodes [(hf_key f, row)] (t_db t))).
    apply put_nodes_proper. apply (put_nodes_proper [(hf_key f, row)]), bump_tables.
Qed.

(** C16: The batched statements are an optimisation. On slots that may be filled,
    inserting all the file rows, redirecting the entries that exist, unlinking
    what they pointed at by its number of occurrences and inserting the other
    entries gives the same inodes, entries and ids as running [writeFileComposite]
    for one file after the other. *)
Theorem bulk_rows_equal_single_writes t e old files :
  in_tx t sandboxId e → wf_db (t_db t) → NoDup (hf_key <$> files) → Forall (fillable (t_db t) sandboxId) (hf_key <$> files) →
  (∀ k, k ∈ hf_key <$> files → jget k old = d_inodeId <$> dirents (t_db t) !! k) →
  ∃ ids t1 t2, write_each files (Some e) t = (Ok ids, t2) ∧
    ingest_files old files t = (Ok ((λ fi, (hf_path fi.1, file_entry_at (clock (t_db t)) fi.1 fi.2)) <$> zip files ids), t1) ∧
    same_tables (t_db t1) (t_db t2).
Proof.
  intros Hin Hwf Hnd Hfill Hold. destruct (write_each_run files t e Hin Hwf Hnd Hfill) as (t2 & Hrun & Hs).
  pose proof (ingest_files_run t old files (proj1 Hin) Hwf Hnd Hfill Hold) as Hb. by eexists _, _, t2.
Qed.
End writes.

(** ** Concrete batches *)

Section demo_ingest.
#[local] Existing Instance demo_config.
#[local] Existing Instance lru_unbounded.

(** Two files in a directory that does not exist, and one that does. *)
Definition demo_batch : list BulkIngestFile :=
  [mkIngestFile "/tmp/a/b/f" "hello" 420; mkIngestFile "/tmp/a/g" "bye" 420; mkIngestFile "/home/user/h" "x" 384].

Definition demo_bad_batch : list BulkIngestFile := [mkIngestFile "/home/f" "x" 420; mkIngestFile "/home/user" "x" 420].

Lemma bulk_ingest_all_or_nothing_witness :
  batch_view demo_batch (s_view demo_ready) (s_view (fs_bulkIngest demo_batch demo_ready).2).
Proof.
  pose proof (bulk_ingest_all_or_nothing demo_batch demo_batch demo_ready eq_refl demo_ready_reachable eq_refl eq_refl ltac:(discriminate) eq_refl) as Ho.
  assert (Hok : (fs_bulkIngest demo_batch demo_ready).1 = Ok tt) by (vm_compute; reflexivity).
  destruct (fs_bulkIngest demo_batch demo_ready) as [[[]|err] s']; [exact (proj1 Ho)|discriminate Hok].
Defined.

Lemma bulk_ingest_total_witness : conflict (s_view demo_ready) demo_bad_batch (EISDIR "/home/user").
Proof.
  destruct (sandboxes (s_db demo_ready) !! "s") as [row|] eqn:E; [|vm_compute in E; discriminate E].
  pose proof (bulk_ingest_total demo_bad_batch demo_bad_batch demo_ready row eq_refl demo_ready_reachable eq_refl eq_refl ltac:(discriminate) eq_refl eq_refl (λ _, eq_refl) E) as Ho.
  assert (Hv : s_version row = v_epoch (s_view demo_ready)) by (vm_compute in E; injection E as <-; vm_compute; reflexivity). specialize (Ho Hv).
  assert (Herr : (fs_bulkIngest demo_bad_batch demo_ready).1 = Err (EISDIR "/home/user")) by (vm_compute; reflexivity).
  rewrite Herr in Ho. exact Ho.
Defined.

Definition demo_hashed : list HashedFile := [mkHashed "/tmp/f" "x" 420 "x" "f" 3; mkHashed "/bin/f" "y" 420 "y" "f" 4].

Lemma bulk_rows_equal_single_writes_witness :
  ∃ ids t1 t2, write_each demo_hashed (Some 0) demo_tx = (Ok ids, t2) ∧
    ingest_files [] demo_hashed demo_tx = (Ok ((λ fi, (hf_path fi.1, file_entry_at 0 fi.1 fi.2)) <$> zip demo_hashed ids), t1) ∧
    same_tables (t_db t1) (t_db t2).
Proof.
  apply (bulk_rows_equal_single_writes demo_tx 0 [] demo_hashed).
  - exact demo_in_tx.
  - exact wf_demo_db.
  - compute_decide.
  - repeat constructor; try compute_decide; try (apply (demo_dir _ 0); vm_compute; reflexivity); intros de r Hde; vm_compute in Hde; discriminate Hde.
  - intros k Hk. repeat (apply elem_of_cons in Hk as [->|Hk]; [vm_compute; reflexivity|]). apply elem_of_nil in Hk. destruct Hk.
Defined.
End demo_ingest.
