(* ===== verification/Base64.v ===== *)
(** Base64 payloads (src/src/api/ingest-validation.ts, [isValidBase64]).

    [encode64] is the RFC 4648 encoder behind [buffer.toString("base64")]. The
    decoder [Buffer.from(s, "base64")] is lenient: it accepts whitespace, the
    URL alphabet and stray pad bits in ways its documentation leaves open, so it
    is an operation of the class [Base64Decoder], of which only the documented
    round trip [decode_encode] is assumed. *)

From S2P Require Import Prelude.

(** ** The encoder *)

Definition BASE64_ALPHABET : string := "ABCDEFGHIJKLMNOPQRSTUVWXYZabcdefghijklmnopqrstuvwxyz0123456789+/".

Definition pad_char : ascii := "="%char.

Definition digit64 (n : Z) : ascii := default pad_char (String.get (Z.to_nat n) BASE64_ALPHABET).

Definition byte_of (c : ascii) : Z := Z.of_N (N_of_ascii c).

(** The four digits of three bytes, and the pads of a short last group. *)
Fixpoint encode64 (s : string) : string :=
  match s with
  | EmptyString => EmptyString
  | String a EmptyString =>
      String (digit64 (byte_of a / 4)) (String (digit64 (byte_of a mod 4 * 16))
        (String pad_char (String pad_char EmptyString)))
  | String a (String b EmptyString) =>
      String (digit64 (byte_of a / 4)) (String (digit64 (byte_of a mod 4 * 16 + byte_of b / 16))
        (String (digit64 (byte_of b mod 16 * 4)) (String pad_char EmptyString)))
  | String a (String b (String c s')) =>
      String (digit64 (byte_of a / 4)) (String (digit64 (byte_of a mod 4 * 16 + byte_of b / 16))
        (String (digit64 (byte_of b mod 16 * 4 + byte_of c / 64)) (String (digit64 (byte_of c mod 64))
          (encode64 s'))))
  end.

(** What the validator relies on from [Buffer.from(s, "base64")]. *)
Class Base64Decoder := decode64 : string → string.

Class Base64Laws `{Base64Decoder} : Prop := {
  decode_encode b : decode64 (encode64 b) = b;
}.

(** ** The validator *)

Definition in_range (lo hi c : ascii) : bool :=
  (byte_of lo <=? byte_of c) && (byte_of c <=? byte_of hi).

(** [[A-Za-z0-9+/]] *)
Definition base64_char (c : ascii) : bool :=
  in_range "A" "Z" c || in_range "a" "z" c || in_range "0" "9" c
  || bool_decide (c = "+"%char) || bool_decide (c = "/"%char).

(** [BASE64_RE]: groups of four, then perhaps a padded one. The pad is not in
    the alphabet, so the match is deterministic. *)
Fixpoint base64_re (s : string) : bool :=
  match s with
  | EmptyString => true
  | String a (String b (String c (String d s'))) =>
      base64_char a && base64_char b &&
      (if base64_char c
       then (if base64_char d then base64_re s' else bool_decide (d = pad_char) && bool_decide (s' = EmptyString))
       else bool_decide (c = pad_char) && bool_decide (d = pad_char) && bool_decide (s' = EmptyString))
  | _ => false
  end.

Definition BASE64_RE_MAX_LEN : Z := 1000000.

Definition isValidBase64 `{Base64Decoder} (s : string) : bool :=
  if (str_len s <=? BASE64_RE_MAX_LEN) && negb (base64_re s) then false
  else bool_decide (encode64 (decode64 s) = s).

(** ** Lemmas *)

(** Three characters at a time. *)
Lemma triples_ind (P : string → Prop) :
  P EmptyString → (∀ a, P (String a EmptyString)) → (∀ a b, P (String a (String b EmptyString))) →
  (∀ a b c s, P s → P (String a (String b (String c s)))) → ∀ s, P s.
Proof.
  intros H0 H1 H2 H3. fix IH 1. intros [|a [|b [|c s]]]; [done..|]. apply H3, IH.
Qed.

Lemma byte_of_range c : 0 ≤ byte_of c < 256.
Proof.
  unfold byte_of. pose proof (N_ascii_bounded c). lia.
Qed.

Lemma digit64_char n : 0 ≤ n < 64 → base64_char (digit64 n) = true.
Proof.
  intros Hn. assert (Hall : forallb (λ k, base64_char (digit64 (Z.of_nat k))) (seq 0 64) = true) by (vm_compute; done).
  rewrite forallb_forall in Hall. specialize (Hall (Z.to_nat n)). rewrite Z2Nat.id in Hall by lia.
  apply Hall, in_seq. lia.
Qed.

(** The digits of a group are in the alphabet. *)
Ltac digits64 :=
  rewrite ?digit64_char by
    (repeat match goal with
            | |- context [byte_of ?c] => pose proof (byte_of_range c); generalize dependent (byte_of c); intros
            end; Z.to_euclidean_division_equations; lia).

Lemma encode64_re s : base64_re (encode64 s) = true.
Proof. induction s as [|a|a b|a b c s IH] using triples_ind; [done|..]; simpl; by digits64. Qed.

(** ** Sizes *)

(** [s.endsWith(t)] *)
Definition ends_with (s t : string) : bool :=
  (str_len t <=? str_len s) && bool_decide (slice_from s (str_len s - str_len t) = t).

(** The size the manifest computes without decoding
    (src/src/api/ingest-manifest.ts, [prepareBulkIngestPayload]). *)
Definition b64_size (b64 : string) : Z :=
  str_len b64 / 4 * 3 - (if ends_with b64 "==" then 2 else if ends_with b64 "=" then 1 else 0).

Lemma str_len_String c s : str_len (String c s) = str_len s + 1.
Proof. unfold str_len. simpl. lia. Qed.

Lemma ends_with_app u t : ends_with (u +:+ t) t = true.
Proof.
  unfold ends_with. pose proof (str_len_nonneg u). rewrite str_len_app.
  rewrite (proj2 (Z.leb_le _ _)) by lia. replace (str_len u + str_len t - str_len t) with (str_len u) by lia.
  rewrite slice_from_app. by rewrite bool_decide_eq_true_2.
Qed.

Lemma ends_with_same u t t' : str_len t = str_len t' → t ≠ t' → ends_with (u +:+ t) t' = false.
Proof.
  intros Hl Hne. unfold ends_with. rewrite str_len_app, <- Hl. replace (str_len u + str_len t - str_len t) with (str_len u) by lia.
  rewrite slice_from_app. rewrite bool_decide_eq_false_2 by done. apply andb_false_r.
Qed.

Lemma str_suffix s n : 0 ≤ n ≤ str_len s → ∃ a b, s = a +:+ b ∧ str_len b = n.
Proof.
  induction s as [|c s IH]; intros Hn.
  - exists EmptyString, EmptyString. split; [done|]. unfold str_len in *. simpl in *. lia.
  - destruct (decide (n = str_len (String c s))) as [->|Hne]; [by exists EmptyString, (String c s)|].
    rewrite str_len_String in *. destruct IH as (a & b & -> & Hb); [lia|]. by exists (String c a), b.
Qed.

(** The last characters of a text decide. *)
Lemma ends_with_skip u s t : str_len t ≤ str_len s → ends_with (u +:+ s) t = ends_with s t.
Proof.
  intros Hl. destruct (str_suffix s (str_len t)) as (a & b & -> & Hb); [pose proof (str_len_nonneg t); lia|].
  rewrite <- str_app_assoc. destruct (decide (b = t)) as [->|Hne]; [by rewrite !ends_with_app | by rewrite !ends_with_same].
Qed.

Lemma digit64_not_pad n : 0 ≤ n < 64 → digit64 n ≠ pad_char.
Proof. intros Hn Hp. pose proof (digit64_char n Hn) as Hc. rewrite Hp in Hc. discriminate Hc. Qed.

Lemma encode64_long s : s ≠ EmptyString → 4 ≤ str_len (encode64 s).
Proof.
  destruct s as [|a [|b [|c s]]]; intros Hne; [done| | |]; cbn [encode64]; rewrite !str_len_String; unfold str_len; simpl; lia.
Qed.

(** A full group without its pads. *)
Lemma b64_size_group c1 c2 c3 c4 s :
  c4 ≠ pad_char → s = EmptyString ∨ 4 ≤ str_len s →
  b64_size (String c1 (String c2 (String c3 (String c4 s)))) = b64_size s + 3.
Proof.
  intros Hc Hs. unfold b64_size. rewrite !str_len_String.
  replace (str_len s + 1 + 1 + 1 + 1) with (str_len s + 1 * 4) by lia. rewrite Z.div_add by lia.
  assert (Hg : ∀ t, t = "==" ∨ t = "=" → ends_with (String c1 (String c2 (String c3 (String c4 s)))) t = ends_with s t).
  { intros t Ht. destruct Hs as [->|Hs].
    - assert (Hf : ends_with EmptyString t = false) by (by destruct Ht as [-> | ->]). rewrite Hf. destruct Ht as [-> | ->].
      + apply (ends_with_same (String c1 (String c2 EmptyString)) (String c3 (String c4 EmptyString)) "=="); [done|by intros [=]].
      + apply (ends_with_same (String c1 (String c2 (String c3 EmptyString))) (String c4 EmptyString) "="); [done|by intros [=]].
    - apply (ends_with_skip (String c1 (String c2 (String c3 (String c4 EmptyString))))). destruct Ht as [-> | ->]; change (str_len "==") with 2 || change (str_len "=") with 1; lia. }
  rewrite !Hg by auto. lia.
Qed.

(** The padded groups. *)
Lemma b64_size_pad2 a b : b64_size (String a (String b "==")) = 1.
Proof. unfold b64_size. by rewrite (ends_with_app (String a (String b EmptyString)) "==" : ends_with (String a (String b "==")) "==" = true). Qed.

Lemma b64_size_pad1 a b c : c ≠ pad_char → b64_size (String a (String b (String c "="))) = 2.
Proof.
  intros Hc. unfold b64_size.
  rewrite (ends_with_app (String a (String b (String c EmptyString))) "=" : ends_with (String a (String b (String c "="))) "=" = true).
  assert (Hf : ends_with (String a (String b (String c "="))) "==" = false)
    by (apply (ends_with_same (String a (String b EmptyString)) (String c "=") "=="); [done|by intros [=]]).
  by rewrite Hf.
Qed.

Lemma b64_size_encode s : b64_size (encode64 s) = str_len s.
Proof.
  induction s as [|a|a b|a b c s IH] using triples_ind; [done|..].
  - apply b64_size_pad2.
  - apply b64_size_pad1, digit64_not_pad. pose proof (byte_of_range b). Z.to_euclidean_division_equations. lia.
  - cbn [encode64]. rewrite b64_size_group, IH, !str_len_String; [lia| |].
    + apply digit64_not_pad. pose proof (byte_of_range c). Z.to_euclidean_division_equations. lia.
    + destruct s; [by left | right; by apply encode64_long].
Qed.

Section validator.
Context `{Base64Decoder} {Hlaws : Base64Laws}.

Lemma valid_decode s : isValidBase64 s = true → encode64 (decode64 s) = s.
Proof. unfold isValidBase64. case_match; [done|]. apply bool_decide_eq_true_1. Qed.

Lemma valid_encode b : isValidBase64 (encode64 b) = true.
Proof.
  unfold isValidBase64. rewrite encode64_re, andb_false_r. apply bool_decide_eq_true_2. by rewrite decode_encode.
Qed.

Lemma valid_size s : isValidBase64 s = true → b64_size s = str_len (decode64 s).
Proof. intros Hv. rewrite <- (valid_decode s Hv) at 1. apply b64_size_encode. Qed.

(** The validator accepts exactly the canonical encodings. A text passes
    exactly when it is the RFC 4648 encoding of some bytes, whatever its length
    and whatever the lenient decoder does with other texts; what is then stored
    re-encodes to the text received, no other accepted text stands for the same
    bytes, and the size computed from the length alone is the number of bytes. *)
Theorem base64_canonical s :
  (isValidBase64 s = true ↔ ∃ b, s = encode64 b) ∧
  (isValidBase64 s = true →
     encode64 (decode64 s) = s ∧ b64_size s = str_len (decode64 s) ∧
     ∀ s', isValidBase64 s' = true → decode64 s' = decode64 s → s' = s).
Proof.
  split_and!.
  - split; [intros Hv; exists (decode64 s); by rewrite valid_decode | intros [b ->]; apply valid_encode].
  - intros Hv. split_and!; [by apply valid_decode | by apply valid_size|].
    intros s' Hv' Hd. rewrite <- (valid_decode s Hv), <- (valid_decode s' Hv'). by rewrite Hd.
Qed.
End validator.

(** ** A decoder *)

(** The strict decoder of RFC 4648, a concrete [Base64Decoder]. *)
Definition value64 (c : ascii) : Z :=
  Z.of_nat (default 0%nat (fst <$> list_find (λ k, digit64 (Z.of_nat k) = c) (seq 0 64))).

Definition char_of (n : Z) : ascii := ascii_of_N (Z.to_N n).

Fixpoint strict_decode (s : string) : string :=
  match s with
  | String a (String b (String c (String d s'))) =>
      let x := value64 a in let y := value64 b in let z := value64 c in let w := value64 d in
      let first := char_of (x * 4 + y / 16) in
      if decide (c = pad_char) then String first EmptyString
      else
        let second := char_of (y mod 16 * 16 + z / 4) in
        if decide (d = pad_char) then String first (String second EmptyString)
        else String first (String second (String (char_of (z mod 4 * 64 + w)) (strict_decode s')))
  | _ => EmptyString
  end.

Lemma value64_digit n : 0 ≤ n < 64 → value64 (digit64 n) = n.
Proof.
  intros Hn. assert (Hall : forallb (λ k, value64 (digit64 (Z.of_nat k)) =? Z.of_nat k) (seq 0 64) = true) by (vm_compute; done).
  rewrite forallb_forall in Hall. specialize (Hall (Z.to_nat n)). rewrite Z2Nat.id in Hall by lia.
  apply Z.eqb_eq, Hall, in_seq. lia.
Qed.

Lemma char_of_byte c : char_of (byte_of c) = c.
Proof. unfold char_of, byte_of. rewrite N2Z.id. apply ascii_N_embedding. Qed.

(** Regrouping the bits of three bytes. *)
Lemma regroup a b c : 0 ≤ a < 256 → 0 ≤ b < 256 → 0 ≤ c < 256 →
  (a / 4) * 4 + (a mod 4 * 16 + b / 16) / 16 = a ∧
  (a mod 4 * 16 + b / 16) mod 16 * 16 + (b mod 16 * 4 + c / 64) / 4 = b ∧
  (b mod 16 * 4 + c / 64) mod 4 * 64 + c mod 64 = c.
Proof. intros. Z.to_euclidean_division_equations. lia. Qed.

Lemma strict_decode_encode b : strict_decode (encode64 b) = b.
Proof.
  induction b as [|a|a b|a b c s IH] using triples_ind; [done|..]; cbn [encode64 strict_decode].
  - pose proof (byte_of_range a). pose proof (regroup (byte_of a) 0 0) as (Ha & _); [lia..|].
    rewrite Z.add_0_r in Ha. rewrite decide_True by done. rewrite !value64_digit by (Z.to_euclidean_division_equations; lia).
    by rewrite Ha, char_of_byte.
  - pose proof (byte_of_range a). pose proof (byte_of_range b). pose proof (regroup (byte_of a) (byte_of b) 0) as (Ha & Hb & _); [lia..|].
    rewrite Z.add_0_r in Hb. rewrite decide_False by (apply digit64_not_pad; Z.to_euclidean_division_equations; lia).
    rewrite decide_True by done. rewrite !value64_digit by (Z.to_euclidean_division_equations; lia).
    by rewrite Ha, Hb, !char_of_byte.
  - pose proof (byte_of_range a). pose proof (byte_of_range b). pose proof (byte_of_range c).
    pose proof (regroup (byte_of a) (byte_of b) (byte_of c)) as (Ha & Hb & Hc); [lia..|].
    rewrite !decide_False by (apply digit64_not_pad; Z.to_euclidean_division_equations; lia).
    rewrite !value64_digit by (Z.to_euclidean_division_equations; lia). by rewrite Ha, Hb, Hc, !char_of_byte, IH.
Qed.

#[export] Instance strict_decoder : Base64Decoder := strict_decode.

#[export] Instance strict_decoder_laws : Base64Laws.
Proof. constructor. apply strict_decode_encode. Qed.

Example encode_hello : encode64 "hello" = "aGVsbG8=".
Proof. reflexivity. Qed.

(** Pad bits that do not matter to a decoder do matter here. *)
Example stray_pad_bits : decode64 "AZ==" = decode64 "AQ==" ∧ isValidBase64 "AZ==" = false ∧ isValidBase64 "AQ==" = true.
Proof. by vm_compute. Qed.

Lemma base64_canonical_witness :
  isValidBase64 "aGVsbG8=" = true ∧ encode64 (decode64 "aGVsbG8=") = "aGVsbG8=".
Proof.
  pose proof (base64_canonical "aGVsbG8=") as [Hiff Hv].
  assert (H : isValidBase64 "aGVsbG8=" = true) by (apply Hiff; by exists "hello").
  split; [exact H|]. destruct (Hv H) as [He _]. exact He.
Defined.
