(* ===== verification/Manifest.v ===== *)
(** Ingest manifests (src/src/api/ingest-validation.ts,
    src/src/api/ingest-manifest.ts, and [positiveIntEnv] of
    src/src/api/lib/env.ts).

    A manifest names files relative to a base path, with their bytes inline in
    base64 or as paths of the host. It is validated as a whole, sized without
    being read, and then read into the list of files that [bulkIngest] takes.
    Host files are read in batches; what the operating system answers is a
    parameter ([stat], [host_file]), and so is the abort signal, a function of
    the number of times it has been asked. *)

From Stdlib Require Import QArith Qround.
From S2P Require Import Prelude Errors Paths Store View Session Namespace Ingest Base64.
#[local] Open Scope Z_scope.

(** ** Configured integers *)

(** The values of [Number(text)]. *)
Inductive JsNumber := JNaN | JInfinity (negative : bool) | JFinite (q : Q).

Section env.
Context (Number : string → JsNumber).

Definition positiveIntEnv (value : option string) (fallback : Z) : Z :=
  match value with
  | None => fallback
  | Some text =>
      if decide (text = EmptyString) then fallback
      else match Number text with
           | JFinite n => if Qlt_le_dec 0 n then Qfloor n else fallback
           | _ => fallback
           end
  end.
End env.

(** ** Validators *)

(** [p.includes("..")] *)
Fixpoint includes_dotdot (p : string) : bool :=
  match p with
  | EmptyString => false
  | String _ p' => starts_with p ".." || includes_dotdot p'
  end.

Definition valid_segment (seg : string) : bool :=
  negb (bool_decide (str_len seg = 0)) && negb (bool_decide (seg = ".") || bool_decide (seg = "..")).

Definition isValidRelativePath (p : string) : bool :=
  if decide (str_len p = 0) then false
  else if str_includes nul p then false
  else if starts_with p "/" then false
  else if ends_with p "/" then false
  else forallb valid_segment (split_slash p).

(** [[a-zA-Z0-9_\-./]] *)
Definition base_path_char (c : ascii) : bool :=
  in_range "a" "z" c || in_range "A" "Z" c || in_range "0" "9" c
  || bool_decide (c ∈ ["_"; "-"; "."; "/"]%char).

Fixpoint all_chars (f : ascii → bool) (s : string) : bool :=
  match s with
  | EmptyString => true
  | String c s' => f c && all_chars f s'
  end.

(** [/^\/[a-zA-Z0-9_\-./]*$/] *)
Definition base_path_re (p : string) : bool :=
  match p with
  | String c rest => bool_decide (c = slash) && all_chars base_path_char rest
  | EmptyString => false
  end.

Definition isValidBasePath (p : string) : bool :=
  if negb (base_path_re p) then false
  else if includes_dotdot p then false
  else true.

Definition ascii_letter (c : ascii) : bool := in_range "a" "z" c || in_range "A" "Z" c.

Definition backslash : ascii := ascii_of_nat 92.

(** [/^[a-zA-Z]:[/\\]/] *)
Definition drive_prefix (p : string) : bool :=
  match p with
  | String c (String d (String e _)) =>
      ascii_letter c && bool_decide (d = ":"%char) && (bool_decide (e = slash) || bool_decide (e = backslash))
  | _ => false
  end.

Definition isValidHostPath (p : string) : bool :=
  if decide (str_len p = 0) then false
  else if str_includes nul p then false
  else starts_with p "/" || drive_prefix p || starts_with p (String backslash (String backslash EmptyString)).

(** ** Manifests *)

(** [files] and [paths] as [Object.entries] lists them. *)
Record BuildIngestPayloadArgs := mkArgs {
  ma_basePath : string;
  ma_files : list (string * string);
  ma_paths : list (string * string);
  ma_allowEmpty : bool;
}.

(** The messages of a refusal, with the keys they list. *)
Inductive IngestError :=
| BadBasePath
| EmptyPayload
| TooManyEntries (n : Z)
| InvalidPaths (keys : list string)
| InvalidBase64 (keys : list string)
| InvalidHostPaths (keys : list string)
| DuplicateKeys (keys : list string)
| ByteLimit
| UnreadableHostPaths (keys : list string).

Inductive IngestSource :=
| InlineSource (path : string) (size : Z) (base64 : string)
| HostSource (path : string) (size : Z) (hostPath relativePath : string).

Definition src_path (s : IngestSource) : string :=
  match s with InlineSource p _ _ | HostSource p _ _ _ => p end.

Definition src_size (s : IngestSource) : Z :=
  match s with InlineSource _ n _ | HostSource _ n _ _ => n end.

Record ValidationBuckets := mkBuckets {
  vb_invalidRel : list string;
  vb_invalidBase64 : list string;
  vb_invalidHost : list string;
  vb_duplicateKeys : list string;
}.

Definition formatValidationErrors (b : ValidationBuckets) : list IngestError :=
  (if decide (vb_invalidRel b = []) then [] else [InvalidPaths (vb_invalidRel b)]) ++
  (if decide (vb_invalidBase64 b = []) then [] else [InvalidBase64 (vb_invalidBase64 b)]) ++
  (if decide (vb_invalidHost b = []) then [] else [InvalidHostPaths (vb_invalidHost b)]) ++
  (if decide (vb_duplicateKeys b = []) then [] else [DuplicateKeys (vb_duplicateKeys b)]).

(** [for (let i = 0; i < l.length; i += step) body(l.slice(i, i + step))]. It
    stops with [None] when the fuel does not last. *)
Fixpoint batch_loop {A S E} (body : list A → S → res E S) (step : nat) (l : list A)
    (fuel i : nat) (s : S) : option (res E S) :=
  if decide (i < length l)%nat then
    match fuel with
    | O => None
    | Datatypes.S fuel' =>
        match body (take step (drop i l)) s with
        | Ok s' => batch_loop body step l fuel' (i + step) s'
        | Err e => Some (Err e)
        end
    end
  else Some (Ok s).

(** What [stat] says of a host path. *)
Record HostStat := mkStat { st_isFile : bool; st_size : Z }.

Definition MAX_SAFE_INTEGER : Z := 2 ^ 53 - 1.

Section manifest.
Context `{Base64Decoder}.
Context (MAX_INGEST_FILES MAX_INGEST_BYTES : Z) (MAX_INGEST_PATHS_CONCURRENCY : nat).
Context (stat : string → option HostStat).

(** The first loop: an entry goes into the first bucket that refuses it. *)
Definition check_file (acc : ValidationBuckets * list string) (e : string * string) : ValidationBuckets * list string :=
  let '(b, fileKeys) := acc in
  if negb (isValidRelativePath e.1)
  then (mkBuckets (vb_invalidRel b ++ [e.1]) (vb_invalidBase64 b) (vb_invalidHost b) (vb_duplicateKeys b), fileKeys)
  else if negb (isValidBase64 e.2)
  then (mkBuckets (vb_invalidRel b) (vb_invalidBase64 b ++ [e.1]) (vb_invalidHost b) (vb_duplicateKeys b), fileKeys)
  else (b, set_add e.1 fileKeys).

(** The second loop, over [paths]. *)
Definition check_path (fileKeys : list string) (b : ValidationBuckets) (e : string * string) : ValidationBuckets :=
  if negb (isValidRelativePath e.1)
  then mkBuckets (vb_invalidRel b ++ [e.1]) (vb_invalidBase64 b) (vb_invalidHost b) (vb_duplicateKeys b)
  else if negb (isValidHostPath e.2)
  then mkBuckets (vb_invalidRel b) (vb_invalidBase64 b) (vb_invalidHost b ++ [e.1]) (vb_duplicateKeys b)
  else if decide (e.1 ∈ fileKeys)
  then mkBuckets (vb_invalidRel b) (vb_invalidBase64 b) (vb_invalidHost b) (vb_duplicateKeys b ++ [e.1])
  else b.

Definition validate_entries (files paths : list (string * string)) : list IngestError :=
  let '(b, fileKeys) := fold_left check_file files (mkBuckets [] [] [] [], []) in
  formatValidationErrors (fold_left (check_path fileKeys) paths b).

(** [`${basePath}/${rel}`] *)
Definition entry_path (basePath rel : string) : string := basePath +:+ "/" +:+ rel.

Fixpoint inline_sources (basePath : string) (files : list (string * string)) (acc : list IngestSource * Z)
    : res (list IngestError) (list IngestSource * Z) :=
  match files with
  | [] => Ok acc
  | (rel, b64) :: files' =>
      let size := b64_size b64 in
      let totalBytes := acc.2 + size in
      if MAX_INGEST_BYTES <? totalBytes then Err [ByteLimit]
      else inline_sources basePath files' (acc.1 ++ [InlineSource (entry_path basePath rel) size b64], totalBytes)
  end.

(** A host path must name a regular file. *)
Definition stat_entry (basePath : string) (e : string * string) : option IngestSource :=
  info ← stat e.2;
  if negb (st_isFile info) || negb ((- MAX_SAFE_INTEGER <=? st_size info) && (st_size info <=? MAX_SAFE_INTEGER))
     || (st_size info <? 0)
  then None
  else Some (HostSource (entry_path basePath e.1) (st_size info) e.2 e.1).

(** The loop over the settled results of one batch. *)
Fixpoint host_batch (basePath : string) (batch : list (string * string)) (acc : list IngestSource * Z * list string)
    : res (list IngestError) (list IngestSource * Z * list string) :=
  match batch with
  | [] => Ok acc
  | e :: batch' =>
      let '(sources, totalBytes, unreadable) := acc in
      match stat_entry basePath e with
      | Some source =>
          let totalBytes := totalBytes + src_size source in
          if MAX_INGEST_BYTES <? totalBytes then Err [ByteLimit]
          else host_batch basePath batch' (sources ++ [source], totalBytes, unreadable)
      | None => host_batch basePath batch' (sources, totalBytes, unreadable ++ [e.1])
      end
  end.

Record PreparedIngestPayload := mkPrepared { pp_sources : list IngestSource; pp_contentBytes : Z }.

(** The announced files: the paths, without content. *)
Definition pp_bulkFiles (p : PreparedIngestPayload) : list BulkIngestFile :=
  (λ s, mkIngestFile (src_path s) EmptyString 420) <$> pp_sources p.

Definition prepareBulkIngestPayload (fuel : nat) (args : BuildIngestPayloadArgs)
    : option (res (list IngestError) PreparedIngestPayload) :=
  let basePath := ma_basePath args in
  let entries := Z.of_nat (length (ma_files args) + length (ma_paths args)) in
  if negb (isValidBasePath basePath) then Some (Err [BadBasePath])
  else if decide (entries = 0)
  then Some (if ma_allowEmpty args then Ok (mkPrepared [] 0) else Err [EmptyPayload])
  else if MAX_INGEST_FILES <? entries then Some (Err [TooManyEntries entries])
  else
    let errors := validate_entries (ma_files args) (ma_paths args) in
    if 0 <? Z.of_nat (length errors) then Some (Err errors)
    else match inline_sources basePath (ma_files args) ([], 0) with
         | Err e => Some (Err e)
         | Ok (sources, totalBytes) =>
             match batch_loop (host_batch basePath) MAX_INGEST_PATHS_CONCURRENCY (ma_paths args) fuel 0
                     (sources, totalBytes, []) with
             | None => None
             | Some (Err e) => Some (Err e)
             | Some (Ok (sources, totalBytes, unreadable)) =>
                 if decide (unreadable = []) then Some (Ok (mkPrepared sources totalBytes))
                 else Some (Err [UnreadableHostPaths unreadable])
             end
         end.

(** ** Reading *)

(** An open host file: what each call on its handle returns, [None] for a
    rejected call. The [k]-th read is asked for bytes at an offset. *)
Record HostFile := mkHostFile {
  ho_open : bool;
  ho_before : option HostStat;
  ho_read : nat → Z → Z → option string;
  ho_after : option HostStat;
  ho_close : bool;
}.

Inductive ReadError := RAborted | RRejected | RChangedBefore | RChangedDuring | RStalled.

Definition READ_CHUNK : Z := 1024 * 1024.

(** [aborted k] is the answer of the signal when it is asked for the [k]-th
    time during this read. *)
Fixpoint read_loop (f : HostFile) (aborted : nat → bool) (size : Z) (fuel k : nat) (bytes : string)
    : res ReadError (string * nat) :=
  let offset := str_len bytes in
  if decide (offset < size) then
    match fuel with
    | O => Err RStalled
    | S fuel' =>
        if aborted (S k) then Err RAborted
        else match ho_read f k offset (Z.min READ_CHUNK (size - offset)) with
             | None => Err RRejected
             | Some chunk =>
                 if decide (str_len chunk = 0) then Err RChangedDuring
                 else read_loop f aborted size fuel' (S k) (bytes +:+ chunk)
             end
    end
  else Ok (bytes, k).

Definition changed (size : Z) (info : HostStat) : bool := negb (st_isFile info) || negb (bool_decide (st_size info = size)).

(** The body of the [try]. *)
Definition read_open_file (f : HostFile) (aborted : nat → bool) (size : Z) : res ReadError string :=
  match ho_before f with
  | None => Err RRejected
  | Some before =>
      if changed size before then Err RChangedBefore
      else match read_loop f aborted size (Z.to_nat size) 0 EmptyString with
           | Err e => Err e
           | Ok (bytes, k) =>
               if aborted (S k) then Err RAborted
               else match ho_read f k (str_len bytes) 1, ho_after f with
                    | Some extra, Some after =>
                        if negb (bool_decide (str_len extra = 0)) || changed size after then Err RChangedDuring
                        else Ok bytes
                    | _, _ => Err RRejected
                    end
           end
  end.

Definition readHostFile (f : HostFile) (aborted : nat → bool) (size : Z) : res ReadError string :=
  if aborted O then Err RAborted
  else if negb (ho_open f) then Err RRejected
  else let r := read_open_file f aborted size in
       if ho_close f then r else Err RRejected.

Context (host_file : string → HostFile) (read_aborted : string → nat → bool) (aborted : nat → bool).

(** One promise of a batch. *)
Definition read_source (s : IngestSource) : res string BulkIngestFile :=
  match s with
  | InlineSource path _ b64 => Ok (mkIngestFile path (decode64 b64) 420)
  | HostSource path size hostPath rel =>
      match readHostFile (host_file hostPath) (read_aborted hostPath) size with
      | Ok content => Ok (mkIngestFile path content 420)
      | Err _ => Err rel
      end
  end.

Record MatState := mkMat { ms_bulkFiles : list BulkIngestFile; ms_unreadable : list string; ms_polls : nat }.

Definition settle (st : MatState) (s : IngestSource) : MatState :=
  match read_source s with
  | Ok f => mkMat (ms_bulkFiles st ++ [f]) (ms_unreadable st) (ms_polls st)
  | Err rel => mkMat (ms_bulkFiles st) (ms_unreadable st ++ [rel]) (ms_polls st)
  end.

(** A batch of reads between two looks at the signal; [Err] is its throw. *)
Definition read_batch (batch : list IngestSource) (st : MatState) : res unit MatState :=
  if aborted (ms_polls st) then Err tt
  else if aborted (S (ms_polls st)) then Err tt
  else Ok (fold_left settle batch (mkMat (ms_bulkFiles st) (ms_unreadable st) (2 + ms_polls st))).

Inductive Materialized :=
| MatThrown
| MatErrors (errors : list IngestError)
| MatFiles (files : list BulkIngestFile).

Definition materialize (fuel : nat) (p : PreparedIngestPayload) : option Materialized :=
  match batch_loop read_batch MAX_INGEST_PATHS_CONCURRENCY (pp_sources p) fuel 0 (mkMat [] [] 0) with
  | None => None
  | Some (Err _) => Some MatThrown
  | Some (Ok st) =>
      Some (if decide (ms_unreadable st = []) then MatFiles (ms_bulkFiles st)
            else MatErrors [UnreadableHostPaths (ms_unreadable st)])
  end.

Definition buildBulkIngestPayload (fuel : nat) (args : BuildIngestPayloadArgs) : option Materialized :=
  match prepareBulkIngestPayload fuel args with
  | None => None
  | Some (Err errors) => Some (MatErrors errors)
  | Some (Ok p) => materialize fuel p
  end.
End manifest.
