(* ===== verification/ManifestSound.v ===== *)
(** What an ingest manifest guarantees: the batches terminate and do not show in
    the result, a manifest is accepted exactly when all of it is in order, its
    entries land apart from each other below the base path, and the files read
    are the files announced. *)

From Stdlib Require Import QArith Qround.
From S2P Require Import Prelude Errors Paths Store View Session Namespace Ingest Base64 Manifest.
#[local] Open Scope Z_scope.

(** ** Batches *)

Definition res_bind {E A B} (r : res E A) (f : A → res E B) : res E B :=
  match r with Ok a => f a | Err e => Err e end.

Section batches.
Context {A S E : Type} (body : list A → S → res E S) (step : nat) (l : list A).

(** A loop that advances ends within as many rounds as there are elements. *)
Lemma batch_loop_returns fuel i s :
  (0 < step)%nat → (length l ≤ fuel + i)%nat → ∃ r, batch_loop body step l fuel i s = Some r.
Proof.
  intros Hstep. revert i s. induction fuel as [|fuel IH]; intros i s Hf; simpl; case_decide; try lia; eauto.
  destruct (body _ s); [|by eexists]. apply IH. lia.
Qed.

(** A loop that does not advance never ends. *)
Lemma batch_loop_stuck fuel s :
  step = 0%nat → l ≠ [] → (∀ s, body [] s = Ok s) → batch_loop body step l fuel 0 s = None.
Proof.
  intros -> Hl Hnil. revert s. induction fuel as [|fuel IH]; intros s; simpl.
  all: rewrite decide_True by (destruct l; [done|simpl; lia]).
  - done.
  - rewrite take_0, Hnil. apply IH.
Qed.

(** When the body can be cut anywhere, the batches do not show. *)
Lemma batch_loop_whole fuel i s :
  (∀ a b s, body (a ++ b) s = res_bind (body a s) (body b)) → (∀ s, body [] s = Ok s) →
  (0 < step)%nat → (length l ≤ fuel + i)%nat → batch_loop body step l fuel i s = Some (body (drop i l) s).
Proof.
  intros Happ Hnil Hstep. revert i s. induction fuel as [|fuel IH]; intros i s Hf; simpl; case_decide; try lia.
  1,3: by rewrite drop_ge, Hnil by lia.
  rewrite <- (take_drop step (drop i l)) at 2. rewrite Happ, drop_drop. destruct (body (take step (drop i l)) s); simpl; [|done].
  apply IH. lia.
Qed.
End batches.

(** ** Relative paths *)

Lemma split_app_any a b : split_slash (a +:+ String slash b) = split_slash a ++ split_slash b.
Proof.
  induction a as [|c a IH]; simpl; [done|]. rewrite IH. case_decide; [done|].
  pose proof (split_slash_nonempty a). by destruct (split_slash a).
Qed.

Lemma valid_segment_spec seg : no_slash seg → valid_segment seg = true ↔ valid_name seg.
Proof.
  intros Hs. unfold valid_segment, valid_name. rewrite andb_true_iff, !negb_true_iff, orb_false_iff, !bool_decide_eq_false.
  split; [intros (Hl & H1 & H2)|intros (Hl & H1 & H2 & _)]; split_and!; try done; [by intros -> | by intros ?%str_len_zero].
Qed.

(** The keys that pass are the joins of valid names. *)
Lemma relative_path_comps p : isValidRelativePath p = true → valid_comps (split_slash p) ∧ str_includes nul p = false.
Proof.
  unfold isValidRelativePath. repeat (case_match; [done|]). intros Hall. split; [|done].
  pose proof (split_slash_no_slash p) as Hns. rewrite forallb_forall in Hall.
  apply Forall_forall. intros seg Hseg. rewrite Forall_forall in Hns.
  apply valid_segment_spec; [by apply Hns | by apply Hall, list_elem_of_In].
Qed.

Lemma starts_with_slash_split p : starts_with p "/" = true → EmptyString ∈ split_slash p.
Proof.
  intros [u ->]%starts_with_spec. change ("/" +:+ u) with (String slash u). simpl. left.
Qed.

Lemma ends_with_split p t : ends_with p t = true → ∃ u, p = u +:+ t.
Proof.
  unfold ends_with. intros [Hl%Z.leb_le Ht%bool_decide_eq_true]%andb_true_iff.
  destruct (str_suffix p (str_len t)) as (a & b & -> & Hb); [pose proof (str_len_nonneg t); lia|].
  exists a. f_equal. rewrite <- Ht, str_len_app, <- Hb. replace (str_len a + str_len b - str_len b) with (str_len a) by lia.
  by rewrite slice_from_app.
Qed.

Lemma comps_relative_path p : valid_comps (split_slash p) → str_includes nul p = false → isValidRelativePath p = true.
Proof.
  intros Hv Hn. unfold isValidRelativePath. rewrite Hn. unfold valid_comps in Hv. rewrite Forall_forall in Hv.
  assert (He : EmptyString ∉ split_slash p) by (intros He; by destruct (Hv _ He) as [? _]).
  rewrite decide_False by (intros ->%str_len_zero; apply He; left).
  destruct (starts_with p "/") eqn:Hs; [by apply starts_with_slash_split in Hs|].
  destruct (ends_with p "/") eqn:Ht.
  { apply ends_with_split in Ht as [u ->]. exfalso. apply He. change (u +:+ "/") with (u +:+ String slash EmptyString).
    rewrite split_app_any. apply elem_of_app. right. left. }
  apply forallb_forall. intros seg Hseg%list_elem_of_In. apply valid_segment_spec; [|by apply Hv].
  by destruct (Hv _ Hseg) as (_ & _ & _ & ?).
Qed.

(** ** Where an entry lands *)

(** The directory a base path names: its segments as they stand. *)
Definition base_comps (basePath : string) : list string := List.filter keep_segment (split_slash basePath).

Lemma segment_inside p seg : seg ∈ split_slash p → ∃ u v, p = u +:+ seg +:+ v.
Proof.
  revert seg. induction p as [|c p IH]; intros seg; simpl.
  - intros ->%list_elem_of_singleton. by exists EmptyString, EmptyString.
  - case_decide as Hc.
    + intros [->|(u & v & ->)%IH]%elem_of_cons; [by exists EmptyString, (String c p) | by exists (String c u), v].
    + pose proof (join_split p) as Hj. destruct (split_slash p) as [|h t] eqn:E.
      { by destruct (split_slash_nonempty p). }
      intros [->|Hin]%elem_of_cons.
      * exists EmptyString. destruct t as [|h' t]; simpl in Hj; subst p.
        -- exists EmptyString. by rewrite str_app_nil_r.
        -- by exists (String slash (join_slash (h' :: t))).
      * destruct (IH seg) as (u & v & ->); [by right|]. by exists (String c u), v.
Qed.

Lemma includes_dotdot_app u v : includes_dotdot (u +:+ ".." +:+ v) = true.
Proof.
  induction u as [|c u IH]; [by destruct v|].
  change (starts_with (String c (u +:+ ".." +:+ v)) ".." || includes_dotdot (u +:+ ".." +:+ v) = true).
  rewrite IH. apply orb_true_r.
Qed.

Lemma no_dotdot_segment p : includes_dotdot p = false → ".." ∉ split_slash p.
Proof. intros Hd (u & v & ->)%segment_inside. by rewrite includes_dotdot_app in Hd. Qed.

Lemma push_all base parts : ".." ∉ parts → fold_left push_segment parts base = base ++ parts.
Proof.
  revert base. induction parts as [|x parts IH]; intros base Hn; simpl; [by rewrite app_nil_r|].
  apply not_elem_of_cons in Hn as [Hx Hn]. unfold push_segment at 2. rewrite decide_False by done. rewrite IH by done. by rewrite <- app_assoc.
Qed.

Lemma base_path_comps p : isValidBasePath p = true →
  norm_comps [] (split_slash p) = base_comps p ∧ valid_comps (base_comps p) ∧ str_includes nul p = false.
Proof.
  unfold isValidBasePath. destruct (base_path_re p) eqn:Hre; simpl; [|done]. destruct (includes_dotdot p) eqn:Hd; [done|]. intros _.
  assert (Hn : norm_comps [] (split_slash p) = base_comps p).
  { unfold norm_comps. apply push_all. intros Hin. apply list_elem_of_In, filter_In in Hin as [Hin _].
    apply (no_dotdot_segment p Hd). by apply list_elem_of_In. }
  split_and!; [done| |].
  - rewrite <- Hn. apply norm_comps_valid; [constructor | apply split_slash_no_slash].
  - destruct p as [|c p]; [done|]. simpl in *. apply andb_true_iff in Hre as [Hc%bool_decide_eq_true Hall]. subst c. simpl. clear Hd Hn.
    induction p as [|c p IH]; [done|]. simpl in *. apply andb_true_iff in Hall as [Hc Hall]. rewrite IH by done.
    rewrite orb_false_r. apply bool_decide_eq_false. intros ->. discriminate Hc.
Qed.

Lemma entry_path_normal basePath rel : isValidBasePath basePath = true → isValidRelativePath rel = true →
  normalizeFsPath (entry_path basePath rel) = path_of (base_comps basePath ++ split_slash rel).
Proof.
  intros (Hb & _ & _)%base_path_comps (Hr & _)%relative_path_comps. rewrite normalize_comps. unfold entry_path.
  change ("/" +:+ rel) with (String slash rel). by rewrite split_app_any, norm_comps_app, Hb, norm_comps_id.
Qed.

Lemma entry_path_valid basePath rel : isValidBasePath basePath = true → isValidRelativePath rel = true →
  validatePath (entry_path basePath rel) = Ok (path_of (base_comps basePath ++ split_slash rel)) ∨
  validatePath (entry_path basePath rel) = Err (ENOTDIR DEV_NULL).
Proof.
  intros Hb Hr. unfold validatePath. rewrite entry_path_normal by done.
  assert (Hn : str_includes nul (entry_path basePath rel) = false).
  { unfold entry_path. rewrite !str_includes_app. apply base_path_comps in Hb as (_ & _ & ->). by apply relative_path_comps in Hr as [_ ->]. }
  rewrite Hn. case_match; auto.
Qed.

(** Different keys, different places. *)
Lemma entry_path_inj basePath rel rel' :
  isValidBasePath basePath = true → isValidRelativePath rel = true → isValidRelativePath rel' = true →
  path_of (base_comps basePath ++ split_slash rel) = path_of (base_comps basePath ++ split_slash rel') → rel = rel'.
Proof.
  intros (_ & Hb & _)%base_path_comps [Hr _]%relative_path_comps [Hr' _]%relative_path_comps Heq.
  apply path_of_inj in Heq; [|by apply valid_comps_app..]. apply app_inv_head in Heq.
  by rewrite <- (join_split rel), <- (join_split rel'), Heq.
Qed.

(** ** Validation *)

Definition bad_keys (f : string * string → bool) (l : list (string * string)) : list string := (List.filter f l).*1.

Section validation.
Context `{Base64Decoder}.

Definition bad_rel (e : string * string) : bool := negb (isValidRelativePath e.1).
Definition bad_base64 (e : string * string) : bool := isValidRelativePath e.1 && negb (isValidBase64 e.2).
Definition bad_host (e : string * string) : bool := isValidRelativePath e.1 && negb (isValidHostPath e.2).
Definition good_file (e : string * string) : bool := isValidRelativePath e.1 && isValidBase64 e.2.
Definition twice (files : list (string * string)) (e : string * string) : bool :=
  isValidRelativePath e.1 && isValidHostPath e.2 && bool_decide (e.1 ∈ bad_keys good_file files).

Lemma check_files_spec files b ks :
  ∃ ks', fold_left check_file files (b, ks) =
    (mkBuckets (vb_invalidRel b ++ bad_keys bad_rel files) (vb_invalidBase64 b ++ bad_keys bad_base64 files)
       (vb_invalidHost b) (vb_duplicateKeys b), ks') ∧
    ∀ k, k ∈ ks' ↔ k ∈ ks ∨ k ∈ bad_keys good_file files.
Proof.
  revert b ks. induction files as [|e files IH]; intros b ks.
  { exists ks. unfold bad_keys. simpl. rewrite !app_nil_r. split; [by destruct b | set_solver]. }
  unfold bad_keys in *. simpl. unfold bad_rel, bad_base64, good_file in *.
  destruct (isValidRelativePath e.1); simpl; [destruct (isValidBase64 e.2); simpl|].
  all: match goal with |- context [fold_left check_file _ (?b', ?ks')] => destruct (IH b' ks') as (k' & -> & Hk) end;
    exists k'; simpl; rewrite <- ?app_assoc; split; try done.
  intros k. rewrite Hk. unfold set_add. case_decide; set_solver.
Qed.

Lemma check_entries_spec files ks paths b :
  (∀ k, k ∈ ks ↔ k ∈ bad_keys good_file files) →
  fold_left (check_path ks) paths b =
    mkBuckets (vb_invalidRel b ++ bad_keys bad_rel paths) (vb_invalidBase64 b)
      (vb_invalidHost b ++ bad_keys bad_host paths) (vb_duplicateKeys b ++ bad_keys (twice files) paths).
Proof.
  intros Hks. revert b. induction paths as [|e paths IH]; intros b.
  { unfold bad_keys. simpl. rewrite !app_nil_r. by destruct b. }
  simpl. rewrite IH. unfold check_path. unfold bad_keys at 4 5 6. simpl. unfold bad_rel at 2, bad_host at 2, twice at 2.
  destruct (isValidRelativePath e.1); simpl; [destruct (isValidHostPath e.2); simpl|].
  all: rewrite <- ?app_assoc; try done.
  destruct (decide (e.1 ∈ ks)) as [Hin|Hin]; rewrite Hks in Hin.
  - rewrite bool_decide_eq_true_2 by done. simpl. by rewrite <- app_assoc.
  - by rewrite bool_decide_eq_false_2.
Qed.
(** The messages name exactly the entries at fault. *)
Definition faults (files paths : list (string * string)) : ValidationBuckets :=
  mkBuckets (bad_keys bad_rel files ++ bad_keys bad_rel paths) (bad_keys bad_base64 files)
    (bad_keys bad_host paths) (bad_keys (twice files) paths).

Lemma validate_entries_exact files paths : validate_entries files paths = formatValidationErrors (faults files paths).
Proof.
  unfold validate_entries. destruct (check_files_spec files (mkBuckets [] [] [] []) []) as (ks & -> & Hks). simpl.
  rewrite (check_entries_spec files); [done|]. intros k. rewrite Hks. set_solver.
Qed.

(** Every entry of a manifest is in order. *)
Definition in_order (files paths : list (string * string)) : Prop :=
  Forall (λ e, isValidRelativePath e.1 = true ∧ isValidBase64 e.2 = true) files ∧
  Forall (λ e, isValidRelativePath e.1 = true ∧ isValidHostPath e.2 = true) paths ∧
  ∀ k, k ∈ files.*1 → k ∉ paths.*1.

Lemma bad_keys_nil f l : bad_keys f l = [] ↔ ∀ e, e ∈ l → f e = false.
Proof.
  unfold bad_keys. split.
  - intros Hn%fmap_nil_inv e He. destruct (f e) eqn:Hf; [|done]. exfalso.
    assert (Hin : e ∈ List.filter f l) by (apply list_elem_of_In, filter_In; by rewrite <- list_elem_of_In). rewrite Hn in Hin. by apply elem_of_nil in Hin.
  - intros Hl. induction l as [|e l IH]; [done|]. simpl. rewrite (Hl e) by left. apply IH. intros e' He'. apply Hl. by right.
Qed.

Lemma format_nil b : formatValidationErrors b = [] ↔
  vb_invalidRel b = [] ∧ vb_invalidBase64 b = [] ∧ vb_invalidHost b = [] ∧ vb_duplicateKeys b = [].
Proof. unfold formatValidationErrors. repeat case_decide; naive_solver. Qed.

Lemma bad_keys_elem f l k : k ∈ bad_keys f l ↔ ∃ e, e ∈ l ∧ f e = true ∧ e.1 = k.
Proof.
  unfold bad_keys. rewrite list_elem_of_fmap. split; intros (e & H1 & H2); exists e.
  - apply list_elem_of_In, filter_In in H2 as [? ?]. by rewrite list_elem_of_In.
  - split; [by destruct H2|]. apply list_elem_of_In, filter_In. rewrite <- list_elem_of_In. naive_solver.
Qed.

Lemma validate_entries_nil files paths : validate_entries files paths = [] ↔ in_order files paths.
Proof.
  rewrite validate_entries_exact, format_nil. unfold faults, in_order. simpl. rewrite app_nil, !bad_keys_nil, !Forall_forall.
  unfold bad_rel, bad_base64, bad_host, twice. split.
  - intros ((Hrf & Hrp) & Hb & Hh & Ht). split_and!.
    + intros e He. specialize (Hrf e He). specialize (Hb e He). apply negb_false_iff in Hrf. rewrite Hrf in *. simpl in Hb. by apply negb_false_iff in Hb.
    + intros e He. specialize (Hrp e He). specialize (Hh e He). apply negb_false_iff in Hrp. rewrite Hrp in *. simpl in Hh. by apply negb_false_iff in Hh.
    + intros k (e & -> & He)%list_elem_of_fmap (e' & Hk & He')%list_elem_of_fmap.
      specialize (Hrf e He). specialize (Hb e He). apply negb_false_iff in Hrf. rewrite Hrf in Hb. simpl in Hb. apply negb_false_iff in Hb.
      specialize (Hrp e' He'). specialize (Hh e' He'). apply negb_false_iff in Hrp. rewrite Hrp in Hh. simpl in Hh. apply negb_false_iff in Hh.
      specialize (Ht e' He'). rewrite Hrp, Hh in Ht. simpl in Ht. apply bool_decide_eq_false in Ht. apply Ht, bad_keys_elem.
      exists e. unfold good_file. by rewrite Hrf, Hb.
  - intros (Hf & Hp & Hd). split_and!; intros e He.
    1,3: destruct (Hf e He) as [-> Hv]; simpl; by rewrite ?Hv.
    1,2: destruct (Hp e He) as [-> Hv]; simpl; by rewrite ?Hv.
    rewrite bool_decide_eq_false_2; [apply andb_false_r|]. intros (e' & He' & _ & Hk)%bad_keys_elem.
    apply (Hd e.1); [rewrite <- Hk; by apply list_elem_of_fmap_2 | by apply list_elem_of_fmap_2].
Qed.
End validation.

(** ** What is announced *)

Definition size_sum (l : list IngestSource) : Z := foldr Z.add 0 (src_size <$> l).

Lemma size_sum_app l1 l2 : size_sum (l1 ++ l2) = size_sum l1 + size_sum l2.
Proof. unfold size_sum. rewrite fmap_app. induction (src_size <$> l1) as [|n l IH]; simpl; lia. Qed.

Lemma size_sum_cons s l : size_sum (s :: l) = src_size s + size_sum l.
Proof. done. Qed.

Definition inline_of (basePath : string) (e : string * string) : IngestSource :=
  InlineSource (entry_path basePath e.1) (b64_size e.2) e.2.

Section prepare.
Context `{Base64Decoder} {Hlaws : Base64Laws}.
Context (MAX_INGEST_FILES MAX_INGEST_BYTES : Z) (stat : string → option HostStat).

(** The sources of a manifest, in the order of its entries. *)
Definition manifest_sources (args : BuildIngestPayloadArgs) : list IngestSource :=
  (inline_of (ma_basePath args) <$> ma_files args) ++ omap (stat_entry stat (ma_basePath args)) (ma_paths args).

(** A manifest nothing is wrong with. *)
Definition acceptable (args : BuildIngestPayloadArgs) : Prop :=
  isValidBasePath (ma_basePath args) = true ∧
  (ma_files args = [] → ma_paths args = [] → ma_allowEmpty args = true) ∧
  Z.of_nat (length (ma_files args) + length (ma_paths args)) ≤ MAX_INGEST_FILES ∧
  in_order (ma_files args) (ma_paths args) ∧
  Forall (λ e, is_Some (stat_entry stat (ma_basePath args) e)) (ma_paths args) ∧
  size_sum (manifest_sources args) ≤ MAX_INGEST_BYTES.

Lemma stat_entry_size basePath e s : stat_entry stat basePath e = Some s → 0 ≤ src_size s.
Proof.
  unfold stat_entry. destruct (stat e.2) as [info|]; simpl; [|done]. destruct (_ || _) eqn:Hb; [done|]. intros [= <-]. simpl.
  apply orb_false_iff in Hb as [_ Hb%Z.ltb_ge]. done.
Qed.

Lemma host_sizes basePath paths : 0 ≤ size_sum (omap (stat_entry stat basePath) paths).
Proof.
  induction paths as [|e paths IH]; [done|]. cbn [omap list_omap].
  destruct (stat_entry stat basePath e) as [s|] eqn:Hs; [|done]. pose proof (stat_entry_size basePath e s Hs). rewrite size_sum_cons.
  apply Z.add_nonneg_nonneg; [done | exact IH].
Qed.

(** The running total passes the limit exactly when the whole total does. *)
Lemma inline_sources_spec basePath files acc t :
  Forall (λ e, isValidBase64 e.2 = true) files → t ≤ MAX_INGEST_BYTES →
  let new := inline_of basePath <$> files in
  inline_sources MAX_INGEST_BYTES basePath files (acc, t) =
    if decide (t + size_sum new ≤ MAX_INGEST_BYTES) then Ok (acc ++ new, t + size_sum new) else Err [ByteLimit].
Proof.
  intros Hf. revert acc t. induction Hf as [|[rel b64] files Hv Hf IH]; intros acc t Ht.
  { simpl. rewrite decide_True by (unfold size_sum; simpl; lia). rewrite app_nil_r. unfold size_sum. simpl. by rewrite Z.add_0_r. }
  simpl in Hv. cbn zeta. rewrite fmap_cons, size_sum_cons, Z.add_assoc. cbn [inline_sources inline_of src_size fst snd].
  assert (Hnn : 0 ≤ size_sum (inline_of basePath <$> files)).
  { clear -Hf Hlaws. induction Hf as [|e l He _ IH]; [done|]. rewrite fmap_cons, size_sum_cons. simpl. rewrite valid_size by done.
    pose proof (str_len_nonneg (decode64 e.2)). lia. }
  destruct (Z.ltb_spec MAX_INGEST_BYTES (t + b64_size b64)); [by rewrite decide_False by lia|].
  rewrite IH by done. by rewrite <- app_assoc.
Qed.

Definition unreadable_keys (basePath : string) (paths : list (string * string)) : list string :=
  bad_keys (λ e, bool_decide (stat_entry stat basePath e = None)) paths.

Lemma host_batch_spec basePath paths acc t un :
  t ≤ MAX_INGEST_BYTES →
  let new := omap (stat_entry stat basePath) paths in
  host_batch MAX_INGEST_BYTES stat basePath paths (acc, t, un) =
    if decide (t + size_sum new ≤ MAX_INGEST_BYTES)
    then Ok (acc ++ new, t + size_sum new, un ++ unreadable_keys basePath paths) else Err [ByteLimit].
Proof.
  revert acc t un. induction paths as [|e paths IH]; intros acc t un Ht.
  { simpl. rewrite decide_True by (unfold size_sum; simpl; lia). rewrite !app_nil_r. unfold size_sum. simpl. by rewrite Z.add_0_r. }
  cbn zeta. cbn [host_batch omap list_omap]. unfold unreadable_keys, bad_keys. cbn [List.filter].
  destruct (stat_entry stat basePath e) as [s|] eqn:Hs.
  - rewrite bool_decide_eq_false_2 by done. rewrite size_sum_cons, Z.add_assoc. pose proof (host_sizes basePath paths).
    destruct (Z.ltb_spec MAX_INGEST_BYTES (t + src_size s)) as [Hl|Hl].
    + rewrite decide_False; [done|]. unfold omap in *. lia.
    + rewrite IH by done. by rewrite <- app_assoc.
  - rewrite bool_decide_eq_true_2 by done. rewrite IH by done. rewrite fmap_cons. by rewrite <- app_assoc.
Qed.

Lemma host_batch_app basePath a b st :
  host_batch MAX_INGEST_BYTES stat basePath (a ++ b) st =
  res_bind (host_batch MAX_INGEST_BYTES stat basePath a st) (host_batch MAX_INGEST_BYTES stat basePath b).
Proof.
  revert st. induction a as [|e a IH]; intros [[src t] un]; [done|]. cbn [host_batch app].
  destruct (stat_entry stat basePath e); [|apply IH]. case_match; [done | apply IH].
Qed.

Lemma unreadable_nil basePath paths :
  unreadable_keys basePath paths = [] ↔ Forall (λ e, is_Some (stat_entry stat basePath e)) paths.
Proof.
  unfold unreadable_keys. rewrite bad_keys_nil, Forall_forall. split; intros He e Hin; specialize (He e Hin).
  - apply bool_decide_eq_false in He. by apply not_eq_None_Some.
  - apply bool_decide_eq_false. by apply not_eq_None_Some.
Qed.

(** The loops after validation. *)
Lemma prepare_run conc fuel args :
  (0 < conc)%nat → 0 ≤ MAX_INGEST_BYTES → (length (ma_paths args) ≤ fuel)%nat →
  isValidBasePath (ma_basePath args) = true →
  (length (ma_files args) + length (ma_paths args) ≠ 0)%nat →
  Z.of_nat (length (ma_files args) + length (ma_paths args)) ≤ MAX_INGEST_FILES →
  in_order (ma_files args) (ma_paths args) →
  prepareBulkIngestPayload MAX_INGEST_FILES MAX_INGEST_BYTES conc stat fuel args =
    Some (if decide (size_sum (manifest_sources args) ≤ MAX_INGEST_BYTES)
          then if decide (unreadable_keys (ma_basePath args) (ma_paths args) = [])
               then Ok (mkPrepared (manifest_sources args) (size_sum (manifest_sources args)))
               else Err [UnreadableHostPaths (unreadable_keys (ma_basePath args) (ma_paths args))]
          else Err [ByteLimit]).
Proof.
  intros Hconc Hmax Hfuel Hb Hne Hcount Hin. unfold prepareBulkIngestPayload. rewrite Hb. simpl negb. cbn match.
  rewrite decide_False by lia. rewrite (proj2 (Z.ltb_ge _ _)) by lia. rewrite (proj2 (validate_entries_nil _ _) Hin). simpl Z.ltb. cbn match.
  destruct Hin as (Hf & _). rewrite inline_sources_spec; [|eapply Forall_impl; [done|naive_solver]|done].
  unfold manifest_sources. rewrite size_sum_app, Z.add_0_l. pose proof (host_sizes (ma_basePath args) (ma_paths args)).
  destruct (decide (size_sum (inline_of (ma_basePath args) <$> ma_files args) ≤ MAX_INGEST_BYTES)) as [Hi|Hi].
  2: { by rewrite decide_False by lia. }
  rewrite batch_loop_whole; [|apply host_batch_app|by intros [[? ?] ?]|done|lia]. rewrite drop_0, host_batch_spec by done.
  case_decide; [|done]. simpl. by case_decide.
Qed.

(** Neither the batch size nor spare fuel shows in the outcome. *)
Lemma prepare_batches conc conc' fuel fuel' args :
  (0 < conc)%nat → (0 < conc')%nat → (length (ma_paths args) ≤ fuel)%nat → (length (ma_paths args) ≤ fuel')%nat →
  prepareBulkIngestPayload MAX_INGEST_FILES MAX_INGEST_BYTES conc' stat fuel' args =
  prepareBulkIngestPayload MAX_INGEST_FILES MAX_INGEST_BYTES conc stat fuel args.
Proof.
  intros Hc Hc' Hf Hf'. unfold prepareBulkIngestPayload. repeat (case_match; [done|]). case_match; [|done]. case_match.
  rewrite !batch_loop_whole; try lia; try done; try apply host_batch_app; by intros [[? ?] ?].
Qed.

(** What a manifest is refused with: the first rule it breaks, with the entries
    that break it. The byte limit comes before the unreadable host paths, which
    count for no bytes. *)
Definition complaint (args : BuildIngestPayloadArgs) : list IngestError :=
  let entries := Z.of_nat (length (ma_files args) + length (ma_paths args)) in
  let wrong := formatValidationErrors (faults (ma_files args) (ma_paths args)) in
  if negb (isValidBasePath (ma_basePath args)) then [BadBasePath]
  else if decide (entries = 0) then [EmptyPayload]
  else if decide (MAX_INGEST_FILES < entries) then [TooManyEntries entries]
  else if decide (wrong ≠ []) then wrong
  else if decide (MAX_INGEST_BYTES < size_sum (manifest_sources args)) then [ByteLimit]
  else [UnreadableHostPaths (unreadable_keys (ma_basePath args) (ma_paths args))].

(** The outcome of the preparation. *)
Definition verdict (args : BuildIngestPayloadArgs) (r : res (list IngestError) PreparedIngestPayload) : Prop :=
  match r with
  | Ok p => acceptable args ∧ p = mkPrepared (manifest_sources args) (size_sum (manifest_sources args))
  | Err errors =>
      ¬ acceptable args ∧ errors ≠ [] ∧ errors = complaint args ∧
      ∀ keys, UnreadableHostPaths keys ∈ errors →
        keys ≠ [] ∧ ∀ k, k ∈ keys ↔ ∃ host, (k, host) ∈ ma_paths args ∧ stat_entry stat (ma_basePath args) (k, host) = None
  end.

Lemma unreadable_elem basePath paths k :
  k ∈ unreadable_keys basePath paths ↔ ∃ host, (k, host) ∈ paths ∧ stat_entry stat basePath (k, host) = None.
Proof.
  unfold unreadable_keys. rewrite bad_keys_elem. split.
  - intros ([k' host] & Hin & Hs%bool_decide_eq_true & <-). eauto.
  - intros (host & Hin & Hs). exists (k, host). by rewrite bool_decide_eq_true_2.
Qed.

Lemma no_unreadable b keys : UnreadableHostPaths keys ∉ formatValidationErrors b.
Proof. unfold formatValidationErrors. repeat case_decide; set_solver. Qed.

(** A refusal before the entries are looked at. *)
Lemma refused_early conc fuel args errors :
  prepareBulkIngestPayload MAX_INGEST_FILES MAX_INGEST_BYTES conc stat fuel args = Some (Err errors) →
  ¬ acceptable args → errors ≠ [] → errors = complaint args → (∀ keys, UnreadableHostPaths keys ∉ errors) →
  ∃ r, prepareBulkIngestPayload MAX_INGEST_FILES MAX_INGEST_BYTES conc stat fuel args = Some r ∧ verdict args r.
Proof. intros Hr Ha Hn Hc Hu. exists (Err errors). split; [done|]. split_and!; try done. intros keys Hk. by destruct (Hu keys). Qed.

(** The refusals and the acceptance after validation. *)
Lemma verdict_run args :
  isValidBasePath (ma_basePath args) = true →
  (length (ma_files args) + length (ma_paths args) ≠ 0)%nat →
  Z.of_nat (length (ma_files args) + length (ma_paths args)) ≤ MAX_INGEST_FILES →
  in_order (ma_files args) (ma_paths args) →
  verdict args (if decide (size_sum (manifest_sources args) ≤ MAX_INGEST_BYTES)
          then if decide (unreadable_keys (ma_basePath args) (ma_paths args) = [])
               then Ok (mkPrepared (manifest_sources args) (size_sum (manifest_sources args)))
               else Err [UnreadableHostPaths (unreadable_keys (ma_basePath args) (ma_paths args))]
          else Err [ByteLimit]).
Proof.
  intros Hb Hz Hc Hin. pose proof (unreadable_nil (ma_basePath args) (ma_paths args)) as Hun.
  assert (formatValidationErrors (faults (ma_files args) (ma_paths args)) = []) as Hw.
  { by rewrite <- validate_entries_exact, validate_entries_nil. }
  assert (complaint args = if decide (MAX_INGEST_BYTES < size_sum (manifest_sources args)) then [ByteLimit]
    else [UnreadableHostPaths (unreadable_keys (ma_basePath args) (ma_paths args))]) as Hcomp.
  { unfold complaint. rewrite Hb. simpl. rewrite !decide_False by lia. rewrite decide_False by (intros Hn; by apply Hn). done. }
  destruct (decide (size_sum (manifest_sources args) ≤ MAX_INGEST_BYTES)) as [Hs|Hs].
  1: destruct (decide (unreadable_keys (ma_basePath args) (ma_paths args) = [])) as [Hu|Hu].
  all: unfold verdict.
  - split; [|done]. unfold acceptable. split_and!; try done; [|by apply Hun]. intros Hf Hp. rewrite Hf, Hp in Hz. done.
  - rewrite Hcomp, decide_False by lia. split_and!; [|done|done|].
    + intros (_ & _ & _ & _ & Hst & _). by apply Hu, Hun.
    + intros keys [= ->]%list_elem_of_singleton. split; [done|]. intros k. apply unreadable_elem.
  - rewrite Hcomp, decide_True by lia. split_and!; [by intros (_ & _ & _ & _ & _ & ?)|done|done|].
    intros keys Hk%list_elem_of_singleton. done.
Qed.

Lemma prepare_verdict conc fuel args :
  (0 < conc)%nat → 0 ≤ MAX_INGEST_FILES → 0 ≤ MAX_INGEST_BYTES → (length (ma_paths args) ≤ fuel)%nat →
  ∃ r, prepareBulkIngestPayload MAX_INGEST_FILES MAX_INGEST_BYTES conc stat fuel args = Some r ∧ verdict args r.
Proof.
  intros Hconc Hmf Hmb Hfuel. destruct (isValidBasePath (ma_basePath args)) eqn:Hb.
  2: { apply (refused_early _ _ _ [BadBasePath]); [..|by intros keys ?%list_elem_of_singleton].
       - unfold prepareBulkIngestPayload. by rewrite Hb.
       - intros [? _]. congruence.
       - done.
       - unfold complaint. by rewrite Hb. }
  destruct (decide (length (ma_files args) + length (ma_paths args) = 0)%nat) as [Hz|Hz].
  { assert (ma_files args = [] ∧ ma_paths args = []) as [Hf Hp] by (split; apply length_zero_iff_nil; lia).
    assert (Hin : in_order (ma_files args) (ma_paths args)) by (rewrite Hf, Hp; repeat split; try constructor; set_solver).
    unfold prepareBulkIngestPayload. rewrite Hb, Hf, Hp. eexists. split; [done|].
    unfold verdict, complaint, acceptable, manifest_sources. rewrite Hb, Hf, Hp in *.
    destruct (ma_allowEmpty args) eqn:He; simpl; [by split_and!|]. split_and!; [naive_solver|done|done|].
    by intros keys ?%list_elem_of_singleton. }
  destruct (decide (Z.of_nat (length (ma_files args) + length (ma_paths args)) ≤ MAX_INGEST_FILES)) as [Hc|Hc].
  2: { apply (refused_early _ _ _ [TooManyEntries (Z.of_nat (length (ma_files args) + length (ma_paths args)))]);
         [..|by intros keys ?%list_elem_of_singleton].
       - unfold prepareBulkIngestPayload. rewrite Hb. simpl. rewrite decide_False by lia. by rewrite (proj2 (Z.ltb_lt _ _)) by lia.
       - by intros (_ & _ & ? & _).
       - done.
       - unfold complaint. rewrite Hb. simpl. rewrite decide_False by lia. by rewrite decide_True by lia. }
  destruct (decide (validate_entries (ma_files args) (ma_paths args) = [])) as [Hv|Hv].
  - apply validate_entries_nil in Hv. rewrite prepare_run by done. eexists. split; [done|]. by apply verdict_run.
  - apply (refused_early _ _ _ (validate_entries (ma_files args) (ma_paths args))).
    + unfold prepareBulkIngestPayload. rewrite Hb. simpl. rewrite decide_False by lia. rewrite (proj2 (Z.ltb_ge _ _)) by lia.
      by rewrite (proj2 (Z.ltb_lt _ _)) by (destruct (validate_entries _ _); [done|simpl; lia]).
    + intros (_ & _ & _ & Hin & _). by apply Hv, validate_entries_nil.
    + done.
    + unfold complaint. rewrite Hb. simpl. rewrite !decide_False by lia. rewrite decide_True; [apply validate_entries_exact|].
      by rewrite <- validate_entries_exact.
    + intros keys. rewrite validate_entries_exact. apply no_unreadable.
Qed.

(** C26: A manifest is accepted exactly when nothing is wrong with it. With any
    positive batch size the preparation returns; it accepts exactly the
    manifests with a safe base path, not too many entries, valid and disjoint
    keys, canonical payloads, regular host files and a total within the byte
    limit, and then announces one source per entry with their exact total. A
    refusal is [complaint]: the first rule broken in the order of the code, the
    entries at fault named exactly, in their order: the keys that are no
    relative paths, the payloads that are no canonical base64, the host paths
    that are not absolute, the keys given twice, or, when none of these is the
    matter and the bytes are within the limit, exactly the host paths that are
    not readable regular files. The batches do not show in the outcome. (A batch
    size of 0, which the configuration can produce, makes the loop endless:
    [fractional_concurrency_hangs].) *)
Theorem manifest_accepted_exactly conc fuel args :
  (0 < conc)%nat → 0 ≤ MAX_INGEST_FILES → 0 ≤ MAX_INGEST_BYTES → (length (ma_paths args) ≤ fuel)%nat →
  ∃ r, prepareBulkIngestPayload MAX_INGEST_FILES MAX_INGEST_BYTES conc stat fuel args = Some r ∧ verdict args r ∧
    ∀ conc' fuel', (0 < conc')%nat → (length (ma_paths args) ≤ fuel')%nat →
      prepareBulkIngestPayload MAX_INGEST_FILES MAX_INGEST_BYTES conc' stat fuel' args = Some r.
Proof.
  intros Hconc Hmf Hmb Hfuel. destruct (prepare_verdict conc fuel args) as (r & Hr & Hv); try done.
  exists r. split_and!; [done..|]. intros conc' fuel' Hc' Hf'. rewrite <- Hr. by apply prepare_batches.
Qed.

(** ** A configured batch size of zero *)

Lemma positiveIntEnv_fraction Number text q fallback :
  text ≠ EmptyString → Number text = JFinite q → (0 < q)%Q → (q < 1)%Q → positiveIntEnv Number (Some text) fallback = 0.
Proof.
  intros Ht Hn Hpos Hlt. unfold positiveIntEnv. rewrite decide_False by done. rewrite Hn.
  destruct (Qlt_le_dec 0 q) as [_|Hle]; [|by apply Qle_not_lt in Hle].
  pose proof (Qfloor_le q) as Hfl. pose proof (Qlt_floor q) as Hfu.
  assert (H1 : (inject_Z (Qfloor q) < inject_Z 1)%Q) by (eapply Qle_lt_trans; [done|exact Hlt]).
  assert (H2 : (inject_Z 0 < inject_Z (Qfloor q + 1))%Q) by (eapply Qlt_trans; [exact Hpos|done]).
  rewrite <- Zlt_Qlt in H1, H2. lia.
Qed.

Lemma positiveIntEnv_positive Number value fallback :
  0 < fallback → (∀ text q, value = Some text → Number text = JFinite q → (0 < q)%Q → (1 <= q)%Q) →
  0 < positiveIntEnv Number value fallback.
Proof.
  intros Hf Hv. unfold positiveIntEnv. destruct value as [text|]; [|done]. case_decide; [done|].
  destruct (Number text) as [| |q] eqn:Hn; try done. destruct (Qlt_le_dec 0 q) as [Hpos|]; [|done].
  specialize (Hv text q eq_refl Hn Hpos). apply Qfloor_resp_le in Hv. change (Qfloor 1) with 1 in Hv. lia.
Qed.

(** A fraction for MAX_INGEST_PATHS_CONCURRENCY hangs the preparation. The
    helper that is to keep zero out of batch sizes floors after its test, so a
    setting between 0 and 1 becomes 0, and a manifest that any proper setting
    accepts is then never finished when it names a host path. *)
Theorem fractional_concurrency_hangs Number text q args conc fuel p fuel' :
  text ≠ EmptyString → Number text = JFinite q → (0 < q)%Q → (q < 1)%Q → ma_paths args ≠ [] →
  prepareBulkIngestPayload MAX_INGEST_FILES MAX_INGEST_BYTES conc stat fuel args = Some (Ok p) →
  prepareBulkIngestPayload MAX_INGEST_FILES MAX_INGEST_BYTES (Z.to_nat (positiveIntEnv Number (Some text) 16)) stat fuel' args = None.
Proof.
  intros Ht Hn Hpos Hlt Hp. rewrite (positiveIntEnv_fraction Number text q) by done. unfold prepareBulkIngestPayload.
  assert (Hempty : Z.of_nat (length (ma_files args) + length (ma_paths args)) ≠ 0) by (destruct (ma_paths args); [done|simpl; lia]).
  repeat (case_match; try done); intros _; simplify_eq.
  all: match goal with
       | Hl : batch_loop _ (Z.to_nat 0) _ _ _ _ = _ |- _ => rewrite batch_loop_stuck in Hl; [done|done|done|by intros [[? ?] ?]]
       end.
Qed.

(** ** Entries apart *)

Definition entry_place (basePath rel : string) : string := path_of (base_comps basePath ++ split_slash rel).

Lemma normalize_entries basePath ks files seen :
  isValidBasePath basePath = true → Forall (λ k, isValidRelativePath k = true) ks → NoDup ks →
  bf_path <$> files = entry_path basePath <$> ks → (∀ k, k ∈ ks → entry_place basePath k ∉ seen) →
  match normalize_ingest seen files with
  | Ok fs => bf_path <$> fs = entry_place basePath <$> ks ∧ bf_content <$> fs = bf_content <$> files
  | Err e => e = ENOTDIR DEV_NULL ∨ e = EPERM DEV_NULL "bulkIngest"
  end.
Proof.
  intros Hb Hv. revert files seen. induction Hv as [|k ks Hk Hks IH]; intros files seen Hnd Hp Hseen.
  { apply fmap_nil_inv in Hp as ->. done. }
  destruct files as [|f files]; [done|]. rewrite !fmap_cons in Hp. injection Hp as Hf Hp. apply NoDup_cons in Hnd as [Hn Hnd].
  cbn [normalize_ingest]. rewrite Hf. destruct (entry_path_valid basePath k Hb Hk) as [-> | ->]; [|by left].
  unfold assertStoredPath. case_decide as Hdn; [right; by rewrite Hdn|].
  fold (entry_place basePath k). rewrite decide_False by (apply Hseen; left).
  specialize (IH files (entry_place basePath k :: seen) Hnd Hp).
  assert (Hseen' : ∀ k', k' ∈ ks → entry_place basePath k' ∉ entry_place basePath k :: seen).
  { intros k' Hk'. rewrite not_elem_of_cons. split; [|apply Hseen; by right].
    rewrite Forall_forall in Hks. intros Heq. apply Hn. apply entry_path_inj in Heq; [by subst|done|by apply Hks|done]. }
  destruct (normalize_ingest _ files) as [fs|e]; [|by apply IH]. destruct (IH Hseen') as [IHp IHc].
  rewrite !fmap_cons. by rewrite IHp, IHc.
Qed.

Lemma sources_paths args : acceptable args →
  src_path <$> manifest_sources args = entry_path (ma_basePath args) <$> ((ma_files args).*1 ++ (ma_paths args).*1).
Proof.
  intros (_ & _ & _ & _ & Hst & _). unfold manifest_sources. rewrite !fmap_app. f_equal.
  - rewrite <- !list_fmap_compose. done.
  - induction Hst as [|e paths [s Hs] _ IH]; [done|]. cbn [omap list_omap]. rewrite Hs, !fmap_cons. f_equal; [|exact IH].
    unfold stat_entry in Hs. destruct (stat e.2); simpl in Hs; [|done]. case_match; by simplify_eq.
Qed.

Lemma prepared_ok conc fuel args p :
  (0 < conc)%nat → 0 ≤ MAX_INGEST_FILES → 0 ≤ MAX_INGEST_BYTES → (length (ma_paths args) ≤ fuel)%nat →
  prepareBulkIngestPayload MAX_INGEST_FILES MAX_INGEST_BYTES conc stat fuel args = Some (Ok p) →
  acceptable args ∧ p = mkPrepared (manifest_sources args) (size_sum (manifest_sources args)).
Proof.
  intros Hc Hmf Hmb Hf Hp. destruct (prepare_verdict conc fuel args) as (r & Hr & Hv); try done. rewrite Hp in Hr. by injection Hr as <-.
Qed.

(** The entries of an accepted manifest land apart from each other below the
    base path. The batch that is read from it never fails in the filesystem for
    a path given twice or a path that is not one: unless an entry is the null
    device or lies below it, each entry is written at the base directory's
    components followed by its own, each at its own place. *)
Theorem manifest_entries_apart conc fuel args p files :
  (0 < conc)%nat → 0 ≤ MAX_INGEST_FILES → 0 ≤ MAX_INGEST_BYTES → (length (ma_paths args) ≤ fuel)%nat →
  NoDup (ma_files args).*1 → NoDup (ma_paths args).*1 →
  prepareBulkIngestPayload MAX_INGEST_FILES MAX_INGEST_BYTES conc stat fuel args = Some (Ok p) →
  bf_path <$> files = src_path <$> pp_sources p →
  match normalize_ingest [] files with
  | Ok fs => bf_path <$> fs = entry_place (ma_basePath args) <$> ((ma_files args).*1 ++ (ma_paths args).*1) ∧
             NoDup (bf_path <$> fs) ∧ bf_content <$> fs = bf_content <$> files
  | Err e => e = ENOTDIR DEV_NULL ∨ e = EPERM DEV_NULL "bulkIngest"
  end.
Proof.
  intros Hc Hmf Hmb Hfuel Hndf Hndp Hp Hfiles. destruct (prepared_ok conc fuel args p) as [Hacc ->]; try done.
  simpl in Hfiles. rewrite sources_paths in Hfiles by done. destruct Hacc as (Hb & _ & _ & (Hf & Hpp & Hd) & _).
  assert (Hval : Forall (λ k, isValidRelativePath k = true) ((ma_files args).*1 ++ (ma_paths args).*1)).
  { apply Forall_app. split; apply Forall_fmap; eapply Forall_impl; try done; naive_solver. }
  assert (Hnd : NoDup ((ma_files args).*1 ++ (ma_paths args).*1)) by (by apply NoDup_app).
  pose proof (normalize_entries (ma_basePath args) _ files [] Hb Hval Hnd Hfiles) as Hn.
  destruct (normalize_ingest [] files) as [fs|e]; [|apply Hn; set_solver]. destruct Hn as [Hn1 Hn2]; [set_solver|]. split_and!; [done| |done].
  rewrite Hn1. apply NoDup_fmap_2_strong; [|done]. rewrite Forall_forall in Hval. intros k k' Hk Hk'. by apply entry_path_inj; auto.
Qed.
End prepare.

(** ** Reading *)

(** A read returns at most the bytes it was asked for. *)
Definition reads_bounded (f : HostFile) : Prop :=
  ∀ k offset len chunk, 0 < len → ho_read f k offset len = Some chunk → str_len chunk ≤ len.

Section reading.
Context (f : HostFile) (aborted : nat → bool) (size : Z).

Lemma read_loop_size fuel k bytes bytes' k' :
  reads_bounded f → str_len bytes ≤ size → read_loop f aborted size fuel k bytes = Ok (bytes', k') → str_len bytes' = size.
Proof.
  intros Hb. revert k bytes. induction fuel as [|fuel IH]; intros k bytes Hs; simpl; case_decide; try done.
  1,3: intros [= <- <-]; lia.
  case_match; [done|]. destruct (ho_read _ _ _ _) as [chunk|] eqn:Hr; [|done]. case_decide; [done|]. apply IH.
  apply Hb in Hr; [|unfold READ_CHUNK; lia]. rewrite str_len_app. lia.
Qed.

(** Every round reads at least a byte. *)
Lemma read_loop_total fuel k bytes :
  size - str_len bytes ≤ Z.of_nat fuel → read_loop f aborted size fuel k bytes ≠ Err RStalled.
Proof.
  revert k bytes. induction fuel as [|fuel IH]; intros k bytes Hs; simpl; case_decide; try done; [lia|].
  case_match; [done|]. destruct (ho_read _ _ _ _) as [chunk|]; [|done]. case_decide; [done|]. apply IH.
  rewrite str_len_app. pose proof (str_len_nonneg chunk). lia.
Qed.

Lemma readHostFile_size bytes : 0 ≤ size → reads_bounded f → readHostFile f aborted size = Ok bytes → str_len bytes = size.
Proof.
  intros Hs Hb. unfold readHostFile, read_open_file. repeat (case_match; try done). all: intros [= <-]; simplify_eq.
  all: eapply read_loop_size; [done| |done]; unfold str_len; simpl; lia.
Qed.

(** The file has [content] while it is read: a read returns some of the bytes
    at the offset, and none only at the end. *)
Definition serves (content : string) : Prop :=
  ∀ k offset len, 0 ≤ offset ≤ str_len content → 0 < len →
    ∃ chunk rest, ho_read f k offset len = Some chunk ∧ slice_from content offset = chunk +:+ rest ∧
      str_len chunk ≤ len ∧ (str_len chunk = 0 → offset = str_len content).

Lemma read_loop_serves content fuel k bytes rest :
  (∀ n, aborted n = false) → serves content → content = bytes +:+ rest → str_len rest ≤ Z.of_nat fuel →
  size = str_len content → ∃ k', read_loop f aborted size fuel k bytes = Ok (content, k').
Proof.
  intros Hab Hsv. revert k bytes rest. induction fuel as [|fuel IH]; intros k bytes rest Hc Hf Hsz.
  all: pose proof (str_len_nonneg rest) as Hr; assert (Hl : size = str_len bytes + str_len rest) by (rewrite <- str_len_app; congruence).
  all: simpl; case_decide as Hd; try lia.
  1,3: assert (Hz : str_len rest = 0) by lia; apply str_len_zero in Hz; subst rest; rewrite str_app_nil_r in Hc; subst; by eexists.
  rewrite Hab. pose proof (str_len_nonneg bytes). destruct (Hsv k (str_len bytes) (Z.min READ_CHUNK (size - str_len bytes))) as (chunk & rest' & -> & Hsl & Hlen & Hend).
  { lia. } { unfold READ_CHUNK. lia. }
  rewrite decide_False by lia. rewrite Hc, slice_from_app in Hsl. subst rest. rewrite str_len_app in *. pose proof (str_len_nonneg chunk).
  apply (IH (S k) (bytes +:+ chunk) rest'); [by rewrite str_app_assoc|lia|done].
Qed.

(** A host file is read in full or not at all. The read always ends; what it
    returns has exactly the announced size; a file that keeps its content while
    it is read is returned byte for byte, and one that has grown since it was
    announced is refused. *)
Theorem host_file_read_in_full content :
  0 ≤ size → reads_bounded f →
  readHostFile f aborted size ≠ Err RStalled ∧
  (∀ bytes, readHostFile f aborted size = Ok bytes → str_len bytes = size) ∧
  ((∀ n, aborted n = false) → serves content → ho_open f = true → ho_close f = true →
   ho_before f = Some (mkStat true size) → ho_after f = Some (mkStat true size) →
   (size = str_len content → readHostFile f aborted size = Ok content) ∧
   (size < str_len content → ∃ e, readHostFile f aborted size = Err e)).
Proof.
  intros Hs Hb. split_and!.
  - unfold readHostFile, read_open_file. pose proof (read_loop_total (Z.to_nat size) 0 EmptyString) as Ht.
    repeat (case_match; try done). all: intros [= ->]. apply Ht; [|done]. unfold str_len. simpl. lia.
  - intros bytes. by apply readHostFile_size.
  - intros Hab Hsv Ho Hcl Hbe Haf. unfold readHostFile, read_open_file, changed. rewrite Hab, Ho, Hcl, Hbe, Haf. simpl.
    rewrite bool_decide_eq_true_2 by done. simpl. split.
    + intros Hsz. destruct (read_loop_serves content (Z.to_nat size) 0 EmptyString content) as [k ->]; try done; [lia|].
      rewrite Hab. destruct (Hsv k (str_len content) 1) as (chunk & rest & -> & Hsl & Hlen & _); [pose proof (str_len_nonneg content); lia|lia|].
      assert (Hz : str_len chunk = 0).
      { rewrite <- (str_app_nil_r content), slice_from_app in Hsl at 1. by destruct chunk. }
      by rewrite bool_decide_eq_true_2.
    + intros Hlt. destruct (read_loop _ _ _ _ _ _) as [[bytes k]|e] eqn:Hrl; [|by eexists]. rewrite Hab.
      apply read_loop_size in Hrl as <-; [|done|unfold str_len; simpl; lia].
      destruct (Hsv k (str_len bytes) 1) as (chunk & rest & -> & _ & _ & Hend); [lia..|].
      rewrite bool_decide_eq_false_2 by (intros Hz; apply Hend in Hz; lia). by eexists.
Qed.
End reading.

(** What holds of the elements done so far holds of all in the end. *)
Lemma batch_loop_inv {A S E} (body : list A → S → res E S) step l (I : list A → S → Prop) fuel i s s' :
  batch_loop body step l fuel i s = Some (Ok s') → I (take i l) s →
  (∀ a b s s', I a s → body b s = Ok s' → I (a ++ b) s') → I l s'.
Proof.
  intros Hl HI Hstep. revert i s Hl HI. induction fuel as [|fuel IH]; intros i s; simpl; case_decide as Hi; try done.
  1,3: intros [= <-]; by rewrite take_ge by lia.
  destruct (body _ s) as [s1|] eqn:Hb; [|done]. intros Hl HI. apply (IH _ _ Hl).
  rewrite <- take_take_drop. by eapply Hstep.
Qed.

Lemma batch_loop_throws {A S E} (body : list A → S → res E S) step l fuel i s e :
  batch_loop body step l fuel i s = Some (Err e) → ∃ b s', body b s' = Err e.
Proof.
  revert i s. induction fuel as [|fuel IH]; intros i s; simpl; case_decide; try done.
  destruct (body _ s) eqn:Hb; [apply IH|]. intros [= <-]. eauto.
Qed.

Definition content_sum (l : list BulkIngestFile) : Z := foldr Z.add 0 ((λ f, str_len (bf_content f)) <$> l).

Lemma content_sum_cons f l : content_sum (f :: l) = str_len (bf_content f) + content_sum l.
Proof. done. Qed.

Section materialize.
Context `{Base64Decoder} {Hlaws : Base64Laws}.
Context (host_file : string → HostFile) (read_aborted : string → nat → bool) (aborted : nat → bool).

#[local] Notation read := (read_source host_file read_aborted).

(** The outcome of the reads of some sources. *)
Definition reads_done (l : list IngestSource) (st : MatState) : Prop :=
  ms_bulkFiles st = omap (λ s, match read s with Ok f => Some f | Err _ => None end) l ∧
  ms_unreadable st = omap (λ s, match read s with Ok _ => None | Err rel => Some rel end) l.

Lemma settle_done a b st : reads_done a st → reads_done (a ++ b) (fold_left (settle host_file read_aborted) b st).
Proof.
  revert a st. induction b as [|s b IH]; intros a st [Hf Hu]; [by rewrite app_nil_r|]. simpl.
  rewrite (cons_middle s a b), app_assoc. apply IH. unfold settle, reads_done. rewrite !omap_app, Hf, Hu.
  cbn [omap list_omap]. destruct (read s); simpl; by rewrite app_nil_r.
Qed.

Lemma reads_complete l :
  omap (λ s, match read s with Ok _ => None | Err rel => Some rel end) l = [] →
  Forall2 (λ s f, read s = Ok f) l (omap (λ s, match read s with Ok f => Some f | Err _ => None end) l).
Proof.
  induction l as [|s l IH]; [by constructor|]. cbn [omap list_omap]. destruct (read s) eqn:Hr; [|done].
  intros Hu. constructor; [done | by apply IH].
Qed.

(** A source whose file was announced with its size. *)
Definition sized (s : IngestSource) : Prop :=
  0 ≤ src_size s ∧ match s with InlineSource _ n b64 => isValidBase64 b64 = true ∧ n = b64_size b64 | HostSource _ _ _ _ => True end.

Lemma read_sized s file :
  (∀ h, reads_bounded (host_file h)) → sized s → read s = Ok file → bf_path file = src_path s ∧ str_len (bf_content file) = src_size s.
Proof.
  intros Hb [Hn Hs]. unfold read_source. destruct s as [path n b64|path n h rel].
  - destruct Hs as [Hv ->]. intros [= <-]. simpl. by rewrite valid_size.
  - destruct (readHostFile _ _ _) as [content|] eqn:Hr; [|done]. intros [= <-]. simpl. split; [done|]. by eapply readHostFile_size.
Qed.

Lemma files_sized l files :
  (∀ h, reads_bounded (host_file h)) → Forall sized l → Forall2 (λ s f, read s = Ok f) l files →
  bf_path <$> files = src_path <$> l ∧ content_sum files = size_sum l.
Proof.
  intros Hb Hs Hf. induction Hf as [|s file l files Hr _ IH]; [done|]. apply Forall_cons in Hs as [Hs Hl].
  destruct (IH Hl) as [IHp IHc]. destruct (read_sized s file Hb Hs Hr) as [Hp Hc]. rewrite !fmap_cons, size_sum_cons.
  split; [by rewrite Hp, IHp|]. by rewrite content_sum_cons, Hc, IHc.
Qed.

(** An inline entry is among the files with the bytes it encodes. *)
Lemma inline_read basePath e l files :
  Forall2 (λ s f, read s = Ok f) l files → isValidBase64 e.2 = true → inline_of basePath e ∈ l →
  ∃ f, f ∈ files ∧ bf_path f = entry_path basePath e.1 ∧ encode64 (bf_content f) = e.2.
Proof.
  intros Hf Hv [i Hi]%list_elem_of_lookup_1. destruct (Forall2_lookup_l _ _ _ _ _ Hf Hi) as (f & Hl & Hr).
  exists f. split; [by eapply list_elem_of_lookup_2|]. simpl in Hr. injection Hr as <-. simpl. split; [done | by apply valid_decode].
Qed.

Context (MAX_INGEST_FILES MAX_INGEST_BYTES : Z) (stat : string → option HostStat).

Lemma sources_sized args : acceptable MAX_INGEST_FILES MAX_INGEST_BYTES stat args → Forall sized (manifest_sources stat args).
Proof.
  intros (_ & _ & _ & (Hf & _) & _). unfold manifest_sources. apply Forall_app. split.
  - apply Forall_fmap. eapply Forall_impl; [exact Hf|]. intros e [_ Hv]. split; simpl; [|done]. rewrite valid_size by done. apply str_len_nonneg.
  - apply Forall_forall. intros s (e & He & Hs)%list_elem_of_omap. split; [by eapply stat_entry_size|].
    unfold stat_entry in Hs. destruct (stat e.2); simpl in Hs; [|done]. case_match; by simplify_eq.
Qed.

(** What is read is what was announced. The reading of an accepted manifest
    ends. It throws only after the signal was aborted; it fails only with the
    keys of host files that could not be read; and otherwise it returns one file
    per entry, at the announced paths, the inline ones with the bytes whose
    encoding was received, of the announced total size within the limit. *)
Theorem manifest_read_as_announced conc fuel fuel' args p :
  (0 < conc)%nat → 0 ≤ MAX_INGEST_FILES → 0 ≤ MAX_INGEST_BYTES → (length (ma_paths args) ≤ fuel)%nat →
  prepareBulkIngestPayload MAX_INGEST_FILES MAX_INGEST_BYTES conc stat fuel args = Some (Ok p) →
  (∀ h, reads_bounded (host_file h)) → (length (pp_sources p) ≤ fuel')%nat →
  match materialize conc host_file read_aborted aborted fuel' p with
  | None => False
  | Some MatThrown => ∃ k, aborted k = true
  | Some (MatErrors errors) => ∃ keys, keys ≠ [] ∧ errors = [UnreadableHostPaths keys] ∧
      ∀ k, k ∈ keys → ∃ s, s ∈ pp_sources p ∧ read s = Err k
  | Some (MatFiles files) =>
      bf_path <$> files = bf_path <$> pp_bulkFiles p ∧
      content_sum files = pp_contentBytes p ∧ pp_contentBytes p ≤ MAX_INGEST_BYTES ∧
      ∀ e, e ∈ ma_files args → ∃ f, f ∈ files ∧ bf_path f = entry_path (ma_basePath args) e.1 ∧ encode64 (bf_content f) = e.2
  end.
Proof.
  intros Hc Hmf Hmb Hfuel Hp Hb Hfuel'. destruct (prepared_ok _ _ _ conc fuel args p Hc Hmf Hmb Hfuel Hp) as [Hacc ->].
  simpl in Hfuel'. unfold materialize. simpl pp_sources.
  destruct (batch_loop_returns (read_batch host_file read_aborted aborted) conc (manifest_sources stat args) fuel' 0 (mkMat [] [] 0) Hc) as [r Hr]; [lia|].
  rewrite Hr. destruct r as [st|[]].
  2: { apply batch_loop_throws in Hr as (b & s & Hr). unfold read_batch in Hr. repeat (case_match; try done); eauto. }
  assert (Hd : reads_done (manifest_sources stat args) st).
  { eapply (batch_loop_inv _ _ _ reads_done _ _ _ _ Hr); [done|]. intros a b s s' Hs. unfold read_batch. repeat (case_match; [done|]).
    intros [= <-]. by apply settle_done. }
  destruct Hd as [Hdf Hdu]. rewrite Hdf, Hdu. case_decide as Hu.
  - apply reads_complete in Hu. destruct (files_sized _ _ Hb (sources_sized args Hacc) Hu) as [Hpaths Hsum].
    split_and!; [|done|apply Hacc|].
    + rewrite Hpaths. unfold pp_bulkFiles. by rewrite <- list_fmap_compose.
    + intros e He. eapply inline_read; [exact Hu| |apply elem_of_app; left; by apply list_elem_of_fmap_2].
      destruct Hacc as (_ & _ & _ & (Hv & _) & _). rewrite Forall_forall in Hv. by apply Hv.
  - eexists. split_and!; [exact Hu|done|]. intros k (s & Hs & Hk)%list_elem_of_omap. exists s. split; [done|].
    by destruct (read s); simplify_eq.
Qed.
End materialize.

(** ** A manifest with an inline and a host file *)

Module Demo.
Definition args : BuildIngestPayloadArgs := mkArgs "/data" [("a/b", "aGVsbG8=")] [("c", "/etc/c")] false.

Definition disk (h : string) : option HostStat := if decide (h = "/etc/c") then Some (mkStat true 3) else None.

(** A host file with the text xyz, served two bytes at a time. *)
Definition xyz : HostFile :=
  mkHostFile true (Some (mkStat true 3))
    (λ _ offset len, Some (slice_to (slice_from "xyz" offset) (Z.max 0 (Z.min len 2)))) (Some (mkStat true 3)) true.

Definition payload : PreparedIngestPayload :=
  mkPrepared [InlineSource "/data/a/b" 5 "aGVsbG8="; HostSource "/data/c" 3 "/etc/c" "c"] 8.

Definition loaded : list BulkIngestFile := [mkIngestFile "/data/a/b" "hello" 420; mkIngestFile "/data/c" "xyz" 420].

Example build : buildBulkIngestPayload 10 100 1 disk (λ _, xyz) (λ _ _, false) (λ _, false) 2 args = Some (MatFiles loaded).
Proof. by vm_compute. Qed.

Lemma str_take_drop m s : str_take m s +:+ str_drop m s = s.
Proof. revert s. induction m as [|m IH]; intros [|c s]; simpl; [done..|by rewrite IH]. Qed.

Lemma slice_to_len s n : 0 ≤ n → str_len (slice_to s n) ≤ n.
Proof.
  intros Hn. unfold slice_to, slice_index. rewrite decide_False by lia.
  assert (Ht : ∀ m t, str_len (str_take m t) ≤ Z.of_nat m).
  { intros m. induction m as [|m IH]; intros [|c t]; simpl; rewrite ?str_len_String; try (unfold str_len; simpl; lia). specialize (IH t). lia. }
  etransitivity; [apply Ht|]. pose proof (str_len_nonneg s). lia.
Qed.

Lemma xyz_bounded : reads_bounded xyz.
Proof. intros k offset len chunk Hlen [= <-]. etransitivity; [apply slice_to_len; lia | lia]. Qed.

Lemma xyz_serves : serves xyz "xyz".
Proof.
  intros k offset len Ho Hlen. change (str_len "xyz") with 3 in *. simpl ho_read.
  assert (Hcut : ∀ s n, 0 < n → ∃ rest, s = slice_to s n +:+ rest ∧ (str_len (slice_to s n) = 0 → s = EmptyString)).
  { intros s n Hn. unfold slice_to, slice_index. rewrite decide_False by lia. destruct s as [|c s]; [exists EmptyString; by destruct (Z.to_nat _)|].
    rewrite str_len_String. pose proof (str_len_nonneg s). replace (Z.to_nat (Z.min n (str_len s + 1))) with (S (Z.to_nat (Z.min n (str_len s + 1) - 1))) by lia.
    simpl. generalize (Z.to_nat (Z.min n (str_len s + 1) - 1)). intros m. exists (str_drop m s). split.
    - simpl. by rewrite str_take_drop.
    - rewrite str_len_String. pose proof (str_len_nonneg (str_take m s)). lia. }
  destruct (Hcut (slice_from "xyz" offset) (Z.max 0 (Z.min len 2))) as (rest & Hr & Hz); [lia|].
  eexists _, rest. split_and!; [done|exact Hr|etransitivity; [apply slice_to_len; lia|lia]|].
  intros Hl. apply Hz in Hl. assert (Hcase : offset = 0 ∨ offset = 1 ∨ offset = 2 ∨ offset = 3) by lia.
  destruct Hcase as [-> | [-> | [-> | ->]]]; try discriminate Hl. done.
Qed.
End Demo.

Lemma manifest_accepted_exactly_witness :
  ∃ r, prepareBulkIngestPayload 10 100 1 Demo.disk 1 Demo.args = Some r ∧ verdict 10 100 Demo.disk Demo.args r.
Proof.
  destruct (manifest_accepted_exactly 10 100 Demo.disk 1 1 Demo.args) as (r & Hr & Hv & _); [lia|lia|lia|simpl; lia|].
  exists r. split; [exact Hr | exact Hv].
Defined.

Lemma fractional_concurrency_hangs_witness :
  prepareBulkIngestPayload 10 100 (Z.to_nat (positiveIntEnv (λ _, JFinite (1 # 2)) (Some "0.5") 16)) Demo.disk 1000 Demo.args = None.
Proof.
  apply (fractional_concurrency_hangs 10 100 Demo.disk (λ _, JFinite (1 # 2)) "0.5" (1 # 2) Demo.args 1 1 Demo.payload 1000).
  - discriminate.
  - reflexivity.
  - reflexivity.
  - reflexivity.
  - discriminate.
  - vm_compute. reflexivity.
Defined.

Lemma manifest_entries_apart_witness :
  match normalize_ingest [] Demo.loaded with
  | Ok fs => bf_path <$> fs = ["/data/a/b"; "/data/c"] ∧ NoDup (bf_path <$> fs) ∧ bf_content <$> fs = ["hello"; "xyz"]
  | Err e => e = ENOTDIR DEV_NULL ∨ e = EPERM DEV_NULL "bulkIngest"
  end.
Proof.
  apply (manifest_entries_apart 10 100 Demo.disk 1 1 Demo.args Demo.payload Demo.loaded); try lia; try (simpl; lia).
  - compute_decide.
  - compute_decide.
  - vm_compute. reflexivity.
  - vm_compute. reflexivity.
Defined.

Lemma host_file_read_in_full_witness : readHostFile Demo.xyz (λ _, false) 3 = Ok "xyz".
Proof.
  destruct (host_file_read_in_full Demo.xyz (λ _, false) 3 "xyz" ltac:(lia) Demo.xyz_bounded) as (_ & _ & Hs).
  destruct (Hs (λ _, eq_refl) Demo.xyz_serves eq_refl eq_refl eq_refl eq_refl) as [Hok _]. apply Hok. reflexivity.
Defined.

Lemma manifest_read_as_announced_witness :
  bf_path <$> Demo.loaded = bf_path <$> pp_bulkFiles Demo.payload ∧ content_sum Demo.loaded = 8.
Proof.
  pose proof (manifest_read_as_announced (λ _, Demo.xyz) (λ _ _, false) (λ _, false) 10 100 Demo.disk 1 1 2 Demo.args Demo.payload) as Hm.
  assert (Hrun : materialize 1 (λ _, Demo.xyz) (λ _ _, false) (λ _, false) 2 Demo.payload = Some (MatFiles Demo.loaded)) by (vm_compute; reflexivity).
  rewrite Hrun in Hm. destruct Hm as (Hp & Hs & _); try lia; try (simpl; lia); [vm_compute; reflexivity|intros _; exact Demo.xyz_bounded|].
  split; [exact Hp | exact Hs].
Defined.
