(* ===== verification/Contents.v ===== *)
(** File contents: what is written is what is read back.

    The bytes of a file live in the blob table under their hash; the view caches
    them by inode. The cache may evict at any time, so a read after a write finds
    the bytes in the cache or in the blob the write stored. *)

From S2P Require Import Prelude Errors Paths Store Tree Dialect Lifecycle LoadPaths View Session Namespace Coherence Simulation Journal Invariant Mutate Handlers SqlFs Scopes Machine Guarantees.

(** ** The statements of a write leave the blobs alone *)

Definition blob_free {A} (m : txM A) : Prop := ∀ t, blobs (t_db (m t).2) = blobs (t_db t).

Lemma blob_free_bind {A B} (m : txM A) (f : A → txM B) : blob_free m → (∀ a, blob_free (f a)) → blob_free (bindM m f).
Proof.
  intros Hm Hf t. specialize (Hm t). unfold bindM. destruct (m t) as [[a|e] t']; [|done]. by rewrite Hf.
Qed.

Lemma blob_free_gets {A} (f : tx → A) : blob_free (gets f).
Proof. done. Qed.
Lemma blob_free_ret {A} (a : A) : blob_free (retM a).
Proof. done. Qed.
Lemma blob_free_throw {A} e : blob_free (throw e : txM A).
Proof. done. Qed.
Lemma blob_free_lift {A} (r : res fs_error A) : blob_free (lift_res r).
Proof. done. Qed.
Lemma blob_free_fence sb e c : blob_free (fenceCtes sb e c).
Proof. intros t. unfold fenceCtes. destruct (sel_sandbox t sb); [|done]. by destruct (fence_pass _ _ _). Qed.
Lemma blob_free_insert r : blob_free (insert_inode r).
Proof. done. Qed.
Lemma blob_free_upsert p n r : blob_free (upsert_dirent_row p n r).
Proof. intros t. unfold upsert_dirent_row. case_decide; [|done]. destruct (dirents (t_db t) !! (p, n)); [|done]. by destruct (visible _ _). Qed.
Lemma blob_free_inodes f : blob_free (modifyS (on_db (set_inodes f))).
Proof. done. Qed.
Lemma blob_free_cascade id : blob_free (modifyS (on_db (delete_cascade id))).
Proof. done. Qed.
Lemma blob_free_drop id : blob_free (modifyS (drop_link id)).
Proof. intros t. simpl. unfold drop_link. destruct (sel_inode t id); [|done]. by case_decide. Qed.

Create HintDb blob_free.
#[export] Hint Resolve blob_free_gets blob_free_ret blob_free_throw blob_free_lift blob_free_fence blob_free_insert
  blob_free_upsert blob_free_inodes blob_free_cascade blob_free_drop : blob_free.

Ltac blob_freely :=
  repeat first
    [ solve [auto with blob_free]
    | apply blob_free_bind; [|intros ?]
    | match goal with |- blob_free (match ?x with _ => _ end) => destruct x end ].

(** Step over a check that passed. *)
Ltac passed Hrun L := apply bindM_inv in Hrun as (? & ? & ?Hstep & Hrun); apply L in Hstep as ->.

Section contents.
Context `{Config} `{Lru}.

Lemma blob_free_putFile k p n m sz sha blob rc :
  hasCommitBlob = true → blob_free (m_run (putFileOp k p n m sz sha blob) rc).
Proof.
  intros Hcb. unfold putFileOp. destruct hasComposites; simpl; rewrite ?Hcb;
    unfold writeFileComposite, compositeFenceAndAdvance, createAndReplace, createNode, createInode, fenceAndAdvance, upsertDirent,
      unlinkInode, decrementNlink, deleteInode; blob_freely.
Qed.

(** ** A successful mutation touches neither view, contents nor context *)

(** The session can be read from. *)
Definition alive (s : Sys) : Prop := assertAlive s = (Ok tt, s).

Definition calm (s s' : Sys) : Prop :=
  s_view s' = s_view s ∧ s_exec s' = s_exec s ∧ blobs (s_db s') = blobs (s_db s) ∧ alive s'.

Lemma assertAlive_inv s a s' :
  assertAlive s = (Ok a, s') → s' = s ∧ (scriptScope (s_pers s) = true → scriptTxLost (s_pers s) = None).
Proof. unfold assertAlive. destruct (scriptScope (s_pers s)), (scriptTxLost (s_pers s)); intros [= <- <-]; done. Qed.

Lemma alive_outside s : scriptScope (s_pers s) = false → alive s.
Proof. intros Hs. unfold alive, assertAlive. by rewrite Hs. Qed.

(** A computation in a transaction that changes no object of the session but the
    counter of lease checks. *)
Definition frames {A} (m : stM A) : Prop := ∀ st,
  let st' := (m st).2 in
  s_view st'.1 = s_view st.1 ∧ s_exec st'.1 = s_exec st.1 ∧ s_pers st'.1 = s_pers st.1 ∧ blobs (t_db st'.2) = blobs (t_db st.2).

Lemma frames_bind {A B} (m : stM A) (f : A → stM B) : frames m → (∀ a, frames (f a)) → frames (bindM m f).
Proof.
  intros Hm Hf st. specialize (Hm st). unfold bindM. destruct (m st) as [[a|e] st']; [|done]. simpl in *.
  destruct Hm as (H1 & H2 & H3 & H4), (Hf a st') as (H5 & H6 & H7 & H8). split_and!; congruence.
Qed.

Lemma frames_onTx {A} (m : txM A) : blob_free m → frames (onTx m).
Proof. intros Hm st. unfold onTx. specialize (Hm st.2). by destruct (m st.2) as [[a|e] t']. Qed.

Lemma frames_runOp run : (∀ rc, blob_free (run rc)) → frames (runOp run).
Proof. intros Hr st. unfold runOp. by apply frames_onTx. Qed.

Lemma frames_lease : frames (onSys assertLease).
Proof. intros st. unfold onSys, assertLease. by destruct (s_lease st.1 (s_tick st.1)). Qed.

Lemma frames_alive : frames (onSys assertAlive).
Proof. intros st. unfold onSys, assertAlive. by destruct (scriptScope (s_pers st.1)), (scriptTxLost (s_pers st.1)). Qed.

Lemma frames_lock : frames (onTx (setSandboxContextWithLock sandboxId)).
Proof. apply frames_onTx. intros t. unfold setSandboxContextWithLock. by destruct (sel_sandbox t sandboxId). Qed.

Lemma frames_epoch : frames (onTx (getSandboxEpoch sandboxId)).
Proof. apply frames_onTx. intros t. unfold getSandboxEpoch. by destruct (sel_sandbox t sandboxId). Qed.

Lemma frames_checkEpoch : frames checkEpoch.
Proof. unfold checkEpoch. apply frames_bind; [apply frames_epoch|]. intros e. apply frames_bind; [done|]. intros a st. unfold throw_if. by destruct (negb _). Qed.

(** An eager transaction whose body frames. *)
Lemma inTx_calm {A} (m : stM A) s a s' :
  frames m → inTx m s = (Ok a, s') → s_view s' = s_view s ∧ s_exec s' = s_exec s ∧ s_pers s' = s_pers s ∧ blobs (s_db s') = blobs (s_db s).
Proof.
  intros Hm. unfold inTx. specialize (Hm (s, mkTx (s_db s) None None)).
  destruct (m (s, mkTx (s_db s) None None)) as [[x|e] [s1 t1]]; [|done]. intros [= <- <-]. done.
Qed.

Lemma mutate_calm spec s r s' :
  (∀ rc, blob_free (m_run spec rc)) → mutate spec s = (Ok r, s') → calm s s'.
Proof.
  intros Hb. unfold mutate, captureGeneration, buffering. mnorm. destruct (scriptScope (s_pers s)) eqn:Hsc.
  - intros Hrun. apply bindM_inv in Hrun as ([] & s1 & Hal & Hrun).
    destruct (assertAlive_inv _ _ _ Hal) as [-> Hlost]. specialize (Hlost Hsc).
    destruct (mintInodeIds_spec (m_mints spec) s) as (ids & s1 & Hm & _ & _ & _ & ->).
    rewrite (bindM_Ok _ _ _ _ _ Hm) in Hrun. unfold recordMutation in Hrun. mnorm. revert Hrun. rewrite bindM_assoc, bindM_gets.
    destruct (decide _); [done|]. rewrite bindM_modify. intros [= <- <-]. split_and!; [done..|]. unfold alive, assertAlive. simpl. by rewrite Hsc, Hlost.
  - intros Hrun. apply bindM_inv in Hrun as (receipt & s1 & Hrun & [= -> ->]).
    assert (Hfr : s_view s' = s_view s ∧ s_exec s' = s_exec s ∧ s_pers s' = s_pers s ∧ blobs (s_db s') = blobs (s_db s)).
    { destruct (m_composite spec); [unfold withBareTx in Hrun | unfold withWriteTx in Hrun];
        apply bindM_inv in Hrun as (r0 & s1 & Hin & [= _ ->]); (eapply inTx_calm; [|exact Hin]).
      - apply frames_bind; [destruct hasRetire; [|done]; unfold assertDurableWriteEpoch; apply frames_bind; [apply frames_lock|]; intros _;
          apply frames_bind; [apply frames_lease|]; intros _; apply frames_bind; [apply frames_alive|]; intros _; destruct hasRetire; [apply frames_checkEpoch|done]|].
        intros _. apply frames_bind; [by apply frames_runOp|]. intros v. apply frames_bind; [apply frames_epoch|]. intros o.
        apply frames_bind; [apply frames_lease|done].
      - apply frames_bind; [apply frames_lock|]. intros _. apply frames_bind; [apply frames_checkEpoch|]. intros _.
        apply frames_bind; [by apply frames_runOp|]. intros v. apply frames_bind; [apply frames_epoch|]. intros o.
        apply frames_bind; [apply frames_lease|done]. }
    destruct Hfr as (? & ? & Hp & ?). split_and!; [done..|]. apply alive_outside. by rewrite Hp.
Qed.

(** ** Checks that pass change nothing *)

Definition check {A} (m : sysM A) : Prop := ∀ s a s', m s = (Ok a, s') → s' = s.

Lemma check_bind {A B} (m : sysM A) (f : A → sysM B) : check m → (∀ a, check (f a)) → check (bindM m f).
Proof. intros Hm Hf s b s' (a & s1 & Hr & Hk)%bindM_inv. apply Hm in Hr as ->. by apply Hf in Hk. Qed.
Lemma check_gets {A} (f : Sys → A) : check (gets f).
Proof. by intros s a s' [= _ <-]. Qed.
Lemma check_ret {A} (a : A) : check (retM a).
Proof. by intros s x s' [= _ <-]. Qed.
Lemma check_throw {A} e : check (throw e : sysM A).
Proof. done. Qed.
Lemma check_throw_if c e : check (throw_if c e).
Proof. intros s a s'. unfold throw_if. destruct c; [done|]. by intros [= _ <-]. Qed.
Lemma check_alive : check assertAlive.
Proof. intros s a s' Ha. by apply assertAlive_inv in Ha as [-> _]. Qed.
Lemma check_reservation st : check (assertReservation st).
Proof.
  unfold assertReservation, assertGeneration.
  repeat first [apply check_throw_if | apply check_gets | apply check_alive | apply check_ret | apply check_bind; [|intros ?] | destruct (st_active st)].
Qed.
Lemma check_writable p op : check (assertWritable p op).
Proof. unfold assertWritable. apply check_bind; [apply check_alive|]. intros _. apply check_bind; [apply check_gets|]. intros d. by case_decide; [|apply check_ret]. Qed.
Lemma check_parent p : check (viewParent p).
Proof. by intros s a s' [= _ <-]. Qed.
Lemma check_generation g : check (assertGeneration g).
Proof.
  unfold assertGeneration. destruct g;
  repeat first [apply check_throw_if | apply check_gets | apply check_alive | apply check_ret | apply check_bind; [|intros ?]].
Qed.

Lemma mutateOne_calm spec s r s' :
  (∀ rc, blob_free (m_run spec rc)) → mutateOne spec s = (Ok r, s') → calm s s'.
Proof.
  intros Hb Hrun. unfold mutateOne in Hrun. passed Hrun @check_gets. apply bindM_inv in Hrun as (rc & s1 & Hm & Hrun).
  apply mutate_calm in Hm; [|done]. destruct x; passed Hrun check_generation || passed Hrun @check_ret; by injection Hrun as _ <-.
Qed.

(** Each blob is stored under the hash of its bytes. *)
Definition blobs_ok (d : db) : Prop := ∀ h b, blobs d !! h = Some b → sha256 (b_data b) = h.

Lemma commitBlob_stored h bytes d :
  blobs_ok d → h = sha256 bytes → ∃ b, blobs (commitBlob h bytes d) !! h = Some b ∧ sha256 (b_data b) = h.
Proof.
  intros Hok ->. unfold commitBlob, blob_row_upsert. simpl. destruct (blobs d !! sha256 bytes) as [b|] eqn:E; rewrite lookup_insert_eq.
  - eexists. split; [done|]. simpl. by apply Hok in E.
  - by eexists.
Qed.

Lemma storeBlob_inv st h bytes s s' :
  hasCommitBlob = true → bytes ≠ EmptyString → storeBlob st h bytes s = (Ok tt, s') →
  s' = set_db (commitBlob h bytes (s_db s)) s.
Proof.
  intros Hcb Hne Hrun. unfold storeBlob in Hrun. passed Hrun check_reservation. rewrite Hcb in Hrun.
  rewrite bool_decide_eq_true_2 in Hrun by (pose proof (str_len_nonneg bytes); destruct (decide (str_len bytes = 0)) as [?%str_len_zero|]; [done|lia]).
  cbn [andb] in Hrun. rewrite bindM_modify in Hrun. by apply check_reservation in Hrun.
Qed.

(** The size limit of an execution. *)
Definition size_allowed (context : option ExecContext) (bytes : Z) : Prop :=
  ∀ c limit, context = Some c → maxFileBytes c = Some limit → bytes ≤ limit.

Lemma size_check path bytes op s : size_allowed (s_exec s) bytes → assertExecFileSize path bytes op s = (Ok tt, s).
Proof.
  intros Hs. unfold assertExecFileSize. rewrite bindM_gets. destruct (s_exec s) as [c|]; [|done].
  destruct (maxFileBytes c) as [limit|] eqn:El; [|done]. rewrite decide_True by (by eapply Hs). done.
Qed.

Lemma size_passed path bytes op s s' : assertExecFileSize path bytes op s = (Ok tt, s') → s' = s ∧ size_allowed (s_exec s) bytes.
Proof.
  unfold assertExecFileSize. rewrite bindM_gets. destruct (s_exec s) as [c|]; [|by intros [= <-]].
  destruct (maxFileBytes c) as [limit|] eqn:El; [|intros [= <-]; split; [done|]; intros c' limit [= <-]; congruence].
  case_decide; [|done]. intros [= <-]. split; [done|]. intros c' limit' [= <-] ?. congruence.
Qed.

(** What the budget of an execution makes of reading [bytes] bytes: the error of
    an earlier excess, the error of this one, or nothing. *)
Definition input_excess (context : option ExecContext) (path : string) (bytes : Z) : option fs_error :=
  c ← context; limit ← inputLimitBytes c;
  match exceeded c with
  | Some e => Some e
  | None => if decide (limit - inputBytes c < bytes) then Some (EEXECINPUT path (inputBytes c) bytes limit) else None
  end.

Lemma input_check bytes path s :
  ∃ c', (consumeExecInput bytes path s) = (match input_excess (s_exec s) path bytes with Some e => Err e | None => Ok tt end, set_exec c' s).
Proof.
  assert (Hsame : s = set_exec (s_exec s) s) by by destruct s.
  unfold consumeExecInput, input_excess. rewrite bindM_gets. destruct (s_exec s) as [c|] eqn:Ec; simpl; [|eexists; by rewrite Hsame at 1].
  destruct (inputLimitBytes c); simpl; [|eexists; by rewrite Hsame at 1].
  destruct (exceeded c); [eexists; by rewrite Hsame at 1|]. case_decide; by eexists.
Qed.

(** What a successful write leaves. *)
Lemma writeFileAt_result path bytes m s s' :
  hasCommitBlob = true → bytes ≠ EmptyString → blobs_ok (s_db s) →
  writeFileAt path bytes m s = (Ok tt, s') →
  alive s' ∧ (s_exec s' = s_exec s ∧ size_allowed (s_exec s) (str_len bytes)) ∧ (∃ b, blobs (s_db s') !! sha256 bytes = Some b ∧ sha256 (b_data b) = sha256 bytes) ∧
  ∃ id mode_ mt contents, view_get path (s_view s') = Some (file_entry id mode_ (str_len bytes) mt (sha256 bytes)) ∧
    contentCache (v_contents (s_view s')) = lru_set id bytes contents.
Proof.
  intros Hcb Hne Hbl Hrun. unfold writeFileAt in Hrun. passed Hrun @check_gets. passed Hrun check_writable.
  passed Hrun @check_gets. passed Hrun check_throw_if. passed Hrun check_parent. destruct x3 as [[pp n] pe].
  apply bindM_inv in Hrun as ([] & s1 & Hsz & Hrun). apply size_passed in Hsz as [-> Hsz].
  passed Hrun @check_gets. apply bindM_inv in Hrun as ([] & s1 & Hst & Hrun). apply storeBlob_inv in Hst as ->; [|done..].
  destruct (commitBlob_stored (sha256 bytes) bytes (s_db s) Hbl eq_refl) as (b & Hb & Hsha).
  passed Hrun @check_gets. passed Hrun @check_gets. apply bindM_inv in Hrun as (rc & s1 & Hm & Hrun).
  apply mutateOne_calm in Hm; [|intros rc0; by apply blob_free_putFile]. destruct Hm as (Hv & He & Hbs & Hal). simpl in Hv, He, Hbs.
  passed Hrun @check_gets. unfold publish, modifyS in Hrun. injection Hrun as <-. rewrite decide_True by
    (pose proof (str_len_nonneg bytes); destruct (decide (str_len bytes = 0)) as [?%str_len_zero|]; [done|lia]).
  split_and!; [|simpl; congruence|done|exists b; simpl; rewrite Hbs; done|].
  - unfold alive, assertAlive in *. simpl. destruct (scriptScope (s_pers s1)); [|done]. by destruct (scriptTxLost (s_pers s1)).
  - eexists (the_id rc.2), _, _, _. split.
    + unfold view_get, on_view. cbn [s_view]. rewrite (proj1 (publish_entries _ _ _ _ _)). simpl. by rewrite jget_jset_eq.
    + cbn [s_view on_view]. unfold publishMutation. rewrite fold_left_app. simpl. by destruct rc.1.
Qed.

Lemma readContent_result e bytes contents s :
  LruLaws → (∀ a b, sha256 a = sha256 b → a = b) → alive s →
  contentSha256 e = Some (sha256 bytes) →
  (∃ b, blobs (s_db s) !! sha256 bytes = Some b ∧ sha256 (b_data b) = sha256 bytes) →
  contentCache (v_contents (s_view s)) = lru_set (inodeId e) bytes contents →
  (readContent e s).1 = Ok bytes.
Proof.
  intros HL Hinj Hal Hsha (b & Hb & Hbs) Hcache. unfold readContent. rewrite bindM_gets.
  destruct (jget (inodeId e) (contentCache (v_contents (s_view s)))) as [c|] eqn:Ec.
  - rewrite Hcache in Ec. apply lru_set_get in Ec as [[_ ->]|[? _]]; [|done]. by rewrite (bindM_Ok _ _ _ _ _ Hal).
  - rewrite bindM_gets, Hsha. simpl. unfold getBlobNoTx. rewrite Hb. simpl. apply Hinj in Hbs as ->. case_decide.
    + rewrite bindM_modify. unfold bindM, assertAlive. simpl. unfold alive, assertAlive in Hal.
      destruct (scriptScope (s_pers s)); [|done]. by destruct (scriptTxLost (s_pers s)).
    + rewrite bindM_ret. by rewrite (bindM_Ok _ _ _ _ _ Hal).
Qed.

(** C28: a non-empty file that was just written reads back byte for byte, in a
    script's execution context and without one, in a script scope and outside,
    whatever the content cache evicts in between, as long as the hash has no
    collisions and the stored blobs match their hashes. The one exception is the
    budget of the execution: the read throws, and throws exactly that, when the
    context has an input limit and an excess is already recorded or these bytes
    exceed what is left. *)
Theorem write_then_read p q bytes s s' :
  LruLaws → hasCommitBlob = true → (∀ a b, sha256 a = sha256 b → a = b) → blobs_ok (s_db s) →
  bytes ≠ EmptyString → validatePath p = Ok q → q ≠ DEV_NULL →
  fs_writeFile p bytes s = (Ok tt, s') →
  (fs_readFileBuffer p s').1 = match input_excess (s_exec s) q (str_len bytes) with Some e => Err e | None => Ok bytes end.
Proof.
  intros HL Hcb Hinj Hbl Hne Hp Hq Hrun. unfold fs_writeFile in Hrun. unfold lift_res in Hrun. unfold bindM at 1 in Hrun.
  rewrite Hp, decide_False in Hrun by done. unfold ns_writeFile, withNamespaceMutation in Hrun.
  passed Hrun @check_gets. passed Hrun check_reservation.
  destruct (writeFileAt_result q bytes None s s' Hcb Hne Hbl Hrun) as (Hal & [Hex Hsz] & Hblob & id & m & mt & c & Hen & Hcache).
  unfold fs_readFileBuffer. rewrite (bindM_Ok _ _ _ _ _ Hal). unfold readBytes, lift_res. unfold bindM at 1. rewrite Hp, decide_False by done.
  assert (Hres : resolveReadEntry q s' = (Ok (Some (file_entry id m (str_len bytes) mt (sha256 bytes))), s')).
  { unfold resolveReadEntry. rewrite !bindM_gets, Hen. done. }
  rewrite (bindM_Ok _ _ _ _ _ Hres). unfold throw_if. simpl. rewrite bindM_ret.
  rewrite <- Hex in Hsz. rewrite (bindM_Ok _ _ _ _ _ (size_check q _ "read" _ Hsz)).
  destruct (input_check (str_len bytes) q s') as [c' Hin]. rewrite Hex in Hin.
  destruct (input_excess (s_exec s) q (str_len bytes)) as [e|]; [by rewrite (bindM_Err _ _ _ _ _ Hin)|].
  rewrite (bindM_Ok _ _ _ _ _ Hin). apply (readContent_result _ bytes c); try done.
  unfold alive, assertAlive in *. simpl. destruct (scriptScope (s_pers s')); [|done]. by destruct (scriptTxLost (s_pers s')).
Qed.
End contents.

Section witnesses.
#[local] Existing Instance demo_config.
#[local] Existing Instance lru_unbounded.

(** An execution that may read ten bytes. *)
Definition demo_context (limit : Z) : ExecContext := mkExec (Some 100) (Some limit) 0 None.

Lemma db_set_exec c s : s_db (set_exec c s) = s_db s.
Proof. done. Qed.

Definition demo_read_back (limit : Z) : res fs_error string :=
  let s := set_exec (Some (demo_context limit)) demo_scope in
  (fs_readFileBuffer "/tmp/../tmp/f" (fs_writeFile "/tmp/../tmp/f" "hello" s).2).1.

Lemma write_then_read_witness :
  demo_read_back 10 = Ok "hello" ∧ demo_read_back 4 = Err (EEXECINPUT "/tmp/f" 0 5 4).
Proof.
  assert (Hall : ∀ limit, (fs_writeFile "/tmp/../tmp/f" "hello" (set_exec (Some (demo_context limit)) demo_scope)).1 = Ok tt →
    demo_read_back limit = match input_excess (Some (demo_context limit)) "/tmp/f" 5 with Some e => Err e | None => Ok "hello" end).
  { intros limit Hw. apply (@write_then_read demo_config lru_unbounded "/tmp/../tmp/f" "/tmp/f" "hello" (set_exec (Some (demo_context limit)) demo_scope)
      (fs_writeFile "/tmp/../tmp/f" "hello" (set_exec (Some (demo_context limit)) demo_scope)).2).
    - exact lru_unbounded_laws.
    - reflexivity.
    - intros a b Hab. exact Hab.
    - intros h b Hb. assert (Hnone : blobs (s_db demo_scope) = ∅) by (vm_compute; reflexivity).
      rewrite db_set_exec, Hnone, lookup_empty in Hb. discriminate Hb.
    - discriminate.
    - vm_compute. reflexivity.
    - discriminate.
    - exact (run_pair _ _ Hw). }
  split.
  - rewrite (Hall 10); [reflexivity|vm_compute; reflexivity].
  - rewrite (Hall 4); [reflexivity|vm_compute; reflexivity].
Defined.
End witnesses.
