(* ===== verification/Resolve.v ===== *)
(** Symlink resolution: the cache's walk ([resolveCached]) against the
    database's ([fs_resolve]).

    [resolveCached] restarts from the root with a target it has normalised as
    text; [fs_resolve] keeps a stack of inodes and resolves components one by
    one. On a coherent view they agree as long as no link target has a [.] or
    [..] component. *)

From S2P Require Import Prelude Errors Paths Store Tree Dialect Lifecycle LoadPaths View Session Namespace Coherence Simulation Journal Invariant Mutate Handlers SqlFs Scopes Machine Guarantees.

Section resolve.
Context (sb : string) (v : View) (t : tx) (root : Z).
Context (Hctx : t_sandbox t = Some sb) (Hwf : wf_db (t_db t)) (Hroot : root_of (t_db t) sb = Some root).
Context (Hcoh : coh sb (realId []) v (t_db t)).

(** Every symlink has a target without [.] and [..]. *)
Definition plain_links : Prop := ∀ id r, sel_inode t id = Some r → i_kind r = SYMLINK →
  ∃ l, i_symlinkTarget r = Some l ∧ valid_comps (segments l).

Context (Hplain : plain_links).

Lemma visible_own r : i_sandboxId r = sb → visible t (i_sandboxId r) = true.
Proof. intros ->. unfold visible. rewrite Hctx. by rewrite (bool_decide_eq_true_2 (sb = sb)), orb_true_r. Qed.

(** What the database shows of a path of the view. *)
Lemma db_node cs e :
  valid_comps cs → view_get (path_of cs) v = Some e →
  ∃ i r, walk (dirents (t_db t)) root cs = Some i ∧ realId [] (inodeId e) = Ok i ∧ sel_inode t i = Some r ∧ entry_matches e r.
Proof.
  intros Hcs He. destruct (coh_lookup sb _ v _ cs e Hwf Hcoh Hcs He) as (root' & i & r & Hr' & Hρ & Hw & Hi & Hs & Hm).
  assert (root' = root) as -> by congruence. exists i, r. split_and!; try done. unfold sel_inode. by rewrite Hi, visible_own.
Qed.

Lemma db_entry cs n i :
  valid_comps (cs ++ [n]) → walk (dirents (t_db t)) root cs = Some i →
  match view_get (path_of (cs ++ [n])) v with
  | Some e => ∃ de r, sel_dirent t (i, n) = Some de ∧ walk (dirents (t_db t)) root (cs ++ [n]) = Some (d_inodeId de) ∧
                      sel_inode t (d_inodeId de) = Some r ∧ entry_matches e r
  | None => sel_dirent t (i, n) = None
  end.
Proof.
  intros Hv Hw. destruct (view_get (path_of (cs ++ [n])) v) as [e|] eqn:E.
  - destruct (db_node (cs ++ [n]) e Hv E) as (j & r & Hwj & _ & Hj & Hm). rewrite walk_snoc, Hw in Hwj. simpl in Hwj.
    destruct (dirents (t_db t) !! (i, n)) as [de|] eqn:Ede; [|done]. simpl in Hwj. injection Hwj as <-.
    exists de, r. split_and!; try done; [|by rewrite walk_snoc, Hw; simpl; rewrite Ede].
    unfold sel_dirent. rewrite Ede. destruct (walk_inode _ Hwf sb root cs i Hroot Hw) as (ri & Hri & Hsi).
    destruct (wf_parent _ Hwf i n de Ede) as (ri' & Hri' & _ & Hs'). assert (ri' = ri) as -> by congruence.
    by rewrite <- Hs', visible_own.
  - pose proof (coh_none _ _ _ _ Hcoh root _ Hroot Hv E) as Hn. rewrite walk_snoc, Hw in Hn. simpl in Hn.
    unfold sel_dirent. by destruct (dirents (t_db t) !! (i, n)).
Qed.

(** Walking the components [cs] from the root, the loop reaches [i] without
    following a link. *)
Definition clear (cs : list string) (i : Z) : Prop :=
  ∀ more, ∃ st, resolve_comps t true [root] (cs ++ more) = resolve_comps t true (i :: st) more.

Lemma valid_name_dots n : valid_name n → n ≠ "." ∧ n ≠ "..".
Proof. by intros (_ & ? & ? & _). Qed.

(** One component, from a directory. *)
Lemma resolve_comps_step n rest i st e de r0 :
  valid_name n → sel_inode t i = Some r0 → entry_matches e r0 → kind e = DIRECTORY → sel_dirent t (i, n) = Some de →
  resolve_comps t true (i :: st) (n :: rest) =
  match sel_inode t (d_inodeId de) with
  | Some r => if bool_decide (i_kind r = SYMLINK) then RLink (i :: st) (i_symlinkTarget r) rest
              else resolve_comps t true (d_inodeId de :: i :: st) rest
  | None => resolve_comps t true (d_inodeId de :: i :: st) rest
  end.
Proof.
  intros [Hd1 Hd2]%valid_name_dots Hi (Hk & _) Hke Hde. cbn [resolve_comps]. rewrite !decide_False by done.
  rewrite Hi, bool_decide_eq_true_2 by congruence. simpl. rewrite Hde. destruct (sel_inode t (d_inodeId de)); [|done].
  by rewrite orb_true_r, andb_true_r.
Qed.

(** The two loops over components, side by side. *)
Lemma walk_parts_resolve path parts cs e i st :
  valid_comps (cs ++ parts) → view_get (path_of cs) v = Some e → walk (dirents (t_db t)) root cs = Some i → clear cs i →
  match walk_parts v path (path_of cs) e parts with
  | WDone _ (Some en) => ∃ j, resolve_comps t true (i :: st) parts = RDone j ∧ realId [] (inodeId en) = Ok j
  | WDone _ None => False
  | WFail (ENOENT q) => q = path ∧ resolve_comps t true (i :: st) parts = RFail "FS002"
  | WFail (ENOTDIR _) => resolve_comps t true (i :: st) parts = RFail "FS003"
  | WFail _ => False
  | WLink cur l rest =>
      ∃ cs1 i1 st1, cur = path_of cs1 ∧ valid_comps (cs1 ++ rest) ∧ clear cs1 i1 ∧
        resolve_comps t true (i :: st) parts = RLink (i1 :: st1) l rest ∧
        ∃ t0, l = Some t0 ∧ valid_comps (segments t0)
  end.
Proof.
  revert cs e i st. induction parts as [|n parts IH]; intros cs e i st Hv He Hw Hcl.
  { simpl. rewrite app_nil_r in Hv. destruct (db_node cs e Hv He) as (i' & r & Hw' & Hρ & _). exists i. split; [done|congruence]. }
  rewrite (cons_middle n cs parts), app_assoc in Hv. pose proof Hv as [Hcn Hvp]%valid_comps_app. pose proof Hcn as [Hcs Hn]%valid_comps_snoc.
  destruct (db_node cs e Hcs He) as (i' & r0 & Hw' & _ & Hi & Hm). assert (i' = i) as -> by congruence.
  cbn [walk_parts]. destruct (decide (kind e = DIRECTORY)) as [Hk|Hk].
  2: { destruct (valid_name_dots n Hn) as [Hd1 Hd2]. cbn [resolve_comps]. rewrite !decide_False by done. rewrite Hi.
       destruct Hm as [<- _]. by rewrite bool_decide_eq_false_2. }
  assert ((if decide (path_of cs = "/") then "/" +:+ n else path_of cs +:+ "/" +:+ n) = path_of (cs ++ [n])) as ->.
  { rewrite path_of_snoc. destruct (decide (cs = [])) as [->|Hne]; [done|]. rewrite decide_False; [done|]. by intros ?%path_of_root. }
  pose proof (db_entry cs n i Hcn Hw) as Hen. destruct (view_get (path_of (cs ++ [n])) v) as [e'|] eqn:E'.
  2: { destruct (valid_name_dots n Hn) as [Hd1 Hd2]. cbn [resolve_comps]. rewrite !decide_False by done. rewrite Hi.
       destruct Hm as [<- _]. rewrite bool_decide_eq_true_2 by done. simpl. by rewrite Hen. }
  destruct Hen as (de & r & Hde & Hwn & Hj & Hm'). rewrite (resolve_comps_step n parts i st e de r0) by done. rewrite Hj.
  assert (Hkr : i_kind r = kind e') by (destruct Hm' as [<- _]; done).
  assert (Hlr : i_symlinkTarget r = symlinkTarget e') by (destruct Hm' as (_ & _ & _ & _ & <-); done).
  destruct (decide (kind e' = SYMLINK)) as [Hl|Hl].
  - rewrite bool_decide_eq_true_2 by congruence. destruct (Hplain _ r Hj ltac:(congruence)) as (t0 & Ht0 & Hv0).
    exists cs, i, st. rewrite Hlr. split_and!; try done; [by apply valid_comps_app|exists t0; split; congruence].
  - rewrite bool_decide_eq_false_2 by congruence. apply (IH (cs ++ [n]) e' (d_inodeId de) (i :: st)); [done..|].
    intros more. rewrite <- app_assoc. destruct (Hcl ([n] ++ more)) as (st' & ->). exists (i :: st'). simpl app.
    rewrite (resolve_comps_step n more i st' e de r0) by done. by rewrite Hj, bool_decide_eq_false_2 by congruence.
Qed.

(** Without [..] the loop only looks at the top of the stack. *)
Definition same_top (a b : ResolveStep) : Prop :=
  match a, b with
  | RDone x, RDone y => x = y
  | RFail x, RFail y => x = y
  | RLink (i :: _) l rest, RLink (i' :: _) l' rest' =>
      i = i' ∧ l = l' ∧ rest = rest' ∧ valid_comps rest ∧ ∃ t0, l = Some t0 ∧ valid_comps (segments t0)
  | _, _ => False
  end.

Lemma resolve_comps_top comps i st st' :
  valid_comps comps → same_top (resolve_comps t true (i :: st) comps) (resolve_comps t true (i :: st') comps).
Proof.
  revert i st st'. induction comps as [|c comps IH]; intros i st st' Hv; [done|].
  apply Forall_cons in Hv as [Hc Hv]. destruct (valid_name_dots c Hc) as [Hd1 Hd2]. cbn [resolve_comps]. rewrite !decide_False by done.
  destruct (match sel_inode t i with Some r => _ | None => _ end); [done|]. destruct (sel_dirent t (i, c)) as [de|]; [|done].
  destruct (sel_inode t (d_inodeId de)) as [r|] eqn:Er; [|by apply IH]. rewrite orb_true_r, andb_true_r.
  case_bool_decide as Hk; [|by apply IH]. destruct (Hplain _ r Er Hk) as (t0 & Ht0 & Hv0). split_and!; try done. by exists t0.
Qed.

Lemma resolve_loop_top hops comps i st st' :
  valid_comps comps → resolve_loop hops t true root (i :: st) comps = resolve_loop hops t true root (i :: st') comps.
Proof.
  revert comps i st st'. induction hops as [|hops IH]; intros comps i st st' Hv; cbn [resolve_loop];
    pose proof (resolve_comps_top comps i st st' Hv) as Ht;
    destruct (resolve_comps t true (i :: st) comps) as [x|x|[|i1 s1] l rest], (resolve_comps t true (i :: st') comps) as [y|y|[|i2 s2] l' rest'];
    try done; simpl in Ht; try (by subst).
  destruct Ht as (<- & <- & <- & Hvr & t0 & -> & Hv0). simpl. destruct (starts_with t0 "/"); [done|]. apply IH. by apply valid_comps_app.
Qed.

(** A clear prefix can be walked again from the root. *)
Lemma resolve_loop_clear hops cs i st more :
  clear cs i → valid_comps more →
  resolve_loop hops t true root (i :: st) more = resolve_loop hops t true root [root] (cs ++ more).
Proof.
  intros Hcl Hv. destruct (Hcl more) as (st' & Heq). rewrite (resolve_loop_top hops more i st st' Hv).
  destruct hops; cbn [resolve_loop]; by rewrite Heq.
Qed.

(** The text [resolveCached] continues with. *)
Lemma norm_segments base l : valid_comps (segments l) → norm_comps base (split_slash l) = base ++ segments l.
Proof.
  unfold segments. revert base. induction (split_slash l) as [|x parts IH]; intros base Hv; [by rewrite app_nil_r|].
  simpl in *. case_bool_decide as Hx; simpl in *; [subst; rewrite norm_comps_nil; by apply IH|].
  apply Forall_cons in Hv as [Hn Hv]. change (x :: parts) with ([x] ++ parts). rewrite norm_comps_app, (norm_comps_id base [x]) by by constructor.
  rewrite IH by done. by rewrite <- app_assoc.
Qed.

Lemma next_target cs l rest :
  valid_comps (cs ++ rest) → valid_comps (segments l) →
  (if decide (join_slash rest = EmptyString) then resolvePath (path_of cs) l else resolvePath (resolvePath (path_of cs) l) (join_slash rest))
  = path_of ((if starts_with l "/" then [] else cs) ++ segments l ++ rest).
Proof.
  intros [Hcs Hr]%valid_comps_app Hl. rewrite resolvePath_comps, norm_segments by done.
  assert (Hbase : valid_comps ((if starts_with l "/" then [] else cs) ++ segments l)).
  { apply valid_comps_app. split; [destruct (starts_with l "/"); [constructor|done]|done]. }
  case_decide as Hj.
  - apply join_empty in Hj as ->; [|done]. by rewrite app_nil_r.
  - assert (Hne : rest ≠ []) by by intros ->. rewrite resolvePath_comps by done.
    assert (starts_with (join_slash rest) "/" = false) as ->.
    { destruct (starts_with (join_slash rest) "/") eqn:E; [|done]. apply starts_with_spec in E as (u & Hu). exfalso.
      pose proof (split_join rest Hne (valid_comps_no_slash _ Hr)) as Hs. rewrite Hu in Hs. simpl in Hs.
      rewrite <- Hs in Hr. apply Forall_cons in Hr as [(Hn & _) _]. done. }
    rewrite split_join, norm_comps_id by eauto with strs. by rewrite <- app_assoc.
Qed.

(** How the two results compare. *)
Definition agree (path : string) (cached : res fs_error (string * option PathCacheEntry)) (stored : res fs_error Z) : Prop :=
  match cached with
  | Ok (_, Some en) => stored = Ok (inodeId en)
  | Ok (_, None) => True
  | Err (ENOENT q) => q = path ∧ stored = Err (SqlState "FS002")
  | Err (ELOOP q) => q = path ∧ stored = Err (SqlState "FS001")
  | Err (ENOTDIR q) => q = DEV_NULL ∨ stored = Err (SqlState "FS003")
  | Err _ => False
  end.

Lemma resolve_walk_agrees hops path cs :
  valid_comps cs → agree path (resolve_walk hops v path (path_of cs)) (resolve_loop hops t true root [root] cs).
Proof.
  revert cs. induction hops as [|hops IH]; intros cs Hcs;
    (cbn [resolve_walk resolve_loop]; case_decide; [done|]; destruct (starts_with (path_of cs) (DEV_NULL +:+ "/")); [by left|];
     rewrite path_segments by done;
     destruct (coh_walk sb _ v _ root [] root Hcoh Hroot (Forall_nil_2 _) eq_refl) as (re & Hre & _); change (path_of []) with "/" in Hre; rewrite Hre;
     pose proof (walk_parts_resolve path cs [] re root [] Hcs Hre eq_refl (λ more, ex_intro _ [] eq_refl)) as Hw;
     change (path_of []) with "/" in Hw;
     destruct (walk_parts v path "/" re cs) as [p [en|]|e|cur l rest]; [|done|destruct e|]; try done).
  all: try (destruct Hw as (j & -> & Hρ); simpl; unfold realId in Hρ; case_decide; [congruence | done]).
  all: try (destruct Hw as [-> ->]; done).
  all: try (rewrite Hw; by right).
  - destruct Hw as (cs1 & i1 & st1 & -> & Hv & Hcl & -> & _). done.
  - destruct Hw as (cs1 & i1 & st1 & -> & Hv & Hcl & -> & t0 & -> & Hv0). simpl. rewrite next_target by done.
    pose proof Hv as [Hcs1 Hrest]%valid_comps_app.
    assert (Hall : valid_comps (segments t0 ++ rest)) by by apply valid_comps_app.
    destruct (starts_with t0 "/").
    + by apply IH.
    + rewrite (resolve_loop_clear hops cs1 i1 st1) by done. apply IH. by apply valid_comps_app.
Qed.
End resolve.

(** C14: on a coherent view, when no symlink of the sandbox has a [.] or [..]
    component in its target, resolving a path in the cache gives what the
    database's [fs_resolve] gives: the same inode, or ELOOP after the same 40
    links, or the same ENOENT and ENOTDIR. Only the virtual /dev/null is known to
    the cache alone. *)
Theorem resolveCached_agrees_with_fs_resolve sb v t root cs :
  t_sandbox t = Some sb → wf_db (t_db t) → root_of (t_db t) sb = Some root → coh sb (realId []) v (t_db t) → plain_links t →
  valid_comps cs →
  agree (path_of cs) (resolveCached (path_of cs) v) (fs_resolve (path_of cs) true t).1.
Proof.
  intros Hctx Hwf Hroot Hcoh Hplain Hcs. unfold fs_resolve. rewrite Hctx.
  apply root_of_Some in Hroot as (row & Hrow & Hr). unfold sel_sandbox, visible. rewrite Hrow, Hctx.
  rewrite (bool_decide_eq_true_2 (sb = sb)), orb_true_r by done.
  change (Some row ≫= s_root) with (s_root row). rewrite Hr. cbn [fst]. unfold resolveCached.
  assert (segments (path_of cs) = cs) as -> by (unfold segments; by apply path_segments).
  apply (resolve_walk_agrees sb v t root Hctx Hwf); try done. apply root_of_Some. by exists row.
Qed.

Section witnesses.
#[local] Existing Instance demo_config.
#[local] Existing Instance lru_unbounded.

(** /tmp/l -> user, next to /tmp/user -> /home *)
Definition links_state : Sys :=
  (run_op (OpSymlink "user" "/tmp/l") (run_op (OpSymlink "/home" "/tmp/user") demo_ready).2).2.

Lemma links_reachable : reachable links_state.
Proof. unfold links_state. do 2 (apply demo_step; [|vm_compute; reflexivity|vm_compute; discriminate]). exact demo_ready_reachable. Qed.

Lemma links_settled : settled (s_view links_state) (s_db links_state).
Proof. apply (Inv_settled links_state); [exact (reachable_Inv eq_refl _ links_reachable)|vm_compute; reflexivity..]. Qed.

Lemma links_row : ∃ row, sandboxes (s_db links_state) !! sandboxId = Some row ∧ v_epoch (s_view links_state) = s_version row.
Proof. eexists. split; vm_compute; reflexivity. Qed.

Lemma resolveCached_agrees_with_fs_resolve_witness :
  agree "/tmp/l/user" (resolveCached "/tmp/l/user" (s_view links_state))
    (fs_resolve "/tmp/l/user" true (mkTx (s_db links_state) (Some "s") None)).1 ∧
  fst <$> match resolveCached "/tmp/l/user" (s_view links_state) with Ok r => Some r | Err _ => None end = Some "/home/user".
Proof.
  split; [|vm_compute; reflexivity].
  apply (resolveCached_agrees_with_fs_resolve "s" (s_view links_state) (mkTx (s_db links_state) (Some "s") None) 1 ["tmp"; "l"; "user"]).
  - reflexivity.
  - exact (inv_wf _ _ _ (reachable_Inv eq_refl _ links_reachable)).
  - vm_compute. reflexivity.
  - destruct links_row as (row & Hrow & He). exact (proj2 (proj1 (proj2 links_settled) row Hrow) He).
  - intros id r Hr Hk. unfold sel_inode in Hr. cbn [t_db] in Hr.
    assert (Hall : map_Forall (λ _ r, i_kind r = SYMLINK → is_Some (i_symlinkTarget r) ∧
      valid_comps (segments (default EmptyString (i_symlinkTarget r)))) (inodes (s_db links_state))) by compute_decide.
    destruct (inodes (s_db links_state) !! id) as [r'|] eqn:E; [|discriminate Hr]. destruct (visible _ _); [|discriminate Hr]. injection Hr as ->.
    destruct (Hall id r E Hk) as [[l Hl] Hv]. exists l. rewrite Hl in Hv. exact (conj Hl Hv).
  - compute_decide.
Defined.
End witnesses.
