(* ===== verification/Divergences.v ===== *)
(** Concrete runs that show where the code differs from what its comments or
    its other operations promise. *)

From S2P Require Import Prelude Errors Paths Store Tree Dialect Lifecycle LoadPaths View Session Namespace Coherence Simulation Journal Invariant Mutate Handlers SqlFs Scopes Machine Guarantees.

Section divergences.
#[local] Existing Instance demo_config.
#[local] Existing Instance lru_unbounded.

(** [symlink(target, "/")] has no guard for the root, unlike cp, mv and
    writeFile: it succeeds, stores a directory entry with an empty name under the
    root and shows the root as a symlink. *)
Theorem symlink_root_persists :
  let '(r, s') := run_op (OpSymlink "/tmp" "/") demo_ready in
  r = Ok tt ∧ kind <$> view_get "/" (s_view s') = Some SYMLINK ∧
  is_Some (dirents (s_db s') !! (1, EmptyString)) ∧
  (fs_readdir "/" s').1 = Err (ENOTDIR "/").
Proof. vm_compute. split_and!; [reflexivity | reflexivity | eexists; reflexivity | reflexivity]. Qed.

(** [cp -r / /x] copies /home to /xhome, not to /x/home. *)
Theorem cp_root_misplaces :
  let '(r, s') := run_op (OpCp "/" "/x" true) demo_ready in
  r = Ok tt ∧ view_has "/xhome" (s_view s') = true ∧ view_has "/x/home" (s_view s') = false.
Proof. vm_compute. split_and!; reflexivity. Qed.

(** [mkdir -p] of an existing file reports success. *)
Theorem mkdir_p_accepts_file :
  let s := (run_op (OpWriteFile "/tmp/f" "x") demo_ready).2 in
  (run_op (OpMkdir "/tmp/f" true) s).1 = Ok tt ∧ kind <$> view_get "/tmp/f" (s_view s) = Some FILE.
Proof. vm_compute. split_and!; reflexivity. Qed.

(** A path cached by [resolveCached] and by [fs_resolve]: the link
    /tmp/l -> d/../f, where /tmp/d -> /home/user, is /tmp/f in the cache (the
    target is normalised as text) and /home/f in the database. *)
Definition dotdot_state : Sys :=
  (run_op (OpSymlink "d/../f" "/tmp/l")
    (run_op (OpSymlink "/home/user" "/tmp/d")
      (run_op (OpWriteFile "/home/f" "db")
        (run_op (OpWriteFile "/tmp/f" "cache") demo_ready).2).2).2).2.

Theorem resolveCached_is_lexical :
  (∃ en, resolveCached "/tmp/l" (s_view dotdot_state) = Ok ("/tmp/f", Some en)) ∧
  (fs_realpath "/tmp/l" dotdot_state).1 = Ok "/home/f" ∧
  (fs_realpath "/tmp/l" (beginScriptScope dotdot_state).2).1 = Ok "/tmp/f".
Proof. split_and!; [eexists; vm_compute; reflexivity | vm_compute; reflexivity | vm_compute; reflexivity]. Qed.
End divergences.
