(* ===== verification/Exec.v ===== *)
(** Scripts and requests of a session that runs in the server's process
    (src/src/sql-fs/script-scope.ts, session-scoped-fs.ts,
    src/src/api/lib/script-tx.ts, script-lease.ts, paths.ts,
    [executeSessionRuntime] of src/src/api/session-runtime/engine.ts,
    [ensureFreshCache] and the two entry wrappers of
    src/src/api/session-manager.ts, and the sequential batch of
    src/src/api/lib/batch-exec.ts).

    The shell is third-party code. What it is to the filesystem is a [Script]:
    it calls, sees what the call answers, and goes on; any script is allowed. *)

From S2P Require Import Prelude Errors Paths Store Tree Dialect Lifecycle LoadPaths View Session Namespace Coherence Simulation Journal Invariant Mutate Handlers SqlFs Ingest IngestRows IngestSim IngestSound Scopes Machine.

(** ** Scripts *)

(** The calls that only look. *)
Inductive FsQuery :=
| QReadFile (p : string) | QExists (p : string) | QStat (p : string) | QLstat (p : string) | QReaddir (p : string)
| QReadlink (p : string) | QRealpath (p : string).

Inductive FsAnswer :=
| AString (b : string) | ABool (b : bool) | AStat (st : FsStat) | AList (l : list string) | ATarget (t : option string).

Inductive Script (A : Type) : Type :=
| SReturn (a : A)
| SThrow (e : fs_error)
| SCall (o : FsOp) (k : res fs_error unit → Script A)
| SQuery (q : FsQuery) (k : res fs_error FsAnswer → Script A).
Arguments SReturn {A} a.
Arguments SThrow {A} e.
Arguments SCall {A} o k.
Arguments SQuery {A} q k.

(** The value of a call as a value: the caller sees it, thrown or not. *)
Definition attempt {S E A} (m : M S E A) : M S E (res E A) := λ s, let '(r, s') := m s in (Ok r, s').

Definition mapM {S E A B} (f : A → B) (m : M S E A) : M S E B := let* a := m in retM (f a).

Section exec.
Context `{Config} `{Lru}.

Definition run_query (q : FsQuery) : sysM FsAnswer :=
  match q with
  | QReadFile p => mapM AString (fs_readFileBuffer p)
  | QExists p => mapM ABool (fs_exists p)
  | QStat p => mapM AStat (fs_stat p)
  | QLstat p => mapM AStat (fs_lstat p)
  | QReaddir p => mapM AList (fs_readdir p)
  | QReadlink p => mapM ATarget (fs_readlink p)
  | QRealpath p => mapM AString (fs_realpath p)
  end.

Fixpoint run_script {A} (sc : Script A) : sysM A :=
  match sc with
  | SReturn a => retM a
  | SThrow e => throw e
  | SCall o k => let* r := attempt (run_op o) in run_script (k r)
  | SQuery q k => let* r := attempt (run_query q) in run_script (k r)
  end.

(** ** Script scopes *)

Definition isActive : sysM bool := gets (λ s, scriptScope (s_pers s)).

Definition beginScope : sysM unit :=
  let* active := isActive in
  if active then retM tt else beginScriptScope.

Definition endScope (ownerLost : bool) : sysM unit :=
  let* active := isActive in
  if negb active then retM tt else endScriptScope ownerLost.

Definition abortScope : sysM unit :=
  let* active := isActive in
  if negb active then retM tt else abortScriptScope.

(** [scope]: whether there is one. [ownerLost] is what [ownerLeaseLost()]
    answers when the scope ends. *)
Definition runInScriptScope {A} (scope ownerLost : bool) (fn : sysM A) : sysM A :=
  let* active := isActive in
  if negb scope || active then fn
  else
    beginScope ;;;
    catch
      (let* result := fn in
       endScope ownerLost ;;;
       retM result)
      (λ primary, attempt abortScope ;;; throw primary).

(** [lost]: the lease's signal is aborted, or [ownerLeaseLost()]. *)
Definition assertScriptLeaseHeld (lost : bool) (message : string) : sysM unit := throw_if lost (ELOCKLOST message).

(** [runInScriptTx] of a session on a SqlFs, which has a script scope. *)
Definition runInScriptTx {A} (lost ownerLost : bool) (fn : sysM A) : sysM A :=
  runInScriptScope true ownerLost
    (let* result := fn in
     assertScriptLeaseHeld lost "write aborted: distributed exec lock lost mid-request" ;;;
     retM result).

(** ** A script in a session *)

Definition posixNormalizePath (absolutePath : string) : string :=
  if decide (absolutePath = EmptyString ∨ absolutePath = "/") then "/"
  else
    let parts := List.filter keep_segment (split_slash absolutePath) in
    "/" +:+ join_slash (fold_left push_segment parts []).

(** What [bash.exec] returns: the exit code, [PWD] of the environment, and
    whether it was aborted. *)
Record BashExecResult := mkBashResult { exitCode : Z; b_pwd : option string; executionAborted : bool }.

(** [execContext.run]: the context is the calls' own, and is gone afterwards. *)
Definition run_in_context {A} (context : ExecContext) (m : sysM A) : sysM A := λ s,
  let '(r, s') := m (set_exec (Some context) s) in (r, set_exec (s_exec s) s').

(** What an execution finds: its limits, the bytes of its standard input, and
    whether the lease is lost when it is looked at. *)
Record ExecEnv := mkExecEnv {
  x_readOnly : bool;
  x_maxFileBytes : option Z;
  x_inputLimitBytes : option Z;
  x_stdin : Z;
  x_lost : bool;
  x_ownerLost : bool;
}.

(** The function [executeSessionRuntime] runs in the scope. *)
Definition exec_in_scope (x : ExecEnv) (sc : Script BashExecResult) : sysM BashExecResult :=
  run_in_context (mkExec (x_maxFileBytes x) (x_inputLimitBytes x) 0 None)
    (consumeExecInput (x_stdin x) "stdin" ;;;
     let* result := run_script sc in
     (if x_readOnly x then retM tt
      else assertScriptLeaseHeld (x_lost x) "exec aborted: distributed exec lock lost mid-script") ;;;
     let* context := gets s_exec in
     match context ≫= exceeded with
     | Some e => throw e
     | None => retM result
     end).

(** The result, and the session's working directory afterwards; a throw leaves
    it as it is. *)
Definition executeSessionRuntime (x : ExecEnv) (cwd : string) (sc : Script BashExecResult) : sysM (BashExecResult * string) :=
  let* result := runInScriptScope (negb (x_readOnly x)) (x_ownerLost x) (exec_in_scope x sc) in
  retM (result,
        match b_pwd result with
        | Some pwd => if negb (x_readOnly x) && starts_with pwd "/" && negb (str_includes nul pwd) then posixNormalizePath pwd else cwd
        | None => cwd
        end).

End exec.

(** ** The entry of a request *)

(** What a request throws: an error of the filesystem, or one of its own. *)
Inductive req_error :=
| RFs (e : fs_error)
| ESESSIONCLOSING
| ECOHERENCE_UNAPPLIED
| EREADONLY_VIOLATION
| ELOCKTIMEOUT
| ELOCKLOST_APPLIED.

(** What the entry does to the session around the filesystem: whether
    [closeMissing] was called, the size [refreshBudget] last noted, how often
    the runtime was replaced, how many violations were audited. *)
Record Req := mkReq {
  q_sys : Sys;
  q_closedMissing : bool;
  q_pathCacheBytes : Z;
  q_runtimeSyncs : nat;
  q_audits : nat;
}.

Abbreviation reqM := (M Req req_error).

Section requests.
Context `{Config} `{Lru}.

Definition set_sys (s : Sys) (q : Req) : Req :=
  mkReq s (q_closedMissing q) (q_pathCacheBytes q) (q_runtimeSyncs q) (q_audits q).

(** A call of the filesystem. *)
Definition onFs {A} (m : sysM A) : reqM A := λ q,
  let '(r, s') := m (q_sys q) in (match r with Ok a => Ok a | Err e => Err (RFs e) end, set_sys s' q).

Definition entry_closeMissing : reqM unit := modifyS (λ q, mkReq (q_sys q) true (q_pathCacheBytes q) (q_runtimeSyncs q) (q_audits q)).

Definition entry_refreshBudget : reqM unit :=
  modifyS (λ q, mkReq (q_sys q) (q_closedMissing q) (v_bytes (s_view (q_sys q))) (q_runtimeSyncs q) (q_audits q)).

Definition logAudit : reqM unit :=
  modifyS (λ q, mkReq (q_sys q) (q_closedMissing q) (q_pathCacheBytes q) (q_runtimeSyncs q) (S (q_audits q))).

(** [closing]: somebody has begun to close the session when it is looked at. *)
Definition assertActive (closing : bool) : reqM unit := throw_if closing ESESSIONCLOSING.

(** What the metadata store answers about the runtime: an error, no metadata,
    or whether the options differ from the session's. *)
Definition MetaAnswer := res fs_error (option bool).

Definition syncRuntime (meta : MetaAnswer) : reqM unit :=
  match meta with
  | Err e => throw (RFs e)
  | Ok (Some true) => modifyS (λ q, mkReq (q_sys q) (q_closedMissing q) (q_pathCacheBytes q) (S (q_runtimeSyncs q)) (q_audits q))
  | Ok _ => retM tt
  end.

Definition sandbox_missing (e : req_error) : bool :=
  match e with
  | RFs f => bool_decide (error_code f = Some "ENOENT") || bool_decide (error_code f = Some "ESANDBOXGONE")
  | _ => false
  end.

(** In the catch, an error of a session that is closing gives way to that. *)
Definition ensureFreshCache (meta : MetaAnswer) (closing : bool) : reqM unit :=
  catch
    (let* claimed := onFs fs_claimGeneration in
     let* fresh := onFs ensureFresh in
     (if fresh || claimed then syncRuntime meta else retM tt) ;;;
     entry_refreshBudget ;;;
     assertActive closing)
    (λ error,
      if negb (sandbox_missing error) then assertActive closing ;;; throw error
      else entry_closeMissing ;;; throw (RFs (ENOENT ("/" +:+ sandboxId)))).

(** The exclusive entry: whatever happens in the body, a dirty session has its
    budget refreshed and its mark cleared. *)
Definition withSessionEntry {A} (meta : MetaAnswer) (closing : bool) (fn : reqM A) : reqM A :=
  let* outcome := attempt (
    ensureFreshCache meta closing ;;;
    let* result := fn in
    let* poisoned := gets (λ q, v_poisoned (s_view (q_sys q))) in
    throw_if poisoned ECOHERENCE_UNAPPLIED ;;;
    retM result) in
  let* dirty := gets (λ q, v_dirty (s_view (q_sys q))) in
  (if dirty then entry_refreshBudget ;;; onFs clearDirty else retM tt) ;;;
  lift_res outcome.

(** *** The shared entry *)

(** Before the body: the scope is opened. *)
Definition read_enter (meta : MetaAnswer) (closing : bool) : reqM unit :=
  ensureFreshCache meta closing ;;;
  onFs beginReadOnlyScope.

(** A call of the body: [violated] is the flag of its own context, before and
    after. *)
Definition read_call {A} (violated : bool) (m : sysM A) (s : Sys) : res fs_error A * bool * Sys :=
  let '(r, s') := m (set_violated (Some violated) s) in
  (r, default violated (s_violated s'), set_violated (s_violated s) s').

Definition is_readonly (e : fs_error) : bool := bool_decide (error_code e = Some "EREADONLY").

(** After the body: the audit, the outcome, and the end of the scope, whose own
    failure is only logged. *)
Definition read_exit {A} (violated : bool) (r : res fs_error A) : reqM A :=
  let* outcome := attempt (
    match r with
    | Err err =>
        (if violated || is_readonly err then logAudit else retM tt) ;;;
        throw (if is_readonly err then EREADONLY_VIOLATION else RFs err)
    | Ok result => if violated then logAudit ;;; throw EREADONLY_VIOLATION else retM result
    end) in
  attempt (onFs endReadOnlyScope) ;;;
  lift_res outcome.

Definition withSessionReadEntry {A} (meta : MetaAnswer) (closing : bool) (fn : sysM A) : reqM A :=
  read_enter meta closing ;;;
  let* rv := (λ q, let '(r, violated, s') := read_call false fn (q_sys q) in (Ok (r, violated), set_sys s' q)) in
  read_exit rv.2 rv.1.
End requests.
