(* ===== verification/ExecSound.v ===== *)
(** What a request is promised: a script commits as a whole or not at all,
    whatever it does, and a read request cannot change anything. *)

From S2P Require Import Prelude Errors Paths Store Tree Dialect Lifecycle LoadPaths View Session Namespace Coherence Simulation Journal Invariant Mutate Handlers SqlFs Ingest IngestRows IngestSim IngestSound Scopes Machine Guarantees Isolation Contents Exec.

(** ** Clients of an open scope *)

Section clients.
Context `{Config} `{Lru} (Hretire : hasRetire = true).

Lemma same_rows_trans d1 d2 d3 : same_rows d1 d2 → same_rows d2 d3 → same_rows d1 d3.
Proof. intros (? & ? & ? & ? & ?) (? & ? & ? & ? & ?). unfold same_rows. split_and!; congruence. Qed.

(** A script is open, the session is sound and nothing of the tree is written. *)
Record in_scope (s : Sys) : Prop := {
  is_inv : Inv s;
  is_fit : v_poisoned (s_view s) = false;
  is_open : scriptScope (s_pers s) = true;
}.

(** A computation that, thrown or not, leaves the scope open and sound and the
    rows of the tree alone: what runs between the ends of a script scope. *)
Definition client {A} (m : sysM A) : Prop := ∀ s, in_scope s → in_scope (m s).2 ∧ same_rows (s_db s) (s_db (m s).2).

Lemma client_bind {A B} (m : sysM A) (f : A → sysM B) : client m → (∀ a, client (f a)) → client (bindM m f).
Proof.
  intros Hm Hf s Hs. destruct (Hm s Hs) as [Hs' Hr]. unfold bindM. destruct (m s) as [[a|e] s']; [|done].
  destruct (Hf a s' Hs') as [Hs'' Hr']. split; [done|]. by eapply same_rows_trans.
Qed.

Lemma client_attempt {A} (m : sysM A) : client m → client (attempt m).
Proof. intros Hm s Hs. specialize (Hm s Hs). unfold attempt. by destruct (m s). Qed.

Lemma client_catch {A} (m : sysM A) h : client m → (∀ e, client (h e)) → client (catch m h).
Proof.
  intros Hm Hh s Hs. destruct (Hm s Hs) as [Hs' Hr]. unfold catch. destruct (m s) as [[a|e] s']; [done|].
  destruct (Hh e s' Hs') as [Hs'' Hr']. split; [done|]. by eapply same_rows_trans.
Qed.

Lemma in_scope_core s s' : same_core s s' → in_scope s → in_scope s'.
Proof. intros Hc [Hi Hp Ho]. pose proof Hc as (Hd & Hv & Hpe). split; [by eapply Inv_core|by rewrite Hv|by rewrite Hpe]. Qed.

Lemma client_quiet {A} (m : sysM A) : quiet m → client m.
Proof.
  intros Hq s Hs. specialize (Hq s). split; [by eapply in_scope_core|].
  destruct Hq as (Hd & _ & _). unfold same_rows. by rewrite Hd.
Qed.

Lemma client_op o : op_safe o → client (run_op o).
Proof.
  intros Ho s [Hi Hp Hopen]. destruct (contained_run_op o s Hopen) as [[Hopen' Hr] Hpo]. split; [|done].
  split; [|congruence|done]. by apply (sound_keeps _ (run_op_sound Hretire o Ho)).
Qed.

Lemma quiet_map {A B} (f : A → B) (m : sysM A) : quiet m → quiet (mapM f m).
Proof. intros Hm. apply quiet_bind; [done|]. intros a. apply quiet_ret. Qed.

Lemma quiet_viewGet p : quiet (viewGet p).
Proof. done. Qed.

Lemma query_quiet q : (∀ p, q ≠ QReadFile p) → quiet (run_query q).
Proof.
  intros Hq. destruct q as [p|p|p|p|p|p|p]; simpl; [by destruct (Hq p)|..].
  all: apply quiet_map; unfold fs_exists, fs_stat, fs_lstat, fs_readdir, fs_readlink, fs_realpath;
    pose proof quiet_resolve_in_db; pose proof quiet_resolveReadEntry;
    repeat first [ solve [auto with quiet] | done
      | apply quiet_bind; [|intros ?]
      | match goal with |- quiet (match ?x with _ => _ end) => destruct x end
      | match goal with |- quiet (if ?x then _ else _) => destruct x end ].
Qed.

Lemma read_state p s : (run_query (QReadFile p) s).2 = (run_op (OpReadFile p) s).2.
Proof. simpl. unfold mapM, bindM. by destruct (fs_readFileBuffer p s) as [[b|e] s']. Qed.

Lemma client_query q : client (run_query q).
Proof.
  destruct q as [p|p|p|p|p|p|p]; try by apply client_quiet, query_quiet.
  intros s Hs. rewrite read_state. by apply client_op.
Qed.

Lemma query_keeps q s : Inv s → v_poisoned (s_view s) = false → Inv (run_query q s).2.
Proof.
  intros Hi Hp. destruct q as [p|p|p|p|p|p|p]; try by (eapply Inv_core; [by apply query_quiet|]).
  rewrite read_state. by apply (sound_keeps _ (run_op_sound Hretire (OpReadFile p) I)).
Qed.

(** The calls a script makes are all safe ([Machine.op_safe]). *)
Fixpoint safe_script {A} (sc : Script A) : Prop :=
  match sc with
  | SReturn _ | SThrow _ => True
  | SCall o k => op_safe o ∧ ∀ r, safe_script (k r)
  | SQuery q k => ∀ r, safe_script (k r)
  end.

Lemma client_script {A} (sc : Script A) : safe_script sc → client (run_script sc).
Proof.
  induction sc as [a|e|o k IH|q k IH]; simpl; intros Hs.
  - apply client_quiet, quiet_ret.
  - apply client_quiet, quiet_throw.
  - destruct Hs as [Ho Hk]. apply client_bind; [by apply client_attempt, client_op|]. intros r. by apply IH.
  - apply client_bind; [apply client_attempt, client_query|]. intros r. by apply IH.
Qed.

Lemma client_context {A} c (m : sysM A) : client m → client (run_in_context c m).
Proof.
  intros Hm s Hs. unfold run_in_context. specialize (Hm (set_exec (Some c) s)).
  destruct Hm as [Hs' Hr]; [by eapply in_scope_core; [|exact Hs]|].
  destruct (m (set_exec (Some c) s)) as [r s']. simpl in *. split; [by eapply in_scope_core; [|exact Hs']|done].
Qed.

Lemma quiet_lease lost msg : quiet (assertScriptLeaseHeld lost msg).
Proof. apply quiet_throw_if. Qed.

Lemma client_exec x sc : safe_script sc → client (exec_in_scope x sc).
Proof.
  intros Hs. apply client_context. apply client_bind; [apply client_quiet, quiet_consumeExecInput|]. intros _.
  apply client_bind; [by apply client_script|]. intros result.
  apply client_bind; [apply client_quiet; destruct (x_readOnly x); [apply quiet_ret|apply quiet_lease]|]. intros _.
  apply client_bind; [apply client_quiet, quiet_gets|]. intros c. apply client_quiet.
  destruct (c ≫= exceeded); [apply quiet_throw|apply quiet_ret].
Qed.

(** *** A whole scope *)

Lemma begin_run s : Inv s → v_poisoned (s_view s) = false → scriptScope (s_pers s) = false →
  ∃ s0, beginScriptScope s = (Ok tt, s0) ∧ in_scope s0 ∧ s_db s0 = s_db s.
Proof.
  intros Hi Hp Hsc. pose proof (begin_keeps s Hi) as Hk. unfold beginScriptScope.
  assert (begin s = (Ok tt, (begin s).2)) as E.
  { unfold begin. rewrite (bindM_Ok _ _ _ _ _ (alive_outside s Hsc)), bindM_gets, Hsc. done. }
  exists (begin s).2. split; [done|]. revert Hk. unfold begin.
  rewrite (bindM_Ok _ _ _ _ _ (alive_outside s Hsc)), bindM_gets, Hsc. simpl. intros Hk. by split.
Qed.

Lemma abort_closes s : Inv s → scriptScope (s_pers s) = true →
  ∃ r s', abortScope s = (r, s') ∧ Inv s' ∧ scriptScope (s_pers s') = false ∧ s_db s' = s_db s.
Proof.
  intros Hi Hsc. unfold abortScope, isActive. rewrite bindM_gets, Hsc. simpl.
  destruct (abortScriptScope_keeps s Hi) as (Hi' & Hd & Hc). destruct (abortScriptScope s) as [r s']. eauto 10.
Qed.

(** A scope around a client: thrown, and the rows are as before; or returned, and
    it is what the client left in the view that was committed. *)
Lemma scope_outcome {A} lost (fn : sysM A) s r s' :
  Inv s → v_poisoned (s_view s) = false → scriptScope (s_pers s) = false → client fn →
  runInScriptScope true lost fn s = (r, s') →
  Inv s' ∧ scriptScope (s_pers s') = false ∧
  match r with
  | Err _ => same_rows (s_db s) (s_db s')
  | Ok a => lost = false ∧ v_poisoned (s_view s') = false ∧
      ∃ s1, fn (beginScriptScope s).2 = (Ok a, s1) ∧
        (mutations (s_pers s1) = [] ∧ same_rows (s_db s) (s_db s') ∨ mutations (s_pers s1) ≠ [] ∧ commits (s_view s1) (s_view s') (s_db s'))
  end.
Proof.
  intros Hi Hp Hsc Hc. destruct (begin_run s Hi Hp Hsc) as (s0 & E0 & Hs0 & Hd0).
  unfold runInScriptScope, beginScope, isActive. rewrite bindM_gets, Hsc. simpl. rewrite bindM_assoc, bindM_gets, Hsc.
  rewrite (bindM_Ok _ _ _ _ _ E0), E0. cbn [snd]. unfold catch. destruct (Hc s0 Hs0) as [Hs1 Hr].
  unfold bindM at 1. destruct (fn s0) as [[a|e] s1] eqn:Efn; cbn [snd] in Hs1, Hr; rewrite Hd0 in Hr.
  - unfold endScope, isActive. rewrite bindM_assoc, bindM_gets, (is_open _ Hs1). simpl. unfold bindM at 1.
    pose proof (endScriptScope_keeps lost s1 (is_inv _ Hs1)) as Hi2.
    destruct (endScriptScope lost s1) as [[[]|e] s2] eqn:Eend; cbn [snd] in Hi2;
      destruct (scope_end_outcome lost s1 _ _ (is_inv _ Hs1) (is_open _ Hs1) Eend) as [Hsc2 Ho].
    + intros [= <- <-]. destruct Ho as [-> Ho]. split; [done|]. split; [done|]. split; [done|]. split.
      * destruct Ho as [(_ & _ & ->)|(_ & Ho & _)]; [apply (is_fit _ Hs1)|apply Ho].
      * exists s1. split; [done|]. destruct Ho as [(Hm & Hd & _)|(Hm & _ & Hcm)]; [left|by right]. split; [done|]. by rewrite Hd.
    + unfold attempt, abortScope, isActive, bindM, gets. rewrite Hsc2. simpl.
      intros [= <- <-]. destruct Ho as [Hd _]. split_and!; [done|done|by rewrite Hd].
  - destruct (abort_closes s1 (is_inv _ Hs1) (is_open _ Hs1)) as (r1 & s2 & Ea & Hi2 & Hsc2 & Hd2).
    unfold bindM, attempt. rewrite Ea. intros [= <- <-]. split_and!; [done|done|by rewrite Hd2].
Qed.

(** *** The entry of a request *)

(** The tree is the same; the epoch and the blobs need not be. *)
Definition tree_same (d d' : db) : Prop :=
  inodes d' = inodes d ∧ dirents d' = dirents d ∧ root_of d' sandboxId = root_of d sandboxId.

Lemma tree_same_trans d1 d2 d3 : tree_same d1 d2 → tree_same d2 d3 → tree_same d1 d3.
Proof. intros (? & ? & ?) (? & ? & ?). unfold tree_same. split_and!; congruence. Qed.

Lemma rows_tree d d' : same_rows d d' → tree_same d d'.
Proof. intros (Hs & ? & ? & _). unfold tree_same, root_of. by rewrite Hs. Qed.

(** A session at rest between two scripts. *)
Definition idle_session (s : Sys) : Prop := Inv s ∧ scriptScope (s_pers s) = false.

Lemma load_tree force s : idle_session s →
  idle_session (loadCommittedView force s).2 ∧ s_db (loadCommittedView force s).2 = s_db s ∧
  (∀ b, (loadCommittedView force s).1 = Ok b → v_poisoned (s_view (loadCommittedView force s).2) = false).
Proof.
  intros [Hi Hsc]. pose proof (load_keeps force s Hi Hsc) as Hk.
  pose proof (load_spec force s (inv_wf _ _ _ Hi) Hsc (λ _, Hi)) as Hl. unfold idle_session.
  destruct (loadCommittedView force s) as [[b|e] s']; simpl in *.
  - destruct Hl as (Hd & Hp & Hc & _). rewrite Hp. split_and!; [done|done|done|]. intros _ _. apply Hc.
  - destruct Hl as (Hd & _ & Hp). rewrite Hp. by split_and!.
Qed.

Lemma reload_frame s : wf_db (s_db s) → scriptScope (s_pers s) = false →
  s_pers (reload s).2 = s_pers s ∧ s_db (reload s).2 = s_db s.
Proof.
  intros Hwf Hsc. unfold reload. rewrite (bindM_Ok _ _ _ _ _ (alive_outside s Hsc)), bindM_gets, Hsc.
  pose proof (load_spec true s Hwf Hsc ltac:(done)) as Hl. unfold bindM.
  destruct (loadCommittedView true s) as [[b|e] s']; simpl; [by destruct Hl as (? & ? & _)|by destruct Hl as (? & _ & ?)].
Qed.

Lemma ensureFresh_tree s : idle_session s →
  idle_session (ensureFresh s).2 ∧ s_db (ensureFresh s).2 = s_db s ∧
  (∀ b, (ensureFresh s).1 = Ok b → v_poisoned (s_view (ensureFresh s).2) = false).
Proof.
  intros Hs. pose proof Hs as [_ Hsc]. unfold ensureFresh. rewrite (bindM_Ok _ _ _ _ _ (alive_outside s Hsc)), bindM_gets, Hsc.
  by apply load_tree.
Qed.

Lemma retired_tree d d' c : retired d d' c → tree_same d d'.
Proof.
  intros (row & Hrow & _ & _ & ->). unfold tree_same, root_of. simpl. split_and!; [done|done|].
  rewrite lookup_insert_eq, Hrow. done.
Qed.

Lemma claim_tree s : idle_session s →
  idle_session (fs_claimGeneration s).2 ∧ tree_same (s_db s) (s_db (fs_claimGeneration s).2).
Proof.
  intros [Hi Hsc]. pose proof (claim_keeps Hretire s Hi) as Hk.
  set (P := λ s', scriptScope (s_pers s') = false ∧ tree_same (s_db s) (s_db s')).
  enough (P (fs_claimGeneration s).2) as [? ?] by done.
  clear Hk. unfold fs_claimGeneration, bindM at 1. pose proof (claimGeneration_spec Hretire s) as Hc.
  destruct (claimGeneration s) as [[[c|]|e] s1]; [|done|].
  - destruct Hc as (Hv & Hp & _ & Hr). pose proof (retired_tree _ _ _ Hr) as Ht.
    rewrite bindM_gets. destruct (publishGeneration c (s_view s1)) as [[] v'].
    { rewrite bindM_modify. unfold P. simpl. by rewrite Hp. }
    rewrite bindM_modify. destruct (reload_frame (on_view (λ _, v') s1)) as [Hp' Hd'].
    { destruct Hr as (row & Hrow & _ & _ & Hd). simpl. rewrite Hd. eapply wf_same_shape; [|apply (inv_wf _ _ _ Hi)].
      by apply same_shape_version. }
    { simpl. by rewrite Hp. }
    unfold bindM, P. destruct (reload (on_view (λ _, v') s1)) as [[]?]; simpl in *; by rewrite Hp', Hp, Hd'.
  - destruct Hc as (Hv & Hp & Hd). unfold P. simpl. rewrite Hp. split; [done|].
    destruct Hd as [->|[c Hd]]; [done|]. by eapply retired_tree.
Qed.

(** An error from before the body or from within: not one of the two that come
    after it. *)
Definition early_error (e : req_error) : Prop :=
  match e with ECOHERENCE_UNAPPLIED | ELOCKLOST_APPLIED => False | _ => True end.

Lemma fresh_spec meta closing q r q' : idle_session (q_sys q) → ensureFreshCache meta closing q = (r, q') →
  idle_session (q_sys q') ∧ tree_same (s_db (q_sys q)) (s_db (q_sys q')) ∧
  match r with
  | Ok _ => v_poisoned (s_view (q_sys q')) = false ∧ closing = false
  | Err e => early_error e
  end.
Proof.
  intros Hs. unfold ensureFreshCache, catch.
  assert (Hh : ∀ e q1, early_error e → idle_session (q_sys q1) → tree_same (s_db (q_sys q)) (s_db (q_sys q1)) →
    ((if negb (sandbox_missing e) then assertActive closing ;;; throw e
      else entry_closeMissing ;;; throw (RFs (ENOENT ("/" +:+ sandboxId)))) : reqM unit) q1 = (r, q') →
    idle_session (q_sys q') ∧ tree_same (s_db (q_sys q)) (s_db (q_sys q')) ∧
    match r with Ok _ => v_poisoned (s_view (q_sys q')) = false ∧ closing = false | Err e => early_error e end).
  { intros e q1 He Hs1 Ht1. destruct (negb (sandbox_missing e)); unfold bindM; simpl;
      [destruct closing; simpl|]; intros [= <- <-]; done. }
  destruct (claim_tree (q_sys q) Hs) as [Hs1 Ht1]. unfold bindM at 1. unfold onFs at 1.
  destruct (fs_claimGeneration (q_sys q)) as [[claimed|e] s1]; cbn [snd] in Hs1, Ht1.
  2:{ intros E. by eapply Hh; [| | |exact E]. }
  destruct (ensureFresh_tree s1 Hs1) as (Hs2 & Hd2 & Hp2). unfold bindM at 1. unfold onFs at 1. cbn [q_sys set_sys].
  destruct (ensureFresh s1) as [[fresh|e] s2]; cbn [fst snd] in Hs2, Hd2, Hp2; rewrite <- Hd2 in Ht1.
  2:{ intros E. by eapply Hh; [| | |exact E]. }
  specialize (Hp2 _ eq_refl).
  set (rest := bindM (if fresh || claimed then syncRuntime meta else retM tt) _ _).
  assert (Hrest : q_sys rest.2 = s2 ∧ match rest.1 with Ok _ => closing = false | Err e => early_error e end).
  { subst rest. unfold bindM at 1 2. destruct (fresh || claimed); [|simpl; by destruct closing].
    unfold syncRuntime. destruct meta as [[[]|]|]; simpl; by try destruct closing. }
  destruct rest as [[[]|e] q1]; cbn [fst snd] in Hrest; destruct Hrest as [Hq Hcl].
  - intros [= <- <-]. by rewrite Hq.
  - intros E. eapply Hh; [done| | |exact E]; by rewrite Hq.
Qed.

Lemma Inv_dirty b s : Inv s → Inv (on_view (set_dirty b) s).
Proof.
  intros [H1 H2 H3 H4]. split; [done|done|done|]. simpl. intros Hp. destruct (H4 Hp) as (v0 & He & Hset & Hj). exists v0.
  split_and!; [done|done|]. eapply journal_ext; [|by apply (journal_facts _ _ _ _ Hj)|exact Hj]. done.
Qed.

Lemma clean_same s : v_dirty (s_view s) = false → on_view (set_dirty false) s = s.
Proof. destruct s as [d v]. destruct v. simpl. by intros ->. Qed.

(** The exclusive entry around a body: it ran on a fresh, sound session, and the
    outcome is its own, unless it left the view poisoned; or it did not run. *)
Lemma entry_spec {A} meta closing (fn : reqM A) q r q' :
  idle_session (q_sys q) → withSessionEntry meta closing fn q = (r, q') →
  ∃ q1, idle_session (q_sys q1) ∧ tree_same (s_db (q_sys q)) (s_db (q_sys q1)) ∧
    ((∃ e, r = Err e ∧ early_error e ∧ q_sys q' = on_view (set_dirty false) (q_sys q1)) ∨
     closing = false ∧ v_poisoned (s_view (q_sys q1)) = false ∧
     ∃ r2 q2, fn q1 = (r2, q2) ∧ q_sys q' = on_view (set_dirty false) (q_sys q2) ∧
       r = match r2 with
           | Ok a => if v_poisoned (s_view (q_sys q2)) then Err ECOHERENCE_UNAPPLIED else Ok a
           | Err e => Err e
           end).
Proof.
  intros Hs. unfold withSessionEntry. unfold bindM at 1. unfold attempt.
  set (body := bindM (ensureFreshCache meta closing) _ q).
  assert (Hclean : ∀ (o : res req_error A) q2, (let* dirty := gets (λ q, v_dirty (s_view (q_sys q))) in
      (if dirty then entry_refreshBudget ;;; onFs clearDirty else retM tt) ;;; lift_res o) q2 = (r, q') →
      r = o ∧ q_sys q' = on_view (set_dirty false) (q_sys q2)).
  { intros o q2. rewrite bindM_gets. destruct (v_dirty (s_view (q_sys q2))) eqn:Ed; unfold bindM; simpl; intros [= <- <-].
    - done.
    - by rewrite clean_same. }
  destruct body as [r0 q0] eqn:Eb. intros E. apply Hclean in E as [-> Hq]. clear Hclean. subst body. revert Eb.
  unfold bindM at 1. destruct (ensureFreshCache meta closing q) as [[[]|e] q1] eqn:Ef;
    destruct (fresh_spec _ _ _ _ _ Hs Ef) as (Hs1 & Ht1 & Hc).
  - intros Eb. exists q1. split; [done|]. split; [done|]. right. destruct Hc as [Hp ->]. split; [done|]. split; [done|].
    unfold bindM at 1 in Eb. destruct (fn q1) as [r2 q2]. exists r2, q2.
    destruct r2 as [a|e]; [|injection Eb as <- <-; done]. rewrite bindM_gets in Eb.
    destruct (v_poisoned (s_view (q_sys q2))); injection Eb as <- <-; done.
  - intros [= <- <-]. exists q1. split; [done|]. split; [done|]. left. eauto.
Qed.

Lemma commits_clean v v' d : commits v v' d → commits v (set_dirty false v') d.
Proof. done. Qed.

Lemma exec_ok_held x sc s result s1 : x_readOnly x = false → exec_in_scope x sc s = (Ok result, s1) → x_lost x = false.
Proof.
  intros Hro. unfold exec_in_scope, run_in_context, assertScriptLeaseHeld. rewrite Hro.
  destruct (x_lost x); [|done]. unfold bindM. destruct (consumeExecInput _ _ _) as [[[]|] ?]; [|done].
  by destruct (run_script sc _) as [[]].
Qed.

Lemma execute_outcome x cwd sc s r s' :
  Inv s → v_poisoned (s_view s) = false → scriptScope (s_pers s) = false → x_readOnly x = false → safe_script sc →
  executeSessionRuntime x cwd sc s = (r, s') →
  Inv s' ∧ scriptScope (s_pers s') = false ∧
  match r with
  | Err _ => same_rows (s_db s) (s_db s')
  | Ok (result, _) => x_lost x = false ∧ x_ownerLost x = false ∧ v_poisoned (s_view s') = false ∧
      ∃ s1, exec_in_scope x sc (beginScriptScope s).2 = (Ok result, s1) ∧
        (mutations (s_pers s1) = [] ∧ same_rows (s_db s) (s_db s') ∨ mutations (s_pers s1) ≠ [] ∧ commits (s_view s1) (s_view s') (s_db s'))
  end.
Proof.
  intros Hi Hp Hsc Hro Hsafe. unfold executeSessionRuntime. rewrite Hro. simpl. unfold bindM.
  destruct (runInScriptScope true (x_ownerLost x) (exec_in_scope x sc) s) as [r1 s1] eqn:E.
  destruct (scope_outcome _ _ _ _ _ Hi Hp Hsc (client_exec x sc Hsafe) E) as (Hi' & Hsc' & Ho).
  destruct r1 as [result|e]; intros [= <- <-]; [|done]. split; [done|]. split; [done|].
  destruct Ho as (Hl & Hp' & s2 & Hex & Ho). split; [by eapply exec_ok_held|]. eauto 10.
Qed.
End clients.

(** ** Write requests *)

Section requests.
Context `{Config} `{Lru}.


(** What an execution did when it returned: the session was not closing and held
    its lease, the script ran in a scope of a tree that was as the request found
    it, and the committed tree is what the script saw, or it recorded nothing. *)
Definition script_applied (x : ExecEnv) (closing : bool) (sc : Script BashExecResult) (result : BashExecResult) (q q' : Req) : Prop :=
  closing = false ∧ x_lost x = false ∧ v_poisoned (s_view (q_sys q')) = false ∧
  ∃ s0 s1, in_scope s0 ∧ tree_same (s_db (q_sys q)) (s_db s0) ∧ exec_in_scope x sc s0 = (Ok result, s1) ∧
    (mutations (s_pers s1) = [] ∧ tree_same (s_db (q_sys q)) (s_db (q_sys q')) ∨
     mutations (s_pers s1) ≠ [] ∧ commits (s_view s1) (s_view (q_sys q')) (s_db (q_sys q'))).

(** Under the lock, a request that executes a script is all or nothing. *)
Lemma exec_entry_atomic x meta closing cwd sc q r q' :
  hasRetire = true → reachable (q_sys q) → scriptScope (s_pers (q_sys q)) = false →
  x_readOnly x = false → safe_script sc →
  withSessionEntry meta closing (onFs (executeSessionRuntime x cwd sc)) q = (r, q') →
  scriptScope (s_pers (q_sys q')) = false ∧ v_dirty (s_view (q_sys q')) = false ∧
  match r with
  | Err e => tree_same (s_db (q_sys q)) (s_db (q_sys q')) ∧ early_error e
  | Ok (result, _) => script_applied x closing sc result q q'
  end.
Proof.
  intros Hret Hr Hsc Hro Hsafe E.
  destruct (entry_spec Hret _ _ _ _ _ _ (conj (reachable_Inv Hret _ Hr) Hsc) E) as (q1 & [Hi1 Hsc1] & Ht1 & Ho).
  destruct Ho as [(e & -> & He & Hq)|(-> & Hp1 & r2 & q2 & Efn & Hq & ->)]; unfold script_applied; rewrite Hq; [by split_and!|].
  unfold onFs in Efn. destruct (executeSessionRuntime x cwd sc (q_sys q1)) as [r3 s3] eqn:Ex.
  destruct (execute_outcome Hret _ _ _ _ _ _ Hi1 Hp1 Hsc1 Hro Hsafe Ex) as (_ & Hsc3 & Ho).
  injection Efn as <- <-. simpl. split; [done|]. split; [done|]. destruct r3 as [[result cwd']|e].
  - destruct Ho as (Hl & _ & Hp3 & s4 & Hex & Ho). rewrite Hp3. split_and!; [done..|].
    destruct (begin_run _ Hi1 Hp1 Hsc1) as (s0 & E0 & Hs0 & Hd0). rewrite E0 in Hex. exists s0, s4.
    split; [done|]. split; [by rewrite Hd0|]. split; [done|].
    destruct Ho as [[Hm Hrows]|[Hm Hc]]; [left|right; split; [done|by apply commits_clean]]. split; [done|].
    by eapply tree_same_trans; [|apply rows_tree].
  - split; [|done]. by eapply tree_same_trans; [|apply rows_tree].
Qed.
End requests.

(** ** Witnesses *)

Section witnesses.
#[local] Existing Instance demo_config.
#[local] Existing Instance lru_unbounded.

Definition demo_env : ExecEnv := mkExecEnv false (Some 1000) None 3 false false.

(** Make a directory, write a file in it, look at it, and go there. *)
Definition demo_exec : Script BashExecResult :=
  SCall (OpMkdir "/tmp/a" false) (λ _,
  SCall (OpWriteFile "/tmp/a/f" "hello") (λ _,
  SQuery (QReadFile "/tmp/a/f") (λ r,
  SReturn (mkBashResult (match r with Ok _ => 0 | Err _ => 1 end) (Some "/tmp/../tmp/a") false)))).

Definition demo_req : Req := mkReq demo_ready false 0 0 0.

End witnesses.
