(* ===== verification/Readers.v ===== *)
(** Read requests that share a session ([withSessionReadEntry] of
    src/src/api/session-manager.ts, src/src/api/read-only-context.ts).

    Read requests hold the session's lock in shared mode and run at the same
    time. [rd_step] is one step of one of them: its entry, one call of its
    script, or its end. The read-only depth of the filesystem is shared; the
    contexts (the violation flag and the limits of the script) are each
    request's own. *)

From S2P Require Import Prelude Errors Paths Store Tree Dialect Lifecycle LoadPaths View Session Namespace Coherence Simulation Journal Invariant Mutate Handlers SqlFs Ingest IngestRows IngestSim IngestSound Scopes Machine Guarantees Isolation Contents Exec ExecSound.

(** ** The readers *)

Inductive ReaderState (A : Type) :=
| RWait
| RIn (rest : Script A) (violated : bool) (context : option ExecContext)
| ROut (r : res req_error A).
Arguments RWait {A}.
Arguments RIn {A} rest violated context.
Arguments ROut {A} r.

(** [rd_refused]: a call of the request was refused with EREADONLY. *)
Record Reader (A : Type) := mkReader { rd_refused : bool; rd_state : ReaderState A }.
Arguments mkReader {A} rd_refused rd_state.
Arguments rd_refused {A} r.
Arguments rd_state {A} r.

Definition refused {A} (r : res fs_error A) : bool := match r with Err e => is_readonly e | Ok _ => false end.

Section readers.
Context `{Config} `{Lru}.
Context {A : Type}.

(** A call in the contexts of its request. *)
Definition reader_call {B} (violated : bool) (context : option ExecContext) (m : sysM B) (s : Sys)
    : res fs_error B * bool * option ExecContext * Sys :=
  let '(r, violated', s') := read_call violated m (set_exec context s) in
  (r, violated', s_exec s', set_exec (s_exec s) s').

Definition step_enter (meta : MetaAnswer) (closing : bool) (sc : Script A) (c : option ExecContext) (q : Req) : Req * ReaderState A :=
  match read_enter meta closing q with
  | (Ok _, q') => (q', RIn sc false c)
  | (Err e, q') => (q', ROut (Err e))
  end.

(** One step of a request that is inside. *)
Definition step_inside (rd : Reader A) (sc : Script A) (violated : bool) (c : option ExecContext) (q : Req) : Req * Reader A :=
  match sc with
  | SReturn a => let '(r, q') := read_exit violated (Ok a) q in (q', mkReader (rd_refused rd) (ROut r))
  | SThrow e => let '(r, q') := read_exit violated (Err e) q in (q', mkReader (rd_refused rd) (ROut r))
  | SCall o k =>
      let '(r, violated', c', s') := reader_call violated c (run_op o) (q_sys q) in
      (set_sys s' q, mkReader (rd_refused rd || mutating o && refused r) (RIn (k r) violated' c'))
  | SQuery o k =>
      let '(r, violated', c', s') := reader_call violated c (run_query o) (q_sys q) in
      (set_sys s' q, mkReader (rd_refused rd) (RIn (k r) violated' c'))
  end.

(** The session and the requests, each with the script it was given. *)
Record Reading := mkReading { rg_req : Req; rg_readers : gmap nat (Reader A) }.

Inductive rd_step : Reading → Reading → Prop :=
| rd_arrive g i :
    rg_readers g !! i = None → rd_step g (mkReading (rg_req g) (<[i := mkReader false RWait]> (rg_readers g)))
| rd_enter g i rd meta closing sc c q' st :
    rg_readers g !! i = Some rd → rd_state rd = RWait → step_enter meta closing sc c (rg_req g) = (q', st) →
    rd_step g (mkReading q' (<[i := mkReader (rd_refused rd) st]> (rg_readers g)))
| rd_inside g i rd sc v c q' rd' :
    rg_readers g !! i = Some rd → rd_state rd = RIn sc v c → step_inside rd sc v c (rg_req g) = (q', rd') →
    rd_step g (mkReading q' (<[i := rd']> (rg_readers g))).

Definition is_in (rd : Reader A) : bool := match rd_state rd with RIn _ _ _ => true | _ => false end.

(** How many requests are inside. *)
Definition inside (rs : gmap nat (Reader A)) : Z := gcount is_in rs.
End readers.

(** ** One call *)

Section calls.
Context `{Config} `{Lru}.

(** A read-only scope is open and no script scope is. *)
Definition guarded (s : Sys) : Prop := 0 < s_readOnlyDepth s ∧ scriptScope (s_pers s) = false.

(** A mutating call changes nothing, and marks its context exactly when it is
    refused. *)
Definition watched {B} (m : sysM B) : Prop := ∀ s v, guarded s → s_violated s = Some v →
  same_core s (m s).2 ∧ s_readOnlyDepth (m s).2 = s_readOnlyDepth s ∧
  s_violated (m s).2 = Some (v || refused (m s).1).

Lemma guarded_core s s' : same_core s s' → s_readOnlyDepth s' = s_readOnlyDepth s → guarded s → guarded s'.
Proof. intros (_ & _ & Hp) Hd [? ?]. unfold guarded. by rewrite Hp, Hd. Qed.

Lemma watched_bind {B C} (m : sysM B) (f : B → sysM C) : watched m → (∀ b, watched (f b)) → watched (bindM m f).
Proof.
  intros Hm Hf s v Hg Hv. destruct (Hm s v Hg Hv) as (Hc & Hd & Hv'). unfold bindM.
  destruct (m s) as [[b|e] s']; [|done]. simpl in *. rewrite orb_false_r in Hv'.
  destruct (Hf b s' v (guarded_core _ _ Hc Hd Hg) Hv') as (Hc' & Hd' & Hv''). split; [by eapply same_core_trans|].
  split; [congruence|done].
Qed.

(** A pure check whose errors are not EREADONLY. *)
Lemma watched_lift {B} (r : res fs_error B) : refused r = false → watched (lift_res r).
Proof. intros Hr s v _ Hv. simpl. rewrite Hr, orb_false_r. done. Qed.

Lemma watched_ret {B} (b : B) : watched (retM b).
Proof. intros s v _ Hv. simpl. by rewrite orb_false_r. Qed.

Lemma watched_gets {B} (f : Sys → B) : watched (gets f).
Proof. intros s v _ Hv. simpl. by rewrite orb_false_r. Qed.

Lemma watched_throw {B} e : is_readonly e = false → watched (throw e : sysM B).
Proof. intros He s v _ Hv. simpl. by rewrite He, orb_false_r. Qed.

Lemma watched_throw_if c e : is_readonly e = false → watched (throw_if c e).
Proof. intros He. destruct c; [by apply watched_throw|apply watched_ret]. Qed.

(** Everything after [assertWritable] is out of reach, and it marks the context. *)
Lemma watched_writable {B} p op (f : unit → sysM B) : watched (bindM (assertWritable p op) f).
Proof.
  intros s v [Hd Hsc] Hv. unfold assertWritable. rewrite bindM_assoc, (bindM_Ok _ _ _ _ _ (alive_outside s Hsc)), bindM_assoc, bindM_gets.
  rewrite decide_True by done. unfold bindM. simpl. rewrite Hv, orb_true_r. done.
Qed.

Lemma watched_reserved {B} (m : sysM B) : watched m → watched (withNamespaceMutation m).
Proof.
  intros Hm s v Hg Hv. assert (withNamespaceMutation m s = m s) as ->; [|by apply Hm].
  destruct Hg as [_ Hsc]. unfold withNamespaceMutation, captureReservation, assertReservation, assertGeneration.
  unfold bindM, gets. simpl. rewrite Bool.eqb_reflx, bool_decide_eq_true_2 by done. simpl. rewrite !Hsc. simpl.
  unfold assertAlive. rewrite !Hsc. done.
Qed.

Lemma validatePath_refused p : refused (validatePath p) = false.
Proof. unfold validatePath. by repeat case_match. Qed.

Lemma assertStoredPath_refused p op : refused (assertStoredPath p op) = false.
Proof. unfold assertStoredPath. by case_decide. Qed.

Lemma normalize_ingest_refused seen files : refused (normalize_ingest seen files) = false.
Proof.
  revert seen. induction files as [|f files IH]; intros seen; [done|]. simpl.
  pose proof (validatePath_refused (bf_path f)). destruct (validatePath (bf_path f)) as [p|]; [|done].
  pose proof (assertStoredPath_refused p "bulkIngest"). destruct (assertStoredPath p "bulkIngest"); [|done].
  case_decide; [done|]. specialize (IH (p :: seen)). by destruct (normalize_ingest (p :: seen) files).
Qed.
End calls.

Create HintDb watched.
#[export] Hint Resolve watched_ret watched_gets watched_writable : watched.
#[export] Hint Resolve validatePath_refused assertStoredPath_refused normalize_ingest_refused : watched.

(** Walk through a mutating method up to its [assertWritable]. *)
Ltac watch :=
  repeat first
    [ apply watched_writable | apply watched_reserved | apply watched_ret | apply watched_gets
    | apply watched_lift; solve [auto with watched]
    | apply watched_throw; reflexivity | apply watched_throw_if; reflexivity
    | apply watched_bind; [|intros ?]
    | match goal with |- watched (match ?x with _ => _ end) => destruct x end ].

Section watched_ops.
Context `{Config} `{Lru}.

Lemma watched_run_op o : mutating o = true → watched (run_op o).
Proof.
  intros Ho. destruct o; try done; simpl;
    unfold fs_writeFile, fs_appendFile, fs_mkdir, fs_rm, fs_cp, fs_mv, fs_symlink, fs_link, fs_chmod, fs_utimes,
      fs_createExclusive, createExclusive, ns_writeFile, ns_appendFile, ns_mkdir, ns_rm, ns_cp, ns_mv, ns_symlink, ns_link,
      ns_chmod, ns_utimes, fs_bulkIngest, ns_bulkIngest, bulkIngestAt, writeFileAt, appendFileAt, mkdirAt, rmAt, cpAt,
      writeFileAt, captureReservation, viewGet, viewHas, mvAt, symlinkAt, linkAt, chmodAt, utimesAt; watch.
Qed.
End watched_ops.

(** ** Queries *)

Section queries.
Context `{Config} `{Lru}.

(** Nothing changes but the content cache and the limits' account. *)
Definition reads {B} (m : sysM B) : Prop := ∀ s,
  s_db (m s).2 = s_db s ∧ s_pers (m s).2 = s_pers s ∧ s_readOnlyDepth (m s).2 = s_readOnlyDepth s ∧
  s_violated (m s).2 = s_violated s ∧ v_poisoned (s_view (m s).2) = v_poisoned (s_view s).

Lemma reads_bind {B C} (m : sysM B) (f : B → sysM C) : reads m → (∀ b, reads (f b)) → reads (bindM m f).
Proof.
  intros Hm Hf s. destruct (Hm s) as (? & ? & ? & ? & ?). unfold bindM. destruct (m s) as [[b|e] s']; [|done].
  destruct (Hf b s') as (? & ? & ? & ? & ?). simpl in *. split_and!; congruence.
Qed.

Lemma reads_lift {B} (r : res fs_error B) : reads (lift_res r).
Proof. done. Qed.
Lemma reads_ret {B} (b : B) : reads (retM b).
Proof. done. Qed.
Lemma reads_gets {B} (f : Sys → B) : reads (gets f).
Proof. done. Qed.
Lemma reads_throw {B} e : reads (throw e : sysM B).
Proof. done. Qed.
Lemma reads_throw_if c e : reads (throw_if c e).
Proof. by destruct c. Qed.
Lemma reads_alive : reads assertAlive.
Proof. intros s. unfold assertAlive. by destruct (scriptScope (s_pers s)), (scriptTxLost (s_pers s)). Qed.

Lemma reads_read {B} (fn : txM B) : (∀ t, t_db (fn t).2 = t_db t) → reads (read fn).
Proof.
  intros Hfn. apply reads_bind; [apply reads_alive|]. intros _ s. unfold inTx, onTx, bindM. simpl.
  specialize (Hfn (mkTx (s_db s) (Some sandboxId) None)). by destruct (fn _) as [[b|e] t]; simpl in *.
Qed.

Lemma reads_resolve_in_db p : reads (resolve_in_db p).
Proof.
  apply reads_bind; [apply reads_read; intros; apply resolve_tx_db|]. intros id.
  apply reads_bind; [done|]. intros v. by destruct (find_inode id v).
Qed.

Lemma reads_fileSize p b op : reads (assertExecFileSize p b op).
Proof.
  apply reads_bind; [done|]. intros [c|]; [|done]. destruct (maxFileBytes c); [|done]. by case_decide.
Qed.

Lemma reads_input b src : reads (consumeExecInput b src).
Proof.
  apply reads_bind; [done|]. intros [c|]; [|done]. destruct (inputLimitBytes c); [|done]. destruct (exceeded c); [done|].
  cbv zeta. by case_decide.
Qed.

Lemma reads_content e : reads (readContent e).
Proof.
  apply reads_bind; [done|]. intros v. destruct (jget _ _); [by apply reads_bind; [apply reads_alive|]|].
  apply reads_bind; [done|]. intros data. apply reads_bind; [by case_decide|]. intros _. by apply reads_bind; [apply reads_alive|].
Qed.

Lemma reads_query q : reads (run_query q).
Proof.
  pose proof reads_alive. pose proof reads_resolve_in_db. pose proof reads_fileSize. pose proof reads_input. pose proof reads_content.
  destruct q; simpl; (apply reads_bind; [|done]);
    unfold fs_readFileBuffer, readBytes, fs_exists, fs_stat, fs_lstat, fs_readdir, fs_readlink, fs_realpath, resolveReadEntry, viewHas, viewGet;
    repeat first [ done | apply reads_throw_if
      | apply reads_bind; [|intros ?]
      | match goal with |- reads (match ?x with _ => _ end) => destruct x end
      | match goal with |- reads (if ?x then _ else _) => destruct x end ].
Qed.

(** A read through [readFile] called as an operation. *)
Lemma reads_op o : mutating o = false → reads (run_op o).
Proof.
  destruct o; try done. intros _ s. rewrite <- read_state. apply (reads_query (QReadFile path)).
Qed.
End queries.

(** ** The entry leaves the depth and a healthy view alone *)

Section frames.
Context `{Config} `{Lru}.

Definition fine (s s' : Sys) : Prop :=
  s_readOnlyDepth s' = s_readOnlyDepth s ∧ (v_poisoned (s_view s) = false → v_poisoned (s_view s') = false).

Definition finely {B} (m : sysM B) : Prop := ∀ s, fine s (m s).2.
Definition finely_tx {B} (m : stM B) : Prop := ∀ st, fine st.1 (m st).2.1.

Lemma fine_trans s1 s2 s3 : fine s1 s2 → fine s2 s3 → fine s1 s3.
Proof. intros [? ?] [? ?]. split; [congruence|auto]. Qed.

Lemma finely_bind {B C} (m : sysM B) (f : B → sysM C) : finely m → (∀ b, finely (f b)) → finely (bindM m f).
Proof.
  intros Hm Hf s. specialize (Hm s). unfold bindM. destruct (m s) as [[b|e] s']; [|done].
  eapply fine_trans; [exact Hm|apply Hf].
Qed.

Lemma finely_tx_bind {B C} (m : stM B) (f : B → stM C) : finely_tx m → (∀ b, finely_tx (f b)) → finely_tx (bindM m f).
Proof.
  intros Hm Hf st. specialize (Hm st). unfold bindM. destruct (m st) as [[b|e] st']; [|done].
  eapply fine_trans; [exact Hm|apply Hf].
Qed.

Lemma finely_inTx {B} (m : stM B) : finely_tx m → finely (inTx m).
Proof.
  intros Hm s. specialize (Hm (s, mkTx (s_db s) None None)). unfold inTx.
  by destruct (m (s, mkTx (s_db s) None None)) as [[b|e] [s' t]].
Qed.

Lemma finely_onTx {B} (m : txM B) : finely_tx (onTx m).
Proof. intros st. unfold onTx. by destruct (m st.2). Qed.

Lemma finely_onSys {B} (m : sysM B) : finely m → finely_tx (onSys m).
Proof. intros Hm st. specialize (Hm st.1). unfold onSys. by destruct (m st.1). Qed.

Lemma finely_reads {B} (m : sysM B) : reads m → finely m.
Proof. intros Hm s. destruct (Hm s) as (_ & _ & ? & _ & E). split; [done|congruence]. Qed.

Lemma finely_lease : finely assertLease.
Proof. intros s. unfold assertLease. by destruct (s_lease s (s_tick s)). Qed.

Lemma finely_view f : (∀ v, v_poisoned v = false → v_poisoned (f v) = false) → finely (modifyS (on_view f)).
Proof. intros Hf s. split; [done|]. apply Hf. Qed.

Lemma finely_check l : finely (check_loaded l).
Proof.
  induction l as [|p l IH]; simpl; [done|]. apply finely_bind; [done|]. intros path. by apply finely_bind.
Qed.

Lemma finely_load force : finely (loadCommittedView force).
Proof.
  pose proof (finely_reads _ reads_alive). unfold loadCommittedView. apply finely_bind.
  - apply finely_inTx. apply finely_tx_bind; [apply finely_onTx|]. intros _. apply finely_tx_bind; [apply finely_onTx|]. intros epoch.
    apply finely_tx_bind; [done|]. intros v. case_match; [done|]. apply finely_tx_bind; [apply finely_onTx|]. intros rows.
    apply finely_tx_bind; [intros st; unfold throw_if; by case_match|]. done.
  - intros view. apply finely_bind; [done|]. intros _. destruct view as [[epoch entries]|]; [|done].
    apply finely_bind; [apply finely_check|]. intros _. apply finely_bind; [apply finely_view; intros v _; reflexivity|]. done.
Qed.

Lemma finely_reload : finely reload.
Proof.
  apply finely_bind; [apply finely_reads, reads_alive|]. intros _. apply finely_bind; [done|]. intros [].
  - done.
  - apply finely_bind; [apply finely_load|done].
Qed.

Lemma finely_fresh : finely ensureFresh.
Proof.
  apply finely_bind; [apply finely_reads, reads_alive|]. intros _. apply finely_bind; [done|]. intros b.
  apply finely_bind; [by destruct b|]. intros _. apply finely_load.
Qed.

Lemma finely_claim : finely fs_claimGeneration.
Proof.
  pose proof (finely_reads _ reads_alive). pose proof finely_lease. apply finely_bind.
  - apply finely_bind; [done|]. intros _. apply finely_bind; [done|]. intros _. destruct hasRetire; [|done].
    apply finely_bind; [done|]. intros b. apply finely_bind; [by destruct b|]. intros _. apply finely_bind.
    + apply finely_inTx. apply finely_tx_bind; [done|]. intros l. apply finely_tx_bind; [done|]. intros _.
      apply finely_tx_bind; [apply finely_onTx|]. intros r. apply finely_tx_bind; [by apply finely_onSys|]. done.
    + intros c. by apply finely_bind.
  - intros [c|]; [|done]. intros s. rewrite bindM_gets. unfold publishGeneration.
    destruct (negb (v_poisoned (s_view s)) && _); rewrite bindM_modify; [done|].
    eapply (fine_trans _ (on_view (λ _, s_view s) s)); [done|].
    apply (finely_bind reload (λ _, retM true) finely_reload); done.
Qed.
End frames.

(** ** The requests together *)

Section together.
Context `{Config} `{Lru} (Hretire : hasRetire = true).
Context {A : Type}.

(** What a request knows of itself. *)
Definition reader_ok (rd : Reader A) : Prop :=
  match rd_state rd with
  | RWait => rd_refused rd = false
  | RIn _ v _ => v = rd_refused rd
  | ROut (Ok _) => rd_refused rd = false
  | ROut (Err _) => True
  end.

Record reading_inv (d : db) (g : Reading) : Prop := {
  ri_idle : idle_session (q_sys (rg_req g));
  ri_tree : tree_same d (s_db (q_sys (rg_req g)));
  ri_depth : s_readOnlyDepth (q_sys (rg_req g)) = inside (A := A) (rg_readers g);
  ri_fit : 0 < inside (rg_readers g) → v_poisoned (s_view (q_sys (rg_req g))) = false;
  ri_readers : ∀ i rd, rg_readers g !! i = Some rd → reader_ok rd;
}.

Lemma exit_spec v (r : res fs_error A) q : 0 < s_readOnlyDepth (q_sys q) →
  ∃ q', read_exit v r q = (match r with
      | Ok a => if v then Err EREADONLY_VIOLATION else Ok a
      | Err e => Err (if is_readonly e then EREADONLY_VIOLATION else RFs e) end, q') ∧
    q_sys q' = set_depth (s_readOnlyDepth (q_sys q) - 1) (q_sys q).
Proof.
  intros Hd. unfold read_exit, attempt, onFs, endReadOnlyScope, bindM, gets, throw_if. 
  assert (bool_decide (s_readOnlyDepth (q_sys q) = 0) = false) as E0 by (apply bool_decide_eq_false; lia).
  destruct r as [a|e]; simpl.
  - destruct v; simpl; rewrite E0; simpl; eauto.
  - destruct (v || is_readonly e); simpl; rewrite E0; simpl; eauto.
Qed.

Lemma idle_core s s' : s_db s' = s_db s → s_view s' = s_view s → s_pers s' = s_pers s → idle_session s → idle_session s'.
Proof. intros Hd Hv Hp [Hi Hsc]. split; [|by rewrite Hp]. by eapply Inv_core; [|exact Hi]. Qed.

(** A call of a request that is inside. *)
Lemma call_spec {B} (m : sysM B) v c s r v' c' s' :
  watched m ∨ reads m ∧ (∀ s, Inv s → v_poisoned (s_view s) = false → Inv (m s).2) →
  idle_session s → 0 < s_readOnlyDepth s → v_poisoned (s_view s) = false →
  reader_call v c m s = (r, v', c', s') →
  idle_session s' ∧ s_db s' = s_db s ∧ s_readOnlyDepth s' = s_readOnlyDepth s ∧ v_poisoned (s_view s') = false ∧
  (watched m → v' = v || refused r) ∧ (reads m → v' = v).
Proof.
  intros Hm [Hi Hsc] Hd Hp. unfold reader_call, read_call.
  set (s0 := set_violated (Some v) (set_exec c s)).
  assert (Hw : watched m → same_core s (m s0).2 ∧ s_readOnlyDepth (m s0).2 = s_readOnlyDepth s ∧
    s_violated (m s0).2 = Some (v || refused (m s0).1)) by (intros W; by apply (W s0 v)).
  assert (Hr : reads m → s_db (m s0).2 = s_db s ∧ s_pers (m s0).2 = s_pers s ∧ s_readOnlyDepth (m s0).2 = s_readOnlyDepth s ∧
    s_violated (m s0).2 = Some v ∧ v_poisoned (s_view (m s0).2) = v_poisoned (s_view s)) by (intros R; apply (R s0)).
  assert (Hk : (∀ s, Inv s → v_poisoned (s_view s) = false → Inv (m s).2) → Inv (m s0).2) by (intros K; by apply K; [eapply Inv_core|]).
  destruct (m s0) as [r1 s1]. cbn [fst snd] in *. intros [= <- <- <- <-]. 
  assert (Hv : (watched m → default v (s_violated s1) = v || refused r1) ∧ (reads m → default v (s_violated s1) = v)).
  { split; [intros (_ & _ & ->)%Hw|intros (_ & _ & _ & -> & _)%Hr]; done. }
  split; [|split; [|split; [|split; [|exact Hv]]]]; destruct Hm as [((Hd1 & Hv1 & Hp1) & He & _)%Hw|[(Hd1 & Hp1 & He & _ & Hpo)%Hr K%Hk]]; simpl;
    try congruence.
  - by apply (idle_core s).
  - split; [|simpl; congruence]. by eapply Inv_core; [|exact K].
Qed.

Definition finely_req {B} (m : reqM B) : Prop := ∀ q, fine (q_sys q) (q_sys (m q).2).

Lemma finely_req_bind {B C} (m : reqM B) (f : B → reqM C) : finely_req m → (∀ b, finely_req (f b)) → finely_req (bindM m f).
Proof.
  intros Hm Hf q. specialize (Hm q). unfold bindM. destruct (m q) as [[b|e] q']; [|done].
  eapply fine_trans; [exact Hm|apply Hf].
Qed.

Lemma finely_onFs {B} (m : sysM B) : finely m → finely_req (onFs m).
Proof. intros Hm q. specialize (Hm (q_sys q)). unfold onFs. by destruct (m (q_sys q)). Qed.

Lemma fresh_fine meta closing : finely_req (ensureFreshCache meta closing).
Proof.
  assert (Hact : finely_req (assertActive closing)) by (intros q; by destruct closing).
  set (body := let* claimed := onFs fs_claimGeneration in
     let* fresh := onFs ensureFresh in
     (if fresh || claimed then syncRuntime meta else retM tt) ;;; entry_refreshBudget ;;; assertActive closing).
  assert (Hb : finely_req body).
  { apply finely_req_bind; [apply finely_onFs, finely_claim|]. intros claimed.
    apply finely_req_bind; [apply finely_onFs, finely_fresh|]. intros fresh.
    apply finely_req_bind; [destruct (_ || _); [|done]; by destruct meta as [[[]|]|]|]. intros _. by apply finely_req_bind. }
  intros q. specialize (Hb q). unfold ensureFreshCache, catch. fold body. destruct (body q) as [[[]|e] q1]; [done|].
  eapply fine_trans; [exact Hb|]. destruct (negb _); apply finely_req_bind; done.
Qed.

Lemma enter_spec meta closing sc c q q' (st : ReaderState A) :
  idle_session (q_sys q) → step_enter meta closing sc c q = (q', st) →
  idle_session (q_sys q') ∧ tree_same (s_db (q_sys q)) (s_db (q_sys q')) ∧
  ((∃ e, st = ROut (Err e)) ∧ fine (q_sys q) (q_sys q') ∨
   st = RIn sc false c ∧ s_readOnlyDepth (q_sys q') = s_readOnlyDepth (q_sys q) + 1 ∧ v_poisoned (s_view (q_sys q')) = false).
Proof.
  intros Hs. unfold step_enter, read_enter, bindM. pose proof (fresh_fine meta closing q) as Hf.
  destruct (ensureFreshCache meta closing q) as [[[]|e] q1] eqn:E; destruct (fresh_spec Hretire _ _ _ _ _ Hs E) as (Hs1 & Ht & Hc).
  - intros [= <- <-]. destruct Hf as [Hd _], Hc as [Hp _]. split; [by apply (idle_core (q_sys q1))|]. split; [done|].
    right. split; [done|]. cbn [snd] in Hd. split; [by rewrite <- Hd|done].
  - intros [= <- <-]. split; [done|]. split; [done|]. left. split; [by eexists|done].
Qed.

Lemma step_inside_spec rd sc v c q q' rd' :
  idle_session (q_sys q) → 0 < s_readOnlyDepth (q_sys q) → v_poisoned (s_view (q_sys q)) = false → v = rd_refused rd →
  step_inside rd sc v c q = (q', rd') →
  idle_session (q_sys q') ∧ s_db (q_sys q') = s_db (q_sys q) ∧ v_poisoned (s_view (q_sys q')) = false ∧
  reader_ok rd' ∧
  s_readOnlyDepth (q_sys q') = s_readOnlyDepth (q_sys q) - 1 + Z.b2z (is_in rd').
Proof.
  intros Hs Hd Hp ->. destruct sc as [a|e|o k|o k]; simpl.
  - destruct (exit_spec (rd_refused rd) (Ok a) q Hd) as (q1 & -> & Hq). intros [= <- <-]. rewrite Hq.
    split_and!; [by apply (idle_core (q_sys q))|done|done| |simpl; lia].
    unfold reader_ok. simpl. by destruct (rd_refused rd) eqn:E.
  - destruct (exit_spec (rd_refused rd) (Err e : res fs_error A) q Hd) as (q1 & -> & Hq). intros [= <- <-]. rewrite Hq.
    split_and!; [by apply (idle_core (q_sys q))|done|done|done|simpl; lia].
  - destruct (reader_call (rd_refused rd) c (run_op o) (q_sys q)) as [[[r v'] c'] s'] eqn:E. intros [= <- <-].
    destruct (mutating o) eqn:Eo; simpl.
    + pose proof (watched_run_op o Eo) as W.
      destruct (call_spec _ _ _ _ _ _ _ _ (or_introl W) Hs Hd Hp E) as (? & ? & He & ? & Hv & _).
      split_and!; [done..| |lia]. by apply Hv.
    + pose proof (reads_op o Eo) as R. assert (K : op_safe o) by (by destruct o).
      destruct (call_spec _ _ _ _ _ _ _ _ (or_intror (conj R (sound_keeps _ (run_op_sound Hretire o K)))) Hs Hd Hp E)
        as (? & ? & He & ? & _ & Hv).
      split_and!; [done..| |lia]. unfold reader_ok. simpl. rewrite orb_false_r. by apply Hv.
  - destruct (reader_call (rd_refused rd) c (run_query o) (q_sys q)) as [[[r v'] c'] s'] eqn:E. intros [= <- <-].
    pose proof (reads_query o) as R.
    destruct (call_spec _ _ _ _ _ _ _ _ (or_intror (conj R (λ s, query_keeps Hretire o s))) Hs Hd Hp E) as (? & ? & He & ? & _ & Hv). simpl.
    split_and!; [done..| |lia]. unfold reader_ok. simpl. by apply Hv.
Qed.

Lemma rd_step_inv d g g' : rd_step g g' → reading_inv d g → reading_inv d g'.
Proof.
  destruct 1 as [g i Hi|g i rd meta closing sc c q' st Hi Hst E|g i rd sc v c q' rd' Hi Hst E]; intros [H1 H2 H3 H4 H5].
  - assert (Hc : inside (<[i := mkReader false RWait]> (rg_readers g)) = inside (A := A) (rg_readers g)).
    { unfold inside. by rewrite gcount_insert by done. }
    split; simpl; rewrite ?Hc; try done. intros j rj [[<- <-]|[_ Hj]]%lookup_insert_Some; [done|by eapply H5].
  - destruct (enter_spec _ _ _ _ _ _ _ H1 E) as (Hs & Ht & Ho).
    assert (Hc : inside (<[i := mkReader (rd_refused rd) st]> (rg_readers g)) =
      inside (rg_readers g) + Z.b2z (is_in (mkReader (rd_refused rd) st))).
    { unfold inside. rewrite (gcount_update _ _ _ _ _ Hi). replace (is_in rd) with false; [simpl; lia|].
      unfold is_in. by rewrite Hst. }
    pose proof (H5 _ _ Hi) as Hrd. unfold reader_ok in Hrd. rewrite Hst in Hrd.
    split; simpl; [done|by eapply tree_same_trans| | |].
    + rewrite Hc. destruct Ho as [[[e ->] [Hd _]]|(-> & Hd & _)]; rewrite Hd, H3; simpl; lia.
    + rewrite Hc. destruct Ho as [[[e ->] [_ Hp]]|(-> & _ & Hp)]; [|done]. simpl. intros Hin. apply Hp, H4. lia.
    + intros j rj [[<- <-]|[_ Hj]]%lookup_insert_Some; [|by eapply H5].
      destruct Ho as [[[e ->] _]|(-> & _)]; [done|]. by unfold reader_ok.
  - assert (Hin : is_in rd = true) by (unfold is_in; by rewrite Hst).
    pose proof (gcount_pos _ _ _ _ Hi Hin) as Hpos. change (0 < inside (rg_readers g)) in Hpos.
    pose proof (H5 _ _ Hi) as Hrd. unfold reader_ok in Hrd. rewrite Hst in Hrd.
    destruct (step_inside_spec rd sc v c _ _ _ H1 ltac:(by rewrite H3) (H4 Hpos) Hrd E) as (Hs & Hd & Hp & Hok & Hdep).
    assert (Hc : inside (<[i := rd']> (rg_readers g)) = inside (rg_readers g) - 1 + Z.b2z (is_in rd')).
    { unfold inside. rewrite (gcount_update _ _ _ _ _ Hi), Hin. simpl. lia. }
    split; simpl; [done|by rewrite Hd|by rewrite Hdep, H3, Hc|done|].
    intros j rj [[<- <-]|[_ Hj]]%lookup_insert_Some; [done|by eapply H5].
Qed.

Lemma readings_inv d g g' : rtc rd_step g g' → reading_inv d g → reading_inv d g'.
Proof. induction 1; eauto using rd_step_inv. Qed.

Lemma start_reading q : idle_session (q_sys q) → s_readOnlyDepth (q_sys q) = 0 → reading_inv (s_db (q_sys q)) (mkReading q ∅).
Proof.
  intros Hs Hd. split; simpl; [done|by split_and!|by rewrite Hd|done|]. by intros i rd ?%lookup_empty_Some.
Qed.
End together.

Section isolated.
Context `{Config} `{Lru}.
Context {A : Type}.

(** C13: Read requests cannot change anything, and are told apart. However many
    read requests share a session and however their calls are interleaved, the
    tree of the database is the same after every step, the read-only depth is
    the number of requests inside, and no script scope is opened. A request
    answers a result only if none of its own mutating calls was refused; one
    that returns normally is failed as a violation exactly when one of its own
    calls was refused, whatever the others did. *)
Theorem readers_isolated q (g : Reading (A := A)) :
  hasRetire = true → reachable (q_sys q) → scriptScope (s_pers (q_sys q)) = false → s_readOnlyDepth (q_sys q) = 0 →
  rtc rd_step (mkReading q ∅) g →
  tree_same (s_db (q_sys q)) (s_db (q_sys (rg_req g))) ∧
  scriptScope (s_pers (q_sys (rg_req g))) = false ∧
  s_readOnlyDepth (q_sys (rg_req g)) = inside (rg_readers g) ∧
  ∀ i rd, rg_readers g !! i = Some rd →
    (∀ a, rd_state rd = ROut (Ok a) → rd_refused rd = false) ∧
    (∀ a v c, rd_state rd = RIn (SReturn a) v c →
      rd_state (step_inside rd (SReturn a) v c (rg_req g)).2 = ROut (if rd_refused rd then Err EREADONLY_VIOLATION else Ok a)).
Proof.
  intros Hret Hr Hsc Hd Hg.
  pose proof (readings_inv Hret _ _ _ Hg (start_reading q (conj (reachable_Inv Hret _ Hr) Hsc) Hd)) as [H1 H2 H3 H4 H5].
  split; [done|]. split; [apply H1|]. split; [done|]. intros i rd Hi. specialize (H5 i rd Hi). unfold reader_ok in H5. split.
  - intros a Ha. by rewrite Ha in H5.
  - intros a v c Hst. rewrite Hst in H5. subst v.
    assert (Hin : is_in rd = true) by (unfold is_in; by rewrite Hst).
    pose proof (gcount_pos _ _ _ _ Hi Hin) as Hpos. change (0 < inside (rg_readers g)) in Hpos. simpl.
    destruct (exit_spec (rd_refused rd) (Ok a) (rg_req g) ltac:(by rewrite H3)) as (q' & -> & _). done.
Qed.
End isolated.

(** ** A run of two requests *)

Section advance.
Context `{Config} `{Lru}.
Context {A : Type}.

(** The next step of request [i], whose script is [sc]. *)
Definition advance (sc : nat → Script A) (i : nat) (g : Reading) : Reading :=
  match rg_readers g !! i with
  | None => mkReading (rg_req g) (<[i := mkReader false RWait]> (rg_readers g))
  | Some rd =>
      match rd_state rd with
      | RWait => let '(q', st) := step_enter (Ok None) false (sc i) None (rg_req g) in
                 mkReading q' (<[i := mkReader (rd_refused rd) st]> (rg_readers g))
      | RIn rest v c => let '(q', rd') := step_inside rd rest v c (rg_req g) in mkReading q' (<[i := rd']> (rg_readers g))
      | ROut _ => g
      end
  end.

Lemma advance_steps sc l g : rtc rd_step g (fold_left (λ g i, advance sc i g) l g).
Proof.
  revert g. induction l as [|i l IH]; intros g; simpl; [done|]. etrans; [|apply IH]. clear IH.
  unfold advance. destruct (rg_readers g !! i) as [rd|] eqn:Ei.
  - destruct (rd_state rd) as [|rest v c|r] eqn:Es; [| |done].
    + destruct (step_enter _ _ _ _ _) as [q' st] eqn:E. by eapply rtc_once, rd_enter.
    + destruct (step_inside _ _ _ _ _) as [q' rd'] eqn:E. by eapply rtc_once, rd_inside.
  - by apply rtc_once, rd_arrive.
Qed.
End advance.

Section witness.
#[local] Existing Instance demo_config.
#[local] Existing Instance lru_unbounded.

(** Request 0 tries to write and then returns 7; request 1 looks and returns 8. *)
Definition demo_scripts (i : nat) : Script Z :=
  match i with
  | 0%nat => SCall (OpWriteFile "/tmp/x" "x") (λ _, SReturn 7)
  | _ => SQuery (QReaddir "/") (λ _, SReturn 8)
  end.

Definition demo_reading : Reading (A := Z) :=
  fold_left (λ g i, advance demo_scripts i g) [0; 0; 1; 1; 0; 1; 0; 1]%nat (mkReading demo_req ∅).

Lemma demo_reading_run : rtc rd_step (mkReading demo_req ∅) demo_reading.
Proof. apply advance_steps. Qed.

Lemma readers_isolated_witness :
  tree_same (s_db (q_sys demo_req)) (s_db (q_sys (rg_req demo_reading))) ∧
  rd_state <$> rg_readers demo_reading !! 0%nat = Some (ROut (Err EREADONLY_VIOLATION)) ∧
  rd_state <$> rg_readers demo_reading !! 1%nat = Some (ROut (Ok 8)).
Proof.
  split; [|split; vm_compute; reflexivity].
  assert (H1 : scriptScope (s_pers (q_sys demo_req)) = false) by (vm_compute; reflexivity).
  assert (H2 : s_readOnlyDepth (q_sys demo_req) = 0) by (vm_compute; reflexivity).
  exact (proj1 (readers_isolated demo_req demo_reading eq_refl demo_ready_reachable H1 H2 demo_reading_run)).
Defined.
End witness.
