(* ===== verification/ApiErrors.v ===== *)
(** What clients are told about an error (src/src/api/errors.ts,
    src/src/api/mcp/worker-errors.ts).

    An error is its [code] and its message. The redaction of a message
    ([sanitizeFsError]) is an argument: what is said here is which messages go
    through it and which are replaced. *)

From S2P Require Import Prelude Errors.

Record JsError := mkError { e_code : option string; e_message : string }.

(** Anything can be thrown; [None] is what is not an [Error]. *)
Definition thrown : Type := option JsError.

Definition code_of (err : thrown) : option string := e ← err; e_code e.

(** ** The sets of codes *)

Definition SAFE_FS_ERROR_CODES : list string :=
  ["ENOENT"; "EEXIST"; "EISDIR"; "ENOTDIR"; "EPERM"; "FORBIDDEN"; "ENOTEMPTY"; "ESESSIONCLOSING"; "ESHUTTINGDOWN"; "ELOOP";
   "EINVAL"; "ELOCKTIMEOUT"; "ELOCKLOST"; "ELOCKLOST_APPLIED"; "ECOHERENCE"; "ESTALE"; "ECOHERENCE_UNAPPLIED"; "ERUNTIME_BUSY";
   "EWORKER_BUSY"; "EWORKER_UNAVAILABLE"; "EEXEC_OUTCOME_UNKNOWN"; "EEXEC_INPUT_LIMIT"; "EREADONLY"; "EREADONLY_VIOLATION";
   "EDRIVERFAULT"; "EFBIG"; "ESCRIPTBUFFER"; "EEXEC_FS"].

Definition RETRYABLE_SQLSTATES : list string := ["53300"; "53400"; "57P03"].

Definition RETRY_SAFE_ERROR_CODES : list string :=
  ["ESESSIONCLOSING"; "ESHUTTINGDOWN"; "ELOCKTIMEOUT"; "ELOCKLOST"; "ECOHERENCE_UNAPPLIED"; "ERUNTIME_BUSY"; "EWORKER_BUSY";
   "EWORKER_UNAVAILABLE"].

Definition SCRIPT_FS_ERROR_CODES : list string :=
  ["ENOENT"; "EEXIST"; "EISDIR"; "ENOTDIR"; "ENOTEMPTY"; "ELOOP"; "EPERM"; "EINVAL"].

Definition AMBIGUOUS_CODES : list string := ["EEXEC_OUTCOME_UNKNOWN"; "ECOHERENCE"; "ELOCKLOST_APPLIED"; "EDRIVERFAULT"].

Definition workerCodes : list string := ["EEXEC_OUTCOME_UNKNOWN"; "EEXEC_INPUT_LIMIT"; "EWORKER_BUSY"; "EWORKER_UNAVAILABLE"].

Definition has (codes : list string) (code : string) : bool := bool_decide (code ∈ codes).

(** [0-9A-Z] *)
Definition is_sqlstate_char (c : ascii) : bool :=
  let n := N_of_ascii c in ((48 <=? n) && (n <=? 57) || (65 <=? n) && (n <=? 90))%N.

(** /^08[0-9A-Z]{3}$/ *)
Definition CONNECTION_EXCEPTION_SQLSTATE (code : string) : bool :=
  match code with
  | String "0" (String "8" (String a (String b (String c EmptyString)))) =>
      is_sqlstate_char a && is_sqlstate_char b && is_sqlstate_char c
  | _ => false
  end.

Definition UNAVAILABLE_ERROR_CODE : string := "EUNAVAILABLE".

(** ** The predicates *)

Definition preservesAmbiguousOutcome (err : thrown) : bool :=
  match code_of err with
  | Some code => CONNECTION_EXCEPTION_SQLSTATE code || has AMBIGUOUS_CODES code
  | None => false
  end.

Definition isConnectionClassSqlState (code : option string) : bool :=
  match code with
  | None => false
  | Some code => CONNECTION_EXCEPTION_SQLSTATE code || has RETRYABLE_SQLSTATES code
  end.

Definition isRetryableError (err : thrown) : bool :=
  match code_of err with
  | None => false
  | Some code => if has RETRY_SAFE_ERROR_CODES code then true else has RETRYABLE_SQLSTATES code
  end.

Definition clientSafeErrorCode (err : thrown) (fallback : string) : string :=
  match err with
  | None => fallback
  | Some e =>
      match e_code e with
      | Some code => if has SAFE_FS_ERROR_CODES code then code
                     else if isConnectionClassSqlState (Some code) then UNAVAILABLE_ERROR_CODE else fallback
      | None => fallback
      end
  end.

(** The switch, case by case. *)
Definition STATUS_TABLE : list (string * Z) :=
  [("ENOENT", 404); ("EEXIST", 409); ("EISDIR", 400); ("ENOTDIR", 400); ("EPERM", 403); ("FORBIDDEN", 403); ("ENOTEMPTY", 409);
   ("ESESSIONCLOSING", 503); ("ESHUTTINGDOWN", 503); ("ELOOP", 400); ("EINVAL", 400); ("ELOCKTIMEOUT", 503); ("ELOCKLOST", 503);
   ("ELOCKLOST_APPLIED", 503); ("ECOHERENCE", 503); ("ESTALE", 409); ("EDRIVERFAULT", 503); ("ECOHERENCE_UNAPPLIED", 503);
   ("EWORKER_BUSY", 503); ("EWORKER_UNAVAILABLE", 503); ("EEXEC_OUTCOME_UNKNOWN", 503); ("ERUNTIME_BUSY", 503);
   ("ESCRIPTBUFFER", 413); ("EEXEC_INPUT_LIMIT", 413); ("EFBIG", 413)].

Definition mapFsErrorToStatus (err : JsError) : Z :=
  match e_code err ≫= λ code, jget code STATUS_TABLE with
  | Some status => status
  | None => if isConnectionClassSqlState (e_code err) then 503 else 500
  end.

(** The capitals a message starts with, when a colon follows. *)
Fixpoint message_code (acc message : string) : option string :=
  match message with
  | EmptyString => None
  | String c rest =>
      if ((65 <=? N_of_ascii c) && (N_of_ascii c <=? 90))%N then message_code (acc +:+ String c EmptyString) rest
      else if decide (c = ":"%char ∧ acc ≠ EmptyString) then Some acc else None
  end.

Definition extractErrCode (err : thrown) : option string :=
  match err with
  | None => None
  | Some e =>
      match e_code e with
      | Some (String c rest) => Some (String c rest)
      | _ => message_code EmptyString (e_message e)
      end
  end.

(** An error of the filesystem as the routes see it; the message of one with a
    code is not looked at. *)
Definition js_error (e : fs_error) : JsError :=
  mkError (error_code e) (match e with PlainError message => message | _ => EmptyString end).

Section responses.
Context (sanitizeFsError : string → string).

Definition clientSafeErrorMessage (err : thrown) (fallback : string) : string :=
  match err with
  | Some e => match e_code e with
              | Some code => if has SAFE_FS_ERROR_CODES code then sanitizeFsError (e_message e) else fallback
              | None => fallback
              end
  | None => fallback
  end.

Definition execFsError (err : thrown) : option JsError :=
  match err, extractErrCode err with
  | Some e, Some code =>
      if has SCRIPT_FS_ERROR_CODES code
      then Some (mkError (Some "EEXEC_FS")
             ("EEXEC_FS: the script hit a filesystem error the shell did not handle (" +:+ sanitizeFsError (e_message e) +:+ ")"))
      else None
  | _, _ => None
  end.

Record ErrorBody := mkBody { body_error : string; body_code : string; body_retryable : bool }.

(** The status, the body, and the Retry-After header. *)
Definition apiErrorHandler (err : JsError) : Z * ErrorBody * option string :=
  let code := clientSafeErrorCode (Some err) "INTERNAL_ERROR" in
  (mapFsErrorToStatus err,
   mkBody (clientSafeErrorMessage (Some err) "Internal server error") code (isRetryableError (Some err)),
   if decide (code = "EWORKER_BUSY") then Some "1" else None).

Definition fallbackMessage (code : string) : string :=
  if decide (code = "EEXEC_OUTCOME_UNKNOWN") then "Execution outcome is unknown"
  else if decide (code = "EEXEC_INPUT_LIMIT") then "Execution input exceeds its byte budget"
  else "Worker unavailable".

(** The body of a tool's answer, and its [retryAfterMs]. *)
Definition workerToolError (err : thrown) : option (ErrorBody * option Z) :=
  match err with
  | None => None
  | Some e =>
      match e_code e with
      | Some code =>
          if has workerCodes code
          then Some (mkBody (clientSafeErrorMessage err (fallbackMessage code)) code (isRetryableError err),
                     if decide (code = "EWORKER_BUSY") then Some 1000 else None)
          else None
      | None => None
      end
  end.
End responses.

(** ** What the answers mean *)

Lemma has_In codes code : has codes code = true ↔ code ∈ codes.
Proof. apply bool_decide_eq_true. Qed.

(** Decide a statement about every code of a list by running it. *)
Lemma all_codes (P : string → bool) codes : forallb P codes = true → ∀ code, code ∈ codes → P code = true.
Proof. intros H code Hc. rewrite forallb_forall in H. by apply H, list_elem_of_In. Qed.

(** No code of a list is a connection exception. *)
Definition unlike_connection (codes : list string) : bool := forallb (λ c, negb (CONNECTION_EXCEPTION_SQLSTATE c)) codes.

Lemma connection_not_listed code codes :
  CONNECTION_EXCEPTION_SQLSTATE code = true → unlike_connection codes = true → has codes code = false.
Proof.
  intros Hc Hall. destruct (has codes code) eqn:E; [|done]. apply has_In in E.
  pose proof (all_codes _ _ Hall code E) as Hn. simpl in Hn. by rewrite Hc in Hn.
Qed.

Definition status_of (code : string) : Z := mapFsErrorToStatus (mkError (Some code) EmptyString).

Lemma status_code code m : mapFsErrorToStatus (mkError (Some code) m) = status_of code.
Proof. done. Qed.

Lemma status_connection code : CONNECTION_EXCEPTION_SQLSTATE code = true → status_of code = 503.
Proof.
  intros Hc. unfold status_of, mapFsErrorToStatus. cbn [e_code mbind option_bind isConnectionClassSqlState].
  assert (jget code STATUS_TABLE = None) as ->; [|by rewrite Hc].
  apply jget_None. intros Hin. apply has_In in Hin. by rewrite connection_not_listed in Hin.
Qed.

(** A retryable code is answered with 503, under a code of its own or as
    EUNAVAILABLE, and is not ambiguous. *)
Lemma retryable_code code : has RETRY_SAFE_ERROR_CODES code = true ∨ has RETRYABLE_SQLSTATES code = true →
  status_of code = 503 ∧ clientSafeErrorCode (Some (mkError (Some code) EmptyString)) "INTERNAL_ERROR" ≠ "INTERNAL_ERROR" ∧
  CONNECTION_EXCEPTION_SQLSTATE code = false ∧ has AMBIGUOUS_CODES code = false.
Proof.
  set (good c := bool_decide (status_of c = 503) &&
    negb (bool_decide (clientSafeErrorCode (Some (mkError (Some c) EmptyString)) "INTERNAL_ERROR" = "INTERNAL_ERROR")) &&
    negb (CONNECTION_EXCEPTION_SQLSTATE c) && negb (has AMBIGUOUS_CODES c)).
  intros Hc. assert (Hg : good code = true).
  { destruct Hc as [Hc|Hc]; apply has_In in Hc; revert code Hc; apply all_codes; vm_compute; reflexivity. }
  unfold good in Hg. rewrite !andb_true_iff, !negb_true_iff, bool_decide_eq_true, bool_decide_eq_false in Hg. naive_solver.
Qed.

Lemma ambiguous_status code : has AMBIGUOUS_CODES code = true → status_of code = 503.
Proof.
  intros Hc%has_In. assert (bool_decide (status_of code = 503) = true) as H%bool_decide_eq_true; [|done].
  revert code Hc. apply (all_codes (λ c, bool_decide (status_of c = 503))). vm_compute. reflexivity.
Qed.

Lemma not_retryable_ambiguous err : preservesAmbiguousOutcome err = true → isRetryableError err = false.
Proof.
  unfold preservesAmbiguousOutcome, isRetryableError. destruct (code_of err) as [code|]; [|done]. intros Ha.
  destruct (has RETRY_SAFE_ERROR_CODES code) eqn:E1.
  { destruct (retryable_code code (or_introl E1)) as (_ & _ & Hc & Hm). by rewrite Hc, Hm in Ha. }
  destruct (has RETRYABLE_SQLSTATES code) eqn:E2; [|done].
  destruct (retryable_code code (or_intror E2)) as (_ & _ & Hc & Hm). by rewrite Hc, Hm in Ha.
Qed.

Definition response_status sanitize err : Z := (apiErrorHandler sanitize err).1.1.
Definition response_body sanitize err : ErrorBody := (apiErrorHandler sanitize err).1.2.

(** C27: An error response is consistent and leaks nothing. The code a client
    sees is one of the published ones; the message of an error whose code is not
    among them, a driver's above all, is replaced; an error advertised as
    retryable is answered with 503 and says why; one whose outcome is ambiguous
    is answered with 503 and never advertised as retryable. *)
Theorem error_response_consistent sanitize err :
  (body_code (response_body sanitize err) ∈ SAFE_FS_ERROR_CODES ∨ body_code (response_body sanitize err) = UNAVAILABLE_ERROR_CODE ∨ body_code (response_body sanitize err) = "INTERNAL_ERROR") ∧
  ((∀ code, e_code err = Some code → code ∉ SAFE_FS_ERROR_CODES) →
    body_error (response_body sanitize err) = "Internal server error" ∧ (body_code (response_body sanitize err) = UNAVAILABLE_ERROR_CODE ∨ body_code (response_body sanitize err) = "INTERNAL_ERROR")) ∧
  (body_retryable (response_body sanitize err) = true → response_status sanitize err = 503 ∧ body_code (response_body sanitize err) ≠ "INTERNAL_ERROR") ∧
  (preservesAmbiguousOutcome (Some err) = true → response_status sanitize err = 503 ∧ body_retryable (response_body sanitize err) = false).
Proof.
  destruct err as [[code|] m]; cbn; [|split_and!; auto; done].
  split_and!.
  - destruct (has SAFE_FS_ERROR_CODES code) eqn:E; [left; by apply has_In|]. case_match; auto.
  - intros Hn. specialize (Hn code eq_refl). destruct (has SAFE_FS_ERROR_CODES code) eqn:E; [by apply has_In in E|].
    split; [done|]. case_match; auto.
  - intros Hr. assert (Hc : has RETRY_SAFE_ERROR_CODES code = true ∨ has RETRYABLE_SQLSTATES code = true).
    { unfold isRetryableError in Hr. simpl in Hr. destruct (has RETRY_SAFE_ERROR_CODES code); auto. }
    by destruct (retryable_code code Hc) as (Hs & Hi & _).
  - intros Ha. split; [|by apply (not_retryable_ambiguous (Some (mkError (Some code) m)))]. change (status_of code = 503).
    unfold preservesAmbiguousOutcome in Ha. simpl in Ha. apply orb_true_iff in Ha as [Ha|Ha];
      [by apply status_connection|by apply ambiguous_status].
Qed.
