(* ===== verification/Breaker.v ===== *)
(** The per-role Redis circuit breaker (src/src/redis/circuit-breaker.ts).

    [Breaker] is the class's mutable state, with the transition events it
    logs; every method takes the reading of the clock it makes. [b_event] is
    one call from outside and [b_run] a sequence of them, in the order the
    event loop makes them. [AcquireErrorBudget] is the per-call budget of the
    same file. *)

From S2P Require Import Prelude.

Inductive BreakerState := closed | open | half_open.

#[export] Instance BreakerState_eq_dec : EqDecision BreakerState.
Proof. solve_decision. Defined.

Record BreakerOptions := mkOptions { threshold : Z; openMs : Z }.

Definition DEFAULT_OPTIONS : BreakerOptions := mkOptions 5 5000.

Inductive BreakerLog := redis_circuit_open | redis_circuit_closed.

Record Breaker := mkBreaker {
  b_state : BreakerState;
  consecutiveFailures : Z;
  openedAt : Z;
  halfOpenInFlight : bool;
  probeGeneration : Z;
  b_log : list BreakerLog }.

Definition newBreaker : Breaker := mkBreaker closed 0 0 false 0 [].

(** A half-open probe ticket is its generation. *)
Definition Ticket : Type := Z.

Section breaker.
Context (o : BreakerOptions).

Definition isOpen (b : Breaker) (now : Z) : bool :=
  match b_state b with
  | closed => false
  | half_open => halfOpenInFlight b
  | open => bool_decide (now - openedAt b < openMs o)
  end.

(** Admit the probe: mint its ticket. *)
Definition mintProbeTicket (b : Breaker) : Breaker * Ticket :=
  let g := probeGeneration b + 1 in
  (mkBreaker half_open (consecutiveFailures b) (openedAt b) true g (b_log b), g).

(** Whether the caller is admitted, and the ticket put into its holder. *)
Definition tryAcquire (b : Breaker) (now : Z) : bool * option Ticket * Breaker :=
  match b_state b with
  | closed => (true, None, b)
  | half_open =>
      if halfOpenInFlight b then (false, None, b)
      else let '(b', g) := mintProbeTicket b in (true, Some g, b')
  | open =>
      if bool_decide (now - openedAt b >= openMs o)
      then let '(b', g) := mintProbeTicket b in (true, Some g, b')
      else (false, None, b)
  end.

(** [assertClosed] passes no holder: the ticket of a probe it admits is lost. *)
Definition assertClosed (b : Breaker) (now : Z) : res string unit * Breaker :=
  match tryAcquire b now with
  | (true, _, b') => (Ok tt, b')
  | (false, _, b') => (Err "EREDISCIRCUITOPEN", b')
  end.

Definition openBreaker (b : Breaker) (now : Z) : Breaker :=
  let reopened := bool_decide (b_state b = open) in
  mkBreaker open (threshold o) (if reopened then openedAt b else now) false (probeGeneration b)
    (if reopened then b_log b else b_log b ++ [redis_circuit_open]).

Definition recordSuccess (b : Breaker) (probe : option Ticket) : Breaker :=
  if decide (b_state b = open) then b
  else if decide (b_state b = half_open ∧ probe ≠ Some (probeGeneration b)) then b
  else mkBreaker closed 0 (openedAt b) false (probeGeneration b)
         (if decide (b_state b = half_open) then b_log b ++ [redis_circuit_closed] else b_log b).

Definition recordFailure (b : Breaker) (probe : option Ticket) (now : Z) : Breaker :=
  if decide (b_state b = half_open)
  then if decide (probe ≠ Some (probeGeneration b)) then b else openBreaker b now
  else
    let n := consecutiveFailures b + 1 in
    let b' := mkBreaker (b_state b) n (openedAt b) (halfOpenInFlight b) (probeGeneration b) (b_log b) in
    if decide (n >= threshold o) then openBreaker b' now else b'.

(** ** Sequences of calls *)

Inductive b_event :=
| EvTry (now : Z)
| EvSuccess (probe : option Ticket) (now : Z)
| EvFailure (probe : option Ticket) (now : Z).

Definition ev_time (e : b_event) : Z :=
  match e with EvTry t => t | EvSuccess _ t => t | EvFailure _ t => t end.

(** A call and whether it admitted a command. *)
Definition b_step (b : Breaker) (e : b_event) : bool * Breaker :=
  match e with
  | EvTry t => let '(adm, _, b') := tryAcquire b t in (adm, b')
  | EvSuccess p _ => (false, recordSuccess b p)
  | EvFailure p t => (false, recordFailure b p t)
  end.

(** The commands a sequence admits, and the breaker after it. *)
Fixpoint b_run (b : Breaker) (es : list b_event) : nat * Breaker :=
  match es with
  | [] => (0%nat, b)
  | e :: es' =>
      let '(adm, b1) := b_step b e in
      let '(n, b2) := b_run b1 es' in
      ((if adm then S n else n), b2)
  end.

Definition b_reachable (b : Breaker) : Prop := ∃ es, (b_run newBreaker es).2 = b.

(** The invariant: the counters agree with the state, and the log ends with
    the event of the last transition. *)
Record b_inv (b : Breaker) : Prop := {
  bi_closed : b_state b = closed → 0 <= consecutiveFailures b < threshold o ∧ halfOpenInFlight b = false;
  bi_open : b_state b = open → consecutiveFailures b = threshold o ∧ halfOpenInFlight b = false;
  bi_half : b_state b = half_open → halfOpenInFlight b = true;
  bi_log : b_state b = closed ↔ last (b_log b) ≠ Some redis_circuit_open }.

Context (Hthr : 0 < threshold o).

Lemma newBreaker_inv : b_inv newBreaker.
Proof. by split. Qed.

Lemma mint_inv b : b_inv b → b_state b ≠ closed → b_inv (mintProbeTicket b).1.
Proof.
  intros [Hc Ho Hh Hl] Hne. split; simpl; try done.
  split; [done|]. intros H. by apply Hl in H.
Qed.

Lemma open_inv b t : b_inv b → b_inv (openBreaker b t).
Proof.
  intros [Hc Ho Hh Hl]. split; simpl; try done.
  split; [done|]. case_bool_decide as E; [|by rewrite last_snoc].
  intros H. apply Hl in H. by rewrite E in H.
Qed.

Lemma tryAcquire_inv b t : b_inv b → b_inv (tryAcquire b t).2.
Proof.
  intros Hb. unfold tryAcquire. destruct (b_state b) eqn:E; [done| |].
  - case_bool_decide; [|done]. apply (mint_inv b Hb). by rewrite E.
  - rewrite (bi_half _ Hb E). done.
Qed.

Lemma recordSuccess_inv b p : b_inv b → b_inv (recordSuccess b p).
Proof.
  intros Hb. unfold recordSuccess. repeat case_decide; try done.
  - split; simpl; try done. split; [intros _; by rewrite last_snoc|done].
  - split; simpl; try done. rewrite <- (bi_log _ Hb). destruct (b_state b); done.
Qed.

Lemma recordFailure_inv b p t : b_inv b → b_inv (recordFailure b p t).
Proof.
  intros Hb. unfold recordFailure. case_decide as E1; [case_decide; [done|by apply open_inv]|].
  destruct Hb as [Hc Ho Hh Hl]. case_decide as E2.
  - split; simpl; try done. split; [done|]. case_bool_decide as E; [|by rewrite last_snoc].
    intros H. apply Hl in H. by rewrite E in H.
  - split; simpl; try done.
    + intros E. destruct (Hc E). split; [lia|done].
    + intros E. destruct (Ho E) as [E3 _]. lia.
Qed.

Lemma b_step_inv b e : b_inv b → b_inv (b_step b e).2.
Proof.
  intros Hb. destruct e as [t|p t|p t]; simpl; [|by apply recordSuccess_inv|by apply recordFailure_inv].
  pose proof (tryAcquire_inv b t Hb). by destruct (tryAcquire b t) as [[]].
Qed.

Lemma b_run_inv es b : b_inv b → b_inv (b_run b es).2.
Proof.
  revert b. induction es as [|e es IH]; intros b Hb; [done|]. simpl.
  pose proof (b_step_inv b e Hb) as H1. destruct (b_step b e) as [adm b1].
  specialize (IH b1 H1). by destruct (b_run b1 es).
Qed.

Lemma b_reachable_inv b : b_reachable b → b_inv b.
Proof. intros [es <-]. apply b_run_inv, newBreaker_inv. Qed.

(** A call that brings no news of Redis: a refused or early attempt, or the
    result of a command that is not the current probe. *)
Definition straggler (b : Breaker) (e : b_event) : Prop :=
  match e with
  | EvTry t => b_state b = open → t - openedAt b < openMs o
  | EvSuccess p _ | EvFailure p _ => b_state b = half_open → p ≠ Some (probeGeneration b)
  end.

Lemma straggler_step b e : b_inv b → b_state b ≠ closed → straggler b e → b_step b e = (false, b).
Proof.
  intros [Hc Ho Hh Hl] Hne Hs. destruct e as [t|p t|p t]; simpl in *.
  - unfold tryAcquire. destruct (b_state b); [done| |].
    + rewrite bool_decide_false; [done|]. specialize (Hs eq_refl). lia.
    + by rewrite Hh.
  - unfold recordSuccess. destruct (b_state b) eqn:E; [done|done|].
    rewrite decide_False by done. rewrite decide_True; [done|]. split; [done|by apply Hs].
  - unfold recordFailure, openBreaker. destruct b as [st n t0 fl g l]. simpl in *.
    destruct st; [done| |].
    + destruct (Ho eq_refl) as [-> ->]. rewrite decide_False by done.
      rewrite decide_True by lia. done.
    + rewrite decide_True by done. rewrite decide_True; [done|]. by apply Hs.
Qed.

Lemma stragglers_run b es : b_inv b → b_state b ≠ closed → Forall (straggler b) es →
  b_run b es = (0%nat, b).
Proof.
  intros Hb Hne. induction 1 as [|e es He Hes IH]; [done|].
  cbn [b_run]. rewrite (straggler_step b e Hb Hne He), IH. done.
Qed.

End breaker.

(** ** The specification: the breaker counts a run of failures *)

(** The failures since the last success, continuing a run of [n]. *)
Fixpoint failure_run (n : Z) (es : list b_event) : Z :=
  match es with
  | [] => n
  | EvTry _ :: es' => failure_run n es'
  | EvSuccess _ _ :: es' => failure_run 0 es'
  | EvFailure _ _ :: es' => failure_run (n + 1) es'
  end.

(** The run stays below the threshold all along. *)
Fixpoint below (o : BreakerOptions) (n : Z) (es : list b_event) : Prop :=
  n < threshold o ∧
  match es with
  | [] => True
  | EvTry _ :: es' => below o n es'
  | EvSuccess _ _ :: es' => below o 0 es'
  | EvFailure _ _ :: es' => below o (n + 1) es'
  end.

Definition attempts (es : list b_event) : nat :=
  length (List.filter (λ e, match e with EvTry _ => true | _ => false end) es).

Definition closed_with (g : Z) (l : list BreakerLog) (t0 n : Z) : Breaker := mkBreaker closed n t0 false g l.

Lemma below_run o es g l t0 n : below o n es →
  b_run o (closed_with g l t0 n) es = (attempts es, closed_with g l t0 (failure_run n es)).
Proof.
  revert n. induction es as [|e es IH]; intros n [Hn Hes]; [done|].
  destruct e as [t|p t|p t]; cbn [b_run failure_run].
  - change (b_step o (closed_with g l t0 n) (EvTry t)) with (true, closed_with g l t0 n).
    cbn iota. by rewrite (IH n Hes).
  - change (b_step o (closed_with g l t0 n) (EvSuccess p t)) with (false, closed_with g l t0 0).
    cbn iota. by rewrite (IH 0 Hes).
  - assert (b_step o (closed_with g l t0 n) (EvFailure p t) = (false, closed_with g l t0 (n + 1))) as ->.
    { simpl. unfold recordFailure. rewrite decide_False by done. simpl.
      rewrite decide_False; [done|]. destruct es as [|[]]; destruct Hes; lia. }
    by rewrite (IH (n + 1) Hes).
Qed.

Lemma below_end o n es : below o n es → failure_run n es < threshold o.
Proof. revert n. induction es as [|[]]; intros n [Hn Hes]; simpl; [done|auto..]. Qed.

(** The breaker opens on exactly the [threshold]-th failure in a row. As
    long as no run of failures reaches the threshold the breaker is closed and
    admits every attempt, whatever tickets the results carry; the failure that
    completes a run opens it, starting the cool-down at that failure. *)
Theorem breaker_opens_at_threshold o es p t :
  0 < threshold o → below o 0 es →
  (b_run o newBreaker es).1 = attempts es ∧
  b_state (b_run o newBreaker es).2 = closed ∧
  let b := recordFailure o (b_run o newBreaker es).2 p t in
  (b_state b = open ↔ failure_run 0 es + 1 = threshold o) ∧
  (b_state b = open → openedAt b = t ∧ last (b_log b) = Some redis_circuit_open).
Proof.
  intros Hthr Hb. pose proof (below_end o 0 es Hb) as Hlt.
  change newBreaker with (closed_with 0 [] 0 0). rewrite (below_run o es 0 [] 0 0 Hb). simpl.
  split; [done|]. split; [done|]. unfold recordFailure. rewrite decide_False by done. simpl.
  case_decide as E; simpl; [|split; [split; [done|lia]|done]].
  split; [split; [lia|done]|]. done.
Qed.

(** While the breaker is open nothing moves it: before the cool-down ends
    every attempt is refused, and the results of commands admitted earlier
    neither close it nor restart the cool-down. The first attempt after it is
    admitted alone, with a fresh ticket; from then on every attempt is refused
    and every result without that ticket ignored, for however long, until the
    ticket settles: a success closes the breaker, a failure opens it again
    from that moment. *)
Theorem breaker_single_probe o b before t after t' :
  0 < threshold o → b_reachable o b → b_state b = open →
  Forall (λ e, ev_time e < openedAt b + openMs o) before →
  openedAt b + openMs o <= t →
  ∃ b1 g, b_run o b before = (0%nat, b) ∧
    tryAcquire o b t = (true, Some g, b1) ∧ g = probeGeneration b + 1 ∧
    (Forall (λ e, match e with EvTry _ => True | EvSuccess p _ | EvFailure p _ => p ≠ Some g end) after →
      b_run o b1 after = (0%nat, b1)) ∧
    b_state (recordSuccess b1 (Some g)) = closed ∧ consecutiveFailures (recordSuccess b1 (Some g)) = 0 ∧
    b_state (recordFailure o b1 (Some g) t') = open ∧ openedAt (recordFailure o b1 (Some g) t') = t'.
Proof.
  intros Hthr Hb Ho Hbefore Ht. pose proof (b_reachable_inv o Hthr b Hb) as Hi.
  exists (mintProbeTicket b).1, (probeGeneration b + 1).
  split; [|split; [|split; [done|split]]].
  - apply stragglers_run; [done|by rewrite Ho|]. eapply Forall_impl; [exact Hbefore|].
    intros [u|p u|p u] Hu; simpl in *; rewrite Ho; [lia|done|done].
  - unfold tryAcquire. rewrite Ho, bool_decide_true by lia. done.
  - intros Hafter. apply stragglers_run; [apply (mint_inv o b Hi); by rewrite Ho|done|].
    eapply Forall_impl; [exact Hafter|]. intros [u|p u|p u] Hu; simpl in *; [done|by intros _..].
  - unfold recordSuccess, recordFailure. simpl. repeat case_decide; simpl; naive_solver.
Qed.

(** A default breaker after five failures. *)
Definition demo_failures : list b_event :=
  [EvTry 10; EvFailure None 20; EvFailure None 21; EvFailure None 22; EvFailure None 23; EvFailure None 24].

Definition demo_open : Breaker := (b_run DEFAULT_OPTIONS newBreaker demo_failures).2.

Lemma breaker_opens_at_threshold_witness :
  b_state (recordFailure DEFAULT_OPTIONS
             (b_run DEFAULT_OPTIONS newBreaker [EvFailure None 1; EvSuccess None 2; EvFailure None 3]).2 None 4) = open
  ↔ 1 + 1 = 5.
Proof.
  refine (proj1 (proj2 (proj2 (breaker_opens_at_threshold DEFAULT_OPTIONS
    [EvFailure None 1; EvSuccess None 2; EvFailure None 3] None 4 _ _)))); [reflexivity|].
  repeat split; simpl; lia.
Defined.

Lemma breaker_single_probe_witness :
  ∃ b1 g, b_run DEFAULT_OPTIONS demo_open [EvTry 5000; EvSuccess None 5020] = (0%nat, demo_open) ∧
    tryAcquire DEFAULT_OPTIONS demo_open 5024 = (true, Some g, b1) ∧
    b_run DEFAULT_OPTIONS b1 [EvTry 99999; EvFailure None 99999] = (0%nat, b1).
Proof.
  edestruct (breaker_single_probe DEFAULT_OPTIONS demo_open [EvTry 5000; EvSuccess None 5020] 5024
    [EvTry 99999; EvFailure None 99999] 0) as (b1 & g & H1 & H2 & _ & H3 & _).
  - reflexivity.
  - exists demo_failures. reflexivity.
  - vm_compute. reflexivity.
  - repeat constructor; vm_compute; reflexivity.
  - vm_compute. intros H. discriminate H.
  - exists b1, g. split; [exact H1|]. split; [exact H2|]. apply H3.
    constructor; [exact I|]. constructor; [intros H; discriminate H|constructor].
Defined.

(** [assertClosed] lets the probe through and loses its ticket: no result can
    settle it, so the breaker refuses every attempt from then on. *)
Theorem assertClosed_probe_wedges :
  ∃ b b', b_reachable DEFAULT_OPTIONS b ∧ assertClosed DEFAULT_OPTIONS b 6000 = (Ok tt, b') ∧
    ∀ es, Forall (λ e, match e with EvTry _ => True | EvSuccess p _ | EvFailure p _ => p = None end) es →
      b_run DEFAULT_OPTIONS b' es = (0%nat, b').
Proof.
  exists demo_open, (mintProbeTicket demo_open).1.
  assert (Hr : b_reachable DEFAULT_OPTIONS demo_open) by (by exists demo_failures).
  split; [exact Hr|]. split; [vm_compute; reflexivity|].
  intros es Hes. apply stragglers_run.
  - apply mint_inv; [|vm_compute; intros H; discriminate H]. by apply b_reachable_inv.
  - intros H. discriminate H.
  - eapply Forall_impl; [exact Hes|]. intros [u|p u|p u] Hp; simpl in *; [done|by subst p..].
Qed.

(** ** The acquire error budget *)

Record AcquireErrorBudget := mkBudget { firstErrorAt : option Z }.

Definition recordError (budgetMs : Z) (b : AcquireErrorBudget) (t : Z) : bool * AcquireErrorBudget :=
  let t0 := default t (firstErrorAt b) in
  (bool_decide (t - t0 >= budgetMs), mkBudget (Some t0)).

Definition reset (b : AcquireErrorBudget) : AcquireErrorBudget := mkBudget None.

Definition DEFAULT_ACQUIRE_ERROR_BUDGET_MS : Z := 4000.

(** The answers of [recordError] to errors at [ts], none followed by a reset. *)
Fixpoint budget_run (budgetMs : Z) (b : AcquireErrorBudget) (ts : list Z) : list bool :=
  match ts with
  | [] => []
  | t :: ts' => let '(r, b') := recordError budgetMs b t in r :: budget_run budgetMs b' ts'
  end.

Lemma budget_run_from budgetMs t0 ts :
  budget_run budgetMs (mkBudget (Some t0)) ts = map (λ t, bool_decide (t - t0 >= budgetMs)) ts.
Proof. induction ts as [|t ts IH]; [done|]. simpl. by rewrite IH. Qed.

(** The error budget of an acquire call is a window that starts at the
    first error after the last successful call: the first error never exhausts
    a positive budget, and a later one does exactly when the window is over. *)
Theorem error_budget_window budgetMs b t0 ts :
  0 < budgetMs →
  budget_run budgetMs (reset b) (t0 :: ts) = false :: map (λ t, bool_decide (t0 + budgetMs <= t)) ts.
Proof.
  intros Hb. cbn [budget_run]. unfold recordError. simpl. rewrite budget_run_from.
  rewrite bool_decide_false by lia. f_equal. apply map_ext. intros t.
  apply bool_decide_ext. lia.
Qed.

Lemma error_budget_window_witness :
  budget_run DEFAULT_ACQUIRE_ERROR_BUDGET_MS (reset (mkBudget None)) [100; 4099; 4100] = [false; false; true].
Proof.
  rewrite (error_budget_window DEFAULT_ACQUIRE_ERROR_BUDGET_MS (mkBudget None) 100 [4099; 4100]); [reflexivity|].
  vm_compute. reflexivity.
Defined.
