(* ===== verification/DistLock.v ===== *)
(** The distributed readers-writer lock (src/src/api/distributed-rw-lock.ts,
    with src/src/api/distributed-lock.ts and src/src/api/exec-lock-config.ts).

    [RState] is what Redis stores under the two keys of a sandbox: the writer
    flag with its expiry and the sorted set of reader tokens with their scores.
    The Lua scripts are functions on it, run atomically at the server's clock;
    the commands they use ([SET NX PX], [GET], [PEXPIRE], [DEL], [ZADD],
    [ZREM], [ZSCORE], [ZREMRANGEBYSCORE], [ZCARD]) have their documented
    meaning, a key past its expiry being absent. [DSys] adds the clients of
    several replicas; [d_step] is one script execution, the passing of time or
    the loss of a client. A script may run and its answer be lost. The scripts on
    readers compare times read from the clocks of the replicas ([Date.now()]),
    not from the server's; [skew] is the most by which a replica's clock may be
    ahead of the server's, so that an argument [now_ms] is any reading not later
    than the execution plus [skew]. Clocks may lag by any amount and may be set
    back. *)

From S2P Require Import Prelude Breaker.

Record RState := mkR { writer : option (string * Z); readers : list (string * Z) }.

(** The value of the writer key at time [now]. *)
Definition live_writer (now : Z) (r : RState) : option string :=
  match writer r with
  | Some (tk, e) => if decide (now < e) then Some tk else None
  | None => None
  end.

(** [ZREMRANGEBYSCORE readers -inf now_ms] *)
Definition reap (now_ms : Z) (zs : list (string * Z)) : list (string * Z) :=
  List.filter (λ p, negb (bool_decide (p.2 <= now_ms))) zs.

Definition ACQUIRE_SHARED (now : Z) (token : string) (now_ms expire_at : Z) (r : RState) : Z * RState :=
  let zs := reap now_ms (readers r) in
  match live_writer now r with
  | Some _ => (0, mkR (writer r) zs)
  | None => (1, mkR (writer r) (jset token expire_at zs))
  end.

Definition RELEASE_SHARED (token : string) (r : RState) : RState := mkR (writer r) (jdel token (readers r)).

Definition RENEW_SHARED (token : string) (expire_at : Z) (r : RState) : Z * RState :=
  match jget token (readers r) with
  | Some _ => (1, mkR (writer r) (jset token expire_at (readers r)))
  | None => (0, r)
  end.

Definition ACQUIRE_EXCLUSIVE_FLAG (now : Z) (token : string) (lease_ms : Z) (r : RState) : bool * RState :=
  match live_writer now r with
  | Some _ => (false, r)
  | None => (true, mkR (Some (token, now + lease_ms)) (readers r))
  end.

Definition CHECK_READERS_DRAINED (now : Z) (token : string) (now_ms : Z) (r : RState) : Z * RState :=
  if decide (live_writer now r = Some token)
  then let zs := reap now_ms (readers r) in (Z.of_nat (length zs), mkR (writer r) zs)
  else (-1, r).

Definition RENEW_EXCLUSIVE (now : Z) (token : string) (lease_ms : Z) (r : RState) : Z * RState :=
  if decide (live_writer now r = Some token)
  then (1, mkR (Some (token, now + lease_ms)) (readers r))
  else (0, r).

Definition RELEASE_EXCLUSIVE (now : Z) (token : string) (r : RState) : RState :=
  if decide (live_writer now r = Some token) then mkR None (readers r) else r.

Record LockOptions := mkLockOptions {
  leaseMs : Z; renewMs : Z; acquireTimeoutMs : Z; acquireRetryMs : Z; readerLeaseMs : Z; errorBudgetMs : Z }.

Definition lock_error : Type := string.

(** The checks in their order; the message is the name of the rule. *)
Definition assertOptions (o : LockOptions) : res lock_error unit :=
  if decide (leaseMs o <= 0) then Err "leaseMs must be > 0"
  else if decide (renewMs o <= 0) then Err "renewMs must be > 0"
  else if decide (renewMs o >= leaseMs o) then Err "renewMs must be strictly less than leaseMs"
  else if decide (acquireTimeoutMs o < 0) then Err "acquireTimeoutMs must be >= 0"
  else if decide (acquireRetryMs o <= 0) then Err "acquireRetryMs must be > 0"
  else if decide (readerLeaseMs o <= 0) then Err "readerLeaseMs must be > 0"
  else if decide (errorBudgetMs o < 0) then Err "errorBudgetMs must be >= 0"
  else if decide (renewMs o >= readerLeaseMs o) then Err "renewMs must be strictly less than readerLeaseMs"
  else Ok tt.

Definition assertAcquireTimeoutAboveLeases (o : LockOptions) : res lock_error unit :=
  if decide (acquireTimeoutMs o <= leaseMs o) then Err "ERR_ACQUIRE_TIMEOUT_INVARIANT"
  else if decide (acquireTimeoutMs o <= readerLeaseMs o) then Err "ERR_ACQUIRE_TIMEOUT_INVARIANT"
  else Ok tt.

(** ** The clients of one sandbox *)

Inductive CPhase := CFlag | CWriting | CReading.

#[export] Instance CPhase_eq_dec : EqDecision CPhase.
Proof. solve_decision. Defined.

(** [c_expire] is the expiry the client can count on: that of the lease it last
    heard of, or an earlier one it has asked for since without hearing of it. *)
Record Client := mkClient { c_token : string; c_phase : CPhase; c_expire : Z }.

Record DSys := mkDSys { clock : Z; redis : RState; clients : list Client }.

Definition d_start (now : Z) : DSys := mkDSys now (mkR None []) [].

Definition set_client (c : Client) (cs : list Client) : list Client :=
  map (λ c', if bool_decide (c_token c' = c_token c) then c else c') cs.

Definition drop_client (tk : string) (cs : list Client) : list Client :=
  List.filter (λ c, negb (bool_decide (c_token c = tk))) cs.

Section system.
Context (o : LockOptions) (skew : Z).

Definition d_acquire_shared (tk : string) (now_ms : Z) (heard : bool) (s : DSys) : DSys :=
  let '(n, r) := ACQUIRE_SHARED (clock s) tk now_ms (now_ms + readerLeaseMs o) (redis s) in
  mkDSys (clock s) r
    (if bool_decide (n = 1) && heard then clients s ++ [mkClient tk CReading (now_ms + readerLeaseMs o)] else clients s).

Definition d_renew_shared (c : Client) (now_ms : Z) (heard : bool) (s : DSys) : DSys :=
  let '(n, r) := RENEW_SHARED (c_token c) (now_ms + readerLeaseMs o) (redis s) in
  mkDSys (clock s) r
    (if bool_decide (n = 1)
     then let e := now_ms + readerLeaseMs o in
          set_client (mkClient (c_token c) CReading (if heard then e else Z.min (c_expire c) e)) (clients s)
     else clients s).

Definition d_acquire_flag (tk : string) (heard : bool) (s : DSys) : DSys :=
  let '(ok, r) := ACQUIRE_EXCLUSIVE_FLAG (clock s) tk (leaseMs o) (redis s) in
  mkDSys (clock s) r (if ok && heard then clients s ++ [mkClient tk CFlag (clock s + leaseMs o)] else clients s).

Definition d_renew_exclusive (c : Client) (heard : bool) (s : DSys) : DSys :=
  let '(n, r) := RENEW_EXCLUSIVE (clock s) (c_token c) (leaseMs o) (redis s) in
  mkDSys (clock s) r
    (if bool_decide (n = 1) && heard then set_client (mkClient (c_token c) (c_phase c) (clock s + leaseMs o)) (clients s)
     else clients s).

(** [waitReadersDrained]: 0 enters the critical section. *)
Definition d_check (c : Client) (now_ms : Z) (heard : bool) (s : DSys) : DSys :=
  let '(n, r) := CHECK_READERS_DRAINED (clock s) (c_token c) now_ms (redis s) in
  mkDSys (clock s) r
    (if bool_decide (n = 0) && heard then set_client (mkClient (c_token c) CWriting (c_expire c)) (clients s)
     else clients s).

(** The [finally] of a client; [sent] is whether its release script ran. *)
Definition d_leave (c : Client) (sent : bool) (s : DSys) : DSys :=
  mkDSys (clock s)
    (if sent then match c_phase c with
                  | CReading => RELEASE_SHARED (c_token c) (redis s)
                  | _ => RELEASE_EXCLUSIVE (clock s) (c_token c) (redis s)
                  end
     else redis s)
    (drop_client (c_token c) (clients s)).

Inductive d_step : DSys → DSys → Prop :=
| ds_tick s t : clock s <= t → d_step s (mkDSys t (redis s) (clients s))
| ds_acquire_shared s tk now_ms heard : tk ∉ map c_token (clients s) → now_ms <= clock s + skew →
    d_step s (d_acquire_shared tk now_ms heard s)
| ds_renew_shared s c now_ms heard : c ∈ clients s → c_phase c = CReading → now_ms <= clock s + skew →
    d_step s (d_renew_shared c now_ms heard s)
| ds_acquire_flag s tk heard : tk ∉ map c_token (clients s) → d_step s (d_acquire_flag tk heard s)
| ds_renew_exclusive s c heard : c ∈ clients s → c_phase c ≠ CReading → d_step s (d_renew_exclusive c heard s)
| ds_check s c now_ms heard : c ∈ clients s → c_phase c = CFlag → now_ms <= clock s + skew →
    d_step s (d_check c now_ms heard s)
| ds_leave s c sent : c ∈ clients s → d_step s (d_leave c sent s).

Definition d_reachable (t : Z) : DSys → Prop := rtc d_step (d_start t).

(** The lease of a client has not run out: a writer's counts by the server's
    clock; a reader's entry may be reaped by any replica, so its lease counts as
    running while no replica's clock can have passed it. *)
Definition lease_runs (s : DSys) (c : Client) : Prop :=
  match c_phase c with
  | CReading => clock s + skew < c_expire c
  | _ => clock s < c_expire c
  end.
End system.

(** ** The invariant *)

Section safety.
Context (o : LockOptions) (skew : Z).

Record d_inv (s : DSys) : Prop := {
  di_tokens : NoDup (map c_token (clients s));
  di_readers : jwf (readers (redis s));
  di_reading c : c ∈ clients s → c_phase c = CReading → clock s + skew < c_expire c →
    ∃ e, jget (c_token c) (readers (redis s)) = Some e ∧ c_expire c <= e;
  di_flag c : c ∈ clients s → c_phase c ≠ CReading → clock s < c_expire c →
    ∃ e, writer (redis s) = Some (c_token c, e) ∧ c_expire c <= e;
  di_lease c : c ∈ clients s → c_phase c ≠ CReading → c_expire c <= clock s + leaseMs o;
  di_drained c : c ∈ clients s → c_phase c = CWriting → live_writer (clock s) (redis s) = Some (c_token c) →
    readers (redis s) = [] }.

Lemma reap_wf t zs : jwf zs → jwf (reap t zs).
Proof.
  unfold jwf, reap. induction zs as [|p zs IH]; simpl; [done|]. intros [Hni Hnd]%NoDup_cons.
  destruct (negb _); simpl; [|by apply IH]. constructor; [|by apply IH].
  intros (q & E & Hq)%list_elem_of_fmap. apply Hni, list_elem_of_fmap. exists q. split; [done|].
  by apply list_elem_of_In, filter_In in Hq as [?%list_elem_of_In _].
Qed.

Lemma reap_get t k e zs : jwf zs → jget k zs = Some e → t < e → jget k (reap t zs) = Some e.
Proof.
  intros Hwf Hg Hlt. apply jget_Some; [by apply reap_wf|]. apply list_elem_of_In, filter_In.
  split; [by apply list_elem_of_In, jget_elem|]. simpl. by rewrite bool_decide_false by lia.
Qed.

(** A live flag is the one of a client whose lease is not over. *)
Lemma flag_live s c : d_inv s → c ∈ clients s → c_phase c ≠ CReading → clock s < c_expire c →
  live_writer (clock s) (redis s) = Some (c_token c).
Proof.
  intros Hi Hc Hp Hl. destruct (di_flag _ Hi c Hc Hp Hl) as (e & E & He). unfold live_writer. rewrite E.
  by rewrite decide_True by lia.
Qed.

Lemma live_later t t' r tk : t <= t' → live_writer t' r = Some tk → live_writer t r = Some tk.
Proof.
  intros Ht. unfold live_writer. destruct (writer r) as [[k e]|]; [|done]. do 2 case_decide; try done; lia.
Qed.

(** Steps of the server that leave the clients alone. *)
Lemma inv_redis s r : d_inv s → jwf (readers r) →
  (∀ c e, c ∈ clients s → c_phase c = CReading → clock s + skew < e → jget (c_token c) (readers (redis s)) = Some e →
    ∃ e', jget (c_token c) (readers r) = Some e' ∧ (c_expire c <= e → c_expire c <= e')) →
  (∀ c e, c ∈ clients s → c_phase c ≠ CReading → clock s < e → writer (redis s) = Some (c_token c, e) → c_expire c <= e →
    ∃ e', writer r = Some (c_token c, e') ∧ c_expire c <= e') →
  (∀ c, c ∈ clients s → c_phase c = CWriting → live_writer (clock s) r = Some (c_token c) →
    live_writer (clock s) (redis s) = Some (c_token c) ∧ (readers (redis s) = [] → readers r = [])) →
  d_inv (mkDSys (clock s) r (clients s)).
Proof.
  intros [H1 H2 H3 H4 H5 H6] Hwf Hr Hw Hd. split; simpl; try done.
  - intros c Hc Hp Hl. destruct (H3 c Hc Hp Hl) as (e & E & He).
    destruct (Hr c e Hc Hp ltac:(lia) E) as (e' & E' & He'). eauto.
  - intros c Hc Hp Hl. destruct (H4 c Hc Hp Hl) as (e & E & He). exact (Hw c e Hc Hp ltac:(lia) E He).
  - intros c Hc Hp Hl. destruct (Hd c Hc Hp Hl) as [Hl' Hemp]. apply Hemp. by eapply H6.
Qed.

Lemma set_client_tokens c cs : map c_token (set_client c cs) = map c_token cs.
Proof.
  unfold set_client. rewrite map_map. apply map_ext_in. intros c' _. by case_bool_decide.
Qed.

Lemma set_client_in c c' cs : c' ∈ set_client c cs → c' = c ∨ (c' ∈ cs ∧ c_token c' ≠ c_token c).
Proof.
  unfold set_client. intros (x & <- & Hx)%list_elem_of_In%in_map_iff. case_bool_decide; [by left|].
  right. split; [by apply list_elem_of_In|done].
Qed.

(** A client that hears of its new lease or phase. *)
Lemma inv_set s c : d_inv s → c_token c ∈ map c_token (clients s) →
  (c_phase c = CReading → clock s + skew < c_expire c → ∃ e, jget (c_token c) (readers (redis s)) = Some e ∧ c_expire c <= e) →
  (c_phase c ≠ CReading → clock s < c_expire c → ∃ e, writer (redis s) = Some (c_token c, e) ∧ c_expire c <= e) →
  (c_phase c ≠ CReading → c_expire c <= clock s + leaseMs o) →
  (c_phase c = CWriting → live_writer (clock s) (redis s) = Some (c_token c) → readers (redis s) = []) →
  d_inv (mkDSys (clock s) (redis s) (set_client c (clients s))).
Proof.
  intros [H1 H2 H3 H4 H5 H6] _ G1 G2 G3 G4. split; simpl; try done.
  - by rewrite set_client_tokens.
  - intros c' [->|[Hc' _]]%set_client_in; [done|by apply H3].
  - intros c' [->|[Hc' _]]%set_client_in; [done|by apply H4].
  - intros c' [->|[Hc' _]]%set_client_in; [done|by apply H5].
  - intros c' [->|[Hc' _]]%set_client_in; [done|by apply H6].
Qed.

Lemma set_client_twice c c' cs : c_token c' = c_token c → set_client c (set_client c' cs) = set_client c cs.
Proof.
  intros E. unfold set_client. rewrite map_map. apply map_ext. intros x.
  destruct (decide (c_token x = c_token c)) as [Ex|Ex].
  - by rewrite (bool_decide_true (c_token x = c_token c')), !bool_decide_true by congruence.
  - by rewrite (bool_decide_false (c_token x = c_token c')), !bool_decide_false by congruence.
Qed.

(** A new client. *)
Lemma inv_add s c : d_inv s → c_token c ∉ map c_token (clients s) →
  (c_phase c = CReading → clock s + skew < c_expire c → ∃ e, jget (c_token c) (readers (redis s)) = Some e ∧ c_expire c <= e) →
  (c_phase c ≠ CReading → clock s < c_expire c → ∃ e, writer (redis s) = Some (c_token c, e) ∧ c_expire c <= e) →
  (c_phase c ≠ CReading → c_expire c <= clock s + leaseMs o) → c_phase c ≠ CWriting →
  d_inv (mkDSys (clock s) (redis s) (clients s ++ [c])).
Proof.
  intros [H1 H2 H3 H4 H5 H6] Hn G1 G2 G3 G4.
  assert (Hin : ∀ c', c' ∈ clients s ++ [c] → c' ∈ clients s ∨ c' = c).
  { intros c' [Hc'|Hc']%elem_of_app; [by left|right]. by apply list_elem_of_singleton in Hc'. }
  split; simpl; try done.
  - rewrite map_app. apply NoDup_app. split; [done|]. split; [|apply NoDup_singleton].
    intros x Hx Hx'. apply list_elem_of_singleton in Hx' as ->. done.
  - intros c' [Hc'| ->]%Hin; [by apply H3|done].
  - intros c' [Hc'| ->]%Hin; [by apply H4|done].
  - intros c' [Hc'| ->]%Hin; [by apply H5|done].
  - intros c' [Hc'| ->]%Hin; [by apply H6|done].
Qed.

Lemma token_ne s c tk : tk ∉ map c_token (clients s) → c ∈ clients s → c_token c ≠ tk.
Proof. intros Hn Hc <-. apply Hn. by apply list_elem_of_In, in_map, list_elem_of_In. Qed.

Lemma token_in s c : c ∈ clients s → c_token c ∈ map c_token (clients s).
Proof. intros Hc. by apply list_elem_of_In, in_map, list_elem_of_In. Qed.

(** Two clients with one token are one client. *)
Lemma token_inj s c c' : d_inv s → c ∈ clients s → c' ∈ clients s → c_token c = c_token c' → c = c'.
Proof.
  intros [H1 _ _ _ _ _] Hc Hc' E. revert H1 Hc Hc'. generalize (clients s). intros cs.
  induction cs as [|x cs IH]; simpl; [by intros _ ?%elem_of_nil|]. intros [Hni Hnd]%NoDup_cons.
  intros [->|Hc]%elem_of_cons [->|Hc']%elem_of_cons; [done| | |by apply IH].
  - exfalso. apply Hni. rewrite E. by apply list_elem_of_In, in_map, list_elem_of_In.
  - exfalso. apply Hni. rewrite <- E. by apply list_elem_of_In, in_map, list_elem_of_In.
Qed.

(** ** Every step *)

Lemma d_start_inv t : d_inv (d_start t).
Proof. split; simpl; try by intros c ?%elem_of_nil. all: constructor. Qed.

Lemma tick_inv s t : d_inv s → clock s <= t → d_inv (mkDSys t (redis s) (clients s)).
Proof.
  intros [H1 H2 H3 H4 H5 H6] Ht. split; simpl; try done.
  - intros c Hc Hp Hl. apply H3; [done|done|lia].
  - intros c Hc Hp Hl. apply H4; [done|done|lia].
  - intros c Hc Hp. specialize (H5 c Hc Hp). lia.
  - intros c Hc Hp Hl. apply (H6 c); [done|done|]. by eapply live_later.
Qed.

Lemma acquire_shared_inv s tk n hd : d_inv s → tk ∉ map c_token (clients s) → n <= clock s + skew →
  d_inv (d_acquire_shared o tk n hd s).
Proof.
  intros Hi Hn Hc. unfold d_acquire_shared, ACQUIRE_SHARED. pose proof (di_readers _ Hi) as Hwf.
  assert (Hkeep : ∀ c e, c ∈ clients s → c_phase c = CReading → clock s + skew < e →
    jget (c_token c) (readers (redis s)) = Some e → jget (c_token c) (reap n (readers (redis s))) = Some e).
  { intros c e _ _ He Hg. apply reap_get; [done|done|lia]. }
  destruct (live_writer (clock s) (redis s)) as [w|] eqn:El; simpl.
  - apply inv_redis; simpl; [done|by apply reap_wf| | |].
    + intros c e Hin Hp He Hg. exists e. split; [by apply Hkeep|done].
    + intros c e Hin Hp He Hw. eauto.
    + intros c Hin Hp Hl. split; [done|]. by intros ->.
  - assert (Hi' : d_inv (mkDSys (clock s) (mkR (writer (redis s)) (jset tk (n + readerLeaseMs o) (reap n (readers (redis s))))) (clients s))).
    { apply inv_redis; simpl; [done|by apply jset_wf, reap_wf| | |].
      - intros c e Hin Hp He Hg. exists e. split; [|done]. rewrite jget_jset_ne by (apply not_eq_sym; by eapply token_ne). by apply Hkeep.
      - intros c e Hin Hp He Hw. eauto.
      - intros c Hin Hp Hl. exfalso. unfold live_writer in *. simpl in Hl. congruence. }
    destruct hd; [|done]. apply (inv_add _ (mkClient tk CReading (n + readerLeaseMs o)) Hi'); simpl; try done.
    intros _ _. exists (n + readerLeaseMs o). split; [apply jget_jset_eq|lia].
Qed.

(** Whether it hears of the renewal or not, the reader counts on no more than
    the server stores. *)
Lemma renew_shared_inv s c n hd : d_inv s → c ∈ clients s → c_phase c = CReading → d_inv (d_renew_shared o c n hd s).
Proof.
  intros Hi Hc Hp. unfold d_renew_shared, RENEW_SHARED.
  destruct (jget (c_token c) (readers (redis s))) as [e0|] eqn:Eg; simpl; [|by destruct s].
  set (e := n + readerLeaseMs o). set (low := mkClient (c_token c) CReading (Z.min (c_expire c) e)).
  assert (Hi1 : d_inv (mkDSys (clock s) (redis s) (set_client low (clients s)))).
  { apply inv_set; simpl; try done; [by apply token_in|]. intros _ Hl.
    destruct (di_reading _ Hi c Hc Hp ltac:(lia)) as (e1 & E1 & He1). exists e1. split; [done|lia]. }
  assert (Hi2 : d_inv (mkDSys (clock s) (mkR (writer (redis s)) (jset (c_token c) e (readers (redis s)))) (set_client low (clients s)))).
  { apply (inv_redis (mkDSys (clock s) (redis s) (set_client low (clients s)))); simpl; [done|apply jset_wf, (di_readers _ Hi)| | |].
    - intros c' e' [->|[Hin Hne]]%set_client_in Hp' He Hg.
      + exists e. split; [apply jget_jset_eq|]. intros _. simpl. lia.
      + exists e'. split; [|done]. by rewrite jget_jset_ne by (intros E; by apply Hne).
    - intros c' e' Hin Hp' He Hw. eauto.
    - intros c' Hin Hp' Hl. split; [done|]. intros E. by rewrite E in Eg. }
  destruct hd; [|exact Hi2]. rewrite <- (set_client_twice (mkClient (c_token c) CReading e) low) by done.
  apply (inv_set _ (mkClient (c_token c) CReading e) Hi2); simpl; try done.
  - rewrite set_client_tokens. by apply token_in.
  - intros _ _. exists e. split; [apply jget_jset_eq|lia].
Qed.

Lemma acquire_flag_inv s tk hd : d_inv s → tk ∉ map c_token (clients s) → d_inv (d_acquire_flag o tk hd s).
Proof.
  intros Hi Hn. unfold d_acquire_flag, ACQUIRE_EXCLUSIVE_FLAG.
  destruct (live_writer (clock s) (redis s)) as [w|] eqn:El; simpl; [by destruct s|].
  assert (Hi' : d_inv (mkDSys (clock s) (mkR (Some (tk, clock s + leaseMs o)) (readers (redis s))) (clients s))).
  { apply inv_redis; simpl; [done|apply (di_readers _ Hi)|eauto| |].
    - intros c e Hin Hp He Hw. exfalso. unfold live_writer in El. rewrite Hw in El. by rewrite decide_True in El.
    - intros c Hin Hp Hl. exfalso. unfold live_writer in Hl. simpl in Hl. case_decide; [|done].
      injection Hl as E. by apply (token_ne s c tk Hn Hin). }
  destruct hd; [|done]. apply (inv_add _ (mkClient tk CFlag (clock s + leaseMs o)) Hi'); simpl; try done.
  intros _ _. eexists. split; [done|lia].
Qed.

Lemma renew_exclusive_inv s c hd : d_inv s → c ∈ clients s → c_phase c ≠ CReading → d_inv (d_renew_exclusive o c hd s).
Proof.
  intros Hi Hc Hp. unfold d_renew_exclusive, RENEW_EXCLUSIVE. case_decide as El; simpl; [|by destruct s].
  assert (Hi' : d_inv (mkDSys (clock s) (mkR (Some (c_token c, clock s + leaseMs o)) (readers (redis s))) (clients s))).
  { apply inv_redis; simpl; [done|apply (di_readers _ Hi)|eauto| |].
    - intros c' e Hin Hp' He Hw Hexp. unfold live_writer in El. rewrite Hw in El. rewrite decide_True in El by done.
      injection El as El. rewrite El. eexists. split; [done|]. pose proof (di_lease _ Hi c' Hin Hp'). lia.
    - intros c' Hin Hp' Hl. split; [|done]. unfold live_writer in Hl. simpl in Hl. case_decide; [|done].
      injection Hl as Hl. by rewrite <- Hl. }
  destruct hd; [|done].
  apply (inv_set _ (mkClient (c_token c) (c_phase c) (clock s + leaseMs o)) Hi'); simpl; try done; [by apply token_in| |].
  - intros _ _. eexists. split; [done|lia].
  - intros Hw _. by apply (di_drained _ Hi c).
Qed.

Lemma check_inv s c n hd : d_inv s → c ∈ clients s → c_phase c = CFlag → n <= clock s + skew → d_inv (d_check c n hd s).
Proof.
  intros Hi Hc Hp Hn. unfold d_check, CHECK_READERS_DRAINED. case_decide as El; simpl; [|by destruct s].
  pose proof (di_readers _ Hi) as Hwf.
  assert (Hi' : d_inv (mkDSys (clock s) (mkR (writer (redis s)) (reap n (readers (redis s)))) (clients s))).
  { apply inv_redis; simpl; [done|by apply reap_wf| | |].
    - intros c' e Hin Hp' He Hg. exists e. split; [apply reap_get; [done|done|lia]|done].
    - intros c' e Hin Hp' He Hw. eauto.
    - intros c' Hin Hp' Hl. split; [done|]. by intros ->. }
  case_bool_decide as Ez; [|done]. destruct hd; [|done]. simpl.
  apply (inv_set _ (mkClient (c_token c) CWriting (c_expire c)) Hi'); simpl; try done; [by apply token_in| | |].
  - intros _ Hl. apply (di_flag _ Hi c Hc); [by rewrite Hp|done].
  - intros _. apply (di_lease _ Hi c Hc). by rewrite Hp.
  - intros _ _. destruct (reap n (readers (redis s))); [done|simpl in Ez; lia].
Qed.

Lemma drop_in tk c cs : c ∈ drop_client tk cs ↔ c ∈ cs ∧ c_token c ≠ tk.
Proof.
  unfold drop_client. rewrite !list_elem_of_In, filter_In, negb_true_iff, bool_decide_eq_false. done.
Qed.

Lemma d_leave_inv s c sent : d_inv s → c ∈ clients s → d_inv (d_leave c sent s).
Proof.
  intros Hi Hc. pose proof Hi as [H1 H2 H3 H4 H5 H6]. unfold d_leave.
  set (r := if sent then _ else _).
  assert (Hr : ∀ k, k ≠ c_token c → jget k (readers r) = jget k (readers (redis s))).
  { intros k Hk. unfold r. destruct sent; [|done]. destruct (c_phase c); unfold RELEASE_EXCLUSIVE; [by case_decide..|].
    simpl. by rewrite jget_jdel_ne. }
  assert (Hw : ∀ k e, k ≠ c_token c → clock s < e → writer (redis s) = Some (k, e) → writer r = Some (k, e)).
  { intros k e Hk He E. unfold r. destruct sent; [|done]. destruct (c_phase c); [..|done].
    all: unfold RELEASE_EXCLUSIVE; case_decide as El; [|done]; unfold live_writer in El; rewrite E in El;
      rewrite decide_True in El by done; congruence. }
  assert (Hback : ∀ k, live_writer (clock s) r = Some k → live_writer (clock s) (redis s) = Some k).
  { intros k. unfold r. destruct sent; [|done]. destruct (c_phase c); unfold RELEASE_EXCLUSIVE; try case_decide; done. }
  assert (Hemp : readers (redis s) = [] → readers r = []).
  { intros E. unfold r. destruct sent; [|done]. destruct (c_phase c); unfold RELEASE_EXCLUSIVE; simpl; [by case_decide..|by rewrite E]. }
  split; simpl.
  - eapply sublist_NoDup; [exact H1|]. unfold drop_client. generalize (clients s). intros cs.
    induction cs as [|x cs IH]; [done|]. simpl. destruct (bool_decide _); simpl; by constructor.
  - unfold r. destruct sent; [|done]. destruct (c_phase c); unfold RELEASE_EXCLUSIVE; [by case_decide..|by apply jdel_wf].
  - intros c' [Hc' Hne]%drop_in Hp Hl. rewrite Hr by done. by apply H3.
  - intros c' [Hc' Hne]%drop_in Hp Hl. destruct (H4 c' Hc' Hp Hl) as (e & E & He). exists e. split; [|done].
    apply Hw; [done|lia|done].
  - intros c' [Hc' Hne]%drop_in. by apply H5.
  - intros c' [Hc' Hne]%drop_in Hp Hl. apply Hemp, (H6 c' Hc' Hp). by apply Hback.
Qed.

Lemma d_step_inv s s' : d_step o skew s s' → d_inv s → d_inv s'.
Proof.
  destruct 1; intros Hi.
  - by apply tick_inv.
  - by apply acquire_shared_inv.
  - by apply renew_shared_inv.
  - by apply acquire_flag_inv.
  - by apply renew_exclusive_inv.
  - by apply check_inv.
  - by apply d_leave_inv.
Qed.

Lemma d_reachable_inv t s : d_reachable o skew t s → d_inv s.
Proof.
  intros H. assert (∀ s0, rtc (d_step o skew) s0 s → d_inv s0 → d_inv s) as Hgen.
  { induction 1; [done|]. eauto using d_step_inv. }
  exact (Hgen _ H (d_start_inv t)).
Qed.

(** C32: Exclusion across replicas. However the scripts of any number of
    clients interleave, with answers lost, leases lapsing, clocks set back and
    clients crashing, a writer in its critical section whose lease has not run
    out by the server's clock is alone: no other writer whose lease has not run
    out is in its critical section at that moment, and no reader whose lease is
    still more than [skew] from its end, where [skew] bounds how far the clock of
    a replica is ahead of the server's (readers are reaped by the clocks of the
    replicas; with clocks that are never ahead [skew] is 0 and every running
    lease counts). *)
Theorem distributed_exclusion t s w c : d_reachable o skew t s →
  w ∈ clients s → c_phase w = CWriting → lease_runs skew s w →
  c ∈ clients s → c_phase c ≠ CFlag → lease_runs skew s c → c = w.
Proof.
  intros Hs%d_reachable_inv Hw Hpw Hlw Hc Hpc Hlc. unfold lease_runs in Hlw, Hlc. rewrite Hpw in Hlw.
  assert (live_writer (clock s) (redis s) = Some (c_token w)) as Hlive by (apply flag_live; [done|done|by rewrite Hpw|done]).
  destruct (decide (c_phase c = CReading)) as [Hr|Hr].
  - rewrite Hr in Hlc. destruct (di_reading _ Hs c Hc Hr Hlc) as (e & E & _).
    rewrite (di_drained _ Hs w Hw Hpw Hlive) in E. done.
  - assert (clock s < c_expire c) as Hlc' by (by destruct (c_phase c)).
    apply (token_inj s); [done|done|done|].
    pose proof (flag_live s c Hs Hc Hr Hlc') as Hlive'. congruence.
Qed.
End safety.

Definition demo_lock_options : LockOptions := mkLockOptions 60000 20000 75000 50 60000 4000.

(** A writer holds the flag, a reader came before it, and neither answers any more. *)
Definition demo_crash : DSys :=
  d_acquire_flag demo_lock_options "w" true (d_acquire_shared demo_lock_options "r" 0 true (d_start 0)).

Lemma demo_crash_reachable : d_reachable demo_lock_options 1000 0 demo_crash.
Proof.
  unfold d_reachable, demo_crash.
  eapply rtc_l; [apply (ds_acquire_shared _ _ _ "r" 0 true); [apply not_elem_of_nil|discriminate]|].
  eapply rtc_l; [apply (ds_acquire_flag _ _ _ "w" true)|apply rtc_refl].
  refine (bool_decide_unpack _ _). vm_compute. exact I.
Qed.

Definition d_tick (t : Z) (s : DSys) : DSys := mkDSys t (redis s) (clients s).

(** The writer renews, the reader does not; the clock of the writer's replica is
    half a second ahead when it sees the reader's lease lapse and enters. *)
Definition demo_lapsed : DSys :=
  d_check (mkClient "w" CFlag 90000) 60000 true
    (d_tick 59500 (d_renew_exclusive demo_lock_options (mkClient "w" CFlag 60000) true (d_tick 30000 demo_crash))).

Lemma demo_lapsed_reachable : d_reachable demo_lock_options 1000 0 demo_lapsed.
Proof.
  unfold d_reachable. transitivity demo_crash; [exact demo_crash_reachable|]. unfold demo_lapsed.
  eapply rtc_l; [apply (ds_tick _ _ _ 30000); vm_compute; discriminate|].
  eapply rtc_l; [apply (ds_renew_exclusive _ _ _ (mkClient "w" CFlag 60000) true)|].
  { apply list_elem_of_further, list_elem_of_here. }
  { discriminate. }
  eapply rtc_l; [apply (ds_tick _ _ _ 59500); vm_compute; discriminate|].
  eapply rtc_l; [apply (ds_check _ _ _ (mkClient "w" CFlag 90000) 60000 true)|apply rtc_refl].
  { apply list_elem_of_further, list_elem_of_here. }
  { reflexivity. }
  { vm_compute. discriminate. }
Qed.

(** The writer is the only client in a critical section among those whose lease
    runs. *)
Lemma distributed_exclusion_witness :
  map c_token (clients demo_lapsed) = ["r"; "w"] ∧
  Forall (λ c, c_phase c = CFlag ∨ ¬ lease_runs 1000 demo_lapsed c ∨ c = mkClient "w" CWriting 90000) (clients demo_lapsed).
Proof.
  split; [vm_compute; reflexivity|]. apply Forall_forall. intros c Hc.
  destruct (decide (c_phase c = CFlag)) as [|Hp]; [by left|]. right.
  assert (Hd : lease_runs 1000 demo_lapsed c ∨ ¬ lease_runs 1000 demo_lapsed c).
  { unfold lease_runs. destruct (c_phase c); lia. }
  destruct Hd as [Hl|Hl]; [|by left]. right.
  apply (distributed_exclusion demo_lock_options 1000 0 demo_lapsed (mkClient "w" CWriting 90000) c demo_lapsed_reachable).
  - apply list_elem_of_further, list_elem_of_here.
  - reflexivity.
  - vm_compute. reflexivity.
  - exact Hc.
  - exact Hp.
  - exact Hl.
Defined.

(** The margin is needed: in that same state the lease of the reader, which was
    registered by a clock that is right, has half a second to run, and the
    writer is in its critical section. *)
Lemma fast_clock_admits_both :
  d_reachable demo_lock_options 1000 0 demo_lapsed ∧ clock demo_lapsed < 60000 ∧
  clients demo_lapsed = [mkClient "r" CReading 60000; mkClient "w" CWriting 90000].
Proof. split; [exact demo_lapsed_reachable|]. vm_compute. done. Qed.
