(* ===== verification/LockRuns.v ===== *)
(** Running under the distributed locks: the acquire loops, the heartbeat and
    the outcome of a run (src/src/api/distributed-rw-lock.ts,
    src/src/api/distributed-lock.ts).

    The three acquire loops ([acquireShared], [acquireExclusive],
    [waitReadersDrained]) and the one of [withDistributedLock] differ in the
    script they run; [acquire_loop] is their common body over the answers Redis
    gives, with the circuit breaker and the error budget they share.
    [wait_exclusive] is a writer's whole wait, its rounds answered by the scripts
    on the state they find. *)

From S2P Require Import Prelude Breaker DistLock.

(** What a round hears: the lock, contention, a lost flag; or it throws. *)
Inductive LoopReply := RDone | RBusy | RLost.

(** A round: the clock before the command and after its answer. *)
Record Attempt := mkAttempt { at_before : Z; at_reply : option LoopReply; at_after : Z }.

Inductive LoopResult := LAcquired | LTimeout | LLost | LPending.

Fixpoint acquire_loop (bo : BreakerOptions) (budgetMs deadline : Z) (rounds : list Attempt)
    (b : Breaker) (bud : AcquireErrorBudget) : LoopResult * Breaker :=
  match rounds with
  | [] => (LPending, b)
  | a :: rounds' =>
      match tryAcquire bo b (at_before a) with
      | (false, _, b1) => (LTimeout, b1)
      | (true, probe, b1) =>
          match at_reply a with
          | Some reply =>
              let b2 := recordSuccess b1 probe in
              match reply with
              | RDone => (LAcquired, b2)
              | RLost => (LLost, b2)
              | RBusy => if decide (at_after a >= deadline) then (LTimeout, b2)
                         else acquire_loop bo budgetMs deadline rounds' b2 (reset bud)
              end
          | None =>
              let b2 := recordFailure bo b1 probe (at_after a) in
              let '(exhausted, bud') := recordError budgetMs bud (at_after a) in
              if exhausted then (LTimeout, b2)
              else if decide (at_after a >= deadline) then (LTimeout, b2)
              else acquire_loop bo budgetMs deadline rounds' b2 bud'
          end
      end
  end.

(** The answers of the scripts. *)
Definition shared_reply (n : Z) : LoopReply := if decide (n = 1) then RDone else RBusy.
Definition flag_reply (ok : bool) : LoopReply := if ok then RDone else RBusy.
Definition drained_reply (n : Z) : LoopReply :=
  if decide (n = -1) then RLost else if decide (n = 0) then RDone else RBusy.

(** ** The heartbeat *)

Inductive RenewOutcome := Renewed | OwnershipLost | Transient.

Inductive HeartbeatAction := HSchedule (delayMs : Z) | HLost.

Definition renewRetryMs (renew : Z) : Z := Z.max 50 (renew / 4).

(** A tick that settles at [now]: the next action and [leaseExpiresAt]. *)
Definition heartbeat (lease renew now : Z) (outcome : RenewOutcome) (leaseExpiresAt : Z) : HeartbeatAction * Z :=
  match outcome with
  | Renewed => (HSchedule renew, now + lease)
  | OwnershipLost => (HLost, leaseExpiresAt)
  | Transient => if decide (now >= leaseExpiresAt) then (HLost, leaseExpiresAt)
                 else (HSchedule (renewRetryMs renew), leaseExpiresAt)
  end.

(** The ticks of a run until the lock counts as lost. *)
Fixpoint heartbeats (lease renew : Z) (ticks : list (Z * RenewOutcome)) (leaseExpiresAt : Z) : option Z :=
  match ticks with
  | [] => Some leaseExpiresAt
  | (now, out) :: ticks' =>
      match heartbeat lease renew now out leaseExpiresAt with
      | (HSchedule _, e) => heartbeats lease renew ticks' e
      | (HLost, _) => None
      end
  end.

(** ** The outcome of a run *)

(** [fn] returned, or threw an error that does or does not preserve an
    ambiguous outcome. *)
Inductive FnResult := FnReturned | FnThrew (ambiguous : bool).

Inductive LockOutcome := OReturn | ORethrow | OLockLost | OLockLostAfterCommit.

Definition fn_outcome (after_loss : LockOutcome) (lost : bool) (r : FnResult) : LockOutcome :=
  match r with
  | FnThrew ambiguous => if lost && negb ambiguous then OLockLost else ORethrow
  | FnReturned => if lost then after_loss else OReturn
  end.

Definition shared_outcome : bool → FnResult → LockOutcome := fn_outcome OLockLost.
Definition exclusive_outcome : bool → FnResult → LockOutcome := fn_outcome OLockLostAfterCommit.
Definition lock_outcome (readOnly : bool) : bool → FnResult → LockOutcome :=
  fn_outcome (if readOnly then OLockLost else OLockLostAfterCommit).

(** ** Contention waits, an outage fails fast *)

Definition is_done (a : Attempt) : bool := match at_reply a with Some RDone => true | _ => false end.

(** The rounds of a healthy Redis: done, or busy before the deadline. *)
Definition healthy (deadline : Z) (a : Attempt) : Prop :=
  at_reply a = Some RDone ∨ at_reply a = Some RBusy ∧ at_after a < deadline.

Lemma acquire_loop_healthy bo bm dl rounds bud t0 g l : Forall (healthy dl) rounds →
  acquire_loop bo bm dl rounds (closed_with g l t0 0) bud =
  (if existsb is_done rounds then LAcquired else LPending, closed_with g l t0 0).
Proof.
  intros H. revert bud. induction H as [|a rounds Ha _ IH]; intros bud; [done|].
  cbn [acquire_loop existsb]. change (tryAcquire bo (closed_with g l t0 0) (at_before a)) with (true, @None Ticket, closed_with g l t0 0).
  cbn iota. unfold is_done at 1. destruct Ha as [-> |[-> Ht]]; [done|]. rewrite decide_False by lia. apply IH.
Qed.

Lemma acquire_loop_busy bo bm dl rounds bud t0 g l :
  Forall (λ a, at_reply a = Some RBusy ∧ at_after a < dl) rounds →
  (acquire_loop bo bm dl rounds (closed_with g l t0 0) bud).1 = LPending.
Proof.
  intros H. rewrite acquire_loop_healthy by (eapply Forall_impl; [exact H|]; intros a Ha; by right).
  replace (existsb is_done rounds) with false; [done|]. symmetry.
  induction H as [|a rounds [Er _] _ IH]; [done|]. simpl. unfold is_done at 1. by rewrite Er.
Qed.

Lemma acquire_loop_outage bo bm dl rounds b first :
  Forall (λ a, at_reply a = None) rounds →
  Exists (λ a, first + bm <= at_after a) rounds →
  (acquire_loop bo bm dl rounds b (mkBudget (Some first))).1 = LTimeout.
Proof.
  intros Hn. revert b. induction Hn as [|a rounds Er _ IH]; intros b; [by intros ?%Exists_nil|].
  intros Hex. cbn [acquire_loop]. destruct (tryAcquire bo b (at_before a)) as [[adm probe] b1].
  destruct adm; [|done]. rewrite Er. unfold recordError. simpl. case_bool_decide as Eb; [done|].
  case_decide; [done|]. apply IH. apply Exists_cons in Hex as [Hx|Hx]; [lia|done].
Qed.

(** Contention is not an outage. Under a healthy Redis a busy lock is
    polled until the deadline and never given up before it; when every command
    throws, the loop gives up no later than the first round that ends
    [errorBudgetMs] after the first error, whatever the deadline and the state
    of the circuit breaker. *)
Theorem acquire_waits_or_fails_fast bo bm dl rounds b bud :
  0 < bm →
  (∀ t0 g l, b = closed_with g l t0 0 → Forall (λ a, at_reply a = Some RBusy ∧ at_after a < dl) rounds →
    (acquire_loop bo bm dl rounds b bud).1 = LPending) ∧
  (∀ a rounds', rounds = a :: rounds' → Forall (λ a, at_reply a = None) rounds →
    Exists (λ a', at_after a + bm <= at_after a') rounds' →
    (acquire_loop bo bm dl rounds b (reset bud)).1 = LTimeout).
Proof.
  intros Hbm. split.
  - intros t0 g l -> H. by apply acquire_loop_busy.
  - intros a rounds' -> [Ha Hr]%Forall_cons Hex. cbn [acquire_loop].
    destruct (tryAcquire bo b (at_before a)) as [[adm probe] b1]. destruct adm; [|done]. rewrite Ha.
    unfold recordError. simpl. rewrite bool_decide_false by lia. case_decide; [done|].
    by apply acquire_loop_outage.
Qed.

Lemma acquire_waits_or_fails_fast_witness :
  (acquire_loop DEFAULT_OPTIONS 4000 75000
     [mkAttempt 0 None 10; mkAttempt 50 None 2000; mkAttempt 2050 None 4010] newBreaker (reset (mkBudget None))).1 = LTimeout.
Proof.
  refine (proj2 (acquire_waits_or_fails_fast DEFAULT_OPTIONS 4000 75000
     [mkAttempt 0 None 10; mkAttempt 50 None 2000; mkAttempt 2050 None 4010] newBreaker (mkBudget None) _) _ _ eq_refl _ _).
  - reflexivity.
  - repeat constructor.
  - right. left. simpl. discriminate.
Defined.

(** ** Crashed holders *)

(** What happens to a waiting writer, in its order: a round of a loop, which
    reads the clock and sends its script at [p_sent], has it run at [p_run] and
    reads the clock again at [p_heard]; or a renewal of its flag that runs at
    [x]. The times are the server's; the writer's replica reads each of them
    [d] ahead of the server (behind it, when negative). *)
Record Poll := mkPoll { p_sent : Z; p_run : Z; p_heard : Z }.

Inductive WaitEvent := EPoll (p : Poll) | ERenew (x : Z).

Section waiting.
Context (o : LockOptions) (tk : string) (d : Z).

(** [acquireExclusive]: its rounds until the flag is taken, the state then, and
    the events that follow. There is no heartbeat yet. *)
Fixpoint flag_phase (evs : list WaitEvent) (r : RState) : list Attempt * option RState * list WaitEvent :=
  match evs with
  | [] => ([], None, [])
  | ERenew _ :: evs' => flag_phase evs' r
  | EPoll p :: evs' =>
      let '(ok, r') := ACQUIRE_EXCLUSIVE_FLAG (p_run p) tk (leaseMs o) r in
      let a := mkAttempt (p_sent p + d) (Some (flag_reply ok)) (p_heard p + d) in
      if ok then ([a], Some r', evs')
      else let '(rounds, taken, rest) := flag_phase evs' r' in (a :: rounds, taken, rest)
  end.

(** [waitReadersDrained], while the heartbeat runs. *)
Fixpoint drain_phase (evs : list WaitEvent) (r : RState) : list Attempt :=
  match evs with
  | [] => []
  | ERenew x :: evs' => drain_phase evs' (RENEW_EXCLUSIVE x tk (leaseMs o) r).2
  | EPoll p :: evs' =>
      let '(n, r') := CHECK_READERS_DRAINED (p_run p) tk (p_sent p + d) r in
      mkAttempt (p_sent p + d) (Some (drained_reply n)) (p_heard p + d) :: drain_phase evs' r'
  end.

(** The wait of [runExclusive], begun at [begun]: its own deadline is that of
    the second loop, the first loop reads the clock again at [begun']. *)
Definition wait_exclusive (bo : BreakerOptions) (begun begun' : Z) (evs : list WaitEvent) (r : RState) (b : Breaker) : LoopResult :=
  let '(rounds, taken, rest) := flag_phase evs r in
  match acquire_loop bo (errorBudgetMs o) (begun' + d + acquireTimeoutMs o) rounds b (mkBudget None), taken with
  | (LAcquired, b'), Some r' =>
      (acquire_loop bo (errorBudgetMs o) (begun + d + acquireTimeoutMs o) (drain_phase rest r') b' (reset (mkBudget None))).1
  | (res, _), _ => res
  end.

(** The writer's heartbeat renews its flag before it lapses. *)
Fixpoint keeps_flag (evs : list WaitEvent) (r : RState) : Prop :=
  match evs with
  | [] => True
  | EPoll p :: evs' => live_writer (p_run p) r = Some tk ∧ keeps_flag evs' r
  | ERenew x :: evs' => live_writer x r = Some tk ∧ keeps_flag evs' (RENEW_EXCLUSIVE x tk (leaseMs o) r).2
  end.
End waiting.

(** The number of rounds sent at [t] or later. *)
Fixpoint late (t : Z) (evs : list WaitEvent) : nat :=
  match evs with
  | [] => 0%nat
  | EPoll p :: evs' => if bool_decide (t <= p_sent p) then S (late t evs') else late t evs'
  | ERenew _ :: evs' => late t evs'
  end.

Lemma late_poll_before t p evs : p_sent p < t → late t (EPoll p :: evs) = late t evs.
Proof. intros Hp. simpl. by rewrite bool_decide_false by lia. Qed.

Section recovery.
Context (o : LockOptions) (skew : Z).

(** No lease of the server ends later than a full lease from now, a reader's by
    the clock that is most ahead. *)
Record expiries (s : DSys) : Prop := {
  ex_writer tk e : writer (redis s) = Some (tk, e) → e <= clock s + leaseMs o;
  ex_readers k e : (k, e) ∈ readers (redis s) → e <= clock s + skew + readerLeaseMs o }.

Lemma jset_elem (k k' : string) (v v' : Z) m : (k', v') ∈ jset k v m → v' = v ∨ (k', v') ∈ m.
Proof.
  induction m as [|[k0 v0] m IH]; simpl.
  - intros E%list_elem_of_singleton. left. congruence.
  - case_decide; simpl; intros [E|Hin]%elem_of_cons.
    + left. congruence.
    + right. by apply list_elem_of_further.
    + right. rewrite E. apply list_elem_of_here.
    + destruct (IH Hin) as [?|?]; [by left|right; by apply list_elem_of_further].
Qed.

Lemma jdel_elem (k : string) (p : string * Z) m : p ∈ jdel k m → p ∈ m.
Proof.
  induction m as [|[k0 v0] m IH]; simpl; [done|]. case_decide; [apply list_elem_of_further|].
  intros [->|Hin]%elem_of_cons; [apply list_elem_of_here|by apply list_elem_of_further, IH].
Qed.

Lemma reap_elem t (p : string * Z) zs : p ∈ reap t zs → p ∈ zs ∧ t < p.2.
Proof.
  unfold reap. intros [Hin Hb]%list_elem_of_In%filter_In. apply negb_true_iff, bool_decide_eq_false in Hb.
  split; [by apply list_elem_of_In|lia].
Qed.

Lemma expiries_step s s' : d_step o skew s s' → expiries s → expiries s'.
Proof.
  destruct 1 as [s t Ht|s tk n hd _ Hn|s c n hd _ _ Hn|s tk hd _|s c hd _ _|s c n hd _ _ Hn|s c sent _]; intros [Hw Hr].
  - split; simpl; [intros tk e E; specialize (Hw tk e E); lia|intros k e E; specialize (Hr k e E); lia].
  - unfold d_acquire_shared, ACQUIRE_SHARED. destruct (live_writer _ _); split; simpl; try done.
    + intros k e [Hin _]%reap_elem. by apply (Hr k).
    + intros k e [->|Hin]%jset_elem; [lia|]. apply reap_elem in Hin as [Hin _]. by apply (Hr k).
  - unfold d_renew_shared, RENEW_SHARED. destruct (jget _ _); split; simpl; try done.
    intros k e [->|Hin]%jset_elem; [lia|by apply (Hr k)].
  - unfold d_acquire_flag, ACQUIRE_EXCLUSIVE_FLAG. destruct (live_writer _ _); split; simpl; try done.
    intros tk' e [= <- <-]. lia.
  - unfold d_renew_exclusive, RENEW_EXCLUSIVE. case_decide; split; simpl; try done.
    intros tk' e [= <- <-]. lia.
  - unfold d_check, CHECK_READERS_DRAINED. case_decide; split; simpl; try done.
    intros k e [Hin _]%reap_elem. by apply (Hr k).
  - unfold d_leave, RELEASE_EXCLUSIVE. split; simpl.
    + intros tk e. destruct sent; [|apply Hw]. destruct (c_phase c); [case_decide; [done|apply Hw]..|apply Hw].
    + intros k e. destruct sent; [|apply Hr]. destruct (c_phase c); [case_decide; apply Hr..|].
      intros Hin%jdel_elem. by apply (Hr k).
Qed.

Lemma d_reachable_expiries t s : d_reachable o skew t s → expiries s.
Proof.
  intros H. assert (∀ s0, rtc (d_step o skew) s0 s → expiries s0 → expiries s) as Hgen.
  { induction 1; [done|]. eauto using expiries_step. }
  apply (Hgen _ H). split; simpl; [done|]. by intros k e ?%elem_of_nil.
Qed.

Lemma reap_all t zs : (∀ k e, (k, e) ∈ zs → e <= t) → reap t zs = [].
Proof.
  intros H. destruct (reap t zs) as [|[k e] l] eqn:E; [done|].
  assert ((k, e) ∈ reap t zs) as [Hin Hlt]%reap_elem by (rewrite E; apply list_elem_of_here).
  specialize (H k e Hin). simpl in Hlt. lia.
Qed.

(** The flag is taken no later than by the first round sent after every lease. *)
Lemma flag_phase_spec tk d lim dl evs r rounds taken rest :
  flag_phase o tk d evs r = (rounds, taken, rest) →
  (∀ k e, writer r = Some (k, e) → e <= lim) →
  (∀ p, EPoll p ∈ evs → p_sent p <= p_run p) →
  (∀ p, EPoll p ∈ evs → p_sent p < lim → p_heard p + d < dl) →
  Forall (healthy dl) rounds ∧ existsb is_done rounds = bool_decide (is_Some taken) ∧ rest ⊆ evs ∧
  (late lim evs <= late lim rest + (if bool_decide (is_Some taken) then 1 else 0))%nat ∧
  ∀ r', taken = Some r' → readers r' = readers r.
Proof.
  intros Ef Hlim. revert rounds taken rest Ef.
  induction evs as [|[p|x] evs IH]; intros rounds taken rest Ef Hrun Hdl; simpl in Ef.
  - injection Ef as <- <- <-. split_and!; [constructor|done|done|done|done].
  - unfold ACQUIRE_EXCLUSIVE_FLAG in Ef. destruct (live_writer (p_run p) r) as [w|] eqn:El.
    + destruct (flag_phase o tk d evs r) as [[rounds' taken'] rest'] eqn:Ef'. injection Ef as <- <- <-.
      destruct (IH _ _ _ eq_refl) as (Hr & Hd & Hsub & Hn & Hrd).
      { intros q Hq. by apply Hrun, list_elem_of_further. }
      { intros q Hq. by apply Hdl, list_elem_of_further. }
      assert (p_sent p < lim) as Hearly.
      { unfold live_writer in El. destruct (writer r) as [[k e]|] eqn:Ew; [|done]. case_decide; [|done].
        specialize (Hlim k e eq_refl). specialize (Hrun p (list_elem_of_here _ _)). lia. }
      split_and!; [|done|set_solver| |done].
      * constructor; [|done]. right. split; [done|]. by apply Hdl; [apply list_elem_of_here|].
      * by rewrite late_poll_before.
    + injection Ef as <- <- <-. split_and!; [|done|set_solver| |by intros r' [= <-]].
      * constructor; [by left|constructor].
      * rewrite bool_decide_true by eauto. simpl. case_bool_decide; lia.
  - destruct (IH _ _ _ Ef) as (Hr & Hd & Hsub & Hn & Hrd).
    { intros q Hq. by apply Hrun, list_elem_of_further. }
    { intros q Hq. by apply Hdl, list_elem_of_further. }
    split_and!; [done|done|set_solver| |done]. done.
Qed.

Lemma flag_phase_none tk d evs r rounds rest : flag_phase o tk d evs r = (rounds, None, rest) → rest = [].
Proof.
  revert r rounds. induction evs as [|[p|x] evs IH]; intros r rounds Ef; simpl in Ef.
  - congruence.
  - destruct (ACQUIRE_EXCLUSIVE_FLAG _ _ _ _) as [[] r']; [done|].
    destruct (flag_phase o tk d evs r') as [[? ?] ?] eqn:E. injection Ef as <- -> ->. by eapply IH.
  - by eapply IH.
Qed.

(** The flag is the writer's key alone. *)
Lemma keeps_flag_writer tk evs r r' : writer r' = writer r → keeps_flag o tk evs r → keeps_flag o tk evs r'.
Proof.
  revert r r'. induction evs as [|[q|x] evs IH]; intros r r' Hw Hk; simpl in *; [done|..].
  - destruct Hk as [Hl Hk]. split; [unfold live_writer in *; by rewrite Hw|by eapply IH].
  - destruct Hk as [Hl Hk]. assert (live_writer x r' = Some tk) as Hl' by (unfold live_writer in *; by rewrite Hw).
    split; [done|]. eapply IH; [|exact Hk]. unfold RENEW_EXCLUSIVE. by rewrite !decide_True.
Qed.

Lemma renew_readers x tk r : readers (RENEW_EXCLUSIVE x tk (leaseMs o) r).2 = readers r.
Proof. unfold RENEW_EXCLUSIVE. by case_decide. Qed.

(** While the flag is kept, the readers count as drained from the first round
    whose clock has passed their scores. *)
Lemma drain_phase_spec tk d lim dl evs r :
  (∀ k e, (k, e) ∈ readers r → e <= lim + d) → keeps_flag o tk evs r →
  (∀ p, EPoll p ∈ evs → p_sent p < lim → p_heard p + d < dl) →
  Forall (healthy dl) (drain_phase o tk d evs r) ∧
  ((0 < late lim evs)%nat → existsb is_done (drain_phase o tk d evs r) = true).
Proof.
  revert r. induction evs as [|[p|x] evs IH]; intros r Hsc Hk Hdl; simpl.
  - split; [constructor|]. simpl. lia.
  - destruct Hk as [Hlive Hk]. unfold CHECK_READERS_DRAINED. rewrite decide_True by done.
    set (r' := mkR (writer r) (reap (p_sent p + d) (readers r))).
    destruct (IH r') as [Hh Hd].
    { intros k e [Hin _]%reap_elem. by apply (Hsc k). }
    { by apply (keeps_flag_writer tk evs r). }
    { intros q Hq. by apply Hdl, list_elem_of_further. }
    destruct (reap (p_sent p + d) (readers r)) as [|q zs] eqn:Er.
    + split; [|by intros _]. constructor; [by left|done].
    + assert (p_sent p < lim) as Hearly.
      { assert (q ∈ reap (p_sent p + d) (readers r)) as [Hin Hlt]%reap_elem by (rewrite Er; apply list_elem_of_here).
        destruct q as [k e]. specialize (Hsc k e Hin). simpl in Hlt. lia. }
      assert (drained_reply (Z.of_nat (length (q :: zs))) = RBusy) as -> by (unfold drained_reply; rewrite !decide_False by (simpl; lia); done).
      split.
      * constructor; [|done]. right. split; [done|]. by apply Hdl; [apply list_elem_of_here|].
      * case_bool_decide; [lia|done].
  - destruct Hk as [Hlive Hk]. destruct (IH (RENEW_EXCLUSIVE x tk (leaseMs o) r).2) as [Hh Hd]; [|done|..].
    { by rewrite renew_readers. }
    { intros q Hq. by apply Hdl, list_elem_of_further. }
    split; [done|]. done.
Qed.

(** When every lease of a state is over, by the clock of any replica. *)
Definition recovery (s : DSys) : Z := clock s + Z.max (leaseMs o) (readerLeaseMs o + 2 * skew).

(** C40: A crash does not outlast the wait. Let every holder of the lock have
    crashed by now, so that none of them takes a further step, and let a writer
    wait on a replica whose clock differs from the server's by no more than
    [skew], while Redis answers and nobody else comes for the lock. Its two
    acquire loops, whose rounds hear what the scripts answer on the state they
    find, end with the lock at the latest with the second round sent after
    [recovery] (one gets the flag, one finds the readers drained), even when
    the deadline is over by then, because a round is always followed by another
    unless it ended at the deadline. The wait times out, or loses its flag, only
    if a round that was sent before [recovery] is answered after the deadline or
    the writer's own heartbeat let the flag lapse. And the checked configuration
    puts [recovery] before the deadline, by clocks that agree or differ by less
    than half of what the acquire timeout leaves over the reader lease. *)
Theorem crashed_holders_recovered t s tk d bo g l t0 begun begun' evs :
  assertAcquireTimeoutAboveLeases o = Ok tt → d_reachable o skew t s → Z.abs d <= skew →
  clock s <= begun → begun <= begun' →
  (∀ p, EPoll p ∈ evs → p_sent p <= p_run p) →
  (∀ rounds r rest, flag_phase o tk d evs (redis s) = (rounds, Some r, rest) → keeps_flag o tk rest r) →
  (∀ p, EPoll p ∈ evs → p_sent p < recovery s → p_heard p < begun + acquireTimeoutMs o) →
  let res := wait_exclusive o tk d bo begun begun' evs (redis s) (closed_with g l t0 0) in
  (res = LAcquired ∨ res = LPending) ∧
  ((2 <= late (recovery s) evs)%nat → res = LAcquired) ∧
  (skew = 0 ∨ readerLeaseMs o + 2 * skew < acquireTimeoutMs o → recovery s < begun + acquireTimeoutMs o).
Proof.
  intros Ha Hs Hd Hb Hb' Hrun Hkeep Hdl res. destruct (d_reachable_expiries t s Hs) as [Hw Hr].
  unfold assertAcquireTimeoutAboveLeases in Ha. do 2 (case_decide; [done|]).
  unfold res, wait_exclusive. destruct (flag_phase o tk d evs (redis s)) as [[rounds taken] rest] eqn:Ef.
  destruct (flag_phase_spec tk d (recovery s) (begun' + d + acquireTimeoutMs o) evs (redis s) _ _ _ Ef) as (Hok & Hdone & Hsub & Hn & Hrd).
  { intros k e E. specialize (Hw k e E). unfold recovery. lia. }
  { done. }
  { intros p Hp Hl. specialize (Hdl p Hp Hl). lia. }
  rewrite acquire_loop_healthy by done. rewrite Hdone.
  destruct taken as [r'|]; [rewrite bool_decide_true in Hn |- * by eauto|rewrite bool_decide_false in Hn |- * by (by intros [])].
  - destruct (drain_phase_spec tk d (recovery s) (begun + d + acquireTimeoutMs o) rest r') as [Hok2 Hdone2].
    { intros k e. rewrite (Hrd r') by done. intros Hin. specialize (Hr k e Hin). unfold recovery. lia. }
    { by eapply Hkeep. }
    { intros p Hp%Hsub Hl. specialize (Hdl p Hp Hl). lia. }
    rewrite acquire_loop_healthy by done. simpl. split_and!.
    + destruct (existsb is_done (drain_phase o tk d rest r')); [by left|by right].
    + intros H2. by rewrite Hdone2 by lia.
    + unfold recovery. lia.
  - rewrite (flag_phase_none _ _ _ _ _ _ Ef) in Hn. simpl in Hn. unfold recovery in *. split_and!; [by right|lia..].
Qed.
End recovery.

(** The replica of the waiting writer is half a second behind. It gets the flag
    when the crashed writer's lease is over, renews it, and enters once the
    crashed reader's is. *)
Definition demo_wait : list WaitEvent :=
  [EPoll (mkPoll 10 12 15); EPoll (mkPoll 59990 59995 59999); EPoll (mkPoll 60050 60055 60060); EPoll (mkPoll 60100 60105 60110);
   ERenew 62100; EPoll (mkPoll 62200 62205 62210); EPoll (mkPoll 62300 62305 62310)].

Lemma crashed_holders_recovered_witness :
  wait_exclusive demo_lock_options "v" (-500) DEFAULT_OPTIONS 5 5 demo_wait (redis demo_crash) (closed_with 0 [] 0 0) = LAcquired ∧
  recovery demo_lock_options 1000 demo_crash < 5 + acquireTimeoutMs demo_lock_options.
Proof.
  destruct (crashed_holders_recovered demo_lock_options 1000 0 demo_crash "v" (-500) DEFAULT_OPTIONS 0 [] 0 5 5 demo_wait) as (_ & H1 & H2).
  - reflexivity.
  - exact demo_crash_reachable.
  - vm_compute. discriminate.
  - vm_compute. discriminate.
  - reflexivity.
  - intros p Hp. unfold demo_wait in Hp. repeat (apply elem_of_cons in Hp as [E|Hp]; [first [discriminate E|injection E as ->; vm_compute; discriminate]|]). by apply elem_of_nil in Hp.
  - intros rounds r rest E. vm_compute in E. injection E as _ <- <-. vm_compute. repeat split; reflexivity.
  - intros p Hp. unfold demo_wait in Hp.
    repeat (apply elem_of_cons in Hp as [E|Hp]; [first [discriminate E|injection E as ->; intros _; vm_compute; reflexivity]|]). by apply elem_of_nil in Hp.
  - split; [apply H1; vm_compute; lia|apply H2; right; vm_compute; reflexivity].
Defined.

(** The comment on [leaseExpiresAt] says the lock is safely held until that
    instant, but it is a full lease from the moment the answer arrives, while
    the server counts from the execution: here the answer takes 30 ms, and at
    time 105 another writer has the flag while the first one's heartbeat, whose
    renewal failed transiently, carries on. *)
Theorem lease_believed_too_long :
  let '(ok1, r1) := ACQUIRE_EXCLUSIVE_FLAG 0 "w1" 100 (mkR None []) in
  let '(ok2, r2) := ACQUIRE_EXCLUSIVE_FLAG 105 "w2" 100 r1 in
  ok1 = true ∧ ok2 = true ∧ (CHECK_READERS_DRAINED 106 "w2" 106 r2).1 = 0 ∧
  heartbeats 100 30 [(60, Transient); (110, Transient)] (30 + 100) = Some 130.
Proof. vm_compute. auto. Qed.
