(* ===== verification/SessionLock.v ===== *)
(** The lock around a request ([withExecLockExclusive] and [withExecLockShared] of
    src/src/api/session-manager.ts, the runs of src/src/api/distributed-lock.ts
    and src/src/api/distributed-rw-lock.ts around a handler).

    The lock itself is [DistLock]'s and [Mutex]'s; here is what it makes of the
    outcome of the work it guards ([LockRuns.fn_outcome]): a lease that is lost
    turns the outcome into an error, also after the work has been committed. *)

From S2P Require Import Prelude Breaker DistLock LockRuns Errors Paths Store Tree Dialect Lifecycle LoadPaths View Session Namespace Coherence Simulation Journal Invariant Mutate Handlers SqlFs Ingest IngestRows IngestSim IngestSound Scopes Machine Guarantees Isolation Contents Exec ExecSound Readers ApiErrors.

(** An error of a request as the error handler sees it. *)
Definition request_error (e : req_error) : JsError :=
  match e with
  | RFs f => js_error f
  | ESESSIONCLOSING => mkError (Some "ESESSIONCLOSING") EmptyString
  | ECOHERENCE_UNAPPLIED => mkError (Some "ECOHERENCE_UNAPPLIED") EmptyString
  | EREADONLY_VIOLATION => mkError (Some "EREADONLY_VIOLATION") EmptyString
  | ELOCKTIMEOUT => mkError (Some "ELOCKTIMEOUT") EmptyString
  | ELOCKLOST_APPLIED => mkError (Some "ELOCKLOST_APPLIED") "ELOCKLOST_APPLIED: the lock was lost, but the operation had already completed"
  end.

(** What becomes of the lock of a request: there is none without Redis; it is not
    acquired in time; the writer's flag is lost while it waits for the readers;
    or the work runs, and the lease is lost by the time it settles, or not. *)
Inductive LockRun := NoRedis | TimedOut | LostWaiting | Held (lost : bool).

Definition lock_lost (k : LockRun) : bool := match k with Held lost => lost | _ => false end.

Section locks.
Context `{Config} `{Lru}.

Definition fn_result {A} (r : res req_error A) : FnResult :=
  match r with Ok _ => FnReturned | Err e => FnThrew (preservesAmbiguousOutcome (Some (request_error e))) end.

Definition under_lock {A} (outcome : bool → FnResult → LockOutcome) (k : LockRun) (fn : reqM A) : reqM A :=
  match k with
  | NoRedis => fn
  | TimedOut => throw ELOCKTIMEOUT
  | LostWaiting => throw (RFs (ELOCKLOST "lock lost"))
  | Held lost =>
      let* r := attempt fn in
      match outcome lost (fn_result r) with
      | OReturn | ORethrow => lift_res r
      | OLockLost => throw (RFs (ELOCKLOST "lock lost"))
      | OLockLostAfterCommit => throw ELOCKLOST_APPLIED
      end
  end.

(** With and without [rwlockEnabled] the outcomes are the same. *)
Definition withExecLockExclusive {A} (rwlockEnabled : bool) : LockRun → reqM A → reqM A :=
  under_lock (if rwlockEnabled then exclusive_outcome else lock_outcome false).

Definition withExecLockShared {A} (rwlockEnabled : bool) : LockRun → reqM A → reqM A :=
  under_lock (if rwlockEnabled then shared_outcome else lock_outcome true).

(** What the writer's lock makes of an outcome: the same, another error, or the
    error that says the work is done. *)
Lemma exclusive_spec {A} rw k (fn : reqM A) q r q' : withExecLockExclusive rw k fn q = (r, q') →
  (∃ e, r = Err e ∧ early_error e ∧ q' = q ∧ k ≠ NoRedis ∧ ∀ lost, k ≠ Held lost) ∨
  ∃ r1, fn q = (r1, q') ∧
    match r1 with
    | Ok a => if lock_lost k then r = Err ELOCKLOST_APPLIED else r = Ok a
    | Err e => r = Err e ∨ ∃ m, r = Err (RFs (ELOCKLOST m)) ∧ lock_lost k = true
    end.
Proof.
  unfold withExecLockExclusive, under_lock. destruct k as [| | |lost].
  - intros E. right. exists r. split; [done|]. destruct r; [done|by left].
  - intros [= <- <-]. left. by eexists.
  - intros [= <- <-]. left. by eexists.
  - unfold bindM, attempt. destruct (fn q) as [r1 q1]. intros E. right. exists r1.
    assert (Hsame : (if rw then exclusive_outcome else lock_outcome false) lost (fn_result r1) = exclusive_outcome lost (fn_result r1)) by by destruct rw.
    rewrite Hsame in E. clear Hsame. destruct r1 as [a|e]; simpl in E.
    + destruct lost; injection E as <- <-; done.
    + destruct lost, (preservesAmbiguousOutcome _); injection E as <- <-; (split; [done|]); eauto.
Qed.

(** The readers' lock: the outcome, or an error. *)
Lemma shared_spec {A} rw k (fn : reqM A) q r q' : withExecLockShared rw k fn q = (r, q') →
  (∃ e, r = Err e ∧ q' = q) ∨ ∃ r1, fn q = (r1, q') ∧ (r = r1 ∧ lock_lost k = false ∨ ∃ e, r = Err e ∧ (r1 = Err e ∨ early_error e)).
Proof.
  unfold withExecLockShared, under_lock. destruct k as [| | |lost].
  - intros E. right. exists r. split; [done|]. by left.
  - intros [= <- <-]. left. by eexists.
  - intros [= <- <-]. left. by eexists.
  - unfold bindM, attempt. destruct (fn q) as [r1 q1]. intros E. right. exists r1.
    assert (Hsame : (if rw then shared_outcome else lock_outcome true) lost (fn_result r1) = shared_outcome lost (fn_result r1)) by by destruct rw.
    rewrite Hsame in E. clear Hsame. destruct r1 as [a|e]; simpl in E.
    + destruct lost; injection E as <- <-; (split; [done|]); [right; eexists; split; [done|by right]|by left].
    + destruct lost, (preservesAmbiguousOutcome _); injection E as <- <-; (split; [done|]); right; eexists; (split; [done|]); by (left + right).
Qed.

End locks.

(** ** Witnesses *)

Section witnesses.
#[local] Existing Instance demo_config.
#[local] Existing Instance lru_unbounded.

Definition demo_locked (k : LockRun) : res req_error (BashExecResult * string) * Req :=
  withExecLockExclusive true k (withSessionEntry (Ok None) false (onFs (executeSessionRuntime demo_env "/home/user" demo_exec))) demo_req.

End witnesses.
