(* ===== verification/Batch.v ===== *)
(** Batches of scripts (src/src/api/lib/batch-exec.ts).

    [runSequential] runs the scripts one after the other in a loop.
    [runParallel] starts up to sixteen workers that share a cursor: [p_step] is
    one step of one worker, up to its next [await]. What the execution of a
    script answers is a parameter. *)

From S2P Require Import Prelude.

#[local] Open Scope nat_scope.

Record BatchScriptEntry := mkEntry { be_id : string; be_script : string }.

Record BatchScriptResult := mkResult {
  br_id : string;
  br_stdout : string;
  br_stderr : string;
  br_exitCode : Z;
  br_error : option string;
}.

(** How an execution ends: with a result, an error with a code of its own, an
    abort, or an error without a code. *)
Inductive ExecAnswer (E : Type) :=
| XDone (stdout stderr : string) (exitCode : Z) (executionAborted : bool)
| XCoded (e : E)
| XAborted
| XPlain.
Arguments XDone {E} stdout stderr exitCode executionAborted.
Arguments XCoded {E} e.
Arguments XAborted {E}.
Arguments XPlain {E}.

Definition failed_result (id stderr : string) (error : option string) : BatchScriptResult :=
  mkResult id EmptyString stderr (-1) error.

(** ** One after the other *)

(** What the loop finds around a script: whether the outer signal is aborted
    before it, whether the total budget is used up, whether its own timer has
    fired when it ends, and whether the outer signal is aborted by then. *)
Record Situation := mkSituation {
  st_aborted : bool;
  st_exhausted : bool;
  st_timedOut : bool;
  st_abortedAfter : bool;
}.

Section sequential.
Context {S E : Type} (exec : string → S → ExecAnswer E * S).

Fixpoint runSequential (scripts : list (BatchScriptEntry * Situation)) (s : S) : res E (list BatchScriptResult) * S :=
  match scripts with
  | [] => (Ok [], s)
  | (entry, st) :: rest =>
      if st_aborted st then (Ok [], s)
      else
        let push r s' := let '(out, s'') := runSequential rest s' in
                         (match out with Ok rs => Ok (r :: rs) | Err e => Err e end, s'') in
        if st_exhausted st then push (failed_result (be_id entry) EmptyString (Some "timeout")) s
        else
          let '(answer, s') := exec (be_script entry) s in
          match answer with
          | XDone stdout stderr exitCode aborted =>
              if st_timedOut st && aborted then push (failed_result (be_id entry) EmptyString (Some "timeout")) s'
              else push (mkResult (be_id entry) stdout stderr exitCode None) s'
          | XCoded e => (Err e, s')
          | XAborted | XPlain =>
              if st_timedOut st then push (failed_result (be_id entry) EmptyString (Some "timeout")) s'
              else if st_abortedAfter st then (Ok [], s')
              else push (failed_result (be_id entry) "internal error" None) s'
          end
  end.

(** The results are those of the first scripts, in order; of all of them unless
    the outer signal was aborted. *)
Lemma runSequential_ids scripts s rs s' : runSequential scripts s = (Ok rs, s') →
  br_id <$> rs `prefix_of` (λ es, be_id es.1) <$> scripts ∧
  ((∀ es, es ∈ scripts → st_aborted es.2 = false ∧ st_abortedAfter es.2 = false) →
   br_id <$> rs = (λ es, be_id es.1) <$> scripts).
Proof.
  revert s rs s'. induction scripts as [|[entry st] rest IH]; intros s rs s'; simpl; [by intros [= <- _]|].
  assert (Hpush : ∀ r s1 rs s', br_id r = be_id entry →
    (let '(out, s'') := runSequential rest s1 in (match out with Ok rs => Ok (r :: rs) | Err e => Err e end, s'')) = (Ok rs, s') →
    br_id <$> rs `prefix_of` be_id entry :: ((λ es, be_id es.1) <$> rest) ∧
    ((∀ es, es ∈ (entry, st) :: rest → st_aborted es.2 = false ∧ st_abortedAfter es.2 = false) →
     br_id <$> rs = be_id entry :: ((λ es, be_id es.1) <$> rest))).
  { intros r s1 rs1 s1' Hr. destruct (runSequential rest s1) as [[rs2|e] s2] eqn:Er; [|done].
    intros [= <- <-]. destruct (IH _ _ _ Er) as [Hp Hall]. rewrite fmap_cons, Hr. split; [by apply prefix_cons|].
    intros H. f_equal. apply Hall. intros es Hes. apply H. by right. }
  destruct (st_aborted st) eqn:Ea.
  { intros [= <- <-]. split; [apply prefix_nil|]. intros H. destruct (H (entry, st)) as [H' _]; [by left|]. simpl in H'. congruence. }
  destruct (st_exhausted st); [by apply Hpush|]. destruct (exec (be_script entry) s) as [answer s1].
  destruct answer as [so se ec ab|e| |]; [destruct (_ && _); by apply Hpush|done|..].
  all: destruct (st_timedOut st); [by apply Hpush|]; destruct (st_abortedAfter st) eqn:Eb; [|by apply Hpush];
    intros [= <- <-]; (split; [apply prefix_nil|]; intros H; destruct (H (entry, st)) as [_ H']; [by left|]; simpl in H'; congruence).
Qed.
End sequential.

(** ** In parallel *)

Definition MAX_BATCH_PARALLELISM : nat := 16.

Inductive WorkerState := WLoop | WRunning (idx : nat) | WEnded | WFailed (idx : nat).

Record Par := mkPar {
  p_cursor : nat;
  p_terminalFailure : bool;
  p_workers : gmap nat WorkerState;
  p_results : gmap nat BatchScriptResult;
}.

(** The script a worker runs, or failed at. *)
Definition holding (st : WorkerState) : option nat :=
  match st with WRunning idx | WFailed idx => Some idx | _ => None end.

Definition holds (p : Par) (w idx : nat) : Prop := p_workers p !! w ≫= holding = Some idx.

Section parallel.
Context {E : Type} (scripts : list BatchScriptEntry).

Definition cap : nat := Nat.min (length scripts) MAX_BATCH_PARALLELISM.

Definition start_workers : gmap nat WorkerState := list_to_map ((λ w, (w, WLoop)) <$> seq 0 cap).

Definition runParallel_start : Par := mkPar 0 false start_workers ∅.

Definition set_worker (w : nat) (st : WorkerState) (p : Par) : Par :=
  mkPar (p_cursor p) (p_terminalFailure p) (<[w := st]> (p_workers p)) (p_results p).

(** The head of a worker's loop: [aborted] is the shared signal, [timedOut] the
    deadline's flag. *)
Definition worker_next (w : nat) (aborted timedOut : bool) (p : Par) : Par :=
  if p_terminalFailure p then set_worker w WEnded p
  else
    let idx := p_cursor p in
    let p1 := mkPar (S idx) (p_terminalFailure p) (p_workers p) (p_results p) in
    match scripts !! idx with
    | None => set_worker w WEnded p1
    | Some entry =>
        if aborted then
          mkPar (S idx) (p_terminalFailure p) (p_workers p)
            (<[idx := failed_result (be_id entry) EmptyString (Some (if timedOut then "timeout" else "aborted"))]> (p_results p))
        else set_worker w (WRunning idx) p1
    end.

(** The rest of the body, when the execution answers: [timedOut] is either
    timer's flag, [aborted] the signal the script was given. *)
Definition worker_answer (w idx : nat) (entry : BatchScriptEntry) (answer : ExecAnswer E) (aborted timedOut sharedAborted : bool)
    (p : Par) : Par :=
  let store r := mkPar (p_cursor p) (p_terminalFailure p) (<[w := WLoop]> (p_workers p)) (<[idx := r]> (p_results p)) in
  match answer with
  | XDone stdout stderr exitCode executionAborted =>
      if timedOut && aborted && executionAborted then store (failed_result (be_id entry) EmptyString (Some "timeout"))
      else store (mkResult (be_id entry) stdout stderr exitCode None)
  | XCoded _ => mkPar (p_cursor p) true (<[w := WFailed idx]> (p_workers p)) (p_results p)
  | XAborted | XPlain =>
      store (failed_result (be_id entry) EmptyString
               (Some (if timedOut then "timeout" else if sharedAborted then "aborted" else "internal error")))
  end.

Inductive p_step : Par → Par → Prop :=
| p_next p w aborted timedOut :
    p_workers p !! w = Some WLoop → p_step p (worker_next w aborted timedOut p)
| p_answer p w idx entry (answer : ExecAnswer E) aborted timedOut sharedAborted :
    p_workers p !! w = Some (WRunning idx) → scripts !! idx = Some entry →
    p_step p (worker_answer w idx entry answer aborted timedOut sharedAborted p).

(** [Promise.allSettled] has settled. *)
Definition settled (p : Par) : Prop := ∀ w st, p_workers p !! w = Some st → st = WEnded ∨ ∃ idx, st = WFailed idx.

Definition has_failure (p : Par) : Prop := ∃ w idx, p_workers p !! w = Some (WFailed idx).

(** *** The invariant *)

Record par_inv (p : Par) : Prop := {
  pi_workers : ∀ w, is_Some (p_workers p !! w) ↔ w < cap;
  pi_covered : ∀ idx, idx < p_cursor p → idx < length scripts → is_Some (p_results p !! idx) ∨ ∃ w, holds p w idx;
  pi_results : ∀ idx r, p_results p !! idx = Some r → idx < p_cursor p ∧ ∃ e, scripts !! idx = Some e ∧ br_id r = be_id e;
  pi_held : ∀ w idx, holds p w idx → idx < p_cursor p ∧ p_results p !! idx = None;
  pi_apart : ∀ w w' idx, holds p w idx → holds p w' idx → w = w';
  pi_ended : ∀ w, p_workers p !! w = Some WEnded → p_terminalFailure p = true ∨ length scripts ≤ p_cursor p;
  pi_terminal : p_terminalFailure p = true → has_failure p;
}.

Lemma start_workers_lookup w : start_workers !! w = if decide (w < cap) then Some WLoop else None.
Proof.
  unfold start_workers. case_decide as Hw.
  - apply elem_of_list_to_map.
    + rewrite <- list_fmap_compose. simpl. rewrite list_fmap_id. apply NoDup_seq.
    + apply list_elem_of_fmap. exists w. split; [done|]. apply elem_of_seq. lia.
  - apply not_elem_of_list_to_map. rewrite <- list_fmap_compose. simpl. rewrite list_fmap_id. rewrite elem_of_seq. lia.
Qed.

Lemma start_par_inv : par_inv runParallel_start.
Proof.
  assert (Hno : ∀ w idx, ¬ holds runParallel_start w idx).
  { intros w idx. unfold holds. simpl. rewrite start_workers_lookup. by case_decide. }
  split; simpl; try done.
  - intros w. rewrite start_workers_lookup. case_decide; split; try done; by intros [].
  - lia.
  - by intros w idx ?%Hno.
  - by intros w w' idx ?%Hno.
  - intros w. rewrite start_workers_lookup. by case_decide.
Qed.

(** What a worker holds after a change of its own state. *)
Lemma holds_insert c t ws rs w st x idx :
  holds (mkPar c t (<[w := st]> ws) rs) x idx ↔ w = x ∧ holding st = Some idx ∨ w ≠ x ∧ ws !! x ≫= holding = Some idx.
Proof.
  unfold holds. simpl. destruct (decide (w = x)) as [<-|Hne]; [rewrite lookup_insert_eq|rewrite lookup_insert_ne by done];
    simpl; naive_solver.
Qed.

Lemma workers_insert (ws : gmap nat WorkerState) w st st' : ws !! w = Some st → (∀ x, is_Some (ws !! x) ↔ x < cap) →
  ∀ x, is_Some (<[w := st']> ws !! x) ↔ x < cap.
Proof.
  intros Hw H x. rewrite <- H. destruct (decide (w = x)) as [<-|Hne]; [rewrite lookup_insert_eq, Hw|rewrite lookup_insert_ne by done]; done.
Qed.

(** A worker that holds nothing stops. *)
Lemma end_inv w p : p_workers p !! w = Some WLoop → p_terminalFailure p = true ∨ length scripts ≤ p_cursor p →
  par_inv p → par_inv (set_worker w WEnded p).
Proof.
  intros Hw Hend [H1 H2 H3 H4 H5 H6 H7].
  assert (Hh : ∀ x idx, holds (set_worker w WEnded p) x idx ↔ holds p x idx).
  { intros x idx. unfold set_worker. rewrite holds_insert. unfold holds.
    destruct (decide (w = x)) as [<-|Hne]; [rewrite Hw|]; simpl; naive_solver. }
  split; simpl; try done.
  - by apply (workers_insert _ _ WLoop).
  - intros idx Hc Hl. destruct (H2 idx Hc Hl) as [?|[x Hx]]; [by left|right]. exists x. by apply Hh.
  - intros x idx Hx%Hh. eauto.
  - intros x x' idx Hx%Hh Hx'%Hh. eauto.
  - intros Ht. destruct (H7 Ht) as (x & idx & Hx). exists x, idx. simpl. rewrite lookup_insert_ne; [done|]. intros <-. congruence.
Qed.

(** The cursor passes the end, or a script whose slot is filled at once. *)
Lemma skip_inv p rs : par_inv p → p_terminalFailure p = false →
  match scripts !! p_cursor p with
  | None => rs = p_results p
  | Some e => ∃ r, rs = <[p_cursor p := r]> (p_results p) ∧ br_id r = be_id e
  end →
  par_inv (mkPar (S (p_cursor p)) false (p_workers p) rs).
Proof.
  intros [H1 H2 H3 H4 H5 H6 H7] Ht Hrs.
  assert (Hnew : p_results p !! p_cursor p = None).
  { destruct (p_results p !! p_cursor p) eqn:E1; [|done]. apply H3 in E1 as [? _]. lia. }
  split; simpl; try done.
  - intros idx Hc Hl. destruct (decide (idx = p_cursor p)) as [->|Hne].
    + apply lookup_lt_is_Some in Hl as [e He]. rewrite He in Hrs. destruct Hrs as (r & -> & _). left. by rewrite lookup_insert_eq.
    + destruct (H2 idx ltac:(lia) Hl) as [Hr|?]; [left|by right].
      destruct (scripts !! p_cursor p); [destruct Hrs as (r & -> & _); by rewrite lookup_insert_ne|by rewrite Hrs].
  - intros idx r Hr. destruct (scripts !! p_cursor p) as [e|] eqn:Ee; [|subst rs; destruct (H3 _ _ Hr); split; [lia|done]].
    destruct Hrs as (r0 & -> & Hr0). apply lookup_insert_Some in Hr as [[<- <-]|[_ Hr]]; [split; [lia|eauto]|].
    destruct (H3 _ _ Hr). split; [lia|done].
  - intros x idx Hx. destruct (H4 x idx Hx) as [Hlt Hn]. split; [lia|].
    destruct (scripts !! p_cursor p); [destruct Hrs as (r & -> & _); rewrite lookup_insert_ne; [done|lia]|by rewrite Hrs].
  - intros x Hx. destruct (H6 x Hx); [congruence|right; lia].
Qed.

(** A worker takes the script under the cursor. *)
Lemma take_inv w p : p_workers p !! w = Some WLoop → p_terminalFailure p = false → par_inv p →
  par_inv (mkPar (S (p_cursor p)) false (<[w := WRunning (p_cursor p)]> (p_workers p)) (p_results p)).
Proof.
  intros Hw Ht [H1 H2 H3 H4 H5 H6 H7].
  assert (Hnew : p_results p !! p_cursor p = None).
  { destruct (p_results p !! p_cursor p) eqn:E1; [|done]. apply H3 in E1 as [? _]. lia. }
  assert (Hfree : ∀ x, ¬ holds p x (p_cursor p)) by (intros x Hx; destruct (H4 _ _ Hx); lia).
  split; simpl.
  - by apply (workers_insert _ _ WLoop).
  - intros idx Hc Hl. destruct (decide (idx = p_cursor p)) as [->|Hne].
    + right. exists w. apply holds_insert. by left.
    + destruct (H2 idx ltac:(lia) Hl) as [?|[x Hx]]; [by left|right]. exists x. apply holds_insert. right. split; [|done].
      intros <-. unfold holds in Hx. by rewrite Hw in Hx.
  - intros idx r Hr. destruct (H3 _ _ Hr). split; [lia|done].
  - intros x idx [[_ [= <-]]|[_ Hx]]%holds_insert; [split; [lia|done]|]. destruct (H4 x idx Hx). split; [lia|done].
  - intros x x' idx [[<- [= <-]]|[_ Hx]]%holds_insert [[<- Hi]|[_ Hx']]%holds_insert; [done|by apply Hfree in Hx'| |by eapply H5].
    injection Hi as <-. by apply Hfree in Hx.
  - intros x [[_ ?]|[_ Hx]]%lookup_insert_Some; [done|]. destruct (H6 x Hx); [congruence|right; lia].
  - done.
Qed.

Lemma worker_next_inv w aborted timedOut p : p_workers p !! w = Some WLoop → par_inv p → par_inv (worker_next w aborted timedOut p).
Proof.
  intros Hw Hp. unfold worker_next. destruct (p_terminalFailure p) eqn:Et; [apply end_inv; auto|].
  destruct (scripts !! p_cursor p) as [entry|] eqn:Es.
  - destruct aborted; [|unfold set_worker; simpl; by apply take_inv]. apply skip_inv; [done|done|]. rewrite Es. eauto.
  - apply end_inv; [done|right; simpl|apply skip_inv; [done|done|by rewrite Es]]. apply lookup_ge_None in Es. lia.
Qed.

(** A worker fills the slot of the script it ran. *)
Lemma store_inv w idx e r p : p_workers p !! w = Some (WRunning idx) → scripts !! idx = Some e → br_id r = be_id e → par_inv p →
  par_inv (mkPar (p_cursor p) (p_terminalFailure p) (<[w := WLoop]> (p_workers p)) (<[idx := r]> (p_results p))).
Proof.
  intros Hw Hs Hr [H1 H2 H3 H4 H5 H6 H7].
  assert (Hold : holds p w idx) by (unfold holds; by rewrite Hw).
  destruct (H4 _ _ Hold) as [Hlt Hn]. split; simpl.
  - by apply (workers_insert _ _ (WRunning idx)).
  - intros j Hc Hl. destruct (decide (idx = j)) as [<-|Hne]; [left; by rewrite lookup_insert_eq|].
    destruct (H2 j Hc Hl) as [?|[x Hx]]; [left; by rewrite lookup_insert_ne|right]. exists x. apply holds_insert. right.
    split; [|done]. intros <-. unfold holds in Hx, Hold. rewrite Hold in Hx. congruence.
  - intros j rj [[<- <-]|[_ Hj]]%lookup_insert_Some; [eauto|by eapply H3].
  - intros x j [[_ ?]|[Hne Hx]]%holds_insert; [done|]. destruct (H4 x j Hx) as [? Hj]. split; [done|].
    rewrite lookup_insert_ne; [done|]. intros <-. by apply Hne, (H5 w x idx).
  - intros x x' j [[_ ?]|[_ Hx]]%holds_insert [[_ ?]|[_ Hx']]%holds_insert; [done..|]. by eapply H5.
  - intros x [[_ ?]|[_ Hx]]%lookup_insert_Some; [done|by eapply H6].
  - intros Ht. destruct (H7 Ht) as (x & j & Hx). exists x, j. simpl. rewrite lookup_insert_ne; [done|]. intros <-. congruence.
Qed.

(** A worker fails for good. *)
Lemma worker_fail_inv w idx p : p_workers p !! w = Some (WRunning idx) → par_inv p →
  par_inv (mkPar (p_cursor p) true (<[w := WFailed idx]> (p_workers p)) (p_results p)).
Proof.
  intros Hw [H1 H2 H3 H4 H5 H6 H7].
  assert (Hh : ∀ x j, holds (mkPar (p_cursor p) true (<[w := WFailed idx]> (p_workers p)) (p_results p)) x j ↔ holds p x j).
  { intros x j. rewrite holds_insert. unfold holds. destruct (decide (w = x)) as [<-|Hne]; [rewrite Hw|]; simpl; naive_solver. }
  split; simpl; [by apply (workers_insert _ _ (WRunning idx))| |done|intros x j ?%Hh; eauto|intros x x' j ?%Hh ?%Hh; eauto|by left|].
  - intros j Hc Hl. destruct (H2 j Hc Hl) as [?|[x Hx]]; [by left|right]. exists x. by apply Hh.
  - intros _. exists w, idx. simpl. by rewrite lookup_insert_eq.
Qed.

Lemma p_step_inv p p' : p_step p p' → par_inv p → par_inv p'.
Proof.
  destruct 1 as [p w ab tm Hw|p w idx entry answer ab tm sh Hw Hs]; [by apply worker_next_inv|].
  intros Hp. unfold worker_answer. destruct answer as [so se ec xa|e| |]; [|by apply worker_fail_inv|by apply (store_inv w idx entry)..].
  destruct (_ && _); by apply (store_inv w idx entry).
Qed.

Lemma par_reachable_inv p : rtc p_step runParallel_start p → par_inv p.
Proof.
  assert (Hgen : ∀ p0 p, rtc p_step p0 p → par_inv p0 → par_inv p) by (induction 1; eauto using p_step_inv).
  intros Hp. exact (Hgen _ _ Hp start_par_inv).
Qed.

(** *** Termination *)

Definition is_live (st : WorkerState) : bool := match st with WLoop | WRunning _ => true | _ => false end.
Definition is_running (st : WorkerState) : bool := match st with WRunning _ => true | _ => false end.

(** What is left to do: three steps for a script nobody has taken, two for a
    running one, one for the end of a worker. *)
Definition work_left (p : Par) : Z :=
  (3 * Z.of_nat (length scripts - p_cursor p) + gcount is_live (p_workers p) + gcount is_running (p_workers p))%Z.

Lemma p_step_work p p' : p_step p p' → (work_left p' < work_left p)%Z.
Proof.
  destruct 1 as [p w ab tm Hw|p w idx entry answer ab tm sh Hw Hs]; unfold work_left.
  - unfold worker_next. destruct (p_terminalFailure p); [|destruct (scripts !! p_cursor p) as [e|] eqn:Es; [destruct ab|]]; simpl;
      rewrite ?(gcount_update _ _ _ _ _ Hw); simpl; try apply lookup_lt_Some in Es; lia.
  - assert (Hd : ∀ st, st = WLoop ∨ st = WFailed idx → (gcount is_live (<[w := st]> (p_workers p)) + gcount is_running (<[w := st]> (p_workers p)) <
      gcount is_live (p_workers p) + gcount is_running (p_workers p))%Z).
    { intros st Hst. rewrite !(gcount_update _ _ _ _ _ Hw). destruct Hst as [->| ->]; simpl; lia. }
    pose proof (Hd WLoop (or_introl eq_refl)). pose proof (Hd (WFailed idx) (or_intror eq_refl)).
    unfold worker_answer. repeat case_match; simpl; lia.
Qed.

Lemma p_steps_work n p p' : nsteps p_step n p p' → (Z.of_nat n + work_left p' ≤ work_left p)%Z.
Proof. induction 1 as [p|n p p1 p' Hs _ IH]; [lia|]. apply p_step_work in Hs. lia. Qed.

Lemma work_start : (work_left runParallel_start ≤ 3 * Z.of_nat (length scripts) + Z.of_nat MAX_BATCH_PARALLELISM)%Z.
Proof.
  unfold work_left. simpl. rewrite Nat.sub_0_r.
  assert (E0 : gcount is_running start_workers = 0%Z).
  { apply gcount_zero. intros k v. rewrite start_workers_lookup. case_decide; [|done]. by intros [= <-]. }
  assert (El : (gcount is_live start_workers ≤ Z.of_nat cap)%Z); [|unfold cap in *; lia].
  unfold gcount. apply Nat2Z.inj_le. etransitivity; [apply map_subseteq_size, map_filter_subseteq|]. unfold start_workers.
  rewrite map_size_list_to_map; [by rewrite length_fmap, length_seq|].
  rewrite <- list_fmap_compose. simpl. rewrite list_fmap_id. apply NoDup_seq.
Qed.

Lemma work_nonneg p : (0 ≤ work_left p)%Z.
Proof. unfold work_left. pose proof (gcount_nonneg is_live (p_workers p)). pose proof (gcount_nonneg is_running (p_workers p)). lia. Qed.

(** The scripts that are held exist. *)
Definition held_exist (p : Par) : Prop := ∀ w idx, holds p w idx → idx < length scripts.

Lemma p_step_held p p' : p_step p p' → held_exist p → held_exist p'.
Proof.
  assert (Hins : ∀ c t rs w st p, held_exist p → (∀ idx, holding st = Some idx → idx < length scripts) →
    held_exist (mkPar c t (<[w := st]> (p_workers p)) rs)).
  { intros c t rs w st q Hq Hst x idx [[_ Hx]|[_ Hx]]%holds_insert; [by apply Hst|by apply (Hq x)]. }
  destruct 1 as [p w ab tm Hw|p w idx entry answer ab tm sh Hw Hs]; intros Hp.
  - unfold worker_next. destruct (p_terminalFailure p); [by apply Hins|].
    destruct (scripts !! p_cursor p) as [e|] eqn:Es; [destruct ab; [exact Hp|]|]; apply (Hins _ _ _ _ _ p Hp); simpl; [|done].
    intros idx [= <-]. by eapply lookup_lt_Some.
  - assert (idx < length scripts) by by eapply lookup_lt_Some.
    unfold worker_answer. repeat case_match; apply Hins; try done; intros j [= <-]; done.
Qed.

Lemma reachable_held p : rtc p_step runParallel_start p → held_exist p.
Proof.
  assert (Hgen : ∀ p0 p, rtc p_step p0 p → held_exist p0 → held_exist p) by (induction 1; eauto using p_step_held).
  intros Hp. apply (Hgen _ _ Hp). intros w idx. unfold holds. simpl. rewrite start_workers_lookup. by case_decide.
Qed.

(** As long as a worker has not settled, something can happen. *)
Lemma unsettled_step p : held_exist p → ¬ settled p → ∃ p', p_step p p'.
Proof.
  intros Hh Hn.
  destruct (decide (map_Exists (λ _ st, is_live st = true) (p_workers p))) as [(w & st & Hw & Hl)|Hno].
  - destruct st as [|idx| |idx]; try done; [by exists (worker_next w false false p); apply p_next|].
    destruct (lookup_lt_is_Some_2 scripts idx) as [entry Hentry].
    { apply (Hh w idx). unfold holds. by rewrite Hw. }
    exists (worker_answer w idx entry XPlain false false false p). by apply p_answer.
  - destruct Hn. intros w st Hw. destruct st as [|idx| |idx]; eauto; destruct Hno; eexists w, _; eauto.
Qed.

(** When all have settled, one has failed or every slot is filled. *)
Lemma settled_complete p : par_inv p → settled p → has_failure p ∨ ∀ idx, idx < length scripts → is_Some (p_results p !! idx).
Proof.
  intros [H1 H2 H3 H4 H5 H6 H7] Hset.
  destruct (decide (map_Exists (λ _ st, is_Some (holding st)) (p_workers p))) as [(w & st & Hw & [idx Hst])|Hno].
  { left. destruct (Hset w st Hw) as [->|[j ->]]; [done|]. by exists w, j. }
  right. intros idx Hidx.
  assert (Hend : p_terminalFailure p = false ∧ length scripts ≤ p_cursor p).
  { destruct (proj2 (H1 0)) as [st Hst]; [unfold cap, MAX_BATCH_PARALLELISM; lia|].
    assert (Ht : p_terminalFailure p = false).
    { destruct (p_terminalFailure p); [|done]. destruct (H7 eq_refl) as (w & j & Hw). destruct Hno. exists w, (WFailed j). by split. }
    split; [done|]. destruct (Hset 0 st Hst) as [->|[j ->]].
    - destruct (H6 0 Hst); [congruence|done].
    - destruct Hno. by exists 0, (WFailed j). }
  destruct (H2 idx ltac:(lia) Hidx) as [?|[w Hw]]; [done|]. destruct Hno. unfold holds in Hw.
  destruct (p_workers p !! w) as [st|] eqn:Est; [|done]. exists w, st. by split.
Qed.

(** C30: A parallel batch ends, with every slot filled. It makes at most three
    steps for each script and one for each worker, and is not stuck before all
    workers have settled. In every state it can reach, at most sixteen scripts
    run at once, no two workers run the same script, and a filled slot is never
    run again and carries its script's id. When all workers have settled, either
    one of them failed and the batch throws, or every script has its result. *)
Theorem parallel_batch_complete n p :
  nsteps p_step n runParallel_start p →
  n ≤ 3 * length scripts + MAX_BATCH_PARALLELISM ∧
  (¬ settled p → ∃ p', p_step p p') ∧
  (∀ w st, p_workers p !! w = Some st → w < MAX_BATCH_PARALLELISM) ∧
  (∀ w w' idx, p_workers p !! w = Some (WRunning idx) → p_workers p !! w' = Some (WRunning idx) → w = w') ∧
  (∀ w idx, p_workers p !! w = Some (WRunning idx) → p_results p !! idx = None) ∧
  (∀ idx r, p_results p !! idx = Some r → ∃ e, scripts !! idx = Some e ∧ br_id r = be_id e) ∧
  (settled p → has_failure p ∨ ∀ idx, idx < length scripts → is_Some (p_results p !! idx)).
Proof.
  intros Hrun. pose proof (p_steps_work _ _ _ Hrun) as Hw0. pose proof work_start as Hw1. pose proof (work_nonneg p) as Hw2.
  pose proof (par_reachable_inv p (rtc_nsteps_2 _ _ _ Hrun)) as Hinv. split; [lia|].
  split; [apply unsettled_step, reachable_held; by eapply rtc_nsteps_2|]. pose proof Hinv as [H1 H2 H3 H4 H5 H6 H7].
  assert (Hh : ∀ w idx, p_workers p !! w = Some (WRunning idx) → holds p w idx) by (intros w idx Hw; unfold holds; by rewrite Hw).
  split_and!.
  - intros w st Hw. assert (w < cap) by (apply H1; by rewrite Hw). unfold cap in *. lia.
  - eauto.
  - intros w idx Hw. by apply (H4 w idx), Hh.
  - intros idx r Hr. by apply (H3 idx r).
  - by apply settled_complete.
Qed.
End parallel.

(** ** A run of two workers on three scripts *)

Definition demo_scripts3 : list BatchScriptEntry := [mkEntry "a" "ls"; mkEntry "b" "pwd"; mkEntry "c" "ls /"].

Definition demo_batch : Par :=
  let ok s := XDone s EmptyString 0 false : ExecAnswer unit in
  let n w p := worker_next demo_scripts3 w false false p in
  let r w i e s p := worker_answer w i e (ok s) false false false p in
  n 2 (n 1 (n 0 (r 0 2 (mkEntry "c" "ls /") "z" (n 0 (r 0 0 (mkEntry "a" "ls") "x" (r 1 1 (mkEntry "b" "pwd") "y" (n 1 (n 0 (runParallel_start demo_scripts3))))))))).

Lemma demo_batch_run : nsteps (p_step (E := unit) demo_scripts3) 9 (runParallel_start demo_scripts3) demo_batch.
Proof.
  unfold demo_batch. do 9 (eapply nsteps_r; [|first [apply p_next; vm_compute; reflexivity | apply p_answer; vm_compute; reflexivity]]).
  apply nsteps_O.
Qed.

Lemma parallel_batch_complete_witness :
  settled demo_batch ∧ (has_failure demo_batch ∨ ∀ idx, idx < 3 → is_Some (p_results demo_batch !! idx)).
Proof.
  assert (Hs : settled demo_batch).
  { assert (E : p_workers demo_batch = <[0 := WEnded]> (<[1 := WEnded]> {[2 := WEnded]})) by (vm_compute; reflexivity).
    intros w st. rewrite E. intros [[_ <-]|[_ [[_ <-]|[_ [_ <-]%lookup_singleton_Some]]%lookup_insert_Some]]%lookup_insert_Some; by left. }
  split; [exact Hs|].
  exact (proj2 (proj2 (proj2 (proj2 (proj2 (proj2 (parallel_batch_complete (E := unit) demo_scripts3 9 demo_batch demo_batch_run)))))) Hs).
Defined.
