(* ===== verification/Executions.v ===== *)
(** Executions of scripts in a session, one and many
    ([execWithRuntimeThrottle] of src/src/api/session-manager.ts, the body of
    /exec-sync of src/src/api/routes/exec.ts, and [executeBatch] of
    src/src/api/lib/batch-exec.ts with a session under it).

    [Batch] has the loops of a batch over what the executions answer; here the
    executions are scripts on the session. In a read-only scope they run in
    parallel: a turn is one call of one of them, the turns are a schedule, and
    what a schedule leaves open is run to its end. *)

From S2P Require Import Prelude Batch Breaker DistLock LockRuns Errors Paths Store Tree Dialect Lifecycle LoadPaths View Session Namespace Coherence Simulation Journal Invariant Mutate Handlers SqlFs Ingest IngestRows IngestSim IngestSound Scopes Machine Guarantees Isolation Contents Exec ExecSound Readers ApiErrors SessionLock.

(** ** One script *)

Inductive ExecSyncResult := ExecDone (result : BashExecResult) | ExecTimeout.

(** What an execution meets: the runtime admission may refuse it, the timer may
    go off, the lease may be lost, and the limits. *)
Record ExecRun := mkExecRun {
  er_busy : option fs_error;
  er_timedOut : bool;
  er_leaseAborted : bool;
  er_maxFileBytes : option Z;
  er_inputLimitBytes : option Z;
  er_cwd : string;
}.

Section executions.
Context `{Config} `{Lru}.

(** An error of the filesystem that escaped from the shell gets a code of its own. *)
Definition escaped (err : fs_error) : fs_error :=
  match execFsError id (Some (js_error err)) with
  | Some escaped => Coded (default EmptyString (e_code escaped))
  | None => err
  end.

Definition execWithRuntimeThrottle (x : ExecEnv) (run : ExecRun) (sc : Script BashExecResult) : sysM (BashExecResult * string) :=
  catch (match er_busy run with Some e => throw e | None => executeSessionRuntime x (er_cwd run) sc end)
    (λ err, throw (escaped err)).

(** An error without a code, which is what an abort throws, is the timer's. *)
Definition exec_once (x : ExecEnv) (run : ExecRun) (sc : Script BashExecResult) : sysM ExecSyncResult :=
  catch
    (let* result := execWithRuntimeThrottle x run sc in
     retM (if er_timedOut run && executionAborted result.1 && negb (er_leaseAborted run) then ExecTimeout else ExecDone result.1))
    (λ e, if er_timedOut run && bool_decide (error_code e = None) then retM ExecTimeout else throw e).

(** ** Batches *)

(** What a script of a batch meets, and what it prints. *)
Record BatchRun := mkBatchRun {
  ba_run : ExecRun;
  ba_lost : bool;
  ba_ownerLost : bool;
  ba_stdout : string;
  ba_stderr : string;
}.

Definition batch_env (b : BatchRun) : ExecEnv :=
  mkExecEnv false (er_maxFileBytes (ba_run b)) (er_inputLimitBytes (ba_run b)) 0 (ba_lost b) (ba_ownerLost b).

(** [isExecutionAbort] and the test of the code. *)
Definition exec_answer (b : BatchRun) (r : res fs_error BashExecResult) : ExecAnswer fs_error :=
  match r with
  | Ok result => XDone (ba_stdout b) (ba_stderr b) (exitCode result) (executionAborted result)
  | Err e => match error_code e with
             | None => XPlain
             | Some code => if decide (code = "ABORTED") then XAborted else XCoded e
             end
  end.

Context (shell : string → option string → option (list (string * string)) → Script BashExecResult).

(** *** One after the other *)

Definition at_cwd (cwd : string) (run : ExecRun) : ExecRun :=
  mkExecRun (er_busy run) (er_timedOut run) (er_leaseAborted run) (er_maxFileBytes run) (er_inputLimitBytes run) cwd.

Definition no_run : BatchRun := mkBatchRun (mkExecRun None false false None None "/") false false EmptyString EmptyString.

(** A script of a batch on the session: its working directory is the one the last
    left; [runs] is what the executions meet, in order. *)
Definition batch_exec (script : string) (st : Sys * (string * list BatchRun)) : ExecAnswer fs_error * (Sys * (string * list BatchRun)) :=
  let '(s, (cwd, runs)) := st in
  let b := List.hd no_run runs in
  let '(r, s') := execWithRuntimeThrottle (batch_env b) (at_cwd cwd (ba_run b)) (shell script None None) s in
  match r with
  | Ok (result, cwd') => (exec_answer b (Ok result), (s', (cwd', List.tl runs)))
  | Err e => (exec_answer b (Err e), (s', (cwd, List.tl runs)))
  end.

Definition sequential_batch (cwd : string) (runs : list BatchRun) (scripts : list (BatchScriptEntry * Situation)) : sysM (list BatchScriptResult) := λ s,
  let '(r, (s', _)) := runSequential batch_exec scripts (s, (cwd, runs)) in (r, s').

(** *** In parallel *)

(** What a worker sees on its turn: whether the shared signal is aborted, whether
    the deadline has passed, whether either timer has fired, whether the signal
    of its script is aborted, and what its script meets. *)
Record Wake := mkWake {
  wk_aborted : bool;
  wk_deadline : bool;
  wk_timedOut : bool;
  wk_scriptAborted : bool;
  wk_run : BatchRun;
}.

(** The workers, what is left of the script each of them runs, with its context,
    and the errors they ended with. *)
Record Threads := mkThreads {
  th_par : Par;
  th_running : gmap nat (option ExecContext * Script BashExecResult);
  th_errors : gmap nat fs_error;
}.

(** A call in the context of a script, and the context afterwards. *)
Definition in_context {A} (c : option ExecContext) (m : sysM A) : sysM (res fs_error A * option ExecContext) := λ s,
  let '(r, s') := m (set_exec c s) in (Ok (r, s_exec s'), set_exec (s_exec s) s').

(** The start of [exec_in_scope] and of what is around it. *)
Definition start_script (b : BatchRun) (sc : Script BashExecResult) : sysM (option ExecContext * Script BashExecResult) :=
  match er_busy (ba_run b) with
  | Some e => retM (None, SThrow e)
  | None =>
      let* rc := in_context (Some (mkExec (er_maxFileBytes (ba_run b)) (er_inputLimitBytes (ba_run b)) 0 None)) (consumeExecInput 0 "stdin") in
      retM (rc.2, match rc.1 with Ok _ => sc | Err e => SThrow e end)
  end.

(** Its end: an excess that was recorded is thrown. *)
Definition script_end (c : option ExecContext) (r : res fs_error BashExecResult) : res fs_error BashExecResult :=
  match r with
  | Ok result => match c ≫= exceeded with Some e => Err (escaped e) | None => Ok result end
  | Err e => Err (escaped e)
  end.

Context (scripts : list BatchScriptEntry).

Definition answer_thread (w idx : nat) (entry : BatchScriptEntry) (k : Wake) (r : res fs_error BashExecResult) (th : Threads) : Threads :=
  let answer := exec_answer (wk_run k) r in
  mkThreads (worker_answer w idx entry answer (wk_scriptAborted k) (wk_timedOut k) (wk_aborted k) (th_par th))
    (delete w (th_running th))
    (match answer with XCoded e => <[w := e]> (th_errors th) | _ => th_errors th end).

Definition set_running (w : nat) (cs : option ExecContext * Script BashExecResult) (th : Threads) : Threads :=
  mkThreads (th_par th) (<[w := cs]> (th_running th)) (th_errors th).

(** The head of a worker's loop. *)
Definition next_script (w : nat) (k : Wake) (th : Threads) : sysM Threads :=
  let p := worker_next scripts w (wk_aborted k) (wk_deadline k) (th_par th) in
  match (p_workers p !! w ≫= holding) ≫= (λ idx, scripts !! idx) with
  | Some entry =>
      let* cs := start_script (wk_run k) (shell (be_script entry) None None) in
      retM (mkThreads p (<[w := cs]> (th_running th)) (th_errors th))
  | None => retM (mkThreads p (th_running th) (th_errors th))
  end.

(** A turn of worker [w]. [whole]: its script runs to its end, and not only to its
    next call. *)
Definition turn (whole : bool) (w : nat) (k : Wake) (th : Threads) : sysM Threads :=
  match p_workers (th_par th) !! w with
  | Some WLoop => next_script w k th
  | Some (WRunning idx) =>
      match scripts !! idx, default (None, SThrow (PlainError EmptyString)) (th_running th !! w) with
      | Some entry, (c, sc) =>
          if whole then let* rc := in_context c (run_script sc) in retM (answer_thread w idx entry k (script_end rc.2 rc.1) th)
          else
            match sc with
            | SReturn a => retM (answer_thread w idx entry k (script_end c (Ok a)) th)
            | SThrow e => retM (answer_thread w idx entry k (script_end c (Err e)) th)
            | SCall o kk => let* rc := in_context c (run_op o) in retM (set_running w (rc.2, kk rc.1) th)
            | SQuery q kk => let* rc := in_context c (run_query q) in retM (set_running w (rc.2, kk rc.1) th)
            end
      | None, _ => retM th
      end
  | _ => retM th
  end.

Fixpoint turns (whole : bool) (schedule : list (nat * Wake)) (th : Threads) : sysM Threads :=
  match schedule with
  | [] => retM th
  | (w, k) :: rest => let* th' := turn whole w k th in turns whole rest th'
  end.

(** Enough whole turns of every worker for all of them to settle. *)
Definition last_turns (k : Wake) : list (nat * Wake) :=
  List.concat (repeat ((λ w, (w, k)) <$> seq 0 (cap scripts)) (S (3 * length scripts + MAX_BATCH_PARALLELISM))).

(** [failure]: of the errors of the workers, in order, the first that preserves an
    ambiguous outcome, or the first. *)
Definition failure (th : Threads) : option fs_error :=
  let errors := omap (λ w, th_errors th !! w) (seq 0 (cap scripts)) in
  match List.find (λ e, preservesAmbiguousOutcome (Some (js_error e))) errors with
  | Some e => Some e
  | None => head errors
  end.

Definition parallel_batch (schedule : list (nat * Wake)) (k : Wake) : sysM (list BatchScriptResult) :=
  let* th := turns false schedule (mkThreads (runParallel_start scripts) ∅ ∅) in
  let* th' := turns true (last_turns k) th in
  match failure th' with
  | Some e => throw e
  | None => retM (omap (λ idx, p_results (th_par th') !! idx) (seq 0 (length scripts)))
  end.

(** *** Every batch ends *)

Abbreviation par_step := (p_step (E := fs_error) scripts).

(** A state the workers can be in; who failed has an error. *)
Definition threads_ok (th : Threads) : Prop :=
  rtc par_step (runParallel_start scripts) (th_par th) ∧
  ∀ w idx, p_workers (th_par th) !! w = Some (WFailed idx) → is_Some (th_errors th !! w).

Definition live_at (th : Threads) (w : nat) : bool := default false (is_live <$> p_workers (th_par th) !! w).

Lemma answer_ok w idx entry k r th : threads_ok th → p_workers (th_par th) !! w = Some (WRunning idx) → scripts !! idx = Some entry →
  threads_ok (answer_thread w idx entry k r th) ∧ (work_left scripts (th_par (answer_thread w idx entry k r th)) < work_left scripts (th_par th))%Z.
Proof.
  intros [Hp He] Hw Hs.
  assert (Hstep : par_step (th_par th) (th_par (answer_thread w idx entry k r th))) by by apply p_answer.
  split; [split; [by eapply rtc_r|]|by eapply p_step_work]. intros w' idx' Hw'. revert Hw'. simpl.
  destruct (exec_answer (wk_run k) r) as [so se ec ab|e| |]; simpl; [destruct (_ && _); simpl|..]; rewrite lookup_insert_Some.
  all: intros [[<- E]|[Hne Hx]]; try done; try (by eapply He); try (by rewrite lookup_insert_eq).
  rewrite lookup_insert_ne by done. by eapply He.
Qed.

Lemma next_ok w k th : threads_ok th → p_workers (th_par th) !! w = Some WLoop →
  let p := worker_next scripts w (wk_aborted k) (wk_deadline k) (th_par th) in
  (∀ running, threads_ok (mkThreads p running (th_errors th))) ∧ (work_left scripts p < work_left scripts (th_par th))%Z.
Proof.
  intros [Hp He] Hw p. assert (Hstep : par_step (th_par th) p) by by apply p_next.
  split; [|by eapply p_step_work]. intros running. split; [by eapply rtc_r|]. simpl. intros w' idx. subst p. unfold worker_next, set_worker.
  destruct (p_terminalFailure (th_par th)), (scripts !! p_cursor (th_par th)); simpl; try destruct (wk_aborted k); simpl; try by apply He.
  all: rewrite lookup_insert_Some; intros [[_ ?]|[_ ?]]; [done|by eapply He].
Qed.

(** A turn: an idle worker changes nothing; a whole turn of a live one is progress. *)
Lemma turn_ok whole w k th s : threads_ok th →
  ∃ th' s', turn whole w k th s = (Ok th', s') ∧ threads_ok th' ∧ (live_at th w = false → th' = th) ∧
    (whole = true → live_at th w = true → (work_left scripts (th_par th') < work_left scripts (th_par th))%Z).
Proof.
  intros Hok. unfold turn, live_at. destruct (p_workers (th_par th) !! w) as [[|idx| |idx]|] eqn:Hw; simpl;
    try (by exists th, s; split_and!).
  - destruct (next_ok w k th Hok Hw) as [Hn Hwork]. unfold next_script. cbv zeta in *. destruct (_ ≫= _) as [entry|].
    + unfold start_script. destruct (er_busy _); [eexists _, _; by split_and!|].
      unfold bindM at 1 2, in_context. destruct (consumeExecInput _ _ _) as [r1 s1]. eexists _, _. by split_and!.
    + eexists _, _. by split_and!.
  - assert (Hheld : is_Some (scripts !! idx)).
    { apply lookup_lt_is_Some_2. apply (reachable_held scripts (th_par th) (proj1 Hok) w). unfold holds. by rewrite Hw. }
    destruct Hheld as [entry Hs]. rewrite Hs. destruct (default _ _) as [c sc]. destruct whole.
    + unfold bindM, in_context. destruct (run_script sc (set_exec c s)) as [r1 s1]. eexists _, _. split; [reflexivity|].
      destruct (answer_ok w idx entry k (script_end (s_exec s1) r1) th Hok Hw Hs). by split_and!.
    + destruct sc as [a|e|o kk|q kk].
      * eexists _, _. split; [reflexivity|]. by destruct (answer_ok w idx entry k (script_end c (Ok a)) th Hok Hw Hs).
      * eexists _, _. split; [reflexivity|]. by destruct (answer_ok w idx entry k (script_end c (Err e)) th Hok Hw Hs).
      * unfold bindM, in_context. destruct (run_op o (set_exec c s)). eexists _, _. by split_and!.
      * unfold bindM, in_context. destruct (run_query q (set_exec c s)). eexists _, _. by split_and!.
Qed.

Lemma turns_ok whole l th s : threads_ok th → ∃ th' s', turns whole l th s = (Ok th', s') ∧ threads_ok th' ∧
  (whole = true → (work_left scripts (th_par th') < work_left scripts (th_par th))%Z ∨ th' = th ∧ Forall (λ wk, live_at th wk.1 = false) l).
Proof.
  revert th s. induction l as [|[w k] l IH]; intros th s Hok; [exists th, s; split_and!; auto|].
  destruct (turn_ok whole w k th s Hok) as (th1 & s1 & E1 & Hok1 & Hidle & Hlive).
  destruct (IH th1 s1 Hok1) as (th2 & s2 & E2 & Hok2 & Hw2). exists th2, s2. simpl. unfold bindM. rewrite E1. split; [done|]. split; [done|].
  intros Hw. destruct (live_at th w) eqn:El.
  - left. specialize (Hlive Hw eq_refl). destruct (Hw2 Hw) as [?|[-> _]]; lia.
  - rewrite (Hidle eq_refl) in *. destruct (Hw2 Hw) as [?|[-> ?]]; [by left|right]. split; [done|]. by constructor.
Qed.

Lemma turns_app whole l1 l2 th s : turns whole (l1 ++ l2) th s = bindM (turns whole l1 th) (turns whole l2) s.
Proof.
  revert th s. induction l1 as [|[w k] l1 IH]; intros th s; [done|]. simpl. rewrite bindM_assoc. unfold bindM at 1 2.
  destruct (turn whole w k th s) as [[th1|e] s1]; [apply IH|done].
Qed.

Lemma idle_settled th k : threads_ok th → Forall (λ wk : nat * Wake, live_at th wk.1 = false) ((λ w, (w, k)) <$> seq 0 (cap scripts)) →
  Batch.settled (th_par th).
Proof.
  intros [Hp _] Hall w st Hw. apply par_reachable_inv in Hp. assert (Hcap : (w < cap scripts)%nat) by (apply (pi_workers scripts _ Hp); by rewrite Hw).
  rewrite Forall_fmap, Forall_forall in Hall. assert (Hin : w ∈ seq 0 (cap scripts)) by (apply elem_of_seq; lia).
  specialize (Hall w Hin). unfold compose, live_at in Hall. simpl in Hall. rewrite Hw in Hall. destruct st; simpl in Hall; eauto; done.
Qed.

Lemma settled_stays whole l th s th' s' : threads_ok th → Batch.settled (th_par th) → turns whole l th s = (Ok th', s') → th' = th.
Proof.
  intros Hok Hset. revert s. induction l as [|[w k] l IH]; intros s; simpl; [by intros [= <- _]|].
  destruct (turn_ok whole w k th s Hok) as (th1 & s1 & E1 & _ & Hidle & _). unfold bindM. rewrite E1, Hidle; [apply IH|].
  unfold live_at. destruct (p_workers (th_par th) !! w) as [st|] eqn:Hw; [|done]. by destruct (Hset w st Hw) as [->|[idx ->]].
Qed.

Lemma rounds_ok k n th s : threads_ok th → ∃ th' s',
  turns true (List.concat (repeat ((λ w, (w, k)) <$> seq 0 (cap scripts)) n)) th s = (Ok th', s') ∧ threads_ok th' ∧
  (Batch.settled (th_par th') ∨ (Z.of_nat n + work_left scripts (th_par th') ≤ work_left scripts (th_par th))%Z).
Proof.
  revert th s. induction n as [|n IH]; intros th s Hok; [exists th, s; split_and!; [done|done|right; lia]|].
  cbn [repeat List.concat]. rewrite turns_app. unfold bindM.
  destruct (turns_ok true ((λ w, (w, k)) <$> seq 0 (cap scripts)) th s Hok) as (th1 & s1 & -> & Hok1 & Hw).
  destruct (IH th1 s1 Hok1) as (th2 & s2 & E2 & Hok2 & Hn). exists th2, s2. split; [done|]. split; [done|].
  destruct (Hw eq_refl) as [Hlt|[-> Hidle]]; [destruct Hn; [by left|right; lia]|].
  left. pose proof (idle_settled th k Hok Hidle) as Hset. by rewrite (settled_stays _ _ _ _ _ _ Hok Hset E2).
Qed.

Lemma failure_some th w e : (w < cap scripts)%nat → th_errors th !! w = Some e → is_Some (failure th).
Proof.
  intros Hw He. unfold failure. destruct (List.find _ _); [by eexists|].
  assert (Hin : e ∈ omap (λ w, th_errors th !! w) (seq 0 (cap scripts))).
  { apply list_elem_of_omap. exists w. split; [apply elem_of_seq; lia|done]. }
  destruct (omap _ _) as [|x l]; [by apply not_elem_of_nil in Hin|by eexists].
Qed.

Lemma collected (rs : gmap nat BatchScriptResult) i (l : list BatchScriptEntry) :
  (∀ j e, l !! j = Some e → ∃ r, rs !! (i + j)%nat = Some r ∧ br_id r = be_id e) →
  br_id <$> omap (λ idx, rs !! idx) (seq i (length l)) = be_id <$> l.
Proof.
  revert i. induction l as [|e l IH]; intros i Hl; [done|]. destruct (Hl 0%nat e eq_refl) as (r & Hr & Hid).
  rewrite Nat.add_0_r in Hr. simpl. rewrite Hr. simpl. f_equal; [done|]. apply IH. intros j e' Hj.
  replace (S i + j)%nat with (i + S j)%nat by lia. by apply (Hl (S j)).
Qed.

(** A parallel batch throws, or answers with a result for every script. *)
Lemma parallel_batch_answers schedule k s : match parallel_batch schedule k s with
  | (Ok results, _) => br_id <$> results = be_id <$> scripts
  | (Err _, _) => True
  end.
Proof.
  unfold parallel_batch. set (start := mkThreads _ _ _).
  assert (Hok : threads_ok start).
  { split; [done|]. intros w idx. subst start. simpl. rewrite start_workers_lookup. by case_decide. }
  destruct (turns_ok false schedule start s Hok) as (th & s1 & E1 & Hok1 & _). rewrite (bindM_Ok _ _ _ _ _ E1).
  destruct (rounds_ok k (S (3 * length scripts + MAX_BATCH_PARALLELISM)) th s1 Hok1) as (th2 & s2 & E2 & Hok2 & Hset).
  unfold last_turns. rewrite (bindM_Ok _ _ _ _ _ E2). destruct (failure th2) eqn:Ef; [done|]. simpl.
  assert (Hsettled : Batch.settled (th_par th2)).
  { destruct Hset as [?|Hlt]; [done|]. exfalso. destruct (rtc_nsteps_1 _ _ (proj1 Hok1)) as [n Hn].
    pose proof (p_steps_work _ _ _ _ Hn). pose proof (work_start scripts). pose proof (work_nonneg scripts (th_par th2)). lia. }
  pose proof (par_reachable_inv scripts _ (proj1 Hok2)) as Hinv.
  destruct (settled_complete scripts _ Hinv Hsettled) as [(w & idx & Hw)|Hall].
  { exfalso. destruct (proj2 Hok2 w idx Hw) as [e He]. destruct (failure_some th2 w e) as [e' He']; [|done|congruence].
    apply (pi_workers scripts _ Hinv). by rewrite Hw. }
  apply collected. intros j e Hj. destruct (Hall j) as [r Hr]; [by eapply lookup_lt_Some|]. exists r. split; [done|].
  destruct (pi_results scripts _ Hinv j r Hr) as (_ & e' & He' & Hid). congruence.
Qed.
End executions.

(** What a batch meets: for each of its scripts, one after the other; or the turns
    of its workers. *)
Record BatchCourse := mkCourse {
  bc_cwd : string;
  bc_runs : list BatchRun;
  bc_situations : list Situation;
  bc_turns : list (nat * Wake);
  bc_last : Wake;
}.

Definition no_situation : Situation := mkSituation false false false false.

Definition executeBatch `{Config} `{Lru} (shell : string → option string → option (list (string * string)) → Script BashExecResult)
    (b : BatchCourse) (scripts : list BatchScriptEntry) : sysM (list BatchScriptResult) :=
  let* context := gets s_violated in
  match context with
  | Some _ => parallel_batch shell scripts (bc_turns b) (bc_last b)
  | None => sequential_batch shell (bc_cwd b) (bc_runs b) (imap (λ i entry, (entry, default no_situation (bc_situations b !! i))) scripts)
  end.
