(* ===== verification/Text.v ===== *)
(** JavaScript text as the edit of a file uses it (src/src/api/lib/file-ops.ts):
    strings are lists of 16-bit code units, files are lists of bytes.

    [encode] is [TextEncoder.encode], which turns a surrogate without its pair
    into U+FFFD; [decode] is the fatal [TextDecoder] that keeps the byte order
    mark. [index_of] is [String.indexOf]. *)

From S2P Require Import Prelude.

(** ** Code units and code points *)

Definition is_high (x : Z) : bool := (55296 <=? x) && (x <=? 56319).
Definition is_low (x : Z) : bool := (56320 <=? x) && (x <=? 57343).

Fixpoint hasLoneSurrogate (s : list Z) : bool :=
  match s with
  | [] => false
  | x :: s' =>
      if is_high x then
        match s' with
        | y :: s'' => if is_low y then hasLoneSurrogate s'' else true
        | [] => true
        end
      else if is_low x then true
      else hasLoneSurrogate s'
  end.

Fixpoint code_points (s : list Z) : list Z :=
  match s with
  | [] => []
  | x :: s' =>
      if is_high x then
        match s' with
        | y :: s'' => if is_low y then (65536 + (x - 55296) * 1024 + (y - 56320)) :: code_points s'' else 65533 :: code_points s'
        | [] => [65533]
        end
      else (if is_low x then 65533 else x) :: code_points s'
  end.

Definition encode_point (cp : Z) : list Z :=
  if cp <? 128 then [cp]
  else if cp <? 2048 then [192 + cp / 64; 128 + cp mod 64]
  else if cp <? 65536 then [224 + cp / 4096; 128 + (cp / 64) mod 64; 128 + cp mod 64]
  else [240 + cp / 262144; 128 + (cp / 4096) mod 64; 128 + (cp / 64) mod 64; 128 + cp mod 64].

Definition encode (s : list Z) : list Z := concat (encode_point <$> code_points s).

(** The code units of a code point. *)
Definition units_of (cp : Z) : list Z :=
  if cp <? 65536 then [cp] else [55296 + (cp - 65536) / 1024; 56320 + (cp - 65536) mod 1024].

Definition is_continuation (b : Z) : bool := (128 <=? b) && (b <=? 191).

Definition in_range (lo hi x : Z) : bool := (lo <=? x) && (x <=? hi).

(** [None] is the TypeError of the fatal decoder. *)
Fixpoint decode (b : list Z) : option (list Z) :=
  match b with
  | [] => Some []
  | b0 :: r =>
      if b0 <? 128 then (λ u, b0 :: u) <$> decode r
      else
        match r with
        | b1 :: r1 =>
            if in_range 194 223 b0 then
              if is_continuation b1 then (λ u, units_of ((b0 - 192) * 64 + (b1 - 128)) ++ u) <$> decode r1 else None
            else
              match r1 with
              | b2 :: r2 =>
                  if in_range 224 239 b0 then
                    let cp := (b0 - 224) * 4096 + (b1 - 128) * 64 + (b2 - 128) in
                    if is_continuation b1 && is_continuation b2 && (2048 <=? cp) && negb (in_range 55296 57343 cp)
                    then (λ u, units_of cp ++ u) <$> decode r2 else None
                  else
                    match r2 with
                    | b3 :: r3 =>
                        let cp := (b0 - 240) * 262144 + (b1 - 128) * 4096 + (b2 - 128) * 64 + (b3 - 128) in
                        if in_range 240 244 b0 && is_continuation b1 && is_continuation b2 && is_continuation b3
                           && in_range 65536 1114111 cp
                        then (λ u, units_of cp ++ u) <$> decode r3 else None
                    | [] => None
                    end
              | [] => None
              end
        | [] => None
        end
  end.

(** ** Encoding *)

Lemma lone_app a b : hasLoneSurrogate a = false → hasLoneSurrogate (a ++ b) = hasLoneSurrogate b.
Proof.
  induction a as [a IH] using (induction_ltof1 _ (@length Z)). unfold ltof in IH.
  destruct a as [|x a]; [done|]. simpl. destruct (is_high x); [|destruct (is_low x); [done|]].
  - destruct a as [|y a]; [done|]. simpl. destruct (is_low y); [|done]. apply IH. simpl. lia.
  - apply IH. simpl. lia.
Qed.

Lemma points_app a b : hasLoneSurrogate a = false → code_points (a ++ b) = code_points a ++ code_points b.
Proof.
  induction a as [a IH] using (induction_ltof1 _ (@length Z)). unfold ltof in IH.
  destruct a as [|x a]; [done|]. simpl. destruct (is_high x); [|destruct (is_low x); [done|]].
  - destruct a as [|y a]; [done|]. simpl. destruct (is_low y); [|done]. intros Ha. by rewrite IH by (simpl; lia || done).
  - intros Ha. by rewrite IH by (simpl; lia || done).
Qed.

Lemma encode_app a b : hasLoneSurrogate a = false → encode (a ++ b) = encode a ++ encode b.
Proof. intros Ha. unfold encode. by rewrite points_app, fmap_app, concat_app. Qed.

(** A well-formed needle is not in the middle of a character. *)
Lemma lone_before a n b : hasLoneSurrogate (a ++ n ++ b) = false → hasLoneSurrogate n = false → n ≠ [] →
  hasLoneSurrogate a = false.
Proof.
  intros Hall Hn Hne. revert Hall. induction a as [a IH] using (induction_ltof1 _ (@length Z)). unfold ltof in IH.
  destruct a as [|x a]; [done|]. simpl. destruct (is_high x) eqn:Ex; [|destruct (is_low x); [done|apply IH; simpl; lia]].
  destruct a as [|y a].
  - destruct n as [|z n]; [done|]. simpl in *. destruct (is_low z) eqn:Ez; [|done].
    assert (is_high z = false) as Eh by (unfold is_high, is_low in *; lia). by rewrite Eh in Hn.
  - simpl. destruct (is_low y); [|done]. apply IH. simpl. lia.
Qed.

Lemma lone_after a n b : hasLoneSurrogate (a ++ n ++ b) = false → hasLoneSurrogate n = false → n ≠ [] →
  hasLoneSurrogate b = false.
Proof.
  intros Hall Hn Hne. pose proof (lone_before a n b Hall Hn Hne) as Ha. by rewrite lone_app, lone_app in Hall.
Qed.

Lemma lone_join a b : hasLoneSurrogate a = false → hasLoneSurrogate b = false → hasLoneSurrogate (a ++ b) = false.
Proof. intros Ha Hb. by rewrite lone_app. Qed.

(** ** What is decoded encodes to the same bytes *)

(** A code point that UTF-8 can carry. *)
Definition scalar (cp : Z) : bool := in_range 0 1114111 cp && negb (in_range 55296 57343 cp).

Lemma units_scalar cp u : scalar cp = true →
  hasLoneSurrogate (units_of cp) = false ∧ code_points (units_of cp ++ u) = cp :: code_points u.
Proof.
  unfold scalar, in_range, units_of. intros Hs. destruct (cp <? 65536) eqn:E.
  - assert (is_high cp = false ∧ is_low cp = false) as [Eh El] by (unfold is_high, is_low; lia).
    simpl. by rewrite Eh, El.
  - set (hi := 55296 + (cp - 65536) / 1024). set (lo := 56320 + (cp - 65536) mod 1024).
    assert (Hdiv : 0 ≤ (cp - 65536) / 1024 < 1024) by (split; [apply Z.div_pos; lia|apply Z.div_lt_upper_bound; lia]).
    pose proof (Z.mod_pos_bound (cp - 65536) 1024 ltac:(lia)) as Hmod.
    assert (is_high hi = true ∧ is_low lo = true) as [Eh El] by (unfold is_high, is_low; subst hi lo; lia).
    simpl. rewrite Eh, El. split; [done|]. f_equal. subst hi lo.
    pose proof (Z.div_mod (cp - 65536) 1024 ltac:(lia)). lia.
Qed.

Lemma encode_scalar cp u : scalar cp = true → encode (units_of cp ++ u) = encode_point cp ++ encode u.
Proof. intros Hs. unfold encode. rewrite (proj2 (units_scalar cp u Hs)). done. Qed.

Lemma encode_point_1 b0 : 0 ≤ b0 < 128 → encode_point b0 = [b0].
Proof. intros Hb. unfold encode_point. by replace (b0 <? 128) with true by lia. Qed.

Lemma encode_point_2 b0 b1 : 194 ≤ b0 ≤ 223 → 128 ≤ b1 ≤ 191 → encode_point ((b0 - 192) * 64 + (b1 - 128)) = [b0; b1].
Proof.
  intros H0 H1. unfold encode_point. set (cp := (b0 - 192) * 64 + (b1 - 128)).
  replace (cp <? 128) with false by lia. replace (cp <? 2048) with true by lia.
  assert (cp / 64 = b0 - 192) as -> by (subst cp; Z.to_euclidean_division_equations; lia).
  assert (cp mod 64 = b1 - 128) as -> by (subst cp; Z.to_euclidean_division_equations; lia).
  repeat f_equal; lia.
Qed.

Lemma encode_point_3 b0 b1 b2 : 224 ≤ b0 ≤ 239 → 128 ≤ b1 ≤ 191 → 128 ≤ b2 ≤ 191 →
  2048 ≤ (b0 - 224) * 4096 + (b1 - 128) * 64 + (b2 - 128) →
  encode_point ((b0 - 224) * 4096 + (b1 - 128) * 64 + (b2 - 128)) = [b0; b1; b2].
Proof.
  intros H0 H1 H2 Hlo. unfold encode_point. set (cp := (b0 - 224) * 4096 + (b1 - 128) * 64 + (b2 - 128)) in *.
  replace (cp <? 128) with false by lia. replace (cp <? 2048) with false by lia. replace (cp <? 65536) with true by lia.
  assert (cp / 64 = (b0 - 224) * 64 + (b1 - 128)) as -> by (subst cp; Z.to_euclidean_division_equations; lia).
  assert (cp / 4096 = b0 - 224) as -> by (subst cp; Z.to_euclidean_division_equations; lia).
  assert (cp mod 64 = b2 - 128) as -> by (subst cp; Z.to_euclidean_division_equations; lia).
  assert (((b0 - 224) * 64 + (b1 - 128)) mod 64 = b1 - 128) as -> by (Z.to_euclidean_division_equations; lia).
  repeat f_equal; lia.
Qed.

Lemma encode_point_4 b0 b1 b2 b3 : 240 ≤ b0 ≤ 244 → 128 ≤ b1 ≤ 191 → 128 ≤ b2 ≤ 191 → 128 ≤ b3 ≤ 191 →
  65536 ≤ (b0 - 240) * 262144 + (b1 - 128) * 4096 + (b2 - 128) * 64 + (b3 - 128) →
  encode_point ((b0 - 240) * 262144 + (b1 - 128) * 4096 + (b2 - 128) * 64 + (b3 - 128)) = [b0; b1; b2; b3].
Proof.
  intros H0 H1 H2 H3 Hlo. unfold encode_point.
  set (cp := (b0 - 240) * 262144 + (b1 - 128) * 4096 + (b2 - 128) * 64 + (b3 - 128)) in *.
  replace (cp <? 128) with false by lia. replace (cp <? 2048) with false by lia. replace (cp <? 65536) with false by lia.
  assert (cp / 64 = (b0 - 240) * 4096 + (b1 - 128) * 64 + (b2 - 128)) as -> by (subst cp; Z.to_euclidean_division_equations; lia).
  assert (cp / 4096 = (b0 - 240) * 64 + (b1 - 128)) as -> by (subst cp; Z.to_euclidean_division_equations; lia).
  assert (cp / 262144 = b0 - 240) as -> by (subst cp; Z.to_euclidean_division_equations; lia).
  assert (cp mod 64 = b3 - 128) as -> by (subst cp; Z.to_euclidean_division_equations; lia).
  assert (((b0 - 240) * 4096 + (b1 - 128) * 64 + (b2 - 128)) mod 64 = b2 - 128) as -> by (Z.to_euclidean_division_equations; lia).
  assert (((b0 - 240) * 64 + (b1 - 128)) mod 64 = b1 - 128) as -> by (Z.to_euclidean_division_equations; lia).
  repeat f_equal; lia.
Qed.

(** The step of the induction: one character more. *)
(** One character of what is decoded. *)
Lemma decode_step b u : Forall (λ x, 0 ≤ x) b → b ≠ [] → decode b = Some u →
  ∃ cp r u', scalar cp = true ∧ b = encode_point cp ++ r ∧ decode r = Some u' ∧ u = units_of cp ++ u'.
Proof.
  intros Hpos Hb. destruct b as [|b0 r]; [done|]. apply Forall_cons in Hpos as [H0 _]. simpl. destruct (b0 <? 128) eqn:E0.
  { intros (u' & Hu & ->)%fmap_Some. exists b0, r, u'. rewrite encode_point_1 by lia. unfold units_of, scalar, in_range.
    replace (b0 <? 65536) with true by lia. split_and!; [lia|done..]. }
  destruct r as [|b1 r1]; [done|]. unfold in_range, is_continuation. destruct ((194 <=? b0) && (b0 <=? 223)) eqn:E1.
  { destruct (_ && _) eqn:C1 at 1; [|done]. intros (u' & Hu & ->)%fmap_Some. exists ((b0 - 192) * 64 + (b1 - 128)), r1, u'. rewrite encode_point_2 by lia.
    split_and!; [unfold scalar, in_range; lia|done..]. }
  destruct r1 as [|b2 r2]; [done|]. destruct ((224 <=? b0) && (b0 <=? 239)) eqn:E2.
  { destruct (_ && _) eqn:C2 at 1; [|done]. intros (u' & Hu & ->)%fmap_Some. exists ((b0 - 224) * 4096 + (b1 - 128) * 64 + (b2 - 128)), r2, u'. rewrite encode_point_3 by lia.
    split_and!; [unfold scalar, in_range; lia|done..]. }
  destruct r2 as [|b3 r3]; [done|]. destruct (_ && _) eqn:C3 at 1; [|done]. intros (u' & Hu & ->)%fmap_Some.
  exists ((b0 - 240) * 262144 + (b1 - 128) * 4096 + (b2 - 128) * 64 + (b3 - 128)), r3, u'. rewrite encode_point_4 by lia. split_and!; [unfold scalar, in_range; lia|done..].
Qed.

Lemma encode_point_length cp : (1 ≤ length (encode_point cp))%nat.
Proof. unfold encode_point. repeat case_match; simpl; lia. Qed.

(** Induction over the characters of what is decoded. *)
Lemma decode_ind (P : list Z → list Z → Prop) : P [] [] →
  (∀ cp r u, scalar cp = true → Forall (λ x, 0 ≤ x) r → decode r = Some u → P r u → P (encode_point cp ++ r) (units_of cp ++ u)) →
  ∀ b u, Forall (λ x, 0 ≤ x) b → decode b = Some u → P b u.
Proof.
  intros Hnil Hcons b. induction b as [b IH] using (induction_ltof1 _ (@length Z)). unfold ltof in IH. intros u Hb Hd.
  destruct (decide (b = [])) as [->|Hne]; [by injection Hd as <-|].
  destruct (decode_step b u Hb Hne Hd) as (cp & r & u' & Hcp & -> & Hr & ->). apply Forall_app in Hb as [_ Hb].
  apply Hcons; [done..|]. apply IH; [|done|done]. rewrite length_app. pose proof (encode_point_length cp). lia.
Qed.

Lemma decode_sound b u : Forall (λ x, 0 ≤ x) b → decode b = Some u → encode u = b ∧ hasLoneSurrogate u = false.
Proof.
  revert b u. apply decode_ind; [done|]. intros cp r u Hcp _ _ [<- Hu]. rewrite encode_scalar by done. split; [done|].
  apply lone_join; [by apply units_scalar|done].
Qed.

(** ** What is encoded decodes to the same text *)

Lemma decode_point cp r : scalar cp = true → decode (encode_point cp ++ r) = (λ u, units_of cp ++ u) <$> decode r.
Proof.
  unfold scalar, in_range. intros Hs. unfold encode_point. destruct (cp <? 128) eqn:E1.
  { simpl. rewrite E1. unfold units_of. by replace (cp <? 65536) with true by lia. }
  pose proof (Z.mod_pos_bound cp 64 ltac:(lia)). pose proof (Z.div_mod cp 64 ltac:(lia)).
  destruct (cp <? 2048) eqn:E2.
  { cbn [app decode]. replace (192 + cp / 64 <? 128) with false by lia. unfold in_range, is_continuation.
    replace ((194 <=? 192 + cp / 64) && (192 + cp / 64 <=? 223)) with true by lia.
    replace ((128 <=? 128 + cp mod 64) && (128 + cp mod 64 <=? 191)) with true by lia.
    by replace ((192 + cp / 64 - 192) * 64 + (128 + cp mod 64 - 128)) with cp by lia. }
  set (q := cp / 64) in *. pose proof (Z.mod_pos_bound q 64 ltac:(lia)). pose proof (Z.div_mod q 64 ltac:(lia)).
  assert (Hq : cp / 4096 = q / 64) by (unfold q; rewrite Z.div_div by lia; done).
  destruct (cp <? 65536) eqn:E3.
  { cbn [app decode]. rewrite Hq. replace (224 + q / 64 <? 128) with false by lia. unfold in_range, is_continuation.
    replace ((194 <=? 224 + q / 64) && (224 + q / 64 <=? 223)) with false by lia.
    replace ((224 <=? 224 + q / 64) && (224 + q / 64 <=? 239)) with true by lia.
    replace ((224 + q / 64 - 224) * 4096 + (128 + q mod 64 - 128) * 64 + (128 + cp mod 64 - 128)) with cp by lia.
    replace (_ && _) with true by lia. done. }
  set (p := q / 64) in *. pose proof (Z.mod_pos_bound p 64 ltac:(lia)). pose proof (Z.div_mod p 64 ltac:(lia)).
  assert (Hp : cp / 262144 = p / 64) by (unfold p, q; rewrite !Z.div_div by lia; done).
  cbn [app decode]. rewrite Hp, Hq. replace (240 + p / 64 <? 128) with false by lia. unfold in_range, is_continuation.
  replace ((194 <=? 240 + p / 64) && (240 + p / 64 <=? 223)) with false by lia.
  replace ((224 <=? 240 + p / 64) && (240 + p / 64 <=? 239)) with false by lia.
  replace ((240 + p / 64 - 240) * 262144 + (128 + p mod 64 - 128) * 4096 + (128 + q mod 64 - 128) * 64 + (128 + cp mod 64 - 128)) with cp by lia.
  replace (_ && _) with true by lia. done.
Qed.

(** Code units are 16-bit numbers. *)
Definition unit16 (x : Z) : Prop := 0 ≤ x ≤ 65535.

Lemma decode_encode s : Forall unit16 s → hasLoneSurrogate s = false → decode (encode s) = Some s.
Proof.
  induction s as [s IH] using (induction_ltof1 _ (@length Z)). unfold ltof in IH. intros Hu Hl. destruct s as [|x s]; [done|].
  apply Forall_cons in Hu as [Hx Hs]. unfold unit16 in Hx. unfold encode. simpl in *. destruct (is_high x) eqn:Eh.
  - destruct s as [|y s]; [done|]. apply Forall_cons in Hs as [Hy Hs]. destruct (is_low y) eqn:El; [|done]. unfold is_high, is_low in *.
    cbn [fmap list_fmap concat]. set (cp := 65536 + (x - 55296) * 1024 + (y - 56320)).
    rewrite decode_point by (unfold scalar, in_range; lia). fold (encode s). rewrite IH by (simpl; first [lia|done]). simpl. f_equal.
    unfold units_of. replace (cp <? 65536) with false by lia.
    replace (cp - 65536) with ((y - 56320) + (x - 55296) * 1024) by lia. rewrite Z.div_add, Z.mod_add, Z.div_small, Z.mod_small by lia.
    simpl. f_equal; [lia|f_equal; lia].
  - destruct (is_low x) eqn:El; [done|]. unfold is_high, is_low in *. cbn [fmap list_fmap concat].
    rewrite decode_point by (unfold scalar, in_range; lia). fold (encode s). rewrite IH by (simpl; first [lia|done]). simpl. f_equal.
    unfold units_of. by replace (x <? 65536) with true by lia.
Qed.

(** ** Boundaries of characters *)

Lemma decode_units b u : Forall (λ x, 0 ≤ x) b → decode b = Some u → Forall unit16 u.
Proof.
  revert b u. apply decode_ind; [constructor|]. intros cp r u Hcp _ _ Hu. unfold units_of, scalar, in_range in *.
  destruct (cp <? 65536) eqn:E; [constructor; [unfold unit16; lia|done]|].
  pose proof (Z.mod_pos_bound (cp - 65536) 1024 ltac:(lia)). pose proof (Z.div_mod (cp - 65536) 1024 ltac:(lia)).
  constructor; [unfold unit16; lia|]. constructor; [unfold unit16; lia|done].
Qed.

(** The bytes of a character after its first are continuations, the first is none. *)
Lemma encode_point_head cp b : scalar cp = true → encode_point cp !! 0%nat = Some b → is_continuation b = false.
Proof.
  unfold scalar, in_range, encode_point, is_continuation. intros Hs. pose proof (Z.div_mod cp 64 ltac:(lia)).
  pose proof (Z.div_pos cp 64 ltac:(lia) ltac:(lia)). pose proof (Z.div_pos cp 4096 ltac:(lia) ltac:(lia)).
  pose proof (Z.div_pos cp 262144 ltac:(lia) ltac:(lia)). pose proof (Z.mod_pos_bound cp 64 ltac:(lia)).
  repeat case_match; intros [= <-]; lia.
Qed.

Lemma encode_point_tail cp j b : scalar cp = true → encode_point cp !! S j = Some b → is_continuation b = true.
Proof.
  unfold scalar, in_range, encode_point, is_continuation. intros Hs.
  assert (Hm : ∀ a, (128 <=? 128 + a mod 64) && (128 + a mod 64 <=? 191) = true).
  { intros a. pose proof (Z.mod_pos_bound a 64 ltac:(lia)). lia. }
  repeat case_match; simpl; destruct j as [|[|[|j]]]; simpl; intros [= <-]; apply Hm.
Qed.

(** A position at which a character starts, or the end. *)
Definition boundary (b : list Z) (i : nat) : Prop := (i ≤ length b)%nat ∧ ∀ x, b !! i = Some x → is_continuation x = false.

Lemma boundary_point cp r i : scalar cp = true → boundary (encode_point cp ++ r) i → (0 < i)%nat →
  ∃ i', i = (length (encode_point cp) + i')%nat ∧ boundary r i'.
Proof.
  intros Hs [Hl Hc] Hi. destruct (decide (i < length (encode_point cp))%nat) as [Hlt|Hge].
  - destruct (lookup_lt_is_Some_2 (encode_point cp) i Hlt) as [x Hx]. destruct i as [|i]; [lia|].
    pose proof (encode_point_tail cp i x Hs Hx). rewrite (Hc x) in *; [done|]. by apply lookup_app_l_Some.
  - exists (i - length (encode_point cp))%nat. split; [lia|]. rewrite length_app in Hl. split; [lia|]. intros x Hx. apply Hc.
    rewrite lookup_app_r by lia. done.
Qed.

(** Text can be cut where a character starts. *)
Lemma decode_cut b u i : Forall (λ x, 0 ≤ x) b → decode b = Some u → boundary b i →
  ∃ u1 u2, decode (take i b) = Some u1 ∧ decode (drop i b) = Some u2 ∧ u = u1 ++ u2.
Proof.
  intros Hb Hd. revert i. revert b u Hb Hd. apply (decode_ind (λ b u, ∀ i, boundary b i → _)).
  - intros i _. exists [], []. by rewrite take_nil, drop_nil.
  - intros cp r u Hs Hr Hd IH i Hi. destruct (decide (i = 0%nat)) as [->|Hi0].
    + exists [], (units_of cp ++ u). simpl. split; [done|]. split; [|done]. rewrite drop_0. rewrite decode_point by done. by rewrite Hd.
    + destruct (boundary_point cp r i Hs Hi ltac:(lia)) as (i' & -> & Hi'). destruct (IH i' Hi') as (u1 & u2 & H1 & H2 & ->).
      exists (units_of cp ++ u1), u2. rewrite take_app_add, drop_app_add, decode_point by done. rewrite H1. by rewrite (assoc_L (++)).
Qed.
