(* ===== verification/Replace.v ===== *)
(** The search and replacement of an edit ([countOccurrences] and
    [replaceOccurrences] of src/src/api/lib/file-ops.ts) against a reference:
    the text cut at its leftmost, non-overlapping occurrences. *)

From S2P Require Import Prelude Text.

#[local] Open Scope nat_scope.

(** ** [String.indexOf] *)

Fixpoint has_prefix (needle text : list Z) : bool :=
  match needle, text with
  | [], _ => true
  | x :: needle', y :: text' => bool_decide (x = y) && has_prefix needle' text'
  | _ :: _, [] => false
  end.

Fixpoint index_of (needle text : list Z) : option nat :=
  if has_prefix needle text then Some 0
  else match text with
       | [] => None
       | _ :: text' => S <$> index_of needle text'
       end.

(** [text.indexOf(needle, from)], for a needle that is not empty. *)
Definition indexOf (text needle : list Z) (from : nat) : option nat :=
  (λ i, from + i) <$> index_of needle (drop from text).

(** ** The code *)

(** The loop; [fuel] is enough when it exceeds what is left of the text. *)
Fixpoint count_loop (fuel : nat) (haystack needle : list Z) (count : nat) (idx : option nat) : nat :=
  match idx, fuel with
  | Some i, S fuel' => count_loop fuel' haystack needle (S count) (indexOf haystack needle (i + length needle))
  | _, _ => count
  end.

Definition countOccurrences (haystack needle : list Z) : nat :=
  count_loop (S (length haystack)) haystack needle 0 (indexOf haystack needle 0).

Definition REPLACE_FLUSH_PIECES : nat := 1024.

Fixpoint replace_loop (fuel : nat) (text needle replacement : list Z) (all : bool)
    (out : list Z) (pending : list (list Z)) (from : nat) (idx : option nat) : list Z :=
  match idx, fuel with
  | Some i, S fuel' =>
      let pending1 := pending ++ [take (i - from) (drop from text); replacement] in
      let flush := REPLACE_FLUSH_PIECES <=? length pending1 in
      let out' := if flush then out ++ concat pending1 else out in
      let pending' := if flush then [] else pending1 in
      let from' := i + length needle in
      if negb all then out' ++ concat (pending' ++ [drop from' text])
      else replace_loop fuel' text needle replacement all out' pending' from' (indexOf text needle from')
  | _, _ => out ++ concat (pending ++ [drop from text])
  end.

Definition replaceOccurrences (text needle replacement : list Z) (all : bool) : list Z :=
  replace_loop (S (length text)) text needle replacement all [] [] 0 (indexOf text needle 0).

(** ** The reference *)

(** The pieces of the text between the occurrences, leftmost first. *)
Fixpoint pieces (fuel : nat) (needle text : list Z) : list (list Z) :=
  match index_of needle text, fuel with
  | Some i, S fuel' => take i text :: pieces fuel' needle (drop (i + length needle) text)
  | _, _ => [text]
  end.

Definition cut (needle text : list Z) : list (list Z) := pieces (S (length text)) needle text.

Fixpoint join (sep : list Z) (ps : list (list Z)) : list Z :=
  match ps with
  | [] => []
  | [p] => p
  | p :: ps' => p ++ sep ++ join sep ps'
  end.

(** ** Lemmas *)

Lemma has_prefix_spec needle text : has_prefix needle text = true ↔ ∃ rest, text = needle ++ rest.
Proof.
  revert text. induction needle as [|x n IH]; intros text; simpl; [split; [by exists text|done]|].
  destruct text as [|y t]; [split; [done|by intros [? ?]]|]. rewrite andb_true_iff, bool_decide_eq_true, IH.
  split; [intros [-> [r ->]]; by exists r|intros [r [= -> ->]]; eauto].
Qed.

Lemma index_of_Some needle text i : index_of needle text = Some i →
  i + length needle ≤ length text ∧ text = take i text ++ needle ++ drop (i + length needle) text.
Proof.
  revert i. induction text as [|y t IH]; intros i; cbn [index_of].
  - destruct (has_prefix needle []) eqn:E; [|done]. intros [= <-]. apply has_prefix_spec in E as [r E].
    symmetry in E. apply app_nil in E as [-> ->]. done.
  - destruct (has_prefix needle (y :: t)) eqn:E.
    + intros [= <-]. apply has_prefix_spec in E as [r E]. rewrite E, length_app. split; [lia|].
      by rewrite Nat.add_0_l, drop_app_length.
    + intros (j & Hj & ->)%fmap_Some. destruct (IH j Hj) as [Hle Ht]. simpl. split; [lia|]. f_equal. done.
Qed.

Lemma index_of_None needle text : index_of needle text = None → ∀ a b, text ≠ a ++ needle ++ b.
Proof.
  induction text as [|y t IH]; simpl; intros Hi a b E.
  - destruct (has_prefix needle []) eqn:Ep; [done|]. symmetry in E. apply app_nil in E as [-> E]. apply app_nil in E as [-> ->]. done.
  - destruct (has_prefix needle (y :: t)) eqn:Ep; [done|]. destruct (index_of needle t) eqn:Et; [done|].
    destruct a as [|x a]; [|injection E as _ E; by apply (IH eq_refl a b)].
    enough (has_prefix needle (y :: t) = true) by congruence. apply has_prefix_spec. by exists b.
Qed.

Lemma indexOf_Some text needle from i : from ≤ length text → indexOf text needle from = Some i →
  ∃ j, i = from + j ∧ index_of needle (drop from text) = Some j ∧ i + length needle ≤ length text.
Proof.
  unfold indexOf. intros Hf (j & Hj & ->)%fmap_Some. exists j. split; [done|]. split; [done|].
  destruct (index_of_Some _ _ _ Hj) as [Hle _]. rewrite length_drop in Hle. lia.
Qed.

Section needle.
Context (needle : list Z) (Hne : needle ≠ []).

Lemma needle_pos : 0 < length needle.
Proof using Hne. destruct needle; [done|simpl; lia]. Qed.

(** Fuel beyond the length makes no difference. *)
Lemma pieces_fuel f f' text : length text < f → length text < f' → pieces f needle text = pieces f' needle text.
Proof using Hne.
  revert f' text. induction f as [|f IH]; intros [|f'] text H1 H2; try lia. simpl.
  destruct (index_of needle text) as [i|] eqn:E; [|done]. destruct (index_of_Some _ _ _ E) as [Hle _].
  pose proof needle_pos. f_equal. apply IH; rewrite length_drop; lia.
Qed.

Lemma cut_None text : index_of needle text = None → cut needle text = [text].
Proof. intros E. unfold cut. simpl. by rewrite E. Qed.

Lemma cut_Some text i : index_of needle text = Some i →
  cut needle text = take i text :: cut needle (drop (i + length needle) text).
Proof using Hne.
  intros E. unfold cut at 1. cbn [pieces]. rewrite E. f_equal. destruct (index_of_Some _ _ _ E) as [Hle _]. pose proof needle_pos.
  apply pieces_fuel; rewrite ?length_drop; lia.
Qed.

Lemma cut_not_nil text : cut needle text ≠ [].
Proof. unfold cut. simpl. by destruct (index_of needle text). Qed.

Lemma join_cons sep p ps : ps ≠ [] → join sep (p :: ps) = p ++ sep ++ join sep ps.
Proof. by destruct ps. Qed.

(** The pieces are the text, and no piece contains an occurrence. *)
Lemma cut_text text : join needle (cut needle text) = text.
Proof using Hne.
  induction text as [text IH] using (induction_ltof1 _ (@length Z)). unfold ltof in IH.
  destruct (index_of needle text) as [i|] eqn:E; [|by rewrite cut_None].
  rewrite (cut_Some _ _ E), join_cons by apply cut_not_nil. destruct (index_of_Some _ _ _ E) as [Hle Ht]. pose proof needle_pos.
  rewrite IH by (rewrite length_drop; lia). by rewrite <- Ht.
Qed.

Lemma count_loop_spec fuel text count from : from ≤ length text → length text - from < fuel →
  count_loop fuel text needle count (indexOf text needle from) = count + (length (cut needle (drop from text)) - 1).
Proof using Hne.
  revert count from. induction fuel as [|fuel IH]; intros count from Hf Hfuel; [lia|]. cbn [count_loop].
  destruct (indexOf text needle from) as [i|] eqn:E.
  - destruct (indexOf_Some _ _ _ _ Hf E) as (j & -> & Hj & Hle). pose proof needle_pos.
    rewrite IH by lia. rewrite (cut_Some _ _ Hj). cbn [length]. rewrite drop_drop.
    replace (from + j + length needle) with (from + (j + length needle)) by lia.
    pose proof (cut_not_nil (drop (from + (j + length needle)) text)). destruct (cut needle _); [done|]. simpl. lia.
  - unfold indexOf in E. destruct (index_of needle (drop from text)) eqn:E'; [done|]. rewrite (cut_None _ E'). simpl. lia.
Qed.

Lemma countOccurrences_spec text : countOccurrences text needle = length (cut needle text) - 1.
Proof using Hne. unfold countOccurrences. rewrite count_loop_spec by lia. by rewrite drop_0. Qed.

(** What flushing leaves to be written. *)
Lemma flush_same (b : bool) (out : list Z) (ps : list (list Z)) :
  (if b then out ++ concat ps else out) ++ concat (if b then [] else ps) = out ++ concat ps.
Proof. destruct b; simpl; by rewrite ?app_nil_r. Qed.

Lemma replace_loop_all fuel text replacement out pending from : from ≤ length text → length text - from < fuel →
  replace_loop fuel text needle replacement true out pending from (indexOf text needle from) =
  out ++ concat pending ++ join replacement (cut needle (drop from text)).
Proof using Hne.
  revert out pending from. induction fuel as [|fuel IH]; intros out pending from Hf Hfuel; [lia|]. cbn [replace_loop].
  destruct (indexOf text needle from) as [i|] eqn:E.
  - destruct (indexOf_Some _ _ _ _ Hf E) as (j & -> & Hj & Hle). pose proof needle_pos. cbn [negb].
    rewrite IH by lia. rewrite (assoc_L (++)), flush_same. rewrite (cut_Some _ _ Hj), join_cons by apply cut_not_nil.
    rewrite concat_app, drop_drop. replace (from + j - from) with j by lia.
    replace (from + j + length needle) with (from + (j + length needle)) by lia. simpl.
    by rewrite app_nil_r, <- !(assoc_L (++)).
  - unfold indexOf in E. destruct (index_of needle (drop from text)) eqn:E'; [done|]. rewrite (cut_None _ E'), concat_app.
    simpl. by rewrite app_nil_r.
Qed.

Lemma index_of_first text i a b : index_of needle text = Some i → text = a ++ needle ++ b → i ≤ length a.
Proof.
  revert i a. induction text as [|y t IH]; intros i a; cbn [index_of].
  - destruct (has_prefix needle []); [intros [= <-]; lia|done].
  - destruct (has_prefix needle (y :: t)) eqn:Ep; [intros [= <-]; lia|]. intros (j & Hj & ->)%fmap_Some Et.
    destruct a as [|x a]; [|injection Et as _ Et; simpl; specialize (IH j a Hj Et); lia].
    enough (has_prefix needle (y :: t) = true) by congruence. apply has_prefix_spec. by exists b.
Qed.

Lemma cut_clean text : Forall (λ p, ∀ a b, p ≠ a ++ needle ++ b) (cut needle text).
Proof using Hne.
  induction text as [text IH] using (induction_ltof1 _ (@length Z)). unfold ltof in IH.
  destruct (index_of needle text) as [i|] eqn:E.
  - rewrite (cut_Some _ _ E). destruct (index_of_Some _ _ _ E) as [Hle Ht]. pose proof needle_pos. constructor.
    + intros a b Ea. assert (Hlen : length (take i text) = i) by (rewrite length_take; lia).
      rewrite Ea, !length_app in Hlen. rewrite Ea in Ht. rewrite <- !(assoc_L (++)) in Ht.
      pose proof (index_of_first _ _ _ _ E Ht). lia.
    + apply IH. rewrite length_drop. lia.
  - rewrite (cut_None _ E). constructor; [by apply index_of_None|constructor].
Qed.

Lemma replace_all_spec text replacement :
  replaceOccurrences text needle replacement true = join replacement (cut needle text).
Proof using Hne. unfold replaceOccurrences. rewrite replace_loop_all by lia. by rewrite drop_0. Qed.

(** One replacement: the first piece, and the rest as it was. *)
Lemma replace_one_spec text replacement i : index_of needle text = Some i →
  replaceOccurrences text needle replacement false = take i text ++ replacement ++ drop (i + length needle) text.
Proof using.
  intros Hi. unfold replaceOccurrences, indexOf. rewrite drop_0, Hi. cbn. rewrite drop_0, Nat.sub_0_r, ?app_nil_r. done.
Qed.
End needle.

Lemma replaceOccurrences_spec text needle replacement all : needle ≠ [] →
  all = true ∨ countOccurrences text needle = 1 →
  replaceOccurrences text needle replacement all = join replacement (cut needle text).
Proof.
  intros Hne Hall. destruct all; [by apply replace_all_spec|]. destruct Hall as [?|Hone]; [done|].
  rewrite (countOccurrences_spec needle Hne) in Hone.
  destruct (index_of needle text) as [i|] eqn:E; [|by rewrite (cut_None _ _ E) in Hone].
  rewrite (replace_one_spec _ _ _ _ E). rewrite (cut_Some needle Hne _ _ E) in Hone |- *. simpl in Hone.
  destruct (index_of needle (drop (i + length needle) text)) as [j|] eqn:E2.
  - rewrite (cut_Some needle Hne _ _ E2) in Hone. simpl in Hone.
    pose proof (cut_not_nil needle (drop (j + length needle) (drop (i + length needle) text))). destruct (cut needle _); [done|]. simpl in Hone. lia.
  - rewrite (cut_None _ _ E2). done.
Qed.

(** C23: The replacement is the reference one. The hand-written loops, which keep
    only a bounded number of pieces in memory, compute what cutting the text at
    its leftmost, non-overlapping occurrences and joining the pieces with the
    replacement does; the count is the number of cuts; the pieces are the text,
    and no piece contains an occurrence. A single replacement with exactly one
    occurrence is the same. *)
Theorem replace_reference text needle replacement all :
  needle ≠ [] →
  countOccurrences text needle = length (cut needle text) - 1 ∧
  (all = true ∨ countOccurrences text needle = 1 →
   replaceOccurrences text needle replacement all = join replacement (cut needle text)) ∧
  text = join needle (cut needle text) ∧
  Forall (λ p, ∀ a b, p ≠ a ++ needle ++ b) (cut needle text).
Proof.
  intros Hne. split; [by apply countOccurrences_spec|]. split; [by apply replaceOccurrences_spec|].
  split; [by rewrite cut_text|by apply cut_clean].
Qed.

Lemma replace_reference_witness :
  countOccurrences [1; 2; 1; 2; 1]%Z [1; 2]%Z = 2 ∧
  replaceOccurrences [1; 2; 1; 2; 1]%Z [1; 2]%Z [9]%Z true = join [9]%Z (cut [1; 2]%Z [1; 2; 1; 2; 1]%Z).
Proof.
  split; [vm_compute; reflexivity|].
  apply (replace_reference [1; 2; 1; 2; 1]%Z [1; 2]%Z [9]%Z true); [discriminate|left; reflexivity].
Defined.
