(* ===== verification/Edits.v ===== *)
(** File edits and whole-file writes (src/src/api/lib/file-ops.ts).

    An edit reads a file, replaces text in it and writes it back, in one script
    scope. The filesystem's contents are [string]s of bytes; text is the code
    units of [Text]. *)

From S2P Require Import Prelude Errors Paths Store Tree Dialect Lifecycle LoadPaths View Session Namespace Coherence Simulation Journal Invariant Mutate Handlers SqlFs Ingest IngestRows IngestSim IngestSound Scopes Machine Guarantees Isolation Contents Exec ExecSound Readers ApiErrors Text Replace.

(** ** Bytes *)

Definition bytes_of (s : string) : list Z := (λ c, Z.of_N (N_of_ascii c)) <$> String.list_ascii_of_string s.

Definition string_of (bs : list Z) : string := String.string_of_list_ascii ((λ b, ascii_of_N (Z.to_N b)) <$> bs).

Definition errCode (e : fs_error) : option string := extractErrCode (Some (js_error e)).

(** ** Writes *)

Definition parentDir (filePath : string) : string :=
  let lastSlash := last_index_of_slash filePath in
  if decide (lastSlash ≤ 0) then "/" else slice_to filePath lastSlash.

Record EditRequest := mkEdit { oldString : list Z; newString : list Z; replaceAll : bool }.

Inductive EditOutcome :=
| EditOk (replacements size : Z)
| EditNotFound
| EditIsDir
| EditBinary
| EditNoMatch
| EditNotUnique (count : Z)
| EditTooLarge
| EditLoneSurrogate.

Inductive WriteOutcome := WriteOk | WriteIsDir.

Definition DEFAULT_FILE_MODE : Z := 420.

Definition byteLength (bs : list Z) : Z := Z.of_nat (length bs).

(** What the text of a file becomes: a refusal, or the bytes to write and how
    many replacements they hold. *)
Definition edit_text (bytes : list Z) (req : EditRequest) (maxBytes : Z) : EditOutcome + (list Z * Z) :=
  match decode bytes with
  | None => inl EditBinary
  | Some text =>
      if decide (0 ∈ text) then inl EditBinary
      else
        let all := replaceAll req in
        let count := Z.of_nat (countOccurrences text (oldString req)) in
        if decide (count = 0) then inl EditNoMatch
        else if decide (1 < count ∧ all = false) then inl (EditNotUnique count)
        else
          let replacements := if all then count else 1 in
          let delta := byteLength (encode (newString req)) - byteLength (encode (oldString req)) in
          if decide (maxBytes < byteLength bytes + replacements * delta) then inl EditTooLarge
          else
            let encoded := encode (replaceOccurrences text (oldString req) (newString req) all) in
            if decide (maxBytes < byteLength encoded) then inl EditTooLarge
            else inr (encoded, replacements)
  end.

Section edits.
Context `{Config} `{Lru}.

Definition ensureParentDir (filePath : string) : sysM unit :=
  let parent := parentDir filePath in
  if decide (parent = "/") then retM tt
  else catch (fs_mkdir parent true) (λ e, if decide (errCode e = Some "EEXIST") then retM tt else throw e).

Definition applyEdit (filePath : string) (req : EditRequest) (maxBytes : Z) : sysM EditOutcome :=
  if hasLoneSurrogate (oldString req) || hasLoneSurrogate (newString req) then retM EditLoneSurrogate
  else
    let* st := attempt (fs_stat filePath) in
    match st with
    | Err e => if decide (errCode e = Some "ENOENT") then retM EditNotFound else throw e
    | Ok stat =>
        if isDirectory stat then retM EditIsDir
        else if decide (maxBytes < st_size stat) then retM EditTooLarge
        else
          let* bytes := fs_readFileBuffer filePath in
          match edit_text (bytes_of bytes) req maxBytes with
          | inl refused => retM refused
          | inr (encoded, replacements) =>
              fs_writeFile filePath (string_of encoded) ;;;
              (if decide (st_mode stat = DEFAULT_FILE_MODE) then retM tt else fs_chmod filePath (st_mode stat)) ;;;
              retM (EditOk replacements (byteLength encoded))
          end
    end.

Definition editFile (lost ownerLost : bool) (filePath : string) (req : EditRequest) (maxBytes : Z) : sysM EditOutcome :=
  runInScriptTx lost ownerLost (applyEdit filePath req maxBytes).

(** The function [writeFileAtPath] runs in its scope. *)
Definition write_at (filePath content : string) : sysM WriteOutcome :=
  let* st := attempt (fs_stat filePath) in
  let write :=
    ensureParentDir filePath ;;;
    catch (fs_writeFile filePath content ;;; retM WriteOk)
      (λ e, if decide (errCode e = Some "EISDIR") then retM WriteIsDir else throw e) in
  match st with
  | Ok stat => if isDirectory stat then retM WriteIsDir else write
  | Err e => if decide (errCode e = Some "ENOENT") then write else throw e
  end.

Definition writeFileAtPath (lost ownerLost : bool) (filePath content : string) : sysM WriteOutcome :=
  runInScriptTx lost ownerLost (write_at filePath content).
End edits.

(** ** The bytes of an edit *)

Lemma join_lone sep ps : hasLoneSurrogate sep = false → Forall (λ p, hasLoneSurrogate p = false) ps →
  hasLoneSurrogate (join sep ps) = false ∧ encode (join sep ps) = join (encode sep) (encode <$> ps).
Proof.
  intros Hsep. induction 1 as [|p ps Hp Hps [IH1 IH2]]; [done|]. destruct ps as [|p' ps]; [done|].
  change (join sep (p :: p' :: ps)) with (p ++ sep ++ join sep (p' :: ps)). rewrite !lone_app by done.
  split; [done|]. rewrite !encode_app by done. by rewrite IH2.
Qed.

(** Cutting well-formed text at a well-formed needle leaves well-formed pieces. *)
Lemma cut_lone needle text : needle ≠ [] → hasLoneSurrogate needle = false → hasLoneSurrogate text = false →
  Forall (λ p, hasLoneSurrogate p = false) (cut needle text).
Proof.
  intros Hne Hn. induction text as [text IH] using (induction_ltof1 _ (@length Z)). unfold ltof in IH. intros Ht.
  destruct (index_of needle text) as [i|] eqn:E.
  - rewrite (cut_Some needle Hne _ _ E). destruct (index_of_Some _ _ _ E) as [Hle Hs]. pose proof (needle_pos needle Hne).
    rewrite Hs in Ht. constructor; [by eapply lone_before|]. apply IH; [rewrite length_drop; lia|by eapply lone_after].
  - rewrite (cut_None _ _ E). by repeat constructor.
Qed.

Lemma join_length (sep : list Z) ps : ps ≠ [] →
  byteLength (join sep ps) = Z.of_nat (length (concat ps)) + (Z.of_nat (length ps) - 1) * byteLength sep.
Proof.
  unfold byteLength. induction ps as [|p ps IH]; [done|]. intros _. destruct ps as [|p' ps].
  - simpl. rewrite app_nil_r. lia.
  - change (join sep (p :: p' :: ps)) with (p ++ sep ++ join sep (p' :: ps)). rewrite !length_app, !Nat2Z.inj_add, IH by done.
    cbn [concat]. rewrite !length_app. cbn [length]. lia.
Qed.

Lemma concat_join_size (sep : list Z) ps : ps ≠ [] →
  Z.of_nat (length (concat ps)) = byteLength (join sep ps) - (Z.of_nat (length ps) - 1) * byteLength sep.
Proof. intros Hps. rewrite join_length by done. lia. Qed.

Section edited.
Context (bytes : list Z) (req : EditRequest) (maxBytes : Z).
Context (Hbytes : Forall (λ b, 0 ≤ b) bytes) (Hold : oldString req ≠ []).
Context (Hlone : hasLoneSurrogate (oldString req) = false) (Hlone' : hasLoneSurrogate (newString req) = false).

(** The file's bytes, and those an edit makes of them, piece by piece. *)
Lemma edit_pieces text : decode bytes = Some text →
  let ps := encode <$> cut (oldString req) text in
  ps ≠ [] ∧ bytes = join (encode (oldString req)) ps ∧
  encode (join (newString req) (cut (oldString req) text)) = join (encode (newString req)) ps.
Proof using Hbytes Hold Hlone Hlone'.
  intros Hd ps. destruct (decode_sound bytes text Hbytes Hd) as [He Hw].
  pose proof (cut_lone _ _ Hold Hlone Hw) as Hps.
  split; [subst ps; pose proof (cut_not_nil (oldString req) text) as Hn; by destruct (cut (oldString req) text)|].
  split; [|by apply join_lone]. rewrite <- He at 1. rewrite <- (cut_text (oldString req) Hold text) at 1. by apply join_lone.
Qed.

(** The size of the result is the projected one. *)
Lemma edit_size text : decode bytes = Some text →
  byteLength (encode (join (newString req) (cut (oldString req) text))) =
  byteLength bytes + Z.of_nat (countOccurrences text (oldString req)) *
    (byteLength (encode (newString req)) - byteLength (encode (oldString req))).
Proof using Hbytes Hold Hlone Hlone'.
  intros Hd. destruct (edit_pieces text Hd) as (Hne & Hb & ->). set (ps := encode <$> cut (oldString req) text) in *.
  rewrite (countOccurrences_spec _ Hold), Hb at 1. rewrite !join_length by done.
  assert (Z.of_nat (length (cut (oldString req) text) - 1) = Z.of_nat (length ps) - 1) as ->; [|lia].
  subst ps. rewrite length_fmap. pose proof (cut_not_nil (oldString req) text). destruct (cut (oldString req) text); [done|]. simpl. lia.
Qed.
End edited.

(** How often the pattern matches, and the size the counts project. *)
Definition matches (text : list Z) (req : EditRequest) : Z := Z.of_nat (countOccurrences text (oldString req)).

Definition projected_size (bytes text : list Z) (req : EditRequest) : Z :=
  byteLength bytes + matches text req * (byteLength (encode (newString req)) - byteLength (encode (oldString req))).

(** C22: An edit touches only what it matched, and its size is known before it is
    made. For well-formed strings and a non-empty pattern: the file's bytes are
    pieces joined by the encoded pattern, none of which is changed; the bytes
    written are the same pieces joined by the encoded replacement, within the
    limit; the number reported is the number of matches, one unless all were
    asked for. An edit is refused as too large exactly when the size projected
    from the counts exceeds the limit, and as ambiguous exactly when the pattern
    matches more than once and [replaceAll] was not set; no match comes before
    both, ambiguity before size. *)
Theorem edit_exact bytes req maxBytes text :
  Forall (λ b, 0 ≤ b) bytes → oldString req ≠ [] →
  hasLoneSurrogate (oldString req) = false → hasLoneSurrogate (newString req) = false →
  decode bytes = Some text → 0 ∉ text →
  edit_text bytes req maxBytes =
    (if decide (matches text req = 0) then inl EditNoMatch
     else if decide (1 < matches text req ∧ replaceAll req = false) then inl (EditNotUnique (matches text req))
     else if decide (maxBytes < projected_size bytes text req) then inl EditTooLarge
     else inr (join (encode (newString req)) (encode <$> cut (oldString req) text), matches text req)) ∧
  bytes = join (encode (oldString req)) (encode <$> cut (oldString req) text) ∧
  byteLength (join (encode (newString req)) (encode <$> cut (oldString req) text)) = projected_size bytes text req ∧
  matches text req = Z.of_nat (length (cut (oldString req) text)) - 1.
Proof.
  intros Hb Hold Hl Hl' Hd Hnul. unfold projected_size. set (n := matches text req).
  set (size := byteLength bytes + n * (byteLength (encode (newString req)) - byteLength (encode (oldString req)))).
  destruct (edit_pieces bytes req Hb Hold Hl Hl' text Hd) as (Hne & Hbs & Henc).
  pose proof (edit_size bytes req Hb Hold Hl Hl' text Hd) as Hsize. fold (matches text req) in Hsize. fold n in Hsize. fold size in Hsize.
  assert (Hn : n = Z.of_nat (length (cut (oldString req) text)) - 1).
  { subst n. unfold matches. rewrite (countOccurrences_spec _ Hold). pose proof (cut_not_nil (oldString req) text).
    destruct (cut (oldString req) text); [done|]. simpl. lia. }
  split; [|split; [done|split; [by rewrite <- Henc|done]]].
  unfold edit_text. rewrite Hd, decide_False by done. fold (matches text req). fold n.
  destruct (decide (n = 0)) as [|Hn0]; [done|]. destruct (decide (1 < n ∧ replaceAll req = false)) as [|Hu]; [done|].
  assert (Hrep : (if replaceAll req then n else 1) = n).
  { destruct (replaceAll req); [done|]. assert (0 ≤ n) by (subst n; unfold matches; lia). destruct (decide (1 < n)); [tauto|lia]. }
  rewrite Hrep. fold size. destruct (decide (maxBytes < size)) as [|Hmax]; [done|].
  rewrite (replaceOccurrences_spec text (oldString req) (newString req) (replaceAll req) Hold).
  2:{ destruct (replaceAll req); [by left|right]. destruct (decide (1 < n)); [tauto|]. subst n. unfold matches in *. lia. }
  rewrite Hsize, decide_False by done. by rewrite Henc.
Qed.

Lemma edit_exact_witness :
  edit_text [97; 98; 97] (mkEdit [98] [8364] false) 10 = inr ([97; 226; 130; 172; 97], 1).
Proof.
  rewrite (proj1 (edit_exact [97; 98; 97] (mkEdit [98] [8364] false) 10 [97; 98; 97] ltac:(by repeat constructor) ltac:(done)
    eq_refl eq_refl ltac:(vm_compute; reflexivity) ltac:(by apply (bool_decide_unpack (0 ∉ [97; 98; 97]))))).
  vm_compute. reflexivity.
Defined.

(** ** The scope of an edit *)

Section scopes.
Context `{Config} `{Lru}.

Lemma run_map {A B} (f : A → B) (m : sysM A) s : (mapM f m s).2 = (m s).2.
Proof. unfold mapM, bindM. by destruct (m s) as [[]]. Qed.

(** A query whose answer is used as it is. *)
Lemma client_asked {A} (f : A → FsAnswer) (m : sysM A) q : hasRetire = true → run_query q = mapM f m → client m.
Proof. intros Hret E s Hs. rewrite <- (run_map f), <- E. by apply client_query. Qed.

Lemma reads_asked {A} (f : A → FsAnswer) (m : sysM A) q : run_query q = mapM f m → reads m.
Proof. intros E s. rewrite <- (run_map f), <- E. apply reads_query. Qed.

Lemma reads_attempt {A} (m : sysM A) : reads m → reads (attempt m).
Proof. intros Hm s. specialize (Hm s). unfold attempt. by destruct (m s). Qed.

Context (Hretire : hasRetire = true).

Lemma client_stat p : client (attempt (fs_stat p)).
Proof using All. apply client_attempt. by apply (client_asked AStat _ (QStat p)). Qed.

Lemma client_edit filePath req maxBytes : client (applyEdit filePath req maxBytes).
Proof using All.
  unfold applyEdit. destruct (_ || _); [by apply client_quiet, quiet_ret|]. apply client_bind; [apply client_stat|].
  intros [stat|e]; [|case_decide; apply client_quiet; [apply quiet_ret|apply quiet_throw]].
  destruct (isDirectory stat); [by apply client_quiet, quiet_ret|]. case_decide; [by apply client_quiet, quiet_ret|].
  apply client_bind; [by apply (client_asked AString _ (QReadFile filePath))|]. intros bytes.
  destruct (edit_text _ _ _) as [o|[encoded n]]; [by apply client_quiet, quiet_ret|].
  apply client_bind; [by apply (client_op Hretire (OpWriteFile filePath (string_of encoded)))|]. intros _.
  apply client_bind; [|intros _; by apply client_quiet, quiet_ret].
  case_decide; [by apply client_quiet, quiet_ret|by apply (client_op Hretire (OpChmod filePath (st_mode stat)))].
Qed.

Lemma client_write_at filePath content : client (write_at filePath content).
Proof using All.
  unfold write_at. apply client_bind; [apply client_stat|]. intros st.
  assert (Hw : client (ensureParentDir filePath ;;; catch (fs_writeFile filePath content ;;; retM WriteOk)
    (λ e, if decide (errCode e = Some "EISDIR") then retM WriteIsDir else throw e))).
  { apply client_bind.
    - unfold ensureParentDir. case_decide; [by apply client_quiet, quiet_ret|]. apply client_catch; [by apply (client_op Hretire (OpMkdir _ true))|].
      intros e. case_decide; apply client_quiet; [apply quiet_ret|apply quiet_throw].
    - intros _. apply client_catch; [|intros e; case_decide; apply client_quiet; [apply quiet_ret|apply quiet_throw]].
      apply client_bind; [by apply (client_op Hretire (OpWriteFile filePath content))|]. intros _. by apply client_quiet, quiet_ret. }
  destruct st as [stat|e]; [destruct (isDirectory stat)|case_decide]; done.
Qed.

Lemma client_tx {A} lost (fn : sysM A) : client fn →
  client (let* result := fn in assertScriptLeaseHeld lost "write aborted: distributed exec lock lost mid-request" ;;; retM result).
Proof.
  intros Hfn. apply client_bind; [done|]. intros a. apply client_bind; [apply client_quiet, quiet_lease|]. intros _.
  apply client_quiet, quiet_ret.
Qed.

(** The scope of a write request. *)
Lemma tx_outcome {A} lost ownerLost (fn : sysM A) s r s' :
  Inv s → v_poisoned (s_view s) = false → scriptScope (s_pers s) = false → client fn →
  runInScriptTx lost ownerLost fn s = (r, s') →
  Inv s' ∧ scriptScope (s_pers s') = false ∧
  match r with
  | Err _ => same_rows (s_db s) (s_db s')
  | Ok a => lost = false ∧ ownerLost = false ∧ v_poisoned (s_view s') = false ∧
      ∃ s1, fn (beginScriptScope s).2 = (Ok a, s1) ∧
        (mutations (s_pers s1) = [] ∧ same_rows (s_db s) (s_db s') ∨ mutations (s_pers s1) ≠ [] ∧ commits (s_view s1) (s_view s') (s_db s'))
  end.
Proof using All.
  intros Hi Hp Hsc Hc E. destruct (scope_outcome _ _ _ _ _ Hi Hp Hsc (client_tx lost fn Hc) E) as (Hi' & Hsc' & Ho).
  split; [done|]. split; [done|]. destruct r as [a|e]; [|done]. destruct Ho as (Hl & Hp' & s1 & Hfn & Ho). unfold bindM in Hfn.
  destruct (fn (beginScriptScope s).2) as [[a'|e'] s2]; [|done]. destruct lost; [done|]. injection Hfn as <- <-. eauto 10.
Qed.

(** What an edit did: it stopped after looking, or it wrote what [edit_text]
    made of what it read. *)
Lemma edit_run filePath req maxBytes s o s1 : applyEdit filePath req maxBytes s = (Ok o, s1) →
  match o with
  | EditOk n size => ∃ stat bytes encoded s2 s3,
      (fs_stat filePath s).1 = Ok stat ∧ isDirectory stat = false ∧ st_size stat ≤ maxBytes ∧
      s2 = (fs_stat filePath s).2 ∧ fs_readFileBuffer filePath s2 = (Ok bytes, s3) ∧
      edit_text (bytes_of bytes) req maxBytes = inr (encoded, n) ∧ size = byteLength encoded ∧
      (fs_writeFile filePath (string_of encoded) ;;;
       (if decide (st_mode stat = DEFAULT_FILE_MODE) then retM tt else fs_chmod filePath (st_mode stat))) s3 = (Ok tt, s1)
  | _ => s_db s1 = s_db s ∧ s_pers s1 = s_pers s
  end.
Proof.
  pose proof (reads_asked AStat (fs_stat filePath) (QStat filePath) eq_refl s) as (Hd1 & Hp1 & _).
  unfold applyEdit. destruct (_ || _); [by intros [= <- <-]|]. unfold bindM at 1, attempt.
  destruct (fs_stat filePath s) as [[stat|e] s2]; cbn [fst snd] in *.
  2:{ case_decide; intros [= <- <-]; done. }
  destruct (isDirectory stat) eqn:Edir; [by intros [= <- <-]|]. case_decide as Hmax; [by intros [= <- <-]|].
  pose proof (reads_asked AString (fs_readFileBuffer filePath) (QReadFile filePath) eq_refl s2) as (Hd2 & Hp2 & _).
  unfold bindM at 1. destruct (fs_readFileBuffer filePath s2) as [[bytes|e] s3] eqn:Er; [|done]. cbn [snd] in Hd2, Hp2.
  destruct (edit_text (bytes_of bytes) req maxBytes) as [o'|[encoded n]] eqn:Et.
  - intros [= <- <-]. assert (s_db s3 = s_db s ∧ s_pers s3 = s_pers s) by (split; congruence). destruct o'; try done. exfalso.
    revert Et. unfold edit_text. repeat case_match; done.
  - rewrite <- (bindM_assoc (fs_writeFile filePath (string_of encoded))). unfold bindM at 1.
    set (w := bindM (fs_writeFile _ _) _ s3). destruct w as [[[]|e] s4] eqn:Ew; [|done]. subst w. intros [= <- <-].
    exists stat, bytes, encoded, s2, s3. split_and!; try done. lia.
Qed.
End scopes.

Section edit_scope.
Context `{Config} `{Lru}.

Lemma edit_outcome lost ownerLost filePath req maxBytes s r s' :
  hasRetire = true → Inv s → v_poisoned (s_view s) = false → scriptScope (s_pers s) = false →
  editFile lost ownerLost filePath req maxBytes s = (r, s') →
  scriptScope (s_pers s') = false ∧
  match r with
  | Ok (EditOk n size) => lost = false ∧ ownerLost = false ∧ v_poisoned (s_view s') = false ∧
      ∃ stat bytes encoded s2 s3 s1,
        fs_stat filePath (beginScriptScope s).2 = (Ok stat, s2) ∧ isDirectory stat = false ∧ st_size stat ≤ maxBytes ∧
        fs_readFileBuffer filePath s2 = (Ok bytes, s3) ∧
        edit_text (bytes_of bytes) req maxBytes = inr (encoded, n) ∧ size = byteLength encoded ∧
        (fs_writeFile filePath (string_of encoded) ;;;
         (if decide (st_mode stat = DEFAULT_FILE_MODE) then retM tt else fs_chmod filePath (st_mode stat))) s3 = (Ok tt, s1) ∧
        (mutations (s_pers s1) = [] ∧ same_rows (s_db s) (s_db s') ∨
         mutations (s_pers s1) ≠ [] ∧ commits (s_view s1) (s_view s') (s_db s'))
  | _ => same_rows (s_db s) (s_db s')
  end.
Proof.
  intros Hret Hi Hp Hsc E.
  destruct (tx_outcome Hret _ _ _ _ _ _ Hi Hp Hsc (client_edit Hret _ _ _) E) as (_ & Hsc' & Ho).
  split; [done|]. destruct r as [o|e]; [|done]. destruct Ho as (Hl & Hol & Hp' & s1 & Hfn & Ho).
  apply edit_run in Hfn.
  assert (Hrows : s_pers s1 = s_pers (beginScriptScope s).2 → same_rows (s_db s) (s_db s')).
  { intros Hps. destruct Ho as [[_ ?]|[Hm _]]; [done|]. destruct Hm. rewrite Hps.
    unfold beginScriptScope, begin. by rewrite (bindM_Ok _ _ _ _ _ (alive_outside s Hsc)), bindM_gets, Hsc. }
  destruct o as [n size| | | | | | |]; try (destruct Hfn as [_ Hps]; by apply Hrows).
  destruct Hfn as (stat & bytes & encoded & s2 & s3 & Hst & ? & ? & -> & ? & ? & ? & ?). split_and!; [done..|].
  exists stat, bytes, encoded, (fs_stat filePath (beginScriptScope s).2).2, s3, s1. split_and!; try done.
  rewrite <- Hst. apply surjective_pairing.
Qed.

(** C21: An edit is one atomic step on the file's current bytes. If the request
    throws (the lease lost at its end included) or is refused, for whichever of
    the reasons, every row of the tree is as before. If it answers success, the
    file was read inside the scope, no larger than the limit, the bytes written
    are the ones [edit_text] makes of the bytes read, their number is the one
    reported, and what that write and the restored mode left in the session's
    view is what was committed. *)
Theorem edit_atomic lost ownerLost filePath req maxBytes s r s' :
  hasRetire = true → reachable s → v_poisoned (s_view s) = false → scriptScope (s_pers s) = false →
  editFile lost ownerLost filePath req maxBytes s = (r, s') →
  scriptScope (s_pers s') = false ∧
  match r with
  | Ok (EditOk n size) => lost = false ∧ ownerLost = false ∧ v_poisoned (s_view s') = false ∧
      ∃ stat bytes encoded s2 s3 s1,
        fs_stat filePath (beginScriptScope s).2 = (Ok stat, s2) ∧ isDirectory stat = false ∧ st_size stat ≤ maxBytes ∧
        fs_readFileBuffer filePath s2 = (Ok bytes, s3) ∧
        edit_text (bytes_of bytes) req maxBytes = inr (encoded, n) ∧ size = byteLength encoded ∧
        (fs_writeFile filePath (string_of encoded) ;;;
         (if decide (st_mode stat = DEFAULT_FILE_MODE) then retM tt else fs_chmod filePath (st_mode stat))) s3 = (Ok tt, s1) ∧
        (mutations (s_pers s1) = [] ∧ same_rows (s_db s) (s_db s') ∨
         mutations (s_pers s1) ≠ [] ∧ commits (s_view s1) (s_view s') (s_db s'))
  | _ => same_rows (s_db s) (s_db s')
  end.
Proof. intros Hret Hr Hp Hsc E. by apply (edit_outcome _ _ _ _ _ _ _ _ Hret (reachable_Inv Hret s Hr) Hp Hsc E). Qed.
End edit_scope.

Section witnesses.
#[local] Existing Instance demo_config.
#[local] Existing Instance lru_unbounded.

(** A session with the file "/tmp/f". *)
Definition demo_file : Sys := (run_op (OpWriteFile "/tmp/f" "abca") demo_ready).2.

Lemma demo_file_reachable : reachable demo_file.
Proof.
  eapply reach_step; [apply demo_ready_reachable|]. 
  refine (step_op _ (OpWriteFile "/tmp/f" "abca") (Ok tt) demo_ready demo_file _ I (run_pair _ _ _)); vm_compute; reflexivity.
Qed.

Definition demo_edit : res fs_error EditOutcome * Sys := editFile false false "/tmp/f" (mkEdit [98] [8364] false) 10 demo_file.

Lemma edit_atomic_witness :
  demo_edit.1 = Ok (EditOk 1 6) ∧ scriptScope (s_pers demo_edit.2) = false ∧
  bytes_of (match (fs_readFileBuffer "/tmp/f" demo_edit.2).1 with Ok b => b | Err _ => EmptyString end) = [97; 226; 130; 172; 99; 97].
Proof.
  split; [vm_compute; reflexivity|]. split; [|vm_compute; reflexivity].
  assert (Hp : v_poisoned (s_view demo_file) = false) by (vm_compute; reflexivity).
  assert (Hsc : scriptScope (s_pers demo_file) = false) by (vm_compute; reflexivity).
  pose proof (edit_atomic false false "/tmp/f" (mkEdit [98] [8364] false) 10 demo_file demo_edit.1 demo_edit.2 eq_refl
    demo_file_reachable Hp Hsc (surjective_pairing demo_edit)) as Hx.
  destruct Hx as [Hopen _]. exact Hopen.
Defined.
End witnesses.
