(* ===== verification/Auth.v ===== *)
(** Who a request comes from (src/src/api/auth.ts, tenants.ts,
    lib/constant-time.ts, lib/jwt.ts, routes/auth.ts, ownership.ts).

    Tokens are made and verified by [jose], digests by [node:crypto]: both are
    classes here, with what the code relies on as laws. A request is its method,
    its path and its headers, by their names in lower case. *)

From S2P Require Import Prelude Errors.

(** ** Third parties *)

(** The claims of a token the code looks at; [tenant] can be anything. *)
Inductive ClaimValue := CString (s : string) | COther.

Record Claims := mkClaims {
  c_sub : option string;
  c_tenant : option ClaimValue;
  c_exp : option Z;
  c_jti : option string;
}.

Class Crypto := {
  sha256_digest : string → string;
  (** [new SignJWT(claims)...sign(secret)]: an HS256 token *)
  jwtSign : Claims → string → string;
  (** [jwtVerify(token, secret, { algorithms: ["HS256"] })] at a time in seconds *)
  jwtVerify : string → string → Z → option Claims;
  (** the token carries the claims, signed with HS256 under the secret *)
  signed : string → string → Claims → Prop;
  (** what [setExpirationTime] adds to the time for "30d", "1y" and the like *)
  duration : string → Z;
}.

Definition unexpired (claims : Claims) (now : Z) : Prop := ∀ e, c_exp claims = Some e → now < e.

Class CryptoLaws `{Crypto} : Prop := {
  digest_inj : Inj (=) (=) sha256_digest;
  sign_signed : ∀ claims secret, signed (jwtSign claims secret) secret claims;
  verify_sound : ∀ token secret now claims, jwtVerify token secret now = Some claims → signed token secret claims ∧ unexpired claims now;
  verify_complete : ∀ token secret now claims, signed token secret claims → unexpired claims now → jwtVerify token secret now = Some claims;
}.

(** ** Tenants *)

Definition DEFAULT_TENANT_ID : string := "default".

Definition str_all (p : ascii → bool) (s : string) : bool := forallb p (String.list_ascii_of_string s).

Definition in_range (a b : N) (c : ascii) : bool := ((a <=? N_of_ascii c) && (N_of_ascii c <=? b))%N.

Definition is_alnum (c : ascii) : bool := in_range 48 57 c || in_range 65 90 c || in_range 97 122 c.

(** /^[A-Za-z0-9_.-]+$/ *)
Definition TENANT_ID_PATTERN (s : string) : bool :=
  negb (bool_decide (s = EmptyString)) &&
  str_all (λ c, is_alnum c || bool_decide (c ∈ ["_"%char; "."%char; "-"%char])) s.

(** The tenants and their connection strings, in a Map. *)
Definition TenantConfig : Type := list (string * string).

Definition hasTenant (config : TenantConfig) (tenantId : string) : bool := bool_decide (is_Some (jget tenantId config)).

Definition getConnectionString (config : TenantConfig) (tenantId : string) : res fs_error string :=
  match jget tenantId config with
  | None => Err (PlainError ("Unknown tenant: " +:+ tenantId))
  | Some v => Ok v
  end.

(** The entries of the object [JSON.parse] made of TENANT_DATABASES; [None] when
    the text is not JSON or no object. *)
Fixpoint tenant_entries (entries : list (string * ClaimValue)) (m : TenantConfig) : option TenantConfig :=
  match entries with
  | [] => Some m
  | (k, v) :: rest =>
      if negb (TENANT_ID_PATTERN k) then None
      else match v with
           | CString (String c s) => tenant_entries rest (jset k (String c s) m)
           | _ => None
           end
  end.

Definition parseTenantJson (object : option (list (string * ClaimValue))) : option TenantConfig :=
  entries ← object;
  m ← tenant_entries entries [];
  match m with [] => None | _ => Some m end.

(** [None]: it throws. [parse] is [JSON.parse]. *)
Definition loadTenantConfig (parse : string → option (list (string * ClaimValue))) (TENANT_DATABASES DATABASE_URL : option string)
    : option TenantConfig :=
  match TENANT_DATABASES with
  | Some (String c s) => parseTenantJson (parse (String c s))
  | _ => match DATABASE_URL with
         | Some (String c s) => Some [(DEFAULT_TENANT_ID, String c s)]
         | _ => None
         end
  end.

(** ** Identities *)

Record Request := mkRequest { r_method : string; r_path : string; r_header : string → option string }.

Definition MAX_IDENTITY_LENGTH : Z := 256.
Definition MIN_API_KEY_LENGTH : Z := 16.

Definition no_control (c : ascii) : bool := negb ((N_of_ascii c <? 32) || (N_of_ascii c =? 127))%N.

Definition sanitizeIdentity (raw : option string) : option string :=
  match raw with
  | None => None
  | Some raw =>
      let trimmed := trim raw in
      if decide (str_len trimmed = 0 ∨ MAX_IDENTITY_LENGTH < str_len trimmed) then None
      else if str_all no_control trimmed then Some trimmed else None
  end.

Record StaticMcpAuthConfig := mkStatic {
  apiKey : string;
  identityHeader : string;
  defaultSub : option string;
  sa_tenant : string;
}.

Definition map_str (f : ascii → ascii) (s : string) : string := String.string_of_list_ascii (f <$> String.list_ascii_of_string s).

(** Letters, with those of Latin-1 in lower case as JavaScript has them. *)
Definition lower (c : ascii) : ascii :=
  if in_range 65 90 c || in_range 192 214 c || in_range 216 222 c then ascii_of_N (N_of_ascii c + 32) else c.
Definition upper (c : ascii) : ascii := if in_range 97 122 c then ascii_of_N (N_of_ascii c - 32) else c.

Definition HEADER_NAME_PATTERN (s : string) : bool :=
  negb (bool_decide (s = EmptyString)) &&
  str_all (λ c, is_alnum c || bool_decide (c ∈ String.list_ascii_of_string "!#$%&'*+-.^_`|~")) s.

Definition RESERVED_IDENTITY_HEADERS : list string :=
  ["authorization"; "cookie"; "content-type"; "accept"; "mcp-session-id"; "mcp-protocol-version"; "last-event-id"].

Record StaticEnv := mkStaticEnv {
  MCP_API_KEY : option string;
  MCP_IDENTITY_HEADER : option string;
  MCP_DEFAULT_SUB : option string;
  MCP_STATIC_TENANT : option string;
}.

(** An error is AUTH_CONFIG_INVALID. *)
Definition loadStaticMcpAuthConfig (tenantConfig : TenantConfig) (env : StaticEnv) : res string (option StaticMcpAuthConfig) :=
  match MCP_API_KEY env with
  | None | Some EmptyString => Ok None
  | Some key =>
      if decide (str_len key < MIN_API_KEY_LENGTH) then Err "MCP_API_KEY"
      else
        let header := map_str lower (trim (default "x-librechat-user-id" (MCP_IDENTITY_HEADER env))) in
        if negb (HEADER_NAME_PATTERN header) then Err "MCP_IDENTITY_HEADER"
        else if bool_decide (header ∈ RESERVED_IDENTITY_HEADERS) then Err "MCP_IDENTITY_HEADER"
        else
          let tenant := default DEFAULT_TENANT_ID (MCP_STATIC_TENANT env) in
          let finish sub := if negb (hasTenant tenantConfig tenant) then Err "MCP_STATIC_TENANT" else Ok (Some (mkStatic key header sub tenant)) in
          match MCP_DEFAULT_SUB env with
          | Some (String c s) =>
              match sanitizeIdentity (Some (String c s)) with
              | None => Err "MCP_DEFAULT_SUB"
              | Some sub => finish (Some sub)
              end
          | _ => finish None
          end
  end.

(** ** The middleware *)

(** A 401 with a code, or the next handler, with the principal or without. *)
Inductive AuthOutcome := Unauthorized (code : string) | NextAnonymous | Next (owner tenant : string).

Definition UNAUTHENTICATED_PATHS : list string := ["POST /v1/auth/bootstrap"].

Definition requestKey (req : Request) : string := map_str upper (r_method req) +:+ " " +:+ r_path req.

Section middleware.
Context `{Crypto} (tenantConfig : TenantConfig).

Definition constantTimeEqual (a b : string) : bool := bool_decide (sha256_digest a = sha256_digest b).

Definition handleStaticAuth (req : Request) (staticAuth : StaticMcpAuthConfig) : AuthOutcome :=
  let finish owner := if negb (hasTenant tenantConfig (sa_tenant staticAuth)) then Unauthorized "AUTH_UNKNOWN_TENANT"
                      else Next owner (sa_tenant staticAuth) in
  match r_header req (identityHeader staticAuth) with
  | Some rawIdentity =>
      match sanitizeIdentity (Some rawIdentity) with
      | None => Unauthorized "AUTH_IDENTITY_INVALID"
      | Some sanitized => finish sanitized
      end
  | None => match defaultSub staticAuth with
            | Some sub => finish sub
            | None => Unauthorized "AUTH_IDENTITY_REQUIRED"
            end
  end.

(** The tenant a token speaks for. *)
Definition claimed_tenant (claims : Claims) : string :=
  match c_tenant claims with
  | Some (CString (String c s)) => String c s
  | _ => DEFAULT_TENANT_ID
  end.

Definition createAuthMiddleware (staticAuth : option StaticMcpAuthConfig) (AUTH_SECRET : option string) (now : Z) (req : Request) : AuthOutcome :=
  if decide (requestKey req ∈ UNAUTHENTICATED_PATHS) then NextAnonymous
  else
    match r_header req "authorization" with
    | None => Unauthorized "AUTH_REQUIRED"
    | Some authHeader =>
        if negb (starts_with authHeader "Bearer ") then Unauthorized "AUTH_REQUIRED"
        else
          let token := slice_from authHeader 7 in
          let jwt :=
            match AUTH_SECRET with
            | None | Some EmptyString => Unauthorized "AUTH_REQUIRED"
            | Some secret =>
                match jwtVerify token secret now with
                | None => Unauthorized "AUTH_INVALID"
                | Some payload =>
                    match c_sub payload with
                    | None | Some EmptyString => Unauthorized "AUTH_INVALID"
                    | Some sub =>
                        let tenant := claimed_tenant payload in
                        if negb (hasTenant tenantConfig tenant) then Unauthorized "AUTH_UNKNOWN_TENANT" else Next sub tenant
                    end
                end
            end in
          match staticAuth with
          | Some sa => if constantTimeEqual token (apiKey sa) then handleStaticAuth req sa else jwt
          | None => jwt
          end
    end.

(** ** Tokens *)

Definition signToken (sub : string) (tenant expiresIn : option string) (secret : string) (jti : option string) (now : Z) : string :=
  let exp := match expiresIn with
             | Some (String c s) => if decide (String c s = "never") then None else Some (now + duration (String c s))
             | _ => None
             end in
  jwtSign (mkClaims (Some sub) (CString <$> tenant) exp jti) secret.

(** A body with fields of the right types; [None] is any other body. *)
Record TokenBody := mkTokenBody { tb_sub : string; tb_tenant : option string; tb_expiresIn : option string }.

Definition tokenBodySchema (b : TokenBody) : bool :=
  negb (bool_decide (tb_sub b = EmptyString)) &&
  match tb_tenant b with Some t => TENANT_ID_PATTERN t | None => true end &&
  match tb_expiresIn b with Some e => bool_decide (e ∈ ["30d"; "1y"; "24h"; "never"]) | None => true end.

(** The status and, with 201, the token. *)
Inductive TokenAnswer := Refused (status : Z) (code : string) | Issued (token : string).

(** The end of both routes: the validation of the body, and the handler. *)
Definition issue (body : option TokenBody) (AUTH_SECRET : option string) (jti : option string) (now : Z) : TokenAnswer :=
  match b ← body; if tokenBodySchema b then Some b else None with
  | None => Refused 400 "INVALID_INPUT"
  | Some b =>
      match AUTH_SECRET with
      | None | Some EmptyString => Refused 500 "AUTH_NOT_CONFIGURED"
      | Some secret =>
          if match tb_tenant b with Some t => negb (hasTenant tenantConfig t) | None => false end then Refused 400 "INVALID_INPUT"
          else Issued (signToken (tb_sub b) (tb_tenant b) (Some (default "30d" (tb_expiresIn b))) secret jti now)
      end
  end.

(** [!provided || !constantTimeEqual(provided, secret)] *)
Definition wrong_secret (provided : option string) (secret : string) : bool :=
  match provided with
  | None | Some EmptyString => true
  | Some p => negb (constantTimeEqual p secret)
  end.

Definition bootstrap (req : Request) (body : option TokenBody) (AUTH_SECRET : option string) (now : Z) : TokenAnswer :=
  match AUTH_SECRET with
  | None | Some EmptyString => Refused 500 "AUTH_NOT_CONFIGURED"
  | Some secret =>
      if wrong_secret (r_header req "x-auth-secret") secret then Refused 403 "FORBIDDEN"
      else issue body AUTH_SECRET None now
  end.

(** Behind the middleware. [jti] is random. *)
Definition admin (req : Request) (body : option TokenBody) (ADMIN_SECRET AUTH_SECRET : option string) (jti : string) (now : Z) : TokenAnswer :=
  match ADMIN_SECRET with
  | None | Some EmptyString => Refused 500 "ADMIN_NOT_CONFIGURED"
  | Some secret =>
      if wrong_secret (r_header req "x-admin-secret") secret then Refused 403 "FORBIDDEN"
      else issue body AUTH_SECRET (Some jti) now
  end.
End middleware.

(** ** Ownership *)

Definition isOwnedBy (owner : option string) (caller : string) : bool :=
  bool_decide (0 < str_len caller) && match owner with Some (String c s) => bool_decide (String c s = caller) | _ => false end.

Definition createForbiddenError : fs_error := Coded "FORBIDDEN".

(** ** What the middleware promises *)

Lemma sanitize_spec raw o : sanitizeIdentity raw = Some o →
  ∃ r, raw = Some r ∧ o = trim r ∧ o ≠ EmptyString ∧ str_len o ≤ MAX_IDENTITY_LENGTH ∧ str_all no_control o = true.
Proof.
  destruct raw as [r|]; [|done]. cbn [sanitizeIdentity]. case_decide as Hd; [done|]. destruct (str_all no_control (trim r)) eqn:E; [|done].
  intros [= <-]. exists r. split_and!; [done|done| |lia|done]. intros E'. rewrite E' in Hd. apply Hd. by left.
Qed.

(** A static configuration that was loaded: its key is long, its header can tell
    users apart, its default is an identity. *)
Lemma static_spec cfg env sa : loadStaticMcpAuthConfig cfg env = Ok (Some sa) →
  MIN_API_KEY_LENGTH ≤ str_len (apiKey sa) ∧ identityHeader sa ∉ RESERVED_IDENTITY_HEADERS ∧
  HEADER_NAME_PATTERN (identityHeader sa) = true ∧ defaultSub sa ≠ Some EmptyString.
Proof.
  unfold loadStaticMcpAuthConfig. destruct (MCP_API_KEY env) as [[|c s]|]; [done| |done]. case_decide; [done|].
  destruct (HEADER_NAME_PATTERN _) eqn:Ep; [|done]. cbn [negb]. case_bool_decide as Hres; [done|].
  destruct (MCP_DEFAULT_SUB env) as [[|c' s']|].
  2:{ destruct (sanitizeIdentity (Some (String c' s'))) as [sub|] eqn:Es; [|done]. apply sanitize_spec in Es as (? & _ & _ & Hne & _).
      destruct (hasTenant _ _); intros [= <-]; simpl. split_and!; [lia|done|done|congruence]. }
  all: destruct (hasTenant _ _); intros [= <-]; simpl; split_and!; [lia|done|done|done].
Qed.

Section sound.
Context `{CryptoLaws} (cfg : TenantConfig).

Lemma constantTimeEqual_eq a b : constantTimeEqual a b = true ↔ a = b.
Proof. unfold constantTimeEqual. rewrite bool_decide_eq_true. split; [apply digest_inj|by intros ->]. Qed.

(** The bearer of the API key, and who it says it acts for. *)
Definition static_principal (sa : StaticMcpAuthConfig) (req : Request) (owner tenant : string) : Prop :=
  tenant = sa_tenant sa ∧
  match r_header req (identityHeader sa) with
  | Some raw => owner = trim raw ∧ str_len owner ≤ MAX_IDENTITY_LENGTH ∧ str_all no_control owner = true
  | None => defaultSub sa = Some owner
  end.

(** The bearer of a token signed under the secret that has not expired. *)
Definition token_principal (token secret : string) (now : Z) (owner tenant : string) : Prop :=
  secret ≠ EmptyString ∧ ∃ claims, signed token secret claims ∧ unexpired claims now ∧ c_sub claims = Some owner ∧ tenant = claimed_tenant claims.

(** Who the bearer of a request's token is. *)
Definition principal (staticAuth : option StaticMcpAuthConfig) (AUTH_SECRET : option string) (now : Z) (req : Request) (owner tenant : string) : Prop :=
  ∃ token, r_header req "authorization" = Some ("Bearer " +:+ token) ∧
    ((∃ sa, staticAuth = Some sa ∧ token = apiKey sa ∧ MIN_API_KEY_LENGTH ≤ str_len token ∧ static_principal sa req owner tenant) ∨
     (∃ secret, AUTH_SECRET = Some secret ∧ token_principal token secret now owner tenant)).

Definition admitted (staticAuth : option StaticMcpAuthConfig) (AUTH_SECRET : option string) (now : Z) (req : Request) (o : AuthOutcome) : Prop :=
  match o with
  | Next owner tenant => owner ≠ EmptyString ∧ hasTenant cfg tenant = true ∧ principal staticAuth AUTH_SECRET now req owner tenant
  | NextAnonymous => False
  | Unauthorized _ => True
  end.

Lemma static_admitted env sa AUTH_SECRET now req :
  loadStaticMcpAuthConfig cfg env = Ok (Some sa) → r_header req "authorization" = Some ("Bearer " +:+ apiKey sa) →
  admitted (Some sa) AUTH_SECRET now req (handleStaticAuth cfg req sa).
Proof using All.
  intros Hload Hh. destruct (static_spec _ _ _ Hload) as (Hlen & _ & _ & Hdef).
  assert (Hfin : ∀ owner, owner ≠ EmptyString → static_principal sa req owner (sa_tenant sa) →
    admitted (Some sa) AUTH_SECRET now req
      (if negb (hasTenant cfg (sa_tenant sa)) then Unauthorized "AUTH_UNKNOWN_TENANT" else Next owner (sa_tenant sa))).
  { intros owner Ho Hp. destruct (hasTenant cfg (sa_tenant sa)) eqn:Et; [|done]. split; [done|]. split; [done|].
    exists (apiKey sa). split; [done|]. left. by exists sa. }
  unfold handleStaticAuth. destruct (r_header req (identityHeader sa)) as [raw|] eqn:Eraw.
  - destruct (sanitizeIdentity (Some raw)) as [o|] eqn:Eo; [|done]. apply sanitize_spec in Eo as (r & [= <-] & -> & Hne & Hl & Hc).
    apply Hfin; [done|]. unfold static_principal. by rewrite Eraw.
  - destruct (defaultSub sa) as [sub|] eqn:Ed; [|done]. apply Hfin; [congruence|]. unfold static_principal. by rewrite Eraw.
Qed.

(** C10: No request gets past the middleware without a principal. If the next
    handler runs with an owner and a tenant, then the owner is not empty, the
    tenant is configured, and the bearer token is either the static key (with
    the owner taken from the identity header, trimmed, at most 256 characters
    and without control characters, or the configured default) or a token
    signed under the server's secret that has not expired, whose subject is the
    owner and whose tenant claim, or the default tenant, is the tenant. Only the
    bootstrap route runs without a principal. *)
Theorem auth_sound env staticAuth AUTH_SECRET now req :
  loadStaticMcpAuthConfig cfg env = Ok staticAuth →
  match createAuthMiddleware cfg staticAuth AUTH_SECRET now req with
  | Next owner tenant => owner ≠ EmptyString ∧ hasTenant cfg tenant = true ∧ principal staticAuth AUTH_SECRET now req owner tenant
  | NextAnonymous => requestKey req = "POST /v1/auth/bootstrap"
  | Unauthorized _ => True
  end.
Proof using All.
  intros Hload. unfold createAuthMiddleware. case_decide as Hkey; [by apply list_elem_of_singleton in Hkey|].
  destruct (r_header req "authorization") as [h|] eqn:Eh; [|done]. destruct (starts_with h "Bearer ") eqn:Es; [|done].
  apply starts_with_spec in Es as [token ->]. change 7 with (str_len "Bearer "). rewrite slice_from_app. cbn [negb].
  set (jwt := match AUTH_SECRET with Some _ => _ | None => _ end).
  enough (Hw : admitted staticAuth AUTH_SECRET now req
    (match staticAuth with Some sa => if constantTimeEqual token (apiKey sa) then handleStaticAuth cfg req sa else jwt | None => jwt end)).
  { by destruct (match staticAuth with Some _ => _ | None => _ end). }
  assert (Hjwt : admitted staticAuth AUTH_SECRET now req jwt).
  { subst jwt. destruct AUTH_SECRET as [[|c s]|]; [done| |done]. destruct (jwtVerify token (String c s) now) as [claims|] eqn:Ev; [|done].
    destruct (c_sub claims) as [[|c' s']|] eqn:Ec; [done| |done]. destruct (hasTenant cfg (claimed_tenant claims)) eqn:Et; [|done].
    destruct (verify_sound _ _ _ _ Ev). split; [done|]. split; [done|]. exists token. split; [done|]. right.
    exists (String c s). split; [done|]. split; [done|]. by exists claims. }
  destruct staticAuth as [sa|]; [|done]. destruct (constantTimeEqual token (apiKey sa)) eqn:Ek; [|done].
  apply constantTimeEqual_eq in Ek as ->. by eapply static_admitted.
Qed.

(** When a token that was asked for at [now] ends. *)
Definition valid_at (b : TokenBody) (now later : Z) : Prop :=
  let expiresIn := default "30d" (tb_expiresIn b) in expiresIn = "never" ∨ later < now + duration expiresIn.

Lemma wrong_secret_false provided secret : wrong_secret provided secret = false → provided = Some secret ∧ secret ≠ EmptyString.
Proof using All.
  unfold wrong_secret. destruct provided as [[|c s]|]; [done| |done]. intros E%negb_false_iff.
  apply constantTimeEqual_eq in E as <-. done.
Qed.

(** What a signed token is good for. *)
Lemma issued_accepted b secret jti now staticAuth later req :
  tokenBodySchema b = true → secret ≠ EmptyString →
  r_header req "authorization" = Some ("Bearer " +:+ signToken (tb_sub b) (tb_tenant b) (Some (default "30d" (tb_expiresIn b))) secret jti now) →
  requestKey req ∉ UNAUTHENTICATED_PATHS →
  (∀ sa, staticAuth = Some sa → signToken (tb_sub b) (tb_tenant b) (Some (default "30d" (tb_expiresIn b))) secret jti now ≠ apiKey sa) →
  hasTenant cfg (default DEFAULT_TENANT_ID (tb_tenant b)) = true → valid_at b now later →
  createAuthMiddleware cfg staticAuth (Some secret) later req = Next (tb_sub b) (default DEFAULT_TENANT_ID (tb_tenant b)).
Proof using All.
  intros Hb Hs Hh Hk Hsa Ht Hv. set (token := signToken _ _ _ _ _ _) in *. unfold createAuthMiddleware.
  rewrite decide_False, Hh, starts_with_app by done. change 7 with (str_len "Bearer "). rewrite slice_from_app. cbn [negb].
  unfold tokenBodySchema in Hb. apply andb_true_iff in Hb as [[Hsub Htp]%andb_true_iff He].
  assert (Hjwt : jwtVerify token secret later = Some (mkClaims (Some (tb_sub b)) (CString <$> tb_tenant b)
    (if decide (default "30d" (tb_expiresIn b) = "never") then None else Some (now + duration (default "30d" (tb_expiresIn b)))) jti)).
  { assert (Htok : token = jwtSign (mkClaims (Some (tb_sub b)) (CString <$> tb_tenant b)
      (if decide (default "30d" (tb_expiresIn b) = "never") then None else Some (now + duration (default "30d" (tb_expiresIn b)))) jti) secret).
    { subst token. unfold signToken. destruct (tb_expiresIn b) as [[|c s]|]; [done|done|done]. }
    rewrite Htok. apply verify_complete; [apply sign_signed|]. intros e. cbn [c_exp]. case_decide; [done|]. intros [= <-].
    by destruct Hv. }
  assert (Hc : ∀ o, (match tb_sub b with EmptyString => Unauthorized "AUTH_INVALID" | _ => o end) = o).
  { intros o. destruct (tb_sub b); [done|done]. }
  destruct secret as [|c s]; [done|]. rewrite Hjwt. cbn [c_sub].
  assert (Hct : claimed_tenant (mkClaims (Some (tb_sub b)) (CString <$> tb_tenant b)
    (if decide (default "30d" (tb_expiresIn b) = "never") then None else Some (now + duration (default "30d" (tb_expiresIn b)))) jti)
    = default DEFAULT_TENANT_ID (tb_tenant b)).
  { unfold claimed_tenant. simpl. destruct (tb_tenant b) as [[|]|]; done. }
  rewrite Hct, Ht. cbn [negb]. rewrite Hc.
  destruct staticAuth as [sa|]; [|done]. destruct (constantTimeEqual token (apiKey sa)) eqn:Ek; [|done].
  apply constantTimeEqual_eq in Ek. by destruct (Hsa sa eq_refl).
Qed.

(** C20: A token is what was asked for. If one of the two token routes issues a
    token, its caller knew the route's secret, the server's secret is set and a
    tenant that was named is configured; and until the token expires every
    request that bears it passes the middleware as the subject asked for, in the
    tenant asked for or, when none was, in the default tenant, if that one is
    configured. *)
Theorem token_round_trip route_secret answer req body jti ADMIN_SECRET AUTH_SECRET now token :
  (answer = bootstrap cfg req body AUTH_SECRET now ∧ route_secret = (r_header req "x-auth-secret", AUTH_SECRET) ∨
   answer = admin cfg req body ADMIN_SECRET AUTH_SECRET jti now ∧ route_secret = (r_header req "x-admin-secret", ADMIN_SECRET)) →
  answer = Issued token →
  ∃ b, body = Some b ∧ tb_sub b ≠ EmptyString ∧ (∀ t, tb_tenant b = Some t → hasTenant cfg t = true) ∧
    route_secret.1 = route_secret.2 ∧ route_secret.2 ≠ None ∧ route_secret.2 ≠ Some EmptyString ∧
    ∀ staticAuth later req',
      r_header req' "authorization" = Some ("Bearer " +:+ token) → requestKey req' ∉ UNAUTHENTICATED_PATHS →
      (∀ sa, staticAuth = Some sa → token ≠ apiKey sa) →
      hasTenant cfg (default DEFAULT_TENANT_ID (tb_tenant b)) = true → valid_at b now later →
      createAuthMiddleware cfg staticAuth AUTH_SECRET later req' = Next (tb_sub b) (default DEFAULT_TENANT_ID (tb_tenant b)).
Proof using All.
  intros Hroute ->.
  assert (Hi : ∃ j secret, Issued token = issue cfg body AUTH_SECRET j now ∧ route_secret = (Some secret, Some secret) ∧ secret ≠ EmptyString).
  { destruct Hroute as [[E ->]|[E ->]]; revert E.
    - unfold bootstrap. destruct AUTH_SECRET as [[|c s]|]; [done| |done]. destruct (wrong_secret _ _) eqn:Ew; [done|].
      apply wrong_secret_false in Ew as [-> Hne]. intros E. by eexists _, _.
    - unfold admin. destruct ADMIN_SECRET as [[|c s]|]; [done| |done]. destruct (wrong_secret _ _) eqn:Ew; [done|].
      apply wrong_secret_false in Ew as [-> Hne]. intros E. by eexists _, _. }
  destruct Hi as (j & secret & Hi & -> & Hne). unfold issue in Hi. destruct body as [b|]; [|done]. simpl in Hi.
  destruct (tokenBodySchema b) eqn:Eb; [|done]. destruct AUTH_SECRET as [[|c s]|]; [done| |done].
  destruct (match tb_tenant b with Some t => _ | None => _ end) eqn:Et; [done|]. injection Hi as ->.
  exists b. split; [done|]. split; [unfold tokenBodySchema in Eb; by destruct (tb_sub b)|]. split.
  { intros t E. rewrite E in Et. by apply negb_false_iff in Et. }
  split; [done|]. split; [done|]. split; [simpl; congruence|]. intros staticAuth later req' Hh Hk Hsa Ht Hv. by eapply issued_accepted.
Qed.
End sound.

(** ** An instance *)

(** The claims and the secret written out; digests that are the text itself. *)
Fixpoint digits (p : positive) : string :=
  match p with xH => EmptyString | xO p => String "0" (digits p) | xI p => String "1" (digits p) end.

Fixpoint undigits (s : string) : positive :=
  match s with EmptyString => xH | String c s => if decide (c = "1"%char) then xI (undigits s) else xO (undigits s) end.

Lemma undigits_digits p : undigits (digits p) = p.
Proof. induction p as [p IH|p IH|]; simpl; [by rewrite IH|by rewrite IH|done]. Qed.

Definition flat : Type := option string * option (option string) * option Z * option string * string.

Definition flatten (claims : Claims) (secret : string) : flat :=
  (c_sub claims, (λ v, match v with CString s => Some s | COther => None end) <$> c_tenant claims, c_exp claims, c_jti claims, secret).

Definition unflatten (f : flat) : Claims * string :=
  let '(sub, tenant, exp, jti, secret) := f in
  (mkClaims sub ((λ v, match v with Some s => CString s | None => COther end) <$> tenant) exp jti, secret).

Lemma unflatten_flatten claims secret : unflatten (flatten claims secret) = (claims, secret).
Proof. destruct claims as [sub [[]|] exp jti]; done. Qed.

Definition plain_sign (claims : Claims) (secret : string) : string := digits (encode (flatten claims secret)).

Definition plain_open (token : string) : option (Claims * string) :=
  f ← decode (A := flat) (undigits token);
  if decide (digits (encode f) = token) then Some (unflatten f) else None.

Lemma plain_open_sign claims secret : plain_open (plain_sign claims secret) = Some (claims, secret).
Proof. unfold plain_open, plain_sign. rewrite undigits_digits, decode_encode. cbn [mbind option_bind]. by rewrite decide_True, unflatten_flatten. Qed.

#[export] Instance plain_crypto : Crypto := {
  sha256_digest s := s;
  jwtSign := plain_sign;
  jwtVerify token secret now :=
    '(claims, secret') ← plain_open token;
    if decide (secret' = secret) then
      match c_exp claims with
      | Some e => if decide (now < e) then Some claims else None
      | None => Some claims
      end
    else None;
  signed token secret claims := plain_open token = Some (claims, secret);
  duration d := if decide (d = "24h") then 86400 else if decide (d = "30d") then 2592000 else 31557600;
}.

#[export] Instance plain_laws : CryptoLaws.
Proof.
  split.
  - by intros a b.
  - apply plain_open_sign.
  - intros token secret now claims. cbn [jwtVerify signed plain_crypto]. destruct (plain_open token) as [[cl sec]|]; [|done]. simpl.
    case_decide as Hs; [subst|done]. unfold unexpired. destruct (c_exp cl) as [e|] eqn:Ee.
    + case_decide; [|done]. intros [= <-]. split; [done|]. rewrite Ee. by intros ? [= <-].
    + intros [= <-]. split; [done|]. by rewrite Ee.
  - intros token secret now claims Hs Hu. cbn [jwtVerify signed plain_crypto] in *. rewrite Hs. simpl. rewrite decide_True by done.
    unfold unexpired in Hu. destruct (c_exp claims) as [e|]; [|done]. by rewrite decide_True by auto.
Qed.

(** *** Witnesses *)

Definition demo_tenants : TenantConfig := [("default", "postgres://a"); ("acme", "postgres://b")].

Definition demo_headers (l : list (string * string)) : string → option string := λ name, jget name l.

Definition demo_static : StaticEnv := mkStaticEnv (Some "0123456789abcdef") None None (Some "acme").

Definition demo_bearer (token : string) (more : list (string * string)) : Request :=
  mkRequest "get" "/v1/sandboxes" (demo_headers (("authorization", "Bearer " +:+ token) :: more)).

Definition demo_sa : StaticMcpAuthConfig := mkStatic "0123456789abcdef" "x-librechat-user-id" None "acme".

Lemma auth_sound_witness :
  createAuthMiddleware demo_tenants (Some demo_sa) None 0 (demo_bearer "0123456789abcdef" [("x-librechat-user-id", " ada ")]) = Next "ada" "acme" ∧
  principal (Some demo_sa) None 0 (demo_bearer "0123456789abcdef" [("x-librechat-user-id", " ada ")]) "ada" "acme".
Proof.
  assert (E : createAuthMiddleware demo_tenants (Some demo_sa) None 0
    (demo_bearer "0123456789abcdef" [("x-librechat-user-id", " ada ")]) = Next "ada" "acme") by (vm_compute; reflexivity).
  split; [exact E|].
  pose proof (auth_sound demo_tenants demo_static (Some demo_sa) None 0
    (demo_bearer "0123456789abcdef" [("x-librechat-user-id", " ada ")]) ltac:(vm_compute; reflexivity)) as Hx.
  rewrite E in Hx. exact (proj2 (proj2 Hx)).
Defined.

Definition demo_body : TokenBody := mkTokenBody "ada" (Some "acme") (Some "24h").

Definition demo_ask : Request := mkRequest "POST" "/v1/auth/bootstrap" (demo_headers [("x-auth-secret", "hush")]).

Definition demo_token : string := signToken "ada" (Some "acme") (Some "24h") "hush" None 1000.

Lemma token_round_trip_witness :
  createAuthMiddleware demo_tenants None (Some "hush") 2000 (demo_bearer demo_token []) = Next "ada" "acme" ∧
  createAuthMiddleware demo_tenants None (Some "hush") 87400 (demo_bearer demo_token []) = Unauthorized "AUTH_INVALID".
Proof.
  split; [|vm_compute; reflexivity].
  destruct (token_round_trip demo_tenants (Some "hush", Some "hush") (bootstrap demo_tenants demo_ask (Some demo_body) (Some "hush") 1000)
    demo_ask (Some demo_body) "j" None (Some "hush") 1000 demo_token) as (b & Hb & _ & _ & _ & _ & _ & Hx).
  - left. split; [reflexivity|]. vm_compute. reflexivity.
  - vm_compute. reflexivity.
  - injection Hb as <-. apply Hx.
    + vm_compute. reflexivity.
    + refine (bool_decide_unpack _ _). vm_compute. exact I.
    + discriminate.
    + vm_compute. reflexivity.
    + right. vm_compute. reflexivity.
Defined.
