(* ===== verification/Routes.v ===== *)
(** The routes of a sandbox: files (src/src/api/routes/files.ts), executions,
    streamed, awaited and in batches (routes/exec.ts), ingest (routes/ingest.ts),
    with the session they find under its lock (src/src/api/ownership.ts,
    [withSessionOrRehydrate] and [withSessionRead] of session-manager.ts).

    A request comes here with its principal ([Auth]). What [JSON.parse] and the
    types of a schema make of a body is an argument of the route; the shell is
    the [Script] it runs. *)

From S2P Require Import Prelude Batch Breaker DistLock LockRuns Errors Paths Store Tree Dialect Lifecycle LoadPaths View Session Namespace Coherence Simulation Journal Invariant Mutate Handlers SqlFs Ingest IngestRows IngestSim IngestSound Scopes Machine Guarantees Isolation Contents Exec ExecSound Readers ApiErrors SessionLock Executions Text Replace Edits Auth.

(** ** Responses *)

Record TreeEntry := mkTreeEntry { te_path : string; te_kind : string; te_size : Z; te_mtime : Z }.

(** The events of a stream. *)
Inductive StreamEvent := EvStdout | EvStderr | EvError (code : string) (retryable : option bool) | EvExit (exitCode : Z) (error : option string).

Inductive Payload :=
| NoBody
| Problem (error code : string)
| FileBody (contentType bytes kind : string) (mode size mtime : Z)
| EditBody (path : string) (replacements size : Z)
| TreeBody (entries : list TreeEntry)
| ExecBodyOut (exitCode : Z)
| TimeoutBody
| StreamBody (events : list StreamEvent)
| BatchOut (results : list BatchScriptResult)
| IngestBody (fileCount : Z).

Record HttpResponse := mkHttp { h_status : Z; h_body : Payload }.

Definition problem (status : Z) (error code : string) : HttpResponse := mkHttp status (Problem error code).
Definition invalid_input : HttpResponse := problem 400 "validation_error" "INVALID_INPUT".
Definition payload_too_large : HttpResponse := problem 413 "payload_too_large" "PAYLOAD_TOO_LARGE".
Definition no_content : HttpResponse := mkHttp 204 NoBody.

(** What is thrown goes to [apiErrorHandler]. *)
Definition respond (sanitize : string → string) (r : res req_error HttpResponse) : HttpResponse :=
  match r with
  | Ok response => response
  | Err e => let '(status, body, _) := apiErrorHandler sanitize (request_error e) in mkHttp status (Problem (body_error body) (body_code body))
  end.

(** ** The session of a request *)

(** What becomes of the request's lock, and what it finds under it: the resident session's owner and
    whether it is closing; the owner in the sandbox's metadata; the owner the
    session it opened has; then what the entry of [Exec] finds, and whether the
    lease is lost when the request looks. *)
Record Visit := mkVisit {
  vi_resident : option (string * bool);
  vi_meta : res req_error (option (option string));
  vi_opened : res req_error string;
  vi_runtime : MetaAnswer;
  vi_closing : bool;
  vi_lost : bool;
  vi_ownerLost : bool;
  vi_rwlockEnabled : bool;
  vi_lock : LockRun;
}.

(** The files of a body, in order, their text as code units. *)
Abbreviation Files := (list (string * list Z)).

Section sessions.
Context `{Config} `{Lru}.

(** [rehydrate], with [hydrateMetadata]: the owner of the session. *)
Definition rehydrate (v : Visit) : res req_error string :=
  match vi_meta v with
  | Err e => Err e
  | Ok None => Err (RFs (ENOENT sandboxId))
  | Ok (Some owner) =>
      match vi_opened v with
      | Err e => Err e
      | Ok opened => Ok (match owner with Some (String c s) => String c s | _ => opened end)
      end
  end.

(** The owner of the session the request gets. *)
Definition session_owner (v : Visit) : res req_error string :=
  match vi_resident v with
  | Some (owner, false) => Ok owner
  | _ => rehydrate v
  end.

Definition withSessionOrRehydrate {A} (v : Visit) (fn : string → sysM A) : reqM A :=
  withExecLockExclusive (vi_rwlockEnabled v) (vi_lock v) (
    let* owner := lift_res (session_owner v) in
    withSessionEntry (vi_runtime v) (vi_closing v) (onFs (fn owner))).

Definition withSessionRead {A} (v : Visit) (fn : string → sysM A) : reqM A :=
  withExecLockShared (vi_rwlockEnabled v) (vi_lock v) (
    let* owner := lift_res (session_owner v) in
    withSessionReadEntry (vi_runtime v) (vi_closing v) (fn owner)).

Definition assertSessionOwner (owner caller : string) : sysM unit := throw_if (negb (isOwnedBy (Some owner) caller)) createForbiddenError.

Definition withOwnedSessionOrRehydrate {A} (v : Visit) (caller : string) (fn : sysM A) : reqM A :=
  withSessionOrRehydrate v (λ owner, assertSessionOwner owner caller ;;; fn).

Definition withOwnedSessionRead {A} (v : Visit) (caller : string) (fn : sysM A) : reqM A :=
  withSessionRead v (λ owner, assertSessionOwner owner caller ;;; fn).

Definition isForbiddenError (e : req_error) : bool := bool_decide (e_code (request_error e) = Some "FORBIDDEN").

Definition forbiddenResponse : HttpResponse := problem 403 "forbidden" "FORBIDDEN".

(** The [try] around the session of a route. *)
Definition try_owned {A} (op : reqM A) (response : A → HttpResponse) : reqM HttpResponse :=
  catch (let* a := op in retM (response a)) (λ err, if isForbiddenError err then retM forbiddenResponse else throw err).

(** ** Bodies *)

(** The counted stream: whether it overflowed, and what its reader gets. After
    the chunks the connection may fail. *)
Fixpoint count_stream (limitBytes seen : Z) (received : string) (chunks : list string) (fails : bool) : bool * res fs_error string :=
  match chunks with
  | [] => (false, if fails then Err (PlainError "network") else Ok received)
  | chunk :: rest =>
      let seen' := seen + str_len chunk in
      if limitBytes <? seen' then (true, Err (PlainError "body exceeds limit"))
      else count_stream limitBytes seen' (received +:+ chunk) rest fails
  end.

(** [declared]: the Content-Length, when it is a number. A body is its chunks and
    whether the connection fails after them. *)
Record Upload := mkUpload { u_declared : option Z; u_body : option (list string * bool) }.

Definition writeBodyLimit (limitBytes : Z) (u : Upload) (next : res fs_error string → reqM HttpResponse) : reqM HttpResponse :=
  if match u_declared u with Some declared => limitBytes <? declared | None => false end then retM payload_too_large
  else
    match u_body u with
    | None => next (Ok EmptyString)
    | Some (chunks, fails) =>
        let '(overflowed, received) := count_stream limitBytes 0 EmptyString chunks fails in
        if overflowed then attempt (next received) ;;; retM payload_too_large else next received
    end.

(** [JSON.parse] of a body that could be read, and what the schema makes of it. *)
Definition json_body {B} (parse : string → option B) (received : res fs_error string) : option B :=
  match received with Ok text => parse text | Err _ => None end.

(** ** Files *)

Definition MIME_TYPES : list (string * string) :=
  [(".html", "text/html"); (".htm", "text/html"); (".css", "text/css"); (".js", "text/javascript"); (".mjs", "text/javascript");
   (".ts", "text/typescript"); (".json", "application/json"); (".txt", "text/plain"); (".md", "text/markdown");
   (".xml", "application/xml"); (".sh", "application/x-sh"); (".py", "text/x-python"); (".png", "image/png");
   (".jpg", "image/jpeg"); (".jpeg", "image/jpeg"); (".gif", "image/gif"); (".svg", "image/svg+xml"); (".ico", "image/x-icon");
   (".pdf", "application/pdf"); (".zip", "application/zip"); (".gz", "application/gzip"); (".tar", "application/x-tar");
   (".csv", "text/csv"); (".yaml", "application/yaml"); (".yml", "application/yaml")].

(** What follows the last dot, the dot included. *)
Fixpoint extension (s : string) : option string :=
  match s with
  | EmptyString => None
  | String c rest => match extension rest with
                     | Some e => Some e
                     | None => if decide (c = "."%char) then Some s else None
                     end
  end.

Definition inferContentType (path : string) : string :=
  match extension path with
  | None => "application/octet-stream"
  | Some ext => default "application/octet-stream" (jget (map_str lower ext) MIME_TYPES)
  end.

Definition toKind (stat : FsStat) : string :=
  if isFile stat then "file" else if isDirectory stat then "dir" else "symlink".

Inductive ReadResult := ReadOk (body : string) (stat : FsStat) | ReadNotFound | ReadIsDir.

Definition read_file (filePath : string) : sysM ReadResult :=
  let* st := attempt (fs_stat filePath) in
  match st with
  | Err e => if decide (errCode e = Some "ENOENT") then retM ReadNotFound else throw e
  | Ok stat =>
      if isDirectory stat then retM ReadIsDir
      else let* body := fs_readFileBuffer filePath in retM (ReadOk body stat)
  end.

Definition files_get (v : Visit) (caller filePath : string) : reqM HttpResponse :=
  try_owned (withOwnedSessionRead v caller (read_file filePath)) (λ result,
    match result with
    | ReadNotFound => problem 404 "not_found" "ENOENT"
    | ReadIsDir => problem 400 "is_directory" "EISDIR"
    | ReadOk body stat => mkHttp 200 (FileBody (inferContentType filePath) body (toKind stat) (st_mode stat) (st_size stat) (st_mtime stat))
    end).

Definition files_put (v : Visit) (caller filePath : string) (limit : Z) (u : Upload) : reqM HttpResponse :=
  writeBodyLimit limit u (λ received,
    match received with
    | Err e => throw (RFs e)
    | Ok content =>
        try_owned (withOwnedSessionOrRehydrate v caller (writeFileAtPath (vi_lost v) (vi_ownerLost v) filePath content)) (λ outcome,
          match outcome with WriteIsDir => problem 400 "is_directory" "EISDIR" | WriteOk => no_content end)
    end).

Definition files_patch (v : Visit) (caller filePath : string) (limit : Z) (parse : string → option EditRequest) (u : Upload) : reqM HttpResponse :=
  writeBodyLimit limit u (λ received,
    match json_body parse received with
    | None => retM invalid_input
    | Some req =>
        if decide (oldString req = [] ∨ oldString req = newString req) then retM invalid_input
        else
          try_owned (withOwnedSessionOrRehydrate v caller (editFile (vi_lost v) (vi_ownerLost v) filePath req limit)) (λ result,
            match result with
            | EditNotFound => problem 404 "not_found" "ENOENT"
            | EditIsDir => problem 400 "path_is_a_directory" "EISDIR"
            | EditBinary => problem 400 "not_utf8_text" "EDIT_BINARY"
            | EditNoMatch => problem 409 "old_string_not_found" "EDIT_NO_MATCH"
            | EditNotUnique _ => problem 409 "old_string_not_unique" "EDIT_NOT_UNIQUE"
            | EditTooLarge => payload_too_large
            | EditLoneSurrogate => problem 400 "lone_surrogate" "EDIT_LONE_SURROGATE"
            | EditOk replacements size => mkHttp 200 (EditBody filePath replacements size)
            end)
    end).

Inductive DeleteResult := DeleteOk | DeleteNotFound | DeleteNotEmpty.

Definition delete_file (filePath : string) (recursive : bool) : sysM DeleteResult :=
  catch (fs_rm filePath recursive false ;;; retM DeleteOk)
    (λ e, if decide (errCode e = Some "ENOENT") then retM DeleteNotFound
          else if decide (errCode e = Some "ENOTEMPTY") then retM DeleteNotEmpty else throw e).

Definition files_delete (v : Visit) (caller filePath : string) (recursive : bool) : reqM HttpResponse :=
  try_owned (withOwnedSessionOrRehydrate v caller (delete_file filePath recursive)) (λ result,
    match result with
    | DeleteNotFound => problem 404 "not_found" "ENOENT"
    | DeleteNotEmpty => problem 409 "directory_not_empty" "ENOTEMPTY"
    | DeleteOk => no_content
    end).

(** ** Bulk writes *)

(** The limits of the environment. *)
Record Limits := mkLimits { l_maxFiles : Z; l_maxFileBytes : Z; l_maxBytes : Z; l_maxBodyBytes : Z; l_maxTreeEntries : Z }.

(** The loop over the entries: one is too large, or their sum. *)
Fixpoint oversized (l : Limits) (totalBytes : Z) (files : Files) : bool :=
  match files with
  | [] => false
  | (_, content) :: rest =>
      let entryBytes := byteLength (encode content) in
      if l_maxFileBytes l <? entryBytes then true
      else if l_maxBytes l <? totalBytes + entryBytes then true
      else oversized l (totalBytes + entryBytes) rest
  end.

Definition writeAll (files : Files) : sysM unit :=
  forM files (λ e, ensureParentDir e.1 ;;; fs_writeFile e.1 (string_of (encode e.2))).

Definition writeFiles (v : Visit) (caller : string) (l : Limits) (parse : string → option Files) (u : Upload) : reqM HttpResponse :=
  writeBodyLimit (l_maxBodyBytes l) u (λ received,
    match json_body parse received with
    | None => retM invalid_input
    | Some files =>
        if existsb (λ e, bool_decide (trim e.1 = EmptyString)) files then retM invalid_input
        else if l_maxFiles l <? Z.of_nat (length files) then retM payload_too_large
        else if oversized l 0 files then retM payload_too_large
        else try_owned (withOwnedSessionOrRehydrate v caller (runInScriptTx (vi_lost v) (vi_ownerLost v) (writeAll files))) (λ _, no_content)
    end).

(** ** Directories *)

Inductive MkdirResult := MkdirOk | MkdirExists.

(** [body]: the path and [recursive]. *)
Definition route_mkdir (v : Visit) (caller : string) (body : option (string * bool)) : reqM HttpResponse :=
  match body with
  | None => retM invalid_input
  | Some (dirPath, recursive) =>
      if decide (dirPath = EmptyString) then retM invalid_input
      else
        try_owned (withOwnedSessionOrRehydrate v caller
            (catch (fs_mkdir dirPath recursive ;;; retM MkdirOk)
               (λ e, if decide (errCode e = Some "EEXIST") then retM MkdirExists else throw e)))
          (λ result, match result with MkdirExists => problem 409 "already_exists" "EEXIST" | MkdirOk => no_content end)
  end.

Definition fs_getAllPaths : sysM (list string) := assertAlive ;;; gets (λ s, view_paths (s_view s)).

(** [prefix.replace(/\/$/, "")] *)
Definition normalizedPrefix (prefix : string) : string :=
  if decide (prefix = "/") then "/"
  else if decide (slice_from prefix (-1) = "/") then slice_to prefix (-1) else prefix.

(** A path of the listing, by the two filters. *)
Definition listed (prefix : string) (depth : option Z) (p : string) : bool :=
  negb (bool_decide (p = prefix)) &&
  (bool_decide (prefix = "/") || starts_with p (prefix +:+ "/")) &&
  match depth with
  | None => true
  | Some depth =>
      let relative := if decide (prefix = "/") then slice_from p 1 else slice_from p (str_len prefix + 1) in
      Z.of_nat (length (List.filter (λ seg, negb (bool_decide (seg = EmptyString))) (split_slash relative))) <=? depth
  end.

Definition tree_entry (p : string) (stat : FsStat) : TreeEntry := mkTreeEntry p (toKind stat) (st_size stat) (st_mtime stat).

Fixpoint list_tree (l : Limits) (prefix : string) (depth : option Z) (paths : list string) (result : list TreeEntry) : sysM (list TreeEntry) :=
  match paths with
  | [] => retM result
  | p :: rest =>
      if negb (listed prefix depth p) then list_tree l prefix depth rest result
      else
        let* st := attempt (fs_stat p) in
        match st with
        | Ok stat =>
            let result' := result ++ [tree_entry p stat] in
            if l_maxTreeEntries l <? Z.of_nat (length result') then throw (Coded "PAYLOAD_TOO_LARGE")
            else list_tree l prefix depth rest result'
        | Err e =>
            if decide (errCode e ≠ Some "ENOENT" ∧ errCode e ≠ Some "ENOTDIR") then throw e
            else list_tree l prefix depth rest result
        end
  end.

(** [query]: the prefix and the depth, when the schema accepts them. *)
Definition files_tree (v : Visit) (caller : string) (l : Limits) (query : option (string * option Z)) : reqM HttpResponse :=
  match query with
  | None => retM invalid_input
  | Some (prefix, depth) =>
      let normalized := normalizedPrefix prefix in
      catch
        (try_owned (withOwnedSessionRead v caller (let* allPaths := fs_getAllPaths in list_tree l normalized depth allPaths []))
           (λ entries, mkHttp 200 (TreeBody entries)))
        (λ err, if decide (e_code (request_error err) = Some "PAYLOAD_TOO_LARGE") then retM payload_too_large else throw err)
  end.

(** ** Executions *)

Record ExecBody := mkExecBody {
  eb_script : string;
  eb_cwd : option string;
  eb_env : option (list (string * string));
  eb_timeoutMs : option Z;
  eb_debug : bool;
  eb_readOnly : bool;
}.

Definition MAX_TIMEOUT_MS : Z := 300000.

Definition PLAINTEXT_TYPES : list string := ["text/x-shellscript"; "text/plain"].

(** [split(";")[0]] *)
Fixpoint before_semicolon (s : string) : string :=
  match s with
  | EmptyString => EmptyString
  | String c rest => if decide (c = ";"%char) then EmptyString else String c (before_semicolon rest)
  end.

Definition contentTypeBase (header : option string) : string := map_str lower (trim (before_semicolon (default "application/json" header))).

(** [query]: the query's [timeoutMs], when it is there: the integer it is, if it
    is one. *)
Definition parseExecBody (parse : string → option ExecBody) (contentType : option string) (text : string) (query : option (option Z))
    : HttpResponse + ExecBody :=
  let ct := contentTypeBase contentType in
  if decide (ct ∈ PLAINTEXT_TYPES) then
    if decide (text = EmptyString) then inl invalid_input
    else match query with
         | None => inr (mkExecBody text None None None false false)
         | Some (Some n) => if decide (n ≤ 0 ∨ MAX_TIMEOUT_MS < n) then inl invalid_input else inr (mkExecBody text None None (Some n) false false)
         | Some None => inl invalid_input
         end
  else if decide (ct = "application/json") then
    match parse text with
    | None => inl invalid_input
    | Some body => if match eb_timeoutMs body with Some n => (n <=? 0) || (MAX_TIMEOUT_MS <? n) | None => false end then inl invalid_input else inr body
    end
  else inl (problem 415 "unsupported_media_type" "UNSUPPORTED_MEDIA_TYPE").

Definition wrapDebugScript (script : string) : string := "set -x" +:+ String "010" script.

Context (shell : string → option string → option (list (string * string)) → Script BashExecResult).

Definition exec_env (v : Visit) (run : ExecRun) (readOnly : bool) : ExecEnv :=
  mkExecEnv readOnly (er_maxFileBytes run) (er_inputLimitBytes run) 0 (vi_lost v) (vi_ownerLost v).

(** The session a script runs in, by whether it may write. *)
Definition runner {A} (v : Visit) (caller : string) (readOnly : bool) (fn : sysM A) : reqM A :=
  if readOnly then withOwnedSessionRead v caller fn else withOwnedSessionOrRehydrate v caller fn.

Definition script_of (body : ExecBody) : Script BashExecResult :=
  shell (if eb_debug body then wrapDebugScript (eb_script body) else eb_script body) (eb_cwd body) (eb_env body).

Definition exec_sync (v : Visit) (caller : string) (run : ExecRun) (parsed : HttpResponse + ExecBody) : reqM HttpResponse :=
  match parsed with
  | inl response => retM response
  | inr body =>
      catch
        (try_owned (runner v caller (eb_readOnly body) (exec_once (exec_env v run (eb_readOnly body)) run (script_of body))) (λ result,
           match result with
           | ExecTimeout => mkHttp 408 TimeoutBody
           | ExecDone result => mkHttp 200 (ExecBodyOut (exitCode result))
           end))
        (λ err, if decide (e_code (request_error err) = Some "EREADONLY_VIOLATION")
                then retM (problem 422 "read_only_violation" "EREADONLY_VIOLATION") else throw err)
  end.

(** [printed]: whether the script wrote to each of its outputs. The owner was checked in a visit of its
    own before the stream began. *)
Definition exec_stream (v : Visit) (caller : string) (run : ExecRun) (printed : bool * bool) (body : ExecBody) : reqM (list StreamEvent) :=
  let* outcome := attempt (runner v caller (eb_readOnly body) (exec_once (exec_env v run (eb_readOnly body)) run (script_of body))) in
  retM (match outcome with
        | Ok ExecTimeout => [EvExit (-1) (Some "timeout")]
        | Ok (ExecDone result) => (if printed.1 then [EvStdout] else []) ++ (if printed.2 then [EvStderr] else []) ++ [EvExit (exitCode result) None]
        | Err err =>
            let e := request_error err in
            if decide (e_code e = Some "EREADONLY_VIOLATION")
            then [EvError "EREADONLY_VIOLATION" None; EvExit (-1) (Some "read_only_violation")]
            else [EvError (clientSafeErrorCode (Some e) "INTERNAL_ERROR") (Some (isRetryableError (Some e))); EvExit (-1) (Some "error")]
        end).

Definition exec_route (v0 v : Visit) (caller : string) (run : ExecRun) (printed : bool * bool) (parsed : HttpResponse + ExecBody)
    : reqM HttpResponse :=
  match parsed with
  | inl response => retM response
  | inr body =>
      let* checked := attempt (runner v0 caller (eb_readOnly body) (retM tt)) in
      match checked with
      | Err err => if isForbiddenError err then retM forbiddenResponse else throw err
      | Ok _ => let* events := exec_stream v caller run printed body in retM (mkHttp 200 (StreamBody events))
      end
  end.

(** *** Batches *)

Definition MAX_BATCH_SCRIPTS : nat := 50.

Record BatchBody := mkBatchBody {
  bb_scripts : list BatchScriptEntry;
  bb_timeoutMs : option Z;
  bb_perScriptTimeoutMs : option Z;
  bb_readOnly : bool;
}.

(** [batchExecBodySchema] beyond its types. *)
Definition batch_valid (body : BatchBody) : bool :=
  bool_decide (1 ≤ length (bb_scripts body) ≤ MAX_BATCH_SCRIPTS)%nat &&
  match bb_timeoutMs body with Some n => 0 <? n | None => true end &&
  match bb_perScriptTimeoutMs body with Some n => (0 <? n) && (n <=? MAX_TIMEOUT_MS) | None => true end.

Definition exec_batch (v : Visit) (caller : string) (course : BatchCourse) (parsed : option BatchBody) : reqM HttpResponse :=
  match parsed with
  | None => retM invalid_input
  | Some body =>
      if negb (batch_valid body) then retM invalid_input
      else
        catch
          (try_owned (runner v caller (bb_readOnly body) (executeBatch shell course (bb_scripts body))) (λ results, mkHttp 200 (BatchOut results)))
          (λ err, if decide (e_code (request_error err) = Some "EREADONLY_VIOLATION")
                  then retM (problem 422 "read_only_violation" "EREADONLY_VIOLATION") else throw err)
  end.

(** ** Ingest *)

(** [built]: what [buildBulkIngestPayload] ([Manifest]) made of the body. *)
Definition ingest_files (v : Visit) (caller : string) (built : option (list BulkIngestFile)) : reqM HttpResponse :=
  match built with
  | None => retM invalid_input
  | Some bulkFiles =>
      catch
        (try_owned (withOwnedSessionOrRehydrate v caller (fs_bulkIngest bulkFiles)) (λ _, mkHttp 200 (IngestBody (Z.of_nat (length bulkFiles)))))
        (λ e, if decide (e_code (request_error e) = Some "ENOENT") then retM (problem 404 "not_found" "ENOENT")
              else if decide (e_code (request_error e) = Some "ENOTSUP") then retM (problem 500 "Internal server error" "INTERNAL_ERROR")
              else throw e)
  end.

(** ** All of them *)

(** A streamed execution visits the session twice: to check the owner, and again
    ([later]) when the stream has begun. *)
Inductive Call :=
| Get (filePath : string)
| Put (filePath : string) (u : Upload)
| Patch (filePath : string) (parse : string → option EditRequest) (u : Upload)
| Delete (filePath : string) (recursive : bool)
| WriteFiles (parse : string → option Files) (u : Upload)
| Mkdir (body : option (string * bool))
| Tree (query : option (string * option Z))
| ExecSync (run : ExecRun) (parse : string → option ExecBody) (contentType : option string) (text : string) (query : option (option Z))
| ExecStream (later : Visit) (run : ExecRun) (printed : bool * bool) (parse : string → option ExecBody) (contentType : option string) (text : string)
    (query : option (option Z))
| ExecBatch (course : BatchCourse) (parse : string → option BatchBody) (text : string)
| IngestFiles (built : option (list BulkIngestFile)).

Definition handle (l : Limits) (v : Visit) (caller : string) (call : Call) : reqM HttpResponse :=
  match call with
  | Get filePath => files_get v caller filePath
  | Put filePath u => files_put v caller filePath (l_maxFileBytes l) u
  | Patch filePath parse u => files_patch v caller filePath (l_maxFileBytes l) parse u
  | Delete filePath recursive => files_delete v caller filePath recursive
  | WriteFiles parse u => writeFiles v caller l parse u
  | Mkdir body => route_mkdir v caller body
  | Tree query => files_tree v caller l query
  | ExecSync run parse contentType text query => exec_sync v caller run (parseExecBody parse contentType text query)
  | ExecStream later run printed parse contentType text query => exec_route v later caller run printed (parseExecBody parse contentType text query)
  | ExecBatch course parse text => exec_batch v caller course (parse text)
  | IngestFiles built => ingest_files v caller built
  end.

Definition serve (sanitize : string → string) (l : Limits) (v : Visit) (caller : string) (call : Call) (q : Req) : HttpResponse * Req :=
  let '(r, q') := handle l v caller call q in (respond sanitize r, q').
End sessions.
