(* ===== verification/Writes.v ===== *)
(** What the files of a bulk write leave in the view of their scope
    ([writeAll] of src/src/api/routes/files.ts over [writeFile] and [mkdir]).

    A write puts the entry of its file into the view and records a mutation;
    what is written afterwards to other paths leaves both alone. *)

From S2P Require Import Prelude Batch Breaker DistLock LockRuns Errors Paths Store Tree Dialect Lifecycle LoadPaths View Session Namespace Coherence Simulation Journal Invariant Mutate Handlers SqlFs Ingest IngestRows IngestSim IngestSound Scopes Machine Guarantees Isolation Contents Exec ExecSound Readers ApiErrors SessionLock Executions Text Replace Edits Auth Routes.

Section writes.
Context `{Config} `{Lru}.

(** The entry of a file with these bytes. *)
Definition written (bytes : string) (e : PathCacheEntry) : Prop :=
  kind e = FILE ∧ e_size e = str_len bytes ∧ contentSha256 e = Some (sha256 bytes).

(** A scope is open, has recorded something, and its view has [e] at [k]. *)
Definition kept (k : string) (e : PathCacheEntry) (s : Sys) : Prop :=
  scriptScope (s_pers s) = true ∧ mutations (s_pers s) ≠ [] ∧ view_get k (s_view s) = Some e.

(** A computation that, thrown or not, leaves that so. *)
Definition keeps_entry {A} (k : string) (e : PathCacheEntry) (m : sysM A) : Prop := ∀ s, kept k e s → kept k e (m s).2.

Lemma keeps_bind {A B} k e (m : sysM A) (f : A → sysM B) : keeps_entry k e m → (∀ a, keeps_entry k e (f a)) → keeps_entry k e (bindM m f).
Proof. intros Hm Hf s Hs. specialize (Hm s Hs). unfold bindM. destruct (m s) as [[a|er] s']; [by apply Hf|done]. Qed.

Lemma keeps_catch {A} k e (m : sysM A) h : keeps_entry k e m → (∀ er, keeps_entry k e (h er)) → keeps_entry k e (catch m h).
Proof. intros Hm Hh s Hs. specialize (Hm s Hs). unfold catch. destruct (m s) as [[a|er] s']; [done|by apply Hh]. Qed.

Lemma keeps_quiet {A} k e (m : sysM A) : quiet m → keeps_entry k e m.
Proof. intros Hm s (H1 & H2 & H3). destruct (Hm s) as (_ & Hv & Hp). unfold kept. by rewrite Hv, Hp. Qed.

(** A part of a handler that only looks. *)
Ltac keeping := apply keeps_quiet; first [solve [auto with quiet] | apply quiet_gets | done].

Lemma mint_frame n s : ∃ ids s', mintInodeIds n s = (Ok ids, s') ∧ s_view s' = s_view s ∧ scriptScope (s_pers s') = scriptScope (s_pers s) ∧
  mutations (s_pers s') = mutations (s_pers s).
Proof.
  revert s. induction n as [|n IH]; intros s; [by exists [], s|]. simpl. unfold bindM at 1, mintInodeId. rewrite bindM_gets, bindM_modify. simpl.
  destruct (IH (on_pers (set_nextId (nextProvisionalId (s_pers s) - 1)) s)) as (ids & s' & E & Hv & Hs & Hm). unfold bindM. rewrite E.
  by eexists _, _.
Qed.

(** A mutation in a scope: the view stays, and a success is recorded. *)
Lemma mutate_scope spec s r s' : scriptScope (s_pers s) = true → mutate spec s = (r, s') →
  s_view s' = s_view s ∧ scriptScope (s_pers s') = true ∧
  (mutations (s_pers s) ≠ [] ∨ (∃ a, r = Ok a) → mutations (s_pers s') ≠ []).
Proof.
  intros Hsc. unfold mutate, captureGeneration, buffering. rewrite !bindM_gets, Hsc. unfold bindM at 1, assertAlive. rewrite Hsc.
  destruct (scriptTxLost (s_pers s)) as [lost|]; [intros [= <- <-]; split_and!; [done|done|by intros [?|[]]]|].
  destruct (mint_frame (m_mints spec) s) as (ids & s1 & E & Hv & Hs & Hm). rewrite (bindM_Ok _ _ _ _ _ E).
  unfold recordMutation. rewrite bindM_assoc, bindM_gets. case_decide.
  - rewrite bindM_assoc, bindM_modify. intros [= <- <-]. simpl. rewrite Hv, Hm. split_and!; [done|congruence|by intros [?|[]]].
  - rewrite bindM_modify. intros [= <- <-]. simpl. split_and!; [done|congruence|]. intros _. destruct (superseding _ _); intros [_ Hnil]%app_eq_nil; discriminate Hnil.
Qed.

Lemma mutateOne_scope spec s r s' : scriptScope (s_pers s) = true → mutateOne spec s = (r, s') →
  s_view s' = s_view s ∧ scriptScope (s_pers s') = true ∧
  (mutations (s_pers s) ≠ [] ∨ (∃ a, r = Ok a) → mutations (s_pers s') ≠ []).
Proof.
  intros Hsc. unfold mutateOne, captureGeneration. rewrite bindM_gets, Hsc. unfold bindM at 1.
  destruct (mutate (with_mints 1 spec) s) as [r1 s1] eqn:E. destruct (mutate_scope _ _ _ _ Hsc E) as (Hv & Hs & Hm).
  destruct r1 as [receipt|e]; [|intros [= <- <-]; split_and!; [done|done|]; intros [?|[]]; by apply Hm; left].
  assert (Hne : mutations (s_pers s1) ≠ []) by (apply Hm; right; by eexists). unfold bindM at 1.
  pose proof (quiet_assertGeneration (Some (scriptScopeGeneration (s_pers s))) s1) as Hq.
  destruct (assertGeneration _ s1) as [[[]|e] s2]; destruct Hq as (_ & Hv2 & Hp2); cbn [snd] in Hv2, Hp2; intros [= <- <-]; rewrite Hp2, Hv2; by split_and!.
Qed.

Lemma keeps_mutateOne k e spec : keeps_entry k e (mutateOne spec).
Proof.
  intros s (Hsc & Hm & Hg). destruct (mutateOne spec s) as [r s'] eqn:E. destruct (mutateOne_scope _ _ _ _ Hsc E) as (Hv & Hs & Hmu).
  split_and!; [done|apply Hmu; by left|]. simpl. by rewrite Hv.
Qed.

Lemma keeps_set k e pub path en cs complete : k ≠ path → keeps_entry k e (publish pub [ChSet path en] cs complete).
Proof.
  intros Hne s (Hsc & Hm & Hg). split_and!; [done|done|]. simpl. unfold view_get in *. rewrite (proj1 (publish_entries _ _ _ _ _)). simpl.
  by rewrite jget_jset_ne.
Qed.

Lemma keeps_mkdir_segments k e segments current created mode_ mtime_ : keeps_entry k e (mkdir_segments segments current created mode_ mtime_).
Proof.
  revert current created. induction segments as [|seg rest IH]; intros current created; [apply keeps_quiet, quiet_ret|]. cbn [mkdir_segments].
  set (next := if decide (current = "/") then _ else _). intros s Hs. unfold viewHas. rewrite bindM_gets.
  destruct (view_has next (s_view s)) eqn:Eh; [by apply IH|]. assert (Hne : k ≠ next).
  { intros ->. destruct Hs as (_ & _ & Hg). unfold view_has, view_get, jhas in *. by rewrite Hg in Eh. }
  revert s Hs Eh. intros s Hs _. revert s Hs. apply keeps_bind; [apply keeps_quiet, quiet_gets|].
  intros [pe|]; [|apply keeps_quiet, quiet_throw]. case_decide; [|apply keeps_quiet, quiet_throw].
  apply keeps_bind; [apply keeps_mutateOne|]. intros receipt. apply keeps_bind; [by apply keeps_set|]. intros _. apply IH.
Qed.

Lemma keeps_dirty k e : keeps_entry k e markDirty.
Proof. intros s Hs. exact Hs. Qed.

Lemma keeps_namespace {A} k e (m : sysM A) : keeps_entry k e m → keeps_entry k e (withNamespaceMutation m).
Proof.
  intros Hm. unfold withNamespaceMutation. apply keeps_bind; [apply keeps_quiet, quiet_gets|]. intros st.
  apply keeps_bind; [apply keeps_quiet, quiet_assertReservation|done].
Qed.

Lemma keeps_parent k e p : keeps_entry k e (ensureParentDir p).
Proof.
  unfold ensureParentDir. cbv zeta. case_decide; [apply keeps_quiet, quiet_ret|].
  apply keeps_catch; [|intros er; case_decide; apply keeps_quiet; [apply quiet_ret|apply quiet_throw]].
  unfold fs_mkdir. apply keeps_bind; [apply keeps_quiet, quiet_lift|]. intros path. unfold ns_mkdir.
  case_decide; [apply keeps_quiet, quiet_throw|]. apply keeps_namespace. unfold mkdirAt.
  apply keeps_bind; [apply keeps_quiet, quiet_assertWritable|]. intros _. apply keeps_bind; [apply keeps_quiet, quiet_gets|]. intros mt.
  apply keeps_bind; [apply keeps_mkdir_segments|]. intros []; [apply keeps_dirty|apply keeps_quiet, quiet_ret].
Qed.

Lemma keeps_storeBlob k e stamp sha bytes : keeps_entry k e (storeBlob stamp sha bytes).
Proof.
  unfold storeBlob. apply keeps_bind; [apply keeps_quiet, quiet_assertReservation|]. intros _.
  apply keeps_bind; [destruct (_ && _); [intros s Hs; exact Hs|apply keeps_quiet, quiet_ret]|]. intros _. apply keeps_quiet, quiet_assertReservation.
Qed.

Lemma keeps_writeFile k e p bytes : validatePath p ≠ Ok k → keeps_entry k e (fs_writeFile p bytes).
Proof.
  intros Hp. unfold fs_writeFile, lift_res. intros s Hs. unfold bindM at 1. destruct (validatePath p) as [path|er]; [|done].
  assert (Hne : k ≠ path) by congruence. revert s Hs. case_decide; [apply keeps_quiet, quiet_ret|]. apply keeps_namespace. unfold writeFileAt.
  apply keeps_bind; [keeping|]. intros stamp. apply keeps_bind; [keeping|]. intros _. apply keeps_bind; [keeping|]. intros at_path.
  apply keeps_bind; [keeping|]. intros _. apply keeps_bind; [keeping|]. intros [[pp n] pe]. apply keeps_bind; [keeping|]. intros _.
  apply keeps_bind; [keeping|]. intros mt. apply keeps_bind; [apply keeps_storeBlob|]. intros _. apply keeps_bind; [keeping|]. intros prior.
  apply keeps_bind; [keeping|]. intros b. apply keeps_bind; [apply keeps_mutateOne|]. intros receipt. apply keeps_bind; [keeping|]. intros displaced.
  by apply keeps_set.
Qed.

(** A file that was written: it is in the view, and it was recorded. *)
Lemma writeFile_kept p k bytes s s' : scriptScope (s_pers s) = true → validatePath p = Ok k → k ≠ DEV_NULL →
  fs_writeFile p bytes s = (Ok tt, s') → ∃ e, kept k e s' ∧ written bytes e.
Proof.
  intros Hsc Hp Hk Hrun. unfold fs_writeFile, lift_res in Hrun. unfold bindM at 1 in Hrun. rewrite Hp, decide_False in Hrun by done.
  unfold ns_writeFile, withNamespaceMutation in Hrun. passed Hrun @check_gets. passed Hrun check_reservation. unfold writeFileAt in Hrun.
  passed Hrun @check_gets. passed Hrun check_writable. passed Hrun @check_gets. passed Hrun check_throw_if. passed Hrun check_parent.
  destruct x5 as [[pp n] pe]. apply bindM_inv in Hrun as ([] & s1 & Hsz & Hrun). apply size_passed in Hsz as [-> _]. passed Hrun @check_gets.
  apply bindM_inv in Hrun as ([] & s1 & Hst & Hrun).
  assert (Hsc1 : scriptScope (s_pers s1) = true).
  { unfold storeBlob in Hst. passed Hst check_reservation. apply bindM_inv in Hst as (y & s2 & Hdb & Hst). apply check_reservation in Hst as ->.
    destruct (_ && _); injection Hdb as _ <-; done. }
  passed Hrun @check_gets. passed Hrun @check_gets. apply bindM_inv in Hrun as (rc & s2 & Hm & Hrun).
  destruct (mutateOne_scope _ _ _ _ Hsc1 Hm) as (_ & Hsc2 & Hmu). passed Hrun @check_gets. unfold publish, modifyS in Hrun. injection Hrun as <-.
  eexists. split; [split_and!; [done|apply Hmu; right; by eexists|]|].
  - unfold view_get, on_view. cbn [s_view]. rewrite (proj1 (publish_entries _ _ _ _ _)). simpl. by rewrite jget_jset_eq.
  - done.
Qed.

(** The file [p] of a bulk write is the last with the path [k]. *)
Definition last_at (files : Files) (p : string) (c : list Z) (k : string) : Prop :=
  ∃ pre post, files = pre ++ (p, c) :: post ∧ validatePath p = Ok k ∧ k ≠ DEV_NULL ∧ Forall (λ e, validatePath e.1 ≠ Ok k) post.

Lemma keeps_writeAll k e files : Forall (λ f, validatePath f.1 ≠ Ok k) files → keeps_entry k e (writeAll files).
Proof.
  induction 1 as [|[p c] files Hp _ IH]; [apply keeps_quiet, quiet_ret|]. unfold writeAll. simpl. apply keeps_bind; [|done].
  apply keeps_bind; [apply keeps_parent|]. intros _. by apply keeps_writeFile.
Qed.

Lemma client_parent (Hretire : hasRetire = true) p : client (ensureParentDir p).
Proof.
  unfold ensureParentDir. case_decide; [by apply client_quiet, quiet_ret|]. apply client_catch; [by apply (client_op Hretire (OpMkdir _ true))|].
  intros e. case_decide; apply client_quiet; [apply quiet_ret|apply quiet_throw].
Qed.

Lemma client_writeAll (Hretire : hasRetire = true) files : client (writeAll files).
Proof.
  induction files as [|[p c] files IH]; [by apply client_quiet, quiet_ret|]. unfold writeAll. simpl. apply client_bind; [|done].
  apply client_bind; [by apply client_parent|]. intros _. by apply (client_op Hretire (OpWriteFile p (string_of (encode c)))).
Qed.

(** Every file that is not written again is in the view in the end. *)
Lemma writeAll_kept (Hretire : hasRetire = true) files s s' p c k : in_scope s → writeAll files s = (Ok tt, s') → last_at files p c k →
  ∃ e, kept k e s' ∧ written (string_of (encode c)) e.
Proof.
  intros Hs Hrun (pre & post & -> & Hp & Hk & Hpost). unfold writeAll in Hrun. rewrite forM_app in Hrun.
  apply bindM_inv in Hrun as ([] & s1 & H1 & Hrun). destruct (client_writeAll Hretire pre s Hs) as [Hs1 _]. unfold writeAll in Hs1. rewrite H1 in Hs1.
  cbn [forM snd] in Hrun, Hs1. apply bindM_inv in Hrun as ([] & s2 & H2 & Hrun). apply bindM_inv in H2 as ([] & s3 & H3 & H2).
  destruct (client_parent Hretire p s1 Hs1) as [Hs3 _]. cbn [fst] in H3. rewrite H3 in Hs3. cbn [snd] in Hs3.
  destruct (writeFile_kept p k _ s3 s2 (is_open _ Hs3) Hp Hk H2) as (e & He & Hw). exists e. split; [|done].
  pose proof (keeps_writeAll k e post Hpost s2 He) as Hend. unfold writeAll in Hend. by rewrite Hrun in Hend.
Qed.
End writes.
