(* ===== verification/RoutesSound.v ===== *)
(** What the routes promise: only the owner of a sandbox is served, and a
    request that failed has changed nothing. *)

From S2P Require Import Prelude Batch Breaker DistLock LockRuns Errors Paths Store Tree Dialect Lifecycle LoadPaths View Session Namespace Coherence Simulation Journal Invariant Mutate Handlers SqlFs Ingest IngestRows IngestSim IngestSound Scopes Machine Guarantees Isolation IngestOutcome Contents Exec ExecSound Readers ApiErrors SessionLock Executions Text Replace Edits Auth Routes Writes.

(** ** Statuses *)

Lemma error_status err : 400 ≤ mapFsErrorToStatus err.
Proof.
  unfold mapFsErrorToStatus. destruct (e_code err ≫= _) as [status|] eqn:E; [|destruct (isConnectionClassSqlState _); lia].
  destruct (e_code err) as [code|]; [|done]. cbn [mbind option_bind] in E. apply jget_elem in E.
  assert (Hall : Forall (λ kv, 400 ≤ kv.2) STATUS_TABLE) by (repeat constructor; simpl; lia).
  rewrite Forall_forall in Hall. by apply (Hall _ E).
Qed.

Lemma respond_status sanitize e : 400 ≤ h_status (respond sanitize (Err e)).
Proof. apply error_status. Qed.

(** A response that is an error, thrown or not. *)
Definition failed (r : res req_error HttpResponse) : Prop := match r with Ok response => 400 ≤ h_status response | Err _ => True end.

Lemma failed_respond sanitize r : failed r → 400 ≤ h_status (respond sanitize r).
Proof. destruct r as [response|e]; [done|]. intros _. apply respond_status. Qed.

(** ** Read requests *)

Section harmless.
Context `{Config} `{Lru}.

(** A body of a read request: under a read-only scope it cannot write. *)
Definition harmless {B} (m : sysM B) : Prop := ∀ s v, guarded s → s_violated s = Some v →
  s_db (m s).2 = s_db s ∧ s_readOnlyDepth (m s).2 = s_readOnlyDepth s ∧ s_pers (m s).2 = s_pers s ∧ is_Some (s_violated (m s).2).

Lemma guarded_step s s' : s_readOnlyDepth s' = s_readOnlyDepth s → s_pers s' = s_pers s → guarded s → guarded s'.
Proof. intros Hd Hp [? ?]. unfold guarded. by rewrite Hd, Hp. Qed.

Lemma harmless_reads {B} (m : sysM B) : reads m → harmless m.
Proof. intros Hm s v _ Hv. destruct (Hm s) as (? & ? & ? & E & _). split_and!; [done..|]. rewrite E, Hv. by eexists. Qed.

Lemma harmless_watched {B} (m : sysM B) : watched m → harmless m.
Proof. intros Hm s v Hg Hv. destruct (Hm s v Hg Hv) as ((? & ? & ?) & ? & E). split_and!; [done..|]. rewrite E. by eexists. Qed.

Lemma harmless_bind {B C} (m : sysM B) (f : B → sysM C) : harmless m → (∀ b, harmless (f b)) → harmless (bindM m f).
Proof.
  intros Hm Hf s v Hg Hv. destruct (Hm s v Hg Hv) as (Hd & Hr & Hp & v' & Hv'). unfold bindM.
  destruct (m s) as [[b|e] s']; simpl in *; [|split_and!; [done..|by eexists]].
  destruct (Hf b s' v' (guarded_step _ _ Hr Hp Hg) Hv') as (? & ? & ? & ?). split_and!; [congruence..|done].
Qed.

Lemma harmless_catch {B} (m : sysM B) h : harmless m → (∀ e, harmless (h e)) → harmless (catch m h).
Proof.
  intros Hm Hh s v Hg Hv. destruct (Hm s v Hg Hv) as (Hd & Hr & Hp & v' & Hv'). unfold catch.
  destruct (m s) as [[b|e] s']; simpl in *; [split_and!; [done..|by eexists]|].
  destruct (Hh e s' v' (guarded_step _ _ Hr Hp Hg) Hv') as (? & ? & ? & ?). split_and!; [congruence..|done].
Qed.

Lemma harmless_attempt {B} (m : sysM B) : harmless m → harmless (attempt m).
Proof. intros Hm s v Hg Hv. specialize (Hm s v Hg Hv). unfold attempt. by destruct (m s). Qed.

Lemma harmless_ret {B} (b : B) : harmless (retM b).
Proof. apply harmless_reads, reads_ret. Qed.

Lemma harmless_throw {B} e : harmless (throw e : sysM B).
Proof. apply harmless_reads, reads_throw. Qed.

Lemma harmless_op o : harmless (run_op o).
Proof. destruct (mutating o) eqn:E; [by apply harmless_watched, watched_run_op|by apply harmless_reads, reads_op]. Qed.

Lemma harmless_script {A} (sc : Script A) : harmless (run_script sc).
Proof.
  induction sc as [a|e|o k IH|q k IH]; simpl; [apply harmless_ret|apply harmless_throw|..].
  - apply harmless_bind; [apply harmless_attempt, harmless_op|done].
  - apply harmless_bind; [apply harmless_attempt, harmless_reads, reads_query|done].
Qed.

Lemma harmless_context {B} c (m : sysM B) : harmless m → harmless (run_in_context c m).
Proof.
  intros Hm s v Hg Hv. unfold run_in_context. specialize (Hm (set_exec (Some c) s) v Hg Hv).
  by destruct (m (set_exec (Some c) s)).
Qed.

Lemma harmless_exec x sc : x_readOnly x = true → harmless (exec_in_scope x sc).
Proof.
  intros Hx. apply harmless_context. apply harmless_bind; [apply harmless_reads, reads_input|]. intros _.
  apply harmless_bind; [apply harmless_script|]. intros result. rewrite Hx. apply harmless_bind; [apply harmless_ret|]. intros _.
  apply harmless_bind; [apply harmless_reads, reads_gets|]. intros c. destruct (c ≫= exceeded); [apply harmless_throw|apply harmless_ret].
Qed.
End harmless.

(** ** The sessions of the routes *)

Section entries.
Context `{Config} `{Lru} (Hretire : hasRetire = true).

Lemma owner_ok owner caller s : isOwnedBy (Some owner) caller = true → assertSessionOwner owner caller s = (Ok tt, s).
Proof. intros E. unfold assertSessionOwner. by rewrite E. Qed.

Lemma owner_bad owner caller s : isOwnedBy (Some owner) caller = false → assertSessionOwner owner caller s = (Err createForbiddenError, s).
Proof. intros E. unfold assertSessionOwner. by rewrite E. Qed.

Lemma harmless_owner {A} owner caller (fn : sysM A) : harmless fn → harmless (assertSessionOwner owner caller ;;; fn).
Proof. intros Hfn. apply harmless_bind; [apply harmless_reads, reads_throw_if|done]. Qed.

(** The shared entry around a harmless body. *)
Lemma read_entry_spec {A} meta closing (fn : sysM A) q r q' :
  idle_session (q_sys q) → 0 ≤ s_readOnlyDepth (q_sys q) → harmless fn → withSessionReadEntry meta closing fn q = (r, q') →
  tree_same (s_db (q_sys q)) (s_db (q_sys q')) ∧ ∀ a, r = Ok a → ∃ s, (fn s).1 = Ok a.
Proof using All.
  intros Hs Hd Hfn. unfold withSessionReadEntry, read_enter. rewrite bindM_assoc. unfold bindM at 1.
  pose proof (fresh_fine meta closing q) as [Hfd _].
  destruct (ensureFreshCache meta closing q) as [[[]|e] q1] eqn:Ef; destruct (fresh_spec Hretire _ _ _ _ _ Hs Ef) as (Hs1 & Ht1 & Hc).
  2:{ intros [= <- <-]. by split. }
  simpl in Hfd. destruct Hs1 as [Hi1 Hsc1]. unfold bindM at 1, onFs at 1, beginReadOnlyScope. cbn [modifyS].
  set (s1 := set_depth (s_readOnlyDepth (q_sys q1) + 1) (q_sys q1)). unfold bindM at 1. cbn [q_sys set_sys].
  unfold read_call. assert (Hg : guarded (set_violated (Some false) s1)) by (split; [simpl; lia|done]).
  destruct (Hfn (set_violated (Some false) s1) false Hg eq_refl) as (Hdb & Hdep & Hpers & _).
  destruct (fn (set_violated (Some false) s1)) as [r1 s2] eqn:Efn. cbn [fst snd] in *.
  set (q2 := set_sys _ _). destruct (exit_spec (default false (s_violated s2)) r1 q2) as (q3 & E & Hq3).
  { subst q2. simpl. rewrite Hdep. simpl. lia. }
  rewrite E. intros [= <- <-]. rewrite Hq3. subst q2. simpl. rewrite Hdb. simpl. split; [done|].
  intros a. destruct r1 as [b|e]; [|done]. destruct (default false (s_violated s2)); [done|]. intros [= ->].
  exists (set_violated (Some false) s1). by rewrite Efn.
Qed.

(** A read request of an owner, or of anybody else. *)
Lemma owned_read_spec {A} v caller (fn : sysM A) q r q' :
  idle_session (q_sys q) → 0 ≤ s_readOnlyDepth (q_sys q) → harmless fn → withOwnedSessionRead v caller fn q = (r, q') →
  tree_same (s_db (q_sys q)) (s_db (q_sys q')) ∧
  ∀ a, r = Ok a → (∃ owner, session_owner v = Ok owner ∧ isOwnedBy (Some owner) caller = true) ∧ ∃ s, (fn s).1 = Ok a.
Proof using All.
  intros Hs Hd Hfn Elock. unfold withOwnedSessionRead, withSessionRead in Elock.
  destruct (shared_spec _ _ _ _ _ _ Elock) as [(e & -> & ->)|(r1 & E & Hr1)]; [by split|].
  enough (tree_same (s_db (q_sys q)) (s_db (q_sys q')) ∧
    ∀ a, r1 = Ok a → (∃ owner, session_owner v = Ok owner ∧ isOwnedBy (Some owner) caller = true) ∧ ∃ s, (fn s).1 = Ok a) as [Ht Hok].
  { split; [done|]. intros a Ha. destruct Hr1 as [[-> _]|(e & -> & _)]; [by apply Hok|done]. }
  revert E. clear Elock Hr1. unfold bindM at 1, lift_res.
  destruct (session_owner v) as [owner|e]; [|intros [= <- <-]; by split]. intros E.
  destruct (read_entry_spec _ _ _ _ _ _ Hs Hd (harmless_owner owner caller _ Hfn) E) as [Ht Hok].
  split; [done|]. intros a Ha. destruct (Hok a Ha) as [s Hrun]. destruct (isOwnedBy (Some owner) caller) eqn:Eo.
  - split; [by exists owner|]. exists s. by rewrite (bindM_Ok _ _ _ _ _ (owner_ok _ _ _ Eo)) in Hrun.
  - by rewrite (bindM_Err _ _ _ _ _ (owner_bad _ _ _ Eo)) in Hrun.
Qed.

(** What the lock makes of the outcome of a write. *)
Definition write_outcome {A} (v : Visit) (poisoned : bool) (r2 : res fs_error A) (r : res req_error A) : Prop :=
  match r2 with
  | Ok a => if poisoned then ∃ e, r = Err e ∧ e ≠ ELOCKLOST_APPLIED
            else if lock_lost (vi_lock v) then r = Err ELOCKLOST_APPLIED else r = Ok a
  | Err _ => ∃ e, r = Err e ∧ e ≠ ELOCKLOST_APPLIED
  end.

(** A write request: it did not get to its body, or it ran it as the owner. *)
Lemma owned_write_spec {A} v caller (fn : sysM A) q r q' :
  idle_session (q_sys q) → withOwnedSessionOrRehydrate v caller fn q = (r, q') →
  (∃ e, r = Err e ∧ tree_same (s_db (q_sys q)) (s_db (q_sys q'))) ∨
  ∃ owner s1 r2 s2, session_owner v = Ok owner ∧ isOwnedBy (Some owner) caller = true ∧
    idle_session s1 ∧ tree_same (s_db (q_sys q)) (s_db s1) ∧ v_poisoned (s_view s1) = false ∧ fn s1 = (r2, s2) ∧
    q_sys q' = on_view (set_dirty false) s2 ∧ write_outcome v (v_poisoned (s_view s2)) r2 r.
Proof using All.
  intros Hs Elock. unfold withOwnedSessionOrRehydrate, withSessionOrRehydrate in Elock.
  destruct (exclusive_spec _ _ _ _ _ _ Elock) as [(e & -> & _ & -> & _)|(r1 & E & Hr1)]; [left; by exists e|]. clear Elock. revert E.
  unfold bindM at 1, lift_res. destruct (session_owner v) as [owner|e].
  2:{ intros [= <- <-]. left. destruct Hr1 as [->|(m & -> & _)]; by eexists. }
  intros E. destruct (entry_spec Hretire _ _ _ _ _ _ Hs E) as (q1 & Hs1 & Ht1 & [(e & -> & _ & Hq)|(_ & Hp & r2 & q2 & Efn & Hq & Hr)]).
  { left. rewrite Hq. destruct Hr1 as [->|(m & -> & _)]; by eexists. }
  unfold onFs in Efn. destruct (isOwnedBy (Some owner) caller) eqn:Eo.
  - rewrite (bindM_Ok _ _ _ _ _ (owner_ok _ _ _ Eo)) in Efn. destruct (fn (q_sys q1)) as [r3 s3] eqn:E3. injection Efn as <- <-.
    right. exists owner, (q_sys q1), r3, s3. split_and!; try done. unfold write_outcome. simpl in Hr. destruct r3 as [a|e].
    + destruct (v_poisoned (s_view s3)); subst r1; [|done]. destruct Hr1 as [->|(m & -> & _)]; by eexists.
    + subst r1. destruct Hr1 as [->|(m & -> & _)]; by eexists.
  - rewrite (bindM_Err _ _ _ _ _ (owner_bad _ _ _ Eo)) in Efn. injection Efn as <- <-. left. rewrite Hq. subst r1.
    destruct Hr1 as [->|(m & -> & _)]; by eexists.
Qed.
End entries.

(** ** A visit that only checks the owner *)

Section checks.
Context `{Config} `{Lru} (Hretire : hasRetire = true).

(** A session between two requests. *)
Definition resting (q : Req) : Prop := idle_session (q_sys q) ∧ 0 ≤ s_readOnlyDepth (q_sys q).

Lemma entry_depth {A} meta closing (fn : reqM A) q :
  (∀ q1, s_readOnlyDepth (q_sys (fn q1).2) = s_readOnlyDepth (q_sys q1)) →
  s_readOnlyDepth (q_sys (withSessionEntry meta closing fn q).2) = s_readOnlyDepth (q_sys q).
Proof using Type.
  intros Hfn. unfold withSessionEntry, attempt. unfold bindM at 1. pose proof (fresh_fine meta closing q) as [Hd _].
  set (body := bindM (ensureFreshCache meta closing) _ q). assert (Hb : s_readOnlyDepth (q_sys body.2) = s_readOnlyDepth (q_sys q)).
  { subst body. unfold bindM at 1. destruct (ensureFreshCache meta closing q) as [[[]|e] q1]; [|done]. simpl in Hd.
    unfold bindM at 1. specialize (Hfn q1). destruct (fn q1) as [[a|e] q2]; [|simpl in *; congruence]. rewrite bindM_gets.
    simpl in *. destruct (v_poisoned (s_view (q_sys q2))); simpl; congruence. }
  destruct body as [r0 q0]. rewrite bindM_gets. simpl in Hb. destruct (v_dirty (s_view (q_sys q0))); unfold bindM; simpl; by destruct r0.
Qed.

(** A body that looks and answers. *)
Definition pure {A} (fn : sysM A) : Prop := ∀ s, (fn s).2 = s.

Lemma pure_owner owner caller : pure (assertSessionOwner owner caller ;;; retM tt).
Proof using Type. intros s. unfold assertSessionOwner, throw_if. by destruct (negb _). Qed.

Lemma pure_entry_rests {A} meta closing (fn : sysM A) q : resting q → pure fn → resting (withSessionEntry meta closing (onFs fn) q).2.
Proof using All.
  intros [Hs Hd] Hfn. split; [|rewrite entry_depth; [done|]; intros q1; unfold onFs; specialize (Hfn (q_sys q1)); destruct (fn (q_sys q1)); simpl in *; by subst].
  destruct (withSessionEntry meta closing (onFs fn) q) as [r q'] eqn:E.
  destruct (entry_spec Hretire _ _ _ _ _ _ Hs E) as (q1 & [Hi Hsc] & _ & [(e & _ & _ & Hq)|(_ & _ & r2 & q2 & Efn & Hq & _)]).
  - simpl. rewrite Hq. split; [by apply Inv_dirty|done].
  - unfold onFs in Efn. specialize (Hfn (q_sys q1)). destruct (fn (q_sys q1)) as [r3 s3]. simpl in Hfn. subst s3. injection Efn as _ <-.
    simpl. rewrite Hq. simpl. split; [by apply Inv_dirty|done].
Qed.

Lemma pure_read_rests {A} meta closing (fn : sysM A) q : resting q → pure fn → resting (withSessionReadEntry meta closing fn q).2.
Proof using All.
  intros [Hs Hd] Hfn. unfold withSessionReadEntry, read_enter. rewrite bindM_assoc. unfold bindM at 1.
  pose proof (fresh_fine meta closing q) as [Hfd _].
  destruct (ensureFreshCache meta closing q) as [[[]|e] q1] eqn:Ef; destruct (fresh_spec Hretire _ _ _ _ _ Hs Ef) as (Hs1 & _).
  2:{ split; [done|]. simpl in *. lia. }
  simpl in Hfd. unfold bindM at 1, onFs at 1, beginReadOnlyScope. cbn [modifyS]. unfold bindM at 1. cbn [q_sys set_sys]. unfold read_call.
  specialize (Hfn (set_violated (Some false) (set_depth (s_readOnlyDepth (q_sys q1) + 1) (q_sys q1)))).
  destruct (fn _) as [r1 s2]. simpl in Hfn. subst s2. cbn [fst snd].
  match goal with |- context [read_exit ?v ?r ?q0] => destruct (exit_spec v r q0) as (q3 & E & Hq3); [simpl; lia|] end.
  rewrite E. simpl. split; rewrite Hq3; [|simpl; lia]. by eapply idle_core; [..|exact Hs1].
Qed.

Lemma lock_rests {A} outcome k (fn : reqM A) q : resting q → resting (fn q).2 → resting (under_lock outcome k fn q).2.
Proof using Type.
  intros Hq Hfn. unfold under_lock. destruct k as [| | |lost]; [done..|]. unfold bindM, attempt. destruct (fn q) as [r q']. simpl in Hfn.
  by destruct (outcome lost (fn_result r)); [destruct r..| |].
Qed.

Lemma check_rests v caller readOnly q r q' : resting q → runner v caller readOnly (retM tt) q = (r, q') → resting q'.
Proof using All.
  intros Hq E. assert (Hr : resting (runner v caller readOnly (retM tt) q).2); [|by rewrite E in Hr]. clear E.
  unfold runner. destruct readOnly; (apply lock_rests; [done|]); unfold bindM at 1, lift_res; destruct (session_owner v) as [owner|e]; try done.
  - apply pure_read_rests; [done|]. apply pure_owner.
  - apply (pure_entry_rests _ _ (assertSessionOwner owner caller ;;; retM tt)); [done|]. apply pure_owner.
Qed.
Lemma check_tree v caller readOnly q r q' : resting q → runner v caller readOnly (retM tt) q = (r, q') → tree_same (s_db (q_sys q)) (s_db (q_sys q')).
Proof using All.
  intros [Hs Hd]. unfold runner. destruct readOnly; intros E.
  - by destruct (owned_read_spec Hretire _ _ _ _ _ _ Hs Hd (harmless_ret tt) E).
  - destruct (owned_write_spec Hretire _ _ _ _ _ _ Hs E) as [(e & _ & ?)|(o & s1 & r2 & s2 & _ & _ & _ & Ht & _ & Er & Hq' & _)]; [done|].
    injection Er as _ <-. by rewrite Hq'.
Qed.
End checks.

(** ** Bodies of read requests *)

Section bodies.
Context `{Config} `{Lru}.

Lemma harmless_stat p : harmless (attempt (fs_stat p)).
Proof. by apply harmless_attempt, harmless_reads, (reads_asked AStat _ (QStat p)). Qed.

Lemma harmless_read_file p : harmless (read_file p).
Proof.
  apply harmless_bind; [apply harmless_stat|]. intros [stat|e]; [|case_decide; [apply harmless_ret|apply harmless_throw]].
  destruct (isDirectory stat); [apply harmless_ret|]. apply harmless_bind; [|intros; apply harmless_ret].
  by apply harmless_reads, (reads_asked AString _ (QReadFile p)).
Qed.

Lemma harmless_list l prefix depth paths result : harmless (list_tree l prefix depth paths result).
Proof.
  revert result. induction paths as [|p paths IH]; intros result; simpl; [apply harmless_ret|]. case_match; [done|].
  apply harmless_bind; [apply harmless_stat|]. intros [stat|e].
  - case_match; [apply harmless_throw|done].
  - case_decide; [apply harmless_throw|done].
Qed.

Lemma harmless_tree l prefix depth : harmless (let* allPaths := fs_getAllPaths in list_tree l prefix depth allPaths []).
Proof.
  apply harmless_bind; [|intros; apply harmless_list]. apply harmless_reads. apply reads_bind; [apply reads_alive|]. intros _. apply reads_gets.
Qed.

Lemma harmless_in_context {B} c (m : sysM B) : harmless m → harmless (in_context c m).
Proof.
  intros Hm s v Hg Hv. unfold in_context. specialize (Hm (set_exec c s) v Hg Hv). by destruct (m (set_exec c s)).
Qed.

Lemma harmless_turn shell scripts whole w k th : harmless (turn shell scripts whole w k th).
Proof.
  unfold turn. destruct (p_workers (th_par th) !! w) as [[|idx| |idx]|]; try apply harmless_ret.
  - unfold next_script. cbv zeta. destruct (_ ≫= _); [|apply harmless_ret]. apply harmless_bind; [|intros; apply harmless_ret].
    unfold start_script. destruct (er_busy _); [apply harmless_ret|].
    apply harmless_bind; [apply harmless_in_context, harmless_reads, reads_input|intros; apply harmless_ret].
  - destruct (scripts !! idx); [|apply harmless_ret]. destruct (default _ _) as [c sc].
    destruct whole; [apply harmless_bind; [apply harmless_in_context, harmless_script|intros; apply harmless_ret]|].
    destruct sc; try apply harmless_ret; (apply harmless_bind; [|intros; apply harmless_ret]); apply harmless_in_context;
      [apply harmless_op|apply harmless_reads, reads_query].
Qed.

Lemma harmless_turns shell scripts whole schedule th : harmless (turns shell scripts whole schedule th).
Proof.
  revert th. induction schedule as [|[w k] schedule IH]; intros th; [apply harmless_ret|]. apply harmless_bind; [apply harmless_turn|done].
Qed.

Lemma harmless_batch shell course scripts : harmless (executeBatch shell course scripts).
Proof.
  intros s v Hg Hv. unfold executeBatch. rewrite bindM_gets, Hv. revert s v Hg Hv.
  apply harmless_bind; [apply harmless_turns|]. intros th. apply harmless_bind; [apply harmless_turns|]. intros th'.
  destruct (failure scripts th'); [apply harmless_throw|apply harmless_ret].
Qed.

Lemma harmless_exec_once x run sc : x_readOnly x = true → harmless (exec_once x run sc).
Proof.
  intros Hx. apply harmless_catch; [|intros e; case_match; [apply harmless_ret|apply harmless_throw]].
  apply harmless_bind; [|intros; apply harmless_ret]. apply harmless_catch; [|intros e; apply harmless_throw].
  destruct (er_busy run); [apply harmless_throw|]. unfold executeSessionRuntime. apply harmless_bind; [|intros; apply harmless_ret].
  unfold runInScriptScope. apply harmless_bind; [apply harmless_reads, reads_gets|]. intros active. rewrite Hx. simpl. by apply harmless_exec.
Qed.
End bodies.

(** ** Only the owner *)

(** A handler of errors, by cases on the code. *)
Ltac answering := intros ?e; repeat (case_decide; [left; eexists; split; [|split; [|reflexivity]]; [simpl; lia|by intros ->]|]); by right.

Section owners.
Context `{Config} `{Lru} (Hretire : hasRetire = true).
Context (shell : string → option string → option (list (string * string)) → Script BashExecResult).

Definition refuses {A} (P : A → Prop) (m : reqM A) : Prop := ∀ q r q', resting q → m q = (r, q') →
  match r with Ok a => P a | Err _ => True end ∧ tree_same (s_db (q_sys q)) (s_db (q_sys q')).

Abbreviation is_error := (λ response, 400 ≤ h_status response).

Lemma refuses_ret response : is_error response → refuses is_error (retM response).
Proof. by intros Hr q r q' _ [= <- <-]. Qed.

Lemma refuses_throw e : refuses is_error (throw e).
Proof. by intros q r q' _ [= <- <-]. Qed.

Lemma refuses_try {A} (op : reqM A) f : refuses (λ _, False) op → refuses is_error (try_owned op f).
Proof.
  intros Hop q r q' Hq. unfold try_owned, catch, bindM. destruct (op q) as [[a|e] q1] eqn:E; destruct (Hop _ _ _ Hq E) as [Hr Ht]; [done|].
  destruct (isForbiddenError e); intros [= <- <-]; by split.
Qed.

(** A handler of errors that only answers. *)
Definition answers (h : req_error → reqM HttpResponse) : Prop := ∀ e,
  (∃ response, is_error response ∧ e ≠ ELOCKLOST_APPLIED ∧ h e = retM response) ∨ h e = throw e.

Lemma refuses_catch m h : refuses is_error m → answers h → refuses is_error (catch m h).
Proof.
  intros Hm Hh q r q' Hq. unfold catch. destruct (m q) as [[a|e] q1] eqn:E; destruct (Hm _ _ _ Hq E) as [Hr Ht]; [by intros [= <- <-]|].
  destruct (Hh e) as [(response & Hs & _ & ->)| ->]; intros [= <- <-]; by split.
Qed.

Lemma refuses_limit limit u next : (∀ received, refuses is_error (next received)) → refuses is_error (writeBodyLimit limit u next).
Proof.
  intros Hn. unfold writeBodyLimit. case_match; [by apply refuses_ret|]. destruct (u_body u) as [[chunks fails]|]; [|apply Hn].
  destruct (count_stream _ _ _ _ _) as [[] received]; [|apply Hn]. intros q r q' Hq. unfold bindM, attempt.
  destruct (next received q) as [r1 q1] eqn:E. destruct (Hn _ _ _ _ Hq E) as [_ Ht]. intros [= <- <-]. by split.
Qed.

Lemma refuses_check (check : reqM unit) next : refuses (λ _, False) check → refuses is_error
  (let* checked := attempt check in
   match checked with Err err => if isForbiddenError err then retM forbiddenResponse else throw err | Ok _ => next end).
Proof.
  intros Hc q r q' Hq. unfold bindM, attempt. destruct (check q) as [[[]|e] q1] eqn:E; destruct (Hc _ _ _ Hq E) as [Hr Ht]; [done|].
  destruct (isForbiddenError e); intros [= <- <-]; by split.
Qed.

Context (v : Visit) (caller : string).
Context (Hother : ∀ owner, session_owner v = Ok owner → isOwnedBy (Some owner) caller = false).

Lemma refuses_read {A} (fn : sysM A) : harmless fn → refuses (λ _, False) (withOwnedSessionRead v caller fn).
Proof using All.
  intros Hfn q r q' [Hs Hd] E. destruct (owned_read_spec Hretire _ _ _ _ _ _ Hs Hd Hfn E) as [Ht Hok]. split; [|done].
  destruct r as [a|e]; [|done]. destruct (Hok a eq_refl) as [(owner & Ho & Hb) _]. by rewrite (Hother owner Ho) in Hb.
Qed.

Lemma refuses_write {A} (fn : sysM A) : refuses (λ _, False) (withOwnedSessionOrRehydrate v caller fn).
Proof using All.
  intros q r q' [Hs Hd] E. destruct (owned_write_spec Hretire _ _ _ _ _ _ Hs E) as [(e & -> & Ht)|(owner & s1 & r2 & s2 & Ho & Hb & _)]; [done|].
  by rewrite (Hother owner Ho) in Hb.
Qed.

Lemma parse_refused parse contentType text query response : parseExecBody parse contentType text query = inl response → is_error response.
Proof. unfold parseExecBody. repeat case_match; by intros [= <-]. Qed.

Lemma refuses_call l call : refuses is_error (handle shell l v caller call).
Proof using All.
  assert (400 ≤ h_status invalid_input ∧ 400 ≤ h_status payload_too_large) as [H4 H413] by done. destruct call; simpl.
  - apply refuses_try, refuses_read, harmless_read_file.
  - apply refuses_limit. intros [content|e]; [apply refuses_try, refuses_write|apply refuses_throw].
  - apply refuses_limit. intros received. destruct (json_body parse received); [|by apply refuses_ret].
    case_decide; [by apply refuses_ret|apply refuses_try, refuses_write].
  - apply refuses_try, refuses_write.
  - apply refuses_limit. intros received. destruct (json_body parse received); [|by apply refuses_ret].
    repeat (case_match; [by apply refuses_ret|]). apply refuses_try, refuses_write.
  - destruct body as [[p b]|]; [|by apply refuses_ret]. unfold route_mkdir. case_decide; [by apply refuses_ret|apply refuses_try, refuses_write].
  - destruct query as [[p d]|]; [|by apply refuses_ret]. apply refuses_catch; [apply refuses_try, refuses_read, harmless_tree|].
    answering.
  - destruct (parseExecBody parse contentType text query) as [response|body] eqn:Ep; [by eapply refuses_ret, parse_refused|]. apply refuses_catch.
    + apply refuses_try. unfold runner. destruct (eb_readOnly body) eqn:Er; [|apply refuses_write].
      apply refuses_read, harmless_exec_once. done.
    + answering.
  - destruct (parseExecBody parse contentType text query) as [response|body] eqn:Ep; [by eapply refuses_ret, parse_refused|].
    apply refuses_check. unfold runner. destruct (eb_readOnly body); [apply refuses_read, harmless_ret|apply refuses_write].
  - unfold exec_batch. destruct (parse text) as [body|]; [|by apply refuses_ret]. case_match; [by apply refuses_ret|]. apply refuses_catch.
    + apply refuses_try. unfold runner. destruct (bb_readOnly body); [apply refuses_read, harmless_batch|apply refuses_write].
    + answering.
  - destruct built as [files|]; [|by apply refuses_ret]. apply refuses_catch; [apply refuses_try, refuses_write|].
    answering.
Qed.

(** The stream of a visit that is not the owner's: an error event, and nothing
    changes. *)
Lemma refuses_stream run printed body q r q' : resting q → exec_stream shell v caller run printed body q = (r, q') →
  (∃ code retryable rest, r = Ok (EvError code retryable :: rest)) ∧ tree_same (s_db (q_sys q)) (s_db (q_sys q')).
Proof using All.
  intros Hq. unfold exec_stream, bindM, attempt. destruct (runner v caller (eb_readOnly body) _ q) as [r1 q1] eqn:E.
  assert (Href : refuses (λ _, False) (runner v caller (eb_readOnly body) (exec_once (exec_env v run (eb_readOnly body)) run (script_of shell body)))).
  { unfold runner. destruct (eb_readOnly body) eqn:Er; [by apply refuses_read, harmless_exec_once|apply refuses_write]. }
  destruct (Href _ _ _ Hq E) as [Hr Ht]. destruct r1 as [a|e]; [done|]. intros [= <- <-]. split; [|done]. case_decide; by eexists _, _, _.
Qed.
End owners.

(** The visit in which a call works: the second one of a stream. *)
Definition acting (v : Visit) (call : Call) : Visit := match call with ExecStream later _ _ _ _ _ _ => later | _ => v end.

(** A response that has something of the sandbox: not an error, and not a stream
    that begins with one. *)
Definition served (response : HttpResponse) : Prop :=
  h_status response < 400 ∧ ∀ code retryable rest, h_body response ≠ StreamBody (EvError code retryable :: rest).

Lemma owned_by owner caller : isOwnedBy (Some owner) caller = true → owner = caller ∧ caller ≠ EmptyString.
Proof.
  unfold isOwnedBy. destruct owner as [|c s]; [by rewrite andb_false_r|]. rewrite andb_true_iff, !bool_decide_eq_true.
  by intros [Hl <-].
Qed.

Lemma owner_or_other `{Config} v caller :
  session_owner v = Ok caller ∧ caller ≠ EmptyString ∨ ∀ owner, session_owner v = Ok owner → isOwnedBy (Some owner) caller = false.
Proof.
  destruct (session_owner v) as [owner|e]; [|by right]. destruct (isOwnedBy (Some owner) caller) eqn:E.
  - left. by apply owned_by in E as [-> ?].
  - right. by intros o [= <-].
Qed.

(** ** Bodies of write requests *)

Section writes.
Context `{Config} `{Lru} (Hretire : hasRetire = true).

(** A body that throws, leaves a poisoned view or answers [bad] has not changed a
    row. *)
Definition atomic {A} (bad : A → Prop) (m : sysM A) : Prop := ∀ s r s', idle_session s → v_poisoned (s_view s) = false → m s = (r, s') →
  match r with
  | Ok a => bad a ∨ v_poisoned (s_view s') = true → same_rows (s_db s) (s_db s')
  | Err _ => same_rows (s_db s) (s_db s')
  end.

Lemma atomic_tx {A} lost ownerLost (fn : sysM A) : client fn → atomic (λ _, False) (runInScriptTx lost ownerLost fn).
Proof using All.
  intros Hc s r s' [Hi Hsc] Hp E. destruct (tx_outcome Hretire _ _ _ _ _ _ Hi Hp Hsc Hc E) as (_ & _ & Ho).
  destruct r as [a|e]; [|done]. destruct Ho as (_ & _ & Hp' & _). rewrite Hp'. by intros [].
Qed.

Lemma atomic_edit lost ownerLost filePath req maxBytes :
  atomic (λ o, ¬ ∃ n size, o = EditOk n size) (editFile lost ownerLost filePath req maxBytes).
Proof using All.
  intros s r s' [Hi Hsc] Hp E. destruct (edit_outcome _ _ _ _ _ _ _ _ Hretire Hi Hp Hsc E) as [_ Ho].
  destruct r as [o|e]; [|done]. destruct o; try done. destruct Ho as (_ & _ & Hp' & _). rewrite Hp'.
  intros [Hn|?]; [|done]. destruct Hn. by eexists _, _.
Qed.

Lemma atomic_ingest files : atomic (λ _, False) (fs_bulkIngest files).
Proof using All.
  intros s r s' [Hi Hsc] Hp. destruct (decide (files = [])) as [->|Hne]; [intros [= <- <-]; rewrite Hp; by intros []|].
  destruct (normalize_ingest [] files) as [fs'|e] eqn:En.
  - destruct (normalize_batch files fs' Hne En) as [css Hb]. rewrite (fs_bulkIngest_run files fs') by done. intros E.
    pose proof (bulkIngestAt_outcome (s_view s) s fs' css (at_view_intro s Hi Hp) Hsc Hb) as Ho. rewrite E in Ho.
    destruct r as [[]|err]; [|by destruct Ho as (_ & ? & _)]. destruct Ho as (_ & Hp' & _). rewrite Hp'. by intros [].
  - unfold fs_bulkIngest. rewrite decide_False by (by destruct files). unfold lift_res, bindM at 1. rewrite En. by intros [= <- <-].
Qed.

Lemma atomic_exec x run sc : x_readOnly x = false → safe_script sc → atomic (λ _, False) (exec_once x run sc).
Proof using All.
  intros Hx Hsafe s r s' [Hi Hsc] Hp. unfold exec_once, execWithRuntimeThrottle, catch, bindM.
  assert (Hback : ∀ e s1 (r1 : res fs_error ExecSyncResult), same_rows (s_db s) (s_db s1) →
    (if er_timedOut run && bool_decide (error_code e = None) then retM ExecTimeout else throw e) s1 = (r1, s') → same_rows (s_db s) (s_db s')).
  { intros e s1 r1 Hr. case_match; by intros [= _ <-]. }
  assert (Hout : ∀ (r1 : res fs_error ExecSyncResult), same_rows (s_db s) (s_db s') → match r1 with
    | Ok a => False ∨ v_poisoned (s_view s') = true → same_rows (s_db s) (s_db s') | Err _ => same_rows (s_db s) (s_db s') end) by (by intros []).
  destruct (er_busy run) as [busy|].
  - change (throw busy s) with (@Err fs_error (BashExecResult * string) busy, s). cbv iota beta.
    destruct (execFsError id (Some (js_error busy))); intros E; eapply Hout, Hback; try exact E; done.
  - destruct (executeSessionRuntime x (er_cwd run) sc s) as [r1 s1] eqn:Ex.
    destruct (execute_outcome Hretire _ _ _ _ _ _ Hi Hp Hsc Hx Hsafe Ex) as (_ & _ & Ho). destruct r1 as [[result cwd]|e].
    + intros [= <- <-]. destruct Ho as (_ & _ & Hp' & _). rewrite Hp'. by intros [].
    + destruct (execFsError id (Some (js_error e))); intros E; eapply Hout, Hback; try exact E; done.
Qed.
End writes.

(** ** A failed request has changed nothing *)

Section calm.
Context `{Config} `{Lru} (Hretire : hasRetire = true).

(** The answer that the work is done although the lock was lost. *)
Definition applied (response : HttpResponse) : Prop := ∃ error, h_body response = Problem error "ELOCKLOST_APPLIED".

(** An error, as the status or as the first event of a stream, that is neither the
    answer that the time is up, nor that the path is a directory, nor that the
    work is done. *)
Definition lost_cause (response : HttpResponse) : Prop :=
  400 ≤ h_status response ∧ h_status response ≠ 408 ∧ h_body response ≠ Problem "is_directory" "EISDIR" ∧ ¬ applied response ∨
  ∃ code retryable rest, h_body response = StreamBody (EvError code retryable :: rest) ∧ code ≠ "ELOCKLOST_APPLIED".

Definition calm (m : reqM HttpResponse) : Prop := ∀ q r q', resting q → m q = (r, q') →
  match r with Ok response => lost_cause response | Err e => e ≠ ELOCKLOST_APPLIED end → tree_same (s_db (q_sys q)) (s_db (q_sys q')).

(** An answer that is neither an error nor a stream. *)
Lemma fine_cause response : h_status response < 400 → (∀ events, h_body response ≠ StreamBody events) → ¬ lost_cause response.
Proof. intros Hs Hb [[? _]|(code & retryable & rest & He & _)]; [lia|]. by eapply Hb. Qed.

Lemma calm_ret response : calm (retM response).
Proof. by intros q r q' _ [= <- <-]. Qed.

Lemma calm_throw e : calm (throw e).
Proof. by intros q r q' _ [= <- <-]. Qed.

Lemma calm_try {A} (op : reqM A) f :
  (∀ q r q', resting q → op q = (r, q') → match r with Ok a => lost_cause (f a) | Err e => e ≠ ELOCKLOST_APPLIED end →
    tree_same (s_db (q_sys q)) (s_db (q_sys q'))) →
  calm (try_owned op f).
Proof.
  intros Hop q r q' Hq. unfold try_owned, catch, bindM. destruct (op q) as [[a|e] q1] eqn:E; specialize (Hop _ _ _ Hq E); simpl in Hop.
  - intros [= <- <-] Hl. by apply Hop.
  - destruct (isForbiddenError e) eqn:Ee; intros [= <- <-] Hl; apply Hop; [|done]. by intros ->.
Qed.

Lemma calm_read {A} v caller (fn : sysM A) f : harmless fn → calm (try_owned (withOwnedSessionRead v caller fn) f).
Proof using All. intros Hfn. apply calm_try. intros q r q' [Hs Hd] E _. by destruct (owned_read_spec Hretire _ _ _ _ _ _ Hs Hd Hfn E). Qed.

(** A write request whose body fails, or answers [bad]. *)
Lemma owned_write_calm {A} v caller (bad : A → Prop) (fn : sysM A) q r q' : atomic bad fn → resting q →
  withOwnedSessionOrRehydrate v caller fn q = (r, q') →
  match r with Ok a => bad a | Err e => lock_lost (vi_lock v) = false ∨ e ≠ ELOCKLOST_APPLIED end →
  tree_same (s_db (q_sys q)) (s_db (q_sys q')).
Proof using All.
  intros Hfn [Hs Hd] E Hr.
  destruct (owned_write_spec Hretire _ _ _ _ _ _ Hs E) as [(e & _ & Ht)|(owner & s1 & r2 & s2 & _ & _ & Hs1 & Ht & Hp & Efn & Hq' & Ho)]; [done|].
  rewrite Hq'. simpl. eapply tree_same_trans; [exact Ht|]. apply rows_tree. specialize (Hfn _ _ _ Hs1 Hp Efn).
  destruct r2 as [a|e]; [|done]. apply Hfn. unfold write_outcome in Ho. destruct (v_poisoned (s_view s2)); [by right|].
  left. destruct (lock_lost (vi_lock v)); rewrite Ho in Hr; [by destruct Hr|done].
Qed.

Lemma calm_write {A} v caller (bad : A → Prop) (fn : sysM A) f : atomic bad fn → (∀ a, lost_cause (f a) → bad a) →
  calm (try_owned (withOwnedSessionOrRehydrate v caller fn) f).
Proof using All.
  intros Hfn Hf. apply calm_try. intros q r q' Hq E Hr. eapply owned_write_calm; [done..|]. destruct r; [by apply Hf|by right].
Qed.

Lemma calm_catch m h : calm m → answers h → calm (catch m h).
Proof.
  intros Hm Hh q r q' Hq. unfold catch. destruct (m q) as [[a|e] q1] eqn:E; specialize (Hm _ _ _ Hq E); [by intros [= <- <-]|].
  destruct (Hh e) as [(response & _ & He & ->)| ->]; intros [= <- <-] Hl; by apply Hm.
Qed.

Lemma overflow_err limit seen received chunks fails r : count_stream limit seen received chunks fails = (true, r) → ∃ e, r = Err e.
Proof.
  revert seen received. induction chunks as [|c chunks IH]; intros seen received; simpl; [done|].
  destruct (limit <? seen + str_len c); [intros [= <-]; by eexists|apply IH].
Qed.

Lemma calm_limit limit u next : (∀ received, calm (next received)) → (∀ e q, (next (Err e) q).2 = q) → calm (writeBodyLimit limit u next).
Proof.
  intros Hn He. unfold writeBodyLimit. case_match; [apply calm_ret|]. destruct (u_body u) as [[chunks fails]|]; [|apply Hn].
  destruct (count_stream limit 0 EmptyString chunks fails) as [[] received] eqn:Ec; [|apply Hn]. apply overflow_err in Ec as [e ->].
  intros q r q' Hq. unfold bindM, attempt. specialize (He e q). destruct (next (Err e) q) as [r1 q1]. simpl in He. subst q1. by intros [= <- <-].
Qed.

Context (shell : string → option string → option (list (string * string)) → Script BashExecResult).

(** The calls that run in a scope, or in one statement: not DELETE and mkdir,
    which make several statements outside a scope; of the batches only the
    read-only ones, as the scripts of another commit one by one; and of the
    executions those whose script is safe. *)
Definition scoped (call : Call) : Prop :=
  match call with
  | Delete _ _ | Mkdir _ => False
  | ExecSync _ parse contentType text query | ExecStream _ _ _ parse contentType text query =>
      ∀ body, parseExecBody parse contentType text query = inr body → safe_script (script_of shell body)
  | ExecBatch _ parse text => ∀ body, parse text = Some body → bb_readOnly body = true
  | _ => True
  end.

Lemma calm_stream v caller run printed body q r q' : safe_script (script_of shell body) → resting q →
  exec_stream shell v caller run printed body q = (r, q') →
  match r with
  | Ok events => (∃ code retryable rest, events = EvError code retryable :: rest ∧ code ≠ "ELOCKLOST_APPLIED") → tree_same (s_db (q_sys q)) (s_db (q_sys q'))
  | Err _ => False
  end.
Proof using All.
  intros Hsafe Hq. unfold exec_stream, bindM, attempt. destruct (runner v caller (eb_readOnly body) _ q) as [r1 q1] eqn:E. intros [= <- <-].
  assert (Hc : match r1 with Ok _ => False | Err e => e ≠ ELOCKLOST_APPLIED end → tree_same (s_db (q_sys q)) (s_db (q_sys q1))).
  { revert E. unfold runner. destruct (eb_readOnly body) eqn:Er.
    - intros E _. destruct Hq as [Hs Hd]. assert (Hh : harmless (exec_once (exec_env v run true) run (script_of shell body))) by by apply harmless_exec_once.
      by destruct (owned_read_spec Hretire _ _ _ _ _ _ Hs Hd Hh E).
    - intros E Hr. eapply owned_write_calm; [|done|exact E|]; [apply (atomic_exec Hretire); done|]. destruct r1; [done|by right]. }
  intros (code & retryable & rest & Hev & Hcode). apply Hc. destruct r1 as [[result|]|e]; [|done|].
  - by destruct printed as [[] []].
  - intros ->. injection Hev as <- _. done.
Qed.

Lemma calm_route v0 v caller run printed parsed : (∀ body, parsed = inr body → safe_script (script_of shell body)) →
  calm (exec_route shell v0 v caller run printed parsed).
Proof using All.
  intros Hsafe. unfold exec_route. destruct parsed as [response|body]; [apply calm_ret|]. intros q r q' Hq.
  unfold bindM at 1, attempt. destruct (runner v0 caller (eb_readOnly body) (retM tt) q) as [r1 q1] eqn:E1.
  assert (Ht1 : tree_same (s_db (q_sys q)) (s_db (q_sys q1))) by by eapply check_tree.
  pose proof (check_rests Hretire _ _ _ _ _ _ Hq E1) as Hq1. destruct r1 as [[]|e].
  - unfold bindM. destruct (exec_stream shell v caller run printed body q1) as [r2 q2] eqn:E2.
    pose proof (calm_stream v caller run printed body q1 r2 q2 (Hsafe body eq_refl) Hq1 E2) as Hc. destruct r2 as [events|e]; [|done].
    intros [= <- <-] [[Hs _]|(code & retryable & rest & He & Hcode)]; [simpl in Hs; lia|]. injection He as ->.
    eapply tree_same_trans; [exact Ht1|]. apply Hc. by eexists _, _, _.
  - destruct (isForbiddenError e); by intros [= <- <-].
Qed.

Lemma calm_call l v caller call : scoped call → calm (handle shell l v caller call).
Proof using All.
  intros Hsc. destruct call; simpl in *; try done.
  - apply calm_read, harmless_read_file.
  - apply calm_limit; [|done]. intros [content|e]; [|apply calm_throw].
    eapply calm_write; [by apply atomic_tx, client_write_at|]. intros [] Hl; [by apply fine_cause in Hl|].
    destruct Hl as [(_ & _ & Hb & _)|(code & retryable & rest & He & _)]; done.
  - apply calm_limit; [|done]. intros received. destruct (json_body parse received) as [req|]; [|apply calm_ret].
    case_decide; [apply calm_ret|]. eapply calm_write; [by apply atomic_edit|]. intros o Hl (n & size & ->). by apply fine_cause in Hl.
  - apply calm_limit; [|done]. intros received. destruct (json_body parse received) as [files|]; [|apply calm_ret].
    repeat (case_match; [apply calm_ret|]). eapply calm_write; [by apply atomic_tx, client_writeAll|]. intros [] Hl. by apply fine_cause in Hl.
  - destruct query as [[p d]|]; [|apply calm_ret]. apply calm_catch; [apply calm_read, harmless_tree|]. answering.
  - destruct (parseExecBody parse contentType text query) as [response|body] eqn:Ep; [apply calm_ret|]. apply calm_catch; [|answering].
    unfold runner. destruct (eb_readOnly body) eqn:Er; [by apply calm_read, harmless_exec_once|].
    eapply calm_write; [apply atomic_exec; [done|done|by apply Hsc]|]. intros [] Hl; [by apply fine_cause in Hl|].
    destruct Hl as [(_ & Ht & _)|(code & retryable & rest & He & _)]; done.
  - by apply calm_route.
  - unfold exec_batch. destruct (parse text) as [body|]; [|apply calm_ret]. case_match; [apply calm_ret|]. apply calm_catch; [|answering].
    unfold runner. rewrite (Hsc body eq_refl). apply calm_read, harmless_batch.
  - destruct built as [files|]; [|apply calm_ret]. apply calm_catch; [eapply calm_write; [by apply atomic_ingest|]|answering].
    intros [] Hl. by apply fine_cause in Hl.
Qed.
End calm.

Section guarantees.
Context `{Config} `{Lru} (shell : string → option string → option (list (string * string)) → Script BashExecResult).

(** A call whose working visit is not the owner's serves nothing. *)
Lemma acting_refused (Hret : hasRetire = true) l v caller call q r q' :
  (∀ owner, session_owner (acting v call) = Ok owner → isOwnedBy (Some owner) caller = false) → resting q →
  handle shell l v caller call q = (r, q') →
  match r with Ok response => ¬ served response | Err _ => True end ∧ tree_same (s_db (q_sys q)) (s_db (q_sys q')).
Proof.
  intros Hother Hq E. assert (Hdef : acting v call = v → match r with Ok response => ¬ served response | Err _ => True end ∧ tree_same (s_db (q_sys q)) (s_db (q_sys q'))).
  { intros Ev. rewrite Ev in Hother. destruct (refuses_call Hret shell v caller Hother l call q r q' Hq E) as [Hf Ht]. split; [|done].
    destruct r; [|done]. intros [Hs _]. lia. }
  destruct call as [| | | | | | | |later run printed parse contentType text query| |]; try by apply Hdef. clear Hdef. simpl in Hother, E.
  destruct (parseExecBody parse contentType text query) as [response|body] eqn:Ep.
  { injection E as <- <-. split; [|done]. intros [Hs _]. apply parse_refused in Ep. lia. }
  unfold exec_route, bindM at 1, attempt in E. destruct (runner v caller (eb_readOnly body) (retM tt) q) as [r1 q1] eqn:E1.
  assert (Ht1 : tree_same (s_db (q_sys q)) (s_db (q_sys q1))) by by eapply check_tree.
  pose proof (check_rests Hret _ _ _ _ _ _ Hq E1) as Hq1. destruct r1 as [[]|e].
  - unfold bindM in E. destruct (exec_stream shell later caller run printed body q1) as [r2 q2] eqn:E2.
    destruct (refuses_stream Hret shell later caller Hother run printed body q1 r2 q2 Hq1 E2) as [(code & retryable & rest & ->) Ht2].
    injection E as <- <-. split; [|by eapply tree_same_trans]. intros [_ Hn]. by apply (Hn code retryable rest).
  - destruct (isForbiddenError e); injection E as <- <-; (split; [|done]); [|done]. intros [Hs _]. simpl in Hs. lia.
Qed.

(** Only the owner of a sandbox is served. Whatever a request to one of its
    routes carries and whatever it meets on its way: if the answer is not an
    error, the caller is the owner of the session the request found, and not
    nobody; if it has something of the sandbox, or if the tree is not as before,
    the caller is the owner of the session in which the call worked. *)
Lemma only_owner_served sanitize l v caller call q response q' :
  hasRetire = true → reachable (q_sys q) → scriptScope (s_pers (q_sys q)) = false → 0 ≤ s_readOnlyDepth (q_sys q) →
  serve shell sanitize l v caller call q = (response, q') →
  (h_status response < 400 → session_owner v = Ok caller ∧ caller ≠ EmptyString) ∧
  (served response ∨ ¬ tree_same (s_db (q_sys q)) (s_db (q_sys q')) → session_owner (acting v call) = Ok caller ∧ caller ≠ EmptyString).
Proof.
  intros Hret Hr Hsc Hd. unfold serve. destruct (handle shell l v caller call q) as [r q1] eqn:E. intros [= <- <-].
  assert (Hq : resting q) by (split; [split; [by apply reachable_Inv|done]|done]). split.
  - intros Hx. destruct (owner_or_other v caller) as [?|Hother]; [done|].
    destruct (refuses_call Hret shell v caller Hother l call q r q1 Hq E) as [Hf _]. pose proof (failed_respond sanitize r Hf). lia.
  - intros Hx. destruct (owner_or_other (acting v call) caller) as [?|Hother]; [done|].
    destruct (acting_refused Hret l v caller call q r q1 Hother Hq E) as [Hf Ht]. destruct Hx as [Hx|Hx]; [|done].
    destruct r as [response|e]; [done|]. pose proof (respond_status sanitize e). destruct Hx. lia.
Qed.

End guarantees.

(** ** Bulk writes *)

Definition total_bytes (files : Files) : Z := foldr (λ e n, byteLength (encode e.2) + n) 0 files.

Lemma oversized_spec l t files : oversized l t files = false →
  Forall (λ e, byteLength (encode e.2) ≤ l_maxFileBytes l) files ∧ (files ≠ [] → t + total_bytes files ≤ l_maxBytes l).
Proof.
  revert t. induction files as [|[p c] files IH]; intros t; [done|]. simpl.
  destruct (l_maxFileBytes l <? byteLength (encode c)) eqn:E1; [done|]. destruct (l_maxBytes l <? t + byteLength (encode c)) eqn:E2; [done|].
  intros [Hf Ht]%IH. split; [constructor; [simpl; lia|done]|]. intros _. destruct files; [simpl; lia|]. specialize (Ht ltac:(done)). simpl in *. lia.
Qed.

Lemma count_stream_spec limit seen received chunks fails r : count_stream limit seen received chunks fails = (false, r) →
  seen = str_len received → seen ≤ limit →
  str_len (received +:+ String.concat EmptyString chunks) ≤ limit ∧
  (fails = false → r = Ok (received +:+ String.concat EmptyString chunks)) ∧ (fails = true → ∃ e, r = Err e).
Proof.
  revert seen received. induction chunks as [|c chunks IH]; intros seen received; cbn [count_stream].
  - intros [= <-] -> Hl. rewrite str_app_nil_r. split; [done|]. by destruct fails; [split; [|eexists]|].
  - destruct (limit <? seen + str_len c) eqn:El; [done|]. intros E -> Hl. rewrite str_concat_cons, <- str_app_assoc.
    apply (IH _ _ E); [by rewrite str_len_app|lia].
Qed.

Section bulk.
Context `{Config} `{Lru} (Hretire : hasRetire = true).

(** The body a handler gets, when it does get one that was sent in full. *)
Definition sent (u : Upload) (limit : Z) (text : string) : Prop :=
  match u_body u with
  | None => text = EmptyString
  | Some (chunks, fails) => fails = false ∧ text = String.concat EmptyString chunks ∧ str_len text ≤ limit
  end ∧ ∀ declared, u_declared u = Some declared → declared ≤ limit.

Lemma limit_passed limit u next q r q' : 0 ≤ limit → writeBodyLimit limit u next q = (r, q') →
  r = Ok payload_too_large ∨ ∃ received, next received q = (r, q') ∧ ∀ text, received = Ok text → sent u limit text.
Proof.
  intros Hlim. unfold writeBodyLimit, sent. set (over := match u_declared u with Some d => limit <? d | None => false end).
  assert (Hover : over = false → ∀ declared, u_declared u = Some declared → declared ≤ limit).
  { subst over. intros Ho declared Ed. rewrite Ed in Ho. lia. }
  destruct over; [intros [= <- <-]; by left|]. specialize (Hover eq_refl).
  destruct (u_body u) as [[chunks fails]|]; [|intros E; right; eexists; split; [exact E|]; by intros text [= <-]].
  destruct (count_stream limit 0 EmptyString chunks fails) as [[] received] eqn:Ec.
  { unfold bindM, attempt. destruct (next received q). intros [= <- <-]. by left. }
  intros E. right. exists received. split; [done|]. intros text ->.
  destruct (count_stream_spec _ _ _ _ _ _ Ec eq_refl Hlim) as (Hl & Hok & Hf). destruct fails; [by destruct (Hf eq_refl)|].
  specialize (Hok eq_refl). simpl in Hok. by injection Hok as ->.
Qed.

(** The committed tree has the file [c] at [cs]. *)
Definition file_at (d : db) (cs : list string) (c : list Z) : Prop :=
  ∃ root id r, root_of d sandboxId = Some root ∧ walk (dirents d) root cs = Some id ∧ inodes d !! id = Some r ∧
    i_kind r = FILE ∧ i_size r = str_len (string_of (encode c)) ∧ i_contentSha256 r = Some (sha256 (string_of (encode c))).

(** All files were written in one scope of the tree the request found; what that
    left in the scope's view is what is committed, and so every file that is not
    written again later in the same request is in the tree, with its size and the
    hash of its bytes. *)
Definition all_written (files : Files) (q q' : Req) : Prop :=
  ∃ s0 s1, in_scope s0 ∧ tree_same (s_db (q_sys q)) (s_db s0) ∧ writeAll files s0 = (Ok tt, s1) ∧
    (mutations (s_pers s1) = [] ∧ tree_same (s_db (q_sys q)) (s_db (q_sys q')) ∨
     mutations (s_pers s1) ≠ [] ∧ commits (s_view s1) (s_view (q_sys q')) (s_db (q_sys q'))) ∧
    ∀ p c cs, valid_comps cs → last_at files p c (path_of cs) → file_at (s_db (q_sys q')) cs c.

Lemma commits_file v v' d k e c cs : commits v v' d → valid_comps cs → k = path_of cs → view_get k v = Some e → written (string_of (encode c)) e →
  file_at d cs c.
Proof using Type.
  intros (root & Hroot & Hall) Hcs -> Hg (Hk & Hs & Hc). destruct (Hall cs Hcs) as [Hsh _]. rewrite Hg in Hsh.
  destruct Hsh as (id & r & Hw & Hi & Hkind & _ & Hsize & Hsha & _). exists root, id, r. split_and!; congruence.
Qed.

(** The session of a bulk write. *)
Lemma bulk_session v caller files q r q' : resting q →
  withOwnedSessionOrRehydrate v caller (runInScriptTx (vi_lost v) (vi_ownerLost v) (writeAll files)) q = (r, q') →
  match r with
  | Ok _ => lock_lost (vi_lock v) = false ∧ all_written files q q'
  | Err ELOCKLOST_APPLIED => tree_same (s_db (q_sys q)) (s_db (q_sys q')) ∨ lock_lost (vi_lock v) = true ∧ all_written files q q'
  | Err _ => tree_same (s_db (q_sys q)) (s_db (q_sys q'))
  end.
Proof using All.
  intros Hq E. pose proof (owned_write_calm Hretire v caller (λ _, False) _ q r q' (atomic_tx Hretire _ _ _ (client_writeAll Hretire files)) Hq E) as Hcalm.
  destruct Hq as [Hidle _].
  destruct (owned_write_spec Hretire _ _ _ _ _ _ Hidle E) as [(e & -> & Ht)|(owner & s1 & r2 & s2 & _ & _ & [Hi1 Hsc1] & Ht1 & Hp1 & Efn & Hq' & Ho)].
  { destruct e; try done. by left. }
  destruct (tx_outcome Hretire _ _ _ _ _ _ Hi1 Hp1 Hsc1 (client_writeAll Hretire files) Efn) as (_ & _ & Hx).
  destruct r2 as [[]|e]; [|destruct Ho as (e' & -> & He); specialize (Hcalm (or_intror He)); by destruct e'].
  destruct Hx as (_ & _ & Hp2 & s3 & Hfn & Hx). unfold write_outcome in Ho. rewrite Hp2 in Ho.
  destruct (begin_run _ Hi1 Hp1 Hsc1) as (s0 & E0 & Hs0 & Hd0). rewrite E0 in Hfn. cbn [snd] in Hfn.
  assert (Hall : all_written files q q').
  { exists s0, s3. rewrite Hq'. split; [done|]. split; [by rewrite Hd0|]. split; [done|]. split.
    - destruct Hx as [[Hm Hrows]|[Hm Hc]]; [left|right; split; [done|by apply commits_clean]]. split; [done|].
      simpl. by eapply tree_same_trans; [|apply rows_tree].
    - intros p c cs Hcs Hlast. destruct (writeAll_kept Hretire files s0 s3 p c _ Hs0 Hfn Hlast) as (e & (_ & Hm & Hg) & Hw).
      destruct Hx as [[Hm' _]|[_ Hc]]; [done|]. by eapply commits_file. }
  destruct (lock_lost (vi_lock v)); rewrite Ho; [by right|done].
Qed.

End bulk.

(** ** Concrete requests *)

Section demo_routes.
#[local] Existing Instance demo_config.
#[local] Existing Instance lru_unbounded.

Definition demo_shell : string → option string → option (list (string * string)) → Script BashExecResult := λ _ _ _, SReturn (mkBashResult 0 None false).

Definition demo_limits : Limits := mkLimits 2 10 15 100 50.

(** A resident session of "ada". *)
Definition demo_visit : Visit := mkVisit (Some ("ada", false)) (Ok None) (Ok EmptyString) (Ok None) false false false true (Held false).

Definition demo_upload : Upload := mkUpload None (Some (["{"; "}"], false)).

(** What the body is taken for: two files in a new directory, or one that cannot
    be written. *)
Definition demo_files : Files := [("/tmp/d/a", [104; 105]); ("/tmp/d/b", [8364])].
Definition demo_bad_files : Files := [("/tmp/d/a", [104; 105]); ("/tmp", [98])].

Definition demo_bulk (files : Files) : HttpResponse * Req :=
  serve demo_shell id demo_limits demo_visit "ada" (WriteFiles (λ _, Some files) demo_upload) demo_req.


(** The same request, whose lock is lost when it has written. *)
Definition demo_lost_visit : Visit := mkVisit (Some ("ada", false)) (Ok None) (Ok EmptyString) (Ok None) false false false true (Held true).

Definition demo_lost_bulk : HttpResponse * Req :=
  serve demo_shell id demo_limits demo_lost_visit "ada" (WriteFiles (λ _, Some demo_files) demo_upload) demo_req.


(** A write to a path with a slash at its end is refused, and makes a directory
    of the path. *)
Example put_trailing_slash :
  let answer := serve demo_shell id demo_limits demo_visit "ada" (Put "/tmp/x/" (mkUpload None (Some (["h"], false)))) demo_req in
  answer.1 = problem 400 "is_directory" "EISDIR" ∧
  walk (dirents (s_db (q_sys demo_req))) 1 ["tmp"; "x"] = None ∧ walk (dirents (s_db (q_sys answer.2))) 1 ["tmp"; "x"] ≠ None.
Proof. vm_compute. split_and!; [done|done|discriminate]. Qed.

(** One symlink to itself, and no tree can be listed. *)
Example tree_fails_on_loop :
  let q := set_sys (run_op (OpSymlink "/tmp/l" "/tmp/l") demo_ready).2 demo_req in
  h_status (serve demo_shell id demo_limits demo_visit "ada" (Tree (Some ("/", None))) demo_req).1 = 200 ∧
  (serve demo_shell id demo_limits demo_visit "ada" (Tree (Some ("/", None))) q).1 = mkHttp 400 (Problem EmptyString "ELOOP").
Proof. vm_compute. split; reflexivity. Qed.
End demo_routes.
