(* ===== verification/FileRead.v ===== *)
(** Paged reads of a file ([file_read] of src/src/api/mcp/tools.ts).

    The tool selects lines of a file and returns as much of them as its reply can
    hold, with the offset in the file at which the next call goes on. Text is the
    code units of [Text]; a reply is the text of a JSON object, and its size is
    that of the text as a JSON string. The quotient that guesses the next cut is
    floating-point arithmetic: any guess will do. *)

From stdpp Require Import pretty.
From S2P Require Import Prelude Errors Paths Store Tree Dialect Lifecycle LoadPaths View Session Namespace Coherence Simulation Journal Invariant Mutate Handlers SqlFs Ingest IngestRows IngestSim IngestSound Scopes Machine Guarantees Isolation Contents Exec ExecSound Readers ApiErrors Text Replace Edits.

#[local] Open Scope nat_scope.

(** ** Lines *)

Definition LINE_END : list Z := [10%Z].

Definition countLines (text : list Z) : nat :=
  match text with
  | [] => 0
  | _ => count_loop (S (length text)) text LINE_END 1 (indexOf text LINE_END 0)
  end.

(** The loop of [lineStartOffset], for the rounds that are left. *)
Fixpoint line_walk (rounds : nat) (text : list Z) (idx : nat) : nat :=
  match rounds with
  | O => idx
  | S rounds' => match indexOf text LINE_END idx with
                 | None => length text
                 | Some nl => line_walk rounds' text (nl + 1)
                 end
  end.

Definition lineStartOffset (text : list Z) (n : nat) : nat :=
  if decide (n ≤ 1) then 0 else line_walk (n - 1) text 0.

(** ** The selection *)

Record ReadArgs := mkReadArgs { ra_offset : option nat; ra_limit : option nat; ra_byteOffset : option Z }.

(** [text.slice(a, b)] *)
Definition text_slice {A} (text : list A) (a b : nat) : list A := take (b - a) (drop a text).

Definition firstLine (args : ReadArgs) : nat := default 1 (ra_offset args).

Definition paging (args : ReadArgs) : bool := bool_decide (is_Some (ra_offset args)) || bool_decide (is_Some (ra_limit args)).

Definition selectionStartChar (text : list Z) (args : ReadArgs) : nat :=
  if paging args then lineStartOffset text (firstLine args) else 0.

Definition selectionEndChar (text : list Z) (args : ReadArgs) : nat :=
  match ra_limit args with
  | Some limit => if decide (firstLine args + limit ≤ countLines text) then lineStartOffset text (firstLine args + limit) - 1 else length text
  | None => length text
  end.

Definition selected (text : list Z) (args : ReadArgs) : list Z :=
  if paging args then text_slice text (selectionStartChar text args) (selectionEndChar text args) else text.

(** ** Pages *)

(** [(bytes[i] & 0xc0) === 0x80] *)
Definition continues (b : option Z) : bool := match b with Some b => (Z.land b 192 =? 128)%Z | None => false end.

Fixpoint snap_back (bytes : list Z) (i : nat) : nat :=
  match i with
  | O => O
  | S i' => if decide (i < length bytes) then if continues (bytes !! i) then snap_back bytes i' else i else i
  end.

Definition snapToCodepointStart (bytes : list Z) (offset : Z) : nat := snap_back bytes (Z.to_nat (Z.min (Z.max offset 0) (Z.of_nat (length bytes)))).

(** [JSON.stringify] of a string. *)
Definition hex_digit (n : Z) : Z := (if n <? 10 then 48 + n else 87 + n)%Z.

Definition unicode_escape (x : Z) : list Z :=
  [92; 117; hex_digit (x / 4096 mod 16); hex_digit (x / 256 mod 16); hex_digit (x / 16 mod 16); hex_digit (x mod 16)]%Z.

Definition json_char (x : Z) : list Z :=
  (if x =? 34 then [92; 34]
   else if x =? 92 then [92; 92]
   else if x =? 8 then [92; 98]
   else if x =? 9 then [92; 116]
   else if x =? 10 then [92; 110]
   else if x =? 12 then [92; 102]
   else if x =? 13 then [92; 114]
   else if x <? 32 then unicode_escape x
   else [x])%Z.

Fixpoint json_chars (s : list Z) : list Z :=
  match s with
  | [] => []
  | x :: s' =>
      if is_high x then
        match s' with
        | y :: s'' => if is_low y then x :: y :: json_chars s'' else unicode_escape x ++ json_chars s'
        | [] => unicode_escape x
        end
      else if is_low x then unicode_escape x ++ json_chars s'
      else json_char x ++ json_chars s'
  end.

Definition json_string (s : list Z) : list Z := [34%Z] ++ json_chars s ++ [34%Z].

Definition jsonSize (text : list Z) : nat := length (encode (json_string text)) - 2.

Definition lit (s : string) : list Z := bytes_of s.
Definition json_number (n : nat) : list Z := lit (pretty n).

Record Reply := mkReply {
  rp_path : string;
  rp_content : list Z;
  rp_size : nat;
  rp_totalLines : nat;
  rp_firstLine : nat;
  rp_nextByteOffset : option nat;   (* when truncated *)
}.

Definition QUOTE : list Z := [34%Z].
Definition json_key (name : string) : list Z := QUOTE ++ lit name ++ QUOTE ++ lit ":".

(** The text of a reply. *)
Definition render (r : Reply) : list Z :=
  lit "{" ++ json_key "ok" ++ lit "true," ++ json_key "path" ++ json_string (default [] (decode (bytes_of (rp_path r)))) ++ lit "," ++
  json_key "content" ++ json_string (rp_content r) ++ lit "," ++ json_key "size" ++ json_number (rp_size r) ++ lit "," ++
  json_key "totalLines" ++ json_number (rp_totalLines r) ++ lit "," ++ json_key "firstLine" ++ json_number (rp_firstLine r) ++ lit "," ++
  json_key "truncated" ++
  match rp_nextByteOffset r with
  | None => lit "false"
  | Some next => lit "true," ++ json_key "nextByteOffset" ++ json_number next
  end ++ lit "}".

Section pages.
(** [scale n a b] is [Math.floor(n * (a / b))]. *)
Context (MAX_READ_RESPONSE_BYTES : nat) (scale : nat → nat → nat → nat).

Section one_page.
Context (path : string) (size : nat) (text : list Z) (args : ReadArgs).

Definition selectionStart : nat :=
  if decide (selectionStartChar text args = 0) then 0 else length (encode (take (selectionStartChar text args) text)).

Definition selectedBytes : list Z := encode (selected text args).

(** [toString("utf8")] of bytes that begin and end with characters. *)
Definition replyFor (start cut : nat) : Reply :=
  mkReply path (default [] (decode (text_slice selectedBytes start cut))) size (countLines text) (firstLine args)
    (if decide (cut < length selectedBytes) then Some (selectionStart + cut) else None).

Fixpoint shrink (fuel start finish : nat) : nat :=
  match fuel with
  | O => finish
  | S fuel' =>
      let bytes := jsonSize (render (replyFor start finish)) in
      if decide (start < finish ∧ MAX_READ_RESPONSE_BYTES < bytes) then
        let proposed := start + Nat.max 1 (scale (finish - start) MAX_READ_RESPONSE_BYTES bytes) in
        shrink fuel' start (snapToCodepointStart selectedBytes (Z.of_nat (Nat.min proposed (finish - 1))))
      else finish
  end.

(** [None]: the budget is too small. *)
Definition read_page : option Reply :=
  let start := snapToCodepointStart selectedBytes (match ra_byteOffset args with None => 0 | Some b => b - Z.of_nat selectionStart end)%Z in
  let finish := snapToCodepointStart selectedBytes (Z.of_nat (Nat.min (start + MAX_READ_RESPONSE_BYTES) (length selectedBytes))) in
  if decide (MAX_READ_RESPONSE_BYTES < jsonSize (render (replyFor start start))) then None
  else
    let finish' := shrink (S (finish - start)) start finish in
    if decide (finish' = start ∧ start < length selectedBytes) then None else Some (replyFor start finish').
End one_page.

(** ** The tool *)

Inductive FileReadOutcome := FrOk (reply : Reply) | FrNotFound | FrIsDir | FrTooLarge (size : Z) | FrNotText | FrBudgetTooSmall.

Context (MAX_READ_FILE_BYTES : Z).

Definition file_read `{Config} `{Lru} (filePath : string) (args : ReadArgs) : sysM FileReadOutcome :=
  let* st := attempt (fs_stat filePath) in
  match st with
  | Err e => if decide (errCode e = Some "ENOENT") then retM FrNotFound else throw e
  | Ok stat =>
      if isDirectory stat then retM FrIsDir
      else if decide (MAX_READ_FILE_BYTES < st_size stat)%Z then retM (FrTooLarge (st_size stat))
      else
        let* bytes := fs_readFileBuffer filePath in
        match decode (bytes_of bytes) with
        | None => retM FrNotText
        | Some text =>
            retM (match read_page filePath (Z.to_nat (st_size stat)) text args with
                  | None => FrBudgetTooSmall
                  | Some reply => FrOk reply
                  end)
        end
  end.
End pages.

(** ** The selection is a range of lines *)

Section selection.
Context (text : list Z).

(** [text.split("\n")] *)
Definition lines : list (list Z) := cut LINE_END text.

Lemma line_end_ne : LINE_END ≠ [].
Proof. done. Qed.

Lemma countLines_spec : countLines text = if decide (text = []) then 0 else length lines.
Proof.
  unfold countLines, lines. destruct text as [|x t] eqn:E; [done|]. rewrite <- E. rewrite decide_False by (by rewrite E).
  rewrite (count_loop_spec LINE_END line_end_ne) by lia. rewrite drop_0. pose proof (cut_not_nil LINE_END text). destruct (cut LINE_END text); [done|]. simpl. lia.
Qed.

Lemma walk_spec rounds idx : idx ≤ length text →
  line_walk rounds text idx ≤ length text ∧ drop (line_walk rounds text idx) text = join LINE_END (drop rounds (cut LINE_END (drop idx text))).
Proof.
  revert idx. induction rounds as [|rounds IH]; intros idx Hi; cbn [line_walk].
  - split; [done|]. by rewrite drop_0, cut_text.
  - destruct (indexOf text LINE_END idx) as [nl|] eqn:E.
    + destruct (indexOf_Some _ _ _ _ Hi E) as (j & -> & Hj & Hle). simpl in Hle. destruct (IH (idx + j + 1)) as [Hw Hd]; [lia|].
      split; [done|]. rewrite Hd, (cut_Some LINE_END line_end_ne _ _ Hj). cbn [drop]. by rewrite drop_drop, (assoc_L plus).
    + split; [done|]. unfold indexOf in E. destruct (index_of LINE_END (drop idx text)) eqn:E'; [done|]. rewrite (cut_None _ _ E').
      rewrite drop_all. by destruct rounds.
Qed.

Lemma lineStart_spec n : 1 ≤ n →
  lineStartOffset text n ≤ length text ∧ drop (lineStartOffset text n) text = join LINE_END (drop (n - 1) lines).
Proof.
  intros Hn. unfold lineStartOffset, lines. case_decide.
  - replace (n - 1) with 0 by lia. rewrite !drop_0. split; [lia|]. by rewrite cut_text.
  - by apply walk_spec; lia.
Qed.

Lemma join_app_lines (a b : list (list Z)) : a ≠ [] → b ≠ [] → join LINE_END (a ++ b) = join LINE_END a ++ LINE_END ++ join LINE_END b.
Proof.
  intros Ha Hb. induction a as [|x a IH]; [done|]. destruct a as [|y a].
  - simpl. by destruct b.
  - change (x ++ LINE_END ++ join LINE_END ((y :: a) ++ b) = (x ++ LINE_END ++ join LINE_END (y :: a)) ++ LINE_END ++ join LINE_END b).
    rewrite IH by done. by rewrite !(assoc_L (++)).
Qed.

(** The lines a call asks for. *)
Definition wanted (args : ReadArgs) : list (list Z) :=
  match ra_limit args with Some limit => take limit | None => λ l, l end (drop (firstLine args - 1) lines).

Definition positive_args (args : ReadArgs) : Prop := 1 ≤ firstLine args ∧ ra_limit args ≠ Some 0.

Lemma selected_wanted args : positive_args args → selected text args = join LINE_END (wanted args).
Proof.
  intros [Hf Hl]. unfold selected, wanted, selectionStartChar, selectionEndChar, text_slice. destruct (paging args) eqn:Ep.
  2:{ unfold paging, firstLine in *. apply orb_false_iff in Ep as [E1 E2]. apply bool_decide_eq_false in E1, E2.
      destruct (ra_offset args); [destruct E1; by eexists|]. destruct (ra_limit args); [destruct E2; by eexists|].
      simpl. rewrite drop_0. unfold lines. by rewrite cut_text. }
  destruct (lineStart_spec (firstLine args) Hf) as [Hs Hd]. set (s := lineStartOffset text (firstLine args)) in *.
  assert (Hall : take (length text - s) (drop s text) = drop s text) by (apply take_ge; rewrite length_drop; lia).
  destruct (ra_limit args) as [n|] eqn:El; [|by rewrite Hall].
  set (D := drop (firstLine args - 1) lines) in *. assert (HD : length D = length lines - (firstLine args - 1)) by apply length_drop.
  rewrite countLines_spec. case_decide as Hfit.
  - assert (Hn0 : n ≠ 0) by congruence. destruct (decide (text = [])) as [|Hne]; [lia|].
    destruct (lineStart_spec (firstLine args + n)) as [Hs2 Hd2]; [lia|]. set (e := lineStartOffset text (firstLine args + n)) in *.
    replace (firstLine args + n - 1) with (firstLine args - 1 + n) in Hd2 by lia. rewrite <- drop_drop in Hd2. fold D in Hd2.
    assert (Hsplit : join LINE_END D = join LINE_END (take n D) ++ LINE_END ++ join LINE_END (drop n D)).
    { rewrite <- (take_drop n D) at 1. apply join_app_lines; intros E; apply (f_equal length) in E; rewrite ?length_take, ?length_drop in E; simpl in E; lia. }
    pose proof (f_equal length Hd) as L1. pose proof (f_equal length Hd2) as L2. rewrite length_drop in L1, L2.
    rewrite Hsplit, !length_app in L1. simpl in L1. rewrite Hd, Hsplit.
    replace (e - 1 - s) with (length (join LINE_END (take n D))) by lia. by rewrite take_app_length.
  - rewrite Hall, Hd. f_equal. destruct (decide (text = [])) as [He|Hne]; [|by rewrite take_ge by lia].
    assert (Hn0 : n ≠ 0) by congruence. assert (length lines = 1) by (unfold lines; by rewrite He). by rewrite take_ge by lia.
Qed.
End selection.

(** ** Boundaries *)

Definition byte (b : Z) : Prop := (0 ≤ b < 256)%Z.

Lemma continues_byte b : byte b → continues (Some b) = is_continuation b.
Proof.
  intros [H0 H1]. assert (Hall : forallb (λ b, Bool.eqb (continues (Some b)) (is_continuation b)) (seqZ 0 256) = true) by (vm_compute; reflexivity).
  rewrite forallb_forall in Hall. apply eqb_prop, Hall. apply list_elem_of_In, elem_of_seqZ. lia.
Qed.

Lemma encode_point_bytes cp : scalar cp = true → Forall byte (encode_point cp).
Proof.
  unfold scalar, in_range, encode_point. intros Hs. unfold byte.
  assert (Hm : ∀ a, (0 ≤ 128 + a mod 64 < 256)%Z) by (intros a; pose proof (Z.mod_pos_bound a 64 ltac:(lia)); lia).
  pose proof (Z.div_pos cp 64 ltac:(lia) ltac:(lia)). pose proof (Z.div_pos cp 4096 ltac:(lia) ltac:(lia)).
  pose proof (Z.div_pos cp 262144 ltac:(lia) ltac:(lia)).
  pose proof (Z.mul_div_le cp 64 ltac:(lia)). pose proof (Z.mul_div_le cp 4096 ltac:(lia)). pose proof (Z.mul_div_le cp 262144 ltac:(lia)).
  repeat case_match; repeat constructor; try apply Hm; lia.
Qed.

Lemma points_scalar s : Forall unit16 s → Forall (λ cp, scalar cp = true) (code_points s).
Proof.
  induction s as [s IH] using (induction_ltof1 _ (@length Z)). unfold ltof in IH. intros Hu. destruct s as [|x s]; [constructor|].
  apply Forall_cons in Hu as [Hx Hs]. unfold unit16 in Hx. assert (Hr : scalar 65533 = true) by done.
  simpl. destruct (is_high x) eqn:Eh.
  - destruct s as [|y s]; [by constructor|]. pose proof Hs as [Hy Hs']%Forall_cons. destruct (is_low y) eqn:El.
    + constructor; [unfold scalar, in_range, is_high, is_low in *; lia|]. apply IH; [simpl; lia|done].
    + constructor; [done|]. apply (IH (y :: s)); [simpl; lia|done].
  - constructor; [destruct (is_low x) eqn:El; [done|unfold scalar, in_range, is_high, is_low in *; lia]|]. apply IH; [simpl; lia|done].
Qed.

Lemma encode_bytes s : Forall unit16 s → Forall byte (encode s).
Proof.
  intros Hs%points_scalar. unfold encode. induction Hs as [|cp cps Hcp _ IH]; [constructor|]. simpl. apply Forall_app. split; [|done].
  by apply encode_point_bytes.
Qed.

Lemma boundary_drop b start cut : boundary b cut → start ≤ cut → boundary (drop start b) (cut - start).
Proof.
  intros [Hl Hc] Hle. split; [rewrite length_drop; lia|]. intros x. rewrite lookup_drop. replace (start + (cut - start)) with cut by lia. apply Hc.
Qed.

Section snaps.
Context (bytes : list Z) (u : list Z) (Hbytes : Forall byte bytes) (Hdec : decode bytes = Some u).

Lemma bytes_pos : Forall (λ x, 0 ≤ x)%Z bytes.
Proof using Hbytes. eapply Forall_impl; [exact Hbytes|]. by intros x [? _]. Qed.

Lemma boundary_0 : boundary bytes 0.
Proof using All.
  split; [lia|]. intros x Hx. destruct (decide (bytes = [])) as [E|Hne]; [by rewrite E in Hx|].
  destruct (decode_step bytes u bytes_pos Hne Hdec) as (cp & r & u' & Hs & E & _). rewrite E in Hx.
  pose proof (encode_point_length cp). rewrite lookup_app_l in Hx by lia. by eapply encode_point_head.
Qed.

Lemma boundary_end : boundary bytes (length bytes).
Proof. split; [lia|]. intros x Hx. apply lookup_lt_Some in Hx. lia. Qed.

Lemma snap_spec i : i ≤ length bytes →
  boundary bytes (snap_back bytes i) ∧ snap_back bytes i ≤ i ∧ ∀ j, boundary bytes j → j ≤ i → j ≤ snap_back bytes i.
Proof using All.
  induction i as [|i IH]; intros Hi; [simpl; split; [apply boundary_0|]; split; [lia|done]|]. cbn [snap_back].
  assert (Hcont : ∀ x, bytes !! S i = Some x → continues (Some x) = is_continuation x).
  { intros x Hx. apply continues_byte. eapply Forall_lookup_1; [exact Hbytes|exact Hx]. }
  case_decide as Hlt; [|split; [split; [done|]|split; [lia|done]]; intros x Hx; apply lookup_lt_Some in Hx; lia].
  destruct (lookup_lt_is_Some_2 bytes (S i) Hlt) as [x Hx]. rewrite Hx, (Hcont x Hx). destruct (is_continuation x) eqn:Ec.
  - destruct IH as (Hb & Hle & Hmax); [lia|]. split; [done|]. split; [lia|]. intros j Hj Hji. apply Hmax; [done|].
    destruct (decide (j = S i)) as [->|]; [|lia]. destruct Hj as [_ Hj]. by rewrite (Hj x Hx) in Ec.
  - split; [|split; [lia|done]]. split; [done|]. intros x' Hx'. congruence.
Qed.

Lemma snap_boundary i : boundary bytes i → snapToCodepointStart bytes (Z.of_nat i) = i.
Proof using All.
  intros [Hi Hc]. unfold snapToCodepointStart. replace (Z.to_nat _) with i by lia. destruct (snap_spec i Hi) as (_ & Hle & Hmax).
  specialize (Hmax i (conj Hi Hc) ltac:(lia)). lia.
Qed.

Lemma snap_of offset : snapToCodepointStart bytes offset = snap_back bytes (Z.to_nat (Z.min (Z.max offset 0) (Z.of_nat (length bytes)))) ∧
  Z.to_nat (Z.min (Z.max offset 0) (Z.of_nat (length bytes))) ≤ length bytes.
Proof. split; [done|lia]. Qed.
End snaps.

(** ** Pages put together *)

(** ** The size of a reply on the wire *)

Section wire.
(** The bytes of a text as the contents of a JSON string. *)
Definition cost (s : list Z) : nat := length (encode (json_chars s)).

Lemma small_clean s : Forall (λ x, x < 55296)%Z s → hasLoneSurrogate s = false.
Proof.
  induction 1 as [|x s Hx _ IH]; [done|]. cbn [hasLoneSurrogate]. unfold is_high, is_low.
  replace (55296 <=? x)%Z with false by lia. replace (56320 <=? x)%Z with false by lia. done.
Qed.

Lemma lit_clean s : hasLoneSurrogate (lit s) = false.
Proof.
  apply small_clean. unfold lit, bytes_of. apply Forall_fmap, Forall_true. intros a. simpl.
  pose proof (N_ascii_bounded a). lia.
Qed.

Lemma hex_small n : (hex_digit (n mod 16) < 55296)%Z.
Proof. unfold hex_digit. pose proof (Z.mod_pos_bound n 16 ltac:(lia)). case_match; lia. Qed.

Lemma escape_clean x : hasLoneSurrogate (unicode_escape x) = false.
Proof. apply small_clean. unfold unicode_escape. repeat (constructor; [first [lia|apply hex_small]|]). constructor. Qed.

Lemma json_char_clean x : is_high x = false → is_low x = false → hasLoneSurrogate (json_char x) = false.
Proof.
  intros Hh Hl. unfold json_char. repeat (case_match; [first [done|apply escape_clean]|]). cbn [hasLoneSurrogate]. by rewrite Hh, Hl.
Qed.

Lemma json_chars_clean s : hasLoneSurrogate (json_chars s) = false.
Proof.
  induction s as [s IH] using (induction_ltof1 _ (@length Z)). unfold ltof in IH. destruct s as [|x s]; [done|]. cbn [json_chars].
  destruct (is_high x) eqn:Eh.
  - destruct s as [|y s]; [apply escape_clean|]. destruct (is_low y) eqn:El.
    + cbn [hasLoneSurrogate]. rewrite Eh, El. apply IH. simpl. lia.
    + apply lone_join; [apply escape_clean|]. apply IH. simpl. lia.
  - destruct (is_low x) eqn:El; (apply lone_join; [first [apply escape_clean|by apply json_char_clean]|]; apply IH; simpl; lia).
Qed.

Lemma json_chars_app a b : hasLoneSurrogate a = false → json_chars (a ++ b) = json_chars a ++ json_chars b.
Proof.
  induction a as [a IH] using (induction_ltof1 _ (@length Z)). unfold ltof in IH. destruct a as [|x a]; [done|].
  cbn [hasLoneSurrogate app json_chars]. destruct (is_high x) eqn:Eh.
  - destruct a as [|y a]; [done|]. cbn [app]. destruct (is_low y) eqn:El; [|done]. intros Ha.
    rewrite IH; [done|simpl; lia|done].
  - destruct (is_low x); [done|]. intros Ha. rewrite IH; [by rewrite app_assoc|simpl; lia|done].
Qed.

Lemma cost_app a b : hasLoneSurrogate a = false → cost (a ++ b) = cost a + cost b.
Proof. intros Ha. unfold cost. rewrite json_chars_app by done. rewrite encode_app by apply json_chars_clean. by rewrite length_app. Qed.

Lemma jsonSize_cost s : jsonSize s = cost s.
Proof.
  unfold jsonSize, json_string, cost. rewrite encode_app by done. rewrite encode_app by apply json_chars_clean.
  rewrite !length_app. simpl. lia.
Qed.

(** *** Numbers *)

Lemma pretty_go_length x s : String.length (pretty_N_go x s) = String.length (pretty_N_go x EmptyString) + String.length s.
Proof.
  revert s. induction (N.lt_wf_0 x) as [x _ IH]; intros s. destruct (decide (x = 0)%N) as [->|Hx]; [done|].
  rewrite !(pretty_N_go_step x) by lia. rewrite (IH (x `div` 10)%N) by (apply N.div_lt; lia).
  rewrite (IH (x `div` 10)%N) with (s := String _ EmptyString) by (apply N.div_lt; lia). simpl. lia.
Qed.

Definition digits (x : N) : nat := String.length (pretty_N_go x EmptyString).

Lemma digits_step x : (0 < x)%N → digits x = S (digits (x `div` 10)).
Proof. intros Hx. unfold digits. rewrite pretty_N_go_step by done. rewrite pretty_go_length. simpl. lia. Qed.

Lemma digits_succ x : digits (x + 1) ≤ S (digits x).
Proof.
  induction (N.lt_wf_0 x) as [x _ IH]. destruct (decide (x = 0)%N) as [->|Hx]; [vm_compute; lia|].
  rewrite (digits_step (x + 1)), (digits_step x) by lia.
  assert (((x + 1) `div` 10 = x `div` 10) ∨ ((x + 1) `div` 10 = x `div` 10 + 1))%N as [->| ->].
  { pose proof (N.div_mod x 10 ltac:(lia)). pose proof (N.mod_lt x 10 ltac:(lia)).
    destruct (decide (x mod 10 = 9)%N) as [E|E].
    - right. symmetry. apply (N.div_unique _ _ _ 0); lia.
    - left. symmetry. apply (N.div_unique _ _ _ (x mod 10 + 1)); lia. }
  - lia.
  - specialize (IH (x `div` 10)%N ltac:(apply N.div_lt; lia)). lia.
Qed.

Lemma decimal_cost s : Forall (λ x, 48 ≤ x ≤ 57)%Z s → cost s = length s.
Proof.
  induction 1 as [|x s Hx Hs IH]; [done|]. change (x :: s) with ([x] ++ s). rewrite cost_app, IH.
  - assert (x = 48 ∨ x = 49 ∨ x = 50 ∨ x = 51 ∨ x = 52 ∨ x = 53 ∨ x = 54 ∨ x = 55 ∨ x = 56 ∨ x = 57)%Z as Hc by lia.
    by repeat destruct Hc as [->|Hc]; subst.
  - apply small_clean. repeat constructor. lia.
Qed.

Lemma go_decimal x s : Forall (λ x, 48 ≤ x ≤ 57)%Z (lit s) → Forall (λ x, 48 ≤ x ≤ 57)%Z (lit (pretty_N_go x s)).
Proof.
  revert s. induction (N.lt_wf_0 x) as [x _ IH]; intros s Hs. destruct (decide (x = 0)%N) as [->|Hx]; [done|].
  rewrite pretty_N_go_step by lia. apply IH; [apply N.div_lt; lia|]. constructor; [|done].
  unfold pretty_N_char. repeat case_match; vm_compute; done.
Qed.

Lemma lit_length s : length (lit s) = String.length s.
Proof. unfold lit, bytes_of. rewrite length_fmap. induction s as [|a s IH]; [done|]. simpl. by rewrite IH. Qed.

Lemma number_cost n : cost (json_number n) = Nat.max 1 (digits (N.of_nat n)).
Proof.
  unfold json_number, pretty, pretty_nat, pretty, pretty_N. case_decide as E; [rewrite E; done|].
  rewrite decimal_cost by (apply go_decimal; constructor). rewrite lit_length. fold (digits (N.of_nat n)).
  pose proof (digits_step (N.of_nat n) ltac:(lia)). lia.
Qed.

Lemma number_cost_add n k : cost (json_number (n + k)) ≤ cost (json_number n) + k.
Proof.
  rewrite !number_cost. induction k as [|k IH]; [rewrite Nat.add_0_r; lia|].
  pose proof (digits_succ (N.of_nat (n + k))) as Hs. replace (N.of_nat (n + k) + 1)%N with (N.of_nat (n + S k)) in Hs by lia. lia.
Qed.

(** *** Contents *)

Lemma ascii_cost x : (0 ≤ x < 128)%Z → cost (json_chars [x]) ≤ 7.
Proof.
  intros Hx. assert (Hall : forallb (λ n, Nat.leb (cost (json_chars [Z.of_nat n])) 7) (seq 0 128) = true) by (by vm_compute).
  rewrite forallb_forall in Hall. specialize (Hall (Z.to_nat x)). rewrite Z2Nat.id in Hall by lia.
  apply Nat.leb_le, Hall, in_seq. lia.
Qed.

Lemma point_json cp : scalar cp = true → (128 ≤ cp)%Z → json_chars (units_of cp) = units_of cp.
Proof.
  unfold scalar, in_range, units_of. intros Hs Hc. case_match eqn:E.
  - cbn [json_chars]. unfold is_high, is_low, json_char.
    repeat match goal with |- context [if ?c then _ else _] => replace c with false by lia end. done.
  - pose proof (Z.div_mod (cp - 65536) 1024 ltac:(lia)). pose proof (Z.mod_pos_bound (cp - 65536) 1024 ltac:(lia)).
    assert (0 ≤ (cp - 65536) / 1024 < 1024)%Z by (split; [apply Z.div_pos|apply Z.div_lt_upper_bound]; lia).
    cbn [json_chars]. unfold is_high, is_low. repeat match goal with |- context [if ?c then _ else _] => replace c with true by lia end. done.
Qed.

Lemma point_cost cp : scalar cp = true → cost (json_chars (units_of cp)) ≤ 7 * length (encode_point cp).
Proof.
  intros Hs. pose proof (encode_point_length cp). destruct (decide (cp < 128)%Z) as [Hc|Hc].
  - replace (units_of cp) with [cp] by (unfold units_of; by replace (cp <? 65536)%Z with true by lia).
    pose proof (ascii_cost cp). unfold scalar, in_range in Hs. lia.
  - rewrite point_json by (done || lia). unfold cost. rewrite point_json by (done || lia).
    rewrite <- (app_nil_r (units_of cp)), encode_scalar by done. rewrite length_app. simpl. lia.
Qed.

Lemma content_cost b u : Forall (λ x, 0 ≤ x)%Z b → decode b = Some u → cost (json_chars u) ≤ 7 * length b.
Proof.
  revert b u. apply decode_ind; [done|]. intros cp r u Hs _ _ IH.
  rewrite json_chars_app by apply (units_scalar cp [] Hs). rewrite cost_app by apply json_chars_clean.
  rewrite length_app. pose proof (point_cost cp Hs). lia.
Qed.

(** *** Replies *)

Definition before (r : Reply) : list Z :=
  lit "{" ++ json_key "ok" ++ lit "true," ++ json_key "path" ++ json_string (default [] (decode (bytes_of (rp_path r)))) ++ lit "," ++
  json_key "content" ++ QUOTE.

Definition between (r : Reply) : list Z :=
  QUOTE ++ lit "," ++ json_key "size" ++ json_number (rp_size r) ++ lit "," ++
  json_key "totalLines" ++ json_number (rp_totalLines r) ++ lit "," ++ json_key "firstLine" ++ json_number (rp_firstLine r) ++ lit "," ++
  json_key "truncated".

Definition after (next : option nat) : list Z :=
  match next with
  | None => lit "false"
  | Some next => lit "true," ++ json_key "nextByteOffset" ++ json_number next
  end ++ lit "}".

Ltac clean := repeat apply lone_join; first [apply lit_clean | apply json_chars_clean | done].

Lemma render_cost r : cost (render r) = cost (before r) + cost (json_chars (rp_content r)) + cost (between r) + cost (after (rp_nextByteOffset r)).
Proof.
  assert (render r = before r ++ json_chars (rp_content r) ++ between r ++ after (rp_nextByteOffset r)) as ->.
  { unfold render, before, between, after, json_string, QUOTE. by rewrite <- !app_assoc. }
  rewrite (cost_app (before r)) by (unfold before, json_key, json_string, QUOTE; clean).
  rewrite (cost_app (json_chars _)) by clean.
  rewrite (cost_app (between r)) by (unfold between, json_key, json_number, QUOTE; clean). lia.
Qed.

Lemma after_cost next : cost (after (Some next)) = 25 + cost (json_number next).
Proof.
  unfold after. rewrite <- !app_assoc. rewrite (cost_app (lit _)), (cost_app (json_key _)), (cost_app (json_number _)) by (unfold json_number, json_key, QUOTE; clean).
  change (cost (lit "true,")) with 5. change (cost (json_key "nextByteOffset")) with 19. change (cost (lit "}")) with 1. lia.
Qed.

End wire.

Section complete.
Context (MAX : nat) (scale : nat → nat → nat → nat) (path : string) (size : nat).

(** A caller that asks again with the offset it was given, until a page is the
    last one. *)
Fixpoint read_pages (fuel : nat) (text : list Z) (args : ReadArgs) : option (option (list Reply)) :=
  match fuel with
  | O => None
  | S fuel' =>
      match read_page MAX scale path size text args with
      | None => Some None
      | Some r =>
          match rp_nextByteOffset r with
          | None => Some (Some [r])
          | Some next =>
              match read_pages fuel' text (mkReadArgs (ra_offset args) (ra_limit args) (Some (Z.of_nat next))) with
              | Some (Some rs) => Some (Some (r :: rs))
              | o => o
              end
          end
      end
  end.

Section text.
Context (text : list Z) (args : ReadArgs) (Hunits : Forall unit16 text) (Hlone : hasLoneSurrogate text = false) (Hargs : positive_args args).

Abbreviation B := (selectedBytes text args).

Lemma selected_text : Forall unit16 (selected text args) ∧ hasLoneSurrogate (selected text args) = false.
Proof using All.
  split.
  - unfold selected, text_slice. destruct (paging args); [|done]. apply Forall_take. by apply Forall_drop.
  - rewrite selected_wanted by done. apply join_lone; [done|]. unfold wanted.
    assert (Hc : Forall (λ p, hasLoneSurrogate p = false) (lines text)) by (by apply cut_lone).
    apply (Forall_drop _ (firstLine args - 1)) in Hc. destruct (ra_limit args); [by apply Forall_take|done].
Qed.

Lemma B_bytes : Forall byte B.
Proof using All. apply encode_bytes, selected_text. Qed.

Lemma B_text : decode B = Some (selected text args).
Proof using All. destruct selected_text. by apply decode_encode. Qed.

(** The loop ends at a character, with a reply that fits or with nothing. *)
Lemma shrink_spec fuel start finish : boundary B start → boundary B finish → start ≤ finish → finish - start < fuel →
  let f := shrink MAX scale path size text args fuel start finish in
  boundary B f ∧ start ≤ f ≤ finish ∧ (f = start ∨ jsonSize (render (replyFor path size text args start f)) ≤ MAX).
Proof using All.
  revert finish. induction fuel as [|fuel IH]; intros finish Hs Hf Hle Hfuel; [lia|]. cbn [shrink].
  set (sz := jsonSize (render (replyFor path size text args start finish))). case_decide as Hd.
  - destruct (snap_of B (Z.of_nat (Nat.min (start + Nat.max 1 (scale (finish - start) MAX sz)) (finish - 1)))) as [-> Hi].
    set (i := Z.to_nat _) in *. destruct (snap_spec B _ B_bytes B_text i Hi) as (Hb & Hle' & Hmax).
    destruct Hf as [Hfl _]. specialize (Hmax start Hs ltac:(lia)).
    destruct (IH (snap_back B i) Hs Hb Hmax) as (? & ? & ?); [lia|]. split; [done|]. split; [lia|done].
  - split; [done|]. split; [lia|]. destruct (decide (finish = start)) as [|Hne]; [by left|right]. lia.
Qed.

Lemma text_slice_drop start finish : start ≤ finish → drop start B = text_slice B start finish ++ drop finish B.
Proof. intros Hle. unfold text_slice. rewrite <- (take_drop (finish - start) (drop start B)) at 1. rewrite drop_drop. do 2 f_equal. lia. Qed.

(** The text between two characters. *)
Lemma slice_text start cut : boundary B start → boundary B cut → start ≤ cut → ∃ u, decode (text_slice B start cut) = Some u.
Proof using All.
  intros Hs Hc Hle. pose proof (bytes_pos B B_bytes) as Hpos. destruct (decode_cut B _ start Hpos B_text Hs) as (u0 & u & _ & Hu & _).
  assert (Hb : boundary (drop start B) (cut - start)) by (by apply boundary_drop).
  destruct (decode_cut (drop start B) u (cut - start) (Forall_drop _ _ _ Hpos) Hu Hb) as (u1 & ? & H1 & _). by exists u1.
Qed.

(** A reply grows by at most eight bytes for every byte of the page. *)
Lemma reply_growth start cut : boundary B start → boundary B cut → start ≤ cut → start < length B →
  jsonSize (render (replyFor path size text args start cut)) ≤ jsonSize (render (replyFor path size text args start start)) + 8 * (cut - start).
Proof using All.
  intros Hs Hc Hle Hlt. rewrite !jsonSize_cost, !render_cost. pose proof (bytes_pos B B_bytes) as Hpos.
  change (before (replyFor path size text args start cut)) with (before (replyFor path size text args start start)).
  change (between (replyFor path size text args start cut)) with (between (replyFor path size text args start start)).
  assert (Hcontent : cost (json_chars (rp_content (replyFor path size text args start cut))) ≤ 7 * (cut - start)).
  { destruct (slice_text start cut Hs Hc Hle) as [u Hu]. unfold replyFor. cbn [rp_content]. rewrite Hu. simpl default.
    pose proof (content_cost _ _ (Forall_take _ _ _ (Forall_drop _ _ _ Hpos)) Hu) as Hcost.
    unfold text_slice in Hcost. rewrite length_take in Hcost. lia. }
  assert (Hnext : cost (after (rp_nextByteOffset (replyFor path size text args start cut)))
    ≤ cost (after (rp_nextByteOffset (replyFor path size text args start start))) + (cut - start)).
  { unfold replyFor. cbn [rp_nextByteOffset]. rewrite (decide_True (P := start < _)) by done. rewrite after_cost. case_decide.
    - rewrite after_cost. pose proof (number_cost_add (selectionStart text args + start) (cut - start)) as Hn.
      replace (selectionStart text args + start + (cut - start)) with (selectionStart text args + cut) in Hn by lia. lia.
    - change (cost (after None)) with 6. lia. }
  lia.
Qed.

(** The character after a boundary ends within four bytes. *)
Lemma next_boundary start : boundary B start → start < length B → ∃ next, boundary B next ∧ start < next ≤ start + 4.
Proof using All.
  intros Hb Hlt. pose proof (bytes_pos B B_bytes) as Hpos. destruct (decode_cut B _ start Hpos B_text Hb) as (u0 & u & _ & Hu & _).
  assert (Hne : drop start B ≠ []) by (intros E; apply (f_equal length) in E; rewrite length_drop in E; simpl in E; lia).
  destruct (decode_step _ u (Forall_drop _ _ _ Hpos) Hne Hu) as (cp & r & u' & Hs & E & Hr & _).
  pose proof (encode_point_length cp). exists (start + length (encode_point cp)).
  assert (length (drop start B) = length (encode_point cp) + length r) as El by (rewrite E, length_app; done). rewrite length_drop in El.
  split; [split; [lia|]|].
  - intros x Hx. rewrite <- lookup_drop, E, lookup_app_r in Hx by lia. rewrite Nat.sub_diag in Hx.
    assert (Hpr : Forall (λ x, 0 ≤ x)%Z r) by (apply (Forall_drop _ start) in Hpos; rewrite E in Hpos; by apply Forall_app in Hpos as []).
    destruct r as [|x' r]; [done|]. destruct (decode_step _ u' Hpr ltac:(done) Hr) as (cp' & r' & ? & Hs' & E' & _).
    apply (encode_point_head cp' x Hs'). rewrite E' in Hx. rewrite lookup_app_l in Hx; [done|apply encode_point_length].
  - split; [lia|]. unfold encode_point. repeat case_match; simpl; lia.
Qed.

(** A budget with room for one more character: 32 bytes beside the envelope, and
    a quotient whose rounding never loses a whole byte. *)
Definition roomy : Prop :=
  160 < MAX ∧ (∀ n a b k, 0 < b → k * b < n * a → k ≤ scale n a b) ∧
  ∀ start, boundary B start → jsonSize (render (replyFor path size text args start start)) + 32 ≤ MAX.

Lemma snap_past start i : boundary B start → start < length B → start + 4 ≤ i → i ≤ length B → start < snap_back B i.
Proof using All.
  intros Hs Hlt Hi Hl. destruct (next_boundary start Hs Hlt) as (next & Hn & Hr).
  destruct (snap_spec B _ B_bytes B_text i Hl) as (_ & _ & Hmax). specialize (Hmax next Hn ltac:(lia)). lia.
Qed.

Lemma shrink_progress fuel start finish : roomy → boundary B start → boundary B finish → start < finish →
  start < shrink MAX scale path size text args fuel start finish.
Proof using All.
  intros (Hmax & Hscale & Henv). revert finish. induction fuel as [|fuel IH]; intros finish Hs Hf Hlt; [done|]. cbn [shrink].
  set (sz := jsonSize (render (replyFor path size text args start finish))). case_decide as Hd; [|done]. pose proof Hf as [Hfl _].
  pose proof (reply_growth start finish Hs Hf ltac:(lia) ltac:(lia)) as Hg. specialize (Henv start Hs).
  assert (Hfar : 5 ≤ finish - start) by lia. assert (4 ≤ scale (finish - start) MAX sz) by (apply Hscale; nia).
  destruct (snap_of B (Z.of_nat (Nat.min (start + Nat.max 1 (scale (finish - start) MAX sz)) (finish - 1)))) as [-> Hi].
  set (i := Z.to_nat _) in *. apply IH; [done|apply (snap_spec B _ B_bytes B_text i Hi)|apply snap_past; [done|lia..]].
Qed.

(** One page from a character on. *)
Lemma page_spec start b : boundary B start →
  ra_byteOffset (mkReadArgs (ra_offset args) (ra_limit args) b) = b →
  snapToCodepointStart B (match b with None => 0 | Some b => b - Z.of_nat (selectionStart text args) end)%Z = start →
  match read_page MAX scale path size text (mkReadArgs (ra_offset args) (ra_limit args) b) with
  | None => ¬ roomy
  | Some r => jsonSize (render r) ≤ MAX ∧ ∃ finish u1 u2, boundary B finish ∧ start ≤ finish ≤ length B ∧
      (start < finish ∨ start = length B) ∧ decode (drop start B) = Some (u1 ++ u2) ∧ decode (drop finish B) = Some u2 ∧ rp_content r = u1 ∧
      rp_nextByteOffset r = if decide (finish < length B) then Some (selectionStart text args + finish) else None
  end.
Proof using All.
  intros Hb _ Hstart. unfold read_page. cbn [ra_byteOffset].
  change (selectedBytes text (mkReadArgs (ra_offset args) (ra_limit args) b)) with B.
  change (selectionStart text (mkReadArgs (ra_offset args) (ra_limit args) b)) with (selectionStart text args). rewrite Hstart.
  change (replyFor path size text (mkReadArgs (ra_offset args) (ra_limit args) b)) with (replyFor path size text args).
  case_decide as Hsmall. { intros (_ & _ & Henv). specialize (Henv start Hb). lia. } pose proof Hb as [Hsl _].
  destruct (snap_of B (Z.of_nat (Nat.min (start + MAX) (length B)))) as [-> Hi]. set (i := Z.to_nat _) in *.
  destruct (snap_spec B _ B_bytes B_text i Hi) as (Hfb & Hfl & Hmax). specialize (Hmax start Hb ltac:(lia)).
  set (finish := snap_back B i) in *.
  replace (shrink MAX scale path size text (mkReadArgs (ra_offset args) (ra_limit args) b)) with (shrink MAX scale path size text args) by done.
  destruct (shrink_spec (S (finish - start)) start finish Hb Hfb Hmax ltac:(lia)) as (Hb' & Hr & Hfit).
  set (f := shrink MAX scale path size text args (S (finish - start)) start finish) in *.
  case_decide as Hstuck.
  { intros Hroom. assert (start < f); [|lia]. apply shrink_progress; [done..|].
    destruct (next_boundary start Hb ltac:(lia)) as (next & Hn & Hnext). destruct Hn as [Hnl Hn].
    assert (next ≤ finish); [|lia]. destruct (snap_spec B _ B_bytes B_text i Hi) as (_ & _ & Hge). apply Hge; [done|]. destruct Hroom as [? _]. lia. }
  pose proof Hb' as [Hfl' _].
  split. { destruct Hfit as [E|Hfit]; [|done]. rewrite E. lia. }
  pose proof (bytes_pos B B_bytes) as Hpos.
  destruct (decode_cut B _ start Hpos B_text Hb) as (u0 & u & _ & Hu & _).
  assert (Hbd : boundary (drop start B) (f - start)).
  { apply boundary_drop; [done|lia]. }
  destruct (decode_cut (drop start B) u (f - start) (Forall_drop _ _ _ Hpos) Hu Hbd) as (u1 & u2 & H1 & H2 & ->).
  rewrite drop_drop in H2. replace (start + (f - start)) with f in H2 by lia.
  exists f, u1, u2. split; [done|]. split; [lia|]. split; [destruct (decide (f = start)); [right|left]; lia|].
  split; [done|]. split; [done|]. split; [|done]. unfold replyFor, text_slice. simpl. by rewrite H1.
Qed.

Lemma pages_from fuel start b : boundary B start →
  snapToCodepointStart B (match b with None => 0 | Some b => b - Z.of_nat (selectionStart text args) end)%Z = start →
  length B - start < fuel →
  ∃ out, read_pages fuel text (mkReadArgs (ra_offset args) (ra_limit args) b) = Some out ∧
    (roomy → is_Some out) ∧
    ∀ rs, out = Some rs → Forall (λ r, jsonSize (render r) ≤ MAX) rs ∧ decode (drop start B) = Some (concat (rp_content <$> rs)).
Proof using All.
  revert start b. induction fuel as [|fuel IH]; intros start b Hb Hs Hfuel; [lia|]. cbn [read_pages ra_offset ra_limit].
  pose proof (page_spec start b Hb eq_refl Hs) as Hp. destruct (read_page MAX scale path size text _) as [r|]; [|by exists None].
  destruct Hp as (Hfit & f & u1 & u2 & Hf & Hr & Hprog & Hd & Hd2 & Hc & Hn). rewrite Hn. case_decide as Hlt.
  - destruct (IH f (Some (Z.of_nat (selectionStart text args + f)))) as (out & -> & Hroom & Hout); [done| |lia|].
    { replace (Z.of_nat (selectionStart text args + f) - Z.of_nat (selectionStart text args))%Z with (Z.of_nat f) by lia.
      by apply (snap_boundary B _ B_bytes B_text). }
    destruct out as [rs|]; [|by exists None]. eexists. split; [done|]. split; [done|]. intros rs' [= <-]. destruct (Hout rs eq_refl) as [Hall Hrest].
    split; [by constructor|]. rewrite Hd. rewrite Hrest in Hd2. injection Hd2 as <-. simpl. by rewrite Hc.
  - eexists. split; [done|]. split; [done|]. intros rs [= <-]. split; [by repeat constructor|]. rewrite Hd. simpl. rewrite app_nil_r, Hc.
    replace (drop f B) with (@nil Z) in Hd2 by (symmetry; apply drop_ge; lia). injection Hd2 as <-. by rewrite app_nil_r.
Qed.
End text.

(** C18: Paged reads lose nothing and end. A file that is text is decoded, lines
    of it are selected, and the caller follows the offsets of the replies: after
    at most as many calls as the selection has bytes, and one, it has the last
    page or a refusal. A refusal means the budget is too small: with room for one
    more character beside the envelope of every page there is none. Without one
    every reply fits the budget and the contents together are exactly the lines
    asked for, joined by line ends. *)
Theorem pages_complete bytes text args :
  Forall (λ b, 0 ≤ b)%Z bytes → decode bytes = Some text → positive_args args → ra_byteOffset args = None →
  ∃ out, read_pages (S (length (selectedBytes text args))) text args = Some out ∧
    (roomy text args → is_Some out) ∧
    ∀ rs, out = Some rs → Forall (λ r, jsonSize (render r) ≤ MAX) rs ∧
      concat (rp_content <$> rs) = join LINE_END (wanted text args).
Proof.
  intros Hb Hd Ha Hn. destruct (decode_sound bytes text Hb Hd) as [_ Hl]. pose proof (decode_units bytes text Hb Hd) as Hu.
  destruct args as [offset limit b]. simpl in Hn. subst b. set (args := mkReadArgs offset limit None) in *.
  pose proof (boundary_0 _ _ (B_bytes text args Hu Hl Ha) (B_text text args Hu Hl Ha)) as H0.
  destruct (pages_from text args Hu Hl Ha (S (length (selectedBytes text args))) 0 None) as (out & Hout & Hroom & Hrs); [done| |lia|].
  - by apply (snap_boundary _ _ (B_bytes text args Hu Hl Ha) (B_text text args Hu Hl Ha) 0).
  - exists out. split; [done|]. split; [done|]. intros rs ->. destruct (Hrs rs eq_refl) as [Hfit Hcat]. split; [done|].
    rewrite drop_0, (B_text text args Hu Hl Ha) in Hcat. injection Hcat as <-. by apply selected_wanted.
Qed.
End complete.

(** Twenty NULs, whose replies need seven bytes each, a line end and a character
    of four bytes: two pages under a budget of 200 bytes. *)
Definition demo_bytes : list Z := replicate 20 0%Z ++ [10; 240; 159; 152; 128]%Z.
Definition demo_text : list Z := default [] (decode demo_bytes).
Definition demo_args : ReadArgs := mkReadArgs None None None.
Definition demo_scale (n a b : nat) : nat := n * a / b.

Lemma demo_roomy : roomy 200 demo_scale "/f" 25 demo_text demo_args.
Proof.
  split; [lia|]. split.
  - intros n a b k Hb Hk. unfold demo_scale. apply Nat.div_le_lower_bound; lia.
  - intros start [Hl _]. change (length (selectedBytes demo_text demo_args)) with 25 in Hl.
    assert (Hall : forallb (λ start, Nat.leb (jsonSize (render (replyFor "/f" 25 demo_text demo_args start start)) + 32) 200) (seq 0 26) = true)
      by (vm_compute; done).
    rewrite forallb_forall in Hall. apply Nat.leb_le, Hall, in_seq. lia.
Qed.

Lemma pages_complete_witness : ∃ rs, read_pages 200 demo_scale "/f" 25 26 demo_text demo_args = Some (Some rs) ∧
  length rs = 2 ∧ concat (rp_content <$> rs) = demo_text.
Proof.
  destruct (pages_complete 200 demo_scale "/f" 25 demo_bytes demo_text demo_args) as (out & Hout & Hroom & Hall).
  - by repeat constructor.
  - by vm_compute.
  - split; [vm_compute; lia|done].
  - done.
  - destruct (Hroom demo_roomy) as [rs ->]. exists rs. destruct (Hall rs eq_refl) as [_ ->]. split; [done|]. split; [|by vm_compute].
    vm_compute in Hout. injection Hout as <-. done.
Defined.
