(* ===== verification/McpTools.v ===== *)
(** The tools of the MCP server that work on a sandbox (src/src/api/mcp/tools.ts),
    with the errors they answer (tool-errors.ts) and the wrapper that catches
    them (request-context.ts).

    A tool never throws: what goes wrong is a reply. The tools share the sessions
    of [Routes]; [file_read] is [FileRead]'s. The tools that create, list, change
    and delete sandboxes call the operations of [Sandboxes]. *)

From stdpp Require Import pretty.
From S2P Require Import Prelude Batch Breaker DistLock LockRuns Errors Paths Store Tree Dialect Lifecycle LoadPaths View Session Namespace Coherence Simulation Journal Invariant Mutate Handlers SqlFs Ingest IngestRows IngestSim IngestSound Scopes Machine Guarantees Isolation IngestOutcome Base64 Contents Exec ExecSound Readers ApiErrors SessionLock Executions Text Replace Edits Auth Routes Writes RoutesSound FileRead.

(** ** Replies *)

(** What a failure carries beside its message. *)
Record Extra := mkExtra { x_code : option string; x_path : option string; x_occurrences : option Z }.

Definition no_extra : Extra := mkExtra None None None.
Definition at_path (code path : string) : Extra := mkExtra (Some code) (Some path) None.

Inductive ToolReply :=
| TFailure (error : string) (extra : Extra)
| TExecFailure (stderr : string) (code : option string)
| TWorker (body : ErrorBody) (retryAfterMs : option Z)
| TWritten (path : string) (size : Z)
| TEdited (path : string) (replacements size : Z)
| TPage (reply : Reply)
| TExec (exitCode : Z) (timedOut : bool)
| TBatch (results : list BatchScriptResult)
| TIngested (count : Z)
| TExported (files : list (string * list Z)) (errors : list string).

(** [toolFailure] *)
Definition toolFailure (error : string) (extra : Extra) : ToolReply := TFailure error extra.

Section tools.
Context `{Config} `{Lru} (sanitize : string → string).

Definition errorCode (err : req_error) : option string := e_code (request_error err).

Definition safe_message (err : req_error) (fallback : string) : string := clientSafeErrorMessage sanitize (Some (request_error err)) fallback.

Definition metadataToolError (err : req_error) : ToolReply := toolFailure (safe_message err "internal error") no_extra.

Definition fileToolError (err : req_error) : ToolReply :=
  if decide (errorCode err = Some "FORBIDDEN") then toolFailure "forbidden" no_extra
  else if decide (errorCode err = Some "ENOENT") then toolFailure "sandbox not found" no_extra
  else toolFailure (safe_message err "Internal server error") no_extra.

Definition sandboxDeleteToolError (err : req_error) : ToolReply :=
  if decide (errorCode err = Some "FORBIDDEN") then toolFailure "forbidden" no_extra
  else if decide (errorCode err = Some "ENOENT") then toolFailure "sandbox not found" no_extra
  else metadataToolError err.

Definition executionToolError (err : req_error) : ToolReply :=
  if decide (errorCode err = Some "FORBIDDEN") then TExecFailure "forbidden" None
  else if decide (errorCode err = Some "ENOENT") then TExecFailure "sandbox not found" None
  else if decide (errorCode err = Some "EREADONLY_VIOLATION")
  then TExecFailure "EREADONLY_VIOLATION: readOnly script attempted to mutate the filesystem" (Some "EREADONLY_VIOLATION")
  else TExecFailure (safe_message err "internal error") None.

Definition batchToolError (err : req_error) : ToolReply :=
  if decide (errorCode err = Some "FORBIDDEN") then toolFailure "forbidden" no_extra
  else if decide (errorCode err = Some "ENOENT") then toolFailure "sandbox not found" no_extra
  else if decide (errorCode err = Some "EREADONLY_VIOLATION")
  then toolFailure "readOnly script attempted to mutate the filesystem" (mkExtra (Some "EREADONLY_VIOLATION") None None)
  else toolFailure "internal error" no_extra.

Definition ingestToolError (err : req_error) : ToolReply :=
  if decide (errorCode err = Some "FORBIDDEN") then toolFailure "forbidden" no_extra
  else if decide (errorCode err = Some "ENOENT") then toolFailure "sandbox not found" no_extra
  else if decide (errorCode err = Some "ENOTSUP") then toolFailure "internal error" no_extra
  else metadataToolError err.

Definition exportToolError (err : req_error) : ToolReply :=
  if decide (errorCode err = Some "FORBIDDEN") then toolFailure "forbidden" no_extra
  else if decide (errorCode err = Some "EEXPORT_TOO_LARGE")
  then toolFailure "export too large; narrow with basePath" (mkExtra (Some "EEXPORT_TOO_LARGE") None None)
  else if decide (errorCode err = Some "ENOENT") then toolFailure "sandbox not found" no_extra
  else metadataToolError err.

(** A worker's error is answered as such, any other by the tool. *)
Definition withWorkerToolContext (handler : reqM ToolReply) (onError : req_error → ToolReply) : reqM ToolReply :=
  catch handler (λ err, retM (match workerToolError sanitize (Some (request_error err)) with
                              | Some (body, retryAfterMs) => TWorker body retryAfterMs
                              | None => onError err
                              end)).

(** ** Files *)

Definition toAbsolute (path : string) : string := posixNormalizePath (if starts_with path "/" then path else "/" +:+ path).

Section files.
Context (MAX_READ_RESPONSE_BYTES : nat) (scale : nat → nat → nat → nat) (MAX_READ_FILE_BYTES MAX_EDIT_BYTES : Z).

Definition tool_file_read (v : Visit) (owner path : string) (args : ReadArgs) : reqM ToolReply :=
  let filePath := toAbsolute path in
  withWorkerToolContext
    (let* outcome := withOwnedSessionRead v owner (file_read MAX_READ_RESPONSE_BYTES scale MAX_READ_FILE_BYTES filePath args) in
     retM (match outcome with
           | FrNotFound => toolFailure "file not found" (at_path "ENOENT" filePath)
           | FrIsDir => toolFailure "path is a directory" (at_path "EISDIR" filePath)
           | FrNotText => toolFailure "file is not valid UTF-8 text" (at_path "NOT_TEXT" filePath)
           | FrTooLarge size => toolFailure ("file is " +:+ pretty size +:+ " bytes; exceeds the read limit (" +:+ pretty MAX_READ_FILE_BYTES +:+ ")")
                                  (at_path "PAYLOAD_TOO_LARGE" filePath)
           | FrBudgetTooSmall => toolFailure ("MAX_MCP_READ_RESPONSE_BYTES (" +:+ pretty MAX_READ_RESPONSE_BYTES +:+ ") is too small to hold a usable response for this path")
                                   (at_path "RESPONSE_BUDGET_TOO_SMALL" filePath)
           | FrOk reply => TPage reply
           end)) fileToolError.

Definition tool_file_write (v : Visit) (owner path : string) (content : list Z) : reqM ToolReply :=
  withWorkerToolContext
    (let filePath := toAbsolute path in
     let encoded := encode content in
     let size := byteLength encoded in
     if decide (MAX_EDIT_BYTES < size)
     then retM (toolFailure ("content is " +:+ pretty size +:+ " bytes; exceeds the write limit (" +:+ pretty MAX_EDIT_BYTES +:+ ")") (at_path "PAYLOAD_TOO_LARGE" filePath))
     else
       let* outcome := withOwnedSessionOrRehydrate v owner (writeFileAtPath (vi_lost v) (vi_ownerLost v) filePath (string_of encoded)) in
       retM (match outcome with
             | WriteIsDir => toolFailure "path is a directory" (at_path "EISDIR" filePath)
             | WriteOk => TWritten filePath size
             end)) fileToolError.

Definition tool_file_edit (v : Visit) (owner path : string) (req : EditRequest) : reqM ToolReply :=
  withWorkerToolContext
    (if decide (oldString req = newString req) then retM (toolFailure "oldString and newString must differ" no_extra)
     else
       let filePath := toAbsolute path in
       let* outcome := withOwnedSessionOrRehydrate v owner (editFile (vi_lost v) (vi_ownerLost v) filePath req MAX_EDIT_BYTES) in
       retM (match outcome with
             | EditNotFound => toolFailure "file not found" (at_path "ENOENT" filePath)
             | EditIsDir => toolFailure "path is a directory" (at_path "EISDIR" filePath)
             | EditBinary => toolFailure "file is not valid UTF-8 text" (at_path "EDIT_BINARY" filePath)
             | EditNoMatch => toolFailure "oldString does not appear in the file" (at_path "EDIT_NO_MATCH" filePath)
             | EditNotUnique count => toolFailure ("oldString appears " +:+ pretty count +:+ " times; pass replaceAll or include more context")
                                        (mkExtra (Some "EDIT_NOT_UNIQUE") (Some filePath) (Some count))
             | EditTooLarge => toolFailure "edited file exceeds the size limit" (at_path "PAYLOAD_TOO_LARGE" filePath)
             | EditLoneSurrogate => toolFailure "oldString and newString must be well-formed text; a lone surrogate matches half a character"
                                      (at_path "EDIT_LONE_SURROGATE" filePath)
             | EditOk replacements size => TEdited filePath replacements size
             end)) fileToolError.
End files.

(** ** Scripts *)

Record BashArgs := mkBashArgs { ba_script : string; ba_debug : bool; ba_readOnly : bool }.

(** The timer is [run]'s. *)
Definition tool_bash_exec (shell : string → option string → option (list (string * string)) → Script BashExecResult) (v : Visit) (owner : string) (run : ExecRun)
    (args : BashArgs) : reqM ToolReply :=
  withWorkerToolContext
    (let scriptToRun := if ba_debug args then wrapDebugScript (ba_script args) else ba_script args in
     let* result := runner v owner (ba_readOnly args) (exec_once (exec_env v run (ba_readOnly args)) run (shell scriptToRun None None)) in
     retM (match result with
           | ExecTimeout => TExec (-1) true
           | ExecDone result => TExec (exitCode result) false
           end)) executionToolError.

(** The schema has checked that there are one to fifty scripts. *)
Definition tool_bash_exec_batch (shell : string → option string → option (list (string * string)) → Script BashExecResult) (v : Visit) (owner : string)
    (course : BatchCourse) (scripts : list BatchScriptEntry) (readOnly : bool) : reqM ToolReply :=
  withWorkerToolContext
    (let* results := runner v owner readOnly (executeBatch shell course scripts) in
     retM (TBatch results)) batchToolError.

(** ** Ingest *)

(** [pre]: the owner in the metadata, then in the resident session; [prepared]:
    the manifest's errors, or what its payload becomes when it is materialised;
    [budget]: the worker message is too large. *)
Definition tool_fs_ingest (v : Visit) (owner : string) (pre : res req_error (option (option string)) * option string)
    (prepared : res string (res string (list BulkIngestFile))) (budget : option fs_error) : reqM ToolReply :=
  withWorkerToolContext
    (let* meta := lift_res pre.1 in
     let* recorded := match meta, pre.2 with
                      | Some recorded, _ => retM recorded
                      | None, Some recorded => retM (Some recorded)
                      | None, None => throw (RFs (Coded "ENOENT"))
                      end in
     if negb (isOwnedBy recorded owner) then throw (RFs createForbiddenError)
     else
       match prepared with
       | Err errors => retM (toolFailure errors no_extra)
       | Ok materialized =>
           match budget with
           | Some e => throw (RFs e)
           | None =>
               let* result := withOwnedSessionOrRehydrate v owner
                 (match materialized with
                  | Err errors => retM (Err errors)
                  | Ok bulkFiles => fs_bulkIngest bulkFiles ;;; retM (Ok (Z.of_nat (length bulkFiles)))
                  end) in
               retM (match result with Err errors => toolFailure errors no_extra | Ok count => TIngested count end)
           end
       end) ingestToolError.

(** ** Export *)

Record Export := mkExport { ex_total : Z; ex_files : list (string * list Z); ex_errors : list string }.

Definition DATA_URI : string := "data:application/octet-stream;base64,".

(** The text of a file, or its bytes as a data URI. *)
Definition export_value (buf : string) : list Z :=
  match decode (bytes_of buf) with
  | Some text => text
  | None => lit (DATA_URI +:+ encode64 buf)
  end.

Definition export_prefix (basePath : string) : string := if ends_with basePath "/" then basePath else basePath +:+ "/".

(** The reads of a batch end in any order: [completed] is it. *)
Definition export_one (MAX_EXPORT_BYTES : Z) (prefix absPath : string) (ex : Export) : sysM Export :=
  let* r := attempt (fs_readFileBuffer absPath) in
  match r with
  | Ok buf =>
      let totalBytes := ex_total ex + str_len buf in
      if decide (MAX_EXPORT_BYTES < totalBytes) then throw (Coded "EEXPORT_TOO_LARGE")
      else retM (mkExport totalBytes (jset (slice_from absPath (str_len prefix)) (export_value buf) (ex_files ex)) (ex_errors ex))
  | Err e =>
      if decide (error_code e = Some "EEXPORT_TOO_LARGE") then throw e
      else if decide (error_code e ≠ Some "EISDIR") then retM (mkExport (ex_total ex) (ex_files ex) (ex_errors ex ++ [absPath]))
      else retM ex
  end.

Fixpoint export_all (MAX_EXPORT_BYTES : Z) (prefix : string) (paths : list string) (ex : Export) : sysM Export :=
  match paths with
  | [] => retM ex
  | p :: rest => let* ex' := export_one MAX_EXPORT_BYTES prefix p ex in export_all MAX_EXPORT_BYTES prefix rest ex'
  end.

(** The loop over the batches; a batch has at least one path. *)
Fixpoint export_batches (fuel : nat) (MAX_EXPORT_BYTES : Z) (concurrency : nat) (completed : list string → list string) (prefix : string)
    (candidates : list string) (ex : Export) : sysM Export :=
  match candidates, fuel with
  | [], _ | _, O => retM ex
  | _, S fuel' =>
      let* ex' := export_all MAX_EXPORT_BYTES prefix (completed (take concurrency candidates)) ex in
      export_batches fuel' MAX_EXPORT_BYTES concurrency completed prefix (drop concurrency candidates) ex'
  end.

Definition export_body (MAX_EXPORT_FILES MAX_EXPORT_BYTES : Z) (concurrency : nat) (completed : list string → list string) (basePath : string) : sysM Export :=
  let* allPaths := fs_getAllPaths in
  let prefix := export_prefix basePath in
  let candidates := List.filter (λ p, starts_with p prefix) allPaths in
  if decide (MAX_EXPORT_FILES < Z.of_nat (length candidates)) then throw (Coded "EEXPORT_TOO_LARGE")
  else export_batches (length candidates) MAX_EXPORT_BYTES concurrency completed prefix candidates (mkExport 0 [] []).

Definition tool_fs_export (v : Visit) (owner : string) (MAX_EXPORT_FILES MAX_EXPORT_BYTES : Z) (concurrency : nat) (completed : list string → list string)
    (basePath : option string) : reqM ToolReply :=
  withWorkerToolContext
    (let* ex := withOwnedSessionOrRehydrate v owner
       (export_body MAX_EXPORT_FILES MAX_EXPORT_BYTES concurrency completed (default "/home/user" basePath)) in
     retM (TExported (ex_files ex) (ex_errors ex))) exportToolError.
End tools.

(** ** All of them *)

Record ToolLimits := mkToolLimits {
  MAX_READ_RESPONSE_BYTES : nat;
  MAX_READ_FILE_BYTES : Z;
  MAX_EDIT_BYTES : Z;
  MAX_EXPORT_FILES : Z;
  MAX_EXPORT_BYTES : Z;
  MAX_EXPORT_CONCURRENCY : nat;
}.

Inductive ToolCall :=
| CallRead (path : string) (args : ReadArgs)
| CallWrite (path : string) (content : list Z)
| CallEdit (path : string) (req : EditRequest)
| CallExec (run : ExecRun) (args : BashArgs)
| CallBatch (course : BatchCourse) (scripts : list BatchScriptEntry) (readOnly : bool)
| CallIngest (pre : res req_error (option (option string)) * option string) (prepared : res string (res string (list BulkIngestFile))) (budget : option fs_error)
| CallExport (completed : list string → list string) (basePath : option string).

Section calls.
Context `{Config} `{Lru} (sanitize : string → string) (scale : nat → nat → nat → nat).
Context (shell : string → option string → option (list (string * string)) → Script BashExecResult).

Definition call_tool (l : ToolLimits) (v : Visit) (owner : string) (call : ToolCall) : reqM ToolReply :=
  match call with
  | CallRead path args => tool_file_read sanitize (MAX_READ_RESPONSE_BYTES l) scale (MAX_READ_FILE_BYTES l) v owner path args
  | CallWrite path content => tool_file_write sanitize (MAX_EDIT_BYTES l) v owner path content
  | CallEdit path req => tool_file_edit sanitize (MAX_EDIT_BYTES l) v owner path req
  | CallExec run args => tool_bash_exec sanitize shell v owner run args
  | CallBatch course scripts readOnly => tool_bash_exec_batch sanitize shell v owner course scripts readOnly
  | CallIngest pre prepared budget => tool_fs_ingest sanitize v owner pre prepared budget
  | CallExport completed basePath => tool_fs_export sanitize v owner (MAX_EXPORT_FILES l) (MAX_EXPORT_BYTES l) (MAX_EXPORT_CONCURRENCY l) completed basePath
  end.

(** The answer of a tool to an error that is not a worker's. *)
Definition tool_error (call : ToolCall) : req_error → ToolReply :=
  match call with
  | CallRead _ _ | CallWrite _ _ | CallEdit _ _ => fileToolError sanitize
  | CallExec _ _ => executionToolError sanitize
  | CallBatch _ _ _ => batchToolError
  | CallIngest _ _ _ => ingestToolError sanitize
  | CallExport _ _ => exportToolError sanitize
  end.

Definition succeeded (reply : ToolReply) : bool :=
  match reply with TFailure _ _ | TExecFailure _ _ | TWorker _ _ => false | _ => true end.

Abbreviation unsuccessful := (λ reply, succeeded reply = false).

(** A failure that does not say the path is a directory. *)
Definition plain_failure (reply : ToolReply) : Prop :=
  succeeded reply = false ∧ match reply with TFailure _ extra => x_code extra ≠ Some "EISDIR" | _ => True end.

Lemma context_total (m : reqM ToolReply) onError q : ∃ reply q', withWorkerToolContext sanitize m onError q = (Ok reply, q').
Proof. unfold withWorkerToolContext, catch. destruct (m q) as [[reply|e] q1]; by eexists _, _. Qed.

Lemma errors_unsuccessful err :
  unsuccessful (fileToolError sanitize err) ∧ unsuccessful (executionToolError sanitize err) ∧ unsuccessful (batchToolError err) ∧
  unsuccessful (ingestToolError sanitize err) ∧ unsuccessful (exportToolError sanitize err).
Proof. unfold fileToolError, executionToolError, batchToolError, ingestToolError, exportToolError, metadataToolError. split_and!; repeat case_decide; done. Qed.

(** *** Only the owner *)

Lemma refuses_context (m : reqM ToolReply) onError :
  refuses unsuccessful m → (∀ e, unsuccessful (onError e)) → refuses unsuccessful (withWorkerToolContext sanitize m onError).
Proof.
  intros Hm He q r q' Hq. unfold withWorkerToolContext, catch. destruct (m q) as [[reply|e] q1] eqn:E; destruct (Hm _ _ _ Hq E) as [Hr Ht].
  - intros [= <- <-]. by split.
  - intros [= <- <-]. split; [|done]. repeat case_match; done.
Qed.

Lemma refuses_then {A} (op : reqM A) f : refuses (λ _, False) op → refuses unsuccessful (let* a := op in retM (f a)).
Proof.
  intros Hop q r q' Hq. unfold bindM. destruct (op q) as [[a|e] q1] eqn:E; destruct (Hop _ _ _ Hq E) as [Hr Ht]; [done|].
  intros [= <- <-]. by split.
Qed.

Lemma refuses_reply (reply : ToolReply) : unsuccessful reply → refuses unsuccessful (retM reply).
Proof. by intros Hr q r q' _ [= <- <-]. Qed.

Lemma refuses_thrown e : refuses unsuccessful (throw e).
Proof. by intros q r q' _ [= <- <-]. Qed.
Lemma refuses_lift {A} (r : res req_error A) k : (∀ a, refuses unsuccessful (k a)) → refuses unsuccessful (let* a := lift_res r in k a).
Proof. intros Hk. destruct r as [a|e]; [apply Hk|apply refuses_thrown]. Qed.

Lemma refuses_choice {A} (m : reqM A) k : (∃ r, m = lift_res r) → (∀ a, refuses unsuccessful (k a)) → refuses unsuccessful (bindM m k).
Proof. intros [r ->]. apply refuses_lift. Qed.

Lemma harmless_page maxBytes maxFile path args : harmless (file_read maxBytes scale maxFile path args).
Proof.
  apply harmless_bind; [apply harmless_stat|]. intros [stat|e]; [|case_decide; [apply harmless_ret|apply harmless_throw]].
  destruct (isDirectory stat); [apply harmless_ret|]. case_decide; [apply harmless_ret|].
  apply harmless_bind; [by apply harmless_reads, (reads_asked AString _ (QReadFile path))|].
  intros bytes. destruct (decode _); apply harmless_ret.
Qed.

Lemma refuses_tool (Hretire : hasRetire = true) l v owner call :
  (∀ o, session_owner v = Ok o → isOwnedBy (Some o) owner = false) → refuses unsuccessful (call_tool l v owner call).
Proof.
  intros Hother. destruct call; simpl; (apply refuses_context; [cbv zeta|intros e; apply errors_unsuccessful]).
  - apply refuses_then, refuses_read; [done..|apply harmless_page].
  - case_decide; [by apply refuses_reply|]. by apply refuses_then, refuses_write.
  - case_decide; [by apply refuses_reply|]. by apply refuses_then, refuses_write.
  - apply refuses_then. unfold runner. destruct (ba_readOnly args); [|by apply refuses_write].
    by apply refuses_read, harmless_exec_once.
  - apply refuses_then. unfold runner. destruct readOnly; [by apply refuses_read, harmless_batch|by apply refuses_write].
  - apply refuses_lift. intros meta. apply refuses_choice; [destruct meta, pre.2; by eauto|]. intros recorded. cbv beta.
    case_match; [apply refuses_thrown|]. destruct prepared as [materialized|errors]; [|by apply refuses_reply].
    destruct budget; [apply refuses_thrown|]. by apply refuses_then, refuses_write.
  - by apply refuses_then, refuses_write.
Qed.
(** *** A failure changes nothing *)

(** Neither an answer that is a plain failure nor an error has changed anything,
    but for the error that says that the work is done, when the lock is lost. *)
Definition steady (lost : bool) (m : reqM ToolReply) : Prop := ∀ q r q', resting q → m q = (r, q') →
  match r with Ok reply => plain_failure reply | Err e => lost = false ∨ e ≠ ELOCKLOST_APPLIED end → tree_same (s_db (q_sys q)) (s_db (q_sys q')).

Lemma steady_ret lost reply : steady lost (retM reply).
Proof. by intros q r q' _ [= <- <-]. Qed.

Lemma steady_throw lost e : steady lost (throw e).
Proof. by intros q r q' _ [= <- <-]. Qed.

Lemma steady_lift {A} lost (m : reqM A) k : (∃ r, m = lift_res r) → (∀ a, steady lost (k a)) → steady lost (bindM m k).
Proof. intros [[a|e] ->] Hk; [apply Hk|apply steady_throw]. Qed.

(** The wrapper: what is thrown becomes a reply. *)
Lemma steady_context lost m onError q reply q' : steady lost m → resting q → withWorkerToolContext sanitize m onError q = (Ok reply, q') →
  plain_failure reply → lost = false ∨ reply ≠ onError ELOCKLOST_APPLIED → tree_same (s_db (q_sys q)) (s_db (q_sys q')).
Proof.
  intros Hm Hq. unfold withWorkerToolContext, catch. destruct (m q) as [[reply1|e] q1] eqn:E; specialize (Hm _ _ _ Hq E).
  - intros [= <- <-] Hp _. by apply Hm.
  - intros [= <- <-] _ Hx. apply Hm. destruct Hx as [?|Hne]; [by left|right]. by intros ->.
Qed.

Lemma steady_write {A} (Hretire : hasRetire = true) v owner (bad : A → Prop) (fn : sysM A) f : atomic bad fn → (∀ a, plain_failure (f a) → bad a) →
  steady (lock_lost (vi_lock v)) (let* a := withOwnedSessionOrRehydrate v owner fn in retM (f a)).
Proof.
  intros Hfn Hf q r q' Hq. unfold bindM. destruct (withOwnedSessionOrRehydrate v owner fn q) as [r1 q1] eqn:E.
  pose proof (owned_write_calm Hretire v owner bad fn q r1 q1 Hfn Hq E) as Hc. destruct r1 as [a|e]; intros [= <- <-] Hp; [by apply Hc, Hf|by apply Hc].
Qed.

Lemma steady_read {A} (Hretire : hasRetire = true) lost v owner (fn : sysM A) f : harmless fn →
  steady lost (let* a := withOwnedSessionRead v owner fn in retM (f a)).
Proof.
  intros Hfn q r q' [Hs Hd]. unfold bindM. destruct (withOwnedSessionRead v owner fn q) as [r1 q1] eqn:E.
  destruct (owned_read_spec Hretire _ _ _ _ _ _ Hs Hd Hfn E) as [Ht _]. by destruct r1; intros [= <- <-].
Qed.

Lemma atomic_reads {A} (m : sysM A) : reads m → atomic (λ _, True) m.
Proof.
  intros Hm s r s' _ _ E. destruct (Hm s) as (Hd & _). rewrite E in Hd. simpl in Hd. rewrite Hd.
  assert (same_rows (s_db s) (s_db s)) by done. by destruct r.
Qed.

(** A pure answer after an atomic body. *)
Lemma atomic_then {A B} (bad : A → Prop) (m : sysM A) (f : A → B) : atomic bad m → atomic (λ b, ¬ ∃ a, b = f a) (let* a := m in retM (f a)).
Proof.
  intros Hm s r s' Hs Hp. unfold bindM. destruct (m s) as [r1 s1] eqn:E. specialize (Hm _ _ _ Hs Hp E).
  destruct r1 as [a|e]; intros [= <- <-]; [|done]. intros [Hn|Hv]; [destruct Hn; by eexists|]. apply Hm. by right.
Qed.

Lemma reads_export_all maxBytes prefix paths ex : reads (export_all maxBytes prefix paths ex).
Proof.
  revert ex. induction paths as [|p paths IH]; intros ex; simpl; [apply reads_ret|]. apply reads_bind; [|done].
  apply reads_bind; [by apply reads_attempt, (reads_asked AString _ (QReadFile p))|].
  intros [buf|e]; cbv zeta; repeat case_decide; first [apply reads_throw|apply reads_ret].
Qed.

Lemma reads_export maxFiles maxBytes concurrency completed basePath : reads (export_body maxFiles maxBytes concurrency completed basePath).
Proof.
  unfold export_body. apply reads_bind; [apply reads_bind; [apply reads_alive|]; intros _; apply reads_gets|]. intros paths. cbv zeta.
  case_decide; [apply reads_throw|]. generalize (length (List.filter (λ p, starts_with p (export_prefix basePath)) paths)) as fuel.
  generalize (mkExport 0 [] []) as ex. generalize (List.filter (λ p, starts_with p (export_prefix basePath)) paths) as cands.
  intros cands ex fuel. revert cands ex. induction fuel as [|fuel IH]; intros cands ex; destruct cands; simpl; try apply reads_ret.
  apply reads_bind; [apply reads_export_all|done].
Qed.

(** The script of an execution makes neither of the calls [op_safe] excludes, and a
    batch is read-only: the scripts of another commit one by one. *)
Definition safe_call (call : ToolCall) : Prop :=
  match call with
  | CallExec _ args => safe_script (shell (if ba_debug args then wrapDebugScript (ba_script args) else ba_script args) None None)
  | CallBatch _ _ readOnly => readOnly = true
  | _ => True
  end.

Lemma steady_tool (Hretire : hasRetire = true) l v owner call q reply q' : safe_call call → resting q →
  call_tool l v owner call q = (Ok reply, q') → plain_failure reply → lock_lost (vi_lock v) = false ∨ reply ≠ tool_error call ELOCKLOST_APPLIED →
  tree_same (s_db (q_sys q)) (s_db (q_sys q')).
Proof.
  intros Hsafe. destruct call; simpl; (apply steady_context; cbv zeta).
  - by apply steady_read, harmless_page.
  - case_decide; [apply steady_ret|]. eapply steady_write; [done|by apply atomic_tx, client_write_at|]. by intros [] [? ?].
  - case_decide; [apply steady_ret|]. eapply steady_write; [done|by apply atomic_edit|]. intros o [Ho _] (n & size & ->). done.
  - unfold runner. destruct (ba_readOnly args) eqn:Er; [by apply steady_read, harmless_exec_once|].
    eapply steady_write; [done|by apply atomic_exec|]. by intros [] [? ?].
  - simpl in Hsafe. subst readOnly. by apply steady_read, harmless_batch.
  - apply steady_lift; [by eexists|]. intros meta. apply steady_lift; [destruct meta, pre.2; by eauto|]. intros recorded.
    cbv beta. case_match; [apply steady_throw|]. destruct prepared as [materialized|errors]; [|apply steady_ret].
    destruct budget; [apply steady_throw|]. destruct materialized as [files|errors].
    + eapply steady_write; [done|eapply atomic_then; by apply atomic_ingest|]. intros [count|errors] [? ?]; [done|]. by intros [? ?].
    + eapply steady_write; [done|apply atomic_reads, reads_ret|]. done.
  - eapply steady_write; [done|apply atomic_reads, reads_export|]. done.
Qed.
End calls.

Section tool_guarantees.
Context `{Config} `{Lru} (sanitize : string → string) (scale : nat → nat → nat → nat).
Context (shell : string → option string → option (list (string * string)) → Script BashExecResult).

End tool_guarantees.

Section tool_witnesses.
#[local] Existing Instance demo_config.
#[local] Existing Instance lru_unbounded.

Definition demo_tool_limits : ToolLimits := mkToolLimits 400 100 100 10 100 2.

Definition demo_call (call : ToolCall) : res req_error ToolReply * Req :=
  call_tool id demo_scale demo_shell demo_tool_limits demo_visit "ada" call demo_req.

End tool_witnesses.
