(* ===== verification/ExportSound.v ===== *)
(** What [fs_export] returns: the files of the tree below a path, whatever is in
    the content cache and in whatever order the reads of a batch end. *)

From S2P Require Import Prelude Errors Paths Store Tree Dialect Lifecycle LoadPaths View Session Namespace Coherence Simulation Journal Invariant Mutate Handlers SqlFs Ingest IngestRows IngestSim IngestSound Scopes Machine Guarantees Isolation IngestOutcome Base64 Contents Exec ExecSound Readers ApiErrors Text Replace Edits Auth Routes RoutesSound FileRead McpTools.

Section export.
Context `{Config} `{Lru} (Hlru : LruLaws).

(** A session but for the bytes it has cached. *)
Definition with_cache (c : FileContents) (s : Sys) : Sys := on_view (set_contents c) s.

Definition uncached : Sys → Sys := with_cache (mkContents 0 []).

(** The bytes of an entry. *)
Definition stored (d : db) (e : PathCacheEntry) : string := default EmptyString (contentSha256 e ≫= λ sha, getBlobNoTx sha d).

(** Entries of one inode have one content, and what is cached is what is stored. *)
Record cache_true (s : Sys) : Prop := {
  ct_ok : view_ok (s_view s);
  ct_same p p' e e' : view_get p (s_view s) = Some e → view_get p' (s_view s) = Some e' → inodeId e = inodeId e' →
    contentSha256 e = contentSha256 e';
  ct_cached p e c : view_get p (s_view s) = Some e → jget (inodeId e) (contentCache (v_contents (s_view s))) = Some c → c = stored (s_db s) e;
}.

(** A session between requests, outside an execution. *)
Definition plain (s : Sys) : Prop := scriptScope (s_pers s) = false ∧ s_exec s = None.

Lemma set_db_same s : set_db (s_db s) s = s.
Proof. by destruct s. Qed.

(** The walk in the database looks neither at the cache nor at anything it could
    change. *)
Lemma resolve_frame path s : plain s → ∃ r : res fs_error (string * PathCacheEntry), (∀ c, resolve_in_db path (with_cache c s) = (r, with_cache c s)) ∧
  ∀ pe, r = Ok pe → pe ∈ v_entries (s_view s).
Proof.
  intros [Hsc _].
  exists (match (dialect_resolvePath path true (mkTx (s_db s) (Some sandboxId) None)).1 with
          | Err e => Err e
          | Ok id => match find_inode id (s_view s) with Some pe => Ok pe | None => Err (ENOENT path) end
          end).
  pose proof (resolve_tx_db path true (mkTx (s_db s) (Some sandboxId) None)) as Hdb. split.
  - intros c. unfold resolve_in_db, read. rewrite bindM_assoc.
    assert (Ha : assertAlive (with_cache c s) = (Ok tt, with_cache c s)) by (unfold assertAlive; simpl; by rewrite Hsc).
    rewrite (bindM_Ok _ _ _ _ _ Ha). unfold bindM, inTx, onTx. simpl. destruct (dialect_resolvePath path true _) as [[id|e] t]; simpl in *; [|done].
    rewrite Hdb. change (s_db s) with (s_db (with_cache c s)). rewrite set_db_same.
    change (find_inode id (set_contents c (s_view s))) with (find_inode id (s_view s)). by destruct (find_inode id (s_view s)).
  - intros pe. destruct (_.1) as [id|e]; [|done]. unfold find_inode. destruct (List.find _ _) as [pe'|] eqn:E; [|done].
    intros [= ->]. apply List.find_some in E as [Hin _]. by apply list_elem_of_In.
Qed.

Lemma get_cache c v k : view_get k (set_contents c v) = view_get k v.
Proof. done. Qed.

Lemma walk_parts_cache c v path parts : ∀ current entry, walk_parts (set_contents c v) path current entry parts = walk_parts v path current entry parts.
Proof.
  induction parts as [|p parts IH]; intros current entry; [done|]. cbn [walk_parts]. rewrite !get_cache. repeat case_match; done.
Qed.

Lemma walk_cache c v path hops : ∀ target, resolve_walk hops (set_contents c v) path target = resolve_walk hops v path target.
Proof.
  induction hops as [|hops IH]; intros target; cbn [resolve_walk]; (case_decide; [done|]); (case_match; [done|]);
    rewrite get_cache; (destruct (view_get "/" v); [|done]); cbv zeta; rewrite walk_parts_cache; (case_match; [done..|]); [done|].
  case_match; [apply IH|done].
Qed.

Lemma resolveCached_cache c v path : resolveCached path (set_contents c v) = resolveCached path v.
Proof. apply walk_cache. Qed.

Lemma entry_frame path s : plain s → ∃ r : res fs_error (option PathCacheEntry), (∀ c, resolveReadEntry path (with_cache c s) = (r, with_cache c s)) ∧
  (∀ e, r = Ok (Some e) → view_ok (s_view s) → ∃ p, view_get p (s_view s) = Some e) ∧
  ∀ e, view_get path (s_view s) = Some e → kind e ≠ SYMLINK → r = Ok (Some e).
Proof.
  intros Hp. destruct (resolve_frame path s Hp) as (r & Hr & Hin).
  assert (Hdb : ∃ r' : res fs_error (option PathCacheEntry), (∀ c, (let* pe := resolve_in_db path in retM (Some pe.2)) (with_cache c s) = (r', with_cache c s)) ∧
    ∀ e, r' = Ok (Some e) → view_ok (s_view s) → ∃ p, view_get p (s_view s) = Some e).
  { exists (match r with Ok pe => Ok (Some pe.2) | Err e => Err e end). split.
    - intros c. unfold bindM. rewrite Hr. by destruct r.
    - intros e He [Hwf _]. destruct r as [[p e']|]; [|done]. simpl in He. injection He as <-. exists p. apply jget_Some; [done|]. by apply (Hin (p, e')). }
  destruct Hdb as (r' & Hr' & Hin'). exists (match view_get path (s_view s) with
    | Some e => if decide (kind e = SYMLINK)
                then match resolveCached path (s_view s) with
                     | Ok (_, None) => Ok None | Ok (_, Some _) => r' | Err err => if negb (is_enoent err) then Err err else r'
                     end
                else Ok (Some e)
    | None => match resolveCached path (s_view s) with Ok (_, None) => Ok None | Ok (_, Some _) => r' | Err err => Err err end
    end). split; [|split].
  - intros c. unfold resolveReadEntry. rewrite !bindM_gets. unfold buffering, with_cache at 1 2 3 4 5 6. cbn [s_view s_pers on_view].
    rewrite (proj1 Hp), get_cache, resolveCached_cache. repeat case_match; simplify_eq; done.
  - intros e. destruct (view_get path (s_view s)) eqn:E; [case_decide|]; repeat case_match; try done; try apply Hin'.
    intros [= <-] _. by exists path.
  - intros e -> Hk. by rewrite decide_False.
Qed.
(** The content of an entry comes from the cache or from its blob, and is the same. *)
Lemma content_frame p e c s : plain s → view_get p (s_view s) = Some e → cache_true (with_cache c s) →
  ∃ c', readContent e (with_cache c s) = (Ok (stored (s_db s) e), with_cache c' s) ∧ cache_true (with_cache c' s).
Proof using All.
  intros [Hsc _] He Ht. assert (Ha : ∀ c, assertAlive (with_cache c s) = (Ok tt, with_cache c s)) by (intros c'; unfold assertAlive; simpl; by rewrite Hsc).
  unfold readContent. rewrite bindM_gets. cbn [s_view with_cache on_view v_contents set_contents].
  destruct (jget (inodeId e) (contentCache c)) as [b|] eqn:E.
  - exists c. rewrite (bindM_Ok _ _ _ _ _ (Ha c)). by rewrite (ct_cached _ Ht p e b He E).
  - rewrite bindM_gets. cbn [s_db with_cache on_view]. fold (stored (s_db s) e). case_decide; [|exists c; rewrite bindM_ret, (bindM_Ok _ _ _ _ _ (Ha c)); done].
    exists (put (inodeId e) (stored (s_db s) e) c). rewrite bindM_modify.
    change (on_view _ (with_cache c s)) with (with_cache (put (inodeId e) (stored (s_db s) e) c) s). rewrite (bindM_Ok _ _ _ _ _ (Ha _)).
    split; [done|]. split; [apply Ht|apply Ht|]. intros p' e' b He'. cbn [s_view with_cache on_view v_contents set_contents put contentCache].
    intros [[Hid ->]|[_ Hold]]%lru_set_get; [|by apply (ct_cached _ Ht p' e' b He')]. unfold stored. cbn [s_db with_cache on_view].
    by rewrite (ct_same _ Ht p' p e' e He' He Hid).
Qed.

(** What a read of a path answers. *)
Lemma read_frame p s : plain s → ∃ r : res fs_error string,
  (∀ c, cache_true (with_cache c s) → ∃ c', fs_readFileBuffer p (with_cache c s) = (r, with_cache c' s) ∧ cache_true (with_cache c' s)) ∧
  (∀ e, validatePath p = Ok p → p ≠ DEV_NULL → view_get p (s_view s) = Some e →
     (kind e = FILE → r = Ok (stored (s_db s) e)) ∧ (kind e = DIRECTORY → r = Err (EISDIR p))).
Proof using All.
  intros Hp. assert (Ha : ∀ c, assertAlive (with_cache c s) = (Ok tt, with_cache c s)) by (intros c; unfold assertAlive; simpl; by rewrite (proj1 Hp)).
  unfold fs_readFileBuffer, readBytes. destruct (validatePath p) as [path|err].
  2:{ exists (Err err). split; [|done]. intros c Ht. exists c. split; [|done]. by rewrite (bindM_Ok _ _ _ _ _ (Ha c)). }
  destruct (decide (path = DEV_NULL)) as [->|Hnull].
  { exists (Ok EmptyString). split; [|by intros e [= ->]]. intros c Ht. exists c. split; [|done]. by rewrite (bindM_Ok _ _ _ _ _ (Ha c)). }
  destruct (entry_frame path s Hp) as (r & Hr & Hin & Hent).
  exists (match r with
          | Err e => Err e
          | Ok None => Ok EmptyString
          | Ok (Some e) => if decide (kind e = DIRECTORY) then Err (EISDIR path) else Ok (stored (s_db s) e)
          end). split.
  - intros c Ht. rewrite (bindM_Ok _ _ _ _ _ (Ha c)). change (lift_res (Ok path)) with (@retM Sys fs_error string path). rewrite bindM_ret, decide_False by done.
    destruct r as [[e|]|err]; [rewrite (bindM_Ok _ _ _ _ _ (Hr c))|exists c; by rewrite (bindM_Ok _ _ _ _ _ (Hr c))|exists c; by rewrite (bindM_Err _ _ _ _ _ (Hr c))]. unfold throw_if. case_bool_decide; [rewrite decide_True by done; by exists c|].
    rewrite decide_False, bindM_ret by done. unfold assertExecFileSize, consumeExecInput. rewrite bindM_assoc, bindM_gets.
    change (s_exec (with_cache c s)) with (s_exec s). rewrite (proj2 Hp), bindM_ret, bindM_assoc, bindM_gets. change (s_exec (with_cache c s)) with (s_exec s).
    rewrite (proj2 Hp), bindM_ret. destruct (Hin e eq_refl (ct_ok _ Ht)) as [p' Hp']. by eapply content_frame.
  - intros e [= ->] _ He. split; intros Hk; rewrite (Hent e He) by (by rewrite Hk); by rewrite Hk.
Qed.
Definition answer (s : Sys) (p : string) : res fs_error string := (fs_readFileBuffer p s).1.

Lemma with_cache_own s : with_cache (v_contents (s_view s)) s = s.
Proof. destruct s as [d v p ro vi x l t n]. unfold with_cache, on_view, set_contents. simpl. by destruct v. Qed.

Lemma read_answer p s c : plain s → cache_true s → cache_true (with_cache c s) →
  ∃ c', fs_readFileBuffer p (with_cache c s) = (answer s p, with_cache c' s) ∧ cache_true (with_cache c' s).
Proof using All.
  intros Hp Hs Hc. destruct (read_frame p s Hp) as (r & Hr & _). destruct (Hr c Hc) as (c' & -> & Hc'). exists c'. split; [|done]. f_equal.
  unfold answer. destruct (Hr (v_contents (s_view s))) as (c0 & E & _); [by rewrite with_cache_own|]. rewrite with_cache_own in E. by rewrite E.
Qed.

(** ** The export as a function of the answers *)

Section pure_export.
Context (B : Z) (prefix : string) (ans : string → res fs_error string).

Fixpoint export_pure (paths : list string) (ex : Export) : res fs_error Export :=
  match paths with
  | [] => Ok ex
  | p :: rest =>
      match ans p with
      | Ok buf =>
          if decide (B < ex_total ex + str_len buf) then Err (Coded "EEXPORT_TOO_LARGE")
          else export_pure rest (mkExport (ex_total ex + str_len buf) (jset (slice_from p (str_len prefix)) (export_value buf) (ex_files ex)) (ex_errors ex))
      | Err e =>
          if decide (error_code e = Some "EEXPORT_TOO_LARGE") then Err e
          else if decide (error_code e ≠ Some "EISDIR") then export_pure rest (mkExport (ex_total ex) (ex_files ex) (ex_errors ex ++ [p]))
          else export_pure rest ex
      end
  end.

Definition size_of (p : string) : Z := match ans p with Ok buf => str_len buf | Err _ => 0 end.
Definition sizes (paths : list string) : Z := foldr (λ p n, size_of p + n) 0 paths.

Lemma size_of_nonneg p : 0 ≤ size_of p.
Proof. unfold size_of. destruct (ans p); [apply str_len_nonneg|done]. Qed.

Lemma sizes_nonneg paths : 0 ≤ sizes paths.
Proof. induction paths as [|p paths IH]; simpl; [done|]. pose proof (size_of_nonneg p). lia. Qed.

Lemma sizes_perm l l' : l ≡ₚ l' → sizes l = sizes l'.
Proof. induction 1; simpl; lia. Qed.

(** What an export holds after some paths, by what it held before. *)
Definition holds_after (paths : list string) (ex ex' : Export) : Prop :=
  ex_total ex' = ex_total ex + sizes paths ∧
  (∀ p, starts_with p prefix = true → jget (slice_from p (str_len prefix)) (ex_files ex') =
     match ans p with
     | Ok buf => if decide (p ∈ paths) then Some (export_value buf) else jget (slice_from p (str_len prefix)) (ex_files ex)
     | Err _ => jget (slice_from p (str_len prefix)) (ex_files ex)
     end) ∧
  (∀ p, p ∈ ex_errors ex' ↔ p ∈ ex_errors ex ∨ (p ∈ paths ∧ ∃ e, ans p = Err e ∧ error_code e ≠ Some "EISDIR")).

Lemma relative_inj p q : starts_with p prefix = true → starts_with q prefix = true →
  slice_from p (str_len prefix) = slice_from q (str_len prefix) → p = q.
Proof. intros [u ->]%starts_with_spec [w ->]%starts_with_spec. rewrite !slice_from_app. by intros ->. Qed.

Lemma holds_after_cons p paths ex ex1 ex2 : holds_after [p] ex ex1 → holds_after paths ex1 ex2 → holds_after (p :: paths) ex ex2.
Proof.
  intros (Ht1 & Hf1 & He1) (Ht2 & Hf2 & He2). split; [simpl in *; lia|]. split.
  - intros q Hq. rewrite Hf2, Hf1 by done. destruct (ans q); [|done]. destruct (decide (q ∈ paths)); [rewrite decide_True by (by right); done|].
    destruct (decide (q = p)) as [->|Hne]; [rewrite !decide_True by (by left); done|].
    rewrite !decide_False; [done|by intros [?|?]%elem_of_cons|by intros ?%list_elem_of_singleton].
  - intros q. rewrite He2, He1, list_elem_of_singleton, elem_of_cons. tauto.
Qed.

Lemma holds_after_file p buf ex : starts_with p prefix = true → ans p = Ok buf →
  holds_after [p] ex (mkExport (ex_total ex + str_len buf) (jset (slice_from p (str_len prefix)) (export_value buf) (ex_files ex)) (ex_errors ex)).
Proof.
  intros Hp Ha. split; [unfold sizes, size_of; simpl; rewrite Ha; lia|]. split; cbn [ex_files ex_errors].
  - intros q Hq. rewrite jget_jset. destruct (decide (slice_from p (str_len prefix) = slice_from q (str_len prefix))) as [E|E].
    + apply relative_inj in E as ->; [|done..]. by rewrite Ha, decide_True by (by left).
    + destruct (ans q); [|done]. by rewrite decide_False by (by intros ->%list_elem_of_singleton).
  - intros q. rewrite list_elem_of_singleton. split; [tauto|]. intros [?|(-> & e & E & _)]; [done|congruence].
Qed.

Lemma holds_after_error p e ex : ans p = Err e →
  holds_after [p] ex (if decide (error_code e ≠ Some "EISDIR") then mkExport (ex_total ex) (ex_files ex) (ex_errors ex ++ [p]) else ex).
Proof.
  intros Ha. assert (Hs : sizes [p] = 0) by (unfold sizes, size_of; simpl; by rewrite Ha). split; [case_decide; simpl ex_total; lia|]. split.
  - intros q Hq. assert (Hsame : jget (slice_from q (str_len prefix)) (ex_files (if decide (error_code e ≠ Some "EISDIR")
      then mkExport (ex_total ex) (ex_files ex) (ex_errors ex ++ [p]) else ex)) = jget (slice_from q (str_len prefix)) (ex_files ex)) by (by case_decide).
    rewrite Hsame. destruct (ans q) eqn:Eq; [|done]. by rewrite decide_False by (intros ->%list_elem_of_singleton; congruence).
  - intros q. rewrite list_elem_of_singleton. case_decide; cbn [ex_errors].
    + rewrite elem_of_app, list_elem_of_singleton. split; [intros [?| ->]; [by left|right; eauto]|intros [?|[-> _]]; auto].
    + split; [by left|]. intros [?|(-> & e' & E & Hn)]; [done|]. rewrite Ha in E. injection E as <-. tauto.
Qed.

Lemma export_pure_spec paths ex :
  Forall (λ p, starts_with p prefix = true) paths → 0 ≤ ex_total ex ≤ B →
  match export_pure paths ex with
  | Ok ex' => holds_after paths ex ex' ∧ ex_total ex' ≤ B
  | Err e => error_code e = Some "EEXPORT_TOO_LARGE" ∧ (B < ex_total ex + sizes paths ∨ ∃ p, p ∈ paths ∧ ans p = Err e)
  end.
Proof.
  revert ex. induction paths as [|p paths IH]; intros ex Hall Ht; cbn [export_pure].
  { split; [|lia]. split; [simpl; lia|]. split; [intros q _; destruct (ans q); [by rewrite decide_False by apply not_elem_of_nil|done]|].
    intros q. split; [by left|]. by intros [?|[?%not_elem_of_nil _]]. }
  apply Forall_cons in Hall as [Hp Hall]. pose proof (sizes_nonneg paths) as Hn. destruct (ans p) as [buf|e] eqn:Ea.
  - pose proof (str_len_nonneg buf). assert (Hsz : size_of p = str_len buf) by (unfold size_of; by rewrite Ea). case_decide as Hb.
    + split; [done|]. left. simpl. lia.
    + specialize (IH (mkExport (ex_total ex + str_len buf) (jset (slice_from p (str_len prefix)) (export_value buf) (ex_files ex)) (ex_errors ex)) Hall ltac:(simpl; lia)).
      destruct (export_pure _ _) as [ex'|e]; [destruct IH; split; [eapply holds_after_cons; [by apply holds_after_file|done]|done]|].
      destruct IH as [? [?|(q & Hq & Eq)]]; (split; [done|]); [left; simpl in *; lia|right; exists q; split; [by right|done]].
  - assert (Hsz : size_of p = 0) by (unfold size_of; by rewrite Ea). case_decide as Hc; [split; [done|]; right; exists p; split; [by left|done]|].
    pose proof (holds_after_error p e ex Ea) as Hstep. set (ex1 := if decide _ then _ else ex) in Hstep.
    assert (Hrun : (if decide (error_code e ≠ Some "EISDIR") then export_pure paths (mkExport (ex_total ex) (ex_files ex) (ex_errors ex ++ [p])) else export_pure paths ex)
      = export_pure paths ex1) by (subst ex1; by case_decide). rewrite Hrun.
    assert (Hex1 : ex_total ex1 = ex_total ex) by (subst ex1; by case_decide). specialize (IH ex1 Hall ltac:(lia)).
    destruct (export_pure paths ex1) as [ex'|e']; [destruct IH; split; [by eapply holds_after_cons|done]|].
    destruct IH as [? [?|(q & Hq & Eq)]]; (split; [done|]); [left; simpl; lia|right; exists q; split; [by right|done]].
Qed.
End pure_export.
(** ** The export reads the answers *)

Section run.
Context (s : Sys) (Hp : plain s) (Hs : cache_true s) (B : Z) (prefix : string).

Lemma export_all_run paths ex c : cache_true (with_cache c s) →
  ∃ c', export_all B prefix paths ex (with_cache c s) = (export_pure B prefix (answer s) paths ex, with_cache c' s) ∧ cache_true (with_cache c' s).
Proof using All.
  revert ex c. induction paths as [|p paths IH]; intros ex c Hc; cbn [export_all export_pure]; [by exists c|].
  destruct (read_answer p s c Hp Hs Hc) as (c1 & Hr & Hc1). unfold export_one. rewrite bindM_assoc.
  rewrite (bindM_Ok (attempt (fs_readFileBuffer p)) _ _ (answer s p) (with_cache c1 s)) by (unfold attempt; by rewrite Hr).
  destruct (answer s p) as [buf|e]; cbv zeta.
  - case_decide; [by exists c1|]. rewrite bindM_ret. by apply IH.
  - case_decide; [by exists c1|]. case_decide; rewrite bindM_ret; by apply IH.
Qed.

(** The order in which the batches read. *)
Fixpoint batch_order (fuel concurrency : nat) (completed : list string → list string) (candidates : list string) : list string :=
  match candidates, fuel with
  | [], _ | _, O => []
  | _, S fuel' => completed (take concurrency candidates) ++ batch_order fuel' concurrency completed (drop concurrency candidates)
  end.

Lemma batch_order_perm fuel concurrency completed candidates :
  (0 < concurrency)%nat → (∀ l, completed l ≡ₚ l) → (length candidates ≤ fuel)%nat → batch_order fuel concurrency completed candidates ≡ₚ candidates.
Proof.
  intros Hn Hc. revert candidates. induction fuel as [|fuel IH]; intros candidates Hl; destruct candidates as [|p candidates]; cbn [batch_order]; try done.
  { simpl in Hl. lia. }
  rewrite Hc, IH; [by rewrite take_drop|]. rewrite length_drop. simpl in *. lia.
Qed.

Lemma export_pure_app paths paths' ex :
  export_pure B prefix (answer s) (paths ++ paths') ex =
  match export_pure B prefix (answer s) paths ex with Ok ex' => export_pure B prefix (answer s) paths' ex' | Err e => Err e end.
Proof.
  revert ex. induction paths as [|p paths IH]; intros ex; simpl; [done|].
  destruct (answer s p); repeat (case_decide; [done || apply IH|]); done || apply IH.
Qed.

Lemma export_batches_run fuel concurrency completed candidates ex c : cache_true (with_cache c s) →
  ∃ c', export_batches fuel B concurrency completed prefix candidates ex (with_cache c s) =
    (export_pure B prefix (answer s) (batch_order fuel concurrency completed candidates) ex, with_cache c' s) ∧ cache_true (with_cache c' s).
Proof using All.
  revert candidates ex c. induction fuel as [|fuel IH]; intros candidates ex c Hc; destruct candidates as [|p candidates]; try (by exists c).
  cbn [export_batches batch_order]. destruct (export_all_run (completed (take concurrency (p :: candidates))) ex c Hc) as (c1 & Hr & Hc1).
  rewrite export_pure_app. destruct (export_pure B prefix (answer s) (completed (take concurrency (p :: candidates))) ex) as [ex'|e].
  - rewrite (bindM_Ok _ _ _ _ _ Hr). by apply IH.
  - rewrite (bindM_Err _ _ _ _ _ Hr). by exists c1.
Qed.
End run.
End export.

Section exact.
Context `{Config} `{Lru}.

Lemma coh_cache_true s : coh sandboxId (realId []) (s_view s) (s_db s) →
  (∀ p e c, view_get p (s_view s) = Some e → jget (inodeId e) (contentCache (v_contents (s_view s))) = Some c → c = stored (s_db s) e) →
  cache_true s.
Proof.
  intros Hc Hcached. destruct (coh_root _ _ _ _ Hc) as [root Hroot]. split; [apply Hc| |done]. intros p p' e e' He He' Hid.
  destruct (coh_canonical _ _ _ _ Hc p) as (cs & Hv & ->); [by eexists|]. destruct (coh_canonical _ _ _ _ Hc p') as (cs' & Hv' & ->); [by eexists|].
  destruct (coh_some _ _ _ _ Hc root cs e Hroot Hv He) as (rid & r & Hr & _ & Hi & _ & _ & _ & Hsha & _).
  destruct (coh_some _ _ _ _ Hc root cs' e' Hroot Hv' He') as (rid' & r' & Hr' & _ & Hi' & _ & _ & _ & Hsha' & _). rewrite Hid in Hr. congruence.
Qed.

Definition candidates (s : Sys) (basePath : string) : list string :=
  List.filter (λ p, starts_with p (export_prefix basePath)) (view_paths (s_view s)).

Lemma elem_candidates s basePath p : p ∈ candidates s basePath ↔ is_Some (view_get p (s_view s)) ∧ starts_with p (export_prefix basePath) = true.
Proof. unfold candidates. rewrite list_elem_of_In, filter_In, <- list_elem_of_In. by rewrite view_paths_spec. Qed.

Lemma export_body_run F B concurrency completed basePath s : LruLaws → plain s → cache_true s → 0 ≤ B → (0 < concurrency)%nat → (∀ l, completed l ≡ₚ l) →
  match (export_body F B concurrency completed basePath s).1 with
  | Ok ex => holds_after (export_prefix basePath) (answer s) (candidates s basePath) (mkExport 0 [] []) ex ∧ ex_total ex ≤ B
  | Err e => error_code e = Some "EEXPORT_TOO_LARGE" ∧
      (F < Z.of_nat (length (candidates s basePath)) ∨ B < sizes (answer s) (candidates s basePath) ∨ ∃ p, p ∈ candidates s basePath ∧ answer s p = Err e)
  end.
Proof.
  intros HL Hp Hs HB Hn Hc. unfold export_body, fs_getAllPaths. rewrite bindM_assoc.
  assert (Ha : assertAlive s = (Ok tt, s)) by (unfold assertAlive; by rewrite (proj1 Hp)). rewrite (bindM_Ok _ _ _ _ _ Ha), bindM_gets. cbv zeta.
  fold (candidates s basePath). set (cands := candidates s basePath). case_decide as HF; [split; [done|by left]|].
  destruct (export_batches_run HL s Hp Hs B (export_prefix basePath) (length cands) concurrency completed cands (mkExport 0 [] []) (v_contents (s_view s)))
    as (c' & E & _); [by rewrite with_cache_own|]. rewrite with_cache_own in E. rewrite E. cbn [fst].
  pose proof (batch_order_perm (length cands) concurrency completed cands Hn Hc ltac:(lia)) as Hperm.
  set (order := batch_order _ _ _ _) in *. pose proof (export_pure_spec B (export_prefix basePath) (answer s) order (mkExport 0 [] [])) as Hspec.
  destruct (export_pure B (export_prefix basePath) (answer s) order (mkExport 0 [] [])) as [ex|e].
  - destruct Hspec as [(Ht & Hf & He) Hle]; [|simpl; lia|]. { rewrite Hperm. apply Forall_forall. by intros p [_ ?]%elem_candidates. }
    split; [|done]. split; [by rewrite (sizes_perm _ _ _ Hperm) in Ht|]. split.
    + intros p Hpre. rewrite Hf by done. destruct (answer s p); [|done]. by rewrite (decide_ext (p ∈ order) (p ∈ cands)) by (by rewrite Hperm).
    + intros p. by rewrite He, Hperm.
  - destruct Hspec as [He Hwhy]; [|simpl; lia|]. { rewrite Hperm. apply Forall_forall. by intros p [_ ?]%elem_candidates. }
    split; [done|]. right. destruct Hwhy as [Hb|(p & Hin & E')]; [left|right].
    + simpl in Hb. by rewrite <- (sizes_perm _ _ _ Hperm).
    + exists p. by rewrite <- Hperm.
Qed.
Definition row_bytes (d : db) (r : InodeRow) : string := default EmptyString (i_contentSha256 r ≫= λ sha, getBlobNoTx sha d).

(** What the answers are, by the tree. *)
Lemma answer_tree s root cs : LruLaws → plain s → cache_true s → coh sandboxId (realId []) (s_view s) (s_db s) → root_of (s_db s) sandboxId = Some root →
  valid_comps cs → validatePath (path_of cs) = Ok (path_of cs) → path_of cs ≠ DEV_NULL →
  match walk (dirents (s_db s)) root cs ≫= λ id, inodes (s_db s) !! id with
  | None => view_get (path_of cs) (s_view s) = None
  | Some r => is_Some (view_get (path_of cs) (s_view s)) ∧
      (i_kind r = FILE → answer s (path_of cs) = Ok (row_bytes (s_db s) r)) ∧ (i_kind r = DIRECTORY → answer s (path_of cs) = Err (EISDIR (path_of cs)))
  end.
Proof.
  intros HL Hp Hs Hc Hroot Hv Hval Hnull. destruct (view_get (path_of cs) (s_view s)) as [e|] eqn:E.
  - destruct (coh_some _ _ _ _ Hc root cs e Hroot Hv E) as (rid & r & _ & -> & Hi & Hk & _ & _ & Hsha & _). simpl. rewrite Hi. split; [done|].
    destruct (read_frame HL (path_of cs) s Hp) as (ans & Hr & Hkind). destruct (Hkind e Hval Hnull E) as [Hf Hd].
    destruct (Hr (v_contents (s_view s))) as (c' & Erun & _); [by rewrite with_cache_own|]. rewrite with_cache_own in Erun.
    unfold answer. rewrite Erun. cbn [fst]. rewrite <- Hk. split; [|done]. intros Hk'. rewrite Hf by done. unfold stored, row_bytes. by rewrite Hsha.
  - by rewrite (coh_none _ _ _ _ Hc root cs Hroot Hv E).
Qed.

(** C19: An export is the tree below its path. From a session whose view is
    current and whose cached bytes are the stored ones, and in whatever order the
    reads of a batch end: unless the export is refused for its size, every
    regular file below the path is in it under its relative path, with its bytes
    as text or as a data URI; directories and paths that do not exist are neither
    in it nor among its errors; a symbolic link is in it as what it leads to, or
    not. A refusal means that there are more paths than allowed or that the bytes
    exceed the limit. *)
Theorem export_exact s row root F B concurrency completed basePath :
  LruLaws → Inv s → plain s → v_poisoned (s_view s) = false →
  sandboxes (s_db s) !! sandboxId = Some row → v_epoch (s_view s) = s_version row → root_of (s_db s) sandboxId = Some root →
  (∀ p e c, view_get p (s_view s) = Some e → jget (inodeId e) (contentCache (v_contents (s_view s))) = Some c → c = stored (s_db s) e) →
  0 ≤ B → (0 < concurrency)%nat → (∀ l, completed l ≡ₚ l) →
  match (export_body F B concurrency completed basePath s).1 with
  | Err e => error_code e = Some "EEXPORT_TOO_LARGE" ∧
      (F < Z.of_nat (length (candidates s basePath)) ∨ B < sizes (answer s) (candidates s basePath) ∨ ∃ p, p ∈ candidates s basePath ∧ answer s p = Err e)
  | Ok ex => sizes (answer s) (candidates s basePath) ≤ B ∧
      ∀ cs, valid_comps cs → validatePath (path_of cs) = Ok (path_of cs) → path_of cs ≠ DEV_NULL → starts_with (path_of cs) (export_prefix basePath) = true →
        jget (slice_from (path_of cs) (str_len (export_prefix basePath))) (ex_files ex) =
          match walk (dirents (s_db s)) root cs ≫= λ id, inodes (s_db s) !! id with
          | None => None
          | Some r => match i_kind r with
                      | FILE => Some (export_value (row_bytes (s_db s) r))
                      | DIRECTORY => None
                      | SYMLINK => match answer s (path_of cs) with Ok buf => Some (export_value buf) | Err _ => None end
                      end
          end ∧
        (path_of cs ∈ ex_errors ex → ∃ id r, walk (dirents (s_db s)) root cs = Some id ∧ inodes (s_db s) !! id = Some r ∧ i_kind r = SYMLINK)
  end.
Proof.
  intros HL HI Hp Hpois Hrow Hep Hroot Hcached HB Hn Hc. destruct (Inv_settled s HI Hpois (proj1 Hp)) as [(_ & Hset & _) _].
  destruct (Hset row Hrow) as [_ Hcoh]. specialize (Hcoh Hep). pose proof (coh_cache_true s Hcoh Hcached) as Hs.
  pose proof (export_body_run F B concurrency completed basePath s HL Hp Hs HB Hn Hc) as Hrun.
  destruct (export_body F B concurrency completed basePath s).1 as [ex|e]; [|done]. destruct Hrun as [(Ht & Hf & He) Hle].
  simpl in Ht. split; [lia|]. intros cs Hv Hval Hnull Hpre. pose proof (answer_tree s root cs HL Hp Hs Hcoh Hroot Hv Hval Hnull) as Ha.
  rewrite (Hf _ Hpre), He. cbn [ex_files ex_errors jget].
  assert (Hin : path_of cs ∈ candidates s basePath ↔ is_Some (view_get (path_of cs) (s_view s))) by (rewrite elem_candidates; tauto).
  destruct (walk (dirents (s_db s)) root cs) as [id|]; cbn [mbind option_bind] in *; [destruct (inodes (s_db s) !! id) as [r|] eqn:Ei|].
  - destruct Ha as (Hsome & Hfile & Hdir). apply Hin in Hsome as Hcand. destruct (i_kind r) eqn:Ek.
    + rewrite Hfile by done. rewrite decide_True by done. split; [done|]. intros [?%not_elem_of_nil|(_ & e & [=] & _)]; done.
    + rewrite Hdir by done. split; [done|]. intros [?%not_elem_of_nil|(_ & e & [= <-] & Hne)]; done.
    + split; [destruct (answer s (path_of cs)); [by rewrite decide_True|done]|]. intros _. eauto.
  - rewrite Ha in Hin. assert (path_of cs ∉ candidates s basePath) by (by intros ?%Hin%is_Some_None).
    split; [destruct (answer s (path_of cs)); [by rewrite decide_False|done]|]. by intros [?%not_elem_of_nil|[? _]].
  - rewrite Ha in Hin. assert (path_of cs ∉ candidates s basePath) by (by intros ?%Hin%is_Some_None).
    split; [destruct (answer s (path_of cs)); [by rewrite decide_False|done]|]. by intros [?%not_elem_of_nil|[? _]].
Qed.
End exact.

Section witnesses.
#[local] Existing Instance demo_config.
#[local] Existing Instance lru_unbounded.

(** The file written by [demo_file], read back in batches of two. *)
Definition demo_export : Export :=
  match (export_body 10 100 2 (@rev string) "/tmp" demo_file).1 with Ok ex => ex | Err _ => mkExport 0 [] [] end.

Lemma cached_check s : forallb (λ pe, match jget (inodeId pe.2) (contentCache (v_contents (s_view s))) with
    | Some c => bool_decide (c = stored (s_db s) pe.2) | None => true end) (v_entries (s_view s)) = true →
  ∀ p e c, view_get p (s_view s) = Some e → jget (inodeId e) (contentCache (v_contents (s_view s))) = Some c → c = stored (s_db s) e.
Proof.
  rewrite forallb_forall. intros Hall p e c He Hc. specialize (Hall (p, e) ltac:(apply list_elem_of_In, jget_elem, He)). simpl in Hall.
  rewrite Hc in Hall. by apply bool_decide_eq_true in Hall.
Qed.

Lemma export_exact_witness :
  (export_body 10 100 2 (@rev string) "/tmp" demo_file).1 = Ok demo_export ∧
  jget (slice_from (path_of ["tmp"; "f"]) (str_len (export_prefix "/tmp"))) (ex_files demo_export) = Some [97; 98; 99; 97].
Proof.
  assert (Hok : (export_body 10 100 2 (@rev string) "/tmp" demo_file).1 = Ok demo_export) by (vm_compute; reflexivity). split; [exact Hok|].
  assert (Hrow : ∃ row, sandboxes (s_db demo_file) !! sandboxId = Some row ∧ v_epoch (s_view demo_file) = s_version row)
    by (eexists; split; vm_compute; reflexivity). destruct Hrow as (row & Hrow & Hep).
  assert (Hplain : plain demo_file) by (split; vm_compute; reflexivity).
  assert (Hpois : v_poisoned (s_view demo_file) = false) by (vm_compute; reflexivity).
  assert (Hroot : root_of (s_db demo_file) sandboxId = Some 1) by (vm_compute; reflexivity).
  assert (Hcached : forallb (λ pe, match jget (inodeId pe.2) (contentCache (v_contents (s_view demo_file))) with
    | Some c => bool_decide (c = stored (s_db demo_file) pe.2) | None => true end) (v_entries (s_view demo_file)) = true) by (vm_compute; reflexivity).
  pose proof (@export_exact demo_config lru_unbounded demo_file row 1 10 100 2 (@rev string) "/tmp" lru_unbounded_laws
    (@reachable_Inv demo_config lru_unbounded eq_refl demo_file demo_file_reachable) Hplain Hpois Hrow Hep Hroot (cached_check demo_file Hcached)
    ltac:(lia) ltac:(lia) (λ l, symmetry (Permutation_rev l))) as Hx.
  assert (Hv : valid_comps ["tmp"; "f"]) by (refine (bool_decide_unpack (valid_comps _) _); vm_compute; exact I).
  assert (Hval : validatePath (path_of ["tmp"; "f"]) = Ok (path_of ["tmp"; "f"])) by (vm_compute; reflexivity).
  assert (Hnull : path_of ["tmp"; "f"] ≠ DEV_NULL) by (vm_compute; discriminate).
  assert (Hpre : starts_with (path_of ["tmp"; "f"]) (export_prefix "/tmp") = true) by (vm_compute; reflexivity).
  rewrite Hok in Hx. destruct (proj2 Hx ["tmp"; "f"] Hv Hval Hnull Hpre) as [Hf _].
  match type of Hf with _ = ?rhs => assert (Hr : rhs = Some [97; 98; 99; 97]) by (vm_compute; reflexivity) end.
  rewrite Hf. exact Hr.
Defined.
End witnesses.
