(* ===== verification/Sandboxes.v ===== *)
(** The sandboxes of a deployment: their rows with owner, name and runtime flags
    (src/src/sql-fs/dialects/postgres/sandbox.ts), the sessions the replicas keep
    of them (session-manager.ts, session-catalog.ts, tenant-backends.ts), and the
    routes that create, list, show, change and delete them
    (src/src/api/routes/sandboxes.ts), and the MCP tools that do the same
    (src/src/api/mcp/tools.ts).

    A request that works under the lock of a sandbox is one event; the check and
    the removal of a deletion are two, since the lock is taken twice. Files are
    not in the model: [Routes] has them. *)

From S2P Require Import Prelude Batch Breaker DistLock LockRuns Errors Paths Store Tree Dialect Lifecycle LoadPaths View Session Namespace Coherence Simulation Journal Invariant Mutate Handlers SqlFs Ingest IngestRows IngestSim IngestSound Scopes Machine Guarantees Isolation IngestOutcome Contents Exec ExecSound Readers ApiErrors SessionLock Executions Text Replace Edits Auth Routes Writes RoutesSound.

(** ** Rows *)

Record RuntimeOptions := mkRuntime { python : bool; javascript : bool; network : bool }.

Record SandboxMeta := mkMeta {
  m_owner : option string;
  m_name : option string;
  m_runtime : RuntimeOptions;
  m_createdAt : Z;
}.

(** Tenant and sandbox. *)
Abbreviation Key := (string * string)%type.

Abbreviation Rows := (gmap Key SandboxMeta).

Definition no_runtime : RuntimeOptions := mkRuntime false false false.

(** [None]: the unique violation 23505. *)
Definition row_createSandbox (k : Key) (owner : string) (now : Z) (rows : Rows) : option Rows :=
  match rows !! k with
  | Some _ => None
  | None => Some (<[k := mkMeta (Some owner) None no_runtime now]> rows)
  end.

Definition getSandboxMeta (k : Key) (rows : Rows) : option SandboxMeta := rows !! k.

(** [None]: ENOENT. *)
Definition updateSandboxMeta (k : Key) (owner : option string) (name : option string) (runtime : RuntimeOptions) (rows : Rows) : option Rows :=
  match rows !! k with
  | None => None
  | Some m => Some (<[k := mkMeta owner name runtime (m_createdAt m)]> rows)
  end.

(** Flags that are not given keep their value. *)
Record RuntimePatch := mkPatch { p_python : option bool; p_javascript : option bool; p_network : option bool }.

Definition coalesce (p : RuntimePatch) (r : RuntimeOptions) : RuntimeOptions :=
  mkRuntime (default (python r) (p_python p)) (default (javascript r) (p_javascript p)) (default (network r) (p_network p)).

Definition updateSandboxRuntime (k : Key) (p : RuntimePatch) (rows : Rows) : option (SandboxMeta * Rows) :=
  match rows !! k with
  | None => None
  | Some m => let m' := mkMeta (m_owner m) (m_name m) (coalesce p (m_runtime m)) (m_createdAt m) in Some (m', <[k := m']> rows)
  end.

(** [ORDER BY created_at DESC] of one tenant's rows. *)
Definition listSandboxes (tenant owner : string) (rows : Rows) : list (Key * SandboxMeta) :=
  sort_on (λ e, - m_createdAt e.2) (filter (λ e, e.1.1 = tenant ∧ m_owner e.2 = Some owner) (map_to_list rows)).

Definition row_deleteSandbox (k : Key) (rows : Rows) : Rows := delete k rows.

(** ** Sessions *)

Record Resident := mkResident { rs_owner : string; rs_name : option string; rs_createdAt : Z }.

(** [sv_creators] is history: who created a sandbox, whether or not it is still
    there. [sv_approved]: the deletions whose caller was checked. *)
Record Server := mkServer {
  sv_rows : Rows;
  sv_resident : gmap (nat * Key) Resident;
  sv_approved : list (nat * Key * string);
  sv_creators : gmap Key string;
}.

Definition set_rows (rows : Rows) (sv : Server) : Server := mkServer rows (sv_resident sv) (sv_approved sv) (sv_creators sv).
Definition set_resident (m : gmap (nat * Key) Resident) (sv : Server) : Server := mkServer (sv_rows sv) m (sv_approved sv) (sv_creators sv).
Definition set_approved (l : list (nat * Key * string)) (sv : Server) : Server := mkServer (sv_rows sv) (sv_resident sv) l (sv_creators sv).
Definition set_creators (m : gmap Key string) (sv : Server) : Server := mkServer (sv_rows sv) (sv_resident sv) (sv_approved sv) m.

(** [createPostgresSandboxFs]: the owner and the time of the sandbox. *)
Definition open_sandbox (k : Key) (owner : string) (openExisting : bool) (now : Z) (rows : Rows) : res string (string * Z * Rows) :=
  if openExisting then
    match getSandboxMeta k rows with
    | None => Err "ENOENT"
    | Some m => Ok (default EmptyString (m_owner m), m_createdAt m, rows)
    end
  else
    match row_createSandbox k owner now rows with
    | Some rows' => Ok (owner, now, rows')
    | None => Ok (match getSandboxMeta k rows with
                  | Some m => (default EmptyString (m_owner m), m_createdAt m, rows)
                  | None => (EmptyString, now, rows)
                  end)
    end.

Definition getOrCreate (replica : nat) (k : Key) (owner : string) (openExisting : bool) (now : Z) (sv : Server) : res string (Resident * Server) :=
  match sv_resident sv !! (replica, k) with
  | Some r => Ok (r, sv)
  | None =>
      match open_sandbox k owner openExisting now (sv_rows sv) with
      | Err e => Err e
      | Ok (resolved, createdAt, rows) =>
          let r := mkResident resolved None createdAt in
          Ok (r, set_resident (<[(replica, k) := r]> (sv_resident sv)) (set_rows rows sv))
      end
  end.

Definition initializeMetadata (owner : string) (name : option string) (r : Resident) : Resident :=
  mkResident (if decide (rs_owner r = EmptyString) then owner else rs_owner r) name (rs_createdAt r).

Definition hydrateMetadata (m : SandboxMeta) (r : Resident) : Resident :=
  mkResident (match m_owner m with Some (String c s) => String c s | _ => rs_owner r end) (m_name m) (m_createdAt m).

Definition store (replica : nat) (k : Key) (r : Resident) (sv : Server) : Server := set_resident (<[(replica, k) := r]> (sv_resident sv)) sv.

Definition rehydrate_session (replica : nat) (k : Key) (now : Z) (sv : Server) : res string (Resident * Server) :=
  match getSandboxMeta k (sv_rows sv) with
  | None => Err "ENOENT"
  | Some m =>
      match getOrCreate replica k (default EmptyString (m_owner m)) true now sv with
      | Err e => Err e
      | Ok (r, sv') => let r' := hydrateMetadata m r in Ok (r', store replica k r' sv')
      end
  end.

(** [withOwnedSessionOrRehydrate]: the session, the check that the sandbox is
    still there, which closes the session when it is not, and the owner. *)
Definition owned_session (replica : nat) (k : Key) (caller : string) (now : Z) (sv : Server) : res string unit * Server :=
  match match sv_resident sv !! (replica, k) with Some r => Ok (r, sv) | None => rehydrate_session replica k now sv end with
  | Err e => (Err e, sv)
  | Ok (r, sv') =>
      match sv_rows sv' !! k with
      | None => (Err "ENOENT", set_resident (delete (replica, k) (sv_resident sv')) sv')
      | Some _ => if isOwnedBy (Some (rs_owner r)) caller then (Ok tt, sv') else (Err "FORBIDDEN", sv')
      end
  end.

(** ** Routes *)

Inductive Answer :=
| Refuse (status : Z) (code : string)
| Created (k : Key) (owner : string) (name : option string) (createdAt : Z) (runtime : RuntimeOptions)
| Listed (sandboxes : list (Key * SandboxMeta))
| Info (k : Key) (name : option string) (owner : option string) (createdAt : Z)
| Updated (k : Key) (meta : SandboxMeta)
| Allowed
| Deleted (k : Key)
| ToolFailed (error : option string).

Definition not_found : Answer := Refuse 404 "SANDBOX_NOT_FOUND".
Definition forbidden : Answer := Refuse 403 "FORBIDDEN".

(** The [catch] of a route. No other code comes out of a session here. *)
Definition session_error (code : string) : Answer :=
  if decide (code = "FORBIDDEN") then forbidden else not_found.

Record CreateBody := mkCreateBody { cb_name : option string; cb_files : option Files; cb_runtime : RuntimeOptions }.

(** Where the creation fails, if it does, and what [apiErrorHandler] makes of the
    error: before the row is inserted, before its metadata are stored, or when a
    file is written. *)
Inductive Stage := AtOpen | AtPersist | AtWrite.

Definition Fault : Type := option (Stage * JsError).

#[export] Instance Stage_eq_dec : EqDecision Stage.
Proof. solve_decision. Defined.

Definition thrown_answer (err : JsError) : Answer := Refuse (mapFsErrorToStatus err) (clientSafeErrorCode (Some err) "INTERNAL_ERROR").

Definition fails_at (stage : Stage) (fault : Fault) : option JsError :=
  match fault with Some (st, err) => if decide (st = stage) then Some err else None | None => None end.

(** A session of the new sandbox, its metadata, its row, its files. *)
Definition create_stages (replica : nat) (k : Key) (owner : string) (name : option string) (runtime : RuntimeOptions) (fault : Fault) (now : Z) (sv : Server)
    : res JsError Z * Server :=
  match fails_at AtOpen fault with
  | Some err => (Err err, sv)
  | None =>
      match getOrCreate replica k owner false now sv with
      | Err e => (Err (mkError (Some e) EmptyString), sv)
      | Ok (r, sv1) =>
          let r' := initializeMetadata owner name r in
          let sv2 := store replica k r' (set_creators (<[k := owner]> (sv_creators sv1)) sv1) in
          match fails_at AtPersist fault, updateSandboxMeta k (Some owner) name runtime (sv_rows sv2) with
          | Some err, _ => (Err err, sv2)
          | None, None => (Err (mkError (Some "ENOENT") EmptyString), sv2)
          | None, Some rows =>
              let sv3 := set_rows rows sv2 in
              match fails_at AtWrite fault with
              | Some err => (Err err, sv3)
              | None => (Ok (rs_createdAt r'), sv3)
              end
          end
      end
  end.

Definition create_valid (l : Limits) (body : CreateBody) : bool :=
  match cb_files body with
  | None => true
  | Some files => negb (l_maxFiles l <? Z.of_nat (length files)) && negb (oversized l 0 files)
  end.

Definition create_sandbox (l : Limits) (replica : nat) (k : Key) (owner : string) (body : option CreateBody) (fault : Fault) (now : Z) (sv : Server)
    : Answer * Server :=
  match body with
  | None => (Refuse 400 "INVALID_INPUT", sv)
  | Some b =>
      if negb (create_valid l b) then (Refuse 413 "PAYLOAD_TOO_LARGE", sv)
      else
        let '(r, sv') := create_stages replica k owner (cb_name b) (cb_runtime b) fault now sv in
        (match r with Ok createdAt => Created k owner (cb_name b) createdAt (cb_runtime b) | Err err => thrown_answer err end, sv')
  end.

Definition list_sandboxes (tenant caller : string) (sv : Server) : Answer := Listed (listSandboxes tenant caller (sv_rows sv)).

(** [isValidSandboxId] guards the metadata only. *)
Definition get_sandbox (replica : nat) (k : Key) (caller : string) (sv : Server) : Answer :=
  match sv_resident sv !! (replica, k) with
  | Some r => if negb (isOwnedBy (Some (rs_owner r)) caller) then forbidden else Info k (rs_name r) (Some (rs_owner r)) (rs_createdAt r)
  | None =>
      match getSandboxMeta k (sv_rows sv) with
      | None => not_found
      | Some m => if negb (isOwnedBy (m_owner m) caller) then forbidden else Info k (m_name m) (m_owner m) (m_createdAt m)
      end
  end.

(** [updateSandboxRuntime] in a session of the caller. *)
Definition update_runtime (replica : nat) (k : Key) (caller : string) (p : RuntimePatch) (now : Z) (sv : Server) : res string SandboxMeta * Server :=
  let '(r, sv1) := owned_session replica k caller now sv in
  match r with
  | Err e => (Err e, sv1)
  | Ok _ => match updateSandboxRuntime k p (sv_rows sv1) with
            | None => (Err "ENOENT", sv1)
            | Some (m, rows) => (Ok m, set_rows rows sv1)
            end
  end.

Definition no_flags (p : RuntimePatch) : Prop := p_python p = None ∧ p_javascript p = None ∧ p_network p = None.

#[export] Instance no_flags_dec p : Decision (no_flags p).
Proof. unfold no_flags. apply _. Defined.

Definition patch_sandbox (replica : nat) (k : Key) (caller : string) (body : option RuntimePatch) (now : Z) (sv : Server) : Answer * Server :=
  match body with
  | None => (Refuse 400 "INVALID_INPUT", sv)
  | Some p =>
      if decide (no_flags p) then (Refuse 400 "INVALID_INPUT", sv)
      else
        let '(r, sv1) := update_runtime replica k caller p now sv in
        (match r with Ok m => Updated k m | Err e => session_error e end, sv1)
  end.

(** The first half of a deletion. *)
Definition approve (replica : nat) (k : Key) (caller : string) (now : Z) (sv : Server) : res string unit * Server :=
  let '(r, sv1) := owned_session replica k caller now sv in
  match r with
  | Err e => (Err e, sv1)
  | Ok _ => (Ok tt, set_approved ((replica, k, caller) :: sv_approved sv1) sv1)
  end.

Definition delete_check (replica : nat) (k : Key) (caller : string) (now : Z) (sv : Server) : Answer * Server :=
  let '(r, sv1) := approve replica k caller now sv in
  (match r with Ok _ => Allowed | Err e => session_error e end, sv1).

(** The second: [destroy] of the manager and of the catalogue. The sandbox goes
    whether or not there is a session, which is what it answers. *)
Definition destroy (replica : nat) (k : Key) (sv : Server) : bool * Server :=
  (bool_decide (is_Some (sv_resident sv !! (replica, k))),
   set_resident (delete (replica, k) (sv_resident sv)) (set_rows (row_deleteSandbox k (sv_rows sv)) sv)).

Definition delete_run (replica : nat) (k : Key) (sv : Server) : Answer * Server :=
  let '(found, sv') := destroy replica k sv in (if found then Deleted k else not_found, sv').

(** ** Tools *)

(** [sandboxDeleteToolError] of the codes of a session; the message of an error
    of the database is not kept. *)
Definition tool_error (code : string) : Answer :=
  ToolFailed (if decide (code = "FORBIDDEN") then Some "forbidden" else if decide (code = "ENOENT") then Some "sandbox not found" else None).

(** No files, and the session is not entered. *)
Definition tool_sandbox_create (replica : nat) (k : Key) (owner : string) (name : option string) (runtime : RuntimePatch) (fault : Fault) (now : Z) (sv : Server)
    : Answer * Server :=
  let runtimeOptions := coalesce runtime no_runtime in
  let '(r, sv') := create_stages replica k owner name runtimeOptions fault now sv in
  (match r with Ok createdAt => Created k owner name createdAt runtimeOptions | Err _ => ToolFailed None end, sv').

Definition tool_sandbox_list (tenant owner : string) (sv : Server) : Answer := Listed (listSandboxes tenant owner (sv_rows sv)).

Definition tool_sandbox_update (replica : nat) (k : Key) (owner : string) (runtime : RuntimePatch) (now : Z) (sv : Server) : Answer * Server :=
  if decide (no_flags runtime) then (ToolFailed (Some "Set at least one of python, javascript, network"), sv)
  else
    let '(r, sv') := update_runtime replica k owner runtime now sv in
    (match r with Ok m => Updated k m | Err e => tool_error e end, sv').

Definition tool_delete_check (replica : nat) (k : Key) (owner : string) (now : Z) (sv : Server) : Answer * Server :=
  let '(r, sv') := approve replica k owner now sv in
  (match r with Ok _ => Allowed | Err e => tool_error e end, sv').

Definition tool_delete_run (replica : nat) (k : Key) (sv : Server) : Answer * Server :=
  let '(existed, sv') := destroy replica k sv in (if existed then Deleted k else ToolFailed (Some "sandbox not found"), sv').

(** ** Events *)

Inductive ToolEvent :=
| TCreate (replica : nat) (k : Key) (owner : string) (name : option string) (runtime : RuntimePatch) (fault : Fault) (now : Z)
| TList (tenant owner : string)
| TUpdate (replica : nat) (k : Key) (owner : string) (runtime : RuntimePatch) (now : Z)
| TDeleteCheck (replica : nat) (k : Key) (owner : string) (now : Z)
| TDeleteRun (replica : nat) (k : Key) (owner : string).

Inductive Event :=
| ECreate (l : Limits) (replica : nat) (k : Key) (owner : string) (body : option CreateBody) (fault : Fault) (now : Z)
| EList (tenant caller : string)
| EGet (replica : nat) (k : Key) (caller : string)
| EPatch (replica : nat) (k : Key) (caller : string) (body : option RuntimePatch) (now : Z)
| EUse (replica : nat) (k : Key) (caller : string) (now : Z)
| EDeleteCheck (replica : nat) (k : Key) (caller : string) (now : Z)
| EDeleteRun (replica : nat) (k : Key) (caller : string)
| ETool (t : ToolEvent)
| EEvict (replica : nat) (k : Key).

Definition tool_owner (t : ToolEvent) : string :=
  match t with TCreate _ _ o _ _ _ _ | TList _ o | TUpdate _ _ o _ _ | TDeleteCheck _ _ o _ | TDeleteRun _ _ o => o end.

Definition apply_tool (t : ToolEvent) (sv : Server) : Answer * Server :=
  match t with
  | TCreate replica k owner name runtime fault now => tool_sandbox_create replica k owner name runtime fault now sv
  | TList tenant owner => (tool_sandbox_list tenant owner sv, sv)
  | TUpdate replica k owner runtime now => tool_sandbox_update replica k owner runtime now sv
  | TDeleteCheck replica k owner now => tool_delete_check replica k owner now sv
  | TDeleteRun replica k owner => tool_delete_run replica k sv
  end.

(** The caller of an event and, for one of the reaper, nobody. *)
Definition caller_of (e : Event) : option string :=
  match e with
  | ECreate _ _ _ c _ _ _ | EList _ c | EGet _ _ c | EPatch _ _ c _ _ | EUse _ _ c _ | EDeleteCheck _ _ c _ | EDeleteRun _ _ c => Some c
  | ETool t => Some (tool_owner t)
  | EEvict _ _ => None
  end.

Definition apply (e : Event) (sv : Server) : Answer * Server :=
  match e with
  | ECreate l replica k owner body fault now => create_sandbox l replica k owner body fault now sv
  | EList tenant caller => (list_sandboxes tenant caller sv, sv)
  | EGet replica k caller => (get_sandbox replica k caller sv, sv)
  | EPatch replica k caller body now => patch_sandbox replica k caller body now sv
  | EUse replica k caller now => let '(r, sv1) := owned_session replica k caller now sv in
      (match r with Ok _ => Allowed | Err e => session_error e end, sv1)
  | EDeleteCheck replica k caller now => delete_check replica k caller now sv
  | EDeleteRun replica k caller => delete_run replica k sv
  | ETool t => apply_tool t sv
  | EEvict replica k => (Allowed, set_resident (delete (replica, k) (sv_resident sv)) sv)
  end.

(** What can happen: callers have been authenticated, a new sandbox has an id
    that was never used, and a removal follows its check. *)
Definition possible (e : Event) (sv : Server) : Prop :=
  (∀ c, caller_of e = Some c → c ≠ EmptyString) ∧
  match e with
  | ECreate _ _ k _ _ _ _ | ETool (TCreate _ k _ _ _ _ _) => sv_creators sv !! k = None
  | EDeleteRun replica k caller | ETool (TDeleteRun replica k caller) => (replica, k, caller) ∈ sv_approved sv
  | _ => True
  end.

Inductive reached : Server → Prop :=
| reached_start : reached (mkServer ∅ ∅ [] ∅)
| reached_event e sv : reached sv → possible e sv → reached (apply e sv).2.

(** ** Only the creator *)

(** Rows, sessions and approved deletions belong to who created the sandbox. *)
Record private (sv : Server) : Prop := {
  pv_rows k m : sv_rows sv !! k = Some m → ∃ o, sv_creators sv !! k = Some o ∧ o ≠ EmptyString ∧ m_owner m = Some o;
  pv_resident i k r : sv_resident sv !! (i, k) = Some r → sv_creators sv !! k = Some (rs_owner r) ∧ rs_owner r ≠ EmptyString;
  pv_approved i k c : (i, k, c) ∈ sv_approved sv → sv_creators sv !! k = Some c;
}.

Lemma private_store i k r sv : private sv → sv_creators sv !! k = Some (rs_owner r) → rs_owner r ≠ EmptyString → private (store i k r sv).
Proof.
  intros Hp Hc Hn. split; [apply Hp| |apply Hp]. intros j k' r'. simpl. rewrite lookup_insert_Some.
  intros [[[= <- <-] <-]|[_ Hr]]; [done|by apply (pv_resident _ Hp j)].
Qed.

Lemma private_forget i k sv : private sv → private (set_resident (delete (i, k) (sv_resident sv)) sv).
Proof. intros Hp. split; [apply Hp| |apply Hp]. intros j k' r'. simpl. rewrite lookup_delete_Some. intros [_ Hr]. by apply (pv_resident _ Hp j). Qed.

(** Rows may go, and may change but for their owner. *)
Lemma private_rows rows sv : private sv →
  (∀ k m, rows !! k = Some m → ∃ m', sv_rows sv !! k = Some m' ∧ m_owner m = m_owner m') → private (set_rows rows sv).
Proof. intros Hp Hr. split; [|apply Hp|apply Hp]. intros k m Hk. destruct (Hr k m Hk) as (m' & Hm' & ->). by apply (pv_rows _ Hp). Qed.

Definition same_rest (sv sv' : Server) : Prop :=
  sv_rows sv' = sv_rows sv ∧ sv_approved sv' = sv_approved sv ∧ sv_creators sv' = sv_creators sv.

Lemma rehydrate_spec i k now sv : private sv → sv_resident sv !! (i, k) = None →
  match rehydrate_session i k now sv with
  | Err e => True
  | Ok (r, sv') => private sv' ∧ same_rest sv sv' ∧ sv_creators sv !! k = Some (rs_owner r)
  end.
Proof.
  intros Hp Hr. unfold rehydrate_session, getOrCreate, open_sandbox, getSandboxMeta. destruct (sv_rows sv !! k) as [m|] eqn:Em; [|done].
  destruct (pv_rows _ Hp k m Em) as (o & Hc & Hn & Ho). rewrite Hr, Ho. simpl.
  assert (Howner : rs_owner (hydrateMetadata m (mkResident o None (m_createdAt m))) = o) by (unfold hydrateMetadata; rewrite Ho; by destruct o).
  split; [|split; [done|simpl in Howner; by rewrite Howner]].
  assert (Hp' : private (store i k (mkResident o None (m_createdAt m)) sv)) by (by apply private_store).
  apply (private_store i k _ _ Hp'); by rewrite Howner.
Qed.

Lemma owned_session_spec i k caller now sv : private sv →
  let '(r, sv') := owned_session i k caller now sv in
  private sv' ∧ same_rest sv sv' ∧ ∀ u, r = Ok u → sv_creators sv !! k = Some caller ∧ is_Some (sv_rows sv !! k).
Proof.
  intros Hp. unfold owned_session.
  assert (Hs : match match sv_resident sv !! (i, k) with Some r => Ok (r, sv) | None => rehydrate_session i k now sv end with
               | Err e => True
               | Ok (r, sv') => private sv' ∧ same_rest sv sv' ∧ sv_creators sv !! k = Some (rs_owner r)
               end).
  { destruct (sv_resident sv !! (i, k)) as [r|] eqn:Er; [|by apply rehydrate_spec]. split; [done|]. split; [done|]. by apply (pv_resident _ Hp i). }
  destruct (match sv_resident sv !! (i, k) with Some r => Ok (r, sv) | None => rehydrate_session i k now sv end) as [[r sv']|e]; [|done].
  destruct Hs as (Hp' & (Hrows & Happ & Hcr) & Hc). rewrite Hrows. destruct (sv_rows sv !! k) as [m|] eqn:Em.
  - destruct (isOwnedBy (Some (rs_owner r)) caller) eqn:Eo; (split; [done|]; split; [done|]); [|done]. intros _ _. apply owned_by in Eo as [<- _]. by rewrite Hc.
  - split; [by apply private_forget|]. split; [done|done].
Qed.

(** A creation under a new id: nothing happens, or a row of the caller appears. *)
Lemma create_spec i k owner name runtime fault now sv : private sv → sv_creators sv !! k = None → owner ≠ EmptyString →
  let '(a, sv') := create_stages i k owner name runtime fault now sv in
  sv' = sv ∧ (∃ err, a = Err err) ∨
  private sv' ∧ sv_creators sv' = <[k := owner]> (sv_creators sv) ∧ ∀ k', k' ≠ k → sv_rows sv' !! k' = sv_rows sv !! k'.
Proof.
  intros Hp Hfresh Hn. assert (Hrow : sv_rows sv !! k = None).
  { destruct (sv_rows sv !! k) as [m|] eqn:E; [|done]. destruct (pv_rows _ Hp k m E) as (o & Hc & _). congruence. }
  assert (Hres : ∀ j, sv_resident sv !! (j, k) = None).
  { intros j. destruct (sv_resident sv !! (j, k)) as [r|] eqn:E; [|done]. destruct (pv_resident _ Hp j k r E). congruence. }
  unfold create_stages. destruct (fails_at AtOpen fault) as [err|]; [left; split; [done|by exists err]|].
  unfold getOrCreate, open_sandbox, row_createSandbox. rewrite Hres, Hrow. cbv zeta.
  set (row m := <[k := m]> (sv_rows sv)). set (r' := initializeMetadata owner name (mkResident owner None now)).
  assert (Hr' : rs_owner r' = owner) by (unfold r', initializeMetadata; simpl; by case_decide).
  assert (Hnew : ∀ m, m_owner m = Some owner → private (mkServer (row m) (<[(i, k) := r']> (<[(i, k) := mkResident owner None now]> (sv_resident sv)))
    (sv_approved sv) (<[k := owner]> (sv_creators sv)))).
  { intros m Hm. split; simpl.
    - intros k' m' Hk'. unfold row in Hk'. rewrite lookup_insert_Some in Hk'. destruct Hk' as [[<- <-]|[Hne Hk']]; [exists owner; by rewrite lookup_insert_eq|].
      rewrite lookup_insert_ne by done. by apply (pv_rows _ Hp).
    - intros j k' r Hr. rewrite !lookup_insert_Some in Hr. destruct Hr as [[[= <- <-] <-]|[_ [[[= <- <-] <-]|[_ Hr]]]]; [by rewrite lookup_insert_eq, Hr'|by rewrite lookup_insert_eq|].
      destruct (decide (k' = k)) as [->|Hne]; [by rewrite Hres in Hr|]. rewrite lookup_insert_ne by done. by apply (pv_resident _ Hp j).
    - intros j k' c Hin. pose proof (pv_approved _ Hp j k' c Hin) as Hc. destruct (decide (k' = k)) as [->|Hne]; [congruence|]. by rewrite lookup_insert_ne. }
  assert (Hother : ∀ m k', k' ≠ k → row m !! k' = sv_rows sv !! k') by (intros m k' Hne; unfold row; by rewrite lookup_insert_ne).
  unfold updateSandboxMeta. simpl. rewrite lookup_insert_eq, insert_insert_eq.
  repeat case_match; simplify_eq; (right; split; [by apply Hnew|]; split; [done|]; apply Hother).
Qed.

(** The sandboxes an answer tells about. *)
Definition tells (a : Answer) (k : Key) : Prop :=
  match a with
  | Created k' _ _ _ _ | Info k' _ _ _ | Updated k' _ | Deleted k' => k' = k
  | Listed l => ∃ m, (k, m) ∈ l
  | Refuse _ _ | Allowed | ToolFailed _ => False
  end.

Lemma elem_list tenant owner rows k m : (k, m) ∈ listSandboxes tenant owner rows ↔ k.1 = tenant ∧ m_owner m = Some owner ∧ rows !! k = Some m.
Proof. unfold listSandboxes. rewrite sort_on_perm, list_elem_of_filter, elem_of_map_to_list. simpl. tauto. Qed.

(** A step on behalf of [c]: privacy is kept, creators stay, and what the answer
    tells about and what changed is the caller's. *)
Definition discreet (c : option string) (sv : Server) (r : Answer * Server) : Prop :=
  private r.2 ∧ (∀ k o, sv_creators sv !! k = Some o → sv_creators r.2 !! k = Some o) ∧
  (∀ k, tells r.1 k ∨ sv_rows r.2 !! k ≠ sv_rows sv !! k → ∃ c', c = Some c' ∧ sv_creators r.2 !! k = Some c').

Lemma discreet_silent c sv a sv' : private sv' → same_rest sv sv' → (∀ k, ¬ tells a k) → discreet c sv (a, sv').
Proof. intros Hp (Hr & _ & Hc) Ha. split; [done|]. simpl. rewrite Hc, Hr. split; [done|]. intros k [?|?]; [by destruct (Ha k)|done]. Qed.

Lemma refuse_silent status code k : ¬ tells (Refuse status code) k.
Proof. by intros []. Qed.

Lemma error_silent code k : ¬ tells (session_error code) k.
Proof. unfold session_error. case_decide; apply refuse_silent. Qed.

Lemma tool_error_silent code k : ¬ tells (tool_error code) k.
Proof. by intros []. Qed.

(** What the answer is made of: of an error nothing is told, of a success the
    sandbox [k]. *)
Definition renders {E A} (f : res E A → Answer) (k : Key) : Prop := (∀ x k', tells (f (Ok x)) k' → k' = k) ∧ (∀ e k', ¬ tells (f (Err e)) k').

Lemma stages_discreet i k owner name runtime fault now sv f : private sv → sv_creators sv !! k = None → owner ≠ EmptyString → renders f k →
  let '(r, sv') := create_stages i k owner name runtime fault now sv in discreet (Some owner) sv (f r, sv').
Proof.
  intros Hp He Hn [Hok Herr]. pose proof (create_spec i k owner name runtime fault now sv Hp He Hn) as Hs.
  destruct (create_stages i k owner name runtime fault now sv) as [r sv']. destruct Hs as [[-> [err ->]]|(Hp' & Hc & Hrows)].
  - apply discreet_silent; [done..|]. apply Herr.
  - split; [done|]. simpl in *. rewrite Hc. split; [intros k' o Ho; destruct (decide (k' = k)) as [->|]; [congruence|by rewrite lookup_insert_ne]|].
    intros k' Hx. exists owner. split; [done|]. destruct (decide (k' = k)) as [->|Hne]; [by rewrite lookup_insert_eq|]. exfalso.
    destruct Hx as [Ht|Hx]; [destruct r as [t|e]; [by apply Hok in Ht|by apply Herr in Ht]|by destruct Hx; apply Hrows].
Qed.

Lemma create_discreet l i k owner body fault now sv : private sv → sv_creators sv !! k = None → owner ≠ EmptyString →
  discreet (Some owner) sv (create_sandbox l i k owner body fault now sv).
Proof.
  intros Hp He Hn. unfold create_sandbox. destruct body as [b|]; [|by apply discreet_silent, refuse_silent].
  destruct (negb (create_valid l b)); [by apply discreet_silent, refuse_silent|].
  pose proof (stages_discreet i k owner (cb_name b) (cb_runtime b) fault now sv
    (λ r, match r with Ok createdAt => Created k owner (cb_name b) createdAt (cb_runtime b) | Err err => thrown_answer err end)) as Hs.
  destruct (create_stages i k owner (cb_name b) (cb_runtime b) fault now sv) as [r sv']. apply Hs; [done..|]. split; [by intros x k' <-|by intros e k' []].
Qed.

Lemma list_discreet tenant c sv : private sv → discreet (Some c) sv (Listed (listSandboxes tenant c (sv_rows sv)), sv).
Proof.
  intros Hp. split; [done|]. split; [done|]. simpl. intros k [[m [_ [Ho Hm]]%elem_list]|?]; [|done].
  destruct (pv_rows _ Hp k m Hm) as (o & Hc & _ & Ho'). exists c. split; [done|]. congruence.
Qed.

Lemma get_discreet i k c sv : private sv → discreet (Some c) sv (get_sandbox i k c sv, sv).
Proof.
  intros Hp. split; [done|]. split; [done|]. simpl. intros k' [Ht|?]; [|done]. exists c. split; [done|]. unfold get_sandbox in Ht.
  destruct (sv_resident sv !! (i, k)) as [r|] eqn:Er.
  - destruct (isOwnedBy (Some (rs_owner r)) c) eqn:Eo; [|done]. simpl in Ht. subst k'. apply owned_by in Eo as [<- _]. by apply (pv_resident _ Hp i).
  - unfold getSandboxMeta in Ht. destruct (sv_rows sv !! k) as [m|] eqn:Em; [|done]. destruct (pv_rows _ Hp k m Em) as (o & Hc & _ & Ho). rewrite Ho in Ht.
    destruct (isOwnedBy (Some o) c) eqn:Eo; [|done]. simpl in Ht. subst k'. by apply owned_by in Eo as [<- _].
Qed.

Lemma update_discreet i k c p now sv f : private sv → renders f k →
  let '(r, sv') := update_runtime i k c p now sv in discreet (Some c) sv (f r, sv').
Proof.
  intros Hp [Hf Herr]. unfold update_runtime.
  pose proof (owned_session_spec i k c now sv Hp) as Hs. destruct (owned_session i k c now sv) as [r sv1]. destruct Hs as (Hp1 & Hrest & Hok).
  destruct r as [u|e]; [|apply discreet_silent; [done..|apply Herr]]. destruct (Hok u eq_refl) as [Hc [m Hm]]. destruct Hrest as (Hr1 & Ha1 & Hc1).
  unfold updateSandboxRuntime. rewrite Hr1, Hm. split; [apply private_rows; [done|]|]; simpl.
  - intros k' m'. rewrite lookup_insert_Some, Hr1. intros [[<- <-]|[_ ?]]; [exists m; by split|by exists m'].
  - rewrite Hc1. split; [done|]. intros k' Hx. exists c. split; [done|]. destruct (decide (k' = k)) as [->|Hne]; [done|]. exfalso.
    destruct Hx as [Hx|Hx]; [by apply Hf in Hx|]. by rewrite lookup_insert_ne in Hx.
Qed.

Lemma approve_discreet i k c now sv f : private sv → (∀ r k', ¬ tells (f r) k') →
  let '(r, sv') := approve i k c now sv in discreet (Some c) sv (f r, sv').
Proof.
  intros Hp Hf. unfold approve. pose proof (owned_session_spec i k c now sv Hp) as Hs. destruct (owned_session i k c now sv) as [r sv1].
  destruct Hs as (Hp1 & Hrest & Hok). destruct r as [u|e]; [|apply discreet_silent; [done..|apply Hf]]. destruct Hrest as (Hr1 & Ha1 & Hc1).
  split; simpl; [|rewrite Hc1, Hr1; split; [done|by intros k' [?%Hf|?]]]. split; [apply Hp1|apply Hp1|]. intros j k' c' Hin. simpl in *.
  apply elem_of_cons in Hin as [[= -> -> ->]|Hin]; [rewrite Hc1; by apply (Hok u)|by apply (pv_approved _ Hp1 j)].
Qed.

Lemma destroy_discreet i k c sv f : private sv → sv_creators sv !! k = Some c → (∀ found k', tells (f found) k' → k' = k) →
  let '(found, sv') := destroy i k sv in discreet (Some c) sv (f found, sv').
Proof.
  intros Hp Hc Hf. unfold destroy. split; [|split].
  - apply (private_forget i k (set_rows _ sv)), private_rows; [done|]. intros k' m. unfold row_deleteSandbox. rewrite lookup_delete_Some.
    intros [_ ?]. by exists m.
  - done.
  - intros k' Hx. exists c. split; [done|]. simpl in *. destruct (decide (k' = k)) as [->|Hne]; [done|]. exfalso.
    destruct Hx as [Ht|Hx]; [by apply Hf in Ht|]. unfold row_deleteSandbox in Hx. by rewrite lookup_delete_ne in Hx.
Qed.

Lemma patch_discreet i k c body now sv : private sv → discreet (Some c) sv (patch_sandbox i k c body now sv).
Proof.
  intros Hp. unfold patch_sandbox. destruct body as [p|]; [|by apply discreet_silent, refuse_silent]. case_decide; [by apply discreet_silent, refuse_silent|].
  pose proof (update_discreet i k c p now sv (λ r, match r with Ok m => Updated k m | Err e => session_error e end) Hp) as Hs.
  destruct (update_runtime i k c p now sv) as [r sv']. apply Hs. split; [by intros m k' <-|apply error_silent].
Qed.

Lemma check_discreet i k c now sv : private sv → discreet (Some c) sv (delete_check i k c now sv).
Proof.
  intros Hp. unfold delete_check. pose proof (approve_discreet i k c now sv (λ r, match r with Ok _ => Allowed | Err e => session_error e end) Hp) as Hs.
  destruct (approve i k c now sv) as [r sv']. apply Hs. intros [[]|e] k'; [by intros []|apply error_silent].
Qed.

Lemma run_discreet i k c sv : private sv → sv_creators sv !! k = Some c → discreet (Some c) sv (delete_run i k sv).
Proof.
  intros Hp Hc. apply (destroy_discreet i k c sv (λ found : bool, if found then Deleted k else not_found)); [done..|]. by intros [] k'; [intros <-|intros []].
Qed.

Lemma tool_discreet t sv : private sv → possible (ETool t) sv → discreet (Some (tool_owner t)) sv (apply_tool t sv).
Proof.
  intros Hp [Hcaller He]. destruct t as [i k o name runtime fault now|tenant o|i k o p now|i k o now|i k o]; simpl in *.
  - unfold tool_sandbox_create.
    pose proof (stages_discreet i k o name (coalesce runtime no_runtime) fault now sv
      (λ r, match r with Ok createdAt => Created k o name createdAt (coalesce runtime no_runtime) | Err _ => ToolFailed None end)) as Hs.
    destruct (create_stages _ _ _ _ _ _ _ _) as [r sv']. apply Hs; [done|done|by apply (Hcaller o)|]. split; [by intros x k' <-|by intros e k' []].
  - by apply list_discreet.
  - unfold tool_sandbox_update. case_decide; [by apply discreet_silent; [..|intros ? []]|].
    pose proof (update_discreet i k o p now sv (λ r, match r with Ok m => Updated k m | Err e => tool_error e end) Hp) as Hs.
    destruct (update_runtime i k o p now sv) as [r sv']. apply Hs. split; [by intros m k' <-|apply tool_error_silent].
  - unfold tool_delete_check. pose proof (approve_discreet i k o now sv (λ r, match r with Ok _ => Allowed | Err e => tool_error e end) Hp) as Hs.
    destruct (approve i k o now sv) as [r sv']. apply Hs. intros [[]|e] k'; [by intros []|apply tool_error_silent].
  - apply (destroy_discreet i k o sv (λ existed : bool, if existed then Deleted k else ToolFailed (Some "sandbox not found"))); [done|by apply (pv_approved _ Hp i)|].
    by intros [] k'; [intros <-|intros []].
Qed.

(** What one event does. *)
Lemma apply_discreet e sv : private sv → possible e sv → discreet (caller_of e) sv (apply e sv).
Proof.
  intros Hp He. destruct e as [l i k owner body fault now|tenant c|i k c|i k c body now|i k c now|i k c now|i k c|t|i k]; simpl in *.
  - destruct He as [Hcaller He]. apply create_discreet; [done|done|by apply (Hcaller owner)].
  - by apply list_discreet.
  - by apply get_discreet.
  - by apply patch_discreet.
  - pose proof (owned_session_spec i k c now sv Hp) as Hs. destruct (owned_session i k c now sv) as [r sv1]. destruct Hs as (Hp1 & Hrest & _).
    apply discreet_silent; [done..|]. destruct r; [by intros ? []|apply error_silent].
  - by apply check_discreet.
  - apply run_discreet; [done|]. apply (pv_approved _ Hp i), He.
  - by apply tool_discreet.
  - apply discreet_silent; [by apply private_forget|done|by intros ? []].
Qed.

Lemma reached_private sv : reached sv → private sv.
Proof. induction 1 as [|e sv _ IH He]; [split; simpl; [by intros ? ? ?%lookup_empty_Some|by intros ? ? ? ?%lookup_empty_Some|by intros ? ? ? ?%not_elem_of_nil]|]. by apply apply_discreet. Qed.

(** C7: Sandboxes are private to who created them. After any history of requests
    and tool calls to any replica, of evictions and of failures: what the next request is told,
    and any sandbox it creates, changes or removes, belongs to its caller, and
    who created a sandbox never changes. A listing has exactly the sandboxes of
    the tenant that the caller created and that are still there. *)
Theorem sandboxes_private sv e a sv' :
  reached sv → possible e sv → apply e sv = (a, sv') →
  (∀ k, tells a k ∨ sv_rows sv' !! k ≠ sv_rows sv !! k → ∃ c, caller_of e = Some c ∧ sv_creators sv' !! k = Some c) ∧
  (∀ k o, sv_creators sv !! k = Some o → sv_creators sv' !! k = Some o) ∧
  (∀ tenant c, e = EList tenant c ∨ e = ETool (TList tenant c) → ∃ l, a = Listed l ∧
     ∀ k, (∃ m, (k, m) ∈ l) ↔ k.1 = tenant ∧ is_Some (sv_rows sv !! k) ∧ sv_creators sv !! k = Some c).
Proof.
  intros Hr He E. pose proof (reached_private _ Hr) as Hp. destruct (apply_discreet e sv Hp He) as (_ & Hcr & Htell). rewrite E in Hcr, Htell. simpl in *.
  split; [done|]. split; [done|]. intros tenant c He'. assert (a = Listed (listSandboxes tenant c (sv_rows sv))) as -> by (destruct He' as [-> | ->]; by injection E as <- _).
  eexists. split; [done|]. intros k. split.
  - intros (m & (Ht & Ho & Hm)%elem_list). destruct (pv_rows _ Hp k m Hm) as (o & Hc & _ & Ho'). split; [done|]. split; [by eexists|]. congruence.
  - intros (Ht & [m Hm] & Hc). exists m. apply elem_list. destruct (pv_rows _ Hp k m Hm) as (o & Hc' & _ & Ho'). split; [done|]. split; [congruence|done].
Qed.

(** ** The routes of a sandbox in this deployment *)

Section composed.
Context `{Config} `{Lru} (shell : string → option string → option (list (string * string)) → Script BashExecResult).

(** What a request to replica [i] finds of the sandbox; the rest is whatever it
    meets. *)
Definition visit_of (i : nat) (k : Key) (sv : Server) (met : Visit) : Visit :=
  mkVisit ((λ r, (rs_owner r, false)) <$> sv_resident sv !! (i, k)) (Ok (m_owner <$> getSandboxMeta k (sv_rows sv)))
    (Ok (default EmptyString (getSandboxMeta k (sv_rows sv) ≫= m_owner))) (vi_runtime met) (vi_closing met) (vi_lost met) (vi_ownerLost met)
    (vi_rwlockEnabled met) (vi_lock met).

Lemma visit_creator i k sv met o : private sv → session_owner (visit_of i k sv met) = Ok o → sv_creators sv !! k = Some o.
Proof.
  intros Hp. unfold session_owner, visit_of, rehydrate, getSandboxMeta. simpl. destruct (sv_resident sv !! (i, k)) as [r|] eqn:Er; simpl.
  - intros [= <-]. by apply (pv_resident _ Hp i).
  - destruct (sv_rows sv !! k) as [m|] eqn:Em; simpl; [|done]. destruct (pv_rows _ Hp k m Em) as (o' & Hc & _ & ->). simpl. intros [= <-]. by destruct o'.
Qed.

(** What happens elsewhere in the deployment in between. *)
Definition meanwhile : Server → Server → Prop := rtc (λ sv sv', ∃ e, possible e sv ∧ sv' = (apply e sv).2).

Lemma meanwhile_reached sv sv' : meanwhile sv sv' → reached sv → reached sv' ∧ ∀ k o, sv_creators sv !! k = Some o → sv_creators sv' !! k = Some o.
Proof.
  induction 1 as [sv|sv sv1 sv2 (e & He & ->) _ IH]; intros Hr; [done|]. destruct IH as [Hr2 Hcr]; [by apply reached_event|]. split; [done|].
  destruct (apply_discreet e sv (reached_private _ Hr) He) as (_ & Hc & _). intros k o Hk. by apply Hcr, Hc.
Qed.

(** A streamed execution visits the sandbox again, on the same replica, in the
    state [sv] the deployment is in by then. *)
Definition visits_again (i : nat) (k : Key) (sv : Server) (call : Call) : Prop :=
  match call with ExecStream later _ _ _ _ _ _ => ∃ met, later = visit_of i k sv met | _ => True end.

(** C6: Only who created a sandbox gets at its files. After any history of the
    deployment, a request to any file, execution (awaited, streamed or a batch)
    or ingest route of a sandbox, on any replica, whatever it carries or meets
    and whatever happens in the deployment between the two visits of a streamed
    execution: if the answer is not an error, or if the tree is not as before,
    the caller created the sandbox. *)
Theorem only_creator_served sv sv' i k met sanitize l caller call q response q' :
  hasRetire = true → reached sv → meanwhile sv sv' → visits_again i k sv' call →
  reachable_by op_safe (q_sys q) → scriptScope (s_pers (q_sys q)) = false → 0 ≤ s_readOnlyDepth (q_sys q) →
  serve shell sanitize l (visit_of i k sv met) caller call q = (response, q') →
  h_status response < 400 ∨ ¬ tree_same (s_db (q_sys q)) (s_db (q_sys q')) →
  sv_creators sv' !! k = Some caller.
Proof.
  intros Hret Hr Hm Hv Hreach Hsc Hd E Hx. destruct (meanwhile_reached _ _ Hm Hr) as [Hr' Hcr].
  destruct (only_owner_served shell sanitize l _ caller call q response q' Hret Hreach Hsc Hd E) as [Hstatus Hact].
  destruct Hx as [Hx|Hx]; [apply Hcr; eapply visit_creator; [by apply reached_private|by apply Hstatus]|].
  destruct (Hact (or_intror Hx)) as [Ho _].
  destruct call as [| | | | | | | |later run printed parse ct text query| |]; simpl in Hv, Ho;
    try (apply Hcr; by eapply visit_creator; [apply reached_private|]).
  destruct Hv as [met' ->]. by eapply visit_creator; [apply reached_private|].
Qed.
End composed.

(** ** Runs *)

Section demo_sandboxes.
#[local] Existing Instance demo_config.
#[local] Existing Instance lru_unbounded.

Definition demo_key : Key := ("default", "s1").

(** "ada" creates a sandbox. *)
Definition demo_created (fault : Fault) : Answer * Server :=
  apply (ECreate demo_limits 0 demo_key "ada" (Some (mkCreateBody None None no_runtime)) fault 1) (mkServer ∅ ∅ [] ∅).

Lemma demo_created_reached : reached (demo_created None).2.
Proof. apply reached_event; [apply reached_start|]. split; [by intros c [= <-]|done]. Qed.

Lemma sandboxes_private_witness :
  ∃ l, apply (EList "default" "ada") (demo_created None).2 = (Listed l, (demo_created None).2) ∧ ∃ m, (demo_key, m) ∈ l.
Proof.
  destruct (sandboxes_private (demo_created None).2 (EList "default" "ada") (list_sandboxes "default" "ada" (demo_created None).2) (demo_created None).2
    demo_created_reached ltac:(split; [by intros c [= <-]|done]) eq_refl) as (_ & _ & Hlist).
  destruct (Hlist "default" "ada" (or_introl eq_refl)) as (l & El & Hin). exists l. split; [by rewrite <- El|]. apply Hin.
  split; [done|]. split; [by vm_compute; eexists|by vm_compute].
Defined.

Definition demo_body : ExecBody := mkExecBody "true" None None None false false.

Definition demo_exec_run : ExecRun := mkExecRun None false false None None "/".

(** "ada" streams an execution in her sandbox. *)
Definition demo_streamed : HttpResponse * Req :=
  serve demo_shell id demo_limits (visit_of 0 demo_key (demo_created None).2 demo_visit) "ada"
    (ExecStream (visit_of 0 demo_key (demo_created None).2 demo_visit) demo_exec_run (true, false) (λ _, Some demo_body) None "true" None) demo_req.

Lemma only_creator_served_witness :
  demo_streamed.1 = mkHttp 200 (StreamBody [EvStdout; EvExit 0 None]) ∧ sv_creators (demo_created None).2 !! demo_key = Some "ada".
Proof.
  assert (Hs : demo_streamed.1 = mkHttp 200 (StreamBody [EvStdout; EvExit 0 None])) by (vm_compute; reflexivity). split; [exact Hs|].
  apply (@only_creator_served demo_config lru_unbounded demo_shell (demo_created None).2 (demo_created None).2 0 demo_key demo_visit id demo_limits "ada"
    (ExecStream (visit_of 0 demo_key (demo_created None).2 demo_visit) demo_exec_run (true, false) (λ _, Some demo_body) None "true" None)
    demo_req demo_streamed.1 demo_streamed.2 eq_refl demo_created_reached);
    [apply rtc_refl|exists demo_visit; reflexivity|exact demo_ready_reachable|vm_compute; reflexivity|vm_compute; discriminate|apply surjective_pairing|].
  left. rewrite Hs. reflexivity.
Defined.

(** A creation that fails at its files leaves the sandbox. *)
Example failed_creation_leaves_sandbox :
  let '(a, sv) := demo_created (Some (AtWrite, mkError (Some "EISDIR") EmptyString)) in
  a = Refuse 400 "EISDIR" ∧ is_Some (sv_rows sv !! demo_key).
Proof. vm_compute. split; [done|by eexists]. Qed.

(** The session is evicted between the check and the removal: the sandbox is
    deleted and the answer is that it was not found. *)
Example deletion_answers_not_found :
  let sv1 := (apply (EDeleteCheck 0 demo_key "ada" 2) (demo_created None).2).2 in
  let '(a, sv) := apply (EDeleteRun 0 demo_key "ada") (apply (EEvict 0 demo_key) sv1).2 in
  a = not_found ∧ sv_rows sv1 !! demo_key ≠ None ∧ sv_rows sv !! demo_key = None.
Proof. vm_compute. by split_and!. Qed.

(** A replica that has a session shows a sandbox that another has deleted. *)
Example deleted_sandbox_is_shown :
  let sv1 := (apply (EUse 1 demo_key "ada" 2) (demo_created None).2).2 in
  let sv2 := (apply (EDeleteRun 0 demo_key "ada") (apply (EDeleteCheck 0 demo_key "ada" 3) sv1).2).2 in
  sv_rows sv2 !! demo_key = None ∧ get_sandbox 1 demo_key "ada" sv2 = Info demo_key None (Some "ada") 1 ∧ get_sandbox 0 demo_key "ada" sv2 = not_found.
Proof. vm_compute. by split_and!. Qed.
End demo_sandboxes.
