(* ===== verification/WorkerProtocol.v ===== *)
(** Sessions in worker threads (src/src/api/worker-owner/protocol.ts,
    request-outcome.ts, runtime.ts, filesystem.ts, the threads and requests of
    pool.ts, message-budget.ts, and [createPostgresSandboxFs] and
    [retirePostgresSandboxGeneration] of src/src/sql-fs/index.ts).

    The parent sends commands to a worker that owns the session of a sandbox.
    A worker can stop at any time, with a command posted and its outcome
    unknown. What happens to a command is its [Fate]. *)

From S2P Require Import Prelude Errors Paths Store Tree Dialect Lifecycle LoadPaths View Session Namespace Coherence Simulation Journal Invariant Mutate Handlers SqlFs Ingest IngestRows IngestSim IngestSound Scopes Machine Guarantees Isolation Contents Exec ApiErrors.

(** ** Commands *)

(** [c_op]: writeFile to utimes and bulkIngest; [c_query]: the reads. *)
Inductive OwnerCommand :=
| c_attach (openExisting : bool)
| c_exec (script : Script BashExecResult) (stdin : Z)
| c_op (o : FsOp)
| c_query (q : FsQuery)
| c_paths
| c_reload
| c_fresh
| c_runtime
| c_beginScope
| c_endScope
| c_abortScope
| c_disconnect
| c_clearDirty
| c_shutdown.

Definition mayApply (command : OwnerCommand) : bool :=
  match command with
  | c_attach openExisting => negb openExisting
  | c_exec _ _ => true
  | c_op o => mutating o
  | c_query _ => false
  | c_paths | c_reload | c_fresh | c_runtime | c_beginScope => false
  | c_endScope => true
  | c_abortScope | c_disconnect | c_clearDirty | c_shutdown => false
  end.

Definition is_attach (command : OwnerCommand) : bool := match command with c_attach _ => true | _ => false end.
Definition is_exec (command : OwnerCommand) : bool := match command with c_exec _ _ => true | _ => false end.
Definition is_endScope (command : OwnerCommand) : bool := match command with c_endScope => true | _ => false end.

(** ** Errors *)

Definition OutcomeUnknownError : JsError :=
  mkError (Some "EEXEC_OUTCOME_UNKNOWN")
    "EEXEC_OUTCOME_UNKNOWN: the worker stopped after dispatch; the write outcome is unknown; do not replay the script".

Definition workerFailureCode (error : JsError) : option string := e_code error.

(** [OwnerThread.failure] *)
Definition thread_failure (safeToRetry : bool) : JsError :=
  if safeToRetry then mkError (Some "EWORKER_UNAVAILABLE") "EWORKER_UNAVAILABLE: read worker stopped; no write was dispatched"
  else OutcomeUnknownError.

(** ** What is known about a request *)

Record RequestOutcome := mkOutcome {
  mayHaveEffects : bool;
  creatingAttachDispatched : bool;
  execDispatched : bool;
  committedFsWrite : bool;
  scopeOpen : bool;
}.

Definition new_outcome : RequestOutcome := mkOutcome false false false false false.

Definition dispatched (command : OwnerCommand) (o : RequestOutcome) : RequestOutcome :=
  mkOutcome
    (mayHaveEffects o || mayApply command)
    (creatingAttachDispatched o || is_attach command && mayApply command)
    (execDispatched o || is_exec command)
    (committedFsWrite o) (scopeOpen o).

Definition acknowledged (command : OwnerCommand) (hasReadOnlyContext : bool) (o : RequestOutcome) : RequestOutcome :=
  let open := match command with c_beginScope => true | c_endScope | c_abortScope => false | _ => scopeOpen o end in
  mkOutcome (mayHaveEffects o) (creatingAttachDispatched o) (execDispatched o)
    (committedFsWrite o || mayApply command && negb (is_exec command) && negb open && negb hasReadOnlyContext)
    open.

Definition transportFailure (error : JsError) (o : RequestOutcome) : JsError :=
  if mayHaveEffects o && bool_decide (workerFailureCode error = Some "EWORKER_UNAVAILABLE") then OutcomeUnknownError else error.

Definition leaseLoss (error : option JsError) (o : RequestOutcome) : option JsError :=
  if negb (execDispatched o) && negb (committedFsWrite o) && negb (creatingAttachDispatched o) then None
  else match error with
       | Some e => Some (if preservesAmbiguousOutcome (Some e) then e else OutcomeUnknownError)
       | None => Some OutcomeUnknownError
       end.

Definition runtimeFailure (error : JsError) (o : RequestOutcome) : JsError :=
  if bool_decide (workerFailureCode error = Some "ECOHERENCE") && execDispatched o then
    mkError (Some "EEXEC_OUTCOME_UNKNOWN")
      "EEXEC_OUTCOME_UNKNOWN: exec may have committed before coherence recovery failed; inspect sandbox state before proceeding; do not automatically replay the execution"
  else if bool_decide (workerFailureCode error = Some "ERUNTIME_BUSY") && (execDispatched o || committedFsWrite o) then
    mkError (Some "EEXEC_OUTCOME_UNKNOWN")
      "EEXEC_OUTCOME_UNKNOWN: an earlier operation in this request may have applied; do not replay the request"
  else error.

(** ** The worker *)

Inductive OwnerValue := VUnit | VAnswer (a : FsAnswer) | VPaths (l : list string) | VFresh (b : bool) | VExec (r : BashExecResult).

Record OwnerMetadata := mkMetadata { md_cwd : string; md_dirty : bool; md_poisoned : bool; md_pathCacheBytes : Z }.

#[export] Instance OwnerMetadata_eq_dec : EqDecision OwnerMetadata.
Proof. solve_decision. Defined.

Record WorkerResident := mkWorkerResident { wr_generation : Z; wr_cwd : string }.

Record Worker := mkWorker { wk_resident : option WorkerResident; wk_sys : Sys }.

Abbreviation wkM := (M Worker fs_error).

(** The lease word of a command's cancellation buffer, when the handler starts,
    when a script has run, and when a scope ends. *)
Record Lease := mkLease { l_start : bool; l_ran : bool; l_end : bool }.

Record OwnerRequest := mkRequest { rq_generation : Z; rq_command : OwnerCommand; rq_readOnly : bool }.

Record OwnerReply := mkReply {
  rp_generation : Z;
  rp_metadata : option OwnerMetadata;
  rp_readOnlyViolated : bool;
  rp_outcome : res JsError OwnerValue;
}.

Section worker.
Context `{Config} `{Lru}.
Context (execFileLimitBytes execInputLimitBytes : option Z) (owner : string).

Definition onSession {A} (m : sysM A) : wkM A := λ w,
  let '(r, s') := m (wk_sys w) in (r, mkWorker (wk_resident w) s').

Definition set_resident (r : option WorkerResident) : wkM unit := modifyS (λ w, mkWorker r (wk_sys w)).

(** A new filesystem object on the same database. *)
Definition new_session (s : Sys) : Sys := mkSys (s_db s) initial_view initial_pers 0 (s_violated s) None (s_lease s) (s_tick s) (s_now s).

(** [createPostgresSandboxFs]: the sandbox is looked up or created, then loaded. *)
Definition createPostgresSandboxFs (openExisting : bool) : sysM unit :=
  let* d := gets s_db in
  (if openExisting then throw_if (bool_decide (sandboxes d !! sandboxId = None)) (ENOENT ("/" +:+ sandboxId))
   else match transaction (createSandbox sandboxId owner) d with
        | (Ok _, d') => modifyS (set_db d')
        | (Err e, _) => throw_if (negb (bool_decide (error_code e = Some "23505"))) e
        end) ;;;
  modifyS new_session ;;;
  ready.

Definition residentFor (request : OwnerRequest) : wkM WorkerResident :=
  let* r := gets wk_resident in
  match r with
  | Some resident => if decide (wr_generation resident = rq_generation request) then retM resident else throw (ESTALE sandboxId)
  | None => throw (ESTALE sandboxId)
  end.

Definition assertOwnerLease (lost : bool) : wkM unit := throw_if lost (ELOCKLOST "worker owner lease lost").

(** The filesystem's connection is closed whether or not the abort throws. *)
Definition closeSessionRuntime : wkM unit := onSession abortScope.

Definition shutdownOwner : wkM unit :=
  let* r := gets wk_resident in
  match r with
  | None => retM tt
  | Some _ => let* outcome := attempt closeSessionRuntime in set_resident None ;;; lift_res outcome
  end.

Definition attachOwner (openExisting : bool) (cwd : string) (request : OwnerRequest) : wkM unit :=
  let* r := gets wk_resident in
  throw_if (bool_decide (is_Some r)) (PlainError "worker already has a resident filesystem") ;;;
  onSession (createPostgresSandboxFs openExisting) ;;;
  set_resident (Some (mkWorkerResident (rq_generation request) cwd)).

Definition endScope_handler (lease : Lease) : wkM unit :=
  catch (assertOwnerLease (l_start lease) ;;; onSession (endScope (l_end lease)))
    (λ error, attempt (onSession abortScope) ;;; throw error).

Definition valueM {A} (f : A → OwnerValue) (m : wkM A) : wkM OwnerValue := mapM f m.

(** [handlers], one case per command. *)
Definition dispatch (cwd : string) (request : OwnerRequest) (lease : Lease) : wkM OwnerValue :=
  match rq_command request with
  | c_shutdown => valueM (λ _, VUnit) shutdownOwner
  | c_attach openExisting => valueM (λ _, VUnit) (attachOwner openExisting cwd request)
  | c_exec script stdin =>
      let* resident := residentFor request in
      let* rc := onSession (executeSessionRuntime
        (mkExecEnv (rq_readOnly request) execFileLimitBytes execInputLimitBytes stdin (l_ran lease) (l_end lease))
        (wr_cwd resident) script) in
      set_resident (Some (mkWorkerResident (wr_generation resident) rc.2)) ;;;
      retM (VExec rc.1)
  | c_paths => residentFor request ;;; onSession assertAlive ;;; gets (λ w, VPaths ((v_entries (s_view (wk_sys w))).*1))
  | c_reload => residentFor request ;;; valueM (λ _, VUnit) (onSession reload)
  | c_fresh =>
      residentFor request ;;;
      let* claimed := onSession fs_claimGeneration in
      let* fresh := onSession ensureFresh in
      retM (VFresh (fresh || claimed))
  | c_runtime => residentFor request ;;; retM VUnit
  | c_clearDirty => residentFor request ;;; valueM (λ _, VUnit) (onSession clearDirty)
  | c_beginScope => residentFor request ;;; valueM (λ _, VUnit) (onSession beginScope)
  | c_endScope => residentFor request ;;; valueM (λ _, VUnit) (endScope_handler lease)
  | c_abortScope => residentFor request ;;; valueM (λ _, VUnit) (onSession abortScope)
  | c_disconnect => residentFor request ;;; closeSessionRuntime ;;; set_resident None ;;; retM VUnit
  | c_query q => residentFor request ;;; valueM VAnswer (onSession (run_query q))
  | c_op o =>
      residentFor request ;;;
      (if mutating o then assertOwnerLease (l_start lease) else retM tt) ;;;
      valueM (λ _, VUnit) (onSession (run_op o))
  end.

Definition metadata_of (w : Worker) : option OwnerMetadata :=
  match wk_resident w with
  | None => None
  | Some r => let v := s_view (wk_sys w) in Some (mkMetadata (wr_cwd r) (v_dirty v) (v_poisoned v) (v_bytes v))
  end.

(** An error of a handler as the reply carries it. *)
Definition reply_error (command : OwnerCommand) (e : fs_error) : JsError :=
  let err := js_error e in
  if is_exec command && (bool_decide (e_code err = Some "EDRIVERFAULT")
       || match e_code err with Some code => CONNECTION_EXCEPTION_SQLSTATE code | None => false end)
  then OutcomeUnknownError else err.

(** The context of a read-only command: it opens the scope of the resident
    filesystem, and has a violation flag of its own. *)
Definition in_readonly {A} (m : wkM A) : Worker → res fs_error A * bool * Worker := λ w,
  let opened := bool_decide (is_Some (wk_resident w)) in
  let s0 := if opened then (beginReadOnlyScope (wk_sys w)).2 else wk_sys w in
  let '(r, w1) := m (mkWorker (wk_resident w) (set_violated (Some false) s0)) in
  let s1 := set_violated (s_violated (wk_sys w)) (wk_sys w1) in
  (r, default false (s_violated (wk_sys w1)), mkWorker (wk_resident w1) (if opened then (endReadOnlyScope s1).2 else s1)).

(** How the handler of a command ends: it runs, or the connection to the
    database is lost under it, with the database as [d]. *)
Inductive Handling := HRuns (lease : Lease) | HFaults (e : fs_error) (d : db).

Definition run_handler (cwd : string) (request : OwnerRequest) (h : Handling) : wkM OwnerValue :=
  match h with
  | HRuns lease => dispatch cwd request lease
  | HFaults e d => modifyS (λ w, mkWorker (wk_resident w) (set_db d (wk_sys w))) ;;; throw e
  end.

(** [fits]: the reply is within the budget of a message. *)
Context (fits : OwnerReply → bool).

Definition budgetWorkerReply (reply : OwnerReply) (command : OwnerCommand) : option OwnerReply :=
  if fits reply then Some reply
  else
    let unknown := mayApply command ||
      match rp_outcome reply with Err e => bool_decide (e_code e = Some "EEXEC_OUTCOME_UNKNOWN") | Ok _ => false end in
    let failure :=
      if unknown then mkError (Some "EEXEC_OUTCOME_UNKNOWN")
        "EEXEC_OUTCOME_UNKNOWN: worker reply exceeds its byte budget; do not replay the request"
      else mkError (Some "EFBIG") "EFBIG: worker reply exceeds its byte budget" in
    let bounded := mkReply (rp_generation reply) (rp_metadata reply) (rp_readOnlyViolated reply) (Err failure) in
    if fits bounded then Some bounded
    else
      let retired := mkReply (rp_generation reply) None (rp_readOnlyViolated reply) (Err OutcomeUnknownError) in
      if fits retired then Some retired else None.

(** A message of the parent: the reply, if the worker gets to post one, and
    whether it goes on living. *)
Definition on_message (cwd : string) (request : OwnerRequest) (h : Handling) (w : Worker) : option OwnerReply * bool * Worker :=
  let '(r, violated, w') :=
    if rq_readOnly request then in_readonly (run_handler cwd request h) w
    else let '(r, w') := run_handler cwd request h w in (r, false, w') in
  let outcome := match r with Ok v => Ok v | Err e => Err (reply_error (rq_command request) e) end in
  match budgetWorkerReply (mkReply (rq_generation request) (metadata_of w') violated outcome) (rq_command request) with
  | None => (None, false, w')
  | Some reply => (Some reply, negb (bool_decide (is_Some (wk_resident w')) && bool_decide (rp_metadata reply = None)), w')
  end.

(** ** The parent *)

(** What becomes of a command on a live thread: it is not posted, it is posted
    and the thread stops with the database as [d], or it is handled. *)
Inductive Fate :=
| FTooBig
| FAborted
| FPostFailed
| FStopped (d : db)
| FHandled (h : Handling).

(** A slot with its thread, and the outcome of the reservation that uses it. *)
Record Pool := mkPool {
  pl_worker : Worker;
  pl_generation : Z;
  pl_dead : bool;
  pl_residentKey : option string;
  pl_metadata : option OwnerMetadata;
  pl_outcome : RequestOutcome;
  pl_restarts : nat;
  pl_unknownOutcomes : nat;
}.

Abbreviation poolM := (M Pool JsError).

Definition set_outcome (o : RequestOutcome) (p : Pool) : Pool :=
  mkPool (pl_worker p) (pl_generation p) (pl_dead p) (pl_residentKey p) (pl_metadata p) o (pl_restarts p) (pl_unknownOutcomes p).

Definition set_thread (w : Worker) (dead : bool) (p : Pool) : Pool :=
  mkPool w (pl_generation p) dead (pl_residentKey p) (pl_metadata p) (pl_outcome p) (pl_restarts p) (pl_unknownOutcomes p).

Definition set_slot (generation : Z) (key : option string) (md : option OwnerMetadata) (p : Pool) : Pool :=
  mkPool (pl_worker p) generation (pl_dead p) key md (pl_outcome p) (pl_restarts p) (pl_unknownOutcomes p).

(** [OwnerThread.request] and the reply or failure it is answered with. *)
Definition request (cwd : string) (command : OwnerCommand) (readOnly : bool) (fate : Fate) : poolM OwnerReply := λ p,
  if pl_dead p then (Err (thread_failure true), p)
  else
    let posted := set_outcome (dispatched command (pl_outcome p)) p in
    let lost := thread_failure (negb (mayApply command)) in
    match fate with
    | FTooBig => (Err (mkError (Some "EFBIG") "EFBIG: worker message exceeds its byte budget"), p)
    | FAborted => (Err (mkError (Some "ABORTED") "ABORTED"), p)
    | FPostFailed => (Err (thread_failure true), p)
    | FStopped d => (Err lost, set_thread (mkWorker (wk_resident (pl_worker p)) (set_db d (wk_sys (pl_worker p)))) true posted)
    | FHandled h =>
        match on_message cwd (mkRequest (pl_generation p) command readOnly) h (pl_worker p) with
        | (None, _, w') => (Err lost, set_thread w' true posted)
        | (Some reply, alive, w') => (Ok reply, set_thread w' (negb alive) posted)
        end
    end.

(** [send]: [readOnlyContext] is whether the caller is a read request. *)
Definition send (cwd : string) (readOnlyContext : bool) (forceReadOnly : option bool) (command : OwnerCommand) (fate : Fate)
    : poolM OwnerValue := λ p,
  match request cwd command (default readOnlyContext forceReadOnly) fate p with
  | (Err error, p1) => (Err (transportFailure error (pl_outcome p1)), p1)
  | (Ok reply, p1) =>
      if decide (rp_generation reply = pl_generation p1) then
        let p2 := match rp_metadata reply with
                  | Some md => set_slot (pl_generation p1) (pl_residentKey p1) (Some md) p1
                  | None => p1
                  end in
        match rp_outcome reply with
        | Err error => (Err error, p2)
        | Ok value => (Ok value, set_outcome (acknowledged command readOnlyContext (pl_outcome p2)) p2)
        end
      else (Err OutcomeUnknownError, p1)
  end.

(** [attach]: a dead thread is replaced; the session of another sandbox leaves.
    [started]: the new thread gets ready. *)
Definition attach (cwd key : string) (openExisting readOnlyContext started : bool) (leave enter : Fate) : poolM unit :=
  let* dead := gets pl_dead in
  (if dead then
     modifyS (λ p, mkPool (mkWorker None (new_session (wk_sys (pl_worker p)))) (pl_generation p) (negb started) None None
                     (pl_outcome p) (S (pl_restarts p)) (pl_unknownOutcomes p)) ;;;
     throw_if (negb started) (thread_failure true)
   else retM tt) ;;;
  let* resident := gets pl_residentKey in
  (if decide (resident = Some key) then retM tt
   else
    (match resident with
     | Some _ => send cwd readOnlyContext (Some true) c_disconnect leave ;;; modifyS (λ p, set_slot (pl_generation p) None None p)
     | None => retM tt
     end) ;;;
    modifyS (λ p, set_slot (pl_generation p + 1) (pl_residentKey p) (pl_metadata p) p) ;;;
    send cwd readOnlyContext (Some true) (c_attach openExisting) enter ;;;
    modifyS (λ p, set_slot (pl_generation p) (Some key) (pl_metadata p) p)) ;;;
  let* md := gets pl_metadata in
  throw_if (bool_decide (md = None)) (mkError None "worker did not return resident metadata").

(** [recover]: the thread is stopped, and the generation retired in the
    database so that nothing it still holds can commit. *)
Definition recover (error : JsError) : poolM unit :=
  let code := workerFailureCode error in
  if negb (bool_decide (code = Some "EEXEC_OUTCOME_UNKNOWN") || bool_decide (code = Some "EWORKER_UNAVAILABLE")) then retM tt
  else
    modifyS (λ p, mkPool (pl_worker p) (pl_generation p) true None None (pl_outcome p) (pl_restarts p)
      (if decide (code = Some "EEXEC_OUTCOME_UNKNOWN") then S (pl_unknownOutcomes p) else pl_unknownOutcomes p)) ;;;
    λ p, let s := wk_sys (pl_worker p) in
         match transaction (retireSandboxGeneration sandboxId (Ok tt)) (s_db s) with
         | (Ok _, d') => (Ok tt, set_thread (mkWorker (wk_resident (pl_worker p)) (set_db d' s)) true p)
         | (Err e, _) => (Err (js_error e), p)
         end.

Definition leaseLostAfterWork (error : option JsError) : poolM unit :=
  let* failure := gets (λ p, leaseLoss error (pl_outcome p)) in
  match failure with
  | None => retM tt
  | Some failure => attempt (recover OutcomeUnknownError) ;;; throw failure
  end.

(** [aborted]: the lease's signal, when the function has ended. *)
Definition withLease {A} (aborted : bool) (fn : poolM A) : poolM A :=
  let* outcome := attempt fn in
  match outcome with
  | Err error =>
      (if aborted || bool_decide (workerFailureCode error = Some "ELOCKLOST") then leaseLostAfterWork (Some error) else retM tt) ;;;
      let* failure := gets (λ p, runtimeFailure error (pl_outcome p)) in
      (if bool_decide (workerFailureCode error = Some "ECOHERENCE") && negb (bool_decide (e_code failure = e_code error))
       then attempt (recover failure) ;;; retM tt else retM tt) ;;;
      throw failure
  | Ok result => (if aborted then leaseLostAfterWork None else retM tt) ;;; retM result
  end.
End worker.
