(* ===== verification/WorkerSafety.v ===== *)
(** What a request that runs in a worker may tell its client.

    A [Client] is a request as the parent runs it: it sends commands, sees the
    answers, and goes on. [disciplined] is what the routes keep to: they write
    inside a scope, and they do not swallow an answer that leaves the outcome
    open. Under it, an answer that invites a retry means that nothing was
    applied, whenever the worker stops and whatever becomes of the lease. *)

From S2P Require Import Prelude Errors Paths Store Tree Dialect Lifecycle LoadPaths View Session Namespace Coherence Simulation Journal Invariant Mutate Handlers SqlFs Ingest IngestRows IngestSim IngestSound Scopes Machine Guarantees Isolation Contents Exec ExecSound Readers ApiErrors WorkerProtocol.

(** ** Clients *)

Inductive Client (A : Type) : Type :=
| KReturn (a : A)
| KThrow (e : JsError)
| KSend (command : OwnerCommand) (k : res JsError OwnerValue → Client A).
Arguments KReturn {A} a.
Arguments KThrow {A} e.
Arguments KSend {A} command k.

(** [runInScriptScope] on a [WorkerScriptScope]: the scope ends when the body
    returns and is aborted when it throws. After [endScope] the scope is not
    active any more, so the abort that follows its failure sends nothing. *)
Fixpoint in_worker_scope {A} (body : Client A) : Client A :=
  match body with
  | KReturn a => KSend c_endScope (λ r, match r with Ok _ => KReturn a | Err e => KThrow e end)
  | KThrow e => KSend c_abortScope (λ _, KThrow e)
  | KSend command k => KSend command (λ r, in_worker_scope (k r))
  end.

Definition runInWorkerScope {A} (body : Client A) : Client A :=
  KSend c_beginScope (λ r, match r with Ok _ => in_worker_scope body | Err e => KThrow e end).

(** [ensureFreshCache] of a worker session, then the body. *)
Definition fresh_then {A} (body : Client A) : Client A :=
  KSend c_fresh (λ r, match r with Ok _ => body | Err e => KThrow e end).

(** *** Discipline *)

(** The outcome of the command is open, or the thread is gone. *)
Definition grave (e : JsError) : bool :=
  preservesAmbiguousOutcome (Some e) || bool_decide (e_code e = Some "EWORKER_UNAVAILABLE").

(** What may still be sent when the request has failed. *)
Definition cleaning (command : OwnerCommand) : Prop := command = c_abortScope ∨ command = c_clearDirty.

(** The request ends with this error. *)
Inductive rethrows {A} (e : JsError) : Client A → Prop :=
| rt_throw : rethrows e (KThrow e)
| rt_send command k : cleaning command → (∀ r, rethrows e (k r)) → rethrows e (KSend command k).

(** The commands of a request on an existing sandbox: changes only inside a
    scope ([open]). *)
Definition allowed (open : bool) (command : OwnerCommand) : Prop :=
  match command with
  | c_op o => op_safe o ∧ (mutating o = true → open = true)
  | c_query _ | c_paths | c_runtime | c_clearDirty => True
  | c_exec script _ => open = false
  | c_fresh | c_beginScope => open = false
  | c_endScope => open = true
  | _ => False
  end.

Definition scope_after (open : bool) (command : OwnerCommand) : bool :=
  match command with c_beginScope => true | c_endScope => false | _ => open end.

(** An error the caller may handle: of a call of the filesystem or of a script. *)
Definition forgivable (command : OwnerCommand) (e : JsError) : bool :=
  match command with c_op _ | c_query _ | c_exec _ _ => negb (grave e) | _ => false end.

Inductive disciplined {A} : bool → Client A → Prop :=
| d_return open a : disciplined open (KReturn a)
| d_fails open e body : e_code e ≠ Some "EWORKER_UNAVAILABLE" → rethrows e body → disciplined open body
| d_send open command k :
    allowed open command →
    (∀ v, disciplined (scope_after open command) (k (Ok v))) →
    (∀ e, forgivable command e = true → disciplined open (k (Err e))) →
    (∀ e, forgivable command e = false → rethrows e (k (Err e))) →
    disciplined open (KSend command k).

Lemma rethrows_scope {A} e (body : Client A) : rethrows e body → rethrows e (in_worker_scope body).
Proof. induction 1; simpl; [apply rt_send; [by left|]; intros _; apply rt_throw|by apply rt_send]. Qed.

(** The body leaves the ends of its scope to the wrapper. *)
Fixpoint scope_free {A} (body : Client A) : Prop :=
  match body with
  | KReturn _ | KThrow _ => True
  | KSend command k => command ≠ c_endScope ∧ ∀ r, scope_free (k r)
  end.

Lemma in_scope_disciplined {A} open (body : Client A) :
  disciplined open body → open = true → scope_free body → disciplined true (in_worker_scope body).
Proof.
  induction 1 as [open a|open e body He Hre|open command k Hal Hok IHok Hfo IHfo Hre]; intros -> Hfree.
  - simpl. apply d_send; [done|intros v; apply d_return|done|intros e _; apply rt_throw].
  - by apply (d_fails _ e), rethrows_scope.
  - simpl in *. destruct Hfree as [Hne Hfree].
    assert (Hsc : scope_after true command = true) by (destruct command; done).
    apply d_send; [done| | |intros e He; apply rethrows_scope; auto].
    + intros v. rewrite Hsc. apply IHok; [done|apply Hfree].
    + intros e He. by apply IHfo.
Qed.

(** A body disciplined inside a scope is, with the scope around it, outside. *)
Lemma scope_disciplined {A} (body : Client A) :
  disciplined true body → scope_free body → disciplined false (runInWorkerScope body).
Proof.
  intros Hd Hf. apply d_send; [done|intros v; by apply (in_scope_disciplined true)|done|intros e _; apply rt_throw].
Qed.

Lemma fresh_disciplined {A} (body : Client A) : disciplined false body → disciplined false (fresh_then body).
Proof. intros Hd. apply d_send; [done|by intros v|done|intros e _; apply rt_throw]. Qed.

(** ** An abort writes nothing *)

Section kept.
Context `{Config} `{Lru}.

Definition kept {B} (m : sysM B) : Prop := ∀ s, s_db (m s).2 = s_db s.
Definition kept_tx {B} (m : stM B) : Prop := ∀ st, s_db (m st).2.1 = s_db st.1 ∧ t_db (m st).2.2 = t_db st.2.

Lemma kept_bind {B C} (m : sysM B) (f : B → sysM C) : kept m → (∀ b, kept (f b)) → kept (bindM m f).
Proof. intros Hm Hf s. specialize (Hm s). unfold bindM. destruct (m s) as [[b|e] s']; [|done]. simpl in *. by rewrite Hf. Qed.

Lemma kept_tx_bind {B C} (m : stM B) (f : B → stM C) : kept_tx m → (∀ b, kept_tx (f b)) → kept_tx (bindM m f).
Proof.
  intros Hm Hf st. specialize (Hm st). unfold bindM. destruct (m st) as [[b|e] st']; [|done].
  destruct (Hf b st') as [H1 H2]. simpl in *. destruct Hm as [H3 H4]. by rewrite H1, H2.
Qed.

Lemma kept_inTx {B} (m : stM B) : kept_tx m → kept (inTx m).
Proof.
  intros Hm s. specialize (Hm (s, mkTx (s_db s) None None)). unfold inTx.
  destruct (m (s, mkTx (s_db s) None None)) as [[b|e] [s' t]]; simpl in *; by destruct Hm.
Qed.

Lemma kept_onTx {B} (m : txM B) : (∀ t, t_db (m t).2 = t_db t) → kept_tx (onTx m).
Proof. intros Hm st. unfold onTx. specialize (Hm st.2). by destruct (m st.2). Qed.

Lemma kept_reads {B} (m : sysM B) : reads m → kept m.
Proof. intros Hm s. apply Hm. Qed.

Lemma kept_check l : kept (check_loaded l).
Proof. induction l as [|p l IH]; simpl; [done|]. apply kept_bind; [done|]. intros path. by apply kept_bind. Qed.

Lemma kept_load force : kept (loadCommittedView force).
Proof.
  unfold loadCommittedView. apply kept_bind.
  - apply kept_inTx. apply kept_tx_bind; [by apply kept_onTx|]. intros _.
    apply kept_tx_bind; [apply kept_onTx; intros t; unfold getSandboxEpoch; by destruct (sel_sandbox t sandboxId)|]. intros epoch.
    apply kept_tx_bind; [done|]. intros v. case_match; [done|].
    apply kept_tx_bind; [apply kept_onTx; intros t; unfold loadAllPaths, liftS; by repeat case_match|]. intros rows.
    apply kept_tx_bind; [intros st; unfold throw_if; by case_match|]. done.
  - intros view. apply kept_bind; [apply kept_reads, reads_alive|]. intros _. destruct view as [[epoch entries]|]; [|done].
    apply kept_bind; [apply kept_check|]. intros _. by apply kept_bind.
Qed.

Lemma kept_abort : kept abortScope.
Proof.
  unfold abortScope, isActive. apply kept_bind; [done|]. intros []; [|done]. apply kept_bind.
  - unfold abort. apply kept_bind; [done|]. intros p. destruct (scriptScope p); [|done]. by apply kept_bind.
  - intros []; [|done]. intros s. unfold recoverCommittedView, catch.
    assert (Hr : kept (reload ;;; clearDirty)).
    { apply kept_bind; [|done]. apply kept_bind; [apply kept_reads, reads_alive|]. intros _. apply kept_bind; [done|].
      intros []; [done|]. apply kept_bind; [apply kept_load|done]. }
    specialize (Hr s). by destruct ((reload ;;; clearDirty) s) as [[]].
Qed.
End kept.

(** ** Runs *)

Section runs.
Context `{Config} `{Lru}.
Context (execFileLimitBytes execInputLimitBytes : option Z) (owner : string) (fits : OwnerReply → bool) (cwd : string).

Definition send_cmd (command : OwnerCommand) (fate : Fate) : M Pool JsError OwnerValue :=
  send execFileLimitBytes execInputLimitBytes owner fits cwd false None command fate.

Definition pool_db (p : Pool) : db := s_db (wk_sys (pl_worker p)).

(** A call of the filesystem, whose error the caller may handle. *)
Definition is_call (command : OwnerCommand) : bool := match command with c_op _ | c_query _ => true | _ => false end.

(** A worker that stops, or loses its connection, has not changed the tree by a
    command that cannot; otherwise the database is whatever it is. A lost
    connection is reported as such, and EWORKER_UNAVAILABLE is the parent's own
    code, which no handler throws. *)
Definition fate_ok (p : Pool) (command : OwnerCommand) (fate : Fate) : Prop :=
  match fate with
  | FStopped d => mayApply command = false → tree_same (pool_db p) d
  | FHandled (HFaults e d) =>
      preservesAmbiguousOutcome (Some (js_error e)) = true ∧
      (mayApply command = false → tree_same (pool_db p) d ∧ (is_call command = true → d = pool_db p))
  | FHandled (HRuns lease) =>
      ∀ e w', dispatch execFileLimitBytes execInputLimitBytes owner cwd (mkRequest (pl_generation p) command false) lease (pl_worker p)
              = (Err e, w') → error_code e ≠ Some "EWORKER_UNAVAILABLE"
  | FAborted => command ≠ c_endScope
  | _ => True
  end.

Inductive runs {A} : Client A → Pool → res JsError A → Pool → Prop :=
| runs_return a p : runs (KReturn a) p (Ok a) p
| runs_throw e p : runs (KThrow e) p (Err e) p
| runs_send command k fate p r p1 r' p2 :
    fate_ok p command fate → send_cmd command fate p = (r, p1) → runs (k r) p1 r' p2 →
    runs (KSend command k) p r' p2.

(** *** One command in the worker *)

(** A session between two commands: sound, not poisoned, its scope open or not. *)
Record fit (open : bool) (s : Sys) : Prop := {
  fit_inv : Inv s;
  fit_sound : v_poisoned (s_view s) = false;
  fit_scope : scriptScope (s_pers s) = open;
}.

Lemma fit_in_scope s : fit true s ↔ in_scope s.
Proof. split; intros []; by constructor. Qed.

Lemma tree_refl d : tree_same d d.
Proof. done. Qed.

Context (Hretire : hasRetire = true).

Lemma fit_reads {B} (m : sysM B) open s : reads m → Inv (m s).2 → fit open s →
  fit open (m s).2 ∧ tree_same (s_db s) (s_db (m s).2).
Proof.
  intros Hm Hi [_ Hp Hs]. destruct (Hm s) as (Hd & Hpe & _ & _ & Hpo). rewrite Hd. split; [|apply tree_refl].
  split; [done|by rewrite Hpo|by rewrite Hpe].
Qed.

Lemma fit_query q open s : fit open s → fit open (run_query q s).2 ∧ tree_same (s_db s) (s_db (run_query q s).2).
Proof using All. intros Hs. apply fit_reads; [apply reads_query| |done]. apply query_keeps; [done|apply Hs..]. Qed.

Lemma fit_op o open s : op_safe o → (mutating o = true → open = true) → fit open s →
  fit open (run_op o s).2 ∧ tree_same (s_db s) (s_db (run_op o s).2).
Proof using All.
  intros Ho Hm Hs. destruct (mutating o) eqn:Em.
  - rewrite Hm in * by done. destruct (client_op Hretire o Ho s) as [Hs' Hr]; [by apply fit_in_scope|].
    split; [by apply fit_in_scope|by apply rows_tree].
  - apply fit_reads; [by apply reads_op| |done]. apply (sound_keeps _ (run_op_sound Hretire o Ho)); apply Hs.
Qed.

Lemma fit_begin s : fit false s → ∃ s', beginScope s = (Ok tt, s') ∧ fit true s' ∧ s_db s' = s_db s.
Proof.
  intros [Hi Hp Hs]. destruct (begin_run s Hi Hp Hs) as (s0 & E & Hin & Hd). exists s0. split; [|by rewrite fit_in_scope].
  unfold beginScope, isActive. by rewrite bindM_gets, Hs.
Qed.

Lemma fit_fresh s : fit false s →
  match (let* claimed := fs_claimGeneration in let* fresh := ensureFresh in retM (VFresh (fresh || claimed))) s with
  | (Ok _, s') => fit false s' ∧ tree_same (s_db s) (s_db s')
  | (Err _, s') => Inv s' ∧ tree_same (s_db s) (s_db s')
  end.
Proof using All.
  intros [Hi Hp Hs]. destruct (claim_tree Hretire s (conj Hi Hs)) as [Hi1 Ht1]. unfold bindM.
  destruct (fs_claimGeneration s) as [[claimed|e] s1]; simpl in *; [|by destruct Hi1].
  destruct (ensureFresh_tree s1 Hi1) as ([Hi2 Hs2] & Hd2 & Hp2). destruct (ensureFresh s1) as [[fresh|e] s2]; simpl in *.
  - rewrite Hd2. split; [|done]. split; [done|by eapply Hp2|done].
  - by rewrite Hd2.
Qed.

Lemma abort_inv s : Inv s → Inv (abortScope s).2 ∧ s_db (abortScope s).2 = s_db s.
Proof.
  intros Hi. destruct (scriptScope (s_pers s)) eqn:Hs.
  - destruct (abort_closes s Hi Hs) as (r & s' & -> & ? & _ & ?). done.
  - unfold abortScope, isActive. by rewrite bindM_gets, Hs.
Qed.

(** The end of a scope that throws has changed nothing. *)
Lemma endScope_fails ownerLost s e s' : fit true s → endScope ownerLost s = (Err e, s') → Inv s' ∧ tree_same (s_db s) (s_db s').
Proof.
  intros [Hi Hp Hs]. unfold endScope, isActive. rewrite bindM_gets, Hs. simpl. intros E.
  pose proof (endScriptScope_keeps ownerLost s Hi) as Hk. rewrite E in Hk. split; [done|].
  destruct (scope_end_outcome ownerLost s _ _ Hi Hs E) as [_ [Hd _]]. by rewrite Hd.
Qed.

Definition resident_ok (g : Z) (w : Worker) : Prop := ∃ r, wk_resident w = Some r ∧ wr_generation r = g.

(** What a command leaves in the worker: nothing changed in the tree, and the
    session ready for the next command; unless a script ran or a scope ended
    well. *)
Definition left_sound (open : bool) (command : OwnerCommand) (g : Z) (w : Worker) (ok : bool) (w' : Worker) : Prop :=
  resident_ok g w' ∧ tree_same (s_db (wk_sys w)) (s_db (wk_sys w')) ∧ Inv (wk_sys w') ∧
  (ok = true → fit (scope_after open command) (wk_sys w')) ∧
  (is_call command = true → fit open (wk_sys w')).

Definition is_ok {E A} (r : res E A) : bool := match r with Ok _ => true | Err _ => false end.

(** [residentFor] passes, and the rest runs on the session. *)
Lemma run_resident {B} command (k : WorkerResident → wkM B) g w : resident_ok g w →
  ∃ r, wk_resident w = Some r ∧ wr_generation r = g ∧ bindM (residentFor (mkRequest g command false)) k w = k r w.
Proof.
  intros (r & Hr & Hg). exists r. split_and!; [done|done|]. unfold residentFor. rewrite bindM_assoc, bindM_gets, Hr. simpl.
  by rewrite decide_True.
Qed.

(** A command that is a computation of the session. *)
Lemma session_run {B} (f : B → OwnerValue) (m : sysM B) w :
  valueM f (onSession m) w =
    (match (m (wk_sys w)).1 with Ok b => Ok (f b) | Err e => Err e end, mkWorker (wk_resident w) (m (wk_sys w)).2).
Proof. unfold valueM, mapM, bindM, onSession. by destruct (m (wk_sys w)) as [[] ?]. Qed.

Lemma left_call open command g w s' ok : is_call command = true → resident_ok g w → scope_after open command = open →
  fit open s' → tree_same (s_db (wk_sys w)) (s_db s') → left_sound open command g w ok (mkWorker (wk_resident w) s').
Proof. intros Hc Hr Hsc Hf Ht. unfold left_sound. rewrite Hsc. split_and!; auto. apply Hf. Qed.

Ltac at_resident :=
  match goal with Hr : resident_ok ?g ?w |- context [bindM (residentFor (mkRequest ?g ?c false)) ?k ?w] =>
    let rr := fresh "rr" in let Hrr := fresh "Hrr" in let Hg := fresh "Hg" in
    destruct (run_resident c k g w Hr) as (rr & Hrr & Hg & ->) end.

Notation dispatch_in := (dispatch execFileLimitBytes execInputLimitBytes owner cwd).

Lemma dispatch_spec open command lease g w r w' :
  allowed open command → resident_ok g w → fit open (wk_sys w) →
  dispatch_in (mkRequest g command false) lease w = (r, w') →
  is_exec command = true ∨ (is_endScope command = true ∧ is_ok r = true) ∨ left_sound open command g w (is_ok r) w'.
Proof using All.
  intros Hal Hr Hf E. pose proof (fit_inv _ _ Hf) as Hi. pose proof (fit_scope _ _ Hf) as Hs. revert E. unfold dispatch.
  assert (Hsame : ∀ ok, left_sound open command g w ok w ∨ scope_after open command ≠ open).
  { intros ok. destruct (decide (scope_after open command = open)) as [Hsc|]; [left|by right].
    unfold left_sound. rewrite Hsc. split_and!; auto using tree_refl. }
  destruct command as [oe|sc stdin|o|q| | | | | | | | | |]; simpl in Hal; try contradiction; cbn [rq_command].
  - by left.
  - intros E. right; right. revert E. destruct Hal as [Ho Hm]. at_resident.
    destruct (fit_op o open (wk_sys w) Ho Hm Hf) as [Hf' Ht']. unfold bindM at 1.
    assert (Hlease : (if mutating o then assertOwnerLease (l_start lease) else retM tt) w = (Ok tt, w) ∨
      (if mutating o then assertOwnerLease (l_start lease) else retM tt) w = (Err (ELOCKLOST "worker owner lease lost"), w)).
    { unfold assertOwnerLease, throw_if. destruct (mutating o), (l_start lease); auto. }
    destruct Hlease as [->| ->]; [|intros [= <- <-]; by destruct (Hsame false)].
    rewrite session_run. intros [= <- <-]. by apply left_call.
  - intros E. right; right. revert E. at_resident. rewrite session_run. intros [= <- <-].
    destruct (fit_query q open (wk_sys w) Hf). by apply left_call.
  - intros E. right; right. revert E. at_resident. unfold bindM at 1. unfold onSession.
    assert (Ha : (assertAlive (wk_sys w)).2 = wk_sys w).
    { unfold assertAlive. by destruct (scriptScope (s_pers (wk_sys w))), (scriptTxLost (s_pers (wk_sys w))). }
    destruct (assertAlive (wk_sys w)) as [ra s1]. simpl in Ha. subst s1. destruct w as [wr ws]. simpl.
    destruct ra; intros [= <- <-]; [by destruct (Hsame true)|by destruct (Hsame false)].
  - intros E. right; right. revert E. subst open. at_resident. pose proof (fit_fresh (wk_sys w) Hf) as Hfr.
    unfold bindM, onSession in *. cbn [wk_sys wk_resident].
    destruct (fs_claimGeneration (wk_sys w)) as [[claimed|e] s1]; simpl in *.
    2:{ intros [= <- <-]. destruct Hfr as [Hi' Ht']. by split_and!. }
    destruct (ensureFresh s1) as [[fr|e] s2]; simpl in *; intros [= <- <-]; destruct Hfr as [Hi' Ht']; split_and!; try done.
    apply Hi'.
  - intros E. right; right. revert E. at_resident. intros [= <- <-]. by destruct (Hsame true).
  - intros E. right; right. revert E. rewrite Hal in *. at_resident. rewrite session_run.
    destruct (fit_begin (wk_sys w) Hf) as (s1 & -> & Hf1 & Hd). simpl. intros [= <- <-].
    split_and!; simpl; rewrite ?Hd; try done. apply Hf1.
  - rewrite Hal in *. at_resident. unfold valueM, mapM, endScope_handler. unfold bindM at 1. unfold catch.
    set (body := bindM (assertOwnerLease _) _ w).
    assert (Hbody : match body with
      | (Ok _, _) => True
      | (Err _, w1) => wk_resident w1 = wk_resident w ∧ Inv (wk_sys w1) ∧ tree_same (s_db (wk_sys w)) (s_db (wk_sys w1)) end).
    { subst body. unfold assertOwnerLease, throw_if. destruct (l_start lease); [done|]. rewrite bindM_ret. unfold onSession.
      destruct (endScope (l_end lease) (wk_sys w)) as [[[]|e] s1] eqn:Ee; [done|]. split; [done|]. by eapply endScope_fails. }
    destruct body as [[[]|e] w1]; [intros [= <- <-]; by right; left|]. destruct Hbody as (Hr1 & Hi1 & Ht1).
    unfold bindM, attempt, onSession. destruct (abort_inv (wk_sys w1) Hi1) as [Hi2 Hd2].
    destruct (abortScope (wk_sys w1)) as [ra s2]. simpl in Hi2, Hd2. intros [= <- <-]. right; right.
    split_and!; simpl; rewrite ?Hd2; try done. destruct Hr as (rr' & ? & ?). exists rr'. simpl. by rewrite Hr1.
  - intros E. right; right. revert E. at_resident. rewrite session_run. intros [= <- <-].
    assert (Hf' : fit open (on_view (set_dirty false) (wk_sys w))) by (destruct Hf; split; [by apply Inv_dirty|done|done]).
    by split_and!; simpl; try apply Hf'.
Qed.
(** *** One command from the parent *)

(** A script was posted, or a write is known to be committed. *)
Definition flagged (o : RequestOutcome) : bool := execDispatched o || committedFsWrite o.

Definition outcome_wf (o : RequestOutcome) : Prop := flagged o = true → mayHaveEffects o = true.

Definition unknown (e : JsError) : bool := preservesAmbiguousOutcome (Some e).

Definition unavailable (e : JsError) : Prop := e_code e = Some "EWORKER_UNAVAILABLE".

Lemma unknown_not_unavailable e : unknown e = true → ¬ unavailable e.
Proof. unfold unknown, unavailable. destruct e as [c m]. simpl. intros Hu ->. done. Qed.

Lemma dispatched_flagged command o : flagged (dispatched command o) = flagged o || is_exec command.
Proof. unfold flagged. simpl. by destruct (execDispatched o), (committedFsWrite o), (is_exec command). Qed.

Lemma dispatched_wf command o : outcome_wf o → outcome_wf (dispatched command o).
Proof.
  unfold outcome_wf. rewrite dispatched_flagged. simpl. destruct (flagged o), (is_exec command) eqn:E; simpl; intros Ho Hf; rewrite ?Ho by done;
    try done; destruct command; try done; by rewrite orb_true_r.
Qed.

Lemma acknowledged_wf command b o : outcome_wf (dispatched command o) → outcome_wf (acknowledged command b (dispatched command o)).
Proof.
  unfold outcome_wf, flagged. simpl. intros Ho. rewrite orb_assoc, orb_true_iff. intros [Hf|Hf]; [by apply Ho|].
  rewrite !andb_true_iff in Hf. destruct Hf as [[[-> _] _] _]. by rewrite orb_true_r.
Qed.

Lemma acknowledged_flagged command b o : flagged o = true → flagged (acknowledged command b o) = true.
Proof. unfold flagged. simpl. rewrite !orb_true_iff. naive_solver. Qed.

(** The failure of a command that got no reply. *)
Lemma no_reply safe o : let e := transportFailure (thread_failure safe) o in
  unknown e = true ∨ unavailable e ∧ safe = true ∧ mayHaveEffects o = false.
Proof. unfold transportFailure, thread_failure. destruct safe; [|by rewrite andb_false_r; left]. destruct (mayHaveEffects o); [by left|right]. done. Qed.

Lemma budget_spec reply command reply' : budgetWorkerReply fits reply command = Some reply' →
  rp_generation reply' = rp_generation reply ∧
  (reply' = reply ∨ ∃ e, rp_outcome reply' = Err e ∧ (unknown e = true ∨ e_code e = Some "EFBIG" ∧ mayApply command = false)).
Proof.
  unfold budgetWorkerReply. destruct (fits reply); [intros [= <-]; auto|].
  set (b := mayApply command || _). assert (Hb : b = true ∨ mayApply command = false) by (subst b; destruct (mayApply command); auto).
  destruct (fits (mkReply _ _ _ _)); [intros [= <-]; simpl; split; [done|right]; eexists; split; [done|]; destruct b; naive_solver|].
  destruct (fits (mkReply _ _ _ _)); [|done]. intros [= <-]. simpl. split; [done|right]. eauto.
Qed.

Notation handler_of := (run_handler execFileLimitBytes execInputLimitBytes owner cwd).

(** A command that is handled: no reply, the handler's own answer, or one that
    says the reply was too large. *)
Lemma handled_spec command h p r p1 : pl_dead p = false → send_cmd command (FHandled h) p = (r, p1) →
  ∃ hr w', handler_of (mkRequest (pl_generation p) command false) h (pl_worker p) = (hr, w') ∧
    pl_worker p1 = w' ∧ pl_generation p1 = pl_generation p ∧
    ((∃ v, hr = Ok v ∧ r = Ok v ∧ pl_outcome p1 = acknowledged command false (dispatched command (pl_outcome p))) ∨
     pl_outcome p1 = dispatched command (pl_outcome p) ∧
     ((∃ e, hr = Err e ∧ r = Err (reply_error command e)) ∨
      (∃ e, r = Err e ∧ (unknown e = true ∨ e_code e = Some "EFBIG" ∧ mayApply command = false)) ∨
      (∃ e, r = Err e ∧ unavailable e ∧ pl_dead p1 = true ∧ mayApply command = false ∧ mayHaveEffects (pl_outcome p1) = false))).
Proof.
  intros Hd. unfold send_cmd, send, request. rewrite Hd. unfold on_message. cbn [rq_readOnly default].
  destruct (handler_of _ h (pl_worker p)) as [hr w'] eqn:Eh. intros Es. exists hr, w'. split; [done|]. revert Es.
  destruct (budgetWorkerReply _ _ _) as [reply|] eqn:Eb.
  - apply budget_spec in Eb as [Hg Hb]. simpl in Hg. cbn [set_thread set_outcome pl_generation]. rewrite decide_True by done.
    assert (Hmd : ∀ p2, pl_outcome p2 = dispatched command (pl_outcome p) → pl_worker p2 = w' → pl_generation p2 = pl_generation p →
      ∀ p3, p3 = match rp_metadata reply with Some md => set_slot (pl_generation p2) (pl_residentKey p2) (Some md) p2 | None => p2 end →
      pl_outcome p3 = dispatched command (pl_outcome p) ∧ pl_worker p3 = w' ∧ pl_generation p3 = pl_generation p).
    { intros p2 ? ? ? p3 ->. by destruct (rp_metadata reply). }
    destruct Hb as [->|(e & He & Hb)].
    + simpl. destruct hr as [v|e]; intros [= <- <-]; (split; [by destruct (metadata_of w')|]; split; [by destruct (metadata_of w')|]).
      * left. exists v. split_and!; [done..|]. by destruct (metadata_of w').
      * right. split; [by destruct (metadata_of w')|]. left. eauto.
    + rewrite He. intros [= <- <-]. split; [by destruct (rp_metadata reply)|]. split; [by destruct (rp_metadata reply)|].
      right. split; [by destruct (rp_metadata reply)|]. right; left. eauto.
  - simpl. intros [= <- <-]. split; [done|]. split; [done|]. right. split; [done|]. right.
    destruct (no_reply (negb (mayApply command)) (dispatched command (pl_outcome p))) as [Hu|(Hu & Hs & Hm)]; [left; eauto|right].
    eexists. split; [done|]. split_and!; [done|done|by apply negb_true_iff|done].
Qed.

(** The errors of a handler are the worker's own. *)
Lemma handler_error command h p e w' : fate_ok p command (FHandled h) →
  handler_of (mkRequest (pl_generation p) command false) h (pl_worker p) = (Err e, w') → ¬ unavailable (reply_error command e).
Proof.
  intros Hf Hr Hu. assert (Hc : error_code e ≠ Some "EWORKER_UNAVAILABLE").
  { destruct h as [lease|e' d]; [by eapply Hf|]. injection Hr as <- <-. destruct Hf as [Ha _]. by apply (unknown_not_unavailable _ Ha). }
  revert Hu. unfold unavailable, reply_error. by destruct (_ && _).
Qed.

(** What a command does to the account of the request. *)
Lemma send_outcome command fate p r p1 : fate_ok p command fate → send_cmd command fate p = (r, p1) → outcome_wf (pl_outcome p) →
  outcome_wf (pl_outcome p1) ∧
  (flagged (pl_outcome p) = true → flagged (pl_outcome p1) = true) ∧
  (mayApply command = false → mayHaveEffects (pl_outcome p1) = mayHaveEffects (pl_outcome p)) ∧
  (∀ e, r = Err e → unavailable e → mayHaveEffects (pl_outcome p1) = false).
Proof.
  intros Hf Es Hwf.
  assert (Hdis : flagged (pl_outcome p) = true → flagged (dispatched command (pl_outcome p)) = true).
  { rewrite dispatched_flagged. by intros ->. }
  assert (Hmay : mayApply command = false → mayHaveEffects (pl_outcome p) || mayApply command = mayHaveEffects (pl_outcome p)).
  { intros ->. by rewrite orb_false_r. }
  assert (Hsafe : ∀ safe o e, e = transportFailure (thread_failure safe) o → unavailable e → mayHaveEffects o = false).
  { intros safe o e -> Hu. destruct (no_reply safe o) as [Hk|(_ & _ & ?)]; [|done]. by apply unknown_not_unavailable in Hk. }
  destruct (pl_dead p) eqn:Hd.
  { unfold send_cmd, send, request in Es. rewrite Hd in Es. injection Es as <- <-. split_and!; [done|done|done|].
    intros e [= <-]. by apply (Hsafe true). }
  destruct fate as [| | |d|h].
  - unfold send_cmd, send, request in Es. rewrite Hd in Es. injection Es as <- <-. split_and!; try done.
    intros e [= <-]. unfold transportFailure. by destruct (_ && _).
  - unfold send_cmd, send, request in Es. rewrite Hd in Es. injection Es as <- <-. split_and!; try done.
    intros e [= <-]. unfold transportFailure. by destruct (_ && _).
  - unfold send_cmd, send, request in Es. rewrite Hd in Es. injection Es as <- <-. split_and!; try done.
    intros e [= <-]. by apply (Hsafe true).
  - unfold send_cmd, send, request in Es. rewrite Hd in Es. injection Es as <- <-. cbn [pl_outcome set_thread set_outcome].
    split_and!; [by apply dispatched_wf|done|done|]. intros e [= <-]. by apply (Hsafe (negb (mayApply command))).
  - destruct (handled_spec _ _ _ _ _ Hd Es) as (hr & w' & Eh & _ & _ & [(v & -> & -> & ->)|(-> & Hc)]).
    { split_and!; [by apply acknowledged_wf, dispatched_wf|intros; by apply acknowledged_flagged, Hdis|done|done]. }
    split_and!; [by apply dispatched_wf|done|done|]. intros e -> Hu. destruct Hc as [(e' & -> & [= ->])|[(e' & [= <-] & Hc)|(e' & [= <-] & ? & ? & ? & ?)]].
    + by destruct (handler_error _ _ _ _ _ Hf Eh).
    + destruct Hc as [Hk|[Hc _]]; [by apply unknown_not_unavailable in Hk|]. unfold unavailable in Hu. congruence.
    + done.
Qed.

(** A command that was not handled leaves the tree, or its outcome is open. *)
Lemma unhandled_tree command fate p r p1 : fate_ok p command fate → send_cmd command fate p = (r, p1) →
  (∀ h, pl_dead p = false → fate ≠ FHandled h) →
  (∃ e, r = Err e ∧ unknown e = true) ∨
  (∃ e, r = Err e) ∧ tree_same (pool_db p) (pool_db p1) ∧ (p1 = p ∨ pl_dead p1 = true).
Proof.
  intros Hf Es Hh. unfold send_cmd, send, request in Es. destruct (pl_dead p) eqn:Hd.
  { injection Es as <- <-. right. split_and!; eauto using tree_refl. }
  destruct fate as [| | |d|h]; [..|by destruct (Hh h)]; injection Es as <- <-.
  1-3: right; split_and!; eauto using tree_refl.
  destruct (no_reply (negb (mayApply command)) (dispatched command (pl_outcome p))) as [Hk|(_ & Hs & _)]; [left; eauto|right].
  split_and!; [eauto| |by right]. apply Hf. by apply negb_true_iff.
Qed.

(** What is sent when a request has failed changes nothing. *)
Lemma clean_tree command fate p r p1 : cleaning command → fate_ok p command fate → send_cmd command fate p = (r, p1) →
  tree_same (pool_db p) (pool_db p1).
Proof.
  intros Hc Hf Es. assert (Hm : mayApply command = false) by (by destruct Hc as [->| ->]).
  destruct (pl_dead p) eqn:Hd; [|destruct fate as [| | |d|h]];
    [unfold send_cmd, send, request in Es; rewrite Hd in Es; injection Es as <- <-; apply tree_refl
    |unfold send_cmd, send, request in Es; rewrite Hd in Es; injection Es as <- <-; try apply tree_refl..
    |]; [by apply Hf|].
  destruct (handled_spec _ _ _ _ _ Hd Es) as (hr & w' & Eh & Hw & _). unfold pool_db. rewrite Hw. clear Es Hw.
  destruct h as [lease|e d]; [|injection Eh as <- <-; by apply Hf]. revert Eh. unfold run_handler, dispatch, residentFor.
  destruct Hc as [->| ->]; cbn [rq_command rq_generation]; rewrite bindM_assoc, bindM_gets;
    (destruct (wk_resident (pl_worker p)) as [rr|]; [case_decide|]; [rewrite bindM_ret|..];
     [rewrite session_run; intros [= <- <-]|intros [= <- <-]; apply tree_refl..]).
  - cbn [wk_sys]. rewrite (kept_abort (wk_sys (pl_worker p))). apply tree_refl.
  - apply tree_refl.
Qed.

Context (d0 : db).

Definition ready_pool (open : bool) (p : Pool) : Prop :=
  resident_ok (pl_generation p) (pl_worker p) ∧ fit open (wk_sys (pl_worker p)) ∧ scopeOpen (pl_outcome p) = open.

(** Something is on record, or the tree is the one the request found. *)
Definition accounted (p : Pool) : Prop :=
  outcome_wf (pl_outcome p) ∧ (flagged (pl_outcome p) = true ∨ tree_same d0 (pool_db p)).

(** The same between two commands, with the session ready for the next. *)
Definition on_track (open : bool) (p : Pool) : Prop :=
  outcome_wf (pl_outcome p) ∧
  (flagged (pl_outcome p) = true ∨ tree_same d0 (pool_db p) ∧ (pl_dead p = false → ready_pool open p)).

Lemma track_accounted open p : on_track open p → accounted p.
Proof. intros [? [?|[? _]]]; split; auto. Qed.

Lemma rethrow_runs {A} e (body : Client A) : rethrows e body → ∀ p r p', runs body p r p' → accounted p →
  r = Err e ∧ accounted p' ∧ mayHaveEffects (pl_outcome p') = mayHaveEffects (pl_outcome p).
Proof.
  induction 1 as [|command k Hc _ IH]; intros p r p' Hr [Hwf Ha]; inversion Hr; subst; [done|].
  match goal with Hs : send_cmd _ _ _ = _ |- _ =>
    destruct (send_outcome _ _ _ _ _ ltac:(eassumption) Hs Hwf) as (Hwf1 & Hfl & Hmay & _);
    pose proof (clean_tree _ _ _ _ _ Hc ltac:(eassumption) Hs) as Ht end.
  assert (Hm : mayApply command = false) by (by destruct Hc as [->| ->]). rewrite <- (Hmay Hm).
  eapply IH; [eassumption|]. split; [done|]. destruct Ha as [Hfp|Ha]; [left; auto|right]. by eapply tree_same_trans.
Qed.

(** What an answer leaves the client with. *)
Definition answered (open : bool) (command : OwnerCommand) (r : res JsError OwnerValue) (p1 : Pool) : Prop :=
  (∃ e, r = Err e ∧ unknown e = true) ∨
  accounted p1 ∧ (is_ok r = true → on_track (scope_after open command) p1) ∧
  (∀ e, r = Err e → forgivable command e = true → on_track open p1).

Lemma answered_flagged open command r p1 : outcome_wf (pl_outcome p1) → flagged (pl_outcome p1) = true → answered open command r p1.
Proof. intros Hwf Hf. right. repeat split; auto. Qed.

Lemma answered_track open command e p1 : on_track open p1 → answered open command (Err e) p1.
Proof. intros Ht. right. split; [by eapply track_accounted|]. split; [done|auto]. Qed.

(** An error after which the session may be in any state is not forgivable. *)
Lemma answered_error open command e p1 : outcome_wf (pl_outcome p1) → tree_same d0 (pool_db p1) →
  (is_call command = true → pl_dead p1 = false → ready_pool open p1) → is_exec command = false → answered open command (Err e) p1.
Proof.
  intros Hwf Ht Hr Hx. right. split; [by split; auto|]. split; [done|]. intros e' _ Hfo. split; [done|]. right. split; [done|].
  apply Hr. destruct command; done.
Qed.

(** A handler that ran. *)
Lemma ran_answered open command lease p r p1 : allowed open command → fate_ok p command (FHandled (HRuns lease)) →
  pl_dead p = false → tree_same d0 (pool_db p) → ready_pool open p → outcome_wf (pl_outcome p1) →
  send_cmd command (FHandled (HRuns lease)) p = (r, p1) → answered open command r p1.
Proof using All.
  intros Hal Hf Hd Ht (Hres & Hfit & Hsc) Hwf Es.
  destruct (handled_spec _ _ _ _ _ Hd Es) as (hr & w' & Eh & Hw & Hg & Hc). simpl in Eh.
  destruct (dispatch_spec _ _ _ _ _ _ _ Hal Hres Hfit Eh) as [Hx|[[He Hok]|(Hr1 & Ht1 & Hi1 & Hfa & Hfc)]].
  - apply answered_flagged; [done|]. destruct Hc as [(v & _ & _ & ->)|[-> _]]; [apply acknowledged_flagged|];
      rewrite dispatched_flagged, Hx; by rewrite orb_true_r.
  - destruct command; try done. destruct Hc as [(v & _ & _ & Ho)|[_ [(e & -> & _)|[(e & -> & [Hk|[_ ?]])|(e & -> & _ & _ & ? & _)]]]]; try done.
    + apply answered_flagged; [done|]. rewrite Ho. unfold flagged. simpl. by rewrite !orb_true_r.
    + left. eauto.
  - assert (Htree : tree_same d0 (pool_db p1)) by (unfold pool_db; rewrite Hw; by eapply tree_same_trans).
    destruct Hc as [(v & -> & -> & Ho)|[Ho Hc]].
    + right. split; [by split; auto|]. split; [|done]. intros _. split; [done|]. right. split; [done|]. intros _.
      unfold ready_pool. rewrite Hg, Hw, Ho. split_and!; [done|by apply Hfa|]. simpl. rewrite Hsc. by destruct command.
    + assert (Hready : is_call command = true → pl_dead p1 = false → ready_pool open p1).
      { intros Hcall _. unfold ready_pool. rewrite Hg, Hw, Ho. split_and!; [done|by apply Hfc|done]. }
      assert (Herr : ∃ e, r = Err e) by (destruct Hc as [(? & _ & ->)|[(? & -> & _)|(? & -> & _)]]; eauto).
      destruct Herr as [e ->]. destruct (is_exec command) eqn:Hx; [|by apply answered_error].
      apply answered_flagged; [done|]. rewrite Ho, dispatched_flagged, Hx. by rewrite orb_true_r.
Qed.

Lemma set_db_id s : set_db (s_db s) s = s.
Proof. by destruct s. Qed.

(** A handler that lost its connection. *)
Lemma faulted_answered open command e d p r p1 : fate_ok p command (FHandled (HFaults e d)) →
  pl_dead p = false → tree_same d0 (pool_db p) → ready_pool open p → outcome_wf (pl_outcome p1) →
  send_cmd command (FHandled (HFaults e d)) p = (r, p1) → answered open command r p1.
Proof.
  intros [Ha Hd'] Hd Ht (Hres & Hfit & Hsc) Hwf Es.
  destruct (handled_spec _ _ _ _ _ Hd Es) as (hr & w' & Eh & Hw & Hg & Hc). injection Eh as <- <-.
  destruct Hc as [(v & ? & _)|[Ho Hc]]; [done|].
  assert (Hq : mayApply command = false → ∀ e', answered open command (Err e') p1).
  { intros Hm e'. destruct (Hd' Hm) as [Ht' Hcall]. apply answered_error; [done| | |by destruct command].
    - unfold pool_db. rewrite Hw. by eapply tree_same_trans.
    - intros Hc' _. unfold ready_pool. rewrite Hg, Hw, Ho, Hcall by done. unfold pool_db. rewrite set_db_id. by destruct (pl_worker p). }
  destruct Hc as [(e1 & [= <-] & ->)|[(e1 & -> & [Hk|[_ Hm]])|(e1 & -> & _ & _ & Hm & _)]]; [|left; eauto|by apply Hq..].
  left. eexists. split; [done|]. unfold reply_error. by destruct (_ && _).
Qed.

Lemma send_track open command fate p r p1 : allowed open command → fate_ok p command fate → on_track open p →
  send_cmd command fate p = (r, p1) → answered open command r p1.
Proof using All.
  intros Hal Hf [Hwf Ht] Es. destruct (send_outcome _ _ _ _ _ Hf Es Hwf) as (Hwf1 & Hfl & _ & _).
  destruct Ht as [Hfp|[Ht Hready]]; [by apply answered_flagged; auto|].
  assert (Hun : (∀ h, pl_dead p = false → fate ≠ FHandled h) → answered open command r p1).
  { intros Hh. destruct (unhandled_tree _ _ _ _ _ Hf Es Hh) as [?|([e ->] & Ht1 & Hp1)]; [by left|].
    apply answered_track. split; [done|]. right. split; [by eapply tree_same_trans|]. destruct Hp1 as [->|Hd1]; [done|by rewrite Hd1]. }
  destruct (pl_dead p) eqn:Hd; [by apply Hun|]. destruct fate as [| | |d|[lease|e d]]; try by apply Hun.
  - by eapply ran_answered; eauto.
  - by eapply faulted_answered; eauto.
Qed.

(** How a disciplined request ends: with the outcome open, or with everything
    that was applied on record. *)
Lemma disciplined_runs {A} open (body : Client A) : disciplined open body → ∀ p r p', runs body p r p' → on_track open p →
  (∃ e, r = Err e ∧ unknown e = true) ∨
  accounted p' ∧ ∀ e, r = Err e → unavailable e → mayHaveEffects (pl_outcome p') = false.
Proof using All.
  induction 1 as [open a|open e body He Hre|open command k Hal _ IHok _ IHfo Hre]; intros p r p' Hr Ht.
  - inversion Hr; subst. right. split; [by eapply track_accounted|done].
  - destruct (rethrow_runs _ _ Hre _ _ _ Hr (track_accounted _ _ Ht)) as (-> & Ha & _). right. split; [done|].
    intros e' [= <-] Hu. done.
  - inversion Hr; subst.
    match goal with Hf : fate_ok _ _ _, Hs : send_cmd _ _ _ = (?r1, ?p1), Hk : runs (k ?r1) _ _ _ |- _ =>
      destruct (send_outcome _ _ _ _ _ Hf Hs (proj1 Ht)) as (_ & _ & _ & Hun);
      pose proof (send_track _ _ _ _ _ _ Hal Hf Ht Hs) as Ha; rename Hk into Hrest; destruct r1 as [v|e] end.
    + destruct Ha as [(? & ? & _)|(_ & Ha & _)]; [done|]. by eapply IHok; eauto.
    + destruct (forgivable command e) eqn:Hfo.
      { destruct Ha as [(e' & [= <-] & Hu)|(_ & _ & Ha)]; [|by eapply IHfo; eauto].
        unfold unknown in Hu. unfold forgivable, grave in Hfo. rewrite Hu in Hfo. by destruct command. }
      destruct Ha as [(e' & [= <-] & Hu)|(Ha & _ & _)].
      { left. exists e. split; [|done]. clear Hun. revert Hrest. generalize (Hre e Hfo). generalize (k (Err e)) as body.
        intros body Hb Hk. clear -Hb Hk. revert p1 Hk. induction Hb as [|c k' _ _ IH]; intros p1 Hk; inversion Hk; subst; eauto. }
      destruct (rethrow_runs _ _ (Hre e Hfo) _ _ _ Hrest Ha) as (-> & Ha' & Hm). right. split; [done|].
      intros e' [= <-] Hu. rewrite Hm. by apply (Hun e).
Qed.
End runs.

(** ** The theorem *)

(** The codes that, at the end of a request, invite a retry of all of it. *)
Definition retry_codes : list string := ["ELOCKLOST"; "ERUNTIME_BUSY"; "EWORKER_UNAVAILABLE"].

Lemma retry_not_unknown e code : e_code e = Some code → code ∈ retry_codes → unknown e = false.
Proof.
  intros He Hc. unfold unknown, preservesAmbiguousOutcome, code_of. simpl. rewrite He.
  assert (negb (CONNECTION_EXCEPTION_SQLSTATE code || has AMBIGUOUS_CODES code) = true) as H%negb_true_iff; [|done].
  clear He. revert code Hc. apply (all_codes (λ c, negb (CONNECTION_EXCEPTION_SQLSTATE c || has AMBIGUOUS_CODES c))). vm_compute. reflexivity.
Qed.

Section retry.
Context `{Config} `{Lru}.

Lemma outcome_unknown : unknown OutcomeUnknownError = true.
Proof. done. Qed.

(** An error that [withLease] lets through as retryable is the request's own,
    with nothing on record, and nothing was done since. *)
Lemma lease_retryable {A} aborted (r : res JsError A) p p' e p'' code :
  withLease aborted (λ _, (r, p')) p = (Err e, p'') → e_code e = Some code → code ∈ retry_codes →
  r = Err e ∧ p'' = p' ∧
  (code = "ELOCKLOST" ∨ code = "ERUNTIME_BUSY" → flagged (pl_outcome p') = false).
Proof.
  intros E He Hc. pose proof (retry_not_unknown e code He Hc) as Hk. revert E. unfold withLease, attempt. unfold bindM at 1.
  assert (Hlost : ∀ er p1, leaseLostAfterWork er p' = (Err e, p1) → False).
  { intros er p1. unfold leaseLostAfterWork. rewrite bindM_gets. unfold leaseLoss.
    destruct (_ && _); [done|]. destruct er as [e0|]; unfold bindM, attempt; destruct (recover _ p'); intros [= Ee _]; subst e; [|done].
    destruct (preservesAmbiguousOutcome (Some e0)) eqn:E0; [|done]. unfold unknown in Hk. congruence. }
  assert (Hpass : ∀ er p1, leaseLostAfterWork er p' = (Ok tt, p1) → p1 = p' ∧ flagged (pl_outcome p') = false).
  { intros er p1. unfold leaseLostAfterWork. rewrite bindM_gets. unfold leaseLoss.
    destruct (negb (execDispatched (pl_outcome p')) && _ && _) eqn:Ef.
    - intros [= <-]. split; [done|]. rewrite !andb_true_iff, !negb_true_iff in Ef. unfold flagged. by destruct Ef as [[-> ->] _].
    - destruct er; unfold bindM, attempt; destruct (recover _ p'); done. }
  destruct r as [a|e0].
  { destruct aborted; [|done]. unfold bindM. destruct (leaseLostAfterWork None p') as [[]] eqn:El; [done|].
    intros [= -> ->]. by destruct (Hlost _ _ El). }
  assert (Hrest : ∀ q, (let* failure := gets (λ p0, runtimeFailure e0 (pl_outcome p0)) in
      (if bool_decide (workerFailureCode e0 = Some "ECOHERENCE") && negb (bool_decide (e_code failure = e_code e0))
       then attempt (recover failure) ;;; retM tt else retM tt) ;;; throw failure : M Pool JsError A) q = (Err e, p'') →
      e0 = e ∧ p'' = q ∧ (code = "ERUNTIME_BUSY" → flagged (pl_outcome q) = false)).
  { intros q. rewrite bindM_gets.
    assert (Hthrow : ∀ (b : bool) failure, ((if b then attempt (recover failure) ;;; retM tt else retM tt) ;;; throw failure : M Pool JsError A) q
      = (Err e, p'') → e = failure).
    { intros b failure. unfold bindM. destruct b; [unfold attempt; destruct (recover failure q)|]; by intros [= <- _]. }
    unfold runtimeFailure, flagged.
    destruct (bool_decide (workerFailureCode e0 = Some "ECOHERENCE") && execDispatched (pl_outcome q)) eqn:E1.
    { intros ->%Hthrow. done. }
    destruct (bool_decide (workerFailureCode e0 = Some "ERUNTIME_BUSY") && _) eqn:E2.
    { intros ->%Hthrow. done. }
    clear Hthrow.
    rewrite (bool_decide_eq_true_2 (e_code e0 = e_code e0)), andb_false_r, bindM_ret by done. intros [= -> ->]. split_and!; [done|done|].
    intros ->. unfold workerFailureCode in E2. rewrite He, bool_decide_eq_true_2 in E2 by done. exact E2. }
  destruct (aborted || _) eqn:Ea.
  - unfold bindM at 1. destruct (leaseLostAfterWork (Some e0) p') as [[[]|e1] p1] eqn:El.
    + destruct (Hpass _ _ El) as [-> Hf]. intros E. destruct (Hrest _ E) as (-> & -> & _). auto.
    + intros [= -> ->]. by destruct (Hlost _ _ El).
  - rewrite bindM_ret. intros E. destruct (Hrest _ E) as (-> & -> & Hf). split_and!; [done|done|].
    intros [->|Hcode]; [|by apply Hf]. apply orb_false_iff in Ea as [_ Ea]. apply bool_decide_eq_false in Ea. unfold workerFailureCode in Ea. done.
Qed.

(** C4: A request that asks to be retried has applied nothing. Whatever becomes
    of the worker (it may stop at any command, its replies may be lost or too
    large, its connection may break) and whenever the lease is lost: if a
    disciplined request on an existing sandbox ends with ELOCKLOST,
    ERUNTIME_BUSY or EWORKER_UNAVAILABLE, the tree is the one the request found. *)
Theorem retry_means_unapplied {A} limit input owner fits cwd (body : Client A) aborted p r p' e p'' :
  hasRetire = true → disciplined false body → pl_outcome p = new_outcome →
  resident_ok (pl_generation p) (pl_worker p) → reachable (wk_sys (pl_worker p)) →
  v_poisoned (s_view (wk_sys (pl_worker p))) = false → scriptScope (s_pers (wk_sys (pl_worker p))) = false →
  runs limit input owner fits cwd body p r p' → withLease aborted (λ _, (r, p')) p = (Err e, p'') →
  (∃ code, e_code e = Some code ∧ code ∈ retry_codes) →
  tree_same (pool_db p) (pool_db p'').
Proof.
  intros Hret Hd Ho Hres Hreach Hp Hs Hr Hl (code & He & Hc).
  destruct (lease_retryable _ _ _ _ _ _ _ Hl He Hc) as (-> & -> & Hfl).
  assert (Ht : on_track (pool_db p) false p).
  { split; [by rewrite Ho|]. right. split; [apply tree_refl|]. intros _. unfold ready_pool. rewrite Ho.
    split_and!; [done| |done]. split; [by apply reachable_Inv|done|done]. }
  destruct (disciplined_runs limit input owner fits cwd Hret (pool_db p) _ _ Hd _ _ _ Hr Ht) as [(e' & [= <-] & Hu)|[[Hwf Ha] Hun]].
  { by rewrite (retry_not_unknown e code) in Hu. }
  destruct Ha as [Hf|Ha]; [|done]. exfalso. unfold outcome_wf in Hwf.
  unfold retry_codes in Hc. rewrite !elem_of_cons in Hc. destruct Hc as [->|[->|[->|Hc]]]; [by rewrite Hfl in Hf by auto..| |by apply elem_of_nil in Hc].
  rewrite (Hun e eq_refl He) in Hwf. by specialize (Hwf Hf).
Qed.
End retry.

(** ** Concrete runs *)

Section demo.
#[local] Existing Instance demo_config.
#[local] Existing Instance lru_unbounded.

Definition demo_send (command : OwnerCommand) (fate : Fate) : M Pool JsError OwnerValue :=
  send_cmd None None "alice" (λ _, true) "/home/user" command fate.

(** The run with the given fates, of which those handled do not throw the
    parent's own code. *)
Fixpoint demo_run {A} (body : Client A) (fates : list Fate) (p : Pool) : option (res JsError A * Pool) :=
  match body, fates with
  | KReturn a, _ => Some (Ok a, p)
  | KThrow e, _ => Some (Err e, p)
  | KSend command k, FHandled (HRuns lease) :: rest =>
      let handled := dispatch None None "alice" "/home/user" (mkRequest (pl_generation p) command false) lease (pl_worker p) in
      let own := match handled.1 with Err e => bool_decide (error_code e = Some "EWORKER_UNAVAILABLE") | Ok _ => false end in
      if own then None
      else let '(r, p1) := demo_send command (FHandled (HRuns lease)) p in demo_run (k r) rest p1
  | KSend command k, FPostFailed :: rest => let '(r, p1) := demo_send command FPostFailed p in demo_run (k r) rest p1
  | _, _ => None
  end.

Lemma demo_run_runs {A} (body : Client A) fates p r p' :
  demo_run body fates p = Some (r, p') → runs None None "alice" (λ _, true) "/home/user" body p r p'.
Proof.
  revert fates p. induction body as [a|e|command k IH]; intros fates p; simpl.
  - intros [= <- <-]. apply runs_return.
  - intros [= <- <-]. apply runs_throw.
  - destruct fates as [|[| | |d|[lease|e d]] fates]; try done.
    + destruct (demo_send command FPostFailed p) as [r1 p1] eqn:Es. intros Hr. eapply runs_send; [|exact Es|by eapply IH]. done.
    + destruct (match _ with Ok _ => false | Err e => _ end) eqn:Eo; [done|].
      destruct (demo_send command (FHandled (HRuns lease)) p) as [r1 p1] eqn:Es. intros Hr. eapply runs_send; [|exact Es|by eapply IH].
      intros e w' Ed. rewrite Ed in Eo. simpl in Eo. by apply bool_decide_eq_false in Eo.
Qed.

Definition demo_pool : Pool :=
  mkPool (mkWorker (Some (mkWorkerResident 1 "/home/user")) demo_ready) 1 false (Some "t:s") None new_outcome 0 0.

(** A write in a scope, after a refresh. *)
Definition demo_write : Client unit :=
  fresh_then (runInWorkerScope (KSend (c_op (OpWriteFile "/tmp/f" "x")) (λ r, match r with Ok _ => KReturn tt | Err e => KThrow e end))).

Definition held : Fate := FHandled (HRuns (mkLease false false false)).
Definition lease_gone : Fate := FHandled (HRuns (mkLease true true true)).

(** The lease is lost before the scope ends. *)
Definition demo_lost : option (res JsError unit * Pool) := demo_run demo_write [held; held; held; lease_gone] demo_pool.

Definition demo_lost_pool : Pool := match demo_lost with Some rp => rp.2 | None => demo_pool end.
Definition demo_lost_error : JsError := mkError (Some "ELOCKLOST") EmptyString.

Lemma demo_write_disciplined : disciplined false demo_write.
Proof.
  apply fresh_disciplined, scope_disciplined; [|simpl; split; [done|intros []; exact I]].
  apply d_send; [done|intros v; apply d_return| |intros e _; apply rt_throw].
  intros e He. apply (d_fails _ e); [|apply rt_throw]. simpl in He. unfold grave in He.
  apply negb_true_iff, orb_false_iff in He as [_ He]. by apply bool_decide_eq_false in He.
Qed.

Lemma retry_means_unapplied_witness :
  demo_lost = Some (Err demo_lost_error, demo_lost_pool) ∧
  (withLease false (λ _ : Pool, (Err demo_lost_error : res JsError unit, demo_lost_pool)) demo_pool).1 = Err demo_lost_error ∧
  tree_same (pool_db demo_pool) (pool_db demo_lost_pool).
Proof.
  assert (E : demo_lost = Some (Err demo_lost_error, demo_lost_pool)) by (vm_compute; reflexivity).
  split; [exact E|]. split; [vm_compute; reflexivity|].
  refine (retry_means_unapplied None None "alice" (λ _, true) "/home/user" demo_write false demo_pool (Err demo_lost_error) demo_lost_pool
    demo_lost_error demo_lost_pool eq_refl demo_write_disciplined eq_refl _ demo_ready_reachable _ _ (demo_run_runs _ _ _ _ _ E) _ _).
  - exists (mkWorkerResident 1 "/home/user"). split; reflexivity.
  - vm_compute. reflexivity.
  - vm_compute. reflexivity.
  - vm_compute. reflexivity.
  - exists "ELOCKLOST". split; [reflexivity|by left].
Defined.

(** The thread that runs the first attach, which creates the sandbox, stops, and
    the next one does not start: the request is answered EWORKER_UNAVAILABLE,
    retryable, although the sandbox was created. *)
Definition empty_pool : Pool :=
  mkPool (mkWorker None (mkSys empty_db initial_view initial_pers 0 None None (λ _, None) 0 0)) 0 false None None new_outcome 0 0.

Definition demo_create : res JsError unit * Pool :=
  let attach_ := attach None None "alice" (λ _, true) "/home/user" "t:s" in
  withLease false
    (attach_ false false true held held ;;;
     modifyS (λ p, set_thread (pl_worker p) true p) ;;;
     attach_ true false false held held) empty_pool.

Example created_but_retryable :
  isRetryableError (match demo_create.1 with Err e => Some e | Ok _ => None end) = true ∧
  sandboxes (pool_db demo_create.2) !! sandboxId ≠ None ∧ creatingAttachDispatched (pl_outcome demo_create.2) = true.
Proof. vm_compute. split; [reflexivity|]. split; [discriminate|reflexivity]. Qed.
End demo.
