(* ===== verification/HttpClient.v ===== *)
(** The TypeScript client (src/clients/typescript/src/http.ts): when a request
    is sent again, what an error is raised as, and the reader of event streams.

    [fetch] is the network and the server behind it: its answer to the n-th
    attempt, or nothing when the connection failed, and what it did to the
    server's state. *)

From S2P Require Import Prelude Errors ApiErrors.

(** ** Retries *)

Record RequestOptions := mkOptions {
  method : string;
  idempotent : bool;
  readOnly : bool;
  retryTransportErrors : bool;
  requireExplicitRetryable : bool;
}.

(** The status, and of the body the code and [retryable], when it has them. *)
Record Response := mkResponse { rs_status : Z; rs_code : option string; rs_retryable : option bool }.

Definition retryStatus : list Z := [429; 500; 502; 503; 504].

Definition UNKNOWN_OUTCOME_CODES : list string := ["EEXEC_OUTCOME_UNKNOWN"; "EDRIVERFAULT"].
Definition COMMITTED_WRITE_CODES : list string := ["ECOHERENCE"; "ELOCKLOST_APPLIED"].

Definition shouldRetryResponse (response : Response) (options : RequestOptions) : bool :=
  let code := default EmptyString (rs_code response) in
  if decide (code = "EEXEC_OUTCOME_UNKNOWN") then false
  else if has COMMITTED_WRITE_CODES code then false
  else if requireExplicitRetryable options && negb (bool_decide (rs_retryable response = Some true)) then false
  else
    let safeRead := idempotent options && (bool_decide (method options = "GET") || bool_decide (method options = "HEAD")) in
    if safeRead && bool_decide (rs_status response = 503) &&
       (bool_decide (code = "EDRIVERFAULT") || bool_decide (code = "EUNAVAILABLE") || CONNECTION_EXCEPTION_SQLSTATE code)
    then true
    else if has UNKNOWN_OUTCOME_CODES code || CONNECTION_EXCEPTION_SQLSTATE code then false
    else negb (bool_decide (rs_retryable response = Some false)) && (idempotent options || readOnly options).

(** How a request ends: the network failed, an error of the server is raised, or
    the response is returned. *)
Inductive RequestResult := NetworkError | Raised (response : Response) | Returned (response : Response).

Section requests.
Context {S : Type} (fetch : nat → S → option Response * S) (options : RequestOptions).

(** The loop: [attempt] has been made so far, [left] may follow the next. *)
Fixpoint request_loop (left attempt : nat) (s : S) : RequestResult * nat * S :=
  match fetch attempt s with
  | (None, s') =>
      match left with
      | O => (NetworkError, attempt, s')
      | Datatypes.S left' =>
          if negb (retryTransportErrors options) || negb (idempotent options) && negb (readOnly options)
          then (NetworkError, attempt, s')
          else request_loop left' (Datatypes.S attempt) s'
      end
  | (Some response, s') =>
      let settled := if decide (400 ≤ rs_status response) then Raised response else Returned response in
      match left with
      | O => (settled, attempt, s')
      | Datatypes.S left' =>
          if bool_decide (rs_status response ∈ retryStatus) && shouldRetryResponse response options
          then request_loop left' (Datatypes.S attempt) s'
          else (settled, attempt, s')
      end
  end.

Definition request (maxRetries : nat) (s : S) : RequestResult * nat * S := request_loop maxRetries 0 s.
End requests.

(** ** Errors *)

Inductive ApiException := AuthError | NotFoundError | ExecTimeoutError | ConflictError | ValidationError | RateLimitError | ServerError | SQLFSError.

Definition raiseApiError (status : Z) : ApiException :=
  if decide (status = 401 ∨ status = 403) then AuthError
  else if decide (status = 404) then NotFoundError
  else if decide (status = 408) then ExecTimeoutError
  else if decide (status = 409) then ConflictError
  else if decide (status = 400 ∨ status = 413 ∨ status = 422) then ValidationError
  else if decide (status = 429) then RateLimitError
  else if decide (500 ≤ status < 600) then ServerError
  else SQLFSError.

Definition STREAM_ERROR_STATUS_BY_CODE : list (string * Z) :=
  [("ENOENT", 404); ("EEXIST", 409); ("ENOTEMPTY", 409); ("ESTALE", 409); ("EPERM", 403); ("FORBIDDEN", 403); ("EISDIR", 400);
   ("ENOTDIR", 400); ("ELOOP", 400); ("EINVAL", 400); ("EREADONLY", 500); ("ESESSIONCLOSING", 503); ("ESHUTTINGDOWN", 503);
   ("ELOCKTIMEOUT", 503); ("ELOCKLOST", 503); ("ELOCKLOST_APPLIED", 503); ("ECOHERENCE", 503); ("EDRIVERFAULT", 503);
   ("ECOHERENCE_UNAPPLIED", 503); ("EWORKER_BUSY", 503); ("EWORKER_UNAVAILABLE", 503); ("EEXEC_OUTCOME_UNKNOWN", 503);
   ("ERUNTIME_BUSY", 503); ("EUNAVAILABLE", 503); ("ESCRIPTBUFFER", 413); ("EEXEC_INPUT_LIMIT", 413); ("EFBIG", 413);
   ("EREADONLY_VIOLATION", 422); ("INTERNAL_ERROR", 500)].

Definition statusForStreamError (code : string) : Z := default 422 (jget code STREAM_ERROR_STATUS_BY_CODE).

(** ** At most once *)

(** The response [apiErrorHandler] makes of an error. *)
Definition error_response (sanitize : string → string) (err : JsError) : Response :=
  let body := response_body sanitize err in
  mkResponse (response_status sanitize err) (Some (body_code body)) (Some (body_retryable body)).

(** A response to a request that is not a read is followed by another attempt
    only if its body does not say [retryable: false]; with
    [requireExplicitRetryable], only if it says [true]. *)
Lemma retried_response response options :
  shouldRetryResponse response options = true → method options ≠ "GET" → method options ≠ "HEAD" →
  rs_retryable response ≠ Some false ∧ (requireExplicitRetryable options = true → rs_retryable response = Some true) ∧
  (idempotent options = true ∨ readOnly options = true).
Proof.
  unfold shouldRetryResponse. intros Hr Hg Hh. revert Hr.
  rewrite (bool_decide_eq_false_2 _ Hg), (bool_decide_eq_false_2 _ Hh), andb_false_r. simpl.
  case_decide; [done|]. destruct (has COMMITTED_WRITE_CODES _); [done|].
  destruct (requireExplicitRetryable options && _) eqn:Ee; [done|]. destruct (has UNKNOWN_OUTCOME_CODES _ || _); [done|].
  rewrite andb_true_iff, orb_true_iff, negb_true_iff, bool_decide_eq_false. intros [Hn Hi]. split_and!; [done| |done].
  intros He. rewrite He in Ee. simpl in Ee. by apply negb_false_iff, bool_decide_eq_true in Ee.
Qed.

Section at_most_once.
Context {S : Type} (fetch : nat → S → option Response * S) (options : RequestOptions) (same : S → S → Prop).
Context `{!PreOrder same}.
(** A response that says [retryable: true] means the attempt did nothing. *)
Context (Hhonest : ∀ n s response s', fetch n s = (Some response, s') → rs_retryable response = Some true → same s s').

(** The attempts are bounded, and all but the last did nothing. *)
Lemma loop_at_most_once left attempt s r n s' :
  method options ≠ "GET" → method options ≠ "HEAD" → requireExplicitRetryable options = true →
  retryTransportErrors options = false ∨ idempotent options = false ∧ readOnly options = false →
  request_loop fetch options left attempt s = (r, n, s') →
  (attempt ≤ n ≤ attempt + left)%nat ∧ ∃ sn, same s sn ∧ s' = (fetch n sn).2.
Proof using All.
  intros Hg Hh He Ht. revert attempt s. induction left as [|left IH]; intros attempt s; simpl.
  - destruct (fetch attempt s) as [[response|] s1] eqn:Ef; intros [= <- <- <-]; (split; [lia|]); exists s; split; [done|by rewrite Ef|done|by rewrite Ef].
  - destruct (fetch attempt s) as [[response|] s1] eqn:Ef.
    + destruct (bool_decide _ && shouldRetryResponse response options) eqn:Er.
      * apply andb_true_iff in Er as [_ Er]. destruct (retried_response _ _ Er Hg Hh) as (_ & Hx & _).
        intros Hl. destruct (IH _ _ Hl) as [Hn (sn & Hsn & ->)]. split; [lia|]. exists sn. split; [|done].
        etransitivity; [|exact Hsn]. by eapply Hhonest; eauto.
      * intros [= <- <- <-]. split; [lia|]. exists s. split; [done|by rewrite Ef].
    + assert (negb (retryTransportErrors options) || negb (idempotent options) && negb (readOnly options) = true) as ->.
      { destruct Ht as [->|[-> ->]]; [done|]. by rewrite orb_true_r. }
      intros [= <- <- <-]. split; [lia|]. exists s. split; [done|by rewrite Ef].
Qed.
End at_most_once.

(** What the server did with an attempt, and what the client sees of it. *)
Inductive ServerAnswer := Answered (status : Z) | Failed (err : JsError) | Lost.

Definition fetch_of {S} (sanitize : string → string) (serve : nat → S → ServerAnswer * S) (n : nat) (s : S) : option Response * S :=
  let '(answer, s') := serve n s in
  (match answer with
   | Answered status => Some (mkResponse status None None)
   | Failed err => Some (error_response sanitize err)
   | Lost => None
   end, s').

(** The options of [exec] and [execBatch]. *)
Definition exec_options (readOnly retryOn5xx : bool) : RequestOptions := mkOptions "POST" (readOnly || retryOn5xx) readOnly false true.

(** C5: A script is executed at most once. Whatever the retry options of an
    execution and however the attempts end: if the server keeps the promise of
    its [retryable] field, every attempt but the last did nothing, so what the
    request did is what its last attempt did; and there are at most
    [maxRetries + 1] attempts. *)
Theorem exec_at_most_once {S} sanitize (serve : nat → S → ServerAnswer * S) (same : S → S → Prop) readOnly retryOn5xx maxRetries s r n s' :
  PreOrder same →
  (∀ n s err s', serve n s = (Failed err, s') → isRetryableError (Some err) = true → same s s') →
  request (fetch_of sanitize serve) (exec_options readOnly retryOn5xx) maxRetries s = (r, n, s') →
  (n ≤ maxRetries)%nat ∧ ∃ sn, same s sn ∧ s' = (serve n sn).2.
Proof.
  intros Hpre Hkeeps Hr.
  destruct (loop_at_most_once (fetch_of sanitize serve) (exec_options readOnly retryOn5xx) same) with (left := maxRetries) (attempt := 0%nat)
    (s := s) (r := r) (n := n) (s' := s') as [Hn (sn & Hsn & ->)]; try done.
  - intros m t response t'. unfold fetch_of. destruct (serve m t) as [[status|err|] t1] eqn:Es; intros [= <- <-]; [done|].
    intros [= Hre]. by eapply Hkeeps.
  - by left.
  - split; [lia|]. exists sn. split; [done|]. unfold fetch_of. by destruct (serve n sn).
Qed.

(** A server that is busy twice, and then counts the execution. *)
Definition demo_serve (n : nat) (s : Z) : ServerAnswer * Z :=
  if decide (n < 2)%nat then (Failed (mkError (Some "EWORKER_BUSY") "busy"), s) else (Answered 200, s + 1).

Lemma exec_at_most_once_witness :
  (request (fetch_of id demo_serve) (exec_options false true) 3 0).2 = 1 ∧
  ∃ sn, sn = 0 ∧ 1 = (demo_serve 2 sn).2.
Proof.
  split; [vm_compute; reflexivity|].
  destruct (exec_at_most_once id demo_serve (λ a b, b = a) false true 3 0 (Returned (mkResponse 200 None None)) 2 1) as [_ (sn & Hsn & E)].
  - split; [intros x; reflexivity|intros x y z -> ->; reflexivity].
  - intros n s err s'. unfold demo_serve. destruct (decide (n < 2)%nat); intros E _; [injection E as _ <-; reflexivity|discriminate E].
  - vm_compute. reflexivity.
  - exists sn. split; [exact Hsn|exact E].
Defined.

(** *** One table of statuses *)

(** The codes for which the two sides differ: the routes answer a violation of a
    read-only request themselves, and EEXEC_FS is missing in the client. *)
Definition odd_codes : list string := ["EREADONLY_VIOLATION"; "EEXEC_FS"].

Lemma stream_status_agrees code : code ∈ SAFE_FS_ERROR_CODES → code ∉ odd_codes → statusForStreamError code = status_of code.
Proof.
  intros Hc Ho. assert (has odd_codes code || bool_decide (statusForStreamError code = status_of code) = true) as Hb.
  { revert code Hc Ho. intros code Hc _. revert code Hc.
    apply (all_codes (λ c, has odd_codes c || bool_decide (statusForStreamError c = status_of c))). vm_compute. reflexivity. }
  apply orb_true_iff in Hb as [Hb|Hb]; [by apply has_In in Hb|by apply bool_decide_eq_true in Hb].
Qed.

(** The same script error is a [ServerError] of a request and a
    [ValidationError] of a stream. *)
Example exec_fs_status : raiseApiError (status_of "EEXEC_FS") = ServerError ∧ raiseApiError (statusForStreamError "EEXEC_FS") = ValidationError.
Proof. vm_compute. split; reflexivity. Qed.

(** ** Event streams *)

Definition CR : ascii := "013".
Definition LF : ascii := "010".

(** [buffer.search(/\r?\n/)]: what comes before and after the first line end. *)
Fixpoint split_newline (s : string) : option (string * string) :=
  match s with
  | EmptyString => None
  | String c rest =>
      if decide (c = LF) then Some (EmptyString, rest)
      else match rest with
           | String c' rest' =>
               if decide (c = CR ∧ c' = LF) then Some (EmptyString, rest')
               else match split_newline rest with Some (a, b) => Some (String c a, b) | None => None end
           | EmptyString => None
           end
  end.

Fixpoint strip_cr (s : string) : string :=
  match s with
  | EmptyString => EmptyString
  | String c EmptyString => if decide (c = CR) then EmptyString else s
  | String c rest => String c (strip_cr rest)
  end.

(** The lines that are complete, and the rest. *)
Fixpoint drain_lines (fuel : nat) (buffer : string) : list string * string :=
  match fuel with
  | O => ([], buffer)
  | Datatypes.S fuel' =>
      match split_newline buffer with
      | None => ([], buffer)
      | Some (rawLine, rest) => let '(ls, b) := drain_lines fuel' rest in (strip_cr rawLine :: ls, b)
      end
  end.

Definition drain_all (buffer : string) : list string * string := drain_lines (String.length buffer) buffer.

Fixpoint read_chunks (chunks : list string) (buffer : string) : list string * string :=
  match chunks with
  | [] => ([], buffer)
  | chunk :: rest =>
      let '(ls, b) := drain_all (buffer +:+ chunk) in
      let '(ls', b') := read_chunks rest b in (ls ++ ls', b')
  end.

Definition iterLines (chunks : list string) : list string :=
  let '(ls, b) := read_chunks chunks EmptyString in
  if decide (b = EmptyString) then ls else ls ++ [strip_cr b].

Record SseState := mkSse { sse_eventName : string; sse_dataLines : list string }.

(** One line: the events it completes. An event is its name and its data lines. *)
Definition sse_line (line : string) (st : SseState) : list (string * list string) * SseState :=
  if decide (line = EmptyString) then
    match sse_dataLines st with
    | [] => ([], st)
    | data => ([(sse_eventName st, data)], mkSse "message" [])
    end
  else if starts_with line ":" then ([], st)
  else if starts_with line "event:" then ([], mkSse (trim (slice_from line 6)) (sse_dataLines st))
  else if starts_with line "data:" then
    let raw := slice_from line 5 in
    let value := match raw with String " " rest => rest | _ => raw end in
    ([], mkSse (sse_eventName st) (sse_dataLines st ++ [value]))
  else ([], st).

Fixpoint sse_lines (lines : list string) (st : SseState) : list (string * list string) * SseState :=
  match lines with
  | [] => ([], st)
  | line :: rest => let '(out, st1) := sse_line line st in let '(out', st2) := sse_lines rest st1 in (out ++ out', st2)
  end.

Definition iterSseEvents (chunks : list string) : list (string * list string) :=
  let '(out, st) := sse_lines (iterLines chunks) (mkSse "message" []) in
  match sse_dataLines st with [] => out | data => out ++ [(sse_eventName st, data)] end.

Fixpoint trimTrailingSlashes (value : string) : string :=
  match value with
  | EmptyString => EmptyString
  | String c rest => match trimTrailingSlashes rest with
                     | EmptyString => if decide (c = "/"%char) then EmptyString else String c EmptyString
                     | r => String c r
                     end
  end.

(** *** Chunks do not matter *)

Lemma split_cons2 c c' s : split_newline (String c (String c' s)) =
  if decide (c = LF) then Some (EmptyString, String c' s)
  else if decide (c = CR ∧ c' = LF) then Some (EmptyString, s)
  else match split_newline (String c' s) with Some (a, b) => Some (String c a, b) | None => None end.
Proof. reflexivity. Qed.

Lemma split_length s a b : split_newline s = Some (a, b) → (String.length b < String.length s)%nat.
Proof.
  revert a b. induction s as [|c rest IH]; intros a b; [done|]. destruct rest as [|c' rest'].
  { cbn. case_decide; [intros [= <- <-]; simpl; lia|done]. }
  rewrite split_cons2. case_decide; [intros [= <- <-]; simpl; lia|]. case_decide; [intros [= <- <-]; simpl; lia|].
  destruct (split_newline (String c' rest')) as [[a' b']|]; [|done]. intros [= <- <-]. specialize (IH _ _ eq_refl). simpl in *. lia.
Qed.

Lemma split_app s t a b : split_newline s = Some (a, b) → split_newline (s +:+ t) = Some (a, b +:+ t).
Proof.
  revert a b. induction s as [|c rest IH]; intros a b; [done|]. destruct rest as [|c' rest'].
  { cbn. case_decide; [by intros [= <- <-]|done]. }
  change (String c (String c' rest') +:+ t) with (String c (String c' (rest' +:+ t))). rewrite !split_cons2.
  case_decide; [by intros [= <- <-]|]. case_decide; [by intros [= <- <-]|].
  change (String c' (rest' +:+ t)) with (String c' rest' +:+ t).
  destruct (split_newline (String c' rest')) as [[a' b']|]; [|done]. intros [= <- <-]. by rewrite (IH _ _ eq_refl).
Qed.

Lemma drain_fuel n m s : (String.length s ≤ n)%nat → (String.length s ≤ m)%nat → drain_lines n s = drain_lines m s.
Proof.
  revert m s. induction n as [|n IH]; intros m s Hn Hm; destruct m as [|m]; simpl; try done;
    [destruct s; simpl in *; [done|lia]|destruct s; simpl in *; [done|lia]|].
  destruct (split_newline s) as [[a b]|] eqn:E; [|done]. apply split_length in E. by rewrite (IH m) by lia.
Qed.

(** The rest of a buffer has no line end. *)
Lemma drain_rest s ls b : drain_all s = (ls, b) → split_newline b = None.
Proof.
  unfold drain_all. revert ls b. induction s as [s IH] using (induction_ltof1 _ String.length). unfold ltof in IH. intros ls b.
  destruct (split_newline s) as [[a r]|] eqn:E.
  - pose proof (split_length _ _ _ E) as Hl. destruct (String.length s) as [|n] eqn:En; [lia|]. simpl. rewrite E.
    rewrite (drain_fuel n (String.length r)) by lia. destruct (drain_lines (String.length r) r) as [ls' b'] eqn:Ed.
    intros [= <- <-]. by eapply IH.
  - destruct (String.length s); simpl; [|rewrite E]; by intros [= <- <-].
Qed.

Lemma drain_unfold s : drain_all s =
  match split_newline s with None => ([], s) | Some (a, r) => let '(ls, b) := drain_all r in (strip_cr a :: ls, b) end.
Proof.
  unfold drain_all. destruct (split_newline s) as [[a r]|] eqn:E.
  - pose proof (split_length _ _ _ E) as Hl. destruct (String.length s) as [|n]; [lia|]. simpl. rewrite E. by rewrite (drain_fuel n (String.length r)) by lia.
  - destruct (String.length s); simpl; [done|]. by rewrite E.
Qed.

Lemma drain_app s t ls b : drain_all s = (ls, b) →
  drain_all (s +:+ t) = (ls ++ (drain_all (b +:+ t)).1, (drain_all (b +:+ t)).2).
Proof.
  revert ls b. induction s as [s IH] using (induction_ltof1 _ String.length). unfold ltof in IH. intros ls b.
  rewrite (drain_unfold s). destruct (split_newline s) as [[a r]|] eqn:E.
  - destruct (drain_all r) as [ls' b'] eqn:Ed. intros [= <- <-]. rewrite (drain_unfold (s +:+ t)), (split_app _ _ _ _ E).
    by rewrite (IH r (split_length _ _ _ E) _ _ Ed).
  - intros [= <- <-]. by destruct (drain_all (s +:+ t)).
Qed.

Lemma read_chunks_concat chunks buffer : split_newline buffer = None →
  read_chunks chunks buffer = drain_all (buffer +:+ String.concat EmptyString chunks).
Proof.
  revert buffer. induction chunks as [|c chunks IH]; intros buffer Hb.
  - simpl. rewrite str_app_nil_r. rewrite drain_unfold. by rewrite Hb.
  - rewrite str_concat_cons. cbn [read_chunks]. destruct (drain_all (buffer +:+ c)) as [ls b] eqn:Ed. rewrite IH by (by eapply drain_rest).
    rewrite <- str_app_assoc, (drain_app _ _ _ _ Ed). by destruct (drain_all (b +:+ _)).
Qed.

(** The events of a stream do not depend on how it arrives. However the text
    of a response is cut into chunks, inside a line or between the two characters
    of a line end, the client reads the same events as from the whole text. *)
Theorem sse_chunks_irrelevant chunks chunks' :
  String.concat EmptyString chunks = String.concat EmptyString chunks' → iterSseEvents chunks = iterSseEvents chunks'.
Proof. intros E. unfold iterSseEvents, iterLines. by rewrite !read_chunks_concat, E. Qed.

Lemma sse_chunks_irrelevant_witness :
  iterSseEvents ["event: exit" +:+ String CR EmptyString; String LF "data: {"; "}" +:+ String LF (String LF EmptyString)] = [("exit", ["{}"])].
Proof.
  rewrite (sse_chunks_irrelevant _ ["event: exit" +:+ String CR (String LF "data: {}") +:+ String LF (String LF EmptyString)]);
    vm_compute; reflexivity.
Defined.
