(* ===== verification/PathLock.v ===== *)
(** Ordering of concurrent mutations of one session
    (src/src/sql-fs/state/namespace-operations.ts, [#withNamespaceMutation]).

    A script can start several filesystem calls before it awaits any. Each
    names the paths it works on, waits for the mutations already registered
    on overlapping paths, runs, and leaves the set. [NsMutation] is an entry of
    [#namespaceMutations] with the promises it captured; [ns_step] is one event:
    a call registers, the last promise it awaits resolves and the body starts
    (or the reservation check throws), a body ends. [mutation_root] is the path
    a recursive [mkdir] or a bulk ingest registers. *)

From S2P Require Import Prelude Errors Paths.

Definition overlaps (a b : string) : bool :=
  bool_decide (a = b) || bool_decide (a = "/") || bool_decide (b = "/")
  || starts_with a (b +:+ "/") || starts_with b (a +:+ "/").

Record NsMutation := mkMutation {
  m_id : nat;
  m_paths : list string;
  m_waits : list nat;
  m_running : bool }.

(** [namespaceMutations] in insertion order; [next_id] gives each call its
    identity. *)
Record NsState := mkNs {
  namespaceMutations : list NsMutation;
  next_id : nat }.

Definition conflicts (ps qs : list string) : bool :=
  existsb (λ active, existsb (λ path, overlaps active path) qs) ps.

(** The registration: [pending] is captured before the entry is added. *)
Definition ns_enter (s : NsState) (paths : list string) : NsState :=
  let pending := List.filter (λ m, conflicts (m_paths m) paths) (namespaceMutations s) in
  mkNs (namespaceMutations s ++ [mkMutation (next_id s) paths (map m_id pending) false]) (S (next_id s)).

Definition active (s : NsState) (id : nat) : bool :=
  existsb (λ m, bool_decide (m_id m = id)) (namespaceMutations s).

(** [await Promise.all(pending.map((active) => active.done))] is over. *)
Definition awaited (s : NsState) (m : NsMutation) : bool := forallb (λ id, negb (active s id)) (m_waits m).

Definition ns_run (s : NsState) (id : nat) : NsState :=
  mkNs (map (λ m, if bool_decide (m_id m = id) then mkMutation (m_id m) (m_paths m) (m_waits m) true else m)
          (namespaceMutations s)) (next_id s).

(** The [finally]: the entry leaves the set and its promise resolves. *)
Definition ns_leave (s : NsState) (id : nat) : NsState :=
  mkNs (List.filter (λ m, negb (bool_decide (m_id m = id))) (namespaceMutations s)) (next_id s).

Inductive ns_step : NsState → NsState → Prop :=
| ns_call s paths : ns_step s (ns_enter s paths)
| ns_start s m : m ∈ namespaceMutations s → m_running m = false → awaited s m = true → ns_step s (ns_run s (m_id m))
| ns_stale s m : m ∈ namespaceMutations s → m_running m = false → awaited s m = true → ns_step s (ns_leave s (m_id m))
| ns_end s m : m ∈ namespaceMutations s → m_running m = true → ns_step s (ns_leave s (m_id m)).

Definition ns_reachable : NsState → Prop := rtc ns_step (mkNs [] 0).

(** [while (parentOf(root) !== root && !view.has(parentOf(root)))]; [fuel]
    bounds the turns, one per component of the path at most. *)
Fixpoint mutation_root (fuel : nat) (has : string → bool) (root : string) : string :=
  match fuel with
  | O => root
  | S fuel' =>
      if negb (bool_decide (parentOf root = root)) && negb (has (parentOf root))
      then mutation_root fuel' has (parentOf root)
      else root
  end.

(** ** Overlap is the ancestor relation *)

Lemma starts_under cs ds : valid_comps cs → valid_comps ds → ds ≠ [] →
  starts_with (path_of cs) (path_of ds +:+ "/") = true ↔ ∃ rest, rest ≠ [] ∧ cs = ds ++ rest.
Proof.
  intros Hc Hd Hne. rewrite <- (starts_with_dir_prefix ds cs), dir_prefix_of by done.
  split; [|tauto]. intros H. split; [|done]. intros E. rewrite E in H.
  apply starts_with_spec in H as [u Hu]. apply (f_equal str_len) in Hu.
  rewrite !str_len_app in Hu. pose proof (str_len_nonneg u).
  change (str_len "/") with 1 in Hu. lia.
Qed.

Lemma overlaps_prefix cs ds : valid_comps cs → valid_comps ds →
  overlaps (path_of cs) (path_of ds) = true ↔ cs `prefix_of` ds ∨ ds `prefix_of` cs.
Proof.
  intros Hc Hd. unfold overlaps. rewrite !orb_true_iff, !bool_decide_eq_true.
  destruct (decide (cs = [])) as [->|Hcn]; [split; [intros _; left; apply prefix_nil|intros _; by do 3 left; right]|].
  destruct (decide (ds = [])) as [->|Hdn]; [split; [intros _; right; apply prefix_nil|intros _; by do 2 left; right]|].
  rewrite (starts_under cs ds), (starts_under ds cs) by done. split.
  - intros [[[[H|H]|H]|H]|H].
    + apply path_of_inj in H as ->; [by left|done|done].
    + by apply path_of_root in H.
    + by apply path_of_root in H.
    + right. destruct H as (r & _ & ->). by exists r.
    + left. destruct H as (r & _ & ->). by exists r.
  - intros [[r ->]|[r ->]].
    + destruct (decide (r = [])) as [->|]; [rewrite app_nil_r; by do 4 left|right; eauto].
    + destruct (decide (r = [])) as [->|]; [rewrite app_nil_r; by do 4 left|left; right; eauto].
Qed.

(** ** The invariant *)

Record ns_inv (s : NsState) : Prop := {
  nsi_ids m : m ∈ namespaceMutations s → (m_id m < next_id s)%nat;
  nsi_inj m m' : m ∈ namespaceMutations s → m' ∈ namespaceMutations s → m_id m = m_id m' → m = m';
  nsi_older m id : m ∈ namespaceMutations s → id ∈ m_waits m → (id < m_id m)%nat;
  nsi_captured m m' : m ∈ namespaceMutations s → m' ∈ namespaceMutations s → (m_id m < m_id m')%nat →
    conflicts (m_paths m) (m_paths m') = true → m_id m ∈ m_waits m';
  nsi_running m : m ∈ namespaceMutations s → m_running m = true → awaited s m = true }.

Lemma active_in s id : active s id = true ↔ ∃ m, m ∈ namespaceMutations s ∧ m_id m = id.
Proof.
  unfold active. rewrite existsb_exists. setoid_rewrite bool_decide_eq_true.
  by setoid_rewrite list_elem_of_In.
Qed.

Lemma awaited_spec s m : awaited s m = true ↔ ∀ id, id ∈ m_waits m → active s id = false.
Proof.
  unfold awaited. rewrite forallb_forall. setoid_rewrite negb_true_iff. by setoid_rewrite list_elem_of_In.
Qed.

Lemma active_false s id : active s id = false ↔ ∀ m, m ∈ namespaceMutations s → m_id m ≠ id.
Proof.
  rewrite <- not_true_iff_false, active_in. split.
  - intros H m Hm E. apply H. eauto.
  - intros H (m & Hm & E). by apply (H m).
Qed.

Lemma leave_in s id m : m ∈ namespaceMutations (ns_leave s id) ↔ m ∈ namespaceMutations s ∧ m_id m ≠ id.
Proof.
  simpl. rewrite !list_elem_of_In, filter_In, negb_true_iff, bool_decide_eq_false. done.
Qed.

Lemma awaited_mono s s' m :
  (∀ m', m' ∈ namespaceMutations s' → m_id m' ∈ m_waits m → active s (m_id m') = true) →
  awaited s m = true → awaited s' m = true.
Proof.
  rewrite !awaited_spec. intros Hs Hw id Hid. apply active_false. intros m' Hm' E.
  subst id. specialize (Hs m' Hm' Hid). by rewrite (Hw _ Hid) in Hs.
Qed.

Lemma enter_inv s ps : ns_inv s → ns_inv (ns_enter s ps).
Proof.
  intros [Hids Hinj Hold Hcap Hrun].
  assert (Hin : ∀ m, m ∈ namespaceMutations (ns_enter s ps) ↔ m ∈ namespaceMutations s ∨
     m = mkMutation (next_id s) ps (map m_id (List.filter (λ m, conflicts (m_paths m) ps) (namespaceMutations s))) false).
  { intros m. simpl. by rewrite elem_of_app, list_elem_of_singleton. }
  split.
  - intros m [Hm| ->]%Hin; simpl; [specialize (Hids m Hm); lia|lia].
  - intros m m' [Hm| ->]%Hin [Hm'| ->]%Hin; simpl; [by apply Hinj| | |done].
    + specialize (Hids m Hm). lia.
    + specialize (Hids m' Hm'). lia.
  - intros m id [Hm| ->]%Hin Hid; [by apply (Hold m)|]. simpl in *.
    apply list_elem_of_In, in_map_iff in Hid as (m' & <- & Hm'). apply filter_In in Hm' as [Hm' _].
    apply Hids. by apply list_elem_of_In.
  - intros m m' [Hm| ->]%Hin [Hm'| ->]%Hin; simpl; [by apply Hcap| | |lia].
    + intros _ Hc. apply list_elem_of_In, in_map_iff. exists m. split; [done|].
      apply filter_In. split; [by apply list_elem_of_In|done].
    + specialize (Hids m' Hm'). lia.
  - intros m [Hm| ->]%Hin; [|done]. intros Hr. apply (awaited_mono s); [|by apply Hrun].
    intros m' [Hm'| ->]%Hin Hid; [apply active_in; eauto|].
    simpl in Hid. specialize (Hold m _ Hm Hid). specialize (Hids m Hm). lia.
Qed.

Lemma leave_inv s id : ns_inv s → ns_inv (ns_leave s id).
Proof.
  intros [Hids Hinj Hold Hcap Hrun]. split.
  - intros m [Hm _]%leave_in. by apply Hids.
  - intros m m' [Hm _]%leave_in [Hm' _]%leave_in. by apply Hinj.
  - intros m i [Hm _]%leave_in. by apply Hold.
  - intros m m' [Hm _]%leave_in [Hm' _]%leave_in. by apply Hcap.
  - intros m [Hm _]%leave_in Hr. apply (awaited_mono s); [|by apply Hrun].
    intros m' [Hm' _]%leave_in _. apply active_in. eauto.
Qed.

Lemma run_in s id m : m ∈ namespaceMutations (ns_run s id) → ∃ m0, m0 ∈ namespaceMutations s ∧
  m_id m = m_id m0 ∧ m_paths m = m_paths m0 ∧ m_waits m = m_waits m0 ∧
  (m_running m = true → m_running m0 = true ∨ m_id m0 = id) ∧
  (m_id m0 ≠ id → m = m0) ∧ (m_id m0 = id → m = mkMutation id (m_paths m0) (m_waits m0) true).
Proof.
  simpl. intros (m0 & <- & Hm0)%list_elem_of_In%in_map_iff. exists m0.
  apply list_elem_of_In in Hm0. split; [done|]. case_bool_decide as E; simpl.
  - repeat split; [auto|by intros ?|]. by intros <-.
  - repeat split; [auto|by intros ?].
Qed.

Lemma run_inv s m : ns_inv s → m ∈ namespaceMutations s → awaited s m = true → ns_inv (ns_run s (m_id m)).
Proof.
  intros Hs Hm Hw. pose proof Hs as [Hids Hinj Hold Hcap Hrun]. split.
  - intros n (n0 & Hn & -> & _)%run_in. by apply Hids.
  - intros n n' (n0 & Hn & E1 & _ & _ & _ & Hk & Hr)%run_in (n0' & Hn' & E1' & _ & _ & _ & Hk' & Hr')%run_in E.
    assert (n0 = n0') as <- by (apply Hinj; congruence).
    destruct (decide (m_id n0 = m_id m)) as [Ei|Ei]; [by rewrite (Hr Ei), (Hr' Ei)|by rewrite (Hk Ei), (Hk' Ei)].
  - intros n i (n0 & Hn & -> & _ & -> & _)%run_in. by apply Hold.
  - intros n n' (n0 & Hn & -> & -> & _ & _)%run_in (n0' & Hn' & -> & -> & -> & _)%run_in. by apply Hcap.
  - intros n (n0 & Hn & _ & _ & Ew & Hr & _)%run_in Hrn. rewrite awaited_spec, Ew.
    assert (awaited s n0 = true) as Haw.
    { destruct (Hr Hrn) as [?|Ei]; [by apply Hrun|]. by rewrite (Hinj n0 m Hn Hm Ei). }
    rewrite awaited_spec in Haw. intros id Hid. specialize (Haw id Hid).
    rewrite active_false in Haw |- *. intros k (k0 & Hk0 & -> & _)%run_in. by apply Haw.
Qed.

Lemma ns_reachable_inv s : ns_reachable s → ns_inv s.
Proof.
  assert (∀ s0, rtc ns_step s0 s → ns_inv s0 → ns_inv s) as Hgen.
  { induction 1 as [|s0 s1 s2 Hst _ IH]; [done|]. intros Hs. apply IH.
    destruct Hst; [by apply enter_inv|by apply run_inv|by apply leave_inv|by apply leave_inv]. }
  intros H. apply (Hgen _ H). split; simpl; try by intros m Hm%elem_of_nil.
  - by intros m m' Hm%elem_of_nil.
  - by intros m id Hm%elem_of_nil.
  - by intros m m' Hm%elem_of_nil.
Qed.

(** ** What the ordering guarantees *)

Lemma conflicts_spec ps qs : conflicts ps qs = true ↔ ∃ p q, p ∈ ps ∧ q ∈ qs ∧ overlaps p q = true.
Proof.
  unfold conflicts. rewrite existsb_exists. split.
  - intros (p & Hp & (q & Hq & H)%existsb_exists). exists p, q. by rewrite !list_elem_of_In.
  - intros (p & q & Hp & Hq & H). exists p. split; [by apply list_elem_of_In|].
    apply existsb_exists. exists q. split; [by apply list_elem_of_In|done].
Qed.

Lemma overlaps_sym a b : overlaps a b = overlaps b a.
Proof.
  unfold overlaps. rewrite (bool_decide_ext (a = b) (b = a)) by done.
  destruct (bool_decide (a = "/")), (bool_decide (b = "/")), (starts_with a (b +:+ "/")),
    (starts_with b (a +:+ "/")); by rewrite ?orb_true_r.
Qed.

Lemma oldest (ms : list NsMutation) : ms ≠ [] →
  ∃ m, m ∈ ms ∧ ∀ m', m' ∈ ms → (m_id m ≤ m_id m')%nat.
Proof.
  induction ms as [|m ms IH]; [done|]. intros _. destruct (decide (ms = [])) as [->|Hne].
  { exists m. split; [by left|]. intros m' ->%list_elem_of_singleton. lia. }
  destruct (IH Hne) as (k & Hk & Hmin). destruct (decide (m_id m ≤ m_id k)%nat) as [Hle|Hle].
  - exists m. split; [by left|]. intros m' [->|Hm']%elem_of_cons; [lia|]. specialize (Hmin m' Hm'). lia.
  - exists k. split; [by right|]. intros m' [->|Hm']%elem_of_cons; [lia|by apply Hmin].
Qed.

(** C39: Mutations of overlapping paths never run at the same time, and they run
    in the order of the calls: while an earlier one is registered, running or
    not, a later one whose paths contain, equal or lie under one of its paths
    has not started. *)
Theorem overlapping_mutations_serialised s m m' cs ds :
  ns_reachable s → m ∈ namespaceMutations s → m' ∈ namespaceMutations s →
  (m_id m < m_id m')%nat →
  valid_comps cs → valid_comps ds → path_of cs ∈ m_paths m → path_of ds ∈ m_paths m' →
  cs `prefix_of` ds ∨ ds `prefix_of` cs →
  m_running m' = false.
Proof.
  intros Hs%ns_reachable_inv Hm Hm' Hlt Hc Hd Hcin Hdin Hpre.
  assert (conflicts (m_paths m) (m_paths m') = true) as Hconf.
  { apply conflicts_spec. exists (path_of cs), (path_of ds). split; [done|]. split; [done|].
    by apply overlaps_prefix. }
  pose proof (nsi_captured _ Hs m m' Hm Hm' Hlt Hconf) as Hw.
  destruct (m_running m') eqn:Er; [|done]. pose proof (nsi_running _ Hs m' Hm' Er) as Haw.
  rewrite awaited_spec in Haw. specialize (Haw _ Hw). rewrite active_false in Haw. by destruct (Haw m Hm).
Qed.

(** No deadlock. In every reachable state with a registered mutation the
    oldest one waits for nobody: it is running or may start, so a step that
    shrinks the set or starts a body is always possible. *)
Theorem oldest_mutation_progresses s :
  ns_reachable s → namespaceMutations s ≠ [] →
  ∃ m, m ∈ namespaceMutations s ∧ awaited s m = true ∧
    (m_running m = true → ns_step s (ns_leave s (m_id m))) ∧
    (m_running m = false → ns_step s (ns_run s (m_id m))).
Proof.
  intros Hs%ns_reachable_inv Hne. destruct (oldest _ Hne) as (m & Hm & Hmin).
  assert (awaited s m = true) as Haw.
  { apply awaited_spec. intros id Hid. apply active_false. intros k Hk <-.
    pose proof (nsi_older _ Hs m _ Hm Hid). specialize (Hmin k Hk). lia. }
  exists m. split; [done|]. split; [done|]. split; intros Hr; by constructor.
Qed.

Lemma mutation_root_spec fuel has cs :
  valid_comps cs → (length cs ≤ fuel)%nat →
  (∀ ds n, valid_comps (ds ++ [n]) → has (path_of (ds ++ [n])) = true → has (path_of ds) = true) →
  ∃ rs, mutation_root fuel has (path_of cs) = path_of rs ∧ rs `prefix_of` cs ∧
    ∀ ps, ps `prefix_of` cs → has (path_of ps) = false → rs `prefix_of` ps ∨ ps = cs.
Proof.
  intros Hv Hf Hup. revert cs Hv Hf. induction fuel as [|fuel IH]; intros cs Hv Hf.
  { exists cs. split; [done|]. split; [done|]. intros ps [r ->] _. right.
    rewrite length_app in Hf. destruct r; [by rewrite app_nil_r|simpl in Hf; lia]. }
  destruct cs as [|n cs _] using rev_ind.
  { exists []. split; [done|]. split; [done|]. intros ps [r E] _. right. symmetry in E. by apply app_nil in E as [-> _]. }
  cbn [mutation_root]. rewrite (parentOf_snoc cs n Hv).
  pose proof Hv as [Hcs Hn]%valid_comps_snoc.
  rewrite bool_decide_false; [|intros E; apply path_of_inj in E; [|done|done]; apply (f_equal length) in E;
    rewrite length_app in E; simpl in E; lia].
  rewrite length_app in Hf. simpl in Hf.
  destruct (has (path_of cs)) eqn:Eh; simpl.
  - exists (cs ++ [n]). split; [done|]. split; [done|]. intros ps Hps Hmiss. right.
    destruct Hps as [r E]. destruct r as [|r0 r _] using rev_ind; [by rewrite app_nil_r in E|].
    rewrite (assoc_L (++)) in E. apply app_inj_tail in E as [-> ->]. exfalso.
    clear IH Hv Hf Hn. induction r as [|r1 r IH] using rev_ind; [by rewrite app_nil_r, Hmiss in Eh|].
    rewrite (assoc_L (++)) in Eh, Hcs. apply IH; [by apply valid_comps_snoc in Hcs as [? _]|].
    by apply (Hup _ _ Hcs).
  - destruct (IH cs Hcs ltac:(lia)) as (rs & -> & Hpre & Hall). exists rs. split; [done|].
    split; [by apply prefix_app_r|]. intros ps Hps Hmiss.
    destruct Hps as [r E]. destruct r as [|r0 r _] using rev_ind; [right; by rewrite app_nil_r in E|].
    rewrite (assoc_L (++)) in E. apply app_inj_tail in E as [-> ->].
    destruct (Hall ps) as [Hp|Hp]; [by exists r|done|by left|left; by rewrite Hp].
Qed.

(** A recursive [mkdir] (and each file of a bulk ingest) registers a path
    that covers all it may create: in a view whose entries all have their
    parent, every missing ancestor of the target, the target included, lies at
    or under the registered root, and the root lies on the way to the target. *)
Theorem mutation_root_covers has cs :
  valid_comps cs →
  (∀ ds n, valid_comps (ds ++ [n]) → has (path_of (ds ++ [n])) = true → has (path_of ds) = true) →
  ∃ rs, mutation_root (length cs) has (path_of cs) = path_of rs ∧ rs `prefix_of` cs ∧
    ∀ ps, ps `prefix_of` cs → has (path_of ps) = false → rs `prefix_of` ps.
Proof.
  intros Hv Hup. destruct (mutation_root_spec (length cs) has cs Hv (le_n _) Hup) as (rs & E & Hpre & Hall).
  exists rs. split; [done|]. split; [done|]. intros ps Hps Hm. destruct (Hall ps Hps Hm) as [| ->]; done.
Qed.

(** Two calls, on [/a/b] and on [/a]; the second waits. *)
Definition demo_calls : NsState := ns_run (ns_enter (ns_enter (mkNs [] 0) ["/a/b"]) ["/a"]) 0.

Lemma demo_calls_reachable : ns_reachable demo_calls.
Proof.
  unfold ns_reachable, demo_calls.
  eapply rtc_l; [apply ns_call|]. eapply rtc_l; [apply ns_call|].
  eapply rtc_l; [|apply rtc_refl].
  apply (ns_start (ns_enter (ns_enter (mkNs [] 0) ["/a/b"]) ["/a"]) (mkMutation 0 ["/a/b"] [] false)).
  - apply list_elem_of_here.
  - reflexivity.
  - reflexivity.
Qed.

Lemma valid_name_a : valid_comps ["a"].
Proof. repeat constructor; compute_decide. Qed.

Lemma valid_name_ab : valid_comps ["a"; "b"].
Proof. repeat constructor; compute_decide. Qed.

Lemma overlapping_mutations_serialised_witness :
  m_running (mkMutation 1 ["/a"] [0%nat] false) = false.
Proof.
  apply (overlapping_mutations_serialised demo_calls (mkMutation 0 ["/a/b"] [] true)
           (mkMutation 1 ["/a"] [0%nat] false) ["a"; "b"] ["a"]).
  - exact demo_calls_reachable.
  - apply list_elem_of_here.
  - apply list_elem_of_further, list_elem_of_here.
  - apply Nat.lt_0_1.
  - exact valid_name_ab.
  - exact valid_name_a.
  - apply list_elem_of_here.
  - apply list_elem_of_here.
  - right. exists ["b"]. reflexivity.
Defined.

Lemma oldest_mutation_progresses_witness :
  ∃ m, m ∈ namespaceMutations demo_calls ∧ awaited demo_calls m = true.
Proof.
  destruct (oldest_mutation_progresses demo_calls demo_calls_reachable) as (m & Hm & Ha & _).
  - intros H. discriminate H.
  - exists m. exact (conj Hm Ha).
Defined.

Lemma mutation_root_covers_witness :
  ∃ rs, mutation_root 2 (λ p, bool_decide (p = "/")) "/a/b" = path_of rs ∧ rs `prefix_of` ["a"; "b"].
Proof.
  destruct (mutation_root_covers (λ p, bool_decide (p = "/")) ["a"; "b"] valid_name_ab) as (rs & E & Hp & _).
  - intros ds n Hv H. apply bool_decide_eq_true in H. apply path_of_root in H; [|exact Hv].
    apply app_nil in H as [_ H]. discriminate H.
  - exists rs. exact (conj E Hp).
Defined.
