(* ===== verification/RwLock.v ===== *)
(** The per-sandbox readers-writer lock (src/src/api/rw-lock.ts).

    [RWLock] is the class's state and [acquire], [enqueue], [reject],
    [releaseShared], [releaseExclusive] and [dispatch] its methods. A waiter
    is an object with an identity, here [w_id]. [System] adds the callers of
    [runShared] and [runExclusive] that are between the grant and the
    [finally] that releases, and [rw_step] is one event of the event loop: a
    call, an abort signal or the end of a critical section. *)

From S2P Require Import Prelude.

#[local] Open Scope nat_scope.

Inductive LockMode := shared | exclusive.

#[export] Instance LockMode_eq_dec : EqDecision LockMode.
Proof. solve_decision. Defined.

(** [w_signal]: the caller passed an [AbortSignal]. *)
Record Waiter := mkWaiter {
  w_id : nat;
  w_mode : LockMode;
  w_signal : bool;
  w_settled : bool }.

Record RWLock := mkLock {
  readers : nat;
  writerActive : bool;
  queue : list Waiter }.

Definition newLock : RWLock := mkLock 0 false [].

Definition pendingCount (l : RWLock) : nat :=
  length (List.filter (λ w, negb (w_settled w)) (queue l)).

Definition hasQueuedWriter (l : RWLock) : bool :=
  existsb (λ w, negb (w_settled w) && bool_decide (w_mode w = exclusive)) (queue l).

(** How a call of [#acquire] leaves its promise. *)
Inductive Acquired := Granted | Aborted | Waiting.

Definition enqueue (l : RWLock) (id : nat) (mode : LockMode) (signal : bool) : RWLock :=
  mkLock (readers l) (writerActive l) (queue l ++ [mkWaiter id mode signal false]).

(** [signal]: [None] when the caller passed none, else whether it is aborted. *)
Definition acquire (l : RWLock) (id : nat) (mode : LockMode) (signal : option bool) : Acquired * RWLock :=
  if default false signal then (Aborted, l)
  else
    match mode with
    | shared =>
        if negb (writerActive l) && negb (hasQueuedWriter l)
        then (Granted, mkLock (S (readers l)) (writerActive l) (queue l))
        else (Waiting, enqueue l id mode (bool_decide (is_Some signal)))
    | exclusive =>
        if negb (writerActive l) && bool_decide (readers l = 0)
        then (Granted, mkLock (readers l) true (queue l))
        else (Waiting, enqueue l id mode (bool_decide (is_Some signal)))
    end.

(** The abort listener of a queued waiter: [waiter.reject] splices it out. *)
Definition reject (l : RWLock) (id : nat) : RWLock :=
  mkLock (readers l) (writerActive l)
    (List.filter (λ w, negb (bool_decide (w_id w = id) && w_signal w && negb (w_settled w))) (queue l)).

Fixpoint drop_settled (q : list Waiter) : list Waiter :=
  match q with
  | w :: q' => if w_settled w then drop_settled q' else q
  | [] => []
  end.

(** The second loop of [#dispatch]: the waiters woken, in order, and the rest. *)
Fixpoint wake_shared (q : list Waiter) : list Waiter * list Waiter :=
  match q with
  | [] => ([], [])
  | w :: q' =>
      if w_settled w then wake_shared q'
      else if decide (w_mode w = shared)
      then let '(woken, rest) := wake_shared q' in (w :: woken, rest)
      else ([], q)
  end.

(** The lock after a dispatch, and the waiters whose promise it resolved. *)
Definition dispatch (l : RWLock) : RWLock * list Waiter :=
  let q := drop_settled (queue l) in
  let l' := mkLock (readers l) (writerActive l) q in
  match q with
  | [] => (l', [])
  | head :: rest =>
      if writerActive l then (l', [])
      else if decide (w_mode head = exclusive)
      then if decide (0 < readers l) then (l', [])
           else (mkLock (readers l) true rest, [head])
      else let '(woken, rest') := wake_shared q in
           (mkLock (readers l + length woken) (writerActive l) rest', woken)
  end.

Definition releaseShared (l : RWLock) : res string (RWLock * list Waiter) :=
  match readers l with
  | 0 => Err "RWLock: releaseShared called with no active readers"
  | S n =>
      let l' := mkLock n (writerActive l) (queue l) in
      if decide (n = 0) then Ok (dispatch l') else Ok (l', [])
  end.

Definition releaseExclusive (l : RWLock) : res string (RWLock * list Waiter) :=
  if negb (writerActive l) then Err "RWLock: releaseExclusive called with no active writer"
  else Ok (dispatch (mkLock (readers l) false (queue l))).

(** ** The callers *)

Record System := mkSystem {
  lock : RWLock;
  holders : list (nat * LockMode) }.

Definition start : System := mkSystem newLock [].

Definition as_holder (w : Waiter) : nat * LockMode := (w_id w, w_mode w).

(** A call of [runShared] or [runExclusive]. *)
Definition run_call (s : System) (id : nat) (mode : LockMode) (signal : option bool) : System :=
  match acquire (lock s) id mode signal with
  | (Granted, l) => mkSystem l (holders s ++ [(id, mode)])
  | (_, l) => mkSystem l (holders s)
  end.

(** The [finally] of [runShared] or [runExclusive]. *)
Definition run_finally (s : System) (id : nat) (mode : LockMode) : res string System :=
  match (match mode with
         | shared => releaseShared (lock s)
         | exclusive => releaseExclusive (lock s)
         end) with
  | Err e => Err e
  | Ok (l, woken) =>
      Ok (mkSystem l (List.filter (λ h, negb (bool_decide (h.1 = id))) (holders s) ++ map as_holder woken))
  end.

Definition known (s : System) : list nat := map fst (holders s) ++ map w_id (queue (lock s)).

Inductive rw_step : System → System → Prop :=
| rw_call s id mode signal :
    id ∉ known s → rw_step s (run_call s id mode signal)
| rw_abort s id :
    rw_step s (mkSystem (reject (lock s) id) (holders s))
| rw_finally s id mode s' :
    (id, mode) ∈ holders s → run_finally s id mode = Ok s' → rw_step s s'.

Definition rw_reachable : System → Prop := rtc rw_step start.

(** ** The invariant *)

Definition count_mode (m : LockMode) (hs : list (nat * LockMode)) : nat :=
  length (List.filter (λ h, bool_decide (h.2 = m)) hs).

Definition pending (w : Waiter) : Prop := w_settled w = false.

(** The counters count the holders, a writer is alone, no settled waiter stays
    queued, identities are distinct and a waiter waits for somebody. *)
Record rw_inv (s : System) : Prop := {
  inv_readers : readers (lock s) = count_mode shared (holders s);
  inv_writer : count_mode exclusive (holders s) = if writerActive (lock s) then 1 else 0;
  inv_alone : writerActive (lock s) = true → readers (lock s) = 0;
  inv_pending : Forall pending (queue (lock s));
  inv_distinct : NoDup (known s);
  inv_busy : queue (lock s) ≠ [] → holders s ≠ [] }.

(** What a dispatch of a free lock does: it wakes a prefix of the queue, one
    writer or a batch of readers. *)
Record dispatched (q : list Waiter) (l : RWLock) (woken : list Waiter) : Prop := {
  dis_prefix : q = woken ++ queue l;
  dis_some : q ≠ [] → woken ≠ [];
  dis_mode : (writerActive l = false ∧ Forall (λ w, w_mode w = shared) woken ∧ readers l = length woken)
             ∨ (writerActive l = true ∧ readers l = 0 ∧ ∃ w, woken = [w] ∧ w_mode w = exclusive) }.

Lemma drop_settled_pending q : Forall pending q → drop_settled q = q.
Proof. destruct 1 as [|w q Hw Hq]; [done|]. simpl. by rewrite Hw. Qed.

Lemma wake_shared_spec q woken rest : Forall pending q → wake_shared q = (woken, rest) →
  q = woken ++ rest ∧ Forall (λ w, w_mode w = shared) woken.
Proof.
  intros Hq. revert woken rest. induction Hq as [|w q Hw Hq IH]; intros woken rest; simpl.
  - intros [= <- <-]. by split.
  - rewrite Hw. destruct (decide (w_mode w = shared)) as [Hm|Hm].
    + destruct (wake_shared q) as [wk rs] eqn:E. intros [= <- <-].
      destruct (IH _ _ eq_refl) as [-> Hall]. split; [done|]. by constructor.
    + intros [= <- <-]. by split; [|constructor].
Qed.

Lemma dispatch_free q l woken : Forall pending q →
  dispatch (mkLock 0 false q) = (l, woken) → dispatched q l woken.
Proof.
  intros Hq. unfold dispatch. simpl. rewrite (drop_settled_pending q Hq).
  destruct q as [|w q]; [intros [= <- <-]; split; simpl; [done|done|by left]|].
  destruct (decide (w_mode w = exclusive)) as [Hm|Hm].
  - intros [= <- <-]. split; [done|done|right; simpl; eauto].
  - destruct (wake_shared (w :: q)) as [wk rs] eqn:E.
    destruct (wake_shared_spec _ _ _ Hq E) as [Heq Hall]. intros [= <- <-].
    split; [done| |left; by simpl].
    intros _ ->. simpl in E. inversion Hq as [|? ? Hw ?]; subst.
    rewrite Hw in E. rewrite decide_True in E by (by destruct (w_mode w)).
    destruct (wake_shared q). discriminate E.
Qed.

Lemma count_mode_app m hs ks : count_mode m (hs ++ ks) = count_mode m hs + count_mode m ks.
Proof. unfold count_mode. by rewrite List.filter_app, length_app. Qed.

Lemma count_mode_cons m h hs :
  count_mode m (h :: hs) = (if decide (h.2 = m) then 1 else 0) + count_mode m hs.
Proof.
  unfold count_mode. simpl. destruct (decide (h.2 = m)); [rewrite bool_decide_true by done|rewrite bool_decide_false by done]; done.
Qed.

Lemma count_mode_all m ws : Forall (λ w, w_mode w = m) ws →
  count_mode m (map as_holder ws) = length ws ∧
  (∀ m', m' ≠ m → count_mode m' (map as_holder ws) = 0).
Proof.
  unfold count_mode. induction 1 as [|w ws Hw Hws [IH1 IH2]]; [done|]. simpl. rewrite Hw.
  rewrite bool_decide_true by done. simpl. split; [by rewrite IH1|].
  intros m' Hm'. rewrite bool_decide_false by done. by apply IH2.
Qed.

Lemma count_mode_pos m hs : 1 ≤ count_mode m hs → ∃ id, (id, m) ∈ hs.
Proof.
  induction hs as [|[i n] hs IH]; [unfold count_mode; simpl; lia|].
  rewrite count_mode_cons. simpl. destruct (decide (n = m)) as [->|_]; intros Hc.
  - exists i. by left.
  - destruct (IH Hc) as [id Hid]. exists id. by right.
Qed.

Lemma count_mode_in m id hs : (id, m) ∈ hs → 1 ≤ count_mode m hs.
Proof.
  unfold count_mode. induction hs as [|h hs IH]; intros Hin; [by apply elem_of_nil in Hin|].
  simpl. apply elem_of_cons in Hin as [<-|Hin].
  - rewrite bool_decide_true by done. simpl. lia.
  - specialize (IH Hin). destruct (bool_decide _); simpl; lia.
Qed.

Lemma count_mode_perm m hs ks : hs ≡ₚ ks → count_mode m hs = count_mode m ks.
Proof. intros H. unfold count_mode. by rewrite (filter_perm _ _ _ H). Qed.

Lemma holders_nil s : rw_inv s → holders s = [] → readers (lock s) = 0 ∧ writerActive (lock s) = false.
Proof.
  intros [Hr Hw _ _ _ _] E. rewrite E in *. split; [by rewrite Hr|].
  by destruct (writerActive (lock s)).
Qed.

Lemma holders_drop s id m : rw_inv s → (id, m) ∈ holders s →
  holders s ≡ₚ (id, m) :: List.filter (λ h, negb (bool_decide (h.1 = id))) (holders s).
Proof.
  intros Hs Hin. apply (drop_by_id fst (id, m)); [|done].
  eapply proj1, NoDup_app. apply (inv_distinct _ Hs).
Qed.

Lemma run_call_inv s id mode signal : rw_inv s → id ∉ known s → rw_inv (run_call s id mode signal).
Proof.
  intros Hs Hid. unfold run_call, acquire. destruct (default false signal); [by destruct s|].
  assert (Hq : (holders s ≠ []) → rw_inv (mkSystem (enqueue (lock s) id mode (bool_decide (is_Some signal))) (holders s))).
  { intros Hne. destruct Hs as [Hr Hw Ha Hp Hd Hb]. split; simpl; try done.
    - apply Forall_app. by repeat constructor.
    - unfold known. simpl. rewrite map_app, (assoc_L (++)). simpl.
      apply NoDup_app. split; [done|]. split; [|apply NoDup_singleton].
      intros x Hx Hx'. apply list_elem_of_singleton in Hx' as ->. by apply Hid. }
  assert (Hd' : NoDup (map fst (holders s ++ [(id, mode)]) ++ map w_id (queue (lock s)))).
  { pose proof (inv_distinct _ Hs) as Hd. unfold known in Hd, Hid. rewrite map_app. simpl.
    rewrite <- (assoc_L (++)). simpl. rewrite <- Permutation_middle. by constructor. }
  destruct mode.
  - destruct (negb (writerActive (lock s)) && negb (hasQueuedWriter (lock s))) eqn:E; [|apply Hq].
    + apply andb_true_iff in E as [Ew _]. apply negb_true_iff in Ew.
      destruct Hs as [Hr Hw Ha Hp Hd Hb]. split; simpl; try done.
      * rewrite count_mode_app, <- Hr. unfold count_mode. simpl. lia.
      * rewrite count_mode_app, Hw. unfold count_mode. simpl. lia.
      * by rewrite Ew.
      * intros _ [_ E]%app_nil. discriminate E.
    + intros En. destruct (holders_nil s Hs En) as [_ Ew]. rewrite Ew in E. simpl in E.
      apply negb_false_iff in E. unfold hasQueuedWriter in E.
      assert (queue (lock s) = []) as Hqn.
      { destruct (decide (queue (lock s) = [])) as [|Hqn]; [done|]. by destruct (inv_busy _ Hs Hqn). }
      rewrite Hqn in E. discriminate E.
  - destruct (negb (writerActive (lock s)) && bool_decide (readers (lock s) = 0)) eqn:E; [|apply Hq].
    + apply andb_true_iff in E as [Ew Er]. apply negb_true_iff in Ew. apply bool_decide_eq_true in Er.
      destruct Hs as [Hr Hw Ha Hp Hd Hb]. split; simpl; try done.
      * rewrite count_mode_app, <- Hr. unfold count_mode. simpl. lia.
      * rewrite count_mode_app, Hw, Ew. done.
      * intros _ [_ E]%app_nil. discriminate E.
    + intros En. destruct (holders_nil s Hs En) as [Er Ew]. by rewrite Ew, Er in E.
Qed.

Lemma sublist_filter_wid (f : Waiter → bool) q : map w_id (List.filter f q) `sublist_of` map w_id q.
Proof.
  induction q as [|w q IH]; [done|]. simpl. destruct (f w); simpl; by constructor.
Qed.

Lemma reject_inv s id : rw_inv s → rw_inv (mkSystem (reject (lock s) id) (holders s)).
Proof.
  intros [Hr Hw Ha Hp Hd Hb]. split; simpl; try done.
  - rewrite Forall_forall in *. intros w Hw'. apply Hp.
    apply list_elem_of_In, filter_In in Hw' as [Hw' _]. by apply list_elem_of_In.
  - unfold known in *. simpl. eapply sublist_NoDup; [exact Hd|].
    apply sublist_app; [done|]. apply sublist_filter_wid.
  - intros Hne. apply Hb. intros E. by rewrite E in Hne.
Qed.

(** After a release that frees the lock, the woken waiters hold it. *)
Lemma dispatched_inv l0 l hs woken :
  Forall pending (queue l0) →
  NoDup (map fst hs ++ map w_id (queue l0)) →
  count_mode shared hs = 0 → count_mode exclusive hs = 0 →
  dispatched (queue l0) l woken →
  rw_inv (mkSystem l (hs ++ map as_holder woken)).
Proof.
  intros Hp Hd Hs He [Hpre Hsome Hmode].
  assert (Hids : map fst (map as_holder woken) = map w_id woken) by (rewrite map_map; done).
  split; unfold known; simpl.
  - rewrite count_mode_app, Hs. destruct Hmode as [(_ & Hall & ->)|(_ & -> & w & -> & Hw)].
    + by rewrite (proj1 (count_mode_all _ _ Hall)).
    + unfold count_mode. simpl. by rewrite Hw.
  - rewrite count_mode_app, He. destruct Hmode as [(-> & Hall & _)|(-> & _ & w & -> & Hw)].
    + by rewrite (proj2 (count_mode_all _ _ Hall)).
    + unfold count_mode. simpl. by rewrite Hw.
  - destruct Hmode as [(-> & _ & _)|(_ & -> & _)]; done.
  - rewrite Hpre in Hp. by apply Forall_app in Hp as [_ Hp].
  - rewrite map_app, Hids. rewrite Hpre, map_app in Hd. by rewrite <- (assoc_L (++)).
  - intros Hne E. apply app_nil in E as [_ E]. apply map_eq_nil in E.
    apply Hsome; [|done]. rewrite Hpre, E. done.
Qed.

Lemma dispatched_writer q l woken : dispatched q l woken →
  ∀ w, w ∈ woken → w_mode w = exclusive → woken = [w].
Proof.
  intros [_ _ [(_ & Hall & _)|(_ & _ & w' & -> & _)]] w Hw Hm.
  - rewrite Forall_forall in Hall. by rewrite (Hall w Hw) in Hm.
  - by apply list_elem_of_singleton in Hw as ->.
Qed.

(** The end of a critical section never throws: one caller leaves, and the
    waiters it frees are a prefix of the queue. *)
Lemma run_finally_spec s id mode : rw_inv s → (id, mode) ∈ holders s →
  ∃ s' woken, run_finally s id mode = Ok s' ∧ rw_inv s' ∧
    holders s' = List.filter (λ h, negb (bool_decide (h.1 = id))) (holders s) ++ map as_holder woken ∧
    queue (lock s) = woken ++ queue (lock s') ∧
    ∀ w, w ∈ woken → w_mode w = exclusive → woken = [w].
Proof.
  intros Hs Hin. pose proof (holders_drop s id mode Hs Hin) as Hperm.
  set (hs := List.filter _ (holders s)) in *.
  assert (Hnd : NoDup (map fst hs ++ map w_id (queue (lock s)))).
  { pose proof (inv_distinct _ Hs) as Hd. unfold known in Hd. rewrite Hperm in Hd. simpl in Hd.
    by apply NoDup_cons in Hd as [_ Hd]. }
  pose proof (count_mode_perm shared _ _ Hperm) as Hcs.
  pose proof (count_mode_perm exclusive _ _ Hperm) as Hce.
  destruct Hs as [Hr Hw Ha Hp Hd Hb]. unfold run_finally. fold hs.
  rewrite !count_mode_cons in Hcs, Hce. simpl in Hcs, Hce.
  destruct mode; simpl in Hcs, Hce.
  - unfold releaseShared. destruct (readers (lock s)) as [|n] eqn:En; [lia|].
    assert (Ew : writerActive (lock s) = false) by (destruct (writerActive (lock s)); [by specialize (Ha eq_refl)|done]).
    rewrite Ew in Hw. destruct (decide (n = 0)) as [->|Hn].
    + rewrite Ew. destruct (dispatch _) as [l woken] eqn:E.
      pose proof (dispatch_free _ _ _ Hp E) as Hdis.
      eexists _, woken. split; [done|]. split; [|split; [done|split; [apply (dis_prefix _ _ _ Hdis)|apply (dispatched_writer _ _ _ Hdis)]]].
      apply (dispatched_inv (lock s)); [done|done|lia|lia|done].
    + eexists _, []. split; [done|]. simpl. rewrite app_nil_r.
      split; [|split; [done|split; [done|by intros w Hwn%elem_of_nil]]].
      split; unfold known; simpl; [lia|rewrite Ew; lia|by rewrite Ew|done|done|].
      intros _ E. rewrite E in Hcs. change (count_mode shared []) with 0 in Hcs. lia.
  - unfold releaseExclusive. destruct (writerActive (lock s)) eqn:Ew; [|lia]. simpl.
    rewrite (Ha eq_refl). destruct (dispatch _) as [l woken] eqn:E.
    pose proof (dispatch_free _ _ _ Hp E) as Hdis.
    eexists _, woken. split; [done|]. split; [|split; [done|split; [apply (dis_prefix _ _ _ Hdis)|apply (dispatched_writer _ _ _ Hdis)]]].
    rewrite (Ha eq_refl) in Hr.
    apply (dispatched_inv (lock s)); [done|done|lia|lia|done].
Qed.

Lemma start_inv : rw_inv start.
Proof. split; simpl; try done. unfold known. simpl. constructor. Qed.

Lemma rw_step_inv s s' : rw_step s s' → rw_inv s → rw_inv s'.
Proof.
  destruct 1 as [s id mode signal Hid|s id|s id mode s' Hin E]; intros Hs.
  - by apply run_call_inv.
  - by apply reject_inv.
  - destruct (run_finally_spec s id mode Hs Hin) as (s2 & woken & E2 & Hs2 & _).
    rewrite E in E2. by injection E2 as <-.
Qed.

Lemma rw_reachable_inv s : rw_reachable s → rw_inv s.
Proof.
  intros H. unfold rw_reachable in H.
  assert (∀ s0, rtc rw_step s0 s → rw_inv s0 → rw_inv s) as Hgen.
  { induction 1; [done|]. eauto using rw_step_inv. }
  exact (Hgen _ H start_inv).
Qed.

Lemma hasQueuedWriter_in l w : w ∈ queue l → pending w → w_mode w = exclusive → hasQueuedWriter l = true.
Proof.
  intros Hin Hp Hm. apply existsb_exists. exists w. split; [by apply list_elem_of_In|].
  unfold pending in Hp. by rewrite Hp, Hm.
Qed.

Lemma inv_writer_alone s id : rw_inv s → (id, exclusive) ∈ holders s → holders s = [(id, exclusive)].
Proof.
  intros Hs Hin. pose proof Hs as [Hr Hw Ha _ _ _].
  assert (writerActive (lock s) = true) as E.
  { pose proof (count_mode_in _ _ _ Hin). destruct (writerActive (lock s)); [done|lia]. }
  rewrite E in Hw. specialize (Ha E).
  pose proof (holders_drop s id exclusive Hs Hin) as Hperm.
  pose proof (count_mode_perm shared _ _ Hperm) as Hcs. pose proof (count_mode_perm exclusive _ _ Hperm) as Hce.
  rewrite count_mode_cons in Hcs, Hce. simpl in Hcs, Hce.
  destruct (List.filter _ (holders s)) as [|[j m] l].
  - symmetry. by apply Permutation_singleton_l.
  - rewrite count_mode_cons in Hcs, Hce. destruct m; simpl in Hcs, Hce; lia.
Qed.

(** One caller leaves: the end of a critical section. *)
Definition rw_release (s s' : System) : Prop :=
  ∃ id mode, (id, mode) ∈ holders s ∧ run_finally s id mode = Ok s'.

Lemma rw_release_known s s' : rw_inv s → rw_release s s' →
  rw_inv s' ∧ length (known s) = S (length (known s')).
Proof.
  intros Hs (id & mode & Hin & E).
  destruct (run_finally_spec s id mode Hs Hin) as (s2 & woken & E2 & Hs2 & Hh & Hq & Hone).
  rewrite E in E2. injection E2 as <-. split; [done|].
  unfold known. rewrite !length_app, !length_map, Hh, Hq, !length_app, length_map.
  rewrite (Permutation_length (holders_drop s id mode Hs Hin)) at 1. simpl. lia.
Qed.

Lemma rw_releases_known n s s' : rw_inv s → nsteps rw_release n s s' →
  rw_inv s' ∧ length (known s) = n + length (known s').
Proof.
  intros Hs H. revert Hs. induction H as [s|n s s1 s' H1 Hn IH]; intros Hs; [done|].
  destruct (rw_release_known _ _ Hs H1) as [Hs1 E]. destruct (IH Hs1) as [Hs' E'].
  split; [done|lia].
Qed.

(** C34: Mutual exclusion. In every state the lock can reach through calls,
    aborts and returns of critical sections, the reader count is the number of
    shared holders, a writer that holds the lock is its only holder, and no
    holder's release throws. *)
Theorem rwlock_exclusion s : rw_reachable s →
  readers (lock s) = count_mode shared (holders s) ∧
  (writerActive (lock s) = true ↔ ∃ id, (id, exclusive) ∈ holders s) ∧
  (∀ id, (id, exclusive) ∈ holders s → holders s = [(id, exclusive)]) ∧
  (∀ id mode, (id, mode) ∈ holders s → ∃ s', run_finally s id mode = Ok s').
Proof.
  intros Hs%rw_reachable_inv. pose proof Hs as [Hr Hw Ha Hp Hd Hb].
  assert (Hex : ∀ id, (id, exclusive) ∈ holders s → writerActive (lock s) = true).
  { intros id Hin%count_mode_in. destruct (writerActive (lock s)); [done|lia]. }
  split; [done|]. split; [split|split].
  - intros E. rewrite E in Hw. apply count_mode_pos. lia.
  - intros [id Hin]. by eapply Hex.
  - intros id. by apply inv_writer_alone.
  - intros id mode Hin. destruct (run_finally_spec s id mode Hs Hin) as (s' & _ & E & _). eauto.
Qed.

(** Writer priority. Once a writer is queued, whoever is granted the lock
    next was queued before it, or is the writer itself: no later caller, reader
    or writer, overtakes it. *)
Theorem rwlock_writer_not_overtaken s s' w h :
  rw_reachable s → rw_step s s' →
  w ∈ queue (lock s) → w_mode w = exclusive →
  h ∈ holders s' → h ∉ holders s →
  ∃ ahead behind, queue (lock s) = ahead ++ w :: behind ∧ h ∈ map as_holder (ahead ++ [w]).
Proof.
  intros Hs%rw_reachable_inv Hstep Hw Hm Hin' Hout.
  assert (Hqne : queue (lock s) ≠ []) by (intros E; rewrite E in Hw; by apply elem_of_nil in Hw).
  destruct Hstep as [s id mode signal Hid|s id|s id mode s' Hin E].
  - exfalso. unfold run_call, acquire in Hin'.
    assert (hasQueuedWriter (lock s) = true) as Hq.
    { eapply hasQueuedWriter_in; [done| |done]. eapply Forall_forall; [|done]. apply (inv_pending _ Hs). }
    destruct (default false signal); [done|]. rewrite Hq in Hin'.
    destruct mode; [by destruct (writerActive (lock s))|].
    destruct (writerActive (lock s)) eqn:Ew; [done|]. simpl in Hin'.
    case_bool_decide as Er; [|done].
    destruct (holders s) as [|[j m] hs] eqn:Eh; [by destruct (inv_busy _ Hs Hqne)|].
    pose proof (inv_readers _ Hs) as Hr. pose proof (inv_writer _ Hs) as Hwr.
    rewrite Eh in Hr, Hwr. rewrite Ew in Hwr. rewrite count_mode_cons in Hr, Hwr.
    destruct m; simpl in Hr, Hwr; lia.
  - done.
  - destruct (run_finally_spec s id mode Hs Hin) as (s2 & woken & E2 & Hs2 & Hh & Hq & Hone).
    rewrite E in E2. injection E2 as <-. rewrite Hh in Hin'.
    apply elem_of_app in Hin' as [Hin'|Hin'].
    { exfalso. apply Hout. apply list_elem_of_In, filter_In in Hin' as [Hin' _]. by apply list_elem_of_In. }
    rewrite Hq in Hw. apply elem_of_app in Hw as [Hw|Hw].
    + rewrite Hq, (Hone w Hw Hm) in *. by exists [], (queue (lock s')).
    + apply list_elem_of_split in Hw as (l1 & l2 & E1). exists (woken ++ l1), l2.
      rewrite Hq, E1, <- (assoc_L (++)). split; [done|].
      rewrite <- (assoc_L (++)), map_app. apply elem_of_app. by left.
Qed.

(** No lost wake-up. From every reachable state, as long as anybody holds
    or waits there is a holder whose return frees it, every return takes away
    exactly one, and so after exactly as many returns as there were holders
    and waiters everybody has held the lock and left it. *)
Theorem rwlock_drains s n s' : rw_reachable s → nsteps rw_release n s s' →
  n ≤ length (known s) ∧
  (n < length (known s) → ∃ s'', rw_release s' s'') ∧
  (n = length (known s) → lock s' = newLock ∧ holders s' = []).
Proof.
  intros Hs%rw_reachable_inv H. destruct (rw_releases_known _ _ _ Hs H) as [Hs' E].
  split; [lia|]. split.
  - intros Hlt. destruct (holders s') as [|[id mode] hs] eqn:Eh.
    + exfalso. destruct (queue (lock s')) as [|w q] eqn:Eq.
      * unfold known in E. rewrite Eh, Eq in E. simpl in E. unfold known in Hlt. lia.
      * by apply (inv_busy _ Hs'); [rewrite Eq|].
    + assert ((id, mode) ∈ holders s') as Hin by (rewrite Eh; by left).
      destruct (run_finally_spec s' id mode Hs' Hin) as (s2 & _ & E2 & _).
      exists s2, id, mode. done.
  - intros ->. assert (length (known s') = 0) as E0 by lia.
    unfold known in E0. rewrite length_app, !length_map in E0.
    destruct (holders s') as [|] eqn:Eh; [|simpl in E0; lia]. split; [|done].
    destruct (holders_nil s' Hs' Eh) as [Er Ew].
    destruct (lock s') as [r w q]. simpl in *. subst. by destruct q; [|simpl in E0; lia].
Qed.

(** ** A run: a reader, a writer behind it, a second reader behind both *)

Definition demo_queue : System :=
  run_call (run_call (run_call start 0 shared None) 1 exclusive (Some false)) 2 shared None.

Lemma known_dec (s : System) (id : nat) : bool_decide (id ∉ known s) = true → id ∉ known s.
Proof. apply bool_decide_eq_true_1. Qed.

Lemma demo_queue_reachable : rw_reachable demo_queue.
Proof.
  unfold rw_reachable, demo_queue.
  eapply rtc_l; [apply (rw_call start 0 shared None); apply known_dec; vm_compute; reflexivity|].
  eapply rtc_l; [apply (rw_call _ 1 exclusive (Some false)); apply known_dec; vm_compute; reflexivity|].
  eapply rtc_l; [apply (rw_call _ 2 shared None); apply known_dec; vm_compute; reflexivity|].
  apply rtc_refl.
Qed.

(** The first reader returns: the writer holds the lock. *)
Definition demo_writer : System := mkSystem (mkLock 0 true [mkWaiter 2 shared false false]) [(1, exclusive)].

Lemma demo_writer_step : rw_step demo_queue demo_writer.
Proof. apply (rw_finally _ 0 shared); [apply list_elem_of_here|vm_compute; reflexivity]. Qed.

Lemma rwlock_exclusion_witness :
  rw_reachable demo_writer ∧ (∀ id, (id, exclusive) ∈ holders demo_writer → holders demo_writer = [(id, exclusive)]).
Proof.
  assert (H : rw_reachable demo_writer).
  { eapply rtc_r; [exact demo_queue_reachable|exact demo_writer_step]. }
  split; [exact H|]. exact (proj1 (proj2 (proj2 (rwlock_exclusion demo_writer H)))).
Defined.

Lemma rwlock_writer_not_overtaken_witness :
  ∃ ahead behind, queue (lock demo_queue) = ahead ++ mkWaiter 1 exclusive true false :: behind ∧
    (1, exclusive) ∈ map as_holder (ahead ++ [mkWaiter 1 exclusive true false]).
Proof.
  apply (rwlock_writer_not_overtaken demo_queue demo_writer).
  - exact demo_queue_reachable.
  - exact demo_writer_step.
  - apply list_elem_of_here.
  - reflexivity.
  - apply list_elem_of_here.
  - refine (bool_decide_unpack _ _). vm_compute. exact I.
Defined.

Lemma rwlock_drains_witness :
  ∃ s', nsteps rw_release 3 demo_queue s' ∧ lock s' = newLock ∧ holders s' = [].
Proof.
  exists start. assert (H : nsteps rw_release 3 demo_queue start).
  { eapply nsteps_l; [exists 0, shared; split; [apply list_elem_of_here|vm_compute; reflexivity]|].
    eapply nsteps_l; [exists 1, exclusive; split; [apply list_elem_of_here|vm_compute; reflexivity]|].
    eapply nsteps_l; [exists 2, shared; split; [apply list_elem_of_here|vm_compute; reflexivity]|].
    apply nsteps_O. }
  split; [exact H|].
  apply (proj2 (proj2 (rwlock_drains demo_queue 3 start demo_queue_reachable H))). vm_compute. reflexivity.
Defined.

(** ** An aborted writer strands the readers behind it

    [reject] splices the writer out without a dispatch. *)

Definition stranded (id : nat) : System :=
  mkSystem (mkLock 1 false [mkWaiter 2 shared false false]) [(id, shared)].

Lemma stranded_reachable : rw_reachable (stranded 0).
Proof.
  eapply rtc_r; [exact demo_queue_reachable|].
  assert (stranded 0 = mkSystem (reject (lock demo_queue) 1) (holders demo_queue)) as -> by (vm_compute; reflexivity).
  apply rw_abort.
Qed.

Lemma stranded_pass i j : i ≠ 2 → j ≠ 2 → j ≠ i → nsteps rw_step 2 (stranded i) (stranded j).
Proof.
  intros Hi Hj Hij. eapply nsteps_l.
  - apply (rw_call _ j shared None). unfold known. simpl.
    rewrite !not_elem_of_cons. repeat split; [done|done|apply not_elem_of_nil].
  - eapply nsteps_l; [|apply nsteps_O]. apply (rw_finally _ i shared).
    + simpl. apply list_elem_of_here.
    + unfold run_finally. simpl. rewrite bool_decide_true by done. simpl.
      by rewrite bool_decide_false by done.
Qed.

(** Reader starvation after an abort. A writer that is aborted while queued
    leaves the readers behind it queued although only readers hold the lock
    and no writer waits; later readers are granted at once, so any number of
    them can pass one after the other while the stranded reader still waits. *)
Theorem aborted_writer_strands_readers :
  ∃ s w, rw_reachable s ∧ queue (lock s) = [w] ∧ w_mode w = shared ∧ writerActive (lock s) = false ∧
    hasQueuedWriter (lock s) = false ∧
    ∀ n, ∃ s' id, nsteps rw_step (2 * n) s s' ∧ holders s' = [(id, shared)] ∧ (0 < n → id ∉ known s) ∧
                  queue (lock s') = [w].
Proof.
  exists (stranded 0), (mkWaiter 2 shared false false).
  split; [exact stranded_reachable|]. repeat (split; [done|]). intros n.
  exists (stranded (match n with 0 => 0 | _ => 2 + n end)), (match n with 0 => 0 | _ => 2 + n end).
  split; [|split; [done|split; [|done]]].
  - induction n as [|n IH]; [apply nsteps_O|].
    replace (2 * S n) with (2 * n + 2) by lia. eapply nsteps_trans; [exact IH|].
    destruct n; apply stranded_pass; lia.
  - intros Hn. destruct n; [lia|]. unfold known. simpl.
    rewrite !not_elem_of_cons. repeat split; [lia|lia|apply not_elem_of_nil].
Qed.
