(* ===== verification/Catalog.v ===== *)
(** The session catalogue (src/src/api/session-manager/session-catalog.ts, and
    [isValidSandboxId] of src/src/api/session-manager.ts).

    The catalogue keeps the resident sessions of a process: it creates one per
    sandbox on demand, lends it to requests under its readers-writer lock, and
    closes it when it is missing, destroyed, idle or the server stops. Every
    [await] ends a step: [Event] lists what can happen next, and [c_step] is
    what the code does until its next [await].

    The lock is the interface [RwLocks] with its laws [RwLockLaws]; the lock of
    src/src/api/rw-lock.ts, modelled in [RwLock], discharges it. A session's
    filesystem is connected until its [disconnect] is called. *)

From S2P Require Import Prelude RwLock.

#[local] Open Scope Z_scope.

(** ** Keys *)

Definition sessionKey (tenantId sandboxId : string) : string := tenantId +:+ ":" +:+ sandboxId.

Definition byte_between (lo hi c : ascii) : bool :=
  ((N_of_ascii lo <=? N_of_ascii c) && (N_of_ascii c <=? N_of_ascii hi))%N.

(** [[A-Za-z0-9_-]] *)
Definition sandbox_id_char (c : ascii) : bool :=
  byte_between "A" "Z" c || byte_between "a" "z" c || byte_between "0" "9" c
  || bool_decide (c = "_"%char) || bool_decide (c = "-"%char).

Fixpoint every_char (f : ascii → bool) (s : string) : bool :=
  match s with
  | EmptyString => true
  | String c s' => f c && every_char f s'
  end.

(** [/^[A-Za-z0-9_-]{1,128}$/] *)
Definition isValidSandboxId (id : string) : bool :=
  (1 <=? str_len id) && (str_len id <=? 128) && every_char sandbox_id_char id.

(** ** The lock of a session *)

(** The calls a holder or a queued caller of the lock is known by. *)
Class RwLocks := {
  Lock : Type;
  l_new : Lock;
  l_run : Lock → nat → LockMode → Lock;
  l_end : Lock → nat → LockMode → option Lock;
  l_holders : Lock → list (nat * LockMode);
  l_known : Lock → list nat;
}.

Class RwLockLaws `{RwLocks} := {
  l_inv : Lock → Prop;
  l_new_inv : l_inv l_new;
  l_new_free : l_known l_new = [];
  l_holders_known l h : h ∈ l_holders l → h.1 ∈ l_known l;
  l_run_inv l id m : l_inv l → id ∉ l_known l → l_inv (l_run l id m);
  l_run_known l id m k : k ∈ l_known (l_run l id m) → k = id ∨ k ∈ l_known l;
  l_run_keeps l id m h : h ∈ l_holders l → h ∈ l_holders (l_run l id m);
  l_end_inv l id m : l_inv l → (id, m) ∈ l_holders l → ∃ l', l_end l id m = Some l' ∧ l_inv l';
  l_end_known l l' id m k :
    l_inv l → (id, m) ∈ l_holders l → l_end l id m = Some l' → k ∈ l_known l' → k ∈ l_known l;
  l_end_keeps l l' id m h :
    l_inv l → (id, m) ∈ l_holders l → l_end l id m = Some l' → h ∈ l_holders l → h.1 ≠ id → h ∈ l_holders l';
  l_alone l id : l_inv l → (id, exclusive) ∈ l_holders l → l_holders l = [(id, exclusive)];
}.

(** ** Residents *)

(** What is run under the lock: a request, the closing of a missing session, a
    destruction, an eviction by the reaper, or the empty work of a shutdown. *)
Inductive Work := WBorrow (mode : LockMode) | WClose | WDestroy | WReap | WDrain.

Definition work_mode (w : Work) : LockMode := match w with WBorrow m => m | _ => exclusive end.

(** [t_started]: the work has passed its first check and is running. *)
Record Task := mkTask { t_work : Work; t_started : bool }.

Inductive SessionState := active | closing.

#[export] Instance SessionState_eq_dec : EqDecision SessionState.
Proof. solve_decision. Defined.

(** Where the callback of a shutdown is with a session: not at work, waiting
    for the lock or the deadline, or past the lock. *)
Inductive Drain := NoDrain | DrainWaiting | DrainHad.

#[export] Instance Drain_eq_dec : EqDecision Drain.
Proof. solve_decision. Defined.

(** [r_destroy]: the call behind [destroyPromise]. [r_connected] is false once
    [disconnect] was called, and [r_forced] is true when a shutdown called it
    at its deadline, without having had the lock. *)
Record Resident `{RwLocks} := mkResident {
  r_key : string;
  r_lock : Lock;
  r_state : SessionState;
  r_inFlight : Z;
  r_lastUsed : Z;
  r_pathCacheBytes : Z;
  r_overBudget : bool;
  r_owner : string;
  r_name : option string;
  r_createdAt : string;
  r_destroy : option nat;
  r_tasks : gmap nat Task;
  r_connected : bool;
  r_drain : Drain;
  r_forced : bool;
}.

Inductive Phase := Running | ShuttingDown | Draining.

#[export] Instance Phase_eq_dec : EqDecision Phase.
Proof. solve_decision. Defined.

(** [c_sessions] maps keys to residents, [c_pending] keys to creations. *)
Record Catalog `{RwLocks} := mkCatalog {
  c_sessions : list (string * nat);
  c_pending : list (string * nat);
  c_residents : gmap nat Resident;
  c_phase : Phase;
  c_next : nat;
}.

Record CatalogOptions := mkCatalogOptions { idleMs : Z; pathCacheMaxBytes : Z }.

Section catalog.
Context `{RwLocks} (opts : CatalogOptions).

Definition newCatalog : Catalog := mkCatalog _ [] [] ∅ Running 0.

(** *** Setters *)

Definition set_lock (l : Lock) (ts : gmap nat Task) (r : Resident) : Resident :=
  mkResident _ (r_key r) l (r_state r) (r_inFlight r) (r_lastUsed r) (r_pathCacheBytes r) (r_overBudget r) (r_owner r)
    (r_name r) (r_createdAt r) (r_destroy r) ts (r_connected r) (r_drain r) (r_forced r).

Definition set_inFlight (n now : Z) (r : Resident) : Resident :=
  mkResident _ (r_key r) (r_lock r) (r_state r) n now (r_pathCacheBytes r) (r_overBudget r) (r_owner r)
    (r_name r) (r_createdAt r) (r_destroy r) (r_tasks r) (r_connected r) (r_drain r) (r_forced r).

Definition set_closing (d : option nat) (r : Resident) : Resident :=
  mkResident _ (r_key r) (r_lock r) closing (r_inFlight r) (r_lastUsed r) (r_pathCacheBytes r) (r_overBudget r) (r_owner r)
    (r_name r) (r_createdAt r) d (r_tasks r) (r_connected r) (r_drain r) (r_forced r).

Definition set_disconnected (r : Resident) : Resident :=
  mkResident _ (r_key r) (r_lock r) (r_state r) (r_inFlight r) (r_lastUsed r) (r_pathCacheBytes r) (r_overBudget r) (r_owner r)
    (r_name r) (r_createdAt r) (r_destroy r) (r_tasks r) false (r_drain r) (r_forced r).

Definition set_drain (d : Drain) (forced : bool) (r : Resident) : Resident :=
  mkResident _ (r_key r) (r_lock r) (r_state r) (r_inFlight r) (r_lastUsed r) (r_pathCacheBytes r) (r_overBudget r) (r_owner r)
    (r_name r) (r_createdAt r) (r_destroy r) (r_tasks r) (r_connected r) d forced.

Definition set_meta (owner : string) (name : option string) (createdAt : string) (r : Resident) : Resident :=
  mkResident _ (r_key r) (r_lock r) (r_state r) (r_inFlight r) (r_lastUsed r) (r_pathCacheBytes r) (r_overBudget r) owner
    name createdAt (r_destroy r) (r_tasks r) (r_connected r) (r_drain r) (r_forced r).

Definition set_budget (bytes : Z) (r : Resident) : Resident :=
  mkResident _ (r_key r) (r_lock r) (r_state r) (r_inFlight r) (r_lastUsed r) bytes (pathCacheMaxBytes opts <? bytes) (r_owner r)
    (r_name r) (r_createdAt r) (r_destroy r) (r_tasks r) (r_connected r) (r_drain r) (r_forced r).

Definition put_res (rid : nat) (r : Resident) (c : Catalog) : Catalog :=
  mkCatalog _ (c_sessions c) (c_pending c) (<[rid := r]> (c_residents c)) (c_phase c) (c_next c).

Definition set_sessions (s : list (string * nat)) (c : Catalog) : Catalog :=
  mkCatalog _ s (c_pending c) (c_residents c) (c_phase c) (c_next c).

Definition set_pending (p : list (string * nat)) (c : Catalog) : Catalog :=
  mkCatalog _ (c_sessions c) p (c_residents c) (c_phase c) (c_next c).

(** [lock.runShared] or [lock.runExclusive] of a work, as a call of its own. *)
Definition run_work (rid : nat) (w : Work) (r : Resident) (c : Catalog) : Catalog :=
  let tid := c_next c in
  mkCatalog _ (c_sessions c) (c_pending c)
    (<[rid := set_lock (l_run (r_lock r) tid (work_mode w)) (<[tid := mkTask w false]> (r_tasks r)) r]> (c_residents c))
    (c_phase c) (S tid).

(** The [finally] of the lock. *)
Definition leave_lock (rid tid : nat) (w : Work) (r : Resident) (c : Catalog) : option Catalog :=
  l ← l_end (r_lock r) tid (work_mode w);
  Some (put_res rid (set_lock l (delete tid (r_tasks r)) r) c).

(** *** Operations *)

Definition get (key : string) (c : Catalog) : option nat := jget key (c_sessions c).

Inductive Found := FShuttingDown | FExisting (rid : nat) | FInProgress (cid : nat) | FCreating (cid : nat).

(** [getOrCreate] up to its first [await]. *)
Definition getOrCreate (key : string) (c : Catalog) : Found * Catalog :=
  if decide (c_phase c ≠ Running) then (FShuttingDown, c)
  else match jget key (c_sessions c) with
       | Some rid => (FExisting rid, c)
       | None =>
           match jget key (c_pending c) with
           | Some cid => (FInProgress cid, c)
           | None =>
               let cid := c_next c in
               (FCreating cid, mkCatalog _ (c_sessions c) (jset key cid (c_pending c)) (c_residents c) (c_phase c) (S cid))
           end
       end.

(** The rest of [creation]. [create] returned a source: the session is
    installed, unless the server is stopping; then its filesystem is
    disconnected first and the creation fails as below. *)
Definition finish_creation (key : string) (cid : nat) (owner createdAt : string) (pathCacheBytes now : Z) (c : Catalog) :
    option Catalog :=
  if decide (jget key (c_pending c) ≠ Some cid) then None
  else
    Some (if decide (c_phase c ≠ Running) then c
          else
            let rid := c_next c in
            mkCatalog _ (jset key rid (c_sessions c)) (jdel key (c_pending c))
              (<[rid := mkResident _ key l_new active 0 now pathCacheBytes (pathCacheMaxBytes opts <? pathCacheBytes) owner
                          None createdAt None ∅ true NoDrain false]> (c_residents c))
              (c_phase c) (S rid)).

(** The [finally] of a creation that threw. *)
Definition fail_creation (key : string) (cid : nat) (c : Catalog) : option Catalog :=
  if decide (jget key (c_pending c) ≠ Some cid) then None
  else Some (set_pending (jdel key (c_pending c)) c).

(** [attach] of an existing session returned. *)
Definition attached (rid : nat) (now : Z) (c : Catalog) : option Catalog :=
  r ← c_residents c !! rid; Some (put_res rid (set_inFlight (r_inFlight r) now r) c).

(** [borrow]: refused at once when the session is closing. *)
Definition borrow (rid : nat) (mode : LockMode) (c : Catalog) : option Catalog :=
  r ← c_residents c !! rid;
  Some (if decide (r_state r = closing) then c else run_work rid (WBorrow mode) r c).

Definition started_task (tid : nat) (w : Work) (r : Resident) : Resident :=
  set_lock (r_lock r) (<[tid := mkTask w true]> (r_tasks r)) r.

(** **** The functions run under the lock, up to their [await] and after it *)

(** [protectedWork]: [assertActive] again, then the request runs. *)
Definition begin_borrow (rid tid : nat) (m : LockMode) (now : Z) (r : Resident) (c : Catalog) : option Catalog :=
  if decide (r_state r = closing) then leave_lock rid tid (WBorrow m) r c
  else Some (put_res rid (started_task tid (WBorrow m) (set_inFlight (r_inFlight r + 1) now r)) c).

Definition finish_borrow (rid tid : nat) (m : LockMode) (r : Resident) (c : Catalog) : option Catalog :=
  leave_lock rid tid (WBorrow m) (set_inFlight (r_inFlight r - 1) (r_lastUsed r) r) c.

(** [closeMissing]: the filesystem is disconnected, then the key removed if it
    still names the session. *)
Definition begin_close (rid tid : nat) (r : Resident) (c : Catalog) : option Catalog :=
  Some (put_res rid (started_task tid WClose (set_disconnected r)) c).

Definition finish_close (rid tid : nat) (r : Resident) (c : Catalog) : option Catalog :=
  leave_lock rid tid WClose r
    (if decide (jget (r_key r) (c_sessions c) = Some rid) then set_sessions (jdel (r_key r) (c_sessions c)) c else c).

(** [destroy]: the key is removed, and the filesystem disconnected when
    [destroyDurable] has settled. *)
Definition begin_destroy (rid tid : nat) (r : Resident) (c : Catalog) : option Catalog :=
  Some (put_res rid (started_task tid WDestroy r) (set_sessions (jdel (r_key r) (c_sessions c)) c)).

Definition finish_destroy (rid tid : nat) (r : Resident) (c : Catalog) : option Catalog :=
  leave_lock rid tid WDestroy (set_disconnected r) c.

Definition begin_reap (rid tid : nat) (r : Resident) (c : Catalog) : option Catalog :=
  Some (put_res rid (started_task tid WReap (set_disconnected r)) c).

(** The empty function of a shutdown: its callback has had the lock. *)
Definition begin_drain (rid tid : nat) (r : Resident) (c : Catalog) : option Catalog :=
  leave_lock rid tid WDrain (if decide (r_drain r = DrainWaiting) then set_drain DrainHad (r_forced r) r else r) c.

(** The lock was granted to a call that has not begun. *)
Definition begin_work (rid tid : nat) (now : Z) (c : Catalog) : option Catalog :=
  r ← c_residents c !! rid;
  t ← r_tasks r !! tid;
  if decide (t_started t = true ∨ (tid, work_mode (t_work t)) ∉ l_holders (r_lock r)) then None
  else
    match t_work t with
    | WBorrow m => begin_borrow rid tid m now r c
    | WClose => begin_close rid tid r c
    | WDestroy => begin_destroy rid tid r c
    | WReap => begin_reap rid tid r c
    | WDrain => begin_drain rid tid r c
    end.

(** What a call awaits has settled. *)
Definition finish_work (rid tid : nat) (c : Catalog) : option Catalog :=
  r ← c_residents c !! rid;
  t ← r_tasks r !! tid;
  if decide (t_started t = false) then None
  else
    match t_work t with
    | WBorrow m => finish_borrow rid tid m r c
    | WClose => finish_close rid tid r c
    | WDestroy => finish_destroy rid tid r c
    | WReap | WDrain => leave_lock rid tid (t_work t) r c
    end.

Definition closeMissing (rid : nat) (c : Catalog) : option Catalog :=
  r ← c_residents c !! rid;
  Some (match r_destroy r with
        | Some _ => c
        | None => run_work rid WClose (set_closing (Some (c_next c)) r) c
        end).

(** [destroy]: without a resident only the durable state is destroyed; an
    earlier destruction is waited for. *)
Definition destroy (key : string) (c : Catalog) : option Catalog :=
  match jget key (c_sessions c) with
  | None => Some c
  | Some rid =>
      r ← c_residents c !! rid;
      Some (match r_destroy r with
            | Some _ => c
            | None => run_work rid WDestroy (set_closing (Some (c_next c)) r) c
            end)
  end.

(** One round of the reaper's loop. *)
Definition reap_one (now : Z) (c : Catalog) (kr : string * nat) : Catalog :=
  match c_residents c !! kr.2 with
  | None => c
  | Some r =>
      if decide (r_state r = closing ∨ r_inFlight r ≠ 0) then c
      else if r_overBudget r || (idleMs opts <? now - r_lastUsed r)
      then run_work kr.2 WReap (set_closing (r_destroy r) r) (set_sessions (jdel kr.1 (c_sessions c)) c)
      else c
  end.

Definition runReaper (now : Z) (c : Catalog) : Catalog := fold_left (reap_one now) (c_sessions c) c.

Definition refreshBudget (rid : nat) (bytes : Z) (c : Catalog) : option Catalog :=
  r ← c_residents c !! rid; Some (put_res rid (set_budget bytes r) c).

Definition initializeMetadata (rid : nat) (owner : string) (name : option string) (c : Catalog) : option Catalog :=
  r ← c_residents c !! rid;
  Some (put_res rid (set_meta (if decide (r_owner r = EmptyString) then owner else r_owner r) name (r_createdAt r) r) c).

(** The fields of [SandboxMeta]; [None] for one that is absent. *)
Definition hydrateMetadata (rid : nat) (owner : option string) (name : option (option string)) (createdAt : option string)
    (c : Catalog) : option Catalog :=
  r ← c_residents c !! rid;
  Some (put_res rid
    (set_meta (match owner with Some o => if decide (o = EmptyString) then r_owner r else o | None => r_owner r end)
       (default (r_name r) name) (default (r_createdAt r) createdAt) r) c).

Definition set_phase (p : Phase) (c : Catalog) : Catalog :=
  mkCatalog _ (c_sessions c) (c_pending c) (c_residents c) p (c_next c).

(** [shutdown] up to the workers' drain. *)
Definition shutdown (c : Catalog) : Catalog := if decide (c_phase c = Running) then set_phase ShuttingDown c else c.

Definition close_entry (c : Catalog) (kr : string * nat) : Catalog :=
  match c_residents c !! kr.2 with Some r => put_res kr.2 (set_closing (r_destroy r) r) c | None => c end.

(** One callback of the [map]: the entries being destroyed are left alone. *)
Definition drain_entry (c : Catalog) (kr : string * nat) : Catalog :=
  match c_residents c !! kr.2 with
  | Some r => match r_destroy r with Some _ => c | None => run_work kr.2 WDrain (set_drain DrainWaiting (r_forced r) r) c end
  | None => c
  end.

(** The workers are drained: everything is closing. *)
Definition drain_sessions (c : Catalog) : option Catalog :=
  if decide (c_phase c = ShuttingDown) then
    let c1 := fold_left close_entry (c_sessions c) c in
    Some (set_phase Draining (fold_left drain_entry (c_sessions c1) c1))
  else None.

(** The rest of a callback: the lock was had, or the deadline has passed. *)
Definition evict (rid : nat) (deadline : bool) (c : Catalog) : option Catalog :=
  r ← c_residents c !! rid;
  if decide (c_phase c = Draining ∧ (r_drain r = DrainHad ∨ r_drain r = DrainWaiting ∧ deadline = true))
  then Some (put_res rid
               (set_disconnected (set_drain NoDrain (r_forced r || bool_decide (r_drain r = DrainWaiting)) r))
               (set_sessions (jdel (r_key r) (c_sessions c)) c))
  else None.

(** Every callback has settled. *)
Definition clear_sessions (c : Catalog) : option Catalog :=
  if decide (c_phase c = Draining) then Some (set_sessions [] c) else None.

(** *** Events *)

Inductive Event :=
| EGetOrCreate (key : string)
| ECreated (key : string) (cid : nat) (owner createdAt : string) (pathCacheBytes now : Z)
| ECreationFailed (key : string) (cid : nat)
| EAttached (rid : nat) (now : Z)
| EBorrow (rid : nat) (mode : LockMode)
| EBegin (rid tid : nat) (now : Z)
| EFinish (rid tid : nat)
| ECloseMissing (rid : nat)
| EDestroy (key : string)
| EReaper (now : Z)
| EBudget (rid : nat) (bytes : Z)
| EInitMeta (rid : nat) (owner : string) (name : option string)
| EHydrate (rid : nat) (owner : option string) (name : option (option string)) (createdAt : option string)
| EShutdown
| EDrained
| EEvict (rid : nat) (deadline : bool)
| EClear.

Definition c_step (e : Event) (c : Catalog) : option Catalog :=
  match e with
  | EGetOrCreate key => Some (getOrCreate key c).2
  | ECreated key cid owner createdAt bytes now => finish_creation key cid owner createdAt bytes now c
  | ECreationFailed key cid => fail_creation key cid c
  | EAttached rid now => attached rid now c
  | EBorrow rid mode => borrow rid mode c
  | EBegin rid tid now => begin_work rid tid now c
  | EFinish rid tid => finish_work rid tid c
  | ECloseMissing rid => closeMissing rid c
  | EDestroy key => destroy key c
  | EReaper now => Some (runReaper now c)
  | EBudget rid bytes => refreshBudget rid bytes c
  | EInitMeta rid owner name => initializeMetadata rid owner name c
  | EHydrate rid owner name createdAt => hydrateMetadata rid owner name createdAt c
  | EShutdown => Some (shutdown c)
  | EDrained => drain_sessions c
  | EEvict rid deadline => evict rid deadline c
  | EClear => clear_sessions c
  end.

Inductive c_reachable : Catalog → Prop :=
| c_init : c_reachable newCatalog
| c_next_step c c' e : c_reachable c → c_step e c = Some c' → c_reachable c'.
End catalog.
