(* ===== verification/CatalogSafety.v ===== *)
(** The session catalogue is safe: its invariant, and what requests may rely on.

    [cat_inv] is kept by every event of [Catalog.c_step], for any lock that
    satisfies the laws [RwLockLaws]; the lock of [RwLock] does. *)

From S2P Require Import Prelude RwLock Catalog.

#[local] Open Scope Z_scope.

(** ** The lock of src/src/api/rw-lock.ts *)

#[export] Instance rwlock_ops : RwLocks := {
  Lock := System;
  l_new := start;
  l_run s id m := run_call s id m None;
  l_end s id m := match run_finally s id m with Ok s' => Some s' | Err _ => None end;
  l_holders := holders;
  l_known := known;
}.

Lemma run_call_known s id m k : k ∈ known (run_call s id m None) → k = id ∨ k ∈ known s.
Proof.
  unfold run_call, acquire, known. destruct m; simpl;
    destruct (_ && _); simpl; rewrite ?map_app, !elem_of_app; simpl; rewrite ?list_elem_of_singleton; tauto.
Qed.

Lemma run_call_keeps s id m h : h ∈ holders s → h ∈ holders (run_call s id m None).
Proof.
  unfold run_call, acquire. intros Hh. destruct m; simpl; destruct (_ && _); simpl; rewrite ?elem_of_app; tauto.
Qed.

Lemma run_finally_known s s' id m k : rw_inv s → (id, m) ∈ holders s → run_finally s id m = Ok s' →
  k ∈ known s' → k ∈ known s.
Proof.
  intros Hs Hin E. destruct (run_finally_spec s id m Hs Hin) as (s2 & woken & E2 & _ & Hh & Hq & _).
  rewrite E in E2. injection E2 as <-. unfold known. rewrite Hh, Hq, !map_app, map_map, !elem_of_app.
  intros [[Hk|Hk]|Hk]; [left|by right; left|by right; right].
  apply list_elem_of_fmap in Hk as (h & -> & Hk). apply list_elem_of_fmap. exists h. split; [done|].
  apply list_elem_of_In in Hk. apply filter_In in Hk as [Hk _]. by apply list_elem_of_In.
Qed.

Lemma run_finally_keeps s s' id m h : rw_inv s → (id, m) ∈ holders s → run_finally s id m = Ok s' →
  h ∈ holders s → h.1 ≠ id → h ∈ holders s'.
Proof.
  intros Hs Hin E Hh Hne. destruct (run_finally_spec s id m Hs Hin) as (s2 & woken & E2 & _ & Hh2 & _ & _).
  rewrite E in E2. injection E2 as <-. rewrite Hh2.
  apply elem_of_app. left. apply list_elem_of_In, filter_In. split; [by apply list_elem_of_In|].
  by rewrite bool_decide_false.
Qed.

#[export] Program Instance rwlock_laws : RwLockLaws := { l_inv := rw_inv }.
Next Obligation. exact start_inv. Qed.
Next Obligation. done. Qed.
Next Obligation. intros l h Hh. apply elem_of_app. left. by apply list_elem_of_fmap_2. Qed.
Next Obligation. intros. by apply run_call_inv. Qed.
Next Obligation. intros l id m k. apply run_call_known. Qed.
Next Obligation. intros. by apply run_call_keeps. Qed.
Next Obligation.
  intros l id m Hl Hin. simpl in *. destruct (run_finally_spec l id m Hl Hin) as (s & _ & -> & Hs & _). eauto.
Qed.
Next Obligation.
  simpl. intros l l' id m k Hl Hin. destruct (run_finally l id m) eqn:E; [intros [= <-]|done].
  by apply (run_finally_known l _ id m).
Qed.
Next Obligation.
  simpl. intros l l' id m h Hl Hin. destruct (run_finally l id m) eqn:E; [intros [= <-]|done].
  by apply (run_finally_keeps l _ id m).
Qed.
Next Obligation. intros l id. apply inv_writer_alone. Qed.

(** ** The invariant *)

Definition started_borrow (t : Task) : bool :=
  match t_work t with WBorrow _ => t_started t | _ => false end.

(** How many requests are running in the session. *)
Definition borrows (ts : gmap nat Task) : Z := gcount started_borrow ts.

Definition idle (ts : gmap nat Task) : Prop := ∀ tid t, ts !! tid = Some t → started_borrow t = false.

Lemma borrows_idle ts : borrows ts = 0 ↔ idle ts.
Proof. apply gcount_zero. Qed.

Lemma idle_delete ts tid : idle ts → idle (delete tid ts).
Proof. intros H k t [_ Ht]%lookup_delete_Some. eauto. Qed.

Lemma idle_insert ts tid t : idle ts → started_borrow t = false → idle (<[tid := t]> ts).
Proof. intros H Ht k t' [[_ <-]|[_ Hk]]%lookup_insert_Some; eauto. Qed.

Definition is_borrow (w : Work) : bool := match w with WBorrow _ => true | _ => false end.

Section safety.
Context `{RwLockLaws} (opts : CatalogOptions).

(** What a resident keeps by itself; [n] bounds the calls made so far. *)
Record res_ok (n : nat) (r : Resident) : Prop := {
  ro_lock : l_inv (r_lock r);
  ro_fresh : ∀ k, k ∈ l_known (r_lock r) → (k < n)%nat;
  ro_tasks : ∀ tid t, r_tasks r !! tid = Some t → (tid < n)%nat;
  ro_started : ∀ tid t, r_tasks r !! tid = Some t → t_started t = true →
    (tid, work_mode (t_work t)) ∈ l_holders (r_lock r);
  ro_inFlight : r_inFlight r = borrows (r_tasks r);
  ro_closer : ∀ tid t, r_tasks r !! tid = Some t → is_borrow (t_work t) = false → r_state r = closing;
  ro_destroy : ∀ tid t, r_tasks r !! tid = Some t → t_work t = WDestroy ∨ t_work t = WClose → r_destroy r = Some tid;
  ro_gone : r_connected r = false ∨ r_drain r = DrainHad → r_state r = closing;
  ro_safe : r_connected r = false ∧ r_forced r = false ∨ r_drain r = DrainHad → idle (r_tasks r);
}.

(** The session has to be the one its key names: it takes requests, or it is
    about to remove itself from the map. *)
Definition needs_session (p : Phase) (st : SessionState) (ts : gmap nat Task) : Prop :=
  st = active ∨ p ≠ Draining ∧ (¬ idle ts ∨ ∃ tid, ts !! tid = Some (mkTask WDestroy false)).

Record cat_inv (c : Catalog) : Prop := {
  ci_sessions : jwf (c_sessions c);
  ci_pending : jwf (c_pending c);
  ci_apart : ∀ k, is_Some (jget k (c_pending c)) → jget k (c_sessions c) = None;
  ci_named : ∀ k rid, jget k (c_sessions c) = Some rid → ∃ r, c_residents c !! rid = Some r ∧ r_key r = k;
  ci_fresh : ∀ rid r, c_residents c !! rid = Some r → (rid < c_next c)%nat;
  ci_ok : ∀ rid r, c_residents c !! rid = Some r → res_ok (c_next c) r;
  ci_needs : ∀ rid r, c_residents c !! rid = Some r → needs_session (c_phase c) (r_state r) (r_tasks r) →
    jget (r_key r) (c_sessions c) = Some rid;
  ci_drained : ∀ rid r, c_residents c !! rid = Some r → c_phase c = Draining → r_state r = closing;
  ci_forced : ∀ rid r, c_residents c !! rid = Some r → c_phase c ≠ Draining → r_forced r = false;
}.

Lemma res_ok_mono n n' r : res_ok n r → (n ≤ n')%nat → res_ok n' r.
Proof.
  intros [Hl Hf Ht ? ? ? ? ? ?] Hle. split; try done.
  - intros k Hk. specialize (Hf k Hk). lia.
  - intros tid t E. specialize (Ht tid t E). lia.
Qed.

(** One resident changes, and possibly leaves the map. *)
Lemma cat_inv_put c rid r r' s' n' :
  cat_inv c → c_residents c !! rid = Some r → r_key r' = r_key r → (c_next c ≤ n')%nat → res_ok n' r' →
  s' = c_sessions c ∨ s' = jdel (r_key r) (c_sessions c) ∧
    (c_phase c = Draining ∨ jget (r_key r) (c_sessions c) = Some rid) →
  (needs_session (c_phase c) (r_state r') (r_tasks r') → jget (r_key r) s' = Some rid) →
  (c_phase c = Draining → r_state r' = closing) →
  (c_phase c ≠ Draining → r_forced r' = r_forced r) →
  cat_inv (mkCatalog _ s' (c_pending c) (<[rid := r']> (c_residents c)) (c_phase c) n').
Proof.
  intros Hc Hr Hk Hn Hok Hs Hneed Hdr Hfo.
  assert (Hsub : ∀ k x, jget k s' = Some x → jget k (c_sessions c) = Some x).
  { intros k x. destruct Hs as [->|[-> _]]; [done|]. rewrite jget_jdel by apply Hc. by case_decide. }
  split; simpl.
  - destruct Hs as [->|[-> _]]; [apply Hc|]. apply jdel_wf, Hc.
  - apply Hc.
  - intros k Hp. apply (ci_apart _ Hc) in Hp. destruct (jget k s') eqn:E; [|done]. apply Hsub in E. congruence.
  - intros k x E%Hsub. destruct (ci_named _ Hc _ _ E) as (rx & Hx & Hkx).
    destruct (decide (rid = x)) as [<-|Hne].
    + exists r'. rewrite lookup_insert_eq. split; [done|]. congruence.
    + exists rx. by rewrite lookup_insert_ne.
  - intros x rx [[<- <-]|[_ Hx]]%lookup_insert_Some; eapply Nat.lt_le_trans; [|exact Hn| |exact Hn]; eapply ci_fresh; eauto.
  - intros x rx [[<- <-]|[_ Hx]]%lookup_insert_Some; [done|]. eapply res_ok_mono; [|done]. by eapply ci_ok.
  - intros x rx [[<- <-]|[Hne Hx]]%lookup_insert_Some Hnx; [rewrite Hk; auto|].
    pose proof (ci_needs _ Hc _ _ Hx Hnx) as E. destruct Hs as [->|[-> Hs]]; [done|].
    rewrite jget_jdel by apply Hc. case_decide as Ek; [|done]. rewrite <- Ek in E.
    destruct Hs as [Hd|Hs]; [|congruence]. exfalso.
    destruct Hnx as [Ha|[Hp _]]; [|done]. by rewrite (ci_drained _ Hc _ _ Hx Hd) in Ha.
  - intros x rx [[<- <-]|[Hne Hx]]%lookup_insert_Some; [done|]. by eapply ci_drained.
  - intros x rx [[<- <-]|[Hne Hx]]%lookup_insert_Some Hp; [rewrite Hfo by done|]; by eapply ci_forced.
Qed.

(** *** One resident *)

Lemma res_ok_run n r w :
  res_ok n r → is_borrow w = true ∨ r_state r = closing →
  (w = WDestroy ∨ w = WClose → r_destroy r = Some n) →
  res_ok (S n) (set_lock (l_run (r_lock r) n (work_mode w)) (<[n := mkTask w false]> (r_tasks r)) r).
Proof.
  intros Hr Hw Hd. assert (Hn : r_tasks r !! n = None).
  { destruct (r_tasks r !! n) eqn:E; [|done]. apply (ro_tasks _ _ Hr) in E. lia. }
  assert (Hf : n ∉ l_known (r_lock r)) by (intros Hk%(ro_fresh _ _ Hr); lia).
  assert (Hs : started_borrow (mkTask w false) = false) by (by destruct w).
  split; simpl.
  - apply l_run_inv; [apply Hr|done].
  - intros k [->|Hk%(ro_fresh _ _ Hr)]%l_run_known; lia.
  - intros tid t [[<- <-]|[_ Ht%(ro_tasks _ _ Hr)]]%lookup_insert_Some; lia.
  - intros tid t [[<- <-]|[_ Ht]]%lookup_insert_Some Hst; [done|]. by apply l_run_keeps, (ro_started _ _ Hr).
  - unfold borrows. by rewrite gcount_insert, Hs, (ro_inFlight _ _ Hr).
  - intros tid t [[<- <-]|[_ Ht]]%lookup_insert_Some Hb; [|by eapply ro_closer]. simpl in Hb. destruct Hw; [congruence|done].
  - intros tid t [[<- <-]|[_ Ht]]%lookup_insert_Some Hb; [auto|by eapply ro_destroy].
  - apply Hr.
  - intros Hg. apply idle_insert; [by apply (ro_safe _ _ Hr)|done].
Qed.

Lemma res_ok_leave n r tid t l z now :
  res_ok n r → r_tasks r !! tid = Some t → (tid, work_mode (t_work t)) ∈ l_holders (r_lock r) →
  l_end (r_lock r) tid (work_mode (t_work t)) = Some l → z = r_inFlight r - Z.b2z (started_borrow t) →
  res_ok n (set_lock l (delete tid (r_tasks r)) (set_inFlight z now r)).
Proof.
  intros Hr Ht Hh El ->. pose proof (ro_lock _ _ Hr) as Hl. split; simpl.
  - destruct (l_end_inv _ _ _ Hl Hh) as (l' & El' & Hl'). by rewrite El in El'; injection El' as <-.
  - intros k Hk. apply (ro_fresh _ _ Hr). by eapply l_end_known.
  - intros tid' t' [_ Ht']%lookup_delete_Some. by eapply ro_tasks.
  - intros tid' t' [Hne Ht']%lookup_delete_Some Hst. eapply l_end_keeps; [done|done|done| |done]. by apply (ro_started _ _ Hr).
  - rewrite (ro_inFlight _ _ Hr). unfold borrows. rewrite (gcount_delete _ _ _ _ Ht). lia.
  - intros tid' t' [_ Ht']%lookup_delete_Some. by eapply ro_closer.
  - intros tid' t' [_ Ht']%lookup_delete_Some. by eapply ro_destroy.
  - apply Hr.
  - intros Hg. by apply idle_delete, (ro_safe _ _ Hr).
Qed.

Lemma set_inFlight_same r : set_inFlight (r_inFlight r) (r_lastUsed r) r = r.
Proof. by destruct r. Qed.

(** Whoever else runs under the lock exclusively, no request does. *)
Lemma res_ok_idle n r tid t :
  res_ok n r → r_tasks r !! tid = Some t → is_borrow (t_work t) = false →
  (tid, work_mode (t_work t)) ∈ l_holders (r_lock r) → idle (r_tasks r).
Proof.
  intros Hr Ht Hb Hh k t' Hk. destruct (started_borrow t') eqn:E; [|done].
  assert (work_mode (t_work t) = exclusive) as Em by (by destruct (t_work t)). rewrite Em in Hh.
  assert (t_started t' = true ∧ is_borrow (t_work t') = true) as [Es Eb].
  { unfold started_borrow in E. by destruct (t_work t'). }
  pose proof (ro_started _ _ Hr _ _ Hk Es) as Hh'.
  rewrite (l_alone _ _ (ro_lock _ _ Hr) Hh) in Hh'. apply list_elem_of_singleton in Hh' as [= -> _].
  rewrite Ht in Hk. injection Hk as ->. congruence.
Qed.

Lemma res_ok_start n r tid t now :
  res_ok n r → r_tasks r !! tid = Some t → t_started t = false →
  (tid, work_mode (t_work t)) ∈ l_holders (r_lock r) →
  (is_borrow (t_work t) = true → r_state r = active) →
  res_ok n (started_task tid (t_work t) (set_inFlight (r_inFlight r + Z.b2z (is_borrow (t_work t))) now r)).
Proof.
  intros Hr Ht Hst Hh Ha.
  assert (started_borrow t = false) as E0 by (unfold started_borrow; by destruct (t_work t)).
  assert (started_borrow (mkTask (t_work t) true) = is_borrow (t_work t)) as E1 by (by destruct (t_work t)).
  split; simpl; try apply Hr.
  - intros k t' [[<- _]|[_ Ht']]%lookup_insert_Some; by eapply ro_tasks.
  - intros k t' [[<- <-]|[_ Ht']]%lookup_insert_Some; [done|]. by apply (ro_started _ _ Hr).
  - unfold borrows. rewrite (gcount_update _ _ _ _ _ Ht), E0, E1, (ro_inFlight _ _ Hr). unfold borrows. simpl. lia.
  - intros k t' [[<- <-]|[_ Ht']]%lookup_insert_Some; [|by eapply ro_closer]. exact (ro_closer _ _ Hr _ _ Ht).
  - intros k t' [[<- <-]|[_ Ht']]%lookup_insert_Some; [|by eapply ro_destroy]. exact (ro_destroy _ _ Hr _ _ Ht).
  - intros Hg. assert (idle (r_tasks r)) as Hi by (by apply (ro_safe _ _ Hr)). apply idle_insert; [done|].
    rewrite E1. destruct (is_borrow (t_work t)) eqn:Eb; [|done]. specialize (Ha eq_refl).
    assert (r_state r = closing) by (apply (ro_gone _ _ Hr); tauto). congruence.
Qed.

Lemma res_ok_disconnected n r : res_ok n r → r_state r = closing → idle (r_tasks r) → res_ok n (set_disconnected r).
Proof. intros [] Hc Hi. by split. Qed.

Lemma res_ok_drain n r d f : res_ok n r → d ≠ DrainHad → (r_forced r = true → f = true) → res_ok n (set_drain d f r).
Proof.
  intros [] Hd Hf. split; simpl; try done.
  - intros [?|?]; [by auto|done].
  - intros [[? ->]|?]; [|done]. destruct (r_forced r); [by specialize (Hf eq_refl)|auto].
Qed.

Lemma res_ok_had n r : res_ok n r → r_state r = closing → idle (r_tasks r) → res_ok n (set_drain DrainHad (r_forced r) r).
Proof. intros [] Hc Hi. by split. Qed.

(** Closing a session keeps what it keeps by itself. *)
Lemma res_ok_closing n r d :
  res_ok n r → (∀ tid t, r_tasks r !! tid = Some t → t_work t = WDestroy ∨ t_work t = WClose → d = Some tid) →
  res_ok n (set_closing d r).
Proof. intros [] Hd. by split. Qed.

(** *** When the map has to name a session *)

Lemma needs_delete p st ts tid : needs_session p st (delete tid ts) → needs_session p st ts.
Proof.
  intros [?|[Hp [Hi|[k Hk]]]]; [by left|right; split; [done|left]|right; split; [done|right]].
  - intros H'. by apply Hi, idle_delete.
  - exists k. by apply lookup_delete_Some in Hk as [_ Hk].
Qed.

Lemma needs_insert p st ts tid t : started_borrow t = false → t ≠ mkTask WDestroy false →
  needs_session p st (<[tid := t]> ts) → needs_session p st ts.
Proof.
  intros Hb Hne [?|[Hp [Hi|[k Hk]]]]; [by left|right; split; [done|left]|right; split; [done|right]].
  - intros H'. by apply Hi, idle_insert.
  - exists k. apply lookup_insert_Some in Hk as [[_ ?]|[_ Hk]]; done.
Qed.

Lemma needs_closing p st ts : needs_session p closing ts → needs_session p st ts.
Proof. intros [?|?]; [done|by right]. Qed.

Lemma needs_none p ts : idle ts → (∀ tid, ts !! tid ≠ Some (mkTask WDestroy false)) → ¬ needs_session p closing ts.
Proof. intros Hi Hd [?|[_ [?|[tid ?]]]]; [done|done|by eapply Hd]. Qed.

Lemma set_sessions_same c : set_sessions (c_sessions c) c = c.
Proof. by destruct c. Qed.

Lemma cat_inv_leave c rid r0 r tid t z now s' c' :
  cat_inv c → c_residents c !! rid = Some r0 → r_key r = r_key r0 → res_ok (c_next c) r →
  r_tasks r !! tid = Some t → (tid, work_mode (t_work t)) ∈ l_holders (r_lock r) →
  z = r_inFlight r - Z.b2z (started_borrow t) →
  s' = c_sessions c ∨ s' = jdel (r_key r0) (c_sessions c) ∧
    (c_phase c = Draining ∨ jget (r_key r0) (c_sessions c) = Some rid) →
  (needs_session (c_phase c) (r_state r) (delete tid (r_tasks r)) → jget (r_key r0) s' = Some rid) →
  (c_phase c = Draining → r_state r = closing) →
  (c_phase c ≠ Draining → r_forced r = r_forced r0) →
  leave_lock rid tid (t_work t) (set_inFlight z now r) (set_sessions s' c) = Some c' → cat_inv c'.
Proof.
  intros Hc Hr0 Hk Hr Ht Hh Hz Hs Hn Hd Hfo Hl. unfold leave_lock in Hl. simpl in Hl.
  destruct (l_end (r_lock r) tid (work_mode (t_work t))) as [l|] eqn:El; [|done]. injection Hl as <-.
  apply (cat_inv_put c rid r0); try done. by apply (res_ok_leave _ _ _ t).
Qed.

(** [run_work] of a session that stays in the map. *)
Lemma cat_inv_run c rid r0 r w s' :
  cat_inv c → c_residents c !! rid = Some r0 → r_key r = r_key r0 → res_ok (c_next c) r →
  is_borrow w = true ∨ r_state r = closing → (w = WDestroy ∨ w = WClose → r_destroy r = Some (c_next c)) →
  s' = c_sessions c ∨ s' = jdel (r_key r0) (c_sessions c) ∧
    (c_phase c = Draining ∨ jget (r_key r0) (c_sessions c) = Some rid) →
  (needs_session (c_phase c) (r_state r) (<[c_next c := mkTask w false]> (r_tasks r)) → jget (r_key r0) s' = Some rid) →
  (c_phase c = Draining → r_state r = closing) →
  (c_phase c ≠ Draining → r_forced r = r_forced r0) →
  cat_inv (run_work rid w r (set_sessions s' c)).
Proof.
  intros Hc Hr0 Hk Hr Hw Hd Hs Hn Hdr Hfo. unfold run_work. simpl.
  apply (cat_inv_put c rid r0); try done; [lia|]. by apply res_ok_run.
Qed.

(** *** The operations keep the invariant *)

Lemma getOrCreate_inv key c : cat_inv c → cat_inv (getOrCreate key c).2.
Proof.
  intros Hc. unfold getOrCreate. case_decide; [done|]. destruct (jget key (c_sessions c)) eqn:Es; [done|].
  destruct (jget key (c_pending c)) eqn:Ep; [done|]. destruct Hc as [I1 I2 I3 I4 I5 I6 I7 I8 I9]. split; simpl; try done.
  - by apply jset_wf.
  - intros k. rewrite jget_jset. case_decide; [by subst|]. auto.
  - intros rid r Hr. specialize (I5 _ _ Hr). lia.
  - intros rid r Hr. eapply res_ok_mono; [eauto|lia].
Qed.

Lemma fail_creation_inv key cid c c' : cat_inv c → fail_creation key cid c = Some c' → cat_inv c'.
Proof.
  intros Hc. unfold fail_creation. case_decide; [done|]. intros [= <-]. destruct Hc. split; simpl; try done.
  - by apply jdel_wf.
  - intros k Hk. apply ci_apart0. rewrite jget_jdel in Hk by done. case_decide; [by destruct Hk|done].
Qed.

Lemma new_ok n key now bytes over owner createdAt :
  res_ok n (mkResident _ key l_new active 0 now bytes over owner None createdAt None ∅ true NoDrain false).
Proof.
  split; simpl; try done.
  - apply l_new_inv.
  - rewrite l_new_free. by intros k ?%elem_of_nil.
  - by intros [?|?].
Qed.

Lemma finish_creation_inv key cid owner createdAt bytes now c c' :
  cat_inv c → finish_creation opts key cid owner createdAt bytes now c = Some c' → cat_inv c'.
Proof.
  intros Hc. unfold finish_creation. case_decide as Hp; [done|].
  case_decide as Hph; [by intros [= <-]|]. intros [= <-].
  assert (Hs : jget key (c_sessions c) = None) by (apply (ci_apart _ Hc); by rewrite Hp).
  assert (Hnew : c_residents c !! c_next c = None).
  { destruct (c_residents c !! c_next c) eqn:E; [|done]. apply (ci_fresh _ Hc) in E. lia. }
  destruct Hc as [I1 I2 I3 I4 I5 I6 I7 I8 I9]. split; simpl.
  - by apply jset_wf.
  - by apply jdel_wf.
  - intros k. rewrite jget_jset, jget_jdel by done. case_decide; [by intros []|auto].
  - intros k rid. rewrite jget_jset. case_decide as Hk.
    + intros [= <-]. eexists. rewrite lookup_insert_eq. by split.
    + intros E. destruct (I4 _ _ E) as (r & Hr & Hkr). exists r. split; [|done].
      rewrite lookup_insert_ne; [done|]. intros <-. congruence.
  - intros rid r [[<- _]|[_ Hr%I5]]%lookup_insert_Some; lia.
  - intros rid r [[_ <-]|[_ Hr]]%lookup_insert_Some; [apply new_ok|]. eapply res_ok_mono; [eauto|lia].
  - intros rid r [[<- <-]|[_ Hr]]%lookup_insert_Some Hn; simpl; [by rewrite jget_jset_eq|].
    specialize (I7 _ _ Hr Hn). rewrite jget_jset. case_decide; [congruence|done].
  - intros rid r _ Hd. congruence.
  - intros rid r [[_ <-]|[_ Hr]]%lookup_insert_Some Hp'; [done|]. by apply (I9 rid).
Qed.

(** Fields the invariant does not read. *)
Lemma cat_inv_touch c rid r r' :
  cat_inv c → c_residents c !! rid = Some r → r_key r' = r_key r → r_lock r' = r_lock r → r_tasks r' = r_tasks r →
  r_state r' = r_state r → r_inFlight r' = r_inFlight r → r_destroy r' = r_destroy r →
  r_connected r' = r_connected r → r_drain r' = r_drain r → r_forced r' = r_forced r →
  cat_inv (put_res rid r' c).
Proof.
  intros Hc Hr Ek El Et Es Ei Ed Ec Er Ef. apply (cat_inv_put c rid r); try done; [|by left| |].
  - destruct (ci_ok _ Hc _ _ Hr). split; rewrite ?El, ?Et, ?Es, ?Ei, ?Ed, ?Ec, ?Er, ?Ef; done.
  - rewrite Es, Et. by apply (ci_needs _ Hc rid).
  - rewrite Es. by apply (ci_drained _ Hc rid).
Qed.

Lemma active_not_closing (r : Resident) : r_state r ≠ closing → r_state r = active.
Proof. by destruct (r_state r). Qed.

Lemma borrow_inv rid mode c c' : cat_inv c → borrow rid mode c = Some c' → cat_inv c'.
Proof.
  intros Hc. unfold borrow. destruct (c_residents c !! rid) as [r|] eqn:Hr; [|done]. simpl.
  intros [= <-]. case_decide as Hst; [done|]. apply active_not_closing in Hst.
  rewrite <- (set_sessions_same c). apply (cat_inv_run _ _ r); try done; simpl.
  - by apply (ci_ok _ Hc rid).
  - by left.
  - by intros [?|?].
  - by left.
  - intros _. apply (ci_needs _ Hc); [done|by left].
  - by apply (ci_drained _ Hc rid).
Qed.

Lemma closer_inv c rid r w : cat_inv c → c_residents c !! rid = Some r → r_destroy r = None →
  w = WClose ∨ w = WDestroy ∧ jget (r_key r) (c_sessions c) = Some rid →
  cat_inv (run_work rid w (set_closing (Some (c_next c)) r) c).
Proof.
  intros Hc Hr Hd Hw. rewrite <- (set_sessions_same c). apply (cat_inv_run _ _ r); try done; simpl.
  - apply res_ok_closing; [by apply (ci_ok _ Hc rid)|]. intros tid t Ht Hk.
    rewrite (ro_destroy _ _ (ci_ok _ Hc _ _ Hr) _ _ Ht Hk) in Hd. done.
  - by right.
  - by left.
  - destruct Hw as [->|[-> Hs]]; [|done]. intros Hn. apply (ci_needs _ Hc); [done|]. eapply needs_closing, needs_insert; [| |exact Hn]; done.
Qed.

Lemma closeMissing_inv rid c c' : cat_inv c → closeMissing rid c = Some c' → cat_inv c'.
Proof.
  intros Hc. unfold closeMissing. destruct (c_residents c !! rid) as [r|] eqn:Hr; [|done]. simpl. intros [= <-].
  destruct (r_destroy r) eqn:Hd; [done|]. apply closer_inv; auto.
Qed.

Lemma destroy_inv key c c' : cat_inv c → destroy key c = Some c' → cat_inv c'.
Proof.
  intros Hc. unfold destroy. destruct (jget key (c_sessions c)) as [rid|] eqn:Hs; [|by intros [= <-]].
  destruct (ci_named _ Hc _ _ Hs) as (r & Hr & Hk). rewrite Hr. simpl. intros [= <-].
  destruct (r_destroy r) eqn:Hd; [done|]. apply closer_inv; [done..|]. right. by rewrite Hk.
Qed.

(** At most one destruction or closing is under way. *)
Lemma no_other_destroy n r tid t :
  res_ok n r → r_tasks r !! tid = Some t → t_work t = WDestroy ∨ t_work t = WClose → t ≠ mkTask WDestroy false →
  ∀ k, r_tasks r !! k ≠ Some (mkTask WDestroy false).
Proof.
  intros Hr Ht Hw Hne k Hk. pose proof (ro_destroy _ _ Hr _ _ Ht Hw) as E1.
  pose proof (ro_destroy _ _ Hr _ _ Hk (or_introl eq_refl)) as E2. rewrite E1 in E2. injection E2 as ->. congruence.
Qed.

Lemma res_ok_start_closer n r tid t :
  res_ok n r → r_tasks r !! tid = Some t → t_started t = false →
  (tid, work_mode (t_work t)) ∈ l_holders (r_lock r) → is_borrow (t_work t) = false →
  res_ok n (started_task tid (t_work t) r).
Proof.
  intros Hr Ht Hst Hh Hb. pose proof (res_ok_start n r tid t (r_lastUsed r) Hr Ht Hst Hh) as Hs.
  rewrite Hb, Z.add_0_r, set_inFlight_same in Hs. by apply Hs.
Qed.

(** A closer starts: the session may be disconnected ([r] then differs from the
    resident) or removed. *)
Lemma cat_inv_start c rid r0 r tid t s' :
  cat_inv c → c_residents c !! rid = Some r0 → r_key r = r_key r0 → r_state r = r_state r0 → r_tasks r = r_tasks r0 →
  r_forced r = r_forced r0 → res_ok (c_next c) r → r_tasks r !! tid = Some t → t_started t = false →
  (tid, work_mode (t_work t)) ∈ l_holders (r_lock r) → is_borrow (t_work t) = false →
  s' = c_sessions c ∨ s' = jdel (r_key r0) (c_sessions c) ∧
    (c_phase c = Draining ∨ jget (r_key r0) (c_sessions c) = Some rid) ∧
    (∀ k, <[tid := mkTask (t_work t) true]> (r_tasks r) !! k ≠ Some (mkTask WDestroy false)) →
  cat_inv (put_res rid (started_task tid (t_work t) r) (set_sessions s' c)).
Proof.
  intros Hc Hr0 Hk Es Et Hfo Hr Ht Hst Hh Hb Hs.
  assert (Hsb : started_borrow (mkTask (t_work t) true) = false) by (by destruct (t_work t)).
  apply (cat_inv_put c rid r0); try done; simpl.
  - by apply res_ok_start_closer.
  - destruct Hs as [->|(-> & Hs & _)]; [by left|by right].
  - intros Hn. destruct Hs as [->|(-> & _ & Hd)].
    + apply (ci_needs _ Hc); [done|]. rewrite <- Es, <- Et.
      eapply needs_insert; [exact Hsb| |exact Hn]. by intros [= ?].
    + exfalso. revert Hn. rewrite (ro_closer _ _ Hr _ _ Ht Hb). apply needs_none; [|done].
      apply idle_insert; [|done]. by apply (res_ok_idle (c_next c) r tid t).
  - intros _. by apply (ro_closer _ _ Hr _ _ Ht).
Qed.

(** A work that is not a running request leaves the lock. *)
Lemma cat_inv_leave_closer c rid r0 r tid t s' c' :
  cat_inv c → c_residents c !! rid = Some r0 → r_key r = r_key r0 → r_state r = r_state r0 → r_tasks r = r_tasks r0 →
  r_forced r = r_forced r0 → res_ok (c_next c) r → r_tasks r !! tid = Some t → (tid, work_mode (t_work t)) ∈ l_holders (r_lock r) →
  started_borrow t = false → r_state r = closing →
  s' = c_sessions c ∨ s' = jdel (r_key r0) (c_sessions c) ∧
    (c_phase c = Draining ∨ jget (r_key r0) (c_sessions c) = Some rid) ∧
    ¬ needs_session (c_phase c) (r_state r) (r_tasks r) →
  leave_lock rid tid (t_work t) r (set_sessions s' c) = Some c' → cat_inv c'.
Proof.
  intros Hc Hr0 Hk Es Et Hfo Hr Ht Hh Hb Hcl Hs. rewrite <- (set_inFlight_same r) at 1.
  apply (cat_inv_leave c rid r0 r tid t); try done.
  - rewrite Hb. simpl. lia.
  - destruct Hs as [->|(-> & Hs & _)]; [by left|by right].
  - intros Hn%needs_delete. destruct Hs as [->|(_ & _ & Hs)]; [|done].
    apply (ci_needs _ Hc); [done|]. by rewrite <- Es, <- Et.
Qed.

Lemma begin_borrow_inv c rid r tid t m now :
  cat_inv c → c_residents c !! rid = Some r → r_tasks r !! tid = Some t → t_started t = false →
  (tid, work_mode (t_work t)) ∈ l_holders (r_lock r) → t_work t = WBorrow m → r_state r = active →
  cat_inv (put_res rid (started_task tid (WBorrow m) (set_inFlight (r_inFlight r + 1) now r)) c).
Proof.
  intros Hc Hr Ht Hst Hh Ew Ha. apply (cat_inv_put c rid r); try done; simpl.
  - pose proof (res_ok_start _ r tid t now (ci_ok _ Hc _ _ Hr) Ht Hst Hh (λ _, Ha)) as Hs. by rewrite Ew in Hs.
  - by left.
  - intros _. apply (ci_needs _ Hc); [done|by left].
  - by apply (ci_drained _ Hc rid).
Qed.

Lemma closer_holds n r tid t : res_ok n r → r_tasks r !! tid = Some t → is_borrow (t_work t) = false →
  (tid, work_mode (t_work t)) ∈ l_holders (r_lock r) →
  r_state r = closing ∧ idle (r_tasks r) ∧ started_borrow t = false.
Proof.
  intros Hr Ht Hb Hh. split; [exact (ro_closer _ _ Hr _ _ Ht Hb)|]. split; [by apply (res_ok_idle n r tid t)|].
  unfold started_borrow. by destruct (t_work t).
Qed.

Lemma begin_work_inv rid tid now c c' : cat_inv c → begin_work rid tid now c = Some c' → cat_inv c'.
Proof.
  intros Hc. unfold begin_work, begin_borrow, begin_close, begin_destroy, begin_reap, begin_drain. destruct (c_residents c !! rid) as [r|] eqn:Hr; [|done]. simpl.
  destruct (r_tasks r !! tid) as [t|] eqn:Ht; [|done]. simpl.
  case_decide as Hg; [done|]. apply Decidable.not_or in Hg as [Hst Hh]. apply not_true_is_false in Hst.
  apply dec_stable in Hh. pose proof (ci_ok _ Hc _ _ Hr) as Hok.
  destruct (t_work t) as [m| | | |] eqn:Ew; try rewrite <- Ew in Hh.
  { case_decide as Hcl.
    - rewrite <- (set_sessions_same c) at 1. rewrite <- Ew. apply (cat_inv_leave_closer c rid r r tid t); auto.
      unfold started_borrow. by rewrite Ew.
    - intros [= <-]. apply active_not_closing in Hcl. by apply (begin_borrow_inv c rid r tid t). }
  all: destruct (closer_holds _ _ _ _ Hok Ht ltac:(by rewrite Ew) Hh) as (Hcl & Hid & Hsb).
  - intros [= <-]. rewrite <- (set_sessions_same c), <- Ew.
    apply (cat_inv_start c rid r); auto using res_ok_disconnected. by rewrite Ew.
  - intros [= <-]. rewrite <- Ew. apply (cat_inv_start c rid r); auto; [by rewrite Ew|].
    right. split; [done|]. split.
    + destruct (decide (c_phase c = Draining)); [by left|right]. apply (ci_needs _ Hc); [done|]. right. split; [done|].
      right. exists tid. rewrite Ht. destruct t. simpl in *. congruence.
    + intros k [[_ ?]|[Hne Hk]]%lookup_insert_Some; [done|].
      pose proof (ro_destroy _ _ Hok _ _ Ht (or_introl Ew)) as E1.
      pose proof (ro_destroy _ _ Hok _ _ Hk (or_introl eq_refl)) as E2. congruence.
  - intros [= <-]. rewrite <- (set_sessions_same c), <- Ew.
    apply (cat_inv_start c rid r); auto using res_ok_disconnected. by rewrite Ew.
  - rewrite <- (set_sessions_same c) at 1. rewrite <- Ew.
    assert (res_ok (c_next c) (if decide (r_drain r = DrainWaiting) then set_drain DrainHad (r_forced r) r else r)).
    { case_decide; [|done]. by apply res_ok_had. }
    apply (cat_inv_leave_closer c rid r); auto; by destruct (decide _).
Qed.

Lemma finish_work_inv rid tid c c' : cat_inv c → finish_work rid tid c = Some c' → cat_inv c'.
Proof.
  intros Hc. unfold finish_work, finish_borrow, finish_close, finish_destroy. destruct (c_residents c !! rid) as [r|] eqn:Hr; [|done]. simpl.
  destruct (r_tasks r !! tid) as [t|] eqn:Ht; [|done]. simpl.
  case_decide as Hg; [done|]. apply not_false_is_true in Hg. pose proof (ci_ok _ Hc _ _ Hr) as Hok.
  pose proof (ro_started _ _ Hok _ _ Ht Hg) as Hh.
  destruct (t_work t) as [m| | | |] eqn:Ew; try rewrite <- Ew in Hh.
  { rewrite <- (set_sessions_same c) at 1. rewrite <- Ew.
    apply (cat_inv_leave c rid r r tid t); try done; [| by left| |by apply (ci_drained _ Hc rid)].
    - unfold started_borrow. rewrite Ew, Hg. done.
    - intros Hn%needs_delete. by apply (ci_needs _ Hc). }
  all: destruct (closer_holds _ _ _ _ Hok Ht ltac:(by rewrite Ew) Hh) as (Hcl & Hid & Hsb); rewrite <- Ew.
  - case_decide as Es.
    + apply (cat_inv_leave_closer c rid r r tid t); auto.
      right. split; [done|]. split; [by right|]. rewrite Hcl. apply needs_none; [done|].
      apply (no_other_destroy _ _ _ _ Hok Ht); [auto|]. intros ->. done.
    + rewrite <- (set_sessions_same c) at 1. apply (cat_inv_leave_closer c rid r r tid t); auto.
  - rewrite <- (set_sessions_same c) at 1.
    apply (cat_inv_leave_closer c rid r (set_disconnected r) tid t); auto using res_ok_disconnected.
  - rewrite <- (set_sessions_same c) at 1. apply (cat_inv_leave_closer c rid r r tid t); auto.
  - rewrite <- (set_sessions_same c) at 1. apply (cat_inv_leave_closer c rid r r tid t); auto.
Qed.

(** *** The reaper *)

Definition named (c : Catalog) (l : list (string * nat)) : Prop :=
  ∀ k rid, (k, rid) ∈ l → ∃ r, c_residents c !! rid = Some r ∧ r_key r = k.

Lemma sessions_named c : cat_inv c → named c (c_sessions c).
Proof. intros Hc k rid Hin. apply (ci_named _ Hc). by apply jget_Some; [apply Hc|]. Qed.

Lemma named_put c l rid r r' s' p n : c_residents c !! rid = Some r → r_key r' = r_key r →
  named c l → named (mkCatalog _ s' (c_pending c) (<[rid := r']> (c_residents c)) p n) l.
Proof.
  intros Hr Hk Hl k x Hin. destruct (Hl _ _ Hin) as (rx & Hx & Hkx). simpl. destruct (decide (rid = x)) as [<-|Hne].
  - exists r'. rewrite lookup_insert_eq. split; [done|]. congruence.
  - exists rx. by rewrite lookup_insert_ne.
Qed.

Lemma active_no_destroy n r : res_ok n r → r_state r = active → ∀ tid, r_tasks r !! tid ≠ Some (mkTask WDestroy false).
Proof. intros Hr Ha tid Ht. by rewrite (ro_closer _ _ Hr _ _ Ht eq_refl) in Ha. Qed.

Lemma reap_one_inv now c kr l : cat_inv c → named c (kr :: l) →
  cat_inv (reap_one opts now c kr) ∧ named (reap_one opts now c kr) l.
Proof.
  intros Hc Hnm. assert (Hl : named c l) by (intros k x Hx; apply Hnm; by right).
  unfold reap_one. destruct kr as [k rid]. simpl.
  destruct (Hnm k rid ltac:(by left)) as (r & Hr & Hk). rewrite Hr.
  case_decide as Hg; [done|]. apply Decidable.not_or in Hg as [Hst%active_not_closing Hf]. apply dec_stable in Hf.
  pose proof (ci_ok _ Hc _ _ Hr) as Hok. rewrite (ro_inFlight _ _ Hok), borrows_idle in Hf.
  destruct (_ || _); [|done]. split.
  - apply (cat_inv_run c rid r); try done; simpl; subst k.
    + apply res_ok_closing; [done|]. by apply (ro_destroy _ _ Hok).
    + by right.
    + by intros [?|?].
    + right. split; [done|]. right. apply (ci_needs _ Hc); [done|by left].
    + intros Hn. exfalso. revert Hn. apply needs_none; [by apply idle_insert|].
      intros tid [[_ ?]|[_ Ht]]%lookup_insert_Some; [done|]. by apply (active_no_destroy _ _ Hok Hst tid).
  - by apply (named_put c l rid r).
Qed.

Lemma runReaper_inv now c : cat_inv c → cat_inv (runReaper opts now c).
Proof.
  intros Hc. pose proof (sessions_named c Hc) as Hnm. unfold runReaper. generalize dependent (c_sessions c).
  intros l. revert c Hc. induction l as [|kr l IH]; intros c Hc Hnm; [done|]. simpl.
  destruct (reap_one_inv now c kr l Hc Hnm). by apply IH.
Qed.

(** *** The shutdown *)

(** Every session that still takes requests is in the rest of the list. *)
Definition open_in (c : Catalog) (l : list (string * nat)) : Prop :=
  ∀ rid r, c_residents c !! rid = Some r → r_state r = active → ∃ k, (k, rid) ∈ l.

Lemma close_entry_inv c kr l : cat_inv c → open_in c (kr :: l) →
  cat_inv (close_entry c kr) ∧ open_in (close_entry c kr) l ∧ c_phase (close_entry c kr) = c_phase c.
Proof.
  intros Hc Ho. unfold close_entry. destruct kr as [k rid]. simpl. destruct (c_residents c !! rid) as [r|] eqn:Hr.
  - split; [|split; [|done]].
    + apply (cat_inv_put c rid r); try done; simpl.
      * apply res_ok_closing; [by apply (ci_ok _ Hc rid)|]. apply (ro_destroy _ _ (ci_ok _ Hc _ _ Hr)).
      * by left.
      * intros Hn. by apply (ci_needs _ Hc); [|apply needs_closing].
    + intros x rx. simpl. intros [[<- <-]|[Hne Hx]]%lookup_insert_Some Ha; [done|].
      destruct (Ho _ _ Hx Ha) as [k' Hk']. exists k'. apply elem_of_cons in Hk' as [[= _ ?]|?]; [congruence|done].
  - split; [done|]. split; [|done]. intros x rx Hx Ha. destruct (Ho _ _ Hx Ha) as [k' Hk']. exists k'.
    apply elem_of_cons in Hk' as [[= _ ?]|?]; [congruence|done].
Qed.

Lemma close_entries_inv l c : cat_inv c → open_in c l →
  cat_inv (fold_left close_entry l c) ∧ open_in (fold_left close_entry l c) [] ∧
  c_phase (fold_left close_entry l c) = c_phase c.
Proof.
  revert c. induction l as [|kr l IH]; intros c Hc Ho; [done|]. simpl.
  destruct (close_entry_inv c kr l Hc Ho) as (Hc' & Ho' & <-). by apply IH.
Qed.

Lemma drain_entry_inv c kr : cat_inv c → open_in c [] →
  cat_inv (drain_entry c kr) ∧ open_in (drain_entry c kr) [] ∧ c_phase (drain_entry c kr) = c_phase c.
Proof.
  intros Hc Ho. unfold drain_entry. destruct (c_residents c !! kr.2) as [r|] eqn:Hr; [|done].
  destruct (r_destroy r) eqn:Hd; [done|].
  assert (Hcl : r_state r = closing).
  { destruct (r_state r) eqn:E; [|done]. destruct (Ho _ _ Hr E) as [k Hk]. by apply elem_of_nil in Hk. }
  split; [|split; [|done]].
  - rewrite <- (set_sessions_same c). apply (cat_inv_run c kr.2 r); try done; simpl.
    + by apply res_ok_drain; [apply (ci_ok _ Hc kr.2)| |].
    + by right.
    + by intros [?|?].
    + by left.
    + intros Hn. apply (ci_needs _ Hc); [done|]. eapply needs_insert; [| |exact Hn]; done.
  - intros x rx. simpl. intros [[<- <-]|[_ Hx]]%lookup_insert_Some Ha; [simpl in Ha; congruence|]. by apply (Ho x rx).
Qed.

Lemma drain_entries_inv l c : cat_inv c → open_in c [] →
  cat_inv (fold_left drain_entry l c) ∧ open_in (fold_left drain_entry l c) [] ∧
  c_phase (fold_left drain_entry l c) = c_phase c.
Proof.
  revert c. induction l as [|kr l IH]; intros c Hc Ho; [done|]. simpl.
  destruct (drain_entry_inv c kr Hc Ho) as (Hc' & Ho' & <-). by apply IH.
Qed.

Lemma drain_sessions_inv c c' : cat_inv c → drain_sessions c = Some c' → cat_inv c'.
Proof.
  intros Hc. unfold drain_sessions. case_decide; [|done]. intros [= <-].
  destruct (close_entries_inv (c_sessions c) c Hc) as (Hc1 & Ho1 & _).
  { intros rid r Hr Ha. exists (r_key r). apply jget_elem. apply (ci_needs _ Hc); [done|by left]. }
  set (c1 := fold_left close_entry (c_sessions c) c) in *.
  destruct (drain_entries_inv (c_sessions c1) c1 Hc1 Ho1) as ([I1 I2 I3 I4 I5 I6 I7 I8 I9] & Ho2 & _).
  assert (Hcl : ∀ rid r, c_residents (fold_left drain_entry (c_sessions c1) c1) !! rid = Some r → r_state r = closing).
  { intros rid r Hr. destruct (r_state r) eqn:E; [|done]. destruct (Ho2 _ _ Hr E) as [k Hk]. by apply elem_of_nil in Hk. }
  split; simpl; eauto. intros rid r Hr [Ha|[Hp _]]; [|done]. by rewrite (Hcl _ _ Hr) in Ha.
Qed.

Lemma evict_inv rid deadline c c' : cat_inv c → evict rid deadline c = Some c' → cat_inv c'.
Proof.
  intros Hc. unfold evict. destruct (c_residents c !! rid) as [r|] eqn:Hr; [|done]. simpl.
  case_decide as Hg; [|done]. destruct Hg as [Hp Hd]. intros [= <-].
  pose proof (ci_drained _ Hc _ _ Hr Hp) as Hcl. pose proof (ci_ok _ Hc _ _ Hr) as Hok.
  apply (cat_inv_put c rid r); try done; simpl.
  - destruct Hd as [Hd|[Hd _]]; rewrite Hd.
    + rewrite bool_decide_false, orb_false_r by done. apply res_ok_disconnected; [by apply res_ok_drain|done|].
      apply (ro_safe _ _ Hok). by right.
    + rewrite bool_decide_true, orb_true_r by done.
      pose proof (res_ok_drain _ r NoDrain true Hok) as Hok'. destruct Hok' as [? ? ? ? ? ? ? Hgone ?]; [done..|].
      split; simpl; try done. by intros [[_ ?]|?].
  - right. auto.
  - rewrite Hcl. by intros [?|[? _]].
Qed.

Lemma clear_sessions_inv c c' : cat_inv c → clear_sessions c = Some c' → cat_inv c'.
Proof.
  intros Hc. unfold clear_sessions. case_decide as Hp; [|done]. intros [= <-].
  destruct Hc as [I1 I2 I3 I4 I5 I6 I7 I8 I9]. split; simpl; try done; [constructor|].
  intros rid r Hr [Ha|[? _]]; [|done]. by rewrite (I8 _ _ Hr Hp) in Ha.
Qed.

Lemma shutdown_inv c : cat_inv c → cat_inv (shutdown c).
Proof.
  intros Hc. unfold shutdown. case_decide as Hp; [|done]. destruct Hc as [I1 I2 I3 I4 I5 I6 I7 I8 I9].
  rewrite Hp in I7. split; simpl; try done; [|intros rid r Hr _; apply (I9 rid r Hr); congruence]. intros rid r Hr Hn. apply I7; [done|].
  destruct Hn as [?|[_ ?]]; [by left|by right].
Qed.

Lemma newCatalog_inv : cat_inv newCatalog.
Proof. split; simpl; try done; try constructor. all: by intros ? ? ?%lookup_empty_Some. Qed.

Lemma meta_step_inv e c c' : cat_inv c → c_step opts e c = Some c' →
  match e with EAttached _ _ | EBudget _ _ | EInitMeta _ _ _ | EHydrate _ _ _ _ => cat_inv c' | _ => True end.
Proof.
  intros Hc. destruct e as [| | |rid now| | | | | | |rid bytes|rid owner name|rid owner name created| | | |]; try done; simpl;
    unfold attached, refreshBudget, initializeMetadata, hydrateMetadata;
    (destruct (c_residents c !! rid) as [r|] eqn:Hr; [|done]); intros [= <-]; by apply (cat_inv_touch c rid r).
Qed.

Lemma c_step_inv e c c' : cat_inv c → c_step opts e c = Some c' → cat_inv c'.
Proof.
  intros Hc E. pose proof (meta_step_inv e c c' Hc E) as Hm.
  destruct e; simpl in E; try exact Hm; clear Hm;
    first [injection E as <-; first [by apply getOrCreate_inv|by apply runReaper_inv|by apply shutdown_inv]
          |revert E; first [by apply finish_creation_inv|by apply fail_creation_inv|by apply borrow_inv|by apply begin_work_inv
                           |by apply finish_work_inv|by apply closeMissing_inv|by apply destroy_inv
                           |by apply drain_sessions_inv|by apply evict_inv|by apply clear_sessions_inv]].
Qed.

Lemma c_reachable_inv c : c_reachable opts c → cat_inv c.
Proof. induction 1 as [|c c' e _ IH E]; [apply newCatalog_inv|by eapply c_step_inv]. Qed.

Fixpoint c_run (es : list Event) (c : Catalog) : option Catalog :=
  match es with
  | [] => Some c
  | e :: es' => c' ← c_step opts e c; c_run es' c'
  end.

Lemma c_run_reachable es c c' : c_reachable opts c → c_run es c = Some c' → c_reachable opts c'.
Proof.
  revert c. induction es as [|e es IH]; intros c Hc; simpl; [by intros [= <-]|].
  destruct (c_step opts e c) eqn:E; [|done]. simpl. apply IH. by econstructor.
Qed.

(** A request that is running in a session. *)
Definition runs_in (c : Catalog) (rid : nat) (r : Resident) (tid : nat) (m : LockMode) : Prop :=
  c_residents c !! rid = Some r ∧ r_tasks r !! tid = Some (mkTask (WBorrow m) true).

Lemma runs_busy c rid r tid m : runs_in c rid r tid m → ¬ idle (r_tasks r).
Proof. intros [_ Ht] Hi. by specialize (Hi _ _ Ht). Qed.

(** C24: Requests exclude each other. Until a shutdown has started to drain the
    sessions, two requests that run on the same sandbox run in the same
    session, the one its key names, whose filesystem is connected; and a request
    that runs exclusively is the only one. *)
Theorem requests_exclude c rid1 r1 tid1 m1 rid2 r2 tid2 m2 :
  c_reachable opts c → c_phase c ≠ Draining →
  runs_in c rid1 r1 tid1 m1 → runs_in c rid2 r2 tid2 m2 → r_key r1 = r_key r2 →
  rid1 = rid2 ∧ get (r_key r1) c = Some rid1 ∧ r_connected r1 = true ∧ (m1 = exclusive → tid1 = tid2).
Proof.
  intros Hc%c_reachable_inv Hp H1 H2 Hk.
  pose proof (runs_busy _ _ _ _ _ H1) as B1. pose proof (runs_busy _ _ _ _ _ H2) as B2.
  destruct H1 as [Hr1 Ht1], H2 as [Hr2 Ht2]. pose proof (ci_ok _ Hc _ _ Hr1) as Hok.
  assert (E1 : jget (r_key r1) (c_sessions c) = Some rid1) by (apply (ci_needs _ Hc); [done|]; right; auto).
  assert (E2 : jget (r_key r2) (c_sessions c) = Some rid2) by (apply (ci_needs _ Hc); [done|]; right; auto).
  rewrite <- Hk, E1 in E2. injection E2 as <-. rewrite Hr1 in Hr2. injection Hr2 as <-.
  split; [done|]. split; [done|]. split.
  - destruct (r_connected r1) eqn:Ec; [done|]. exfalso. apply B1, (ro_safe _ _ Hok). left.
    split; [done|]. by apply (ci_forced _ Hc rid1).
  - intros ->. pose proof (ro_started _ _ Hok _ _ Ht1 eq_refl) as Hh1. pose proof (ro_started _ _ Hok _ _ Ht2 eq_refl) as Hh2.
    simpl in Hh1, Hh2. rewrite (l_alone _ _ (ro_lock _ _ Hok) Hh1) in Hh2. by apply list_elem_of_singleton in Hh2 as [= -> _].
Qed.

(** C25: No request loses its filesystem. In every reachable state, of a shutdown
    too, [inFlight] counts the requests that run in a session, and a session
    whose filesystem was disconnected, unless the deadline of a shutdown forced
    it, is closing and runs no request. *)
Theorem disconnected_sessions_idle c rid r :
  c_reachable opts c → c_residents c !! rid = Some r →
  r_inFlight r = borrows (r_tasks r) ∧
  (r_connected r = false → r_forced r = false → r_state r = closing ∧ r_inFlight r = 0 ∧ ∀ tid m, ¬ runs_in c rid r tid m) ∧
  (r_forced r = true → c_phase c = Draining).
Proof.
  intros Hc%c_reachable_inv Hr. pose proof (ci_ok _ Hc _ _ Hr) as Hok. pose proof (ro_inFlight _ _ Hok) as Ef.
  split; [done|]. split.
  - intros Hd Hf. assert (idle (r_tasks r)) as Hi by (apply (ro_safe _ _ Hok); auto).
    split; [apply (ro_gone _ _ Hok); by left|]. split; [by rewrite Ef, borrows_idle|].
    intros tid m Hrun. by apply runs_busy in Hrun.
  - intros Hf. destruct (decide (c_phase c = Draining)) as [|Hp]; [done|]. by rewrite (ci_forced _ Hc _ _ Hr Hp) in Hf.
Qed.

Lemma sessionKey_inj t1 s1 t2 s2 : isValidSandboxId s1 = true → isValidSandboxId s2 = true →
  sessionKey t1 s1 = sessionKey t2 s2 → t1 = t2 ∧ s1 = s2.
Proof.
  assert (Hno : ∀ t a s, isValidSandboxId s = true → s ≠ t +:+ String ":" a).
  { intros t a s Hs ->. unfold isValidSandboxId in Hs. apply andb_true_iff in Hs as [_ Hs].
    induction t as [|x t IH]; simpl in Hs; [done|]. apply andb_true_iff in Hs as [_ Hs]. by apply IH. }
  intros V1 V2. unfold sessionKey. revert t2. induction t1 as [|x t1 IH]; intros [|y t2]; simpl.
  - by intros [= ->].
  - intros [= _ E]. by destruct (Hno t2 s2 s1 V1).
  - intros [= _ E]. by destruct (Hno t1 s1 s2 V2).
  - intros [= -> E]. destruct (IH _ E) as [-> ->]. done.
Qed.

(** One session per sandbox. Of two sessions that take requests, for valid
    sandbox ids, one is the other exactly when tenant and sandbox are the same:
    a creation never hides a live session, and no two tenants share one. *)
Theorem live_sessions_unique c rid1 r1 rid2 r2 t1 s1 t2 s2 :
  c_reachable opts c → c_residents c !! rid1 = Some r1 → c_residents c !! rid2 = Some r2 →
  r_state r1 = active → r_state r2 = active →
  r_key r1 = sessionKey t1 s1 → r_key r2 = sessionKey t2 s2 →
  isValidSandboxId s1 = true → isValidSandboxId s2 = true →
  (rid1 = rid2 ↔ t1 = t2 ∧ s1 = s2).
Proof.
  intros Hc%c_reachable_inv H1 H2 A1 A2 K1 K2 V1 V2.
  pose proof (ci_needs _ Hc _ _ H1 (or_introl A1)) as E1. pose proof (ci_needs _ Hc _ _ H2 (or_introl A2)) as E2.
  split.
  - intros <-. apply sessionKey_inj; congruence.
  - intros [<- <-]. congruence.
Qed.
End safety.

(** ** A run

    Two requests read the sandbox [box] of tenant [t], and the sandbox [box] of
    tenant [u] is idle. *)

Definition demo_opts : CatalogOptions := mkCatalogOptions 600000 1000.

Definition demo_events : list Event :=
  [EGetOrCreate "t:box"; EGetOrCreate "u:box"; ECreated "t:box" 0 "me" "now" 10 1; ECreated "u:box" 1 "you" "now" 10 1;
   EBorrow 2 shared; EBorrow 2 shared; EBegin 2 4 5; EBegin 2 5 6].

Definition demo_catalog : Catalog := default newCatalog (c_run demo_opts demo_events newCatalog).

Definition demo_resident (rid : nat) : Resident :=
  default (mkResident _ EmptyString start active 0 0 0 false EmptyString None EmptyString None ∅ false NoDrain false)
    (c_residents demo_catalog !! rid).

Lemma demo_reachable : c_reachable demo_opts demo_catalog.
Proof. apply (c_run_reachable demo_opts demo_events newCatalog); [constructor|vm_compute; reflexivity]. Qed.

Lemma requests_exclude_witness :
  get "t:box" demo_catalog = Some 2%nat ∧ r_connected (demo_resident 2) = true.
Proof.
  destruct (requests_exclude demo_opts demo_catalog 2 (demo_resident 2) 4 shared 2 (demo_resident 2) 5 shared) as (_ & Hg & Hc & _).
  - exact demo_reachable.
  - vm_compute. discriminate.
  - split; vm_compute; reflexivity.
  - split; vm_compute; reflexivity.
  - reflexivity.
  - split; [exact Hg|exact Hc].
Defined.

Lemma disconnected_sessions_idle_witness :
  r_inFlight (demo_resident 2) = borrows (r_tasks (demo_resident 2)) ∧ r_inFlight (demo_resident 2) = 2.
Proof.
  split; [|vm_compute; reflexivity].
  apply (disconnected_sessions_idle demo_opts demo_catalog 2 (demo_resident 2)).
  - exact demo_reachable.
  - vm_compute. reflexivity.
Defined.

Lemma live_sessions_unique_witness : (2%nat = 3%nat ↔ "t" = "u" ∧ "box" = "box").
Proof.
  apply (live_sessions_unique demo_opts demo_catalog 2 (demo_resident 2) 3 (demo_resident 3));
    first [exact demo_reachable | vm_compute; reflexivity].
Defined.
