(* ===== verification/Admission.v ===== *)
(** Fair admission of requests (src/src/api/worker-owner/admission.ts) and the
    worker slots behind it (src/src/api/worker-owner/pool.ts, [reserveSlot]).

    [FairAdmission] admits requests of many tenants to a bounded resource: one
    writer or several readers per key, a share per tenant, a bounded queue per
    tenant and round robin between the tenants. Its state is split into what
    admissions change ([ActivePart]) and what waiting changes ([QueuePart]). The
    resource is a parameter, the callback [tryReserve] of the constructor: the
    class [Reserver] states what the admission relies on. The ingress passes
    none ([unlimited]); the worker pool passes [reserveSlot] ([worker_slots]).

    A release closure is a [Holder]: calling it a second time, when [released]
    is set, finds no holder and does nothing. The timing metrics
    ([totalWaitMs], [waitCounts]) are left out. *)

From S2P Require Import Prelude.

(** What the admission asks of its resource. [env_change] is what happens to the
    resource outside the admission, after which its owner calls [wake]. *)
Class Reserver (R T : Type) := {
  tryReserve : option (string → bool → R → option (T * R));
  releaseResource : T → R → R;
  env_change : R → R → Prop }.

(** What it promises: [res_ok ts r] says the resource is consistent with the
    live tokens [ts]; a reservation that fails still fails after another one
    succeeded. *)
Class ReserverLaws (R T : Type) `{Reserver R T} := {
  res_ok : list T → R → Prop;
  res_ok_perm ts ts' r : ts ≡ₚ ts' → res_ok ts r → res_ok ts' r;
  res_ok_reserve f k sh ts r t r' :
    tryReserve = Some f → res_ok ts r → f k sh r = Some (t, r') → res_ok (t :: ts) r';
  res_ok_release ts t r : res_ok (t :: ts) r → res_ok ts (releaseResource t r);
  res_ok_env ts r r' : res_ok ts r → env_change r r' → res_ok ts r';
  reserve_antitone f k sh ts r k' sh' t r' :
    tryReserve = Some f → res_ok ts r → f k sh r = None → f k' sh' r = Some (t, r') → f k sh r' = None }.

Record AdmissionOptions := mkAdmissionOptions {
  capacity : Z;
  maxActivePerTenant : Z;
  maxQueued : Z;
  maxQueuedPerTenant : Z;
  maxQueuedBytes : Z;
  maxQueuedBytesPerTenant : Z }.

Record AWaiter := mkAWaiter {
  aw_id : nat;
  aw_tenant : string;
  aw_key : string;
  aw_bytes : Z;
  aw_shared : bool;
  aw_signal : bool }.

Record Holder (T : Type) := mkHolder {
  h_id : nat;
  h_tenant : string;
  h_key : string;
  h_shared : bool;
  h_resource : option T }.
Arguments mkHolder {T}. Arguments h_id {T}. Arguments h_tenant {T}. Arguments h_key {T}.
Arguments h_shared {T}. Arguments h_resource {T}.

Record ActivePart (R T : Type) := mkActive {
  activeKeys : gmap string (Z * bool);
  activeTenants : gmap string Z;
  active : Z;
  admitted : Z;
  completed : Z;
  resource : R;
  a_holders : list (Holder T) }.
Arguments mkActive {R T}. Arguments activeKeys {R T}. Arguments activeTenants {R T}.
Arguments active {R T}. Arguments admitted {R T}. Arguments completed {R T}.
Arguments resource {R T}. Arguments a_holders {R T}.

Record QueuePart := mkQueue {
  queues : list (string * list AWaiter);
  queued : Z;
  queuedBytes : Z;
  a_closed : bool;
  lastTenant : option string;
  offered : Z;
  refused : Z;
  cancelled : Z;
  timedOut : Z }.

Record FairAdmission (R T : Type) := mkAdmission { act : ActivePart R T; que : QueuePart }.
Arguments mkAdmission {R T}. Arguments act {R T}. Arguments que {R T}.

Inductive AcquireResult := AGranted | ARejected (code : string) | AQueued.

Section admission.
Context {R T : Type} `{Reserver R T} (o : AdmissionOptions).
Implicit Types (a : ActivePart R T) (q : QueuePart) (s : FairAdmission R T).

Definition newAdmission (r : R) : FairAdmission R T :=
  mkAdmission (mkActive ∅ ∅ 0 0 0 r []) (mkQueue [] 0 0 false None 0 0 0 0).

(** [reserve]: the state after it and the closure it returns, if any. *)
Definition reserve (id : nat) (tenant key : string) (shared : bool) a : option (ActivePart R T) :=
  let tenantActive := default 0 (activeTenants a !! tenant) in
  if decide (tenantActive >= maxActivePerTenant o) then None
  else
    let cur := activeKeys a !! key in
    if match cur with Some (_, sh) => negb shared || negb sh | None => false end then None
    else
      let grant (token : option T) (r : R) :=
        mkActive (<[key := (default 0 (fst <$> cur) + 1, shared)]> (activeKeys a))
          (<[tenant := tenantActive + 1]> (activeTenants a))
          (active a + 1) (admitted a + 1) (completed a) r
          (a_holders a ++ [mkHolder id tenant key shared token]) in
      match tryReserve with
      | None => if decide (active a >= capacity o) then None else Some (grant None (resource a))
      | Some f =>
          match f key shared (resource a) with
          | None => None
          | Some (t, r) => Some (grant (Some t) r)
          end
      end.

(** The body of a release closure, its [drain] apart. *)
Definition release_holder (h : Holder T) a : ActivePart R T :=
  let t := default 0 (activeTenants a !! h_tenant h) in
  mkActive
    (match activeKeys a !! h_key h with
     | Some (c, sh) => if decide (1 < c) then <[h_key h := (c - 1, sh)]> (activeKeys a) else delete (h_key h) (activeKeys a)
     | None => delete (h_key h) (activeKeys a)
     end)
    (if decide (1 < t) then <[h_tenant h := t - 1]> (activeTenants a) else delete (h_tenant h) (activeTenants a))
    (active a - 1) (admitted a) (completed a + 1)
    (match h_resource h with Some tk => releaseResource tk (resource a) | None => resource a end)
    (List.filter (λ h', negb (bool_decide (h_id h' = h_id h))) (a_holders a)).

(** The inner loop of [drain]: the first waiter of a tenant that is not behind
    a writer of the same key and whose reservation succeeds. *)
Fixpoint scan_queue (ws : list AWaiter) (waitingWriters : list string) a : option (AWaiter * ActivePart R T) :=
  match ws with
  | [] => None
  | w :: ws' =>
      if bool_decide (aw_key w ∈ waitingWriters) then scan_queue ws' waitingWriters a
      else
        match reserve (aw_id w) (aw_tenant w) (aw_key w) (aw_shared w) a with
        | Some a' => Some (w, a')
        | None => scan_queue ws' (if aw_shared w then waitingWriters else aw_key w :: waitingWriters) a
        end
  end.

(** [tenants.indexOf(x)], plus one. *)
Fixpoint index_after (x : string) (l : list string) : option nat :=
  match l with
  | [] => None
  | y :: l' => if decide (x = y) then Some 1%nat else S <$> index_after x l'
  end.

(** The tenants in the order of the offsets: those after the last served first. *)
Definition tenant_order q : list string :=
  let tenants := (queues q).*1 in
  let p := default 0%nat (lastTenant q ≫= λ t, index_after t tenants) in
  drop p tenants ++ take p tenants.

Fixpoint scan_tenants (ts : list string) q a : option (AWaiter * ActivePart R T) :=
  match ts with
  | [] => None
  | t :: ts' =>
      match scan_queue (default [] (jget t (queues q))) [] a with
      | Some r => Some r
      | None => scan_tenants ts' q a
      end
  end.

Definition pick s : option (AWaiter * ActivePart R T) := scan_tenants (tenant_order (que s)) (que s) (act s).

Definition set_queues (qs : list (string * list AWaiter)) (n bytes : Z) q : QueuePart :=
  mkQueue qs n bytes (a_closed q) (lastTenant q) (offered q) (refused q) (cancelled q) (timedOut q).

Definition set_last (t : string) q : QueuePart :=
  mkQueue (queues q) (queued q) (queuedBytes q) (a_closed q) (Some t) (offered q) (refused q) (cancelled q) (timedOut q).

Definition count_offer q : QueuePart :=
  mkQueue (queues q) (queued q) (queuedBytes q) (a_closed q) (lastTenant q) (offered q + 1) (refused q) (cancelled q) (timedOut q).
Definition count_refused q : QueuePart :=
  mkQueue (queues q) (queued q) (queuedBytes q) (a_closed q) (lastTenant q) (offered q) (refused q + 1) (cancelled q) (timedOut q).
Definition count_cancelled q : QueuePart :=
  mkQueue (queues q) (queued q) (queuedBytes q) (a_closed q) (lastTenant q) (offered q) (refused q) (cancelled q + 1) (timedOut q).
Definition count_timedOut q : QueuePart :=
  mkQueue (queues q) (queued q) (queuedBytes q) (a_closed q) (lastTenant q) (offered q) (refused q) (cancelled q) (timedOut q + 1).
Definition set_closed q : QueuePart :=
  mkQueue (queues q) (queued q) (queuedBytes q) true (lastTenant q) (offered q) (refused q) (cancelled q) (timedOut q).

Definition drop_waiter (id : nat) (ws : list AWaiter) : list AWaiter :=
  List.filter (λ w, negb (bool_decide (aw_id w = id))) ws.

(** [remove(waiter)]: [indexOf] finds the waiter by identity. *)
Definition remove (w : AWaiter) q : QueuePart :=
  match jget (aw_tenant w) (queues q) with
  | None => q
  | Some ws =>
      if existsb (λ w', bool_decide (aw_id w' = aw_id w)) ws then
        let ws' := drop_waiter (aw_id w) ws in
        set_queues (match ws' with [] => jdel (aw_tenant w) (queues q) | _ => jset (aw_tenant w) ws' (queues q) end)
          (queued q - 1) (queuedBytes q - aw_bytes w) q
      else q
  end.

(** Each round serves one waiter, so as many rounds as there are waiters do. *)
Fixpoint drain_loop (fuel : nat) s : FairAdmission R T :=
  match fuel with
  | O => s
  | S fuel' =>
      if a_closed (que s) || bool_decide (queued (que s) <= 0) then s
      else
        match pick s with
        | None => s
        | Some (w, a') => drain_loop fuel' (mkAdmission a' (remove w (set_last (aw_tenant w) (que s))))
        end
  end.

Definition waiters q : list AWaiter := mjoin ((queues q).*2).

Definition drain s : FairAdmission R T := drain_loop (S (length (waiters (que s)))) s.

Definition bytes_of (ws : list AWaiter) : Z := foldr (λ w n, aw_bytes w + n) 0 ws.

(** [acquire]; [throws] tells whether the [onQueued] callback throws. *)
Definition a_acquire (id : nat) (tenant key : string) (bytes : Z) (signal : option bool) (shared throws : bool) s0
    : AcquireResult * FairAdmission R T :=
  let s1 := mkAdmission (act s0) (count_offer (que s0)) in
  if a_closed (que s1) || default false signal
  then (ARejected "ABORTED", mkAdmission (act s1) (count_cancelled (que s1)))
  else
    let s := drain s1 in
    let queue := default [] (jget tenant (queues (que s))) in
    let direct := if existsb (λ w, bool_decide (aw_key w = key)) queue then None
                  else reserve id tenant key shared (act s) in
    match direct with
    | Some a' => (AGranted, mkAdmission a' (que s))
    | None =>
        if bool_decide (queued (que s) >= maxQueued o)
           || bool_decide (Z.of_nat (length queue) >= maxQueuedPerTenant o)
           || bool_decide (bytes > maxQueuedBytes o - queuedBytes (que s))
           || bool_decide (bytes > maxQueuedBytesPerTenant o - bytes_of queue)
        then (ARejected "EWORKER_BUSY", mkAdmission (act s) (count_refused (que s)))
        else
          let w := mkAWaiter id tenant key bytes shared (bool_decide (is_Some signal)) in
          let q := set_queues (jset tenant (queue ++ [w]) (queues (que s)))
                     (queued (que s) + 1) (queuedBytes (que s) + bytes) (que s) in
          if throws
          then (ARejected "onQueued", drain (mkAdmission (act s) (count_cancelled (remove w q))))
          else (AQueued, drain (mkAdmission (act s) q))
    end.

(** Calling a release closure. *)
Definition a_release (id : nat) s : FairAdmission R T :=
  match List.find (λ h, bool_decide (h_id h = id)) (a_holders (act s)) with
  | None => s
  | Some h => drain (mkAdmission (release_holder h (act s)) (que s))
  end.

(** The timer of a queued waiter; [remove] clears it. *)
Definition a_timeout (w : AWaiter) s : FairAdmission R T :=
  drain (mkAdmission (act s) (count_timedOut (count_refused (remove w (que s))))).

Definition a_abort (w : AWaiter) s : FairAdmission R T :=
  drain (mkAdmission (act s) (count_cancelled (remove w (que s)))).

Definition a_close s : FairAdmission R T :=
  mkAdmission (act s) (fold_left (λ q w, count_cancelled (remove w q)) (waiters (que s)) (set_closed (que s))).

Definition set_resource (r : R) a : ActivePart R T :=
  mkActive (activeKeys a) (activeTenants a) (active a) (admitted a) (completed a) r (a_holders a).

(** [wake()], after a change of the resource. *)
Definition a_wake (r : R) s : FairAdmission R T := drain (mkAdmission (set_resource r (act s)) (que s)).

Definition ids s : list nat := map h_id (a_holders (act s)) ++ map aw_id (waiters (que s)).

Inductive a_step : FairAdmission R T → FairAdmission R T → Prop :=
| as_acquire s id tenant key bytes signal shared throws :
    id ∉ ids s → 0 <= bytes → a_step s (a_acquire id tenant key bytes signal shared throws s).2
| as_release s id : a_step s (a_release id s)
| as_timeout s w : w ∈ waiters (que s) → a_step s (a_timeout w s)
| as_abort s w : w ∈ waiters (que s) → aw_signal w = true → a_step s (a_abort w s)
| as_close s : a_step s (a_close s)
| as_wake s r : env_change (resource (act s)) r → a_step s (a_wake r s).

Definition a_reachable (r : R) : FairAdmission R T → Prop := rtc a_step (newAdmission r).
End admission.

(** No [tryReserve]: only [capacity] bounds the admissions. *)
#[export] Instance unlimited : Reserver unit unit :=
  {| tryReserve := None; releaseResource := λ _ r, r; env_change := λ _ _, True |}.

#[export] Instance unlimited_laws : ReserverLaws unit unit.
Proof. by refine {| res_ok := λ _ _, True |}. Defined.
