(* ===== verification/AdmissionSafety.v ===== *)
(** What fair admission guarantees, for any resource behind it: the shares and
    queue bounds hold, every request is accounted for, nobody who could run is
    left waiting, and the tenants take turns. *)

From S2P Require Import Prelude Admission.

(** ** Queues as one list of waiters *)

Definition flat (qs : list (string * list AWaiter)) : list AWaiter := mjoin (qs.*2).

Lemma flat_jdel t ws qs : jget t qs = Some ws → flat qs ≡ₚ ws ++ flat (jdel t qs).
Proof.
  unfold flat. induction qs as [|[k v] qs IH]; simpl; [done|]. destruct (decide (t = k)).
  - intros [= ->]. done.
  - intros E. simpl. rewrite (IH E). apply Permutation_app_swap_app.
Qed.

Lemma flat_jset t ws qs : flat (jset t ws qs) ≡ₚ ws ++ flat (jdel t qs).
Proof.
  unfold flat. induction qs as [|[k v] qs IH]; simpl; [done|]. destruct (decide (t = k)); simpl; [done|].
  rewrite IH. apply Permutation_app_swap_app.
Qed.

Lemma flat_absent t (qs : list (string * list AWaiter)) : jget t qs = None → jdel t qs = qs.
Proof.
  induction qs as [|[k v] qs IH]; simpl; [done|]. destruct (decide (t = k)); [done|]. intros E. by rewrite IH.
Qed.

Lemma flat_in w qs : w ∈ flat qs ↔ ∃ t ws, (t, ws) ∈ qs ∧ w ∈ ws.
Proof.
  unfold flat. rewrite list_elem_of_join. setoid_rewrite list_elem_of_fmap. split.
  - intros (ws & Hw & [t ws'] & -> & Hin). eauto.
  - intros (t & ws & Hin & Hw). exists ws. split; [done|]. by exists (t, ws).
Qed.

Lemma bytes_of_perm ws ws' : ws ≡ₚ ws' → bytes_of ws = bytes_of ws'.
Proof. induction 1; simpl in *; lia. Qed.

Lemma bytes_of_app ws ws' : bytes_of (ws ++ ws') = bytes_of ws + bytes_of ws'.
Proof. induction ws as [|w ws IH]; simpl; lia. Qed.

Lemma bytes_of_nonneg ws : Forall (λ w, 0 <= aw_bytes w) ws → 0 <= bytes_of ws.
Proof. induction 1; simpl; lia. Qed.

Section safety.
Context {R T : Type} `{Reserver R T} (o : AdmissionOptions).
Implicit Types (a : ActivePart R T) (q : QueuePart) (s : FairAdmission R T).

(** ** Admissions *)

Definition of_key (k : string) a : list (Holder T) := List.filter (λ h, bool_decide (h_key h = k)) (a_holders a).
Definition of_tenant (t : string) a : list (Holder T) := List.filter (λ h, bool_decide (h_tenant h = t)) (a_holders a).

(** The entry of a key counts its holders: all readers, or one writer. *)
Definition key_ok (e : option (Z * bool)) (hs : list (Holder T)) : Prop :=
  match e with
  | None => hs = []
  | Some (c, sh) => c = Z.of_nat (length hs) ∧ hs ≠ [] ∧ Forall (λ h, h_shared h = sh) hs ∧ (sh = false → c = 1)
  end.

Record act_inv a : Prop := {
  ai_active : active a = Z.of_nat (length (a_holders a));
  ai_conserve : admitted a = completed a + active a;
  ai_ids : NoDup (map h_id (a_holders a));
  ai_tenant t : default 0 (activeTenants a !! t) = Z.of_nat (length (of_tenant t a));
  ai_share t : Z.of_nat (length (of_tenant t a)) <= Z.max 0 (maxActivePerTenant o);
  ai_key k : key_ok (activeKeys a !! k) (of_key k a);
  ai_capacity : tryReserve = None → active a <= Z.max 0 (capacity o) }.

(** The reservation of the resource behind an admission. *)
Definition granted (k : string) (sh : bool) a (tk : option T) (r : R) : Prop :=
  match tryReserve with
  | None => tk = None ∧ r = resource a
  | Some f => ∃ t, tk = Some t ∧ f k sh (resource a) = Some (t, r)
  end.

Lemma reserve_facts id t k sh a a' : reserve o id t k sh a = Some a' →
  default 0 (activeTenants a !! t) < maxActivePerTenant o ∧
  (∀ c sh', activeKeys a !! k = Some (c, sh') → sh = true ∧ sh' = true) ∧
  (tryReserve = None → active a < capacity o) ∧
  ∃ tk r, granted k sh a tk r ∧ a' = mkActive (<[k := (default 0 (fst <$> activeKeys a !! k) + 1, sh)]> (activeKeys a))
    (<[t := default 0 (activeTenants a !! t) + 1]> (activeTenants a))
    (active a + 1) (admitted a + 1) (completed a) r (a_holders a ++ [mkHolder id t k sh tk]).
Proof.
  unfold reserve. case_decide as Ht; [done|].
  destruct (activeKeys a !! k) as [[c sh']|] eqn:Ek.
  - destruct sh; [|done]. destruct sh'; [|done]. simpl. intros Hr.
    assert (tryReserve = None → active a < capacity o) as Hc.
    { intros E. rewrite E in Hr. case_decide; [done|lia]. }
    split; [lia|]. split; [by intros c' sh'' [= <- <-]|]. split; [done|].
    unfold granted.
    destruct tryReserve as [f|]; [destruct (f k true (resource a)) as [[tk r]|] eqn:Ef; [|done]|case_decide; [done|]];
      injection Hr as <-; eauto 10.
  - simpl. intros Hr.
    assert (tryReserve = None → active a < capacity o) as Hc.
    { intros E. rewrite E in Hr. case_decide; [done|lia]. }
    split; [lia|]. split; [done|]. split; [done|].
    unfold granted.
    destruct tryReserve as [f|]; [destruct (f k sh (resource a)) as [[tk r]|] eqn:Ef; [|done]|case_decide; [done|]];
      injection Hr as <-; eauto 10.
Qed.

Lemma key_ok_admit e hs h : key_ok e hs →
  (∀ c sh', e = Some (c, sh') → h_shared h = true ∧ sh' = true) →
  key_ok (Some (default 0 (fst <$> e) + 1, h_shared h)) (hs ++ [h]).
Proof.
  intros Hk Hsh. destruct e as [[c sh']|]; simpl in *.
  - destruct Hk as (-> & Hne & Hall & _). destruct (Hsh _ _ eq_refl) as [Eh ->]. rewrite Eh.
    rewrite length_app, Forall_app. simpl. split; [lia|]. split; [by intros [? _]%app_nil|].
    split; [|done]. split; [done|]. by constructor.
  - rewrite Hk. simpl. repeat split; [done|]. by constructor.
Qed.

Lemma reserve_inv id t k sh a a' : act_inv a → id ∉ map h_id (a_holders a) →
  reserve o id t k sh a = Some a' → act_inv a'.
Proof.
  intros [Ha Hc Hi Ht Hs Hk Hcap] Hid (Hlt & Hsh & Hca & tk & r & _ & ->)%reserve_facts.
  split; simpl.
  - rewrite Ha, length_app. simpl. lia.
  - lia.
  - rewrite map_app. apply NoDup_app. split; [done|]. split; [|apply NoDup_singleton].
    intros x Hx ->%list_elem_of_singleton. done.
  - intros t'. unfold of_tenant. simpl. rewrite List.filter_app, length_app. simpl. rewrite lookup_insert.
    destruct (decide (t = t')) as [<-|Hne].
    + rewrite bool_decide_true by done. simpl. rewrite Ht. unfold of_tenant. lia.
    + rewrite bool_decide_false by done. simpl. rewrite Ht. unfold of_tenant. lia.
  - intros t'. unfold of_tenant. simpl. rewrite List.filter_app, length_app. simpl.
    specialize (Hs t'). unfold of_tenant in Hs. rewrite Ht in Hlt. unfold of_tenant in Hlt.
    case_bool_decide as E; simpl; [subst t'|]; lia.
  - intros k'. unfold of_key. simpl. rewrite List.filter_app. simpl. rewrite lookup_insert.
    destruct (decide (k = k')) as [<-|Hne].
    + rewrite bool_decide_true by done.
      apply (key_ok_admit _ _ (mkHolder id t k sh tk) (Hk k)). intros c sh' E. simpl. by eapply Hsh.
    + rewrite bool_decide_false by done. rewrite app_nil_r. apply Hk.
  - intros E. specialize (Hca E). lia.
Qed.

Lemma key_ok_perm e hs ks : hs ≡ₚ ks → key_ok e hs → key_ok e ks.
Proof.
  intros Hp. destruct e as [[c sh]|]; simpl.
  - intros (-> & Hne & Hall & Hex). rewrite (Permutation_length Hp) in *. split; [done|].
    split; [intros ->; by apply Permutation_nil_r in Hp|]. split; [|done]. by rewrite <- Hp.
  - intros ->. by apply Permutation_nil_l in Hp.
Qed.

(** The holders a predicate selects, before and after [h] leaves. *)
Lemma filter_leave (f : Holder T → bool) h a : NoDup (map h_id (a_holders a)) → h ∈ a_holders a →
  List.filter f (a_holders a) ≡ₚ (if f h then [h] else []) ++ List.filter f (a_holders (release_holder h a)).
Proof.
  intros Hi Hin. rewrite (filter_perm _ _ _ (drop_by_id h_id h _ Hi Hin)). simpl. by destruct (f h).
Qed.

Lemma key_ok_leave c sh h hs : key_ok (Some (c, sh)) (h :: hs) →
  key_ok (if decide (1 < c) then Some (c - 1, sh) else None) hs.
Proof.
  intros (-> & _ & Hall & Hex). apply Forall_cons in Hall as [_ Hall]. simpl in *. case_decide as E; simpl.
  - split; [lia|]. split; [by intros ->|]. split; [done|]. intros Hf. specialize (Hex Hf). lia.
  - destruct hs; [done|]. simpl in E. lia.
Qed.

Lemma release_inv h a : act_inv a → h ∈ a_holders a → act_inv (release_holder h a).
Proof.
  intros [Ha Hc Hi Ht Hs Hk Hcap] Hin. pose proof (drop_by_id h_id h _ Hi Hin) as Hp.
  pose proof (Permutation_length Hp) as Hlen. simpl in Hlen.
  assert (HT : ∀ t, length (of_tenant t a) = ((if decide (h_tenant h = t) then 1 else 0) +
                 length (of_tenant t (release_holder h a)))%nat).
  { intros t. unfold of_tenant at 1. rewrite (filter_leave _ h a Hi Hin), length_app.
    case_bool_decide; case_decide; done. }
  split.
  - unfold release_holder. simpl. lia.
  - simpl. lia.
  - simpl. rewrite (Permutation_map h_id Hp) in Hi. simpl in Hi. by apply NoDup_cons in Hi as [_ Hi].
  - intros t. specialize (HT t). specialize (Ht t) as Ht'. simpl.
    destruct (decide (h_tenant h = t)) as [E|E].
    + subst t. rewrite Ht'. case_decide; [rewrite lookup_insert_eq|rewrite lookup_delete_eq]; simpl; lia.
    + case_decide; [rewrite lookup_insert_ne by done|rewrite lookup_delete_ne by done]; lia.
  - intros t. specialize (HT t). specialize (Hs t). lia.
  - intros k. specialize (Hk k) as Hk'. unfold of_key in Hk'.
    apply (key_ok_perm _ _ _ (filter_leave _ h a Hi Hin)) in Hk'. fold (of_key k (release_holder h a)) in Hk'. simpl.
    cbv beta in Hk'. destruct (bool_decide_reflect (h_key h = k)) as [E|E]; simpl in Hk'.
    + subst k. destruct (activeKeys a !! h_key h) as [[c sh]|] eqn:Ek; [|done].
      apply key_ok_leave in Hk'. case_decide; [by rewrite lookup_insert_eq|by rewrite lookup_delete_eq].
    + destruct (activeKeys a !! h_key h) as [[c sh]|] eqn:Ek; [|by rewrite lookup_delete_ne].
      case_decide; [by rewrite lookup_insert_ne|by rewrite lookup_delete_ne].
  - intros E. specialize (Hcap E). simpl. lia.
Qed.

Definition tokens a : list T := omap h_resource (a_holders a).

Context {L : ReserverLaws R T}.

Lemma reserve_antitone_adm id t k sh id' t' k' sh' a a' :
  act_inv a → res_ok (tokens a) (resource a) → reserve o id' t' k' sh' a = Some a' → reserve o id t k sh a = None → reserve o id t k sh a' = None.
Proof.
  intros Hi Hok Hr Hn.
  destruct (reserve_facts _ _ _ _ _ _ Hr) as (Hlt & Hsh & Hca & tk & r & Hg & ->).
  assert (Hres : ∀ f, tryReserve = Some f → ∃ tk, f k' sh' (resource a) = Some (tk, r)).
  { intros f E. unfold granted in Hg. rewrite E in Hg. destruct Hg as (t0 & -> & Hf). eauto. }
  clear Hg.
  unfold reserve in Hn |- *. simpl in *. rewrite !lookup_insert.
  assert (default 0 (activeTenants a !! t) >= maxActivePerTenant o →
          default 0 (if decide (t' = t) then Some (default 0 (activeTenants a !! t') + 1) else activeTenants a !! t)
            >= maxActivePerTenant o) as HT.
  { destruct (decide (t' = t)) as [->|]; simpl; [|done]. rewrite (ai_tenant _ Hi) in *. lia. }
  destruct (decide (default 0 (activeTenants a !! t) >= maxActivePerTenant o)) as [E1|E1];
    [by rewrite decide_True by (by apply HT)|].
  match goal with |- (if ?d then _ else _) = _ => destruct d as [E2|E2]; [done|] end.
  destruct (decide (k' = k)) as [->|Hk].
  - destruct sh; [|by destruct sh']. destruct sh'; [|done]. simpl.
    destruct (activeKeys a !! k) as [[c shc]|] eqn:Ek; simpl in *.
    + destruct (Hsh _ _ eq_refl) as [_ ->]. simpl in Hn.
      destruct tryReserve as [f|] eqn:Ef.
      * destruct (Hres f eq_refl) as (tk' & Hf). rewrite Hf in Hn. done.
      * specialize (Hca eq_refl). rewrite decide_False in Hn by lia. done.
    + destruct tryReserve as [f|] eqn:Ef.
      * destruct (Hres f eq_refl) as (tk' & Hf). rewrite Hf in Hn. done.
      * specialize (Hca eq_refl). rewrite decide_False in Hn by lia. done.
  - destruct (activeKeys a !! k) as [[c shc]|] eqn:Ek; simpl in *.
    all: match goal with |- (if ?b then _ else _) = _ => destruct b; [done|] | _ => idtac end.
    all: destruct tryReserve as [f|] eqn:Ef.
    all: try (destruct (Hres f eq_refl) as (tk' & Hf);
      destruct (f k sh (resource a)) as [[? ?]|] eqn:Hfn; [done|];
      by rewrite (reserve_antitone f k sh _ (resource a) k' sh' tk' r Ef Hok Hfn Hf)).
    all: specialize (Hca eq_refl); rewrite decide_False in Hn by lia; done.
Qed.

(** ** Waiting *)

Definition entry_ok (t : string) (ws : list AWaiter) : Prop :=
  ws ≠ [] ∧ Forall (λ w, aw_tenant w = t ∧ 0 <= aw_bytes w) ws ∧
  Z.of_nat (length ws) <= maxQueuedPerTenant o ∧ bytes_of ws <= maxQueuedBytesPerTenant o.

Record que_inv q : Prop := {
  qi_wf : jwf (queues q);
  qi_entry t ws : (t, ws) ∈ queues q → entry_ok t ws;
  qi_queued : queued q = Z.of_nat (length (waiters q));
  qi_bytes : queuedBytes q = bytes_of (waiters q);
  qi_ids : NoDup (map aw_id (waiters q));
  qi_max : queued q <= Z.max 0 (maxQueued o);
  qi_max_bytes : queuedBytes q <= Z.max 0 (maxQueuedBytes o) }.

(** The counters do not matter. *)
Lemma que_inv_counters q q' : queues q' = queues q → queued q' = queued q → queuedBytes q' = queuedBytes q →
  que_inv q → que_inv q'.
Proof. intros E1 E2 E3 [? ? ? ? ? ? ?]. split; unfold waiters in *; rewrite ?E1, ?E2, ?E3; done. Qed.

Lemma waiter_bytes q w : que_inv q → w ∈ waiters q → 0 <= aw_bytes w ∧ aw_tenant w ∈ (queues q).*1.
Proof.
  intros Hq (t & ws & Hin & Hw)%flat_in. destruct (qi_entry _ Hq _ _ Hin) as (_ & Hall & _).
  rewrite Forall_forall in Hall. destruct (Hall w Hw) as [<- ?]. split; [done|].
  apply list_elem_of_fmap. by exists (aw_tenant w, ws).
Qed.

Lemma entry_ok_sub t ws ws' w : entry_ok t ws → ws ≡ₚ w :: ws' → ws' ≠ [] → entry_ok t ws'.
Proof.
  intros (_ & Hall & Hl & Hb) Hp Hne. rewrite Hp in Hall. apply Forall_cons in Hall as [[_ Hw] Hall].
  rewrite (Permutation_length Hp) in Hl. rewrite (bytes_of_perm _ _ Hp) in Hb. simpl in Hl, Hb.
  split; [done|]. split; [done|]. lia.
Qed.

Lemma remove_spec q w : que_inv q → w ∈ waiters q →
  que_inv (remove w q) ∧ waiters q ≡ₚ w :: waiters (remove w q).
Proof.
  intros Hq Hin. pose proof Hin as (t & ws & Hqs & Hw)%flat_in.
  pose proof (qi_entry _ Hq _ _ Hqs) as Hok. pose proof Hok as (_ & Hall & _).
  assert (aw_tenant w = t) as Et by (rewrite Forall_forall in Hall; by apply (Hall w)).
  pose proof (waiter_bytes q w Hq Hin) as [Hwb _].
  assert (jget t (queues q) = Some ws) as Eg by (by apply jget_Some, Hqs; apply (qi_wf _ Hq)).
  assert (Hids : NoDup (map aw_id ws)).
  { pose proof (qi_ids _ Hq) as Hi. unfold waiters in Hi. fold (flat (queues q)) in Hi.
    rewrite (flat_jdel _ _ _ Eg), map_app in Hi. by apply NoDup_app in Hi as [Hi _]. }
  pose proof (drop_by_id aw_id w ws Hids Hw) as Hp. fold (drop_waiter (aw_id w) ws) in Hp.
  unfold remove. rewrite Et, Eg.
  rewrite (proj2 (existsb_exists _ ws)); [|exists w; split; [by apply list_elem_of_In|by apply bool_decide_eq_true]].
  set (ws' := drop_waiter (aw_id w) ws) in *.
  set (qs := match ws' with [] => jdel t (queues q) | _ => jset t ws' (queues q) end).
  assert (Hfl : flat qs ≡ₚ ws' ++ flat (jdel t (queues q))).
  { unfold qs. destruct ws'; [done|]. apply flat_jset. }
  assert (Hperm : waiters q ≡ₚ w :: flat qs).
  { unfold waiters. fold (flat (queues q)). by rewrite (flat_jdel _ _ _ Eg), Hfl, Hp at 1. }
  split; [|done]. destruct Hq as [Hwf Hent Hqd Hby Hi Hmx Hmb].
  pose proof (Permutation_length Hperm) as Hlen. pose proof (bytes_of_perm _ _ Hperm) as Hbb. simpl in Hlen, Hbb.
  split; simpl; unfold waiters; simpl; fold (flat qs).
  - unfold qs. destruct ws'; [by apply jdel_wf|by apply jset_wf].
  - intros t' ws'' Hin'. unfold qs in Hin'.
    assert (jget t' qs = Some ws'') as Eg'.
    { apply jget_Some; [unfold qs; destruct ws'; [by apply jdel_wf|by apply jset_wf]|done]. }
    unfold qs in Eg'. destruct (decide (t = t')) as [<-|Hne].
    + destruct ws' as [|w0 ws0] eqn:Ew; [by rewrite jget_jdel_eq in Eg'|].
      rewrite jget_jset_eq in Eg'. injection Eg' as <-. by eapply entry_ok_sub.
    + apply Hent. apply jget_Some; [done|].
      destruct ws'; [by rewrite jget_jdel_ne in Eg'|by rewrite jget_jset_ne in Eg'].
  - lia.
  - lia.
  - rewrite (Permutation_map aw_id Hperm) in Hi. simpl in Hi. by apply NoDup_cons in Hi as [_ Hi].
  - lia.
  - lia.
Qed.

Lemma remove_counters w q :
  a_closed (remove w q) = a_closed q ∧ offered (remove w q) = offered q ∧ refused (remove w q) = refused q ∧
  cancelled (remove w q) = cancelled q ∧ timedOut (remove w q) = timedOut q ∧ lastTenant (remove w q) = lastTenant q.
Proof. unfold remove. destruct (jget _ _); [|done]. by destruct (existsb _ _). Qed.

Lemma enqueue_inv q w :
  que_inv q → 0 <= aw_bytes w → aw_id w ∉ map aw_id (waiters q) →
  let ws := default [] (jget (aw_tenant w) (queues q)) in
  queued q < maxQueued o → Z.of_nat (length ws) < maxQueuedPerTenant o →
  queuedBytes q + aw_bytes w <= maxQueuedBytes o → bytes_of ws + aw_bytes w <= maxQueuedBytesPerTenant o →
  let q' := set_queues (jset (aw_tenant w) (ws ++ [w]) (queues q)) (queued q + 1) (queuedBytes q + aw_bytes w) q in
  que_inv q' ∧ waiters q' ≡ₚ w :: waiters q.
Proof.
  intros Hq Hb Hid ws Hm1 Hm2 Hm3 Hm4 q'.
  assert (Hp : waiters q' ≡ₚ w :: waiters q).
  { unfold waiters. simpl. fold (flat (queues q)). fold (flat (jset (aw_tenant w) (ws ++ [w]) (queues q))).
    rewrite flat_jset, (Permutation_app_comm ws [w]). simpl. f_equiv.
    unfold ws. destruct (jget _ _) as [ws0|] eqn:E; simpl; [by rewrite <- flat_jdel|by rewrite flat_absent]. }
  split; [|done]. destruct Hq as [Hwf Hent Hqd Hby Hi Hmx Hmb].
  pose proof (Permutation_length Hp) as Hlen. pose proof (bytes_of_perm _ _ Hp) as Hbb. simpl in Hlen, Hbb.
  split; [by apply jset_wf| |simpl; lia|simpl; lia| |simpl; lia|simpl; lia].
  - intros t' ws' Hin. apply jget_Some in Hin; [|by apply jset_wf]. simpl in Hin.
    destruct (decide (aw_tenant w = t')) as [<-|Hne].
    + rewrite jget_jset_eq in Hin. injection Hin as <-. split; [by intros [_ ?]%app_nil|].
      rewrite Forall_app, length_app, bytes_of_app. simpl. split; [split|lia].
      * unfold ws. destruct (jget _ _) as [ws0|] eqn:E; [|by constructor].
        apply jget_Some in E; [|done]. by destruct (Hent _ _ E) as (_ & ? & _).
      * by constructor.
    + rewrite jget_jset_ne in Hin by done. apply Hent. by apply jget_Some.
  - rewrite (Permutation_map aw_id Hp). simpl. by constructor.
Qed.

(** ** Choosing the next waiter *)

Lemma scan_queue_spec ws wr a w a' : scan_queue o ws wr a = Some (w, a') →
  ∃ l1 l2, ws = l1 ++ w :: l2 ∧ reserve o (aw_id w) (aw_tenant w) (aw_key w) (aw_shared w) a = Some a' ∧
    aw_key w ∉ wr ∧ ∀ v, v ∈ l1 → aw_shared v = false → aw_key v ≠ aw_key w.
Proof.
  revert wr. induction ws as [|v ws IH]; intros wr; simpl; [done|].
  case_bool_decide as Hv.
  - intros Hsc. destruct (IH _ Hsc) as (l1 & l2 & -> & Hr & Hnw & Hall). exists (v :: l1), l2. split; [done|]. split; [done|]. split; [done|].
    intros v' [->|Hv']%elem_of_cons; [|by apply Hall]. intros _ E. by rewrite E in Hv.
  - destruct (reserve o (aw_id v) (aw_tenant v) (aw_key v) (aw_shared v) a) as [a1|] eqn:Er.
    + intros [= <- <-]. exists [], ws. split; [done|]. split; [done|]. split; [done|]. by intros v' ?%elem_of_nil.
    + intros Hsc. destruct (IH _ Hsc) as (l1 & l2 & -> & Hr & Hnw & Hall). exists (v :: l1), l2. split; [done|]. split; [done|].
      destruct (aw_shared v) eqn:Es.
      * split; [done|]. intros v' [->|Hv']%elem_of_cons; [congruence|by apply Hall].
      * apply not_elem_of_cons in Hnw as [Hk Hnw]. split; [done|].
        intros v' [->|Hv']%elem_of_cons; [congruence|by apply Hall].
Qed.

Lemma tenant_order_perm q : tenant_order q ≡ₚ (queues q).*1.
Proof.
  unfold tenant_order. set (p := default _ _). rewrite Permutation_app_comm. by rewrite take_drop.
Qed.

Lemma scan_tenants_spec ts q a w a' : scan_tenants o ts q a = Some (w, a') →
  ∃ l1 t l2, ts = l1 ++ t :: l2 ∧ scan_queue o (default [] (jget t (queues q))) [] a = Some (w, a') ∧
    ∀ u, u ∈ l1 → scan_queue o (default [] (jget u (queues q))) [] a = None.
Proof.
  induction ts as [|t ts IH]; simpl; [done|]. destruct (scan_queue _ _ _ _) as [r|] eqn:E.
  - intros [= ->]. exists [], t, ts. split; [done|]. split; [done|]. by intros u ?%elem_of_nil.
  - intros Hsc. destruct (IH Hsc) as (l1 & u & l2 & -> & Hs & Hall). exists (t :: l1), u, l2. split; [done|]. split; [done|].
    by intros v [->|Hv]%elem_of_cons; [|apply Hall].
Qed.

Lemma pick_spec s w a' : que_inv (que s) → pick o s = Some (w, a') →
  w ∈ waiters (que s) ∧ reserve o (aw_id w) (aw_tenant w) (aw_key w) (aw_shared w) (act s) = Some a'.
Proof.
  intros Hq (l1 & t & l2 & Ht & Hs & _)%scan_tenants_spec.
  destruct (jget t (queues (que s))) as [ws|] eqn:E; [|done]. simpl in Hs.
  destruct (scan_queue_spec _ _ _ _ _ Hs) as (k1 & k2 & -> & Hr & _). split; [|done].
  apply flat_in. exists t, (k1 ++ w :: k2). split; [by apply jget_elem|].
  apply elem_of_app. right. apply list_elem_of_here.
Qed.

(** ** Draining the queues *)

Record base_inv s : Prop := {
  bi_act : act_inv (act s);
  bi_que : que_inv (que s);
  bi_res : res_ok (tokens (act s)) (resource (act s));
  bi_ids : NoDup (ids s) }.

(** Every offer is admitted, refused, cancelled or waiting; [n] more are under way. *)
Definition accounted (n : Z) s : Prop :=
  offered (que s) = admitted (act s) + refused (que s) + cancelled (que s) + queued (que s) + n.

(** Nobody who waits could be admitted. *)
Definition quiet s : Prop := a_closed (que s) = true ∨ pick o s = None.

Lemma ids_fresh s id : id ∉ ids s → id ∉ map h_id (a_holders (act s)) ∧ id ∉ map aw_id (waiters (que s)).
Proof. unfold ids. rewrite not_elem_of_app. done. Qed.

Lemma ids_waiter s w : base_inv s → w ∈ waiters (que s) → aw_id w ∉ map h_id (a_holders (act s)).
Proof.
  intros [_ _ _ Hnd] Hw Hin. unfold ids in Hnd. apply NoDup_app in Hnd as (_ & Hd & _).
  apply (Hd _ Hin). apply list_elem_of_In, in_map, list_elem_of_In, Hw.
Qed.

Lemma reserve_ids id t k sh a a' : reserve o id t k sh a = Some a' →
  map h_id (a_holders a') = map h_id (a_holders a) ++ [id] ∧ admitted a' = admitted a + 1.
Proof. intros (_ & _ & _ & tk & r & _ & ->)%reserve_facts. simpl. by rewrite map_app. Qed.

Lemma reserve_res id t k sh a a' : res_ok (tokens a) (resource a) → reserve o id t k sh a = Some a' →
  res_ok (tokens a') (resource a').
Proof.
  intros Hok (_ & _ & _ & tk & r & Hg & ->)%reserve_facts. unfold tokens. simpl. rewrite omap_app. simpl.
  unfold granted in Hg. destruct tryReserve as [f|] eqn:Ef.
  - destruct Hg as (t0 & -> & Hf). simpl. eapply res_ok_perm; [apply Permutation_cons_append|].
    by eapply res_ok_reserve.
  - destruct Hg as [-> ->]. simpl. by rewrite app_nil_r.
Qed.

Lemma release_res h a : NoDup (map h_id (a_holders a)) → h ∈ a_holders a →
  res_ok (tokens a) (resource a) → res_ok (tokens (release_holder h a)) (resource (release_holder h a)).
Proof.
  intros Hi Hin Hok. unfold tokens in *.
  eapply (res_ok_perm _ (omap h_resource (h :: _))) in Hok;
    [|apply omap_Permutation, (drop_by_id h_id h _ Hi Hin)]. simpl in *.
  destruct (h_resource h) as [tk|]; [by apply res_ok_release|done].
Qed.

Definition serve (w : AWaiter) (a' : ActivePart R T) s : FairAdmission R T :=
  mkAdmission a' (remove w (set_last (aw_tenant w) (que s))).

Lemma serve_spec s w a' n : base_inv s → accounted n s → pick o s = Some (w, a') →
  base_inv (serve w a' s) ∧ accounted n (serve w a' s) ∧ ids (serve w a' s) ≡ₚ ids s ∧
  length (waiters (que s)) = S (length (waiters (que (serve w a' s)))) ∧
  a_closed (que (serve w a' s)) = a_closed (que s).
Proof.
  intros Hb Hacc Hp. pose proof Hb as [Ha Hq Hok Hi].
  destruct (pick_spec s w a' Hq Hp) as [Hw Hr].
  set (q1 := set_last (aw_tenant w) (que s)).
  assert (Hq1 : que_inv q1) by (by apply (que_inv_counters (que s))).
  destruct (remove_spec q1 w Hq1 Hw) as [Hq2 Hperm]. change (waiters q1) with (waiters (que s)) in Hperm.
  destruct (reserve_ids _ _ _ _ _ _ Hr) as [Hids Hadm].
  destruct (remove_counters w q1) as (Hcl & Hof & Hre & Hca & _).
  assert (Hip : ids (serve w a' s) ≡ₚ ids s).
  { unfold ids, serve. simpl. fold q1. rewrite Hids, <- (assoc_L (++)). f_equiv.
    rewrite (Permutation_map aw_id Hperm). done. }
  split; [split|split; [|split; [done|split]]].
  - simpl. eapply reserve_inv; [done| |done]. by apply ids_waiter.
  - done.
  - simpl. eapply reserve_res; eauto.
  - by rewrite Hip.
  - unfold accounted in *. simpl. fold q1. rewrite Hof, Hre, Hca, Hadm.
    rewrite (qi_queued _ Hq2). rewrite (qi_queued _ Hq), (Permutation_length Hperm) in Hacc. simpl in *. lia.
  - simpl. fold q1. by rewrite (Permutation_length Hperm).
  - simpl. fold q1. by rewrite Hcl.
Qed.

Lemma drain_loop_spec fuel s n : (length (waiters (que s)) < fuel)%nat → base_inv s → accounted n s →
  base_inv (drain_loop o fuel s) ∧ accounted n (drain_loop o fuel s) ∧ ids (drain_loop o fuel s) ≡ₚ ids s ∧
  quiet (drain_loop o fuel s) ∧ a_closed (que (drain_loop o fuel s)) = a_closed (que s).
Proof.
  revert s. induction fuel as [|fuel IH]; intros s Hf Hb Hacc; [lia|]. simpl.
  destruct (a_closed (que s)) eqn:Ec; simpl; [by refine (conj Hb (conj Hacc (conj _ (conj (or_introl Ec) _))))|].
  case_bool_decide as Eq.
  { refine (conj Hb (conj Hacc (conj _ (conj (or_intror _) _)))); [done| |done]. destruct (pick o s) as [[w a']|] eqn:Ep; [|done].
    destruct (pick_spec s w a' (bi_que _ Hb) Ep) as [Hw _].
    rewrite (qi_queued _ (bi_que _ Hb)) in Eq. destruct (waiters (que s)); [by apply elem_of_nil in Hw|simpl in Eq; lia]. }
  destruct (pick o s) as [[w a']|] eqn:Ep; [|by refine (conj Hb (conj Hacc (conj _ (conj (or_intror Ep) _))))].
  destruct (serve_spec s w a' n Hb Hacc Ep) as (Hb' & Hacc' & Hip & Hlen & Hcl).
  fold (serve w a' s).
  destruct (IH (serve w a' s) ltac:(lia) Hb' Hacc') as (? & ? & Hip' & ? & Hcl').
  split; [done|]. split; [done|]. split; [by rewrite Hip'|]. split; [done|]. by rewrite Hcl', Hcl.
Qed.

Lemma drain_spec s n : base_inv s → accounted n s →
  base_inv (drain o s) ∧ accounted n (drain o s) ∧ ids (drain o s) ≡ₚ ids s ∧ quiet (drain o s) ∧
  a_closed (que (drain o s)) = a_closed (que s).
Proof. apply drain_loop_spec. lia. Qed.

Lemma base_inv_counters s q : queues q = queues (que s) → queued q = queued (que s) →
  queuedBytes q = queuedBytes (que s) → base_inv s → base_inv (mkAdmission (act s) q).
Proof.
  intros E1 E2 E3 [Ha Hq Hok Hi]. split; [done|by apply (que_inv_counters (que s))|done|].
  unfold ids, waiters in *. simpl. by rewrite E1.
Qed.

Lemma quiet_counters s q : queues q = queues (que s) → lastTenant q = lastTenant (que s) →
  a_closed q = a_closed (que s) → quiet s → quiet (mkAdmission (act s) q).
Proof.
  intros E1 E2 E3 [Hc|Hp]; [left; simpl; congruence|]. right. revert Hp. unfold pick. simpl.
  unfold tenant_order. rewrite E1, E2. generalize (drop (default 0%nat (lastTenant (que s) ≫= λ t, index_after t (queues (que s)).*1)) (queues (que s)).*1 ++ take (default 0%nat (lastTenant (que s) ≫= λ t, index_after t (queues (que s)).*1)) (queues (que s)).*1).
  intros ts. induction ts as [|t ts IH]; simpl; [done|]. rewrite E1. destruct (scan_queue _ _ _ _); [done|apply IH].
Qed.

Lemma scan_queue_antitone ws wr id t k sh a a' :
  act_inv a → res_ok (tokens a) (resource a) → reserve o id t k sh a = Some a' → scan_queue o ws wr a = None → scan_queue o ws wr a' = None.
Proof.
  intros Ha Hok Hr. revert wr. induction ws as [|w ws IH]; intros wr; simpl; [done|].
  case_bool_decide; [apply IH|].
  destruct (reserve o (aw_id w) (aw_tenant w) (aw_key w) (aw_shared w) a) as [a1|] eqn:E; [done|].
  rewrite (reserve_antitone_adm _ _ _ _ _ _ _ _ _ _ Ha Hok Hr E). apply IH.
Qed.

Lemma quiet_reserve s id t k sh a' :
  base_inv s → quiet s → reserve o id t k sh (act s) = Some a' → quiet (mkAdmission a' (que s)).
Proof.
  intros [Ha _ Hok _] [Hc|Hp] Hr; [by left|right]. revert Hp. unfold pick. simpl.
  generalize (tenant_order (que s)). intros ts. induction ts as [|u ts IH]; simpl; [done|].
  destruct (scan_queue o (default [] (jget u (queues (que s)))) [] (act s)) eqn:E; [done|].
  rewrite (scan_queue_antitone _ _ _ _ _ _ _ _ Ha Hok Hr E). apply IH.
Qed.

(** ** Every step *)

Record adm_inv s : Prop := {
  adm_base : base_inv s;
  adm_accounted : accounted 0 s;
  adm_quiet : quiet s }.

Lemma drained s : base_inv s → accounted 0 s → adm_inv (drain o s).
Proof. intros Hb Ha. destruct (drain_spec s 0 Hb Ha) as (? & ? & _ & ? & _). by split. Qed.

Lemma new_inv r : res_ok [] r → adm_inv (newAdmission r).
Proof.
  intros Hr. split; [split; [split; simpl|split; simpl|done|constructor]|done|by right]; try done; try lia.
  - constructor.
  - constructor.
  - by intros t ws ?%elem_of_nil.
  - constructor.
Qed.

(** A call that waits: the queue grows by the caller. *)
Lemma enqueue_base s w :
  base_inv s → 0 <= aw_bytes w → aw_id w ∉ ids s →
  let ws := default [] (jget (aw_tenant w) (queues (que s))) in
  queued (que s) < maxQueued o → Z.of_nat (length ws) < maxQueuedPerTenant o →
  queuedBytes (que s) + aw_bytes w <= maxQueuedBytes o → bytes_of ws + aw_bytes w <= maxQueuedBytesPerTenant o →
  let q' := set_queues (jset (aw_tenant w) (ws ++ [w]) (queues (que s)))
              (queued (que s) + 1) (queuedBytes (que s) + aw_bytes w) (que s) in
  base_inv (mkAdmission (act s) q') ∧ w ∈ waiters q'.
Proof.
  intros [Ha Hq Hok Hi] Hb Hid ws H1 H2 H3 H4 q'. pose proof (ids_fresh s _ Hid) as [Hh Hw].
  destruct (enqueue_inv (que s) w Hq Hb Hw H1 H2 H3 H4) as [Hq' Hp].
  change (set_queues _ _ _ _) with q' in Hq', Hp. split; [split; try done|].
  - unfold ids in *. simpl. rewrite (Permutation_map aw_id Hp). simpl. rewrite <- Permutation_middle. by constructor.
  - rewrite Hp. apply list_elem_of_here.
Qed.

Lemma remove_base s w : base_inv s → w ∈ waiters (que s) →
  base_inv (mkAdmission (act s) (remove w (que s))) ∧ queued (remove w (que s)) = queued (que s) - 1.
Proof.
  intros [Ha Hq Hok Hi] Hw. destruct (remove_spec (que s) w Hq Hw) as [Hq' Hp]. split; [split; try done|].
  - unfold ids in *. simpl. rewrite (Permutation_map aw_id Hp) in Hi. simpl in Hi.
    rewrite <- Permutation_middle in Hi. by apply NoDup_cons in Hi as [_ Hi].
  - rewrite (qi_queued _ Hq'), (qi_queued _ Hq), (Permutation_length Hp). simpl. lia.
Qed.

Lemma acquire_inv id t k b sg sh th s : adm_inv s → id ∉ ids s → 0 <= b →
  adm_inv (a_acquire o id t k b sg sh th s).2.
Proof.
  intros [Hb Hacc Hqt] Hid Hbytes. unfold a_acquire.
  set (s1 := mkAdmission (act s) (count_offer (que s))).
  assert (Hb1 : base_inv s1) by (by apply base_inv_counters).
  assert (Ha1 : accounted 1 s1) by (unfold accounted in *; simpl; lia).
  destruct (a_closed (que s1) || default false sg) eqn:Ec.
  { split; simpl; [by apply base_inv_counters|unfold accounted in *; simpl; lia|by apply quiet_counters]. }
  destruct (drain_spec s1 1 Hb1 Ha1) as (Hb2 & Ha2 & Hip & Hq2 & _).
  assert (Hid2 : id ∉ ids (drain o s1)) by (rewrite Hip; exact Hid).
  set (s2 := drain o s1) in *. set (ws := default [] (jget t (queues (que s2)))).
  destruct (if existsb _ ws then None else reserve o id t k sh (act s2)) as [a'|] eqn:Er.
  { destruct (existsb _ ws); [done|]. destruct (reserve_ids _ _ _ _ _ _ Er) as [Hids Hadm].
    pose proof (ids_fresh _ _ Hid2) as [Hh _]. destruct Hb2 as [Hact Hque Hok Hnd] eqn:Eb. simpl.
    split; [split|unfold accounted in *; simpl; rewrite Hadm; lia|by eapply quiet_reserve].
    - by eapply reserve_inv.
    - done.
    - by eapply reserve_res.
    - unfold ids in *. simpl. rewrite Hids, <- (assoc_L (++)). simpl. rewrite <- Permutation_middle. by constructor. }
  destruct (bool_decide (queued (que s2) >= maxQueued o) || _ || _ || _) eqn:El.
  { split; simpl; [by apply base_inv_counters|unfold accounted in *; simpl; lia|by apply quiet_counters]. }
  apply orb_false_iff in El as [[[E1 E2]%orb_false_iff E3]%orb_false_iff E4].
  rewrite !bool_decide_eq_false in E1, E2, E3, E4.
  set (w := mkAWaiter id t k b sh (bool_decide (is_Some sg))).
  assert (Hlen : Z.of_nat (length ws) < maxQueuedPerTenant o) by lia.
  assert (Htb : bytes_of ws + b <= maxQueuedBytesPerTenant o) by lia.
  destruct (enqueue_base s2 w Hb2 Hbytes Hid2 ltac:(lia) Hlen ltac:(simpl; lia) Htb) as [Hb3 Hw3].
  change (aw_tenant w) with t in *. change (aw_bytes w) with b in *. fold ws in Hb3, Hw3.
  destruct th; simpl; apply drained.
  - destruct (remove_base _ _ Hb3 Hw3) as [Hb4 Hq4]. simpl in Hb4, Hq4.
    eapply (base_inv_counters (mkAdmission _ _)) in Hb4; [exact Hb4|done..].
  - unfold accounted in *. simpl. destruct (remove_base _ _ Hb3 Hw3) as [_ Hq4]. simpl in Hq4.
    destruct (remove_counters w (set_queues (jset t (ws ++ [w]) (queues (que s2))) (queued (que s2) + 1) (queuedBytes (que s2) + b) (que s2)))
      as (_ & Hof & Hre & Hca & _). rewrite Hq4, Hof, Hre, Hca. simpl. lia.
  - exact Hb3.
  - unfold accounted in *. simpl. lia.
Qed.

(** [close] cancels every waiter. *)
Lemma close_loop ws s : ws `sublist_of` waiters (que s) → base_inv s → accounted 0 s →
  let s' := mkAdmission (act s) (fold_left (λ q w, count_cancelled (remove w q)) ws (que s)) in
  base_inv s' ∧ accounted 0 s' ∧ a_closed (que s') = a_closed (que s) ∧
  Z.of_nat (length (waiters (que s'))) = Z.of_nat (length (waiters (que s))) - Z.of_nat (length ws).
Proof.
  intros Hsub. assert (Hnd : NoDup (map aw_id (waiters (que s))) → NoDup (map aw_id ws)).
  { intros Hn. eapply sublist_NoDup; [exact Hn|]. clear Hn. induction Hsub; simpl; by constructor. }
  assert (Hin : ∀ w, w ∈ ws → w ∈ waiters (que s)) by (intros w Hw; by eapply elem_of_sublist).
  clear Hsub. revert s Hnd Hin. induction ws as [|w ws IH]; intros s Hnd Hin Hb Hacc; simpl.
  { destruct s. refine (conj Hb (conj Hacc (conj eq_refl _))). simpl. lia. }
  set (s1 := mkAdmission (act s) (count_cancelled (remove w (que s)))).
  assert (Hw : w ∈ waiters (que s)) by (apply Hin; apply list_elem_of_here).
  destruct (remove_base _ _ Hb Hw) as [Hb1 Hq1]. destruct (remove_spec _ w (bi_que _ Hb) Hw) as [_ Hp].
  destruct (remove_counters w (que s)) as (Hcl & Hof & Hre & Hca & _).
  specialize (Hnd (qi_ids _ (bi_que _ Hb))). simpl in Hnd. apply NoDup_cons in Hnd as [Hni Hnd].
  destruct (IH s1) as (Hb' & Ha' & Hc' & Hl').
  - by intros _.
  - intros v Hv. specialize (Hin v (list_elem_of_further _ _ _ Hv)). simpl. change (waiters (count_cancelled ?q)) with (waiters q).
    rewrite Hp in Hin. apply elem_of_cons in Hin as [->|Hin]; [|done]. exfalso. apply Hni.
    by apply list_elem_of_In, in_map, list_elem_of_In.
  - by eapply (base_inv_counters (mkAdmission _ _)) in Hb1; [exact Hb1|..].
  - unfold accounted in *. simpl. rewrite Hq1, Hof, Hre, Hca. lia.
  - split; [done|]. split; [done|]. split; [by etrans; [exact Hc'|exact Hcl]|].
    etrans; [exact Hl'|]. simpl. change (waiters (count_cancelled ?q)) with (waiters q).
    rewrite (Permutation_length Hp). simpl. lia.
Qed.

Lemma close_inv s : adm_inv s → adm_inv (a_close s) ∧ waiters (que (a_close s)) = [].
Proof.
  intros [Hb Hacc _]. set (s0 := mkAdmission (act s) (set_closed (que s))).
  destruct (close_loop (waiters (que s)) s0) as (Hb' & Ha' & Hc' & Hl').
  - done.
  - by apply base_inv_counters.
  - done.
  - split; [split; [done|done|by left]|]. simpl in Hl'. apply nil_length_inv.
    change (waiters (set_closed (que s))) with (waiters (que s)) in Hl'. unfold a_close. simpl. lia.
Qed.

Lemma a_step_inv s s' : a_step o s s' → adm_inv s → adm_inv s'.
Proof.
  destruct 1 as [s id t k b sg sh th Hid Hb|s id|s w Hw|s w Hw _|s|s r He]; intros Hs.
  - by apply acquire_inv.
  - unfold a_release. destruct (List.find _ _) as [h|] eqn:E; [|done].
    apply find_some in E as [Hin%list_elem_of_In _]. destruct Hs as [[Ha Hq Hok Hi] Hacc _].
    apply drained; [split; simpl|unfold accounted in *; simpl; done].
    + by apply release_inv.
    + done.
    + apply release_res; [apply (ai_ids _ Ha)|done|done].
    + unfold ids in *. simpl. eapply sublist_NoDup; [exact Hi|]. apply sublist_app; [|done].
      generalize (a_holders (act s)). intros hs. induction hs as [|h0 hs IH]; [done|]. simpl.
      destruct (bool_decide _); simpl; by constructor.
  - destruct Hs as [Hb Hacc _]. destruct (remove_base _ _ Hb Hw) as [Hb' Hq'].
    destruct (remove_counters w (que s)) as (_ & Hof & Hre & Hca & _).
    apply drained; [by eapply (base_inv_counters (mkAdmission _ _)) in Hb'; [exact Hb'|..]|].
    unfold accounted in *. simpl. rewrite Hq', Hof, Hre, Hca. lia.
  - destruct Hs as [Hb Hacc _]. destruct (remove_base _ _ Hb Hw) as [Hb' Hq'].
    destruct (remove_counters w (que s)) as (_ & Hof & Hre & Hca & _).
    apply drained; [by eapply (base_inv_counters (mkAdmission _ _)) in Hb'; [exact Hb'|..]|].
    unfold accounted in *. simpl. rewrite Hq', Hof, Hre, Hca. lia.
  - by apply close_inv.
  - destruct Hs as [[Ha Hq Hok Hi] Hacc _]. apply drained; [split; simpl|done]; try done.
    + by destruct Ha.
    + by eapply res_ok_env.
Qed.

Lemma a_reachable_inv r s : res_ok [] r → a_reachable o r s → adm_inv s.
Proof.
  intros Hr H0. assert (∀ s0, rtc (a_step o) s0 s → adm_inv s0 → adm_inv s) as Hgen.
  { induction 1; [done|]. eauto using a_step_inv. }
  exact (Hgen _ H0 (new_inv r Hr)).
Qed.

(** ** The guarantees *)

Lemma key_ok_shared a k h h' : act_inv a → h ∈ a_holders a → h' ∈ a_holders a → h_key h = k → h_key h' = k →
  h ≠ h' → h_shared h = true.
Proof.
  intros Ha Hh Hh' E E' Hne. pose proof (ai_key _ Ha k) as Hk.
  assert (∀ x, x ∈ a_holders a → h_key x = k → x ∈ of_key k a) as Hin.
  { intros x Hx Ex. apply list_elem_of_In, filter_In. split; [by apply list_elem_of_In|by apply bool_decide_eq_true]. }
  pose proof (Hin h Hh E) as H1. pose proof (Hin h' Hh' E') as H2.
  destruct (activeKeys a !! k) as [[c sh]|]; simpl in Hk; [|rewrite Hk in H1; by apply elem_of_nil in H1].
  destruct Hk as (-> & _ & Hall & Hex). rewrite Forall_forall in Hall. rewrite (Hall h H1).
  destruct sh; [done|]. specialize (Hex eq_refl). destruct (of_key k a) as [|x [|y l]]; simpl in Hex; [done| |lia].
  apply list_elem_of_singleton in H1 as ->. by apply list_elem_of_singleton in H2 as ->.
Qed.

(** C35: The limits of fair admission. Whatever the order of calls, releases,
    timeouts, aborts and wake-ups, no tenant holds more than its share, without
    a resource of its own the whole holds at most [capacity], two holders of
    one key are both readers, and the queue stays within its count and bytes,
    overall and per tenant. *)
Theorem admission_limits r s : res_ok [] r → a_reachable o r s →
  (tryReserve = None → Z.of_nat (length (a_holders (act s))) <= Z.max 0 (capacity o)) ∧
  (∀ t, Z.of_nat (length (of_tenant t (act s))) <= Z.max 0 (maxActivePerTenant o)) ∧
  (∀ h h', h ∈ a_holders (act s) → h' ∈ a_holders (act s) → h ≠ h' → h_key h = h_key h' → h_shared h = true) ∧
  Z.of_nat (length (waiters (que s))) <= Z.max 0 (maxQueued o) ∧
  bytes_of (waiters (que s)) <= Z.max 0 (maxQueuedBytes o) ∧
  (∀ t ws, jget t (queues (que s)) = Some ws →
    Z.of_nat (length ws) <= maxQueuedPerTenant o ∧ bytes_of ws <= maxQueuedBytesPerTenant o).
Proof.
  intros Hr Hs. destruct (a_reachable_inv r s Hr Hs) as [[Ha Hq _ _] _ _].
  split; [intros E; rewrite <- (ai_active _ Ha); by apply (ai_capacity _ Ha)|].
  split; [apply (ai_share _ Ha)|]. split; [intros; by eapply (key_ok_shared _ _ h h' Ha)|].
  split; [rewrite <- (qi_queued _ Hq); apply (qi_max _ Hq)|].
  split; [rewrite <- (qi_bytes _ Hq); apply (qi_max_bytes _ Hq)|].
  intros t ws (_ & _ & ?)%jget_elem%(qi_entry _ Hq). done.
Qed.

(** Conservation. Every request ever offered is admitted, refused,
    cancelled or still waiting, and every admitted one has completed or holds
    its place. *)
Theorem admission_accounts r s : res_ok [] r → a_reachable o r s →
  offered (que s) = admitted (act s) + refused (que s) + cancelled (que s) + Z.of_nat (length (waiters (que s))) ∧
  admitted (act s) = completed (act s) + Z.of_nat (length (a_holders (act s))).
Proof.
  intros Hr Hs. destruct (a_reachable_inv r s Hr Hs) as [[Ha Hq _ _] Hacc _]. unfold accounted in Hacc.
  rewrite <- (qi_queued _ Hq), <- (ai_active _ Ha), (ai_conserve _ Ha) in *. lia.
Qed.

Lemma scan_queue_None ws wr a l1 w l2 : scan_queue o ws wr a = None → ws = l1 ++ w :: l2 →
  aw_key w ∉ wr → (∀ v, v ∈ l1 → aw_shared v = false → aw_key v ≠ aw_key w) →
  reserve o (aw_id w) (aw_tenant w) (aw_key w) (aw_shared w) a = None.
Proof.
  intros Hs -> Hwr Hall. revert wr Hs Hwr Hall. induction l1 as [|v l1 IH]; intros wr Hs Hwr Hall; simpl in Hs.
  - rewrite bool_decide_false in Hs by done. by destruct (reserve _ _ _ _ _ _).
  - assert (∀ v', v' ∈ l1 → aw_shared v' = false → aw_key v' ≠ aw_key w) as Hall'.
    { intros v' Hv'. apply Hall. by apply list_elem_of_further. }
    case_bool_decide; [by apply (IH wr)|].
    destruct (reserve o (aw_id v) (aw_tenant v) (aw_key v) (aw_shared v) a); [done|].
    apply (IH _ Hs); [|done]. destruct (aw_shared v) eqn:Ev; [done|].
    apply not_elem_of_cons. split; [|done]. intros E. by apply (Hall v (list_elem_of_here _ _) Ev).
Qed.

Lemma scan_tenants_None ts q a t : scan_tenants o ts q a = None → t ∈ ts →
  scan_queue o (default [] (jget t (queues q))) [] a = None.
Proof.
  induction ts as [|u ts IH]; simpl; [by intros _ ?%elem_of_nil|].
  destruct (scan_queue o (default [] (jget u (queues q))) [] a) eqn:E; [done|].
  intros Hs [->|Hin]%elem_of_cons; [done|by apply IH].
Qed.

(** Nobody waits who could run. While the admission is open, after every
    call, release, timeout, abort or wake-up, each waiter that is not behind a
    writer of the same key in its own tenant's queue is one whose reservation
    fails: its tenant has its full share, its key is taken, or the resource has
    no room. *)
Theorem admission_work_conserving r s t l1 w l2 : res_ok [] r → a_reachable o r s →
  a_closed (que s) = false → jget t (queues (que s)) = Some (l1 ++ w :: l2) →
  (∀ v, v ∈ l1 → aw_shared v = false → aw_key v ≠ aw_key w) →
  reserve o (aw_id w) (aw_tenant w) (aw_key w) (aw_shared w) (act s) = None.
Proof.
  intros Hr Hs Hc Hg Hall. destruct (a_reachable_inv r s Hr Hs) as [_ _ [Hc'|Hp]]; [congruence|].
  eapply scan_queue_None; [|done|apply not_elem_of_nil|done].
  eapply scan_tenants_None with (t := t) in Hp; [by rewrite Hg in Hp|].
  rewrite tenant_order_perm. by eapply jget_key.
Qed.

Lemma index_after_spec x l p : index_after x l = Some p → ∃ l1 l2, l = l1 ++ x :: l2 ∧ p = S (length l1).
Proof.
  revert p. induction l as [|y l IH]; intros p; simpl; [done|]. destruct (decide (x = y)) as [->|].
  - intros [= <-]. by exists [], l.
  - destruct (index_after x l) as [p'|]; [|done]. intros [= <-].
    destruct (IH _ eq_refl) as (l1 & l2 & -> & ->). by exists (y :: l1), l2.
Qed.

Lemma index_after_None x l : index_after x l = None → x ∉ l.
Proof.
  induction l as [|y l IH]; simpl; [intros _; apply not_elem_of_nil|]. destruct (decide (x = y)); [done|].
  destruct (index_after x l); [done|]. intros _. apply not_elem_of_cons. by split; [|apply IH].
Qed.

(** Round robin. In each round of [drain], whatever is admitted at that
    point, every waiting tenant is asked once, the tenant served last after all
    others; the first tenant that has a waiter that can be admitted is served,
    and becomes the one asked last. *)
Theorem admission_round_robin r s0 a w a' : res_ok [] r → a_reachable o r s0 →
  let s := mkAdmission a (que s0) in
  pick o s = Some (w, a') →
  tenant_order (que s) ≡ₚ (queues (que s)).*1 ∧
  (∀ t, lastTenant (que s) = Some t → t ∈ (queues (que s)).*1 → ∃ l, tenant_order (que s) = l ++ [t]) ∧
  (∃ l1 l2, tenant_order (que s) = l1 ++ aw_tenant w :: l2 ∧
    ∀ u, u ∈ l1 → scan_queue o (default [] (jget u (queues (que s)))) [] (act s) = None) ∧
  lastTenant (que (serve w a' s)) = Some (aw_tenant w).
Proof.
  intros Hr Hs s Hp. destruct (a_reachable_inv r s0 Hr Hs) as [[_ Hq _ _] _ _].
  split; [apply tenant_order_perm|]. split; [|split].
  - intros t Hl Hin. unfold tenant_order. rewrite Hl. simpl in *.
    destruct (index_after t (queues (que s0)).*1) as [p|] eqn:E; [|by apply index_after_None in E].
    destruct (index_after_spec _ _ _ E) as (l1 & l2 & -> & ->). simpl.
    exists (l2 ++ l1). replace (S (length l1)) with (length (l1 ++ [t])) by (rewrite length_app; simpl; lia).
    replace (l1 ++ t :: l2) with ((l1 ++ [t]) ++ l2) by (by rewrite <- (assoc_L (++))).
    rewrite drop_app_length, take_app_length. by rewrite (assoc_L (++)).
  - destruct (scan_tenants_spec _ _ _ _ _ Hp) as (l1 & t & l2 & -> & Hsc & Hall). exists l1, l2. split; [|done].
    simpl in Hsc. destruct (jget t (queues (que s0))) as [ws|] eqn:E; [|done]. simpl in Hsc.
    destruct (scan_queue_spec _ _ _ _ _ Hsc) as (k1 & k2 & -> & _).
    apply jget_elem in E. destruct (qi_entry _ Hq _ _ E) as (_ & Hf & _).
    rewrite Forall_forall in Hf. destruct (Hf w) as [-> _]; [|done]. apply elem_of_app. right. apply list_elem_of_here.
  - unfold serve. simpl. by destruct (remove_counters w (set_last (aw_tenant w) (que s0))) as (_ & _ & _ & _ & _ & ->).
Qed.
End safety.

(** ** A run without a resource, as the ingress uses it

    Two places, one per tenant; tenant [t] holds one and waits for another,
    tenant [u] holds the second and waits too. *)

Definition demo_options : AdmissionOptions := mkAdmissionOptions 2 1 4 2 0 0.

Definition demo_run : FairAdmission unit unit :=
  let call id t (s : FairAdmission unit unit) := (a_acquire demo_options id t t 0 None true false s).2 in
  call 3%nat "u" (call 2%nat "t" (call 1%nat "u" (call 0%nat "t" (newAdmission tt)))).

Lemma fresh_ids {R T} (s : FairAdmission R T) id : bool_decide (id ∉ ids s) = true → id ∉ ids s.
Proof. apply bool_decide_eq_true_1. Qed.

Lemma demo_run_reachable : a_reachable demo_options tt demo_run.
Proof.
  unfold a_reachable, demo_run.
  eapply rtc_l; [apply (as_acquire _ _ 0%nat "t" "t" 0 None true false); [apply fresh_ids; vm_compute; reflexivity|reflexivity]|].
  eapply rtc_l; [apply (as_acquire _ _ 1%nat "u" "u" 0 None true false); [apply fresh_ids; vm_compute; reflexivity|reflexivity]|].
  eapply rtc_l; [apply (as_acquire _ _ 2%nat "t" "t" 0 None true false); [apply fresh_ids; vm_compute; reflexivity|reflexivity]|].
  eapply rtc_l; [apply (as_acquire _ _ 3%nat "u" "u" 0 None true false); [apply fresh_ids; vm_compute; reflexivity|reflexivity]|].
  apply rtc_refl.
Qed.

Lemma demo_ok : res_ok [] tt.
Proof. exact I. Qed.

Lemma admission_limits_witness :
  Z.of_nat (length (of_tenant "t" (act demo_run))) <= 1 ∧ Z.of_nat (length (waiters (que demo_run))) <= 4.
Proof.
  destruct (admission_limits demo_options tt demo_run demo_ok demo_run_reachable) as (_ & H1 & _ & H2 & _).
  exact (conj (H1 "t") H2).
Defined.

Lemma admission_accounts_witness :
  offered (que demo_run) = admitted (act demo_run) + refused (que demo_run) + cancelled (que demo_run) + 2 ∧
  length (waiters (que demo_run)) = 2%nat.
Proof.
  split; [exact (proj1 (admission_accounts demo_options tt demo_run demo_ok demo_run_reachable))|vm_compute; reflexivity].
Defined.

Lemma admission_work_conserving_witness :
  reserve demo_options 2 "t" "t" true (act demo_run) = None.
Proof.
  apply (admission_work_conserving demo_options tt demo_run "t" [] (mkAWaiter 2 "t" "t" 0 true false) []
           demo_ok demo_run_reachable).
  - vm_compute. reflexivity.
  - vm_compute. reflexivity.
  - intros v Hv. apply elem_of_nil in Hv. destruct Hv.
Defined.

(** Tenant [u] is done: the round serves its second request. *)
Lemma admission_round_robin_witness :
  ∃ l1 l2, tenant_order (que demo_run) = l1 ++ "u" :: l2.
Proof.
  set (a := release_holder (mkHolder 1 "u" "u" true None) (act demo_run)).
  destruct (pick demo_options (mkAdmission a (que demo_run))) as [[w a']|] eqn:E.
  - destruct (admission_round_robin demo_options tt demo_run a w a' demo_ok demo_run_reachable E) as (_ & _ & (l1 & l2 & H & _) & _).
    exists l1, l2. revert H. replace (aw_tenant w) with "u"; [exact (λ H, H)|].
    vm_compute in E. injection E as <- _. reflexivity.
  - vm_compute in E. discriminate E.
Defined.
