(* ===== verification/WorkerSlots.v ===== *)
(** The worker pool as the resource of fair admission
    (src/src/api/worker-owner/pool.ts).

    [reserveSlot] gives a key the worker slot it already has, when it is shared
    and has fewer than eight readers, or an idle one, the resident slot first.
    Threads, memory accounting and recycling happen outside the admission: they
    may change which slots are resident or retiring and whether there is memory
    pressure ([slot_change]), after which the pool calls [wake]. *)

From S2P Require Import Prelude Admission AdmissionSafety.

Record WorkerSlot := mkSlot {
  sl_readers : Z;
  sl_shared : bool;
  sl_activeKey : option string;
  sl_residentKey : option string;
  sl_retiring : bool }.

Record Pool := mkPool {
  pl_slots : list WorkerSlot;
  pl_reservations : gmap string nat;
  pl_pressure : bool }.

Definition MAX_SLOT_READERS : Z := 8.

Definition idle (sl : WorkerSlot) : Prop := sl_readers sl = 0 ∧ sl_retiring sl = false.

#[export] Instance idle_dec sl : Decision (idle sl).
Proof. unfold idle. apply _. Defined.

Definition new_readers (n : Z) (sl : WorkerSlot) : WorkerSlot :=
  mkSlot n (sl_shared sl) (sl_activeKey sl) (sl_residentKey sl) (sl_retiring sl).

(** The slot and the key the release closure captures. *)
Definition reserveSlot (key : string) (shared : bool) (p : Pool) : option ((string * nat) * Pool) :=
  if pl_pressure p then None
  else
    match pl_reservations p !! key with
    | Some i =>
        match pl_slots p !! i with
        | None => None
        | Some sl =>
            if negb shared || negb (sl_shared sl) || bool_decide (sl_readers sl >= MAX_SLOT_READERS) then None
            else Some ((key, i), mkPool (<[i := new_readers (sl_readers sl + 1) sl]> (pl_slots p))
                                        (pl_reservations p) (pl_pressure p))
        end
    | None =>
        let resident := list_find (λ sl, idle sl ∧ sl_residentKey sl = Some key) (pl_slots p) in
        match (match resident with Some r => Some r | None => list_find idle (pl_slots p) end) with
        | None => None
        | Some (i, sl) =>
            Some ((key, i), mkPool (<[i := mkSlot (sl_readers sl + 1) shared (Some key) (sl_residentKey sl) (sl_retiring sl)]> (pl_slots p))
                                   (<[key := i]> (pl_reservations p)) (pl_pressure p))
        end
    end.

Definition releaseSlot (tk : string * nat) (p : Pool) : Pool :=
  match pl_slots p !! tk.2 with
  | None => p
  | Some sl =>
      let n := sl_readers sl - 1 in
      if decide (n ≠ 0)
      then mkPool (<[tk.2 := new_readers n sl]> (pl_slots p)) (pl_reservations p) (pl_pressure p)
      else mkPool (<[tk.2 := mkSlot n (sl_shared sl) None (sl_residentKey sl) (sl_retiring sl)]> (pl_slots p))
             (delete tk.1 (pl_reservations p)) (pl_pressure p)
  end.

(** What else happens to the pool: the reservations stay. *)
Definition slot_change (p p' : Pool) : Prop :=
  pl_reservations p' = pl_reservations p ∧
  Forall2 (λ sl sl', sl_readers sl' = sl_readers sl ∧ sl_shared sl' = sl_shared sl ∧ sl_activeKey sl' = sl_activeKey sl)
    (pl_slots p) (pl_slots p').

#[export] Instance worker_slots : Reserver Pool (string * nat) :=
  {| tryReserve := Some reserveSlot; releaseResource := releaseSlot; env_change := slot_change |}.

Definition newPool (count : nat) : Pool := mkPool (replicate count (mkSlot 0 false None None false)) ∅ false.

Definition assertActiveTenantLimit (count limit : Z) : res string unit :=
  if decide (limit <= 0) then Err "SQL_FS_WORKER_ACTIVE_TENANT_MAX must be a positive integer"
  else if decide (limit > Z.max 1 (count - 1)) then Err "SQL_FS_WORKER_ACTIVE_TENANT_MAX must leave a worker for other tenants when count is at least 2"
  else Ok tt.

Definition assertQueuedTenantLimit (total limit : Z) : res string unit :=
  if decide (limit <= 0) then Err "SQL_FS_WORKER_QUEUE_TENANT_MAX must be a positive integer"
  else if decide (limit > Z.max 1 (total - 1)) then Err "SQL_FS_WORKER_QUEUE_TENANT_MAX must leave queue capacity for other tenants when total is at least 2"
  else Ok tt.

Definition assertQueuedTenantByteLimit (total limit : Z) : res string unit :=
  if decide (limit <= 0) then Err "SQL_FS_WORKER_QUEUE_TENANT_BYTES must be a positive integer"
  else if decide (limit > Z.max 1 (total - 1)) then Err "SQL_FS_WORKER_QUEUE_TENANT_BYTES must leave queue bytes for other tenants when total is at least 2"
  else Ok tt.

(** The constructor of the pool: the three checks, then the admission. *)
Definition pool_options (count maxActive maxQ maxQT maxB maxBT : Z) : res string AdmissionOptions :=
  match assertActiveTenantLimit count maxActive, assertQueuedTenantLimit maxQ maxQT, assertQueuedTenantByteLimit maxB maxBT with
  | Err e, _, _ | Ok _, Err e, _ | Ok _, Ok _, Err e => Err e
  | Ok _, Ok _, Ok _ => Ok (mkAdmissionOptions count maxActive maxQ maxQT maxB maxBT)
  end.

(** ** The slots agree with the live reservations *)

Definition on_slot (i : nat) (ts : list (string * nat)) : Z :=
  Z.of_nat (length (List.filter (λ tk, bool_decide (tk.2 = i)) ts)).

Record slots_ok (ts : list (string * nat)) (p : Pool) : Prop := {
  so_readers i sl : pl_slots p !! i = Some sl → sl_readers sl = on_slot i ts ∧ sl_readers sl <= MAX_SLOT_READERS;
  so_exclusive i sl : pl_slots p !! i = Some sl → sl_shared sl = false → sl_readers sl <= 1;
  so_key i sl k : pl_slots p !! i = Some sl → (k, i) ∈ ts → sl_activeKey sl = Some k;
  so_token k i : (k, i) ∈ ts → is_Some (pl_slots p !! i) ∧ pl_reservations p !! k = Some i;
  so_reservation k i : pl_reservations p !! k = Some i → (k, i) ∈ ts }.

Lemma on_slot_cons i tk ts : on_slot i (tk :: ts) = (if decide (tk.2 = i) then 1 else 0) + on_slot i ts.
Proof.
  unfold on_slot. simpl. destruct (decide (tk.2 = i)); [rewrite bool_decide_true by done|rewrite bool_decide_false by done]; simpl; lia.
Qed.

Lemma on_slot_in i k ts : (k, i) ∈ ts → 1 <= on_slot i ts.
Proof.
  induction ts as [|tk ts IH]; [by intros ?%elem_of_nil|]. rewrite on_slot_cons.
  intros [<-|Hin]%elem_of_cons; [rewrite decide_True by done; unfold on_slot; lia|].
  specialize (IH Hin). case_decide; lia.
Qed.

Lemma on_slot_pos i ts : 1 <= on_slot i ts → ∃ k, (k, i) ∈ ts.
Proof.
  induction ts as [|[k j] ts IH]; [unfold on_slot; simpl; lia|]. rewrite on_slot_cons. simpl. case_decide as E.
  - intros _. exists k. subst. apply list_elem_of_here.
  - intros H. destruct IH as [k' Hk']; [lia|]. exists k'. by apply list_elem_of_further.
Qed.

Lemma slots_ok_perm ts ts' p : ts ≡ₚ ts' → slots_ok ts p → slots_ok ts' p.
Proof.
  intros Hp [H1 H2 H3 H4 H5]. split.
  - intros i sl E. unfold on_slot. rewrite <- (filter_perm _ _ _ Hp). by apply H1.
  - done.
  - intros i sl k E. rewrite <- Hp. by apply H3.
  - intros k i. rewrite <- Hp. apply H4.
  - intros k i. rewrite <- Hp. apply H5.
Qed.

(** The slot of a reservation that succeeds. *)
Inductive reserved (k : string) (sh : bool) (p : Pool) (i : nat) (p' : Pool) : Prop :=
| res_shared sl : pl_reservations p !! k = Some i → pl_slots p !! i = Some sl → sh = true → sl_shared sl = true →
    sl_readers sl < MAX_SLOT_READERS →
    p' = mkPool (<[i := new_readers (sl_readers sl + 1) sl]> (pl_slots p)) (pl_reservations p) (pl_pressure p) →
    reserved k sh p i p'
| res_idle sl : pl_reservations p !! k = None → pl_slots p !! i = Some sl → idle sl →
    p' = mkPool (<[i := mkSlot (sl_readers sl + 1) sh (Some k) (sl_residentKey sl) (sl_retiring sl)]> (pl_slots p))
           (<[k := i]> (pl_reservations p)) (pl_pressure p) →
    reserved k sh p i p'.

Lemma reserveSlot_inv k sh p tk p' : reserveSlot k sh p = Some (tk, p') →
  pl_pressure p = false ∧ tk.1 = k ∧ reserved k sh p tk.2 p'.
Proof.
  unfold reserveSlot. destruct (pl_pressure p) eqn:Ep; [done|].
  destruct (pl_reservations p !! k) as [i|] eqn:Er.
  - destruct (pl_slots p !! i) as [sl|] eqn:Es; [|done].
    destruct sh; [|done]. destruct (sl_shared sl) eqn:Esh; [|done]. simpl. case_bool_decide; [done|].
    intros [= <- <-]. split; [done|]. split; [done|]. eapply res_shared; eauto; [lia|]. by rewrite Ep.
  - destruct (match list_find _ _ with Some _ => _ | None => _ end) as [[i sl]|] eqn:Ef; [|done].
    intros [= <- <-]. split; [done|]. split; [done|].
    assert (pl_slots p !! i = Some sl ∧ idle sl) as [Hi Hid].
    { destruct (list_find (λ sl, idle sl ∧ _) _) as [[j sl']|] eqn:El.
      - injection Ef as -> ->. apply list_find_Some in El as (? & [? _] & _). done.
      - apply list_find_Some in Ef as (? & ? & _). done. }
    eapply res_idle; eauto. by rewrite Ep.
Qed.

(** The slots left when a reservation fails for want of an idle one. *)
Lemma reserveSlot_busy k sh p : pl_pressure p = false → pl_reservations p !! k = None →
  reserveSlot k sh p = None ↔ Forall (λ sl, ¬ idle sl) (pl_slots p).
Proof.
  intros Ep Er. unfold reserveSlot. rewrite Ep, Er. etrans; [|apply (list_find_None idle (pl_slots p))]. split.
  - destruct (list_find (λ sl, idle sl ∧ _) _) as [[i sl]|]; [done|]. by destruct (list_find idle _) as [[]|].
  - intros Hn. destruct (list_find (λ sl, idle sl ∧ _) _) as [[i sl]|] eqn:E; [|by rewrite Hn].
    apply list_find_Some in E as (Hl & [Hi _] & _). apply list_find_None in Hn.
    rewrite Forall_lookup in Hn. by destruct (Hn _ _ Hl).
Qed.

(** A slot an insertion leaves or replaces. *)
Lemma slot_insert (l : list WorkerSlot) i j sl sl' s : l !! i = Some sl → <[i := sl']> l !! j = Some s →
  (j = i ∧ s = sl') ∨ (j ≠ i ∧ l !! j = Some s).
Proof.
  intros E. destruct (decide (i = j)) as [<-|Hne].
  - rewrite list_lookup_insert_eq by (by eapply lookup_lt_Some). intros [= <-]. by left.
  - rewrite list_lookup_insert_ne by done. by right.
Qed.

Lemma slot_some (l : list WorkerSlot) i j sl' : is_Some (l !! j) → is_Some (<[i := sl']> l !! j).
Proof. rewrite !lookup_lt_is_Some, length_insert. done. Qed.

Lemma slots_ok_reserve k sh ts p tk p' : slots_ok ts p → reserveSlot k sh p = Some (tk, p') → slots_ok (tk :: ts) p'.
Proof.
  intros [H1 H2 H3 H4 H5] (_ & Hk & Hr)%reserveSlot_inv. destruct tk as [k' i]. simpl in Hk, Hr. subst k'.
  destruct Hr as [sl Er Es -> Esh Hlt ->|sl Er Es [Hz Hret] ->].
  - pose proof (H5 _ _ Er) as Hin. pose proof (H3 _ _ _ Es Hin) as Hkey. destruct (H1 _ _ Es) as [Hrd _].
    split; simpl.
    + intros j s [[-> ->]|[Hne Ej]]%(slot_insert _ _ _ _ _ _ Es); rewrite on_slot_cons; simpl.
      * rewrite decide_True by done. simpl. split; lia.
      * rewrite decide_False by done. by apply H1.
    + intros j s [[-> ->]|[Hne Ej]]%(slot_insert _ _ _ _ _ _ Es); [simpl; congruence|by eapply H2].
    + intros j s k' [[-> ->]|[Hne Ej]]%(slot_insert _ _ _ _ _ _ Es) [E|Hin']%elem_of_cons; [by simplify_eq|by apply (H3 i sl)|by simplify_eq|by apply (H3 j)].
    + intros k' j [[= -> ->]|Hin']%elem_of_cons.
      * split; [apply slot_some; eauto|done].
      * destruct (H4 _ _ Hin'). split; [by apply slot_some|done].
    + intros k' j Ek. apply list_elem_of_further. by apply H5.
  - destruct (H1 _ _ Es) as [Hrd _].
    assert (Hno : ∀ k', (k', i) ∉ ts) by (intros k' Hin%on_slot_in; lia).
    assert (Hnk : ∀ j, (k, j) ∉ ts) by (intros j Hin; destruct (H4 _ _ Hin) as [_ E]; congruence).
    split; simpl.
    + intros j s [[-> ->]|[Hne Ej]]%(slot_insert _ _ _ _ _ _ Es); rewrite on_slot_cons; simpl.
      * rewrite decide_True by done. unfold MAX_SLOT_READERS. lia.
      * rewrite decide_False by done. by apply H1.
    + intros j s [[-> ->]|[Hne Ej]]%(slot_insert _ _ _ _ _ _ Es); [simpl; lia|by eapply H2].
    + intros j s k' [[-> ->]|[Hne Ej]]%(slot_insert _ _ _ _ _ _ Es) [E|Hin']%elem_of_cons; [by simplify_eq|by destruct (Hno k')|by simplify_eq|by apply (H3 j)].
    + intros k' j [[= -> ->]|Hin']%elem_of_cons.
      * split; [apply slot_some; eauto|apply lookup_insert_eq].
      * destruct (H4 _ _ Hin'). split; [by apply slot_some|]. rewrite lookup_insert_ne; [done|]. intros <-. by apply (Hnk j).
    + intros k' j. destruct (decide (k = k')) as [<-|Hne].
      * rewrite lookup_insert_eq. intros [= <-]. apply list_elem_of_here.
      * rewrite lookup_insert_ne by done. intros Ek. apply list_elem_of_further. by apply H5.
Qed.

Lemma slots_ok_release ts tk p : slots_ok (tk :: ts) p → slots_ok ts (releaseSlot tk p).
Proof.
  intros [H1 H2 H3 H4 H5]. destruct tk as [k i]. unfold releaseSlot. simpl.
  destruct (H4 k i (list_elem_of_here _ _)) as [[sl Es] Ek]. rewrite Es.
  destruct (H1 _ _ Es) as [Hrd Hle]. rewrite on_slot_cons in Hrd. simpl in Hrd. rewrite decide_True in Hrd by done.
  assert (Hsub : ∀ x, x ∈ ts → x ∈ (k, i) :: ts) by (intros x; apply list_elem_of_further).
  assert (Hother : ∀ j s, j ≠ i → pl_slots p !! j = Some s →
    (sl_readers s = on_slot j ts ∧ sl_readers s <= MAX_SLOT_READERS)).
  { intros j s Hne Ej. destruct (H1 _ _ Ej) as [Hj ?]. rewrite on_slot_cons in Hj. simpl in Hj.
    rewrite decide_False in Hj by done. lia. }
  case_decide as Hn.
  - split; simpl.
    + intros j s [[-> ->]|[Hne Ej]]%(slot_insert _ _ _ _ _ _ Es); [simpl; lia|by apply Hother].
    + intros j s [[-> ->]|[Hne Ej]]%(slot_insert _ _ _ _ _ _ Es) Hsh; [simpl in *; specialize (H2 _ _ Es Hsh); lia|by eapply H2].
    + intros j s k' [[-> ->]|[Hne Ej]]%(slot_insert _ _ _ _ _ _ Es) Hin; [by apply (H3 i sl); [|apply Hsub]|by apply (H3 j); [|apply Hsub]].
    + intros k' j Hin. destruct (H4 _ _ (Hsub _ Hin)). split; [by apply slot_some|done].
    + intros k' j Ek'. pose proof (H5 _ _ Ek') as [[= -> ->]|Hin]%elem_of_cons; [|done].
      destruct (on_slot_pos i ts) as [k2 Hk2]; [unfold on_slot in *; lia|].
      pose proof (H3 _ _ k Es (list_elem_of_here _ _)) as E1. pose proof (H3 _ _ k2 Es (Hsub _ Hk2)) as E2.
      congruence.
  - assert (Hno : ∀ k', (k', i) ∉ ts) by (intros k' Hin%on_slot_in; lia).
    split; simpl.
    + intros j s [[-> ->]|[Hne Ej]]%(slot_insert _ _ _ _ _ _ Es); [simpl; lia|by apply Hother].
    + intros j s [[-> ->]|[Hne Ej]]%(slot_insert _ _ _ _ _ _ Es) Hsh; [simpl in *; lia|by eapply H2].
    + intros j s k' [[-> ->]|[Hne Ej]]%(slot_insert _ _ _ _ _ _ Es) Hin; [by destruct (Hno k')|by apply (H3 j); [|apply Hsub]].
    + intros k' j Hin. destruct (H4 _ _ (Hsub _ Hin)) as [Hj Ej]. split; [by apply slot_some|].
      rewrite lookup_delete_ne; [done|]. intros <-. rewrite Ek in Ej. injection Ej as <-. by apply (Hno k).
    + intros k' j [Hne Ek']%lookup_delete_Some. pose proof (H5 _ _ Ek') as [[= -> ->]|Hin]%elem_of_cons; done.
Qed.

Lemma slots_ok_env ts p p' : slots_ok ts p → slot_change p p' → slots_ok ts p'.
Proof.
  intros [H1 H2 H3 H4 H5] [Er Hf]. split.
  - intros i s Es. destruct (Forall2_lookup_r _ _ _ _ _ Hf Es) as (s0 & Es0 & -> & _). by apply H1.
  - intros i s Es. destruct (Forall2_lookup_r _ _ _ _ _ Hf Es) as (s0 & Es0 & -> & -> & _). by eapply H2.
  - intros i s k Es. destruct (Forall2_lookup_r _ _ _ _ _ Hf Es) as (s0 & Es0 & _ & _ & ->). by apply H3.
  - intros k i Hin. destruct (H4 _ _ Hin) as [[s Es] Ek]. rewrite Er. split; [|done].
    destruct (Forall2_lookup_l _ _ _ _ _ Hf Es) as (s' & -> & _). eauto.
  - intros k i. rewrite Er. apply H5.
Qed.

Lemma slots_antitone ts k sh p k' sh' tk p' : slots_ok ts p →
  reserveSlot k sh p = None → reserveSlot k' sh' p = Some (tk, p') → reserveSlot k sh p' = None.
Proof.
  intros [H1 H2 H3 H4 H5] Hn (Ep & Hk & Hr)%reserveSlot_inv. destruct tk as [k0 i]. simpl in Hk, Hr. subst k0.
  destruct (pl_reservations p !! k) as [j|] eqn:Ej.
  - pose proof (H5 _ _ Ej) as Hin. destruct (H4 _ _ Hin) as [[s Es] _].
    destruct (H1 _ _ Es) as [Hrd _]. pose proof (on_slot_in _ _ _ Hin).
    pose proof Hn as Hn0. unfold reserveSlot in Hn0. rewrite Ep, Ej, Es in Hn0.
    destruct Hr as [sl Er Esl -> Esh Hlt ->|sl Er Esl [Hz Hret] ->]; unfold reserveSlot; simpl; rewrite Ep.
    + rewrite Ej. destruct (decide (i = j)) as [<-|Hij].
      * rewrite list_lookup_insert_eq by (by eapply lookup_lt_Some). rewrite Es in Esl. injection Esl as ->.
        destruct sh; [|done]. rewrite Esh in Hn0. simpl in Hn0. rewrite bool_decide_false in Hn0 by lia. done.
      * rewrite list_lookup_insert_ne by done. rewrite Es. by case_match.
    + assert (i ≠ j) by (intros <-; rewrite Es in Esl; injection Esl as ->; lia).
      rewrite lookup_insert_ne by (intros <-; congruence). rewrite Ej.
      rewrite list_lookup_insert_ne by done. rewrite Es. by case_match.
  - apply reserveSlot_busy in Hn as Hb; [|done|done].
    destruct Hr as [sl Er Esl -> Esh Hlt ->|sl Er Esl Hid ->].
    + apply reserveSlot_busy; [done|done|]. simpl. apply Forall_insert; [done|].
      unfold idle. simpl. intros [Hz _]. destruct (H1 _ _ Esl) as [Hrd _].
      pose proof (on_slot_in _ _ _ (H5 _ _ Er)). lia.
    + rewrite Forall_lookup in Hb. by destruct (Hb _ _ Esl).
Qed.

(** The pool keeps what fair admission asks of its resource. *)
#[export] Instance worker_slots_laws : ReserverLaws Pool (string * nat).
Proof.
  refine {| res_ok := slots_ok |}.
  - exact slots_ok_perm.
  - intros f k sh ts r t r' [= <-]. apply slots_ok_reserve.
  - exact slots_ok_release.
  - exact slots_ok_env.
  - intros f k sh ts r k' sh' t r' [= <-]. apply slots_antitone.
Defined.

Lemma newPool_ok n : slots_ok [] (newPool n).
Proof.
  split; simpl.
  - intros i sl [-> _]%lookup_replicate_1. unfold on_slot, MAX_SLOT_READERS. simpl. lia.
  - intros i sl [-> _]%lookup_replicate_1. simpl. lia.
  - by intros i sl k _ ?%elem_of_nil.
  - by intros k i ?%elem_of_nil.
  - intros k i. by rewrite lookup_empty.
Qed.

(** C36: The worker pool under admission. In every state the pool reaches, each
    worker slot serves requests of one key only, its reader count is the number
    of admissions it serves, at most eight, and one when it is not shared; every
    admitted request has a slot; and no tenant holds as many requests as there
    are workers once there are two, since the configuration check leaves one
    for the others. *)
Theorem worker_pool_slots count maxActive maxQ maxQT maxB maxBT o s :
  pool_options (Z.of_nat count) maxActive maxQ maxQT maxB maxBT = Ok o →
  a_reachable o (newPool count) s →
  (∀ i sl, pl_slots (resource (act s)) !! i = Some sl →
    sl_readers sl = on_slot i (tokens (act s)) ∧ sl_readers sl <= MAX_SLOT_READERS ∧
    (sl_shared sl = false → sl_readers sl <= 1) ∧
    ∀ k, (k, i) ∈ tokens (act s) → sl_activeKey sl = Some k) ∧
  (∀ k i, (k, i) ∈ tokens (act s) → is_Some (pl_slots (resource (act s)) !! i)) ∧
  ((2 ≤ count)%nat → ∀ t, Z.of_nat (length (of_tenant t (act s))) < Z.of_nat count).
Proof.
  intros Ho Hs. destruct (a_reachable_inv (L := worker_slots_laws) o (newPool count) s (newPool_ok count) Hs) as [[Ha _ Hok _] _ _].
  destruct Hok as [H1 H2 H3 H4 H5]. split; [|split].
  - intros i sl Es. destruct (H1 _ _ Es). split; [done|]. split; [done|]. split; [by eapply H2|]. intros k. by apply H3.
  - intros k i Hin. by destruct (H4 _ _ Hin).
  - intros Hc t. pose proof (ai_share _ _ Ha t) as Hsh. unfold pool_options, assertActiveTenantLimit in Ho.
    destruct (decide (maxActive <= 0)); [done|]. destruct (decide (maxActive > _)) as [|Hm]; [done|].
    repeat case_match; simplify_eq. simpl in Hsh. lia.
Qed.

Definition demo_pool_options : AdmissionOptions := mkAdmissionOptions 2 1 4 2 1000 500.

Definition demo_pool :=
  (a_acquire demo_pool_options 0 "t" "sandbox" 10 None true false (newAdmission (newPool 2))).2.

Lemma demo_pool_reachable : a_reachable demo_pool_options (newPool 2) demo_pool.
Proof.
  eapply rtc_l; [|apply rtc_refl]. apply as_acquire; [|discriminate].
  apply fresh_ids. vm_compute. reflexivity.
Qed.

Lemma worker_pool_slots_witness : Z.of_nat (length (of_tenant "t" (act demo_pool))) < 2.
Proof.
  refine (proj2 (proj2 (worker_pool_slots 2 1 4 2 1000 500 demo_pool_options _ _ demo_pool_reachable)) (le_n 2) "t").
  vm_compute. reflexivity.
Defined.
