(* ===== verification/Runtime.v ===== *)
(** Admission of Python and JavaScript runs
    (src/src/api/session-manager/runtime-admission.ts).

    Two counting semaphores with bounded queues. A run that uses both runtimes
    takes the Python slot first and gives it back when the JavaScript slot is
    refused. A run is an execution of [run]; its [Phase] is the [await] it is
    at: the events are the continuations the event loop runs between two
    awaits. Waiters are the identities of their runs; a settled waiter is always
    out of the queue, so the [settled] flag needs no field. *)

From S2P Require Import Prelude.

Record Semaphore := mkSem {
  limit : Z;
  maxWaiters : Z;
  inFlight : Z;
  sem_waiters : list nat }.

Inductive SlotResult := SlotGranted | SlotRejected (code : string) | SlotQueued.

Definition acquireSlot (id : nat) (aborted : bool) (sem : Semaphore) : SlotResult * Semaphore :=
  if aborted then (SlotRejected "ABORTED", sem)
  else if decide (inFlight sem < limit sem)
  then (SlotGranted, mkSem (limit sem) (maxWaiters sem) (inFlight sem + 1) (sem_waiters sem))
  else if decide (Z.of_nat (length (sem_waiters sem)) >= maxWaiters sem)
  then (SlotRejected "ERUNTIME_BUSY", sem)
  else (SlotQueued, mkSem (limit sem) (maxWaiters sem) (inFlight sem) (sem_waiters sem ++ [id])).

(** The slot goes to the first waiter, or back to the semaphore. *)
Definition releaseSlot (sem : Semaphore) : Semaphore * option nat :=
  match sem_waiters sem with
  | next :: rest => (mkSem (limit sem) (maxWaiters sem) (inFlight sem) rest, Some next)
  | [] => (mkSem (limit sem) (maxWaiters sem) (inFlight sem - 1) [], None)
  end.

(** [waiter.reject]: the timer or the abort signal of a queued waiter. *)
Definition rejectWaiter (id : nat) (sem : Semaphore) : Semaphore :=
  mkSem (limit sem) (maxWaiters sem) (inFlight sem) (List.filter (λ i, negb (bool_decide (i = id))) (sem_waiters sem)).

Inductive Phase := WaitPython | HavePython | WaitJs | Running | Failed.

#[export] Instance Phase_eq_dec : EqDecision Phase.
Proof. solve_decision. Defined.

Record Run := mkRun { r_id : nat; usesPython : bool; usesJs : bool; r_phase : Phase }.

Record RuntimeAdmission := mkRuntime { pythonSem : Semaphore; jsSem : Semaphore; runs : list Run }.

Definition newRuntime (maxPy maxJs maxPyWaiters maxJsWaiters : Z) : RuntimeAdmission :=
  mkRuntime (mkSem maxPy maxPyWaiters 0 []) (mkSem maxJs maxJsWaiters 0 []) [].

Definition with_phase (ph : Phase) (r : Run) : Run := mkRun (r_id r) (usesPython r) (usesJs r) ph.

Definition set_phase (id : nat) (ph : Phase) (rs : list Run) : list Run :=
  map (λ r, if bool_decide (r_id r = id) then with_phase ph r else r) rs.

Definition drop_run (id : nat) (rs : list Run) : list Run :=
  List.filter (λ r, negb (bool_decide (r_id r = id))) rs.

(** The promise of a waiter resolves: its run is past the [await]. *)
Definition wake (woken : option nat) (ph : Phase) (rs : list Run) : list Run :=
  match woken with Some id => set_phase id ph rs | None => rs end.

Definition give_python (s : RuntimeAdmission) : RuntimeAdmission :=
  let '(sem, woken) := releaseSlot (pythonSem s) in
  mkRuntime sem (jsSem s) (wake woken HavePython (runs s)).

Definition give_js (s : RuntimeAdmission) : RuntimeAdmission :=
  let '(sem, woken) := releaseSlot (jsSem s) in
  mkRuntime (pythonSem s) sem (wake woken Running (runs s)).

(** [await this.acquireSlot(this.jsSem, signal)] of a registered run. *)
Definition take_js (r : Run) (aborted : bool) (s : RuntimeAdmission) : RuntimeAdmission :=
  if usesJs r then
    match acquireSlot (r_id r) aborted (jsSem s) with
    | (SlotGranted, sem) => mkRuntime (pythonSem s) sem (set_phase (r_id r) Running (runs s))
    | (SlotQueued, sem) => mkRuntime (pythonSem s) sem (set_phase (r_id r) WaitJs (runs s))
    | (SlotRejected _, sem) => mkRuntime (pythonSem s) sem (set_phase (r_id r) Failed (runs s))
    end
  else mkRuntime (pythonSem s) (jsSem s) (set_phase (r_id r) Running (runs s)).

(** The call up to its first [await]. *)
Definition rt_start (id : nat) (py js aborted : bool) (s : RuntimeAdmission) : RuntimeAdmission :=
  if py then
    match acquireSlot id aborted (pythonSem s) with
    | (SlotGranted, sem) => mkRuntime sem (jsSem s) (runs s ++ [mkRun id py js HavePython])
    | (SlotQueued, sem) => mkRuntime sem (jsSem s) (runs s ++ [mkRun id py js WaitPython])
    | (SlotRejected _, sem) => mkRuntime sem (jsSem s) (runs s)
    end
  else
    match acquireSlot id aborted (jsSem s) with
    | (SlotGranted, sem) => mkRuntime (pythonSem s) sem (runs s ++ [mkRun id py js Running])
    | (SlotQueued, sem) => mkRuntime (pythonSem s) sem (runs s ++ [mkRun id py js WaitJs])
    | (SlotRejected _, sem) => mkRuntime (pythonSem s) sem (runs s)
    end.

(** The [catch] after a refused JavaScript slot. *)
Definition rt_catch (r : Run) (s : RuntimeAdmission) : RuntimeAdmission :=
  let s1 := mkRuntime (pythonSem s) (jsSem s) (drop_run (r_id r) (runs s)) in
  if usesPython r then give_python s1 else s1.

(** The [finally] after [fn]. *)
Definition rt_finally (r : Run) (s : RuntimeAdmission) : RuntimeAdmission :=
  let s1 := mkRuntime (pythonSem s) (jsSem s) (drop_run (r_id r) (runs s)) in
  let s2 := if usesJs r then give_js s1 else s1 in
  if usesPython r then give_python s2 else s2.

(** A queued waiter times out or is aborted. *)
Definition rt_reject (r : Run) (s : RuntimeAdmission) : RuntimeAdmission :=
  match r_phase r with
  | WaitPython => mkRuntime (rejectWaiter (r_id r) (pythonSem s)) (jsSem s) (drop_run (r_id r) (runs s))
  | WaitJs => mkRuntime (pythonSem s) (rejectWaiter (r_id r) (jsSem s)) (set_phase (r_id r) Failed (runs s))
  | _ => s
  end.

(** [shutdown()] rejects every waiter of both queues. *)
Definition shutdown (s : RuntimeAdmission) : RuntimeAdmission :=
  fold_left (λ s r, rt_reject r s) (runs s) s.

Inductive rt_step : RuntimeAdmission → RuntimeAdmission → Prop :=
| rts_start s id py js aborted : id ∉ map r_id (runs s) → py || js = true → rt_step s (rt_start id py js aborted s)
| rts_js s r aborted : r ∈ runs s → r_phase r = HavePython → rt_step s (take_js r aborted s)
| rts_catch s r : r ∈ runs s → r_phase r = Failed → rt_step s (rt_catch r s)
| rts_finally s r : r ∈ runs s → r_phase r = Running → rt_step s (rt_finally r s)
| rts_reject s r : r ∈ runs s → rt_step s (rt_reject r s)
| rts_shutdown s : rt_step s (shutdown s).

Section runtime.
Context (maxPy maxJs maxPyW maxJsW : Z).

Definition rt_reachable : RuntimeAdmission → Prop := rtc rt_step (newRuntime maxPy maxJs maxPyW maxJsW).

(** Who holds a slot, who waits for one. *)
Definition holds_python (r : Run) : bool := usesPython r && negb (bool_decide (r_phase r = WaitPython)).
Definition holds_js (r : Run) : bool := usesJs r && bool_decide (r_phase r = Running).
Definition waits_python (r : Run) : bool := bool_decide (r_phase r = WaitPython).
Definition waits_js (r : Run) : bool := bool_decide (r_phase r = WaitJs).

Definition count (f : Run → bool) (rs : list Run) : Z := Z.of_nat (length (List.filter f rs)).

Definition run_ok (r : Run) : Prop :=
  (usesPython r || usesJs r = true) ∧
  match r_phase r with
  | WaitPython | HavePython => usesPython r = true
  | WaitJs | Failed => usesJs r = true
  | Running => True
  end.

(** A semaphore agrees with the runs: slots, queue, and a full semaphore
    whenever somebody waits. *)
Record sem_ok (lim maxW : Z) (holds waits : Run → bool) (rs : list Run) (sem : Semaphore) : Prop := {
  sk_limit : limit sem = lim;
  sk_maxW : maxWaiters sem = maxW;
  sk_inFlight : inFlight sem = count holds rs;
  sk_bound : inFlight sem <= Z.max 0 lim;
  sk_waiters : sem_waiters sem ≡ₚ map r_id (List.filter waits rs);
  sk_queue : Z.of_nat (length (sem_waiters sem)) <= Z.max 0 maxW;
  sk_full : sem_waiters sem ≠ [] → inFlight sem >= lim }.

Record rt_inv (s : RuntimeAdmission) : Prop := {
  ri_python : sem_ok maxPy maxPyW holds_python waits_python (runs s) (pythonSem s);
  ri_js : sem_ok maxJs maxJsW holds_js waits_js (runs s) (jsSem s);
  ri_ids : NoDup (map r_id (runs s));
  ri_runs : Forall run_ok (runs s) }.

Lemma count_cons f r rs : count f (r :: rs) = (if f r then 1 else 0) + count f rs.
Proof. unfold count. simpl. destruct (f r); simpl; lia. Qed.

Lemma count_nonneg f rs : 0 <= count f rs.
Proof. unfold count. lia. Qed.

(** The runs as one run and the others, before and after the run changes. *)
Lemma split_run r rs : NoDup (map r_id rs) → r ∈ rs → rs ≡ₚ r :: drop_run (r_id r) rs.
Proof. apply drop_by_id. Qed.

Lemma set_phase_split r ph rs : NoDup (map r_id rs) → r ∈ rs →
  set_phase (r_id r) ph rs ≡ₚ with_phase ph r :: drop_run (r_id r) rs.
Proof.
  unfold set_phase, drop_run. induction rs as [|r0 rs IH]; intros Hnd Hin; [by apply elem_of_nil in Hin|].
  simpl in *. apply NoDup_cons in Hnd as [Hni Hnd]. apply elem_of_cons in Hin as [<-|Hin].
  - rewrite bool_decide_true by done. simpl. f_equiv. clear IH Hnd.
    induction rs as [|r1 rs IH]; [done|]. simpl in *. apply not_elem_of_cons in Hni as [Hne Hni].
    rewrite bool_decide_false by done. simpl. f_equiv. by apply IH.
  - rewrite bool_decide_false.
    + simpl. rewrite (IH Hnd Hin). apply Permutation_swap.
    + intros E. apply Hni. rewrite E. by apply list_elem_of_In, in_map, list_elem_of_In.
Qed.

(** [sem_ok] only looks at the runs up to order. *)
Lemma sem_ok_perm lim maxW h w rs rs' sem : rs ≡ₚ rs' → sem_ok lim maxW h w rs sem → sem_ok lim maxW h w rs' sem.
Proof.
  intros Hp [? ? Hi ? Hw ? ?]. split; try done.
  - rewrite Hi. unfold count. by rewrite (filter_perm _ _ _ Hp).
  - by rewrite Hw, (filter_perm _ _ _ Hp).
Qed.

(** A run that changes without touching a semaphore. *)
Lemma sem_ok_same lim maxW h w r r' rs sem : h r = h r' → w r = w r' → r_id r = r_id r' →
  sem_ok lim maxW h w (r :: rs) sem → sem_ok lim maxW h w (r' :: rs) sem.
Proof.
  intros Eh Ew Ei [? ? Hi ? Hw ? ?]. split; try done.
  - by rewrite count_cons, <- Eh, <- count_cons.
  - simpl in *. rewrite <- Ew. destruct (w r); simpl in *; [by rewrite <- Ei|done].
Qed.

Lemma sem_ok_skip lim maxW h w r rs sem : h r = false → w r = false →
  sem_ok lim maxW h w (r :: rs) sem ↔ sem_ok lim maxW h w rs sem.
Proof.
  intros Eh Ew. split; intros [? ? Hi ? Hw ? ?]; split; try done.
  - by rewrite count_cons, Eh in Hi.
  - simpl in Hw. by rewrite Ew in Hw.
  - by rewrite count_cons, Eh.
  - simpl. by rewrite Ew.
Qed.

(** A caller that was not there asks for a slot. *)
Lemma acquire_ok lim maxW h w r rs sem ab res sem' :
  sem_ok lim maxW h w rs sem → acquireSlot (r_id r) ab sem = (res, sem') →
  match res with
  | SlotGranted => h r = true → w r = false → sem_ok lim maxW h w (r :: rs) sem'
  | SlotQueued => h r = false → w r = true → sem_ok lim maxW h w (r :: rs) sem'
  | SlotRejected _ => sem' = sem
  end.
Proof.
  intros [H1 H2 H3 H4 H5 H6 H7]. unfold acquireSlot. destruct ab; [by intros [= <- <-]|].
  case_decide as E1; [|case_decide as E2; [by intros [= <- <-]|]]; intros [= <- <-] Eh Ew; split; simpl; try done.
  - rewrite count_cons, Eh. lia.
  - lia.
  - by rewrite Ew.
  - intros Hne. specialize (H7 Hne). lia.
  - rewrite count_cons, Eh. lia.
  - rewrite Ew. simpl. by rewrite H5, Permutation_app_comm.
  - rewrite length_app. simpl. lia.
  - intros _. lia.
Qed.

(** A holder leaves: the first waiter, if any, holds its slot. *)
Lemma release_ok lim maxW h w r rs sem sem' woken :
  sem_ok lim maxW h w (r :: rs) sem → h r = true → w r = false → releaseSlot sem = (sem', woken) →
  NoDup (map r_id rs) →
  match woken with
  | None => sem_ok lim maxW h w rs sem'
  | Some id => ∃ v, v ∈ rs ∧ r_id v = id ∧ w v = true ∧
      ∀ v', r_id v' = r_id v → h v' = true → w v' = false → h v = false →
        sem_ok lim maxW h w (v' :: drop_run id rs) sem'
  end.
Proof.
  intros [H1 H2 H3 H4 H5 H6 H7] Eh Ew. unfold releaseSlot. rewrite count_cons, Eh in H3. simpl in H5. rewrite Ew in H5.
  destruct (sem_waiters sem) as [|id ws] eqn:Es; intros [= <- <-] Hnd.
  { pose proof (count_nonneg h rs). split; simpl; try done; lia. }
  assert (id ∈ map r_id (List.filter w rs)) as (v & <- & [Hv Hwv]%filter_In)%list_elem_of_In%in_map_iff.
  { rewrite <- H5. apply list_elem_of_here. }
  apply list_elem_of_In in Hv. exists v. split; [done|]. split; [done|]. split; [done|].
  intros v' Ei Eh' Ew' Ehv. pose proof (split_run v rs Hnd Hv) as Hp.
  split; simpl; try done.
  - rewrite H3. rewrite count_cons, Eh'. unfold count at 1. rewrite (filter_perm h _ _ Hp). simpl. rewrite Ehv.
    unfold count. lia.
  - rewrite Ew'. rewrite (filter_perm w _ _ Hp) in H5. simpl in H5. rewrite Hwv in H5. simpl in H5.
    by apply Permutation_cons_inv in H5.
  - simpl in H6. lia.
  - intros _. apply H7. done.
Qed.

(** A waiter leaves the queue. *)
Lemma reject_ok lim maxW h w r rs sem : sem_ok lim maxW h w (r :: rs) sem → h r = false → w r = true →
  NoDup (map r_id (r :: rs)) → sem_ok lim maxW h w rs (rejectWaiter (r_id r) sem).
Proof.
  intros [H1 H2 H3 H4 H5 H6 H7] Eh Ew Hnd. simpl in H5. rewrite Ew in H5. simpl in H5.
  assert (Hp : List.filter (λ i, negb (bool_decide (i = r_id r))) (sem_waiters sem) ≡ₚ map r_id (List.filter w rs)).
  { rewrite (filter_perm _ _ _ H5). simpl. rewrite bool_decide_true by done. simpl.
    simpl in Hnd. apply NoDup_cons in Hnd as [Hni _]. clear -Hni.
    induction rs as [|r0 rs IH]; [done|]. simpl in *. apply not_elem_of_cons in Hni as [Hne Hni].
    destruct (w r0); simpl; [|by apply IH]. rewrite bool_decide_false by done. simpl. by rewrite IH. }
  pose proof (Permutation_length Hp) as Hl. pose proof (Permutation_length H5) as Hl5. simpl in Hl5.
  split; simpl; try done.
  - by rewrite count_cons, Eh in H3.
  - lia.
  - intros _. apply H7. intros E. rewrite E in Hl5. simpl in Hl5. lia.
Qed.

Definition py_ok (rs : list Run) (sem : Semaphore) : Prop := sem_ok maxPy maxPyW holds_python waits_python rs sem.
Definition js_ok (rs : list Run) (sem : Semaphore) : Prop := sem_ok maxJs maxJsW holds_js waits_js rs sem.

Lemma rt_inv_perm rs s : runs s ≡ₚ rs → py_ok rs (pythonSem s) → js_ok rs (jsSem s) →
  NoDup (map r_id rs) → Forall run_ok rs → rt_inv s.
Proof.
  intros Hp H1 H2 H3 H4. symmetry in Hp. split.
  - by apply (sem_ok_perm _ _ _ _ rs).
  - by apply (sem_ok_perm _ _ _ _ rs).
  - by rewrite <- Hp.
  - by rewrite <- Hp.
Qed.

(** The state seen from one of its runs. *)
Lemma rt_inv_split r s : rt_inv s → r ∈ runs s →
  let rs := drop_run (r_id r) (runs s) in
  runs s ≡ₚ r :: rs ∧ py_ok (r :: rs) (pythonSem s) ∧ js_ok (r :: rs) (jsSem s) ∧
  NoDup (map r_id (r :: rs)) ∧ run_ok r ∧ Forall run_ok rs.
Proof.
  intros [H1 H2 H3 H4] Hin rs. pose proof (split_run r (runs s) H3 Hin) as Hp. fold rs in Hp.
  split; [done|]. split; [by eapply sem_ok_perm|]. split; [by eapply sem_ok_perm|].
  split; [by rewrite <- Hp|]. rewrite Hp in H4. by apply Forall_cons in H4.
Qed.

Lemma run_waits r : run_ok r → r_phase r = WaitPython → usesPython r = true.
Proof. intros [_ Hr] E. by rewrite E in Hr. Qed.

(** A python slot is given back while the runs [extra] are on their way out. *)
Lemma give_python_spec r s : py_ok (r :: runs s) (pythonSem s) → holds_python r = true →
  js_ok (runs s) (jsSem s) → NoDup (map r_id (runs s)) → Forall run_ok (runs s) → rt_inv (give_python s).
Proof.
  intros Hpy Hh Hjs Hnd Hok. unfold give_python. destruct (releaseSlot (pythonSem s)) as [sem woken] eqn:E.
  assert (waits_python r = false) as Hw.
  { unfold holds_python, waits_python in *. apply andb_true_iff in Hh as [_ Hh]. by apply negb_true_iff in Hh. }
  pose proof (release_ok _ _ _ _ _ _ _ _ _ Hpy Hh Hw E Hnd) as Hrel. destruct woken as [id|]; simpl; [|by split].
  destruct Hrel as (v & Hv & <- & Hwv & Hall). apply bool_decide_eq_true in Hwv.
  pose proof (split_run v (runs s) Hnd Hv) as Hp. rewrite Forall_forall in Hok.
  pose proof (run_waits v (Hok v Hv) Hwv) as Hus.
  apply (rt_inv_perm (with_phase HavePython v :: drop_run (r_id v) (runs s))); simpl.
  - by apply set_phase_split.
  - apply Hall; unfold holds_python, waits_python; simpl; rewrite ?Hus, ?Hwv; done.
  - apply (sem_ok_perm _ _ _ _ _ _ _ Hp) in Hjs. eapply sem_ok_same; [..|exact Hjs];
      unfold holds_js, waits_js; rewrite ?Hwv; done.
  - rewrite Hp in Hnd. done.
  - constructor; [split; [by destruct (Hok v Hv)|done]|].
    apply Forall_forall. intros x Hx. apply Hok. rewrite Hp. by apply list_elem_of_further.
Qed.

Lemma give_js_spec r extra s : js_ok (r :: runs s) (jsSem s) → holds_js r = true →
  py_ok (extra ++ runs s) (pythonSem s) → NoDup (map r_id (runs s)) → Forall run_ok (runs s) →
  let s' := give_js s in
  py_ok (extra ++ runs s') (pythonSem s') ∧ js_ok (runs s') (jsSem s') ∧
  NoDup (map r_id (runs s')) ∧ Forall run_ok (runs s').
Proof.
  intros Hjs Hh Hpy Hnd Hok. unfold give_js. destruct (releaseSlot (jsSem s)) as [sem woken] eqn:E.
  assert (waits_js r = false) as Hw.
  { unfold holds_js, waits_js in *. apply andb_true_iff in Hh as [_ Hh%bool_decide_eq_true]. by rewrite Hh. }
  pose proof (release_ok _ _ _ _ _ _ _ _ _ Hjs Hh Hw E Hnd) as Hrel. destruct woken as [id|]; simpl; [|done].
  destruct Hrel as (v & Hv & <- & Hwv & Hall). apply bool_decide_eq_true in Hwv.
  pose proof (split_run v (runs s) Hnd Hv) as Hp. pose proof (set_phase_split v Running (runs s) Hnd Hv) as Hp'.
  rewrite Forall_forall in Hok. destruct (Hok v Hv) as [Hu Hus]. rewrite Hwv in Hus.
  split; [|split; [|split]].
  - assert (extra ++ runs s ≡ₚ v :: extra ++ drop_run (r_id v) (runs s)) as Hq
      by (rewrite Hp at 1; by rewrite Permutation_middle).
    apply (sem_ok_perm _ _ _ _ _ _ _ Hq) in Hpy.
    eapply sem_ok_perm; [symmetry; rewrite Hp'; symmetry; apply Permutation_middle|].
    eapply sem_ok_same; [..|exact Hpy]; unfold holds_python, waits_python; rewrite ?Hwv; done.
  - eapply sem_ok_perm; [symmetry; exact Hp'|].
    apply Hall; unfold holds_js, waits_js; simpl; rewrite ?Hus, ?Hwv; try done; by rewrite andb_false_r.
  - rewrite Hp'. by rewrite Hp in Hnd.
  - rewrite Hp'. constructor; [done|]. apply Forall_forall. intros x Hx. apply Hok. rewrite Hp. by apply list_elem_of_further.
Qed.

Lemma rt_start_inv id py js ab s : rt_inv s → id ∉ map r_id (runs s) → py || js = true → rt_inv (rt_start id py js ab s).
Proof.
  intros [H1 H2 H3 H4] Hid Hu. unfold rt_start. destruct py.
  - destruct (acquireSlot id ab (pythonSem s)) as [res sem] eqn:E.
    destruct res as [|code|].
    + apply (rt_inv_perm (mkRun id true js HavePython :: runs s)); simpl; [symmetry; apply Permutation_cons_append| | |by constructor|by constructor].
      * by apply (acquire_ok _ _ _ _ (mkRun id true js HavePython) _ _ _ _ _ H1 E).
      * apply sem_ok_skip; [by unfold holds_js; destruct js|done|done].
    + pose proof (acquire_ok _ _ _ _ (mkRun id true js HavePython) _ _ _ _ _ H1 E) as ->. by split.
    + apply (rt_inv_perm (mkRun id true js WaitPython :: runs s)); simpl; [symmetry; apply Permutation_cons_append| | |by constructor|by constructor].
      * by apply (acquire_ok _ _ _ _ (mkRun id true js WaitPython) _ _ _ _ _ H1 E).
      * apply sem_ok_skip; [by unfold holds_js; destruct js|done|done].
  - simpl in Hu. subst js. destruct (acquireSlot id ab (jsSem s)) as [res sem] eqn:E.
    destruct res as [|code|].
    + apply (rt_inv_perm (mkRun id false true Running :: runs s)); simpl; [symmetry; apply Permutation_cons_append| | |by constructor|by constructor].
      * by apply sem_ok_skip.
      * by apply (acquire_ok _ _ _ _ (mkRun id false true Running) _ _ _ _ _ H2 E).
    + pose proof (acquire_ok _ _ _ _ (mkRun id false true Running) _ _ _ _ _ H2 E) as ->. by split.
    + apply (rt_inv_perm (mkRun id false true WaitJs :: runs s)); simpl; [symmetry; apply Permutation_cons_append| | |by constructor|by constructor].
      * by apply sem_ok_skip.
      * by apply (acquire_ok _ _ _ _ (mkRun id false true WaitJs) _ _ _ _ _ H2 E).
Qed.

(** A run that moves on without a semaphore, or with the one it asked. *)
Lemma moved_inv r ph s semP semJ : rt_inv s → r ∈ runs s →
  py_ok (with_phase ph r :: drop_run (r_id r) (runs s)) semP →
  js_ok (with_phase ph r :: drop_run (r_id r) (runs s)) semJ →
  run_ok (with_phase ph r) → rt_inv (mkRuntime semP semJ (set_phase (r_id r) ph (runs s))).
Proof.
  intros Hs Hin Hpy Hjs Hok. destruct (rt_inv_split r s Hs Hin) as (Hp & _ & _ & Hnd & _ & Hall).
  apply (rt_inv_perm (with_phase ph r :: drop_run (r_id r) (runs s))); simpl; try done; [|by constructor].
  apply set_phase_split; [apply (ri_ids _ Hs)|done].
Qed.

Lemma take_js_inv r ab s : rt_inv s → r ∈ runs s → r_phase r = HavePython → rt_inv (take_js r ab s).
Proof.
  intros Hs Hin Hph. destruct (rt_inv_split r s Hs Hin) as (Hp & Hpy & Hjs & Hnd & [Hu Hup] & Hall). rewrite Hph in Hup.
  assert (Hpy' : ∀ ph, ph ≠ WaitPython → py_ok (with_phase ph r :: drop_run (r_id r) (runs s)) (pythonSem s)).
  { intros ph Hne. eapply sem_ok_same; [..|exact Hpy]; unfold holds_python, waits_python; simpl; rewrite ?Hph, ?bool_decide_false by done; done. }
  assert (Hjs0 : js_ok (drop_run (r_id r) (runs s)) (jsSem s)).
  { eapply sem_ok_skip; [..|exact Hjs]; unfold holds_js, waits_js; rewrite ?Hph; [by rewrite andb_false_r|done]. }
  unfold take_js. destruct (usesJs r) eqn:Ej.
  - destruct (acquireSlot (r_id r) ab (jsSem s)) as [res sem] eqn:E. destruct res as [|code|].
    + apply moved_inv; [done|done|by apply Hpy'| |by split; simpl; rewrite ?Ej, ?orb_true_r].
      apply (acquire_ok _ _ _ _ (with_phase Running r) _ _ _ _ _ Hjs0 E); unfold holds_js, waits_js; simpl; [by rewrite Ej|done].
    + pose proof (acquire_ok _ _ _ _ (with_phase Failed r) _ _ _ _ _ Hjs0 E) as ->.
      apply moved_inv; [done|done|by apply Hpy'| |by split; simpl; rewrite ?Ej, ?orb_true_r].
      apply sem_ok_skip; [unfold holds_js; simpl; by rewrite andb_false_r|done|done].
    + apply moved_inv; [done|done|by apply Hpy'| |by split; simpl; rewrite ?Ej, ?orb_true_r].
      apply (acquire_ok _ _ _ _ (with_phase WaitJs r) _ _ _ _ _ Hjs0 E); unfold holds_js, waits_js; simpl; [by rewrite andb_false_r|done].
  - apply moved_inv; [done|done|by apply Hpy'| |by split; simpl; rewrite ?Ej].
    apply sem_ok_skip; [unfold holds_js; simpl; by rewrite Ej|done|done].
Qed.

Lemma rt_catch_inv r s : rt_inv s → r ∈ runs s → r_phase r = Failed → rt_inv (rt_catch r s).
Proof.
  intros Hs Hin Hph. destruct (rt_inv_split r s Hs Hin) as (Hp & Hpy & Hjs & Hnd & [Hu Hup] & Hall).
  apply sem_ok_skip in Hjs; [|unfold holds_js; by rewrite Hph, andb_false_r|unfold waits_js; by rewrite Hph].
  apply NoDup_cons in Hnd as [_ Hnd]. unfold rt_catch. destruct (usesPython r) eqn:Ep.
  - apply (give_python_spec r); simpl; try done. unfold holds_python. by rewrite Ep, Hph.
  - apply sem_ok_skip in Hpy; [|unfold holds_python; by rewrite Ep|unfold waits_python; by rewrite Hph]. by split.
Qed.

Lemma rt_finally_inv r s : rt_inv s → r ∈ runs s → r_phase r = Running → rt_inv (rt_finally r s).
Proof.
  intros Hs Hin Hph. destruct (rt_inv_split r s Hs Hin) as (Hp & Hpy & Hjs & Hnd & [Hu Hup] & Hall).
  apply NoDup_cons in Hnd as [_ Hnd]. unfold rt_finally.
  set (s1 := mkRuntime (pythonSem s) (jsSem s) (drop_run (r_id r) (runs s))).
  assert (Hmid : let s2 := if usesJs r then give_js s1 else s1 in
    py_ok (r :: runs s2) (pythonSem s2) ∧ js_ok (runs s2) (jsSem s2) ∧ NoDup (map r_id (runs s2)) ∧ Forall run_ok (runs s2)).
  { destruct (usesJs r) eqn:Ej.
    - apply (give_js_spec r [r] s1); try done. unfold holds_js. by rewrite Ej, Hph.
    - simpl. split; [done|]. split; [|done]. eapply sem_ok_skip; [..|exact Hjs]; unfold holds_js, waits_js; by rewrite ?Ej, ?Hph. }
  destruct Hmid as (Hpy2 & Hjs2 & Hnd2 & Hall2). destruct (usesPython r) eqn:Ep.
  - apply (give_python_spec r); try done. unfold holds_python. by rewrite Ep, Hph.
  - apply sem_ok_skip in Hpy2; [|unfold holds_python; by rewrite Ep|unfold waits_python; by rewrite Hph]. by split.
Qed.

Lemma rt_reject_inv r s : rt_inv s → r ∈ runs s → rt_inv (rt_reject r s).
Proof.
  intros Hs Hin. destruct (rt_inv_split r s Hs Hin) as (Hp & Hpy & Hjs & Hnd & [Hu Hup] & Hall).
  unfold rt_reject. destruct (r_phase r) eqn:Hph; try done.
  - apply sem_ok_skip in Hjs; [|unfold holds_js; by rewrite Hph, andb_false_r|unfold waits_js; by rewrite Hph].
    split; simpl; [|done|by apply NoDup_cons in Hnd as [_ Hnd]|done].
    apply reject_ok; [done|unfold holds_python; by rewrite Hph, andb_false_r|unfold waits_python; by rewrite Hph|done].
  - apply moved_inv; [done|done| | |by split].
    + eapply sem_ok_same; [..|exact Hpy]; unfold holds_python, waits_python; simpl; by rewrite ?Hph.
    + apply sem_ok_skip; [unfold holds_js; simpl; by rewrite andb_false_r|done|].
      apply reject_ok; [done|unfold holds_js; by rewrite Hph, andb_false_r|unfold waits_js; by rewrite Hph|done].
Qed.

Lemma set_phase_other id ph r rs : r ∈ rs → r_id r ≠ id → r ∈ set_phase id ph rs.
Proof.
  intros Hin Hne. apply list_elem_of_In, in_map_iff. exists r. split; [by rewrite bool_decide_false|by apply list_elem_of_In].
Qed.

Lemma drop_run_other id r rs : r ∈ rs → r_id r ≠ id → r ∈ drop_run id rs.
Proof.
  intros Hin Hne. apply list_elem_of_In, filter_In. split; [by apply list_elem_of_In|by rewrite bool_decide_false].
Qed.

Lemma rt_reject_other r r' s : r' ∈ runs s → r_id r' ≠ r_id r → r' ∈ runs (rt_reject r s).
Proof.
  intros Hin Hne. unfold rt_reject. destruct (r_phase r); simpl; [by apply drop_run_other|done|by apply set_phase_other|done|done].
Qed.

Lemma reject_all_inv l s : rt_inv s → NoDup (map r_id l) → (∀ r, r ∈ l → r ∈ runs s) →
  rt_inv (fold_left (λ s r, rt_reject r s) l s).
Proof.
  revert s. induction l as [|r l IH]; intros s Hs Hnd Hin; [done|]. simpl in *. apply NoDup_cons in Hnd as [Hni Hnd].
  apply IH; [apply rt_reject_inv; [done|apply Hin, list_elem_of_here]|done|].
  intros r' Hr'. apply rt_reject_other; [apply Hin; by apply list_elem_of_further|].
  intros E. apply Hni. rewrite <- E. by apply list_elem_of_In, in_map, list_elem_of_In.
Qed.

Lemma rt_step_inv s s' : rt_step s s' → rt_inv s → rt_inv s'.
Proof.
  destruct 1; intros Hs.
  - by apply rt_start_inv.
  - by apply take_js_inv.
  - by apply rt_catch_inv.
  - by apply rt_finally_inv.
  - by apply rt_reject_inv.
  - by apply reject_all_inv; [|apply (ri_ids _ Hs)|].
Qed.

Lemma new_runtime_inv : rt_inv (newRuntime maxPy maxJs maxPyW maxJsW).
Proof. split; [split; simpl; try done; lia..|constructor|constructor]. Qed.

Lemma rt_reachable_inv s : rt_reachable s → rt_inv s.
Proof.
  intros H. assert (∀ s0, rtc rt_step s0 s → rt_inv s0 → rt_inv s) as Hgen.
  { induction 1; [done|]. eauto using rt_step_inv. }
  exact (Hgen _ H new_runtime_inv).
Qed.

(** No slot is lost or given twice. In every reachable state, refusals,
    timeouts, aborts and shutdown included, each semaphore counts exactly the
    runs that hold one of its slots, never more than its limit, its queue holds
    exactly the runs that wait for it, at most [maxWaiters]; in particular
    without runs both semaphores are free. *)
Theorem runtime_slots s : rt_reachable s →
  inFlight (pythonSem s) = count holds_python (runs s) ∧ inFlight (pythonSem s) <= Z.max 0 maxPy ∧
  inFlight (jsSem s) = count holds_js (runs s) ∧ inFlight (jsSem s) <= Z.max 0 maxJs ∧
  sem_waiters (pythonSem s) ≡ₚ map r_id (List.filter waits_python (runs s)) ∧
  sem_waiters (jsSem s) ≡ₚ map r_id (List.filter waits_js (runs s)) ∧
  Z.of_nat (length (sem_waiters (pythonSem s))) <= Z.max 0 maxPyW ∧
  Z.of_nat (length (sem_waiters (jsSem s))) <= Z.max 0 maxJsW.
Proof. intros [[] [] _ _]%rt_reachable_inv. done. Qed.

Lemma count_pos f rs : 0 < count f rs → ∃ r, r ∈ rs ∧ f r = true.
Proof.
  unfold count. destruct (List.filter f rs) as [|r l] eqn:E; [simpl; lia|]. intros _. exists r.
  assert (In r (List.filter f rs)) as [Hr Hf]%filter_In by (rewrite E; by left).
  split; [by apply list_elem_of_In|done].
Qed.

Lemma waiter_full lim maxW h w rs sem r : sem_ok lim maxW h w rs sem → 0 < lim → r ∈ rs → w r = true →
  ∃ r', r' ∈ rs ∧ h r' = true.
Proof.
  intros [H1 H2 H3 H4 H5 H6 H7] Hl Hr Hw. apply count_pos. rewrite <- H3.
  assert (sem_waiters sem ≠ []) as Hne; [|specialize (H7 Hne); lia].
  intros E. rewrite E in H5. symmetry in H5. apply Permutation_nil_r in H5. apply map_eq_nil in H5.
  assert (In r (List.filter w rs)) as Hin by (apply filter_In; split; [by apply list_elem_of_In|done]).
  by rewrite H5 in Hin.
Qed.

(** No deadlock between the two semaphores. As long as there is a run, one
    of them is not waiting for a slot: the runs that hold a Python slot wait at
    most for a JavaScript slot, and those that hold a JavaScript slot run. *)
Theorem runtime_no_deadlock s : 0 < maxPy → 0 < maxJs → rt_reachable s → runs s ≠ [] →
  ∃ r, r ∈ runs s ∧ r_phase r ≠ WaitPython ∧ r_phase r ≠ WaitJs.
Proof.
  intros Hp Hj Hs%rt_reachable_inv Hne.
  assert (Hjs : ∀ r, r ∈ runs s → r_phase r = WaitJs → ∃ r, r ∈ runs s ∧ r_phase r ≠ WaitPython ∧ r_phase r ≠ WaitJs).
  { intros r Hr E. destruct (waiter_full _ _ _ _ _ _ r (ri_js _ Hs) Hj Hr) as (r' & Hr' & Hh).
    - unfold waits_js. by rewrite E.
    - unfold holds_js in Hh. apply andb_true_iff in Hh as [_ Hh%bool_decide_eq_true]. exists r'. by rewrite Hh. }
  destruct (runs s) as [|r rs] eqn:Er; [done|]. rewrite <- Er in *. clear Hne.
  assert (Hr : r ∈ runs s) by (rewrite Er; apply list_elem_of_here).
  destruct (decide (r_phase r = WaitJs)) as [E|E]; [by eapply Hjs|].
  destruct (decide (r_phase r = WaitPython)) as [E2|E2]; [|by exists r].
  destruct (waiter_full _ _ _ _ _ _ r (ri_python _ Hs) Hp Hr) as (r' & Hr' & Hh).
  - unfold waits_python. by rewrite E2.
  - unfold holds_python in Hh. apply andb_true_iff in Hh as [_ Hh%negb_true_iff%bool_decide_eq_false].
    destruct (decide (r_phase r' = WaitJs)); [by eapply Hjs|by exists r'].
Qed.
End runtime.

(** One place of each kind: a run that uses both, and a Python run behind it. *)
Definition demo_runtime : RuntimeAdmission :=
  rt_start 1 true false false (rt_start 0 true true false (newRuntime 1 1 10 10)).

Lemma demo_runtime_reachable : rt_reachable 1 1 10 10 demo_runtime.
Proof.
  unfold rt_reachable, demo_runtime.
  eapply rtc_l; [apply (rts_start _ 0 true true false); [apply not_elem_of_nil|reflexivity]|].
  eapply rtc_l; [apply (rts_start _ 1 true false false); [|reflexivity]|apply rtc_refl].
  refine (bool_decide_unpack _ _). vm_compute. exact I.
Qed.

Lemma runtime_slots_witness :
  inFlight (pythonSem demo_runtime) = count holds_python (runs demo_runtime) ∧
  sem_waiters (pythonSem demo_runtime) = [1%nat].
Proof.
  split; [exact (proj1 (runtime_slots 1 1 10 10 demo_runtime demo_runtime_reachable))|reflexivity].
Defined.

Lemma runtime_no_deadlock_witness :
  ∃ r, r ∈ runs demo_runtime ∧ r_phase r ≠ WaitPython ∧ r_phase r ≠ WaitJs.
Proof.
  apply (runtime_no_deadlock 1 1 10 10 demo_runtime); [reflexivity|reflexivity|exact demo_runtime_reachable|].
  intros H. discriminate H.
Defined.
