(* ===== verification/RateLimit.v ===== *)
(** The rate limiter of the authentication routes (src/src/api/rate-limit.ts).

    [RateStore] is [InMemoryRateLimitStore]; its [Map] is an insertion-ordered
    association list. [hit] counts a request in the window of its key.
    [rateLimit] is the decision of the middleware over several keys; the clock
    reading, the keys and the response are its arguments and result. The
    derivation of keys from headers and the audit log are left out. *)

From S2P Require Import Prelude.

Record REntry := mkREntry { e_count : Z; resetAt : Z }.

Record RateStore := mkStore { entries : list (string * REntry); maxEntries : Z; hits : Z }.

Record RateLimitDecision := mkDecision { allowed : bool; d_resetAt : Z; remaining : Z }.

Definition DEFAULT_MAX_ENTRIES : Z := 10000.

(** The constructor: [opts.maxEntries] is a number that is an integer. *)
Definition newStore (maxEntries_ : option Z) : res string RateStore :=
  match maxEntries_ with
  | Some n => if decide (n <= 0) then Err "ERR_INVALID_RATE_LIMIT" else Ok (mkStore [] n 0)
  | None => Ok (mkStore [] DEFAULT_MAX_ENTRIES 0)
  end.

Definition expired (now : Z) (e : REntry) : bool := bool_decide (resetAt e <= now).

(** The lazy collection: every expired entry goes. *)
Definition collect (now : Z) (es : list (string * REntry)) : list (string * REntry) :=
  List.filter (λ p, negb (expired now p.2)) es.

(** The purge of a full store: it stops once there is room; [size] is
    [entries.size]. *)
Fixpoint purge (now max size : Z) (es : list (string * REntry)) : list (string * REntry) :=
  match es with
  | [] => []
  | (k, v) :: es' =>
      if expired now v
      then if decide (size - 1 < max) then es' else purge now max (size - 1) es'
      else (k, v) :: purge now max size es'
  end.

Definition size_of (es : list (string * REntry)) : Z := Z.of_nat (length es).

(** Room for a new key: purge, then drop the oldest. *)
Definition make_room (now max : Z) (es : list (string * REntry)) : list (string * REntry) :=
  let es' := purge now max (size_of es) es in
  if decide (size_of es' >= max) then tail es' else es'.

Definition hit (key : string) (windowMs max now : Z) (st : RateStore) : RateLimitDecision * RateStore :=
  let n := hits st + 1 in
  let es := if decide (n mod 1024 = 0) then collect now (entries st) else entries st in
  match jget key es with
  | Some e =>
      if expired now e then
        let reset := now + windowMs in
        (mkDecision (bool_decide (1 <= max)) reset (Z.max 0 (max - 1)),
         mkStore (jset key (mkREntry 1 reset) (jdel key es)) (maxEntries st) n)
      else
        let c := e_count e + 1 in
        (mkDecision (bool_decide (c <= max)) (resetAt e) (Z.max 0 (max - c)),
         mkStore (jset key (mkREntry c (resetAt e)) es) (maxEntries st) n)
  | None =>
      let es' := if decide (size_of es >= maxEntries st) then make_room now (maxEntries st) es else es in
      let reset := now + windowMs in
      (mkDecision (bool_decide (1 <= max)) reset (Z.max 0 (max - 1)),
       mkStore (jset key (mkREntry 1 reset) es') (maxEntries st) n)
  end.

Definition resetStore (st : RateStore) : RateStore := mkStore [] (maxEntries st) 0.

(** The loop of the middleware: the latest [resetAt] among the denied keys. *)
Fixpoint check_keys (keys : list string) (windowMs max t : Z) (tripped : option string) (trippedResetAt : Z)
    (st : RateStore) : (option string * Z) * RateStore :=
  match keys with
  | [] => ((tripped, trippedResetAt), st)
  | key :: keys' =>
      let '(d, st') := hit key windowMs max t st in
      if negb (allowed d) && bool_decide (trippedResetAt <= d_resetAt d)
      then check_keys keys' windowMs max t (Some key) (d_resetAt d) st'
      else check_keys keys' windowMs max t tripped trippedResetAt st'
  end.

Inductive RateResponse := RatePass | RateLimited (retryAfter : Z).

(** [Math.ceil(x / 1000)] *)
Definition ceil_seconds (x : Z) : Z := - ((- x) / 1000).

Definition rateLimit (keys : list string) (windowMs max t : Z) (st : RateStore) : RateResponse * RateStore :=
  let '((tripped, at_), st') := check_keys keys windowMs max t None 0 st in
  match tripped with
  | Some _ => (RateLimited (ceil_seconds (at_ - t)), st')
  | None => (RatePass, st')
  end.

(** ** The store stays small *)

Record store_ok (st : RateStore) : Prop := {
  so_wf : jwf (entries st);
  so_max : 0 < maxEntries st;
  so_size : size_of (entries st) <= maxEntries st }.

Lemma size_jset k v (es : list (string * REntry)) :
  size_of (jset k v es) = size_of es + match jget k es with Some _ => 0 | None => 1 end.
Proof.
  unfold size_of. induction es as [|[k' v'] es IH]; simpl; [done|].
  destruct (decide (k = k')); simpl; [lia|]. rewrite !Nat2Z.inj_succ, IH. lia.
Qed.

Lemma size_jdel k (es : list (string * REntry)) :
  size_of (jdel k es) = size_of es - match jget k es with Some _ => 1 | None => 0 end.
Proof.
  unfold size_of. induction es as [|[k' v'] es IH]; simpl; [done|].
  destruct (decide (k = k')); simpl; [lia|]. rewrite !Nat2Z.inj_succ, IH. lia.
Qed.

Lemma sublist_wf (es es' : list (string * REntry)) : es' `sublist_of` es → jwf es → jwf es'.
Proof. intros Hs Hn. eapply sublist_NoDup; [exact Hn|]. clear Hn. induction Hs; simpl; by constructor. Qed.

Lemma sublist_size (es es' : list (string * REntry)) : es' `sublist_of` es → size_of es' <= size_of es.
Proof. intros H%sublist_length. unfold size_of. lia. Qed.

Lemma collect_sublist now es : collect now es `sublist_of` es.
Proof. unfold collect. induction es as [|p es IH]; [done|]. simpl. destruct (negb _); by constructor. Qed.

Lemma purge_sublist now max size es : purge now max size es `sublist_of` es.
Proof.
  revert size. induction es as [|[k v] es IH]; intros size; simpl; [done|].
  destruct (expired now v); [case_decide; by constructor|by constructor].
Qed.

Lemma make_room_sublist now max es : make_room now max es `sublist_of` es.
Proof.
  unfold make_room. case_decide; [|apply purge_sublist].
  etrans; [|apply (purge_sublist now max (size_of es))]. destruct (purge _ _ _ _); [done|by constructor].
Qed.

Lemma make_room_size now max es : 0 < max → size_of es <= max → size_of (make_room now max es) < max.
Proof.
  intros Hm Hs. unfold make_room. pose proof (sublist_size _ _ (purge_sublist now max (size_of es) es)).
  case_decide as E; [|lia]. destruct (purge now max (size_of es) es) as [|p es']; unfold size_of in *; simpl in *; lia.
Qed.

(** A live entry survives the collections, and every one of them when there is room. *)
Lemma sublist_jget k e (es es' : list (string * REntry)) : jwf es → es' `sublist_of` es → jget k es' = Some e → jget k es = Some e.
Proof.
  intros Hwf Hs Hg. apply jget_Some; [done|]. apply jget_elem in Hg. by eapply elem_of_sublist.
Qed.

Lemma collect_live k e now es : jwf es → jget k es = Some e → now < resetAt e → jget k (collect now es) = Some e.
Proof.
  intros Hwf Hg Hl. apply jget_Some; [by eapply sublist_wf; [apply collect_sublist|]|].
  apply list_elem_of_In, filter_In. split; [by apply list_elem_of_In, jget_elem|].
  unfold expired. simpl. rewrite bool_decide_false by lia. done.
Qed.

Lemma collect_jget k now es : jwf es → jget k (collect now es) = None →
  jget k es = None ∨ ∃ e, jget k es = Some e ∧ resetAt e <= now.
Proof.
  intros Hwf Hn. destruct (jget k es) as [e|] eqn:E; [right|by left]. exists e. split; [done|].
  destruct (decide (resetAt e <= now)); [done|]. rewrite (collect_live k e now es) in Hn by (done || lia). done.
Qed.

Lemma hit_ok key w max now st : store_ok st → store_ok (hit key w max now st).2.
Proof.
  intros [Hwf Hm Hs]. unfold hit.
  set (es := if decide ((hits st + 1) mod 1024 = 0) then collect now (entries st) else entries st).
  assert (es `sublist_of` entries st) as Hsub by (unfold es; case_decide; [apply collect_sublist|done]).
  pose proof (sublist_wf _ _ Hsub Hwf) as Hwf'. pose proof (sublist_size _ _ Hsub) as Hs'.
  destruct (jget key es) as [e|] eqn:E; [destruct (expired now e)|].
  - split; simpl; [by apply jset_wf, jdel_wf|done|].
    rewrite size_jset, size_jdel, E, (jget_jdel_eq key es Hwf'). lia.
  - split; simpl; [by apply jset_wf|done|]. rewrite size_jset, E. lia.
  - set (es2 := if decide (size_of es >= maxEntries st) then _ else _).
    assert (es2 `sublist_of` es ∧ size_of es2 < maxEntries st) as [Hsub2 Hlt].
    { unfold es2. case_decide; [|split; [done|lia]]. split; [apply make_room_sublist|apply make_room_size; lia]. }
    split; simpl; [by apply jset_wf; eapply sublist_wf|done|]. rewrite size_jset. case_match; lia.
Qed.

(** ** One key in its window *)

(** The verdicts a sequence of hits gives to the key [k]. *)
Fixpoint verdicts (k : string) (w max : Z) (trace : list (string * Z)) (st : RateStore) : list bool :=
  match trace with
  | [] => []
  | (key, now) :: trace' =>
      let '(d, st') := hit key w max now st in
      (if decide (key = k) then [allowed d] else []) ++ verdicts k w max trace' st'
  end.

(** The expected verdicts: the hits number [c + 1], [c + 2], ... of the window. *)
Fixpoint expected (max c : Z) (n : nat) : list bool :=
  match n with O => [] | S n' => bool_decide (c + 1 <= max) :: expected max (c + 1) n' end.

Definition hits_of (k : string) (trace : list (string * Z)) : nat :=
  length (List.filter (λ p, bool_decide (p.1 = k)) trace).

Lemma keys_fewer (es : list (string * REntry)) (K : list string) key :
  jwf es → (∀ x, x ∈ es.*1 → x ∈ K) → key ∈ K → jget key es = None → size_of es < Z.of_nat (length K).
Proof.
  intros Hwf Hsub Hk Hn. unfold size_of. rewrite <- (length_fmap fst es).
  assert (length (key :: es.*1) ≤ length K)%nat; [|simpl in *; lia].
  apply NoDup_incl_length.
  - apply NoDup_ListNoDup. constructor; [by apply jget_None|done].
  - intros x [<-|Hx]; [by apply list_elem_of_In|]. apply list_elem_of_In, Hsub. by apply list_elem_of_In.
Qed.

Lemma jset_sub (K : list string) k v (es : list (string * REntry)) :
  k ∈ K → (∀ x, x ∈ es.*1 → x ∈ K) → ∀ x, x ∈ (jset k v es).*1 → x ∈ K.
Proof. intros Hk Hs x [->|Hx]%jset_keys; [done|by apply Hs]. Qed.

Lemma sublist_keys (es es' : list (string * REntry)) x : es' `sublist_of` es → x ∈ es'.*1 → x ∈ es.*1.
Proof.
  intros Hs (p & -> & Hp)%list_elem_of_fmap. apply list_elem_of_fmap. exists p. split; [done|]. by eapply elem_of_sublist.
Qed.

(** A hit of any key while the window of [k] is open and the store has room. *)
Lemma hit_window (K : list string) key w max now st k c e_at :
  store_ok st → (∀ x, x ∈ (entries st).*1 → x ∈ K) → key ∈ K → Z.of_nat (length K) <= maxEntries st →
  jget k (entries st) = Some (mkREntry c e_at) → now < e_at →
  let '(d, st') := hit key w max now st in
  maxEntries st' = maxEntries st ∧ (∀ x, x ∈ (entries st').*1 → x ∈ K) ∧
  (key = k → allowed d = bool_decide (c + 1 <= max)) ∧
  jget k (entries st') = Some (mkREntry (if decide (key = k) then c + 1 else c) e_at).
Proof.
  intros [Hwf Hm Hs] HK Hkey Hroom Hk Hlive. unfold hit.
  set (es := if decide ((hits st + 1) mod 1024 = 0) then collect now (entries st) else entries st).
  assert (es `sublist_of` entries st) as Hsub by (unfold es; case_decide; [apply collect_sublist|done]).
  pose proof (sublist_wf _ _ Hsub Hwf) as Hwf'.
  assert (jget k es = Some (mkREntry c e_at)) as Hk' by (unfold es; case_decide; [by apply collect_live|done]).
  assert (∀ x, x ∈ es.*1 → x ∈ K) as HK' by (intros x Hx; eapply HK, sublist_keys; done).
  destruct (jget key es) as [e|] eqn:E.
  - destruct (expired now e) eqn:Ee; simpl.
    + assert (key ≠ k) as Hne.
      { intros ->. rewrite Hk' in E. injection E as <-. unfold expired in Ee. simpl in Ee.
        apply bool_decide_eq_true in Ee. lia. }
      split; [done|]. split; [|split; [done|]].
      * apply jset_sub; [done|]. intros x Hx. apply HK'. by eapply jdel_keys_sub.
      * rewrite decide_False by done. by rewrite jget_jset_ne, jget_jdel_ne by done.
    + split; [done|]. split; [by apply jset_sub|]. destruct (decide (key = k)) as [->|Hne].
      * rewrite Hk' in E. injection E as <-. simpl. split; [done|]. by rewrite jget_jset_eq.
      * split; [done|]. by rewrite jget_jset_ne by done.
  - assert (key ≠ k) as Hne by (intros ->; congruence).
    rewrite decide_False by (pose proof (keys_fewer es K key Hwf' HK' Hkey E); lia). simpl.
    split; [done|]. split; [by apply jset_sub|]. split; [done|]. rewrite decide_False by done.
    by rewrite jget_jset_ne by done.
Qed.

Lemma verdicts_window (K : list string) w max trace st k c e_at :
  store_ok st → (∀ x, x ∈ (entries st).*1 → x ∈ K) → Z.of_nat (length K) <= maxEntries st →
  Forall (λ p, p.1 ∈ K ∧ p.2 < e_at) trace →
  jget k (entries st) = Some (mkREntry c e_at) →
  verdicts k w max trace st = expected max c (hits_of k trace).
Proof.
  intros Hok HK Hroom Ht. revert st c Hok HK Hroom. induction Ht as [|[key now] trace [Hk Hn] Ht IH];
    intros st c Hok HK Hroom Hc; [done|]. cbn [verdicts]. simpl in Hk, Hn.
  pose proof (hit_window K key w max now st k c e_at Hok HK Hk Hroom Hc Hn) as Hh.
  pose proof (hit_ok key w max now st Hok) as Hok'. destruct (hit key w max now st) as [d st'].
  destruct Hh as (Hm & HK' & Hd & Hc'). simpl in Hok'.
  unfold hits_of. simpl. rewrite (IH st' _ Hok' HK' ltac:(by rewrite Hm) Hc').
  destruct (decide (key = k)) as [->|Hne].
  - rewrite bool_decide_true by done. simpl. by rewrite (Hd eq_refl).
  - by rewrite bool_decide_false by done.
Qed.

(** The window of a key. Take a store and a set of keys no larger than its
    cap that includes all its keys. A first hit of [k] at [t0], when [k] has no
    bucket or an expired one, opens a window; whatever hits of these keys
    follow before [t0 + windowMs], of [k] and of others and whenever the lazy
    collection runs, exactly the first [max] hits of [k] are allowed. *)
Theorem rate_limit_window (K : list string) w max trace st k t0 :
  store_ok st → (∀ x, x ∈ (entries st).*1 → x ∈ K) → k ∈ K → Z.of_nat (length K) <= maxEntries st →
  (∀ e, jget k (entries st) = Some e → resetAt e <= t0) →
  Forall (λ p, p.1 ∈ K ∧ p.2 < t0 + w) trace →
  verdicts k w max ((k, t0) :: trace) st = expected max 0 (S (hits_of k trace)).
Proof.
  intros Hok HK Hk Hroom Hold Ht. cbn [verdicts expected].
  pose proof (hit_ok k w max t0 st Hok) as Hok'. destruct Hok as [Hwf Hm Hs].
  assert (let '(d, st') := hit k w max t0 st in
    maxEntries st' = maxEntries st ∧ (∀ x, x ∈ (entries st').*1 → x ∈ K) ∧
    allowed d = bool_decide (1 <= max) ∧ jget k (entries st') = Some (mkREntry 1 (t0 + w))) as Hfirst.
  { unfold hit. set (es := if decide ((hits st + 1) mod 1024 = 0) then collect t0 (entries st) else entries st).
    assert (es `sublist_of` entries st) as Hsub by (unfold es; case_decide; [apply collect_sublist|done]).
    pose proof (sublist_wf _ _ Hsub Hwf) as Hwf'.
    assert (∀ x, x ∈ es.*1 → x ∈ K) as HK' by (intros x Hx; eapply HK, sublist_keys; done).
    destruct (jget k es) as [e|] eqn:E; simpl.
    - assert (expired t0 e = true) as ->.
      { apply bool_decide_eq_true, Hold. by eapply sublist_jget. }
      split; [done|]. split; [|split; [done|apply jget_jset_eq]].
      apply jset_sub; [done|]. intros x Hx. apply HK'. by eapply jdel_keys_sub.
    - rewrite decide_False by (pose proof (keys_fewer es K k Hwf' HK' Hk E); lia).
      split; [done|]. split; [by apply jset_sub|]. split; [done|apply jget_jset_eq]. }
  destruct (hit k w max t0 st) as [d st']. destruct Hfirst as (Hm' & HK' & Hd & Hc). simpl in Hok'.
  rewrite decide_True by done. simpl. rewrite Hd. f_equal.
  apply (verdicts_window K w max trace st' k 1 (t0 + w) Hok' HK'); [lia|done|done].
Qed.

Lemma rate_limit_window_witness :
  verdicts "a" 1000 2 [("a", 0); ("b", 10); ("a", 20); ("a", 30)] (mkStore [] 10 0) = [true; true; false].
Proof.
  rewrite (rate_limit_window ["a"; "b"] 1000 2 [("b", 10); ("a", 20); ("a", 30)] (mkStore [] 10 0) "a" 0).
  - reflexivity.
  - split; [constructor|reflexivity|vm_compute; discriminate].
  - intros x Hx. apply elem_of_nil in Hx. destruct Hx.
  - apply list_elem_of_here.
  - vm_compute. discriminate.
  - intros e H. discriminate H.
  - repeat constructor; (apply list_elem_of_here || apply list_elem_of_further, list_elem_of_here).
Defined.

(** ** The middleware *)

(** The decisions of the loop, in order. *)
Fixpoint decisions (keys : list string) (w max t : Z) (st : RateStore) : list RateLimitDecision :=
  match keys with
  | [] => []
  | key :: keys' => let '(d, st') := hit key w max t st in d :: decisions keys' w max t st'
  end.

Lemma check_keys_spec keys w max t tr at_ st :
  let '((tr', at'), _) := check_keys keys w max t tr at_ st in
  let denied := List.filter (λ d, negb (allowed d)) (decisions keys w max t st) in
  at_ <= at' ∧ Forall (λ d, d_resetAt d <= at') denied ∧
  (is_Some tr' ↔ is_Some tr ∨ Exists (λ d, at_ <= d_resetAt d) denied).
Proof.
  revert tr at_ st. induction keys as [|key keys IH]; intros tr at_ st; simpl.
  { split; [lia|]. split; [constructor|]. rewrite Exists_nil. tauto. }
  destruct (hit key w max t st) as [d st']. destruct (allowed d) eqn:Ea; simpl.
  - specialize (IH tr at_ st'). destruct (check_keys keys w max t tr at_ st') as [[tr' at'] st2]. by rewrite Ea.
  - case_bool_decide as Eb.
    + specialize (IH (Some key) (d_resetAt d) st').
      destruct (check_keys keys w max t (Some key) (d_resetAt d) st') as [[tr' at'] st2].
      rewrite Ea. simpl. rewrite Forall_cons, Exists_cons.
      destruct IH as (H1 & H2 & H3). split; [lia|]. split; [done|]. rewrite H3. split; [tauto|]. intros _. left. eauto.
    + specialize (IH tr at_ st'). destruct (check_keys keys w max t tr at_ st') as [[tr' at'] st2].
      rewrite Ea. simpl. rewrite Forall_cons, Exists_cons.
      destruct IH as (H1 & H2 & H3). split; [lia|]. split; [split; [lia|done]|]. rewrite H3. tauto.
Qed.

Lemma ceil_seconds_covers x : x <= 1000 * ceil_seconds x.
Proof. unfold ceil_seconds. pose proof (Z.mul_div_le (- x) 1000). lia. Qed.

(** No bucket ends before the epoch of the clock. *)
Definition resets_ok (st : RateStore) : Prop := Forall (λ p, 0 <= resetAt p.2) (entries st).

Lemma resets_sub (es es' : list (string * REntry)) : es' `sublist_of` es →
  Forall (λ p, 0 <= resetAt p.2) es → Forall (λ p, 0 <= resetAt p.2) es'.
Proof. intros Hs. rewrite !Forall_forall. intros H p Hp. apply H. by eapply elem_of_sublist. Qed.

Lemma resets_jset k e (es : list (string * REntry)) : 0 <= resetAt e →
  Forall (λ p, 0 <= resetAt p.2) es → Forall (λ p, 0 <= resetAt p.2) (jset k e es).
Proof. intros He. induction 1 as [|[k' v'] es Hv Hes IH]; simpl; [by repeat constructor|]. case_decide; by constructor. Qed.

Lemma resets_jdel k (es : list (string * REntry)) :
  Forall (λ p, 0 <= resetAt p.2) es → Forall (λ p, 0 <= resetAt p.2) (jdel k es).
Proof. induction 1 as [|[k' v'] es Hv Hes IH]; simpl; [done|]. case_decide; [done|by constructor]. Qed.

Lemma hit_resets key w max now st : 0 <= now → 0 <= w → resets_ok st →
  resets_ok (hit key w max now st).2 ∧ 0 <= d_resetAt (hit key w max now st).1.
Proof.
  intros Hn Hw Hst. unfold hit.
  set (es := if decide ((hits st + 1) mod 1024 = 0) then collect now (entries st) else entries st).
  assert (Forall (λ p, 0 <= resetAt p.2) es) as Hes.
  { unfold es. case_decide; [eapply resets_sub; [apply collect_sublist|done]|done]. }
  destruct (jget key es) as [e|] eqn:E; [destruct (expired now e)|]; simpl.
  - split; [apply resets_jset; [simpl; lia|by apply resets_jdel]|lia].
  - apply jget_elem in E. rewrite Forall_forall in Hes. pose proof (Hes _ E) as He. simpl in He.
    split; [apply resets_jset; [done|by apply Forall_forall]|done].
  - split; [apply resets_jset; [simpl; lia|]|lia].
    case_decide; [eapply resets_sub; [apply make_room_sublist|done]|done].
Qed.

Lemma decisions_resets keys w max t st : 0 <= t → 0 <= w → resets_ok st →
  Forall (λ d, 0 <= d_resetAt d) (decisions keys w max t st).
Proof.
  intros Ht Hw. revert st. induction keys as [|key keys IH]; intros st Hst; simpl; [constructor|].
  destruct (hit_resets key w max t st Ht Hw Hst) as [Hst' Hd].
  destruct (hit key w max t st) as [d st']. constructor; [done|by apply IH].
Qed.

(** The middleware answers 429 exactly when one of the keys is over its
    limit, and its [Retry-After], in seconds, reaches past the end of the
    window of every key that was over it. *)
Theorem rate_limit_response keys w max t st :
  0 <= t → 0 <= w → resets_ok st →
  let denied := List.filter (λ d, negb (allowed d)) (decisions keys w max t st) in
  match (rateLimit keys w max t st).1 with
  | RatePass => denied = []
  | RateLimited s => denied ≠ [] ∧ Forall (λ d, d_resetAt d <= t + 1000 * s) denied
  end.
Proof.
  intros Ht Hw Hst denied. pose proof (decisions_resets keys w max t st Ht Hw Hst) as Hpos.
  pose proof (check_keys_spec keys w max t None 0 st) as Hc. unfold rateLimit.
  destruct (check_keys keys w max t None 0 st) as [[tr at'] st']. fold denied in Hc. destruct Hc as (H1 & H2 & H3).
  destruct tr as [key|]; simpl.
  - split.
    + intros E. destruct H3 as [H3 _]. destruct H3 as [H3|H3]; [eauto|by destruct H3|rewrite E in H3; by apply Exists_nil in H3].
    + eapply Forall_impl; [exact H2|]. intros d Hd. simpl in Hd. pose proof (ceil_seconds_covers (at' - t)). lia.
  - destruct denied as [|d ds] eqn:E; [done|]. exfalso. destruct H3 as [_ H3].
    destruct H3 as [x Hx]; [|discriminate Hx]. right. apply Exists_cons. left.
    rewrite Forall_forall in Hpos. apply Hpos.
    assert (In d denied) as [Hd _]%filter_In by (rewrite E; by left). by apply list_elem_of_In.
Qed.

Lemma rate_limit_response_witness :
  (rateLimit ["ip:1"; "ip:1"; "ip:1"] 60000 2 500 (mkStore [] 10 0)).1 = RateLimited 60 ∧
  Forall (λ d, d_resetAt d <= 500 + 1000 * 60)
    (List.filter (λ d, negb (allowed d)) (decisions ["ip:1"; "ip:1"; "ip:1"] 60000 2 500 (mkStore [] 10 0))).
Proof.
  split; [vm_compute; reflexivity|].
  exact (proj2 (rate_limit_response ["ip:1"; "ip:1"; "ip:1"] 60000 2 500 (mkStore [] 10 0)
    ltac:(discriminate) ltac:(discriminate) ltac:(constructor))).
Defined.

(** The store of a sequence of hits. *)
Definition run_hits (w max : Z) (trace : list (string * Z)) (st : RateStore) : RateStore :=
  fold_left (λ st p, (hit p.1 w max p.2 st).2) trace st.

(** Memory is bounded. However many keys are presented, in whatever order
    and at whatever times, the store never holds more than [maxEntries]
    buckets and never two for one key. *)
Theorem rate_store_bounded n w max trace st :
  newStore n = Ok st →
  let st' := run_hits w max trace st in
  Z.of_nat (length (entries st')) <= maxEntries st ∧ NoDup (entries st').*1.
Proof.
  intros Hn. assert (store_ok st ∧ maxEntries st = maxEntries st) as [Hok _].
  { split; [|done]. unfold newStore in Hn. destruct n as [n|]; [case_decide; [done|]|]; injection Hn as <-;
      (split; [constructor|simpl|unfold size_of; simpl]); unfold DEFAULT_MAX_ENTRIES; lia. }
  assert (∀ s, store_ok s → maxEntries s = maxEntries st →
    store_ok (run_hits w max trace s) ∧ maxEntries (run_hits w max trace s) = maxEntries st) as Hgen.
  { induction trace as [|[k t] trace IH]; intros s Hs Em; [done|]. simpl. apply IH; [by apply hit_ok|].
    unfold hit. by repeat (case_match; simpl). }
  destruct (Hgen st Hok eq_refl) as [[Hwf _ Hsz] Em]. simpl. unfold size_of in Hsz. rewrite <- Em. done.
Qed.

Lemma rate_store_bounded_witness :
  Z.of_nat (length (entries (run_hits 1000 5 [("a", 0); ("b", 1); ("c", 2)] (mkStore [] 2 0)))) <= 2.
Proof.
  exact (proj1 (rate_store_bounded (Some 2) 1000 5 [("a", 0); ("b", 1); ("c", 2)] (mkStore [] 2 0) eq_refl)).
Defined.
