(* ===== verification/Ingress.v ===== *)
(** Request ingress (src/src/api/ingress-admission.ts).

    Every request that carries a body is read through a counting stream: the
    bytes received so far are charged to the request, to its tenant and to the
    process until the last reference to the request is dropped. The references
    are the middleware itself and whatever work or response still holds the
    request. One state holds the counters of [IngressAdmission] and a record for
    the variables of each call of [admit]; every callback of the source is a
    step. The queue behind [acquire] is the modelled [FairAdmission]; here its
    answers are events. *)

From S2P Require Import Prelude.

(** ** Options *)

Record IngressOptions := mkIngress {
  io_maxRequests : Z;
  io_maxTenantRequests : Z;
  io_maxQueuedRequests : Z;
  io_maxTenantQueuedRequests : Z;
  io_maxMcpListeners : Z;
  io_maxTenantMcpListeners : Z;
  io_maxBytes : Z;
  io_maxTenantBytes : Z;
  io_maxBodyBytes : Z;
  io_waitMs : Z;
}.

(** The errors of a configuration name the setting. *)
Inductive OptionError :=
| NotAnInteger (name : string)
| NoRoomForOthers (name : string)
| TimerTooLong (name : string).

Definition MAX_TIMER_MS : Z := 2147483647.

Section options.
(** [env] is the environment, [Number] the safe integer a text denotes, if it
    denotes one. *)
Context (env : string → option string) (Number : string → option Z).

Definition read_option (name : string) (fallback minimum : Z) : res OptionError Z :=
  let value := match env name with
               | None => Some fallback
               | Some raw => if decide (raw = EmptyString) then Some fallback else Number raw
               end in
  match value with
  | None => Err (NotAnInteger name)
  | Some v => if v <? minimum then Err (NotAnInteger name) else Ok v
  end.

Definition assertTimerMs (name : string) (value : Z) : res OptionError Z :=
  if MAX_TIMER_MS <? value then Err (TimerTooLong name) else Ok value.

Definition refuse_if (c : bool) (e : OptionError) : res OptionError unit := if c then Err e else Ok tt.

Notation "'do' x <- m ; k" := (match m with Ok x => k | Err e => Err e end)
  (at level 200, x name, m at level 100, k at level 200).

Definition loadIngressOptions : res OptionError IngressOptions :=
  do maxRequests <- read_option "SQL_FS_MAX_INGRESS_REQUESTS" 8 1;
  do maxTenantRequests <- read_option "SQL_FS_MAX_INGRESS_TENANT_REQUESTS" (Z.max 1 (maxRequests / 2)) 1;
  do _ok <- refuse_if (Z.max 1 (maxRequests - 1) <? maxTenantRequests) (NoRoomForOthers "SQL_FS_MAX_INGRESS_TENANT_REQUESTS");
  do maxQueuedRequests <- read_option "SQL_FS_MAX_INGRESS_QUEUED_REQUESTS" maxRequests 0;
  let tenantQueueShare := if 1 <? maxQueuedRequests then maxQueuedRequests - 1 else maxQueuedRequests in
  do maxTenantQueuedRequests <- read_option "SQL_FS_MAX_INGRESS_TENANT_QUEUED_REQUESTS" (Z.min maxTenantRequests tenantQueueShare) 0;
  do _ok2 <- refuse_if (tenantQueueShare <? maxTenantQueuedRequests) (NoRoomForOthers "SQL_FS_MAX_INGRESS_TENANT_QUEUED_REQUESTS");
  do maxMcpListeners <- read_option "SQL_FS_MAX_INGRESS_MCP_LISTENERS" maxRequests 1;
  do maxTenantMcpListeners <- read_option "SQL_FS_MAX_INGRESS_TENANT_MCP_LISTENERS" (Z.max 1 (maxMcpListeners / 2)) 1;
  do _ok3 <- refuse_if (Z.max 1 (maxMcpListeners - 1) <? maxTenantMcpListeners) (NoRoomForOthers "SQL_FS_MAX_INGRESS_TENANT_MCP_LISTENERS");
  do maxBytes <- read_option "SQL_FS_MAX_INGRESS_BYTES" (128 * 1024 * 1024) 1;
  do maxTenantBytes <- read_option "SQL_FS_MAX_INGRESS_TENANT_BYTES" (Z.max 1 (maxBytes - (maxBytes + 3) / 4)) 1;
  do _ok4 <- refuse_if (Z.max 1 (maxBytes - 1) <? maxTenantBytes) (NoRoomForOthers "SQL_FS_MAX_INGRESS_TENANT_BYTES");
  do maxBodyBytes <- read_option "MAX_REQUEST_BODY_BYTES" (256 * 1024 * 1024) 1;
  do waitMs <- read_option "SQL_FS_MAX_INGRESS_WAIT_MS" 250 1;
  do waitMs <- assertTimerMs "SQL_FS_MAX_INGRESS_WAIT_MS" waitMs;
  Ok (mkIngress maxRequests maxTenantRequests maxQueuedRequests maxTenantQueuedRequests maxMcpListeners
        maxTenantMcpListeners maxBytes maxTenantBytes maxBodyBytes waitMs).
End options.

(** ** Requests *)

Inductive IngressFailure := FBusy | FTooLarge | FAborted | FShutdown | FInputError.

Inductive InputDemand := DQueued | DIdle | DPull.

(** How far the call of [admit] has come. *)
Inductive Phase := PAcquiring | PServing | PReturned.

#[export] Instance Phase_eq_dec : EqDecision Phase.
Proof. solve_decision. Defined.

(** The tenant is a string or the bootstrap symbol. *)
Definition Tenant : Type := option string.

(** The variables of one call of [admit]. [rq_held] lists the holds whose
    [held] is still true; [rq_granted] says that [releaseAdmission] is set and
    [rq_slotsReturned] counts its calls. *)
Record Req := mkReq {
  rq_tenant : Tenant;
  rq_body : bool;
  rq_phase : Phase;
  rq_retained : Z;
  rq_failure : option IngressFailure;
  rq_ended : bool;
  rq_demand : InputDemand;
  rq_reading : bool;
  rq_references : Z;
  rq_held : list nat;
  rq_granted : bool;
  rq_slotsReturned : Z;
}.

Record Ingress := mkState {
  ig_closed : bool;
  ig_retainedRawBytes : Z;
  ig_tenantBytes : list (Tenant * Z);
  ig_refused : Z;
  ig_payloadTooLarge : Z;
  ig_aborted : Z;
  ig_requests : list (nat * Req);
}.

Definition newIngress : Ingress := mkState false 0 [] 0 0 0 [].

Definition tenant_bytes (t : Tenant) (g : Ingress) : Z := default 0 (jget t (ig_tenantBytes g)).

Definition set_ended (e : bool) (d : InputDemand) (r : Req) : Req :=
  mkReq (rq_tenant r) (rq_body r) (rq_phase r) (rq_retained r) (rq_failure r) e d (rq_reading r) (rq_references r) (rq_held r)
    (rq_granted r) (rq_slotsReturned r).

(** [finishPull]: a resolved pull leaves no demand. *)
Definition finishPull (d : InputDemand) : InputDemand := match d with DPull => DIdle | _ => d end.

(** [cancel] *)
Definition cancel (r : Req) : Req := set_ended true (finishPull (rq_demand r)) r.

Definition set_failure (cause : IngressFailure) (r : Req) : Req :=
  mkReq (rq_tenant r) (rq_body r) (rq_phase r) (rq_retained r) (Some cause) (rq_ended r) (rq_demand r) (rq_reading r) (rq_references r)
    (rq_held r) (rq_granted r) (rq_slotsReturned r).

Definition set_phase (p : Phase) (granted : bool) (d : InputDemand) (r : Req) : Req :=
  mkReq (rq_tenant r) (rq_body r) p (rq_retained r) (rq_failure r) (rq_ended r) d (rq_reading r) (rq_references r) (rq_held r)
    granted (rq_slotsReturned r).

Definition set_refs (n : Z) (held : list nat) (r : Req) : Req :=
  mkReq (rq_tenant r) (rq_body r) (rq_phase r) (rq_retained r) (rq_failure r) (rq_ended r) (rq_demand r) (rq_reading r) n held
    (rq_granted r) (rq_slotsReturned r).

(** [startInput]: the reader is taken at most once. *)
Definition startInput (r : Req) : Req :=
  if negb (rq_body r) || rq_reading r || rq_ended r then r
  else mkReq (rq_tenant r) (rq_body r) (rq_phase r) (rq_retained r) (rq_failure r) (rq_ended r) (rq_demand r) true (rq_references r)
         (rq_held r) (rq_granted r) (rq_slotsReturned r).

Definition put_req (id : nat) (r : Req) (g : Ingress) : Ingress :=
  mkState (ig_closed g) (ig_retainedRawBytes g) (ig_tenantBytes g) (ig_refused g) (ig_payloadTooLarge g) (ig_aborted g)
    (jset id r (ig_requests g)).

Definition count_failure (cause : IngressFailure) (g : Ingress) : Ingress :=
  mkState (ig_closed g) (ig_retainedRawBytes g) (ig_tenantBytes g) (ig_refused g)
    (ig_payloadTooLarge g + match cause with FTooLarge => 1 | _ => 0 end)
    (ig_aborted g + match cause with FAborted => 1 | _ => 0 end) (ig_requests g).

(** ** Callbacks *)

Section callbacks.
Context (opts : IngressOptions).

Definition bodyLimit : Z := Z.min (io_maxBodyBytes opts) (io_maxTenantBytes opts).

(** Apply a callback to the variables of a call of [admit]. *)
Definition on_req (id : nat) (g : Ingress) (f : Req → Ingress) : Ingress :=
  match jget id (ig_requests g) with None => g | Some r => f r end.

(** [fail]: the first failure counts. *)
Definition fail (id : nat) (cause : IngressFailure) (g : Ingress) : Ingress :=
  on_req id g (λ r,
    match rq_failure r with
    | Some _ => g
    | None => put_req id (cancel (set_failure cause r)) (count_failure cause g)
    end).

(** What the last reference takes with it. *)
Definition settle_bytes (r : Req) (g : Ingress) : Ingress :=
  let remainingBytes := tenant_bytes (rq_tenant r) g - rq_retained r in
  mkState (ig_closed g) (ig_retainedRawBytes g - rq_retained r)
    (if decide (remainingBytes = 0) then jdel (rq_tenant r) (ig_tenantBytes g)
     else jset (rq_tenant r) remainingBytes (ig_tenantBytes g))
    (ig_refused g) (ig_payloadTooLarge g) (ig_aborted g) (ig_requests g).

Definition return_slot (r : Req) : Req :=
  mkReq (rq_tenant r) (rq_body r) (rq_phase r) (rq_retained r) (rq_failure r) (rq_ended r) (rq_demand r) (rq_reading r)
    (rq_references r) (rq_held r) (rq_granted r) (rq_slotsReturned r + if rq_granted r then 1 else 0).

(** [release], with the hold or the call of [admit] that gives it up already
    taken off [r]. *)
Definition release (id : nat) (r : Req) (g : Ingress) : Ingress :=
  let r := set_refs (rq_references r - 1) (rq_held r) r in
  if decide (rq_references r ≠ 0) then put_req id r g
  else put_req id (return_slot (cancel r)) (settle_bytes r g).

(** [hold], with a name for the closure it returns. It throws once the request
    is released. *)
Definition hold (id tok : nat) (g : Ingress) : Ingress :=
  on_req id g (λ r,
    if decide (rq_references r = 0 ∨ tok ∈ rq_held r) then g
    else put_req id (set_refs (rq_references r + 1) (tok :: rq_held r) r) g).

(** The closure [hold] returned: only its first call counts. *)
Definition drop_hold (id tok : nat) (g : Ingress) : Ingress :=
  on_req id g (λ r,
    if decide (tok ∈ rq_held r)
    then release id (set_refs (rq_references r) (List.filter (λ t, negb (bool_decide (t = tok))) (rq_held r)) r) g
    else g).

(** The entry of [admit]: [declared] is a finite content length. *)
Definition arrive (id : nat) (tenant : Tenant) (declared : option Z) (body aborted : bool) (g : Ingress) : Ingress :=
  if bool_decide (is_Some (jget id (ig_requests g))) then g
  else if match declared with Some n => bodyLimit <? n | None => false end then count_failure FTooLarge g
  else
    let g := put_req id (mkReq tenant body PAcquiring 0 None false DIdle false 1 [] false 0) g in
    if aborted then fail id FAborted g else g.

(** The callback of [acquire] when the request has to queue. *)
Definition queued (id : nat) (g : Ingress) : Ingress :=
  on_req id g (λ r,
    if decide (rq_phase r = PAcquiring)
    then put_req id (startInput (set_phase PAcquiring (rq_granted r) DQueued r)) g
    else g).

(** [acquire] returned. *)
Definition granted (id : nat) (g : Ingress) : Ingress :=
  on_req id g (λ r,
    if decide (rq_phase r = PAcquiring) then
      let g := put_req id (set_phase PServing true DIdle r) g in
      let g := if ig_closed g then fail id FShutdown g else g in
      on_req id g (λ r, put_req id (startInput r) g)
    else g).

(** The [finally] of [admit]. *)
Definition finish (id : nat) (g : Ingress) : Ingress :=
  on_req id g (λ r, release id (set_phase PReturned (rq_granted r) (rq_demand r) r) g).

(** [acquire] threw: [busy] for a [WorkerBusyError]. *)
Definition acquire_failed (id : nat) (busy : bool) (g : Ingress) : Ingress :=
  on_req id g (λ r,
    if decide (rq_phase r = PAcquiring)
    then finish id (fail id (if ig_closed g then FShutdown else if busy then FBusy else FInputError) g)
    else g).

(** The handlers behind the middleware are done, or a failure is answered. *)
Definition served (id : nat) (g : Ingress) : Ingress :=
  on_req id g (λ r, if decide (rq_phase r = PServing) then finish id g else g).

(** [pull] of the counting stream. *)
Definition pull (id : nat) (g : Ingress) : Ingress :=
  on_req id g (λ r,
    if negb (rq_reading r) || rq_ended r then g else put_req id (set_ended false DPull r) g).

(** The pump only passes on what is asked for. *)
Definition pumping (r : Req) : bool :=
  rq_reading r && negb (rq_ended r) && negb (match rq_demand r with DIdle => true | _ => false end).

Definition retain (n : Z) (r : Req) : Req :=
  mkReq (rq_tenant r) (rq_body r) (rq_phase r) (rq_retained r + n) (rq_failure r) (rq_ended r) (finishPull (rq_demand r))
    (rq_reading r) (rq_references r) (rq_held r) (rq_granted r) (rq_slotsReturned r).

(** A chunk of [n] bytes. *)
Definition chunk (id : nat) (n : Z) (g : Ingress) : Ingress :=
  on_req id g (λ r,
    if negb (pumping r) then g
    else if bodyLimit - rq_retained r <? n then fail id FTooLarge g
    else if (io_maxBytes opts - ig_retainedRawBytes g <? n) || (io_maxTenantBytes opts - tenant_bytes (rq_tenant r) g <? n)
    then fail id FBusy
           (mkState (ig_closed g) (ig_retainedRawBytes g) (ig_tenantBytes g) (ig_refused g + 1) (ig_payloadTooLarge g)
              (ig_aborted g) (ig_requests g))
    else put_req id (retain n r)
           (mkState (ig_closed g) (ig_retainedRawBytes g + n)
              (jset (rq_tenant r) (tenant_bytes (rq_tenant r) g + n) (ig_tenantBytes g))
              (ig_refused g) (ig_payloadTooLarge g) (ig_aborted g) (ig_requests g))).

(** The end of the body. *)
Definition input_done (id : nat) (g : Ingress) : Ingress :=
  on_req id g (λ r, if pumping r then put_req id (cancel r) g else g).

Definition input_failed (id : nat) (g : Ingress) : Ingress :=
  on_req id g (λ r, if pumping r then fail id FInputError g else g).

(** The consumer cancels the counting stream. *)
Definition stream_cancelled (id : nat) (g : Ingress) : Ingress :=
  on_req id g (λ r, if rq_reading r then put_req id (cancel r) g else g).

(** The client goes away; the listener is removed with the last reference. *)
Definition client_aborted (id : nat) (g : Ingress) : Ingress :=
  on_req id g (λ r, if decide (rq_references r = 0) then g else fail id FAborted g).

Definition close (g : Ingress) : Ingress :=
  mkState true (ig_retainedRawBytes g) (ig_tenantBytes g) (ig_refused g) (ig_payloadTooLarge g) (ig_aborted g) (ig_requests g).

Inductive Event :=
| EArrive (id : nat) (tenant : Tenant) (declared : option Z) (body aborted : bool)
| EQueued (id : nat) | EGranted (id : nat) | EAcquireFailed (id : nat) (busy : bool) | EServed (id : nat)
| EHold (id tok : nat) | EDrop (id tok : nat)
| EPull (id : nat) | EChunk (id : nat) (n : nat) | EDone (id : nat) | EInputFailed (id : nat)
| ECancelled (id : nat) | EAborted (id : nat) | EClose.

(** A callback that cannot be called in a state leaves it as it is. *)
Definition i_step (e : Event) (g : Ingress) : Ingress :=
  match e with
  | EArrive id tenant declared body aborted => arrive id tenant declared body aborted g
  | EQueued id => queued id g
  | EGranted id => granted id g
  | EAcquireFailed id busy => acquire_failed id busy g
  | EServed id => served id g
  | EHold id tok => hold id tok g
  | EDrop id tok => drop_hold id tok g
  | EPull id => pull id g
  | EChunk id n => chunk id (Z.of_nat n) g
  | EDone id => input_done id g
  | EInputFailed id => input_failed id g
  | ECancelled id => stream_cancelled id g
  | EAborted id => client_aborted id g
  | EClose => close g
  end.

Definition i_run (es : list Event) : Ingress := fold_left (λ g e, i_step e g) es newIngress.
End callbacks.

(** ** The charges *)

(** The sum of a measure over a map. *)
Definition jsum {K V} (w : V → Z) (m : list (K * V)) : Z := foldr (λ kv acc, w kv.2 + acc) 0 m.

Lemma jsum_jset {K V} `{EqDecision K} (w : V → Z) (k : K) v m :
  jsum w (jset k v m) = jsum w m + w v - match jget k m with Some v' => w v' | None => 0 end.
Proof.
  induction m as [|[k' v'] m IH]; simpl; [lia|]. case_decide; simpl; [lia|]. rewrite IH. lia.
Qed.

Lemma jsum_nonneg {K V} (w : V → Z) (m : list (K * V)) : (∀ v, v ∈ m.*2 → 0 ≤ w v) → 0 ≤ jsum w m.
Proof.
  induction m as [|[k v] m IH]; simpl; [done|]. intros Hw. pose proof (Hw v ltac:(left)). specialize (IH ltac:(intros; apply Hw; by right)). lia.
Qed.

Lemma jsum_nonzero {K V} `{EqDecision K} (w : V → Z) (m : list (K * V)) :
  jwf m → jsum w m ≠ 0 → ∃ k v, jget k m = Some v ∧ w v ≠ 0.
Proof.
  intros Hwf Hs. assert (Hex : ∃ kv, kv ∈ m ∧ w kv.2 ≠ 0).
  { clear Hwf. induction m as [|[k v] m IH]; simpl in *; [done|]. destruct (decide (w v = 0)) as [Hz|Hz].
    - destruct IH as (kv & Hin & Hw); [lia|]. exists kv. split; [by right|done].
    - exists (k, v). split; [left|done]. }
  destruct Hex as ([k v] & Hin & Hw). exists k, v. split; [by apply jget_Some|done].
Qed.

Lemma jsum_elem {K V} (w : V → Z) (m : list (K * V)) kv : (∀ v, v ∈ m.*2 → 0 ≤ w v) → kv ∈ m → w kv.2 ≤ jsum w m.
Proof.
  induction m as [|[k v] m IH]; intros Hw Hin; [by apply elem_of_nil in Hin|]. simpl.
  pose proof (Hw v ltac:(left)). assert (Hw' : ∀ v, v ∈ m.*2 → 0 ≤ w v) by (intros; apply Hw; by right).
  pose proof (jsum_nonneg w m Hw'). apply elem_of_cons in Hin as [->|Hin]; simpl; [lia|]. specialize (IH Hw' Hin). lia.
Qed.

Lemma jsum_ext {K V} (w w' : V → Z) (m : list (K * V)) : (∀ kv, kv ∈ m → w kv.2 = w' kv.2) → jsum w m = jsum w' m.
Proof.
  induction m as [|kv m IH]; intros He; [done|]. simpl. rewrite (He kv) by left. f_equal. apply IH. intros kv' ?. apply He. by right.
Qed.

(** A released request is charged nothing. *)
Definition charge (r : Req) : Z := if decide (rq_references r = 0) then 0 else rq_retained r.

Definition charge_to (t : Tenant) (r : Req) : Z := if decide (rq_tenant r = t) then charge r else 0.

Section safety.
Context (opts : IngressOptions).
#[local] Notation bodyLimit := (bodyLimit opts).

Definition req_ok (r : Req) : Prop :=
  0 ≤ rq_retained r ≤ Z.max 0 bodyLimit ∧
  rq_references r = (if decide (rq_phase r = PReturned) then 0 else 1) + Z.of_nat (length (rq_held r)) ∧
  NoDup (rq_held r) ∧
  (rq_references r = 0 → rq_ended r = true) ∧
  (rq_failure r ≠ None → rq_ended r = true) ∧
  rq_slotsReturned r = (if decide (rq_references r = 0) then if rq_granted r then 1 else 0 else 0) ∧
  (rq_phase r = PAcquiring → rq_granted r = false).

Record ig_inv (g : Ingress) : Prop := {
  ig_wf : jwf (ig_tenantBytes g);
  ig_rwf : jwf (ig_requests g);
  ig_req : ∀ id r, jget id (ig_requests g) = Some r → req_ok r;
  ig_total : ig_retainedRawBytes g = jsum charge (ig_requests g);
  ig_tenant : ∀ t, tenant_bytes t g = jsum (charge_to t) (ig_requests g);
  ig_max : ig_retainedRawBytes g ≤ Z.max 0 (io_maxBytes opts);
  ig_tmax : ∀ t, tenant_bytes t g ≤ Z.max 0 (io_maxTenantBytes opts);
  ig_keys : ∀ t n, jget t (ig_tenantBytes g) = Some n →
    ∃ id r, jget id (ig_requests g) = Some r ∧ rq_tenant r = t ∧ rq_references r ≠ 0;
}.

(** Two states that differ in flags and counters of outcomes only. *)
Definition same_bytes (g g' : Ingress) : Prop :=
  ig_retainedRawBytes g' = ig_retainedRawBytes g ∧ ig_tenantBytes g' = ig_tenantBytes g ∧ ig_requests g' = ig_requests g.

Lemma inv_same g g' : ig_inv g → same_bytes g g' → ig_inv g'.
Proof.
  intros [H1 H1' H2 H3 H4 H5 H6 H7] (Hr & Ht & Hq). unfold tenant_bytes in *. constructor; unfold tenant_bytes; by rewrite ?Hr, ?Ht, ?Hq.
Qed.

(** A request whose charge stays. *)
Definition same_charge (r r' : Req) : Prop :=
  rq_tenant r' = rq_tenant r ∧ rq_retained r' = rq_retained r ∧ (rq_references r' = 0 ↔ rq_references r = 0).

Lemma same_charge_charge r r' : same_charge r r' → charge r' = charge r ∧ ∀ t, charge_to t r' = charge_to t r.
Proof.
  intros (Ht & Hn & Href). assert (Hc : charge r' = charge r) by (unfold charge; repeat case_decide; naive_solver).
  split; [done|]. intros t. unfold charge_to. by rewrite Ht, Hc.
Qed.

Lemma inv_put id r r' g : ig_inv g → jget id (ig_requests g) = Some r → req_ok r' → same_charge r r' → ig_inv (put_req id r' g).
Proof.
  intros [H1 H1' H2 H3 H4 H5 H6 H7] Hr Hok Hsame. destruct (same_charge_charge r r' Hsame) as [Hc Hct]. constructor; simpl; try done.
  - by apply jset_wf.
  - intros id' r0. rewrite jget_jset. case_decide; [by intros [= <-] | apply H2].
  - rewrite jsum_jset, Hr, Hc, H3. lia.
  - intros t. unfold tenant_bytes in *. simpl. rewrite jsum_jset, Hr, Hct, H4. lia.
  - intros t n Hn. destruct (H7 t n Hn) as (id' & r0 & Hr0 & Ht0 & Href). destruct (decide (id = id')) as [->|Hne].
    + exists id', r'. rewrite jget_jset_eq. destruct Hsame as (Ht & _ & Hz). rewrite Hr in Hr0. injection Hr0 as <-. naive_solver.
    + exists id', r0. by rewrite jget_jset_ne.
Qed.

Lemma charge_nonneg r : req_ok r → 0 ≤ charge r ∧ ∀ t, 0 ≤ charge_to t r.
Proof. intros (Hr & _). unfold charge_to, charge. split; intros; repeat case_decide; lia. Qed.

Lemma charges_nonneg g t r : ig_inv g → r ∈ (ig_requests g).*2 → 0 ≤ charge_to t r.
Proof.
  intros Hi ([k r'] & -> & Hin)%list_elem_of_fmap. apply jget_Some in Hin; [|apply (ig_rwf g Hi)]. by apply charge_nonneg, (ig_req g Hi k).
Qed.

(** The charge of a live request is part of what its tenant is charged. *)
Lemma live_charged id r g : ig_inv g → jget id (ig_requests g) = Some r → rq_references r ≠ 0 →
  charge r = rq_retained r ∧ charge_to (rq_tenant r) r = rq_retained r.
Proof. intros Hi Hr Hl. unfold charge_to, charge. by rewrite (decide_True (P := rq_tenant r = rq_tenant r)), decide_False. Qed.

(** The last reference is gone: what is left of the request, and the bytes. *)
Lemma settled_inv id r r' g :
  ig_inv g → jget id (ig_requests g) = Some r → rq_references r ≠ 0 → req_ok r' →
  rq_tenant r' = rq_tenant r → rq_retained r' = rq_retained r → rq_references r' = 0 →
  ig_inv (put_req id r' (settle_bytes r g)).
Proof.
  intros Hi Hr Hl Hok Ht Hn Hz. pose proof Hi as [H1 H1' H2 H3 H4 H5 H6 H7].
  destruct (live_charged id r g Hi Hr Hl) as [Hc Hct]. destruct (H2 id r Hr) as ([Hnn _] & _).
  assert (Hc' : charge r' = 0) by (unfold charge; by rewrite decide_True).
  assert (Hct' : ∀ t, charge_to t r' = 0) by (intros t; unfold charge_to; rewrite Hc'; by case_decide).
  assert (Hten : ∀ t, tenant_bytes t (settle_bytes r g) = if decide (rq_tenant r = t) then tenant_bytes t g - rq_retained r else tenant_bytes t g).
  { intros t. unfold tenant_bytes, settle_bytes. simpl. case_decide as Hd; [rewrite jget_jdel by done|rewrite jget_jset]; case_decide; subst; simpl; done. }
  constructor; simpl.
  - case_decide; [by apply jdel_wf | by apply jset_wf].
  - by apply jset_wf.
  - intros id' r0. rewrite jget_jset. case_decide; [by intros [= <-] | apply H2].
  - rewrite jsum_jset, Hr, Hc, Hc', H3. lia.
  - intros t. change (tenant_bytes t (settle_bytes r g) = jsum (charge_to t) (jset id r' (ig_requests g))).
    rewrite Hten, jsum_jset, Hr, Hct', H4. case_decide as Hd; [subst; rewrite Hct; lia|]. unfold charge_to. rewrite decide_False by done. lia.
  - lia.
  - intros t. change (tenant_bytes t (settle_bytes r g) ≤ Z.max 0 (io_maxTenantBytes opts)). rewrite Hten. specialize (H6 t). case_decide; lia.
  - intros t n Hk. destruct (decide (rq_tenant r = t)) as [<-|Hne].
    + assert (Hs : jsum (charge_to (rq_tenant r)) (jset id r' (ig_requests g)) ≠ 0).
      { rewrite jsum_jset, Hr, Hct', Hct, <- H4. destruct (decide (tenant_bytes (rq_tenant r) g - rq_retained r = 0)) as [Hd|Hd]; [|lia].
        rewrite jget_jdel in Hk by done. by rewrite decide_True in Hk. }
      apply jsum_nonzero in Hs as (id' & r0 & Hr0 & Hw); [|by apply jset_wf]. exists id', r0. split; [done|].
      unfold charge_to, charge in Hw. repeat case_decide; naive_solver.
    + destruct (H7 t n) as (id' & r0 & Hr0 & Ht0 & Href).
      { revert Hk. case_decide; [rewrite jget_jdel_ne by done | rewrite jget_jset_ne by done]; done. }
      exists id', r0. rewrite jget_jset_ne; [done|]. intros ->. congruence.
Qed.

(** A request that gives up one of its references. *)
Definition giving_up (r : Req) : Prop :=
  0 ≤ rq_retained r ≤ Z.max 0 bodyLimit ∧
  rq_references r - 1 = (if decide (rq_phase r = PReturned) then 0 else 1) + Z.of_nat (length (rq_held r)) ∧
  NoDup (rq_held r) ∧ (rq_failure r ≠ None → rq_ended r = true) ∧ rq_slotsReturned r = 0 ∧
  (rq_phase r = PAcquiring → rq_granted r = false).

(** The invariant of a request after a change of its other variables. *)
Ltac req_solve := unfold req_ok, same_charge, giving_up in *; simpl in *; destruct_and?; split_and?; try done; try lia.

Lemma cancel_ok r : req_ok r → req_ok (cancel r).
Proof. intros Hok. req_solve. Qed.

Lemma failed_ok c r : req_ok r → req_ok (cancel (set_failure c r)).
Proof. intros Hok. req_solve. Qed.

Lemma startInput_ok r : req_ok r → req_ok (startInput r) ∧ same_charge r (startInput r).
Proof. intros Hok. unfold startInput. case_match; req_solve. Qed.

Lemma fail_inv id c g : ig_inv g → ig_inv (fail id c g).
Proof.
  intros Hi. unfold fail, on_req. destruct (jget id (ig_requests g)) as [r|] eqn:Hr; [|done]. case_match; [done|].
  eapply inv_put; [by eapply inv_same|exact Hr|by apply failed_ok, (ig_req g Hi id)|done].
Qed.

Lemma fail_keeps id c g r : jget id (ig_requests g) = Some r →
  ∃ r', jget id (ig_requests (fail id c g)) = Some r' ∧ rq_phase r' = rq_phase r ∧ rq_failure r' ≠ None.
Proof.
  intros Hr. unfold fail, on_req. rewrite Hr. destruct (rq_failure r) eqn:Hf.
  - exists r. by rewrite Hf.
  - eexists. simpl. by rewrite jget_jset_eq.
Qed.

Lemma release_req_inv id r0 r g :
  ig_inv g → jget id (ig_requests g) = Some r0 → rq_references r0 ≠ 0 →
  rq_tenant r = rq_tenant r0 → rq_retained r = rq_retained r0 → rq_references r = rq_references r0 → giving_up r →
  ig_inv (release id r g).
Proof.
  intros Hi Hr Hl Ht Hn Hf Hok. unfold release. simpl. case_decide as Hd.
  - eapply inv_put; [done|exact Hr| |req_solve]. unfold req_ok. simpl. rewrite (decide_False (P := rq_references r - 1 = 0)) by done. req_solve.
  - assert (Hs : settle_bytes (set_refs (rq_references r - 1) (rq_held r) r) g = settle_bytes r0 g) by (unfold settle_bytes; simpl; by rewrite Ht, Hn).
    rewrite Hs. eapply settled_inv; [done|exact Hr|done| |exact Ht|exact Hn|simpl; lia].
    unfold req_ok. simpl. rewrite (decide_True (P := rq_references r - 1 = 0)) by lia. req_solve.
Qed.

Lemma finish_inv id g r : ig_inv g → jget id (ig_requests g) = Some r → rq_phase r ≠ PReturned → ig_inv (finish id g).
Proof.
  intros Hi Hr Hp. unfold finish, on_req. rewrite Hr. destruct (ig_req g Hi id r Hr) as (H1 & H2 & H3 & H4 & H5 & H6 & H7).
  rewrite decide_False in H2 by done. rewrite decide_False in H6 by lia. eapply release_req_inv; try done; [lia|].
  req_solve.
Qed.

Lemma drop_inv id tok g : ig_inv g → ig_inv (drop_hold id tok g).
Proof.
  intros Hi. unfold drop_hold, on_req. destruct (jget id (ig_requests g)) as [r|] eqn:Hr; [|done]. case_decide as Hin; [|done].
  destruct (ig_req g Hi id r Hr) as (H1 & H2 & H3 & H4 & H5 & H6 & H7).
  assert (Hp : rq_held r ≡ₚ tok :: List.filter (λ t, negb (bool_decide (t = tok))) (rq_held r)).
  { apply (drop_by_id (λ t, t)); [by rewrite map_id|done]. }
  rewrite Hp in H2, H3. apply NoDup_cons in H3 as [_ H3]. cbn [length] in H2.
  assert (Hl : rq_references r ≠ 0) by (destruct (decide (rq_phase r = PReturned)); lia). rewrite decide_False in H6 by done.
  eapply release_req_inv; try done. unfold giving_up. simpl. split_and!; try done; lia.
Qed.

Lemma hold_inv id tok g : ig_inv g → ig_inv (hold id tok g).
Proof.
  intros Hi. unfold hold, on_req. destruct (jget id (ig_requests g)) as [r|] eqn:Hr; [|done]. case_decide as Hd; [done|].
  apply Decidable.not_or in Hd as [Hl Ht]. pose proof (ig_req g Hi id r Hr) as Hok.
  assert (Hpos : 0 < rq_references r) by (destruct Hok as (_ & H2 & _); destruct (decide (rq_phase r = PReturned)); lia).
  eapply inv_put; [done|exact Hr| |req_solve]. unfold req_ok in *. simpl.
  rewrite (decide_False (P := rq_references r + 1 = 0)) by lia. rewrite (decide_False (P := rq_references r = 0)) in Hok by lia. destruct_and!.
  split_and!; try done; try lia. by apply NoDup_cons.
Qed.

Lemma chunk_inv id n g : 0 ≤ n → ig_inv g → ig_inv (chunk opts id n g).
Proof.
  intros Hn Hi. unfold chunk, on_req. destruct (jget id (ig_requests g)) as [r|] eqn:Hr; [|done]. destruct (pumping r) eqn:Hp; [|done]. cbn [negb].
  destruct (Z.ltb_spec (bodyLimit - rq_retained r) n); [by apply fail_inv|]. destruct (_ || _) eqn:Hb; [by apply fail_inv; eapply inv_same|].
  apply orb_false_iff in Hb as [Hb1%Z.ltb_ge Hb2%Z.ltb_ge]. pose proof Hi as [H1 H1' H2 H3 H4 H5 H6 H7].
  pose proof (ig_req g Hi id r Hr) as Hok.
  assert (Hl : rq_references r ≠ 0).
  { intros Hz. unfold pumping in Hp. destruct Hok as (_ & _ & _ & He & _). rewrite (He Hz) in Hp. by rewrite andb_false_r in Hp. }
  destruct (live_charged id r g Hi Hr Hl) as [Hc Hct].
  assert (Hc' : charge (retain n r) = rq_retained r + n) by (unfold charge; simpl; by rewrite decide_False).
  constructor; simpl.
  - by apply jset_wf.
  - by apply jset_wf.
  - intros id' r0. rewrite jget_jset. case_decide; [intros [= <-] | apply H2]. req_solve.
  - rewrite jsum_jset, Hr, Hc, Hc', H3. lia.
  - intros t. unfold tenant_bytes in *. simpl. rewrite jget_jset, jsum_jset, Hr. unfold charge_to at 2. simpl. case_decide as Ht; simpl.
    + subst t. rewrite Hct, Hc', H4. lia.
    + unfold charge_to at 2. rewrite decide_False, H4 by done. lia.
  - lia.
  - intros t. specialize (H6 t). unfold tenant_bytes in *. simpl. rewrite jget_jset. case_decide; [subst; simpl; lia|done].
  - intros t m. rewrite jget_jset. case_decide as Ht.
    + intros _. exists id, (retain n r). by rewrite jget_jset_eq.
    + intros Hm. destruct (H7 t m Hm) as (id' & r0 & Hr0 & Ht0 & Href). exists id', r0. rewrite jget_jset_ne; [done|]. intros ->. congruence.
Qed.

Lemma arrive_inv id tenant declared body aborted g : ig_inv g → ig_inv (arrive opts id tenant declared body aborted g).
Proof.
  intros Hi. unfold arrive. case_bool_decide as Hex; [done|].
  destruct (match declared with Some n => bodyLimit <? n | None => false end); [by eapply inv_same|].
  apply eq_None_not_Some in Hex. set (r := mkReq _ _ _ _ _ _ _ _ _ _ _ _).
  assert (Hput : ig_inv (put_req id r g)); [|destruct aborted; [by apply fail_inv|done]].
  pose proof Hi as [H1 H1' H2 H3 H4 H5 H6 H7]. constructor; simpl; try done.
  - by apply jset_wf.
  - intros id' r0. rewrite jget_jset. case_decide; [intros [= <-] | apply H2]. unfold req_ok. simpl. split_and!; try done; try lia. by constructor.
  - rewrite jsum_jset, Hex. unfold charge at 2. simpl. lia.
  - intros t. unfold tenant_bytes in *. simpl. rewrite jsum_jset, Hex, H4. unfold charge_to at 3. case_decide; unfold charge; simpl; lia.
  - intros t n Hn. destruct (H7 t n Hn) as (id' & r0 & Hr0 & Hrest). exists id', r0. rewrite jget_jset_ne; [done|]. intros ->. congruence.
Qed.

Lemma phase_ok p d r : req_ok r → rq_phase r ≠ PReturned → p ≠ PReturned → (p = PAcquiring → rq_granted r = false) →
  ∀ granted, (p = PAcquiring → granted = rq_granted r) → req_ok (set_phase p granted d r) ∧ same_charge r (set_phase p granted d r).
Proof.
  intros (H1 & H2 & H3 & H4 & H5 & H6 & H7) Hr Hp Hg granted Hgr. rewrite decide_False in H2 by done.
  unfold req_ok, same_charge. simpl. rewrite (decide_False (P := p = PReturned)) by done.
  rewrite (decide_False (P := rq_references r = 0)) in * by lia. split_and!; try done; try lia. intros Ha. rewrite Hgr; auto.
Qed.

(** A callback that only touches flags of one request. *)
Lemma on_req_inv id g f : ig_inv g → (∀ r, jget id (ig_requests g) = Some r → ig_inv (f r)) → ig_inv (on_req id g f).
Proof. intros Hi Hf. unfold on_req. destruct (jget id (ig_requests g)) eqn:Hr; [by apply Hf | done]. Qed.

Lemma granted_inv id g : ig_inv g → ig_inv (granted id g).
Proof.
  intros Hi. apply on_req_inv; [done|]. intros r Hr. case_decide as Hp; [|done]. cbn zeta.
  destruct (phase_ok PServing DIdle r (ig_req g Hi id r Hr)) with (granted := true) as [Hok Hs]; [by rewrite Hp|done..|].
  assert (H1 : ig_inv (put_req id (set_phase PServing true DIdle r) g)) by (by eapply inv_put).
  set (g1 := put_req _ _ _) in *.
  assert (H2 : ig_inv (if ig_closed g1 then fail id FShutdown g1 else g1)) by (destruct (ig_closed g1); [by apply fail_inv|done]).
  apply on_req_inv; [done|]. intros r' Hr'. destruct (startInput_ok r' (ig_req _ H2 id r' Hr')) as [Hok' Hs']. by eapply inv_put.
Qed.

Lemma i_step_inv e g : ig_inv g → ig_inv (i_step opts e g).
Proof.
  intros Hi. destruct e as [id t d b a|id|id|id busy|id|id tok|id tok|id|id n|id|id|id|id|]; simpl.
  - by apply arrive_inv.
  - apply on_req_inv; [done|]. intros r Hr. case_decide as Hp; [|done]. pose proof (ig_req g Hi id r Hr) as Hok.
    destruct (phase_ok PAcquiring DQueued r Hok) with (granted := rq_granted r) as [Ho Hs]; [by rewrite Hp|done|by intros _; apply Hok|done|].
    destruct (startInput_ok _ Ho) as [Ho' Hs']. eapply inv_put; [done|exact Hr|done|]. unfold same_charge in *. naive_solver congruence.
  - by apply granted_inv.
  - apply on_req_inv; [done|]. intros r Hr. case_decide as Hp; [|done].
    match goal with |- ig_inv (finish id (fail id ?c g)) => destruct (fail_keeps id c g r Hr) as (r' & Hr' & Hp' & _) end.
    eapply finish_inv; [by apply fail_inv|exact Hr'|]. by rewrite Hp', Hp.
  - apply on_req_inv; [done|]. intros r Hr. case_decide as Hp; [|done]. eapply finish_inv; [done|exact Hr|]. by rewrite Hp.
  - by apply hold_inv.
  - by apply drop_inv.
  - apply on_req_inv; [done|]. intros r Hr. pose proof (ig_req g Hi id r Hr) as Hok. destruct (_ || _) eqn:Hb; [done|].
    apply orb_false_iff in Hb as [_ Hb]. eapply inv_put; [done|exact Hr| |req_solve]. unfold req_ok in *. simpl in *. rewrite Hb in Hok. destruct_and!. by split_and!.
  - apply chunk_inv; [lia|done].
  - apply on_req_inv; [done|]. intros r Hr. case_match; [|done]. eapply inv_put; [done|exact Hr|by apply cancel_ok, (ig_req g Hi id)|done].
  - apply on_req_inv; [done|]. intros r Hr. case_match; [by apply fail_inv|done].
  - apply on_req_inv; [done|]. intros r Hr. case_match; [|done]. eapply inv_put; [done|exact Hr|by apply cancel_ok, (ig_req g Hi id)|done].
  - apply on_req_inv; [done|]. intros r Hr. case_decide; [done|by apply fail_inv].
  - by eapply inv_same.
Qed.

Lemma i_run_inv es : ig_inv (i_run opts es).
Proof.
  unfold i_run. assert (Hnew : ig_inv newIngress) by (constructor; simpl; try done; unfold tenant_bytes; simpl; try lia; apply NoDup_nil_2).
  revert Hnew. generalize newIngress. induction es as [|e es IH]; intros g Hg; simpl; [done|]. by apply IH, i_step_inv.
Qed.

(** C37: The bytes of request bodies stay within their limits. After any sequence
    of callbacks the process and every tenant are charged exactly the bytes of
    the requests that are still referenced, never more than their limits, and no
    request holds more than a body may have. *)
Theorem ingress_limits es :
  0 ≤ io_maxBytes opts → 0 ≤ io_maxTenantBytes opts → 0 ≤ bodyLimit →
  let g := i_run opts es in
  ig_retainedRawBytes g = jsum charge (ig_requests g) ∧ ig_retainedRawBytes g ≤ io_maxBytes opts ∧
  (∀ t, tenant_bytes t g = jsum (charge_to t) (ig_requests g) ∧ tenant_bytes t g ≤ io_maxTenantBytes opts) ∧
  ∀ id r, jget id (ig_requests g) = Some r → 0 ≤ rq_retained r ≤ bodyLimit.
Proof.
  intros Hb Ht Hl g. pose proof (i_run_inv es) as [H1 H1' H2 H3 H4 H5 H6 H7]. fold g in H1, H1', H2, H3, H4, H5, H6, H7. split_and!.
  - done.
  - lia.
  - intros t. split; [done|]. specialize (H6 t). lia.
  - intros id r Hr. destruct (H2 id r Hr) as (Hn & _). lia.
Qed.

(** Nothing leaks. When every call of the middleware has returned and every
    hold was dropped, however often and in whatever order, no bytes are charged
    to the process or to any tenant, the table of tenants is empty, and every
    admission slot that was granted has been returned exactly once. *)
Theorem ingress_drains es :
  let g := i_run opts es in
  (∀ id r, jget id (ig_requests g) = Some r → rq_phase r = PReturned ∧ rq_held r = []) →
  ig_retainedRawBytes g = 0 ∧ ig_tenantBytes g = [] ∧
  ∀ id r, jget id (ig_requests g) = Some r → rq_slotsReturned r = if rq_granted r then 1 else 0.
Proof.
  intros g Hall. pose proof (i_run_inv es) as [H1 H1' H2 H3 H4 H5 H6 H7]. fold g in H1, H1', H2, H3, H4, H5, H6, H7.
  assert (Hz : ∀ id r, jget id (ig_requests g) = Some r → rq_references r = 0).
  { intros id r Hr. destruct (H2 id r Hr) as (_ & Href & _). destruct (Hall id r Hr) as [Hp Hh]. rewrite Href, Hh. by rewrite decide_True. }
  split_and!.
  - rewrite H3. destruct (decide (jsum charge (ig_requests g) = 0)) as [|Hne]; [done|]. apply jsum_nonzero in Hne as (id & r & Hr & Hw); [|done].
    unfold charge in Hw. by rewrite decide_True in Hw by (by eapply Hz).
  - destruct (ig_tenantBytes g) as [|[t n] m] eqn:Hm; [done|]. destruct (H7 t n) as (id & r & Hr & _ & Hl); [simpl; by rewrite decide_True|]. by apply Hz in Hr.
  - intros id r Hr. destruct (H2 id r Hr) as (_ & _ & _ & _ & _ & Hs & _). rewrite Hs. by rewrite decide_True by (by eapply Hz).
Qed.
End safety.

(** ** Room for other tenants *)

Section shares.
Context (env : string → option string) (Number : string → option Z).

Lemma read_option_min name fallback minimum v : read_option env Number name fallback minimum = Ok v → minimum ≤ v.
Proof. unfold read_option. repeat (case_match; try done); intros [= <-]; by apply Z.ltb_ge. Qed.

Lemma load_shares o : loadIngressOptions env Number = Ok o →
  1 ≤ io_maxTenantRequests o ≤ Z.max 1 (io_maxRequests o - 1) ∧ 1 ≤ io_maxBodyBytes o ∧
  1 ≤ io_maxTenantBytes o ≤ Z.max 1 (io_maxBytes o - 1) ∧ 1 ≤ io_maxBytes o ∧ 1 ≤ io_waitMs o ≤ MAX_TIMER_MS.
Proof.
  unfold loadIngressOptions, refuse_if, assertTimerMs. repeat (case_match; try done); intros [= <-]; simpl;
    repeat match goal with Hr : read_option _ _ _ _ _ = Ok _ |- _ => apply read_option_min in Hr end;
    repeat match goal with Hr : (if ?c then _ else _) = Ok _ |- _ => destruct c eqn:?; [done|]; clear Hr end; simplify_eq.
  all: rewrite ?Z.ltb_ge in *; lia.
Qed.

(** A tenant alone cannot use up the bytes of the process. *)
Theorem ingress_room_for_others o es t :
  loadIngressOptions env Number = Ok o → 1 < io_maxBytes o →
  (∀ t', t' ≠ t → tenant_bytes t' (i_run o es) = 0) → ig_retainedRawBytes (i_run o es) < io_maxBytes o.
Proof.
  intros Ho Hmax Halone. apply load_shares in Ho. pose proof (i_run_inv o es) as Hi. set (g := i_run o es) in *.
  assert (Hs : jsum charge (ig_requests g) = jsum (charge_to t) (ig_requests g)).
  { apply jsum_ext. intros [id r] Hin. simpl. pose proof (jsum_elem (charge_to (rq_tenant r)) _ _ (λ r', charges_nonneg o g _ r' Hi) Hin) as Hle.
    unfold charge_to. case_decide as Ht; [done|]. simpl in Hle. rewrite <- (ig_tenant o g Hi), Halone in Hle by done.
    unfold charge_to in Hle. rewrite decide_True in Hle by done. apply jget_Some in Hin; [|apply (ig_rwf o g Hi)].
    pose proof (charge_nonneg o r (ig_req o g Hi id r Hin)). lia. }
  pose proof (ig_tmax o g Hi t) as Hm. rewrite (ig_tenant o g Hi), <- Hs, <- (ig_total o g Hi) in Hm. lia.
Qed.
End shares.

(** ** A small process *)

Module Demo.
(** Two requests of one tenant share 10 bytes; one body is cut off by the limit
    of the tenant, the other is held by its response beyond the middleware. *)
Definition opts : IngressOptions := mkIngress 8 4 8 4 8 4 20 10 16 250.

Definition alice : Tenant := Some "alice".

Definition events : list Event :=
  [EArrive 1 alice None true false; EGranted 1; EPull 1; EChunk 1 6; EHold 1 7;
   EArrive 2 alice (Some 5) true false; EGranted 2; EPull 2; EChunk 2 5].

Example busy : rq_failure <$> jget 2%nat (ig_requests (i_run opts events)) = Some (Some FBusy) ∧ ig_retainedRawBytes (i_run opts events) = 6.
Proof. by vm_compute. Qed.

Definition drained : list Event := events ++ [EServed 1; EServed 2; EDrop 1 7; EDrop 1 7; EPull 1; EChunk 1 3].
End Demo.

Lemma ingress_limits_witness :
  ig_retainedRawBytes (i_run Demo.opts Demo.events) = 6 ∧ tenant_bytes Demo.alice (i_run Demo.opts Demo.events) ≤ 10.
Proof.
  destruct (ingress_limits Demo.opts Demo.events) as (_ & _ & Ht & _); [vm_compute; discriminate..|].
  split; [vm_compute; reflexivity | exact (proj2 (Ht Demo.alice))].
Defined.

Lemma ingress_drains_witness :
  ig_retainedRawBytes (i_run Demo.opts Demo.drained) = 0 ∧ ig_tenantBytes (i_run Demo.opts Demo.drained) = [].
Proof.
  destruct (ingress_drains Demo.opts Demo.drained) as (Hb & Ht & _).
  - intros id r Hr. apply jget_elem in Hr. vm_compute in Hr.
    repeat (apply elem_of_cons in Hr as [[= -> ->]|Hr]; [split; reflexivity|]). apply elem_of_nil in Hr. destruct Hr.
  - split; [exact Hb | exact Ht].
Defined.
