(* ===== verification/Mutex.v ===== *)
(** The distributed mutex (src/src/api/distributed-lock.ts), which guards a
    sandbox while the readers-writer lock is switched off.

    One key of Redis holds the token of the holder with its expiry. [m_step] is
    one command, the passing of time, or the end or loss of a client, as
    [d_step] of [DistLock] is for the readers-writer lock: the mutex is that lock
    without readers, and inherits its exclusion. *)

From S2P Require Import Prelude Breaker DistLock LockRuns.

(** The value of the key at time [now]. *)
Definition m_get (now : Z) (key : option (string * Z)) : option string :=
  match key with Some (token, e) => if decide (now < e) then Some token else None | None => None end.

(** [SET key token PX leaseMs NX] *)
Definition SET_NX (now : Z) (token : string) (lease_ms : Z) (key : option (string * Z)) : bool * option (string * Z) :=
  match m_get now key with
  | Some _ => (false, key)
  | None => (true, Some (token, now + lease_ms))
  end.

Definition RENEW_SCRIPT (now : Z) (token : string) (lease_ms : Z) (key : option (string * Z)) : Z * option (string * Z) :=
  if decide (m_get now key = Some token) then (1, Some (token, now + lease_ms)) else (0, key).

Definition RELEASE_SCRIPT (now : Z) (token : string) (key : option (string * Z)) : option (string * Z) :=
  if decide (m_get now key = Some token) then None else key.

(** The checks in their order; the message is the name of the rule. *)
Definition assertLockOptions (o : LockOptions) : res lock_error unit :=
  if decide (leaseMs o <= 0) then Err "leaseMs must be > 0"
  else if decide (renewMs o <= 0) then Err "renewMs must be > 0"
  else if decide (renewMs o >= leaseMs o) then Err "renewMs must be strictly less than leaseMs"
  else if decide (acquireTimeoutMs o < 0) then Err "acquireTimeoutMs must be >= 0"
  else if decide (acquireRetryMs o <= 0) then Err "acquireRetryMs must be > 0"
  else if decide (errorBudgetMs o < 0) then Err "errorBudgetMs must be >= 0"
  else Ok tt.

(** ** One run *)

Inductive RunResult :=
| RunRejected (message : lock_error)
| RunWaiting
| RunTimeout
| RunEnded (outcome : LockOutcome).

(** [rounds] are the rounds of the acquire loop, [ticks] the heartbeats until
    [fn] ends, [acquiredAt] the clock when the lock was taken. *)
Definition withDistributedLock (bo : BreakerOptions) (o : LockOptions) (readOnly : bool) (start : Z) (rounds : list Attempt) (acquiredAt : Z)
    (ticks : list (Z * RenewOutcome)) (fn : FnResult) (b : Breaker) : RunResult * Breaker :=
  match assertLockOptions o with
  | Err message => (RunRejected message, b)
  | Ok _ =>
      match acquire_loop bo (errorBudgetMs o) (start + acquireTimeoutMs o) rounds b (mkBudget None) with
      | (LAcquired, b') =>
          let lost := bool_decide (heartbeats (leaseMs o) (renewMs o) ticks (acquiredAt + leaseMs o) = None) in
          (RunEnded (lock_outcome readOnly lost fn), b')
      | (LPending, b') => (RunWaiting, b')
      | (_, b') => (RunTimeout, b')
      end
  end.

(** ** All clients *)

(** A client in its critical section, and the expiry it last heard of. *)
Record Holder := mkHolder { h_token : string; h_expire : Z }.

Record MSys := mkMSys { m_clock : Z; m_key : option (string * Z); m_holders : list Holder }.

Definition m_start (now : Z) : MSys := mkMSys now None [].

Section mutex.
Context (o : LockOptions).

Definition m_acquire (token : string) (heard : bool) (s : MSys) : MSys :=
  let '(ok, key) := SET_NX (m_clock s) token (leaseMs o) (m_key s) in
  mkMSys (m_clock s) key (if ok && heard then m_holders s ++ [mkHolder token (m_clock s + leaseMs o)] else m_holders s).

Definition m_renew (h : Holder) (heard : bool) (s : MSys) : MSys :=
  let '(n, key) := RENEW_SCRIPT (m_clock s) (h_token h) (leaseMs o) (m_key s) in
  mkMSys (m_clock s) key
    (if bool_decide (n = 1) && heard
     then map (λ h', if bool_decide (h_token h' = h_token h) then mkHolder (h_token h) (m_clock s + leaseMs o) else h') (m_holders s)
     else m_holders s).

(** The [finally]; [sent] is whether the release script ran. *)
Definition m_leave (h : Holder) (sent : bool) (s : MSys) : MSys :=
  mkMSys (m_clock s) (if sent then RELEASE_SCRIPT (m_clock s) (h_token h) (m_key s) else m_key s)
    (List.filter (λ h', negb (bool_decide (h_token h' = h_token h))) (m_holders s)).

Inductive m_step : MSys → MSys → Prop :=
| ms_tick s t : m_clock s <= t → m_step s (mkMSys t (m_key s) (m_holders s))
| ms_acquire s tk heard : tk ∉ map h_token (m_holders s) → m_step s (m_acquire tk heard s)
| ms_renew s h heard : h ∈ m_holders s → m_step s (m_renew h heard s)
| ms_leave s h sent : h ∈ m_holders s → m_step s (m_leave h sent s).

Definition m_reachable (t : Z) : MSys → Prop := rtc m_step (m_start t).

(** ** The readers-writer lock without readers *)

Definition as_client (h : Holder) : Client := mkClient (h_token h) CWriting (h_expire h).

Definition as_rw (s : MSys) : DSys := mkDSys (m_clock s) (mkR (m_key s) []) (map as_client (m_holders s)).

Lemma as_rw_tokens s : map c_token (clients (as_rw s)) = map h_token (m_holders s).
Proof. simpl. rewrite map_map. by apply map_ext. Qed.

Lemma as_rw_in h s : h ∈ m_holders s → as_client h ∈ clients (as_rw s).
Proof. intros Hh. simpl. apply list_elem_of_In, in_map. by apply list_elem_of_In. Qed.

Lemma live_key now s : live_writer now (redis (as_rw s)) = m_get now (m_key s).
Proof. done. Qed.

Lemma set_last tk ph e cs : tk ∉ map c_token cs →
  set_client (mkClient tk ph e) (cs ++ [mkClient tk CFlag e]) = cs ++ [mkClient tk ph e].
Proof.
  intros Hni. unfold set_client. rewrite map_app. simpl. rewrite bool_decide_true by done. f_equal.
  induction cs as [|c cs IH]; [done|]. simpl in *. apply not_elem_of_cons in Hni as [Hne Hni]. rewrite bool_decide_false by congruence. by rewrite IH.
Qed.

(** A successful [SET NX] is the flag and the empty set of readers. *)
Lemma acquire_simulated s tk heard : 0 < leaseMs o → tk ∉ map h_token (m_holders s) → rtc (d_step o 0) (as_rw s) (as_rw (m_acquire tk heard s)).
Proof.
  intros Hl Hni. assert (Hfree : tk ∉ map c_token (clients (as_rw s))) by (by rewrite as_rw_tokens).
  unfold m_acquire, SET_NX. destruct (m_get (m_clock s) (m_key s)) eqn:Eg; [destruct s; apply rtc_refl|].
  assert (Ef : d_acquire_flag o tk heard (as_rw s) =
    mkDSys (m_clock s) (mkR (Some (tk, m_clock s + leaseMs o)) [])
      (if heard then map as_client (m_holders s) ++ [mkClient tk CFlag (m_clock s + leaseMs o)] else map as_client (m_holders s))).
  { unfold d_acquire_flag, ACQUIRE_EXCLUSIVE_FLAG. cbn [clock as_rw]. rewrite live_key, Eg. by destruct heard. }
  eapply rtc_l; [by apply (ds_acquire_flag _ _ _ tk heard)|]. rewrite Ef. destruct heard; [|apply rtc_refl].
  eapply rtc_l; [apply (ds_check _ _ _ (mkClient tk CFlag (m_clock s + leaseMs o)) (m_clock s) true); [apply elem_of_app; right; by left|done|simpl; lia]|].
  unfold d_check, CHECK_READERS_DRAINED. cbn [clock redis c_token]. rewrite decide_True by (unfold live_writer; simpl; by rewrite decide_True by lia).
  cbn [reap List.filter readers length Z.of_nat fst snd writer clients c_expire]. rewrite bool_decide_true by done. cbn [andb]. rewrite set_last by exact Hfree.
  unfold as_rw. cbn [m_clock m_key m_holders andb]. rewrite map_app. apply rtc_refl.
Qed.

Lemma set_as_client tk e hs :
  set_client (mkClient tk CWriting e) (map as_client hs) = map as_client (map (λ h', if bool_decide (h_token h' = tk) then mkHolder tk e else h') hs).
Proof. unfold set_client. rewrite !map_map. apply map_ext. intros h. simpl. by case_bool_decide. Qed.

Lemma drop_as_client tk hs :
  drop_client tk (map as_client hs) = map as_client (List.filter (λ h', negb (bool_decide (h_token h' = tk))) hs).
Proof. unfold drop_client. induction hs as [|h hs IH]; [done|]. simpl. case_bool_decide; simpl; by rewrite IH. Qed.

Lemma mutex_simulated s s' : 0 < leaseMs o → m_step s s' → rtc (d_step o 0) (as_rw s) (as_rw s').
Proof.
  intros Hl [s0 t Ht|s0 tk heard Hni|s0 h heard Hh|s0 h sent Hh].
  - apply rtc_once. by apply (ds_tick _ _ (as_rw s0) t).
  - by apply acquire_simulated.
  - apply rtc_once. replace (as_rw (m_renew h heard s0)) with (d_renew_exclusive o (as_client h) heard (as_rw s0)); [by apply ds_renew_exclusive; [apply as_rw_in|]|].
    unfold d_renew_exclusive, RENEW_EXCLUSIVE, m_renew, RENEW_SCRIPT. cbn [clock as_rw c_token as_client]. rewrite live_key.
    case_decide; [|done]. cbn [clients]. rewrite bool_decide_true by done. destruct heard; simpl; [|done]. unfold as_rw. simpl. by rewrite set_as_client.
  - apply rtc_once. replace (as_rw (m_leave h sent s0)) with (d_leave (as_client h) sent (as_rw s0)); [by apply ds_leave, as_rw_in|].
    unfold d_leave, RELEASE_EXCLUSIVE, m_leave, RELEASE_SCRIPT, as_rw. cbn [clock redis clients c_token c_phase as_client m_clock m_key m_holders].
    rewrite drop_as_client. destruct sent; [|done]. change (live_writer (m_clock s0) (mkR (m_key s0) [])) with (m_get (m_clock s0) (m_key s0)). by case_decide.
Qed.

Lemma mutex_reachable t s : 0 < leaseMs o → m_reachable t s → d_reachable o 0 t (as_rw s).
Proof.
  intros Hl Hr. assert (∀ s0, rtc m_step s0 s → rtc (d_step o 0) (as_rw s0) (as_rw s)) as Hgen.
  { clear Hr. induction 1 as [|s0 s1 s2 Hs _ IH]; [apply rtc_refl|]. etransitivity; [by apply mutex_simulated|done]. }
  exact (Hgen _ Hr).
Qed.

(** C33: The mutex refines the readers-writer lock. Every step of the mutex is a
    run of the readers-writer lock (by the server's clock alone: its skew is 0) in
    which its holders are writers and nobody
    reads, and so two clients whose leases have not run out are never in their
    critical sections together, whatever answers are lost, leases lapse and
    clients crash. *)
Theorem mutex_refines_rwlock t s :
  assertLockOptions o = Ok tt → m_reachable t s →
  d_reachable o 0 t (as_rw s) ∧
  (∀ s', m_step s s' → rtc (d_step o 0) (as_rw s) (as_rw s')) ∧
  (∀ h h', h ∈ m_holders s → h' ∈ m_holders s → m_clock s < h_expire h → m_clock s < h_expire h' → h = h').
Proof.
  intros Ho Hr. assert (Hl : 0 < leaseMs o) by (unfold assertLockOptions in Ho; case_decide; [done|lia]).
  pose proof (mutex_reachable t s Hl Hr) as Hd. split; [done|]. split; [intros s'; by apply mutex_simulated|].
  intros h h' Hh Hh' Hlive Hlive'. pose proof (d_reachable_inv o 0 t _ Hd) as Hi.
  pose proof (flag_live o 0 _ _ Hi (as_rw_in h s Hh) ltac:(done) Hlive) as E. pose proof (flag_live o 0 _ _ Hi (as_rw_in h' s Hh') ltac:(done) Hlive') as E'.
  assert (as_client h = as_client h') as Ec by (apply (token_inj o 0 _ _ _ Hi); [by apply as_rw_in|by apply as_rw_in|congruence]).
  destruct h, h'. by injection Ec as -> ->.
Qed.
End mutex.

(** Two clients try, one holds the lock, and lets it lapse; the other takes it. *)
Definition demo_mutex : MSys := m_acquire demo_lock_options "b" true (mkMSys 60000 (Some ("a", 60000)) [mkHolder "a" 60000]).

Lemma demo_mutex_reachable : m_reachable demo_lock_options 0 demo_mutex.
Proof.
  eapply rtc_l; [apply (ms_acquire _ _ "a" true); apply not_elem_of_nil|].
  eapply rtc_l; [apply (ms_acquire _ _ "b" true); by refine (bool_decide_unpack _ _)|].
  eapply rtc_l; [apply (ms_tick _ _ 60000); vm_compute; discriminate|].
  eapply rtc_l; [apply (ms_acquire _ _ "b" true); by refine (bool_decide_unpack _ _)|apply rtc_refl].
Qed.

Lemma mutex_refines_rwlock_witness :
  m_holders demo_mutex = [mkHolder "a" 60000; mkHolder "b" 120000] ∧
  Forall (λ h, h_expire h <= m_clock demo_mutex ∨ h = mkHolder "b" 120000) (m_holders demo_mutex).
Proof.
  split; [vm_compute; reflexivity|]. apply Forall_forall. intros h Hh. destruct (decide (h_expire h <= m_clock demo_mutex)) as [|Hl]; [by left|right].
  destruct (mutex_refines_rwlock demo_lock_options 0 demo_mutex eq_refl demo_mutex_reachable) as (_ & _ & Hex).
  apply Hex; [exact Hh|apply list_elem_of_further, list_elem_of_here|lia|vm_compute; reflexivity].
Defined.

(** A lease that is lost after the work: the answer depends on whether the work
    could write. *)
Example lost_after_work :
  let run readOnly := (withDistributedLock DEFAULT_OPTIONS demo_lock_options readOnly 0 [mkAttempt 0 (Some RDone) 1] 1 [(20001, OwnershipLost)] FnReturned newBreaker).1 in
  run true = RunEnded OLockLost ∧ run false = RunEnded OLockLostAfterCommit.
Proof. vm_compute. by split. Qed.
