(* ===== verification/BlobCache.v ===== *)
(** The Redis cache of file contents (src/src/sql-fs/redis-blob-cache.ts) and the
    reads and writes of contents that go through it
    (src/src/sql-fs/dialects/postgres/blobs.ts).

    Many replicas, each with one connection, one breaker and one account of its
    unfinished backfills, share one Redis; each tenant has its own database.
    Every [await] of the source ends a step. A command that was sent can take
    effect at any later time, also after its caller has given up, and any key can
    vanish at any time: its time is up, it is evicted or unlinked. *)

From S2P Require Import Prelude Errors Paths Store Breaker.

(** ** Keys *)

Definition hex_char (n : nat) : ascii := default "0"%char (String.get n "0123456789abcdef").

Definition nibble (b3 b2 b1 b0 : bool) : nat := (8 * Nat.b2n b3 + 4 * Nat.b2n b2 + 2 * Nat.b2n b1 + Nat.b2n b0)%nat.

(** [Buffer.toString("hex")] *)
Fixpoint toHex (bytes : string) : string :=
  match bytes with
  | EmptyString => EmptyString
  | String (Ascii b0 b1 b2 b3 b4 b5 b6 b7) rest =>
      String (hex_char (nibble b7 b6 b5 b4)) (String (hex_char (nibble b3 b2 b1 b0)) (toHex rest))
  end.

Definition blob_key (tenantId sha256 : string) : string := "vfs:" +:+ tenantId +:+ ":blob:" +:+ toHex sha256.

Lemma hex_char_inj a3 a2 a1 a0 b3 b2 b1 b0 : hex_char (nibble a3 a2 a1 a0) = hex_char (nibble b3 b2 b1 b0) → (a3, a2, a1, a0) = (b3, b2, b1, b0).
Proof. destruct a3, a2, a1, a0, b3, b2, b1, b0; by intros. Qed.

Lemma toHex_inj s s' : toHex s = toHex s' → s = s'.
Proof.
  revert s'. induction s as [|[a0 a1 a2 a3 a4 a5 a6 a7] s IH]; intros [|[b0 b1 b2 b3 b4 b5 b6 b7] s']; [done..|]. cbn [toHex].
  intros [= [= -> -> -> ->]%hex_char_inj [= -> -> -> ->]%hex_char_inj ->%IH]. done.
Qed.

Definition colon : ascii := ":".

Lemma toHex_no_colon s : str_includes colon (toHex s) = false.
Proof.
  assert (Hc : ∀ b3 b2 b1 b0, hex_char (nibble b3 b2 b1 b0) ≠ colon) by (by intros [] [] [] []).
  induction s as [|[b0 b1 b2 b3 b4 b5 b6 b7] s IH]; [done|]. cbn [toHex str_includes]. rewrite IH, !bool_decide_eq_false_2 by apply Hc. done.
Qed.

(** What follows the last colon determines what precedes it. *)
Lemma last_colon a b h h' : a +:+ String colon h = b +:+ String colon h' → str_includes colon h = false → str_includes colon h' = false → a = b ∧ h = h'.
Proof.
  revert b. induction a as [|x a IH]; intros [|y b]; simpl.
  - intros [= ->]. done.
  - intros [= <- ->] Hh. rewrite str_includes_app in Hh. cbn [str_includes] in Hh. by rewrite (bool_decide_eq_true_2 (colon = colon) eq_refl), orb_true_r in Hh.
  - intros [= -> <-] _ Hh. rewrite str_includes_app in Hh. cbn [str_includes] in Hh. by rewrite (bool_decide_eq_true_2 (colon = colon) eq_refl), orb_true_r in Hh.
  - intros [= <- E] Hh Hh'. by destruct (IH _ E Hh Hh') as [-> ->].
Qed.

Lemma str_app_inj_r a b c : a +:+ c = b +:+ c → a = b.
Proof.
  assert (Hlong : ∀ x d, c ≠ String x d +:+ c).
  { intros x d E. apply (f_equal str_len) in E. rewrite str_len_app in E. pose proof (str_len_nonneg d). unfold str_len in *. cbn [String.length] in E. lia. }
  revert b. induction a as [|x a IH]; intros [|y b] E; [done|by destruct (Hlong y b)|by destruct (Hlong x a)|]. injection E as <- E. by rewrite (IH _ E).
Qed.

(** Whatever the tenants are called, their keys are apart. *)
Lemma blob_key_inj t sha t' sha' : blob_key t sha = blob_key t' sha' → t = t' ∧ sha = sha'.
Proof.
  unfold blob_key. intros E%str_app_inj_l.
  assert (∀ t h, t +:+ ":blob:" +:+ h = (t +:+ ":blob") +:+ String colon h) as Hk by (intros u h; by rewrite str_app_assoc).
  rewrite !Hk in E. apply last_colon in E as [E1 E2]; [|apply toHex_no_colon..]. split; [by apply str_app_inj_r in E1|by apply toHex_inj].
Qed.

(** ** One connection *)

(** [withBreaker]: a breaker was passed. *)
Record CacheOptions := mkCacheOptions { enabled : bool; maxBytes : Z; maxInFlight : Z; maxInFlightBytes : Z; withBreaker : bool }.

Record BackfillOccupancy := mkOccupancy {
  inFlight : Z;
  inFlightBytes : Z;
  oc_maxInFlight : Z;
  oc_maxInFlightBytes : Z;
  dropped : Z;
  lastDropLogAt : Z;
}.

(** [existing]: what the connection already has. *)
Definition occupancyFor (existing : option BackfillOccupancy) (maxInFlight maxInFlightBytes : Z) : res string BackfillOccupancy :=
  match existing with
  | Some oc =>
      if decide (oc_maxInFlight oc ≠ maxInFlight ∨ oc_maxInFlightBytes oc ≠ maxInFlightBytes) then Err "RedisBlobCache: conflicting backfill limits on the same client"
      else Ok oc
  | None => Ok (mkOccupancy 0 0 maxInFlight maxInFlightBytes 0 0)
  end.

(** A row of the query that chooses what to load ahead. *)
Record MetaRow := mkMetaRow { mr_inodeId : Z; mr_sha256 : string; mr_size : Z }.

(** A call that waits: for Redis, or for the database. *)
Inductive BlobCall :=
| CGet (tenant sha256 : string) (probe : option Ticket)
| CSelect (tenant sha256 : string)
| CSet (data : string) (probe : option Ticket)
| CMget (tenant : string) (rows : list MetaRow) (out : list (option string)) (probe : option Ticket)
| CJoin (tenant : string) (rows : list MetaRow) (hits : list (option string)).

Record Conn := mkConn {
  c_occupancy : BackfillOccupancy;
  c_breaker : Breaker;
  c_calls : gmap nat BlobCall;
  c_next : nat;
}.

Definition set_occupancy (oc : BackfillOccupancy) (c : Conn) : Conn := mkConn oc (c_breaker c) (c_calls c) (c_next c).
Definition set_breaker (b : Breaker) (c : Conn) : Conn := mkConn (c_occupancy c) b (c_calls c) (c_next c).
Definition set_calls (calls : gmap nat BlobCall) (c : Conn) : Conn := mkConn (c_occupancy c) (c_breaker c) calls (c_next c).
Definition add_call (call : BlobCall) (c : Conn) : Conn := mkConn (c_occupancy c) (c_breaker c) (<[c_next c := call]> (c_calls c)) (S (c_next c)).

Definition DROP_LOG_INTERVAL_MS : Z := 5000.
Definition CHUNK : nat := 1024.

Section cache.
Context (o : CacheOptions) (bo : BreakerOptions) (hash : string → string).

Definition newConn : Conn := mkConn (mkOccupancy 0 0 (maxInFlight o) (maxInFlightBytes o) 0 0) newBreaker ∅ 0.

Definition tryAcquireCircuit (now : Z) (c : Conn) : bool * option Ticket * Conn :=
  if withBreaker o
  then let '(admitted, ticket, b) := tryAcquire bo (c_breaker c) now in (admitted, ticket, set_breaker b c)
  else (true, None, c).

(** [recordSuccess] or [recordFailure] *)
Definition settle (ok : bool) (probe : option Ticket) (now : Z) (c : Conn) : Conn :=
  if withBreaker o
  then set_breaker (if ok then recordSuccess (c_breaker c) probe else recordFailure bo (c_breaker c) probe now) c
  else c.

Definition recordDrop (now : Z) (c : Conn) : Conn :=
  let oc := c_occupancy c in
  set_occupancy (mkOccupancy (inFlight oc) (inFlightBytes oc) (oc_maxInFlight oc) (oc_maxInFlightBytes oc) (dropped oc + 1)
    (if decide (now - lastDropLogAt oc < DROP_LOG_INTERVAL_MS) then lastDropLogAt oc else now)) c.

Definition occupy (count bytes : Z) (c : Conn) : Conn :=
  let oc := c_occupancy c in
  set_occupancy (mkOccupancy (inFlight oc + count) (inFlightBytes oc + bytes) (oc_maxInFlight oc) (oc_maxInFlightBytes oc) (dropped oc) (lastDropLogAt oc)) c.

(** [set] up to its [await]; what is sent, if anything. *)
Definition set_start (tenant sha256 data : string) (now : Z) (c : Conn) : option (string * string) * Conn :=
  if negb (enabled o) then (None, c)
  else if decide (maxBytes o < str_len data) then (None, c)
  else if decide (maxInFlight o ≤ inFlight (c_occupancy c)) then (None, recordDrop now c)
  else if decide (maxInFlightBytes o < inFlightBytes (c_occupancy c) + str_len data) then (None, recordDrop now c)
  else
    let '(admitted, ticket, c1) := tryAcquireCircuit now c in
    if negb admitted then (None, c1)
    else (Some (blob_key tenant sha256, data), add_call (CSet data ticket) (occupy 1 (str_len data) c1)).

(** [set] after its [await], its [finally] included. *)
Definition set_end (id : nat) (ok : bool) (now : Z) (c : Conn) : Conn :=
  match c_calls c !! id with
  | Some (CSet data probe) => occupy (-1) (- str_len data) (settle ok probe now (set_calls (delete id (c_calls c)) c))
  | _ => c
  end.

(** Backfills of several contents, one after the other. *)
Fixpoint backfill_all (tenant : string) (rows : list (string * string)) (now : Z) (c : Conn) : list (string * string) * Conn :=
  match rows with
  | [] => ([], c)
  | (sha, data) :: rest =>
      let '(sent, c1) := set_start tenant sha data now c in
      let '(more, c2) := backfill_all tenant rest now c1 in
      (match sent with Some command => command :: more | None => more end, c2)
  end.

(** ** Reads of one content *)

(** What a step answers to the caller. *)
Inductive BlobAnswer :=
| Waiting
| ReadDone (tenant sha256 : string) (result : option string)
| Warmed (tenant : string) (rows : list MetaRow) (result : list (Z * string)).

(** [getBlobNoTx] and [getBlob] up to their first [await]. *)
Definition get_start (tenant sha256 : string) (now : Z) (c : Conn) : Conn :=
  if negb (enabled o) then add_call (CSelect tenant sha256) c
  else
    let '(admitted, ticket, c1) := tryAcquireCircuit now c in
    add_call (if admitted then CGet tenant sha256 ticket else CSelect tenant sha256) c1.

(** [reply]: [None] when the command failed. *)
Definition get_reply (id : nat) (reply : option (option string)) (now : Z) (c : Conn) : BlobAnswer * Conn :=
  match c_calls c !! id with
  | Some (CGet tenant sha256 probe) =>
      let done := settle true probe now (set_calls (delete id (c_calls c)) c) in
      match reply with
      | Some (Some bytes) => (ReadDone tenant sha256 (Some bytes), done)
      | Some None => (Waiting, set_calls (<[id := CSelect tenant sha256]> (c_calls c)) done)
      | None => (Waiting, settle false probe now (set_calls (<[id := CSelect tenant sha256]> (c_calls c)) c))
      end
  | _ => (Waiting, c)
  end.

(** The row, and its backfill. *)
Definition get_select (id : nat) (d : db) (now : Z) (c : Conn) : BlobAnswer * list (string * string) * Conn :=
  match c_calls c !! id with
  | Some (CSelect tenant sha256) =>
      let c1 := set_calls (delete id (c_calls c)) c in
      match getBlobNoTx sha256 d with
      | None => (ReadDone tenant sha256 None, [], c1)
      | Some bytes => let '(sent, c2) := backfill_all tenant [(sha256, bytes)] now c1 in (ReadDone tenant sha256 (Some bytes), sent, c2)
      end
  | _ => (Waiting, [], c)
  end.

(** ** Loading ahead *)

Fixpoint running (total : Z) (rows : list MetaRow) : list (MetaRow * Z) :=
  match rows with
  | [] => []
  | r :: rest => (r, total + mr_size r) :: running (total + mr_size r) rest
  end.

(** The files of the sandbox by size and id, and the running total of the sizes. *)
Definition file_rows (sandboxId : string) (d : db) : list MetaRow :=
  omap (λ e : Z * InodeRow, if decide (i_sandboxId e.2 = sandboxId ∧ i_kind e.2 = FILE) then (λ sha, mkMetaRow e.1 sha (i_size e.2)) <$> i_contentSha256 e.2 else None)
    (map_to_list (inodes d)).

Definition metaRows (sandboxId : string) (budget : Z) (d : db) : list MetaRow :=
  fst <$> List.filter (λ e, e.2 <=? budget) (running 0 (sort_on mr_size (sort_on mr_inodeId (file_rows sandboxId d)))).

(** [getBlobsForSandbox] up to the first [await] on Redis, [mget] included. *)
Definition prewarm_start (tenant sandboxId : string) (budget : Z) (d : db) (now : Z) (c : Conn) : BlobAnswer * Conn :=
  if decide (budget ≤ 0) then (Warmed tenant [] [], c)
  else
    let rows := metaRows sandboxId budget d in
    if decide (length rows = 0%nat) then (Warmed tenant [] [], c)
    else if negb (enabled o) then (Waiting, add_call (CJoin tenant rows (const None <$> rows)) c)
    else
      let '(admitted, ticket, c1) := tryAcquireCircuit now c in
      (Waiting, add_call (if admitted then CMget tenant rows [] ticket else CJoin tenant rows (const None <$> rows)) c1).

(** The keys of the next chunk. *)
Definition chunk_keys (tenant : string) (rows : list MetaRow) (out : list (option string)) : list string :=
  (λ r, blob_key tenant (mr_sha256 r)) <$> take CHUNK (drop (length out) rows).

(** [mget]: the reply to one chunk. *)
Definition mget_reply (id : nat) (reply : option (list (option string))) (now : Z) (c : Conn) : Conn :=
  match c_calls c !! id with
  | Some (CMget tenant rows out probe) =>
      match reply with
      | None => settle false probe now (set_calls (<[id := CJoin tenant rows (const None <$> rows)]> (c_calls c)) c)
      | Some bufs =>
          let out' := out ++ bufs in
          if decide (length rows ≤ length out')%nat
          then settle true probe now (set_calls (<[id := CJoin tenant rows out']> (c_calls c)) c)
          else set_calls (<[id := CMget tenant rows out' probe]> (c_calls c)) c
      end
  | _ => c
  end.

(** The hashes Redis did not have, each once. *)
Definition misses (rows : list MetaRow) (hits : list (option string)) : list (string * unit) :=
  fold_left (λ m (e : MetaRow * option string), match e.2 with None => jset (mr_sha256 e.1) tt m | Some _ => m end) (zip rows hits) [].

Definition pgRows (missing : list (string * unit)) (d : db) : list (string * string) :=
  omap (λ sha, (λ b, (sha, b_data b)) <$> blobs d !! sha) (jkeys missing).

Definition warm_result (rows : list MetaRow) (hits : list (option string)) (pgHits : list (string * string)) : list (Z * string) :=
  omap (λ e : MetaRow * option string, pair (mr_inodeId e.1) <$> match e.2 with Some bytes => Some bytes | None => jget (mr_sha256 e.1) pgHits end) (zip rows hits).

(** The join with the table, the backfills and the result. *)
Definition prewarm_join (id : nat) (d : db) (now : Z) (c : Conn) : BlobAnswer * list (string * string) * Conn :=
  match c_calls c !! id with
  | Some (CJoin tenant rows hits) =>
      let pgHits := pgRows (misses rows hits) d in
      let '(sent, c1) := backfill_all tenant pgHits now (set_calls (delete id (c_calls c)) c) in
      (Warmed tenant rows (warm_result rows hits pgHits), sent, c1)
  | _ => (Waiting, [], c)
  end.

(** ** Removal *)

(** The keys of the first [reached] chunks are unlinked; a failure ends the loop. *)
Definition mdel (tenant : string) (sha256s : list string) (now : Z) (reached : nat) (c : Conn) : list string :=
  if negb (enabled o) || (withBreaker o && isOpen bo (c_breaker c) now) then []
  else take (CHUNK * reached) (blob_key tenant <$> sha256s).
End cache.

(** ** The deployment *)

(** [n_sent]: the SET commands that were sent. [n_written] is history: what each
    tenant has handed to its store. *)
Record Net := mkNet {
  n_dbs : gmap string db;
  n_redis : gmap string string;
  n_sent : list (string * string);
  n_conns : gmap nat Conn;
  n_written : list (string * string);
}.

Inductive BlobEvent :=
| ECommitBlob (replica : nat) (tenant data : string) (now : Z)
| ECommitBatch (replica : nat) (tenant : string) (datas : list string) (now : Z)
| EUpsertBlob (replica : nat) (tenant data : string) (committed : bool) (now : Z)
| EDatabase (tenant : string) (d : db)
| EGetStart (replica : nat) (tenant sha256 : string) (now : Z)
| EGetReply (replica id : nat) (reaches : bool) (now : Z)
| ESelect (replica id : nat) (now : Z)
| EPrewarm (replica : nat) (tenant sandboxId : string) (budget now : Z)
| EChunk (replica id : nat) (reaches : bool) (now : Z)
| EJoin (replica id : nat) (now : Z)
| ESetEnd (replica id : nat) (ok : bool) (now : Z)
| EArrive (key data : string)
| EVanish (key : string)
| EUnlink (replica : nat) (tenant : string) (sha256s : list string) (now : Z) (reached : nat).

(** The database of a tenant before its first write. *)
Definition emptyDb : db := mkDb ∅ ∅ ∅ ∅ ∅ 1 0.

Section net.
Context (o : CacheOptions) (bo : BreakerOptions) (hash : string → string).

Definition net_db (tenant : string) (n : Net) : db := default emptyDb (n_dbs n !! tenant).
Definition net_conn (i : nat) (n : Net) : Conn := default (newConn o) (n_conns n !! i).

Definition put_db (tenant : string) (d : db) (n : Net) : Net := mkNet (<[tenant := d]> (n_dbs n)) (n_redis n) (n_sent n) (n_conns n) (n_written n).
Definition put_redis (m : gmap string string) (n : Net) : Net := mkNet (n_dbs n) m (n_sent n) (n_conns n) (n_written n).
Definition put_conn (i : nat) (sent : list (string * string)) (c : Conn) (n : Net) : Net :=
  mkNet (n_dbs n) (n_redis n) (sent ++ n_sent n) (<[i := c]> (n_conns n)) (n_written n).
Definition note_written (tenant : string) (datas : list string) (n : Net) : Net :=
  mkNet (n_dbs n) (n_redis n) (n_sent n) (n_conns n) ((pair tenant <$> datas) ++ n_written n).

(** The callers hash what they write. *)
Definition blob_rows (datas : list string) : list (string * string) := (λ data, (hash data, data)) <$> datas.

(** The statement commits, then the backfills start. *)
Definition write_through (i : nat) (tenant : string) (d : db) (datas : list string) (now : Z) (n : Net) : Net :=
  let '(sent, c) := backfill_all o bo tenant (blob_rows datas) now (net_conn i n) in
  put_conn i sent c (put_db tenant d (note_written tenant datas n)).

(** What Redis answers to a GET. *)
Definition redis_get (c : Conn) (id : nat) (n : Net) : option string :=
  match c_calls c !! id with Some (CGet tenant sha256 _) => n_redis n !! blob_key tenant sha256 | _ => None end.

Definition redis_mget (c : Conn) (id : nat) (n : Net) : list (option string) :=
  match c_calls c !! id with Some (CMget tenant rows out _) => (λ key, n_redis n !! key) <$> chunk_keys tenant rows out | _ => [] end.

Definition call_tenant (c : Conn) (id : nat) : string :=
  match c_calls c !! id with Some (CSelect tenant _) | Some (CJoin tenant _ _) => tenant | _ => EmptyString end.

Definition net_step (e : BlobEvent) (n : Net) : BlobAnswer * Net :=
  match e with
  | ECommitBlob i tenant data now => (Waiting, write_through i tenant (commitBlob (hash data) data (net_db tenant n)) [data] now n)
  | ECommitBatch i tenant datas now => (Waiting, write_through i tenant (commitBatch (blob_rows datas) (net_db tenant n)) datas now n)
  | EUpsertBlob i tenant data committed now =>
      (Waiting, write_through i tenant (if committed then blob_row_upsert (hash data) data (net_db tenant n) else net_db tenant n) [data] now n)
  | EDatabase tenant d => (Waiting, put_db tenant d n)
  | EGetStart i tenant sha now => (Waiting, put_conn i [] (get_start o bo tenant sha now (net_conn i n)) n)
  | EGetReply i id reaches now =>
      let '(a, c) := get_reply o bo id (if reaches then Some (redis_get (net_conn i n) id n) else None) now (net_conn i n) in
      (a, put_conn i [] c n)
  | ESelect i id now =>
      let '(a, sent, c) := get_select o bo id (net_db (call_tenant (net_conn i n) id) n) now (net_conn i n) in
      (a, put_conn i sent c n)
  | EPrewarm i tenant sandboxId budget now =>
      let '(a, c) := prewarm_start o bo tenant sandboxId budget (net_db tenant n) now (net_conn i n) in
      (a, put_conn i [] c n)
  | EChunk i id reaches now =>
      (Waiting, put_conn i [] (mget_reply o bo id (if reaches then Some (redis_mget (net_conn i n) id n) else None) now (net_conn i n)) n)
  | EJoin i id now =>
      let '(a, sent, c) := prewarm_join o bo id (net_db (call_tenant (net_conn i n) id) n) now (net_conn i n) in
      (a, put_conn i sent c n)
  | ESetEnd i id ok now => (Waiting, put_conn i [] (set_end o bo id ok now (net_conn i n)) n)
  | EArrive key data => (Waiting, put_redis (<[key := data]> (n_redis n)) n)
  | EVanish key => (Waiting, put_redis (delete key (n_redis n)) n)
  | EUnlink i tenant shas now reached =>
      (Waiting, put_redis (foldr delete (n_redis n) (mdel o bo tenant shas now reached (net_conn i n))) n)
  end.

(** Contents only vanish from a database otherwise, and a command arrives only
    when it was sent. *)
Definition net_possible (e : BlobEvent) (n : Net) : Prop :=
  match e with
  | EDatabase tenant d => ∀ sha b', blobs d !! sha = Some b' → ∃ b, blobs (net_db tenant n) !! sha = Some b ∧ b_data b = b_data b'
  | EArrive key data => (key, data) ∈ n_sent n
  | _ => True
  end.

Inductive net_reached : Net → Prop :=
| net_start : net_reached (mkNet ∅ ∅ [] ∅ [])
| net_event e n : net_reached n → net_possible e n → net_reached (net_step e n).2.

(** The collector only removes. *)
Lemma gc_possible minAgeMs tenant n t ids t' : t_db t = net_db tenant n → gcOrphanBlobs minAgeMs t = (Ok ids, t') → net_possible (EDatabase tenant (t_db t')) n.
Proof.
  intros Ht [= _ <-] sha b'. simpl. rewrite map_lookup_filter_Some. intros [Hb _]. rewrite <- Ht. by exists b'.
Qed.

(** ** What is cached is genuine *)

Definition genuine (n : Net) (tenant sha256 data : string) : Prop := hash data = sha256 ∧ (tenant, data) ∈ n_written n.

(** The hits so far are contents of the rows they stand for. *)
Definition hits_ok (n : Net) (tenant : string) (rows : list MetaRow) (hits : list (option string)) : Prop :=
  ∀ j data, hits !! j = Some (Some data) → ∃ r, rows !! j = Some r ∧ genuine n tenant (mr_sha256 r) data.

Definition call_ok (n : Net) (call : BlobCall) : Prop :=
  match call with
  | CMget tenant rows out _ => hits_ok n tenant rows out ∧ (length out ≤ length rows)%nat
  | CJoin tenant rows hits => hits_ok n tenant rows hits ∧ length hits = length rows
  | _ => True
  end.

Definition calls_ok (n : Net) (c : Conn) : Prop := ∀ id call, c_calls c !! id = Some call → call_ok n call.

Definition key_ok (n : Net) (key data : string) : Prop := ∃ tenant sha256, key = blob_key tenant sha256 ∧ genuine n tenant sha256 data.

Definition db_ok (n : Net) (tenant : string) (d : db) : Prop := ∀ sha b, blobs d !! sha = Some b → genuine n tenant sha (b_data b).

Record net_ok (n : Net) : Prop := {
  no_redis key data : n_redis n !! key = Some data → key_ok n key data;
  no_sent key data : (key, data) ∈ n_sent n → key_ok n key data;
  no_dbs tenant : db_ok n tenant (net_db tenant n);
  no_conns i : calls_ok n (net_conn i n);
}.

(** What was written stays written. *)
Lemma genuine_mono n n' tenant sha data : n_written n ⊆ n_written n' → genuine n tenant sha data → genuine n' tenant sha data.
Proof. intros Hs [Hh Hin]. split; [done|by apply Hs]. Qed.

Lemma hits_mono n n' tenant rows hits : n_written n ⊆ n_written n' → hits_ok n tenant rows hits → hits_ok n' tenant rows hits.
Proof. intros Hs Hh j data Hj. destruct (Hh j data Hj) as (r & Hr & Hg). exists r. split; [done|]. by eapply genuine_mono. Qed.

Lemma calls_mono n n' c : n_written n ⊆ n_written n' → calls_ok n c → calls_ok n' c.
Proof.
  intros Hs Hc id call Hid. specialize (Hc id call Hid). destruct call; try done; destruct Hc as [Hh Hl]; (split; [by eapply hits_mono|done]).
Qed.

Lemma key_mono n n' key data : n_written n ⊆ n_written n' → key_ok n key data → key_ok n' key data.
Proof. intros Hs (t & sha & -> & Hg). exists t, sha. split; [done|]. by eapply genuine_mono. Qed.

Lemma db_mono n n' tenant d : n_written n ⊆ n_written n' → db_ok n tenant d → db_ok n' tenant d.
Proof. intros Hs Hd sha b Hb. by eapply genuine_mono, Hd. Qed.

(** *** The connection *)

Lemma acquire_keeps now c : let '(_, _, c1) := tryAcquireCircuit o bo now c in
  c_calls c1 = c_calls c ∧ c_next c1 = c_next c ∧ c_occupancy c1 = c_occupancy c.
Proof. unfold tryAcquireCircuit. destruct (withBreaker o); [|done]. by destruct (tryAcquire bo (c_breaker c) now) as [[]]. Qed.

Lemma settle_keeps ok probe now c : c_calls (settle o bo ok probe now c) = c_calls c ∧ c_next (settle o bo ok probe now c) = c_next c ∧
  c_occupancy (settle o bo ok probe now c) = c_occupancy c.
Proof. unfold settle. by destruct (withBreaker o). Qed.

Lemma calls_ok_insert n (calls : gmap nat BlobCall) id call : (∀ j x, calls !! j = Some x → call_ok n x) → call_ok n call → ∀ j x, <[id := call]> calls !! j = Some x → call_ok n x.
Proof. intros Hc Hx j x. rewrite lookup_insert_Some. intros [[<- <-]|[_ Hj]]; [done|by eapply Hc]. Qed.

Lemma calls_ok_delete n (calls : gmap nat BlobCall) id : (∀ j x, calls !! j = Some x → call_ok n x) → ∀ j x, delete id calls !! j = Some x → call_ok n x.
Proof. intros Hc j x. rewrite lookup_delete_Some. intros [_ Hj]. by eapply Hc. Qed.

Lemma set_start_ok n tenant sha data now c sent c' : set_start o bo tenant sha data now c = (sent, c') → calls_ok n c →
  calls_ok n c' ∧ ∀ cmd, sent = Some cmd → cmd = (blob_key tenant sha, data).
Proof.
  unfold set_start. intros E Hc. pose proof (acquire_keeps now c) as Hk. destruct (tryAcquireCircuit o bo now c) as [[admitted ticket] c1].
  destruct Hk as (Hk & _ & _). repeat case_match; simplify_eq; try done.
  - unfold calls_ok. by rewrite Hk.
  - split; [|by intros cmd [= <-]]. unfold calls_ok. simpl. rewrite Hk. apply calls_ok_insert; [exact Hc|done].
Qed.

Lemma backfill_ok n tenant rows now c sent c' : backfill_all o bo tenant rows now c = (sent, c') → calls_ok n c →
  calls_ok n c' ∧ ∀ key data, (key, data) ∈ sent → ∃ sha, (sha, data) ∈ rows ∧ key = blob_key tenant sha.
Proof.
  revert c sent. induction rows as [|[sha data] rows IH]; intros c sent; cbn [backfill_all]; [intros [= <- <-] Hc; split; [done|]; by intros ? ? ?%elem_of_nil|].
  destruct (set_start o bo tenant sha data now c) as [s1 c1] eqn:E1. destruct (backfill_all o bo tenant rows now c1) as [s2 c2] eqn:E2.
  intros [= <- <-] Hc. destruct (set_start_ok n _ _ _ _ _ _ _ E1 Hc) as [Hc1 Hs1]. destruct (IH _ _ E2 Hc1) as [Hc2 Hs2]. split; [done|].
  intros key data' Hin. assert (s1 = Some (key, data') ∨ (key, data') ∈ s2) as [->|Hin2].
  { destruct s1 as [cmd|]; [|by right]. apply elem_of_cons in Hin as [<-|?]; [by left|by right]. }
  - specialize (Hs1 _ eq_refl) as [= -> ->]. exists sha. split; [by left|done].
  - destruct (Hs2 _ _ Hin2) as (sha' & Hin' & ->). exists sha'. split; [by right|done].
Qed.

Lemma get_start_ok n tenant sha now c : calls_ok n c → calls_ok n (get_start o bo tenant sha now c).
Proof.
  intros Hc. unfold get_start. pose proof (acquire_keeps now c) as Hk. destruct (tryAcquireCircuit o bo now c) as [[admitted ticket] c1].
  destruct Hk as (Hk & _ & _). destruct (negb (enabled o)); unfold calls_ok; simpl; [|rewrite Hk]; (apply calls_ok_insert; [exact Hc|by repeat case_match]).
Qed.

Lemma get_reply_ok n id reply now c a c' : get_reply o bo id reply now c = (a, c') → calls_ok n c →
  calls_ok n c' ∧ (a = Waiting ∨ ∃ tenant sha probe bytes, c_calls c !! id = Some (CGet tenant sha probe) ∧ reply = Some (Some bytes) ∧ a = ReadDone tenant sha (Some bytes)).
Proof.
  unfold get_reply. intros E Hc. destruct (c_calls c !! id) as [[tenant sha probe| | | |]|] eqn:Ec; try (injection E as <- <-; split; [done|by left]).
  destruct reply as [[bytes|]|]; injection E as <- <-; (split; [unfold calls_ok; cbn [c_calls set_calls]; rewrite ?(proj1 (settle_keeps _ _ _ _)); cbn [c_calls set_calls]|]).
  - by apply calls_ok_delete.
  - right. by eexists _, _, _, _.
  - apply calls_ok_insert; [exact Hc|done].
  - by left.
  - apply calls_ok_insert; [exact Hc|done].
  - by left.
Qed.

Lemma get_select_ok n id d now c a sent c' : get_select o bo id d now c = (a, sent, c') → calls_ok n c →
  calls_ok n c' ∧
  (a = Waiting ∧ sent = [] ∨
   ∃ tenant sha, c_calls c !! id = Some (CSelect tenant sha) ∧ a = ReadDone tenant sha (getBlobNoTx sha d) ∧
     ∀ key data, (key, data) ∈ sent → key = blob_key tenant sha ∧ getBlobNoTx sha d = Some data).
Proof.
  unfold get_select. intros E Hc. destruct (c_calls c !! id) as [[|tenant sha| | |]|] eqn:Ec; try (injection E as <- <- <-; split; [done|by left]).
  assert (Hd : calls_ok n (set_calls (delete id (c_calls c)) c)) by (unfold calls_ok; simpl; by apply calls_ok_delete).
  destruct (getBlobNoTx sha d) as [bytes|] eqn:Eg.
  - destruct (backfill_all o bo tenant [(sha, bytes)] now _) as [s1 c1] eqn:Eb. injection E as <- <- <-. destruct (backfill_ok n _ _ _ _ _ _ Eb Hd) as [Hc1 Hs].
    split; [done|]. right. exists tenant, sha. split; [done|]. split; [by rewrite Eg|]. intros key data Hin. destruct (Hs _ _ Hin) as (sha' & Hin' & ->).
    apply list_elem_of_singleton in Hin' as [= -> ->]. by rewrite Eg.
  - injection E as <- <- <-. split; [done|]. right. exists tenant, sha. split; [done|]. split; [by rewrite Eg|]. by intros ? ? ?%elem_of_nil.
Qed.

Lemma none_hits_ok n tenant rows : call_ok n (CJoin tenant rows (const None <$> rows)).
Proof. split; [|by rewrite length_fmap]. intros j data Hj. apply list_lookup_fmap_Some in Hj as (x & Hj & _). done. Qed.

Lemma prewarm_start_ok n tenant sandboxId budget d now c a c' : prewarm_start o bo tenant sandboxId budget d now c = (a, c') → calls_ok n c →
  calls_ok n c' ∧ (a = Waiting ∨ a = Warmed tenant [] []).
Proof.
  unfold prewarm_start. intros E Hc. pose proof (acquire_keeps now c) as Hk. destruct (tryAcquireCircuit o bo now c) as [[admitted ticket] c1].
  destruct Hk as (Hk & _ & _). repeat case_match; simplify_eq; (split; [|auto]); try done; unfold calls_ok; simpl; rewrite ?Hk;
    (apply calls_ok_insert; [exact Hc|]); first [apply none_hits_ok|split; [by intros j data ?|simpl; lia]].
Qed.

Lemma mget_reply_ok n id reply now c : calls_ok n c →
  (∀ tenant rows out probe bufs, c_calls c !! id = Some (CMget tenant rows out probe) → reply = Some bufs →
     length bufs = length (chunk_keys tenant rows out) ∧
     ∀ j data, bufs !! j = Some (Some data) → ∃ r, rows !! (length out + j)%nat = Some r ∧ genuine n tenant (mr_sha256 r) data) →
  calls_ok n (mget_reply o bo id reply now c).
Proof.
  intros Hc Hr. unfold mget_reply. destruct (c_calls c !! id) as [[| | |tenant rows out probe|]|] eqn:Ec; try done.
  destruct (Hc _ _ Ec) as [Hh Hl]. destruct reply as [bufs|].
  - destruct (Hr _ _ _ _ _ eq_refl eq_refl) as [Hlen Hb]. unfold chunk_keys in Hlen. rewrite length_fmap, length_take, length_drop in Hlen.
    assert (Hout : hits_ok n tenant rows (out ++ bufs)).
    { intros j data. rewrite lookup_app_Some. intros [Hj|[Hle Hj]]; [by apply Hh|]. destruct (Hb _ _ Hj) as (r & Hr' & Hg).
      replace (length out + (j - length out))%nat with j in Hr' by lia. by exists r. }
    case_decide; unfold calls_ok; cbn [c_calls set_calls]; rewrite ?(proj1 (settle_keeps _ _ _ _)); cbn [c_calls set_calls];
      (apply calls_ok_insert; [exact Hc|]); (split; [done|]); rewrite length_app in *; lia.
  - unfold calls_ok. rewrite (proj1 (settle_keeps _ _ _ _)). cbn [c_calls set_calls]. apply calls_ok_insert; [exact Hc|apply none_hits_ok].
Qed.

Lemma set_end_ok n id ok now c : calls_ok n c → calls_ok n (set_end o bo id ok now c).
Proof.
  intros Hc. unfold set_end. destruct (c_calls c !! id) as [[]|]; try done. unfold calls_ok. cbn [c_calls occupy set_occupancy].
  rewrite (proj1 (settle_keeps _ _ _ _)). by apply calls_ok_delete.
Qed.

(** *** Loading ahead *)

Lemma misses_spec rows hits sha : sha ∈ jkeys (misses rows hits) ↔ ∃ r, (r, None) ∈ zip rows hits ∧ mr_sha256 r = sha.
Proof.
  unfold misses, jkeys. cut (∀ m : list (string * unit), sha ∈ (fold_left (λ m (e : MetaRow * option string), match e.2 with None => jset (mr_sha256 e.1) tt m | Some _ => m end)
    (zip rows hits) m).*1 ↔ sha ∈ m.*1 ∨ ∃ r, (r, None) ∈ zip rows hits ∧ mr_sha256 r = sha).
  { intros Hcut. rewrite Hcut. simpl. split; [intros [[]%elem_of_nil|?]; done|by right]. }
  induction (zip rows hits) as [|[r [data|]] l IH]; intros m; simpl.
  - split; [by left|]. intros [?|(r & []%elem_of_nil & _)]. done.
  - rewrite IH. split; (intros [?|(r' & Hin & ?)]; [by left|right; exists r'; split; [|done]]); [by right|]. by apply elem_of_cons in Hin as [?|?].
  - rewrite IH, jset_keys. split.
    + intros [[->|?]|(r' & Hin & ?)]; [right; exists r; split; [by left|done]|by left|right; exists r'; split; [by right|done]].
    + intros [?|(r' & [[= ->]|Hin]%elem_of_cons & <-)]; [by left; right|by left; left|right; by exists r'].
Qed.

Lemma pgRows_elem missing d sha data : (sha, data) ∈ pgRows missing d ↔ sha ∈ jkeys missing ∧ getBlobNoTx sha d = Some data.
Proof.
  unfold pgRows, getBlobNoTx. rewrite list_elem_of_omap. split.
  - intros (sha' & Hin & E). destruct (blobs d !! sha') as [b|] eqn:Eb; [|done]. injection E as <- <-. by rewrite Eb.
  - intros [Hin E]. exists sha. split; [done|]. destruct (blobs d !! sha); [|done]. by injection E as <-.
Qed.

Lemma pgRows_get missing d sha : sha ∈ jkeys missing → jget sha (pgRows missing d) = getBlobNoTx sha d.
Proof.
  intros Hin. destruct (jget sha (pgRows missing d)) as [data|] eqn:E.
  - apply jget_elem, pgRows_elem in E as [_ E]. done.
  - apply jget_None in E. destruct (getBlobNoTx sha d) as [data|] eqn:Eg; [|done]. destruct E. apply list_elem_of_fmap. exists (sha, data). split; [done|]. by apply pgRows_elem.
Qed.

(** What one row contributes. *)
Lemma warm_elem rows hits d inode data : (inode, data) ∈ warm_result rows hits (pgRows (misses rows hits) d) ↔
  ∃ j r h, rows !! j = Some r ∧ hits !! j = Some h ∧ mr_inodeId r = inode ∧ match h with Some bytes => bytes = data | None => getBlobNoTx (mr_sha256 r) d = Some data end.
Proof.
  unfold warm_result. rewrite list_elem_of_omap.
  assert (Hz : ∀ r h, (r, h) ∈ zip rows hits ↔ ∃ j, rows !! j = Some r ∧ hits !! j = Some h).
  { intros r h. rewrite list_elem_of_lookup. split; intros [j Hj]; exists j.
    - apply lookup_zip_with_Some in Hj as (r' & h' & [= -> ->] & ? & ?). done.
    - apply lookup_zip_with_Some. by exists r, h. }
  assert (Hm : ∀ r, (r, None) ∈ zip rows hits → jget (mr_sha256 r) (pgRows (misses rows hits) d) = getBlobNoTx (mr_sha256 r) d)
    by (intros r Hr; apply pgRows_get, misses_spec; by exists r).
  split.
  - intros ([r h] & Hin & E). pose proof Hin as (j & Hr & Hh)%Hz. exists j, r, h. split; [done|]. split; [done|]. simpl in E. destruct h as [bytes|].
    + injection E as <- <-. done.
    + rewrite (Hm r Hin) in E. destruct (getBlobNoTx (mr_sha256 r) d); [|done]. by injection E as <- <-.
  - intros (j & r & h & Hr & Hh & <- & E). assert (Hin : (r, h) ∈ zip rows hits) by (apply Hz; by exists j). exists (r, h). split; [done|]. simpl.
    destruct h as [bytes|]; [by rewrite E|]. by rewrite (Hm r Hin), E.
Qed.

(** A result is right for the rows: what it has are their contents, and it has
    those of every row whose content is in the database. *)
Definition warmed_right (n : Net) (tenant : string) (d : db) (rows : list MetaRow) (result : list (Z * string)) : Prop :=
  (∀ inode data, (inode, data) ∈ result → ∃ r, r ∈ rows ∧ mr_inodeId r = inode ∧ genuine n tenant (mr_sha256 r) data) ∧
  (∀ r b, r ∈ rows → blobs d !! mr_sha256 r = Some b → (mr_inodeId r, b_data b) ∈ result).

Lemma warm_right n tenant d rows hits : Inj (=) (=) hash → db_ok n tenant d → call_ok n (CJoin tenant rows hits) →
  warmed_right n tenant d rows (warm_result rows hits (pgRows (misses rows hits) d)).
Proof.
  intros Hinj Hd [Hh Hl]. split.
  - intros inode data (j & r & h & Hr & Hj & <- & E)%warm_elem. exists r. split; [by apply list_elem_of_lookup; exists j|]. split; [done|]. destruct h as [bytes|].
    + subst bytes. destruct (Hh j data Hj) as (r' & Hr' & Hg). by simplify_eq.
    + unfold getBlobNoTx in E. destruct (blobs d !! mr_sha256 r) as [b|] eqn:Eb; [|done]. injection E as <-. by apply Hd.
  - intros r b [j Hr]%list_elem_of_lookup Hb. apply warm_elem. assert (is_Some (hits !! j)) as [h Hj] by (apply lookup_lt_is_Some; rewrite Hl; by apply lookup_lt_Some in Hr).
    exists j, r, h. split_and!; [done..|]. destruct h as [bytes|]; [|unfold getBlobNoTx; by rewrite Hb].
    destruct (Hh j bytes Hj) as (r' & Hr' & [E _]). simplify_eq. destruct (Hd _ _ Hb) as [E' _]. apply Hinj. congruence.
Qed.

Lemma prewarm_join_ok n id d now c a sent c' : prewarm_join o bo id d now c = (a, sent, c') → calls_ok n c →
  calls_ok n c' ∧
  (a = Waiting ∧ sent = [] ∨
   ∃ tenant rows hits, c_calls c !! id = Some (CJoin tenant rows hits) ∧ a = Warmed tenant rows (warm_result rows hits (pgRows (misses rows hits) d)) ∧
     ∀ key data, (key, data) ∈ sent → ∃ sha, key = blob_key tenant sha ∧ getBlobNoTx sha d = Some data).
Proof.
  unfold prewarm_join. intros E Hc. destruct (c_calls c !! id) as [[| | | |tenant rows hits]|] eqn:Ec; try (injection E as <- <- <-; split; [done|by left]).
  destruct (backfill_all o bo tenant _ now _) as [s1 c1] eqn:Eb. injection E as <- <- <-.
  destruct (backfill_ok n _ _ _ _ _ _ Eb) as [Hc1 Hs]; [unfold calls_ok; simpl; by apply calls_ok_delete|].
  split; [done|]. right. exists tenant, rows, hits. split; [done|]. split; [done|]. intros key data Hin. destruct (Hs _ _ Hin) as (sha & [_ Hg]%pgRows_elem & ->). by exists sha.
Qed.

(** *** The deployment *)

Lemma net_conn_put i j sent c n : net_conn j (put_conn i sent c n) = if decide (i = j) then c else net_conn j n.
Proof. unfold net_conn. simpl. case_decide as E; [subst; by rewrite lookup_insert_eq|by rewrite lookup_insert_ne]. Qed.

Lemma net_db_put t t' d n : net_db t' (put_db t d n) = if decide (t = t') then d else net_db t' n.
Proof. unfold net_db. simpl. case_decide as E; [subst; by rewrite lookup_insert_eq|by rewrite lookup_insert_ne]. Qed.

Lemma put_conn_ok i sent c n : net_ok n → calls_ok n c → (∀ key data, (key, data) ∈ sent → key_ok n key data) → net_ok (put_conn i sent c n).
Proof.
  intros Hn Hc Hs. split; [apply Hn| |apply Hn|].
  - intros key data. simpl. rewrite elem_of_app. intros [?|?]; [by apply Hs|by apply (no_sent _ Hn)].
  - intros j. rewrite net_conn_put. case_decide; [done|apply Hn].
Qed.

Lemma put_db_ok t d n : net_ok n → db_ok n t d → net_ok (put_db t d n).
Proof. intros Hn Hd. split; [apply Hn|apply Hn| |apply Hn]. intros t'. rewrite net_db_put. case_decide; [by subst|apply Hn]. Qed.

Lemma put_redis_ok m n : net_ok n → (∀ key data, m !! key = Some data → key_ok n key data) → net_ok (put_redis m n).
Proof. intros Hn Hm. split; [done|apply Hn|apply Hn|apply Hn]. Qed.

Lemma note_written_ok t datas n : net_ok n → net_ok (note_written t datas n).
Proof.
  intros Hn. assert (Hs : n_written n ⊆ n_written (note_written t datas n)) by (intros x Hx; simpl; apply elem_of_app; by right).
  split; intros *; [intros ?; by eapply key_mono, (no_redis _ Hn)|intros ?; by eapply key_mono, (no_sent _ Hn)|eapply db_mono, (no_dbs _ Hn); exact Hs|eapply calls_mono, (no_conns _ Hn); exact Hs].
Qed.

Lemma upsert_ok n t data d : db_ok n t d → (t, data) ∈ n_written n → db_ok n t (blob_row_upsert (hash data) data d).
Proof.
  intros Hd Hin sha b. unfold blob_row_upsert. simpl. destruct (blobs d !! hash data) as [b0|] eqn:E; rewrite lookup_insert_Some; intros [[<- <-]|[_ Hb]].
  - by apply (Hd _ b0).
  - by apply Hd.
  - by split.
  - by apply Hd.
Qed.

Lemma batch_ok n t datas d : db_ok n t d → (∀ data, data ∈ datas → (t, data) ∈ n_written n) → db_ok n t (commitBatch (blob_rows datas) d).
Proof.
  unfold commitBatch, blob_rows. revert d. induction datas as [|data datas IH]; intros d Hd Hin; [done|]. simpl. apply IH; [|intros x Hx; apply Hin; by right].
  apply upsert_ok; [done|]. apply Hin. by left.
Qed.

Lemma write_through_ok i t d datas now n : net_ok n → db_ok (note_written t datas n) t d → net_ok (write_through i t d datas now n).
Proof.
  intros Hn Hd. unfold write_through. destruct (backfill_all o bo t (blob_rows datas) now (net_conn i n)) as [sent c] eqn:E.
  pose proof (note_written_ok t datas n Hn) as Hn1. destruct (backfill_ok (note_written t datas n) _ _ _ _ _ _ E) as [Hc Hs]; [apply (no_conns _ Hn1 i)|].
  apply put_conn_ok; [by apply put_db_ok|done|]. intros key data Hin. destruct (Hs _ _ Hin) as (sha & Hrow & ->). exists t, sha. split; [done|].
  apply list_elem_of_fmap in Hrow as (x & [= -> ->] & Hx). split; [done|]. simpl. apply elem_of_app. left. by apply list_elem_of_fmap_2.
Qed.

Lemma written_here t datas n data : data ∈ datas → (t, data) ∈ n_written (note_written t datas n).
Proof. intros Hin. simpl. apply elem_of_app. left. by apply list_elem_of_fmap_2. Qed.

(** What Redis answers under a key of a tenant is genuine. *)
Lemma redis_genuine n tenant sha data : net_ok n → n_redis n !! blob_key tenant sha = Some data → genuine n tenant sha data.
Proof. intros Hn Hr. destruct (no_redis _ Hn _ _ Hr) as (t & sha' & [-> ->]%blob_key_inj & Hg). done. Qed.

Lemma row_key_ok n tenant sha data : net_ok n → getBlobNoTx sha (net_db tenant n) = Some data → key_ok n (blob_key tenant sha) data.
Proof.
  intros Hn E. unfold getBlobNoTx in E. destruct (blobs (net_db tenant n) !! sha) as [b|] eqn:Eb; [|done]. injection E as <-.
  exists tenant, sha. split; [done|]. by apply (no_dbs _ Hn).
Qed.

Lemma chunk_ok n i id now (reaches : bool) : net_ok n →
  calls_ok n (mget_reply o bo id (if reaches then Some (redis_mget (net_conn i n) id n) else None) now (net_conn i n)).
Proof.
  intros Hn. apply mget_reply_ok; [apply (no_conns _ Hn)|]. intros tenant rows out probe bufs Ec E. destruct reaches; [|done]. injection E as <-.
  unfold redis_mget. rewrite Ec, length_fmap. split; [done|]. intros j data Hj. apply list_lookup_fmap_Some in Hj as (key & E & Hk).
  unfold chunk_keys in Hk. apply list_lookup_fmap_Some in Hk as (r & -> & Hr). apply lookup_take_Some in Hr as [Hr _]. rewrite lookup_drop in Hr.
  exists r. split; [done|]. by apply redis_genuine.
Qed.

Lemma no_sent_ok n key data : (key, data) ∈ @nil (string * string) → key_ok n key data.
Proof. by intros []%elem_of_nil. Qed.

Lemma net_step_ok e n : net_ok n → net_possible e n → net_ok (net_step e n).2.
Proof.
  intros Hn He. destruct e as [i t data now|i t datas now|i t data committed now|t d|i t sha now|i id reaches now|i id now|i t sb budget now|i id reaches now|i id now|i id ok now|key data|key|i t shas now reached]; cbn [net_step].
  - apply write_through_ok; [done|]. apply upsert_ok; [apply (no_dbs _ (note_written_ok t [data] n Hn) t)|]. by apply written_here, list_elem_of_singleton.
  - apply write_through_ok; [done|]. apply batch_ok; [|apply written_here]. apply (no_dbs _ (note_written_ok t datas n Hn) t).
  - apply write_through_ok; [done|]. pose proof (no_dbs _ (note_written_ok t [data] n Hn) t) as Hd. destruct committed; [|exact Hd].
    apply upsert_ok; [exact Hd|]. by apply written_here, list_elem_of_singleton.
  - apply put_db_ok; [done|]. intros sha b' Hb'. destruct (He sha b' Hb') as (b & Hb & <-). by apply (no_dbs _ Hn t).
  - apply put_conn_ok; [done|apply get_start_ok, (no_conns _ Hn)|apply no_sent_ok].
  - destruct (get_reply o bo id _ now (net_conn i n)) as [a c] eqn:E. apply put_conn_ok; [done| |apply no_sent_ok]. by apply (get_reply_ok n _ _ _ _ _ _ E), (no_conns _ Hn).
  - destruct (get_select o bo id _ now (net_conn i n)) as [[a sent] c] eqn:E. destruct (get_select_ok n _ _ _ _ _ _ _ E (no_conns _ Hn i)) as [Hc Ha].
    apply put_conn_ok; [done|done|]. intros key data Hin. destruct Ha as [[_ ->]|(t & sha & Ec & _ & Hs)]; [by apply elem_of_nil in Hin|].
    destruct (Hs _ _ Hin) as [-> Hg]. unfold call_tenant in Hg. rewrite Ec in Hg. by apply row_key_ok.
  - destruct (prewarm_start o bo t sb budget _ now (net_conn i n)) as [a c] eqn:E. apply put_conn_ok; [done| |apply no_sent_ok].
    by apply (prewarm_start_ok n _ _ _ _ _ _ _ _ E), (no_conns _ Hn).
  - apply put_conn_ok; [done|by apply chunk_ok|apply no_sent_ok].
  - destruct (prewarm_join o bo id _ now (net_conn i n)) as [[a sent] c] eqn:E. destruct (prewarm_join_ok n _ _ _ _ _ _ _ E (no_conns _ Hn i)) as [Hc Ha].
    apply put_conn_ok; [done|done|]. intros key data Hin. destruct Ha as [[_ ->]|(t & rows & hits & Ec & _ & Hs)]; [by apply elem_of_nil in Hin|].
    destruct (Hs _ _ Hin) as (sha & -> & Hg). unfold call_tenant in Hg. rewrite Ec in Hg. by apply row_key_ok.
  - apply put_conn_ok; [done|apply set_end_ok, (no_conns _ Hn)|apply no_sent_ok].
  - apply put_redis_ok; [done|]. intros k x. rewrite lookup_insert_Some. intros [[<- <-]|[_ ?]]; [by apply (no_sent _ Hn)|by apply (no_redis _ Hn)].
  - apply put_redis_ok; [done|]. intros k x. rewrite lookup_delete_Some. intros [_ ?]. by apply (no_redis _ Hn).
  - apply put_redis_ok; [done|]. intros k x. induction (mdel o bo t shas now reached (net_conn i n)) as [|key keys IH]; simpl; [by apply (no_redis _ Hn)|].
    rewrite lookup_delete_Some. intros [_ ?]. by apply IH.
Qed.

Lemma net_reached_ok n : net_reached n → net_ok n.
Proof.
  induction 1 as [|e n _ IH Hp]; [|by apply net_step_ok]. split; simpl.
  - intros key data. by rewrite lookup_empty.
  - intros key data. by intros []%elem_of_nil.
  - intros t sha b. unfold net_db. simpl. rewrite lookup_empty. simpl. by rewrite lookup_empty.
  - intros i id call. unfold net_conn. simpl. rewrite lookup_empty. simpl. by rewrite lookup_empty.
Qed.

(** C29: The cache is transparent. After any history of writes, reads, failures of
    Redis, late commands, evictions and collections, on any number of replicas:
    a read of a content through the cache answers what the tenant's database has,
    if it has it; whatever it answers has the hash that was asked for and was
    written by the same tenant. What is loaded ahead are the contents of the
    chosen files, of all whose content is in the database. *)
Theorem blob_cache_transparent e n a n' :
  Inj (=) (=) hash → net_reached n → net_step e n = (a, n') →
  match a with
  | Waiting => True
  | ReadDone tenant sha256 result =>
      (∀ bytes, result = Some bytes → hash bytes = sha256 ∧ (tenant, bytes) ∈ n_written n) ∧
      (∀ bytes, getBlobNoTx sha256 (net_db tenant n) = Some bytes → result = Some bytes)
  | Warmed tenant rows result => warmed_right n tenant (net_db tenant n) rows result
  end.
Proof.
  intros Hinj Hr E. pose proof (net_reached_ok n Hr) as Hn.
  assert (Hrow : ∀ t sha data, getBlobNoTx sha (net_db t n) = Some data → genuine n t sha data).
  { intros t sha data E'. unfold getBlobNoTx in E'. destruct (blobs (net_db t n) !! sha) as [b|] eqn:Eb; [|done]. injection E' as <-. by apply (no_dbs _ Hn). }
  destruct e as [| | | | |i id reaches now|i id now|i t sb budget now| |i id now| | | |]; cbn [net_step] in E; try (injection E as <- _; exact I).
  - destruct (get_reply o bo id _ now (net_conn i n)) as [a' c] eqn:Eg. injection E as <- _.
    destruct (get_reply_ok n _ _ _ _ _ _ Eg (no_conns _ Hn i)) as [_ [->|(t & sha & probe & bytes & Ec & Erep & ->)]]; [done|].
    destruct reaches; [|done]. injection Erep as Erep. unfold redis_get in Erep. rewrite Ec in Erep. pose proof (redis_genuine n t sha bytes Hn Erep) as Hg.
    split; [by intros b [= <-]|]. intros b [Hb _]%Hrow. f_equal. apply Hinj. destruct Hg. congruence.
  - destruct (get_select o bo id _ now (net_conn i n)) as [[a' sent] c] eqn:Eg. injection E as <- _.
    destruct (get_select_ok n _ _ _ _ _ _ _ Eg (no_conns _ Hn i)) as [_ [[-> _]|(t & sha & Ec & -> & _)]]; [done|].
    unfold call_tenant. rewrite Ec. split; [apply Hrow|done].
  - destruct (prewarm_start o bo t sb budget _ now (net_conn i n)) as [a' c] eqn:Eg. injection E as <- _.
    destruct (prewarm_start_ok n _ _ _ _ _ _ _ _ Eg (no_conns _ Hn i)) as [_ [->| ->]]; [done|]. split; [by intros ? ? []%elem_of_nil|by intros ? ? []%elem_of_nil].
  - destruct (prewarm_join o bo id _ now (net_conn i n)) as [[a' sent] c] eqn:Eg. injection E as <- _.
    destruct (prewarm_join_ok n _ _ _ _ _ _ _ Eg (no_conns _ Hn i)) as [_ [[-> _]|(t & rows & hits & Ec & -> & _)]]; [done|].
    unfold call_tenant. rewrite Ec. apply warm_right; [done|apply Hn|]. by apply (no_conns _ Hn i id).
Qed.
End net.

(** ** What is chosen for loading ahead *)

Definition total_size (rows : list MetaRow) : Z := foldr (λ r n, mr_size r + n) 0 rows.

Lemma running_above t budget rows : budget < t → Forall (λ r, 0 ≤ mr_size r) rows → List.filter (λ e, e.2 <=? budget) (running t rows) = [].
Proof.
  revert t. induction rows as [|r rows IH]; intros t Ht Hf; [done|]. inversion Hf; subst. simpl. destruct (Z.leb_spec (t + mr_size r) budget); [lia|]. apply IH; [lia|done].
Qed.

(** The rows that are kept come first, and no other fits. *)
Lemma running_spec budget rows t : StronglySorted (λ a b, mr_size a ≤ mr_size b) rows → Forall (λ r, 0 ≤ mr_size r) rows → t ≤ budget →
  ∃ rest, rows = (fst <$> List.filter (λ e, e.2 <=? budget) (running t rows)) ++ rest ∧
    t + total_size (fst <$> List.filter (λ e, e.2 <=? budget) (running t rows)) ≤ budget ∧
    ∀ r, r ∈ rest → budget < t + total_size (fst <$> List.filter (λ e, e.2 <=? budget) (running t rows)) + mr_size r.
Proof.
  revert t. induction rows as [|r rows IH]; intros t Hs Hf Ht; [exists []; split; [done|]; split; [simpl; lia|by intros ? ?%elem_of_nil]|].
  inversion Hs as [|? ? Hs' Hle]; subst. inversion Hf as [|? ? Hr Hf']; subst. cbn [running List.filter snd]. destruct (Z.leb_spec (t + mr_size r) budget) as [Hb|Hb].
  - destruct (IH (t + mr_size r) Hs' Hf' Hb) as (rest & El & Hsum & Hrest). exists rest. rewrite fmap_cons. cbn [fst total_size foldr]. fold total_size.
    split; [simpl; by rewrite <- El|]. unfold total_size in *. split; [lia|]. intros x Hx. specialize (Hrest x Hx). lia.
  - rewrite running_above by done. simpl. exists (r :: rows). split; [done|]. split; [lia|]. intros x [->|Hx]%elem_of_cons; [lia|].
    rewrite Forall_forall in Hle. specialize (Hle x Hx). simpl in Hle. lia.
Qed.

Lemma file_rows_elem sandboxId d inode sha size : mkMetaRow inode sha size ∈ file_rows sandboxId d ↔
  ∃ r, inodes d !! inode = Some r ∧ i_sandboxId r = sandboxId ∧ i_kind r = FILE ∧ i_contentSha256 r = Some sha ∧ i_size r = size.
Proof.
  unfold file_rows. rewrite list_elem_of_omap. split.
  - intros ([id r] & Hin & E). apply elem_of_map_to_list in Hin. simpl in E. case_decide as Hd; [|done]. destruct Hd. destruct (i_contentSha256 r) eqn:Es; [|done].
    injection E as <- <- <-. by exists r.
  - intros (r & Hr & Hsb & Hk & Hs & <-). exists (inode, r). split; [by apply elem_of_map_to_list|]. simpl. by rewrite decide_True, Hs.
Qed.

(** What is loaded ahead fits the budget. The chosen files are files of the
    sandbox with content, their sizes add up to no more than the budget, they are
    chosen from the smallest up, and no file that was left out would have fitted
    beside them. *)
Theorem prewarm_budget sandboxId budget d :
  0 ≤ budget → (∀ id r, inodes d !! id = Some r → 0 ≤ i_size r) →
  total_size (metaRows sandboxId budget d) ≤ budget ∧
  StronglySorted (λ a b, mr_size a ≤ mr_size b) (metaRows sandboxId budget d) ∧
  NoDup (mr_inodeId <$> metaRows sandboxId budget d) ∧
  (∀ row, row ∈ metaRows sandboxId budget d → row ∈ file_rows sandboxId d) ∧
  (∀ row, row ∈ file_rows sandboxId d → row ∈ metaRows sandboxId budget d ∨ budget < total_size (metaRows sandboxId budget d) + mr_size row).
Proof.
  intros Hb Hsize. set (rows := sort_on mr_size (sort_on mr_inodeId (file_rows sandboxId d))).
  assert (Hp : rows ≡ₚ file_rows sandboxId d) by (unfold rows; by rewrite !sort_on_perm).
  assert (Hs : StronglySorted (λ a b, mr_size a ≤ mr_size b) rows) by apply sort_on_sorted.
  assert (Hf : Forall (λ r, 0 ≤ mr_size r) rows).
  { apply Forall_forall. intros [inode sha size]. rewrite Hp, file_rows_elem. intros (r & Hr & _ & _ & _ & <-). by apply (Hsize inode). }
  destruct (running_spec budget rows 0 Hs Hf Hb) as (rest & El & Hsum & Hrest). fold (metaRows sandboxId budget d) in *.
  change (fst <$> List.filter (λ e, e.2 <=? budget) (running 0 rows)) with (metaRows sandboxId budget d) in *.
  split; [lia|]. split; [rewrite El in Hs; by apply StronglySorted_app in Hs as (_ & ? & _)|]. split; [|split].
  - assert (Hnd : NoDup (mr_inodeId <$> rows)).
    { rewrite Hp. apply NoDup_omap_key; [|apply NoDup_map_to_list]. intros [i1 r1] [i2 r2] y1 y2 H1%elem_of_map_to_list H2%elem_of_map_to_list. simpl.
      repeat case_decide; try done. destruct (i_contentSha256 r1), (i_contentSha256 r2); try done. intros [= <-] [= <-] E. simpl in E. by simplify_eq. }
    rewrite El, fmap_app in Hnd. by apply NoDup_app in Hnd as [? _].
  - intros row Hin. rewrite <- Hp, El. apply elem_of_app. by left.
  - intros row Hin. rewrite <- Hp, El in Hin. apply elem_of_app in Hin as [?|Hin]; [by left|right]. specialize (Hrest row Hin). lia.
Qed.

(** ** The account of the backfills, and the probe of the breaker *)

Definition call_count (call : BlobCall) : Z := match call with CSet _ _ => 1 | _ => 0 end.
Definition call_bytes (call : BlobCall) : Z := match call with CSet data _ => str_len data | _ => 0 end.
Definition probe_of (call : BlobCall) : option Ticket :=
  match call with CGet _ _ probe | CSet _ probe | CMget _ _ _ probe => probe | CSelect _ _ | CJoin _ _ _ => None end.

Definition call_sum (f : BlobCall → Z) (calls : gmap nat BlobCall) : Z := map_fold (λ _ call n, f call + n) 0 calls.

Lemma call_sum_insert f calls id call : calls !! id = None → call_sum f (<[id := call]> calls) = f call + call_sum f calls.
Proof. intros Hid. unfold call_sum. rewrite map_fold_insert_L; [done|intros; lia|done]. Qed.

Lemma call_sum_delete f calls id call : calls !! id = Some call → call_sum f (delete id calls) = call_sum f calls - f call.
Proof. intros Hid. unfold call_sum. rewrite (map_fold_delete_L _ _ id call calls); [lia|intros; lia|done]. Qed.

Lemma call_sum_nonneg f calls : (∀ call, 0 ≤ f call) → 0 ≤ call_sum f calls.
Proof. intros Hf. unfold call_sum. apply (map_fold_weak_ind (λ n _, 0 ≤ n)); [lia|]. intros i x m n _ Hn. specialize (Hf x). lia. Qed.

Lemma call_count_nonneg call : 0 ≤ call_count call.
Proof. destruct call; simpl; lia. Qed.

Lemma call_bytes_nonneg call : 0 ≤ call_bytes call.
Proof. destruct call; simpl; try lia. apply str_len_nonneg. Qed.

(** A call goes on as another, or ends. *)
Definition update_call (id : nat) (x : option BlobCall) (calls : gmap nat BlobCall) : gmap nat BlobCall :=
  match x with Some call => <[id := call]> calls | None => delete id calls end.

Lemma call_sum_update f calls id call x : calls !! id = Some call →
  call_sum f (update_call id x calls) = call_sum f calls - f call + match x with Some y => f y | None => 0 end.
Proof.
  intros Hid. destruct x as [y|]; simpl; [|rewrite (call_sum_delete f _ _ _ Hid); lia].
  rewrite <- (insert_delete_eq calls id y), call_sum_insert by apply lookup_delete_eq. rewrite (call_sum_delete f _ _ _ Hid). lia.
Qed.

Section account.
Context (o : CacheOptions) (bo : BreakerOptions).

Record conn_ok (c : Conn) : Prop := {
  co_fresh id : (c_next c ≤ id)%nat → c_calls c !! id = None;
  co_count : inFlight (c_occupancy c) = call_sum call_count (c_calls c);
  co_bytes : inFlightBytes (c_occupancy c) = call_sum call_bytes (c_calls c);
  co_maxCount : inFlight (c_occupancy c) ≤ maxInFlight o;
  co_maxBytes : inFlightBytes (c_occupancy c) ≤ maxInFlightBytes o;
  co_breaker : b_inv bo (c_breaker c);
  co_without : withBreaker o = false → b_state (c_breaker c) = closed;
  co_probe : b_state (c_breaker c) = half_open → ∃ id call, c_calls c !! id = Some call ∧ probe_of call = Some (probeGeneration (c_breaker c));
}.

Context (Hthr : 0 < threshold bo).

(** What an admission does to the breaker. *)
Lemma acquire_spec now c admitted ticket c1 : conn_ok c → tryAcquireCircuit o bo now c = (admitted, ticket, c1) →
  c1 = set_breaker (c_breaker c1) c ∧ b_inv bo (c_breaker c1) ∧ (withBreaker o = false → b_state (c_breaker c1) = closed) ∧
  (admitted = false → c_breaker c1 = c_breaker c) ∧
  (b_state (c_breaker c1) = half_open → c_breaker c1 = c_breaker c ∨ ticket = Some (probeGeneration (c_breaker c1))).
Proof.
  intros Hc. unfold tryAcquireCircuit. pose proof (co_without _ Hc). destruct (withBreaker o).
  - pose proof (tryAcquire_inv bo (c_breaker c) now (co_breaker _ Hc)) as Hi. unfold tryAcquire in *.
    destruct (b_state (c_breaker c)) eqn:Eb; [intros [= <- <- <-]; split_and!; [by destruct c|done..|by left]| |].
    + case_bool_decide; simpl in *; intros [= <- <- <-]; split_and!; try done; [by right|by left].
    + rewrite (bi_half _ _ (co_breaker _ Hc) Eb) in *. intros [= <- <- <-]. split_and!; [by destruct c|done..|by left].
  - intros [= <- <- <-]. split_and!; [by destruct c|apply (co_breaker _ Hc)|done..|by left].
Qed.

Lemma add_ok c now admitted ticket c1 call oc : conn_ok c → tryAcquireCircuit o bo now c = (admitted, ticket, c1) →
  (admitted = true → probe_of call = ticket) →
  inFlight oc = inFlight (c_occupancy c) + call_count call → inFlightBytes oc = inFlightBytes (c_occupancy c) + call_bytes call →
  inFlight oc ≤ maxInFlight o → inFlightBytes oc ≤ maxInFlightBytes o → conn_ok (add_call call (set_occupancy oc c1)).
Proof.
  intros Hc E Hp H1 H2 H3 H4. destruct (acquire_spec _ _ _ _ _ Hc E) as (-> & Hi & Hwo & Hno & Hhalf). cbn [c_breaker set_breaker] in Hhalf.
  assert (Hnew : c_calls c !! c_next c = None) by (by apply (co_fresh _ Hc)). split; cbn [add_call set_occupancy set_breaker c_next c_calls c_occupancy c_breaker] in *.
  - intros id Hid. rewrite lookup_insert_ne by lia. apply (co_fresh _ Hc). lia.
  - rewrite call_sum_insert by done. rewrite H1, (co_count _ Hc). lia.
  - rewrite call_sum_insert by done. rewrite H2, (co_bytes _ Hc). lia.
  - done.
  - done.
  - done.
  - done.
  - intros Hs. destruct (Hhalf Hs) as [Hsame|Ht].
    + rewrite Hsame in *. destruct (co_probe _ Hc Hs) as (id & x & Hx & Hpx). exists id, x. split; [|done]. rewrite lookup_insert_ne; [done|]. intros <-. congruence.
    + destruct admitted; [|by rewrite (Hno eq_refl) in *; destruct (co_probe _ Hc Hs) as (id & x & Hx & Hpx); exists id, x; split; [rewrite lookup_insert_ne; [done|intros <-; congruence]|done]].
      exists (c_next c), call. by rewrite lookup_insert_eq, (Hp eq_refl).
Qed.

Lemma update_ok c id call x oc b : conn_ok c → c_calls c !! id = Some call →
  match x with Some y => call_count y = 0 ∧ call_bytes y = 0 | None => True end →
  inFlight oc = inFlight (c_occupancy c) - call_count call → inFlightBytes oc = inFlightBytes (c_occupancy c) - call_bytes call →
  b_inv bo b → (withBreaker o = false → b_state b = closed) →
  (b_state b = half_open → b = c_breaker c ∧ (probe_of call = Some (probeGeneration b) → ∃ y, x = Some y ∧ probe_of y = probe_of call)) →
  conn_ok (mkConn oc b (update_call id x (c_calls c)) (c_next c)).
Proof.
  intros Hc Hid Hx H1 H2 Hi Hwo Hhalf.
  assert (Hlt : (id < c_next c)%nat) by (destruct (decide (c_next c ≤ id)%nat) as [Hle|]; [by rewrite (co_fresh _ Hc id Hle) in Hid|lia]).
  pose proof (call_count_nonneg call). pose proof (call_bytes_nonneg call). pose proof (co_maxCount _ Hc). pose proof (co_maxBytes _ Hc).
  split; cbn [c_next c_calls c_occupancy c_breaker]; [| | |lia|lia|done|done|].
  - intros j Hj. pose proof (co_fresh _ Hc j Hj). destruct x; simpl; [rewrite lookup_insert_ne by lia; done|rewrite lookup_delete_ne by lia; done].
  - rewrite (call_sum_update _ _ _ _ _ Hid), H1, (co_count _ Hc). destruct x as [y|]; [destruct Hx; lia|lia].
  - rewrite (call_sum_update _ _ _ _ _ Hid), H2, (co_bytes _ Hc). destruct x as [y|]; [destruct Hx; lia|lia].
  - intros Hs. destruct (Hhalf Hs) as [-> Hkeep]. destruct (co_probe _ Hc Hs) as (j & z & Hz & Hpz). destruct (decide (j = id)) as [->|Hne].
    + simplify_eq. destruct (Hkeep Hpz) as (y & -> & Hy). exists id, y. simpl. by rewrite lookup_insert_eq, Hy.
    + exists j, z. split; [|done]. destruct x; simpl; [by rewrite lookup_insert_ne|by rewrite lookup_delete_ne].
Qed.

(** A result that leaves the breaker half open was not the probe's. *)
Lemma settled_half ok probe now b : b_inv bo b → let b' := if ok : bool then recordSuccess b probe else recordFailure bo b probe now in
  b_inv bo b' ∧ (b_state b' = half_open → b' = b ∧ probe ≠ Some (probeGeneration b)).
Proof.
  intros Hi. destruct ok; (split; [by apply recordSuccess_inv || by apply recordFailure_inv|]).
  - unfold recordSuccess. case_decide as E1; [by rewrite E1|]. case_decide as E2; [by destruct E2|done].
  - unfold recordFailure, openBreaker. case_decide as E1; [by case_decide|]. by case_decide.
Qed.

(** A call is settled and ends, or goes on without a ticket. *)
Lemma settle_ok c id call x ok now oc : conn_ok c → c_calls c !! id = Some call →
  match x with Some y => call_count y = 0 ∧ call_bytes y = 0 | None => True end →
  inFlight oc = inFlight (c_occupancy c) - call_count call → inFlightBytes oc = inFlightBytes (c_occupancy c) - call_bytes call →
  conn_ok (set_occupancy oc (settle o bo ok (probe_of call) now (set_calls (update_call id x (c_calls c)) c))).
Proof.
  intros Hc Hid Hx H1 H2. unfold settle. destruct (withBreaker o) eqn:Ew.
  - destruct (settled_half ok (probe_of call) now (c_breaker c) (co_breaker _ Hc)) as [Hi Hh].
    apply (update_ok c id call x); [done..|by rewrite Ew|]. cbn [c_breaker set_calls set_breaker]. intros Hs. destruct (Hh Hs) as [Eb Hne]. split; [done|]. intros Hp. by rewrite Eb in Hp.
  - apply (update_ok c id call x); [done..|apply Hc|apply Hc|]. cbn [c_breaker set_calls]. by rewrite (co_without _ Hc Ew).
Qed.

Lemma same_occupancy c : set_occupancy (c_occupancy c) c = c.
Proof. by destruct c. Qed.

(** The same for calls that are not backfills. *)
Lemma settle_read_ok c id call x ok now : conn_ok c → c_calls c !! id = Some call → call_count call = 0 → call_bytes call = 0 →
  match x with Some y => call_count y = 0 ∧ call_bytes y = 0 | None => True end →
  conn_ok (settle o bo ok (probe_of call) now (set_calls (update_call id x (c_calls c)) c)).
Proof.
  intros Hc Hid H1 H2 Hx. rewrite <- (same_occupancy (settle _ _ _ _ _ _)). rewrite (proj2 (proj2 (settle_keeps o bo ok (probe_of call) now _))).
  apply (settle_ok c id call x ok now); [done..|simpl; lia|simpl; lia].
Qed.

(** A call of the database ends. *)
Lemma plain_end_ok c id call : conn_ok c → c_calls c !! id = Some call → probe_of call = None → call_count call = 0 → call_bytes call = 0 →
  conn_ok (set_calls (delete id (c_calls c)) c).
Proof.
  intros Hc Hid Hp H1 H2. apply (update_ok c id call None); [done..|simpl; lia|simpl; lia|apply Hc|apply Hc|]. intros _. split; [done|]. by rewrite Hp.
Qed.

Lemma add_read_ok c now admitted ticket c1 call : conn_ok c → tryAcquireCircuit o bo now c = (admitted, ticket, c1) →
  (admitted = true → probe_of call = ticket) → call_count call = 0 → call_bytes call = 0 → conn_ok (add_call call c1).
Proof.
  intros Hc E Hp H1 H2. rewrite <- (same_occupancy c1). pose proof (acquire_keeps o bo now c) as Hk. rewrite E in Hk. destruct Hk as (_ & _ & Hk).
  pose proof (co_maxCount _ Hc). pose proof (co_maxBytes _ Hc). apply (add_ok c now admitted ticket c1); [done..|rewrite Hk; lia|rewrite Hk; lia|by rewrite Hk|by rewrite Hk].
Qed.

Lemma add_plain_ok c call : conn_ok c → call_count call = 0 → call_bytes call = 0 → conn_ok (add_call call c).
Proof.
  intros Hc H1 H2. assert (Hnew : c_calls c !! c_next c = None) by (by apply (co_fresh _ Hc)).
  split; cbn [add_call c_next c_calls c_occupancy c_breaker]; [| | |apply Hc|apply Hc|apply Hc|apply Hc|].
  - intros id Hid. rewrite lookup_insert_ne by lia. apply (co_fresh _ Hc). lia.
  - rewrite call_sum_insert by done. rewrite (co_count _ Hc). lia.
  - rewrite call_sum_insert by done. rewrite (co_bytes _ Hc). lia.
  - intros Hs. destruct (co_probe _ Hc Hs) as (id & x & Hx & Hpx). exists id, x. split; [|done]. rewrite lookup_insert_ne; [done|]. intros <-. congruence.
Qed.

Lemma occupancy_ok c oc : conn_ok c → inFlight oc = inFlight (c_occupancy c) → inFlightBytes oc = inFlightBytes (c_occupancy c) → conn_ok (set_occupancy oc c).
Proof. intros Hc H1 H2. destruct Hc. split; simpl; rewrite ?H1, ?H2; done. Qed.

(** *** The operations *)

Lemma refused_same now c ticket c1 : conn_ok c → tryAcquireCircuit o bo now c = (false, ticket, c1) → c1 = c.
Proof. intros Hc E. destruct (acquire_spec _ _ _ _ _ Hc E) as (E1 & _ & _ & Hno & _). rewrite E1, (Hno eq_refl). by destruct c. Qed.

Lemma set_start_account tenant sha data now c : conn_ok c → conn_ok (set_start o bo tenant sha data now c).2.
Proof.
  intros Hc. unfold set_start. destruct (negb (enabled o)); [done|]. case_decide; [done|]. case_decide; [by apply occupancy_ok|]. case_decide; [by apply occupancy_ok|].
  destruct (tryAcquireCircuit o bo now c) as [[[] ticket] c1] eqn:E; simpl; [|by rewrite (refused_same _ _ _ _ Hc E)].
  pose proof (acquire_keeps o bo now c) as Hk. rewrite E in Hk. destruct Hk as (_ & _ & Hk).
  apply (add_ok c now true ticket c1); rewrite ?Hk; simpl; [done..|lia|lia].
Qed.

Lemma backfill_account tenant rows now c : conn_ok c → conn_ok (backfill_all o bo tenant rows now c).2.
Proof.
  revert c. induction rows as [|[sha data] rows IH]; intros c Hc; [done|]. cbn [backfill_all]. pose proof (set_start_account tenant sha data now c Hc) as Hc1.
  destruct (set_start o bo tenant sha data now c) as [s1 c1]. pose proof (IH c1 Hc1). by destruct (backfill_all o bo tenant rows now c1).
Qed.

Lemma set_end_account id ok now c : conn_ok c → conn_ok (set_end o bo id ok now c).
Proof.
  intros Hc. unfold set_end. destruct (c_calls c !! id) as [[| |data probe| |]|] eqn:E; try done. unfold occupy. cbv zeta.
  apply (settle_ok c id (CSet data probe) None ok now); [done..| |]; rewrite (proj2 (proj2 (settle_keeps o bo ok probe now _))); simpl; lia.
Qed.

Lemma get_start_account tenant sha now c : conn_ok c → conn_ok (get_start o bo tenant sha now c).
Proof.
  intros Hc. unfold get_start. destruct (negb (enabled o)); [by apply add_plain_ok|]. destruct (tryAcquireCircuit o bo now c) as [[[] ticket] c1] eqn:E.
  - by apply (add_read_ok c now true ticket c1).
  - by apply (add_read_ok c now false ticket c1).
Qed.

Lemma settle_calls ok probe now c calls calls' : set_calls calls (settle o bo ok probe now (set_calls calls' c)) = settle o bo ok probe now (set_calls calls c).
Proof. unfold settle. by destruct (withBreaker o). Qed.

Lemma get_reply_account id reply now c : conn_ok c → conn_ok (get_reply o bo id reply now c).2.
Proof.
  intros Hc. unfold get_reply. destruct (c_calls c !! id) as [[tenant sha probe| | | |]|] eqn:E; try done.
  destruct reply as [[bytes|]|]; cbn [snd]; rewrite ?settle_calls.
  - by apply (settle_read_ok c id (CGet tenant sha probe) None).
  - by apply (settle_read_ok c id (CGet tenant sha probe) (Some (CSelect tenant sha))).
  - by apply (settle_read_ok c id (CGet tenant sha probe) (Some (CSelect tenant sha))).
Qed.

Lemma get_select_account id d now c : conn_ok c → conn_ok (get_select o bo id d now c).2.
Proof.
  intros Hc. unfold get_select. destruct (c_calls c !! id) as [[|tenant sha| | |]|] eqn:E; try done.
  pose proof (plain_end_ok c id _ Hc E eq_refl eq_refl eq_refl) as Hd. destruct (getBlobNoTx sha d) as [bytes|]; [|done].
  pose proof (backfill_account tenant [(sha, bytes)] now _ Hd). by destruct (backfill_all o bo tenant [(sha, bytes)] now _).
Qed.

Lemma prewarm_start_account tenant sandboxId budget d now c : conn_ok c → conn_ok (prewarm_start o bo tenant sandboxId budget d now c).2.
Proof.
  intros Hc. unfold prewarm_start. case_decide; [done|]. case_decide; [done|]. destruct (negb (enabled o)); [by apply add_plain_ok|].
  destruct (tryAcquireCircuit o bo now c) as [[[] ticket] c1] eqn:E.
  - by apply (add_read_ok c now true ticket c1).
  - by apply (add_read_ok c now false ticket c1).
Qed.

Lemma mget_reply_account id reply now c : conn_ok c → conn_ok (mget_reply o bo id reply now c).
Proof.
  intros Hc. unfold mget_reply. destruct (c_calls c !! id) as [[| | |tenant rows out probe|]|] eqn:E; try done. destruct reply as [bufs|]; [case_decide|].
  - by apply (settle_read_ok c id (CMget tenant rows out probe) (Some (CJoin tenant rows (out ++ bufs)))).
  - apply (update_ok c id (CMget tenant rows out probe) (Some (CMget tenant rows (out ++ bufs) probe))); [done..|simpl; lia|simpl; lia|apply Hc|apply Hc|].
    intros _. split; [done|]. intros _. by eexists.
  - by apply (settle_read_ok c id (CMget tenant rows out probe) (Some (CJoin tenant rows (const None <$> rows)))).
Qed.

Lemma prewarm_join_account id d now c : conn_ok c → conn_ok (prewarm_join o bo id d now c).2.
Proof.
  intros Hc. unfold prewarm_join. destruct (c_calls c !! id) as [[| | | |tenant rows hits]|] eqn:E; try done.
  pose proof (plain_end_ok c id _ Hc E eq_refl eq_refl eq_refl) as Hd. pose proof (backfill_account tenant (pgRows (misses rows hits) d) now _ Hd).
  by destruct (backfill_all o bo tenant _ now _).
Qed.

Lemma new_account : 0 ≤ maxInFlight o → 0 ≤ maxInFlightBytes o → conn_ok (newConn o).
Proof. intros H1 H2. split; simpl; done. Qed.

Lemma net_account hash n i : 0 ≤ maxInFlight o → 0 ≤ maxInFlightBytes o → net_reached o bo hash n → conn_ok (net_conn o i n).
Proof.
  intros H1 H2 Hr. revert i. induction Hr as [|e n _ IH _]; intros i; [by apply new_account|].
  assert (Hput : ∀ j sent c n0, n_conns n0 = n_conns n → conn_ok c → conn_ok (net_conn o i (put_conn j sent c n0))).
  { intros j sent c n0 En Hc. rewrite net_conn_put. case_decide; [done|]. unfold net_conn. rewrite En. apply IH. }
  assert (Hwrite : ∀ j t d datas now, conn_ok (net_conn o i (write_through o bo hash j t d datas now n))).
  { intros j t d datas now. unfold write_through. pose proof (backfill_account t (blob_rows hash datas) now _ (IH j)).
    destruct (backfill_all o bo t (blob_rows hash datas) now (net_conn o j n)). by apply Hput. }
  destruct e as [j t data now|j t datas now|j t data committed now|t d|j t sha now|j id reaches now|j id now|j t sb budget now|j id reaches now|j id now|j id ok now|key data|key|j t shas now reached];
    cbn [net_step]; try apply Hwrite; try (apply (IH i)).
  - apply Hput; [done|]. apply get_start_account, IH.
  - pose proof (get_reply_account id (if reaches then Some (redis_get (net_conn o j n) id n) else None) now _ (IH j)). destruct (get_reply o bo id _ now _). by apply Hput.
  - pose proof (get_select_account id (net_db (call_tenant (net_conn o j n) id) n) now _ (IH j)). destruct (get_select o bo id _ now _) as [[]]. by apply Hput.
  - pose proof (prewarm_start_account t sb budget (net_db t n) now _ (IH j)). destruct (prewarm_start o bo t sb budget _ now _). by apply Hput.
  - apply Hput; [done|]. apply mget_reply_account, IH.
  - pose proof (prewarm_join_account id (net_db (call_tenant (net_conn o j n) id) n) now _ (IH j)). destruct (prewarm_join o bo id _ now _) as [[]]. by apply Hput.
  - apply Hput; [done|]. apply set_end_account, IH.
Qed.
End account.

(** C38: Backfills stay within the budget of their connection, and never wedge its
    breaker. At any time, on any replica: the account counts exactly the
    backfills that have not ended, of all tenants together, and their bytes, and
    both are within the limits; when none is unfinished nothing is left on the
    account. A half-open breaker always has its probe in a call that has not
    ended, and whatever comes of that call, the breaker is then open or closed. *)
Theorem backfills_bounded o bo hash n i :
  0 ≤ maxInFlight o → 0 ≤ maxInFlightBytes o → 0 < threshold bo → net_reached o bo hash n →
  0 ≤ inFlight (c_occupancy (net_conn o i n)) ≤ maxInFlight o ∧
  0 ≤ inFlightBytes (c_occupancy (net_conn o i n)) ≤ maxInFlightBytes o ∧
  inFlight (c_occupancy (net_conn o i n)) = call_sum call_count (c_calls (net_conn o i n)) ∧
  inFlightBytes (c_occupancy (net_conn o i n)) = call_sum call_bytes (c_calls (net_conn o i n)) ∧
  (b_state (c_breaker (net_conn o i n)) = half_open →
   ∃ id call probe, c_calls (net_conn o i n) !! id = Some call ∧ probe_of call = Some probe ∧
     b_state (recordSuccess (c_breaker (net_conn o i n)) (Some probe)) = closed ∧
     ∀ now, b_state (recordFailure bo (c_breaker (net_conn o i n)) (Some probe) now) = open).
Proof.
  intros H1 H2 Hthr Hr. pose proof (net_account o bo Hthr hash n i H1 H2 Hr) as Hc. pose proof (co_count _ _ _ Hc) as E1. pose proof (co_bytes _ _ _ Hc) as E2.
  pose proof (call_sum_nonneg call_count (c_calls (net_conn o i n)) call_count_nonneg). pose proof (call_sum_nonneg call_bytes (c_calls (net_conn o i n)) call_bytes_nonneg).
  pose proof (co_maxCount _ _ _ Hc). pose proof (co_maxBytes _ _ _ Hc). split; [lia|]. split; [lia|]. split; [done|]. split; [done|].
  intros Hs. destruct (co_probe _ _ _ Hc Hs) as (id & call & Hid & Hp). exists id, call, (probeGeneration (c_breaker (net_conn o i n))). split; [done|]. split; [done|].
  unfold recordSuccess, recordFailure. rewrite Hs. split; [|intros now]; repeat case_decide; simpl; try done; naive_solver.
Qed.

(** ** Runs *)

Definition demo_cache : CacheOptions := mkCacheOptions true 100 2 100 true.

Fixpoint net_run (es : list BlobEvent) (n : Net) : Net :=
  match es with [] => n | e :: es' => net_run es' (net_step demo_cache DEFAULT_OPTIONS id e n).2 end.

(** Tenant "a" writes on replica 0, the backfill arrives, and replica 1 is asked
    for the content on behalf of "a" and of "b". *)
Definition demo_shared : Net :=
  net_run [ECommitBlob 0 "a" "hi" 1; EArrive (blob_key "a" "hi") "hi"; EGetStart 1 "a" "hi" 2; EGetStart 1 "b" "hi" 2] (mkNet ∅ ∅ [] ∅ []).

Lemma net_run_reached es n : net_reached demo_cache DEFAULT_OPTIONS id n →
  (∀ k e, es !! k = Some e → net_possible e (net_run (take k es) n)) → net_reached demo_cache DEFAULT_OPTIONS id (net_run es n).
Proof.
  revert n. induction es as [|e es IH]; intros n Hn Hp; [done|]. simpl. apply IH; [apply net_event; [done|by apply (Hp 0%nat)]|]. intros k e' Hk. by apply (Hp (S k)).
Qed.

Lemma demo_shared_reached : net_reached demo_cache DEFAULT_OPTIONS id demo_shared.
Proof.
  apply net_run_reached; [apply net_start|]. intros [|[|[|[|k]]]] e; simpl; try (by intros [= <-]).
  intros [= <-]. simpl. by left.
Qed.

Lemma blob_cache_transparent_witness :
  ∃ n', net_step demo_cache DEFAULT_OPTIONS id (EGetReply 1 0 true 3) demo_shared = (ReadDone "a" "hi" (Some "hi"), n') ∧ ("a", "hi") ∈ n_written demo_shared.
Proof.
  eexists. assert (E : net_step demo_cache DEFAULT_OPTIONS id (EGetReply 1 0 true 3) demo_shared =
    (ReadDone "a" "hi" (Some "hi"), (net_step demo_cache DEFAULT_OPTIONS id (EGetReply 1 0 true 3) demo_shared).2)) by (vm_compute; reflexivity).
  split; [exact E|]. destruct (blob_cache_transparent demo_cache DEFAULT_OPTIONS id _ _ _ _ _ demo_shared_reached E) as [Hg _]. exact (proj2 (Hg "hi" eq_refl)).
Defined.

(** The other tenant does not get at it. *)
Example other_tenant_misses :
  let n := (net_step demo_cache DEFAULT_OPTIONS id (EGetReply 1 1 true 3) demo_shared).2 in
  (net_step demo_cache DEFAULT_OPTIONS id (ESelect 1 1 4) n).1 = ReadDone "b" "hi" None.
Proof. vm_compute. reflexivity. Qed.

(** Three files and a budget for two. *)
Definition demo_files_db : db :=
  mkDb ∅ {[1 := mkInode "s" FILE 420 3 0 1 (Some "x") None; 2 := mkInode "s" FILE 420 1 0 1 (Some "y") None; 3 := mkInode "s" FILE 420 2 0 1 (Some "z") None]} ∅ ∅ ∅ 4 0.

Lemma prewarm_budget_witness :
  metaRows "s" 4 demo_files_db = [mkMetaRow 2 "y" 1; mkMetaRow 3 "z" 2] ∧ total_size (metaRows "s" 4 demo_files_db) ≤ 4.
Proof.
  split; [vm_compute; reflexivity|]. apply (prewarm_budget "s" 4 demo_files_db); [lia|].
  assert (Hall : map_Forall (λ _ r, 0 ≤ i_size r) (inodes demo_files_db)) by (apply (bool_decide_unpack _); vm_compute; exact I).
  exact Hall.
Defined.

Lemma backfills_bounded_witness : inFlight (c_occupancy (net_conn demo_cache 0 demo_shared)) = 1 ∧ inFlightBytes (c_occupancy (net_conn demo_cache 0 demo_shared)) ≤ 100.
Proof.
  split; [vm_compute; reflexivity|].
  destruct (backfills_bounded demo_cache DEFAULT_OPTIONS id demo_shared 0) as (_ & [_ Hb] & _);
    [vm_compute; discriminate|vm_compute; discriminate|vm_compute; reflexivity|exact demo_shared_reached|exact Hb].
Defined.
